(* ===== verification/_CoqProject ===== *)
-Q . S2P
Prelude.v
Types.v
PeerText.v
Disk.v
BufferedFile.v
EntryCodec.v
ProtoBufFile.v
SingleMeta.v
MergedMeta.v
MixedMeta.v
Storages.v
MetaExamples.v
Ballot.v
ClosureQueue.v
BallotBox.v
ConfigurationManager.v
Lease.v
Segment.v
LogStorage.v
SegmentProofs.v
SegmentLog.v
SegmentLogProofs.v
SegmentTruncate.v
SegmentRecovery.v
SegmentLogRuns.v
FsmCaller.v
FsmCallerProofs.v
FsmCallerBatch.v
MemoryLog.v
LogManager.v
LogManagerProofs.v
LogManagerDisk.v
AppendEntriesCache.v
NodeState.v
RepeatedTimer.v
RepeatedTimerProofs.v
Node.v
NodeLog.v
Replicator.v
ReplicatorRuns.v
ReplicatorProofs.v
ReplicatorSafety.v
ReplicatorWire.v
ReplicatorGroup.v
ReplicatorGroupProofs.v
ReplicatorExamples.v
SnapshotExecutor.v
SnapshotRuns.v
SnapshotSafety.v
SnapshotProps.v
SnapshotFiles.v
SnapshotStorage.v
SnapshotCopier.v
SnapshotStorageProofs.v
SnapshotStorageSafety.v
SnapshotStorageInit.v
SnapshotStorageProps.v
SnapshotCopyProofs.v
SnapshotStorageExamples.v
SnapshotThrottle.v
FileReader.v
RemoteFileCopier.v
TransferProofs.v
RemoteFileCopierProofs.v
TransferExamples.v
NodeVote.v
VoteSafety.v
Leadership.v
VoteExamples.v
LeaderBallots.v
BallotAlignment.v
JointConsensus.v
LeaseQuorum.v
NodeExamples.v
NodeManager.v
NodeManagerProofs.v
RaftService.v
Cli.v
CliProofs.v
