(* ===== verification/Prelude.v ===== *)
(** * QuorumKit: a verification library for the braft consensus code

    The library models the C++ library under [src/src/braft/], an implementation
    of the Raft protocol: a group of peers keeps copies of a log, a leader elected
    by a majority appends to it, and every peer applies the committed entries to
    the user's state machine.  File names below are relative to [src/src/braft/].

    ** The program and its model

    A [NodeImpl] is the state machine of a peer.  It owns a log manager over a log
    storage, a storage for its term and vote, a ballot box that counts which
    entries a quorum has made stable, leases, a cache of out-of-order requests, a
    group of replicators (one for each follower while it leads), a caller of the
    user's state machine and a snapshot executor.

    Every component is a file with its state as a record, one definition for each
    operation, and the operations composed as the code composes them, in the
    state-and-output monad [M] of this file: an operation reads and changes the
    state and emits events, which are the calls it makes to what is outside the
    component (closures run, messages sent, timers, failed [CHECK]s).  An object
    behind a lock is modelled by its critical sections: one definition for what
    runs under the lock, a run being a sequence of them in any order.  What
    another component, the operating system or the clock answers is an argument
    (records named [Env], [Flags], [LogReads], ...) or a type class; scripts of
    outcomes stand for system calls that fail or are cut short.

    - Types, PeerText: [configuration.h], [log_entry.h], [raft.h]: peers, sets of
      peers, log entries, their text.  [PeerId::operator==] ignores the role:
      peers are compared up to the equivalence [≡].  The text of an IP address is the
      library's: [IpText] states that it is read back.  Peers travel in messages and
      files as text.
    - Disk, EntryCodec, ProtoBufFile: the files of [util.cpp] and
      [protobuf_file.cpp]; the bytes of an entry of [log.cpp].
    - BufferedFile: the sequential adaptors of [file_system_adaptor.cpp], over what a
      subclass gives.
    - SingleMeta begins with the interface of [storage.h] to the storage of term and
      vote, with its laws; SingleMeta, MergedMeta and MixedMeta are the three storages
      of [raft_meta.cpp]; the mixed one is proved over the interface.  NodeState
      states the smaller interface a node relies on.
    - Storages: the storages by uri of [storage.cpp] and the collection of what a group
      has left, of [raft.cpp].
    - Ballot, ClosureQueue, BallotBox: [ballot.cpp], [closure_queue.cpp],
      [ballot_box.cpp].
    - LogStorage is the interface of [storage.h] to a log, with the abstract log
      every implementation refines; Segment to SegmentLogRuns: [log.cpp]
      (SegmentTruncate cuts the end of a log, SegmentRecovery starts from a
      directory); MemoryLog: [memory_log.cpp].
    - ConfigurationManager, LogManager (with LogManagerProofs and LogManagerDisk):
      [configuration_manager.cpp], [log_manager.cpp], over any LogStorage.
    - FsmCaller (with FsmCallerProofs, FsmCallerBatch): [fsm_caller.cpp] and the
      iterator of [raft.cpp].
    - Lease: [lease.cpp]; AppendEntriesCache: the class of [node.cpp].
    - NodeState, Node, NodeLog: [node.cpp]: data; elections, leadership and
      configuration changes; the log, requests and the life cycle.  The node runs
      the definitions of LogManager, BallotBox, Lease and AppendEntriesCache; its
      calls to the others are events.
    - Replicator, ReplicatorGroup: [replicator.cpp].  ReplicatorRuns states a
      replicator's runs and the invariant of its pipeline, ReplicatorProofs that
      every call keeps it.
    - SnapshotExecutor: [snapshot_executor.cpp]; SnapshotRuns, SnapshotSafety and
      SnapshotProps state its runs and prove what they keep.
    - SnapshotFiles, SnapshotStorage, SnapshotCopier: [snapshot.cpp]: the table and
      the directory of a snapshot, the storage with its references, the copier.
      SnapshotStorageProofs states the lives of a storage, crashes included; it,
      SnapshotStorageSafety, SnapshotStorageInit, SnapshotStorageProps and
      SnapshotCopyProofs hold the proofs.
    - SnapshotThrottle, FileReader, RemoteFileCopier: [snapshot_throttle.cpp]; the
      segments of [util.cpp], [file_reader.cpp] and [file_service.cpp]; the session of
      [remote_file_copier.cpp]; proved in TransferProofs and RemoteFileCopierProofs.
    - RepeatedTimer (with RepeatedTimerProofs): [repeated_timer_task.cpp] and the
      four timers of [node.cpp].
    - NodeManager (with NodeManagerProofs): the registry of [node_manager.cpp].
      RaftService: [raft_service.cpp] and [cli_service.cpp], which run the definitions
      of Node and NodeLog on the node a request names.  Cli: the client of [cli.cpp]
      and the table of [route_table.cpp].  CliProofs holds the proofs.

    ** What the theorems show

    - Elections: VoteSafety (the votes granted to others in a term go to one peer,
      over crashes and failed writes; the node's own vote, which a failed write
      makes it forget, is not among them), Leadership (a leader counted a quorum of
      votes granted to it in its term), Lease and LeaseQuorum (a valid lease excludes
      votes and rests on a quorum of peers whose replicator started or had an answer
      lately),
      JointConsensus (quorums of consecutive configurations overlap).
    - Commitment: Ballot, BallotBox (an entry is committed only with a quorum of
      its own configuration), LeaderBallots and BallotAlignment (the pending
      ballots of a leader are one for each of its last entries, queued with the
      entries and with the configurations they are for, in every life of a node),
      ReplicatorSafety (what a replicator reports was sent
      and acknowledged; an acknowledgement moves the pipeline), ReplicatorWire (a
      follower parses the entries the leader's log holds, their peers as text; a
      witness without their data).
    - Storage: SegmentLogRuns (the log on disk refines the abstract log, failed
      appends included; a restart finds what the files hold), SegmentProofs (a closed
      segment is loaded when its file begins with the entries its name promises,
      their headers checked), ProtoBufFile (replacing a file is
      atomic), MixedMeta (the newest term and vote survive),
      MergedMeta (group commit writes whole batches, in order), EntryCodec
      and PeerText (round trips), BufferedFile (a buffered read is a read of the file,
      a buffered write a write), Storages (a collection leaves each directory whole or
      gone).
    - Log and application: LogManagerProofs (appends by leader and follower, reads),
      LogManagerDisk (one run of the disk thread is its tasks in order; release of
      memory, snapshots),
      FsmCallerProofs and FsmCallerBatch (committed entries are applied once and in
      order; gathering commits is invisible; both as long as the user's code does not
      roll back and the log can be read; errors are final).
    - Snapshots: SnapshotProps (one job at a time as long as no save is refused,
      every installation answered once, success means installed), SnapshotStorageProps
      (a snapshot in use is not touched, a closed one survives the stop of the process;
      for a storage whose copier does not link files), SnapshotCopyProofs (a copy is
      whole or not at all when no call fails, and keeps only equal files),
      RemoteFileCopierProofs (a session that ends without an error has copied the
      file of the other side, up to zeros at its end; it says once that it ends), SnapshotThrottle (the
      rate is kept).
    - Timers: RepeatedTimerProofs (one thing at a time; a destroyed timer lets its
      node go once).
    - Services: NodeManagerProofs (the registry is a set of nodes with distinct
      identities), CliProofs (a request reaches the node it names and no other; a
      change of the configuration asked by a client is the one the leader makes; the
      configurations reported are those the service has read).
    - Stepping down: ReplicatorGroupProofs (the candidate that is kept).
    - The files named Examples, and the last sections of some others, run the
      definitions on concrete inputs.  These runs are the witnesses of theorems with hypotheses, and show what
      the code does where a comment, a name or a check says otherwise.

    ** Fuel and bounds

    Recursion is structural wherever the code's loop has a bound in its data.  The
    loops with fuel are given what they need by the caller: the number of entries
    to commit (FsmCaller; running out is an event that the theorems exclude), the
    size of the map (AppendEntriesCache), of the memory log (LogManager), of the
    range to read (NodeLog), the bytes to write plus the failures in the script
    (Disk), the length of an attachment (FileReader).  [_block] of a replicator
    recurses on the number of timers that cannot be added.  Indexes and terms are [Z]; where a C++ type narrows a value the
    model wraps it ([wrap_i32] and the like): lengths of entries, sizes in the
    headers of segments, numbers parsed from text.

    ** Not modelled

    The pages that print the state of a process and the members of [raft.cpp] that
    forward a call to a node are left out.  Left out for good:
    bthreads, brpc and protobuf (libraries; threads are orders of critical
    sections, messages are records), metrics and [describe] pages, reference
    counts except where they go wrong, and the vendored templates of
    [closure_helper.h]. *)

From stdpp Require Export base list numbers option strings fin_maps gmap sorting.
From Stdlib Require Export ZArith Lia.

#[global] Open Scope Z_scope.

(** ** Error codes

    The program returns POSIX [errno] values, the codes of
    [src/braft/errno.proto] and the bare value [-1].  The model keeps them
    symbolic: the code only ever compares a code with another code or with 0. *)
Inductive Errno : Set :=
| OK | ENEG1
| EPERM | EACCES | ENOENT | EINTR | EIO | EAGAIN | EBUSY | EEXIST | EINVAL | ERANGE | ENOMEM
| ETIMEDOUT | EHOSTDOWN | EHOSTUNREACH | ESTALE | ESTOP | ECANCELED
| EREQUEST | EINTERNAL
| ERAFTTIMEDOUT | ESTATEMACHINE | ECATCHUP | ELEADERREMOVED | ESETPEER
| ESHUTDOWN | EHIGHERTERMREQUEST | EHIGHERTERMRESPONSE | EBADNODE
| EVOTEFORCANDIDATE | ENEWLEADER | ELEADERCONFLICT | ETRANSFERLEADERSHIP
| ELOGDELETED | ENOMOREUSERLOG | EREADONLY.

#[export] Instance Errno_eq_dec : EqDecision Errno.
Proof. solve_decision. Defined.

Definition ok (e : Errno) : bool := bool_decide (e = OK).
Lemma ok_true e : ok e = true -> e = OK.
Proof. apply bool_decide_eq_true. Qed.

(** A [Closure*] is an opaque identity; [None] is [NULL]. *)
Abbreviation Closure := positive.

(** ** Machine integers *)

Definition wrap_i32 (z : Z) : Z := (z + 2 ^ 31) mod 2 ^ 32 - 2 ^ 31.
Definition wrap_u32 (z : Z) : Z := z mod 2 ^ 32.
Definition wrap_i64 (z : Z) : Z := (z + 2 ^ 63) mod 2 ^ 64 - 2 ^ 63.
Definition wrap_u64 (z : Z) : Z := z mod 2 ^ 64.

Lemma wrap_i32_small z : - 2 ^ 31 <= z < 2 ^ 31 -> wrap_i32 z = z.
Proof. intros. unfold wrap_i32. rewrite Z.mod_small; lia. Qed.

Lemma wrap_i64_small z : - 2 ^ 63 <= z < 2 ^ 63 -> wrap_i64 z = z.
Proof. intros. unfold wrap_i64. rewrite Z.mod_small; lia. Qed.

(** ** Field update

    [r <| f := v |>] is [r] with the field [f] set to [v].  A record declares
    its eta expansion as a [Settable] instance, from which the setter of each
    field is computed; small records declare their [Setter] by hand. *)
Class Setter {R T : Type} (proj : R -> T) := set_field : T -> R -> R.
Arguments set_field {R T} proj {_} _ _ : simpl nomatch.
#[global] Hint Mode Setter - - ! : typeclass_instances.

Class Settable (R : Type) : Type := eta_expansion : R -> R.

(** Abstracts the projection out of the eta expansion. *)
Ltac derive_setter :=
  match goal with
  | |- @Setter ?R ?T ?proj =>
      let inst := constr:(_ : Settable R) in
      let eta := eval red in inst in
      let abstracted := eval pattern proj in eta in
      match abstracted with
      | ?f _ =>
          let setter := constr:(fun (v : T) (r : R) => f (fun _ => v) r) in
          let setter := eval cbv beta in setter in
          exact setter
      end
  end.
#[export] Hint Extern 2 (Setter _) => derive_setter : typeclass_instances.

Notation "r <| f := v |>" := (set_field f v r)
  (at level 1, left associativity, f at level 9, v at level 99,
   format "r  <| f  :=  v |>").

(** ** A state and output monad

    Operations that thread a component's state through several calls and emit
    events (callbacks, messages, closures run) are written in it. *)
Definition M (S E A : Type) : Type := S -> A * S * list E.

#[export] Instance M_ret {S E} : MRet (M S E) := fun A a s => (a, s, []).
#[export] Instance M_bind {S E} : MBind (M S E) := fun A B f m s =>
  let '(a, s1, e1) := m s in
  let '(b, s2, e2) := f a s1 in
  (b, s2, e1 ++ e2).

Section monad.
Context {S E : Type}.
Definition get : M S E S := fun s => (s, s, []).
Definition put (s : S) : M S E unit := fun _ => (tt, s, []).
Definition modify (f : S -> S) : M S E unit := fun s => (tt, f s, []).
Definition gets {A} (f : S -> A) : M S E A := fun s => (f s, s, []).
Definition emit (e : E) : M S E unit := fun s => (tt, s, [e]).
Definition emits (es : list E) : M S E unit := fun s => (tt, s, es).
Definition skip : M S E unit := fun s => (tt, s, []).
Definition when (b : bool) (m : M S E unit) : M S E unit := if b then m else skip.
Definition mapM_ {A} (f : A -> M S E unit) : list A -> M S E unit :=
  fix go l := match l with [] => skip | x :: l => f x ;; go l end.

Definition state_of {A} (r : A * S * list E) : S := r.1.2.
Definition events_of {A} (r : A * S * list E) : list E := r.2.
Definition value_of {A} (r : A * S * list E) : A := r.1.1.

(** Weakest precondition: the postcondition sees the value, the final state
    and the events emitted. *)
Definition wp {A} (m : M S E A) (Q : A -> S -> list E -> Prop) (s : S) : Prop :=
  Q (value_of (m s)) (state_of (m s)) (events_of (m s)).

Lemma wp_ret {A} (a : A) (Q : A -> S -> list E -> Prop) s :
  Q a s [] -> wp (mret a) Q s.
Proof. done. Qed.

Lemma wp_bind {A B} (m : M S E A) (f : A -> M S E B) (Q : B -> S -> list E -> Prop) s :
  wp m (fun a s1 e1 => wp (f a) (fun b s2 e2 => Q b s2 (e1 ++ e2)) s1) s ->
  wp (m ≫= f) Q s.
Proof.
  unfold wp, value_of, state_of, events_of, mbind, M_bind.
  destruct (m s) as [[a s1] e1]; simpl. by destruct (f a s1) as [[b s2] e2].
Qed.

Lemma wp_get (Q : S -> S -> list E -> Prop) s : Q s s [] -> wp get Q s.
Proof. done. Qed.
Lemma wp_modify (f : S -> S) (Q : unit -> S -> list E -> Prop) s : Q tt (f s) [] -> wp (modify f) Q s.
Proof. done. Qed.
Lemma wp_emit (e : E) (Q : unit -> S -> list E -> Prop) s : Q tt s [e] -> wp (emit e) Q s.
Proof. done. Qed.

Lemma wp_mono {A} (m : M S E A) (Q Q' : A -> S -> list E -> Prop) s :
  (forall a s' e, Q a s' e -> Q' a s' e) -> wp m Q s -> wp m Q' s.
Proof. unfold wp; auto. Qed.
End monad.

Lemma get_bind {S E B} (f : S -> M S E B) (s : S) : (get ≫= f) s = f s s.
Proof. unfold mbind, M_bind, get. by destruct (f s s) as [[b s'] e]. Qed.

Lemma mret_bind {S E A B} (a : A) (f : A -> M S E B) (s : S) : (mret a ≫= f) s = f a s.
Proof. unfold mbind, M_bind, mret, M_ret. by destruct (f a s) as [[b s'] e]. Qed.

Lemma bind_bind {S E A B C} (m : M S E A) (f : A -> M S E B) (g : B -> M S E C) (s : S) :
  ((m ≫= f) ≫= g) s = (m ≫= (fun a => f a ≫= g)) s.
Proof.
  unfold mbind, M_bind. destruct (m s) as [[a s1] e1]. destruct (f a s1) as [[b s2] e2].
  destruct (g b s2) as [[c s3] e3]. by rewrite app_assoc.
Qed.

Lemma bind_quiet {S E A B} (m : M S E A) (f : A -> M S E B) s a s1 :
  m s = (a, s1, []) -> (m ≫= f) s = f a s1.
Proof. unfold mbind, M_bind. intros ->. by destruct (f a s1) as [[b s2] e2]. Qed.

Lemma bind_run {S E A B} (m : M S E A) (f : A -> M S E B) s a s1 e1 b s2 e2 :
  m s = (a, s1, e1) -> f a s1 = (b, s2, e2) -> (m ≫= f) s = (b, s2, e1 ++ e2).
Proof. unfold mbind, M_bind. by intros -> ->. Qed.

Lemma modify_bind {S E B} (f : S -> S) (k : unit -> M S E B) (s : S) : (modify f ≫= k) s = k tt (f s).
Proof. unfold mbind, M_bind, modify. by destruct (k tt (f s)) as [[b s'] e]. Qed.

Lemma emit_bind {S E B} (e : E) (k : unit -> M S E B) (s : S) :
  (emit e ≫= k) s = let '(b, s', ev) := k tt s in (b, s', e :: ev).
Proof. done. Qed.

(** [wpt m Q s tr]: [wp] with the events appended to those of the run so far,
    [tr]: the shape of the statements about what has happened. *)
Definition wpt {S E A} (m : M S E A) (Q : A -> S -> list E -> Prop) (s : S) (tr : list E) : Prop :=
  Q (value_of (m s)) (state_of (m s)) (tr ++ events_of (m s)).

Section wpt.
Context {S E : Type}.

Lemma wpt_bind {A B} (m : M S E A) (f : A -> M S E B) (Q : B -> S -> list E -> Prop) s tr :
  wpt m (fun a => wpt (f a) Q) s tr -> wpt (m ≫= f) Q s tr.
Proof.
  unfold wpt, value_of, state_of, events_of, mbind, M_bind.
  destruct (m s) as [[a s1] e1]; simpl. destruct (f a s1) as [[b s2] e2]; simpl. by rewrite app_assoc.
Qed.
Lemma wpt_ret {A} (a : A) (Q : A -> S -> list E -> Prop) s tr : Q a s tr -> wpt (mret a) Q s tr.
Proof. unfold wpt. cbn. by rewrite app_nil_r. Qed.
Lemma wpt_skip (Q : unit -> S -> list E -> Prop) s tr : Q tt s tr -> wpt skip Q s tr.
Proof. unfold wpt. cbn. by rewrite app_nil_r. Qed.
Lemma wpt_get (Q : S -> S -> list E -> Prop) s tr : Q s s tr -> wpt get Q s tr.
Proof. unfold wpt. cbn. by rewrite app_nil_r. Qed.
Lemma wpt_modify (f : S -> S) (Q : unit -> S -> list E -> Prop) s tr : Q tt (f s) tr -> wpt (modify f) Q s tr.
Proof. unfold wpt. cbn. by rewrite app_nil_r. Qed.
Lemma wpt_emit (e : E) (Q : unit -> S -> list E -> Prop) s tr : Q tt s (tr ++ [e]) -> wpt (emit e) Q s tr.
Proof. done. Qed.
Lemma wpt_when (b : bool) (m : M S E unit) (Q : unit -> S -> list E -> Prop) s tr :
  (b = true -> wpt m Q s tr) -> (b = false -> Q tt s tr) -> wpt (when b m) Q s tr.
Proof. destruct b; [auto|]. intros _ HQ. apply wpt_skip. auto. Qed.
Lemma wpt_mono {A} (m : M S E A) (Q Q' : A -> S -> list E -> Prop) s tr :
  wpt m Q s tr -> (forall a s' tr', Q a s' tr' -> Q' a s' tr') -> wpt m Q' s tr.
Proof. unfold wpt. auto. Qed.
End wpt.

Lemma wpt_bind_inv {S E A B} (m : M S E A) (f : A -> M S E B) (Q : B -> S -> list E -> Prop) s tr :
  wpt (m ≫= f) Q s tr -> wpt m (fun a => wpt (f a) Q) s tr.
Proof.
  unfold wpt, value_of, state_of, events_of, mbind, M_bind.
  destruct (m s) as [[a s1] e1]; simpl. destruct (f a s1) as [[b s2] e2]; simpl. by rewrite app_assoc.
Qed.

Lemma wpt_any {S E A} (m : M S E A) (Q : A -> S -> list E -> Prop) s tr : (forall a s' tr', Q a s' tr') -> wpt m Q s tr.
Proof. intros HQ. apply HQ. Qed.

(** Goes through the code of an operation, up to its branches and calls. *)
Ltac wpt_step :=
  match goal with
  | |- wpt (mbind _ _) _ _ _ => apply wpt_bind
  | |- wpt (mret _) _ _ _ => apply wpt_ret
  | |- wpt skip _ _ _ => apply wpt_skip
  | |- wpt get _ _ _ => apply wpt_get
  | |- wpt (modify _) _ _ _ => apply wpt_modify
  | |- wpt (emit _) _ _ _ => apply wpt_emit
  | |- wpt (when _ _) _ _ _ => apply wpt_when; intros
  end; cbv beta.
Ltac wpt_go := repeat wpt_step.

(** [obeys R P m]: the operation [m] relates the states before and after it by
    the preorder [R], and every event it emits satisfies [P].  Closed under
    sequencing, it is the shape of the statements that a class of operations
    never lowers, changes or emits something. *)
Definition obeys {S E A} (R : S -> S -> Prop) (P : E -> Prop) (m : M S E A) : Prop :=
  forall s, R s (state_of (m s)) /\ Forall P (events_of (m s)).

Section obeys.
Context {S E : Type} (R : S -> S -> Prop) `{!PreOrder R} (P : E -> Prop).

Lemma obeys_ret {A} (a : A) : obeys R P (mret a).
Proof. split; [by apply reflexivity|constructor]. Qed.
Lemma obeys_skip : obeys R P skip.
Proof. split; [by apply reflexivity|constructor]. Qed.
Lemma obeys_get : obeys R P get.
Proof. split; [by apply reflexivity|constructor]. Qed.
Lemma obeys_emit (e : E) : P e -> obeys R P (emit e).
Proof. intros He. split; [by apply reflexivity|by repeat constructor]. Qed.
Lemma obeys_modify (f : S -> S) : (forall s, R s (f s)) -> obeys R P (modify f).
Proof. intros Hf s. split; [apply Hf|constructor]. Qed.
Lemma obeys_bind {A B} (m : M S E A) (f : A -> M S E B) :
  obeys R P m -> (forall a, obeys R P (f a)) -> obeys R P (m ≫= f).
Proof.
  intros Hm Hf s. destruct (Hm s) as [Hr Hp].
  unfold mbind, M_bind, state_of, events_of in *. destruct (m s) as [[a s1] e1]; simpl in *.
  destruct (Hf a s1) as [Hr' Hp']. unfold state_of, events_of in *.
  destruct (f a s1) as [[b s2] e2]; simpl in *. split; [by transitivity s1|by apply Forall_app].
Qed.
(** After [get] the rest is run in the state that was read. *)
Lemma obeys_get_bind {B} (f : S -> M S E B) :
  (forall s, R s (state_of (f s s)) /\ Forall P (events_of (f s s))) -> obeys R P (get ≫= f).
Proof. intros Hf s. rewrite get_bind. apply Hf. Qed.
Lemma obeys_when (b : bool) (m : M S E unit) : obeys R P m -> obeys R P (when b m).
Proof. intros H. destruct b; [done|apply obeys_skip]. Qed.
Lemma obeys_mapM_ {A} (f : A -> M S E unit) l : (forall a, obeys R P (f a)) -> obeys R P (mapM_ f l).
Proof.
  intros Hf. induction l as [|a l IH]; [apply obeys_skip|].
  change (obeys R P (f a ;; mapM_ f l)). by apply obeys_bind.
Qed.
End obeys.

Lemma obeys_mono {S E A} (R R' : S -> S -> Prop) (P P' : E -> Prop) (m : M S E A) :
  (forall s s', R s s' -> R' s s') -> (forall e, P e -> P' e) -> obeys R P m -> obeys R' P' m.
Proof. intros HR HP Hm s. destruct (Hm s) as [H1 H2]. split; [by apply HR|by eapply Forall_impl]. Qed.

Lemma wp_obeys {S E A} (R : S -> S -> Prop) (P : E -> Prop) (m : M S E A) (Q : A -> S -> list E -> Prop) s :
  obeys R P m -> (forall a s' ev, R s s' -> Forall P ev -> Q a s' ev) -> wp m Q s.
Proof. intros Hm HQ. destruct (Hm s). by apply HQ. Qed.

Lemma wpt_obeys {S E A} (R : S -> S -> Prop) (P : E -> Prop) (m : M S E A) (Q : A -> S -> list E -> Prop) s tr :
  obeys R P m -> (forall a s' ev, R s s' -> Forall P ev -> Q a s' (tr ++ ev)) -> wpt m Q s tr.
Proof. intros Hm HQ. destruct (Hm s). by apply HQ. Qed.

Create HintDb obeys discriminated.
#[export] Hint Resolve obeys_ret obeys_skip obeys_get : obeys.

(** Goes through the code of an operation; what is left are the operations with
    no lemma in [obeys], the state changes and the events. *)
Ltac obey_step :=
  match goal with
  | |- PreOrder _ => exact _
  | |- obeys _ _ (mret _) => apply obeys_ret
  | |- obeys _ _ skip => apply obeys_skip
  | |- obeys _ _ get => apply obeys_get
  | |- obeys _ _ (emit _) => apply obeys_emit; try done
  | |- obeys _ _ (when _ _) => apply obeys_when
  | |- obeys _ _ (mapM_ _ _) => apply obeys_mapM_; intros
  | |- obeys _ _ (mbind _ _) => apply obeys_bind; intros
  | |- obeys _ _ (if ?b then _ else _) => destruct b
  | |- obeys _ _ (match ?x with _ => _ end) => destruct x
  | |- obeys _ _ (let _ := _ in _) => cbv zeta
  | |- obeys _ _ _ => solve [eauto with obeys typeclass_instances]
  end.
Ltac obey := repeat obey_step.

(** ** Lists indexed by machine integers *)

Definition zlen {A} (l : list A) : Z := Z.of_nat (length l).

(** [l[i]] of a vector or deque, [None] out of range. *)
Definition zget {A} (l : list A) (i : Z) : option A :=
  if bool_decide (i < 0) then None else l !! Z.to_nat i.

Lemma zget_Some {A} (l : list A) i x :
  zget l i = Some x <-> 0 <= i /\ l !! Z.to_nat i = Some x.
Proof. unfold zget. case_bool_decide; intuition (try lia; try done). Qed.

Lemma zget_is_Some {A} (l : list A) i :
  0 <= i < zlen l -> exists x, zget l i = Some x.
Proof.
  unfold zlen. intros [? ?]. destruct (lookup_lt_is_Some_2 l (Z.to_nat i)) as [x Hx]; [lia|].
  exists x. by apply zget_Some.
Qed.

Lemma zlen_nil {A} : zlen (@nil A) = 0.
Proof. done. Qed.
Lemma zlen_cons {A} (x : A) l : zlen (x :: l) = 1 + zlen l.
Proof. unfold zlen. simpl. lia. Qed.
Lemma zlen_app {A} (l k : list A) : zlen (l ++ k) = zlen l + zlen k.
Proof. unfold zlen. rewrite length_app. lia. Qed.
Lemma zlen_nonneg {A} (l : list A) : 0 <= zlen l.
Proof. unfold zlen. lia. Qed.

Create Rewrite HintDb zlen.
#[export] Hint Rewrite @zlen_nil @zlen_cons @zlen_app : zlen.

(** The pigeonhole behind every quorum argument: two sub-multisets of a list
    that together outnumber it share an element. *)
Lemma filter_overlap {A} (P Q : A -> Prop) `{!forall x, Decision (P x), !forall x, Decision (Q x)} l :
  (length l < length (filter P l) + length (filter Q l))%nat ->
  exists x, x ∈ l /\ P x /\ Q x.
Proof.
  induction l as [|a l IH]; [simpl; lia|].
  rewrite !filter_cons. simpl. intros Hlen.
  destruct (decide (P a)) as [HP|]; destruct (decide (Q a)) as [HQ|]; simpl in Hlen;
    [exists a; split; [apply list_elem_of_here|done] | | |];
    (destruct IH as (x & Hx & ?); [lia|]; exists x; split; [by apply list_elem_of_further|done]).
Qed.

(** A filter that keeps everything, or nothing. *)
Lemma filter_keep_all {A} (P : A -> Prop) `{!forall x, Decision (P x)} (l : list A) :
  (forall x, x ∈ l -> P x) -> filter P l = l.
Proof.
  induction l as [|a l IH]; intros Hp; [done|].
  rewrite filter_cons, decide_True by (apply Hp, list_elem_of_here).
  f_equal. apply IH. intros x Hx. by apply Hp, list_elem_of_further.
Qed.

Lemma filter_keep_none {A} (P : A -> Prop) `{!forall x, Decision (P x)} (l : list A) :
  (forall x, x ∈ l -> ~ P x) -> filter P l = [].
Proof.
  induction l as [|a l IH]; intros Hp; [done|].
  rewrite filter_cons, decide_False by (apply Hp, list_elem_of_here).
  apply IH. intros x Hx. by apply Hp, list_elem_of_further.
Qed.

Lemma filter_nil_none {A} (P : A -> Prop) `{!forall x, Decision (P x)} (l : list A) x :
  filter P l = [] -> x ∈ l -> ~ P x.
Proof. intros Hf Hx HP. by apply (filter_nil_not_elem_of P l x Hf HP). Qed.

(** ** Deque loops *)

(** [while (!q.empty() && p(q.front())) q.pop_front();] *)
Fixpoint pop_front_while {A} (p : A -> bool) (l : list A) : list A :=
  match l with
  | a :: l' => if p a then pop_front_while p l' else l
  | [] => []
  end.

(** [while (!q.empty() && p(q.back())) q.pop_back();] *)
Fixpoint pop_back_while {A} (p : A -> bool) (l : list A) : list A :=
  match l with
  | a :: l' =>
      match pop_back_while p l' with
      | [] => if p a then [] else [a]
      | l'' => a :: l''
      end
  | [] => []
  end.

(** When [p] holds on a prefix exactly, or on a suffix exactly. *)
Lemma pop_front_while_drop {A} (p : A -> bool) n (l : list A) :
  (forall i a, l !! i = Some a -> p a = bool_decide (i < n)%nat) -> pop_front_while p l = drop n l.
Proof.
  revert n. induction l as [|a l IH]; intros n Hp; simpl; [by rewrite drop_nil|].
  rewrite (Hp 0%nat a) by done. destruct n as [|n]; [done|]. rewrite bool_decide_true by lia. simpl.
  apply IH. intros i b Hb. rewrite (Hp (S i) b) by done. apply bool_decide_ext. lia.
Qed.

Lemma pop_back_while_take {A} (p : A -> bool) n (l : list A) :
  (forall i a, l !! i = Some a -> p a = bool_decide (n <= i)%nat) -> pop_back_while p l = take n l.
Proof.
  revert n. induction l as [|a l IH]; intros n Hp; simpl; [by rewrite take_nil|].
  rewrite (IH (pred n)).
  2:{ intros i b Hb. rewrite (Hp (S i) b) by done. apply bool_decide_ext. lia. }
  rewrite (Hp 0%nat a) by done. destruct n as [|n]; [done|]. simpl. by destruct (take n l).
Qed.

Lemma pop_back_while_split {A} (p : A -> bool) (l : list A) :
  exists popped, l = pop_back_while p l ++ popped /\ (forall a, a ∈ popped -> p a = true) /\
    (forall a, last (pop_back_while p l) = Some a -> p a = false).
Proof.
  induction l as [|a l (popped & Hl & Hp & Hk)]; [exists []; split_and!; [done| |done]; by intros a ?%elem_of_nil|]. cbn.
  destruct (pop_back_while p l) as [|b kept] eqn:Hkept.
  - destruct (p a) eqn:Hpa.
    + exists (a :: popped). cbn in Hl. subst l. split_and!; [done| |done]. by intros x [->|Hx]%elem_of_cons; [|apply Hp].
    + exists popped. split_and!; [by rewrite Hl at 1|done|]. by intros x [= <-].
  - exists popped. split_and!; [by rewrite Hl at 1|done|]. intros x Hx. by apply Hk.
Qed.

Lemma elem_of_rev {A} (x : A) (l : list A) : x ∈ rev l <-> x ∈ l.
Proof. rewrite !list_elem_of_In. symmetry. apply in_rev. Qed.

Arguments mapM_ : simpl never.
Lemma mapM_nil {S E A} (f : A -> M S E unit) : mapM_ f [] = skip.
Proof. done. Qed.
Lemma mapM_cons {S E A} (f : A -> M S E unit) x l : mapM_ f (x :: l) = (f x ;; mapM_ f l).
Proof. done. Qed.

(** Runs the monadic plumbing of a goal, leaving the operations themselves. *)
Ltac run := cbv beta iota zeta delta [mbind M_bind mret M_ret get put modify gets emit emits skip when
  state_of events_of value_of]; cbn [app].
Ltac run_in H := cbv beta iota zeta delta [mbind M_bind mret M_ret get put modify gets emit emits skip when
  state_of events_of value_of] in H; cbn [app] in H.
