(* ===== verification/Types.v ===== *)
(** * Peers, configurations, log identifiers and log entries

    Models [src/braft/configuration.h] (PeerId, Configuration),
    [src/braft/configuration_manager.h] (ConfigurationEntry),
    [src/braft/log_entry.h] (LogId, LogEntry) and the node states of
    [src/braft/raft.h].  A [std::set<PeerId>] is the sorted list of its
    elements: insertion keeps the element already stored under an equivalent
    key, as [std::set::insert] does, so the role of the first insertion wins. *)

From Stdlib Require Strings.Byte.
From S2P Require Import Prelude.

(** ** End points

    [butil::EndPoint] belongs to a library: the fields the code reads and
    writes are modelled, and the library's order on end points is a
    parameter with the laws of a strict total order. *)
Record EndPoint : Set := mkEndPoint { ip : Z; port : Z }.

#[export] Instance EndPoint_eq_dec : EqDecision EndPoint.
Proof. solve_decision. Defined.

Class EndPointOrder := {
  ep_ltb : EndPoint -> EndPoint -> bool;
  ep_ltb_irrefl a : ep_ltb a a = false;
  ep_ltb_trans a b c : ep_ltb a b = true -> ep_ltb b c = true -> ep_ltb a c = true;
  ep_ltb_total a b : ep_ltb a b = false -> ep_ltb b a = false -> a = b
}.

(** The lexicographic order is one such order: it instantiates the parameter
    in the examples. *)
Definition lex_endpoint_order : EndPointOrder.
Proof.
  refine {| ep_ltb a b := (a.(ip) <? b.(ip)) || ((a.(ip) =? b.(ip)) && (a.(port) <? b.(port))) |}.
  - intros [i p]; simpl. rewrite !Z.ltb_irrefl. by destruct (i =? i).
  - intros [i1 p1] [i2 p2] [i3 p3]; simpl. rewrite !orb_true_iff, !andb_true_iff. lia.
  - intros [i1 p1] [i2 p2]; simpl.
    rewrite !orb_false_iff, !andb_false_iff. intros. f_equal; lia.
Defined.

(** ** PeerId *)
Inductive Role : Set := REPLICA | WITNESS.

Record PeerId : Set := mkPeerId { addr : EndPoint; idx : Z; role : Role }.

#[export] Instance Role_eq_dec : EqDecision Role.
Proof. solve_decision. Defined.
#[export] Instance PeerId_eq_dec : EqDecision PeerId.
Proof. solve_decision. Defined.

Definition IP_ANY : Z := 0.

(** [PeerId()] and [reset()]; also the constant [ANY_PEER]. *)
Definition PeerId_default : PeerId := mkPeerId (mkEndPoint IP_ANY 0) 0 REPLICA.
Abbreviation ANY_PEER := PeerId_default.

Definition is_empty (p : PeerId) : bool :=
  (p.(addr).(ip) =? IP_ANY) && (p.(addr).(port) =? 0) && (p.(idx) =? 0).

Definition is_witness (p : PeerId) : bool := bool_decide (p.(role) = WITNESS).

(** [operator==] compares the address and the index, never the role. *)
Definition peer_eqb (id1 id2 : PeerId) : bool :=
  bool_decide (id1.(addr) = id2.(addr)) && (id1.(idx) =? id2.(idx)).

(** Two peers are equivalent when [operator==] says so: coarser than equality. *)
#[export] Instance PeerId_equiv : Equiv PeerId := fun a b => peer_eqb a b = true.

Lemma peer_eqb_spec a b : peer_eqb a b = true <-> a.(addr) = b.(addr) /\ a.(idx) = b.(idx).
Proof. unfold peer_eqb. rewrite andb_true_iff, bool_decide_eq_true, Z.eqb_eq. done. Qed.

#[export] Instance PeerId_equivalence : Equivalence (≡@{PeerId}).
Proof.
  unfold equiv, PeerId_equiv. split.
  - intros a. by apply peer_eqb_spec.
  - intros a b. rewrite !peer_eqb_spec. intuition congruence.
  - intros a b c. rewrite !peer_eqb_spec. intuition congruence.
Qed.

#[export] Instance PeerId_equiv_dec : RelDecision (≡@{PeerId}).
Proof. intros a b. unfold equiv, PeerId_equiv. apply _. Defined.

#[export] Instance peer_eqb_proper : Proper ((≡) ==> (≡) ==> (=)) peer_eqb.
Proof.
  intros a a' Ha b b' Hb. unfold equiv, PeerId_equiv in *.
  apply eq_true_iff_eq. rewrite !peer_eqb_spec in *. intuition congruence.
Qed.

Lemma peer_eqb_refl a : peer_eqb a a = true.
Proof. by apply peer_eqb_spec. Qed.
Lemma peer_eqb_sym a b : peer_eqb a b = peer_eqb b a.
Proof. apply eq_true_iff_eq. rewrite !peer_eqb_spec. intuition congruence. Qed.
Lemma peer_eqb_equiv a b : peer_eqb a b = true <-> a ≡ b.
Proof. done. Qed.
Lemma peer_eqb_true a b : peer_eqb a b = true -> a ≡ b.
Proof. done. Qed.
Lemma peer_eqb_false a b : peer_eqb a b = false <-> a ≢ b.
Proof. rewrite <- not_true_iff_false. done. Qed.

(** A [std::set<PeerId>]: see below. *)
Abbreviation Configuration := (list PeerId).

Section ordered.
Context `{EPO : EndPointOrder}.

(** [operator<]. *)
Definition peer_ltb (id1 id2 : PeerId) : bool :=
  if ep_ltb id1.(addr) id2.(addr) then true
  else bool_decide (id1.(addr) = id2.(addr)) && (id1.(idx) <? id2.(idx)).

Lemma peer_ltb_irrefl a : peer_ltb a a = false.
Proof. unfold peer_ltb. rewrite ep_ltb_irrefl, Z.ltb_irrefl. apply andb_false_r. Qed.

Lemma peer_ltb_trans a b c :
  peer_ltb a b = true -> peer_ltb b c = true -> peer_ltb a c = true.
Proof.
  unfold peer_ltb.
  destruct (ep_ltb (addr a) (addr b)) eqn:Hab; destruct (ep_ltb (addr b) (addr c)) eqn:Hbc;
    rewrite ?andb_true_iff, ?bool_decide_eq_true, ?Z.ltb_lt; intros H1 H2.
  - by rewrite (ep_ltb_trans _ _ _ Hab Hbc).
  - destruct H2 as [<- _]. by rewrite Hab.
  - destruct H1 as [-> _]. by rewrite Hbc.
  - destruct H1 as [H1 ?], H2 as [H2 ?]. rewrite H1, H2, ep_ltb_irrefl.
    rewrite andb_true_iff, bool_decide_eq_true, Z.ltb_lt. split; [done|lia].
Qed.

(** The equivalence [std::set] uses, neither below the other, is [operator==]. *)
Lemma peer_ltb_total a b :
  peer_ltb a b = false -> peer_ltb b a = false -> a ≡ b.
Proof.
  unfold peer_ltb. intros H1 H2.
  destruct (ep_ltb (addr a) (addr b)) eqn:Hab; [done|].
  destruct (ep_ltb (addr b) (addr a)) eqn:Hba; [done|].
  pose proof (ep_ltb_total _ _ Hab Hba) as Heq. apply peer_eqb_spec. split; [done|].
  rewrite andb_false_iff in H1, H2. rewrite !bool_decide_eq_false, !Z.ltb_ge in *.
  destruct H1 as [?|?]; [congruence|]. destruct H2 as [?|?]; [congruence|]. lia.
Qed.

Lemma peer_ltb_not_equiv a b : peer_ltb a b = true -> a ≢ b.
Proof.
  intros Hlt Heq%peer_eqb_equiv%peer_eqb_spec. destruct Heq as [Ha Hi].
  unfold peer_ltb in Hlt. rewrite Ha, ep_ltb_irrefl, Hi, Z.ltb_irrefl, andb_false_r in Hlt. done.
Qed.

(** ** Configuration: a [std::set<PeerId>] *)

Definition conf_wf (c : Configuration) : Prop :=
  StronglySorted (fun a b => peer_ltb a b = true) c.

(** [std::set::insert]. *)
Fixpoint set_insert (p : PeerId) (c : Configuration) : Configuration :=
  match c with
  | [] => [p]
  | q :: c' =>
      if peer_ltb p q then p :: c
      else if peer_ltb q p then q :: set_insert p c'
      else c
  end.

(** [std::set::find] tells whether an equivalent key is stored. *)
Definition contains (c : Configuration) (p : PeerId) : bool :=
  existsb (fun q => peer_eqb q p) c.

(** [std::set::erase] by key. *)
Definition set_erase (p : PeerId) (c : Configuration) : Configuration :=
  filter (fun q => peer_eqb q p = false) c.

(** [Configuration(const std::vector<PeerId>&)] and [operator=]. *)
Definition Configuration_of (peers : list PeerId) : Configuration :=
  fold_left (fun c p => set_insert p c) peers [].

Definition add_peer (c : Configuration) (p : PeerId) : bool * Configuration :=
  (negb (contains c p), set_insert p c).

Definition remove_peer (c : Configuration) (p : PeerId) : bool * Configuration :=
  (contains c p, set_erase p c).

(** [append_peers] into a set: insert all our peers into [s]. *)
Definition append_peers (c : Configuration) (s : Configuration) : Configuration :=
  fold_left (fun s p => set_insert p s) c s.

Definition contains_all (c : Configuration) (peers : list PeerId) : bool :=
  forallb (contains c) peers.

(** [equals(const std::vector<PeerId>&)]. *)
Fixpoint equals_vec_loop (c : Configuration) (peers : list PeerId) (peer_set : Configuration) : bool :=
  match peers with
  | [] => bool_decide (length peer_set = length c)
  | p :: peers' =>
      if negb (contains c p) then false
      else equals_vec_loop c peers' (set_insert p peer_set)
  end.
Definition equals_vec (c : Configuration) (peers : list PeerId) : bool :=
  equals_vec_loop c peers [].

(** [equals(const Configuration&)]. *)
Definition equals (c rhs : Configuration) : bool :=
  if negb (bool_decide (length c = length rhs)) then false
  else forallb (contains rhs) c.

(** [diffs]: (included, excluded). *)
Definition diffs (c rhs : Configuration) : Configuration * Configuration :=
  (fold_left (fun s p => set_erase p s) rhs c,
   fold_left (fun s p => set_erase p s) c rhs).

(** *** Lemmas *)
Lemma contains_spec c p : contains c p = true <-> exists q, q ∈ c /\ q ≡ p.
Proof.
  unfold contains. rewrite existsb_exists.
  split; intros (q & Hq & ?); exists q; rewrite list_elem_of_In in *; done.
Qed.

#[export] Instance contains_proper c : Proper ((≡) ==> (=)) (contains c).
Proof.
  intros p q Hpq. unfold contains. induction c as [|r c IH]; simpl; [done|].
  by rewrite IH, Hpq.
Qed.

Lemma contains_cons q c p : contains (q :: c) p = peer_eqb q p || contains c p.
Proof. done. Qed.

Lemma contains_insert p c q : contains (set_insert p c) q = peer_eqb p q || contains c q.
Proof.
  induction c as [|r c IH]; [done|]. cbn [set_insert].
  destruct (peer_ltb p r) eqn:Hpr; [done|].
  destruct (peer_ltb r p) eqn:Hrp.
  - rewrite !contains_cons, IH. by destruct (peer_eqb p q), (peer_eqb r q).
  - rewrite contains_cons, (peer_ltb_total _ _ Hpr Hrp). by destruct (peer_eqb r q).
Qed.

Lemma contains_erase p c q :
  contains (set_erase p c) q = negb (peer_eqb p q) && contains c q.
Proof.
  unfold set_erase. induction c as [|r c IH]; [by rewrite andb_false_r|].
  rewrite filter_cons. case_decide as Hr; rewrite !contains_cons, ?IH.
  - destruct (peer_eqb r q) eqn:Hrq; [|done]. apply peer_eqb_true in Hrq.
    rewrite <- Hrq, (peer_eqb_sym p r), Hr. done.
  - apply not_false_is_true, peer_eqb_true in Hr. rewrite Hr. by destruct (peer_eqb p q).
Qed.

Lemma set_insert_Forall_ltb p c r :
  peer_ltb r p = true -> Forall (fun q => peer_ltb r q = true) c ->
  Forall (fun q => peer_ltb r q = true) (set_insert p c).
Proof.
  intros Hr. induction 1 as [|q c Hq Hc IH]; cbn [set_insert].
  - constructor; [done|constructor].
  - destruct (peer_ltb p q); [by repeat (constructor; [done|])|].
    destruct (peer_ltb q p); by constructor.
Qed.

Lemma set_insert_wf p c : conf_wf c -> conf_wf (set_insert p c).
Proof.
  unfold conf_wf. induction 1 as [|q c Hc IH Hq]; cbn [set_insert].
  { constructor; constructor. }
  destruct (peer_ltb p q) eqn:Hpq.
  - constructor; [by constructor|]. constructor; [done|].
    eapply Forall_impl; [exact Hq|]. intros; by eapply peer_ltb_trans.
  - destruct (peer_ltb q p) eqn:Hqp; constructor; try done. by apply set_insert_Forall_ltb.
Qed.

Lemma set_erase_wf p c : conf_wf c -> conf_wf (set_erase p c).
Proof.
  unfold conf_wf, set_erase. induction 1 as [|q c Hc IH Hq]; [constructor|].
  rewrite filter_cons. case_decide; [|done]. constructor; [done|].
  apply Forall_forall. intros r [_ Hr]%list_elem_of_filter.
  rewrite Forall_forall in Hq. by apply Hq.
Qed.

Lemma Configuration_of_wf peers : conf_wf (Configuration_of peers).
Proof.
  unfold Configuration_of. assert (conf_wf []) as H0 by constructor. revert H0.
  generalize (@nil PeerId). induction peers as [|p peers IH]; intros c Hc; [done|].
  simpl. by apply IH, set_insert_wf.
Qed.

Lemma fold_insert_contains peers c q :
  contains (fold_left (fun s p => set_insert p s) peers c) q = contains peers q || contains c q.
Proof.
  revert c. induction peers as [|p peers IH]; intros c; [done|].
  simpl. rewrite IH, contains_insert.
  by destruct (peer_eqb p q), (contains peers q), (contains c q).
Qed.

Lemma Configuration_of_contains peers q : contains (Configuration_of peers) q = contains peers q.
Proof. unfold Configuration_of. by rewrite fold_insert_contains, orb_false_r. Qed.

Lemma fold_erase_contains peers c q :
  contains (fold_left (fun s p => set_erase p s) peers c) q = negb (contains peers q) && contains c q.
Proof.
  revert c. induction peers as [|p peers IH]; intros c; [done|].
  simpl. rewrite IH, contains_erase.
  by destruct (peer_eqb p q), (contains peers q).
Qed.

(** A sorted configuration lists no peer twice, up to the key. *)
Lemma conf_wf_head p c : conf_wf (p :: c) -> contains c p = false.
Proof.
  intros Hwf. inversion Hwf as [|? ? _ Hall]; subst.
  apply not_true_iff_false. rewrite contains_spec. intros (q & Hq & Heq).
  rewrite Forall_forall in Hall. apply (peer_ltb_not_equiv p q); [by apply Hall|done].
Qed.
Lemma conf_wf_tail p c : conf_wf (p :: c) -> conf_wf c.
Proof. by inversion 1. Qed.

(** Counting: a configuration included in another and as long has the same peers. *)
Lemma conf_filter_length p c :
  conf_wf c -> contains c p = true -> length c = S (length (set_erase p c)).
Proof.
  induction c as [|q c IH]; intros Hwf; [done|].
  rewrite contains_cons. unfold set_erase in *. rewrite filter_cons.
  case_decide as Hq; simpl; intros Hc.
  - rewrite Hq in Hc. simpl in Hc. f_equal. apply IH; [by eapply conf_wf_tail|done].
  - f_equal. apply not_false_is_true, peer_eqb_true in Hq.
    pose proof (conf_wf_head _ _ Hwf) as Hnot. rewrite Hq in Hnot. clear -Hnot.
    induction c as [|r c IH]; [done|]. rewrite contains_cons in Hnot.
    apply orb_false_iff in Hnot as [Hr Hc]. rewrite filter_cons, decide_True by done.
    simpl. f_equal. by apply IH.
Qed.

Lemma conf_incl_length c d :
  conf_wf c -> conf_wf d -> (forall p, contains c p = true -> contains d p = true) ->
  (length c <= length d)%nat.
Proof.
  revert d. induction c as [|p c IH]; intros d Hc Hd Hincl; [simpl; lia|].
  assert (contains d p = true) as Hp by (apply Hincl; rewrite contains_cons, peer_eqb_refl; done).
  rewrite (conf_filter_length p d) by done. simpl. apply le_n_S. apply IH.
  - by eapply conf_wf_tail.
  - by apply set_erase_wf.
  - intros q Hq. rewrite contains_erase, Hincl by (rewrite contains_cons, Hq; apply orb_true_r).
    rewrite andb_true_r. apply negb_true_iff, peer_eqb_false. intros Heq.
    rewrite <- Heq in Hq. by rewrite (conf_wf_head _ _ Hc) in Hq.
Qed.

Lemma conf_incl_same_length c d :
  conf_wf c -> conf_wf d -> length c = length d ->
  (forall p, contains c p = true -> contains d p = true) ->
  forall p, contains d p = true -> contains c p = true.
Proof.
  intros Hc Hd Hlen Hincl p Hp. destruct (contains c p) eqn:Hcp; [done|exfalso].
  pose proof (conf_incl_length c (set_erase p d) Hc (set_erase_wf p d Hd)) as Hle.
  rewrite (conf_filter_length p d Hd Hp) in Hlen.
  enough (length c <= length (set_erase p d))%nat by lia.
  apply Hle. intros q Hq. rewrite contains_erase, (Hincl q Hq), andb_true_r.
  apply negb_true_iff, peer_eqb_false. intros Heq. rewrite <- Heq in Hq. congruence.
Qed.

Lemma contains_elem c p : p ∈ c -> contains c p = true.
Proof. intros Hp. apply contains_spec. by exists p. Qed.

End ordered.

(** ** Log identifiers *)
Record LogId : Set := mkLogId { index : Z; term : Z }.

#[export] Instance LogId_eq_dec : EqDecision LogId.
Proof. solve_decision. Defined.

(** [LogId()]. *)
Definition LogId_default : LogId := mkLogId 0 0.

Definition logid_eqb (lhs rhs : LogId) : bool :=
  (lhs.(index) =? rhs.(index)) && (lhs.(term) =? rhs.(term)).

Definition logid_ltb (lhs rhs : LogId) : bool :=
  if lhs.(term) =? rhs.(term) then lhs.(index) <? rhs.(index)
  else lhs.(term) <? rhs.(term).

Definition logid_gtb (lhs rhs : LogId) : bool :=
  if lhs.(term) =? rhs.(term) then rhs.(index) <? lhs.(index)
  else rhs.(term) <? lhs.(term).

Definition logid_leb (lhs rhs : LogId) : bool := negb (logid_gtb lhs rhs).
Definition logid_geb (lhs rhs : LogId) : bool := negb (logid_ltb lhs rhs).

(** [std::min] on log ids. *)
Definition logid_min (a b : LogId) : LogId := if logid_ltb b a then b else a.

Lemma logid_eqb_spec a b : logid_eqb a b = true <-> a = b.
Proof.
  unfold logid_eqb. destruct a, b; simpl. rewrite andb_true_iff, !Z.eqb_eq.
  intuition congruence.
Qed.

Lemma logid_ltb_spec a b :
  logid_ltb a b = true <->
  a.(term) < b.(term) \/ (a.(term) = b.(term) /\ a.(index) < b.(index)).
Proof. unfold logid_ltb. destruct (Z.eqb_spec (term a) (term b)); rewrite Z.ltb_lt; lia. Qed.

Lemma logid_gtb_ltb a b : logid_gtb a b = logid_ltb b a.
Proof. unfold logid_gtb, logid_ltb. by rewrite Z.eqb_sym. Qed.

Lemma logid_geb_spec a b :
  logid_geb a b = true <->
  b.(term) < a.(term) \/ (a.(term) = b.(term) /\ b.(index) <= a.(index)).
Proof.
  unfold logid_geb. rewrite negb_true_iff, <- not_true_iff_false, logid_ltb_spec. lia.
Qed.

Lemma logid_leb_geb a b : logid_leb a b = logid_geb b a.
Proof. unfold logid_leb, logid_geb. by rewrite logid_gtb_ltb. Qed.

(** ** Log entries *)
Inductive EntryType : Set :=
| ENTRY_TYPE_UNKNOWN | ENTRY_TYPE_NO_OP | ENTRY_TYPE_DATA | ENTRY_TYPE_CONFIGURATION.

#[export] Instance EntryType_eq_dec : EqDecision EntryType.
Proof. solve_decision. Defined.

(** [butil::IOBuf]: the bytes it holds. *)
Abbreviation IOBuf := (list Byte.byte).

(** [peers] and [old_peers] are pointers; the reference count is left out. *)
Record LogEntry : Set := mkLogEntry {
  type : EntryType;
  id : LogId;
  peers : option (list PeerId);
  old_peers : option (list PeerId);
  data : IOBuf
}.

#[export] Instance byte_eq_dec : EqDecision Byte.byte := Strings.Byte.byte_eq_dec.
#[export] Instance LogEntry_eq_dec : EqDecision LogEntry.
Proof. solve_decision. Defined.

#[export] Instance setter_id : Setter id :=
  fun v e => mkLogEntry e.(type) v e.(peers) e.(old_peers) e.(data).

(** ** Configuration entries *)
Record ConfigurationEntry : Set := mkConfigurationEntry {
  conf_id : LogId;
  conf : Configuration;
  old_conf : Configuration
}.

Definition ConfigurationEntry_default : ConfigurationEntry :=
  mkConfigurationEntry LogId_default [] [].

Section conf_entry.
Context `{EPO : EndPointOrder}.

(** [ConfigurationEntry(const LogEntry&)]: dereferences [peers], which is set
    on every configuration entry; a null pointer is read as no peer. *)
Definition ConfigurationEntry_of (entry : LogEntry) : ConfigurationEntry :=
  mkConfigurationEntry entry.(id)
    (Configuration_of (default [] entry.(peers)))
    (match entry.(old_peers) with
     | Some old => Configuration_of old
     | None => []
     end).

Definition stable (e : ConfigurationEntry) : bool :=
  match e.(old_conf) with [] => true | _ => false end.

Definition conf_empty (e : ConfigurationEntry) : bool :=
  match e.(conf) with [] => true | _ => false end.

Definition list_peers (e : ConfigurationEntry) : Configuration :=
  append_peers e.(old_conf) (append_peers e.(conf) []).

Definition conf_contains (e : ConfigurationEntry) (p : PeerId) : bool :=
  contains e.(conf) p || contains e.(old_conf) p.

Lemma list_peers_contains e p : contains (list_peers e) p = conf_contains e p.
Proof.
  unfold list_peers, append_peers, conf_contains.
  rewrite !fold_insert_contains. simpl. rewrite orb_false_r. apply orb_comm.
Qed.

Lemma fold_insert_wf peers c :
  conf_wf c -> conf_wf (fold_left (fun s p => set_insert p s) peers c).
Proof.
  revert c. induction peers as [|p peers IH]; intros c Hc; [done|].
  simpl. by apply IH, set_insert_wf.
Qed.

Lemma list_peers_wf e : conf_wf (list_peers e).
Proof. unfold list_peers, append_peers. apply fold_insert_wf, fold_insert_wf. constructor. Qed.

(** *** Properties of the set operations *)

Theorem equals_iff_same_peers c d :
  conf_wf c -> conf_wf d ->
  equals c d = true <-> forall p, contains c p = contains d p.
Proof.
  intros Hc Hd. unfold equals. case_bool_decide as Hlen; simpl.
  - rewrite forallb_forall. split.
    + intros Hall p. apply eq_true_iff_eq. split.
      * intros (q & Hq & Heq)%contains_spec. rewrite <- Heq. by apply Hall, list_elem_of_In.
      * apply conf_incl_same_length; [done..|]. intros q (r & Hr & Heq)%contains_spec.
        rewrite <- Heq. by apply Hall, list_elem_of_In.
    + intros Hall p Hp. rewrite <- Hall. by apply contains_elem, list_elem_of_In.
  - split; [done|]. intros Hall. destruct Hlen. apply Nat.le_antisymm;
      (apply conf_incl_length; [done..|]; intros p; by rewrite Hall).
Qed.

Theorem diffs_partition c d :
  conf_wf c -> conf_wf d ->
  let '(included, excluded) := diffs c d in
  conf_wf included /\ conf_wf excluded /\
  (forall p, contains included p = contains c p && negb (contains d p)) /\
  (forall p, contains excluded p = contains d p && negb (contains c p)).
Proof.
  intros Hc Hd. simpl.
  assert (forall l e, conf_wf e -> conf_wf (fold_left (fun s p => set_erase p s) l e)) as Hwf.
  { intros l. induction l as [|p l IH]; intros e He; [done|]. simpl. by apply IH, set_erase_wf. }
  split_and!; [by apply Hwf..| |]; intros p; rewrite fold_erase_contains; apply andb_comm.
Qed.

End conf_entry.

#[export] Instance setter_conf : Setter conf :=
  fun v e => mkConfigurationEntry e.(conf_id) v e.(old_conf).
#[export] Instance setter_old_conf : Setter old_conf :=
  fun v e => mkConfigurationEntry e.(conf_id) e.(conf) v.

(** ** Node states ([src/braft/raft.h]); the code relies on their order *)
Inductive State : Set :=
| STATE_LEADER | STATE_TRANSFERRING | STATE_CANDIDATE | STATE_FOLLOWER
| STATE_ERROR | STATE_UNINITIALIZED | STATE_SHUTTING | STATE_SHUTDOWN.

#[export] Instance State_eq_dec : EqDecision State.
Proof. solve_decision. Defined.

Definition state_num (s : State) : Z :=
  match s with
  | STATE_LEADER => 1 | STATE_TRANSFERRING => 2 | STATE_CANDIDATE => 3
  | STATE_FOLLOWER => 4 | STATE_ERROR => 5 | STATE_UNINITIALIZED => 6
  | STATE_SHUTTING => 7 | STATE_SHUTDOWN => 8
  end.

Definition is_active_state (s : State) : bool := state_num s <? state_num STATE_ERROR.
