(* ===== verification/PeerText.v ===== *)
(** * PeerText: peers and configurations as text

    Models [PeerId::parse] and [PeerId::to_string] of
    [src/braft/configuration.h], [Configuration::parse_from] and the printing of
    a configuration of [src/braft/configuration.cpp].  Text is a [string] of
    8-bit characters.  [sscanf] and [snprintf] are modelled on the conversions
    the code uses.  The text of an IP address belongs to butil: it is the
    parameter [IpText]. *)

From Stdlib Require Import Ascii.
From S2P Require Import Types Prelude.

#[local] Open Scope string_scope.
#[local] Arguments String.append : simpl nomatch.
#[local] Open Scope Z_scope.

Class IpText := {
  ip2str : Z -> string;
  str2ip : string -> option Z;
  (** The addresses that can be printed: those of 32 bits. *)
  str2ip_ip2str ip : 0 <= ip < 2 ^ 32 -> str2ip (ip2str ip) = Some ip;
  (** A dotted quad: neither empty, nor longer than 15 characters, and without
      the separators the code uses. *)
  ip2str_chars ip : 0 <= ip < 2 ^ 32 ->
    Forall (fun c => c <> ":"%char /\ c <> ","%char) (String.list_ascii_of_string (ip2str ip));
  ip2str_length ip : 0 <= ip < 2 ^ 32 -> (0 < String.length (ip2str ip) <= 15)%nat
}.

(** ** [%d] *)
Definition digit (d : Z) : ascii := ascii_of_nat (48 + Z.to_nat d).
Definition is_digit (c : ascii) : bool := (48 <=? nat_of_ascii c)%nat && (nat_of_ascii c <=? 57)%nat.
Definition digit_val (c : ascii) : Z := Z.of_nat (nat_of_ascii c) - 48.

(** The decimal digits of [n] in front of [acc]; ten are enough for an int. *)
Fixpoint digits (fuel : nat) (n : Z) (acc : string) : string :=
  match fuel with
  | O => acc
  | S fuel =>
      let acc' := String (digit (n mod 10)) acc in
      if n / 10 =? 0 then acc' else digits fuel (n / 10) acc'
  end.

Definition print_int (n : Z) : string :=
  if n <? 0 then String "-" (digits 10 (- n) "") else digits 10 n "".

(** Reads digits from the front, most significant first. *)
Fixpoint read_digits (acc : Z) (s : string) : Z * string :=
  match s with
  | String c s' => if is_digit c then read_digits (acc * 10 + digit_val c) s' else (acc, s)
  | EmptyString => (acc, s)
  end.

Definition is_space (c : ascii) : bool :=
  (nat_of_ascii c =? 32)%nat || ((9 <=? nat_of_ascii c)%nat && (nat_of_ascii c <=? 13)%nat).
Fixpoint skip_spaces (s : string) : string :=
  match s with
  | String c s' => if is_space c then skip_spaces s' else s
  | EmptyString => s
  end.

(** [%d] needs a digit after the blanks and the sign; a value that does not fit
    an int, for which C promises nothing, wraps. *)
Definition scan_unsigned (s : string) : option (Z * string) :=
  match s with
  | String c _ => if is_digit c then Some (read_digits 0 s) else None
  | EmptyString => None
  end.
Definition scan_int (s : string) : option (Z * string) :=
  match skip_spaces s with
  | String c s' =>
      if ascii_dec c "-" then
        '(v, r) ← scan_unsigned s'; Some (wrap_i32 (- v), r)
      else if ascii_dec c "+" then
        '(v, r) ← scan_unsigned s'; Some (wrap_i32 v, r)
      else '(v, r) ← scan_unsigned (String c s'); Some (wrap_i32 v, r)
  | EmptyString => None
  end.

(** ** [%[^:]] and [%*[:]] *)
Fixpoint span_char (p : ascii -> bool) (s : string) : string * string :=
  match s with
  | String c s' =>
      if p c then let '(a, b) := span_char p s' in (String c a, b) else (EmptyString, s)
  | EmptyString => (EmptyString, EmptyString)
  end.
Definition is_colon (c : ascii) : bool := if ascii_dec c ":" then true else false.
Definition scan_set (p : ascii -> bool) (s : string) : option (string * string) :=
  match span_char p s with
  | (EmptyString, _) => None
  | (a, b) => Some (a, b)
  end.

(** [%*[:]%d], one of the three number fields. *)
Definition scan_field (s : string) : option (Z * string) :=
  '(_, s1) ← scan_set is_colon s; scan_int s1.

Section peer_text.
Context `{IT : IpText}.

(** ** PeerId *)

(** [endpoint2str] of butil joins the address and the port with a colon. *)
Definition endpoint2str (ep : EndPoint) : string := (ip2str ep.(ip) +:+ String ":" (print_int ep.(port)))%string.

Definition role_num (r : Role) : Z := match r with REPLICA => 0 | WITNESS => 1 end.
Definition role_of (value : Z) : option Role :=
  if value =? 0 then Some REPLICA else if value =? 1 then Some WITNESS else None.

(** [to_string]: at most 127 characters fit the buffer. *)
Definition to_string (p : PeerId) : string :=
  String.substring 0 127
    (endpoint2str p.(addr) +:+ String ":" (print_int p.(idx) +:+ String ":" (print_int (role_num p.(role)))))%string.

(** What [sscanf] stores: the address text, and the fields it got to, in order. *)
Definition scan_peer (s : string) : option (string * list Z) :=
  match scan_set (fun c => negb (is_colon c)) s with
  | None => None
  | Some (ip_str, s1) =>
      Some (ip_str,
        match scan_field s1 with
        | None => []
        | Some (port, s2) =>
            port :: match scan_field s2 with
            | None => []
            | Some (idx, s3) =>
                idx :: match scan_field s3 with Some (value, _) => [value] | None => [] end
            end
        end)
  end.

(** [parse]: the status, and the peer it leaves in [*this]. *)
Definition parse (str : string) : Errno * PeerId :=
  match scan_peer str with
  | Some (ip_str, port :: fields) =>
      match role_of (default 0 (fields !! 1%nat)), str2ip ip_str with
      | Some role, Some ip => (OK, mkPeerId (mkEndPoint ip port) (default 0 (fields !! 0%nat)) role)
      | _, _ => (ENEG1, PeerId_default)
      end
  | _ => (ENEG1, PeerId_default)
  end.

(** Whether the address text fits the 64 bytes of [ip_str]; [parse] writes it
    there whatever its length. *)
Definition parse_in_bounds (str : string) : bool :=
  match scan_set (fun c => negb (is_colon c)) str with
  | Some (ip_str, _) => (String.length ip_str <? 64)%nat
  | None => true
  end.

(** [PeerId(const std::string&)]: the boolean is its [CHECK]. *)
Definition PeerId_of_string (str : string) : PeerId * bool :=
  let '(rc, p) := parse str in (p, ok rc).

(** ** Configuration *)
Context `{EPO : EndPointOrder}.

(** [butil::StringSplitter] yields the non-empty pieces between separators. *)
Fixpoint split_on (sep : ascii) (piece : string) (s : string) : list string :=
  match s with
  | EmptyString => match piece with EmptyString => [] | _ => [piece] end
  | String c s' =>
      if ascii_dec c sep then
        match piece with EmptyString => split_on sep EmptyString s' | _ => piece :: split_on sep EmptyString s' end
      else split_on sep (piece +:+ String c EmptyString) s'
  end.

Fixpoint parse_peers (strs : list string) (c : Configuration) : Errno * Configuration :=
  match strs with
  | [] => (OK, c)
  | s :: strs' =>
      let '(rc, p) := parse s in
      if ok rc then parse_peers strs' (add_peer c p).2 else (ENEG1, c)
  end.

(** [parse_from]. *)
Definition parse_from (conf : string) : Errno * Configuration := parse_peers (split_on "," "" conf) [].

(** [operator<<] of a configuration: its peers, comma separated; that of a peer
    has no limit on the length. *)
Definition print_peer (p : PeerId) : string :=
  (endpoint2str p.(addr) +:+ String ":" (print_int p.(idx) +:+ String ":" (print_int (role_num p.(role)))))%string.
Fixpoint print_configuration (peers : list PeerId) : string :=
  match peers with
  | [] => ""
  | [p] => print_peer p
  | p :: peers' => (print_peer p +:+ String "," (print_configuration peers'))%string
  end.
End peer_text.

(** ** Printing and reading back *)
#[local] Arguments digit : simpl never.
#[local] Arguments is_digit : simpl never.
#[local] Arguments digit_val : simpl never.
#[local] Arguments is_space : simpl never.

Definition int32 (n : Z) : Prop := - 2 ^ 31 <= n < 2 ^ 31.

(** [s] does not go on with a digit. *)
Definition ends_number (s : string) : Prop := forall c s', s = String c s' -> is_digit c = false.

Lemma digit_facts d : 0 <= d < 10 -> is_digit (digit d) = true /\ digit_val (digit d) = d.
Proof.
  intros Hd. assert (d = 0 \/ d = 1 \/ d = 2 \/ d = 3 \/ d = 4 \/ d = 5 \/ d = 6 \/ d = 7 \/ d = 8 \/ d = 9) as H by lia.
  repeat (destruct H as [->|H]; [done|]). by subst.
Qed.

Lemma read_digits_stop v s : ends_number s -> read_digits v s = (v, s).
Proof. intros Hs. destruct s as [|c s]; [done|]. cbn [read_digits]. by rewrite (Hs c s). Qed.

Lemma read_digits_digits fuel n acc :
  0 <= n < 10 ^ Z.of_nat fuel -> read_digits 0 (digits fuel n acc) = read_digits n acc.
Proof.
  revert n acc. induction fuel as [|fuel IH]; intros n acc Hn.
  { replace n with 0 by lia. done. }
  rewrite Nat2Z.inj_succ, Z.pow_succ_r in Hn by lia. cbn [digits].
  destruct (digit_facts (n mod 10)) as [Hd Hv]; [by apply Z.mod_pos_bound|].
  assert (forall k, read_digits k (String (digit (n mod 10)) acc) = read_digits (k * 10 + n mod 10) acc) as Hr.
  { intros k. cbn [read_digits]. by rewrite Hd, Hv. }
  pose proof (Z.div_mod n 10 ltac:(lia)) as Hdm. destruct (Z.eqb_spec (n / 10) 0) as [Hz|].
  - rewrite Hr. f_equal. lia.
  - rewrite IH, Hr; [f_equal; lia|]. split; [by apply Z.div_pos; lia|]. apply Z.div_lt_upper_bound; lia.
Qed.

(** Printed digits are never empty and start with a digit. *)
Lemma digits_head fuel n acc :
  (0 < fuel)%nat -> exists c s, digits fuel n acc = String c s /\ is_digit c = true.
Proof.
  revert n acc. induction fuel as [|fuel IH]; intros n acc Hf; [lia|]. cbn [digits].
  destruct (digit_facts (n mod 10)) as [Hd _]; [by apply Z.mod_pos_bound|].
  destruct (n / 10 =? 0); [by do 2 eexists|]. destruct fuel; [by do 2 eexists|]. apply IH. lia.
Qed.

Lemma digits_app fuel n acc s : ((digits fuel n acc) +:+ s = digits fuel n (acc +:+ s))%string.
Proof. revert n acc. induction fuel as [|fuel IH]; intros n acc; [done|]. cbn [digits]. destruct (n / 10 =? 0); [done|]. by rewrite IH. Qed.

Lemma digits_length fuel n acc : (String.length (digits fuel n acc) <= fuel + String.length acc)%nat.
Proof.
  revert n acc. induction fuel as [|fuel IH]; intros n acc; cbn [digits]; [lia|].
  destruct (n / 10 =? 0); simpl; [lia|]. specialize (IH (n / 10) (String (digit (n mod 10)) acc)). simpl in IH. lia.
Qed.

#[local] Arguments digits : simpl never.

Lemma scan_unsigned_digits n s :
  0 <= n < 10 ^ 10 -> ends_number s -> scan_unsigned (digits 10 n s) = Some (n, s).
Proof.
  intros Hn Hs. destruct (digits_head 10 n s) as (c & s' & He & Hd); [lia|].
  pose proof (read_digits_digits 10 n s Hn) as Hr. unfold scan_unsigned. rewrite He in *. rewrite Hd, Hr.
  by rewrite read_digits_stop.
Qed.

Lemma digit_not_special c :
  is_digit c = true -> is_space c = false /\ c <> "-"%char /\ c <> "+"%char /\ c <> ":"%char /\ c <> ","%char.
Proof.
  unfold is_digit, is_space. rewrite andb_true_iff, !Nat.leb_le. intros [H1 H2].
  assert (forall k, (k < 48 \/ 57 < k)%nat -> (k < 256)%nat -> c <> ascii_of_nat k) as Hk.
  { intros k Hk Hb ->. rewrite nat_ascii_embedding in * by lia. lia. }
  repeat split; [|apply (Hk 45%nat); lia|apply (Hk 43%nat); lia|apply (Hk 58%nat); lia|apply (Hk 44%nat); lia].
  apply orb_false_iff. split; [apply Nat.eqb_neq; lia|]. apply andb_false_iff. right. apply Nat.leb_gt. lia.
Qed.

Lemma scan_int_print n s :
  int32 n -> ends_number s -> scan_int (print_int n +:+ s)%string = Some (n, s).
Proof.
  unfold int32, print_int. intros Hn Hs. destruct (Z.ltb_spec n 0).
  - cbn [String.append]. unfold scan_int. simpl. rewrite digits_app. change ("" +:+ s)%string with s.
    rewrite scan_unsigned_digits by (done || lia). simpl. by rewrite Z.opp_involutive, wrap_i32_small by lia.
  - rewrite digits_app. change ("" +:+ s)%string with s. destruct (digits_head 10 n s) as (c & s' & He & Hd); [lia|].
    destruct (digit_not_special c Hd) as (Hsp & Hm & Hp & _). unfold scan_int.
    pose proof (scan_unsigned_digits n s ltac:(lia) Hs) as Hu. rewrite He in *. cbn [skip_spaces]. rewrite Hsp.
    destruct (ascii_dec c "-"); [done|]. destruct (ascii_dec c "+"); [done|]. rewrite Hu. simpl.
    by rewrite wrap_i32_small by lia.
Qed.

(** What a number is made of. *)
Abbreviation chars := String.list_ascii_of_string.
Lemma chars_app s t : chars (s +:+ t)%string = (chars s ++ chars t)%list.
Proof. induction s as [|c s IH]; [done|]. simpl. by f_equal. Qed.

Definition plain (c : ascii) : Prop := c <> ":"%char /\ c <> ","%char.

Lemma digits_plain fuel n acc : Forall plain (chars acc) -> Forall plain (chars (digits fuel n acc)).
Proof.
  revert n acc. induction fuel as [|fuel IH]; intros n acc Ha; [done|]. unfold digits; fold digits; cbv zeta.
  assert (Forall plain (chars (String (digit (n mod 10)) acc))) as Hc.
  { apply Forall_cons. split; [|done]. destruct (digit_facts (n mod 10)) as [Hd _]; [by apply Z.mod_pos_bound|].
    by apply digit_not_special in Hd as (_ & _ & _ & ? & ?). }
  destruct (n / 10 =? 0); [exact Hc|]. by apply IH.
Qed.

Lemma print_int_plain n : Forall plain (chars (print_int n)).
Proof. unfold print_int. destruct (n <? 0); [apply Forall_cons; split; [done|]|]; by apply digits_plain. Qed.

Lemma print_int_length n : (String.length (print_int n) <= 11)%nat.
Proof.
  unfold print_int. destruct (n <? 0); simpl String.length;
    [pose proof (digits_length 10 (- n) "")|pose proof (digits_length 10 n "")]; simpl in *; lia.
Qed.

Lemma span_char_app p s t :
  Forall (fun c => p c = true) (chars s) -> (forall c t', t = String c t' -> p c = false) ->
  span_char p (s +:+ t)%string = (s, t).
Proof.
  intros Hs Ht. induction s as [|c s IH]; simpl.
  - destruct t as [|c t']; [done|]. simpl. by rewrite (Ht c t').
  - inversion Hs as [|? ? Hc Hs']; subst. rewrite Hc. by rewrite (IH Hs').
Qed.

Lemma scan_field_print n s : int32 n -> ends_number s -> scan_field (String ":" (print_int n +:+ s)%string) = Some (n, s).
Proof.
  intros Hn Hs. unfold scan_field, scan_set.
  assert (span_char is_colon (String ":" (print_int n +:+ s)%string) = (":", print_int n +:+ s)%string) as ->.
  { apply (span_char_app is_colon ":" _); [by repeat constructor|]. intros c t' He. pose proof (print_int_plain n) as Hp.
    assert (exists t'', print_int n = String c t'') as [t'' Hpn].
    { unfold print_int in *. destruct (n <? 0); [cbn [String.append] in He; injection He as <- _; by eexists|].
      destruct (digits_head 10 n "") as (c' & s' & He' & _); [lia|]. rewrite He' in *. cbn [String.append] in He. injection He as <- _. by eexists. }
    rewrite Hpn in Hp. apply Forall_cons in Hp as [[Hc _] _].
    unfold is_colon. by destruct (ascii_dec c ":"). }
  simpl. by apply scan_int_print.
Qed.

Section round_trip.
Context `{IT : IpText, EPO : EndPointOrder}.

(** Peers as the program makes them: 32-bit address, ints for the rest. *)
Definition peer_ok (p : PeerId) : Prop :=
  0 <= p.(addr).(ip) < 2 ^ 32 /\ int32 p.(addr).(port) /\ int32 p.(idx).

Lemma ends_colon s : ends_number (String ":" s).
Proof. intros c s' He. injection He as <- _. reflexivity. Qed.
Lemma ends_nil : ends_number "".
Proof. by intros c s'. Qed.

Lemma string_app_assoc (a b c : string) : ((a +:+ b) +:+ c = a +:+ (b +:+ c))%string.
Proof. induction a as [|x a IH]; [done|]. cbn [String.append]. by rewrite IH. Qed.
Lemma string_app_nil (a : string) : (a +:+ "" = a)%string.
Proof. induction a as [|x a IH]; [done|]. cbn [String.append]. by rewrite IH. Qed.

Lemma scan_peer_print p :
  peer_ok p -> scan_peer (print_peer p) = Some (ip2str p.(addr).(ip), [p.(addr).(port); p.(idx); role_num p.(role)]).
Proof.
  intros (Hip & Hport & Hidx). unfold scan_peer, print_peer, endpoint2str, scan_set.
  rewrite string_app_assoc. cbn [String.append].
  rewrite span_char_app; [| |intros c t' He; injection He as <- _; reflexivity].
  2:{ eapply Forall_impl; [by apply ip2str_chars|]. intros c [Hc _]. unfold is_colon. by destruct (ascii_dec c ":"). }
  destruct (ip2str p.(addr).(ip)) as [|c s] eqn:Hs.
  { pose proof (ip2str_length p.(addr).(ip) Hip) as Hl. rewrite Hs in Hl. simpl in Hl. lia. }
  rewrite scan_field_print by (done || apply ends_colon).
  rewrite scan_field_print by (done || apply ends_colon).
  rewrite <- (string_app_nil (print_int (role_num _))).
  rewrite scan_field_print; [done| |apply ends_nil]. by destruct p.(role).
Qed.

Lemma parse_print p : peer_ok p -> parse (print_peer p) = (OK, p).
Proof.
  intros Hp. unfold parse. rewrite scan_peer_print by done. destruct Hp as (Hip & _ & _).
  simpl. rewrite str2ip_ip2str by done. destruct p as [[i o] x r]. by destruct r.
Qed.

(** Printing a peer never fills the 128 bytes of its buffer. *)
Lemma string_length_app (a b : string) : String.length (a +:+ b)%string = (String.length a + String.length b)%nat.
Proof. induction a as [|x a IH]; [done|]. simpl. by f_equal. Qed.

Lemma substring_all n s : (String.length s <= n)%nat -> String.substring 0 n s = s.
Proof. revert n. induction s as [|c s IH]; intros [|n] Hn; simpl in *; [done|done|lia|]. f_equal. apply IH. lia. Qed.

Lemma to_string_print p : peer_ok p -> to_string p = print_peer p.
Proof.
  intros (Hip & _ & _). apply substring_all. unfold print_peer, endpoint2str.
  repeat (rewrite string_length_app; cbn [String.length]).
  pose proof (ip2str_length _ Hip). pose proof (print_int_length p.(addr).(port)).
  pose proof (print_int_length p.(idx)). pose proof (print_int_length (role_num p.(role))).
  lia.
Qed.

Lemma parse_to_string p : peer_ok p -> parse (to_string p) = (OK, p).
Proof. intros Hp. rewrite to_string_print by done. by apply parse_print. Qed.

(** *** Configurations *)
Lemma string_ascii_inj s t : chars s = chars t -> s = t.
Proof. intros H. rewrite <- (String.string_of_list_ascii_of_string s), H. apply String.string_of_list_ascii_of_string. Qed.

Lemma print_peer_no_comma p : peer_ok p -> Forall (fun c => c <> ","%char) (chars (print_peer p)).
Proof.
  intros (Hip & _ & _). unfold print_peer, endpoint2str. rewrite !chars_app. cbn [String.list_ascii_of_string].
  rewrite chars_app. cbn [String.list_ascii_of_string].
  assert (forall l, Forall plain l -> Forall (fun c => c <> ","%char) l) as Hpl by (intros l H; by eapply Forall_impl; [exact H|intros c []]).
  repeat first [apply Forall_app; split | apply Forall_cons; split; [done|]];
    apply Hpl; [by apply ip2str_chars|apply print_int_plain..].
Qed.

Lemma split_on_app piece s rest :
  Forall (fun c => c <> ","%char) (chars s) ->
  split_on "," piece (s +:+ rest)%string = split_on "," (piece +:+ s)%string rest.
Proof.
  revert piece. induction s as [|c s IH]; intros piece Hs; simpl.
  - by rewrite string_app_nil.
  - inversion Hs; subst. destruct (ascii_dec c ","); [done|]. rewrite IH by done. f_equal. by rewrite string_app_assoc.
Qed.

Lemma print_peer_nonempty p : peer_ok p -> exists c s, print_peer p = String c s.
Proof.
  intros (Hip & _ & _). unfold print_peer, endpoint2str. pose proof (ip2str_length _ Hip) as Hl.
  destruct (ip2str p.(addr).(ip)) as [|c s]; simpl in *; [lia|by do 2 eexists].
Qed.

Lemma split_print_configuration peers :
  Forall peer_ok peers -> split_on "," "" (print_configuration peers) = map print_peer peers.
Proof.
  induction 1 as [|p peers Hp Hps IH]; [done|]. destruct (print_peer_nonempty p Hp) as (c & s & He).
  pose proof (print_peer_no_comma p Hp) as Hc. cbn [print_configuration map]. destruct peers as [|q peers].
  - rewrite <- (string_app_nil (print_peer p)), split_on_app by done. simpl. by rewrite He, string_app_nil.
  - rewrite split_on_app by done. rewrite <- IH. change ("" +:+ print_peer p)%string with (print_peer p). rewrite He at 1.
    simpl split_on at 1. rewrite <- He. done.
Qed.

(** Inserting the peers of a sorted configuration in order rebuilds it. *)
Lemma set_insert_last p c : Forall (fun q => peer_ltb q p = true) c -> set_insert p c = (c ++ [p])%list.
Proof.
  induction 1 as [|q c Hq Hc IH]; [done|]. simpl. rewrite Hq.
  destruct (peer_ltb p q) eqn:Hpq; [|by rewrite IH].
  exfalso. pose proof (peer_ltb_trans _ _ _ Hpq Hq) as H. by rewrite peer_ltb_irrefl in H.
Qed.

Lemma parse_peers_print peers c :
  Forall peer_ok peers -> conf_wf (c ++ peers)%list -> parse_peers (map print_peer peers) c = (OK, (c ++ peers)%list).
Proof.
  revert c. induction peers as [|p peers IH]; intros c Hp Hwf; simpl; [by rewrite app_nil_r|].
  inversion Hp; subst. rewrite parse_print by done. simpl. rewrite set_insert_last.
  - rewrite IH; [by rewrite <- app_assoc|done|by rewrite <- app_assoc].
  - clear -Hwf. induction c as [|q c IH]; [done|]. inversion Hwf as [|? ? Hs Hall]; subst. constructor; [|by apply IH].
    rewrite Forall_forall in Hall. apply Hall. apply elem_of_app. right. by left.
Qed.

(** C37: text round trips.  A peer printed with [to_string] is read back by
    [parse] with the same address, port, index and role, within the bounds of
    the buffers of both; and a configuration printed with [operator<<] is read
    back by [parse_from] unchanged. *)
Theorem peer_text_roundtrip p c :
  peer_ok p -> Forall peer_ok c -> conf_wf c ->
  parse (to_string p) = (OK, p) /\ parse_in_bounds (to_string p) = true /\
  (String.length (to_string p) < 128)%nat /\ parse_from (print_configuration c) = (OK, c).
Proof.
  intros Hp Hc Hwf. split_and!.
  - by apply parse_to_string.
  - rewrite to_string_print by done. unfold parse_in_bounds. pose proof (scan_peer_print p Hp) as Hs. unfold scan_peer in Hs.
    destruct (scan_set _ _) as [[a b]|]; [|done]. injection Hs as -> _. destruct Hp as (Hip & _ & _).
    apply Nat.ltb_lt. pose proof (ip2str_length _ Hip). lia.
  - unfold to_string. clear. generalize (endpoint2str (addr p) +:+ String ":" (print_int (idx p) +:+ String ":" (print_int (role_num (role p)))))%string.
    enough (forall n s, (String.length (String.substring 0 n s) <= n)%nat) as H by (intros s; specialize (H 127%nat s); lia).
    induction n as [|n IH]; intros [|a s]; simpl; try lia. specialize (IH s). lia.
  - unfold parse_from. rewrite split_print_configuration by done. by apply parse_peers_print.
Qed.
End round_trip.

(** ** An instance: addresses as decimal numbers *)
Lemma digits_chars fuel n acc :
  Forall (fun c => is_digit c = true) (chars acc) -> Forall (fun c => is_digit c = true) (chars (digits fuel n acc)).
Proof.
  revert n acc. induction fuel as [|fuel IH]; intros n acc Ha; [done|]. unfold digits; fold digits; cbv zeta.
  assert (Forall (fun c => is_digit c = true) (chars (String (digit (n mod 10)) acc))) as Hc.
  { apply Forall_cons. split; [|done]. by destruct (digit_facts (n mod 10)) as [Hd _]; [apply Z.mod_pos_bound|]. }
  destruct (n / 10 =? 0); [exact Hc|]. by apply IH.
Qed.

Definition decimal_ip_text : IpText.
Proof.
  refine {| ip2str ip := digits 10 ip "";
            str2ip s := match scan_unsigned s with Some (v, EmptyString) => Some v | _ => None end |}.
  - intros ip Hip. rewrite scan_unsigned_digits; [done|lia|apply ends_nil].
  - intros ip _. eapply Forall_impl; [by apply digits_chars; constructor|]. intros c Hc.
    by apply digit_not_special in Hc as (_ & _ & _ & ? & ?).
  - intros ip _. pose proof (digits_length 10 ip "") as Hl. simpl String.length in Hl.
    destruct (digits_head 10 ip "") as (c & s & He & _); [lia|]. rewrite He in *. simpl String.length in *. lia.
Defined.

Definition example_conf : Configuration :=
  [mkPeerId (mkEndPoint 2130706433 8100) 0 REPLICA; mkPeerId (mkEndPoint 2130706433 8101) (-1) WITNESS].

Lemma peer_text_roundtrip_witness :
  let IT := decimal_ip_text in let EPO := lex_endpoint_order in
  let p := mkPeerId (mkEndPoint 2130706433 8101) (-1) WITNESS in
  to_string p = "2130706433:8101:-1:1"%string /\
  parse (to_string p) = (OK, p) /\ parse_in_bounds (to_string p) = true /\
  (String.length (to_string p) < 128)%nat /\ parse_from (print_configuration example_conf) = (OK, example_conf).
Proof.
  split; [vm_compute; reflexivity|].
  apply (@peer_text_roundtrip decimal_ip_text lex_endpoint_order).
  - repeat split; vm_compute; congruence.
  - repeat constructor; vm_compute; congruence.
  - repeat constructor.
Defined.
