(* ===== verification/Disk.v ===== *)
(** * Disk: the files the storage components keep

    A model of the POSIX calls [src/braft/log.cpp], [src/braft/protobuf_file.cpp]
    and [src/braft/util.cpp] make: a directory maps names to inodes, an inode
    holds bytes, and a descriptor goes on referring to its inode when the name
    is changed or removed.  Which calls fail is decided by a script: each call
    consumes one outcome, and succeeds once the script is used up.  What was
    written is visible to a process that starts later (the machine itself does
    not crash). *)

From Stdlib Require Strings.Byte.
From S2P Require Import Types Prelude.

(** What the next call does.  [SysWrote n] is a write that stops after [n]
    bytes; for any other call it is a success. *)
Inductive Outcome : Set := SysOk | SysFail | SysIntr | SysWrote (n : nat).

#[export] Instance Outcome_eq_dec : EqDecision Outcome.
Proof. solve_decision. Defined.

(** What a read does before it delivers the rest. *)
Inductive ReadOutcome : Set := ReadBytes (n : nat) | ReadIntr | ReadError.

#[export] Instance ReadOutcome_eq_dec : EqDecision ReadOutcome.
Proof. solve_decision. Defined.

Inductive DiskEvent (F : Type) : Type :=
| Background (f : F)            (* a bthread that unlinks the file *)
| CheckFailed.
Arguments Background {F} f.
Arguments CheckFailed {F}.

(** ** Reading *)

(** The bytes of [c] from [offset] on, [n] at most. *)
Definition slice (c : IOBuf) (offset n : nat) : IOBuf := take n (drop offset c).

(** [file_pread] of [util.cpp]: appends to [acc] until [left] bytes were read,
    the file ends ([pread] returns 0), or a read fails with anything but
    [EINTR].  [None] is -1. *)
Fixpoint file_pread (c : IOBuf) (reads : list ReadOutcome) (offset left : nat) (acc : IOBuf) : option IOBuf :=
  match left, reads with
  | O, _ => Some acc
  | _, [] => Some (acc ++ slice c offset left)
  | _, ReadBytes n :: reads' =>
      match slice c offset (Nat.min left (Nat.max 1 n)) with
      | [] => Some acc
      | chunk => file_pread c reads' (offset + length chunk) (left - length chunk) (acc ++ chunk)
      end
  | _, ReadIntr :: reads' => file_pread c reads' offset left acc
  | _, ReadError :: _ => None
  end.

Lemma slice_length c offset n : length (slice c offset n) = Nat.min n (length c - offset).
Proof. unfold slice. by rewrite length_take, length_drop. Qed.

Lemma slice_app_l c d offset n : (offset + n <= length c)%nat -> slice (c ++ d) offset n = slice c offset n.
Proof. intros H. unfold slice. rewrite drop_app_le by lia. apply take_app_le. rewrite length_drop. lia. Qed.

Lemma slice_app_r c d n m : slice (c ++ d) (length c + n) m = slice d n m.
Proof. unfold slice. by rewrite drop_app_add. Qed.

Lemma slice_split c offset n m : slice c offset (n + m) = slice c offset n ++ slice c (offset + n) m.
Proof. unfold slice. rewrite <- drop_drop. symmetry. apply take_take_drop. Qed.

Lemma slice_past c offset n : (length c <= offset)%nat -> slice c offset n = [].
Proof. intros H. unfold slice. by rewrite drop_ge, take_nil. Qed.

(** Reading in pieces, with interruptions, yields what one read would. *)
Lemma file_pread_slice c reads offset left acc :
  ReadError ∉ reads -> file_pread c reads offset left acc = Some (acc ++ slice c offset left).
Proof.
  revert offset left acc. induction reads as [|r reads IH]; intros offset [|left] acc Hr; cbn [file_pread];
    try (unfold slice; rewrite take_0, app_nil_r; done); [done|].
  apply not_elem_of_cons in Hr as [Hr Hrs]. destruct r as [n| |]; [|by apply IH|done].
  set (k := Nat.min (S left) (Nat.max 1 n)). assert (1 <= k <= S left)%nat by (subst k; lia). clearbody k. pose proof (slice_length c offset k) as Hl.
  pose proof (slice_split c offset k (S left - k)) as Hsplit. replace (k + (S left - k))%nat with (S left) in Hsplit by lia.
  destruct (slice c offset k) as [|b bs] eqn:Hs; simpl in Hl.
  - rewrite Hsplit, slice_past by lia. by rewrite !app_nil_r.
  - rewrite IH by done. rewrite <- app_assoc, Hsplit. simpl length in *.
    destruct (decide (length c - offset < k)%nat).
    + rewrite !(slice_past c (_ + _)) by lia. done.
    + by replace (S (length bs)) with k by lia.
Qed.

(** Whatever the reads do, what is read is the beginning of what was asked for. *)
Lemma file_pread_prefix c reads offset left acc b :
  file_pread c reads offset left acc = Some b -> exists k, (k <= left)%nat /\ b = acc ++ slice c offset k.
Proof.
  assert (forall acc : IOBuf, acc = acc ++ slice c offset 0) as H0 by (intros a; unfold slice; by rewrite take_0, app_nil_r).
  revert offset left acc H0. induction reads as [|r reads IH]; intros offset [|left] acc H0; cbn [file_pread];
    try (intros [= <-]; exists 0%nat; split; [lia|done]).
  { intros [= <-]. by exists (S left). }
  destruct r as [n| |]; [|apply IH; done|done].
  set (k := Nat.min (S left) (Nat.max 1 n)). assert (1 <= k <= S left)%nat by (subst k; lia). clearbody k.
  pose proof (slice_length c offset k) as Hl. destruct (slice c offset k) as [|x bs] eqn:Hs.
  { intros [= <-]. exists 0%nat. split; [lia|done]. }
  intros (j & Hj & ->)%IH; [|intros a; unfold slice; by rewrite take_0, app_nil_r]. cbn [length] in *.
  exists (length (x :: bs) + j)%nat. split; [cbn; lia|]. rewrite slice_split.
  assert (slice c offset (length (x :: bs)) = x :: bs) as Hx.
  { rewrite <- Hs at 2. unfold slice. cbn [length]. rewrite Hl. destruct (decide (k <= length c - offset)%nat).
    - by rewrite Nat.min_l by lia.
    - rewrite !take_ge; rewrite ?length_drop; [done|lia|lia]. }
  rewrite Hx. by rewrite <- app_assoc.
Qed.

Lemma file_pread_full c reads offset n b :
  file_pread c reads offset n [] = Some b -> length b = n -> b = slice c offset n.
Proof.
  intros (k & Hk & ->)%file_pread_prefix. cbn [app]. rewrite slice_length. intros Hn. unfold slice.
  destruct (decide (k = n)) as [->|]; [done|]. lia.
Qed.

(** ** Writing *)

(** The file [c] with [bs] written at [pos]; a gap is filled with zeros. *)
Definition overwrite (c : IOBuf) (pos : nat) (bs : IOBuf) : IOBuf :=
  take pos c ++ replicate (pos - length c) Byte.x00 ++ bs ++ drop (pos + length bs) c.
Definition set_length (c : IOBuf) (len : nat) : IOBuf := take len c ++ replicate (len - length c) Byte.x00.

Lemma overwrite_end c bs : overwrite c (length c) bs = c ++ bs.
Proof.
  unfold overwrite. rewrite firstn_all, Nat.sub_diag. simpl. rewrite drop_ge by lia. by rewrite app_nil_r.
Qed.

Lemma set_length_take c len : (len <= length c)%nat -> set_length c len = take len c.
Proof. intros H. unfold set_length. replace (len - length c)%nat with 0%nat by lia. by rewrite app_nil_r. Qed.

(** ** The calls *)
Section disk.
Context {F : Type} `{Countable F}.

Record Disk : Type := mkDisk {
  names : gmap F positive;
  files : gmap positive IOBuf;
  next_inode : positive;
  script : list Outcome
}.
#[export] Instance Disk_eta : Settable Disk := fun d => mkDisk d.(names) d.(files) d.(next_inode) d.(script).

Local Abbreviation DM := (M Disk (DiskEvent F)).

Definition outcome : DM Outcome := fun d =>
  match d.(script) with
  | o :: rest => (o, d <| script := rest |>, [])
  | [] => (SysOk, d, [])
  end.
Definition succeeds (o : Outcome) : bool := match o with SysOk | SysWrote _ => true | _ => false end.

Definition content (d : Disk) (inode : positive) : IOBuf := default [] (d.(files) !! inode).
Definition set_content (inode : positive) (c : IOBuf) (d : Disk) : Disk := d <| files := <[inode := c]> d.(files) |>.

(** [open] of an existing file. *)
Definition sys_open (f : F) : DM (option positive) :=
  o ← outcome; d ← get;
  mret (if succeeds o then d.(names) !! f else None).

(** [open] with [O_CREAT | O_TRUNC]. *)
Definition sys_create (f : F) : DM (option positive) :=
  o ← outcome; d ← get;
  if negb (succeeds o) then mret None
  else
    match d.(names) !! f with
    | Some inode => modify (set_content inode []) ;; mret (Some inode)
    | None =>
        let inode := d.(next_inode) in
        modify (fun d => d <| names := <[f := inode]> d.(names) |> <| files := <[inode := []]> d.(files) |>
                           <| next_inode := Pos.succ inode |>) ;;
        mret (Some inode)
    end.

(** [fstat]: the size. *)
Definition sys_size (inode : positive) : DM (option nat) :=
  o ← outcome; d ← get;
  mret (if succeeds o then Some (length (content d inode)) else None).

Definition sys_rename (old new : F) : DM bool :=
  o ← outcome; d ← get;
  match d.(names) !! old with
  | Some inode =>
      if succeeds o then modify (fun d => d <| names := <[new := inode]> (delete old d.(names)) |>) ;; mret true
      else mret false
  | None => mret false
  end.

Definition sys_unlink (f : F) : DM unit :=
  o ← outcome;
  when (succeeds o) (modify (fun d => d <| names := delete f d.(names) |>)).

Definition sys_fsync : DM bool := o ← outcome; mret (succeeds o).
Definition sys_lseek : DM bool := o ← outcome; mret (succeeds o).

(** [ftruncate_uninterrupted]: repeated while it is interrupted. *)
Fixpoint ftruncate_loop (fuel : nat) (inode : positive) (len : nat) : DM bool :=
  match fuel with
  | O => mret false
  | S fuel =>
      o ← outcome;
      match o with
      | SysIntr => ftruncate_loop fuel inode len
      | SysFail => mret false
      | _ => modify (fun d => set_content inode (set_length (content d inode) len) d) ;; mret true
      end
  end.
Definition ftruncate_uninterrupted (inode : positive) (len : nat) : DM bool :=
  d ← get; ftruncate_loop (S (length d.(script))) inode len.

(** One write at the descriptor's position: how many bytes it took. *)
Definition sys_write (inode : positive) (pos : nat) (bs : IOBuf) : DM (option nat) :=
  o ← outcome;
  let n := match o with SysWrote n => Nat.min (length bs) (Nat.max 1 n) | _ => length bs end in
  if succeeds o then
    modify (fun d => set_content inode (overwrite (content d inode) pos (take n bs)) d) ;; mret (Some n)
  else mret None.

(** The loop that writes everything: the position it leaves, and whether all
    was written.  Every write takes a byte at least. *)
Fixpoint write_loop (fuel : nat) (inode : positive) (pos : nat) (bs : IOBuf) : DM (bool * nat) :=
  match fuel with
  | O => mret (bool_decide (bs = []), pos)
  | S fuel =>
      match bs with
      | [] => mret (true, pos)
      | _ =>
          n ← sys_write inode pos bs;
          match n with
          | None => mret (false, pos)
          | Some n => write_loop fuel inode (pos + n) (drop n bs)
          end
      end
  end.
Definition write_all (inode : positive) (pos : nat) (bs : IOBuf) : DM (bool * nat) :=
  write_loop (length bs) inode pos bs.

(** [file_pwrite] of [util.cpp]: at an offset, repeated while interrupted. *)
Fixpoint pwrite_loop (fuel : nat) (inode : positive) (offset : nat) (data : IOBuf) : DM bool :=
  match fuel, data with
  | _, [] => mret true
  | O, _ => mret false
  | S fuel, _ =>
      o ← outcome;
      let n := match o with SysWrote n => Nat.min (length data) n | _ => length data end in
      match o with
      | SysIntr => pwrite_loop fuel inode offset data
      | SysFail => mret false
      | _ =>
          modify (fun d => set_content inode (overwrite (content d inode) offset (take n data)) d) ;;
          pwrite_loop fuel inode (offset + n) (drop n data)
      end
  end.
(** Every round consumes an outcome or, when none is left, all the data. *)
Definition file_pwrite (inode : positive) (offset : nat) (data : IOBuf) : DM bool :=
  d ← get; pwrite_loop (S (length d.(script))) inode offset data.

(** *** What the calls leave alone *)

(** The directory, the other files, and a script that only shrinks. *)
Definition touches (inode : option positive) (d d' : Disk) : Prop :=
  d'.(names) = d.(names) /\ d'.(next_inode) = d.(next_inode) /\
  (forall i, Some i <> inode -> content d' i = content d i) /\
  (exists used, d.(script) = used ++ d'.(script)).

#[export] Instance touches_preorder i : PreOrder (touches i).
Proof.
  split; [intros d; by split_and!; [..|exists []]|].
  intros d1 d2 d3 (H1 & H2 & H3 & [u1 H4]) (H5 & H6 & H7 & [u2 H8]). split_and!; [congruence..| |].
  - intros j Hj. by rewrite H7, H3.
  - exists (u1 ++ u2). by rewrite <- app_assoc, <- H8.
Qed.

Lemma touches_none i d d' : touches None d d' -> touches i d d'.
Proof. intros (H1 & H2 & H3 & H4). split_and!; [done..| |done]. intros j _. by apply H3. Qed.

Definition silent (e : DiskEvent F) : Prop := False.

Lemma outcome_touches : obeys (touches None) silent outcome.
Proof.
  intros d. split; [|unfold outcome; destruct (script d); constructor].
  unfold outcome. destruct (script d) as [|o rest] eqn:Hs; (split_and!; [done..|]); simpl;
    [by exists []|by exists [o]].
Qed.

Lemma content_set d i c : content (set_content i c d) i = c.
Proof. unfold content, set_content. simpl. by rewrite lookup_insert_eq. Qed.
Lemma content_set_ne d i j c : i <> j -> content (set_content i c d) j = content d j.
Proof. intros Hij. unfold content, set_content. simpl. by rewrite lookup_insert_ne. Qed.

Lemma names_set d i c : names (set_content i c d) = names d.
Proof. done. Qed.

Lemma set_content_touches i c d : touches (Some i) d (set_content i c d).
Proof.
  split_and!; [done..| |by exists []]. intros j Hj. apply content_set_ne. congruence.
Qed.

(** *** Directories *)

(** Names of existing files lead to distinct inodes, and new ones are fresh. *)
Definition disk_wf (d : Disk) : Prop :=
  (forall f i, d.(names) !! f = Some i -> (i < d.(next_inode))%positive) /\
  (forall f g i, d.(names) !! f = Some i -> d.(names) !! g = Some i -> f = g).

Lemma touches_wf i d d' : touches i d d' -> disk_wf d -> disk_wf d'.
Proof. intros (Hn & Hi & _) [H1 H2]. unfold disk_wf. by rewrite Hn, Hi. Qed.

(** What a name reads as. *)
Definition file_at (d : Disk) (f : F) : option IOBuf := content d <$> d.(names) !! f.

Lemma touches_file_at i d d' f : touches i d d' -> d.(names) !! f <> i -> file_at d' f = file_at d f.
Proof.
  intros (Hn & _ & Hc & _) Hf. unfold file_at. rewrite Hn. destruct (names d !! f) as [j|]; [|done]. simpl. f_equal. by apply Hc.
Qed.

(** The writes of a loop touch its inode only. *)
Lemma set_touches i (g : Disk -> IOBuf) : obeys (touches (Some i)) silent (modify (fun d => set_content i (g d) d)).
Proof. apply obeys_modify. intros d. apply set_content_touches. Qed.

Lemma outcome_touches_any i : obeys (touches i) silent outcome.
Proof. eapply obeys_mono; [|done|apply outcome_touches]. intros. by apply touches_none. Qed.

Hint Resolve set_touches outcome_touches_any : obeys.

Lemma pwrite_touches fuel i o data : obeys (touches (Some i)) silent (pwrite_loop fuel i o data).
Proof. revert o data. induction fuel as [|fuel IH]; intros o [|b data]; cbn [pwrite_loop]; obey; apply IH. Qed.
Lemma write_loop_touches fuel i o bs : obeys (touches (Some i)) silent (write_loop fuel i o bs).
Proof.
  revert o bs. induction fuel as [|fuel IH]; intros o [|b bs]; cbn [write_loop]; unfold sys_write; cbv zeta; obey; apply IH.
Qed.
Lemma ftruncate_touches fuel i len : obeys (touches (Some i)) silent (ftruncate_loop fuel i len).
Proof. induction fuel as [|fuel IH]; cbn [ftruncate_loop]; obey. Qed.

Lemma file_pwrite_touches i o data : obeys (touches (Some i)) silent (file_pwrite i o data).
Proof. unfold file_pwrite. apply obeys_bind; [exact _|apply obeys_get; exact _|]. intros. apply pwrite_touches. Qed.
Lemma fsync_touches i : obeys (touches i) silent sys_fsync.
Proof. unfold sys_fsync. obey. Qed.

(** What a loop of appends leaves: a prefix of the data, all of it when it
    reports success; all or nothing when no write stops halfway. *)
Definition whole (sc : list Outcome) : Prop := Forall (fun o => match o with SysWrote _ => False | _ => True end) sc.

Lemma sys_write_spec i pos bs d :
  pos = length (content d i) -> bs <> [] ->
  let '(r, d', ev) := sys_write i pos bs d in
  (whole d.(script) -> whole d'.(script)) /\
  match r with
  | None => content d' i = content d i
  | Some n => (0 < n <= length bs)%nat /\ content d' i = content d i ++ take n bs /\
      (whole d.(script) -> n = length bs)
  end.
Proof.
  intros -> Hbs. unfold sys_write, outcome, mbind, M_bind, mret, M_ret, modify. cbv zeta.
  assert (0 < length bs)%nat by (destruct bs; simpl; [done|lia]).
  assert (forall d' : Disk, d'.(files) = d.(files) -> content d' i = content d i) as Hcd by (intros d' Hd'; unfold content; by rewrite Hd').
  destruct (script d) as [|o rest] eqn:Hs; [|destruct o as [| | |n]]; cbn [succeeds].
  all: rewrite ?content_set, ?(Hcd (d <| script := rest |>)) by done; cbn [set_content script set_field].
  all: try (split; [by inversion 1|]); rewrite ?overwrite_end.
  - rewrite Hs. split; [done|]. split_and!; [lia..|done|done].
  - split_and!; [lia..|done|done].
  - done.
  - done.
  - split_and!; [lia..| |by inversion 1]. rewrite <- overwrite_end. by f_equal.
Qed.

Lemma write_loop_spec fuel i pos bs d :
  pos = length (content d i) -> (length bs <= fuel)%nat ->
  let '((b, pos'), d', ev) := write_loop fuel i pos bs d in
  exists k, (k <= length bs)%nat /\ content d' i = content d i ++ take k bs /\ pos' = (pos + k)%nat /\
    b = bool_decide (k = length bs) /\ (whole d.(script) -> whole d'.(script) /\ (k = 0%nat \/ k = length bs)).
Proof.
  revert pos bs d. induction fuel as [|fuel IH]; intros pos bs d Hp Hf.
  { destruct bs; [|simpl in Hf; lia]. exists 0%nat. cbn. rewrite app_nil_r, Nat.add_0_r. by split_and!; [..|auto]. }
  destruct bs as [|b0 bs0]; [exists 0%nat; cbn; rewrite app_nil_r, Nat.add_0_r; by split_and!; [..|auto]|].
  cbn [write_loop]. set (bs := b0 :: bs0) in *. unfold mbind, M_bind.
  pose proof (sys_write_spec i pos bs d Hp ltac:(done)) as Hw.
  destruct (sys_write i pos bs d) as [[[n|] d1] e1]; destruct Hw as [Hwh Hw].
  - destruct Hw as (Hn & Hc & Hall). specialize (IH (pos + n)%nat (drop n bs) d1).
    destruct (write_loop fuel i (pos + n) (drop n bs) d1) as [[[b pos'] d2] e2].
    destruct IH as (k & Hk & Hc2 & -> & -> & Hwh2).
    { rewrite Hc, length_app, length_take. lia. }
    { rewrite length_drop. lia. }
    rewrite length_drop in *. exists (n + k)%nat. split_and!.
    + lia.
    + rewrite Hc2, Hc, <- app_assoc. f_equal. apply take_take_drop.
    + lia.
    + apply bool_decide_ext. lia.
    + intros Hs. destruct (Hwh2 (Hwh Hs)) as [? _]. specialize (Hall Hs). split; [done|lia].
  - exists 0%nat. cbn. rewrite Hw, app_nil_r, Nat.add_0_r. split_and!; [lia|done..|]. intros Hs. by auto.
Qed.

Lemma write_all_spec i pos bs d :
  pos = length (content d i) ->
  let '((b, pos'), d', ev) := write_all i pos bs d in
  touches (Some i) d d' /\ exists k, (k <= length bs)%nat /\ content d' i = content d i ++ take k bs /\ pos' = (pos + k)%nat /\
    b = bool_decide (k = length bs) /\ (whole d.(script) -> whole d'.(script) /\ (k = 0%nat \/ k = length bs)).
Proof.
  intros Hp. pose proof (write_loop_spec (length bs) i pos bs d Hp ltac:(done)) as Hw.
  pose proof (proj1 (write_loop_touches (length bs) i pos bs d)) as Ht. unfold write_all.
  by destruct (write_loop (length bs) i pos bs d) as [[[b pos'] d'] ev].
Qed.

Lemma touches_whole i d d' : touches i d d' -> whole d.(script) -> whole d'.(script).
Proof. intros (_ & _ & _ & [u Hu]). unfold whole. rewrite Hu. by intros [_ ?]%Forall_app. Qed.

Lemma pwrite_loop_spec fuel i o data d :
  o = length (content d i) -> let '(b, d', ev) := pwrite_loop fuel i o data d in
  b = true -> content d' i = content d i ++ data.
Proof.
  revert o data d. induction fuel as [|fuel IH]; intros o data d Ho.
  { destruct data; cbn; [by rewrite app_nil_r|done]. }
  destruct data as [|b0 data0]; [cbn; by rewrite app_nil_r|]. cbn [pwrite_loop]. set (data := b0 :: data0).
  assert (forall (d1 : Disk) n, d1.(files) = d.(files) ->
    let '(b, d', ev) := pwrite_loop fuel i (o + length (take n data)) (drop n data)
      (set_content i (overwrite (content d1 i) o (take n data)) d1) in b = true -> content d' i = content d i ++ data) as Hgo.
  { intros d1 n Hd1. assert (content d1 i = content d i) as -> by (unfold content; by rewrite Hd1). rewrite Ho, overwrite_end.
    specialize (IH (length (content d i) + length (take n data))%nat (drop n data) (set_content i (content d i ++ take n data) d1)).
    rewrite content_set in IH. destruct (pwrite_loop _ _ _ _ _) as [[b d'] ev]. intros Hb.
    rewrite IH by (by rewrite ?length_app). by rewrite <- app_assoc, take_drop. }
  unfold outcome, mbind, M_bind, mret, M_ret, modify. cbv zeta.
  destruct (script d) as [|oc rest]; [|destruct oc as [| | |n]]; cbn beta iota.
  - specialize (Hgo d (length data) ltac:(done)). rewrite length_take, Nat.min_id in Hgo. by destruct (pwrite_loop _ _ _ _ _) as [[b d'] ev].
  - specialize (Hgo (d <| script := rest |>) (length data) ltac:(done)). rewrite length_take, Nat.min_id in Hgo.
    by destruct (pwrite_loop _ _ _ _ _) as [[b d'] ev].
  - done.
  - specialize (IH o data (d <| script := rest |>)). destruct (pwrite_loop _ _ _ _ _) as [[b d'] ev]. by apply IH.
  - specialize (Hgo (d <| script := rest |>) (Nat.min (length data) n) ltac:(done)). rewrite length_take in Hgo.
    replace (Nat.min (Nat.min (length data) n) (length data)) with (Nat.min (length data) n) in Hgo by lia.
    by destruct (pwrite_loop _ _ _ _ _) as [[b d'] ev].
Qed.

Lemma file_pwrite_spec i o data d :
  o = length (content d i) -> let '(b, d', ev) := file_pwrite i o data d in
  b = true -> content d' i = content d i ++ data.
Proof.
  intros Ho. unfold file_pwrite, mbind, M_bind, get. pose proof (pwrite_loop_spec (S (length d.(script))) i o data d Ho) as Hw.
  by destruct (pwrite_loop _ _ _ _ _) as [[b d'] ev].
Qed.

Lemma ftruncate_spec fuel i len d :
  let '(b, d', ev) := ftruncate_loop fuel i len d in
  (whole d.(script) -> whole d'.(script)) /\
  content d' i = if b then set_length (content d i) len else content d i.
Proof.
  revert d. induction fuel as [|fuel IH]; intros d; [done|]. cbn [ftruncate_loop].
  unfold outcome, mbind, M_bind, mret, M_ret, modify.
  assert (forall d' : Disk, d'.(files) = d.(files) -> content d' i = content d i) as Hcd by (intros d' Hd'; unfold content; by rewrite Hd').
  destruct (script d) as [|oc rest] eqn:Hs; [|destruct oc as [| | |n]]; cbn beta iota.
  all: rewrite ?content_set, ?(Hcd (d <| script := rest |>)) by done; cbn [set_content script set_field].
  1: by rewrite Hs.
  1,2,4: by split; [inversion 1|].
  specialize (IH (d <| script := rest |>)). destruct (ftruncate_loop _ _ _ _) as [[b d'] ev]. destruct IH as [IH1 IH2].
  split; [inversion 1; by apply IH1|]. by rewrite IH2, (Hcd (d <| script := rest |>)).
Qed.

Lemma ftruncate_uninterrupted_spec i len d :
  let '(b, d', ev) := ftruncate_uninterrupted i len d in
  touches (Some i) d d' /\ content d' i = if b then set_length (content d i) len else content d i.
Proof.
  unfold ftruncate_uninterrupted, mbind, M_bind, get. pose proof (ftruncate_spec (S (length d.(script))) i len d) as Hf.
  pose proof (proj1 (ftruncate_touches (S (length d.(script))) i len d)) as Ht.
  destruct (ftruncate_loop _ i len d) as [[b d'] ev]. by destruct Hf.
Qed.

(** *** Calls on the directory *)
Definition same_files (d d' : Disk) : Prop :=
  d'.(names) = d.(names) /\ d'.(files) = d.(files) /\ d'.(next_inode) = d.(next_inode).

Lemma same_files_at d d' f : same_files d d' -> file_at d' f = file_at d f.
Proof. intros (Hn & Hf & _). unfold file_at, content. by rewrite Hn, Hf. Qed.
Lemma same_files_wf d d' : same_files d d' -> disk_wf d -> disk_wf d'.
Proof. intros (Hn & _ & Hi) [H1 H2]. unfold disk_wf. by rewrite Hn, Hi. Qed.
Lemma same_files_content d d' i : same_files d d' -> content d' i = content d i.
Proof. intros (_ & Hf & _). unfold content. by rewrite Hf. Qed.

Lemma outcome_same d : same_files d (state_of (outcome d)).
Proof. unfold outcome. destruct (script d); done. Qed.
Lemma outcome_whole d : whole d.(script) -> whole (state_of (outcome d)).(script).
Proof. unfold outcome. destruct (script d) eqn:Hs; simpl; [unfold state_of; cbn; by rewrite Hs|by inversion 1]. Qed.

Lemma sys_lseek_spec d : touches None d (state_of (sys_lseek d)).
Proof. unfold sys_lseek. pose proof (proj1 (outcome_touches d)) as Ht. unfold mbind, M_bind, mret, M_ret. by destruct (outcome d) as [[o d1] e1]. Qed.

Lemma sys_open_spec f d : let '(r, d', ev) := sys_open f d in touches None d d' /\ (forall i, r = Some i -> d.(names) !! f = Some i).
Proof.
  unfold sys_open, mbind, M_bind, get, mret, M_ret. pose proof (proj1 (outcome_touches d)) as Ht.
  destruct (outcome d) as [[o d1] e1]. cbn in *. split; [done|]. destruct Ht as (<- & _). by destruct (succeeds o).
Qed.

Lemma sys_size_spec i d : let '(r, d', ev) := sys_size i d in touches None d d' /\ (forall n, r = Some n -> n = length (content d i)).
Proof.
  unfold sys_size, mbind, M_bind, get, mret, M_ret. pose proof (proj1 (outcome_touches d)) as Ht.
  destruct (outcome d) as [[o d1] e1]. cbn in *. split; [done|]. destruct Ht as (_ & _ & Hc & _).
  destruct (succeeds o); [|done]. intros n [= <-]. by rewrite Hc.
Qed.

Lemma sys_create_spec f d :
  disk_wf d -> let '(r, d', ev) := sys_create f d in
  disk_wf d' /\ (whole d.(script) -> whole d'.(script)) /\
  (forall g, g <> f -> d'.(names) !! g = d.(names) !! g /\ file_at d' g = file_at d g) /\
  (forall i, (exists g, g <> f /\ d.(names) !! g = Some i) -> content d' i = content d i) /\
  match r with
  | None => same_files d d'
  | Some i => d'.(names) !! f = Some i /\ content d' i = []
  end.
Proof.
  intros Hwf. pose proof (outcome_same d) as Hs. pose proof (outcome_whole d) as Hsc.
  unfold sys_create, mbind, M_bind, get, mret, M_ret. destruct (outcome d) as [[o d1] e1]. unfold state_of in Hs, Hsc; cbn [fst snd] in Hs, Hsc.
  pose proof (same_files_wf _ _ Hs Hwf) as [Hlt Hinj]. assert (names d1 = names d) as Hn by apply Hs.
  destruct (negb (succeeds o)).
  { split_and!; [done|done| |by intros; apply same_files_content|done]. intros g Hg. rewrite Hn. split; [done|by apply same_files_at]. }
  destruct (names d1 !! f) as [i|] eqn:Hf; unfold modify; split_and!; try done.
  - intros g Hg. rewrite names_set, Hn. split; [done|]. rewrite <- (same_files_at _ _ g Hs).
    eapply touches_file_at; [apply set_content_touches|]. intros Hgi. apply Hg. by eapply Hinj.
  - intros j (g & Hg & Hgj). rewrite <- (same_files_content _ _ j Hs). apply content_set_ne. intros ->. apply Hg.
    eapply Hinj; [|done]. by rewrite Hn.
  - apply content_set.
  - split; [intros g j; cbn; destruct (decide (g = f)) as [->|Hg]; [rewrite lookup_insert_eq; intros [= <-]; lia|];
      rewrite lookup_insert_ne by done; intros Hj%Hlt; lia|].
    intros g h j. cbn. destruct (decide (g = f)) as [->|Hg]; destruct (decide (h = f)) as [->|Hh]; try done.
    + rewrite lookup_insert_eq, lookup_insert_ne by done. intros [= <-] Hj%Hlt. lia.
    + rewrite lookup_insert_eq, lookup_insert_ne by done. intros Hj%Hlt [= <-]. lia.
    + rewrite !lookup_insert_ne by done. apply Hinj.
  - intros g Hg. cbn. rewrite lookup_insert_ne by done. split; [by rewrite Hn|].
    rewrite <- (same_files_at _ _ g Hs). unfold file_at, content. cbn. rewrite lookup_insert_ne by done.
    destruct (names d1 !! g) as [j|] eqn:Hj; [|done]. cbn. rewrite lookup_insert_ne; [done|]. apply Hlt in Hj. lia.
  - intros j (g & Hg & Hgj). rewrite <- (same_files_content _ _ j Hs). unfold content. cbn. rewrite lookup_insert_ne; [done|].
    rewrite <- Hn in Hgj. apply Hlt in Hgj. lia.
  - cbn. apply lookup_insert_eq.
  - unfold content. cbn. by rewrite lookup_insert_eq.
Qed.

(** Every name outside [P] leads where it did, to the same bytes. *)
Definition kept_but (P : F -> Prop) (d d' : Disk) : Prop :=
  forall g, ~ P g -> d'.(names) !! g = d.(names) !! g /\ forall i, d.(names) !! g = Some i -> content d' i = content d i.

#[export] Instance kept_but_preorder P : PreOrder (kept_but P).
Proof.
  split; [by intros d g _|]. intros d1 d2 d3 H1 H2 g Hg. destruct (H1 g Hg) as [N1 C1], (H2 g Hg) as [N2 C2].
  split; [congruence|]. intros i Hi. rewrite C2 by congruence. by apply C1.
Qed.
Lemma kept_but_mono (P Q : F -> Prop) d d' : (forall g, P g -> Q g) -> kept_but P d d' -> kept_but Q d d'.
Proof. intros HPQ Hk g Hg. apply Hk. auto. Qed.

(** Work on an inode is seen through its name only. *)
Lemma touches_kept d d' f i :
  disk_wf d -> d.(names) !! f = Some i -> touches (Some i) d d' -> kept_but (eq f) d d'.
Proof.
  intros [_ Hinj] Hf (Hn & _ & Hc & _) g Hg. rewrite Hn. split; [done|]. intros j Hj. apply Hc. intros [= ->].
  apply Hg. by eapply Hinj.
Qed.

Lemma sys_rename_spec f g d :
  f <> g -> disk_wf d -> let '(b, d', ev) := sys_rename f g d in
  disk_wf d' /\ (whole d.(script) -> whole d'.(script)) /\ d'.(files) = d.(files) /\
  (forall h, h <> f -> h <> g -> d'.(names) !! h = d.(names) !! h) /\
  if b then d'.(names) !! g = d.(names) !! f /\ d.(names) !! f <> None /\ d'.(names) !! f = None else same_files d d'.
Proof.
  intros Hfg Hwf. pose proof (outcome_same d) as Hs. pose proof (outcome_whole d) as Hsc.
  unfold sys_rename, mbind, M_bind, get, mret, M_ret. destruct (outcome d) as [[o d1] e1]. unfold state_of in Hs, Hsc; cbn [fst snd] in Hs, Hsc.
  pose proof (same_files_wf _ _ Hs Hwf) as Hwf1. assert (names d1 = names d) as Hn by apply Hs. assert (files d1 = files d) as Hf1 by apply Hs.
  destruct (names d1 !! f) as [i|] eqn:Hf; [|by rewrite <- Hn; split_and!].
  destruct (succeeds o); [|by rewrite <- Hn; split_and!]. unfold modify.
  destruct Hwf1 as [Hlt Hinj]. split_and!; try done; cbn.
  - split; [intros h j; cbn; rewrite lookup_insert_Some, lookup_delete_Some; intros [[_ <-]|[_ [_ Hj]]]; by eapply Hlt|].
    intros h k j. cbn. rewrite !lookup_insert_Some, !lookup_delete_Some.
    intros [[<- <-]|[Hgh [Hfh Hj]]] [[<- Hk]|[Hgk [Hfk Hk]]]; try done.
    + exfalso. apply Hfk. by eapply Hinj.
    + subst j. exfalso. apply Hfh. by eapply Hinj.
    + by eapply Hinj.
  - intros h Hhf Hhg. by rewrite lookup_insert_ne, lookup_delete_ne, Hn by done.
  - by rewrite lookup_insert_eq, <- Hn, Hf.
  - by rewrite <- Hn, Hf.
  - by rewrite lookup_insert_ne, lookup_delete_eq by done.
Qed.
End disk.
Arguments Disk : clear implicits.
Arguments Disk F {_ _}.
Abbreviation DM F := (M (Disk F) (DiskEvent F)).

#[export] Hint Resolve set_touches outcome_touches_any pwrite_touches write_loop_touches ftruncate_touches : obeys.
