(* ===== verification/BufferedFile.v ===== *)
(** * BufferedFile: sequential files behind a buffer

    [BufferedSequentialReadFileAdaptor] and [BufferedSequentialWriteFileAdaptor] of
    [src/braft/file_system_adaptor.{h,cpp}], the base classes of adaptors for devices
    that are read or written only forward.  [do_read] and [do_write] are what a
    subclass gives: parameters, over a device whose state is [D].  A buffer may be
    shorter than what it stands for, the missing bytes at its end being zeros. *)

From S2P Require Import Prelude Types Disk.

(** A failed [CHECK]. *)
Inductive Event : Set := CheckFailed.

(** What a call to a subclass ends with, and the [errno] it leaves; [OK] when it has
    left none. *)
Record Answer (A : Type) : Type := mkAnswer { rc : Z; errno : Errno; result : A }.
Arguments mkAnswer {A}. Arguments rc {A}. Arguments errno {A}. Arguments result {A}.

Definition error_of (e : Errno) : Errno := if ok e then EIO else e.

(** ** Reading *)
Record BufferedReader (D : Type) : Type := mkBufferedReader {
  rd_buffer : IOBuf;
  rd_buffer_offset : Z;
  rd_buffer_size : Z;
  rd_reach_file_eof : bool;
  rd_error : Errno;
  rd_device : D
}.
Arguments mkBufferedReader {D}. Arguments rd_buffer {D}. Arguments rd_buffer_offset {D}. Arguments rd_buffer_size {D}.
Arguments rd_reach_file_eof {D}. Arguments rd_error {D}. Arguments rd_device {D}.
#[export] Instance BufferedReader_eta D : Settable (BufferedReader D) := fun r =>
  mkBufferedReader r.(rd_buffer) r.(rd_buffer_offset) r.(rd_buffer_size) r.(rd_reach_file_eof) r.(rd_error) r.(rd_device).
Definition BufferedReader_new {D} (d : D) : BufferedReader D := mkBufferedReader [] 0 0 false OK d.

Section reader.
Context {D : Type} (do_read : Z -> D -> Answer (IOBuf * Z) * D).

Abbreviation RM := (M (BufferedReader D) Event).

(** The part of [read] that asks the device for what the buffer has not got. *)
Definition fill (end_offset : Z) : RM (option Errno) := fun r =>
  let need_count := end_offset - r.(rd_buffer_offset) - r.(rd_buffer_size) in
  let '(a, d) := do_read need_count r.(rd_device) in
  let '(portal, read_count) := a.(result) in
  let r := r <| rd_device := d |> in
  if negb (a.(rc) =? 0) then
    (Some (error_of a.(errno)), r <| rd_error := error_of a.(errno) |>, [])
  else
    (None,
     r <| rd_reach_file_eof := read_count <? need_count |>
       <| rd_buffer := match portal with
                       | [] => r.(rd_buffer)
                       | _ => set_length r.(rd_buffer) (Z.to_nat r.(rd_buffer_size)) ++ portal
                       end |>
       <| rd_buffer_size := r.(rd_buffer_size) + read_count |>, []).

(** [read]: the error, or the count it returns and the bytes given to the portal. *)
Definition buffered_read (offset size : Z) : RM (Errno + (Z * IOBuf)) :=
  r ← get;
  if negb (ok r.(rd_error)) then mret (inl r.(rd_error))
  else if (offset <? r.(rd_buffer_offset)) || (r.(rd_buffer_offset) + r.(rd_buffer_size) <? offset) then mret (inl EINVAL)
  else
    when (r.(rd_buffer_offset) <? offset)
      (modify (fun r =>
         let skipped := offset - r.(rd_buffer_offset) in
         r <| rd_buffer := drop (Nat.min (Z.to_nat skipped) (length r.(rd_buffer))) r.(rd_buffer) |>
           <| rd_buffer_size := r.(rd_buffer_size) - skipped |>
           <| rd_buffer_offset := offset |>)) ;;
    r ← get;
    let end_offset := wrap_i64 (offset + size) in
    e ← (if negb r.(rd_reach_file_eof) && (r.(rd_buffer_offset) + r.(rd_buffer_size) <? end_offset)
         then fill end_offset else mret None);
    match e with
    | Some e => mret (inl e)
    | None =>
        r ← get;
        let nread := Z.min r.(rd_buffer_size) size in
        mret (inr (nread, take (Nat.min (length r.(rd_buffer)) (Z.to_nat nread)) r.(rd_buffer)))
    end.

(** [SSIZE_MAX] as long as the end is not known. *)
Definition buffered_size (r : BufferedReader D) : Z :=
  if r.(rd_reach_file_eof) then r.(rd_buffer_offset) + r.(rd_buffer_size) else 2 ^ 63 - 1.
End reader.

(** ** Writing *)
Record BufferedWriter (D : Type) : Type := mkBufferedWriter {
  wr_buffer : IOBuf;
  wr_buffer_offset : Z;
  wr_buffer_size : Z;
  wr_error : Errno;
  wr_device : D
}.
Arguments mkBufferedWriter {D}. Arguments wr_buffer {D}. Arguments wr_buffer_offset {D}. Arguments wr_buffer_size {D}.
Arguments wr_error {D}. Arguments wr_device {D}.
#[export] Instance BufferedWriter_eta D : Settable (BufferedWriter D) := fun w =>
  mkBufferedWriter w.(wr_buffer) w.(wr_buffer_offset) w.(wr_buffer_size) w.(wr_error) w.(wr_device).
Definition BufferedWriter_new {D} (d : D) : BufferedWriter D := mkBufferedWriter [] 0 0 OK d.

Section writer.
(** [do_write] writes from the front of the buffer and says how much; a subclass may
    override [seek], which is told of the holes: [dev_seek] is what it does besides. *)
Context {D : Type} (do_write : IOBuf -> D -> Answer nat * D) (dev_seek : Z -> D -> D).

Abbreviation WM := (M (BufferedWriter D) Event).

Definition seek (offset : Z) : WM unit :=
  modify (fun w => w <| wr_buffer_offset := offset |> <| wr_device := dev_seek offset w.(wr_device) |>).

Definition flush : WM (option Errno) := fun w =>
  let '(a, d) := do_write w.(wr_buffer) w.(wr_device) in
  let w := w <| wr_device := d |> in
  if a.(rc) <? 0 then (Some (error_of a.(errno)), w <| wr_error := error_of a.(errno) |>, [])
  else
    let n := a.(result) in
    let w := w <| wr_buffer_offset := w.(wr_buffer_offset) + Z.of_nat n |>
               <| wr_buffer_size := wrap_u64 (w.(wr_buffer_size) - Z.of_nat n) |>
               <| wr_buffer := drop n w.(wr_buffer) |> in
    (None, w, if w.(wr_buffer_size) =? zlen w.(wr_buffer) then [] else [CheckFailed]).

(** [write]: the error, or the size of the data. *)
Definition buffered_write (data : IOBuf) (offset : Z) : WM (Errno + Z) :=
  w ← get;
  if negb (ok w.(wr_error)) then mret (inl w.(wr_error))
  else if offset <? w.(wr_buffer_offset) + w.(wr_buffer_size) then mret (inl EINVAL)
  else
    when (w.(wr_buffer_offset) + w.(wr_buffer_size) <? offset)
      (when (negb (w.(wr_buffer_size) =? 0)) (emit CheckFailed) ;; seek offset) ;;
    modify (fun w => w <| wr_buffer := w.(wr_buffer) ++ data |>
                       <| wr_buffer_size := zlen (w.(wr_buffer) ++ data) |>) ;;
    w ← get;
    e ← (if 0 <? zlen w.(wr_buffer) then flush else mret None);
    match e with Some e => mret (inl e) | None => mret (inr (zlen data)) end.

(** [close]: whether everything has been handed on. *)
Definition buffered_close (w : BufferedWriter D) : bool := zlen w.(wr_buffer) =? 0.
End writer.

(** ** What a reader delivers *)

(** *** Bytes with zeros left out at the end *)
Lemma set_length_exact c n : set_length c (length c) = c /\ length (set_length c n) = n.
Proof.
  unfold set_length. split.
  - by rewrite firstn_all, Nat.sub_diag, app_nil_r.
  - rewrite length_app, length_take, length_replicate. lia.
Qed.
Lemma set_length_grow c a n : (length c <= a)%nat -> set_length c (a + n) = set_length c a ++ replicate n Byte.x00.
Proof.
  intros H. unfold set_length. rewrite !take_ge by lia. rewrite <- app_assoc, <- replicate_add. do 2 f_equal. lia.
Qed.
Lemma set_length_app c p a n : (length c <= a)%nat -> (length p <= n)%nat ->
  set_length (set_length c a ++ p) (a + n) = set_length c a ++ set_length p n.
Proof.
  intros Hc Hp. pose proof (proj2 (set_length_exact c a)) as Hl. revert Hl. generalize (set_length c a) as b. intros b Hl.
  unfold set_length. rewrite !take_ge by (rewrite ?length_app; lia). rewrite <- app_assoc.
  do 2 f_equal. replace (a + n - length (b ++ p))%nat with (n - length p)%nat; [done|].
  rewrite length_app. lia.
Qed.
Lemma set_length_drop c a k : (length c <= a)%nat -> (k <= a)%nat ->
  set_length (drop (Nat.min k (length c)) c) (a - k) = drop k (set_length c a).
Proof.
  intros Hc Hk. unfold set_length. rewrite length_drop, !take_ge by (rewrite ?length_drop; lia).
  destruct (decide (k <= length c)%nat).
  - rewrite Nat.min_l by lia. rewrite drop_app_le by lia. do 2 f_equal. lia.
  - rewrite Nat.min_r, !drop_ge by lia. rewrite drop_app_ge by lia. rewrite drop_replicate. cbn. f_equal. lia.
Qed.
Lemma set_length_front c a m : (length c <= a)%nat -> (m <= a)%nat ->
  set_length (take (Nat.min (length c) m) c) m = take m (set_length c a).
Proof.
  intros Hc Hm. unfold set_length. rewrite (take_ge c a) by lia. rewrite length_take.
  destruct (decide (m <= length c)%nat).
  - rewrite Nat.min_r by lia. rewrite take_app_le by lia. rewrite (take_ge (take m c)) by (rewrite length_take; lia).
    rewrite Nat.min_l, Nat.sub_diag by lia. by rewrite app_nil_r.
  - rewrite Nat.min_l by lia. rewrite !(take_ge c) by lia. rewrite take_app_ge by lia. rewrite Nat.min_id.
    rewrite take_replicate. do 2 f_equal. lia.
Qed.

Section read_law.
Context {D : Type} (do_read : Z -> D -> Answer (IOBuf * Z) * D) (c : IOBuf) (pos : D -> Z).

(** A device that gives the bytes of [c] from its position on: [nread] of them, more or
    fewer than it was asked for; zeros at the end may be left out; fewer only at the end
    of the file. *)
Definition reads_forward : Prop := forall need d a d',
  0 < need -> 0 <= pos d <= zlen c -> do_read need d = (a, d') -> a.(rc) = 0 ->
  let '(portal, n) := a.(result) in
  0 <= n /\ pos d' = pos d + n /\ pos d' <= zlen c /\ zlen portal <= n /\
  set_length portal (Z.to_nat n) = slice c (Z.to_nat (pos d)) (Z.to_nat n) /\ (n < need -> pos d' = zlen c).
Context (Hdev : reads_forward) (Hc : zlen c < 2 ^ 63).

Definition reader_ok (r : BufferedReader D) : Prop :=
  0 <= r.(rd_buffer_offset) /\ 0 <= r.(rd_buffer_size) /\
  pos r.(rd_device) = r.(rd_buffer_offset) + r.(rd_buffer_size) /\ pos r.(rd_device) <= zlen c /\
  zlen r.(rd_buffer) <= r.(rd_buffer_size) /\
  set_length r.(rd_buffer) (Z.to_nat r.(rd_buffer_size)) =
    slice c (Z.to_nat r.(rd_buffer_offset)) (Z.to_nat r.(rd_buffer_size)) /\
  (r.(rd_reach_file_eof) = true -> pos r.(rd_device) = zlen c).

(** The bytes before [offset] are let go. *)
Definition skip_to (offset : Z) (r : BufferedReader D) : BufferedReader D :=
  if r.(rd_buffer_offset) <? offset then
    r <| rd_buffer := drop (Nat.min (Z.to_nat (offset - r.(rd_buffer_offset))) (length r.(rd_buffer))) r.(rd_buffer) |>
      <| rd_buffer_size := r.(rd_buffer_size) - (offset - r.(rd_buffer_offset)) |>
      <| rd_buffer_offset := offset |>
  else r.

Lemma skip_to_ok offset r : reader_ok r ->
  r.(rd_buffer_offset) <= offset <= r.(rd_buffer_offset) + r.(rd_buffer_size) ->
  reader_ok (skip_to offset r) /\ (skip_to offset r).(rd_buffer_offset) = offset.
Proof.
  intros (H1 & H2 & H3 & H4 & H5 & H6 & H7) Hoff. unfold skip_to.
  destruct (_ <? offset) eqn:Ho; [apply Z.ltb_lt in Ho|apply Z.ltb_ge in Ho; split; [done|lia]].
  unfold zlen in H5. split; [|done]. split_and!; cbn; try lia; [| |done].
  - unfold zlen. rewrite length_drop. lia.
  - set (k := Z.to_nat (offset - rd_buffer_offset r)).
    replace (Z.to_nat (rd_buffer_size r - (offset - rd_buffer_offset r))) with (Z.to_nat (rd_buffer_size r) - k)%nat by lia.
    rewrite set_length_drop, H6 by lia. unfold slice. rewrite skipn_firstn_comm, drop_drop. do 2 f_equal. lia.
Qed.

Lemma fill_ok offset end_offset r : reader_ok r -> r.(rd_buffer_offset) = offset ->
  offset + r.(rd_buffer_size) < end_offset -> r.(rd_reach_file_eof) = false ->
  match value_of (fill do_read end_offset r) with
  | Some e => e <> OK /\ (state_of (fill do_read end_offset r)).(rd_error) = e
  | None =>
      let r' := state_of (fill do_read end_offset r) in
      reader_ok r' /\ r'.(rd_buffer_offset) = offset /\ r'.(rd_error) = r.(rd_error) /\
      (offset + r'.(rd_buffer_size) < end_offset -> offset + r'.(rd_buffer_size) = zlen c)
  end.
Proof.
  intros (H1 & H2 & H3 & H4 & H5 & H6 & H7) Hoff Hend Heof. unfold fill, value_of, state_of.
  destruct (do_read _ _) as [a d'] eqn:Hr. destruct a as [rc errno [portal n]]. cbn.
  destruct (rc =? 0) eqn:Hrc; cbn.
  2:{ split; [|done]. unfold error_of, ok. by case_bool_decide. }
  apply Z.eqb_eq in Hrc as ->. pose proof (fun p q => Hdev _ _ _ _ p q Hr eq_refl) as Hlaw. cbn in Hlaw.
  destruct Hlaw as (Hn & Hp & Hp' & Hlen & Hslice & Hshort); [lia..|].
  unfold zlen in H5, Hlen. split; [|split; [done|split; [done|]]].
  - split_and!; cbn; try lia.
    + destruct portal; unfold zlen; [lia|]. rewrite length_app, (proj2 (set_length_exact _ _)). lia.
    + rewrite Z2Nat.inj_add, slice_split, <- H6 by lia.
      replace (Z.to_nat (rd_buffer_offset r) + Z.to_nat (rd_buffer_size r))%nat with (Z.to_nat (pos (rd_device r))) by lia.
      rewrite <- Hslice. destruct portal as [|b portal].
      * rewrite set_length_grow by lia. unfold set_length at 3. rewrite take_nil. cbn. by rewrite Nat.sub_0_r.
      * apply set_length_app; lia.
  - intros Hlt. assert (pos d' = zlen c) by (apply Hshort; lia). lia.
Qed.

(** [read] is [skip_to], [fill] when more is wanted, and a copy of the front. *)
Lemma buffered_read_run offset size r : r.(rd_error) = OK ->
  r.(rd_buffer_offset) <= offset <= r.(rd_buffer_offset) + r.(rd_buffer_size) ->
  buffered_read do_read offset size r =
    (let r1 := skip_to offset r in
     let more := negb r1.(rd_reach_file_eof) && (r1.(rd_buffer_offset) + r1.(rd_buffer_size) <? wrap_i64 (offset + size)) in
     let '(e, r2, _) := if more then fill do_read (wrap_i64 (offset + size)) r1 else (None, r1, []) in
     match e with
     | Some e => (inl e, r2, [])
     | None =>
         let nread := Z.min r2.(rd_buffer_size) size in
         (inr (nread, take (Nat.min (length r2.(rd_buffer)) (Z.to_nat nread)) r2.(rd_buffer)), r2, [])
     end).
Proof.
  intros He Hoff. unfold buffered_read. rewrite get_bind, He. change (negb (ok OK)) with false. cbv iota.
  replace (offset <? rd_buffer_offset r) with false by lia.
  replace (rd_buffer_offset r + rd_buffer_size r <? offset) with false by lia. cbn [orb].
  assert (forall (k : unit -> M (BufferedReader D) Event (Errno + (Z * IOBuf))),
    (when (rd_buffer_offset r <? offset) (modify (fun r =>
       let skipped := offset - r.(rd_buffer_offset) in
       r <| rd_buffer := drop (Nat.min (Z.to_nat skipped) (length r.(rd_buffer))) r.(rd_buffer) |>
         <| rd_buffer_size := r.(rd_buffer_size) - skipped |> <| rd_buffer_offset := offset |>)) ≫= k) r = k tt (skip_to offset r)) as Hskip.
  { intros k. unfold skip_to. destruct (_ <? offset); cbn [when]; [by rewrite modify_bind|].
    unfold mbind, M_bind, skip. by destruct (k tt r) as [[? ?] ?]. }
  rewrite Hskip, get_bind. cbv zeta. destruct (negb _ && _).
  - unfold mbind, M_bind, fill, get, mret, M_ret. destruct (do_read _ _) as [[rc errno [portal n]] d']. cbn.
    by destruct (rc =? 0).
  - unfold mbind, M_bind, get, mret, M_ret. reflexivity.
Qed.

(** Whatever the device does, a read at an offset the buffer reaches gives the bytes of
    the file there, as many as were asked for unless the file ends (zeros at the end may
    be left out of the portal, the count includes them), or fails with an error that
    every later read repeats; the next read may start anywhere up to its end. *)
Theorem buffered_read_reads_the_file r offset size :
  reader_ok r -> r.(rd_error) = OK -> 0 <= size -> offset + size < 2 ^ 63 ->
  r.(rd_buffer_offset) <= offset <= r.(rd_buffer_offset) + r.(rd_buffer_size) ->
  let r' := state_of (buffered_read do_read offset size r) in
  match value_of (buffered_read do_read offset size r) with
  | inr (n, out) =>
      n = Z.min size (zlen c - offset) /\ zlen out <= n /\
      set_length out (Z.to_nat n) = slice c (Z.to_nat offset) (Z.to_nat n) /\
      reader_ok r' /\ r'.(rd_error) = OK /\
      r'.(rd_buffer_offset) = offset /\ offset + n <= r'.(rd_buffer_offset) + r'.(rd_buffer_size)
  | inl e => e <> OK /\ r'.(rd_error) = e /\
      forall offset size, value_of (buffered_read do_read offset size r') = inl e
  end.
Proof.
  intros Hr He Hsize Hmax Hoff. destruct (skip_to_ok offset r Hr Hoff) as [Hr1 Hbo].
  assert ((skip_to offset r).(rd_error) = OK) as He1 by (unfold skip_to; by destruct (_ <? offset)).
  assert (0 <= offset) as Hpos by (destruct Hr as (? & _); lia).
  rewrite buffered_read_run by done. cbv zeta. rewrite (wrap_i64_small (offset + size)) by lia.
  generalize dependent (skip_to offset r). intros r1 Hr1 Hbo He1.
  assert (forall r2, reader_ok r2 -> r2.(rd_buffer_offset) = offset -> r2.(rd_error) = OK ->
    (offset + r2.(rd_buffer_size) < offset + size -> offset + r2.(rd_buffer_size) = zlen c) ->
    let n := Z.min r2.(rd_buffer_size) size in
    let out := take (Nat.min (length r2.(rd_buffer)) (Z.to_nat n)) r2.(rd_buffer) in
    n = Z.min size (zlen c - offset) /\ zlen out <= n /\
    set_length out (Z.to_nat n) = slice c (Z.to_nat offset) (Z.to_nat n) /\
    reader_ok r2 /\ r2.(rd_error) = OK /\ r2.(rd_buffer_offset) = offset /\ offset + n <= r2.(rd_buffer_offset) + r2.(rd_buffer_size)) as Hgive.
  { intros r2 Hr2 Hb2 He2 Hend. destruct (Hr2) as (G1 & G2 & G3 & G4 & G5 & G6 & G7). unfold zlen in G5. cbv zeta.
    split_and!; try done; try lia.
    - unfold zlen. rewrite length_take. lia.
    - rewrite (set_length_front _ (Z.to_nat (rd_buffer_size r2))), G6, Hb2 by lia. unfold slice. rewrite take_take. f_equal. lia. }
  destruct (negb r1.(rd_reach_file_eof) && _) eqn:Hmore.
  - apply andb_true_iff in Hmore as [Heof%negb_true_iff Hlt%Z.ltb_lt].
    pose proof (fill_ok offset (offset + size) r1 Hr1 Hbo ltac:(lia) Heof) as Hf. unfold value_of, state_of in *.
    destruct (fill do_read (offset + size) r1) as [[[e|] r2] ev]; cbn in *.
    + destruct Hf as [Hne Hst]. split; [done|]. split; [done|]. intros o s. unfold buffered_read. rewrite get_bind, Hst.
      assert (ok e = false) as -> by (unfold ok; by rewrite bool_decide_eq_false). done.
    + destruct Hf as (Hr2 & Hb2 & He2 & Hend). apply Hgive; [done..|congruence|done].
  - apply (Hgive r1 Hr1 Hbo He1). intros Hlt. destruct Hr1 as (G1 & G2 & G3 & G4 & G5 & G6 & G7).
    apply andb_false_iff in Hmore as [Heof%negb_false_iff|Hge%Z.ltb_ge]; [rewrite G7 in G3 by done|]; lia.
Qed.
End read_law.

(** ** What a writer hands on *)
Lemma overwrite_front c pos a b :
  overwrite (overwrite c pos a) (pos + length a) b = overwrite c pos (a ++ b).
Proof.
  set (x := take pos c ++ replicate (pos - length c) Byte.x00).
  assert (length x = pos) as Hx by (subst x; rewrite length_app, length_take, length_replicate; lia).
  assert (forall bs, overwrite c pos bs = x ++ bs ++ drop (pos + length bs) c) as Hov by (intros bs; unfold overwrite, x; by rewrite <- app_assoc).
  rewrite !Hov. clear Hov. clearbody x. unfold overwrite at 1.
  assert (length (x ++ a) = pos + length a)%nat as Hxa by (rewrite length_app; lia).
  rewrite (app_assoc x a), take_app_length' by done.
  replace (pos + length a - _)%nat with 0%nat by (rewrite (length_app (x ++ a)); lia).
  rewrite (drop_app_ge (x ++ a)), drop_drop by lia. cbn. rewrite !length_app, <- !app_assoc. do 4 f_equal. lia.
Qed.
Lemma overwrite_hole c pos offset data : (pos <= offset)%nat ->
  overwrite (overwrite c pos []) offset data = overwrite c offset data.
Proof.
  intros H. destruct (decide (length c <= pos)%nat) as [Hl|Hl].
  - unfold overwrite. cbn. rewrite Nat.add_0_r, (take_ge c pos), (drop_ge c pos), app_nil_r by lia.
    rewrite !take_ge by (rewrite ?length_app, ?length_replicate; lia).
    rewrite !drop_ge by (rewrite ?length_app, ?length_replicate; lia).
    rewrite length_app, length_replicate, <- app_assoc. f_equal. rewrite (app_assoc (replicate _ _)), <- replicate_add.
    do 2 f_equal. lia.
  - replace (overwrite c pos []) with c; [done|]. unfold overwrite. replace (pos - length c)%nat with 0%nat by lia.
    cbn. by rewrite Nat.add_0_r, take_drop.
Qed.

Section write_law.
Context {D : Type} (do_write : IOBuf -> D -> Answer nat * D) (dev_seek : Z -> D -> D).
Context (content : D -> IOBuf) (pos : D -> Z).

(** A device that writes some bytes from the front of what it is given at its position,
    and moves on past holes. *)
Definition writes_forward : Prop :=
  (forall bs d a d', do_write bs d = (a, d') -> 0 <= a.(rc) ->
     (a.(result) <= length bs)%nat /\ pos d' = pos d + Z.of_nat a.(result) /\
     content d' = overwrite (content d) (Z.to_nat (pos d)) (take a.(result) bs)) /\
  (forall offset d, pos (dev_seek offset d) = offset /\ content (dev_seek offset d) = content d).
Context (Hdev : writes_forward).

(** The file once the buffer is written. *)
Definition view (w : BufferedWriter D) : IOBuf :=
  overwrite (content w.(wr_device)) (Z.to_nat (pos w.(wr_device))) w.(wr_buffer).
Definition writer_ok (w : BufferedWriter D) : Prop :=
  0 <= w.(wr_buffer_offset) /\ pos w.(wr_device) = w.(wr_buffer_offset) /\
  w.(wr_buffer_size) = zlen w.(wr_buffer) /\ zlen w.(wr_buffer) < 2 ^ 63.

Lemma writer_flush_ok w : writer_ok w ->
  let '(e, w', ev) := flush do_write w in
  ev = [] /\
  match e with
  | Some e => e <> OK /\ w'.(wr_error) = e
  | None => writer_ok w' /\ view w' = view w /\ w'.(wr_error) = w.(wr_error) /\
            w'.(wr_buffer_offset) + w'.(wr_buffer_size) = w.(wr_buffer_offset) + w.(wr_buffer_size)
  end.
Proof.
  intros (H1 & H2 & H3 & H4). unfold flush. destruct (do_write _ _) as [a d'] eqn:Hw.
  destruct (a.(rc) <? 0) eqn:Hrc.
  { split; [done|]. cbn. split; [|done]. unfold error_of, ok. by case_bool_decide. }
  destruct (proj1 Hdev _ _ _ _ Hw ltac:(lia)) as (Hn & Hp & Hc). cbn.
  assert (wrap_u64 (wr_buffer_size w - Z.of_nat (result a)) = zlen (drop (result a) (wr_buffer w))) as Hsize.
  { unfold wrap_u64. rewrite H3. unfold zlen in *. rewrite length_drop, Z.mod_small by lia. lia. }
  rewrite Hsize, Z.eqb_refl. split; [done|]. split_and!.
  - unfold writer_ok. cbn. unfold zlen in *. rewrite length_drop. lia.
  - unfold view. cbn. rewrite Hc, Hp, Z2Nat.inj_add, Nat2Z.id by lia.
    rewrite <- (take_drop (result a) (wr_buffer w)) at 3. rewrite <- overwrite_front.
    do 2 f_equal. rewrite length_take. lia.
  - done.
  - cbn. unfold zlen in *. rewrite length_drop. lia.
Qed.

(** The part of [write] after the hole: the data goes behind the buffer, and out. *)
Definition append_and_flush (data : IOBuf) : M (BufferedWriter D) Event (Errno + Z) :=
  modify (fun w => w <| wr_buffer := w.(wr_buffer) ++ data |> <| wr_buffer_size := zlen (w.(wr_buffer) ++ data) |>) ;;
  w ← get;
  e ← (if 0 <? zlen w.(wr_buffer) then flush do_write else mret None);
  match e with Some e => mret (inl e) | None => mret (inr (zlen data)) end.

Lemma append_and_flush_ok data w : writer_ok w -> w.(wr_error) = OK -> zlen (w.(wr_buffer) ++ data) < 2 ^ 63 ->
  let '(r, w', ev) := append_and_flush data w in
  ev = [] /\
  match r with
  | inl e => e <> OK /\ w'.(wr_error) = e
  | inr n =>
      n = zlen data /\ writer_ok w' /\ w'.(wr_error) = OK /\
      view w' = overwrite (view w) (Z.to_nat (w.(wr_buffer_offset) + w.(wr_buffer_size))) data /\
      w'.(wr_buffer_offset) + w'.(wr_buffer_size) = w.(wr_buffer_offset) + w.(wr_buffer_size) + zlen data
  end.
Proof.
  intros (H1 & H2 & H3 & H4) He Hmax. unfold append_and_flush. rewrite modify_bind, get_bind.
  set (w1 := w <| wr_buffer := wr_buffer w ++ data |> <| wr_buffer_size := zlen (wr_buffer w ++ data) |>).
  assert (writer_ok w1) as Hok1 by (unfold writer_ok, w1; cbn; done).
  assert (view w1 = overwrite (view w) (Z.to_nat (wr_buffer_offset w + wr_buffer_size w)) data) as Hview.
  { unfold view, w1. cbn. rewrite <- overwrite_front, H2, H3. unfold zlen. rewrite Z2Nat.inj_add, Nat2Z.id by lia. done. }
  assert (w1.(wr_buffer_offset) + w1.(wr_buffer_size) = w.(wr_buffer_offset) + w.(wr_buffer_size) + zlen data) as Hend
    by (unfold w1; cbn; rewrite zlen_app, H3; lia).
  assert (w1.(wr_error) = OK) as He1 by done.
  clearbody w1. unfold mbind, M_bind. destruct (0 <? _).
  - pose proof (writer_flush_ok w1 Hok1) as Hf. destruct (flush do_write w1) as [[[e|] w2] ev]; cbn.
    + destruct Hf as (-> & Hne & Hst). done.
    + destruct Hf as (-> & Hok2 & Hv2 & He2 & Hend2). split_and!; try done; congruence.
  - cbn. split_and!; done.
Qed.

Lemma write_repeats_error e w data offset : e <> OK -> w.(wr_error) = e ->
  value_of (buffered_write do_write dev_seek data offset w) = inl e.
Proof.
  intros Hne He. unfold buffered_write. rewrite get_bind, He.
  assert (ok e = false) as -> by (unfold ok; by rewrite bool_decide_eq_false). done.
Qed.

(** A write that succeeds, at an offset that the buffer allows, leaves the file with the
    data at that offset, zeros in the hole before it, whatever part of the data is
    still in the buffer; one that fails leaves an error that every later write
    repeats; no check fails unless a hole is left while bytes are in the buffer. *)
Theorem buffered_write_writes_the_file w data offset :
  writer_ok w -> w.(wr_error) = OK -> zlen (w.(wr_buffer) ++ data) < 2 ^ 63 ->
  let '(r, w', ev) := buffered_write do_write dev_seek data offset w in
  match r with
  | inl e =>
      e = EINVAL /\ offset < w.(wr_buffer_offset) + w.(wr_buffer_size) /\ w' = w \/
      e <> OK /\ forall data offset, value_of (buffered_write do_write dev_seek data offset w') = inl e
  | inr n =>
      n = zlen data /\ w.(wr_buffer_offset) + w.(wr_buffer_size) <= offset /\
      (offset = w.(wr_buffer_offset) + w.(wr_buffer_size) \/ w.(wr_buffer) = [] ->
       view w' = overwrite (view w) (Z.to_nat offset) data /\ writer_ok w' /\ w'.(wr_error) = OK /\
       w'.(wr_buffer_offset) + w'.(wr_buffer_size) = offset + zlen data)
  end /\
  (ev <> [] -> w.(wr_buffer_offset) + w.(wr_buffer_size) < offset /\ w.(wr_buffer) <> []).
Proof.
  intros Hok He Hmax. pose proof Hok as (H1 & H2 & H3 & H4).
  unfold buffered_write. rewrite get_bind, He. change (negb (ok OK)) with false. cbv iota.
  destruct (offset <? _) eqn:Hoff; [apply Z.ltb_lt in Hoff|apply Z.ltb_ge in Hoff].
  { split; [by left|done]. }
  match goal with |- context [mbind ?f ?m w] =>
    change (mbind f m w) with (mbind (M := M (BufferedWriter D) Event) (fun _ => append_and_flush data) m w) end.
  set (pre := when _ _).
  assert (exists w1 ev1, pre w = (tt, w1, ev1) /\
    (offset = w.(wr_buffer_offset) + w.(wr_buffer_size) /\ w1 = w /\ ev1 = [] \/
     w.(wr_buffer_offset) + w.(wr_buffer_size) < offset /\ (w.(wr_buffer) = [] -> ev1 = []) /\
     w1 = w <| wr_buffer_offset := offset |> <| wr_device := dev_seek offset w.(wr_device) |>)) as (w1 & ev1 & Hpre & Hcase).
  { subst pre. destruct (_ <? offset) eqn:Hhole; [apply Z.ltb_lt in Hhole|apply Z.ltb_ge in Hhole]; cbn [when].
    - destruct (negb (wr_buffer_size w =? 0)) eqn:Hz; cbn [when];
        (eexists _, _; split; [reflexivity|]; right; split; [done|]; split; [|done]; intros Hb); [|done].
      by rewrite H3, Hb in Hz.
    - eexists _, _. split; [reflexivity|]. left. split; [lia|done]. }
  clearbody pre.
  assert (writer_ok w1 /\ w1.(wr_error) = OK /\ w1.(wr_buffer) = w.(wr_buffer)) as (Hok1 & He1 & Hb1).
  { destruct Hcase as [(_ & -> & _)|(Hlt & _ & ->)]; [done|]. split_and!; try done. unfold writer_ok. cbn.
    destruct (proj2 Hdev offset (wr_device w)) as [Hp _]. pose proof (zlen_nonneg (wr_buffer w)). split_and!; try done; lia. }
  pose proof (append_and_flush_ok data w1 Hok1 He1 ltac:(by rewrite Hb1)) as Ht.
  destruct (append_and_flush data w1) as [[r w'] ev] eqn:Hrun. destruct Ht as [-> Ht].
  rewrite (bind_run pre (fun _ => append_and_flush data) w tt w1 ev1 r w' []) by done. rewrite app_nil_r.
  assert (ev1 <> [] -> w.(wr_buffer_offset) + w.(wr_buffer_size) < offset /\ w.(wr_buffer) <> []) as Hev.
  { destruct Hcase as [(_ & _ & ->)|(Hlt & Hnil & _)]; [done|]. intros Hne. split; [done|]. intros Hb. by apply Hne, Hnil. }
  split; [|exact Hev]. destruct r as [e|n].
  - right. destruct Ht as [Hne Hst]. split; [done|]. intros. by apply write_repeats_error.
  - destruct Ht as (-> & Hok' & He' & Hv & Hend). split; [done|]. split; [lia|]. intros Hwhere.
    destruct Hcase as [(-> & -> & _)|(Hlt & _ & ->)]; [done|].
    destruct Hwhere as [Heq|Hnil]; [lia|]. cbn in *.
    assert (wr_buffer_size w = 0) as Hs by (rewrite H3, Hnil; done). rewrite Hs, Z.add_0_r in *.
    split_and!; try done. rewrite Hv. unfold view. cbn.
    destruct (proj2 Hdev offset (wr_device w)) as [-> ->]. rewrite Hnil, overwrite_hole by done.
    rewrite overwrite_hole by lia. done.
Qed.
End write_law.

(** ** Runs *)

(** A file that is read forward, three bytes at least, and one that is written forward,
    two bytes at most. *)
Definition tape_read (c : IOBuf) (need : Z) (p : nat) : Answer (IOBuf * Z) * nat :=
  let n := Nat.min (Nat.max 3 (Z.to_nat need)) (length c - p) in
  (mkAnswer 0 OK (slice c p n, Z.of_nat n), (p + n)%nat).
Definition tape_write (rc : Z) (bs : IOBuf) (d : IOBuf * nat) : Answer nat * (IOBuf * nat) :=
  (mkAnswer rc OK (Nat.min 2 (length bs)), (overwrite d.1 d.2 (take 2 bs), d.2 + Nat.min 2 (length bs))%nat).
Definition tape_seek (offset : Z) (d : IOBuf * nat) : IOBuf * nat := (d.1, Z.to_nat offset).

Definition bytes (l : list Z) : IOBuf := map (fun n => default Byte.x00 (Byte.of_nat (Z.to_nat n))) l.

Lemma tape_reads_forward c : reads_forward (tape_read c) c Z.of_nat.
Proof.
  intros need p a p' Hneed Hp [= <- <-] _. cbn. set (n := Nat.min (Nat.max 3 (Z.to_nat need)) (length c - p)).
  unfold zlen in *. pose proof (slice_length c p n) as Hl. replace (n `min` _)%nat with n in Hl by lia.
  rewrite !Nat2Z.id. pose proof (proj1 (set_length_exact (slice c p n) 0)) as He. rewrite Hl in He. split_and!; try done; lia.
Qed.

(** Reads that overlap, skip, and go past the end. *)
Lemma tape_read_in_steps :
  let c := bytes [1; 2; 3; 4; 5; 6; 7] in
  let read o s r := buffered_read (tape_read c) o s r in
  let r0 := BufferedReader_new 0%nat in
  let r1 := state_of (read 0 2 r0) in
  let r2 := state_of (read 1 4 r1) in
  value_of (read 0 2 r0) = inr (2, bytes [1; 2]) /\
  value_of (read 1 4 r1) = inr (4, bytes [2; 3; 4; 5]) /\
  value_of (read 5 9 r2) = inr (2, bytes [6; 7]) /\
  value_of (read 0 2 r2) = inl EINVAL.
Proof. split_and!; vm_compute; reflexivity. Qed.

(** A hole behind bytes that are still in the buffer: the check fails, and the bytes go
    behind the hole. *)
Lemma hole_moves_the_buffer :
  let write := buffered_write (tape_write 0) tape_seek in
  let w := BufferedWriter_new ([], 0%nat) in
  let w1 := state_of (write (bytes [1; 2; 3]) 0 w) in
  let '(r, w2, ev) := write (bytes [4]) 5 w1 in
  r = inr 1 /\ ev = [CheckFailed] /\ w2.(wr_device).1 = bytes [1; 2; 0; 0; 0; 3; 4].
Proof. split_and!; vm_compute; reflexivity. Qed.

(** [do_write] is said to return 0 on success; [write] takes every positive code for one. *)
Lemma positive_code_is_success :
  value_of (buffered_write (tape_write 5) tape_seek (bytes [1]) 0 (BufferedWriter_new ([], 0%nat))) = inr 1.
Proof. vm_compute. reflexivity. Qed.
