(* ===== verification/EntryCodec.v ===== *)
(** * EntryCodec: the bytes of a log entry

    Models the entry format of [src/braft/log.cpp] (the 24-byte header, its
    checksums and [Segment::_load_entry]) and the configuration metadata of
    [src/braft/log_entry.cpp].  butil packs integers and computes checksums, and
    generated protobuf code serialises [ConfigurationPBMeta]: these are
    parameters, with what their documentation promises as laws. *)

From S2P Require Import Types PeerText Disk Prelude.

(** ** Code the program calls *)

(** [butil::RawPacker] and [RawUnpacker]: fixed width, and inverse. *)
Class RawPack := {
  pack32 : Z -> IOBuf;
  unpack32 : IOBuf -> Z;
  pack64 : Z -> IOBuf;
  unpack64 : IOBuf -> Z;
  pack32_length v : length (pack32 v) = 4%nat;
  pack64_length v : length (pack64 v) = 8%nat;
  unpack_pack32 v : 0 <= v < 2 ^ 32 -> unpack32 (pack32 v) = v;
  unpack_pack64 v : 0 <= v < 2 ^ 64 -> unpack64 (pack64 v) = v
}.

(** [murmurhash32] and [crc32] of [util.h] run butil's functions over the bytes. *)
Class Checksums := {
  murmurhash32 : IOBuf -> Z;
  crc32 : IOBuf -> Z;
  murmurhash32_range b : 0 <= murmurhash32 b < 2 ^ 32;
  crc32_range b : 0 <= crc32 b < 2 ^ 32
}.

(** The generated code of [ConfigurationPBMeta]: [peers] and [old_peers]. *)
Class ConfigurationPBMeta := {
  pb_serialize : list string -> list string -> option IOBuf;
  pb_parse : IOBuf -> option (list string * list string);
  pb_parse_serialize ps os d : pb_serialize ps os = Some d -> pb_parse d = Some (ps, os)
}.

(** ** Configuration metadata ([log_entry.cpp]) *)
Section codec.
Context `{IT : IpText, RP : RawPack, CS : Checksums, PB : ConfigurationPBMeta}.

(** [serialize_configuration_meta]: dereferences [peers]; [None] is [EINVAL]. *)
Definition serialize_configuration_meta (e : LogEntry) : option IOBuf :=
  pb_serialize (map to_string (default [] e.(peers)))
    (match e.(old_peers) with Some old => map to_string old | None => [] end).

(** [parse_configuration_meta]: the peers it stores, and whether the [CHECK] of
    each [PeerId(const std::string&)] held. *)
Definition parse_configuration_meta (data : IOBuf) : option (list PeerId * option (list PeerId) * bool) :=
  '(ps, os) ← pb_parse data;
  let ps' := map PeerId_of_string ps in
  let os' := map PeerId_of_string os in
  Some (map fst ps', match os' with [] => None | _ => Some (map fst os') end,
        forallb snd ps' && forallb snd os').

(** ** The header *)
Inductive CheckSumType : Set := CHECKSUM_MURMURHASH32 | CHECKSUM_CRC32.
Definition checksum_num (t : CheckSumType) : Z :=
  match t with CHECKSUM_MURMURHASH32 => 0 | CHECKSUM_CRC32 => 1 end.
Definition checksum_of (n : Z) : option CheckSumType :=
  if n =? 0 then Some CHECKSUM_MURMURHASH32 else if n =? 1 then Some CHECKSUM_CRC32 else None.

Definition ENTRY_HEADER_SIZE : nat := 24.

Record EntryHeader : Set := mkEntryHeader {
  h_term : Z; h_type : Z; h_checksum_type : Z; h_data_len : Z; h_data_checksum : Z
}.

Definition entry_type_num (t : EntryType) : Z :=
  match t with
  | ENTRY_TYPE_UNKNOWN => 0 | ENTRY_TYPE_NO_OP => 1 | ENTRY_TYPE_DATA => 2 | ENTRY_TYPE_CONFIGURATION => 3
  end.

Definition get_checksum (t : CheckSumType) (data : IOBuf) : Z :=
  match t with CHECKSUM_MURMURHASH32 => murmurhash32 data | CHECKSUM_CRC32 => crc32 data end.

Definition verify_checksum (checksum_type : Z) (data : IOBuf) (value : Z) : bool :=
  match checksum_of checksum_type with
  | Some t => value =? get_checksum t data
  | None => false
  end.

(** The header [append] packs: the length is cut to 32 bits. *)
Definition pack_meta (type checksum_type : Z) : Z := Z.lor (Z.shiftl type 24) (Z.shiftl checksum_type 16).
Definition pack_header (t : CheckSumType) (type : EntryType) (term : Z) (data : IOBuf) : IOBuf :=
  let h := pack64 (wrap_u64 term) ++ pack32 (pack_meta (entry_type_num type) (checksum_num t))
           ++ pack32 (wrap_u32 (zlen data)) ++ pack32 (get_checksum t data) in
  h ++ pack32 (get_checksum t h).

(** What [_load_entry] reads out of the 24 bytes: the header and its checksum. *)
Definition unpack_header (p : IOBuf) : EntryHeader * Z :=
  let meta_field := unpack32 (slice p 8 4) in
  (mkEntryHeader (wrap_i64 (unpack64 (slice p 0 8))) (Z.shiftr meta_field 24)
     (Z.shiftr (wrap_u32 (Z.shiftl meta_field 8)) 24) (unpack32 (slice p 12 4)) (unpack32 (slice p 16 4)),
   unpack32 (slice p 20 4)).

(** ** [Segment::append]: the bytes of an entry *)

(** The part after the header; [None] when [append] returns -1 before writing. *)
Definition entry_data (e : LogEntry) : option IOBuf :=
  match e.(type) with
  | ENTRY_TYPE_DATA => Some e.(data)
  | ENTRY_TYPE_NO_OP => Some []
  | ENTRY_TYPE_CONFIGURATION => serialize_configuration_meta e
  | ENTRY_TYPE_UNKNOWN => None
  end.

Definition encode_entry (t : CheckSumType) (e : LogEntry) : option IOBuf :=
  d ← entry_data e; Some (pack_header t e.(type) e.(id).(term) d ++ d).

(** ** [Segment::_load_entry] *)
Inductive LoadResult : Set :=
| LoadError                              (* -1 *)
| LoadShort                              (* 1 *)
| Loaded (head : EntryHeader) (data : IOBuf).

(** [c] is the file, [reads] how its reads go; the data is read only on demand. *)
Definition load_entry (c : IOBuf) (reads : nat -> nat -> list ReadOutcome) (offset : nat)
    (want_data : bool) (size_hint : nat) : LoadResult :=
  let to_read := Nat.max size_hint ENTRY_HEADER_SIZE in
  match file_pread c (reads offset to_read) offset to_read [] with
  | None => LoadError
  | Some buf =>
      if negb (length buf =? to_read)%nat then LoadShort
      else
        let p := take ENTRY_HEADER_SIZE buf in
        let '(tmp, header_checksum) := unpack_header p in
        if negb (verify_checksum tmp.(h_checksum_type) (take (ENTRY_HEADER_SIZE - 4) p) header_checksum) then LoadError
        else if negb want_data then Loaded tmp []
        else
          let total := (ENTRY_HEADER_SIZE + Z.to_nat tmp.(h_data_len))%nat in
          let rest := (total - length buf)%nat in
          match
            (if (length buf <? total)%nat
             then file_pread c (reads (offset + length buf)%nat rest) (offset + length buf) rest buf
             else Some (take total buf))
          with
          | None => LoadError
          | Some buf' =>
              if negb (length buf' =? total)%nat then LoadShort
              else
                let data := drop ENTRY_HEADER_SIZE buf' in
                if verify_checksum tmp.(h_checksum_type) data tmp.(h_data_checksum) then Loaded tmp data
                else LoadError
          end
  end.

(** The entry [Segment::get] makes of what it read; the boolean is its [CHECK]s. *)
Definition decode_entry (index : Z) (h : EntryHeader) (d : IOBuf) : option LogEntry * bool :=
  let entry type ps os d := mkLogEntry type (mkLogId index h.(h_term)) ps os d in
  if h.(h_type) =? entry_type_num ENTRY_TYPE_DATA then (Some (entry ENTRY_TYPE_DATA None None d), true)
  else if h.(h_type) =? entry_type_num ENTRY_TYPE_NO_OP then
    (Some (entry ENTRY_TYPE_NO_OP None None []), bool_decide (d = []))
  else if h.(h_type) =? entry_type_num ENTRY_TYPE_CONFIGURATION then
    match parse_configuration_meta d with
    | Some (ps, os, ok) => (Some (entry ENTRY_TYPE_CONFIGURATION (Some ps) os []), ok)
    | None => (None, true)
    end
  else (Some (entry ENTRY_TYPE_UNKNOWN None None []), false).

(** ** Encoding and decoding *)
Lemma slice_skip (a b : IOBuf) n m : (length a <= n)%nat -> slice (a ++ b) n m = slice b (n - length a) m.
Proof. intros H. rewrite <- (slice_app_r a b). by replace (length a + (n - length a))%nat with n by lia. Qed.
Lemma slice_here (a b : IOBuf) n : length a = n -> slice (a ++ b) 0 n = a.
Proof. intros <-. unfold slice. simpl. apply take_app_length. Qed.
Lemma slice_all (a : IOBuf) n : length a = n -> slice a 0 n = a.
Proof. intros <-. unfold slice. simpl. apply firstn_all. Qed.

Lemma get_checksum_range t d : 0 <= get_checksum t d < 2 ^ 32.
Proof. destruct t; [apply murmurhash32_range|apply crc32_range]. Qed.

Lemma wrap_u64_range z : 0 <= wrap_u64 z < 2 ^ 64.
Proof. apply Z.mod_pos_bound. lia. Qed.
Lemma wrap_u32_range z : 0 <= wrap_u32 z < 2 ^ 32.
Proof. apply Z.mod_pos_bound. lia. Qed.
Lemma wrap_i64_u64 z : - 2 ^ 63 <= z < 2 ^ 63 -> wrap_i64 (wrap_u64 z) = z.
Proof.
  intros Hz. unfold wrap_i64, wrap_u64. rewrite Z.add_mod_idemp_l by lia. rewrite Z.mod_small by lia. lia.
Qed.

Lemma pack_meta_fields ty t :
  let m := pack_meta (entry_type_num ty) (checksum_num t) in
  0 <= m < 2 ^ 32 /\ Z.shiftr m 24 = entry_type_num ty /\ Z.shiftr (wrap_u32 (Z.shiftl m 8)) 24 = checksum_num t.
Proof. destruct ty, t; vm_compute; repeat split; congruence. Qed.

(** The 20 bytes the header checksum covers. *)
Definition header_body (t : CheckSumType) (ty : EntryType) (term : Z) (d : IOBuf) : IOBuf :=
  pack64 (wrap_u64 term) ++ pack32 (pack_meta (entry_type_num ty) (checksum_num t))
  ++ pack32 (wrap_u32 (zlen d)) ++ pack32 (get_checksum t d).

Lemma header_body_length t ty term d : length (header_body t ty term d) = 20%nat.
Proof. unfold header_body. by rewrite !length_app, pack64_length, !pack32_length. Qed.

Lemma pack_header_length t ty term d : length (pack_header t ty term d) = ENTRY_HEADER_SIZE.
Proof. unfold pack_header. fold (header_body t ty term d). by rewrite length_app, header_body_length, pack32_length. Qed.

Lemma pack_header_body t ty term d : take 20 (pack_header t ty term d) = header_body t ty term d.
Proof.
  unfold pack_header. fold (header_body t ty term d). rewrite <- (header_body_length t ty term d) at 1. apply take_app_length.
Qed.

Lemma header_slice_checksum t ty term d :
  slice (pack_header t ty term d) 20 4 = pack32 (get_checksum t (header_body t ty term d)).
Proof.
  unfold pack_header. fold (header_body t ty term d). rewrite slice_skip by (by rewrite header_body_length).
  rewrite header_body_length. by apply slice_all, pack32_length.
Qed.

Lemma header_slice_body t ty term d n m :
  (n + m <= 20)%nat -> slice (pack_header t ty term d) n m = slice (header_body t ty term d) n m.
Proof.
  intros H. unfold pack_header. fold (header_body t ty term d). apply slice_app_l. by rewrite header_body_length.
Qed.

Lemma unpack_pack_header t ty term d :
  - 2 ^ 63 <= term < 2 ^ 63 -> zlen d < 2 ^ 32 ->
  unpack_header (pack_header t ty term d) =
  (mkEntryHeader term (entry_type_num ty) (checksum_num t) (zlen d) (get_checksum t d),
   get_checksum t (header_body t ty term d)).
Proof.
  intros Hterm Hd. destruct (pack_meta_fields ty t) as (Hm & Hty & Hcs).
  unfold unpack_header. rewrite header_slice_checksum, !header_slice_body by lia. unfold header_body at 1 2 3 4 5.
  rewrite (slice_here (pack64 _)) by apply pack64_length. rewrite unpack_pack64, wrap_i64_u64 by (done || apply wrap_u64_range).
  repeat first [rewrite (slice_here (pack32 _)) by apply pack32_length
    |rewrite slice_skip by (rewrite ?pack64_length, ?pack32_length; lia); rewrite ?pack64_length, ?pack32_length; cbn [Nat.sub]].
  rewrite slice_all by apply pack32_length.
  rewrite !unpack_pack32 by (done || apply wrap_u32_range || apply get_checksum_range).
  rewrite Hty, Hcs. unfold wrap_u32. rewrite Z.mod_small; [done|]. pose proof (zlen_nonneg d). lia.
Qed.

Lemma verify_get_checksum t d : verify_checksum (checksum_num t) d (get_checksum t d) = true.
Proof. unfold verify_checksum. destruct t; apply Z.eqb_refl. Qed.

(** *** Reading back an entry in the middle of a file *)
Section load.
Context (reads : nat -> nat -> list ReadOutcome) (Hreads : forall o n, ReadError ∉ reads o n).

Lemma load_entry_short c o w hint :
  (length c < o + Nat.max hint ENTRY_HEADER_SIZE)%nat -> load_entry c reads o w hint = LoadShort.
Proof using Hreads.
  intros Hc. unfold load_entry. rewrite file_pread_slice by done. cbn [app].
  rewrite slice_length, (proj2 (Nat.eqb_neq _ _)); [done|]. unfold ENTRY_HEADER_SIZE in *. lia.
Qed.

Context (t : CheckSumType) (ty : EntryType) (term : Z) (d : IOBuf).
Context (Hterm : - 2 ^ 63 <= term < 2 ^ 63) (Hd : zlen d < 2 ^ 32).
Let h := mkEntryHeader term (entry_type_num ty) (checksum_num t) (zlen d) (get_checksum t d).

(** The header is readable as soon as the file holds it. *)
Lemma load_header c pre rest hint :
  c = pre ++ pack_header t ty term d ++ rest -> (hint <= ENTRY_HEADER_SIZE)%nat ->
  load_entry c reads (length pre) false hint = Loaded h [].
Proof using Hreads Hterm Hd.
  intros -> Hh. unfold load_entry. rewrite file_pread_slice by done. rewrite Nat.max_r by done. simpl app.
  replace (length pre) with (length pre + 0)%nat by lia.
  rewrite slice_app_r, (slice_here _ rest) by apply pack_header_length.
  rewrite pack_header_length, Nat.eqb_refl. cbn [negb].
  rewrite take_ge by (by rewrite pack_header_length).
  rewrite unpack_pack_header by done. simpl h_checksum_type. change (ENTRY_HEADER_SIZE - 4)%nat with 20%nat.
  by rewrite pack_header_body, verify_get_checksum.
Qed.

(** The whole entry, whatever part of it the first read asks for. *)
Lemma load_whole c pre rest hint :
  c = pre ++ (pack_header t ty term d ++ d) ++ rest -> (hint <= ENTRY_HEADER_SIZE + length d)%nat ->
  load_entry c reads (length pre) true hint = Loaded h d.
Proof using Hreads Hterm Hd.
  intros -> Hh. unfold load_entry. rewrite file_pread_slice by done. simpl app.
  set (n := Nat.max hint ENTRY_HEADER_SIZE). set (e := pack_header t ty term d ++ d).
  assert (length e = ENTRY_HEADER_SIZE + length d)%nat as He by (unfold e; by rewrite length_app, pack_header_length).
  assert (slice (pre ++ e ++ rest) (length pre) n = take n e) as Hs.
  { replace (length pre) with (length pre + 0)%nat by lia. rewrite slice_app_r. unfold slice. simpl. apply take_app_le. lia. }
  rewrite Hs, length_take, Nat.min_l by lia. rewrite Nat.eqb_refl. cbn [negb].
  rewrite take_take, Nat.min_l by lia.
  assert (take ENTRY_HEADER_SIZE e = pack_header t ty term d) as Hh'.
  { unfold e. rewrite <- (pack_header_length t ty term d). apply take_app_length. }
  rewrite Hh', unpack_pack_header by done. simpl h_checksum_type. change (ENTRY_HEADER_SIZE - 4)%nat with 20%nat.
  rewrite pack_header_body, verify_get_checksum. cbn [negb]. simpl h_data_len. simpl h_data_checksum.
  replace (Z.to_nat (zlen d)) with (length d) by (unfold zlen; lia). rewrite <- He.
  assert ((if (n <? length e)%nat then
    file_pread (pre ++ e ++ rest) (reads (length pre + n)%nat (length e - n)%nat) (length pre + n) (length e - n) (take n e)
    else Some (take (length e) (take n e))) = Some e) as ->.
  { destruct (Nat.ltb_spec n (length e)).
    - rewrite file_pread_slice by done. rewrite slice_app_r, slice_app_l by lia. unfold slice. f_equal.
      rewrite (take_ge (drop n e)); [apply take_drop|]. rewrite length_drop. lia.
    - f_equal. rewrite !take_ge; [done|lia|]. rewrite length_take. lia. }
  rewrite Nat.eqb_refl. cbn [negb].
  assert (drop ENTRY_HEADER_SIZE e = d) as ->.
  { unfold e. rewrite <- (pack_header_length t ty term d). apply drop_app_length. }
  by rewrite verify_get_checksum.
Qed.
End load.

(** ** Entries the store can keep *)

(** What the rest of the program appends: the fields its type uses are set and
    the others are not, the term is a 64-bit integer, and the data has less than
    2^32 bytes ([append] checks 2^56 and packs the low 32 bits). *)
Definition shaped (e : LogEntry) : Prop :=
  match e.(type) with
  | ENTRY_TYPE_DATA => e.(peers) = None /\ e.(old_peers) = None
  | ENTRY_TYPE_NO_OP => e.(peers) = None /\ e.(old_peers) = None /\ e.(data) = []
  | ENTRY_TYPE_CONFIGURATION =>
      e.(data) = [] /\ (exists ps, e.(peers) = Some ps /\ Forall peer_ok ps) /\
      match e.(old_peers) with None => True | Some os => os <> [] /\ Forall peer_ok os end
  | ENTRY_TYPE_UNKNOWN => False
  end.
Definition storable (e : LogEntry) : Prop :=
  shaped e /\ - 2 ^ 63 <= e.(id).(term) < 2 ^ 63 /\ exists d, entry_data e = Some d /\ zlen d < 2 ^ 32.

Definition header_of (t : CheckSumType) (e : LogEntry) (d : IOBuf) : EntryHeader :=
  mkEntryHeader e.(id).(term) (entry_type_num e.(type)) (checksum_num t) (zlen d) (get_checksum t d).

Lemma parsed_peers ps :
  Forall peer_ok ps ->
  map fst (map PeerId_of_string (map to_string ps)) = ps /\ forallb snd (map PeerId_of_string (map to_string ps)) = true.
Proof.
  induction 1 as [|p ps Hp Hps [IH1 IH2]]; [done|]. cbn [map forallb].
  unfold PeerId_of_string at 1 3. rewrite parse_to_string by done. cbn [fst snd]. by rewrite IH1, IH2.
Qed.

Lemma decode_encoded t e d :
  shaped e -> entry_data e = Some d -> decode_entry e.(id).(index) (header_of t e d) d = (Some e, true).
Proof.
  destruct e as [ty [i tm] ps os dt]. unfold shaped, entry_data, decode_entry, header_of. cbn.
  destruct ty; cbn.
  - done.
  - intros (-> & -> & ->) [= <-]. done.
  - intros (-> & ->) [= <-]. done.
  - intros (-> & (l & -> & Hl) & Ho) Hs. unfold parse_configuration_meta. unfold serialize_configuration_meta in Hs. cbn in Hs.
    rewrite (pb_parse_serialize _ _ _ Hs). cbn. destruct (parsed_peers l Hl) as [H1 H2]. rewrite H1, H2.
    destruct os as [os|]; [|done]. destruct Ho as [Hne Ho]. destruct (parsed_peers os Ho) as [H3 H4].
    destruct os as [|o os]; [done|]. revert H3 H4. cbn [map]. intros H3 H4. rewrite H3, H4. done.
Qed.

End codec.

(** ** An instance of the parameters: big-endian integers and simple checksums *)
Fixpoint be_bytes (n : nat) (v : Z) (acc : IOBuf) : IOBuf :=
  match n with
  | O => acc
  | S n => be_bytes n (v / 256) (default Byte.x00 (Byte.of_N (Z.to_N (v mod 256))) :: acc)
  end.
Definition be_value (b : IOBuf) : Z := fold_left (fun v x => v * 256 + Z.of_N (Byte.to_N x)) b 0.

Lemma be_bytes_length n v acc : length (be_bytes n v acc) = (n + length acc)%nat.
Proof. revert v acc. induction n as [|n IH]; intros v acc; [done|]. cbn [be_bytes]. rewrite IH. simpl. lia. Qed.

Lemma byte_value v : 0 <= v < 256 -> Z.of_N (Byte.to_N (default Byte.x00 (Byte.of_N (Z.to_N v)))) = v.
Proof.
  intros Hv. pose proof (Strings.Byte.to_of_N_option_map (Z.to_N v)) as H.
  rewrite (proj2 (N.leb_le _ _)) in H by lia. destruct (Byte.of_N (Z.to_N v)); [|done].
  simpl in *. injection H as H. rewrite H. lia.
Qed.

Lemma be_value_bytes n v acc :
  0 <= v < 256 ^ Z.of_nat n ->
  fold_left (fun v x => v * 256 + Z.of_N (Byte.to_N x)) (be_bytes n v acc) 0 =
  fold_left (fun v x => v * 256 + Z.of_N (Byte.to_N x)) acc v.
Proof.
  revert v acc. induction n as [|n IH]; intros v acc Hv; [by replace v with 0 by lia|].
  rewrite Nat2Z.inj_succ, Z.pow_succ_r in Hv by lia. cbn [be_bytes]. rewrite IH.
  - cbn [fold_left]. rewrite byte_value by (by apply Z.mod_pos_bound). f_equal. pose proof (Z.div_mod v 256). lia.
  - split; [by apply Z.div_pos; lia|]. apply Z.div_lt_upper_bound; lia.
Qed.

Definition big_endian : RawPack.
Proof.
  refine {| pack32 v := be_bytes 4 v []; pack64 v := be_bytes 8 v []; unpack32 := be_value; unpack64 := be_value |}.
  - intros v. apply be_bytes_length.
  - intros v. apply be_bytes_length.
  - intros v Hv. by apply (be_value_bytes 4 v []).
  - intros v Hv. by apply (be_value_bytes 8 v []).
Defined.

Definition byte_sum : Checksums.
Proof.
  refine {| murmurhash32 b := wrap_u32 (be_value b); crc32 b := wrap_u32 (be_value b + 1) |};
    intros; apply Z.mod_pos_bound; lia.
Defined.

(** Strings with a mark before each character, lists with one before each string. *)
Fixpoint put_string (s : string) (rest : IOBuf) : IOBuf :=
  match s with
  | EmptyString => Byte.x00 :: rest
  | String c s => Byte.x01 :: Ascii.byte_of_ascii c :: put_string s rest
  end.
Definition put_strings (l : list string) (rest : IOBuf) : IOBuf :=
  foldr (fun s b => Byte.x01 :: put_string s b) (Byte.x00 :: rest) l.
Fixpoint take_string (b : IOBuf) : option (string * IOBuf) :=
  match b with
  | Byte.x00 :: rest => Some (EmptyString, rest)
  | Byte.x01 :: c :: b => '(s, rest) ← take_string b; Some (String (Ascii.ascii_of_byte c) s, rest)
  | _ => None
  end.
Fixpoint take_strings (fuel : nat) (b : IOBuf) : option (list string * IOBuf) :=
  match fuel, b with
  | S fuel, Byte.x00 :: rest => Some ([], rest)
  | S fuel, Byte.x01 :: b =>
      '(s, b) ← take_string b; '(l, rest) ← take_strings fuel b; Some (s :: l, rest)
  | _, _ => None
  end.

Lemma take_put_string s rest : take_string (put_string s rest) = Some (s, rest).
Proof.
  induction s as [|c s IH]; [done|]. cbn [put_string take_string]. rewrite IH. cbn. by rewrite Ascii.ascii_of_byte_of_ascii.
Qed.
Lemma take_put_strings fuel l rest :
  (length l < fuel)%nat -> take_strings fuel (put_strings l rest) = Some (l, rest).
Proof.
  revert fuel. induction l as [|s l IH]; intros [|fuel] Hf; simpl in Hf; try lia; [done|].
  change (put_strings (s :: l) rest) with (Byte.x01 :: put_string s (put_strings l rest)).
  cbn [take_strings]. rewrite take_put_string. cbn. rewrite IH by lia. done.
Qed.
Lemma put_string_length s rest : (length rest < length (put_string s rest))%nat.
Proof. induction s as [|c s IH]; cbn [put_string length]; lia. Qed.
Lemma put_strings_length l rest : (length l + length rest < length (put_strings l rest))%nat.
Proof.
  induction l as [|s l IH]; [simpl; lia|].
  change (put_strings (s :: l) rest) with (Byte.x01 :: put_string s (put_strings l rest)).
  pose proof (put_string_length s (put_strings l rest)). simpl. lia.
Qed.

Definition marked_meta : ConfigurationPBMeta.
Proof.
  refine {| pb_serialize ps os := Some (put_strings ps (put_strings os []));
            pb_parse b := '(ps, b') ← take_strings (length b) b; '(os, _) ← take_strings (length b) b'; Some (ps, os) |}.
  intros ps os d [= <-]. pose proof (put_strings_length ps (put_strings os [])). pose proof (put_strings_length os []).
  rewrite take_put_strings by lia. cbn. rewrite take_put_strings by lia. done.
Defined.

Definition example_conf_entry : LogEntry :=
  mkLogEntry ENTRY_TYPE_CONFIGURATION (mkLogId 7 3) (Some example_conf) None [].

