(* ===== verification/ProtoBufFile.v ===== *)
(** * ProtoBufFile: a message in a file, replaced atomically

    Models [src/braft/protobuf_file.cpp] on the POSIX adaptor of
    [src/braft/file_system_adaptor.cpp]: the message is written to a temporary
    file, which is then renamed over the old one.  The generated code of the
    message is the parameter [PbMessage]. *)

From S2P Require Import Types Disk EntryCodec Prelude.

(** [SerializeToZeroCopyStream] and [ParseFromZeroCopyStream]; [load] ignores
    whether the parse succeeded, so [pb_decode] is what the message then holds. *)
Class PbMessage (Msg : Type) := {
  pb_encode : Msg -> IOBuf;
  pb_decode : IOBuf -> Msg;
  (** The messages whose fields fit their types, and whose bytes fit a length. *)
  pb_valid : Msg -> Prop;
  pb_decode_encode m : pb_valid m -> pb_decode (pb_encode m) = m;
  pb_encode_length m : pb_valid m -> zlen (pb_encode m) < 2 ^ 31
}.

Section file.
Context {F : Type} `{Countable F} (tmp : F -> F).
Context {Msg : Type} `{PbMessage Msg, RP : RawPack}.
(** How the reads of an inode go. *)
Context (reads : positive -> nat -> nat -> list ReadOutcome).

(** [save]: [sync] is [raft_sync_meta()] at every call. *)
Definition save (path : F) (message : Msg) (sync : bool) : DM F Errno :=
  file ← sys_create (tmp path);
  match file with
  | None => mret ENEG1
  | Some inode =>
      let msg_buf := pb_encode message in
      let header_buf := pack32 (wrap_u32 (zlen msg_buf)) in
      w ← file_pwrite inode 0 header_buf;
      if negb w then mret ENEG1
      else
        w ← file_pwrite inode 4 msg_buf;
        if negb w then mret ENEG1
        else
          s ← (if sync then sys_fsync else mret true);
          if negb s then mret ENEG1
          else
            r ← sys_rename (tmp path) path;
            mret (if negb r then ENEG1 else OK)
  end.

(** What [load] makes of the bytes of the file; the length is a signed 32-bit
    integer, and a negative one asks for more than the file holds. *)
Definition load_content (inode : positive) (c : IOBuf) : option Msg :=
  match file_pread c (reads inode 0%nat 4%nat) 0 4 [] with
  | Some header_buf =>
      if negb (length header_buf =? 4)%nat then None
      else
        let left_len := wrap_i32 (unpack32 header_buf) in
        if left_len <? 0 then None
        else
          let n := Z.to_nat left_len in
          match file_pread c (reads inode 4%nat n) 4 n [] with
          | Some msg_buf => if negb (length msg_buf =? n)%nat then None else Some (pb_decode msg_buf)
          | None => None
          end
  | None => None
  end.

(** [load]: a missing file is told from the other failures by [errno]. *)
Definition load (path : F) : DM F (Errno * option Msg) :=
  d ← get;
  file ← sys_open path;
  match file with
  | None => mret (match d.(names) !! path with None => ENOENT | Some _ => ENEG1 end, None)
  | Some inode =>
      d ← get;
      match load_content inode (content d inode) with
      | Some m => mret (OK, Some m)
      | None => mret (ENEG1, None)
      end
  end.

(** ** What a save leaves behind *)
Definition saved (message : Msg) : IOBuf := pack32 (wrap_u32 (zlen (pb_encode message))) ++ pb_encode message.

Lemma load_saved inode m :
  (forall o n, ReadError ∉ reads inode o n) -> pb_valid m -> load_content inode (saved m) = Some m.
Proof using All.
  intros Hr Hm. pose proof (zlen_nonneg (pb_encode m)). pose proof (pb_encode_length m Hm). unfold load_content, saved. rewrite !file_pread_slice by done. cbn [app].
  rewrite slice_here by apply pack32_length. rewrite pack32_length. cbn [Nat.eqb negb].
  unfold wrap_u32. rewrite Z.mod_small, unpack_pack32, wrap_i32_small by lia.
  rewrite (proj2 (Z.ltb_ge _ _)) by lia. 
  rewrite slice_skip by (by rewrite pack32_length). rewrite pack32_length. cbn [Nat.sub].
  rewrite slice_all by (unfold zlen; lia). rewrite (proj2 (Nat.eqb_eq _ _)) by (unfold zlen; lia).
  cbn [negb]. by rewrite pb_decode_encode by done.
Qed.

(** The temporary file is complete when both writes succeed. *)
Lemma write_message inode m (d : Disk F) :
  content d inode = [] ->
  let r := (w ← file_pwrite inode 0 (pack32 (wrap_u32 (zlen (pb_encode m))));
            if negb w then mret false else file_pwrite inode 4 (pb_encode m)) d in
  touches (Some inode) d (state_of r) /\ (value_of r = true -> content (state_of r) inode = saved m).
Proof using All.
  intros Hc. cbv zeta. unfold mbind, M_bind, mret, M_ret.
  pose proof (file_pwrite_spec inode 0 (pack32 (wrap_u32 (zlen (pb_encode m)))) d ltac:(by rewrite Hc)) as H1.
  pose proof (file_pwrite_touches (F:=F) inode) as Ht.
  pose proof (proj1 (Ht 0%nat (pack32 (wrap_u32 (zlen (pb_encode m)))) d)) as T1.
  destruct (file_pwrite inode 0 _ d) as [[[|] d1] e1]; [|done]. unfold state_of in T1. cbn in T1. cbn [negb].
  assert (content d1 inode = pack32 (wrap_u32 (zlen (pb_encode m)))) as Hc1 by (rewrite H1 by done; by rewrite Hc).
  pose proof (file_pwrite_spec inode 4 (pb_encode m) d1 ltac:(by rewrite Hc1, pack32_length)) as H2.
  pose proof (proj1 (Ht 4%nat (pb_encode m) d1)) as T2.
  destruct (file_pwrite inode 4 _ d1) as [[b d2] e2]. unfold state_of, value_of in *. cbn in *. split; [by etransitivity|].
  intros ->. rewrite H2 by done. by rewrite Hc1.
Qed.

(** What reading a path gives, when its calls succeed. *)
Definition loads (d : Disk F) (path : F) : option Msg := inode ← d.(names) !! path; load_content inode (content d inode).

Lemma kept_loads P d d' g : kept_but P d d' -> ~ P g -> loads d' g = loads d g.
Proof using Type.
  intros Hk Hg. destruct (Hk g Hg) as [Hn Hc]. unfold loads. rewrite Hn. destruct (names d !! g) as [i|]; [|done].
  cbn. by rewrite Hc.
Qed.

(** Nothing but the temporary file changes while its inode is written. *)
Lemma created_kept path d i d1 e1 :
  disk_wf d -> sys_create (tmp path) d = (Some i, d1, e1) ->
  forall d2, touches (Some i) d1 d2 ->
    disk_wf d2 /\ (whole d.(script) -> whole d2.(script)) /\ kept_but (eq (tmp path)) d d2.
Proof using Type.
  intros Hwf Hc. pose proof (sys_create_spec (tmp path) d Hwf) as Hcr. rewrite Hc in Hcr.
  destruct Hcr as (Hwf1 & Hsc & Hother & Hcont & Hi & Hnil). intros d2 Ht. split; [by eapply touches_wf|].
  split; [intros; eapply touches_whole; [done|auto]|]. etransitivity; [|by apply (touches_kept d1 d2 (tmp path) i)].
  intros g Hg. apply not_eq_sym in Hg. split; [by apply Hother|]. intros j Hj. apply Hcont. by exists g.
Qed.

Lemma sync_touches (sync : bool) (d : Disk F) : touches None d (state_of ((if sync then sys_fsync else mret true) d)).
Proof using Type.
  assert (obeys (touches None) silent (if sync then sys_fsync (F:=F) else mret true)) as Hob
    by (destruct sync; [apply fsync_touches|apply obeys_ret; exact _]).
  apply (Hob d).
Qed.

Lemma save_spec path m sync d :
  tmp path <> path -> disk_wf d -> (forall i o n, ReadError ∉ reads i o n) -> pb_valid m ->
  let '(rc, d', ev) := save path m sync d in
  disk_wf d' /\ (whole d.(script) -> whole d'.(script)) /\
  (ok rc = false -> kept_but (eq (tmp path)) d d') /\
  (ok rc = true -> kept_but (fun g => g = path \/ g = tmp path) d d' /\ loads d' path = Some m).
Proof using All.
  intros Htmp Hwf Hr Hm. unfold save. unfold mbind at 1, M_bind.
  pose proof (sys_create_spec (tmp path) d Hwf) as Hcr. destruct (sys_create (tmp path) d) as [[[i|] d1] e1] eqn:Hceq;
    destruct Hcr as (Hwf1 & Hsc1 & Hother & Hcont & Hres).
  2:{ cbn. split_and!; try done. intros _ g _. destruct Hres as (Hn & Hf & _). unfold content. by rewrite Hn, Hf. }
  destruct Hres as [Hi Hnil].
  pose proof (created_kept path d i d1 e1 Hwf Hceq) as Hkept.
  pose proof (write_message i m d1 Hnil) as [Hw Hsaved]. revert Hw Hsaved. cbv zeta. unfold mbind, M_bind, mret, M_ret.
  destruct (file_pwrite i 0 _ d1) as [[[|] d2] e2]; cbn [negb].
  2:{ intros Ht _. destruct (Hkept d2 Ht) as (? & ? & ?). by split_and!. }
  destruct (file_pwrite i 4 _ d2) as [[[|] d3] e3]; cbn [negb]; intros Ht Hsaved; unfold state_of, value_of in Ht, Hsaved; cbn in Ht, Hsaved.
  2:{ destruct (Hkept d3 Ht) as (? & ? & ?). by split_and!. }
  pose proof (sync_touches sync d3) as Ht4. unfold mret, M_ret in Ht4.
  match goal with |- context [(if sync then ?a else ?b) d3] => destruct ((if sync then a else b) d3) as [[b4 d4] e4] end.
  unfold state_of in Ht4; cbn in Ht4. assert (touches (Some i) d1 d4) as Ht' by (etransitivity; [done|by apply touches_none]).
  destruct (Hkept d4 Ht') as (Hwf4 & Hsc4 & Hk). destruct b4; cbn [negb]; [|by split_and!].
  pose proof (sys_rename_spec (tmp path) path d4 Htmp Hwf4) as Hrn.
  destruct (sys_rename (tmp path) path d4) as [[[|] d5] e5]; destruct Hrn as (Hwf5 & Hsc5 & Hf5 & Hn5 & Hres); cbn.
  - destruct Hres as (Hg & _ & _). split_and!; [done|auto|done|]. intros _. split.
    + intros g Hgn. destruct (Hk g) as [Hn Hc]; [intros <-; tauto|]. rewrite Hn5 by (intros ->; tauto).
      split; [done|]. intros j Hj. unfold content in *. rewrite Hf5. by apply Hc.
    + unfold loads, content. rewrite Hg, Hf5. destruct Ht' as (Hn4 & _). rewrite Hn4, Hi. cbn.
      fold (content d4 i). destruct Ht4 as (_ & _ & -> & _); [|done]. rewrite Hsaved by done. by apply load_saved.
  - split_and!; [done|auto| |done]. intros _ g Hg. destruct (Hk g Hg) as [Hn Hc]. destruct Hres as (Hn' & Hf' & _).
    unfold content in *. by rewrite Hn', Hf'.
Qed.

(** C33: atomic replacement.  Whatever calls fail, and so wherever a crash cuts
    it, [save] leaves every other file alone (its temporary file apart), and the
    file itself holds the new message when [save] reports success, and exactly
    what it held before when it does not. *)
Theorem save_atomic path m sync d :
  tmp path <> path -> disk_wf d -> (forall i o n, ReadError ∉ reads i o n) -> pb_valid m ->
  let '(rc, d', ev) := save path m sync d in
  disk_wf d' /\ (forall g, g <> path -> g <> tmp path -> loads d' g = loads d g) /\
  loads d' path = if ok rc then Some m else loads d path.
Proof using All.
  intros Htmp Hwf Hr Hm. pose proof (save_spec path m sync d Htmp Hwf Hr Hm) as Hs. destruct (save path m sync d) as [[rc d'] ev].
  destruct Hs as (Hwf' & _ & Hbad & Hok). destruct (ok rc) eqn:Hrc; (split; [done|]).
  - destruct (Hok eq_refl) as [Hk Hl]. split; [|done]. intros g H1 H2. apply (kept_loads _ _ _ _ Hk). tauto.
  - specialize (Hbad eq_refl). split; [intros g _ Hg|]; apply (kept_loads _ _ _ _ Hbad); [by apply not_eq_sym|done].
Qed.
End file.

(** ** An instance: messages that are their own bytes, files named by numbers *)
Definition raw_message : PbMessage IOBuf.
Proof. by refine {| pb_encode m := m; pb_decode b := b; pb_valid m := zlen m < 2 ^ 31 |}. Defined.

Definition example_disk (sc : list Outcome) : Disk Z :=
  mkDisk {[0 := 1%positive]} {[1%positive := [Byte.x00; Byte.x00; Byte.x00; Byte.x01; Byte.x61]]} 2 sc.

(** The second write stops after one byte, then fails: the old message stays. *)
Lemma save_atomic_witness :
  let reads := fun _ _ _ => [ReadBytes 3; ReadIntr] in
  let M := raw_message in let RP := big_endian in
  let d := example_disk [SysOk; SysWrote 2; SysIntr; SysOk; SysWrote 1; SysFail] in
  let d0 := example_disk [SysOk; SysWrote 2; SysIntr; SysOk; SysWrote 1] in
  let m := [Byte.x62; Byte.x63] in
  (save (fun f => f + 1) 0 m true d).1.1 = ENEG1 /\ (save (fun f => f + 1) 0 m true d0).1.1 = OK /\
  let '(rc, d', ev) := save (fun f => f + 1) 0 m true d in
  disk_wf d' /\ (forall g, g <> 0 -> g <> 0 + 1 -> loads reads d' g = loads reads d g) /\
  loads reads d' 0 = if ok rc then Some m else loads reads d 0.
Proof.
  intros reads M RP d d0 m. split; [vm_compute; reflexivity|]. split; [vm_compute; reflexivity|].
  apply (@save_atomic Z _ _ (fun f => f + 1) IOBuf M RP reads); [lia| | |done].
  - split.
    + intros f i H. cbn in H. apply lookup_singleton_Some in H as [<- <-]. cbn. lia.
    + intros f g i H1 H2. cbn in H1, H2. apply lookup_singleton_Some in H1 as [<- <-]. by apply lookup_singleton_Some in H2 as [<- _].
  - intros i o n H. unfold reads in H. repeat (apply elem_of_cons in H as [H|H]; [discriminate|]). by apply elem_of_nil in H.
Defined.
