(* ===== verification/SingleMeta.v ===== *)
(** * SingleMeta: the interface of the storage of term and vote, and the term and vote of one group in a file

    Models the abstract class [RaftMetaStorage] of [src/braft/storage.h], for one
    group.  A value is a term with the peer voted for in it; [ANY_PEER] stands for
    none.  The laws say what a storage promises: a value whose write reports
    success is the one found later, a write that fails leaves the old value or
    the new one, and a storage that was just started answers with the value it
    holds. *)

From S2P Require Import Prelude Types PeerText ProtoBufFile Disk EntryCodec.

Abbreviation MetaValue := (Z * PeerId)%type.
Definition ANY_PEER : PeerId := PeerId_default.

(** [StablePBMeta] of [local_storage.proto]. *)
Record StablePBMeta : Set := mkStablePBMeta { pb_term : Z; pb_votedfor : string }.

Class MetaStorage (S : Type) := {
  (** The object of a process that starts later on the same disk. *)
  ms_restart : S -> S;
  ms_init : S -> Errno * S;
  ms_set : Z -> PeerId -> S -> Errno * S;
  ms_get : S -> Errno * MetaValue * S
}.

Section values.
Context `{IT : IpText, EPO : EndPointOrder, !PbMessage StablePBMeta}.

Definition stable_meta (v : MetaValue) : StablePBMeta := mkStablePBMeta v.1 (to_string v.2).

(** A term and a peer the program can hold. *)
Definition value_ok (v : MetaValue) : Prop := peer_ok v.2 /\ pb_valid (stable_meta v).

(** What the message of a value stands for when it is read back. *)
Lemma value_parsed v : value_ok v -> (pb_decode (pb_encode (stable_meta v))).(pb_term) = v.1 /\
  parse (pb_decode (pb_encode (stable_meta v))).(pb_votedfor) = (OK, v.2).
Proof. intros [Hp Hv]. rewrite pb_decode_encode by done. split; [done|]. by apply parse_to_string. Qed.
End values.

Class MetaStorageLaws (S : Type) `{IT : IpText, EPO : EndPointOrder, !PbMessage StablePBMeta, !MetaStorage S} := {
  ms_ok : S -> Prop;
  ms_fresh : S -> Prop;
  ms_value : S -> MetaValue;
  ms_restart_law s : ms_ok s -> ms_ok (ms_restart s) /\ ms_value (ms_restart s) = ms_value s;
  ms_init_law s e s' :
    ms_ok s -> ms_init s = (e, s') -> ms_ok s' /\ ms_value s' = ms_value s;
  ms_fresh_law s s' : ms_ok s -> ms_init (ms_restart s) = (OK, s') -> ms_fresh s';
  ms_set_law t p s e s' :
    ms_ok s -> value_ok (t, p) -> ms_set t p s = (e, s') ->
    ms_ok s' /\ (ms_value s' = (t, p) \/ (e <> OK /\ ms_value s' = ms_value s));
  ms_get_law s e v s' :
    ms_ok s -> ms_fresh s -> ms_get s = (e, v, s') ->
    ms_ok s' /\ ms_value s' = ms_value s /\ (e = OK -> v = ms_value s)
}.

(** * The term and vote of one group in a file

    Models [FileBasedSingleMetaStorage] of [src/braft/raft_meta.h] and
    [src/braft/raft_meta.cpp], over the message file of ProtoBufFile.  The path
    of the file [raft_meta] in the storage's directory is the parameter
    [raft_meta].  Metrics are left out. *)


Section single.
Context {F : Type} `{Countable F} (tmp : F -> F) (raft_meta : F) (raft_sync_meta : bool).
Context `{IT : IpText, EPO : EndPointOrder, !PbMessage StablePBMeta, RP : RawPack}.
Context (reads : positive -> nat -> nat -> list ReadOutcome).

(** The object and the disk it is on. *)
Record SingleMeta : Type := mkSingleMeta {
  _is_inited : bool;
  _term : Z;
  _votedfor : PeerId;
  disk : Disk F
}.
#[export] Instance SingleMeta_eta : Settable SingleMeta := fun s => mkSingleMeta s.(_is_inited) s.(_term) s.(_votedfor) s.(disk).

(** [FileBasedSingleMetaStorage(path)]. *)
Definition FileBasedSingleMetaStorage (d : Disk F) : SingleMeta := mkSingleMeta false 1 PeerId_default d.

(** [load]: a missing file leaves the object as it is. *)
Definition load (s : SingleMeta) : Errno * SingleMeta :=
  let '((rc, m), d, _) := ProtoBufFile.load reads raft_meta s.(disk) in
  let s := s <| disk := d |> in
  match rc, m with
  | OK, Some meta =>
      let '(rc, p) := parse meta.(pb_votedfor) in
      (rc, s <| _term := meta.(pb_term) |> <| _votedfor := p |>)
  | ENOENT, _ => (OK, s)
  | rc, _ => (if ok rc then ENEG1 else rc, s)
  end.

Definition save (s : SingleMeta) : Errno * SingleMeta :=
  let '(rc, d, _) := ProtoBufFile.save tmp raft_meta (stable_meta (s.(_term), s.(_votedfor))) raft_sync_meta s.(disk) in
  (rc, s <| disk := d |>).

(** [init]; creating the directory is one call of the disk. *)
Definition init (s : SingleMeta) : Errno * SingleMeta :=
  if s.(_is_inited) then (OK, s)
  else
    let '(created, d, _) := (o ← outcome; mret (succeeds o)) s.(disk) in
    let s := s <| disk := d |> in
    if negb created then (ENEG1, s)
    else
      let '(ret, s) := load s in
      if negb (ok ret) then (EIO, s) else (OK, s <| _is_inited := true |>).

Definition set_term_and_votedfor (term : Z) (peer_id : PeerId) (s : SingleMeta) : Errno * SingleMeta :=
  if negb s.(_is_inited) then (EINVAL, s)
  else
    let '(rc, s) := save (s <| _term := term |> <| _votedfor := peer_id |>) in
    (if negb (ok rc) then EIO else OK, s).

(** [get_term_and_votedfor]: the outputs are not written on error. *)
Definition get_term_and_votedfor (s : SingleMeta) : Errno * option MetaValue :=
  if negb s.(_is_inited) then (EINVAL, None) else (OK, Some (s.(_term), s.(_votedfor))).

#[export] Instance SingleMeta_storage : MetaStorage SingleMeta := {
  ms_restart s := FileBasedSingleMetaStorage s.(disk);
  ms_init := init;
  ms_set := set_term_and_votedfor;
  ms_get s := let '(e, v) := get_term_and_votedfor s in (e, default (0, PeerId_default) v, s)
}.

(** ** What the file holds *)
Hypothesis tmp_differs : tmp raft_meta <> raft_meta.
Hypothesis reads_work : forall i o n, ReadError ∉ reads i o n.

(** The value a process that starts on the disk finds. *)
Definition meta_on_disk (d : Disk F) : MetaValue :=
  match loads reads d raft_meta with
  | Some m => (m.(pb_term), (parse m.(pb_votedfor)).2)
  | None => (1, ANY_PEER)
  end.

(** The file is missing, or holds a value that was saved. *)
Definition disk_ok (d : Disk F) : Prop :=
  disk_wf d /\
  (d.(names) !! raft_meta = None \/ exists v, value_ok v /\ loads reads d raft_meta = Some (pb_decode (pb_encode (stable_meta v)))).

Lemma meta_saved d v :
  value_ok v -> loads reads d raft_meta = Some (pb_decode (pb_encode (stable_meta v))) -> meta_on_disk d = v.
Proof using Type.
  intros Hv Hl. unfold meta_on_disk. rewrite Hl. destruct (value_parsed v Hv) as [-> ->]. by destruct v.
Qed.

(** A disk on which the file reads as it did. *)
Lemma same_meta d d' :
  disk_wf d' -> d'.(names) !! raft_meta = d.(names) !! raft_meta -> loads reads d' raft_meta = loads reads d raft_meta ->
  disk_ok d -> disk_ok d' /\ meta_on_disk d' = meta_on_disk d.
Proof using Type.
  intros Hwf Hn Hl [_ Hd]. split; [|unfold meta_on_disk; by rewrite Hl]. split; [done|]. by rewrite Hn, Hl.
Qed.

Lemma touched_meta d d' : touches None d d' -> disk_ok d -> disk_ok d' /\ meta_on_disk d' = meta_on_disk d.
Proof using Type.
  intros Ht Hd. pose proof Hd as [Hwf _]. apply same_meta; [by eapply touches_wf| | |done]; destruct Ht as (Hn & _ & Hc & _).
  - by rewrite Hn.
  - unfold loads. rewrite Hn. destruct (names d !! raft_meta); [|done]. cbn. by rewrite Hc.
Qed.

Lemma open_touches (d : Disk F) : touches None d (state_of (sys_open raft_meta d)).
Proof using Type.
  unfold sys_open. pose proof (proj1 (outcome_touches d)) as Ht. unfold mbind, M_bind, get, mret, M_ret.
  by destruct (outcome d) as [[o d1] e1].
Qed.

Lemma open_found d i d' ev : sys_open raft_meta d = (Some i, d', ev) -> d.(names) !! raft_meta = Some i.
Proof using Type.
  unfold sys_open. pose proof (proj1 (outcome_touches d)) as (Hn & _). unfold mbind, M_bind, get, mret, M_ret.
  destruct (outcome d) as [[o d1] e1]. unfold state_of in Hn. cbn in Hn. destruct (succeeds o); intros [= Hi _ _]; congruence.
Qed.

Lemma file_load_spec d rc m d' ev :
  ProtoBufFile.load reads raft_meta d = ((rc, m), d', ev) ->
  touches None d d' /\
  ((rc = OK /\ exists meta, m = Some meta /\ loads reads d raft_meta = Some meta) \/
   (rc = ENOENT /\ d.(names) !! raft_meta = None) \/ (rc = ENEG1 /\ m = None)).
Proof using Type.
  unfold ProtoBufFile.load. rewrite get_bind. pose proof (open_touches d) as Ht. unfold mbind, M_bind, get, mret, M_ret.
  destruct (sys_open raft_meta d) as [[[i|] d1] e1] eqn:Ho; unfold state_of in Ht; cbn in Ht.
  - pose proof (open_found d i d1 e1 Ho) as Hi. unfold loads. rewrite Hi. cbn.
    destruct Ht as (Hn & Hi' & Hc & Hs). rewrite Hc by done.
    destruct (load_content reads i (content d i)) as [meta|]; intros [= <- <- <- _]; (split; [done|]); [left|right; right]; [|done].
    split; [done|by eexists].
  - intros [= <- <- <- _]. split; [done|]. right. destruct (names d !! raft_meta); [by right|by left].
Qed.

Definition single_ok (s : SingleMeta) : Prop := disk_ok s.(disk).
Definition single_fresh (s : SingleMeta) : Prop :=
  s.(_is_inited) = true /\ (s.(_term), s.(_votedfor)) = meta_on_disk s.(disk).

(** A new object that loads takes over what the file holds. *)
Lemma single_load_spec s rc s' :
  single_ok s -> load s = (rc, s') ->
  touches None s.(disk) s'.(disk) /\ s'.(_is_inited) = s.(_is_inited) /\
  (ok rc = true -> s.(_term) = 1 -> s.(_votedfor) = ANY_PEER -> (s'.(_term), s'.(_votedfor)) = meta_on_disk s.(disk)).
Proof using Type.
  intros [Hwf Hd]. unfold load. destruct (ProtoBufFile.load reads raft_meta (disk s)) as [[[e m] d'] ev] eqn:Hl.
  destruct (file_load_spec _ _ _ _ _ Hl) as [Ht [(-> & meta & -> & Hload)|[[-> Hnone]|[-> ->]]]].
  - unfold meta_on_disk. rewrite Hload. destruct (parse (pb_votedfor meta)) as [e p]. by intros [= <- <-].
  - intros [= <- <-]. split_and!; [done|done|]. intros _ H1 H2. unfold meta_on_disk, loads. rewrite Hnone. cbn. by rewrite H1, H2.
  - intros [= <- <-]. by split_and!.
Qed.

Lemma set_spec t p s e s' :
  single_ok s -> value_ok (t, p) -> set_term_and_votedfor t p s = (e, s') ->
  single_ok s' /\ meta_on_disk s'.(disk) = (if ok e then (t, p) else meta_on_disk s.(disk)) /\ (ok e = true <-> e = OK).
Proof using All.
  intros Hs Hv. unfold set_term_and_votedfor. destruct (_is_inited s); cbn [negb]; [|by intros [= <- <-]].
  unfold save. cbn [_term _votedfor disk set_field SingleMeta_eta].
  pose proof (save_spec tmp reads raft_meta (stable_meta (t, p)) raft_sync_meta (disk s) tmp_differs (proj1 Hs) reads_work (proj2 Hv)) as Hsave.
  change (disk (s <| _term := t |> <| _votedfor := p |>)) with (disk s).
  destruct (ProtoBufFile.save tmp raft_meta _ raft_sync_meta (disk s)) as [[rc d'] ev].
  destruct Hsave as (Hwf & _ & Hbad & Hok). intros [= <- <-]. destruct (ok rc); cbn [negb].
  - destruct (Hok eq_refl) as [_ Hl]. assert (loads reads d' raft_meta = Some (pb_decode (pb_encode (stable_meta (t, p))))) as Hl'.
    { rewrite Hl. f_equal. symmetry. apply pb_decode_encode, Hv. }
    split_and!; [|by apply meta_saved|done]. split; [done|]. right. by exists (t, p).
  - specialize (Hbad eq_refl). destruct (Hbad raft_meta tmp_differs) as [Hn _].
    destruct (same_meta (disk s) d' Hwf Hn (kept_loads reads _ _ _ _ Hbad tmp_differs) Hs) as [H1 H2]. done.
Qed.

Lemma init_spec s e s' :
  single_ok s -> init s = (e, s') ->
  single_ok s' /\ meta_on_disk s'.(disk) = meta_on_disk s.(disk) /\
  (e = OK -> s.(_is_inited) = false -> s.(_term) = 1 -> s.(_votedfor) = ANY_PEER -> single_fresh s').
Proof using Type.
  intros Hs. unfold init. destruct (_is_inited s) eqn:Hi; [intros [= <- <-]; by split_and!|].
  pose proof (proj1 (outcome_touches (disk s))) as Ht. unfold mbind, M_bind, mret, M_ret.
  destruct (outcome (disk s)) as [[o d1] e1]. unfold state_of in Ht. cbn in Ht.
  destruct (touched_meta _ _ Ht Hs) as [Hd1 Hm1].
  destruct (succeeds o); cbn [negb]; [|intros [= <- <-]; by split_and!].
  destruct (load (s <| disk := d1 |>)) as [ret s1] eqn:Hl.
  assert (single_ok (s <| disk := d1 |>)) as Hs1.
  { exact Hd1. }
  destruct (single_load_spec _ _ _ Hs1 Hl) as (Ht1 & Hi1 & Hval).
  destruct (touched_meta _ _ Ht1 Hd1) as [Hd2 Hm2]. cbn in Hm2.
  destruct (ok ret) eqn:Hret; cbn [negb]; intros [= <- <-]; (split_and!; [done|by cbn; rewrite Hm2|]); [|done].
  intros _ _ H1 H2. split; [done|]. cbn. rewrite Hm2. by apply Hval.
Qed.

#[export] Instance SingleMeta_laws : MetaStorageLaws SingleMeta.
Proof using All.
  refine {| ms_ok := single_ok; ms_fresh := single_fresh; ms_value s := meta_on_disk s.(disk) |}; cbn [ms_restart ms_init ms_set ms_get SingleMeta_storage].
  - done.
  - intros s e s' Hs Hi. by destruct (init_spec s e s' Hs Hi) as (? & ? & _).
  - intros s s' Hs Hi. destruct (init_spec (FileBasedSingleMetaStorage (disk s)) OK s' Hs Hi) as (_ & _ & H'). by apply H'.
  - intros t p s e s' Hs Hv Hset. destruct (set_spec t p s e s' Hs Hv Hset) as (Hok & Hval & Hiff). split; [done|].
    destruct (ok e); [by left|right]. split; [|done]. intros He. by apply Hiff in He.
  - intros s e v s' Hs [Hi Hf]. unfold get_term_and_votedfor. rewrite Hi. cbn. intros [= <- <- <-]. by split_and!.
Defined.
End single.
