(* ===== verification/MergedMeta.v ===== *)
(** * MergedMeta: the terms and votes of many groups in one database

    Models [KVBasedMergedMetaStorage] and [KVBasedMergedMetaStorageImpl] of
    [src/braft/raft_meta.h] and [src/braft/raft_meta.cpp].  Groups on a disk share
    one object: their writes are queued, and the queue's handler gathers them
    into batches.  leveldb is the parameter [LevelDB], with what its
    documentation promises of a batch: it is applied whole and in order when
    [Write] succeeds, whole or not at all when it fails.  A call that waits for
    its closure runs the queue. *)

From S2P Require Import Prelude Types PeerText ProtoBufFile SingleMeta.

Inductive DbGet : Set := DbFound (value : IOBuf) | DbNotFound | DbFailed.

(** The contents after the puts of a batch. *)
Definition put_all (updates : list (string * IOBuf)) (data : string -> option IOBuf) (k : string) : option IOBuf :=
  foldl (fun old u => if bool_decide (u.1 = k) then Some u.2 else old) (data k) updates.

Class LevelDB (Db : Type) := {
  db_open : Db -> bool * Db;
  db_write : list (string * IOBuf) -> Db -> bool * Db;
  db_get : string -> Db -> DbGet * Db;
  db_delete : string -> Db -> bool * Db;
  db_data : Db -> string -> option IOBuf;
  db_open_law d k : db_data (db_open d).2 k = db_data d k;
  db_write_law updates d :
    (forall k, db_data (db_write updates d).2 k = put_all updates (db_data d) k) \/
    ((db_write updates d).1 = false /\ forall k, db_data (db_write updates d).2 k = db_data d k);
  db_get_law k d :
    (forall j, db_data (db_get k d).2 j = db_data d j) /\
    match (db_get k d).1 with
    | DbFound v => db_data d k = Some v
    | DbNotFound => db_data d k = None
    | DbFailed => True
    end;
  db_delete_law k d j : j <> k -> db_data (db_delete k d).2 j = db_data d j;
  db_delete_done k d : (db_delete k d).1 = true -> db_data (db_delete k d).2 k = None
}.

Record WriteTask : Set := mkWriteTask { wt_term : Z; wt_votedfor : PeerId; wt_vgid : string; wt_done : Closure }.

Section merged.
Context {Db : Type} `{LevelDB Db}.
Context `{IT : IpText, EPO : EndPointOrder, !PbMessage StablePBMeta}.
Context (raft_meta_write_batch : nat).

(** [_calls] tells how the calls other than the database's go: creating the
    directory, starting the queue and queueing a task. *)
Record MergedMeta : Type := mkMergedMeta {
  _is_inited : bool;
  _db : Db;
  _tasks : list WriteTask;
  _calls : list bool
}.
#[export] Instance MergedMeta_eta : Settable MergedMeta := fun m => mkMergedMeta m.(_is_inited) m.(_db) m.(_tasks) m.(_calls).

Local Abbreviation MM := (M MergedMeta Empty_set).

Definition call : MM bool := fun m =>
  match m.(_calls) with
  | b :: calls => (b, m <| _calls := calls |>, [])
  | [] => (true, m, [])
  end.
Definition on_db {A} (f : Db -> A * Db) : MM A := fun m => let '(a, d) := f m.(_db) in (a, m <| _db := d |>, []).

(** [init]. *)
Definition init : MM Errno :=
  m ← get;
  if m.(_is_inited) then mret OK
  else
    created ← call;
    if negb created then mret ENEG1
    else
      opened ← on_db db_open;
      if negb opened then mret EIO
      else
        started ← call;
        if negb started then mret EINVAL
        else modify (fun m => m <| _is_inited := true |>) ;; mret OK.

(** [run_tasks]: the closures of the batch, with the status each is run with. *)
Definition run_tasks (updates : list (string * IOBuf)) (dones : list Closure) : MM (list (Closure * Errno)) :=
  st ← on_db (db_write updates);
  mret (map (fun d => (d, if (st : bool) then OK else EIO)) dones).

Definition task_update (t : WriteTask) : string * IOBuf :=
  (t.(wt_vgid), pb_encode (stable_meta (t.(wt_term), t.(wt_votedfor)))).

(** [run]: what the queue's handler does with the tasks it took. *)
Fixpoint run_loop (tasks : list WriteTask) (updates : list (string * IOBuf)) (dones : list Closure) : MM (list (Closure * Errno)) :=
  match tasks with
  | [] => if (0 <? length dones)%nat then run_tasks updates dones else mret []
  | t :: tasks =>
      if (length dones =? raft_meta_write_batch)%nat then
        ran ← run_tasks updates dones;
        rest ← run_loop tasks [task_update t] [t.(wt_done)];
        mret (ran ++ rest)
      else run_loop tasks (updates ++ [task_update t]) (dones ++ [t.(wt_done)])
  end.
Definition run (stopped : bool) (tasks : list WriteTask) : MM (list (Closure * Errno)) :=
  if stopped then mret [] else run_loop tasks [] [].

(** [KVBasedMergedMetaStorageImpl::set_term_and_votedfor]: the status when the
    closure is run at once. *)
Definition set_term_and_votedfor (term : Z) (peer_id : PeerId) (group : string) (done : Closure) : MM (option Errno) :=
  m ← get;
  if negb m.(_is_inited) then mret (Some EINVAL)
  else
    queued ← call;
    if negb queued then mret (Some EIO)
    else modify (fun m => m <| _tasks := m.(_tasks) ++ [mkWriteTask term peer_id group done] |>) ;; mret None.

(** [StableMetaClosure]: a closure of its own, waited for while the queue runs. *)
Definition new_done (tasks : list WriteTask) : Closure := Pos.succ (foldr (fun t => Pos.max t.(wt_done)) 1%positive tasks).
Definition status_of (done : Closure) (ran : list (Closure * Errno)) : option Errno :=
  snd <$> head (filter (fun r => r.1 = done) ran).
Definition set_and_wait (term : Z) (peer_id : PeerId) (group : string) : MM Errno :=
  m ← get;
  let done := new_done m.(_tasks) in
  rc ← set_term_and_votedfor term peer_id group done;
  match rc with
  | Some e => mret e
  | None =>
      m ← get;
      modify (fun m => m <| _tasks := [] |>) ;;
      ran ← run false m.(_tasks);
      mret (default OK (status_of done ran))
  end.

(** [get_term_and_votedfor]: the value is what the outputs hold when the call
    returns, [None] when they are not written. *)
Definition get_term_and_votedfor (group : string) : MM (Errno * option MetaValue) :=
  m ← get;
  if negb m.(_is_inited) then mret (EINVAL, None)
  else
    st ← on_db (db_get group);
    match st with
    | DbNotFound => rc ← set_and_wait 1 ANY_PEER group; mret (rc, Some (1, ANY_PEER))
    | DbFailed => mret (EIO, None)
    | DbFound value =>
        let meta := pb_decode value in
        let '(rc, p) := parse meta.(pb_votedfor) in
        mret (if negb (ok rc) then EINVAL else OK, Some (meta.(pb_term), p))
    end.

Definition delete_meta (group : string) : MM Errno :=
  m ← get;
  if negb m.(_is_inited) then mret EINVAL
  else
    st ← on_db (db_delete group);
    mret (if negb st then EIO else OK).

(** ** The registry of the objects of a process ([MetaStorageManager]) *)
Definition Manager : Type := gmap string MergedMeta.
Definition register_meta_storage (fresh : MergedMeta) (path : string) (mss : Manager) : MergedMeta * Manager :=
  match mss !! path with
  | Some m => (m, mss)
  | None => (fresh, <[path := fresh]> mss)
  end.
Definition remove_instance_from_meta_storage (path : string) (v_group_id : string) (mss : Manager) : Errno * Manager :=
  match mss !! path with
  | None => (OK, mss)
  | Some m =>
      let '(status, m, _) := delete_meta v_group_id m in
      (if negb (ok status) then ENEG1 else OK, <[path := m]> mss)
  end.
Definition gc_instance (uri : string) (vgid : string) (mss : Manager) : Errno * Manager :=
  let '(rc, mss) := remove_instance_from_meta_storage uri vgid mss in
  (if negb (ok rc) then EIO else OK, mss).

(** ** What a run of the queue does *)

(** The puts of the tasks whose flag is set. *)
Definition flagged (flags : list bool) (tasks : list WriteTask) : list (string * IOBuf) :=
  omap (fun ft => if (ft.1 : bool) then Some (task_update ft.2) else None) (zip flags tasks).

Lemma put_all_app u1 u2 data k : put_all (u1 ++ u2) data k = put_all u2 (put_all u1 data) k.
Proof using Type. unfold put_all. by rewrite foldl_app. Qed.

Lemma put_all_ext u data data' k : data k = data' k -> put_all u data k = put_all u data' k.
Proof using Type. intros Hd. unfold put_all. by rewrite Hd. Qed.

Lemma flagged_app f1 f2 t1 t2 : length f1 = length t1 -> flagged (f1 ++ f2) (t1 ++ t2) = flagged f1 t1 ++ flagged f2 t2.
Proof using Type. intros Hl. unfold flagged. rewrite zip_with_app by done. apply omap_app. Qed.

Lemma flagged_all b tasks : flagged (replicate (length tasks) b) tasks = if b then map task_update tasks else [].
Proof using Type.
  unfold flagged. induction tasks as [|t tasks IH]; [by destruct b|]. cbn. destruct b; cbn in *; by rewrite IH.
Qed.

(** One batch, as flags that are all equal. *)
Lemma run_tasks_spec batch m :
  let '(ran, m', _) := run_tasks (map task_update batch) (map wt_done batch) m in
  m' = m <| _db := m'.(_db) |> /\
  exists e b, ran = map (fun t => (t.(wt_done), e)) batch /\ (e = OK -> b = true) /\ (e = OK \/ e = EIO) /\
    forall k, db_data m'.(_db) k = put_all (flagged (replicate (length batch) b) batch) (db_data m.(_db)) k.
Proof using Type.
  unfold run_tasks, on_db, mbind, M_bind, mret, M_ret.
  pose proof (db_write_law (map task_update batch) m.(_db)) as Hlaw.
  destruct (db_write _ (_db m)) as [st d]. cbn in *. split; [by destruct m|].
  assert (forall e : Errno, map (fun d => (d, e)) (map wt_done batch) = map (fun t => (wt_done t, e)) batch) as Hmap.
  { intros e. by rewrite map_map. }
  destruct Hlaw as [Hdata|[-> Hdata]].
  - exists (if st then OK else EIO), true. rewrite Hmap, flagged_all. split_and!; try done. destruct st; [by left|by right].
  - exists EIO, false. rewrite Hmap, flagged_all. split_and!; try done. by right.
Qed.

(** What a run leaves: every closure is run once, in order, and the tasks whose
    flag is set are in the database. *)
Definition written (m m' : MergedMeta) (tasks : list WriteTask) (ran : list (Closure * Errno)) : Prop :=
  exists flags, length flags = length tasks /\ ran.*1 = map wt_done tasks /\
    Forall2 (fun r (b : bool) => (r.2 = OK /\ b = true) \/ r.2 = EIO) ran flags /\
    forall k, db_data m'.(_db) k = put_all (flagged flags tasks) (db_data m.(_db)) k.

Lemma written_batch batch m :
  let '(ran, m', _) := run_tasks (map task_update batch) (map wt_done batch) m in
  m' = m <| _db := m'.(_db) |> /\ written m m' batch ran.
Proof using Type.
  pose proof (run_tasks_spec batch m) as Hs. destruct (run_tasks _ _ m) as [[ran m'] ev].
  destruct Hs as [Hm (e & b & -> & Hb & He & Hdata)]. split; [done|].
  exists (replicate (length batch) b). split_and!; [by rewrite length_replicate| | |done].
  - by rewrite <- list_fmap_compose.
  - clear Hdata Hm. induction batch as [|t batch IH]; [constructor|]. constructor; [|done]. cbn.
    destruct He as [->| ->]; [left; auto|by right].
Qed.

Lemma written_app m m1 m2 t1 t2 r1 r2 : written m m1 t1 r1 -> written m1 m2 t2 r2 -> written m m2 (t1 ++ t2) (r1 ++ r2).
Proof using Type.
  intros (f1 & Hl1 & Hr1 & Hf1 & Hd1) (f2 & Hl2 & Hr2 & Hf2 & Hd2). exists (f1 ++ f2). split_and!.
  - by rewrite !length_app, Hl1, Hl2.
  - by rewrite fmap_app, map_app, Hr1, Hr2.
  - by apply Forall2_app.
  - intros k. rewrite flagged_app, put_all_app, Hd2 by done. by apply put_all_ext.
Qed.

Lemma written_nil m m' : (forall k, db_data m'.(_db) k = db_data m.(_db) k) -> written m m' [] [].
Proof using Type. intros Hd. exists []. split_and!; try done. Qed.

Lemma run_loop_spec tasks batch m :
  let '(ran, m', _) := run_loop tasks (map task_update batch) (map wt_done batch) m in
  m' = m <| _db := m'.(_db) |> /\ written m m' (batch ++ tasks) ran.
Proof using Type.
  revert batch m. induction tasks as [|t tasks IH]; intros batch m; cbn [run_loop].
  { rewrite app_nil_r. destruct (0 <? length _)%nat eqn:Hlen; [apply written_batch|].
    destruct batch; [|done]. cbn. split; [by destruct m|by apply written_nil]. }
  destruct (_ =? _)%nat.
  - unfold mbind, M_bind, mret, M_ret. pose proof (written_batch batch m) as H1.
    destruct (run_tasks _ _ m) as [[r1 m1] e1]. destruct H1 as [Hm1 Hw1].
    pose proof (IH [t] m1) as H2. cbn in H2. destruct (run_loop tasks _ _ m1) as [[r2 m2] e2]. destruct H2 as [Hm2 Hw2].
    split; [rewrite Hm2, Hm1; by destruct m|]. by apply (written_app m m1 m2 batch (t :: tasks)).
  - specialize (IH (batch ++ [t]) m). rewrite !map_app in IH. rewrite <- app_assoc in IH. apply IH.
Qed.

(** Writing batches one after the other: how each write went, and the database
    after them. *)
Fixpoint write_batches (batches : list (list WriteTask)) (d : Db) : list bool * Db :=
  match batches with
  | [] => ([], d)
  | b :: batches =>
      let '(st, d) := db_write (map task_update b) d in
      let '(sts, d) := write_batches batches d in
      (st :: sts, d)
  end.

(** The closures of the batches, with what each batch's write answered. *)
Definition batch_answers (batches : list (list WriteTask)) (sts : list bool) : list (Closure * Errno) :=
  mjoin (zip_with (fun b (st : bool) => map (fun t => (t.(wt_done), if st then OK else EIO)) b) batches sts).

Lemma join_cons {A} (l : list A) ls : mjoin (l :: ls) = l ++ mjoin ls.
Proof using Type. done. Qed.

(** Batches as the queue is cut: none empty or too long, all full but the last. *)
Definition cut_full (batches : list (list WriteTask)) : Prop :=
  Forall (fun b => 1 <= length b <= raft_meta_write_batch)%nat batches /\
  Forall (fun b => length b = raft_meta_write_batch) (removelast batches).

Lemma cut_full_cons b batches : (1 <= length b)%nat -> length b = raft_meta_write_batch -> cut_full batches -> cut_full (b :: batches).
Proof using Type. intros Hb Hl [H1 H2]. split; [constructor; [lia|done]|]. destruct batches; [constructor|]. by constructor. Qed.

Lemma run_loop_batches tasks cur m :
  (0 < raft_meta_write_batch)%nat -> (length cur <= raft_meta_write_batch)%nat ->
  exists batches, mjoin batches = cur ++ tasks /\ cut_full batches /\
    run_loop tasks (map task_update cur) (map wt_done cur) m =
    (batch_answers batches (write_batches batches m.(_db)).1, m <| _db := (write_batches batches m.(_db)).2 |>, []).
Proof using Type.
  intros Hn. revert cur m. induction tasks as [|t tasks IH]; intros cur m Hc; cbn [run_loop]; rewrite length_map.
  { rewrite app_nil_r. destruct (0 <? length cur)%nat eqn:Hcur.
    2:{ destruct cur; [|done]. exists []. split; [done|]. split; [by split|]. by destruct m. }
    apply Nat.ltb_lt in Hcur.
    exists [cur]. split; [cbn; by rewrite app_nil_r|]. split; [split; [constructor; [lia|done]|constructor]|].
    unfold run_tasks, on_db, mbind, M_bind, mret, M_ret, batch_answers. cbn [write_batches].
    destruct (db_write _ _) as [st d]. cbn. by rewrite app_nil_r, map_map. }
  destruct (_ =? _)%nat eqn:Hfull.
  - apply Nat.eqb_eq in Hfull. unfold run_tasks, on_db, mbind, M_bind, mret, M_ret.
    destruct (db_write (map task_update cur) (_db m)) as [st d] eqn:Hw.
    destruct (IH [t] (m <| _db := d |>) ltac:(cbn; lia)) as (batches & Hj & Hcut & Hrun). cbn in Hrun. rewrite Hrun.
    exists (cur :: batches). split; [by rewrite join_cons, Hj|]. split; [apply cut_full_cons; [lia|done|done]|].
    unfold batch_answers. cbn [write_batches]. rewrite Hw. destruct (write_batches batches d) as [sts d']. cbn.
    by rewrite map_map.
  - apply Nat.eqb_neq in Hfull. destruct (IH (cur ++ [t]) m) as (batches & Hj & Hcut & Hrun); [rewrite length_app; cbn; lia|].
    rewrite !map_app in Hrun. exists batches. by rewrite Hj, <- app_assoc.
Qed.

(** Each batch is in the database whole or not at all; it is when its write
    succeeded. *)
Lemma write_batches_data batches d :
  exists kept, Forall2 (fun st k : bool => st = true -> k = true) (write_batches batches d).1 kept /\
    length kept = length batches /\
    forall key, db_data (write_batches batches d).2 key =
      put_all (mjoin (zip_with (fun (k : bool) b => if k then map task_update b else []) kept batches)) (db_data d) key.
Proof using Type.
  revert d. induction batches as [|b batches IH]; intros d; cbn [write_batches].
  { exists []. by split_and!. }
  pose proof (db_write_law (map task_update b) d) as Hlaw. destruct (db_write _ d) as [st d1]. cbn in Hlaw.
  destruct (IH d1) as (kept & Hf & Hl & Hd). destruct (write_batches batches d1) as [sts d2]. cbn in *.
  destruct Hlaw as [Hdata|[-> Hdata]]; [exists (true :: kept)|exists (false :: kept)].
  all: cbn [zip_with]; (split; [by constructor|]); (split; [cbn; by rewrite Hl|]); intros key; rewrite join_cons, Hd.
  - rewrite put_all_app. by apply put_all_ext.
  - by apply put_all_ext.
Qed.

(** C35: group commit.  The tasks of many groups are cut, in the order they
    were queued, into batches of [raft_meta_write_batch], the last one of what is
    left; each batch is one write of exactly its tasks.  Each closure is run
    once, in order, with success when the write of its batch succeeded and with
    [EIO] when it failed.  The database then holds, on top of what it held, the
    values of the batches that took effect, in order and each whole, among them
    every batch whose write succeeded; nothing else of the object changes. *)
Theorem run_writes_in_order tasks m : (0 < raft_meta_write_batch)%nat ->
  let '(ran, m', _) := run false tasks m in
  exists batches, mjoin batches = tasks /\ cut_full batches /\
    let '(sts, d) := write_batches batches m.(_db) in
    m' = m <| _db := d |> /\ ran = batch_answers batches sts /\ ran.*1 = map wt_done tasks /\
    exists kept, Forall2 (fun st k : bool => st = true -> k = true) sts kept /\ length kept = length batches /\
      forall key, db_data d key =
        put_all (mjoin (zip_with (fun (k : bool) b => if k then map task_update b else []) kept batches)) (db_data m.(_db)) key.
Proof using Type.
  intros Hn. destruct (run_loop_batches tasks [] m Hn ltac:(cbn; lia)) as (batches & Hj & Hcut & Hrun). cbn in Hj, Hrun.
  pose proof (run_loop_spec tasks [] m) as Hs. cbn in Hs. pose proof (write_batches_data batches m.(_db)) as Hd.
  unfold run. rewrite Hrun in Hs |- *. destruct Hs as [_ (_ & _ & Hord & _)].
  exists batches. split; [done|]. split; [done|]. by destruct (write_batches batches (_db m)) as [sts d].
Qed.

(** ** One group's view *)
Context (group : string).

Definition value_at (d : Db) : MetaValue :=
  match db_data d group with
  | Some v => let meta := pb_decode v in (meta.(pb_term), (parse meta.(pb_votedfor)).2)
  | None => (1, ANY_PEER)
  end.
(** The group's record is missing or one that was written; the tasks that are
    queued are those of other groups. *)
Definition merged_ok (m : MergedMeta) : Prop :=
  (db_data m.(_db) group = None \/ exists v, value_ok v /\ db_data m.(_db) group = Some (pb_encode (stable_meta v))) /\
  Forall (fun t => t.(wt_vgid) <> group) m.(_tasks).

Lemma put_others u data : Forall (fun u => u.1 <> group) u -> put_all u data group = data group.
Proof using Type.
  unfold put_all. intros Hu. revert data. induction Hu as [|[k v] u Hk _ IH]; intros data; [done|]. cbn in *.
  rewrite bool_decide_false by done. apply (IH data).
Qed.

Lemma flagged_others flags tasks :
  Forall (fun t => t.(wt_vgid) <> group) tasks -> Forall (fun u => u.1 <> group) (flagged flags tasks).
Proof using Type.
  intros Ht. revert flags. induction Ht as [|t tasks Hne _ IH]; intros [|[] flags]; try constructor; cbn; try constructor; auto.
  all: apply IH.
Qed.

Lemma value_written v d : value_ok v -> db_data d group = Some (pb_encode (stable_meta v)) -> value_at d = v.
Proof using Type.
  intros Hv Hd. unfold value_at. rewrite Hd. destruct (value_parsed v Hv) as [-> ->]. by destruct v.
Qed.

Lemma value_same d d' : db_data d' group = db_data d group -> value_at d' = value_at d.
Proof using Type. unfold value_at. by intros ->. Qed.

(** A step that leaves the group's record and queues nothing of the group. *)
Lemma merged_same m m' :
  db_data m'.(_db) group = db_data m.(_db) group -> Forall (fun t => t.(wt_vgid) <> group) m'.(_tasks) ->
  merged_ok m -> merged_ok m' /\ value_at m'.(_db) = value_at m.(_db).
Proof using Type. intros Hd Ht [Hv _]. split; [|by apply value_same]. split; [by rewrite Hd|done]. Qed.

Lemma new_done_fresh tasks : Forall (fun t => t.(wt_done) <> new_done tasks) tasks.
Proof using Type.
  assert (Forall (fun t => (t.(wt_done) < new_done tasks)%positive) tasks) as Hlt.
  { unfold new_done. induction tasks as [|t tasks IH]; [constructor|]. cbn. constructor; [lia|].
    eapply Forall_impl; [exact IH|]. intros u Hu. cbn in Hu |- *. lia. }
  eapply Forall_impl; [exact Hlt|]. intros t Ht He. cbv beta in Ht. rewrite He in Ht. by apply Pos.lt_irrefl in Ht.
Qed.

Lemma status_last ran done e : Forall (fun r => r.1 <> done) ran -> status_of done (ran ++ [(done, e)]) = Some e.
Proof using Type.
  intros Hr. unfold status_of. rewrite filter_app, (filter_keep_none _ ran).
  - cbn. by rewrite decide_True.
  - intros r Hin. rewrite Forall_forall in Hr. by apply Hr.
Qed.

(** The group's own task, last in the queue. *)
Lemma own_write m m' ran t p done others :
  written m m' (others ++ [mkWriteTask t p group done]) ran ->
  Forall (fun t => t.(wt_vgid) <> group) others -> Forall (fun t => t.(wt_done) <> done) others ->
  exists e, status_of done ran = Some e /\
    (db_data m'.(_db) group = Some (pb_encode (stable_meta (t, p))) \/
     (e <> OK /\ db_data m'.(_db) group = db_data m.(_db) group)).
Proof using Type.
  intros (flags & Hl & Hr & Hf & Hd) Ho Hdone. rewrite map_app in Hr. cbn in Hr.
  apply fmap_app_inv in Hr as (r1 & r2 & Hr1 & Hr2 & ->).
  destruct r2 as [|[c e] [|]]; try done. injection Hr2 as <-.
  rewrite length_app in Hl. cbn in Hl. destruct flags as [|b flags _] using rev_ind; [cbn in Hl; lia|].
  rewrite length_app in Hl. cbn in Hl. apply Forall2_app_inv in Hf as [Hf1 Hf2].
  2:{ assert (length r1 = length others) as -> by (rewrite <- (length_fmap fst r1), <- Hr1; apply length_map). lia. }
  apply Forall2_cons in Hf2 as [Hbe _]. cbn in Hbe.
  exists e. split.
  { apply status_last. apply Forall_fmap with (f := fst) (P := fun c => c <> done). rewrite <- Hr1. by apply Forall_fmap. }
  specialize (Hd group). rewrite flagged_app, put_all_app in Hd by lia.
  destruct b; cbn in Hd.
  - rewrite bool_decide_true in Hd by done. by left.
  - right. split; [by destruct Hbe as [[_ ?]| ->]|]. rewrite Hd. by apply put_others, flagged_others.
Qed.

Lemma call_kept m : let '(b, m', _) := call m in m' = m <| _calls := m'.(_calls) |>.
Proof using Type. unfold call. destruct m as [i d t [|b c]]; done. Qed.

Lemma set_and_wait_spec t p m e m' ev :
  merged_ok m -> value_ok (t, p) -> set_and_wait t p group m = (e, m', ev) ->
  merged_ok m' /\ (value_at m'.(_db) = (t, p) \/ (e <> OK /\ value_at m'.(_db) = value_at m.(_db))).
Proof using Type.
  intros Hm Hv. unfold set_and_wait, set_term_and_votedfor. unfold mbind, M_bind, get, modify, mret, M_ret.
  destruct (_is_inited m) eqn:Hi; cbn [negb].
  2:{ intros [= <- <- _]. split; [done|by right]. }
  pose proof (call_kept m) as Hc. destruct (call m) as [[b m1] e1]. destruct b; cbn [negb].
  2:{ intros [= <- <- _]. rewrite Hc. split; [by destruct Hm|by right]. }
  set (own := mkWriteTask t p group (new_done (_tasks m))).
  set (m2 := m1 <| _tasks := [] |>).
  pose proof (run_loop_spec (_tasks m ++ [own]) [] m2) as Hrun. cbn in Hrun.
  assert (_tasks m1 = _tasks m) as Ht1 by (by rewrite Hc). cbn. rewrite Ht1.
  change (m1 <| _tasks := _tasks m ++ [own] |> <| _tasks := [] |>) with m2. unfold run.
  destruct (run_loop _ [] [] m2) as [[ran m3] e3]. destruct Hrun as [Hm3 Hw]. intros [= <- <- _].
  destruct (own_write m2 m3 ran t p (new_done (_tasks m)) (_tasks m) Hw (proj2 Hm) (new_done_fresh _)) as (st & -> & Hres). cbn.
  assert (Forall (fun t => wt_vgid t <> group) (_tasks m3)) as Hq by (rewrite Hm3; constructor).
  destruct Hres as [Hres|[Hne Hres]].
  - split; [|left; by apply value_written]. split; [right; by exists (t, p)|done].
  - assert (db_data (_db m3) group = db_data (_db m) group) as Hd by (rewrite Hres; subst m2; by rewrite Hc).
    destruct (merged_same m m3 Hd Hq Hm). split; [done|by right].
Qed.

Hypothesis initial_ok : value_ok (1, ANY_PEER).

Lemma get_spec m e v m' ev :
  merged_ok m -> get_term_and_votedfor group m = ((e, v), m', ev) ->
  merged_ok m' /\ value_at m'.(_db) = value_at m.(_db) /\ (e = OK -> v = Some (value_at m.(_db))).
Proof using All.
  intros Hm. unfold get_term_and_votedfor, on_db. unfold mbind, M_bind, get, mret, M_ret.
  destruct (_is_inited m); cbn [negb]; [|by intros [= <- <- <- _]].
  pose proof (db_get_law group m.(_db)) as [Hd Hg]. destruct (db_get group (_db m)) as [st d]. cbn in Hd, Hg.
  assert (merged_ok (m <| _db := d |>) /\ value_at d = value_at (_db m)) as [Hm1 Hv1].
  { pose proof (merged_same m (m <| _db := d |>) (Hd group) (proj2 Hm) Hm) as Hs. exact Hs. }
  destruct st as [value| |].
  - destruct Hm as [[Hnone|(v0 & Hv0 & Hd0)] _]; [congruence|].
    assert (value = pb_encode (stable_meta v0)) as -> by congruence.
    destruct (value_parsed v0 Hv0) as [Ht Hp]. rewrite Hp. intros [= <- <- <- _]. split_and!; [done|done|]. intros _.
    rewrite (value_written v0) by done. f_equal. cbn in Ht. rewrite Ht. by destruct v0.
  - destruct (set_and_wait 1 ANY_PEER group (m <| _db := d |>)) as [[rc m2] e2] eqn:Hs.
    assert (value_at (_db m) = (1, ANY_PEER)) as Hinit by (unfold value_at; by rewrite Hg).
    destruct (set_and_wait_spec _ _ _ _ _ _ Hm1 initial_ok Hs) as [Hok Hval]. intros [= <- <- <- _].
    split_and!; [done| |intros _; by rewrite Hinit].
    rewrite Hinit. destruct Hval as [->|[_ ->]]; [done|]. cbn. by rewrite Hv1.
  - intros [= <- <- <- _]. by split_and!.
Qed.

#[export] Instance MergedMeta_storage : MetaStorage MergedMeta := {
  ms_restart m := m <| _is_inited := false |> <| _tasks := [] |>;
  ms_init m := let '(e, m, _) := init m in (e, m);
  ms_set t p m := let '(e, m, _) := set_and_wait t p group m in (e, m);
  ms_get m := let '(e, v, m, _) := get_term_and_votedfor group m in (e, default (0, ANY_PEER) v, m)
}.

Lemma init_kept m : let '(e, m', _) := init m in db_data m'.(_db) group = db_data m.(_db) group /\ m'.(_tasks) = m.(_tasks).
Proof using Type.
  unfold init, on_db, mbind, M_bind, get, modify, mret, M_ret. destruct (_is_inited m); [done|].
  pose proof (call_kept m) as Hc. destruct (call m) as [[b m1] e1]. destruct b; cbn [negb]; [|by rewrite Hc].
  pose proof (db_open_law m1.(_db) group) as Ho. destruct (db_open (_db m1)) as [opened d]. cbn in Ho.
  assert (db_data d group = db_data (_db m) group) as Hd by (rewrite Ho; by rewrite Hc).
  assert (_tasks m1 = _tasks m) as Ht by (by rewrite Hc).
  destruct opened; cbn [negb]; [|done].
  pose proof (call_kept (m1 <| _db := d |>)) as Hc2. destruct (call (m1 <| _db := d |>)) as [[b2 m2] e2].
  destruct b2; cbn [negb]; by rewrite Hc2.
Qed.

#[export] Instance MergedMeta_laws : MetaStorageLaws MergedMeta.
Proof using All.
  refine {| ms_ok := merged_ok; ms_fresh _ := True; ms_value m := value_at m.(_db) |}; cbn [ms_restart ms_init ms_set ms_get MergedMeta_storage].
  - intros m [Hv _]. by repeat split.
  - intros m e m' Hm. pose proof (init_kept m) as Hk. destruct (init m) as [[e1 m1] e2]. intros [= <- <-].
    destruct Hk as [Hd Ht]. apply merged_same; [done|rewrite Ht; apply Hm|done].
  - done.
  - intros t p m e m' Hm Hv. destruct (set_and_wait t p group m) as [[e1 m1] ev] eqn:Hs. intros [= <- <-].
    by eapply set_and_wait_spec.
  - intros m e v m' Hm _. destruct (get_term_and_votedfor group m) as [[[e1 v1] m1] ev] eqn:Hg. intros [= <- <- <-].
    destruct (get_spec m e1 v1 m1 ev Hm Hg) as (? & ? & Hv). split_and!; [done|done|]. intros He. by rewrite Hv.
Defined.
End merged.
