(* ===== verification/MixedMeta.v ===== *)
(** * MixedMeta: the term and vote in two storages at once

    Models [MixedMetaStorage] of [src/braft/raft_meta.h] and
    [src/braft/raft_meta.cpp], used while a group moves from one storage to
    another: every write goes to the one in a file first and then to the merged
    one, and a process that starts takes the newer of the two values and brings
    the other storage up to date.  It is proved over any two storages that keep
    the laws of MetaStorage. *)

From Stdlib Require Import String.
From S2P Require Import Prelude Types PeerText ProtoBufFile SingleMeta.

(** ** The uri *)
Definition remove_prefix (n : nat) (s : string) : string := String.substring n (String.length s - n) s.
Definition parse_mixed_path (uri : string) : option (string * string) :=
  let uri := match String.index 0 "://" uri with Some pos => remove_prefix (pos + 3) uri | None => uri end in
  match String.index 0 "merged_path=" uri with
  | None => None
  | Some pos =>
      let uri := remove_prefix (pos + 12) uri in
      match String.index 0 "&&single_path=" uri with
      | None => None
      | Some pos => Some (String.substring 0 pos uri, remove_prefix (pos + 14) uri)
      end
  end.

Section mixed.
Context `{IT : IpText, EPO : EndPointOrder, !PbMessage StablePBMeta}.
Context {S1 S2 : Type} `{MS1 : MetaStorage S1, MS2 : MetaStorage S2}.

Record MixedMeta : Type := mkMixedMeta {
  _is_inited : bool;
  _is_bad : bool;
  _single_impl : S1;
  _merged_impl : S2
}.

(** [MixedMetaStorage(uri)]: the storages are those of the two paths. *)
Definition MixedMetaStorage (uri : string) (single : string -> S1) (merged : string -> S2) : option MixedMeta :=
  match parse_mixed_path uri with
  | Some (merged_path, single_path) => Some (mkMixedMeta false false (single single_path) (merged merged_path))
  | None => None
  end.

Definition init (m : MixedMeta) : Errno * MixedMeta :=
  if m.(_is_inited) then (OK, m)
  else if m.(_is_bad) then (EINVAL, m)
  else
    let '(e1, s1) := ms_init m.(_single_impl) in
    if negb (ok e1) then (e1, mkMixedMeta false m.(_is_bad) s1 m.(_merged_impl))
    else
      let '(e2, s2) := ms_init m.(_merged_impl) in
      if negb (ok e2) then (e2, mkMixedMeta false m.(_is_bad) s1 s2)
      else (OK, mkMixedMeta true m.(_is_bad) s1 s2).

Definition set_term_and_votedfor (term : Z) (peer_id : PeerId) (m : MixedMeta) : Errno * MixedMeta :=
  if negb m.(_is_inited) then (EINVAL, m)
  else
    let '(e1, s1) := ms_set term peer_id m.(_single_impl) in
    if negb (ok e1) then (e1, mkMixedMeta m.(_is_inited) m.(_is_bad) s1 m.(_merged_impl))
    else
      let '(e2, s2) := ms_set term peer_id m.(_merged_impl) in
      (e2, mkMixedMeta m.(_is_inited) m.(_is_bad) s1 s2).

(** Which of two values is to be taken: [None] is the conflict that should not
    happen, the boolean tells that the single one is newer. *)
Inductive Choice : Set := Consistent | Conflict | SingleNewer | MergedNewer.
Definition choose (v1 v2 : MetaValue) : Choice :=
  let '(term_1, peer_id_1) := v1 in
  let '(term_2, peer_id_2) := v2 in
  if (term_1 =? term_2) && peer_eqb peer_id_1 peer_id_2 then Consistent
  else if (term_1 =? term_2) && negb (peer_eqb peer_id_1 ANY_PEER) && negb (peer_eqb peer_id_2 ANY_PEER) then Conflict
  else if (term_2 <? term_1) ||
          ((term_1 =? term_2) && negb (peer_eqb peer_id_1 ANY_PEER) && peer_eqb peer_id_2 ANY_PEER) then SingleNewer
  else MergedNewer.

(** [get_term_and_votedfor], with its [CHECK] last. *)
Definition get_term_and_votedfor (m : MixedMeta) : Errno * option MetaValue * MixedMeta * bool :=
  if negb m.(_is_inited) then (EINVAL, None, m, true)
  else
    let with_impls s1 s2 := mkMixedMeta m.(_is_inited) m.(_is_bad) s1 s2 in
    let '(e1, v1, s1) := ms_get m.(_single_impl) in
    if negb (ok e1) then (e1, None, with_impls s1 m.(_merged_impl), true)
    else
      let '(e2, v2, s2) := ms_get m.(_merged_impl) in
      if negb (ok e2) then (e2, None, with_impls s1 s2, true)
      else
        match choose v1 v2 with
        | Consistent => (OK, Some v1, with_impls s1 s2, true)
        | Conflict => (EINVAL, None, with_impls s1 s2, false)
        | SingleNewer =>
            let '(e, s2) := ms_set v1.1 v1.2 s2 in (e, Some v1, with_impls s1 s2, true)
        | MergedNewer =>
            let '(e, s1) := ms_set v2.1 v2.2 s1 in (e, Some v2, with_impls s1 s2, true)
        end.

(** [gc_instance]: the directory of the single one, then the record. *)
Definition gc_instance (uri : string) (gc_dir : string -> Errno) (remove_instance : string -> Errno) : Errno :=
  match parse_mixed_path uri with
  | None => EINVAL
  | Some (merged_path, single_path) =>
      if negb (ok (gc_dir single_path)) then EIO
      else if negb (ok (remove_instance merged_path)) then EIO
      else OK
  end.

(** A process that starts later on the same disks. *)
Definition restart (m : MixedMeta) : MixedMeta :=
  mkMixedMeta false m.(_is_bad) (ms_restart m.(_single_impl)) (ms_restart m.(_merged_impl)).

(** ** The order of values

    A later term, or in the same term a vote where there was none. *)
Definition votes_nobody (p : PeerId) : bool := peer_eqb p ANY_PEER.
Definition value_le (v w : MetaValue) : Prop :=
  v.1 < w.1 \/ (v.1 = w.1 /\ (votes_nobody v.2 = true \/ peer_eqb v.2 w.2 = true)).

#[export] Instance value_le_preorder : PreOrder value_le.
Proof using Type.
  split; [intros v; right; split; [done|right; apply peer_eqb_refl]|].
  intros u v w [Huv|[Htuv Hpuv]] [Hvw|[Htvw Hpvw]]; try (left; lia).
  right. split; [lia|]. destruct Hpuv as [Hp|Hp]; [by left|]. apply peer_eqb_true in Hp. unfold votes_nobody in *.
  by rewrite Hp.
Qed.

Definition comparable (v w : MetaValue) : Prop := value_le v w \/ value_le w v.

(** Of two comparable values the newer one is chosen, and there is no conflict. *)
Lemma choose_spec v1 v2 :
  comparable v1 v2 ->
  match choose v1 v2 with
  | Consistent => value_le v1 v2 /\ value_le v2 v1
  | Conflict => False
  | SingleNewer => value_le v2 v1
  | MergedNewer => value_le v1 v2
  end.
Proof using Type.
  destruct v1 as [t1 p1], v2 as [t2 p2]. unfold comparable, value_le, choose, votes_nobody. cbn [fst snd].
  rewrite (peer_eqb_sym p2 p1). destruct (Z.eqb_spec t1 t2) as [->|Hne]; cbn [andb].
  - destruct (peer_eqb p1 p2); [intros _; split; right; auto|]. rewrite Z.ltb_irrefl. cbn [orb].
    destruct (peer_eqb p1 ANY_PEER), (peer_eqb p2 ANY_PEER); cbn [negb andb]; try (intros _; right; auto).
    intros [[?|[_ [?|?]]]|[?|[_ [?|?]]]]; (lia || done).
  - rewrite orb_false_r. intros _. destruct (Z.ltb_spec t2 t1); left; lia.
Qed.

(** ** The life of a mixed storage *)
Context `{!MetaStorageLaws S1, !MetaStorageLaws S2}.

(** What a process that starts does with it. *)
Definition reopen (m : MixedMeta) : Errno * option MetaValue * MixedMeta * bool :=
  let '(e, m) := init (restart m) in
  if negb (ok e) then (e, None, m, true) else get_term_and_votedfor m.

(** A storage with the newest value known to be saved and the values that were
    ever tried. *)
Record Life : Type := mkLife { storage : MixedMeta; saved_value : MetaValue; tried : list MetaValue }.

(** A node raises its term, or votes once in it: a value it saves is at least as
    new as all it tried before. *)
Inductive lstep : Life -> Life -> Prop :=
| lstep_set t p e m m' v vs :
    value_ok (t, p) -> Forall (fun w => value_le w (t, p)) vs -> set_term_and_votedfor t p m = (e, m') ->
    lstep (mkLife m v vs) (mkLife m' (if ok e then (t, p) else v) ((t, p) :: vs))
| lstep_reopen m v vs : lstep (mkLife m v vs) (mkLife (reopen m).1.2 v vs).

(** Two storages with comparable values: both new, or one of them taken over
    from a group that used only the other. *)
Definition starts (l : Life) : Prop :=
  let v1 := ms_value l.(storage).(_single_impl) in let v2 := ms_value l.(storage).(_merged_impl) in
  ms_ok l.(storage).(_single_impl) /\ ms_ok l.(storage).(_merged_impl) /\ value_ok v1 /\ value_ok v2 /\
  l.(storage).(_is_bad) = false /\
  l.(tried) = [v1; v2] /\ ((l.(saved_value) = v1 /\ value_le v2 v1) \/ (l.(saved_value) = v2 /\ value_le v1 v2)).

Record linv (l : Life) : Prop := mkLinv {
  linv_single : ms_ok l.(storage).(_single_impl);
  linv_merged : ms_ok l.(storage).(_merged_impl);
  linv_in1 : ms_value l.(storage).(_single_impl) ∈ l.(tried);
  linv_in2 : ms_value l.(storage).(_merged_impl) ∈ l.(tried);
  linv_saved : l.(saved_value) ∈ l.(tried);
  linv_kept : value_le l.(saved_value) (ms_value l.(storage).(_single_impl)) \/
              value_le l.(saved_value) (ms_value l.(storage).(_merged_impl));
  linv_chain : forall v w, v ∈ l.(tried) -> w ∈ l.(tried) -> comparable v w;
  linv_ok : Forall value_ok l.(tried)
}.

Lemma starts_inv l : starts l -> linv l.
Proof using Type.
  destruct l as [m v vs]. unfold starts. cbn. intros (H1 & H2 & Hv1 & Hv2 & _ & -> & Hsaved).
  set (v1 := ms_value (_single_impl m)) in *. set (v2 := ms_value (_merged_impl m)) in *.
  assert (v1 ∈ [v1; v2] /\ v2 ∈ [v1; v2]) as [Hin1 Hin2].
  { split; [apply list_elem_of_here|apply list_elem_of_further, list_elem_of_here]. }
  assert (v ∈ [v1; v2] /\ (value_le v v1 \/ value_le v v2) /\ comparable v1 v2) as (Hin & Hk & Hc).
  { destruct Hsaved as [[-> Hle]|[-> Hle]]; (split_and!; [done|..]); [by left|by right|by right|by left]. }
  split; cbn; [done..| |by rewrite !Forall_cons, Forall_nil].
  intros a b Ha Hb. apply list_elem_of_In in Ha, Hb. destruct Ha as [<-|[<-|[]]], Hb as [<-|[<-|[]]];
    [left; reflexivity|done|by destruct Hc; [right|left]|left; reflexivity].
Qed.

Lemma ok_false e : ok e = false -> e <> OK.
Proof using Type. by intros H%bool_decide_eq_false. Qed.

(** A write of a value at least as new as every other. *)
Lemma set_inv t p e m m' v vs :
  linv (mkLife m v vs) -> value_ok (t, p) -> Forall (fun w => value_le w (t, p)) vs ->
  set_term_and_votedfor t p m = (e, m') -> linv (mkLife m' (if ok e then (t, p) else v) ((t, p) :: vs)).
Proof using Type.
  intros [H1 H2 Hi1 Hi2 Hs Hk Hc Ho] Hv Htop. cbn in *. unfold set_term_and_votedfor.
  assert (forall a b, a ∈ (t, p) :: vs -> b ∈ (t, p) :: vs -> comparable a b) as Hchain.
  { rewrite Forall_forall in Htop. intros a b [->|Ha]%elem_of_cons [->|Hb]%elem_of_cons;
      [left; reflexivity|right; by apply Htop|left; by apply Htop|by apply Hc]. }
  assert (value_le v (t, p)) as Hvt by (rewrite Forall_forall in Htop; by apply Htop).
  destruct (_is_inited m); cbn [negb].
  2:{ intros [= <- <-]. cbn. split; cbn; try done; try (by right); try (by apply elem_of_cons; right). }
  destruct (ms_set t p (_single_impl m)) as [e1 s1] eqn:He1. destruct (ms_set_law _ _ _ _ _ H1 Hv He1) as [Hok1 Hval1].
  destruct (ok e1) eqn:Hb1; cbn [negb].
  2:{ intros [= <- <-]. rewrite Hb1. split; cbn; try done; try (by apply elem_of_cons; right); try (by constructor).
      - destruct Hval1 as [->|[_ ->]]; [apply elem_of_cons; by left|by apply elem_of_cons; right].
      - destruct Hval1 as [->|[_ ->]]; [by left|done]. }
  assert (ms_value s1 = (t, p)) as Hs1 by (destruct Hval1 as [?|[Hn _]]; [done|by apply ok_true in Hb1]).
  destruct (ms_set t p (_merged_impl m)) as [e2 s2] eqn:He2. destruct (ms_set_law _ _ _ _ _ H2 Hv He2) as [Hok2 Hval2].
  intros [= <- <-]. split; cbn; try done.
  - rewrite Hs1. apply elem_of_cons. by left.
  - destruct Hval2 as [->|[_ ->]]; [apply elem_of_cons; by left|by apply elem_of_cons; right].
  - destruct (ok e2); apply elem_of_cons; [by left|by right].
  - left. rewrite Hs1. by destruct (ok e2).
  - by constructor.
Qed.

(** Both storages hold what they held. *)
Definition holds_same (m m' : MixedMeta) : Prop :=
  (ms_ok m'.(_single_impl) /\ ms_value m'.(_single_impl) = ms_value m.(_single_impl)) /\
  (ms_ok m'.(_merged_impl) /\ ms_value m'.(_merged_impl) = ms_value m.(_merged_impl)).

Lemma linv_same m m' v vs : holds_same m m' -> linv (mkLife m v vs) -> linv (mkLife m' v vs).
Proof using Type.
  intros [[Ho1 Hv1] [Ho2 Hv2]] [? ? ? ? ? ? ? ?]. cbn in *. split; cbn; rewrite ?Hv1, ?Hv2; done.
Qed.

Lemma init_restart m e m' :
  ms_ok m.(_single_impl) -> ms_ok m.(_merged_impl) -> init (restart m) = (e, m') ->
  holds_same m m' /\ (ok e = true -> ms_fresh m'.(_single_impl) /\ ms_fresh m'.(_merged_impl) /\ m'.(_is_inited) = true).
Proof using Type.
  intros H1 H2. unfold init, restart. cbn.
  destruct (ms_restart_law _ H1) as [Hr1 Hv1], (ms_restart_law _ H2) as [Hr2 Hv2].
  destruct (_is_bad m); [intros [= <- <-]; by repeat split|].
  destruct (ms_init (ms_restart (_single_impl m))) as [e1 s1] eqn:He1. destruct (ms_init_law _ _ _ Hr1 He1) as [Ho1 Hw1].
  destruct (ok e1) eqn:Hb1; cbn [negb]; [|intros [= <- <-]; rewrite Hb1; repeat split; cbn; congruence || done].
  destruct (ms_init (ms_restart (_merged_impl m))) as [e2 s2] eqn:He2. destruct (ms_init_law _ _ _ Hr2 He2) as [Ho2 Hw2].
  destruct (ok e2) eqn:Hb2; cbn [negb]; intros [= <- <-]; [|rewrite Hb2; repeat split; cbn; congruence || done].
  apply ok_true in Hb1, Hb2. subst. split; [repeat split; cbn; congruence || done|]. intros _. cbn.
  split_and!; [by eapply ms_fresh_law; [exact H1|]|by eapply ms_fresh_law; [exact H2|]|done].
Qed.

(** The newer of two values is at least as new as what either was as new as. *)
Lemma newer_keeps v v1 v2 w : value_le v v1 \/ value_le v v2 -> value_le v1 w -> value_le v2 w -> value_le v w.
Proof using Type. intros [Hv|Hv] H1 H2; by etransitivity. Qed.

(** A storage that is brought up to date with the value of the other. *)
Lemma catch_up {S} `{MS : MetaStorage S, !MetaStorageLaws S} (w : MetaValue) (s : S) e s' :
  ms_ok s -> value_ok w -> ms_set w.1 w.2 s = (e, s') -> ms_ok s' /\ (ms_value s' = w \/ ms_value s' = ms_value s).
Proof using Type.
  intros Hs Hw He. destruct w as [t p]. destruct (ms_set_law _ _ _ _ _ Hs Hw He) as [Ho [Hv|[_ Hv]]]; auto.
Qed.

Lemma mixed_get_spec m v vs :
  linv (mkLife m v vs) -> ms_fresh m.(_single_impl) -> ms_fresh m.(_merged_impl) ->
  let '(e, r, m', check) := get_term_and_votedfor m in
  linv (mkLife m' v vs) /\ check = true /\ (e = OK -> exists w, r = Some w /\ w ∈ vs /\ value_le v w).
Proof using Type.
  intros Hinv Hf1 Hf2. pose proof Hinv as [H1 H2 Hi1 Hi2 Hs Hk Hc Ho]. cbn in *. unfold get_term_and_votedfor.
  destruct (_is_inited m); cbn [negb]; [|done].
  destruct (ms_get (_single_impl m)) as [[e1 v1] s1] eqn:He1. destruct (ms_get_law _ _ _ _ H1 Hf1 He1) as (Ho1 & Hs1 & Hv1).
  destruct (ok e1) eqn:Hb1; cbn [negb].
  2:{ split_and!; [by apply (linv_same m)|done|]. intros ->. done. }
  apply ok_true in Hb1. specialize (Hv1 Hb1). subst v1.
  destruct (ms_get (_merged_impl m)) as [[e2 v2] s2] eqn:He2. destruct (ms_get_law _ _ _ _ H2 Hf2 He2) as (Ho2 & Hs2 & Hv2).
  destruct (ok e2) eqn:Hb2; cbn [negb].
  2:{ split_and!; [by apply (linv_same m)|done|]. intros ->. done. }
  apply ok_true in Hb2. specialize (Hv2 Hb2). subst v2.
  pose proof (choose_spec _ _ (Hc _ _ Hi1 Hi2)) as Hch. rewrite Forall_forall in Ho.
  destruct (choose _ _); [| done | |].
  - split_and!; [by apply (linv_same m)|done|]. intros _. eexists. split; [done|]. split; [done|].
    apply (newer_keeps _ _ _ _ Hk); [reflexivity|apply Hch].
  - destruct (ms_set _ _ s2) as [e s2'] eqn:He. destruct (catch_up _ _ _ _ Ho2 (Ho _ Hi1) He) as [Ho2' Hv2'].
    pose proof (newer_keeps _ _ _ (ms_value (_single_impl m)) Hk ltac:(reflexivity) Hch) as Hnew.
    split_and!; [|done|intros _; by eexists]. split; cbn; rewrite ?Hs1; try done.
    + destruct Hv2' as [->| ->]; [done|by rewrite Hs2].
    + by left.
    + by apply Forall_forall.
  - destruct (ms_set _ _ s1) as [e s1'] eqn:He. destruct (catch_up _ _ _ _ Ho1 (Ho _ Hi2) He) as [Ho1' Hv1'].
    pose proof (newer_keeps _ _ _ (ms_value (_merged_impl m)) Hk Hch ltac:(reflexivity)) as Hnew.
    split_and!; [|done|intros _; by eexists]. split; cbn; rewrite ?Hs2; try done.
    + destruct Hv1' as [->| ->]; [done|by rewrite Hs1].
    + by right.
    + by apply Forall_forall.
Qed.

(** What a restart answers. *)
Lemma reopen_spec m v vs :
  linv (mkLife m v vs) ->
  let '(e, r, m', check) := reopen m in
  linv (mkLife m' v vs) /\ check = true /\ (e = OK -> exists w, r = Some w /\ w ∈ vs /\ value_le v w).
Proof using Type.
  intros Hinv. pose proof Hinv as [H1 H2 _ _ _ _ _ _]. unfold reopen.
  destruct (init (restart m)) as [e m1] eqn:Hi. destruct (init_restart m e m1 H1 H2 Hi) as [Hsame Hfresh].
  pose proof (linv_same m m1 v vs Hsame Hinv) as Hinv1.
  destruct (ok e) eqn:Hb; cbn [negb]; [|by split_and!; [..|intros ->]].
  destruct (Hfresh eq_refl) as (Hf1 & Hf2 & _). by apply mixed_get_spec.
Qed.

Lemma lsteps_inv l l' : rtc lstep l l' -> linv l -> linv l'.
Proof using Type.
  induction 1 as [|l1 l2 l3 Hstep _ IH]; [done|]. intros Hinv. apply IH. destruct Hstep as [t p e m m' v vs Hv Htop He|m v vs].
  - by eapply set_inv.
  - pose proof (reopen_spec m v vs Hinv) as Hr. destruct (reopen m) as [[[e r] m'] check]. by destruct Hr.
Qed.

End mixed.
