(* ===== verification/Storages.v ===== *)
(** * Storages: opening a storage by its uri, and collecting what a group has left

    [parse_uri] and [gc_dir] of [src/braft/storage.h], [src/braft/storage.cpp], the kinds
    of storage that [src/braft/raft.cpp] registers, their [gc_instance] and
    [gc_raft_data].  A directory is a path with the names it holds; no path lies inside
    another.  Each call to the file system consumes one outcome of the script, and
    succeeds once it is used up; a deletion that fails leaves some of the names. *)

From Stdlib Require Import String.
From S2P Require Import Prelude Types PeerText ProtoBufFile SingleMeta MergedMeta MixedMeta.

(** ** Uris *)

(** [StringPiece::trim_spaces] takes the blanks off both ends. *)
Fixpoint trim_right (s : string) : string :=
  match s with
  | EmptyString => EmptyString
  | String c s' => match trim_right s' with EmptyString => if is_space c then EmptyString else String c EmptyString | t => String c t end
  end.
Definition trim_spaces (s : string) : string := trim_right (skip_spaces s).

Fixpoint remove_spaces (s : string) : string :=
  match s with
  | EmptyString => EmptyString
  | String c s' => if is_space c then remove_spaces s' else String c (remove_spaces s')
  end.

(** [parse_uri]: the protocol, empty when there is none, and the parameter. *)
Definition parse_uri (uri : string) : string * string :=
  match String.index 0 "://" uri with
  | None => (EmptyString, EmptyString)
  | Some pos => (trim_spaces (String.substring 0 pos uri), remove_spaces (remove_prefix (pos + 3) uri))
  end.

(** [create] and [destroy] of the three kinds of storages: an extension finds a storage
    by its name. *)
Section extension.
Context {T : Type} (Find : string -> option T).

Definition create {S : Type} (new_instance : T -> string -> S) (uri : string) : option S :=
  let '(protocol, parameter) := parse_uri uri in
  match protocol with
  | EmptyString => None
  | _ => match Find protocol with None => None | Some type => Some (new_instance type parameter) end
  end.

Definition destroy {S E : Type} (gc_instance : T -> string -> M S E Errno) (uri : string) : M S E Errno :=
  let '(protocol, parameter) := parse_uri uri in
  match protocol with
  | EmptyString => mret EINVAL
  | _ => match Find protocol with None => mret EINVAL | Some type => gc_instance type parameter end
  end.
End extension.

(** ** The kinds of storage and their [gc_instance] *)
Inductive LogKind : Set := SegmentLogKind | MemoryLogKind.
Inductive MetaKind : Set := SingleMetaKind | MergedMetaKind | MixedMetaKind.
Inductive SnapshotKind : Set := LocalSnapshotKind.

(** [global_init_or_die_impl]. *)
Definition log_storage_extension (protocol : string) : option LogKind :=
  if String.eqb protocol "local" then Some SegmentLogKind
  else if String.eqb protocol "memory" then Some MemoryLogKind else None.
Definition meta_storage_extension (protocol : string) : option MetaKind :=
  if String.eqb protocol "local" then Some SingleMetaKind
  else if String.eqb protocol "local-merged" then Some MergedMetaKind
  else if String.eqb protocol "local-mixed" then Some MixedMetaKind else None.
Definition snapshot_storage_extension (protocol : string) : option SnapshotKind :=
  if String.eqb protocol "local" then Some LocalSnapshotKind else None.

(** [LogStorage::create], [SnapshotStorage::create] and [RaftMetaStorage::create]; what
    [new_instance] makes of a kind and a path is the storage's own. *)
Definition LogStorage_create {S : Type} (new_instance : LogKind -> string -> S) (uri : string) : option S :=
  create log_storage_extension new_instance uri.
Definition SnapshotStorage_create {S : Type} (new_instance : SnapshotKind -> string -> S) (uri : string) : option S :=
  create snapshot_storage_extension new_instance uri.
Definition RaftMetaStorage_create {S : Type} (new_instance : MetaKind -> string -> S) (uri : string) : option S :=
  create meta_storage_extension new_instance uri.

(** ** Directories *)
Inductive Outcome : Set := Done | Failed (kept : list string).

Section gc.
Context {Db : Type} `{LevelDB Db}.

(** What a collection touches: the directories, and the databases that this process has
    opened ([MetaStorageManager]). *)
Record World : Type := mkWorld { dirs : gmap string (list string); script : list Outcome; manager : Manager (Db := Db) }.
#[export] Instance World_eta : Settable World := fun d => mkWorld d.(dirs) d.(script) d.(manager).

Abbreviation DM := (M World Empty_set).

Definition outcome : DM Outcome := fun d =>
  match d.(script) with [] => (Done, d, []) | o :: rest => (o, d <| script := rest |>, []) end.

(** [butil::DeleteFile] of a directory: a missing one is a success. *)
Definition DeleteFile (path : string) : DM bool :=
  o ← outcome;
  d ← get;
  match d.(dirs) !! path, o with
  | None, Done => mret true
  | None, Failed _ => mret false
  | Some _, Done => modify (fun d => d <| dirs := delete path d.(dirs) |>) ;; mret true
  | Some names, Failed kept =>
      modify (fun d => d <| dirs := <[path := filter (fun n => n ∈ kept) names]> d.(dirs) |>) ;; mret false
  end.

(** [butil::ReplaceFile]: a rename. *)
Definition ReplaceFile (from to : string) : DM bool :=
  o ← outcome;
  d ← get;
  match o, d.(dirs) !! from with
  | Done, Some names => modify (fun d => d <| dirs := <[to := names]> (delete from d.(dirs)) |>) ;; mret true
  | _, _ => mret false
  end.

(** [gc_dir]. *)
Definition tmp_of (path : string) : string := (path ++ ".tmp")%string.
Definition gc_dir (path : string) : DM Errno :=
  let tmp_path := tmp_of path in
  deleted ← DeleteFile tmp_path;
  if negb deleted then mret ENEG1
  else
    d ← get;
    if bool_decide (is_Some (d.(dirs) !! path)) then
      renamed ← ReplaceFile path tmp_path;
      if negb renamed then mret ENEG1
      else
        deleted ← DeleteFile tmp_path;
        if negb deleted then mret ENEG1 else mret OK
    else mret OK.

(** ** [gc_instance] *)
Definition on_manager (f : Manager (Db := Db) -> Errno * Manager (Db := Db)) : DM Errno := fun d =>
  let '(rc, m) := f d.(manager) in (rc, d <| manager := m |>, []).

Definition gc_or (e : Errno) (path : string) : DM Errno :=
  rc ← gc_dir path; mret (if negb (ok rc) then e else OK).

Definition log_gc_instance (type : LogKind) (uri : string) : DM Errno :=
  match type with SegmentLogKind => gc_or EINVAL uri | MemoryLogKind => mret OK end.
Definition snapshot_gc_instance (type : SnapshotKind) (uri : string) : DM Errno := gc_or EINVAL uri.
Definition meta_gc_instance (vgid : string) (type : MetaKind) (uri : string) : DM Errno :=
  match type with
  | SingleMetaKind => gc_or EIO uri
  | MergedMetaKind => on_manager (MergedMeta.gc_instance uri vgid)
  | MixedMetaKind =>
      match parse_mixed_path uri with
      | None => mret EINVAL
      | Some (merged_path, single_path) =>
          rc ← gc_dir single_path;
          if negb (ok rc) then mret EIO
          else
            rc ← on_manager (remove_instance_from_meta_storage merged_path vgid);
            mret (if negb (ok rc) then EIO else OK)
      end
  end.

Definition LogStorage_destroy (uri : string) : DM Errno := destroy log_storage_extension log_gc_instance uri.
Definition RaftMetaStorage_destroy (vgid uri : string) : DM Errno := destroy meta_storage_extension (meta_gc_instance vgid) uri.
Definition SnapshotStorage_destroy (uri : string) : DM Errno := destroy snapshot_storage_extension snapshot_gc_instance uri.

(** [gc_raft_data]: the three are tried whatever becomes of the others. *)
Definition gc_raft_data (vgid log_uri raft_meta_uri snapshot_uri : string) : DM Z :=
  s1 ← LogStorage_destroy log_uri;
  s2 ← RaftMetaStorage_destroy vgid raft_meta_uri;
  s3 ← SnapshotStorage_destroy snapshot_uri;
  mret (if ok s1 && ok s2 && ok s3 then 0 else -1).

(** ** What a collection leaves *)

(** The directories a uri stands for. *)
Definition log_paths (uri : string) : list string :=
  match log_storage_extension (parse_uri uri).1 with Some SegmentLogKind => [(parse_uri uri).2] | _ => [] end.
Definition snapshot_paths (uri : string) : list string :=
  match snapshot_storage_extension (parse_uri uri).1 with Some LocalSnapshotKind => [(parse_uri uri).2] | _ => [] end.
Definition meta_paths (uri : string) : list string :=
  match meta_storage_extension (parse_uri uri).1 with
  | Some SingleMetaKind => [(parse_uri uri).2]
  | Some MixedMetaKind => match parse_mixed_path (parse_uri uri).2 with Some (_, single_path) => [single_path] | None => [] end
  | _ => []
  end.

(** Of the directories other than the temporary ones of [paths], those of [paths] are as
    they were or gone, the rest are as they were; on success the first are gone. *)
Definition collects (paths : list string) (e : bool) (d d' : World) : Prop :=
  (forall p, p ∉ map tmp_of paths -> d'.(dirs) !! p = d.(dirs) !! p \/ p ∈ paths /\ d'.(dirs) !! p = None) /\
  (e = true -> forall p, p ∈ paths -> p ∉ map tmp_of paths -> d'.(dirs) !! p = None).

Lemma collects_nothing e (d d' : World) : d'.(dirs) = d.(dirs) -> collects [] e d d'.
Proof. intros Hd. split; [intros p _; left; by rewrite Hd|]. intros _ p Hp. by apply not_elem_of_nil in Hp. Qed.

Lemma collects_app l1 l2 e1 e2 (d d1 d2 : World) : collects l1 e1 d d1 -> collects l2 e2 d1 d2 -> collects (l1 ++ l2) (e1 && e2) d d2.
Proof.
  intros [A1 B1] [A2 B2]. split.
  - intros p Hp. rewrite map_app in Hp. apply not_elem_of_app in Hp as [Hp1 Hp2].
    destruct (A2 p Hp2) as [H2|[Hin H2]]; [|right; split; [apply elem_of_app; by right|done]].
    destruct (A1 p Hp1) as [H1|[Hin H1]]; [left; congruence|]. right. split; [apply elem_of_app; by left|congruence].
  - intros [-> ->]%andb_true_iff p Hin Hp. rewrite map_app in Hp. apply not_elem_of_app in Hp as [Hp1 Hp2].
    apply elem_of_app in Hin as [Hin|Hin]; [|by apply B2].
    destruct (A2 p Hp2) as [H2|[_ H2]]; [|done]. rewrite H2. by apply B1.
Qed.

Lemma tmp_of_ne path : tmp_of path <> path.
Proof. intros Heq. apply (f_equal String.length) in Heq. unfold tmp_of in Heq. rewrite string_length_app in Heq. cbn in Heq. lia. Qed.

Lemma DeleteFile_run path (d : World) :
  let '(r, d', ev) := DeleteFile path d in
  (forall p, p <> path -> d'.(dirs) !! p = d.(dirs) !! p) /\ (r = true -> d'.(dirs) !! path = None).
Proof.
  unfold DeleteFile, mbind, M_bind, outcome, get, modify, mret, M_ret. destruct d as [ds [|[|kept] sc] m]; cbn;
    destruct (ds !! path) as [names|] eqn:Hn; cbn; split; try done; intros; by rewrite ?lookup_delete_ne, ?lookup_insert_ne, ?lookup_delete_eq by done.
Qed.
Lemma ReplaceFile_run from to (d : World) : from <> to ->
  let '(r, d', ev) := ReplaceFile from to d in
  (forall p, p <> from -> p <> to -> d'.(dirs) !! p = d.(dirs) !! p) /\
  (r = true -> d'.(dirs) !! from = None) /\ (r = false -> d'.(dirs) = d.(dirs)).
Proof.
  intros Hne. unfold ReplaceFile, mbind, M_bind, outcome, get, modify, mret, M_ret. destruct d as [ds [|[|kept] sc] m]; cbn;
    destruct (ds !! from) as [names|] eqn:Hn; cbn; split_and!; try done; intros;
    by rewrite ?lookup_insert_ne, ?lookup_delete_ne, ?lookup_delete_eq by done.
Qed.

(** [gc_dir] renames before it deletes: whatever fails, the directory is whole or gone. *)
Lemma gc_dir_collects path (d : World) :
  let '(e, d', ev) := gc_dir path d in collects [path] (ok e) d d'.
Proof.
  unfold gc_dir. pose proof (tmp_of_ne path) as Hne. unfold mbind, M_bind.
  pose proof (DeleteFile_run (tmp_of path) d) as H1. destruct (DeleteFile (tmp_of path) d) as [[r1 d1] ev1]. destruct H1 as [S1 _].
  assert (collects [path] false d d1) as C1.
  { split; [|done]. intros p Hp. left. apply S1. intros ->. by apply Hp; left. }
  destruct r1; [|exact C1]. cbn [negb]. unfold get. cbv beta iota.
  case_bool_decide as Hex; cbn.
  2:{ split; [apply C1|]. intros _ p ->%list_elem_of_singleton _. by apply eq_None_not_Some. }
  pose proof (ReplaceFile_run path (tmp_of path) d1 ltac:(done)) as H2. destruct (ReplaceFile path (tmp_of path) d1) as [[r2 d2] ev2].
  destruct H2 as (S2 & G2 & K2). destruct r2; cbn.
  2:{ split; [|done]. intros p Hp. rewrite K2 by done. by apply C1. }
  pose proof (DeleteFile_run (tmp_of path) d2) as H3. destruct (DeleteFile (tmp_of path) d2) as [[r3 d3] ev3]. destruct H3 as [S3 _].
  assert (forall b, collects [path] b d d3) as C3.
  { intros b. split.
    - intros p Hp. assert (p <> tmp_of path) as Hpt by (intros ->; by apply Hp; left). rewrite S3 by done.
      destruct (decide (p = path)) as [->|Hpp]; [right; split; [by left|by apply G2]|]. rewrite S2 by done. by apply C1.
    - intros _ p ->%list_elem_of_singleton _. rewrite S3 by done. by apply G2. }
  destruct r3; apply C3.
Qed.

Lemma gc_or_collects e path (d : World) : e <> OK ->
  let '(r, d', ev) := gc_or e path d in collects [path] (ok r) d d'.
Proof.
  intros He. unfold gc_or, mbind, M_bind. pose proof (gc_dir_collects path d) as Hc.
  destruct (gc_dir path d) as [[rc d'] ev]. cbn. destruct (ok rc); cbn; [exact Hc|].
  assert (ok e = false) as -> by (unfold ok; by rewrite bool_decide_eq_false). exact Hc.
Qed.

(** With no failing call the directory is gone. *)
Lemma gc_dir_succeeds path (d : World) : d.(script) = [] -> value_of (gc_dir path d) = OK.
Proof.
  destruct d as [ds sc m]. cbn. intros ->. pose proof (tmp_of_ne path) as Hne.
  unfold gc_dir, DeleteFile, ReplaceFile, mbind, M_bind, outcome, get, modify, mret, M_ret, value_of. cbn.
  destruct (ds !! tmp_of path) as [names|] eqn:Ht; cbn.
  - rewrite lookup_delete_ne by done. destruct (ds !! path) as [l|] eqn:Hp; cbn; [|done].
    rewrite lookup_delete_ne, Hp by done. cbn. by rewrite lookup_insert_eq.
  - destruct (ds !! path) as [l|] eqn:Hp; cbn; [|done]. rewrite Hp. cbn. by rewrite lookup_insert_eq.
Qed.

Lemma on_manager_dirs f (d : World) : (state_of (on_manager f d)).(dirs) = d.(dirs).
Proof. unfold on_manager. by destruct (f (manager d)). Qed.

Lemma destroy_log_collects uri (d : World) :
  let '(r, d', ev) := LogStorage_destroy uri d in collects (log_paths uri) (ok r) d d'.
Proof.
  unfold LogStorage_destroy, destroy, log_paths. destruct (parse_uri uri) as [protocol parameter]. cbn.
  destruct protocol as [|c s]; [by apply collects_nothing|].
  destruct (log_storage_extension (String c s)) as [[|]|]; [|by apply collects_nothing..]. by apply gc_or_collects.
Qed.
Lemma destroy_snapshot_collects uri (d : World) :
  let '(r, d', ev) := SnapshotStorage_destroy uri d in collects (snapshot_paths uri) (ok r) d d'.
Proof.
  unfold SnapshotStorage_destroy, destroy, snapshot_paths. destruct (parse_uri uri) as [protocol parameter]. cbn.
  destruct protocol as [|c s]; [by apply collects_nothing|].
  destruct (snapshot_storage_extension (String c s)) as [[]|]; [|by apply collects_nothing..]. by apply gc_or_collects.
Qed.
Lemma destroy_meta_collects vgid uri (d : World) :
  let '(r, d', ev) := RaftMetaStorage_destroy vgid uri d in collects (meta_paths uri) (ok r) d d'.
Proof.
  unfold RaftMetaStorage_destroy, destroy, meta_paths. destruct (parse_uri uri) as [protocol parameter]. cbn.
  destruct protocol as [|c s]; [by apply collects_nothing|].
  destruct (meta_storage_extension (String c s)) as [[| |]|]; cbn [meta_gc_instance].
  - by apply gc_or_collects.
  - pose proof (on_manager_dirs (MergedMeta.gc_instance parameter vgid) d) as Hd. unfold state_of in Hd.
    destruct (on_manager _ d) as [[r d'] ev]. by apply collects_nothing.
  - destruct (parse_mixed_path parameter) as [[merged_path single_path]|]; [|by apply collects_nothing].
    unfold mbind, M_bind. pose proof (gc_dir_collects single_path d) as Hc. destruct (gc_dir single_path d) as [[rc d1] ev1].
    destruct (ok rc) eqn:Hrc; cbn [negb]; [|exact Hc].
    pose proof (on_manager_dirs (remove_instance_from_meta_storage merged_path vgid) d1) as Hd. unfold state_of in Hd.
    destruct (on_manager _ d1) as [[rc2 d2] ev2]. cbn in Hd |- *.
    apply (collects_app [single_path] [] true _ d d1 d2); [exact Hc|by apply collects_nothing].
  - by apply collects_nothing.
Qed.

(** Whatever calls fail, the collection of a group touches no directory but those its
    uris stand for, and leaves each of these whole or gone (what is left of a deletion
    that failed is under a temporary name); when it reports success they are gone. *)
Theorem gc_is_all_or_nothing vgid log_uri raft_meta_uri snapshot_uri (d : World) :
  let '(r, d', _) := gc_raft_data vgid log_uri raft_meta_uri snapshot_uri d in
  let paths := log_paths log_uri ++ meta_paths raft_meta_uri ++ snapshot_paths snapshot_uri in
  (forall p, p ∉ map tmp_of paths -> d'.(dirs) !! p = d.(dirs) !! p \/ p ∈ paths /\ d'.(dirs) !! p = None) /\
  (r = 0 -> forall p, p ∈ paths -> p ∉ map tmp_of paths -> d'.(dirs) !! p = None).
Proof.
  unfold gc_raft_data, mbind, M_bind.
  pose proof (destroy_log_collects log_uri d) as C1. destruct (LogStorage_destroy _ d) as [[s1 d1] ev1].
  pose proof (destroy_meta_collects vgid raft_meta_uri d1) as C2. destruct (RaftMetaStorage_destroy _ _ d1) as [[s2 d2] ev2].
  pose proof (destroy_snapshot_collects snapshot_uri d2) as C3. destruct (SnapshotStorage_destroy _ d2) as [[s3 d3] ev3].
  cbn. pose proof (collects_app _ _ _ _ _ _ _ C1 (collects_app _ _ _ _ _ _ _ C2 C3)) as [A B]. rewrite andb_assoc in B.
  split; [exact A|]. destruct (ok s1 && ok s2 && ok s3); [by intros _; apply B|done].
Qed.
End gc.

(** ** Runs *)
Lemma parse_uri_runs :
  parse_uri "local://./data/log" = ("local", "./data/log")%string /\
  parse_uri " local-merged ://./a b" = ("local-merged", "./ab")%string /\
  parse_uri "./data/log" = ("", "")%string.
Proof. split_and!; vm_compute; reflexivity. Qed.

Section runs.
Context {Db : Type} `{LevelDB Db}.

(** The log and the snapshots of a group are collected; the second deletion of a name
    that fails leaves the rest under the temporary name. *)
Definition ex_dirs : gmap string (list string) :=
  {[ "log"%string := ["log_1"; "log_meta"]%string; "snap"%string := ["snapshot_9"%string]; "other"%string := ["x"%string] ]}.
Lemma collection_runs :
  let run sc := gc_raft_data "g" "local://log" "memory://none" "local://snap" (mkWorld (Db := Db) ex_dirs sc ∅) in
  (run []).1.1 = -1 /\ map_to_list (run []).1.2.(dirs) = [("other", ["x"])]%string /\
  (run [Done; Done; Failed ["log_meta"%string]]).1.2.(dirs) !! "log"%string = None /\
  (run [Done; Done; Failed ["log_meta"%string]]).1.2.(dirs) !! "log.tmp"%string = Some ["log_meta"%string].
Proof. split_and!; vm_compute; reflexivity. Qed.

(** A record in a merged storage that this process has not opened is not looked for: the
    collection reports success and has deleted nothing. *)
Lemma unopened_record_is_not_collected d : d.(manager (Db := Db)) = ∅ ->
  RaftMetaStorage_destroy "g" "local-merged://meta" d = (OK, d, []).
Proof. destruct d as [ds sc m]. cbn. intros ->. reflexivity. Qed.
End runs.
