(* ===== verification/MetaExamples.v ===== *)
(** * MetaExamples: runs of the storages of term and vote

    A message format, a small database whose calls fail as told, and the life of
    a group that moves from the file to both storages, with failed writes and a
    restart. *)

From Stdlib Require Strings.Byte.
From S2P Require Import Prelude Types PeerText Disk EntryCodec ProtoBufFile SingleMeta MergedMeta MixedMeta.

(** ** The parameters *)

(** The term in eight bytes, then the text of the vote. *)
Definition stable_message : PbMessage StablePBMeta.
Proof.
  refine {| pb_encode m := @pack64 big_endian (wrap_u64 m.(pb_term)) ++ String.list_byte_of_string m.(pb_votedfor);
            pb_decode b := mkStablePBMeta (wrap_i64 (@unpack64 big_endian (take 8 b))) (String.string_of_list_byte (drop 8 b));
            pb_valid m := - 2 ^ 63 <= m.(pb_term) < 2 ^ 63 /\ zlen (String.list_byte_of_string m.(pb_votedfor)) < 2 ^ 31 - 8 |}.
  - intros [t v] [Ht _]. cbn [pb_term pb_votedfor] in *.
    rewrite take_app_length', drop_app_length' by (by rewrite pack64_length).
    rewrite unpack_pack64 by apply wrap_u64_range. by rewrite wrap_i64_u64, String.string_of_list_byte_of_string.
  - intros [t v] [_ Hv]. cbn [pb_term pb_votedfor] in *. rewrite zlen_app. unfold zlen at 1. rewrite pack64_length. lia.
Defined.

(** A map, with how its next calls go. *)
Record TinyDb : Type := mkTinyDb { tiny_data : gmap string IOBuf; tiny_script : list bool }.
Definition tiny_call (d : TinyDb) : bool * TinyDb :=
  match d.(tiny_script) with
  | b :: sc => (b, mkTinyDb d.(tiny_data) sc)
  | [] => (true, d)
  end.

Lemma insert_all_put us (m : gmap string IOBuf) k :
  foldl (fun m u => <[u.1 := u.2]> m) m us !! k = put_all us (fun k => m !! k) k.
Proof.
  unfold put_all. revert m. induction us as [|u us IH]; intros m; [done|]. cbn. rewrite IH. f_equal.
  case_bool_decide as Hk; [subst k; apply lookup_insert_eq|by apply lookup_insert_ne].
Qed.

Definition tiny_db : LevelDB TinyDb.
Proof.
  refine {| db_open := tiny_call;
            db_write us d := let '(b, d) := tiny_call d in
              (b, if b then mkTinyDb (foldl (fun m u => <[u.1 := u.2]> m) d.(tiny_data) us) d.(tiny_script) else d);
            db_get k d := let '(b, d) := tiny_call d in
              (if b then match d.(tiny_data) !! k with Some v => DbFound v | None => DbNotFound end else DbFailed, d);
            db_delete k d := let '(b, d) := tiny_call d in
              (b, if b then mkTinyDb (delete k d.(tiny_data)) d.(tiny_script) else d);
            db_data d k := d.(tiny_data) !! k |}.
  - intros [m [|[] sc]] k; reflexivity.
  - intros us [m [|[] sc]]; cbn; [left|left|right]; try (intros k; apply insert_all_put). by split.
  - intros k [m [|[] sc]]; cbn; (split; [done|]); try done; by destruct (m !! k).
  - intros k [m [|[] sc]] j Hj; cbn; try done; by apply lookup_delete_ne.
  - intros k [m [|[] sc]]; cbn; try done; intros _; apply lookup_delete_eq.
Defined.

#[local] Existing Instances decimal_ip_text lex_endpoint_order big_endian stable_message tiny_db.

Definition peer_of (n : Z) : PeerId := mkPeerId (mkEndPoint 2130706433 n) 0 REPLICA.
Lemma peer_of_ok n : int32 n -> peer_ok (peer_of n).
Proof. intros Hn. split; [vm_compute; split; congruence|]. split; [done|vm_compute; split; congruence]. Qed.

Lemma value_of_ok t n : - 2 ^ 63 <= t < 2 ^ 63 -> int32 n -> zlen (String.list_byte_of_string (to_string (peer_of n))) < 2 ^ 31 - 8 -> value_ok (t, peer_of n).
Proof. intros Ht Hn Hl. split; [by apply peer_of_ok|]. by split. Qed.

(** ** Group commit *)
Definition three_tasks : list WriteTask :=
  [mkWriteTask 2 (peer_of 1) "a" 11; mkWriteTask 3 (peer_of 2) "b" 12; mkWriteTask 4 (peer_of 1) "a" 13].
Definition db_that_fails_once : MergedMeta := mkMergedMeta true (mkTinyDb ∅ [true; false]) [] [].

(** Batches of two: the first is written, the second is not. *)
Lemma run_writes_in_order_witness :
  let '(ran, m', _) := run 2 false three_tasks db_that_fails_once in
  ran = [(11%positive, OK); (12%positive, OK); (13%positive, EIO)] /\
  exists batches, mjoin batches = three_tasks /\ cut_full 2 batches /\
    m' = db_that_fails_once <| _db := (write_batches batches db_that_fails_once.(_db)).2 |>.
Proof.
  pose proof (run_writes_in_order 2 three_tasks db_that_fails_once ltac:(lia)) as H.
  destruct (run 2 false three_tasks db_that_fails_once) as [[ran m'] ev] eqn:Hrun.
  destruct H as (batches & Hj & Hc & Hm). split; [by vm_compute in Hrun; injection Hrun as <- _ _|].
  exists batches. split; [exact Hj|]. split; [exact Hc|].
  destruct (write_batches batches db_that_fails_once.(_db)) as [sts d]. exact (proj1 Hm).
Defined.

(** ** From one storage to two *)
Definition meta_reads : positive -> nat -> nat -> list ReadOutcome := fun _ _ _ => [ReadBytes 3; ReadIntr].

Abbreviation Single := (SingleMeta.SingleMeta (F := Z)).
Abbreviation Merged := (MergedMeta.MergedMeta (Db := TinyDb)).
#[local] Instance single_storage : MetaStorage Single := SingleMeta_storage (fun f => f + 1) 0 true meta_reads.
#[local] Instance merged_storage : MetaStorage Merged := MergedMeta_storage 2 "group".

Lemma meta_reads_work i o n : ReadError ∉ meta_reads i o n.
Proof. unfold meta_reads. rewrite !not_elem_of_cons. repeat split; try done. apply not_elem_of_nil. Qed.

#[local] Instance single_laws : MetaStorageLaws Single.
Proof. apply SingleMeta_laws; [lia|apply meta_reads_work]. Defined.
Lemma initial_value_ok : value_ok (1, ANY_PEER).
Proof. split; [repeat split; vm_compute; congruence|]. split; [vm_compute; split; congruence|vm_compute; reflexivity]. Qed.
#[local] Instance merged_laws : MetaStorageLaws Merged.
Proof. apply MergedMeta_laws, initial_value_ok. Defined.

(** The group used the file alone, up to term 7. *)
Definition blank : Single := FileBasedSingleMetaStorage (mkDisk ∅ ∅ 1 []).
Definition blank_started : Single := (ms_init (ms_restart blank)).2.
Definition in_term_7 : Single := (ms_set 7 (peer_of 1) blank_started).2.

Lemma value_small t n : - 100 <= t < 100 -> (n = 1 \/ n = 2) -> value_ok (t, peer_of n).
Proof.
  intros Ht [-> | ->]; (apply value_of_ok; [lia|vm_compute; split; congruence|vm_compute; reflexivity]).
Qed.

Lemma blank_ok : ms_ok blank.
Proof. split; [|by left]. split; intros f; [intros i Hf|intros g i Hf _]; cbn in Hf; by rewrite lookup_empty in Hf. Qed.

Lemma in_term_7_ok : ms_ok in_term_7 /\ ms_value in_term_7 = (7, peer_of 1).
Proof.
  destruct (ms_restart_law blank blank_ok) as [H0 _].
  destruct (ms_init_law _ _ _ H0 (surjective_pairing (ms_init (ms_restart blank)))) as [H1 _].
  destruct (ms_set_law 7 (peer_of 1) _ _ _ H1 (value_small 7 1 ltac:(lia) ltac:(by left)) (surjective_pairing _)) as [H2 _].
  split; [exact H2|]. vm_compute. reflexivity.
Qed.

(** The third write of the new storage fails. *)
Definition new_merged : Merged := mkMergedMeta false (mkTinyDb ∅ [true; true; true; true; false]) [] [].
Definition moved : MixedMeta (S1 := Single) (S2 := Merged) := mkMixedMeta false false in_term_7 new_merged.
Definition reopened : MixedMeta (S1 := Single) (S2 := Merged) := (reopen moved).1.2.
Definition half_written : Errno * MixedMeta (S1 := Single) (S2 := Merged) :=
  MixedMeta.set_term_and_votedfor 8 (peer_of 2) reopened.

Definition moved_life : Life (S1 := Single) (S2 := Merged) := mkLife moved (7, peer_of 1) [(7, peer_of 1); (1, ANY_PEER)].
Definition later_life : Life (S1 := Single) (S2 := Merged) :=
  mkLife half_written.2 (7, peer_of 1) [(8, peer_of 2); (7, peer_of 1); (1, ANY_PEER)].

Lemma moved_starts : starts moved_life.
Proof.
  destruct in_term_7_ok as [Hok Hval]. unfold starts. cbn -[ms_value ms_ok in_term_7]. rewrite Hval.
  assert (ms_value new_merged = (1, ANY_PEER)) as Hnew by reflexivity. rewrite Hnew.
  split; [exact Hok|]. split; [by split; [left|constructor]|].
  split; [by apply value_small; [lia|left]|]. split; [apply initial_value_ok|]. split; [done|]. split; [done|].
  left. split; [done|]. left. cbn. lia.
Qed.

Lemma moved_lives : rtc lstep moved_life later_life.
Proof.
  eapply rtc_l; [apply lstep_reopen|]. fold reopened. eapply rtc_l; [|apply rtc_refl].
  unfold later_life. assert (ok half_written.1 = false) as Hfail by (vm_compute; reflexivity).
  pose proof (lstep_set 8 (peer_of 2) half_written.1 reopened half_written.2 (7, peer_of 1) [(7, peer_of 1); (1, ANY_PEER)]) as Hstep.
  rewrite Hfail in Hstep. apply Hstep; [by apply value_small; [lia|right]| |apply surjective_pairing].
  repeat constructor; left; cbn; lia.
Qed.

