(* ===== verification/Ballot.v ===== *)
(** * Ballot: counting the votes of a quorum

    Models [src/braft/ballot.h] and [src/braft/ballot.cpp].  The iterator that
    [find_peer] returns is an index, [None] standing for [end()]. *)

From S2P Require Import Prelude Types.

Record PosHint : Set := mkPosHint { pos0 : Z; pos1 : Z }.

(** [PosHint()]. *)
Definition PosHint_default : PosHint := mkPosHint (-1) (-1).

Record UnfoundPeerId : Set := mkUnfound { peer_id : PeerId; found : bool }.

Record Ballot : Set := mkBallot {
  _peers : list UnfoundPeerId;
  _quorum : Z;
  _old_peers : list UnfoundPeerId;
  _old_quorum : Z
}.

(** [Ballot()]. *)
Definition Ballot_default : Ballot := mkBallot [] 0 [] 0.

Definition UnfoundPeerId_of (p : PeerId) : UnfoundPeerId := mkUnfound p false.

(** [Ballot::init]; [old_conf] is a pointer. *)
Definition init (conf : Configuration) (old_conf : option Configuration) : Ballot :=
  let peers := map UnfoundPeerId_of conf in
  let quorum := zlen peers / 2 + 1 in
  match old_conf with
  | None => mkBallot peers quorum [] 0
  | Some oc =>
      let old_peers := map UnfoundPeerId_of oc in
      mkBallot peers quorum old_peers (zlen old_peers / 2 + 1)
  end.

(** The linear scan of [find_peer]. *)
Fixpoint scan_peer (peer : PeerId) (peers : list UnfoundPeerId) : option nat :=
  match peers with
  | [] => None
  | u :: peers' => if peer_eqb u.(peer_id) peer then Some 0%nat else S <$> scan_peer peer peers'
  end.

(** [Ballot::find_peer]: the hint is used when it points at the peer. *)
Definition find_peer (peer : PeerId) (peers : list UnfoundPeerId) (pos_hint : Z) : option nat :=
  if (pos_hint <? 0) || (zlen peers <=? pos_hint)
     || negb (from_option (fun u => peer_eqb u.(peer_id) peer) false (zget peers pos_hint))
  then scan_peer peer peers
  else Some (Z.to_nat pos_hint).

(** One half of [Ballot::grant]: mark the peer and count the quorum down. *)
Definition grant_in (peer : PeerId) (peers : list UnfoundPeerId) (quorum hint : Z)
  : list UnfoundPeerId * Z * Z :=
  match find_peer peer peers hint with
  | None => (peers, quorum, -1)
  | Some i =>
      match peers !! i with
      | Some u =>
          if u.(found) then (peers, quorum, Z.of_nat i)
          else (<[i := mkUnfound u.(peer_id) true]> peers, quorum - 1, Z.of_nat i)
      | None => (peers, quorum, Z.of_nat i)
      end
  end.

(** [Ballot::grant(peer, hint)]. *)
Definition grant (b : Ballot) (peer : PeerId) (hint : PosHint) : Ballot * PosHint :=
  let '(ps, q, p0) := grant_in peer b.(_peers) b.(_quorum) hint.(pos0) in
  match b.(_old_peers) with
  | [] => (mkBallot ps q [] b.(_old_quorum), mkPosHint p0 (-1))
  | _ =>
      let '(ops, oq, p1) := grant_in peer b.(_old_peers) b.(_old_quorum) hint.(pos1) in
      (mkBallot ps q ops oq, mkPosHint p0 p1)
  end.

(** [Ballot::grant(peer)]. *)
Definition grant_nohint (b : Ballot) (peer : PeerId) : Ballot :=
  (grant b peer PosHint_default).1.

(** [Ballot::granted]. *)
Definition granted (b : Ballot) : bool := (b.(_quorum) <=? 0) && (b.(_old_quorum) <=? 0).

(** ** Specification: the set of peers that granted *)

Definition grants_of (gs : list PeerId) (p : PeerId) : bool := existsb (peer_eqb p) gs.
Arguments grants_of : simpl never.

(** A majority of [conf] is among the peers [gs]. *)
Definition majority (conf : Configuration) (gs : list PeerId) : Prop :=
  zlen conf / 2 + 1 <= zlen (filter (fun p => grants_of gs p = true) conf).

(** What a ballot over [conf] (and [old_conf] in the joint stage) promises. *)
Definition quorum_granted (conf : Configuration) (old_conf : option Configuration)
    (gs : list PeerId) : Prop :=
  majority conf gs /\ match old_conf with None => True | Some oc => majority oc gs end.

(** The half-ballot a list of grants leads to. *)
Definition half_of (conf : Configuration) (gs : list PeerId) : list UnfoundPeerId :=
  map (fun p => mkUnfound p (grants_of gs p)) conf.

Definition half_quorum (conf : Configuration) (gs : list PeerId) : Z :=
  zlen conf / 2 + 1 - zlen (filter (fun p => grants_of gs p = true) conf).

(** The ballot that stands for the grants [gs]. *)
Definition ballot_of (conf : Configuration) (old_conf : option Configuration)
    (gs : list PeerId) : Ballot :=
  mkBallot (half_of conf gs) (half_quorum conf gs)
    (from_option (fun oc => half_of oc gs) [] old_conf)
    (from_option (fun oc => half_quorum oc gs) 0 old_conf).

(** ** Lemmas *)

Section lemmas.
Context `{EPO : EndPointOrder}.

Lemma scan_peer_half conf gs p :
  scan_peer p (half_of conf gs) = fst <$> list_find (fun q => peer_eqb q p = true) conf.
Proof.
  unfold half_of. induction conf as [|q conf IH]; [done|].
  simpl. case_decide as Hq; simpl.
  - by rewrite Hq.
  - apply not_true_is_false in Hq. rewrite Hq, IH.
    by destruct (list_find _ conf) as [[i r]|].
Qed.

(** In a configuration the position of a peer is unique. *)
Lemma conf_position_unique conf p i j u v :
  conf_wf conf -> conf !! i = Some u -> conf !! j = Some v ->
  peer_eqb u p = true -> peer_eqb v p = true -> i = j.
Proof.
  intros Hwf. revert i j. induction conf as [|q conf IH]; intros i j; [done|].
  assert (forall k w, conf !! k = Some w -> peer_eqb q p = true -> peer_eqb w p = true -> False) as Hhd.
  { intros k w Hk Hq%peer_eqb_true Hw%peer_eqb_true. pose proof (conf_wf_head _ _ Hwf) as Hnot.
    rewrite Hq, <- Hw, contains_elem in Hnot; [done|]. by eapply list_elem_of_lookup_2. }
  destruct i as [|i], j as [|j]; simpl; intros Hi Hj Hu Hv; simplify_eq; try done.
  - exfalso. by eapply Hhd.
  - exfalso. by eapply Hhd.
  - f_equal. eapply IH; eauto using conf_wf_tail.
Qed.

Lemma find_peer_half conf gs p hint :
  conf_wf conf ->
  find_peer p (half_of conf gs) hint = fst <$> list_find (fun q => peer_eqb q p = true) conf.
Proof.
  intros Hwf. unfold find_peer. destruct (_ || _) eqn:Hb; [apply scan_peer_half|].
  rewrite !orb_false_iff, negb_false_iff in Hb. destruct Hb as [[Hlo Hhi] Hat].
  destruct (zget (half_of conf gs) hint) as [u|] eqn:Hu; [|done]. simpl in Hat.
  apply zget_Some in Hu as [_ Hu]. unfold half_of in Hu.
  rewrite list_lookup_fmap in Hu. destruct (conf !! Z.to_nat hint) as [q|] eqn:Hq; [|done].
  injection Hu as <-. simpl in Hat.
  destruct (list_find (fun q => peer_eqb q p = true) conf) as [[i r]|] eqn:Hf; simpl.
  - apply list_find_Some in Hf as (Hi & Hr & _). f_equal. by eapply conf_position_unique.
  - apply list_find_None in Hf. rewrite Forall_forall in Hf.
    exfalso. eapply Hf; [|exact Hat]. by eapply list_elem_of_lookup_2.
Qed.

Lemma grants_of_cons p gs q : grants_of (p :: gs) q = peer_eqb q p || grants_of gs q.
Proof. done. Qed.

(** Granting a peer that is not in the configuration changes nothing. *)
Lemma half_absent conf gs p :
  Forall (fun q => peer_eqb q p <> true) conf ->
  half_of conf (p :: gs) = half_of conf gs /\ half_quorum conf (p :: gs) = half_quorum conf gs.
Proof.
  intros Hall. unfold half_of, half_quorum. split.
  - apply map_ext_in. intros q Hq%list_elem_of_In. rewrite Forall_forall in Hall.
    by rewrite grants_of_cons, (not_true_is_false _ (Hall q Hq)).
  - f_equal. f_equal. induction Hall as [|q conf Hq Hall IH]; [done|].
    rewrite !filter_cons, grants_of_cons, (not_true_is_false _ Hq). simpl. by rewrite IH.
Qed.

Lemma zlen_half conf gs : zlen (half_of conf gs) = zlen conf.
Proof. unfold zlen, half_of. by rewrite length_map. Qed.

Lemma half_quorum_app c1 c2 gs n :
  n - zlen (filter (fun p => grants_of gs p = true) (c1 ++ c2)) =
  n - zlen (filter (fun p => grants_of gs p = true) c1)
    - zlen (filter (fun p => grants_of gs p = true) c2).
Proof. rewrite filter_app, zlen_app. lia. Qed.

(** Granting a peer at its only position. *)
Lemma half_present c1 q c2 gs p :
  peer_eqb q p = true ->
  Forall (fun r => peer_eqb r p <> true) c1 -> Forall (fun r => peer_eqb r p <> true) c2 ->
  half_of (c1 ++ q :: c2) (p :: gs) = half_of c1 gs ++ mkUnfound q true :: half_of c2 gs /\
  half_quorum (c1 ++ q :: c2) (p :: gs) =
    half_quorum (c1 ++ q :: c2) gs - (if grants_of gs q then 0 else 1).
Proof.
  intros Hq H1 H2. unfold half_quorum. rewrite !half_quorum_app, !filter_cons, grants_of_cons, Hq.
  destruct (half_absent _ gs _ H1) as [Hh1 Hq1], (half_absent _ gs _ H2) as [Hh2 Hq2].
  unfold half_quorum in Hq1, Hq2. simpl. split.
  - unfold half_of in *. rewrite map_app. simpl. by rewrite grants_of_cons, Hq, Hh1, Hh2.
  - case_decide as Hg; [rewrite Hg|rewrite (not_true_is_false _ Hg)];
      rewrite ?zlen_cons; lia.
Qed.

Lemma grant_in_half conf gs p hint :
  conf_wf conf ->
  exists pos, grant_in p (half_of conf gs) (half_quorum conf gs) hint =
    (half_of conf (p :: gs), half_quorum conf (p :: gs), pos).
Proof.
  intros Hwf. unfold grant_in. rewrite find_peer_half by done.
  destruct (list_find (fun q => peer_eqb q p = true) conf) as [[i q]|] eqn:Hf; simpl.
  - apply list_find_Some in Hf as (Hi & Hq & Hbefore).
    assert (exists c1 c2, conf = c1 ++ q :: c2 /\ length c1 = i) as (c1 & c2 & -> & <-).
    { exists (take i conf), (drop (S i) conf). split; [by rewrite take_drop_middle|].
      rewrite length_take. apply lookup_lt_Some in Hi. lia. }
    assert (forall j r, (c1 ++ q :: c2) !! j = Some r -> peer_eqb r p = true -> j = length c1) as Huniq.
    { intros j r Hj Hr. by eapply conf_position_unique. }
    assert (Forall (fun r => peer_eqb r p <> true) c1) as H1.
    { apply Forall_lookup. intros j r Hj Hr. pose proof (lookup_lt_Some _ _ _ Hj).
      rewrite (Huniq j r) in H; [lia| |done]. by apply lookup_app_l_Some. }
    assert (Forall (fun r => peer_eqb r p <> true) c2) as H2.
    { apply Forall_lookup. intros j r Hj Hr.
      assert (S (length c1 + j) = length c1) as ?; [|lia]. eapply Huniq; [|done].
      rewrite lookup_app_r by lia. by replace (S (length c1 + j) - length c1)%nat with (S j) by lia. }
    destruct (half_present c1 q c2 gs p Hq H1 H2) as [Hh Hhq].
    assert (half_of (c1 ++ q :: c2) gs = half_of c1 gs ++ mkUnfound q (grants_of gs q) :: half_of c2 gs) as Hcur.
    { unfold half_of. by rewrite map_app. }
    assert (length (half_of c1 gs) = length c1) as Hlen by (unfold half_of; by rewrite length_map).
    rewrite Hcur, Hh, Hhq, <- Hlen, list_lookup_middle by done. simpl.
    destruct (grants_of gs q); eexists; [by rewrite Z.sub_0_r|].
    rewrite <- (Nat.add_0_r (length (half_of c1 gs))) at 1. by rewrite insert_app_r.
  - apply list_find_None in Hf. destruct (half_absent _ gs _ Hf) as [-> ->]. by eexists.
Qed.

Lemma init_ballot_of conf old_conf : init conf old_conf = ballot_of conf old_conf [].
Proof.
  unfold init, ballot_of, half_quorum.
  assert (forall c, filter (fun p => grants_of [] p = true) c = []) as Hnil.
  { intros c. induction c as [|p c IH]; [done|]. by rewrite filter_cons. }
  assert (forall c, zlen (map UnfoundPeerId_of c) = zlen c) as Hlen.
  { intros c. unfold zlen. by rewrite length_map. }
  destruct old_conf as [oc|]; simpl; rewrite !Hnil, !Hlen, ?Z.sub_0_r; done.
Qed.

(** The step lemma: granting adds the peer, whatever the hint. *)
Lemma grant_ballot_of conf old_conf gs p hint :
  conf_wf conf -> from_option conf_wf True old_conf ->
  (grant (ballot_of conf old_conf gs) p hint).1 = ballot_of conf old_conf (p :: gs).
Proof.
  intros Hc Ho. unfold grant, ballot_of. simpl.
  destruct (grant_in_half conf gs p (pos0 hint) Hc) as [x0 ->].
  destruct old_conf as [[|o oc]|]; simpl in *; [done| |done].
  destruct (grant_in_half (o :: oc) gs p (pos1 hint) Ho) as [x1 Hx1].
  change (mkUnfound o (grants_of gs o) :: half_of oc gs) with (half_of (o :: oc) gs).
  by rewrite Hx1.
Qed.

Definition grant_all (b : Ballot) (gs : list (PeerId * PosHint)) : Ballot :=
  fold_left (fun b g => (grant b g.1 g.2).1) gs b.

Lemma grant_all_ballot_of conf old_conf gs0 gs :
  conf_wf conf -> from_option conf_wf True old_conf ->
  grant_all (ballot_of conf old_conf gs0) gs = ballot_of conf old_conf (rev gs.*1 ++ gs0).
Proof.
  intros Hc Ho. revert gs0. unfold grant_all. induction gs as [|[p h] gs IH]; intros gs0; [done|].
  simpl. rewrite grant_ballot_of, IH by done. by rewrite <- app_assoc.
Qed.

Lemma granted_ballot_of conf old_conf gs :
  granted (ballot_of conf old_conf gs) = true <-> quorum_granted conf old_conf gs.
Proof.
  unfold granted, quorum_granted, majority, ballot_of, half_quorum. simpl.
  rewrite andb_true_iff, !Z.leb_le. destruct old_conf; simpl; lia.
Qed.

Lemma majority_equiv conf gs gs' :
  (forall p, grants_of gs p = grants_of gs' p) -> majority conf gs <-> majority conf gs'.
Proof.
  intros H. unfold majority.
  enough (filter (fun p => grants_of gs p = true) conf = filter (fun p => grants_of gs' p = true) conf)
    as -> by done.
  induction conf as [|p conf IH]; [done|]. rewrite !filter_cons, H, IH. done.
Qed.

Lemma quorum_granted_equiv conf old_conf gs gs' :
  (forall p, grants_of gs p = grants_of gs' p) ->
  quorum_granted conf old_conf gs <-> quorum_granted conf old_conf gs'.
Proof.
  intros H. unfold quorum_granted. rewrite (majority_equiv conf gs gs' H).
  destruct old_conf as [oc|]; [|done]. by rewrite (majority_equiv oc gs gs' H).
Qed.

Lemma grants_of_rev gs p : grants_of (rev gs) p = grants_of gs p.
Proof.
  unfold grants_of. apply eq_true_iff_eq. rewrite !existsb_exists.
  split; intros (q & Hq & ?); exists q; (split; [|done]); [rewrite in_rev|rewrite <- in_rev]; done.
Qed.

Lemma granted_all_iff conf old_conf (gs : list (PeerId * PosHint)) :
  conf_wf conf -> from_option conf_wf True old_conf ->
  granted (grant_all (init conf old_conf) gs) = true <-> quorum_granted conf old_conf gs.*1.
Proof.
  intros Hc Ho. rewrite init_ballot_of, grant_all_ballot_of, granted_ballot_of by done.
  apply quorum_granted_equiv. intros p. rewrite app_nil_r. apply grants_of_rev.
Qed.

(** ** Properties *)

(** C32: a ballot started with [init] and granted any sequence of peers, each
    with an arbitrary position hint and in any order, with repetitions and
    outsiders, reports [granted] exactly when a majority of the configuration,
    and in the joint stage also of the old one, is among those peers. *)
Theorem ballot_refines_quorum conf old_conf (gs : list (PeerId * PosHint)) :
  conf_wf conf -> from_option conf_wf True old_conf ->
  granted (grant_all (init conf old_conf) gs) = true <->
  quorum_granted conf old_conf gs.*1.
Proof. apply granted_all_iff. Qed.

(** Two majorities of a configuration meet in one of its members. *)
Lemma majority_intersect conf gs1 gs2 :
  majority conf gs1 -> majority conf gs2 ->
  exists p, p ∈ conf /\ grants_of gs1 p = true /\ grants_of gs2 p = true.
Proof.
  unfold majority, zlen. intros H1 H2.
  apply (filter_overlap (fun p => grants_of gs1 p = true) (fun p => grants_of gs2 p = true)).
  pose proof (Z.div_mod (Z.of_nat (length conf)) 2 ltac:(lia)).
  pose proof (Z.mod_pos_bound (Z.of_nat (length conf)) 2 ltac:(lia)). lia.
Qed.

(** The configurations whose majority a ballot needs. *)
Definition voted_under (c conf : Configuration) (old_conf : option Configuration) : Prop :=
  c = conf \/ old_conf = Some c.

Lemma quorum_granted_majority c conf old_conf gs :
  voted_under c conf old_conf -> quorum_granted conf old_conf gs -> majority c gs.
Proof. unfold quorum_granted. intros [->| ->] [H1 H2]; [exact H1|exact H2]. Qed.

(** Quorum intersection.  Two granted ballots that share a configuration,
    as the current or as the old one of either, have a common member of it
    among their voters: a joint-stage ballot therefore meets the ballots of the
    old and of the new configuration, which election and commitment safety
    rest on. *)
Theorem granted_ballots_intersect c conf1 conf2 old1 old2 (gs1 gs2 : list (PeerId * PosHint)) :
  conf_wf conf1 -> conf_wf conf2 ->
  from_option conf_wf True old1 -> from_option conf_wf True old2 ->
  voted_under c conf1 old1 -> voted_under c conf2 old2 ->
  granted (grant_all (init conf1 old1) gs1) = true ->
  granted (grant_all (init conf2 old2) gs2) = true ->
  exists p, p ∈ c /\ grants_of gs1.*1 p = true /\ grants_of gs2.*1 p = true.
Proof.
  intros Hc1 Hc2 Ho1 Ho2 Hu1 Hu2 H1 H2.
  apply granted_all_iff in H1; [|done..]. apply granted_all_iff in H2; [|done..].
  apply majority_intersect; [exact (quorum_granted_majority _ _ _ _ Hu1 H1)
                            |exact (quorum_granted_majority _ _ _ _ Hu2 H2)].
Qed.

End lemmas.

(** ** Examples *)
Section examples.
#[local] Existing Instance lex_endpoint_order.

Definition example_peer (i : Z) : PeerId := mkPeerId (mkEndPoint 1 i) 0 REPLICA.
Definition example_conf (l : list Z) : Configuration := map example_peer l.

Lemma example_conf_wf : conf_wf (example_conf [1; 2; 3]).
Proof. by repeat constructor. Qed.
Lemma example_conf4_wf : conf_wf (example_conf [1; 2; 3; 4]).
Proof. by repeat constructor. Qed.

Lemma ballot_refines_quorum_witness :
  granted (grant_all (init (example_conf [1; 2; 3]) (Some (example_conf [1; 2; 3; 4])))
    [(example_peer 3, mkPosHint 7 2); (example_peer 3, PosHint_default);
     (example_peer 1, mkPosHint 2 0); (example_peer 2, mkPosHint 0 0)]) = true /\
  quorum_granted (example_conf [1; 2; 3]) (Some (example_conf [1; 2; 3; 4]))
    [example_peer 3; example_peer 3; example_peer 1; example_peer 2].
Proof.
  split; [by vm_compute|].
  apply (ballot_refines_quorum (example_conf [1; 2; 3]) (Some (example_conf [1; 2; 3; 4]))
    [(example_peer 3, mkPosHint 7 2); (example_peer 3, PosHint_default);
     (example_peer 1, mkPosHint 2 0); (example_peer 2, mkPosHint 0 0)]);
    [exact example_conf_wf|exact example_conf4_wf|by vm_compute].
Defined.

Lemma granted_ballots_intersect_witness :
  exists p, p ∈ example_conf [1; 2; 3] /\
    grants_of [example_peer 1; example_peer 2] p = true /\
    grants_of [example_peer 2; example_peer 3; example_peer 4] p = true.
Proof.
  apply (granted_ballots_intersect (example_conf [1; 2; 3]) (example_conf [1; 2; 3])
    (example_conf [1; 2; 3; 4]) None (Some (example_conf [1; 2; 3]))
    [(example_peer 1, PosHint_default); (example_peer 2, PosHint_default)]
    [(example_peer 2, PosHint_default); (example_peer 3, PosHint_default);
     (example_peer 4, PosHint_default)]);
    [exact example_conf_wf|exact example_conf4_wf|done|exact example_conf_wf
    |by left|by right|by vm_compute|by vm_compute].
Defined.
End examples.
