(* ===== verification/ClosureQueue.v ===== *)
(** * ClosureQueue: the user closures waiting for their log to be committed

    Models [src/braft/closure_queue.h] and [src/braft/closure_queue.cpp].  A
    closure that is run is an output event carrying the status it is run with. *)

From S2P Require Import Prelude.

Record ClosureQueue : Set := mkClosureQueue {
  _first_index : Z;
  _queue : list (option Closure)
}.

Inductive Event : Set :=
| RunClosure (c : Closure) (status : Errno)
| CheckFailed.

#[export] Instance Event_eq_dec : EqDecision Event.
Proof. solve_decision. Defined.

(** [ClosureQueue::ClosureQueue]. *)
Definition ClosureQueue_default : ClosureQueue := mkClosureQueue 0 [].

(** [ClosureQueue::clear]: every waiting closure is run with [EPERM]. *)
Definition clear (q : ClosureQueue) : ClosureQueue * list Event :=
  (mkClosureQueue 0 [],
   omap (fun c => c' ← c; Some (RunClosure c' EPERM)) q.(_queue)).

(** [ClosureQueue::reset_first_index], with its [CHECK(_queue.empty())]. *)
Definition reset_first_index (q : ClosureQueue) (first_index : Z) : ClosureQueue * list Event :=
  (mkClosureQueue first_index q.(_queue),
   match q.(_queue) with [] => [] | _ => [CheckFailed] end).

Definition append_pending_closure (q : ClosureQueue) (c : option Closure) : ClosureQueue :=
  mkClosureQueue q.(_first_index) (q.(_queue) ++ [c]).

(** What [pop_closure_until] returns; [out_first_index] is not written on error. *)
Record PopResult : Set := mkPopResult {
  ret : Errno;
  out : list (option Closure);
  out_first_index : option Z
}.

(** The loop that moves the front of the queue to [out], [n] times. *)
Fixpoint pop_loop (n : nat) (queue out : list (option Closure))
  : list (option Closure) * list (option Closure) :=
  match n, queue with
  | S n', c :: queue' => pop_loop n' queue' (out ++ [c])
  | _, _ => (queue, out)
  end.

(** [ClosureQueue::pop_closure_until]. *)
Definition pop_closure_until (q : ClosureQueue) (index : Z)
  : PopResult * ClosureQueue * list Event :=
  if bool_decide (q.(_queue) = []) || (index <? q.(_first_index)) then
    (mkPopResult OK [] (Some (index + 1)), q, [])
  else if q.(_first_index) + zlen q.(_queue) - 1 <? index then
    (mkPopResult ENEG1 [] None, q, [CheckFailed])
  else
    let n := Z.to_nat (index - q.(_first_index) + 1) in
    let '(queue', out) := pop_loop n q.(_queue) [] in
    (mkPopResult OK out (Some q.(_first_index)), mkClosureQueue (index + 1) queue', []).

(** ** Specification: a map from log index to closure *)

(** The closure registered for log [i]: [None] when the queue does not reach
    it, [Some None] for a task without a closure. *)
Definition closure_at (q : ClosureQueue) (i : Z) : option (option Closure) :=
  zget q.(_queue) (i - q.(_first_index)).

(** One past the last index the queue covers. *)
Definition next_index (q : ClosureQueue) : Z := q.(_first_index) + zlen q.(_queue).

Lemma pop_loop_spec n queue out :
  pop_loop n queue out = (drop n queue, out ++ take n queue).
Proof.
  revert queue out. induction n as [|n IH]; intros [|c queue] out; simpl;
    rewrite ?app_nil_r; try done.
  by rewrite IH, <- app_assoc.
Qed.

Lemma zget_drop {A} (l : list A) n i :
  0 <= n -> 0 <= i -> zget (drop (Z.to_nat n) l) i = zget l (n + i).
Proof.
  intros Hn Hi. unfold zget. rewrite !bool_decide_false by lia.
  rewrite lookup_drop. f_equal. lia.
Qed.

Lemma zget_take {A} (l : list A) n i :
  i < n -> zget (take (Z.to_nat n) l) i = zget l i.
Proof.
  intros Hn. unfold zget. case_bool_decide; [done|]. by rewrite lookup_take_lt by lia.
Qed.

Lemma closure_at_append q c i :
  closure_at (append_pending_closure q c) i =
  if bool_decide (i = next_index q) then Some c else closure_at q i.
Proof.
  unfold closure_at, next_index, append_pending_closure. simpl.
  unfold zget, zlen. repeat case_bool_decide; subst; try lia; try done.
  - replace (Z.to_nat _) with (length (_queue q)) by lia. by rewrite list_lookup_middle.
  - destruct (decide (i - _first_index q < Z.of_nat (length (_queue q)))).
    + apply lookup_app_l. lia.
    + rewrite lookup_ge_None_2 by (rewrite length_app; simpl; lia).
      symmetry. apply lookup_ge_None_2. lia.
Qed.

(** [pop_closure_until], asked for an index the queue covers or has passed,
    succeeds without a failed check and hands out exactly the closures of the
    indexes up to the one asked for, each at its own offset from
    [out_first_index], and leaves exactly the later ones, under their own
    index: nothing is lost, handed out twice or shifted. *)
Theorem pop_closure_until_spec q index :
  index < next_index q ->
  let '(r, q', ev) := pop_closure_until q index in
  exists f, r.(ret) = OK /\ r.(out_first_index) = Some f /\ ev = [] /\
    (r.(out) = [] -> f = index + 1) /\
    (forall i, f <= i <= index -> zget r.(out) (i - f) = closure_at q i /\ is_Some (closure_at q i)) /\
    zlen r.(out) = index + 1 - f /\
    (forall i, index < i -> closure_at q' i = closure_at q i) /\
    (forall i, i <= index -> closure_at q' i = None) /\
    next_index q' = next_index q.
Proof.
  unfold pop_closure_until, next_index, closure_at. intros Hidx.
  case_bool_decide as Hq; simpl.
  { exists (index + 1). rewrite Hq. split_and!; try done; try lia; try (intros; exfalso; lia).
    - rewrite zlen_nil; lia.
    - intros i _. unfold zget. by case_bool_decide. }
  destruct (Z.ltb_spec index (_first_index q)) as [Hlt|Hge]; simpl.
  { exists (index + 1). split_and!; try done; try lia; try (intros; exfalso; lia); [rewrite zlen_nil; lia|].
    intros i Hi. unfold zget. by rewrite bool_decide_true by lia. }
  destruct (Z.ltb_spec (_first_index q + zlen (_queue q) - 1) index) as [?|_]; [lia|].
  rewrite pop_loop_spec. simpl. set (n := index - _first_index q + 1).
  unfold zlen in *. exists (_first_index q). rewrite length_take, length_drop. split_and!; try done.
  - intros Hnil%(f_equal length). rewrite length_take in Hnil. simpl in Hnil. lia.
  - intros i Hi. rewrite zget_take by lia. split; [done|].
    destruct (zget_is_Some (_queue q) (i - _first_index q)) as [x Hx]; [unfold zlen; lia|by exists x].
  - lia.
  - intros i Hi. rewrite zget_drop by lia. f_equal. lia.
  - intros i Hi. unfold zget. by rewrite bool_decide_true by lia.
  - lia.
Qed.

Lemma pop_closure_until_next q index :
  index < next_index q -> next_index (pop_closure_until q index).1.2 = next_index q /\
  (pop_closure_until q index).2 = [].
Proof.
  intros Hidx. unfold pop_closure_until, next_index in *.
  case_bool_decide; simpl; [done|].
  destruct (Z.ltb_spec index (_first_index q)); simpl; [done|].
  destruct (Z.ltb_spec (_first_index q + zlen (_queue q) - 1) index); [lia|].
  rewrite pop_loop_spec. simpl. unfold zlen in *. rewrite length_drop. split; [lia|done].
Qed.

Lemma pop_closure_until_spec_witness :
  2 < next_index (mkClosureQueue 1 [Some 7%positive; None; Some 9%positive]) /\
  let '(r, q', ev) := pop_closure_until (mkClosureQueue 1 [Some 7%positive; None; Some 9%positive]) 2 in
  exists f, r.(ret) = OK /\ r.(out_first_index) = Some f /\ ev = [] /\
    (r.(out) = [] -> f = 2 + 1) /\
    (forall i, f <= i <= 2 -> zget r.(out) (i - f) =
       closure_at (mkClosureQueue 1 [Some 7%positive; None; Some 9%positive]) i /\
       is_Some (closure_at (mkClosureQueue 1 [Some 7%positive; None; Some 9%positive]) i)) /\
    zlen r.(out) = 2 + 1 - f /\
    (forall i, 2 < i -> closure_at q' i =
       closure_at (mkClosureQueue 1 [Some 7%positive; None; Some 9%positive]) i) /\
    (forall i, i <= 2 -> closure_at q' i = None) /\
    next_index q' = next_index (mkClosureQueue 1 [Some 7%positive; None; Some 9%positive]).
Proof.
  split; [by vm_compute|].
  exact (pop_closure_until_spec (mkClosureQueue 1 [Some 7%positive; None; Some 9%positive]) 2
    ltac:(by vm_compute)).
Defined.
