(* ===== verification/BallotBox.v ===== *)
(** * BallotBox: which log entries a quorum has made stable

    Models [src/braft/ballot_box.h] and [src/braft/ballot_box.cpp].  The
    closure queue the box drives is part of its state; the call
    [_waiter->on_committed] is the output event [OnCommitted].  Every method
    holds [_mutex] for its whole effect on the state, so each one is an atomic
    step. *)

From S2P Require Import Prelude Types Ballot ClosureQueue.

Record BallotBox : Set := mkBallotBox {
  _last_committed_index : Z;
  _pending_index : Z;
  _pending_meta_queue : list Ballot;
  _closure_queue : ClosureQueue
}.

Inductive Event : Set :=
| OnCommitted (i : Z)
| OnQueue (e : ClosureQueue.Event)
| CheckFailed.

(** [BallotBox::BallotBox] over a fresh closure queue. *)
Definition BallotBox_default : BallotBox := mkBallotBox 0 0 [] ClosureQueue_default.

(** [BallotBox::init]: both pointers of the options must be set. *)
Record BallotBoxOptions : Set := mkBallotBoxOptions {
  waiter : option positive;
  closure_queue : option ClosureQueue
}.
Definition init (bb : BallotBox) (options : BallotBoxOptions) : Errno * BallotBox :=
  match options.(waiter), options.(closure_queue) with
  | Some _, Some q =>
      (OK, mkBallotBox bb.(_last_committed_index) bb.(_pending_index) bb.(_pending_meta_queue) q)
  | _, _ => (EINVAL, bb)
  end.

(** The granting loop of [commit_at]: [n] iterations from [log_index]. *)
Fixpoint commit_loop (n : nat) (pending : Z) (peer : PeerId) (queue : list Ballot)
    (pos_hint : PosHint) (log_index last_committed : Z) : list Ballot * Z :=
  match n with
  | O => (queue, last_committed)
  | S n' =>
      match zget queue (log_index - pending) with
      | None => (queue, last_committed)
      | Some bl =>
          let '(bl', pos_hint') := Ballot.grant bl peer pos_hint in
          let queue' := <[Z.to_nat (log_index - pending) := bl']> queue in
          commit_loop n' pending peer queue' pos_hint' (log_index + 1)
            (if granted bl' then log_index else last_committed)
      end
  end.

(** [BallotBox::commit_at]. *)
Definition commit_at (bb : BallotBox) (first_log_index last_log_index : Z) (peer : PeerId)
  : Errno * BallotBox * list Event :=
  let pending := bb.(_pending_index) in
  let queue := bb.(_pending_meta_queue) in
  if pending =? 0 then (EINVAL, bb, [])
  else if last_log_index <? pending then (OK, bb, [])
  else if pending + zlen queue <=? last_log_index then (ERANGE, bb, [])
  else
    let start_at := Z.max pending first_log_index in
    let '(queue', last_committed) :=
      commit_loop (Z.to_nat (last_log_index - start_at + 1)) pending peer queue
        PosHint_default start_at 0 in
    if last_committed =? 0 then
      (OK, mkBallotBox bb.(_last_committed_index) pending queue' bb.(_closure_queue), [])
    else
      (OK,
       mkBallotBox last_committed (last_committed + 1)
         (drop (Z.to_nat (last_committed - pending + 1)) queue') bb.(_closure_queue),
       [OnCommitted last_committed]).

(** [BallotBox::clear_pending_tasks]. *)
Definition clear_pending_tasks (bb : BallotBox) : BallotBox * list Event :=
  let '(q', ev) := ClosureQueue.clear bb.(_closure_queue) in
  (mkBallotBox bb.(_last_committed_index) 0 [] q', map OnQueue ev).

(** [BallotBox::reset_pending_index]. *)
Definition reset_pending_index (bb : BallotBox) (new_pending_index : Z) : BallotBox * list Event :=
  let c1 := if (bb.(_pending_index) =? 0) && bool_decide (bb.(_pending_meta_queue) = [])
            then [] else [CheckFailed] in
  let c2 := if bb.(_last_committed_index) <? new_pending_index then [] else [CheckFailed] in
  let '(q', ev) := ClosureQueue.reset_first_index bb.(_closure_queue) new_pending_index in
  (mkBallotBox bb.(_last_committed_index) new_pending_index bb.(_pending_meta_queue) q',
   c1 ++ c2 ++ map OnQueue ev).

(** [BallotBox::append_pending_task]; [Ballot::init] never fails. *)
Definition append_pending_task (bb : BallotBox) (conf : Configuration)
    (old_conf : option Configuration) (closure : option Closure) : BallotBox * list Event :=
  (mkBallotBox bb.(_last_committed_index) bb.(_pending_index)
     (bb.(_pending_meta_queue) ++ [Ballot.init conf old_conf])
     (append_pending_closure bb.(_closure_queue) closure),
   if 0 <? bb.(_pending_index) then [] else [CheckFailed]).

(** [BallotBox::set_last_committed_index]. *)
Definition set_last_committed_index (bb : BallotBox) (last_committed_index : Z)
  : Errno * BallotBox * list Event :=
  if negb (bb.(_pending_index) =? 0) || negb (bool_decide (bb.(_pending_meta_queue) = [])) then
    (ENEG1, bb, if last_committed_index <? bb.(_pending_index) then [] else [CheckFailed])
  else if last_committed_index <? bb.(_last_committed_index) then (EINVAL, bb, [])
  else if bb.(_last_committed_index) <? last_committed_index then
    (OK,
     mkBallotBox last_committed_index bb.(_pending_index) bb.(_pending_meta_queue) bb.(_closure_queue),
     [OnCommitted last_committed_index])
  else (OK, bb, []).

(** [BallotBox::get_status]. *)
Record BallotBoxStatus : Set := mkBallotBoxStatus {
  committed_index : Z;
  pending_index : Z;
  pending_queue_size : Z
}.
Definition get_status (bb : BallotBox) (status : BallotBoxStatus) : BallotBoxStatus :=
  match bb.(_pending_meta_queue) with
  | [] => mkBallotBoxStatus bb.(_last_committed_index) status.(pending_index) status.(pending_queue_size)
  | q => mkBallotBoxStatus bb.(_last_committed_index) bb.(_pending_index) (zlen q)
  end.

(** The FSM caller pops the closures of the committed logs from the shared queue. *)
Definition pop_committed (bb : BallotBox) (index : Z) : PopResult * BallotBox * list Event :=
  let '(r, q', ev) := pop_closure_until bb.(_closure_queue) index in
  (r, mkBallotBox bb.(_last_committed_index) bb.(_pending_index) bb.(_pending_meta_queue) q',
   map OnQueue ev).

(** ** Specification of a pending entry: who must vote, and who did *)
Record Pending : Set := mkPending {
  p_conf : Configuration;
  p_old : option Configuration;
  p_votes : list PeerId
}.

Definition ballot_of_pending (p : Pending) : Ballot := ballot_of p.(p_conf) p.(p_old) p.(p_votes).
Definition vote (peer : PeerId) (p : Pending) : Pending :=
  mkPending p.(p_conf) p.(p_old) (peer :: p.(p_votes)).
Definition chosen (p : Pending) : Prop := quorum_granted p.(p_conf) p.(p_old) p.(p_votes).

(** The votes of the entries at offsets [k .. k+n-1] get [peer] added. *)
Definition vote_range (peer : PeerId) (k n : nat) (ps : list Pending) : list Pending :=
  take k ps ++ map (vote peer) (take n (drop k ps)) ++ drop (k + n) ps.

Section box.
Context `{EPO : EndPointOrder}.

Definition pending_wf (p : Pending) : Prop :=
  conf_wf p.(p_conf) /\ from_option conf_wf True p.(p_old).

Lemma granted_pending p : granted (ballot_of_pending p) = true <-> chosen p.
Proof. apply granted_ballot_of. Qed.

Lemma grant_pending p peer hint :
  pending_wf p -> (Ballot.grant (ballot_of_pending p) peer hint).1 = ballot_of_pending (vote peer p).
Proof. intros [? ?]. by apply grant_ballot_of. Qed.

Lemma vote_range_cons_skip peer k n p ps :
  vote_range peer (S k) n (p :: ps) = p :: vote_range peer k n ps.
Proof. done. Qed.

Lemma vote_range_step peer k n ps p :
  ps !! k = Some p ->
  vote_range peer (S k) n (<[k := vote peer p]> ps) = vote_range peer k (S n) ps.
Proof.
  revert k. induction ps as [|q ps IH]; intros [|k] Hk; simplify_eq/=.
  - unfold vote_range. simpl. done.
  - rewrite !vote_range_cons_skip. f_equal. by apply IH.
Qed.

(** What the granting loop computes, in terms of the specification. *)
Lemma commit_loop_spec n pending peer ps hint k lc :
  Forall pending_wf ps -> (k + n <= length ps)%nat ->
  exists lc',
    commit_loop n pending peer (ballot_of_pending <$> ps) hint (pending + Z.of_nat k) lc =
      (ballot_of_pending <$> vote_range peer k n ps, lc') /\
    ((lc' = lc /\ forall j p, (k <= j < k + n)%nat -> ps !! j = Some p -> ~ chosen (vote peer p)) \/
     (exists j p, (k <= j < k + n)%nat /\ ps !! j = Some p /\ lc' = pending + Z.of_nat j /\
        chosen (vote peer p) /\
        forall j' p', (j < j' < k + n)%nat -> ps !! j' = Some p' -> ~ chosen (vote peer p'))).
Proof.
  revert ps hint k lc. induction n as [|n IH]; intros ps hint k lc Hwf Hlen; simpl.
  { exists lc. split; [|left; split; [done|intros; lia]]. do 2 f_equal.
    unfold vote_range. rewrite take_0, Nat.add_0_r. simpl. by rewrite take_drop. }
  destruct (lookup_lt_is_Some_2 ps k) as [p Hp]; [lia|].
  replace (pending + Z.of_nat k - pending) with (Z.of_nat k) by lia.
  assert (zget (ballot_of_pending <$> ps) (Z.of_nat k) = Some (ballot_of_pending p)) as ->.
  { apply zget_Some. split; [lia|]. by rewrite Nat2Z.id, list_lookup_fmap, Hp. }
  assert (pending_wf p) as Hpw by (by eapply Forall_lookup_1).
  pose proof (grant_pending p peer hint Hpw) as Hg.
  destruct (Ballot.grant (ballot_of_pending p) peer hint) as [bl' hint']. simpl in Hg. subst bl'.
  rewrite Nat2Z.id, <- list_fmap_insert.
  replace (pending + Z.of_nat k + 1) with (pending + Z.of_nat (S k)) by lia.
  destruct (IH (<[k := vote peer p]> ps) hint' (S k)
              (if granted (ballot_of_pending (vote peer p)) then pending + Z.of_nat k else lc))
    as (lc' & -> & Hlc).
  { apply Forall_insert; done. }
  { rewrite length_insert. lia. }
  rewrite (vote_range_step peer k n ps p Hp). exists lc'. split; [done|].
  assert (forall j, (S k <= j)%nat -> <[k := vote peer p]> ps !! j = ps !! j) as Hother.
  { intros j Hj. apply list_lookup_insert_ne. lia. }
  destruct Hlc as [[-> Hnone]|(j & q & Hj & Hq & -> & Hch & Hlater)].
  - destruct (granted (ballot_of_pending (vote peer p))) eqn:Hgr.
    + right. exists k, p. split_and!; [lia|lia|done|done|by apply granted_pending|].
      intros j' p' Hj' Hp'. apply (Hnone j' p'); [lia|]. rewrite Hother by lia. done.
    + left. split; [done|]. intros j q Hj Hq. destruct (decide (j = k)) as [->|].
      * simplify_eq. rewrite <- granted_pending. by rewrite Hgr.
      * apply (Hnone j q); [lia|]. rewrite Hother by lia. done.
  - right. exists j, q. rewrite Hother in Hq by lia. split_and!; try done; try lia.
    intros j' p' Hj' Hp'. apply (Hlater j' p'); [lia|]. rewrite Hother by lia. done.
Qed.

(** ** The state invariant *)

(** [represents bb ps]: the ballots of the pending queue stand for [ps]. *)
Definition represents (bb : BallotBox) (ps : list Pending) : Prop :=
  bb.(_pending_meta_queue) = ballot_of_pending <$> ps /\ Forall pending_wf ps.

(** While the node leads, the closure queue ends where the ballot queue ends,
    and no index at or above [_pending_index] is committed; otherwise both
    queues are empty. *)
Definition bb_wf (bb : BallotBox) : Prop :=
  (exists ps, represents bb ps) /\
  0 <= bb.(_last_committed_index) /\
  (bb.(_pending_index) = 0 ->
     bb.(_pending_meta_queue) = [] /\ bb.(_closure_queue) = ClosureQueue_default) /\
  (bb.(_pending_index) <> 0 ->
     bb.(_last_committed_index) < bb.(_pending_index) /\
     next_index bb.(_closure_queue) = bb.(_pending_index) + zlen bb.(_pending_meta_queue)).

(** The branches of [commit_at] on which no entry gets a vote. *)
Lemma commit_at_idle bb first last peer :
  bb.(_pending_index) = 0 \/ last < bb.(_pending_index) \/
  bb.(_pending_index) + zlen bb.(_pending_meta_queue) <= last \/ last < first ->
  exists r, commit_at bb first last peer = (r, bb, []).
Proof.
  intros Hc. unfold commit_at.
  destruct (Z.eqb_spec (_pending_index bb) 0); [by eexists|].
  destruct (Z.ltb_spec last (_pending_index bb)); [by eexists|].
  destruct (Z.leb_spec (_pending_index bb + zlen (_pending_meta_queue bb)) last); [by eexists|].
  replace (Z.to_nat _) with 0%nat by lia. simpl. exists OK. by destruct bb.
Qed.

(** [commit_at] in terms of the specification, on the other ones. *)
Lemma commit_at_spec bb ps first last peer :
  represents bb ps -> 0 < bb.(_pending_index) -> first <= last ->
  bb.(_pending_index) <= last < bb.(_pending_index) + zlen ps ->
  let start := Z.to_nat (Z.max bb.(_pending_index) first - bb.(_pending_index)) in
  let n := Z.to_nat (last - Z.max bb.(_pending_index) first + 1) in
  let ps' := vote_range peer start n ps in
  let '(r, bb', ev) := commit_at bb first last peer in
  r = OK /\ bb'.(_closure_queue) = bb.(_closure_queue) /\
  ((bb'.(_last_committed_index) = bb.(_last_committed_index) /\
    bb'.(_pending_index) = bb.(_pending_index) /\ represents bb' ps' /\ ev = [] /\
    (forall j p, (start <= j < start + n)%nat -> ps !! j = Some p -> ~ chosen (vote peer p))) \/
   (exists j p, (start <= j < start + n)%nat /\ ps !! j = Some p /\ chosen (vote peer p) /\
      (forall j' p', (j < j' < start + n)%nat -> ps !! j' = Some p' -> ~ chosen (vote peer p')) /\
      let c := bb.(_pending_index) + Z.of_nat j in
      bb'.(_last_committed_index) = c /\ bb'.(_pending_index) = c + 1 /\
      represents bb' (drop (S j) ps') /\ ev = [OnCommitted c])).
Proof.
  intros [Hq Hwf] Hpos Hfl Hrange start n ps'.
  assert (zlen (_pending_meta_queue bb) = zlen ps) as Hlen.
  { unfold zlen. by rewrite Hq, length_fmap. }
  assert (start + n <= length ps)%nat as Hbound by (unfold start, n, zlen in *; lia).
  unfold commit_at. rewrite Hlen.
  destruct (Z.eqb_spec (_pending_index bb) 0); [lia|].
  destruct (Z.ltb_spec last (_pending_index bb)); [lia|].
  destruct (Z.leb_spec (_pending_index bb + zlen ps) last); [lia|].
  rewrite Hq. fold n. replace (Z.max (_pending_index bb) first)
    with (_pending_index bb + Z.of_nat start) by (unfold start; lia).
  assert (Forall pending_wf ps') as Hwf'.
  { unfold ps', vote_range. rewrite !Forall_app. split_and!;
      [by apply Forall_take| |by apply Forall_drop].
    apply Forall_fmap. eapply Forall_impl; [by apply Forall_take, Forall_drop|]. done. }
  destruct (commit_loop_spec n (_pending_index bb) peer ps PosHint_default start 0 Hwf Hbound)
    as (lc & -> & Hlc). fold ps'.
  destruct Hlc as [[-> Hnone]|(j & p & Hj & Hp & -> & Hch & Hlater)]; simpl.
  - split_and!; [done..|]. left. done.
  - destruct (Z.eqb_spec (_pending_index bb + Z.of_nat j) 0); [lia|]. simpl.
    split_and!; [done..|]. right. exists j, p. split_and!; try done; try lia.
    replace (Z.to_nat _) with (S j) by lia. split; simpl; [by rewrite fmap_drop|by apply Forall_drop].
Qed.

Lemma vote_range_length peer k n ps : (k + n <= length ps)%nat -> length (vote_range peer k n ps) = length ps.
Proof.
  intros. unfold vote_range. rewrite !length_app, length_map, !length_take, !length_drop. lia.
Qed.

Lemma represents_length bb ps : represents bb ps -> zlen (_pending_meta_queue bb) = zlen ps.
Proof. intros [-> _]. unfold zlen. by rewrite length_fmap. Qed.

(** ** The methods as steps, under the documented obligations of their callers *)
Inductive step : BallotBox -> list Event -> BallotBox -> Prop :=
| StepCommitAt bb first last peer r bb' ev :
    commit_at bb first last peer = (r, bb', ev) -> step bb ev bb'
| StepClear bb bb' ev :
    clear_pending_tasks bb = (bb', ev) -> step bb ev bb'
| StepReset bb new bb' ev :
    (* the node becomes leader: it was cleared, and its last log is at least
       the last committed one *)
    bb.(_pending_index) = 0 -> bb.(_last_committed_index) < new ->
    reset_pending_index bb new = (bb', ev) -> step bb ev bb'
| StepAppend bb conf old_conf closure bb' ev :
    (* called by the leader *)
    bb.(_pending_index) <> 0 -> conf_wf conf -> from_option conf_wf True old_conf ->
    append_pending_task bb conf old_conf closure = (bb', ev) -> step bb ev bb'
| StepSetCommitted bb i r bb' ev :
    (* called by a follower, or too late: then the index is an old one *)
    (bb.(_pending_index) <> 0 -> i < bb.(_pending_index)) ->
    set_last_committed_index bb i = (r, bb', ev) -> step bb ev bb'
| StepPop bb i r bb' ev :
    (* the FSM caller handles an index it was told *)
    i <= bb.(_last_committed_index) ->
    pop_committed bb i = (r, bb', ev) -> step bb ev bb'.

Inductive steps : BallotBox -> list Event -> BallotBox -> Prop :=
| steps_refl bb : steps bb [] bb
| steps_cons bb e bb1 es bb2 : step bb e bb1 -> steps bb1 es bb2 -> steps bb (e ++ es) bb2.

Definition no_failed_check (e : Event) : Prop :=
  match e with CheckFailed | OnQueue ClosureQueue.CheckFailed => False | _ => True end.

(** What one step guarantees. *)
Definition step_ok (bb : BallotBox) (ev : list Event) (bb' : BallotBox) : Prop :=
  bb_wf bb' /\ bb.(_last_committed_index) <= bb'.(_last_committed_index) /\
  Forall no_failed_check ev /\
  (forall i, OnCommitted i ∈ ev ->
     bb.(_last_committed_index) < i /\ bb'.(_last_committed_index) = i) /\
  (bb'.(_last_committed_index) <> bb.(_last_committed_index) ->
     OnCommitted bb'.(_last_committed_index) ∈ ev).

Lemma step_ok_quiet bb bb' ev :
  bb_wf bb' -> bb'.(_last_committed_index) = bb.(_last_committed_index) ->
  Forall (fun e => no_failed_check e /\ (forall i, e <> OnCommitted i)) ev -> step_ok bb ev bb'.
Proof.
  intros Hwf Heq Hev. split_and!; [done|lia| | |congruence].
  - eapply Forall_impl; [exact Hev|]. by intros e [? _].
  - intros i Hi. rewrite Forall_forall in Hev. by destruct (proj2 (Hev _ Hi) i).
Qed.

Lemma commit_at_ok bb first last peer r bb' ev :
  bb_wf bb -> commit_at bb first last peer = (r, bb', ev) -> step_ok bb ev bb'.
Proof.
  intros Hwf Hc. pose proof Hwf as ([ps Hps] & Hpos & Hz & Hnz).
  pose proof (represents_length _ _ Hps) as Hlen.
  destruct (decide (bb.(_pending_index) = 0 \/ last < bb.(_pending_index) \/
    bb.(_pending_index) + zlen bb.(_pending_meta_queue) <= last \/ last < first)) as [Hidle|Hbusy].
  { destruct (commit_at_idle bb first last peer Hidle) as [r' Hr]. rewrite Hr in Hc.
    simplify_eq. by apply step_ok_quiet. }
  destruct (Hnz ltac:(lia)) as [Hlt Hnext].
  pose proof (commit_at_spec bb ps first last peer Hps ltac:(lia) ltac:(lia) ltac:(lia)) as Hspec.
  rewrite Hc in Hspec. cbv zeta in Hspec.
  set (start := Z.to_nat _) in Hspec. set (n := Z.to_nat _) in Hspec.
  assert (start + n <= length ps)%nat as Hbound by (unfold start, n, zlen in *; lia).
  destruct Hspec as (-> & Hcq & [(Hl & Hp & Hr & -> & _)|(j & p & Hj & Hp & _ & _ & Hl & Hpi & Hr & ->)]).
  - apply step_ok_quiet; [|done|done]. split_and!; [by eexists|lia| |].
    + rewrite Hp. lia.
    + intros _. rewrite Hl, Hp, Hcq. split; [done|]. rewrite Hnext. f_equal.
      rewrite Hlen, (represents_length _ _ Hr). unfold zlen. by rewrite vote_range_length.
  - split_and!; [split_and!| | | |].
    + by eexists.
    + lia.
    + lia.
    + intros _. rewrite Hcq, Hnext, Hl, Hpi, Hlen, (represents_length _ _ Hr). split; [lia|].
      unfold zlen. rewrite length_drop, vote_range_length by done. lia.
    + lia.
    + by repeat constructor.
    + intros i Hi%list_elem_of_singleton. simplify_eq. lia.
    + intros _. rewrite Hl. by apply list_elem_of_here.
Qed.

Lemma clear_events_quiet q :
  Forall (fun e => no_failed_check e /\ (forall i, e <> OnCommitted i))
    (map OnQueue (ClosureQueue.clear q).2).
Proof.
  unfold ClosureQueue.clear. simpl. apply Forall_fmap, Forall_forall.
  intros e (c & _ & Hc)%list_elem_of_omap. destruct c; simplify_eq/=. by split.
Qed.

Lemma append_ok bb conf old_conf closure bb' ev :
  bb_wf bb -> bb.(_pending_index) <> 0 -> conf_wf conf -> from_option conf_wf True old_conf ->
  append_pending_task bb conf old_conf closure = (bb', ev) -> step_ok bb ev bb'.
Proof.
  intros ([ps Hps] & Hpos & Hz & Hnz) H0 Hc Ho Ha.
  destruct (Hnz H0) as [Hlt Hnext]. unfold append_pending_task in Ha.
  rewrite (proj2 (Z.ltb_lt _ _)) in Ha by lia. simplify_eq. apply step_ok_quiet; [|done|done].
  split_and!; simpl.
  - exists (ps ++ [mkPending conf old_conf []]). destruct Hps as [Hq Hpw]. split; simpl.
    + by rewrite Hq, fmap_app, init_ballot_of.
    + apply Forall_app. split; [done|]. by repeat constructor.
  - done.
  - done.
  - intros _. split; [done|]. unfold next_index, append_pending_closure in *. simpl.
    unfold zlen in *. rewrite !length_app. simpl. lia.
Qed.

Lemma set_committed_ok bb i r bb' ev :
  bb_wf bb -> (bb.(_pending_index) <> 0 -> i < bb.(_pending_index)) ->
  set_last_committed_index bb i = (r, bb', ev) -> step_ok bb ev bb'.
Proof.
  intros Hwf Hi Hs. pose proof Hwf as ([ps Hps] & Hpos & Hz & Hnz).
  unfold set_last_committed_index in Hs.
  destruct (Z.eqb_spec (_pending_index bb) 0) as [H0|H0]; simpl in Hs.
  - destruct (Hz H0) as [Hq Hcq]. rewrite Hq in Hs. simpl in Hs.
    destruct (Z.ltb_spec i (_last_committed_index bb)); [simplify_eq; by apply step_ok_quiet|].
    destruct (Z.ltb_spec (_last_committed_index bb) i); simplify_eq; [|by apply step_ok_quiet].
    split_and!; simpl.
    + split_and!; simpl; [|lia|by rewrite Hcq|done]. exists []. split; [done|constructor].
    + lia.
    + by repeat constructor.
    + intros k Hk%list_elem_of_singleton. simplify_eq. lia.
    + intros _. by apply list_elem_of_here.
  - rewrite (proj2 (Z.ltb_lt _ _)) in Hs by auto. simplify_eq. by apply step_ok_quiet.
Qed.

Lemma pop_ok bb i r bb' ev :
  bb_wf bb -> i <= bb.(_last_committed_index) ->
  pop_committed bb i = (r, bb', ev) -> step_ok bb ev bb'.
Proof.
  intros Hwf Hi Hp. pose proof Hwf as ([ps Hps] & Hpos & Hz & Hnz). unfold pop_committed in Hp.
  destruct (decide (bb.(_pending_index) = 0)) as [H0|H0].
  - destruct (Hz H0) as [Hq Hcq]. rewrite Hcq in Hp. simpl in Hp. simplify_eq.
    apply step_ok_quiet; [|done|done]. split_and!; simpl; [by exists ps|done|done|]. intros; congruence.
  - destruct (Hnz H0) as [Hlt Hnext].
    destruct (pop_closure_until_next bb.(_closure_queue) i) as [Hn Hev].
    { rewrite Hnext. pose proof (zlen_nonneg (_pending_meta_queue bb)). lia. }
    destruct (pop_closure_until _ i) as [[r' q'] e']. simpl in *. simplify_eq.
    apply step_ok_quiet; [|done|done]. split_and!; simpl; [by exists ps|done|congruence|].
    intros _. split; [done|]. congruence.
Qed.

Lemma step_preserves bb ev bb' : bb_wf bb -> step bb ev bb' -> step_ok bb ev bb'.
Proof.
  intros Hwf Hs. destruct Hs as [? ? ? ? ? ? ? Hc|? ? ? Hc|? ? ? ? H0 Hn Hr|? ? ? ? ? ? H0 Hcw How Ha
    |? ? ? ? ? Hi Hc|? ? ? ? ? Hi Hc].
  - by eapply commit_at_ok.
  - unfold clear_pending_tasks in Hc. destruct Hwf as (Hps & Hpos & _).
    pose proof (clear_events_quiet (_closure_queue bb)) as Hev.
    destruct (ClosureQueue.clear (_closure_queue bb)) as [q' e'] eqn:Hq. simplify_eq.
    apply step_ok_quiet; [|done|done]. split_and!; simpl; [exists []; by repeat constructor|done| |done].
    intros _. by injection Hq as <- _.
  - unfold reset_pending_index in Hr. pose proof Hwf as (Hps & Hpos & Hz & _).
    destruct (Hz H0) as [Hq Hcq]. rewrite H0, Hq, Hcq, (proj2 (Z.ltb_lt _ _) Hn) in Hr. simpl in Hr.
    simplify_eq. apply step_ok_quiet; [|done|done].
    split_and!; simpl; [exists []; by repeat constructor|done|lia|].
    intros _. split; [done|]. unfold next_index. simpl. by rewrite !zlen_nil.
  - by eapply append_ok.
  - by eapply set_committed_ok.
  - by eapply pop_ok.
Qed.

Lemma steps_preserve bb evs bb' :
  bb_wf bb -> steps bb evs bb' ->
  bb_wf bb' /\ bb.(_last_committed_index) <= bb'.(_last_committed_index) /\
  Forall no_failed_check evs.
Proof.
  intros Hwf Hs. induction Hs as [|bb e bb1 es bb2 Hstep _ IH]; [done|].
  destruct (step_preserves _ _ _ Hwf Hstep) as (Hwf1 & Hmono & Hchk & _).
  destruct (IH Hwf1) as (? & ? & ?). split_and!; [done|lia|by apply Forall_app].
Qed.

Lemma bb_wf_default : bb_wf BallotBox_default.
Proof.
  split_and!; simpl; [exists []; by repeat constructor|lia|done|done].
Qed.

(** The indexes reported to the state machine, in order. *)
Definition committed_events (evs : list Event) : list Z :=
  omap (fun e => match e with OnCommitted i => Some i | _ => None end) evs.

Lemma committed_events_elem evs i : i ∈ committed_events evs <-> OnCommitted i ∈ evs.
Proof.
  unfold committed_events. rewrite list_elem_of_omap. split.
  - intros ([] & He & Hi); by simplify_eq.
  - intros H. by exists (OnCommitted i).
Qed.

(** Reachability.  From a fresh box, under the call discipline the header
    documents, every sequence of its methods keeps the invariant: ballots and
    closures stay aligned, nothing at or above [_pending_index] is committed,
    the committed index never goes back, and no [CHECK] of the box or of the
    closure queue ever fails. *)
Theorem reachable_invariant evs bb :
  steps BallotBox_default evs bb ->
  bb_wf bb /\ 0 <= bb.(_last_committed_index) /\ Forall no_failed_check evs.
Proof. intros Hs. by apply (steps_preserve _ _ _ bb_wf_default). Qed.

(** Commitment.  On a reachable leader, when replicating up to [last] at
    [peer] makes the committed index move, it moves to an entry a quorum of its
    own configuration, joint stage included, has voted for once [peer]'s vote is
    counted, the entry is in the range just acknowledged, no later acknowledged
    entry has a quorum, and that index alone is reported to the state machine. *)
Theorem commit_at_commits_quorum bb ps first last peer r bb' ev :
  represents bb ps -> 0 < bb.(_pending_index) ->
  commit_at bb first last peer = (r, bb', ev) ->
  bb'.(_last_committed_index) <> bb.(_last_committed_index) ->
  exists c p,
    bb'.(_last_committed_index) = c /\ bb'.(_pending_index) = c + 1 /\ ev = [OnCommitted c] /\
    Z.max bb.(_pending_index) first <= c <= last /\
    zget ps (c - bb.(_pending_index)) = Some p /\ chosen (vote peer p) /\
    (forall i q, c < i <= last -> zget ps (i - bb.(_pending_index)) = Some q ->
       ~ chosen (vote peer q)).
Proof.
  intros Hps Hpos Hc Hne. pose proof (represents_length _ _ Hps) as Hlen.
  destruct (decide (bb.(_pending_index) = 0 \/ last < bb.(_pending_index) \/
    bb.(_pending_index) + zlen bb.(_pending_meta_queue) <= last \/ last < first)) as [Hidle|Hbusy].
  { destruct (commit_at_idle bb first last peer Hidle) as [r' Hr]. rewrite Hr in Hc. by simplify_eq. }
  pose proof (commit_at_spec bb ps first last peer Hps Hpos ltac:(lia) ltac:(lia)) as Hspec.
  rewrite Hc in Hspec. cbv zeta in Hspec.
  destruct Hspec as (_ & _ & [(Hl & _)|(j & p & Hj & Hp & Hch & Hlater & Hl & Hpi & _ & ->)]); [done|].
  exists (bb.(_pending_index) + Z.of_nat j), p.
  split_and!; try done; try lia.
  - apply zget_Some. split; [lia|]. by replace (Z.to_nat _) with j by lia.
  - intros i q Hi [_ Hq]%zget_Some. apply (Hlater (Z.to_nat (i - bb.(_pending_index))) q); [lia|done].
Qed.

End box.

(** ** Examples *)
Section examples.
#[local] Existing Instance lex_endpoint_order.

(** A leader of [{1,2,3}] whose three entries, from index 5 on, have the vote of
    peer 1. *)
Definition example_pendings : list Pending :=
  replicate 3 (mkPending (example_conf [1; 2; 3]) None [example_peer 1]).
Definition example_box : BallotBox :=
  mkBallotBox 4 5 (map ballot_of_pending example_pendings)
    (mkClosureQueue 5 [Some 1%positive; None; Some 2%positive]).

Lemma reachable_invariant_witness :
  let bb := mkBallotBox 4 5 [Ballot.init (example_conf [1; 2; 3]) None]
              (mkClosureQueue 5 [Some 1%positive]) in
  steps BallotBox_default [OnCommitted 4] bb /\
  bb_wf bb /\ 0 <= bb.(_last_committed_index) /\ Forall no_failed_check [OnCommitted 4].
Proof.
  assert (steps BallotBox_default [OnCommitted 4]
    (mkBallotBox 4 5 [Ballot.init (example_conf [1; 2; 3]) None] (mkClosureQueue 5 [Some 1%positive]))) as H.
  { apply (steps_cons _ [OnCommitted 4] (mkBallotBox 4 0 [] ClosureQueue_default) []).
    { by apply (StepSetCommitted _ 4 OK). }
    apply (steps_cons _ [] (mkBallotBox 4 5 [] (mkClosureQueue 5 [])) []).
    { by apply (StepReset _ 5). }
    apply (steps_cons _ [] (mkBallotBox 4 5 [Ballot.init (example_conf [1; 2; 3]) None]
                              (mkClosureQueue 5 [Some 1%positive])) []); [|apply steps_refl].
    apply (StepAppend _ (example_conf [1; 2; 3]) None (Some 1%positive));
      [done|exact example_conf_wf|done|done]. }
  split; [exact H|exact (reachable_invariant _ _ H)].
Defined.

Lemma commit_at_commits_quorum_witness :
  let bb' := mkBallotBox 6 7 [ballot_of_pending (mkPending (example_conf [1; 2; 3]) None [example_peer 1])]
               (mkClosureQueue 5 [Some 1%positive; None; Some 2%positive]) in
  commit_at example_box 5 6 (example_peer 2) = (OK, bb', [OnCommitted 6]) /\
  exists c p,
    bb'.(_last_committed_index) = c /\ bb'.(_pending_index) = c + 1 /\
    [OnCommitted 6] = [OnCommitted c] /\ 5 <= c <= 6 /\
    zget example_pendings (c - 5) = Some p /\ chosen (vote (example_peer 2) p) /\
    (forall i q, c < i <= 6 -> zget example_pendings (i - 5) = Some q ->
       ~ chosen (vote (example_peer 2) q)).
Proof.
  split; [by vm_compute|].
  apply (commit_at_commits_quorum example_box example_pendings 5 6 (example_peer 2) OK _ [OnCommitted 6]);
    [|by vm_compute|by vm_compute|by vm_compute].
  split; [done|]. apply Forall_replicate. split; [exact example_conf_wf|done].
Defined.
End examples.
