(* ===== verification/ConfigurationManager.v ===== *)
(** * ConfigurationManager: the history of the group's configurations

    Models [src/braft/configuration_manager.h] and
    [src/braft/configuration_manager.cpp].  A failed [CHECK] is reported in the
    boolean each operation returns last ([true]: the check held). *)

From S2P Require Import Prelude Types.

Record ConfigurationManager : Set := mkConfigurationManager {
  _configurations : list ConfigurationEntry;
  _snapshot : ConfigurationEntry
}.

Definition ConfigurationManager_default : ConfigurationManager :=
  mkConfigurationManager [] ConfigurationEntry_default.

Definition entry_index (e : ConfigurationEntry) : Z := e.(conf_id).(index).

(** [ConfigurationManager::add]. *)
Definition add (m : ConfigurationManager) (entry : ConfigurationEntry)
  : Errno * ConfigurationManager * bool :=
  match last m.(_configurations) with
  | Some back =>
      if entry_index entry <=? entry_index back then (ENEG1, m, false)
      else (OK, mkConfigurationManager (m.(_configurations) ++ [entry]) m.(_snapshot), true)
  | None => (OK, mkConfigurationManager [entry] m.(_snapshot), true)
  end.

(** The [pop_front] loop of [truncate_prefix]. *)
Fixpoint pop_front_below (first_index_kept : Z) (l : list ConfigurationEntry) : list ConfigurationEntry :=
  match l with
  | e :: l' => if entry_index e <? first_index_kept then pop_front_below first_index_kept l' else l
  | [] => []
  end.

(** [ConfigurationManager::truncate_prefix]. *)
Definition truncate_prefix (m : ConfigurationManager) (first_index_kept : Z) : ConfigurationManager :=
  mkConfigurationManager (pop_front_below first_index_kept m.(_configurations)) m.(_snapshot).

(** The [pop_back] loop of [truncate_suffix]: it starts from the back, so it
    keeps everything up to the last entry it does not pop. *)
Fixpoint pop_back_above (last_index_kept : Z) (l : list ConfigurationEntry) : list ConfigurationEntry :=
  match l with
  | e :: l' =>
      match pop_back_above last_index_kept l' with
      | [] => if last_index_kept <? entry_index e then [] else [e]
      | l'' => e :: l''
      end
  | [] => []
  end.

(** [ConfigurationManager::truncate_suffix]. *)
Definition truncate_suffix (m : ConfigurationManager) (last_index_kept : Z) : ConfigurationManager :=
  mkConfigurationManager (pop_back_above last_index_kept m.(_configurations)) m.(_snapshot).

(** [ConfigurationManager::set_snapshot]. *)
Definition set_snapshot (m : ConfigurationManager) (entry : ConfigurationEntry)
  : ConfigurationManager * bool :=
  (mkConfigurationManager m.(_configurations) entry,
   logid_geb entry.(conf_id) m.(_snapshot).(conf_id)).

(** The forward scan of [get]: the entry before the first one beyond the index,
    [prev] being the entry before the list. *)
Fixpoint scan_last (last_included_index : Z) (prev : option ConfigurationEntry)
    (l : list ConfigurationEntry) : option ConfigurationEntry :=
  match l with
  | e :: l' => if last_included_index <? entry_index e then prev else scan_last last_included_index (Some e) l'
  | [] => prev
  end.

(** [ConfigurationManager::get]. *)
Definition get (m : ConfigurationManager) (last_included_index : Z) : ConfigurationEntry * bool :=
  match m.(_configurations) with
  | [] => (m.(_snapshot), entry_index m.(_snapshot) <=? last_included_index)
  | l => (default m.(_snapshot) (scan_last last_included_index None l), true)
  end.

(** [ConfigurationManager::last_configuration]. *)
Definition last_configuration (m : ConfigurationManager) : ConfigurationEntry :=
  default m.(_snapshot) (last m.(_configurations)).

(** ** Invariant: indexes grow strictly along the deque *)
Definition indexes_sorted (l : list ConfigurationEntry) : Prop :=
  StronglySorted (fun a b => entry_index a < entry_index b) l.

Definition cm_wf (m : ConfigurationManager) : Prop := indexes_sorted m.(_configurations).

Lemma sorted_app_one l e :
  indexes_sorted l -> (forall b, last l = Some b -> entry_index b < entry_index e) ->
  indexes_sorted (l ++ [e]).
Proof.
  unfold indexes_sorted. induction 1 as [|a l Hs IH Ha]; intros Hlast; simpl; [by repeat constructor|].
  destruct l as [|b l].
  - repeat constructor. by apply Hlast.
  - constructor; [by apply IH|]. apply Forall_app. split; [done|]. repeat constructor.
    destruct (last (b :: l)) as [c|] eqn:Hc; [|by apply last_None in Hc].
    assert (c ∈ b :: l) as Hin by (by apply last_Some_elem_of).
    rewrite Forall_forall in Ha. specialize (Ha _ Hin). specialize (Hlast c Hc). lia.
Qed.

Lemma pop_front_below_filter f l :
  indexes_sorted l -> pop_front_below f l = filter (fun e => f <= entry_index e) l.
Proof.
  induction 1 as [|a l Hs IH Ha]; simpl; [done|]. rewrite filter_cons.
  destruct (Z.ltb_spec (entry_index a) f); [by rewrite decide_False by lia|].
  rewrite decide_True by lia. f_equal. clear IH. induction Ha as [|b l Hb Ha IH]; [done|].
  rewrite filter_cons, decide_True by lia. f_equal. apply IH. by inversion Hs.
Qed.

Lemma pop_back_above_filter k l :
  indexes_sorted l -> pop_back_above k l = filter (fun e => entry_index e <= k) l.
Proof.
  induction 1 as [|a l Hs IH Ha]; simpl; [done|]. rewrite IH, filter_cons.
  destruct (filter _ l) as [|b l'] eqn:Hf.
  - destruct (Z.ltb_spec k (entry_index a)); [by rewrite decide_False by lia|by rewrite decide_True by lia].
  - rewrite decide_True; [done|].
    assert (b ∈ filter (fun e => entry_index e <= k) l) as Hb by (rewrite Hf; apply list_elem_of_here).
    apply list_elem_of_filter in Hb as [? Hb]. rewrite Forall_forall in Ha. specialize (Ha _ Hb). lia.
Qed.

Lemma filter_sorted (P : ConfigurationEntry -> Prop) `{!forall e, Decision (P e)} l :
  indexes_sorted l -> indexes_sorted (filter P l).
Proof.
  unfold indexes_sorted. induction 1 as [|a l Hs IH Ha]; [constructor|]. rewrite filter_cons.
  case_decide; [|done]. constructor; [done|]. apply Forall_forall.
  intros b [_ Hb]%list_elem_of_filter. rewrite Forall_forall in Ha. by apply Ha.
Qed.

Lemma add_wf m e r m' c : cm_wf m -> add m e = (r, m', c) -> cm_wf m'.
Proof.
  unfold cm_wf, add. intros Hwf Ha. destruct (last (_configurations m)) as [b|] eqn:Hb.
  - destruct (Z.leb_spec (entry_index e) (entry_index b)); simplify_eq; [done|]. simpl.
    apply sorted_app_one; [done|]. intros b' Hb'. simplify_eq. lia.
  - simplify_eq. simpl. by repeat constructor.
Qed.

Lemma truncate_prefix_wf m f : cm_wf m -> cm_wf (truncate_prefix m f).
Proof. unfold cm_wf; simpl. intros. rewrite pop_front_below_filter by done. by apply filter_sorted. Qed.

Lemma truncate_suffix_wf m k : cm_wf m -> cm_wf (truncate_suffix m k).
Proof. unfold cm_wf; simpl. intros. rewrite pop_back_above_filter by done. by apply filter_sorted. Qed.

(** [scan_last] finds the last entry at or below the index. *)
Lemma scan_last_filter i prev l :
  indexes_sorted l ->
  scan_last i prev l = match last (filter (fun e => entry_index e <= i) l) with
                       | Some e => Some e | None => prev end.
Proof.
  intros Hs. revert prev. induction Hs as [|a l Hs IH Ha]; intros prev; simpl; [done|].
  rewrite filter_cons. destruct (Z.ltb_spec i (entry_index a)).
  - rewrite decide_False by lia. replace (filter _ l) with (@nil ConfigurationEntry); [done|].
    clear IH Hs. induction Ha as [|b l Hb Ha IH]; [done|]. by rewrite filter_cons, decide_False by lia.
  - rewrite decide_True by lia. rewrite IH, last_cons. by destruct (last _).
Qed.

(** The specification of [get]: the configuration in force at an index. *)
Definition conf_at (m : ConfigurationManager) (i : Z) : ConfigurationEntry :=
  default m.(_snapshot) (last (filter (fun e => entry_index e <= i) m.(_configurations))).

Lemma get_conf_at m i : cm_wf m -> (get m i).1 = conf_at m i.
Proof.
  unfold get, conf_at, cm_wf. destruct (_configurations m) as [|e l] eqn:He; [done|].
  intros Hwf. cbn -[scan_last filter]. rewrite scan_last_filter by done. by destruct (last _).
Qed.

Lemma sorted_last_max l e :
  indexes_sorted l -> last l = Some e -> forall b, b ∈ l -> entry_index b <= entry_index e.
Proof.
  induction 1 as [|a l Hs IH Ha]; [done|]. intros Hl b. destruct l as [|c l].
  - simpl in Hl. simplify_eq. intros ->%list_elem_of_singleton. lia.
  - rewrite last_cons_cons in Hl. intros [->|Hb]%elem_of_cons; [|by apply IH].
    rewrite Forall_forall in Ha. apply last_Some_elem_of, Ha in Hl. lia.
Qed.

Lemma filter_le_filter_le (i k : Z) (l : list ConfigurationEntry) :
  i <= k -> filter (fun e => entry_index e <= i) (filter (fun e => entry_index e <= k) l) =
            filter (fun e => entry_index e <= i) l.
Proof.
  intros. apply list_filter_filter_l. lia.
Qed.

(** The entries at or below [i] split at [f]. *)
Lemma last_filter_split f i (l : list ConfigurationEntry) :
  indexes_sorted l -> f - 1 <= i ->
  last (filter (fun e => entry_index e <= i) l) =
  match last (filter (fun e => entry_index e <= i) (filter (fun e => f <= entry_index e) l)) with
  | Some e => Some e
  | None => last (filter (fun e => entry_index e <= f - 1) l)
  end.
Proof.
  intros Hs Hi. induction Hs as [|a l Hs IH Ha]; [done|].
  assert (forall b, b ∈ l -> entry_index a < entry_index b) as Hall by (by apply Forall_forall).
  destruct (decide (f <= entry_index a)).
  - rewrite (filter_keep_all (fun e => f <= entry_index e) (a :: l)).
    2:{ intros b [->|Hb]%elem_of_cons; [done|]. specialize (Hall b Hb). lia. }
    rewrite (filter_keep_none (fun e => entry_index e <= f - 1)).
    2:{ intros b [->|Hb]%elem_of_cons; [lia|]. specialize (Hall b Hb). lia. }
    by destruct (last (filter (fun e => entry_index e <= i) (a :: l))).
  - rewrite (filter_cons (fun e => f <= entry_index e)), decide_False by lia.
    rewrite (filter_cons (fun e => entry_index e <= i)), decide_True by lia.
    rewrite (filter_cons (fun e => entry_index e <= f - 1)), decide_True by lia.
    rewrite !last_cons, IH. by destruct (last (filter _ (filter _ _))).
Qed.

(** Lookup.  On a manager whose entries have growing indexes (which [add],
    [truncate_prefix] and [truncate_suffix] preserve) [get i] is the entry with
    the greatest index at or below [i], and the snapshot's when there is none. *)
Theorem get_last_at_or_below m i :
  cm_wf m ->
  let e := (get m i).1 in
  (e ∈ m.(_configurations) /\ entry_index e <= i /\
   forall b, b ∈ m.(_configurations) -> entry_index b <= i -> entry_index b <= entry_index e) \/
  (e = m.(_snapshot) /\ forall b, b ∈ m.(_configurations) -> i < entry_index b).
Proof.
  intros Hwf. cbv zeta. rewrite get_conf_at by done. unfold conf_at.
  destruct (last (filter _ _)) as [e|] eqn:He; simpl.
  - left. pose proof (last_Some_elem_of _ _ He) as [? ?]%list_elem_of_filter. split_and!; [done..|].
    intros b Hb Hi. eapply sorted_last_max; [by apply (filter_sorted (fun e => entry_index e <= i)), Hwf|exact He|].
    by apply list_elem_of_filter.
  - right. split; [done|]. apply last_None in He. intros b Hb.
    pose proof (filter_nil_none _ _ _ He Hb) as Hn. simpl in Hn. lia.
Qed.

(** History survives maintenance.  Compacting the log up to [f], after the
    snapshot entry was set to the configuration in force before [f], changes the
    answer of [get] for no index from [f - 1] on; dropping the entries beyond
    [k] changes it for no index up to [k]; both keep the entries sorted. *)
Theorem truncation_preserves_get m f k s i :
  cm_wf m ->
  (s = (get m (f - 1)).1 -> f - 1 <= i ->
     (get (truncate_prefix (set_snapshot m s).1 f) i).1 = (get m i).1) /\
  (i <= k -> (get (truncate_suffix m k) i).1 = (get m i).1) /\
  cm_wf (truncate_prefix m f) /\ cm_wf (truncate_suffix m k).
Proof.
  intros Hwf. split_and!; [| |by apply truncate_prefix_wf|by apply truncate_suffix_wf].
  - intros -> Hi. rewrite !get_conf_at by (try apply truncate_prefix_wf; done). unfold conf_at. simpl.
    rewrite pop_front_below_filter, (last_filter_split f i (_configurations m)) by done.
    by destruct (last (filter _ (filter _ _))).
  - intros Hi. rewrite !get_conf_at by (try apply truncate_suffix_wf; done). unfold conf_at. simpl.
    by rewrite pop_back_above_filter, filter_le_filter_le.
Qed.

(** ** Examples *)
Definition example_entry (i : Z) : ConfigurationEntry := mkConfigurationEntry (mkLogId i 1) [] [].
Definition example_manager : ConfigurationManager :=
  mkConfigurationManager (map example_entry [3; 5; 9]) (example_entry 2).

Lemma example_manager_wf : cm_wf example_manager.
Proof. unfold cm_wf, indexes_sorted. by repeat constructor. Qed.

Lemma get_last_at_or_below_witness :
  (get example_manager 7).1 = example_entry 5 /\
  let e := (get example_manager 7).1 in
  (e ∈ example_manager.(_configurations) /\ entry_index e <= 7 /\
   forall b, b ∈ example_manager.(_configurations) -> entry_index b <= 7 -> entry_index b <= entry_index e) \/
  (e = example_manager.(_snapshot) /\ forall b, b ∈ example_manager.(_configurations) -> 7 < entry_index b).
Proof. split; [done|]. exact (get_last_at_or_below example_manager 7 example_manager_wf). Defined.

Lemma truncation_preserves_get_witness :
  (get (truncate_prefix (set_snapshot example_manager (example_entry 5)).1 7) 8).1 = example_entry 5 /\
  (get (truncate_prefix (set_snapshot example_manager (example_entry 5)).1 7) 8).1 =
    (get example_manager 8).1.
Proof.
  split; [done|].
  exact (proj1 (truncation_preserves_get example_manager 7 0 (example_entry 5) 8 example_manager_wf)
           eq_refl ltac:(done)).
Defined.
