(* ===== verification/Lease.v ===== *)
(** * Leases: when a leader may serve reads, when a follower may vote

    Models [src/braft/lease.h] and [src/braft/lease.cpp].  The clock
    [butil::monotonic_time_ms()] is an argument [now] of the operations that
    read it, and the flag [raft_enable_leader_lease] an argument [enable].
    Timestamps are milliseconds, far from the 64-bit bound: their sums are
    taken in [Z]. *)

From S2P Require Import Prelude Types.

(** ** LeaderLease *)
Inductive InternalState : Set := DISABLED | EXPIRED | NOT_READY | VALID | SUSPECT.

Record LeaseInfo : Set := mkLeaseInfo {
  lease_state : InternalState;
  lease_term : Z;
  lease_epoch : Z
}.

Record LeaderLease : Set := mkLeaderLease {
  _election_timeout_ms : Z;
  _last_active_timestamp : Z;
  _term : Z;
  _lease_epoch : Z
}.

Definition LeaderLease_default : LeaderLease := mkLeaderLease 0 0 0 0.

(** [init] and [reset_election_timeout_ms] write the same field. *)
Definition leader_init (l : LeaderLease) (election_timeout_ms : Z) : LeaderLease :=
  mkLeaderLease election_timeout_ms l.(_last_active_timestamp) l.(_term) l.(_lease_epoch).
Definition leader_reset_election_timeout_ms (l : LeaderLease) (election_timeout_ms : Z) : LeaderLease :=
  mkLeaderLease election_timeout_ms l.(_last_active_timestamp) l.(_term) l.(_lease_epoch).

Definition on_leader_start (l : LeaderLease) (term : Z) : LeaderLease :=
  mkLeaderLease l.(_election_timeout_ms) 0 term (l.(_lease_epoch) + 1).

Definition on_leader_stop (l : LeaderLease) : LeaderLease :=
  mkLeaderLease l.(_election_timeout_ms) 0 0 l.(_lease_epoch).

Definition on_lease_start (l : LeaderLease) (expect_lease_epoch last_active_timestamp : Z) : LeaderLease :=
  if (l.(_term) =? 0) || negb (expect_lease_epoch =? l.(_lease_epoch)) then l
  else mkLeaderLease l.(_election_timeout_ms) last_active_timestamp l.(_term) l.(_lease_epoch).

Definition leader_renew (l : LeaderLease) (last_active_timestamp : Z) : LeaderLease :=
  mkLeaderLease l.(_election_timeout_ms) last_active_timestamp l.(_term) l.(_lease_epoch).

Definition get_lease_info (enable : bool) (now : Z) (l : LeaderLease) : LeaseInfo :=
  if negb enable then mkLeaseInfo DISABLED 0 0
  else if l.(_term) =? 0 then mkLeaseInfo EXPIRED 0 0
  else if l.(_last_active_timestamp) =? 0 then mkLeaseInfo NOT_READY 0 0
  else if now <? l.(_last_active_timestamp) + l.(_election_timeout_ms) then
    mkLeaseInfo VALID l.(_term) l.(_lease_epoch)
  else mkLeaseInfo SUSPECT 0 0.

(** ** FollowerLease *)
Record FollowerLease : Set := mkFollowerLease {
  _f_election_timeout_ms : Z;
  _max_clock_drift_ms : Z;
  _last_leader : PeerId;
  _last_leader_timestamp : Z
}.

Definition FollowerLease_default : FollowerLease := mkFollowerLease 0 0 PeerId_default 0.

Definition follower_init (now : Z) (f : FollowerLease) (election_timeout_ms max_clock_drift_ms : Z) : FollowerLease :=
  mkFollowerLease election_timeout_ms max_clock_drift_ms f.(_last_leader) now.

Definition follower_renew (now : Z) (f : FollowerLease) (leader_id : PeerId) : FollowerLease :=
  mkFollowerLease f.(_f_election_timeout_ms) f.(_max_clock_drift_ms) leader_id now.

Definition votable_time_from_now (enable : bool) (now : Z) (f : FollowerLease) : Z :=
  if negb enable then 0
  else
    let votable_timestamp :=
      f.(_last_leader_timestamp) + f.(_f_election_timeout_ms) + f.(_max_clock_drift_ms) in
    if votable_timestamp <=? now then 0 else votable_timestamp - now.

Definition expired (now : Z) (f : FollowerLease) : bool :=
  f.(_f_election_timeout_ms) + f.(_max_clock_drift_ms) <=? now - f.(_last_leader_timestamp).

Definition follower_reset (f : FollowerLease) : FollowerLease :=
  mkFollowerLease f.(_f_election_timeout_ms) f.(_max_clock_drift_ms) PeerId_default 0.

Definition expire (f : FollowerLease) : FollowerLease :=
  mkFollowerLease f.(_f_election_timeout_ms) f.(_max_clock_drift_ms) f.(_last_leader) 0.

Definition follower_reset_election_timeout_ms (f : FollowerLease) (election_timeout_ms max_clock_drift_ms : Z)
  : FollowerLease :=
  mkFollowerLease election_timeout_ms max_clock_drift_ms f.(_last_leader) f.(_last_leader_timestamp).

(** ** The life of a leader lease *)

(** The calls the node makes on a leader lease. *)
Inductive LeaseOp : Set :=
| OpInit (timeout : Z)
| OpResetTimeout (timeout : Z)
| OpLeaderStart (term : Z)
| OpLeaderStop
| OpLeaseStart (epoch ts : Z)
| OpRenew (ts : Z).

Definition apply_op (l : LeaderLease) (o : LeaseOp) : LeaderLease :=
  match o with
  | OpInit t => leader_init l t
  | OpResetTimeout t => leader_reset_election_timeout_ms l t
  | OpLeaderStart term => on_leader_start l term
  | OpLeaderStop => on_leader_stop l
  | OpLeaseStart e ts => on_lease_start l e ts
  | OpRenew ts => leader_renew l ts
  end.

Definition run_ops (ops : list LeaseOp) : LeaderLease := fold_left apply_op ops LeaderLease_default.

(** The leadership a history of calls is in: the epoch counts the terms the
    node has led. *)
Definition leadership_op (s : Z * Z) (o : LeaseOp) : Z * Z :=
  match o with
  | OpLeaderStart term => (term, s.2 + 1)
  | OpLeaderStop => (0, s.2)
  | _ => s
  end.
Definition leadership (ops : list LeaseOp) : Z * Z := fold_left leadership_op ops (0, 0).

(** [reports e ts o]: the call reports that a quorum was heard at [ts] in epoch [e]. *)
Definition reports (e ts : Z) (o : LeaseOp) : Prop := o = OpLeaseStart e ts \/ o = OpRenew ts.

Lemma run_ops_snoc ops o : run_ops (ops ++ [o]) = apply_op (run_ops ops) o.
Proof. unfold run_ops. by rewrite fold_left_app. Qed.
Lemma leadership_snoc ops o : leadership (ops ++ [o]) = leadership_op (leadership ops) o.
Proof. unfold leadership. by rewrite fold_left_app. Qed.

(** The state follows the leadership, and a non-zero timestamp was reported
    since the current leadership began, or the node does not lead. *)
Definition reported_since_start (ops : list LeaseOp) : Prop :=
  let l := run_ops ops in
  exists before after, ops = before ++ after /\
    (forall o, o ∈ after -> forall t, o <> OpLeaderStart t) /\
    exists o, o ∈ after /\ reports l.(_lease_epoch) l.(_last_active_timestamp) o.

Lemma lease_follows_leadership ops :
  ((run_ops ops).(_term), (run_ops ops).(_lease_epoch)) = leadership ops.
Proof.
  induction ops as [|o ops IH] using rev_ind; [done|].
  rewrite run_ops_snoc, leadership_snoc, <- IH. destruct o; simpl; try done.
  unfold on_lease_start. by destruct (_ || _).
Qed.

Lemma reported_extend ops o :
  reported_since_start ops -> (forall t, o <> OpLeaderStart t) ->
  (run_ops (ops ++ [o])).(_lease_epoch) = (run_ops ops).(_lease_epoch) ->
  (run_ops (ops ++ [o])).(_last_active_timestamp) = (run_ops ops).(_last_active_timestamp) ->
  reported_since_start (ops ++ [o]).
Proof.
  intros (b & a & -> & Hns & r & Hr & Hrep) Ho He Ht. exists b, (a ++ [o]).
  rewrite <- app_assoc in *. split; [done|]. split.
  - intros o' [?| ->%list_elem_of_singleton]%elem_of_app; auto.
  - exists r. split; [apply elem_of_app; by left|]. by rewrite He, Ht.
Qed.

Lemma reported_new ops o :
  reports (run_ops (ops ++ [o])).(_lease_epoch) (run_ops (ops ++ [o])).(_last_active_timestamp) o ->
  reported_since_start (ops ++ [o]).
Proof.
  intros Hr. exists ops, [o]. split; [done|]. split.
  - intros o' ->%list_elem_of_singleton t ->. by destruct Hr.
  - exists o. split; [apply list_elem_of_here|done].
Qed.

Lemma active_timestamp_reported ops :
  (run_ops ops).(_last_active_timestamp) <> 0 -> reported_since_start ops.
Proof.
  induction ops as [|o ops IH] using rev_ind; [done|]. rewrite run_ops_snoc. intros Hne.
  destruct o; simpl in Hne; try done.
  - apply reported_extend; rewrite ?run_ops_snoc; auto; done.
  - apply reported_extend; rewrite ?run_ops_snoc; auto; done.
  - destruct ((_term (run_ops ops) =? 0) || negb (epoch =? _lease_epoch (run_ops ops))) eqn:Hc.
    + unfold on_lease_start in Hne. rewrite Hc in Hne.
      apply reported_extend; rewrite ?run_ops_snoc; simpl; unfold on_lease_start; rewrite ?Hc; auto; done.
    + apply reported_new. rewrite run_ops_snoc. simpl. unfold on_lease_start. rewrite Hc. simpl.
      apply orb_false_iff in Hc as [_ Hc%negb_false_iff%Z.eqb_eq]. subst epoch. by left.
  - apply reported_new. rewrite run_ops_snoc. simpl. by right.
Qed.

(** A lease is valid only inside a leadership.  After any sequence of calls,
    a lease reported [VALID] carries the term and epoch of the leadership in
    progress, and rests on a quorum timestamp reported since that leadership
    began, by a call that named this epoch or by a renewal, less than an
    election timeout ago: a late [on_lease_start] of an earlier epoch, or a
    timestamp from before a step-down, never validates it. *)
Theorem valid_lease_is_current enable now ops info :
  get_lease_info enable now (run_ops ops) = info -> info.(lease_state) = VALID ->
  leadership ops = (info.(lease_term), info.(lease_epoch)) /\ info.(lease_term) <> 0 /\
  now < (run_ops ops).(_last_active_timestamp) + (run_ops ops).(_election_timeout_ms) /\
  exists before after o,
    ops = before ++ after /\ (forall o', o' ∈ after -> forall t, o' <> OpLeaderStart t) /\
    o ∈ after /\ reports info.(lease_epoch) (run_ops ops).(_last_active_timestamp) o.
Proof.
  intros <- Hs. unfold get_lease_info in *. destruct enable; [simpl in *|done].
  destruct (Z.eqb_spec (_term (run_ops ops)) 0) as [|Ht]; [done|].
  destruct (Z.eqb_spec (_last_active_timestamp (run_ops ops)) 0) as [|Hts]; [done|].
  destruct (Z.ltb_spec now (_last_active_timestamp (run_ops ops) + _election_timeout_ms (run_ops ops))); [|done].
  simpl. split_and!; [by rewrite lease_follows_leadership|done|done|].
  destruct (active_timestamp_reported ops Hts) as (b & a & -> & ? & o & ? & ?). by exists b, a, o.
Qed.

(** ** The two leases together *)

(** A follower under the messages of its leader: only [renew] calls, at later
    and later readings of its clock. *)
Definition renew_all (f : FollowerLease) (leader : PeerId) (times : list Z) : FollowerLease :=
  fold_left (fun f t => follower_renew t f leader) times f.

Lemma renew_all_timestamp f leader times lo :
  lo <= f.(_last_leader_timestamp) -> Forall (fun t => lo <= t) times ->
  lo <= (renew_all f leader times).(_last_leader_timestamp) /\
  (renew_all f leader times).(_f_election_timeout_ms) = f.(_f_election_timeout_ms) /\
  (renew_all f leader times).(_max_clock_drift_ms) = f.(_max_clock_drift_ms).
Proof.
  intros Hf Ht. revert f Hf. induction Ht as [|t times Ht _ IH]; intros f Hf; [done|].
  simpl. destruct (IH (follower_renew t f leader) Ht) as (? & ? & ?). done.
Qed.

(** Clocks are functions of real time.  The elapsed time two clocks measure
    over a span differs by at most the configured drift. *)
Definition monotone_clock (c : Z -> Z) : Prop := forall t t', t <= t' -> c t <= c t'.
Definition bounded_drift (c d : Z -> Z) (drift : Z) : Prop :=
  forall t t', t <= t' -> c t' - c t <= d t' - d t + drift.

(** Lease safety.  The leader's active timestamp is its clock when it sent,
    at real time [sent], a message the follower received at [received] and
    answered by renewing its lease, and perhaps renewing it again since.  While
    the leader's lease is valid the follower, configured with the same election
    timeout and with a drift bound that really bounds the two clocks' drift,
    answers a positive wait to whoever asks for its vote. *)
Theorem lease_excludes_vote (leader_clock follower_clock : Z -> Z) l f leader later sent received t :
  monotone_clock leader_clock -> monotone_clock follower_clock ->
  bounded_drift follower_clock leader_clock f.(_max_clock_drift_ms) ->
  sent <= received -> received <= t ->
  l.(_last_active_timestamp) = leader_clock sent ->
  l.(_election_timeout_ms) = f.(_f_election_timeout_ms) ->
  Forall (fun r => received <= r) later ->
  (get_lease_info true (leader_clock t) l).(lease_state) = VALID ->
  0 < votable_time_from_now true (follower_clock t)
        (renew_all (follower_renew (follower_clock received) f leader) leader (map follower_clock later)).
Proof.
  intros Hml Hmf Hdrift Hsr Hrt Hl Het Hlater Hv.
  destruct (renew_all_timestamp (follower_renew (follower_clock received) f leader) leader
              (map follower_clock later) (follower_clock received)) as (Hts & He & Hd); [done| |].
  { apply Forall_fmap. eapply Forall_impl; [exact Hlater|]. intros r Hr. by apply Hmf. }
  unfold votable_time_from_now. rewrite He, Hd. set (ts := _last_leader_timestamp _) in *. simpl.
  unfold get_lease_info in Hv. simpl in Hv. rewrite Hl, Het in Hv.
  destruct (_ =? 0); [done|]. destruct (_ =? 0); [done|].
  destruct (Z.ltb_spec (leader_clock t) (leader_clock sent + f.(_f_election_timeout_ms))); [|done].
  specialize (Hdrift received t Hrt).
  specialize (Hml sent received Hsr).
  destruct (Z.leb_spec (ts + f.(_f_election_timeout_ms) + f.(_max_clock_drift_ms)) (follower_clock t)); lia.
Qed.

(** ** Examples *)
Lemma valid_lease_is_current_witness :
  let ops := [OpInit 100; OpLeaderStart 3; OpLeaderStop; OpLeaderStart 5; OpLeaseStart 1 900; OpLeaseStart 2 1000] in
  get_lease_info true 1050 (run_ops ops) = mkLeaseInfo VALID 5 2 /\
  leadership ops = (5, 2) /\ 5 <> 0 /\
  1050 < (run_ops ops).(_last_active_timestamp) + (run_ops ops).(_election_timeout_ms) /\
  exists before after o,
    ops = before ++ after /\ (forall o', o' ∈ after -> forall t, o' <> OpLeaderStart t) /\
    o ∈ after /\ reports 2 (run_ops ops).(_last_active_timestamp) o.
Proof.
  split; [done|].
  exact (valid_lease_is_current true 1050
    [OpInit 100; OpLeaderStart 3; OpLeaderStop; OpLeaderStart 5; OpLeaseStart 1 900; OpLeaseStart 2 1000]
    (mkLeaseInfo VALID 5 2) eq_refl eq_refl).
Defined.

(** A follower clock 7 ms behind the leader's, started from a lease of 100 ms
    with 10 ms of drift. *)
Lemma lease_excludes_vote_witness :
  0 < votable_time_from_now true (1090 - 7)
        (renew_all (follower_renew (1010 - 7) (mkFollowerLease 100 10 PeerId_default 0) PeerId_default)
           PeerId_default [1020 - 7]).
Proof.
  apply (lease_excludes_vote (fun t => t) (fun t => t - 7) (mkLeaderLease 100 1000 3 1)
    (mkFollowerLease 100 10 PeerId_default 0) PeerId_default [1020] 1000 1010 1090);
    unfold monotone_clock, bounded_drift; simpl; try lia; try done.
  by repeat constructor.
Defined.
