(* ===== verification/Segment.v ===== *)
(** * Segment: one file of the log

    Models the class [Segment] of [src/braft/log.h] and [src/braft/log.cpp]: a
    file of encoded entries with the index of their offsets and terms in memory.
    The directory is fixed, so a path is the name of a file in it; names are kept
    as the patterns they are printed with.  Sizes and offsets of files are [nat].
    A method takes the segment and returns what is stored back in it. *)

From S2P Require Import ConfigurationManager Types PeerText Disk EntryCodec Prelude.

(** ** Names of the directory *)
Inductive BaseName : Set :=
| Inprogress (first_index : Z)              (* log_inprogress_%020 *)
| ClosedSegment (first_index last_index : Z)  (* log_%020_%020 *)
| LogMetaFile                                (* log_meta *)
| OtherFile (name : string).
Record FileName : Set := mkFileName { base : BaseName; is_tmp : bool }.

#[export] Instance BaseName_eq_dec : EqDecision BaseName.
Proof. solve_decision. Defined.
#[export] Instance FileName_eq_dec : EqDecision FileName.
Proof. solve_decision. Defined.

#[export] Instance BaseName_countable : Countable BaseName.
Proof.
  refine (inj_countable'
    (fun b => match b with
              | Inprogress f => inl (inl f) | ClosedSegment f l => inl (inr (f, l))
              | LogMetaFile => inr (inl tt) | OtherFile s => inr (inr s) end)
    (fun x => match x with
              | inl (inl f) => Inprogress f | inl (inr (f, l)) => ClosedSegment f l
              | inr (inl _) => LogMetaFile | inr (inr s) => OtherFile s end) _).
  by intros [].
Defined.
#[export] Instance FileName_countable : Countable FileName.
Proof. refine (inj_countable' (fun f => (f.(base), f.(is_tmp))) (fun x => mkFileName x.1 x.2) _). by intros []. Defined.

Definition named (b : BaseName) : FileName := mkFileName b false.

(** ** Flags ([log.cpp], [storage.cpp]) *)
Inductive RaftSyncPolicy : Set := RAFT_SYNC_IMMEDIATELY | RAFT_SYNC_BY_BYTES.
#[export] Instance RaftSyncPolicy_eq_dec : EqDecision RaftSyncPolicy.
Proof. solve_decision. Defined.
Record Flags : Set := mkFlags {
  raft_max_segment_size : nat;
  raft_sync_segments : bool;
  raft_recover_log_from_corrupt : bool;
  raft_sync : bool;
  raft_sync_meta : bool;
  raft_sync_policy : RaftSyncPolicy;
  raft_sync_per_bytes : nat
}.

(** ** State *)
Record Segment : Set := mkSegment {
  _bytes : nat;
  _unsynced_bytes : nat;
  _fd : option positive;     (* the inode; [None] is -1 *)
  _pos : nat;                (* the position of the descriptor *)
  _is_open : bool;
  _first_index : Z;
  _last_index : Z;
  _checksum_type : CheckSumType;
  _offset_and_term : list (nat * Z)
}.
#[export] Instance Segment_eta : Settable Segment := fun s =>
  mkSegment s.(_bytes) s.(_unsynced_bytes) s.(_fd) s.(_pos) s.(_is_open) s.(_first_index) s.(_last_index)
    s.(_checksum_type) s.(_offset_and_term).

(** The two constructors. *)
Definition Segment_open (first_index : Z) (t : CheckSumType) : Segment :=
  mkSegment 0 0 None 0 true first_index (first_index - 1) t [].
Definition Segment_closed (first_index last_index : Z) (t : CheckSumType) : Segment :=
  mkSegment 0 0 None 0 false first_index last_index t [].

Definition open_name (s : Segment) : FileName := named (Inprogress s.(_first_index)).
Definition closed_name (s : Segment) : FileName := named (ClosedSegment s.(_first_index) s.(_last_index)).
(** [file_name], and the path every method builds. *)
Definition file_name (s : Segment) : FileName := if s.(_is_open) then open_name s else closed_name s.

Section segment.
Context `{IT : IpText, RP : RawPack, CS : Checksums, PB : ConfigurationPBMeta, EPO : EndPointOrder}.
Context (flags : Flags).
(** How the reads of an inode at an offset and of a size go. *)
Context (reads : positive -> nat -> nat -> list ReadOutcome).

Local Abbreviation SegM := (M (Disk FileName) (DiskEvent FileName)).

Definition check (b : bool) : SegM unit := when (negb b) (emit CheckFailed).

Definition create (s : Segment) : SegM (Errno * Segment) :=
  if negb s.(_is_open) then emit CheckFailed ;; mret (ENEG1, s)
  else
    fd ← sys_create (open_name s);
    mret (if bool_decide (fd = None) then ENEG1 else OK, s <| _fd := fd |> <| _pos := 0%nat |>).

(** [_get_meta]: offset, length and term. *)
Definition get_meta (s : Segment) (index : Z) : option (nat * nat * Z) :=
  if (s.(_last_index) <? index) || (index <? s.(_first_index)) then None
  else if s.(_last_index) =? s.(_first_index) - 1 then None
  else
    let meta_index := index - s.(_first_index) in
    '(entry_cursor, term) ← zget s.(_offset_and_term) meta_index;
    let next_cursor :=
      if index <? s.(_last_index) then default 0%nat (fst <$> zget s.(_offset_and_term) (meta_index + 1))
      else s.(_bytes) in
    Some (entry_cursor, (next_cursor - entry_cursor)%nat, term).

(** The file of the segment; a bad descriptor reads as an empty file. *)
Definition content_of (d : Disk FileName) (s : Segment) : IOBuf :=
  match s.(_fd) with Some inode => content d inode | None => [] end.
Definition reads_of (s : Segment) : nat -> nat -> list ReadOutcome :=
  match s.(_fd) with Some inode => reads inode | None => fun _ _ => [ReadError] end.

(** *** Loading *)

(** The scan of a file: where it stopped, what it found, and its verdict. *)
Record Scan : Set := mkScan {
  sc_off : nat;
  sc_table : list (nat * Z);
  sc_last : Z;
  sc_ret : Errno;
  sc_corrupted : bool;
  sc_conf : ConfigurationManager;
  sc_checks : bool
}.
#[export] Instance Scan_eta : Settable Scan := fun s =>
  mkScan s.(sc_off) s.(sc_table) s.(sc_last) s.(sc_ret) s.(sc_corrupted) s.(sc_conf) s.(sc_checks).

(** One entry of the file, whose header is [h] and which ends at [off + skip_len]:
    a configuration entry is read in full and handed to the configuration
    manager. *)
Definition scan_entry (c : IOBuf) (rd : nat -> nat -> list ReadOutcome) (i : Z) (h : EntryHeader)
    (skip_len : nat) (st : Scan) : Scan * bool :=
  let next st := (st <| sc_table := st.(sc_table) ++ [(st.(sc_off), h.(h_term))] |>
                     <| sc_last := st.(sc_last) + 1 |> <| sc_off := (st.(sc_off) + skip_len)%nat |>, true) in
  if h.(h_type) =? entry_type_num ENTRY_TYPE_CONFIGURATION then
    match load_entry c rd st.(sc_off) true skip_len with
    | Loaded _ data =>
        match parse_configuration_meta data with
        | Some (ps, os, ok) =>
            let entry := mkLogEntry ENTRY_TYPE_UNKNOWN (mkLogId i h.(h_term)) (Some ps) os [] in
            let '(_, cm, added) := ConfigurationManager.add st.(sc_conf) (ConfigurationEntry_of entry) in
            next (st <| sc_conf := cm |> <| sc_checks := st.(sc_checks) && ok && added |>)
        | None => (st <| sc_ret := ENEG1 |>, false)
        end
    | _ => (st, false)
    end
  else next st.

(** The loop of [load]; [None] is running out of fuel, which does not happen
    with the length of the file. *)
Fixpoint scan_loop (fuel : nat) (c : IOBuf) (rd : nat -> nat -> list ReadOutcome) (i : Z) (st : Scan) : option Scan :=
  if (length c <=? st.(sc_off))%nat then Some st
  else
    match fuel with
    | O => None
    | S fuel =>
        match load_entry c rd st.(sc_off) false ENTRY_HEADER_SIZE with
        | LoadShort => Some st
        | LoadError => Some (st <| sc_ret := ENEG1 |> <| sc_corrupted := true |>)
        | Loaded h _ =>
            let skip_len := (ENTRY_HEADER_SIZE + Z.to_nat h.(h_data_len))%nat in
            if (length c <? st.(sc_off) + skip_len)%nat then Some st
            else
              let '(st', go) := scan_entry c rd i h skip_len st in
              if go then scan_loop fuel c rd (i + 1) st' else Some st'
        end
    end.

Definition scan_start (s : Segment) (cm : ConfigurationManager) : Scan :=
  mkScan 0 s.(_offset_and_term) (s.(_first_index) - 1) OK false cm true.

Definition scan (c : IOBuf) (s : Segment) (cm : ConfigurationManager) : option Scan :=
  scan_loop (length c) c (reads_of s) s.(_first_index) (scan_start s cm).

(** What [load] returns before it truncates: a closed segment must hold exactly
    the entries its name says; corruption is forgiven in the open one, when the
    flag asks for it. *)
Definition load_verdict (s : Segment) (st : Scan) : Errno :=
  let ret :=
    if ok st.(sc_ret) && negb s.(_is_open) && negb (st.(sc_last) =? s.(_last_index)) then ENEG1 else st.(sc_ret) in
  if ok ret then OK
  else if negb s.(_is_open) || negb flags.(raft_recover_log_from_corrupt) || negb st.(sc_corrupted) then ret
  else OK.

Definition load (s : Segment) (cm : ConfigurationManager) : SegM (Errno * Segment * ConfigurationManager) :=
  fd ← sys_open (file_name s);
  match fd with
  | None => mret (ENEG1, s <| _fd := None |>, cm)
  | Some inode =>
      size ← sys_size inode;
      match size with
      | None => mret (ENEG1, s <| _fd := None |>, cm)
      | Some file_size =>
          d ← get;
          let s := s <| _fd := Some inode |> <| _pos := 0%nat |> in
          match scan (content d inode) s cm with
          | None => mret (ENEG1, s, cm)
          | Some st =>
              check st.(sc_checks) ;;
              let s := s <| _offset_and_term := st.(sc_table) |> in
              let ret := load_verdict s st in
              if negb (ok ret) then mret (ret, s, st.(sc_conf))
              else
                let s := if s.(_is_open) then s <| _last_index := st.(sc_last) |> else s in
                t ← (if (st.(sc_off) =? file_size)%nat then mret true else ftruncate_uninterrupted inode st.(sc_off));
                l ← sys_lseek;
                let s := if negb l then s else s <| _pos := st.(sc_off) |> in
                mret (if negb t then ENEG1 else OK, s <| _bytes := st.(sc_off) |>, st.(sc_conf))
          end
      end
  end.

(** *** Appending *)
Definition append (s : Segment) (entry : LogEntry) : SegM (Errno * Segment) :=
  if negb s.(_is_open) then mret (EINVAL, s)
  else if negb (entry.(id).(Types.index) =? s.(_last_index) + 1) then emit CheckFailed ;; mret (ERANGE, s)
  else
    match entry_data entry, encode_entry s.(_checksum_type) entry with
    | Some data, Some bytes =>
        check (zlen data <=? 2 ^ 56) ;;
        match s.(_fd) with
        | None => mret (ENEG1, s)
        | Some inode =>
            '(w, pos) ← write_all inode s.(_pos) bytes;
            let s := s <| _pos := pos |> in
            if negb w then mret (ENEG1, s)
            else
              mret (OK, s <| _offset_and_term := s.(_offset_and_term) ++ [(s.(_bytes), entry.(id).(term))] |>
                          <| _last_index := s.(_last_index) + 1 |>
                          <| _bytes := (s.(_bytes) + length bytes)%nat |>
                          <| _unsynced_bytes := (s.(_unsynced_bytes) + length bytes)%nat |>)
        end
    | _, _ => mret (ENEG1, s)
    end.

Definition sync (s : Segment) (will_sync has_conf : bool) : SegM (Errno * Segment) :=
  if s.(_last_index) <? s.(_first_index) then mret (OK, s)
  else if negb will_sync then mret (OK, s)
  else if negb flags.(raft_sync) then mret (OK, s)
  else if bool_decide (flags.(raft_sync_policy) = RAFT_SYNC_BY_BYTES)
          && (s.(_unsynced_bytes) <? flags.(raft_sync_per_bytes))%nat && negb has_conf then mret (OK, s)
  else
    r ← sys_fsync;
    mret (if negb r then ENEG1 else OK, s <| _unsynced_bytes := 0%nat |>).

(** *** Reading *)

(** [get]; the boolean is its [CHECK]s. *)
Definition get_entry (d : Disk FileName) (s : Segment) (index : Z) : option LogEntry * bool :=
  match get_meta s index with
  | None => (None, true)
  | Some (offset, length, meta_term) =>
      match load_entry (content_of d s) (reads_of s) offset true length with
      | Loaded h data =>
          let '(entry, ok) := decode_entry index h data in
          (entry, ok && (meta_term =? h.(h_term)))
      | _ => (None, true)
      end
  end.

Definition get_term (s : Segment) (index : Z) : Z :=
  match get_meta s index with Some (_, _, t) => t | None => 0 end.

(** *** Closing, unlinking, truncating *)
Definition close (s : Segment) (will_sync : bool) : SegM (Errno * Segment) :=
  check s.(_is_open) ;;
  r ← (if (s.(_first_index) <? s.(_last_index)) && flags.(raft_sync_segments) && will_sync then sys_fsync else mret true);
  if negb r then mret (ENEG1, s)
  else
    let s := s <| _is_open := false |> in
    r ← sys_rename (open_name s) (closed_name s);
    mret (if negb r then ENEG1 else OK, s).

(** [unlink]: the file is renamed and a bthread removes it. *)
Definition unlink (s : Segment) : SegM Errno :=
  let tmp_path := mkFileName (file_name s).(base) true in
  r ← sys_rename (file_name s) tmp_path;
  if negb r then mret ENEG1 else emit (Background tmp_path) ;; mret OK.

Definition truncate (s : Segment) (last_index_kept : Z) : SegM (Errno * Segment) :=
  if s.(_last_index) <=? last_index_kept then mret (OK, s)
  else
    let first_truncate_in_offset := last_index_kept + 1 - s.(_first_index) in
    let truncate_size := default 0%nat (fst <$> zget s.(_offset_and_term) first_truncate_in_offset) in
    r ← (if s.(_is_open) then mret true else sys_rename (closed_name s) (open_name s));
    if negb r then mret (ENEG1, s)
    else
      let s := s <| _is_open := true |> in
      match s.(_fd) with
      | None => mret (ENEG1, s)
      | Some inode =>
          t ← ftruncate_uninterrupted inode truncate_size;
          if negb t then mret (ENEG1, s)
          else
            l ← sys_lseek;
            if negb l then mret (ENEG1, s)
            else
              mret (OK, s <| _pos := truncate_size |>
                          <| _offset_and_term := take (Z.to_nat first_truncate_in_offset) s.(_offset_and_term) |>
                          <| _last_index := last_index_kept |> <| _bytes := truncate_size |>)
      end.
End segment.
