(* ===== verification/LogStorage.v ===== *)
(** * LogStorage: the interface of a log store

    Models the abstract class [LogStorage] of [src/braft/storage.h].  The
    contract its comments give is stated over an abstract log: the entries
    [first, last] in order.  A store promises to represent such a log; the log
    manager is proved against the promise. *)

From S2P Require Import Prelude Types.

(** ** The abstract log *)
Record Log : Set := mkLog {
  log_first : Z;
  log_entries : list LogEntry
}.

Definition log_last (l : Log) : Z := l.(log_first) + zlen l.(log_entries) - 1.

(** Every entry carries its own index. *)
Definition contiguous (first : Z) (es : list LogEntry) : Prop :=
  forall i e, es !! i = Some e -> e.(id).(index) = first + Z.of_nat i.
Definition log_wf (l : Log) : Prop := contiguous l.(log_first) l.(log_entries).

Definition log_get (l : Log) (i : Z) : option LogEntry := zget l.(log_entries) (i - l.(log_first)).
Definition log_term (l : Log) (i : Z) : Z := from_option (fun e => e.(id).(term)) 0 (log_get l i).
Definition log_append (l : Log) (es : list LogEntry) : Log :=
  mkLog l.(log_first) (l.(log_entries) ++ es).
Definition log_truncate_prefix (l : Log) (k : Z) : Log :=
  mkLog k (drop (Z.to_nat (k - l.(log_first))) l.(log_entries)).
Definition log_truncate_suffix (l : Log) (k : Z) : Log :=
  mkLog (Z.min l.(log_first) (k + 1)) (take (Z.to_nat (k - l.(log_first) + 1)) l.(log_entries)).
Definition log_reset (k : Z) : Log := mkLog k [].

(** The calls that change a log. *)
Inductive Op : Set :=
| OpAppend (es : list LogEntry)
| OpTruncatePrefix (k : Z)
| OpTruncateSuffix (k : Z)
| OpReset (k : Z).

Definition log_op (l : Log) (o : Op) : Log :=
  match o with
  | OpAppend es => log_append l es
  | OpTruncatePrefix k => log_truncate_prefix l k
  | OpTruncateSuffix k => log_truncate_suffix l k
  | OpReset k => log_reset k
  end.

(** ** Lemmas on contiguous entries *)
Lemma contiguous_nil f : contiguous f [].
Proof. by intros i e. Qed.

Lemma contiguous_cons f e es :
  contiguous f (e :: es) <-> e.(id).(index) = f /\ contiguous (f + 1) es.
Proof.
  split.
  - intros H. split; [rewrite (H 0%nat e) by done; lia|]. intros i x Hx.
    rewrite (H (S i) x) by done. lia.
  - intros [He Hes] [|i] x Hx; simpl in Hx; [by simplify_eq; lia|]. rewrite (Hes i x) by done. lia.
Qed.

Lemma contiguous_app f es1 es2 :
  contiguous f (es1 ++ es2) <-> contiguous f es1 /\ contiguous (f + zlen es1) es2.
Proof.
  revert f. induction es1 as [|e es1 IH]; intros f; simpl.
  - rewrite zlen_nil, Z.add_0_r. pose proof (contiguous_nil f). tauto.
  - rewrite !contiguous_cons, IH, zlen_cons.
    replace (f + 1 + zlen es1) with (f + (1 + zlen es1)) by lia. tauto.
Qed.

Lemma contiguous_take f n es : contiguous f es -> contiguous f (take n es).
Proof.
  intros H. rewrite <- (take_drop n es) in H. by apply contiguous_app in H as [H _].
Qed.

Lemma contiguous_drop f n es :
  (n <= length es)%nat -> contiguous f es -> contiguous (f + Z.of_nat n) (drop n es).
Proof.
  intros Hn H i e He. rewrite lookup_drop in He. rewrite (H _ _ He). lia.
Qed.

Lemma contiguous_get f es i e : contiguous f es -> zget es (i - f) = Some e -> e.(id).(index) = i.
Proof. intros H [Hi He]%zget_Some. rewrite (H _ _ He). lia. Qed.

Lemma log_append_nil l : log_append l [] = l.
Proof. destruct l. unfold log_append. simpl. by rewrite app_nil_r. Qed.

Lemma log_append_app l es1 es2 : log_append l (es1 ++ es2) = log_append (log_append l es1) es2.
Proof. unfold log_append. simpl. by rewrite app_assoc. Qed.

Lemma log_last_append l es : log_last (log_append l es) = log_last l + zlen es.
Proof. unfold log_last. simpl. rewrite zlen_app. lia. Qed.

Lemma log_append_wf l es : log_wf l -> contiguous (log_last l + 1) es -> log_wf (log_append l es).
Proof.
  unfold log_wf, log_last. simpl. intros Hl Hes. apply contiguous_app. split; [done|].
  by replace (log_first l + zlen (log_entries l)) with (log_first l + zlen (log_entries l) - 1 + 1) by lia.
Qed.

Lemma log_truncate_prefix_wf l k :
  log_wf l -> l.(log_first) <= k -> log_wf (log_truncate_prefix l k).
Proof.
  unfold log_wf. simpl. intros Hl Hk. set (n := Z.to_nat (k - log_first l)).
  destruct (decide (n <= length (log_entries l))%nat).
  - replace k with (log_first l + Z.of_nat n) by lia. by apply contiguous_drop.
  - rewrite drop_ge by lia. apply contiguous_nil.
Qed.

Lemma log_truncate_suffix_wf l k : log_wf l -> log_wf (log_truncate_suffix l k).
Proof.
  unfold log_wf. simpl. intros Hl. destruct (decide (log_first l <= k + 1)).
  - rewrite Z.min_l by lia. by apply contiguous_take.
  - replace (Z.to_nat _) with 0%nat by lia. apply contiguous_nil.
Qed.

(** What truncation keeps. *)
Lemma log_get_truncate_prefix l k i :
  l.(log_first) <= k -> log_get (log_truncate_prefix l k) i = if i <? k then None else log_get l i.
Proof.
  intros Hk. unfold log_get, zget. simpl. destruct (Z.ltb_spec i k).
  - by rewrite bool_decide_true by lia.
  - rewrite !bool_decide_false by lia. rewrite lookup_drop. f_equal. lia.
Qed.

Lemma log_get_truncate_suffix l k i :
  l.(log_first) - 1 <= k -> log_get (log_truncate_suffix l k) i = if k <? i then None else log_get l i.
Proof.
  intros Hk. unfold log_get, zget. simpl. rewrite Z.min_l by lia. destruct (Z.ltb_spec k i).
  - case_bool_decide; [done|]. apply lookup_take_ge. lia.
  - case_bool_decide; [done|]. apply lookup_take_lt. lia.
Qed.

Lemma log_get_append l es i :
  log_get (log_append l es) i =
  if i <=? log_last l then log_get l i else zget es (i - log_last l - 1).
Proof.
  unfold log_get, zget, log_last, zlen. simpl. destruct (Z.leb_spec i (log_first l + Z.of_nat (length (log_entries l)) - 1)).
  - case_bool_decide; [done|]. apply lookup_app_l. lia.
  - rewrite !bool_decide_false by lia. rewrite lookup_app_r by lia. f_equal. lia.
Qed.

(** ** Resolving a leader's entries against the log *)

(** How many of the leader's entries the log already has, with the same term. *)
Fixpoint log_conflict (l : Log) (es : list LogEntry) : nat :=
  match es with
  | [] => 0%nat
  | e :: es' => if log_term l e.(id).(index) =? e.(id).(term) then S (log_conflict l es') else 0%nat
  end.

(** Drop the log from the first conflict on, and append what is missing. *)
Definition log_resolve (l : Log) (es : list LogEntry) : Log :=
  match es !! log_conflict l es with
  | Some e => log_append (log_truncate_suffix l (e.(id).(index) - 1)) (drop (log_conflict l es) es)
  | None => l
  end.

Lemma log_conflict_matches l es i e :
  (i < log_conflict l es)%nat -> es !! i = Some e -> log_term l e.(id).(index) = e.(id).(term).
Proof.
  revert i. induction es as [|x es IH]; intros i Hi He; [done|]. simpl in Hi.
  destruct (Z.eqb_spec (log_term l x.(id).(index)) x.(id).(term)) as [Hx|]; [|lia].
  destruct i as [|i]; simpl in He; simplify_eq; [done|]. apply (IH i); [lia|done].
Qed.

Lemma log_conflict_differs l es e :
  es !! log_conflict l es = Some e -> log_term l e.(id).(index) <> e.(id).(term).
Proof.
  induction es as [|x es IH]; [done|]. simpl.
  destruct (Z.eqb_spec (log_term l x.(id).(index)) x.(id).(term)); simpl; [done|].
  intros. by simplify_eq.
Qed.

Lemma log_conflict_none l es :
  es !! log_conflict l es = None -> log_conflict l es = length es.
Proof.
  induction es as [|x es IH]; [done|]. simpl.
  destruct (Z.eqb_spec (log_term l x.(id).(index)) x.(id).(term)); simpl; [|done].
  intros. f_equal. by apply IH.
Qed.

Lemma log_last_truncate_suffix l k :
  l.(log_first) - 1 <= k <= log_last l -> log_last (log_truncate_suffix l k) = k.
Proof. unfold log_last, zlen. simpl. rewrite length_take. lia. Qed.

Lemma log_truncate_suffix_last l : log_truncate_suffix l (log_last l) = l.
Proof.
  destruct l as [f es]. unfold log_truncate_suffix, log_last. simpl. pose proof (zlen_nonneg es).
  rewrite Z.min_l by lia. f_equal. apply take_ge. unfold zlen. lia.
Qed.

Lemma log_get_out l i : i < l.(log_first) \/ log_last l < i -> log_get l i = None.
Proof.
  unfold log_get, zget, log_last, zlen. intros Hi. case_bool_decide; [done|]. apply lookup_ge_None_2. lia.
Qed.

Lemma log_term_out l i : i < l.(log_first) \/ log_last l < i -> log_term l i = 0.
Proof. intros Hi. unfold log_term. by rewrite log_get_out. Qed.

Section resolve.
Context (l : Log) (f : Z) (es : list LogEntry).
Context (Hwf : log_wf l) (Hes : contiguous f es) (Hf : l.(log_first) <= f <= log_last l + 1)
  (Hterms : Forall (fun e => e.(id).(term) <> 0) es).
Let c := log_conflict l es.

(** The first missing or conflicting entry directly follows a kept one. *)
Lemma resolve_conflict_bounds e :
  es !! c = Some e -> e.(id).(index) = f + Z.of_nat c /\ f + Z.of_nat c <= log_last l + 1.
Proof using Hes Hf Hterms.
  intros He. split; [by apply Hes|].
  destruct (decide (c = 0%nat)) as [->|Hc]; [lia|].
  pose proof (lookup_lt_Some _ _ _ He) as Hlen.
  destruct (lookup_lt_is_Some_2 es (pred c)) as [x Hx]; [lia|].
  pose proof (log_conflict_matches l es (pred c) x ltac:(fold c; lia) Hx) as Hm.
  rewrite (Hes _ _ Hx) in Hm. rewrite Forall_lookup in Hterms. specialize (Hterms _ _ Hx).
  destruct (decide (f + Z.of_nat (pred c) <= log_last l)); [lia|].
  rewrite log_term_out in Hm by lia. congruence.
Qed.

Lemma resolve_wf : log_wf (log_resolve l es).
Proof using Hwf Hes Hf Hterms.
  unfold log_resolve. fold c. destruct (es !! c) as [e|] eqn:He; [|done].
  destruct (resolve_conflict_bounds e He) as [He' Hb].
  apply log_append_wf; [by apply log_truncate_suffix_wf|].
  rewrite log_last_truncate_suffix by lia. replace (index (id e) - 1 + 1) with (f + Z.of_nat c) by lia.
  apply contiguous_drop; [|done]. apply lookup_lt_Some in He. lia.
Qed.

Lemma resolve_first : (log_resolve l es).(log_first) = l.(log_first).
Proof using Hes Hf Hterms.
  unfold log_resolve. fold c. destruct (es !! c) as [e|] eqn:He; [|done].
  destruct (resolve_conflict_bounds e He). simpl. lia.
Qed.

Lemma resolve_last :
  log_last (log_resolve l es) = if bool_decide (c = length es) then log_last l else f + zlen es - 1.
Proof using Hes Hf Hterms.
  unfold log_resolve. fold c. destruct (es !! c) as [e|] eqn:He.
  - destruct (resolve_conflict_bounds e He) as [Hi Hb]. pose proof (lookup_lt_Some _ _ _ He).
    rewrite bool_decide_false by lia. rewrite log_last_append, log_last_truncate_suffix by lia.
    unfold zlen. rewrite length_drop. lia.
  - rewrite bool_decide_true; [done|]. by apply log_conflict_none.
Qed.

(** Nothing before the conflict moves. *)
Lemma resolve_keeps i : i < f + Z.of_nat c -> log_get (log_resolve l es) i = log_get l i.
Proof using Hes Hf Hterms.
  intros Hi. unfold log_resolve. fold c. destruct (es !! c) as [e|] eqn:He; [|done].
  destruct (resolve_conflict_bounds e He) as [He' Hb].
  rewrite log_get_append, log_last_truncate_suffix by lia.
  rewrite (proj2 (Z.leb_le _ _)) by lia.
  rewrite log_get_truncate_suffix by lia. by rewrite (proj2 (Z.ltb_ge _ _)) by lia.
Qed.

(** From the conflict on, the log is the leader's. *)
Lemma resolve_new i : f + Z.of_nat c <= i -> c <> length es -> log_get (log_resolve l es) i = zget es (i - f).
Proof using Hes Hf Hterms.
  intros Hi Hc. unfold log_resolve. fold c. destruct (es !! c) as [e|] eqn:He.
  2:{ apply log_conflict_none in He. done. }
  destruct (resolve_conflict_bounds e He) as [He' Hb].
  rewrite log_get_append, log_last_truncate_suffix by lia.
  rewrite (proj2 (Z.leb_gt _ _)) by lia. unfold zget. rewrite !bool_decide_false by lia.
  rewrite lookup_drop. f_equal. lia.
Qed.

(** The resolved log has the leader's term at every index the leader sent. *)
Lemma resolve_terms i e : zget es (i - f) = Some e -> log_term (log_resolve l es) i = e.(id).(term).
Proof using Hes Hf Hterms.
  intros Hz. pose proof Hz as [Hi He]%zget_Some.
  assert (e.(id).(index) = i) as Hidx by (rewrite (Hes _ _ He); lia).
  destruct (decide (i < f + Z.of_nat c)) as [Hlt|Hge].
  - unfold log_term at 1. rewrite resolve_keeps by done. fold (log_term l i). rewrite <- Hidx.
    apply (log_conflict_matches l es (Z.to_nat (i - f))); [fold c; lia|done].
  - pose proof (lookup_lt_Some _ _ _ He). unfold log_term. rewrite resolve_new, Hz by lia. done.
Qed.

End resolve.

(** ** The interface *)
Class LogStorage (S : Type) := {
  ls_first_log_index : S -> Z;
  ls_last_log_index : S -> Z;
  ls_get_entry : S -> Z -> option LogEntry;
  ls_get_term : S -> Z -> Z;
  ls_append_entries : S -> list LogEntry -> Z * S;
  ls_truncate_prefix : S -> Z -> Errno * S;
  ls_truncate_suffix : S -> Z -> Errno * S;
  ls_reset : S -> Z -> Errno * S;

  (** [ls_repr s l]: the store [s] holds the log [l]. *)
  ls_repr : S -> Log -> Prop;
  ls_repr_wf s l : ls_repr s l -> log_wf l;
  ls_first_spec s l : ls_repr s l -> ls_first_log_index s = l.(log_first);
  ls_last_spec s l : ls_repr s l -> ls_last_log_index s = log_last l;
  ls_get_entry_spec s l i : ls_repr s l -> ls_get_entry s i = log_get l i;
  ls_get_term_spec s l i : ls_repr s l -> ls_get_term s i = log_term l i;
  (** Some prefix of the entries is appended, and its length reported. *)
  ls_append_spec s l es :
    ls_repr s l -> contiguous (log_last l + 1) es ->
    let '(n, s') := ls_append_entries s es in
    0 <= n <= zlen es /\ ls_repr s' (log_append l (take (Z.to_nat n) es));
  ls_truncate_prefix_spec s l k :
    ls_repr s l -> l.(log_first) <= k ->
    let '(r, s') := ls_truncate_prefix s k in r = OK -> ls_repr s' (log_truncate_prefix l k);
  ls_truncate_suffix_spec s l k :
    ls_repr s l -> l.(log_first) - 1 <= k <= log_last l ->
    let '(r, s') := ls_truncate_suffix s k in r = OK -> ls_repr s' (log_truncate_suffix l k);
  ls_reset_spec s l k :
    ls_repr s l -> let '(r, s') := ls_reset s k in r = OK -> ls_repr s' (log_reset k)
}.

(** The pops of a log deque, on contiguous entries. *)
Lemma pop_front_contiguous f k es :
  contiguous f es ->
  pop_front_while (fun e => e.(id).(index) <? k) es = drop (Z.to_nat (k - f)) es.
Proof.
  intros H. apply pop_front_while_drop. intros i e He. rewrite (H i e He).
  destruct (Z.ltb_spec (f + Z.of_nat i) k); symmetry;
    [apply bool_decide_eq_true|apply bool_decide_eq_false]; lia.
Qed.

Lemma pop_back_contiguous f k es :
  contiguous f es ->
  pop_back_while (fun e => k <? e.(id).(index)) es = take (Z.to_nat (k - f + 1)) es.
Proof.
  intros H. apply pop_back_while_take. intros i e He. rewrite (H i e He).
  destruct (Z.ltb_spec k (f + Z.of_nat i)); symmetry;
    [apply bool_decide_eq_true|apply bool_decide_eq_false]; lia.
Qed.
