(* ===== verification/SegmentProofs.v ===== *)
(** * SegmentProofs: what a segment keeps

    A segment holds a list of entries when its file is their encodings, one
    after the other, with the index of offsets and terms that goes with them,
    and possibly the beginning of an entry whose write did not finish.  Reading,
    appending, truncating and loading are proved against that. *)

From S2P Require Import LogStorage ConfigurationManager Segment Types PeerText Disk EntryCodec Prelude.

Section segment.
Context `{IT : IpText, RP : RawPack, CS : Checksums, PB : ConfigurationPBMeta, EPO : EndPointOrder}.
Context (flags : Flags) (reads : positive -> nat -> nat -> list ReadOutcome).

(** ** The bytes of a list of entries *)
Definition enc (t : CheckSumType) (e : LogEntry) : IOBuf := default [] (encode_entry t e).
Definition enc_all (t : CheckSumType) (es : list LogEntry) : IOBuf := concat (map (enc t) es).

(** The offsets and terms of entries written from [off] on. *)
Fixpoint table (t : CheckSumType) (off : nat) (es : list LogEntry) : list (nat * Z) :=
  match es with
  | [] => []
  | e :: es => (off, e.(id).(term)) :: table t (off + length (enc t e)) es
  end.

(** The beginning of an entry, not all of it. *)
Definition torn (t : CheckSumType) (junk : IOBuf) : Prop :=
  junk = [] \/ exists e k, storable e /\ (k < length (enc t e))%nat /\ junk = take k (enc t e).

Lemma enc_parts t e :
  storable e -> exists d, entry_data e = Some d /\ zlen d < 2 ^ 32 /\ - 2 ^ 63 <= e.(id).(term) < 2 ^ 63 /\
    encode_entry t e = Some (enc t e) /\ enc t e = pack_header t e.(type) e.(id).(term) d ++ d /\
    length (enc t e) = (ENTRY_HEADER_SIZE + length d)%nat.
Proof.
  intros (_ & Ht & d & Hd & Hl). exists d. unfold enc, encode_entry. rewrite Hd. cbn [mbind option_bind from_option Datatypes.id].
  repeat (split; [done|]). by rewrite length_app, pack_header_length.
Qed.

Lemma enc_all_app t es es' : enc_all t (es ++ es') = enc_all t es ++ enc_all t es'.
Proof. unfold enc_all. by rewrite map_app, concat_app. Qed.
Lemma enc_all_cons t e es : enc_all t (e :: es) = enc t e ++ enc_all t es.
Proof. done. Qed.

Lemma table_app t off es es' : table t off (es ++ es') = table t off es ++ table t (off + length (enc_all t es)) es'.
Proof.
  revert off. induction es as [|e es IH]; intros off; cbn [table app]; [by rewrite Nat.add_0_r|].
  rewrite IH. rewrite enc_all_cons, length_app. by rewrite Nat.add_assoc.
Qed.

Lemma table_length t off es : length (table t off es) = length es.
Proof. revert off. induction es as [|e es IH]; intros off; cbn; [done|]. by rewrite IH. Qed.

Lemma table_lookup t es i e :
  es !! i = Some e -> table t 0 es !! i = Some (length (enc_all t (take i es)), e.(id).(term)).
Proof.
  intros He. rewrite <- (take_drop_middle es i e He) at 1. rewrite table_app.
  apply lookup_lt_Some in He. rewrite lookup_app_r; rewrite table_length, length_take, Nat.min_l by lia; [|done].
  by rewrite Nat.sub_diag.
Qed.

Lemma table_take t es n : take n (table t 0 es) = table t 0 (take n es).
Proof.
  rewrite <- (take_drop n es) at 1. rewrite table_app. destruct (decide (n <= length es)%nat).
  - rewrite take_app_le by (rewrite table_length, length_take; lia). apply take_ge. rewrite table_length, length_take. lia.
  - rewrite (drop_ge es) by lia. rewrite app_nil_r. apply take_ge. rewrite table_length, length_take. lia.
Qed.

Lemma enc_all_split t es i e :
  es !! i = Some e -> enc_all t es = enc_all t (take i es) ++ enc t e ++ enc_all t (drop (S i) es).
Proof. intros He. rewrite <- (take_drop_middle es i e He) at 1. by rewrite enc_all_app, enc_all_cons. Qed.

Lemma enc_all_take_S t es i e :
  es !! i = Some e -> length (enc_all t (take (S i) es)) = (length (enc_all t (take i es)) + length (enc t e))%nat.
Proof. intros He. rewrite (take_S_r _ _ _ He), enc_all_app, length_app, enc_all_cons, length_app. cbn. lia. Qed.

(** ** The segment invariant *)

(** The file goes by the name of the segment, or, when closing it failed half
    way, still by the name of an open one. *)
Definition seg_named (d : Disk FileName) (s : Segment) (inode : positive) : Prop :=
  d.(names) !! file_name s = Some inode \/
  (s.(_is_open) = false /\ d.(names) !! open_name s = Some inode /\ d.(names) !! closed_name s = None).

Record seg_holds (d : Disk FileName) (s : Segment) (es : list LogEntry) (junk : IOBuf) (inode : positive) : Prop := {
  sh_fd : s.(_fd) = Some inode;
  sh_name : seg_named d s inode;
  sh_content : content d inode = enc_all s.(_checksum_type) es ++ junk;
  sh_table : s.(_offset_and_term) = table s.(_checksum_type) 0 es;
  sh_bytes : s.(_bytes) = length (enc_all s.(_checksum_type) es);
  sh_last : s.(_last_index) = s.(_first_index) + zlen es - 1;
  sh_contiguous : contiguous s.(_first_index) es;
  sh_storable : Forall storable es
}.

(** *** Reading *)
Lemma get_meta_out s index : index < s.(_first_index) \/ s.(_last_index) < index -> get_meta s index = None.
Proof.
  intros Hi. unfold get_meta. destruct (_ || _) eqn:Hr; [done|]. rewrite orb_false_iff, !Z.ltb_ge in Hr. lia.
Qed.

Lemma get_meta_in d s es junk inode i e :
  seg_holds d s es junk inode -> es !! i = Some e ->
  get_meta s (s.(_first_index) + Z.of_nat i) =
  Some (length (enc_all s.(_checksum_type) (take i es)), length (enc s.(_checksum_type) e), e.(id).(term)).
Proof.
  intros H He. pose proof (lookup_lt_Some _ _ _ He) as Hlt. pose proof (sh_last _ _ _ _ _ H) as Hl. unfold zlen in Hl.
  unfold get_meta. rewrite (sh_table _ _ _ _ _ H), (sh_bytes _ _ _ _ _ H).
  destruct (_ || _) eqn:Hr; [rewrite orb_true_iff, !Z.ltb_lt in Hr; lia|].
  destruct (Z.eqb_spec (_last_index s) (_first_index s - 1)); [lia|].
  replace (_first_index s + Z.of_nat i - _first_index s) with (Z.of_nat i) by lia.
  assert (forall (l : list (nat * Z)) k, zget l (Z.of_nat k) = l !! k) as Hz.
  { intros l k. unfold zget. rewrite bool_decide_false by lia. by rewrite Nat2Z.id. }
  rewrite Hz, (table_lookup _ _ _ _ He). cbn.
  pose proof (enc_all_take_S s.(_checksum_type) es i e He) as Hsz.
  enough ((if _first_index s + Z.of_nat i <? _last_index s
           then default 0%nat (fst <$> zget (table (_checksum_type s) 0 es) (Z.of_nat i + 1))
           else length (enc_all (_checksum_type s) es)) = length (enc_all (_checksum_type s) (take (S i) es))) as ->.
  { rewrite Hsz. do 3 f_equal. lia. }
  destruct (Z.ltb_spec (_first_index s + Z.of_nat i) (_last_index s)).
  - destruct (lookup_lt_is_Some_2 es (S i)) as [e' He']; [lia|]. replace (Z.of_nat i + 1) with (Z.of_nat (S i)) by lia.
    by rewrite Hz, (table_lookup _ _ _ _ He').
  - rewrite (take_ge es); [done|lia].
Qed.

Context (Hreads : forall i o n, ReadError ∉ reads i o n).

Lemma get_entry_spec d s es junk inode index :
  seg_holds d s es junk inode -> get_entry reads d s index = (zget es (index - s.(_first_index)), true).
Proof using Hreads.
  intros H. unfold get_entry.
  destruct (zget es (index - _first_index s)) as [e|] eqn:Hz.
  - apply zget_Some in Hz as [Hi He]. set (i := Z.to_nat (index - _first_index s)) in *.
    replace index with (_first_index s + Z.of_nat i) by lia. rewrite (get_meta_in d s es junk inode i e H He).
    assert (storable e) as Hst by (eapply Forall_lookup_1; [apply (sh_storable _ _ _ _ _ H)|done]).
    destruct (enc_parts s.(_checksum_type) e Hst) as (dt & Hd & Hl & Ht & _ & Henc & Hlen).
    unfold content_of, reads_of. rewrite (sh_fd _ _ _ _ _ H).
    erewrite (load_whole (reads inode) (Hreads inode) s.(_checksum_type) e.(type) e.(id).(term) dt Ht Hl
      _ (enc_all s.(_checksum_type) (take i es)) (enc_all s.(_checksum_type) (drop (S i) es) ++ junk)); [|..].
    + pose proof (decode_encoded s.(_checksum_type) e dt (proj1 Hst) Hd) as Hdec. unfold header_of in Hdec.
      rewrite (sh_contiguous _ _ _ _ _ H _ _ He) in Hdec. rewrite Hdec. cbn. by rewrite Z.eqb_refl.
    + rewrite (sh_content _ _ _ _ _ H), (enc_all_split _ _ _ _ He), <- Henc. by rewrite <- !app_assoc.
    + rewrite Hlen. lia.
  - rewrite get_meta_out; [done|]. rewrite (sh_last _ _ _ _ _ H). unfold zget, zlen in *.
    case_bool_decide; [lia|]. apply lookup_ge_None in Hz. lia.
Qed.

Lemma get_term_spec d s es junk inode index :
  seg_holds d s es junk inode ->
  get_term s index = from_option (fun e => e.(id).(term)) 0 (zget es (index - s.(_first_index))).
Proof using Type.
  intros H. unfold get_term. destruct (zget es (index - _first_index s)) as [e|] eqn:Hz.
  - apply zget_Some in Hz as [Hi He]. set (i := Z.to_nat (index - _first_index s)) in *.
    replace index with (_first_index s + Z.of_nat i) by lia. by rewrite (get_meta_in d s es junk inode i e H He).
  - rewrite get_meta_out; [done|]. rewrite (sh_last _ _ _ _ _ H). unfold zget, zlen in *.
    case_bool_decide; [lia|]. apply lookup_ge_None in Hz. lia.
Qed.

(** *** Appending *)

(** Nothing after the entries, and the descriptor at the end. *)
Definition clean_end (s : Segment) (junk : IOBuf) : Prop := junk = [] /\ s.(_pos) = s.(_bytes).

(** What a segment is, apart from its contents. *)
Definition same_segment (s s' : Segment) : Prop :=
  s'.(_first_index) = s.(_first_index) /\ s'.(_checksum_type) = s.(_checksum_type) /\ s'.(_fd) = s.(_fd) /\
  s'.(_is_open) = s.(_is_open).

Lemma seg_holds_frame d d' s s' es junk inode :
  seg_holds d s es junk inode -> d'.(names) !! open_name s = d.(names) !! open_name s ->
  d'.(names) !! closed_name s = d.(names) !! closed_name s -> content d' inode = content d inode ->
  s'.(_fd) = s.(_fd) -> s'.(_is_open) = s.(_is_open) -> s'.(_checksum_type) = s.(_checksum_type) ->
  s'.(_offset_and_term) = s.(_offset_and_term) -> s'.(_bytes) = s.(_bytes) ->
  s'.(_last_index) = s.(_last_index) -> s'.(_first_index) = s.(_first_index) -> seg_holds d' s' es junk inode.
Proof using Type.
  intros [] Hn1 Hn2 Hc Hfd Hf Ht Htb Hb Hl Hfi.
  split; rewrite ?Hfd, ?Hc, ?Ht, ?Htb, ?Hb, ?Hl, ?Hfi; try done.
  revert sh_name0. unfold seg_named, file_name, open_name, closed_name in *. rewrite Hf, Hfi, Hl, Hn1, Hn2. by destruct (_is_open s); rewrite ?Hn1, ?Hn2.
Qed.

Lemma append_spec d s es inode e :
  seg_holds d s es [] inode -> clean_end s [] -> storable e -> e.(id).(index) = s.(_last_index) + 1 ->
  let '((rc, s'), d', ev) := append s e d in
  touches (Some inode) d d' /\ same_segment s s' /\
  if ok rc then seg_holds d' s' (es ++ [e]) [] inode /\ clean_end s' [] /\ s.(_is_open) = true
  else exists junk, torn s.(_checksum_type) junk /\ seg_holds d' s' es junk inode /\
         (whole d.(script) -> clean_end s' junk).
Proof using Type.
  intros H [_ Hpos] Hst Hidx. unfold append. destruct (_is_open s) eqn:Ho; cbn [negb].
  2:{ split; [done|]. split; [done|]. cbn. exists []. split; [by left|]. by split. }
  rewrite Hidx, Z.eqb_refl. cbn [negb]. set (t := s.(_checksum_type)).
  destruct (enc_parts t e Hst) as (dt & Hd & Hl & _ & Henc & _ & Hlen). rewrite Hd, Henc, (sh_fd _ _ _ _ _ H).
  rewrite (proj2 (Z.leb_le _ _)) by lia. unfold check, when, mbind, M_bind, skip, mret, M_ret. cbn [negb].
  pose proof (sh_content _ _ _ _ _ H) as Hc. rewrite app_nil_r in Hc. pose proof (sh_bytes _ _ _ _ _ H) as Hb.
  pose proof (write_all_spec inode s.(_pos) (enc t e) d ltac:(by rewrite Hpos, Hb, Hc)) as Hw.
  destruct (write_all inode s.(_pos) (enc t e) d) as [[[w pos] d'] ev]. destruct Hw as [Ht Hw].
  destruct Hw as (k & Hk & Hc' & -> & -> & Hwhole). rewrite Hc in Hc'. destruct (bool_decide_reflect (k = length (enc t e))) as [Hkl|Hkl]; cbn [negb].
  - split; [done|]. split; [done|]. change (ok OK) with true. cbv iota. split; [|split; [|done]].
    + destruct H. split; cbn; fold t; rewrite ?app_nil_r; try done.
      * left. destruct sh_name0 as [Hn|[? _]]; [|congruence]. unfold file_name in *. cbn. rewrite Ho in *. by destruct Ht as (-> & _).
      * rewrite enc_all_app, enc_all_cons. cbn. rewrite app_nil_r, Hc', take_ge by lia. done.
      * rewrite table_app. cbn. by rewrite sh_table0, Hb.
      * rewrite enc_all_app, length_app, enc_all_cons. cbn. rewrite app_nil_r. unfold t. lia.
      * rewrite zlen_app, zlen_cons, zlen_nil. lia.
      * apply contiguous_app. split; [done|]. apply contiguous_cons. split; [lia|apply contiguous_nil].
      * apply Forall_app. split; [done|]. by apply Forall_singleton.
    + split; [done|]. cbn. lia.
  - split; [done|]. split; [done|]. change (ok ENEG1) with false. cbv iota. exists (take k (enc t e)). split; [|split].
    + right. exists e, k. split; [done|]. split; [lia|done].
    + destruct H. split; try done. unfold seg_named in *. by destruct Ht as (-> & _).
    + intros Hs. destruct (Hwhole Hs) as [_ [->|?]]; [|done]. split; [done|]. cbn. lia.
Qed.

(** *** Truncating *)
Lemma zlen_take {A} (l : list A) n : 0 <= n <= zlen l -> zlen (take (Z.to_nat n) l) = n.
Proof using Type. unfold zlen. intros. rewrite length_take. lia. Qed.

(** A closed segment gets its old name back first. *)
Lemma reopen_name d s es junk inode :
  seg_holds d s es junk inode -> disk_wf d ->
  let '(b, d1, e1) := (if s.(_is_open) then mret true else sys_rename (closed_name s) (open_name s)) d in
  disk_wf d1 /\ (whole d.(script) -> whole d1.(script)) /\ (forall j, content d1 j = content d j) /\
  (forall f, f <> open_name s -> f <> closed_name s -> d1.(names) !! f = d.(names) !! f) /\
  (b = true -> d1.(names) !! open_name s = Some inode /\
     (s.(_is_open) = false \/ d.(names) !! closed_name s = None -> d1.(names) !! closed_name s = None)).
Proof using Type.
  intros H Hwf. pose proof (sh_name _ _ _ _ _ H) as Hname. unfold seg_named, file_name in Hname.
  destruct (_is_open s); [split_and!; try done; intros _; split; [|by intros [?|?]]; by destruct Hname as [?|[? _]]|].
  pose proof (sys_rename_spec (closed_name s) (open_name s) d ltac:(done) Hwf) as Hr.
  destruct (sys_rename _ _ d) as [[b d1] e1]. destruct Hr as (Hw1 & Hsc & Hf & Hn & Hb). split_and!; try done.
  - intros j. unfold content. by rewrite Hf.
  - intros f Hf1 Hf2. by apply Hn.
  - intros ->. destruct Hb as (Hb & Hne & Hno). rewrite Hb. split; [|done]. destruct Hname as [?|(_ & _ & ?)]; [done|congruence].
Qed.

Lemma truncate_spec d s es junk inode k :
  seg_holds d s es junk inode -> disk_wf d -> s.(_first_index) - 1 <= k ->
  let '((rc, s'), d', ev) := truncate s k d in
  disk_wf d' /\ s'.(_first_index) = s.(_first_index) /\ s'.(_checksum_type) = s.(_checksum_type) /\
  (whole d.(script) -> whole d'.(script)) /\
  (forall i, i <> inode -> content d' i = content d i) /\
  (forall f, f <> open_name s -> f <> closed_name s -> d'.(names) !! f = d.(names) !! f) /\
  (rc = OK -> s'.(_last_index) = Z.min k s.(_last_index) /\
    if s.(_last_index) <=? k then s' = s /\ d' = d
    else s'.(_is_open) = true /\
      (s.(_is_open) = false \/ d.(names) !! closed_name s = None -> d'.(names) !! closed_name s = None) /\
      seg_holds d' s' (take (Z.to_nat (k + 1 - s.(_first_index))) es) [] inode /\ clean_end s' []).
Proof using Type.
  intros H Hwf Hk. unfold truncate. pose proof (sh_last _ _ _ _ _ H) as Hlast.
  destruct (Z.leb_spec s.(_last_index) k) as [Hle|Hlt].
  { split_and!; try done. intros _. split; [lia|done]. }
  set (i := Z.to_nat (k + 1 - s.(_first_index))). destruct (lookup_lt_is_Some_2 es i) as [e He]; [unfold zlen in *; lia|].
  assert (zget s.(_offset_and_term) (k + 1 - s.(_first_index)) =
    Some (length (enc_all s.(_checksum_type) (take i es)), e.(id).(term))) as Hz.
  { apply zget_Some. split; [lia|]. fold i. rewrite (sh_table _ _ _ _ _ H). by apply table_lookup. }
  rewrite Hz. cbn [fmap option_fmap option_map fst from_option Datatypes.id].
  set (size := length (enc_all s.(_checksum_type) (take i es))). unfold mbind, M_bind.
  pose proof (reopen_name d s es junk inode H Hwf) as Hre.
  destruct ((if s.(_is_open) then mret true else sys_rename (closed_name s) (open_name s)) d) as [[b d1] e1].
  destruct Hre as (Hwf1 & Hsc & Hc1 & Hn1 & Hopen).
  destruct b; cbn [negb]; unfold mret, M_ret; [|by split_and!; cbn; try done].
  destruct (Hopen eq_refl) as [Hon Hcn]. clear Hopen. cbn [_fd set_field]. rewrite (sh_fd _ _ _ _ _ H).
  pose proof (ftruncate_uninterrupted_spec inode size d1) as Hft.
  destruct (ftruncate_uninterrupted inode size d1) as [[t d2] e2]. destruct Hft as [Ht2 Hc2].
  assert (forall d3, touches (Some inode) d1 d3 -> disk_wf d3 /\ (whole d.(script) -> whole d3.(script)) /\
    (forall j, j <> inode -> content d3 j = content d j) /\
    (forall f, f <> open_name s -> f <> closed_name s -> d3.(names) !! f = d.(names) !! f)) as Hkeep.
  { intros d3 Ht. split_and!; [by eapply touches_wf|intros; eapply touches_whole; [done|auto]| |].
    - intros j Hj. destruct Ht as (_ & _ & -> & _); [done|congruence].
    - intros f Hf1 Hf2. destruct Ht as (-> & _). by apply Hn1. }
  destruct t; cbn [negb]; [|destruct (Hkeep d2 Ht2) as (? & ? & ? & ?); by split_and!].
  pose proof (sys_lseek_spec d2) as Hl. destruct (sys_lseek d2) as [[l d3] e3]. unfold state_of in Hl; cbn in Hl.
  destruct (Hkeep d3 ltac:(etransitivity; [done|by apply touches_none])) as (? & ? & ? & ?).
  destruct l; cbn [negb]; split_and!; try done. intros _. split; [cbn; lia|]. split; [done|]. split.
  { intros Ho. destruct Hl as (-> & _), Ht2 as (-> & _). by apply Hcn. }
  fold i. split; [|by split]. destruct H. destruct Hl as (Hln & _ & Hlc & _). split; cbn; try done.
  - left. rewrite Hln. by destruct Ht2 as (-> & _).
  - rewrite Hlc by done. rewrite Hc2, Hc1, sh_content0, app_nil_r. unfold size.
    rewrite <- (take_drop i es) at 1. rewrite enc_all_app, <- app_assoc, set_length_take by (rewrite length_app; lia).
    apply take_app_length.
  - rewrite sh_table0. fold i. apply table_take.
  - unfold i. rewrite zlen_take by lia. lia.
  - by apply contiguous_take.
  - by apply Forall_take.
Qed.

(** *** Loading *)

(** The configuration manager after a list of entries, and its [CHECK]s. *)
Definition replay_entry (x : ConfigurationManager * bool) (e : LogEntry) : ConfigurationManager * bool :=
  match e.(type) with
  | ENTRY_TYPE_CONFIGURATION =>
      let '(_, cm, added) := ConfigurationManager.add x.1 (ConfigurationEntry_of e) in (cm, x.2 && added)
  | _ => x
  end.
Definition replay (es : list LogEntry) (x : ConfigurationManager * bool) : ConfigurationManager * bool :=
  fold_left replay_entry es x.

Lemma parse_encoded e d :
  shaped e -> entry_data e = Some d -> e.(type) = ENTRY_TYPE_CONFIGURATION ->
  exists ps, parse_configuration_meta d = Some (ps, e.(old_peers), true) /\ e.(peers) = Some ps.
Proof using CS.
  intros Hsh Hd Hty. pose proof (decode_encoded CHECKSUM_CRC32 e d Hsh Hd) as Hdec. unfold decode_entry, header_of in Hdec. cbn in Hdec.
  rewrite Hty in Hdec. cbn in Hdec. destruct (parse_configuration_meta d) as [[[ps os] okc]|]; [|done].
  injection Hdec as He ->. exists ps. by rewrite <- He.
Qed.

(** One entry of the file. *)
Lemma scan_entry_spec t rd c pre e post st :
  (forall o n, ReadError ∉ rd o n) -> storable e -> c = pre ++ enc t e ++ post -> st.(sc_off) = length pre ->
  exists d, entry_data e = Some d /\ length (enc t e) = (ENTRY_HEADER_SIZE + length d)%nat /\
    load_entry c rd st.(sc_off) false ENTRY_HEADER_SIZE = Loaded (header_of t e d) [] /\
    scan_entry c rd e.(id).(index) (header_of t e d) (length (enc t e)) st =
      (let x := replay_entry (st.(sc_conf), st.(sc_checks)) e in
       mkScan (st.(sc_off) + length (enc t e)) (st.(sc_table) ++ [(st.(sc_off), e.(id).(term))]) (st.(sc_last) + 1)
         st.(sc_ret) st.(sc_corrupted) x.1 x.2, true).
Proof using Type.
  intros Hrd Hst Hc Hoff. destruct (enc_parts t e Hst) as (d & Hd & Hl & Ht & _ & Henc & Hlen). exists d.
  split; [done|]. split; [done|]. rewrite Henc in Hc.
  pose proof (load_header rd Hrd t e.(type) e.(id).(term) d Ht Hl c pre (d ++ post) ENTRY_HEADER_SIZE) as Hh.
  pose proof (load_whole rd Hrd t e.(type) e.(id).(term) d Ht Hl c pre post (length (enc t e)) Hc ltac:(lia)) as Hw.
  rewrite Hoff. rewrite Hh by (by rewrite ?Hc, <- ?app_assoc). split; [done|].
  unfold scan_entry, replay_entry. cbn [h_type header_of]. rewrite Hoff, Hw.
  destruct (type e) eqn:Hty; cbn [entry_type_num Z.eqb Pos.eqb]; [reflexivity..|].
  destruct (parse_encoded e d (proj1 Hst) Hd Hty) as (ps & Hp & Hps). cbn. rewrite Hp. cbn [fst snd].
  assert (ConfigurationEntry_of (mkLogEntry ENTRY_TYPE_UNKNOWN (mkLogId e.(id).(index) e.(id).(term)) (Some ps) e.(old_peers) [])
    = ConfigurationEntry_of e) as ->.
  { unfold ConfigurationEntry_of. cbn. rewrite Hps. by destruct e as [? [? ?] ? ? ?]. }
  destruct (ConfigurationManager.add (sc_conf st) _) as [[r cm] added]. cbn. rewrite andb_true_r, <- Hoff. reflexivity.
Qed.

(** What is left after the last entry stops the scan. *)
Lemma scan_torn t rd pre junk fuel i st :
  (forall o n, ReadError ∉ rd o n) -> torn t junk -> st.(sc_off) = length pre -> (length junk <= fuel)%nat ->
  scan_loop fuel (pre ++ junk) rd i st = Some st.
Proof using Type.
  intros Hrd Hj Hoff Hf. destruct fuel as [|fuel]; cbn [scan_loop]; rewrite length_app.
  { destruct (Nat.leb_spec (length pre + length junk) (sc_off st)); [done|lia]. }
  destruct (Nat.leb_spec (length pre + length junk) (sc_off st)) as [|Hlt]; [done|].
  destruct Hj as [->|(e & k & Hst & Hk & Hj)]; [simpl in Hlt; lia|].
  assert (length junk = k) as Hjl by (rewrite Hj, length_take; lia).
  destruct (enc_parts t e Hst) as (d & Hd & Hl & Ht & _ & Henc & Hlen).
  destruct (decide (k < ENTRY_HEADER_SIZE)%nat) as [Hs|Hs].
  { rewrite load_entry_short; [done..|]. rewrite length_app, Nat.max_id. lia. }
  rewrite Hoff. erewrite (load_header rd Hrd t e.(type) e.(id).(term) d Ht Hl _ pre (take (k - ENTRY_HEADER_SIZE) d) ENTRY_HEADER_SIZE); [|..].
  - cbn [h_data_len]. destruct (Nat.ltb_spec (length pre + length junk) (length pre + (ENTRY_HEADER_SIZE + Z.to_nat (zlen d)))); [done|].
    unfold zlen in *. lia.
  - f_equal. rewrite Hj, Henc, take_app. rewrite pack_header_length. by rewrite (take_ge (pack_header _ _ _ _)) by (rewrite pack_header_length; lia).
  - done.
Qed.

Lemma scan_loop_spec t rd pre es junk fuel i st :
  (forall o n, ReadError ∉ rd o n) -> Forall storable es -> contiguous i es -> torn t junk ->
  st.(sc_off) = length pre -> (length (enc_all t es ++ junk) <= fuel)%nat ->
  let x := replay es (st.(sc_conf), st.(sc_checks)) in
  scan_loop fuel (pre ++ enc_all t es ++ junk) rd i st =
  Some (mkScan (st.(sc_off) + length (enc_all t es)) (st.(sc_table) ++ table t st.(sc_off) es) (st.(sc_last) + zlen es)
          st.(sc_ret) st.(sc_corrupted) x.1 x.2).
Proof using Type.
  intros Hrd. revert pre fuel i st. induction es as [|e es IH]; intros pre fuel i st Hst Hct Hj Hoff Hf; cbn zeta.
  { cbn. rewrite scan_torn with (t := t) by done. f_equal. destruct st. cbn. by rewrite Nat.add_0_r, app_nil_r, zlen_nil, Z.add_0_r. }
  apply Forall_cons in Hst as [He Hst]. apply contiguous_cons in Hct as [Hi Hct].
  destruct (scan_entry_spec t rd (pre ++ enc_all t (e :: es) ++ junk) pre e (enc_all t es ++ junk) st Hrd He
    ltac:(by rewrite enc_all_cons, <- app_assoc) Hoff) as (d & Hd & Hlen & Hh & Hsc).
  rewrite enc_all_cons, <- app_assoc in *. rewrite !length_app in Hf.
  assert (0 < length (enc t e))%nat by (rewrite Hlen; unfold ENTRY_HEADER_SIZE; lia).
  destruct fuel as [|fuel]; [lia|]. cbn [scan_loop].
  destruct (Nat.leb_spec (length (pre ++ enc t e ++ enc_all t es ++ junk)) (sc_off st)); [rewrite !length_app in *; lia|].
  rewrite Hh. cbn [h_data_len header_of]. replace (ENTRY_HEADER_SIZE + Z.to_nat (zlen d))%nat with (length (enc t e)) by (unfold zlen; lia).
  destruct (Nat.ltb_spec (length (pre ++ enc t e ++ enc_all t es ++ junk)) (sc_off st + length (enc t e))); [rewrite !length_app in *; lia|].
  rewrite <- Hi, Hsc. cbv zeta beta iota. rewrite (app_assoc pre). rewrite IH.
  - cbn [sc_off sc_table sc_last sc_ret sc_corrupted sc_conf sc_checks]. f_equal. unfold replay. cbn [fold_left].
    destruct (replay_entry (sc_conf st, sc_checks st) e) as [cm b]. cbn [fst snd]. rewrite length_app. f_equal.
    + lia.
    + cbn [table]. by rewrite <- app_assoc.
    + rewrite zlen_cons. lia.
  - done.
  - by rewrite Hi.
  - done.
  - cbn. rewrite length_app. lia.
  - rewrite length_app. lia.
Qed.

(** Every round of the loop consumes a header at least: the scan of any file
    whatever ends within the fuel. *)
Lemma scan_entry_advances c rd i h skip_len st st' :
  scan_entry c rd i h skip_len st = (st', true) -> st'.(sc_off) = (st.(sc_off) + skip_len)%nat.
Proof using Type.
  unfold scan_entry. destruct (_ =? _); [|by intros [= <-]].
  destruct (load_entry _ _ _ _ _); try done. destruct (parse_configuration_meta _) as [[[ps os] okc]|]; [|done].
  destruct (ConfigurationManager.add _ _) as [[r cm] added]. by intros [= <-].
Qed.

Lemma scan_loop_ends fuel c rd i st : (length c <= fuel + st.(sc_off))%nat -> scan_loop fuel c rd i st <> None.
Proof using Type.
  revert i st. induction fuel as [|fuel IH]; intros i st Hf; cbn [scan_loop];
    destruct (Nat.leb_spec (length c) (sc_off st)); try done; [lia|].
  destruct (load_entry _ _ _ _ _) as [| |h dt]; try done.
  destruct (_ <? _)%nat; [done|]. destruct (scan_entry _ _ _ _ _ _) as [st' [|]] eqn:Hs; [|done].
  apply IH. apply scan_entry_advances in Hs. unfold ENTRY_HEADER_SIZE in Hs. lia.
Qed.

(** A segment before it is loaded. *)
Definition unloaded (s : Segment) : Prop := s.(_offset_and_term) = [].

Lemma scan_spec s cm es junk inode :
  unloaded s -> s.(_fd) = Some inode -> Forall storable es -> contiguous s.(_first_index) es -> torn s.(_checksum_type) junk ->
  let t := s.(_checksum_type) in let x := replay es (cm, true) in
  scan reads (enc_all t es ++ junk) s cm =
  Some (mkScan (length (enc_all t es)) (table t 0 es) (s.(_first_index) - 1 + zlen es) OK false x.1 x.2).
Proof using Hreads.
  intros Hu Hfd Hst Hct Hj t x. unfold scan, scan_start, reads_of. rewrite Hfd, Hu.
  pose proof (scan_loop_spec t (reads inode) [] es junk (length (enc_all t es ++ junk)) s.(_first_index)
    (mkScan 0 [] (s.(_first_index) - 1) OK false cm true) (Hreads inode) Hst Hct Hj eq_refl ltac:(done)) as Hs.
  cbn [app] in Hs. exact Hs.
Qed.

Lemma calm_outcome {F} `{Countable F} (d : Disk F) : d.(script) = [] -> outcome d = (SysOk, d, []).
Proof using Type. intros Hs. unfold outcome. by rewrite Hs. Qed.

Lemma calm_touches i (d d' : Disk FileName) : touches i d d' -> d.(script) = [] -> d'.(script) = [].
Proof using Type. intros (_ & _ & _ & [u Hu]) Hs. rewrite Hs in Hu. by destruct u. Qed.

Lemma calm_ftruncate inode len (d : Disk FileName) :
  d.(script) = [] -> ftruncate_uninterrupted inode len d = (true, set_content inode (set_length (content d inode) len) d, []).
Proof using Type.
  intros Hs. unfold ftruncate_uninterrupted, mbind, M_bind, get. cbn [ftruncate_loop]. unfold mbind, M_bind. by rewrite calm_outcome.
Qed.

Lemma cut_tail (d : Disk FileName) inode c junk :
  d.(script) = [] -> content d inode = c ++ junk ->
  exists d2, (if (length c =? length (c ++ junk))%nat then mret true else ftruncate_uninterrupted inode (length c)) d
      = (true, d2, []) /\ touches (Some inode) d d2 /\ content d2 inode = c.
Proof using Type.
  intros Hsc Hc. destruct (Nat.eqb_spec (length c) (length (c ++ junk))) as [He|_].
  - exists d. split; [done|]. split; [done|]. rewrite length_app in He. destruct junk; [|simpl in He; lia]. by rewrite Hc, app_nil_r.
  - rewrite calm_ftruncate by done. eexists. split; [done|]. split; [apply set_content_touches|].
    rewrite content_set, Hc, set_length_take by (rewrite length_app; lia). apply take_app_length.
Qed.

(** Loading a file that ends in the beginning of an entry, or in nothing:
    exactly the whole entries are found, and the rest is cut off. *)
Lemma load_spec d s es junk inode cm :
  d.(script) = [] -> d.(names) !! file_name s = Some inode ->
  content d inode = enc_all s.(_checksum_type) es ++ junk -> torn s.(_checksum_type) junk ->
  Forall storable es -> contiguous s.(_first_index) es -> unloaded s ->
  (s.(_is_open) = false -> s.(_last_index) = s.(_first_index) + zlen es - 1) ->
  let '((rc, s', cm'), d', ev) := load flags reads s cm d in
  let x := replay es (cm, true) in
  rc = OK /\ cm' = x.1 /\ ev = (if x.2 then [] else [CheckFailed]) /\ touches (Some inode) d d' /\
  seg_holds d' s' es [] inode /\ clean_end s' [] /\ s'.(_first_index) = s.(_first_index) /\
  s'.(_is_open) = s.(_is_open) /\ s'.(_checksum_type) = s.(_checksum_type).
Proof using Hreads.
  intros Hsc Hn Hc Hj Hst Hct Hu Hclosed. unfold load, sys_open, sys_size, sys_lseek.
  unfold mbind, M_bind. rewrite !calm_outcome by done. unfold get, mret, M_ret. cbn [succeeds].
  rewrite Hn, !calm_outcome by done. cbn [succeeds]. rewrite Hc.
  set (s1 := s <| _fd := Some inode |> <| _pos := 0%nat |>).
  pose proof (scan_spec s1 cm es junk inode Hu eq_refl Hst Hct Hj) as Hscan. cbv zeta in Hscan.
  change (_checksum_type s1) with (_checksum_type s) in Hscan. rewrite Hscan. set (x := replay es (cm, true)).
  set (st := mkScan _ _ _ _ _ _ _).
  assert (load_verdict flags (s1 <| _offset_and_term := sc_table st |>) st = OK) as ->.
  { unfold load_verdict. cbn. destruct (_is_open s); [done|]. rewrite (Hclosed eq_refl). cbn.
    rewrite (proj2 (Z.eqb_eq _ _)) by lia. done. }
  change (ok OK) with true. cbn [negb].
  assert (check (sc_checks st) d = (tt, d, if x.2 then [] else [CheckFailed])) as -> by (unfold check; cbn; by destruct x.2).
  destruct (cut_tail d inode _ junk Hsc Hc) as (d2 & Hcut & Ht & Hc2). unfold mret, M_ret in Hcut. cbn [sc_off st].
  rewrite Hcut, calm_outcome by (by eapply calm_touches). cbn [negb succeeds app].
  split; [done|]. split; [done|]. split; [by rewrite app_nil_r|]. split; [done|].
  destruct (_is_open s) eqn:Ho; cbn; rewrite ?Ho; (split; [|done]); split; cbn; rewrite ?app_nil_r; try done.
  1,3: left; unfold file_name in *; cbn; rewrite Ho in *; by destruct Ht as (-> & _).
  - lia.
  - by apply Hclosed.
Qed.

(** ** Files of any content *)

(** The scan ends.  On any file whatever, and whatever the reads do, the loop
    of [load] stops: each round goes past a header at least, so the length of the
    file bounds the rounds. *)
Theorem scan_ends c s cm : scan reads c s cm <> None.
Proof using Type. apply scan_loop_ends. cbn. lia. Qed.

Lemma load_verdict_closed s st : s.(_is_open) = false -> ok (load_verdict flags s st) = true -> st.(sc_last) = s.(_last_index).
Proof using Type.
  intros Ho. unfold load_verdict. rewrite Ho. cbn [negb andb orb]. rewrite andb_true_r.
  destruct (Z.eqb_spec (sc_last st) (_last_index s)); [done|]. rewrite andb_true_r.
  destruct (ok (sc_ret st)) eqn:Hr; [done|]. by rewrite Hr, Hr.
Qed.

(** What the scan knows of a header it went past: the 24 bytes are in the file,
    and the header's own checksum is right. *)
Definition header_at (c : IOBuf) (off : nat) (h : EntryHeader) : Prop :=
  let p := slice c off ENTRY_HEADER_SIZE in
  length p = ENTRY_HEADER_SIZE /\ h = (unpack_header p).1 /\
  verify_checksum h.(h_checksum_type) (take (ENTRY_HEADER_SIZE - 4) p) (unpack_header p).2 = true.

(** The data of a configuration entry is a configuration, and its checksum is right. *)
Definition conf_at (c : IOBuf) (off : nat) (h : EntryHeader) : Prop :=
  let data := slice c (off + ENTRY_HEADER_SIZE) (Z.to_nat h.(h_data_len)) in
  verify_checksum h.(h_checksum_type) data h.(h_data_checksum) = true /\ is_Some (parse_configuration_meta data).

(** The rows of an index are the entries that follow each other in the file from
    [off] to [fin]. *)
Fixpoint indexes (c : IOBuf) (off : nat) (rows : list (nat * Z)) (fin : nat) : Prop :=
  match rows with
  | [] => fin = off
  | (o, term) :: rows =>
      o = off /\ exists h, header_at c off h /\ h.(h_term) = term /\
        (h.(h_type) = entry_type_num ENTRY_TYPE_CONFIGURATION -> conf_at c off h) /\
        let next := (off + ENTRY_HEADER_SIZE + Z.to_nat h.(h_data_len))%nat in
        (next <= length c)%nat /\ indexes c next rows fin
  end.

Lemma indexes_fits c off rows fin : (off <= length c)%nat -> indexes c off rows fin -> (fin <= length c)%nat.
Proof using Type. revert off. induction rows as [|[o t] rows IH]; cbn; [lia|]. intros off _ (_ & h & _ & _ & _ & Hn & Hi). by eapply IH. Qed.

Lemma load_entry_header c rd off h d : load_entry c rd off false ENTRY_HEADER_SIZE = Loaded h d -> header_at c off h.
Proof using Type.
  unfold load_entry. rewrite Nat.max_id. destruct (file_pread _ _ _ _ _) as [buf|] eqn:Hr; [|done].
  destruct (Nat.eqb_spec (length buf) ENTRY_HEADER_SIZE) as [Hl|]; [|done]. cbn [negb].
  rewrite (take_ge buf) by lia. apply file_pread_full in Hr; [|done]. subst buf. unfold header_at.
  destruct (unpack_header _) as [h' sum]. destruct (verify_checksum _ _ _) eqn:Hv; [|done]. cbn [negb]. by intros [= <- _].
Qed.

Lemma load_entry_conf c rd off h h' d :
  header_at c off h -> load_entry c rd off true (ENTRY_HEADER_SIZE + Z.to_nat h.(h_data_len)) = Loaded h' d ->
  d = slice c (off + ENTRY_HEADER_SIZE) (Z.to_nat h.(h_data_len)) /\ verify_checksum h.(h_checksum_type) d h.(h_data_checksum) = true.
Proof using Type.
  intros (Hp & Hh & _). unfold load_entry. rewrite Nat.max_l by lia.
  set (n := (_ + _)%nat). destruct (file_pread _ _ _ _ _) as [buf|] eqn:Hr; [|done].
  destruct (Nat.eqb_spec (length buf) n) as [Hl|]; [|done]. cbn [negb].
  apply file_pread_full in Hr; [|done]. unfold n in Hr. rewrite slice_split in Hr.
  assert (take ENTRY_HEADER_SIZE buf = slice c off ENTRY_HEADER_SIZE) as ->.
  { rewrite Hr, take_app_le by (by rewrite Hp). apply take_ge. by rewrite Hp. }
  assert (drop ENTRY_HEADER_SIZE buf = slice c (off + ENTRY_HEADER_SIZE) (Z.to_nat h.(h_data_len))) as Hd.
  { rewrite Hr, <- Hp at 1. by rewrite drop_app_length. }
  destruct (unpack_header _) as [h1 sum]. cbn [fst] in Hh. subst h1.
  destruct (verify_checksum _ _ sum); [|done]. cbn [negb]. fold n.
  rewrite Hl, Nat.ltb_irrefl. rewrite (take_ge buf) by lia. rewrite Hl, Nat.eqb_refl, Hd. cbn [negb].
  destruct (verify_checksum _ _ _) eqn:Hv; [|done]. by intros [= _ <-].
Qed.

Lemma scan_entry_found c rd i h st st' go :
  header_at c st.(sc_off) h ->
  scan_entry c rd i h (ENTRY_HEADER_SIZE + Z.to_nat h.(h_data_len)) st = (st', go) ->
  if go then
    (h.(h_type) = entry_type_num ENTRY_TYPE_CONFIGURATION -> conf_at c st.(sc_off) h) /\
    st'.(sc_table) = st.(sc_table) ++ [(st.(sc_off), h.(h_term))] /\ st'.(sc_last) = st.(sc_last) + 1 /\
    st'.(sc_off) = (st.(sc_off) + ENTRY_HEADER_SIZE + Z.to_nat h.(h_data_len))%nat
  else st'.(sc_table) = st.(sc_table) /\ st'.(sc_last) = st.(sc_last) /\ st'.(sc_off) = st.(sc_off).
Proof using Type.
  intros Hh. unfold scan_entry. destruct (Z.eqb_spec (h_type h) (entry_type_num ENTRY_TYPE_CONFIGURATION)).
  - destruct (load_entry _ _ _ _ _) as [| |h' d] eqn:Hl; try (by intros [= <- <-]).
    destruct (load_entry_conf _ _ _ _ _ _ Hh Hl) as [-> Hv].
    destruct (parse_configuration_meta _) as [[[ps os] okc]|] eqn:Hp; [|by intros [= <- <-]].
    destruct (ConfigurationManager.add _ _) as [[r cm] a]. intros [= <- <-]. split; [intros _; split; [exact Hv|by rewrite Hp]|].
    by rewrite <- Nat.add_assoc.
  - intros [= <- <-]. split; [done|]. by rewrite <- Nat.add_assoc.
Qed.

Lemma scan_loop_found fuel c rd i st st' : scan_loop fuel c rd i st = Some st' ->
  exists rows, st'.(sc_table) = st.(sc_table) ++ rows /\ st'.(sc_last) = st.(sc_last) + zlen rows /\
    indexes c st.(sc_off) rows st'.(sc_off).
Proof using Type.
  assert (forall st', st'.(sc_table) = st.(sc_table) -> st'.(sc_last) = st.(sc_last) -> st'.(sc_off) = st.(sc_off) ->
    exists rows, st'.(sc_table) = st.(sc_table) ++ rows /\ st'.(sc_last) = st.(sc_last) + zlen rows /\
    indexes c st.(sc_off) rows st'.(sc_off)) as Hstop.
  { intros s Ht Hl Ho. exists []. by rewrite app_nil_r, zlen_nil, Z.add_0_r. }
  revert i st Hstop. induction fuel as [|fuel IH]; intros i st Hstop; cbn [scan_loop]; destruct (_ <=? _)%nat;
    try (intros [= <-]; by apply Hstop); try done.
  destruct (load_entry _ _ _ _ _) as [| |h dt] eqn:Hl; try (intros [= <-]; by apply Hstop).
  destruct (Nat.ltb_spec (length c) (sc_off st + (ENTRY_HEADER_SIZE + Z.to_nat (h_data_len h)))) as [|Hfit];
    [intros [= <-]; by apply Hstop|].
  pose proof (load_entry_header _ _ _ _ _ Hl) as Hh.
  destruct (scan_entry _ _ _ _ _ _) as [st1 go] eqn:Hs. apply scan_entry_found in Hs; [|done]. destruct go.
  2:{ destruct Hs as (Ht & Hla & Ho). intros [= <-]. by apply Hstop. }
  destruct Hs as (Hconf & Ht & Hla & Ho). intros (rows & Ht' & Hla' & Hi)%IH.
  2:{ intros s ? ? ?. exists []. by rewrite app_nil_r, zlen_nil, Z.add_0_r. }
  exists ((st.(sc_off), h.(h_term)) :: rows). rewrite Ht', Ht, <- app_assoc, Hla', Hla, zlen_cons.
  split; [done|]. split; [lia|]. cbn. split; [done|]. exists h. split; [done|]. split; [done|]. split; [done|].
  split; [lia|]. by rewrite <- Ho.
Qed.

Lemma cut_behind (d : Disk FileName) inode off : (off <= length (content d inode))%nat ->
  let '(t, d', ev) := (if (off =? length (content d inode))%nat then mret true else ftruncate_uninterrupted inode off) d in
  t = true -> content d' inode = take off (content d inode).
Proof using Type.
  intros Hle. destruct (Nat.eqb_spec off (length (content d inode))) as [->|_]; cbn; [by rewrite take_ge|].
  pose proof (ftruncate_uninterrupted_spec inode off d) as Hf. destruct (ftruncate_uninterrupted _ _ _) as [[t d'] ev].
  destruct Hf as [_ Hf]. intros ->. by rewrite Hf, set_length_take.
Qed.

End segment.

#[local] Existing Instances decimal_ip_text lex_endpoint_order big_endian byte_sum marked_meta.

