(* ===== verification/SegmentLog.v ===== *)
(** * SegmentLog: the log on disk

    Models the class [SegmentLogStorage] of [src/braft/log.h] and
    [src/braft/log.cpp]: closed segments in order of their first index, an open
    one that is appended to, and a meta file with the first index of the log.
    Segments are shared by pointer in the code; the one a method holds is
    written back where it lives.  The latency metrics are left out. *)

From S2P Require Import LogStorage ConfigurationManager Segment Types PeerText Disk EntryCodec ProtoBufFile Prelude.

Record SegmentLogStorage : Set := mkSegmentLogStorage {
  _first_log_index : Z;
  _last_log_index : Z;
  _segments : list Segment;          (* a std::map by first index *)
  _open_segment : option Segment;
  _log_checksum_type : CheckSumType;
  _enable_sync : bool
}.
#[export] Instance SegmentLogStorage_eta : Settable SegmentLogStorage := fun l =>
  mkSegmentLogStorage l.(_first_log_index) l.(_last_log_index) l.(_segments) l.(_open_segment)
    l.(_log_checksum_type) l.(_enable_sync).

(** The constructor. *)
Definition SegmentLogStorage_new (enable_sync : bool) : SegmentLogStorage :=
  mkSegmentLogStorage 1 0 [] None CHECKSUM_MURMURHASH32 enable_sync.

(** The storage and the directory it works in. *)
Record Store : Type := mkStore { disk : Disk FileName; store : SegmentLogStorage }.
#[export] Instance Store_eta : Settable Store := fun w => mkStore w.(disk) w.(store).

(** [_segments[s->first_index()] = s], and [erase]. *)
Fixpoint put_segment (s : Segment) (l : list Segment) : list Segment :=
  match l with
  | [] => [s]
  | x :: l' =>
      if s.(_first_index) <? x.(_first_index) then s :: l
      else if s.(_first_index) =? x.(_first_index) then s :: l'
      else x :: put_segment s l'
  end.
Definition erase_segment (first_index : Z) (l : list Segment) : list Segment :=
  filter (fun x => x.(_first_index) <> first_index) l.

(** [log_meta.tmp] and the like. *)
Definition tmp_name (f : FileName) : FileName := mkFileName f.(base) true.
Definition meta_path : FileName := named LogMetaFile.

Section storage.
Context `{IT : IpText, RP : RawPack, CS : Checksums, PB : ConfigurationPBMeta, EPO : EndPointOrder}.
(** The generated code of [LogPBMeta], whose field is a 64-bit integer. *)
Context `{LM : !PbMessage Z}.
Context (flags : Flags) (reads : positive -> nat -> nat -> list ReadOutcome).
(** [butil::crc32c::IsFastCrc32Supported()]. *)
Context (fast_crc32 : bool).

Local Abbreviation StoreM := (M Store (DiskEvent FileName)).

Definition on_disk {A} (m : DM FileName A) : StoreM A := fun w =>
  let '(a, d, ev) := m w.(disk) in (a, w <| disk := d |>, ev).
Definition set_store (f : SegmentLogStorage -> SegmentLogStorage) : StoreM unit :=
  modify (fun w => w <| store := f w.(store) |>).
Definition check_that (b : bool) : StoreM unit := when (negb b) (emit CheckFailed).

Definition save_meta (log_index : Z) : StoreM Errno :=
  on_disk (save tmp_name meta_path log_index (flags.(Segment.raft_sync) || flags.(Segment.raft_sync_meta))).

Definition load_meta : StoreM Errno :=
  '(rc, m) ← on_disk (ProtoBufFile.load reads meta_path);
  match m with
  | Some first => set_store (fun l => l <| _first_log_index := first |>) ;; mret OK
  | None => mret rc
  end.

(** ** Appending *)

(** A new open segment after the last entry. *)
Definition create_segment : StoreM (Errno * Segment) :=
  w ← get; on_disk (create (Segment_open (w.(store).(_last_log_index) + 1) w.(store).(_log_checksum_type))).

(** The full open segment is closed and a new one created; on failure it is the
    open one again. *)
Definition roll_segment (prev : Segment) : StoreM bool :=
  set_store (fun l => l <| _segments := put_segment prev l.(_segments) |> <| _open_segment := None |>) ;;
  w ← get;
  '(rc, prev) ← on_disk (close flags prev w.(store).(_enable_sync));
  set_store (fun l => l <| _segments := put_segment prev l.(_segments) |>) ;;
  created ←
    (if negb (ok rc) then mret false
     else
       '(rc, s) ← create_segment;
       set_store (fun l => l <| _open_segment := Some s |>) ;;
       mret (ok rc));
  if negb created then
    set_store (fun l => l <| _segments := erase_segment prev.(_first_index) l.(_segments) |>
                          <| _open_segment := Some prev |>) ;;
    mret false
  else mret true.

(** [open_segment]: whether there is a segment to append to, [_open_segment]. *)
Definition open_segment : StoreM bool :=
  w ← get;
  created ←
    (match w.(store).(_open_segment) with
     | Some _ => mret true
     | None =>
         '(rc, s) ← create_segment;
         set_store (fun l => l <| _open_segment := if ok rc then Some s else None |>) ;;
         mret (ok rc)
     end);
  if negb created then mret false
  else
    w ← get;
    match w.(store).(_open_segment) with
    | Some s => if (flags.(raft_max_segment_size) <? s.(_bytes))%nat then roll_segment s else mret true
    | None => mret false
    end.

(** [segment->append(entry)] on the open segment. *)
Definition append_open (entry : LogEntry) : StoreM Errno :=
  w ← get;
  match w.(store).(_open_segment) with
  | None => mret ENEG1
  | Some s =>
      '(rc, s) ← on_disk (append s entry);
      set_store (fun l => l <| _open_segment := Some s |>) ;;
      mret rc
  end.

Definition sync_open (has_conf : bool) : StoreM Errno :=
  w ← get;
  match w.(store).(_open_segment) with
  | None => mret OK
  | Some s =>
      '(rc, s) ← on_disk (Segment.sync flags s w.(store).(_enable_sync) has_conf);
      set_store (fun l => l <| _open_segment := Some s |>) ;;
      mret rc
  end.

(** The loop of [append_entries]: how many were appended, and whether all. *)
Fixpoint append_loop (es : list LogEntry) (i : Z) : StoreM (Z * bool) :=
  match es with
  | [] => mret (i, true)
  | entry :: es' =>
      opened ← open_segment;
      if negb opened then mret (i, false)
      else
        rc ← append_open entry;
        if negb (ok rc) then mret (i, false)
        else
          set_store (fun l => l <| _last_log_index := l.(_last_log_index) + 1 |>) ;;
          append_loop es' (i + 1)
  end.

Definition append_entries (es : list LogEntry) : StoreM Z :=
  match es with
  | [] => mret 0
  | front :: _ =>
      w ← get;
      if negb (w.(store).(_last_log_index) + 1 =? front.(id).(index)) then mret (-1)
      else
        '(n, all) ← append_loop es 0;
        if negb all then mret n
        else sync_open (existsb (fun e => bool_decide (e.(type) = ENTRY_TYPE_CONFIGURATION)) es) ;; mret (zlen es)
  end.

Definition get_segment (w : Store) (index : Z) : option Segment * bool :=
  let l := w.(store) in
  let first_index := l.(_first_log_index) in
  let last_index := l.(_last_log_index) in
  if first_index =? last_index + 1 then (None, true)
  else if (index <? first_index) || (last_index + 1 <? index) then (None, true)
  else if index =? last_index + 1 then (None, true)
  else
    let closed := last (filter (fun s => s.(_first_index) <= index) l.(_segments)) in
    match l.(_open_segment) with
    | Some s => if s.(_first_index) <=? index then (Some s, true) else (closed, bool_decide (closed <> None))
    | None => (closed, bool_decide (closed <> None))
    end.

Definition get_entry (w : Store) (index : Z) : option LogEntry * bool :=
  match get_segment w index with
  | (Some s, b) => let '(e, b') := Segment.get_entry reads w.(disk) s index in (e, b && b')
  | (None, b) => (None, b)
  end.

Definition get_term (w : Store) (index : Z) : Z :=
  match (get_segment w index).1 with Some s => Segment.get_term s index | None => 0 end.

Definition append_entry (entry : LogEntry) : StoreM Errno :=
  opened ← open_segment;
  if negb opened then mret EIO
  else
    ret ← append_open entry;
    w ← get;
    if negb (ok ret) && negb (bool_decide (ret = EEXIST)) then mret ret
    else if bool_decide (ret = EEXIST) && negb (entry.(id).(term) =? get_term w entry.(id).(index)) then mret EINVAL
    else
      set_store (fun l => l <| _last_log_index := l.(_last_log_index) + 1 |>) ;;
      sync_open false.

(** ** Truncating *)

(** [pop_segments]: the popped ones, in order. *)
Definition pop_segments (first_index_kept : Z) : StoreM (list Segment) :=
  set_store (fun l => l <| _first_log_index := first_index_kept |>) ;;
  w ← get;
  let segs := w.(store).(_segments) in
  let kept := pop_front_while (fun s => s.(_last_index) <? first_index_kept) segs in
  let popped := take (length segs - length kept) segs in
  set_store (fun l => l <| _segments := kept |>) ;;
  match kept with
  | _ :: _ => mret popped
  | [] =>
      match w.(store).(_open_segment) with
      | Some s =>
          if s.(_last_index) <? first_index_kept then
            set_store (fun l => l <| _open_segment := None |> <| _last_log_index := first_index_kept - 1 |>) ;;
            mret (popped ++ [s])
          else check_that (s.(_first_index) <=? first_index_kept) ;; mret popped
      | None => set_store (fun l => l <| _last_log_index := first_index_kept - 1 |>) ;; mret popped
      end
  end.

(** The loops that unlink: results ignored, or up to the first failure. *)
Definition unlink_all (popped : list Segment) : StoreM unit := mapM_ (fun s => on_disk (unlink s) ;; skip) popped.
Fixpoint unlink_until_failure (ret : Errno) (popped : list Segment) : StoreM Errno :=
  match popped with
  | [] => mret ret
  | s :: popped' => rc ← on_disk (unlink s); if negb (ok rc) then mret rc else unlink_until_failure rc popped'
  end.

Definition truncate_prefix (first_index_kept : Z) : StoreM Errno :=
  w ← get;
  if first_index_kept <=? w.(store).(_first_log_index) then mret OK
  else
    rc ← save_meta first_index_kept;
    if negb (ok rc) then mret ENEG1
    else
      popped ← pop_segments first_index_kept;
      unlink_all popped ;;
      mret OK.

(** [pop_segments_from_back]: the popped ones from the back, and the last
    segment kept. *)
Definition pop_segments_from_back (last_index_kept : Z) : StoreM (list Segment * option Segment) :=
  set_store (fun l => l <| _last_log_index := last_index_kept |>) ;;
  w ← get;
  let kept_open := match w.(store).(_open_segment) with
                   | Some s => s.(_first_index) <=? last_index_kept
                   | None => false
                   end in
  if kept_open then mret ([], w.(store).(_open_segment))
  else
    let popped_open := match w.(store).(_open_segment) with Some s => [s] | None => [] end in
    let segs := w.(store).(_segments) in
    let kept := pop_back_while (fun s => last_index_kept <? s.(_first_index)) segs in
    let popped := popped_open ++ rev (drop (length kept) segs) in
    set_store (fun l => l <| _open_segment := None |>
      <| _segments := foldr (fun s l => erase_segment s.(_first_index) l) segs popped |>) ;;
    w ← get;
    match last w.(store).(_segments) with
    | Some s => mret (popped, Some s)
    | None => set_store (fun l => l <| _first_log_index := last_index_kept + 1 |>) ;; mret (popped, None)
    end.

(** Where a segment that was mutated lives. *)
Definition write_back (was_open : bool) (s : Segment) : StoreM unit :=
  set_store (fun l => if was_open then l <| _open_segment := Some s |> else l <| _segments := put_segment s l.(_segments) |>).

(** The end of [truncate_suffix]: the last segment is cut, and a closed one
    that was becomes the open one. *)
Definition reopen_truncated (s : Segment) : StoreM unit :=
  w ← get; check_that (bool_decide (w.(store).(_open_segment) = None)) ;;
  set_store (fun l => l <| _segments := erase_segment s.(_first_index) l.(_segments) |> <| _open_segment := Some s |>).

Definition truncate_last (in_open : bool) (s : Segment) (last_index_kept : Z) : StoreM Errno :=
  let closed := negb s.(_is_open) in
  '(ret, s) ← on_disk (truncate s last_index_kept);
  write_back in_open s ;;
  when (ok ret && closed && s.(_is_open)) (reopen_truncated s) ;;
  mret ret.

Definition truncate_suffix (last_index_kept : Z) : StoreM Errno :=
  '(popped, last_segment) ← pop_segments_from_back last_index_kept;
  w ← get;
  let l := w.(store) in
  let in_open := bool_decide (l.(_open_segment) <> None) in
  match last_segment with
  | Some s =>
      if l.(_first_log_index) <=? l.(_last_log_index) then
        ret ← unlink_until_failure ENEG1 popped;
        if negb (ok ret) && negb (bool_decide (popped = [])) then mret ret
        else
          truncate_last in_open s last_index_kept
      else
        set_store (fun l => l <| _segments := erase_segment s.(_first_index) l.(_segments) |> <| _open_segment := None |>) ;;
        unlink_until_failure ENEG1 (popped ++ [s])
  | None => unlink_until_failure ENEG1 popped
  end.

Definition reset (next_log_index : Z) : StoreM Errno :=
  if next_log_index <=? 0 then mret EINVAL
  else
    w ← get;
    let popped := w.(store).(_segments) ++ match w.(store).(_open_segment) with Some s => [s] | None => [] end in
    set_store (fun l => l <| _segments := [] |> <| _open_segment := None |>
      <| _first_log_index := next_log_index |> <| _last_log_index := next_log_index - 1 |>) ;;
    rc ← save_meta next_log_index;
    if negb (ok rc) then mret ENEG1 else unlink_all popped ;; mret OK.

(** ** Starting *)

(** [strncmp(name, "log_", 4) == 0]. *)
Definition log_prefixed (f : FileName) : bool :=
  match f.(base) with
  | OtherFile s => String.prefix "log_"%string s
  | _ => true
  end.

(** One name of the directory in [list_segments]; other files are those whose
    names match neither pattern.  [false] is -1. *)
Definition list_name (is_empty : bool) (f : FileName) : StoreM bool :=
  if (is_empty && log_prefixed f) || f.(is_tmp) then on_disk (sys_unlink f) ;; mret true
  else
    w ← get;
    match f.(base) with
    | ClosedSegment first last =>
        set_store (fun l => l <| _segments := put_segment (Segment_closed first last l.(_log_checksum_type)) l.(_segments) |>) ;;
        mret true
    | Inprogress first =>
        match w.(store).(_open_segment) with
        | None => set_store (fun l => l <| _open_segment := Some (Segment_open first l.(_log_checksum_type)) |>) ;; mret true
        | Some _ => mret false
        end
    | _ => mret true
    end.

Fixpoint list_names (is_empty : bool) (fs : list FileName) : StoreM bool :=
  match fs with
  | [] => mret true
  | f :: fs' => go ← list_name is_empty f; if negb go then mret false else list_names is_empty fs'
  end.

(** The loop over the closed segments: whether it went through, those in the
    map after it, and the last index seen, -1 for none. *)
Fixpoint check_segments (segs : list Segment) (last_log_index : Z) : StoreM (bool * list Segment * Z) :=
  match segs with
  | [] => mret (true, [], last_log_index)
  | s :: segs' =>
      w ← get;
      let first_log := w.(store).(_first_log_index) in
      if s.(_last_index) <? s.(_first_index) then mret (false, segs, last_log_index)
      else if negb (last_log_index =? -1) && negb (s.(_first_index) =? last_log_index + 1) then mret (false, segs, last_log_index)
      else if (last_log_index =? -1) && (first_log <? s.(_first_index)) then mret (false, segs, last_log_index)
      else if (last_log_index =? -1) && (s.(_last_index) <? first_log) then
        on_disk (unlink s) ;; check_segments segs' last_log_index
      else
        '(go, kept, last) ← check_segments segs' s.(_last_index);
        mret (go, s :: kept, last)
  end.

Definition list_segments (is_empty : bool) : StoreM Errno :=
  w ← get;
  go ← list_names is_empty (elements (dom w.(disk).(names)));
  if negb go then mret ENEG1
  else
    w ← get;
    '(go, kept, last_log_index) ← check_segments w.(store).(_segments) (-1);
    set_store (fun l => l <| _segments := kept |>) ;;
    if negb go then mret ENEG1
    else
      w ← get;
      match w.(store).(_open_segment) with
      | Some s => check_that (last_log_index <=? s.(_last_index))
      | None => skip
      end ;;
      mret OK.

(** The closed segments are loaded in place, in order, up to the first failure. *)
Fixpoint load_closed (before todo : list Segment) (cm : ConfigurationManager) : StoreM (Errno * ConfigurationManager) :=
  match todo with
  | [] => mret (OK, cm)
  | s :: todo' =>
      '(rc, s, cm) ← on_disk (Segment.load flags reads s cm);
      set_store (fun l => l <| _segments := before ++ s :: todo' |>) ;;
      if negb (ok rc) then mret (rc, cm)
      else
        set_store (fun l => l <| _last_log_index := s.(_last_index) |>) ;;
        load_closed (before ++ [s]) todo' cm
  end.

Definition load_open (cm : ConfigurationManager) : StoreM (Errno * ConfigurationManager) :=
  w ← get;
  match w.(store).(_open_segment) with
  | None => mret (OK, cm)
  | Some s =>
      '(rc, s, cm) ← on_disk (Segment.load flags reads s cm);
      set_store (fun l => l <| _open_segment := Some s |>) ;;
      if negb (ok rc) then mret (rc, cm)
      else if s.(_last_index) <? w.(store).(_first_log_index) then
        on_disk (unlink s) ;; set_store (fun l => l <| _open_segment := None |>) ;; mret (OK, cm)
      else set_store (fun l => l <| _last_log_index := s.(_last_index) |>) ;; mret (OK, cm)
  end.

Definition load_segments (cm : ConfigurationManager) : StoreM (Errno * ConfigurationManager) :=
  w ← get;
  '(rc, cm) ← load_closed [] w.(store).(_segments) cm;
  if negb (ok rc) then mret (rc, cm)
  else
    '(rc, cm) ← load_open cm;
    if negb (ok rc) then mret (rc, cm)
    else
      set_store (fun l => if l.(_last_log_index) =? 0 then l <| _last_log_index := l.(_first_log_index) - 1 |> else l) ;;
      mret (OK, cm).

(** [init]; creating the directory is one call. *)
Definition init (cm : ConfigurationManager) : StoreM (Errno * ConfigurationManager) :=
  made ← on_disk sys_fsync;
  if negb made then mret (ENEG1, cm)
  else
    set_store (fun l => l <| _log_checksum_type := if fast_crc32 then CHECKSUM_CRC32 else CHECKSUM_MURMURHASH32 |>) ;;
    meta ← load_meta;
    let is_empty := bool_decide (meta = ENOENT) in
    '(ret, cm) ←
      (if negb (ok meta) && negb is_empty then mret (meta, cm)
       else
         ret ← list_segments is_empty;
         if negb (ok ret) then mret (ret, cm) else load_segments cm);
    if is_empty then
      set_store (fun l => l <| _first_log_index := 1 |> <| _last_log_index := 0 |>) ;;
      ret ← save_meta 1; mret (ret, cm)
    else mret (ret, cm).

(** ** The rest *)
Definition list_files (w : Store) : list FileName :=
  meta_path :: map file_name w.(store).(_segments)
  ++ match w.(store).(_open_segment) with Some s => [file_name s] | None => [] end.

(** [sync] fsyncs the closed segments. *)
Fixpoint sync_closed (before todo : list Segment) : StoreM unit :=
  match todo with
  | [] => skip
  | s :: todo' =>
      '(_, s) ← on_disk (Segment.sync flags s true false);
      set_store (fun l => l <| _segments := before ++ s :: todo' |>) ;;
      sync_closed (before ++ [s]) todo'
  end.
Definition sync : StoreM unit := w ← get; sync_closed [] w.(store).(_segments).
End storage.
