(* ===== verification/SegmentLogProofs.v ===== *)
(** * SegmentLogProofs: the log on disk keeps a log

    The storage represents an abstract log when its closed segments hold
    consecutive runs of entries, the open one what follows, and the log is what
    they hold from its first index on.  Each operation is proved against that,
    for any outcome of the calls it makes. *)

From S2P Require Import LogStorage ConfigurationManager Segment SegmentProofs SegmentLog Types PeerText Disk EntryCodec ProtoBufFile Prelude.

Section storage.
Context `{IT : IpText, RP : RawPack, CS : Checksums, PB : ConfigurationPBMeta, EPO : EndPointOrder}.
Context `{LM : !PbMessage Z}.
Context (flags : Flags) (reads : positive -> nat -> nat -> list ReadOutcome).

#[local] Arguments erase_segment : simpl never.

(** ** The invariant *)
Fixpoint closed_hold (d : Disk FileName) (t : CheckSumType) (f : Z) (segs : list Segment) (es : list LogEntry) : Prop :=
  match segs with
  | [] => es = []
  | s :: segs' => exists es1 es2 inode,
      es = es1 ++ es2 /\ es1 <> [] /\ seg_holds d s es1 [] inode /\ d.(names) !! closed_name s = Some inode /\
      s.(_first_index) = f /\ s.(Segment._checksum_type) = t /\ s.(_is_open) = false /\
      closed_hold d t (f + zlen es1) segs' es2
  end.

(** The segment appended to; when a roll failed half way it is closed already. *)
Definition open_holds (d : Disk FileName) (t : CheckSumType) (f : Z) (o : option Segment) (es : list LogEntry) (junk : IOBuf) : Prop :=
  match o with
  | None => es = [] /\ junk = []
  | Some s => exists inode,
      seg_holds d s es junk inode /\ s.(_first_index) = f /\ s.(Segment._checksum_type) = t /\ torn t junk /\
      (s.(_is_open) = false -> es <> [] /\ (d.(names) !! closed_name s = Some inode -> d.(names) !! open_name s = None))
  end.

(** The files of closed segments are those of the segments held, and possibly
    older ones that could not be removed. *)
Definition live (l : SegmentLogStorage) (s : Segment) : Prop :=
  s ∈ l.(_segments) \/ (l.(_open_segment) = Some s /\ s.(_is_open) = false).
Definition directory_ok (w : Store) (f : Z) : Prop :=
  forall F L, w.(disk).(names) !! named (ClosedSegment F L) <> None ->
    F < f \/ exists s, live w.(store) s /\ closed_name s = named (ClosedSegment F L).

Record sound (w : Store) (l : Log) (f : Z) (es1 es2 : list LogEntry) (junk : IOBuf) : Prop := {
  so_wf : disk_wf w.(disk);
  so_closed : closed_hold w.(disk) w.(store).(_log_checksum_type) f w.(store).(_segments) es1;
  so_open : open_holds w.(disk) w.(store).(_log_checksum_type) (f + zlen es1) w.(store).(_open_segment) es2 junk;
  so_range : f <= l.(log_first) <= f + zlen (es1 ++ es2);
  so_entries : l.(log_entries) = drop (Z.to_nat (l.(log_first) - f)) (es1 ++ es2);
  so_head : forall s, head w.(store).(_segments) = Some s -> l.(log_first) <= s.(_last_index);
  so_only : w.(store).(_segments) = [] -> es2 <> [] -> l.(log_first) < f + zlen es2;
  so_first : w.(store).(_first_log_index) = l.(log_first);
  so_last : w.(store).(_last_log_index) = f + zlen (es1 ++ es2) - 1;
  so_dir : directory_ok w f
}.

Lemma sound_log_last w l f es1 es2 junk : sound w l f es1 es2 junk -> log_last l = f + zlen (es1 ++ es2) - 1.
Proof using Type. intros []. unfold log_last. rewrite so_entries0. unfold zlen in *. rewrite length_drop. lia. Qed.

(** Nothing was written past the last entry. *)
Definition ready (w : Store) : Prop := forall s, w.(store).(_open_segment) = Some s -> s.(_pos) = s.(_bytes).

(** *** Names *)
Lemma names_differ s s' :
  s.(_first_index) <> s'.(_first_index) ->
  closed_name s <> open_name s' /\ closed_name s <> closed_name s' /\ open_name s <> open_name s' /\ open_name s <> closed_name s'.
Proof using Type. intros Hf. repeat split; intros [=]; done. Qed.

Lemma closed_first d t f segs es s :
  closed_hold d t f segs es -> s ∈ segs -> f <= s.(_first_index) < f + zlen es /\ s.(_last_index) < f + zlen es.
Proof using Type.
  revert f es. induction segs as [|x segs IH]; intros f es Hc Hs; [by apply elem_of_nil in Hs|].
  destruct Hc as (es1 & es2 & inode & -> & Hne & Hx & _ & Hf & _ & _ & Hc). rewrite zlen_app.
  assert (0 < zlen es1) by (destruct es1; [done|]; rewrite zlen_cons; pose proof (zlen_nonneg es1); lia).
  apply elem_of_cons in Hs as [->|Hs].
  - pose proof (sh_last _ _ _ _ _ Hx) as Hl. pose proof (zlen_nonneg es2). lia.
  - specialize (IH _ _ Hc Hs). lia.
Qed.

Lemma closed_frame d d' t f segs es :
  (forall s inode, s ∈ segs -> d.(names) !! closed_name s = Some inode ->
     d'.(names) !! closed_name s = Some inode /\ content d' inode = content d inode) ->
  closed_hold d t f segs es -> closed_hold d' t f segs es.
Proof using Type.
  revert f es. induction segs as [|s segs IH]; intros f es Hd Hc; [done|].
  destruct Hc as (es1 & es2 & inode & -> & Hne & Hs & Hn & Hf & Ht & Ho & Hc).
  destruct (Hd s inode ltac:(left) Hn) as [Hn' Hco]. exists es1, es2, inode. split_and!; try done.
  - destruct Hs. split; try done; [|by rewrite Hco]. left. unfold file_name. by rewrite Ho.
  - apply IH; [|done]. intros s' i' Hs'. apply Hd. by right.
Qed.

(** A change to an inode that another name leads to leaves the closed segments. *)
Lemma closed_frame_inode d d' t f segs es g inode :
  disk_wf d -> d.(names) !! g = Some inode -> (forall s, s ∈ segs -> closed_name s <> g) ->
  (forall s, s ∈ segs -> d'.(names) !! closed_name s = d.(names) !! closed_name s) ->
  (forall i, i <> inode -> content d' i = content d i) ->
  closed_hold d t f segs es -> closed_hold d' t f segs es.
Proof using Type.
  intros [_ Hinj] Hg Hne Hn Hc. apply closed_frame. intros s i Hs Hi. rewrite Hn by done. split; [done|].
  apply Hc. intros ->. apply (Hne s Hs). by eapply Hinj.
Qed.

Lemma closed_hold_app d t f segs segs' es es' :
  closed_hold d t f segs es -> closed_hold d t (f + zlen es) segs' es' -> closed_hold d t f (segs ++ segs') (es ++ es').
Proof using Type.
  revert f es. induction segs as [|s segs IH]; intros f es Hc Hc'.
  - cbn in Hc. subst es. by rewrite zlen_nil, Z.add_0_r in Hc'.
  - destruct Hc as (es1 & es2 & inode & -> & Hne & Hs & Hn & Hf & Ht & Ho & Hc). cbn. exists es1, (es2 ++ es'), inode.
    split_and!; try done; [by rewrite app_assoc|]. apply IH; [done|]. by rewrite zlen_app, Z.add_assoc in Hc'.
Qed.

(** *** The map of segments *)
Lemma put_last d t f segs es s :
  closed_hold d t f segs es -> s.(_first_index) = f + zlen es -> put_segment s segs = segs ++ [s].
Proof using Type.
  intros Hc Hs. assert (forall x, x ∈ segs -> x.(_first_index) < s.(_first_index)) as Hlt.
  { intros x Hx. pose proof (closed_first _ _ _ _ _ _ Hc Hx). lia. }
  clear Hc Hs. induction segs as [|x segs IH]; [done|]. cbn. pose proof (Hlt x ltac:(left)).
  rewrite (proj2 (Z.ltb_ge _ _)), (proj2 (Z.eqb_neq _ _)) by lia. f_equal. apply IH. intros y Hy. apply Hlt. by right.
Qed.

Lemma put_again segs s s' :
  (forall x, x ∈ segs -> x.(_first_index) < s.(_first_index)) -> s'.(_first_index) = s.(_first_index) ->
  put_segment s' (segs ++ [s]) = segs ++ [s'].
Proof using Type.
  intros Hlt Hs. induction segs as [|x segs IH]; cbn.
  - by rewrite Hs, Z.ltb_irrefl, Z.eqb_refl.
  - pose proof (Hlt x ltac:(left)). rewrite (proj2 (Z.ltb_ge _ _)), (proj2 (Z.eqb_neq _ _)) by lia. f_equal. apply IH.
    intros y Hy. apply Hlt. by right.
Qed.

Lemma erase_last segs s :
  (forall x, x ∈ segs -> x.(_first_index) < s.(_first_index)) -> erase_segment s.(_first_index) (segs ++ [s]) = segs.
Proof using Type.
  intros Hlt. unfold erase_segment. rewrite filter_app, filter_cons, decide_False by (by intros []). rewrite app_nil_r.
  apply filter_keep_all. intros x Hx Heq. specialize (Hlt x Hx). lia.
Qed.

(** ** Appending *)

(** The directory is as before but for the name [g], and no named file changed. *)
Definition others_kept (g : FileName) (d d' : Disk FileName) : Prop :=
  (forall h, h <> g -> d'.(names) !! h = d.(names) !! h) /\
  (forall i, (exists h, h <> g /\ d.(names) !! h = Some i) -> content d' i = content d i).

Lemma closed_others g d d' t f segs es :
  others_kept g d d' -> (forall s, s ∈ segs -> closed_name s <> g) -> closed_hold d t f segs es -> closed_hold d' t f segs es.
Proof using Type.
  intros [Hn Hc] Hne. apply closed_frame. intros s inode Hs Hi. rewrite Hn by auto. split; [done|]. apply Hc.
  exists (closed_name s). split; [by apply Hne|done].
Qed.

Lemma create_segment_spec w :
  disk_wf w.(disk) ->
  let '((rc, s), w', ev) := create_segment w in
  w'.(store) = w.(store) /\ disk_wf w'.(disk) /\ (whole w.(disk).(script) -> whole w'.(disk).(script)) /\
  others_kept (named (Inprogress (w.(store).(_last_log_index) + 1))) w.(disk) w'.(disk) /\
  s.(_first_index) = w.(store).(_last_log_index) + 1 /\ s.(Segment._checksum_type) = w.(store).(_log_checksum_type) /\
  s.(_is_open) = true /\ s.(_pos) = s.(_bytes) /\
  (ok rc = true -> exists inode, seg_holds w'.(disk) s [] [] inode) /\
  (ok rc = false -> same_files w.(disk) w'.(disk)).
Proof using Type.
  intros Hwf. unfold create_segment, on_disk, create, Segment_open. unfold mbind, M_bind, get. cbn [_is_open negb].
  set (g := named (Inprogress (w.(store).(_last_log_index) + 1))).
  pose proof (sys_create_spec g w.(disk) Hwf) as Hc. unfold open_name. cbn [_first_index]. fold g.
  destruct (sys_create g (disk w)) as [[r d'] ev]. destruct Hc as (Hwf' & Hsc & Hn & Hco & Hr). cbn.
  split_and!; try done.
  - split; [intros h Hh; by apply Hn|done].
  - destruct r as [inode|]; [|done]. intros _. exists inode. destruct Hr as [Hg Hnil].
    split; cbn; try done; [by left|rewrite zlen_nil; lia].
  - by destruct r.
Qed.

(** [create] for a storage that holds a log and has no open segment. *)
Lemma sound_create w l f es1 :
  sound w l f es1 [] [] -> w.(store).(_open_segment) = None ->
  let '((rc, s), w', ev) := create_segment w in
  forall o, o = (if ok rc then Some s else None) ->
  let w'' := w' <| store := w'.(store) <| _open_segment := o |> |> in
  sound w'' l f es1 [] [] /\ ready w'' /\ (whole w.(disk).(script) -> whole w''.(disk).(script)).
Proof using Type.
  intros H Hopen. pose proof (create_segment_spec w (so_wf _ _ _ _ _ _ H)) as Hc.
  destruct (create_segment w) as [[[rc s] w'] ev]. intros o ->.
  destruct Hc as (Hst & Hwf' & Hsc & Hoth & Hf & Ht & Hio & Hpos & Hok & Hbad). cbv zeta.
  pose proof (so_last _ _ _ _ _ _ H) as Hlast. rewrite app_nil_r in Hlast.
  split; [|split; [intros x; cbn; destruct (ok rc); [by intros [= <-]|done]|done]].
  assert (closed_hold w'.(disk) w.(store).(_log_checksum_type) f w.(store).(_segments) es1) as Hcl.
  { eapply closed_others; [done|by intros s' _|apply (so_closed _ _ _ _ _ _ H)]. }
  destruct H. split; cbn; rewrite ?Hst; try done.
  - destruct (ok rc); [|done].
    destruct (Hok eq_refl) as [inode Hs]. exists inode. split_and!; [done|lia|done|by left|by rewrite Hio].
  - intros F L. cbn. rewrite (proj1 Hoth) by done. rewrite ?Hst. intros Hn.
    destruct (so_dir0 F L Hn) as [?|(x & [Hx|[Hx _]] & He)]; [by left| |congruence]. right. exists x. split; [by left|done].
Qed.

(** The segment a roll closes has no file under its closed name yet. *)
Lemma no_closed_file w l f es1 es2 junk s :
  sound w l f es1 es2 junk -> w.(store).(_open_segment) = Some s -> s.(_is_open) = true ->
  forall L, w.(disk).(names) !! named (ClosedSegment s.(_first_index) L) = None.
Proof using Type.
  intros H Ho Hio L. pose proof (so_open _ _ _ _ _ _ H) as Hop. rewrite Ho in Hop. destruct Hop as (inode & _ & Hf & _).
  apply dec_stable. intros Hn. destruct (so_dir _ _ _ _ _ _ H _ _ Hn) as [Hlt|(x & [Hx|[Hx Hxo]] & He)].
  - pose proof (zlen_nonneg es1). lia.
  - pose proof (closed_first _ _ _ _ _ _ (so_closed _ _ _ _ _ _ H) Hx). injection He as He _. lia.
  - congruence.
Qed.

Lemma close_spec d s es inode will_sync :
  disk_wf d -> seg_holds d s es [] inode ->
  (s.(_is_open) = true -> d.(names) !! closed_name s = None) ->
  (s.(_is_open) = false -> d.(names) !! closed_name s = Some inode -> d.(names) !! open_name s = None) ->
  let '((rc, s'), d', ev) := close flags s will_sync d in
  disk_wf d' /\ (whole d.(script) -> whole d'.(script)) /\ (forall i, content d' i = content d i) /\
  (forall h, h <> open_name s -> h <> closed_name s -> d'.(names) !! h = d.(names) !! h) /\
  seg_holds d' s' es [] inode /\ s'.(_first_index) = s.(_first_index) /\ s'.(_last_index) = s.(_last_index) /\
  s'.(Segment._checksum_type) = s.(Segment._checksum_type) /\ s'.(_pos) = s.(_pos) /\ s'.(_bytes) = s.(_bytes) /\
  if ok rc then s'.(_is_open) = false /\ d'.(names) !! closed_name s = Some inode /\ d'.(names) !! open_name s = None
  else d'.(names) = d.(names) /\ (s'.(_is_open) = true -> s.(_is_open) = true) /\
       (s.(_is_open) = true -> s'.(_is_open) = false -> d.(names) !! open_name s = Some inode).
Proof using Type.
  intros Hwf Hs Hno Hstuck. unfold close, check. unfold mbind, M_bind.
  assert (when (negb (_is_open s)) (emit CheckFailed) d = (tt, d, if s.(_is_open) then [] else [@CheckFailed FileName])) as ->
    by (by destruct (_is_open s)).
  set (m := if (_ && _)%bool then _ else _).
  assert (touches None d (state_of (m d))) as Hm.
  { unfold m. destruct (_ && _); [apply (proj1 (fsync_touches None d))|done]. }
  destruct (m d) as [[r d1] e1]. unfold state_of in Hm; cbn in Hm. clear m.
  assert (same_segment_disk : d1.(names) = d.(names) /\ forall i, content d1 i = content d i).
  { destruct Hm as (Hn & _ & Hc & _). split; [done|]. intros i. by apply Hc. }
  destruct same_segment_disk as [Hn1 Hc1]. pose proof (touches_wf _ _ _ Hm Hwf) as Hwf1. pose proof (touches_whole _ _ _ Hm) as Hsc1.
  assert (seg_holds d1 s es [] inode) as Hs1 by (eapply seg_holds_frame; [exact Hs|by rewrite Hn1|by rewrite Hn1|apply Hc1|done..]).
  destruct r; cbn [negb]; unfold mret, M_ret.
  2:{ cbn. split_and!; try done; [by intros; rewrite Hn1|split_and!; try done; intros; congruence]. }
  set (s2 := s <| _is_open := false |>). pose proof (sys_rename_spec (open_name s) (closed_name s) d1 ltac:(done) Hwf1) as Hr.
  change (open_name s2) with (open_name s). change (closed_name s2) with (closed_name s).
  destruct (sys_rename (open_name s) (closed_name s) d1) as [[b d2] e2]. destruct Hr as (Hwf2 & Hsc2 & Hf2 & Hn2 & Hb).
  assert (forall i, content d2 i = content d i) as Hc2 by (intros i; unfold content in *; by rewrite Hf2).
  pose proof (sh_name _ _ _ _ _ Hs1) as Hnm. unfold seg_named, file_name in Hnm. rewrite Hn1 in Hnm, Hb, Hn2.
  assert (d.(names) !! open_name s = Some inode -> d.(names) !! closed_name s = None ->
    seg_named d s2 inode) as Hthird by (intros; right; done).
  destruct b; cbn; split_and!; try done; [by auto| | |by auto| |].
  - destruct Hb as (Hcl & Hne & Hno'). assert (d1.(names) !! open_name s = Some inode) as Hop.
    { rewrite Hn1. destruct (_is_open s); [by destruct Hnm as [?|[? _]]|].
      destruct Hnm as [Hc|(_ & ? & _)]; [|done]. by rewrite (Hstuck eq_refl Hc) in Hne. }
    destruct Hs1. split; try done; [left|by rewrite Hc2, <- Hc1]. change (file_name s2) with (closed_name s). by rewrite Hcl, <- Hn1.
  - destruct Hb as (Hcl & Hne & Hno'). change (ok OK) with true. split; [done|]. split; [|done]. rewrite Hcl.
    destruct (_is_open s); [by destruct Hnm as [?|[? _]]|].
    destruct Hnm as [Hc|(_ & ? & _)]; [|done]. by rewrite (Hstuck eq_refl Hc) in Hne.
  - destruct Hs1. split; try done; [|by rewrite Hc2, <- Hc1]. unfold seg_named. destruct Hb as (-> & _). rewrite Hn1.
    destruct (_is_open s) eqn:Ho; [right; split_and!; try done; [by destruct Hnm as [?|[? _]]|by apply Hno]|].
    destruct Hnm as [?|(_ & ? & ?)]; [by left|by right].
  - destruct Hb as (Hb & _). change (ok ENEG1) with false. split_and!; [by rewrite Hb|done|].
    intros Ho _. rewrite Ho in Hnm. by destruct Hnm as [?|[? _]].
Qed.

(** The open segment in another state, holding the same entries. *)
Lemma sound_reopen w l f es1 es2 s inode d' s' :
  sound w l f es1 es2 [] -> w.(store).(_open_segment) = Some s ->
  disk_wf d' -> (forall h, h <> open_name s -> h <> closed_name s -> d'.(names) !! h = w.(disk).(names) !! h) ->
  (forall i, content d' i = content w.(disk) i) ->
  seg_holds d' s' es2 [] inode -> s'.(_first_index) = s.(_first_index) -> s'.(_last_index) = s.(_last_index) ->
  s'.(Segment._checksum_type) = s.(Segment._checksum_type) ->
  (s'.(_is_open) = false -> es2 <> [] /\ (d'.(names) !! closed_name s' = Some inode -> d'.(names) !! open_name s' = None)) ->
  (s'.(_is_open) = true -> d'.(names) !! closed_name s = None) ->
  let w' := w <| disk := d' |> <| store := w.(store) <| _open_segment := Some s' |> |> in sound w' l f es1 es2 [].
Proof using Type.
  intros H Ho Hwf Hn Hc Hs Hf Hl Ht Hio Hno w'. pose proof H as []. rewrite Ho in so_open0. destruct so_open0 as (i0 & Hs0 & Hf0 & Ht0 & _).
  assert (forall x, x ∈ w.(store).(_segments) -> x.(_first_index) <> s.(_first_index)) as Hdiff.
  { intros x Hx. pose proof (closed_first _ _ _ _ _ _ so_closed0 Hx). lia. }
  split; cbn; try done.
  - eapply closed_frame; [|exact so_closed0]. intros x i Hx Hi. destruct (names_differ _ _ (Hdiff x Hx)) as (N1 & N2 & _).
    rewrite Hn by done. by split; [|apply Hc].
  - exists inode. rewrite Hf, Ht. split_and!; try done. by left.
  - intros F L. cbn. destruct (decide (named (ClosedSegment F L) = closed_name s)) as [He|Hne].
    + intros Hx. right. exists s'. split; [|by unfold closed_name in *; rewrite Hf, Hl].
      right. split; [done|]. apply not_true_is_false. intros Ho'. rewrite He in Hx. by rewrite Hno in Hx.
    + rewrite Hn by done. intros Hx. destruct (so_dir0 F L Hx) as [?|(x & [Hx'|[Hx' Hxo]] & He)]; [by left|right; exists x; by split; [left|]|].
      rewrite Ho in Hx'. injection Hx' as <-. congruence.
Qed.

(** A closed open segment joins the others. *)
Lemma sound_closed w l f es1 es2 s inode d' s' :
  sound w l f es1 es2 [] -> w.(store).(_open_segment) = Some s -> es2 <> [] ->
  disk_wf d' -> (forall h, h <> open_name s -> h <> closed_name s -> d'.(names) !! h = w.(disk).(names) !! h) ->
  (forall i, content d' i = content w.(disk) i) ->
  seg_holds d' s' es2 [] inode -> s'.(_first_index) = s.(_first_index) -> s'.(_last_index) = s.(_last_index) ->
  s'.(Segment._checksum_type) = s.(Segment._checksum_type) -> s'.(_is_open) = false -> d'.(names) !! closed_name s = Some inode ->
  let w' := w <| disk := d' |> <| store := w.(store) <| _segments := w.(store).(_segments) ++ [s'] |> <| _open_segment := None |> |> in
  sound w' l f (es1 ++ es2) [] [].
Proof using Type.
  intros H Ho Hne Hwf Hn Hc Hs Hf Hl Ht Hio Hcl w'. pose proof H as []. rewrite Ho in so_open0. destruct so_open0 as (i0 & Hs0 & Hf0 & Ht0 & _).
  assert (forall x, x ∈ w.(store).(_segments) -> x.(_first_index) <> s.(_first_index)) as Hdiff.
  { intros x Hx. pose proof (closed_first _ _ _ _ _ _ so_closed0 Hx). lia. }
  assert (closed_name s' = closed_name s) as Hcn by (unfold closed_name; by rewrite Hf, Hl).
  split; cbn; rewrite ?app_nil_r; try done.
  - apply closed_hold_app.
    + eapply closed_frame; [|exact so_closed0]. intros x i Hx Hi. destruct (names_differ _ _ (Hdiff x Hx)) as (N1 & N2 & _).
      rewrite Hn by done. by split; [|apply Hc].
    + cbn. exists es2, [], inode. rewrite app_nil_r, Hcn, Hf, Ht. by split_and!.
  - intros x. destruct (_segments (store w)) as [|y segs] eqn:Hsegs; cbn; [|intros [= <-]; by apply so_head0].
    intros [= <-]. rewrite Hl. pose proof (sh_last _ _ _ _ _ Hs0). rewrite so_closed0 in *. cbn in *. rewrite zlen_nil in *.
    pose proof (so_only0 eq_refl Hne). lia.
  - intros F L. cbn. destruct (decide (named (ClosedSegment F L) = closed_name s)) as [He|Hne'].
    + intros _. right. exists s'. split; [left; cbn; apply elem_of_app; right; by left|]. by rewrite Hcn.
    + rewrite Hn by done. intros Hx. destruct (so_dir0 F L Hx) as [?|(x & [Hx'|[Hx' Hxo]] & He)]; [by left| |].
      * right. exists x. split; [left; cbn; apply elem_of_app; by left|done].
      * rewrite Ho in Hx'. injection Hx' as <-. congruence.
Qed.

Lemma sound_roll w l f es1 es2 s :
  sound w l f es1 es2 [] -> ready w -> w.(store).(_open_segment) = Some s -> es2 <> [] ->
  let '(b, w', ev) := roll_segment flags s w in
  (whole w.(disk).(script) -> whole w'.(disk).(script)) /\ ready w' /\
  if b : bool then sound w' l f (es1 ++ es2) [] [] /\ w'.(store).(_open_segment) <> None
  else sound w' l f es1 es2 [].
Proof using Type.
  intros H Hready Ho Hne. pose proof (so_open _ _ _ _ _ _ H) as Hop. rewrite Ho in Hop. destruct Hop as (inode & Hs & Hf & Ht & _ & Hstuck).
  assert (forall x, x ∈ w.(store).(_segments) -> x.(_first_index) < s.(_first_index)) as Hlt.
  { intros x Hx. pose proof (closed_first _ _ _ _ _ _ (so_closed _ _ _ _ _ _ H) Hx). lia. }
  pose proof (close_spec w.(disk) s es2 inode w.(store).(_enable_sync) (so_wf _ _ _ _ _ _ H) Hs
    (fun Hio => no_closed_file w l f es1 es2 [] s H Ho Hio _) (fun Hio => proj2 (Hstuck Hio))) as Hcl.
  unfold roll_segment, set_store, on_disk. unfold mbind, M_bind, modify, get, mret, M_ret. cbn.
  destruct (close flags s (_enable_sync (store w)) (disk w)) as [[[rc s'] d1] e1].
  destruct Hcl as (Hwf1 & Hsc1 & Hc1 & Hn1 & Hs' & Hf' & Hl' & Ht' & Hp' & Hb' & Hres). cbn.
  rewrite (put_last _ _ _ _ _ s (so_closed _ _ _ _ _ _ H) Hf), (put_again _ s s' Hlt Hf').
  assert (ready (w <| disk := d1 |> <| store := w.(store) <| _open_segment := Some s' |> |>)) as Hrdy.
  { intros x [= <-]. rewrite Hp', Hb'. by apply Hready. }
  destruct (ok rc); cbn.
  - destruct Hres as (Hio & Hcn & Hon).
    pose proof (sound_closed w l f es1 es2 s inode d1 s' H Ho Hne Hwf1 Hn1 Hc1 Hs' Hf' Hl' Ht' Hio Hcn) as Hw1. cbv zeta in Hw1.
    set (w1 := w <| disk := d1 |> <| store := w.(store) <| _segments := w.(store).(_segments) ++ [s'] |> <| _open_segment := None |> |>) in *.
    pose proof (create_segment_spec w1 Hwf1) as Hcr. pose proof (sound_create w1 l f (es1 ++ es2) Hw1 eq_refl) as Hsc.
    match goal with |- context [create_segment ?x] => change (create_segment x) with (create_segment w1) end.
    destruct (create_segment w1) as [[[rc2 s3] w3] e3]. destruct Hcr as (Hst & Hwf3 & Hsc3 & Hoth & Hf3 & _ & _ & _ & _ & Hbad).
    destruct (Hsc (if ok rc2 then Some s3 else None) eq_refl) as (Hsound & Hr3 & Hsc3'). destruct (ok rc2); cbn in *.
    + split; [by auto|]. by split.
    + destruct (Hbad eq_refl) as (Hn3 & Hf3' & _).
      rewrite Hst. cbn. rewrite (erase_last _ s') by (intros; rewrite Hf'; by apply Hlt).
      split; [by auto|]. split; [intros x [= <-]; by apply Hrdy|].
      pose proof (sound_reopen w l f es1 es2 s inode w3.(disk) s' H Ho Hwf3) as Hre. cbv zeta in Hre.
      destruct w3 as [d3 st3]. cbn in *. rewrite Hst. apply Hre; try done.
      * intros h Hh1 Hh2. rewrite Hn3. by apply Hn1.
      * intros j. unfold content. rewrite Hf3'. apply Hc1.
      * destruct Hs'. split; try done; [|unfold content in *; by rewrite Hf3']. unfold seg_named. by rewrite Hn3.
      * intros _. split; [done|]. intros _. rewrite Hn3. unfold open_name. by rewrite Hf'.
      * by rewrite Hio.
  - destruct Hres as (Hn & Ho1 & Ho2). rewrite (erase_last _ s') by (intros; rewrite Hf'; by apply Hlt).
    split; [by auto|]. split; [exact Hrdy|]. apply (sound_reopen w l f es1 es2 s inode d1 s'); try done.
    + intros Hio. split; [done|]. unfold closed_name, open_name. rewrite Hf', Hl', Hn. intros Hcl.
      destruct (_is_open s) eqn:Hios; [|by apply Hstuck].
      pose proof (no_closed_file w l f es1 es2 [] s H Ho Hios (_last_index s)). congruence.
    + intros Hio. rewrite Hn. apply (no_closed_file w l f es1 es2 [] s); auto.
Qed.

(** The storage holds the log; and can be appended to. *)
Definition holds (w : Store) (l : Log) : Prop := exists f es1 es2 junk, sound w l f es1 es2 junk.
Definition holds_ready (w : Store) (l : Log) : Prop := ready w /\ exists f es1 es2, sound w l f es1 es2 [].

Lemma holds_ready_holds w l : holds_ready w l -> holds w l.
Proof using Type. intros (_ & f & es1 & es2 & H). by exists f, es1, es2, []. Qed.

Lemma holds_open_segment w l :
  holds_ready w l -> let '(b, w', ev) := open_segment flags w in
  (whole w.(disk).(script) -> whole w'.(disk).(script)) /\ holds_ready w' l /\
  (b = true -> w'.(store).(_open_segment) <> None).
Proof using Type.
  intros (Hready & f & es1 & es2 & H). unfold open_segment. unfold mbind, M_bind, get, mret, M_ret, set_store, modify.
  destruct (_open_segment (store w)) as [s|] eqn:Ho; cbn [negb].
  - rewrite Ho. cbv beta iota. destruct (Nat.ltb_spec (raft_max_segment_size flags) (_bytes s)) as [Hb|_].
    2:{ cbn. split; [done|]. split; [split; [done|by exists f, es1, es2]|]. by rewrite Ho. }
    assert (es2 <> []) as Hne.
    { intros ->. pose proof (so_open _ _ _ _ _ _ H) as Hop. rewrite Ho in Hop. destruct Hop as (inode & Hs & _).
      rewrite (sh_bytes _ _ _ _ _ Hs) in Hb. cbn in Hb. lia. }
    pose proof (sound_roll w l f es1 es2 s H Hready Ho Hne) as Hr. destruct (roll_segment flags s w) as [[b w'] ev].
    destruct Hr as (Hsc & Hrd & Hr). split; [done|]. destruct b.
    + destruct Hr as [Hr Hno]. split; [|done]. split; [done|]. by exists f, (es1 ++ es2), [].
    + split; [|done]. split; [done|]. by exists f, es1, es2.
  - pose proof (so_open _ _ _ _ _ _ H) as Hop. rewrite Ho in Hop. destruct Hop as [-> _].
    pose proof (sound_create w l f es1 H Ho) as Hc. destruct (create_segment w) as [[[rc s] w'] ev].
    destruct (Hc _ eq_refl) as (Hs & Hr & Hsc). destruct (ok rc) eqn:Hrc; cbn.
    + pose proof (so_open _ _ _ _ _ _ Hs) as Hop. cbn in Hop. destruct Hop as (inode & Hsh & _).
      rewrite (sh_bytes _ _ _ _ _ Hsh). cbn. split; [done|]. split; [|done]. split; [done|]. by exists f, es1, [].
    + split; [done|]. split; [|done]. split; [done|]. by exists f, es1, [].
Qed.

(** Appending an entry to the open segment. *)
Lemma sound_append w l f es1 es2 e :
  sound w l f es1 es2 [] -> ready w -> w.(store).(_open_segment) <> None -> storable e -> e.(id).(index) = log_last l + 1 ->
  let '(rc, w', ev) := append_open e w in
  if ok rc then
    (whole w.(disk).(script) -> whole w'.(disk).(script)) /\
    let w'' := w' <| store := w'.(store) <| _last_log_index := w'.(store).(_last_log_index) + 1 |> |> in
    ready w'' /\ sound w'' (log_append l [e]) f es1 (es2 ++ [e]) []
  else exists junk, sound w' l f es1 es2 junk /\
    (whole w.(disk).(script) -> whole w'.(disk).(script) /\ junk = [] /\ ready w').
Proof using Type.
  intros H Hready Hno Hst Hidx. destruct (_open_segment (store w)) as [s|] eqn:Ho; [|done].
  pose proof H as []. rewrite Ho in so_open0. destruct so_open0 as (inode & Hs & Hf & Ht & _ & Hstuck).
  pose proof (sound_log_last _ _ _ _ _ _ H) as Hll.
  pose proof (sh_last _ _ _ _ _ Hs) as Hlast. rewrite zlen_app in *.
  pose proof (append_spec w.(disk) s es2 inode e Hs (conj eq_refl (Hready s Ho)) Hst ltac:(lia)) as Ha.
  unfold append_open. unfold mbind, M_bind, get, mret, M_ret, set_store, modify, on_disk. rewrite Ho.
  destruct (append s e (disk w)) as [[[rc s'] d'] ev]. destruct Ha as (Htch & (Hf' & Ht' & Hfd' & Hio') & Ha). cbn.
  assert (forall x, x ∈ w.(store).(_segments) -> x.(_first_index) <> s.(_first_index)) as Hdiff.
  { intros x Hx. pose proof (closed_first _ _ _ _ _ _ so_closed0 Hx). lia. }
  assert (exists g, w.(disk).(names) !! g = Some inode /\ (g = open_name s \/ g = closed_name s)) as (g & Hg & Hgs).
  { destruct (sh_name _ _ _ _ _ Hs) as [Hn|(_ & Hn & _)]; eexists; (split; [done|]); [unfold file_name; destruct (_is_open s)|]; auto. }
  assert (closed_hold d' (_log_checksum_type (store w)) f (_segments (store w)) es1) as Hclosed.
  { pose proof Htch as (Hn & _ & Hc & _). eapply closed_frame_inode with (g := g); [done|done| | | |done].
    - intros x Hx. destruct (names_differ _ _ (Hdiff x Hx)) as (N1 & N2 & _). by destruct Hgs as [->| ->].
    - by rewrite Hn.
    - intros i Hi. apply Hc. congruence. }
  pose proof (touches_wf _ _ _ Htch so_wf0) as Hwf'. pose proof (touches_whole _ _ _ Htch) as Hsc. destruct Htch as (Hn & _).
  destruct (ok rc) eqn:Hrc; cbn.
  - destruct Ha as (Hs' & [_ Hp] & Hio). split; [done|]. split; [by intros x [= <-]|].
    split; cbn; rewrite ?app_assoc, ?zlen_app, ?zlen_cons, ?zlen_nil in *; try done; try lia.
    + exists inode. rewrite Hf', Ht', Hio'. split_and!; [done..|by left|congruence].
    + rewrite so_entries0, (drop_app_le _ [e]); [done|]. rewrite length_app. unfold zlen in *. lia.
    + intros Hsegs _. rewrite Hsegs in so_closed0. cbn in so_closed0. subst es1. rewrite zlen_nil in *. lia.
    + intros F L. cbn. rewrite Hn. intros Hx. destruct (so_dir0 F L Hx) as [?|(x & [Hx'|[Hx' Hxo]] & He)]; [by left|right; exists x; by split; [left|]|congruence].
  - destruct Ha as (junk & Hj & Hs' & Hwh). exists junk. split; [|intros Hw; destruct (Hwh Hw) as [-> Hp]; split_and!; [by apply Hsc|done|by intros x [= <-]]].
    split; cbn; rewrite ?zlen_app; try done.
    + exists inode. rewrite Hf', Ht', Hio'. split_and!; [done|done|done|by rewrite <- Ht|]. intros Hio. destruct (Hstuck Hio) as [? Hst']. split; [done|].
      pose proof (sh_last _ _ _ _ _ Hs') as Hl'. unfold open_name, closed_name. rewrite Hn, Hl', Hf', <- Hlast. exact Hst'.
    + intros F L. cbn. rewrite Hn. intros Hx. destruct (so_dir0 F L Hx) as [?|(x & [Hx'|[Hx' Hxo]] & He)]; [by left|right; exists x; by split; [left|]|].
      right. exists s'. rewrite Ho in Hx'. injection Hx' as <-. split; [right; split; [done|congruence]|].
      pose proof (sh_last _ _ _ _ _ Hs') as Hl'. unfold closed_name in *. by rewrite Hl', Hf', <- Hlast.
Qed.

(** What [append_loop] leaves: a prefix of the entries was appended. *)
Lemma holds_append_loop w l es i :
  holds_ready w l -> contiguous (log_last l + 1) es -> Forall storable es ->
  let '((n, all), w', ev) := append_loop flags es i w in
  exists k, n = i + Z.of_nat k /\ (k <= length es)%nat /\ (all = true <-> k = length es) /\
    holds w' (log_append l (take k es)) /\
    (whole w.(disk).(script) -> whole w'.(disk).(script)) /\
    (all = true \/ whole w.(disk).(script) -> holds_ready w' (log_append l (take k es))).
Proof using Type.
  revert w l i. induction es as [|e es IH]; intros w l i H Hc Hst.
  { cbn. exists 0%nat. rewrite take_0, log_append_nil, Z.add_0_r. pose proof (holds_ready_holds _ _ H). by split_and!. }
  apply contiguous_cons in Hc as [Hi Hc]. apply Forall_cons in Hst as [He Hst].
  cbn [append_loop]. unfold mbind, M_bind, mret, M_ret, set_store, modify.
  pose proof (holds_open_segment w l H) as Hop. destruct (open_segment flags w) as [[b w1] e1].
  destruct Hop as (Hsc1 & H1 & Hb). destruct b; cbn [negb].
  2:{ exists 0%nat. rewrite take_0, log_append_nil, Z.add_0_r. pose proof (holds_ready_holds _ _ H1). split_and!; try done. cbn. lia. }
  destruct H1 as (Hr1 & f & es1 & es2 & Hs1).
  pose proof (sound_append w1 l f es1 es2 e Hs1 Hr1 (Hb eq_refl) He Hi) as Ha.
  destruct (append_open e w1) as [[rc w2] e2]. destruct (ok rc); cbn [negb].
  - destruct Ha as (Hsc2 & Hr2 & Hs2). cbv zeta in Hr2, Hs2.
    set (w3 := w2 <| store := _ |>) in *. assert (holds_ready w3 (log_append l [e])) as H3 by (split; [done|by do 3 eexists]).
    specialize (IH w3 (log_append l [e]) (i + 1) H3). destruct (append_loop flags es (i + 1) w3) as [[[n all] w4] e4].
    destruct IH as (k & Hn & Hk & Hall & Hh & Hsc & Hrd).
    { by rewrite log_last_append, zlen_cons, zlen_nil. }
    { done. }
    exists (S k). rewrite firstn_cons. change (e :: take k es) with ([e] ++ take k es). rewrite log_append_app.
    split_and!; [lia|cbn; lia|cbn; rewrite Hall; lia|done|auto|]. intros [?|?]; apply Hrd; auto.
  - destruct Ha as (junk & Hs2 & Hwh). exists 0%nat. rewrite take_0, log_append_nil, Z.add_0_r.
    split_and!; [done|lia|done|by exists f, es1, es2, junk|intros Hw; by apply Hwh, Hsc1|].
    intros [?|Hw]; [done|]. destruct (Hwh (Hsc1 Hw)) as (_ & -> & Hr). split; [done|]. by exists f, es1, es2.
Qed.

Lemma holds_ready_last w l : holds_ready w l -> w.(store).(_last_log_index) = log_last l /\ w.(store).(_first_log_index) = l.(log_first).
Proof using Type.
  intros (_ & f & es1 & es2 & H). rewrite (sound_log_last _ _ _ _ _ _ H). by destruct H.
Qed.

Lemma sync_spec d s will_sync has_conf :
  let '((rc, s'), d', ev) := Segment.sync flags s will_sync has_conf d in
  touches None d d' /\ (s' = s \/ s' = s <| _unsynced_bytes := 0%nat |>).
Proof using Type.
  unfold Segment.sync. destruct (_ <? _); [by split; [|left]|]. destruct (negb _); [by split; [|left]|].
  destruct (negb _); [by split; [|left]|]. destruct (_ && _); [by split; [|left]|].
  unfold mbind, M_bind, mret, M_ret. pose proof (proj1 (fsync_touches None d)) as Ht. destruct (sys_fsync d) as [[r d1] e1].
  split; [exact Ht|by right].
Qed.

(** Changes that neither the entries nor the directory see. *)
Lemma sound_touch w l f es1 es2 junk s d' s' :
  sound w l f es1 es2 junk -> w.(store).(_open_segment) = Some s -> touches None w.(disk) d' ->
  s'.(_fd) = s.(_fd) /\ s'.(_is_open) = s.(_is_open) /\ s'.(Segment._checksum_type) = s.(Segment._checksum_type) /\
  s'.(_offset_and_term) = s.(_offset_and_term) /\ s'.(_bytes) = s.(_bytes) /\
  s'.(_last_index) = s.(_last_index) /\ s'.(_first_index) = s.(_first_index) ->
  sound (w <| disk := d' |> <| store := w.(store) <| _open_segment := Some s' |> |>) l f es1 es2 junk.
Proof using Type.
  intros H Ho Ht (Hfd & Hio & Hcs & Htb & Hb & Hl & Hf). pose proof (touches_wf _ _ _ Ht (so_wf _ _ _ _ _ _ H)) as Hwf.
  destruct Ht as (Hn & _ & Hc & _). pose proof H as []. rewrite Ho in so_open0. destruct so_open0 as (inode & Hs & Hf0 & Ht0 & Hj & Hst).
  split; cbn; try done.
  - eapply closed_frame; [|exact so_closed0]. intros x i _ Hi. by rewrite Hn, Hc.
  - exists inode. rewrite Hf, Hcs, Hio. split_and!; try done.
    + eapply seg_holds_frame; [exact Hs|by rewrite Hn|by rewrite Hn|by apply Hc|done..].
    + unfold closed_name, open_name. rewrite Hf, Hl, Hn. exact Hst.
  - intros F L. cbn. rewrite Hn. intros Hx. destruct (so_dir0 F L Hx) as [?|(x & [Hx'|[Hx' Hxo]] & He)]; [by left|right; exists x; by split; [left|]|].
    right. exists s'. rewrite Ho in Hx'. injection Hx' as <-. split; [right; by split; [|congruence]|].
    unfold closed_name in *. by rewrite Hf, Hl.
Qed.

Lemma holds_sync_open w l has_conf :
  holds_ready w l -> let '(rc, w', ev) := sync_open flags has_conf w in
  holds_ready w' l /\ (whole w.(disk).(script) -> whole w'.(disk).(script)).
Proof using Type.
  intros (Hready & f & es1 & es2 & H). unfold sync_open. unfold mbind, M_bind, get, mret, M_ret, set_store, modify, on_disk.
  destruct (_open_segment (store w)) as [s|] eqn:Ho; [|split; [|done]; split; [done|by exists f, es1, es2]].
  pose proof (sync_spec w.(disk) s w.(store).(_enable_sync) has_conf) as Hs.
  destruct (Segment.sync flags s _ has_conf (disk w)) as [[[rc s'] d'] ev]. destruct Hs as [Ht Hs]. cbn.
  split; [|by eapply touches_whole]. split; [intros x [= <-]; destruct Hs as [->| ->]; exact (Hready s Ho)|].
  exists f, es1, es2. apply (sound_touch w l f es1 es2 [] s d' s' H Ho Ht). by destruct Hs as [->| ->]; split_and!.
Qed.

Lemma holds_append_entries w l es :
  holds_ready w l -> contiguous (log_last l + 1) es -> Forall storable es ->
  let '(n, w', ev) := append_entries flags es w in
  0 <= n <= zlen es /\ holds w' (log_append l (take (Z.to_nat n) es)) /\
  (whole w.(disk).(script) -> whole w'.(disk).(script)) /\
  (n = zlen es \/ whole w.(disk).(script) -> holds_ready w' (log_append l (take (Z.to_nat n) es))).
Proof using Type.
  intros H Hc Hst. destruct es as [|e es]; [cbn; rewrite log_append_nil; pose proof (holds_ready_holds _ _ H); by split_and!|].
  unfold append_entries. unfold mbind, M_bind, get, mret, M_ret.
  destruct (holds_ready_last w l H) as [Hlast _]. apply contiguous_cons in Hc as Hc'. destruct Hc' as [Hi _].
  rewrite Hlast, Hi, Z.eqb_refl. cbn [negb].
  pose proof (holds_append_loop w l (e :: es) 0 H Hc Hst) as Hl.
  destruct (append_loop flags (e :: es) 0 w) as [[[n all] w1] e1]. destruct Hl as (k & -> & Hk & Hall & Hh & Hsc & Hr).
  destruct all; cbn [negb].
  - rewrite (proj1 Hall eq_refl), take_ge in * by lia.
    pose proof (holds_sync_open w1 (log_append l (e :: es)) (existsb (fun e => bool_decide (e.(type) = ENTRY_TYPE_CONFIGURATION)) (e :: es))
      (Hr (or_introl eq_refl))) as Hs. destruct (sync_open flags _ w1) as [[rc w2] e2]. destruct Hs as [Hs Hsc2].
    pose proof (holds_ready_holds _ _ Hs). rewrite take_ge by (unfold zlen; lia). pose proof (zlen_nonneg (e :: es)). split_and!; try done; try lia; auto.
  - unfold zlen. rewrite Z.add_0_l, Nat2Z.id. split_and!; try done; [lia|lia|].
    intros [Hn|Hw]; [|by apply Hr; right]. apply Nat2Z.inj in Hn. rewrite Hn. apply Hall in Hn. done.
Qed.

(** ** Reading *)
Lemma closed_lookup d t f segs es index :
  closed_hold d t f segs es -> f <= index < f + zlen es ->
  exists s es' inode, last (filter (fun s => s.(_first_index) <= index) segs) = Some s /\
    seg_holds d s es' [] inode /\ zget es' (index - s.(_first_index)) = zget es (index - f).
Proof using Type.
  revert f es. induction segs as [|s segs IH]; intros f es Hc Hi; [cbn in Hc; subst es; rewrite zlen_nil in Hi; lia|].
  destruct Hc as (es1 & es2 & inode & -> & Hne & Hs & _ & Hf & _ & _ & Hc). rewrite zlen_app in Hi.
  rewrite filter_cons, decide_True by lia. destruct (decide (index < f + zlen es1)).
  - exists s, es1, inode. rewrite (filter_keep_none _ segs).
    2:{ intros x Hx. pose proof (closed_first _ _ _ _ _ _ Hc Hx). lia. }
    split; [done|]. split; [done|]. rewrite Hf. unfold zget, zlen in *. case_bool_decide; [done|]. symmetry. apply lookup_app_l. lia.
  - destruct (IH _ _ Hc) as (s' & es' & inode' & Hl & Hs' & Hz); [lia|]. exists s', es', inode'. split_and!; [|done|].
    + destruct (filter _ segs) as [|y ys] eqn:Hfl; [done|]. cbn. by rewrite <- Hl.
    + rewrite Hz. unfold zget, zlen in *. rewrite !bool_decide_false by lia. rewrite lookup_app_r by lia. f_equal. lia.
Qed.

(** The entry an index leads to, over the segments. *)
Lemma log_get_all w l f es1 es2 junk index :
  sound w l f es1 es2 junk -> l.(log_first) <= index -> log_get l index = zget (es1 ++ es2) (index - f).
Proof using Type.
  intros [] Hi. unfold log_get. rewrite so_entries0. unfold zget. rewrite !bool_decide_false by lia.
  rewrite lookup_drop. f_equal. lia.
Qed.

Lemma get_segment_spec w l f es1 es2 junk index :
  sound w l f es1 es2 junk ->
  (exists s es junk' inode, get_segment w index = (Some s, true) /\ seg_holds w.(disk) s es junk' inode /\
     zget es (index - s.(_first_index)) = log_get l index) \/
  (get_segment w index = (None, true) /\ log_get l index = None).
Proof using Type.
  intros H. pose proof H as []. pose proof (sound_log_last _ _ _ _ _ _ H) as Hll.
  unfold get_segment. rewrite so_first0, so_last0, <- Hll.
  destruct (Z.eqb_spec (log_first l) (log_last l + 1)); [right; split; [done|apply log_get_out; lia]|].
  destruct (_ || _) eqn:Hr; [right; split; [done|]; rewrite orb_true_iff, !Z.ltb_lt in Hr; apply log_get_out; lia|].
  rewrite orb_false_iff, !Z.ltb_ge in Hr.
  destruct (Z.eqb_spec index (log_last l + 1)); [right; split; [done|apply log_get_out; lia]|]. left.
  rewrite (log_get_all _ _ _ _ _ _ _ H) by lia. rewrite zlen_app in *.
  assert (index < f + zlen es1 -> exists s es junk' inode,
    last (filter (fun s => s.(_first_index) <= index) (_segments (store w))) = Some s /\ seg_holds w.(disk) s es junk' inode /\
    zget es (index - s.(_first_index)) = zget (es1 ++ es2) (index - f)) as Hclosed.
  { intros Hi. destruct (closed_lookup _ _ _ _ _ index so_closed0) as (s & es & inode & Hl & Hs & Hz); [lia|].
    exists s, es, [], inode. split_and!; [done..|]. rewrite Hz. unfold zget, zlen in *. rewrite !bool_decide_false by lia.
    symmetry. apply lookup_app_l. lia. }
  destruct (_open_segment (store w)) as [s|] eqn:Ho.
  - destruct so_open0 as (inode & Hs & Hf & _). destruct (Z.leb_spec (_first_index s) index).
    + exists s, es2, junk, inode. split_and!; [done..|]. rewrite Hf. unfold zget, zlen in *. rewrite !bool_decide_false by lia.
      rewrite lookup_app_r by lia. f_equal. lia.
    + destruct Hclosed as (s' & es' & j' & i' & Hl & Hs' & Hz); [lia|]. rewrite Hl. by exists s', es', j', i'.
  - destruct so_open0 as [-> _]. rewrite zlen_nil in *. destruct Hclosed as (s' & es' & j' & i' & Hl & Hs' & Hz); [lia|].
    rewrite Hl. by exists s', es', j', i'.
Qed.

Lemma holds_get_entry w l index :
  (forall i o n, ReadError ∉ reads i o n) -> holds w l -> get_entry reads w index = (log_get l index, true).
Proof using Type.
  intros Hr (f & es1 & es2 & junk & H). unfold get_entry.
  destruct (get_segment_spec w l f es1 es2 junk index H) as [(s & es & j & inode & -> & Hs & <-)|[-> ->]]; [|done].
  by rewrite (get_entry_spec reads Hr _ _ _ _ _ index Hs).
Qed.

Lemma holds_get_term w l index : holds w l -> get_term w index = log_term l index.
Proof using Type.
  intros (f & es1 & es2 & junk & H). unfold get_term, log_term.
  destruct (get_segment_spec w l f es1 es2 junk index H) as [(s & es & j & inode & -> & Hs & <-)|[-> ->]]; [|done].
  cbn [fst]. by rewrite (get_term_spec _ _ _ _ _ index Hs).
Qed.

Lemma holds_bounds w l :
  holds w l -> w.(store).(_first_log_index) = l.(log_first) /\ w.(store).(_last_log_index) = log_last l /\ log_wf l.
Proof using Type.
  intros (f & es1 & es2 & junk & H). rewrite (sound_log_last _ _ _ _ _ _ H). destruct H. split; [done|]. split; [done|].
  unfold log_wf. rewrite so_entries0. intros i e He. rewrite lookup_drop in He.
    enough (contiguous f (es1 ++ es2)) as Hc by (rewrite (Hc _ _ He); lia). apply contiguous_app. split.
    + clear -so_closed0. revert f es1 so_closed0. induction (_segments (store w)) as [|s segs IH]; intros f es Hc; [cbn in Hc; subst es; apply contiguous_nil|].
      destruct Hc as (e1 & e2 & inode & -> & _ & Hs & _ & Hf & _ & _ & Hc). apply contiguous_app.
      split; [rewrite <- Hf; apply (sh_contiguous _ _ _ _ _ Hs)|by apply IH].
    + destruct (_open_segment (store w)) as [s|]; [|by destruct so_open0 as [-> _]; apply contiguous_nil].
      destruct so_open0 as (inode & Hs & <- & _). apply (sh_contiguous _ _ _ _ _ Hs).
Qed.

(** ** Names the log does not depend on *)
Definition outside (w : Store) (f : Z) (g : FileName) : Prop :=
  g.(is_tmp) = true \/ g = meta_path \/
  (exists F, g = named (Inprogress F) /\ forall s, w.(store).(_open_segment) = Some s -> s.(_first_index) <> F) \/
  (exists F L, g = named (ClosedSegment F L) /\ F < f).

Lemma closed_not_outside w f F L : f <= F -> ~ outside w f (named (ClosedSegment F L)).
Proof using Type. intros HF [?|[?|[(? & ? & ?)|(F' & L' & [= -> ->] & ?)]]]; try done. lia. Qed.

Lemma sound_kept w l f es1 es2 junk d' :
  sound w l f es1 es2 junk -> disk_wf d' -> kept_but (outside w f) w.(disk) d' ->
  sound (w <| disk := d' |>) l f es1 es2 junk.
Proof using Type.
  intros H Hwf Hk. pose proof H as []. split; cbn; try done.
  - eapply closed_frame; [|exact so_closed0]. intros x i Hx Hi. pose proof (closed_first _ _ _ _ _ _ so_closed0 Hx) as [[? _] _].
    destruct (Hk (closed_name x)) as [Hn Hc]; [by apply closed_not_outside|]. rewrite Hn. split; [done|by apply Hc].
  - destruct (_open_segment (store w)) as [s|] eqn:Ho; [|done]. destruct so_open0 as (inode & Hs & Hf & Ht & Hj & Hst).
    pose proof (zlen_nonneg es1). destruct (Hk (closed_name s)) as [Hn1 Hc1]; [apply closed_not_outside; lia|].
    destruct (Hk (open_name s)) as [Hn2 Hc2].
    { intros [?|[?|[(F & [= <-] & Hne)|(? & ? & ? & _)]]]; try done. by apply (Hne s). }
    exists inode. rewrite Hn1, Hn2. split_and!; try done. eapply seg_holds_frame; [exact Hs|done|done| |done..].
    pose proof (sh_name _ _ _ _ _ Hs) as Hnm. unfold seg_named, file_name in Hnm.
    destruct (_is_open s); [|destruct Hnm as [?|(_ & ? & _)]; auto]. destruct Hnm as [?|[? _]]; [auto|done].
  - intros F L. cbn. destruct (decide (F < f)); [by left|]. destruct (Hk (named (ClosedSegment F L))) as [-> _]; [apply closed_not_outside; lia|].
    apply so_dir0.
Qed.

(** Unlinking a segment moves its name to a temporary one. *)
Lemma unlink_spec d s :
  disk_wf d -> let '(rc, d', ev) := unlink s d in
  disk_wf d' /\ (whole d.(script) -> whole d'.(script)) /\ kept_but (fun g => g = file_name s \/ g.(is_tmp) = true) d d' /\
  (ok rc = true -> d'.(names) !! file_name s = None).
Proof using Type.
  intros Hwf. unfold unlink, mbind, M_bind, mret, M_ret. set (tp := mkFileName (base (file_name s)) true).
  assert (file_name s <> tp) as Hne by (unfold file_name; destruct (_is_open s); done).
  pose proof (sys_rename_spec (file_name s) tp d Hne Hwf) as Hr. destruct (sys_rename (file_name s) tp d) as [[b d'] ev].
  destruct Hr as (Hwf' & Hsc & Hf & Hn & Hb). destruct b; cbn.
  - split_and!; try done; [|by intros; apply Hb]. intros g Hg. rewrite Hn; [|by intros ->; tauto|intros ->; apply Hg; by right].
    split; [done|]. intros i _. unfold content. by rewrite Hf.
  - split_and!; try done. intros g _. destruct Hb as (-> & _). split; [done|]. intros i _. unfold content. by rewrite Hf.
Qed.

Lemma unlink_all_spec popped w l f es1 es2 junk :
  sound w l f es1 es2 junk -> (forall s, s ∈ popped -> outside w f (file_name s)) ->
  let '(_, w', ev) := unlink_all popped w in
  sound w' l f es1 es2 junk /\ w'.(store) = w.(store) /\ (whole w.(disk).(script) -> whole w'.(disk).(script)).
Proof using Type.
  revert w. induction popped as [|s popped IH]; intros w H Hp; [by split_and!|].
  unfold unlink_all in *. rewrite mapM_cons. unfold mbind at 1, M_bind at 1. unfold mbind, M_bind, on_disk, skip.
  pose proof (unlink_spec w.(disk) s (so_wf _ _ _ _ _ _ H)) as Hu. destruct (unlink s (disk w)) as [[rc d'] ev].
  destruct Hu as (Hwf & Hsc & Hk & _). cbn.
  assert (sound (w <| disk := d' |>) l f es1 es2 junk) as H'.
  { apply sound_kept; [done|done|]. eapply kept_but_mono; [|exact Hk]. intros g [->|Hg]; [by apply Hp; left|by left]. }
  specialize (IH (w <| disk := d' |>) H'). destruct (mapM_ _ popped (w <| disk := d' |>)) as [[u w'] ev'].
  destruct IH as (H1 & H2 & H3); [by intros x Hx; apply Hp; right|]. split_and!; auto.
Qed.

Lemma save_meta_spec w l f es1 es2 junk k :
  (forall i o n, ReadError ∉ reads i o n) -> pb_valid k -> sound w l f es1 es2 junk ->
  let '(rc, w', ev) := save_meta flags k w in
  sound w' l f es1 es2 junk /\ w'.(store) = w.(store) /\ (whole w.(disk).(script) -> whole w'.(disk).(script)) /\
  (ok rc = true -> loads reads w'.(disk) meta_path = Some k).
Proof using Type.
  intros Hr Hv H. unfold save_meta, on_disk.
  pose proof (save_spec tmp_name reads meta_path k (raft_sync flags || raft_sync_meta flags) w.(disk) ltac:(done) (so_wf _ _ _ _ _ _ H) Hr Hv) as Hs.
  destruct (save tmp_name meta_path k _ (disk w)) as [[rc d'] ev]. destruct Hs as (Hwf & Hsc & Hbad & Hok). cbn.
  split_and!; try done; [|by apply Hok]. apply sound_kept; [done|done|].
  destruct (ok rc); [eapply kept_but_mono; [|by apply Hok]|eapply kept_but_mono; [|by apply Hbad]].
  - intros g [->| ->]; [by right; left|by left].
  - intros g <-. by left.
Qed.

(** ** Truncating the prefix *)
Lemma pop_closed d t f segs es k :
  closed_hold d t f segs es -> f <= k ->
  exists popped es1 es2,
    let kept := pop_front_while (fun s => s.(_last_index) <? k) segs in
    segs = popped ++ kept /\ es = es1 ++ es2 /\ closed_hold d t (f + zlen es1) kept es2 /\ f + zlen es1 <= k /\
    (forall s, s ∈ popped -> s.(_first_index) < f + zlen es1 /\ s.(_is_open) = false) /\
    (forall s, head kept = Some s -> k <= s.(_last_index)).
Proof using Type.
  revert f es. induction segs as [|s segs IH]; intros f es Hc Hk; cbn [pop_front_while].
  { cbn in Hc. subst es. exists [], [], []. rewrite zlen_nil, Z.add_0_r. split_and!; try done. by intros s ?%elem_of_nil. }
  destruct Hc as (es1 & es2 & inode & -> & Hne & Hs & Hn & Hf & Ht & Ho & Hc). pose proof (sh_last _ _ _ _ _ Hs) as Hl.
  destruct (Z.ltb_spec (_last_index s) k).
  - destruct (IH _ _ Hc) as (popped & e1 & e2 & Hsegs & -> & Hc' & Hk' & Hp & Hh); [lia|].
    exists (s :: popped), (es1 ++ e1), e2. rewrite zlen_app, Z.add_assoc. cbv zeta.
    split_and!; try done; [cbn; by f_equal|by rewrite app_assoc|].
    intros x [->|Hx]%elem_of_cons; [|by apply Hp]. split; [|done].
    assert (0 < zlen es1) by (destruct es1; [done|]; rewrite zlen_cons; pose proof (zlen_nonneg es1); lia). pose proof (zlen_nonneg e1). lia.
  - exists [], [], (es1 ++ es2). rewrite zlen_nil, Z.add_0_r. split_and!; try done; [by exists es1, es2, inode|by intros x ?%elem_of_nil|].
    intros x [= <-]. lia.
Qed.

(** The entries kept, when those up to [f'] go. *)
Lemma drop_kept (l : Log) f k (es1 es2 : list LogEntry) :
  l.(log_entries) = drop (Z.to_nat (l.(log_first) - f)) (es1 ++ es2) -> f <= l.(log_first) -> l.(log_first) <= k -> f + zlen es1 <= k ->
  (log_truncate_prefix l k).(log_entries) = drop (Z.to_nat (k - (f + zlen es1))) es2.
Proof using Type.
  intros He H1 H2 H3. cbn. rewrite He, drop_drop, drop_app_ge by (unfold zlen in *; lia). f_equal. unfold zlen in *. lia.
Qed.

(** Closed segments remain: the log now starts among them. *)
Lemma sound_popped w l f es1 es2 junk k popped kept e1 e2 :
  sound w l f es1 es2 junk -> l.(log_first) < k ->
  w.(store).(_segments) = popped ++ kept -> es1 = e1 ++ e2 ->
  closed_hold w.(disk) w.(store).(_log_checksum_type) (f + zlen e1) kept e2 -> f + zlen e1 <= k ->
  (forall s, s ∈ popped -> s.(_first_index) < f + zlen e1 /\ s.(_is_open) = false) ->
  (forall s, head kept = Some s -> k <= s.(_last_index)) ->
  (kept = [] -> exists s, w.(store).(_open_segment) = Some s /\ k <= s.(_last_index)) ->
  sound (w <| store := w.(store) <| _first_log_index := k |> <| _segments := kept |> |>)
    (log_truncate_prefix l k) (f + zlen e1) e2 es2 junk.
Proof using Type.
  intros H Hk Hsegs -> Hc Hfk Hp Hh Hnil. pose proof H as []. rewrite <- (app_assoc e1) in *. rewrite !zlen_app in *.
  pose proof (zlen_nonneg e1). pose proof (zlen_nonneg e2). pose proof (zlen_nonneg es2).
  split; cbn; rewrite ?zlen_app; try done.
  - by replace (f + zlen e1 + zlen e2) with (f + (zlen e1 + zlen e2)) by lia.
  - split; [lia|]. destruct kept as [|s kept].
    + destruct (Hnil eq_refl) as (s & Ho & Hs). rewrite Ho in so_open0. destruct so_open0 as (i & Hsh & Hf & _).
      pose proof (sh_last _ _ _ _ _ Hsh). lia.
    + specialize (Hh s eq_refl). pose proof (closed_first _ _ _ _ _ s Hc ltac:(left)). lia.
  - apply (drop_kept l f k e1 (e2 ++ es2)); [done|lia..].
  - intros Hkn Hne. destruct (Hnil Hkn) as (s & Ho & Hs). rewrite Ho in so_open0. destruct so_open0 as (i & Hsh & Hf & _).
    pose proof (sh_last _ _ _ _ _ Hsh). rewrite Hkn in Hc. cbn in Hc. subst e2. rewrite zlen_nil in *. lia.
  - lia.
  - intros F L Hx. cbn. destruct (so_dir0 F L Hx) as [?|(x & [Hx'|[Hx' Hxo]] & He)]; [left; lia| |right; exists x; split; [by right|done]].
    rewrite Hsegs in Hx'. apply elem_of_app in Hx' as [Hx'|Hx']; [left|right; exists x; by split; [left|]].
    injection He as <- _. by apply Hp.
Qed.

(** Nothing remains: the log is empty from [k] on. *)
Lemma sound_emptied w l f es1 es2 junk k :
  sound w l f es1 es2 junk -> l.(log_first) < k -> f + zlen (es1 ++ es2) <= k ->
  let w' := w <| store := w.(store) <| _first_log_index := k |> <| _segments := [] |> <| _open_segment := None |>
                             <| _last_log_index := k - 1 |> |> in
  sound w' (log_truncate_prefix l k) k [] [] [].
Proof using Type.
  intros H Hk Hall w'. pose proof H as []. split; cbn; try done; rewrite ?zlen_nil; try lia.
  - rewrite so_entries0, drop_drop, drop_nil. apply drop_ge. unfold zlen in *. lia.
  - intros F L Hx. left. destruct (so_dir0 F L Hx) as [?|(x & Hx' & He)]; [lia|]. rewrite zlen_app in *.
    injection He as <- _. destruct Hx' as [Hx'|[Hx' Hxo]].
    + pose proof (closed_first _ _ _ _ _ _ so_closed0 Hx'). pose proof (zlen_nonneg es2). lia.
    + rewrite Hx' in so_open0. destruct so_open0 as (i & Hs & Hf & _ & _ & Hst). destruct (Hst Hxo) as [Hne _].
      assert (0 < zlen es2) by (destruct es2; [done|]; rewrite zlen_cons; pose proof (zlen_nonneg es2); lia). lia.
Qed.

Lemma sound_pop w l f es1 es2 junk k :
  sound w l f es1 es2 junk -> l.(log_first) < k ->
  let '(popped, w', ev) := pop_segments k w in
  exists f' es1' es2' junk', sound w' (log_truncate_prefix l k) f' es1' es2' junk' /\ w'.(disk) = w.(disk) /\
    (forall s, s ∈ popped -> outside w' f' (file_name s)) /\ (ready w -> ready w') /\ (junk = [] -> junk' = []).
Proof using Type.
  intros H Hk. pose proof H as []. unfold pop_segments, set_store, modify. unfold mbind, M_bind, get, mret, M_ret. cbn.
  destruct (pop_closed _ _ _ _ _ k so_closed0) as (popped & e1 & e2 & Hsegs & Hes & Hc & Hfk & Hp & Hh); [lia|]. cbv zeta in Hsegs, Hc, Hh.
  set (kept := pop_front_while _ _) in *.
  assert (take (length (_segments (store w)) - length kept) (_segments (store w)) = popped) as ->.
  { rewrite Hsegs, length_app, Nat.add_sub. apply take_app_length. }
  assert (forall s, s ∈ popped -> forall v f', f + zlen e1 <= f' -> outside v f' (file_name s)) as Hout.
  { intros s Hs v f' Hf'. destruct (Hp s Hs) as [H1 H2]. right; right; right. exists s.(_first_index), s.(_last_index).
    split; [unfold file_name; by rewrite H2|lia]. }
  pose proof (sound_popped w l f es1 es2 junk k popped kept e1 e2 H Hk Hsegs Hes Hc Hfk Hp Hh) as Hkeep.
  pose proof (fun Ha => sound_emptied w l f es1 es2 junk k H Hk Ha) as Hempty. cbv zeta in Hempty.
  destruct kept as [|s0 kept'].
  2:{ exists (f + zlen e1), e2, es2, junk. split; [by apply Hkeep|]. split_and!; try done. intros s Hs. by apply Hout. }
  cbn in Hc. subst e2. rewrite app_nil_r in Hes. subst e1. rewrite zlen_app in *.
  destruct (_open_segment (store w)) as [s|] eqn:Ho.
  - destruct so_open0 as (i & Hs & Hf & Ht & Hj & Hst). pose proof (sh_last _ _ _ _ _ Hs) as Hl.
    destruct (Z.ltb_spec (_last_index s) k) as [Hlt|Hge].
    + exists k, [], [], []. split; [apply Hempty; lia|]. split_and!; try done.
      intros x Hx. apply elem_of_app in Hx as [Hx| ->%list_elem_of_singleton]; [by apply Hout|]. unfold file_name.
      destruct (_is_open s) eqn:Hio; [right; right; left; by exists s.(_first_index)|].
      right; right; right. exists s.(_first_index), s.(_last_index). split; [done|].
      destruct (Hst eq_refl) as [Hne _]. assert (0 < zlen es2) by (destruct es2; [done|]; rewrite zlen_cons; pose proof (zlen_nonneg es2); lia). lia.
    + unfold check_that, when. rewrite (proj2 (Z.leb_le _ _)) by lia. cbn.
      exists (f + zlen es1), [], es2, junk. split; [apply Hkeep; by exists s|]. split_and!; try done. intros x Hx. by apply Hout.
  - destruct so_open0 as [-> ->]. rewrite zlen_nil in *. exists k, [], [], []. split.
    + destruct w as [d []]. cbn in Ho |- *. subst. apply Hempty. lia.
    + split_and!; try done. intros x Hx. by apply Hout.
Qed.

(** The storage still holds [l'], and can be appended to if it could before. *)
Definition steps_to (w : Store) (junk : IOBuf) (w' : Store) (l' : Log) : Prop :=
  (whole w.(disk).(script) -> whole w'.(disk).(script)) /\
  exists f es1 es2 junk', sound w' l' f es1 es2 junk' /\ (junk = [] -> junk' = []) /\ (ready w -> ready w').

Lemma steps_to_holds w l w' (l' : Log) :
  (forall f es1 es2 junk, sound w l f es1 es2 junk -> steps_to w junk w' l') ->
  (holds w l -> (whole w.(disk).(script) -> whole w'.(disk).(script)) /\ holds w' l') /\ (holds_ready w l -> holds_ready w' l').
Proof using Type.
  intros Hs. split.
  - intros (f & es1 & es2 & junk & H). destruct (Hs _ _ _ _ H) as (Hw & f' & e1 & e2 & j & H' & _). split; [done|by exists f', e1, e2, j].
  - intros (Hr & f & es1 & es2 & H). destruct (Hs _ _ _ _ H) as (Hw & f' & e1 & e2 & j & H' & Hj & Hrd). rewrite Hj in H' by done.
    split; [auto|by exists f', e1, e2].
Qed.

Lemma sound_truncate_prefix w l f es1 es2 junk k :
  (forall i o n, ReadError ∉ reads i o n) -> pb_valid k -> sound w l f es1 es2 junk -> l.(log_first) <= k ->
  let '(rc, w', ev) := truncate_prefix flags k w in
  steps_to w junk w' (if ok rc then log_truncate_prefix l k else l).
Proof using Type.
  intros Hr Hv H Hk. unfold truncate_prefix. unfold mbind, M_bind, get, mret, M_ret.
  rewrite (so_first _ _ _ _ _ _ H). destruct (Z.leb_spec k (log_first l)) as [Hle|Hlt].
  { cbn. split; [done|]. assert (log_truncate_prefix l k = l) as ->; [|by exists f, es1, es2, junk].
    destruct l as [first es]. unfold log_truncate_prefix. cbn in *. replace (Z.to_nat (k - first)) with 0%nat by lia.
    rewrite drop_0. f_equal. lia. }
  pose proof (save_meta_spec w l f es1 es2 junk k Hr Hv H) as Hm. destruct (save_meta flags k w) as [[rc w1] e1].
  destruct Hm as (H1 & Hst & Hsc & _). destruct (ok rc) eqn:Hrc; cbn [negb].
  2:{ cbn. split; [done|]. exists f, es1, es2, junk. split_and!; try done. intros Hrd x. rewrite Hst. apply Hrd. }
  pose proof (sound_pop w1 l f es1 es2 junk k H1 Hlt) as Hp. destruct (pop_segments k w1) as [[popped w2] e2].
  destruct Hp as (f' & e1' & e2' & junk' & H2 & Hd2 & Hout & Hrd & Hj).
  pose proof (unlink_all_spec popped w2 _ f' e1' e2' junk' H2 Hout) as Hu. destruct (unlink_all popped w2) as [[u w3] e3].
  destruct Hu as (H3 & Hst3 & Hsc3). cbn. split; [rewrite Hd2 in Hsc3; auto|]. exists f', e1', e2', junk'. split_and!; try done.
  intros Hw x. rewrite Hst3. apply Hrd. intros y. rewrite Hst. apply Hw.
Qed.
End storage.
