(* ===== verification/SegmentTruncate.v ===== *)
(** * SegmentTruncate: dropping the end of the log on disk

    [truncate_suffix] and [reset] of the segmented storage: whole segments are
    unlinked from the back, the one the log now ends in is cut and becomes the
    open one.  When the calls succeed the storage holds the shortened log. *)

From S2P Require Import LogStorage ConfigurationManager Segment SegmentProofs SegmentLog SegmentLogProofs Types PeerText Disk EntryCodec ProtoBufFile Prelude.

Section storage.
Context `{IT : IpText, RP : RawPack, CS : Checksums, PB : ConfigurationPBMeta, EPO : EndPointOrder}.
Context `{LM : !PbMessage Z}.
Context (flags : Flags) (reads : positive -> nat -> nat -> list ReadOutcome).

#[local] Arguments erase_segment : simpl never.

(** ** Splitting the closed segments *)
Lemma closed_hold_app_inv d t f segs segs' es :
  closed_hold d t f (segs ++ segs') es ->
  exists es1 es2, es = es1 ++ es2 /\ closed_hold d t f segs es1 /\ closed_hold d t (f + zlen es1) segs' es2.
Proof using Type.
  revert f es. induction segs as [|s segs IH]; intros f es Hc.
  { exists [], es. rewrite zlen_nil, Z.add_0_r. by split_and!. }
  destruct Hc as (e1 & e2 & inode & -> & Hne & Hs & Hn & Hf & Ht & Ho & Hc).
  destruct (IH _ _ Hc) as (e3 & e4 & -> & H3 & H4). exists (e1 ++ e3), e4. rewrite app_assoc, zlen_app, Z.add_assoc.
  split_and!; [done| |done]. by exists e1, e3, inode.
Qed.

Lemma closed_is_closed d t f segs es s : closed_hold d t f segs es -> s ∈ segs -> s.(_is_open) = false.
Proof using Type.
  revert f es. induction segs as [|x segs IH]; intros f es Hc Hs; [by apply elem_of_nil in Hs|].
  destruct Hc as (es1 & es2 & inode & _ & _ & _ & _ & _ & _ & Ho & Hc).
  apply elem_of_cons in Hs as [->|Hs]; [done|by eapply IH].
Qed.

Lemma erase_all ps segs :
  foldr (fun s l => erase_segment s.(_first_index) l) segs ps =
  filter (fun x => x.(_first_index) ∉ map _first_index ps) segs.
Proof using Type.
  induction ps as [|p ps IH]; cbn.
  - symmetry. apply filter_keep_all. intros x _. apply not_elem_of_nil.
  - rewrite IH. unfold erase_segment. rewrite list_filter_filter. apply list_filter_iff. intros x.
    rewrite not_elem_of_cons. tauto.
Qed.

Lemma erase_popped kept ps rest :
  (forall x, x ∈ kept -> forall p, p ∈ ps \/ p ∈ rest -> x.(_first_index) <> p.(_first_index)) ->
  foldr (fun s l => erase_segment s.(_first_index) l) (kept ++ ps) (rest ++ rev ps) = kept.
Proof using Type.
  intros Hd. rewrite erase_all, filter_app, (filter_keep_all _ kept), (filter_keep_none _ ps), app_nil_r; [done| |].
  - intros x Hx Hn. apply Hn. rewrite map_app. apply elem_of_app. right. apply list_elem_of_fmap.
    exists x. split; [done|]. by apply elem_of_rev.
  - intros x Hx. rewrite map_app, elem_of_app. intros [Hp|Hp]; apply list_elem_of_fmap in Hp as (p & Hp & Hin).
    + apply (Hd x Hx p); [by right|done].
    + rewrite elem_of_rev in Hin. apply (Hd x Hx p); [by left|done].
Qed.

(** ** What the pops leave *)
Lemma pop_back_spec w l f es1 es2 junk k :
  sound w l f es1 es2 junk -> k <= log_last l ->
  let '((popped, last_segment), w', ev) := pop_segments_from_back k w in
  w'.(disk) = w.(disk) /\
  ((exists s, w.(store).(_open_segment) = Some s /\ s.(_first_index) <= k /\ popped = [] /\ last_segment = Some s /\
     w'.(store) = w.(store) <| _last_log_index := k |>) \/
   (exists kept ps e1 e2,
     w.(store).(_segments) = kept ++ ps /\ es1 = e1 ++ e2 /\
     closed_hold w.(disk) w.(store).(_log_checksum_type) f kept e1 /\ k < f + zlen e1 /\
     (forall x, x ∈ popped <-> x ∈ ps \/ w.(store).(_open_segment) = Some x) /\
     (forall x, x ∈ popped -> f + zlen e1 <= x.(_first_index)) /\
     last_segment = last kept /\ (forall s, last kept = Some s -> s.(_first_index) <= k) /\
     w'.(store) = w.(store) <| _last_log_index := k |> <| _segments := kept |> <| _open_segment := None |>
                            <| _first_log_index := match last kept with Some _ => w.(store).(_first_log_index) | None => k + 1 end |>)).
Proof using Type.
  intros H Hk. pose proof H as []. unfold pop_segments_from_back, set_store, modify, mbind, M_bind, get, mret, M_ret.
  cbn [store disk set_field _open_segment _segments].
  set (kept_open := match w.(store).(_open_segment) with Some s => _ | None => false end).
  destruct kept_open eqn:Hko.
  - split; [done|]. left. unfold kept_open in Hko. destruct (_open_segment (store w)) as [s|] eqn:Ho; [|done].
    exists s. by apply Z.leb_le in Hko.
  - assert (forall s, w.(store).(_open_segment) = Some s -> k < s.(_first_index)) as Hop.
    { intros s Ho. unfold kept_open in Hko. rewrite Ho in Hko. by apply Z.leb_gt in Hko. }
    destruct (pop_back_while_split (fun s => k <? s.(_first_index)) (_segments (store w))) as (ps & Hsegs & Hps & Hlast).
    set (kept := pop_back_while _ _) in *. rewrite Hsegs, drop_app_length.
    rewrite Hsegs in so_closed. apply closed_hold_app_inv in so_closed as (e1 & e2 & -> & Hc1 & Hc2).
    set (popped_open := match w.(store).(_open_segment) with Some s => [s] | None => [] end).
    assert (forall x, x ∈ popped_open <-> w.(store).(_open_segment) = Some x) as Hpo.
    { intros x. unfold popped_open. destruct (_open_segment (store w)) as [s|]; [|by rewrite elem_of_nil].
      rewrite list_elem_of_singleton. split; [by intros ->|by intros [= ->]]. }
    assert (forall x, x ∈ kept -> x.(_first_index) < f + zlen e1) as Hkf by (intros x Hx; by apply (closed_first _ _ _ _ _ _ Hc1 Hx)).
    assert (forall x, x ∈ ps \/ w.(store).(_open_segment) = Some x -> f + zlen e1 <= x.(_first_index)) as Hge.
    { intros p [Hp|Hp]; [by apply (closed_first _ _ _ _ _ _ Hc2 Hp)|].
      rewrite Hp in so_open. destruct so_open as (inode & _ & Hf & _). rewrite zlen_app in Hf. pose proof (zlen_nonneg e2). lia. }
    rewrite erase_popped.
    2:{ intros x Hx p Hp. specialize (Hkf x Hx). rewrite Hpo in Hp. apply Hge in Hp. lia. }
    assert (k < f + zlen e1) as Hk1.
    { rewrite (sound_log_last _ _ _ _ _ _ H) in Hk. destruct ps as [|p ps].
      - cbn in Hc2. subst e2. rewrite app_nil_r in *. destruct (_open_segment (store w)) as [s|] eqn:Ho.
        + destruct so_open as (inode & _ & Hf & _). specialize (Hop s eq_refl). lia.
        + destruct so_open as [-> _]. rewrite app_nil_r in Hk. lia.
      - destruct Hc2 as (e3 & e4 & inode & _ & _ & _ & _ & Hf & _). specialize (Hps p ltac:(left)). apply Z.ltb_lt in Hps. lia. }
    assert (forall x, x ∈ popped_open ++ rev ps <-> x ∈ ps \/ w.(store).(_open_segment) = Some x) as Hin.
    { intros x. rewrite elem_of_app, elem_of_rev, Hpo. tauto. }
    assert (forall x, x ∈ popped_open ++ rev ps -> f + zlen e1 <= x.(_first_index)) as Hgt by (intros x Hx%Hin; by apply Hge).
    assert (forall s, last kept = Some s -> s.(_first_index) <= k) as Hle by (intros s Hs; by apply Z.ltb_ge, Hlast).
    cbn [store disk set_field _segments]. destruct (last kept) as [s|] eqn:Hl.
    + split; [done|]. right. exists kept, ps, e1, e2. rewrite Hl. by split_and!.
    + split; [done|]. right. exists kept, ps, e1, e2. rewrite Hl. by split_and!.
Qed.

(** The unlinking loop: on success none of the names is left. *)
Definition removed (popped : list Segment) (g : FileName) : Prop :=
  g.(is_tmp) = true \/ exists s, s ∈ popped /\ g = file_name s.

Lemma stays_gone popped x (d1 d2 : Disk FileName) :
  kept_but (removed popped) d1 d2 -> d1.(names) !! file_name x = None ->
  (forall s, s ∈ popped -> d2.(names) !! file_name s = None) -> d2.(names) !! file_name x = None.
Proof using Type.
  intros Hk Hx Hg. destruct (decide (Exists (fun y => file_name y = file_name x) popped)) as [He|He].
  - apply Exists_exists in He as (y & Hy & <-). by apply Hg.
  - destruct (Hk (file_name x)) as [-> _]; [|done]. intros [Ht|(y & Hy & Hn)].
    + unfold file_name in Ht. by destruct (_is_open x).
    + apply He, Exists_exists. by exists y.
Qed.

Lemma unlink_until_spec popped ret w :
  disk_wf w.(disk) ->
  let '(rc, w', ev) := unlink_until_failure ret popped w in
  disk_wf w'.(disk) /\ w'.(store) = w.(store) /\ (whole w.(disk).(script) -> whole w'.(disk).(script)) /\
  kept_but (removed popped) w.(disk) w'.(disk) /\
  (ok rc = true -> forall s, s ∈ popped -> w'.(disk).(names) !! file_name s = None) /\
  (popped = [] -> rc = ret /\ w' = w).
Proof using Type.
  revert w ret. induction popped as [|x popped IH]; intros w ret Hwf; cbn [unlink_until_failure].
  { split_and!; try done. by intros _ s ?%elem_of_nil. }
  unfold mbind, M_bind, mret, M_ret, on_disk. pose proof (unlink_spec w.(disk) x Hwf) as Hu.
  destruct (unlink x (disk w)) as [[rc d1] e1]. destruct Hu as (Hwf1 & Hsc & Hk & Hgone).
  assert (kept_but (removed (x :: popped)) w.(disk) d1) as Hk1.
  { eapply kept_but_mono; [|exact Hk]. intros g [->|Hg]; [right; exists x; split; [left|done]|by left]. }
  destruct (ok rc) eqn:Hrc; cbn [negb].
  2:{ split_and!; try done. by rewrite Hrc. }
  specialize (IH (w <| disk := d1 |>) rc Hwf1). destruct (unlink_until_failure rc popped _) as [[rc2 w2] e2].
  destruct IH as (Hwf2 & Hst & Hsc2 & Hk2 & Hg2 & _). split_and!; try done; [by auto| |].
  - etransitivity; [exact Hk1|]. eapply kept_but_mono; [|exact Hk2]. intros g [?|(s & Hs & ->)]; [by left|right].
    exists s. split; [by right|done].
  - intros Hrc2 s [->|Hs]%elem_of_cons; [|by apply Hg2]. eapply stays_gone; [exact Hk2|by apply Hgone|by apply Hg2].
Qed.

(** ** The states they lead to *)

(** No segment is left. *)
Lemma sound_blank (w : Store) k :
  disk_wf w.(disk) -> (forall F L, w.(disk).(names) !! named (ClosedSegment F L) <> None -> F < k) ->
  w.(store).(_segments) = [] -> w.(store).(_open_segment) = None ->
  w.(store).(_first_log_index) = k -> w.(store).(_last_log_index) = k - 1 -> sound w (log_reset k) k [] [] [].
Proof using Type.
  intros Hwf Hd Hs Ho Hf Hl. split; rewrite ?Hs, ?Ho, ?zlen_nil; cbn; try done; rewrite ?zlen_nil; try lia.
  - by rewrite drop_nil.
  - intros F L Hn. left. by apply (Hd F L).
Qed.

Lemma truncated_entries (l : Log) f k (es : list LogEntry) :
  l.(log_entries) = drop (Z.to_nat (l.(log_first) - f)) es -> f <= l.(log_first) -> l.(log_first) <= k + 1 ->
  (log_truncate_suffix l k).(log_entries) = drop (Z.to_nat (l.(log_first) - f)) (take (Z.to_nat (k + 1 - f)) es).
Proof using Type.
  intros He H1 H2. cbn. rewrite He, take_drop_commute. do 2 f_equal. lia.
Qed.

Lemma file_name_first s F L : file_name s = named (ClosedSegment F L) -> s.(_first_index) = F.
Proof using Type. unfold file_name. destruct (_is_open s); [done|]. by intros [= -> _]. Qed.

(** Where the closed segments' names lead once those of [popped] are gone. *)
Lemma directory_removed w l f es1 es2 junk kept ps popped d' F L :
  sound w l f es1 es2 junk -> w.(store).(_segments) = kept ++ ps ->
  (forall x, x ∈ popped <-> x ∈ ps \/ w.(store).(_open_segment) = Some x) ->
  kept_but (removed popped) w.(disk) d' -> (forall s, s ∈ popped -> d'.(names) !! file_name s = None) ->
  d'.(names) !! named (ClosedSegment F L) <> None ->
  F < f \/ exists x, x ∈ kept /\ closed_name x = named (ClosedSegment F L).
Proof using Type.
  intros H Hsegs Hpop Hk Hgone Hn. pose proof H as []. destruct (decide (F < f)); [by left|right].
  assert (forall s, s ∈ popped -> file_name s <> named (ClosedSegment F L)) as Hnot.
  { intros s Hs He. apply Hn. rewrite <- He. by apply Hgone. }
  destruct (Hk (named (ClosedSegment F L))) as [Heq _].
  { intros [?|(s & Hs & He)]; [done|]. by apply (Hnot s Hs). }
  rewrite Heq in Hn. destruct (so_dir F L Hn) as [?|(x & Hx & He)]; [lia|]. exists x. split; [|done].
  destruct Hx as [Hx|[Hx Hio]].
  - rewrite Hsegs in Hx. apply elem_of_app in Hx as [Hx|Hx]; [done|]. exfalso. apply (Hnot x); [by apply Hpop; left|].
    rewrite Hsegs in so_closed. apply closed_hold_app_inv in so_closed as (e1 & e2 & _ & _ & Hc). unfold file_name.
    by rewrite (closed_is_closed _ _ _ _ _ _ Hc Hx).
  - exfalso. apply (Hnot x); [by apply Hpop; right|]. unfold file_name. by rewrite Hio.
Qed.

(** Whole segments are gone from the back, some remain. *)
Lemma sound_dropped w l f es1 es2 junk kept ps popped e1 e2 d' :
  sound w l f es1 es2 junk -> w.(store).(_segments) = kept ++ ps -> es1 = e1 ++ e2 -> kept <> [] ->
  closed_hold w.(disk) w.(store).(_log_checksum_type) f kept e1 ->
  (forall x, x ∈ popped <-> x ∈ ps \/ w.(store).(_open_segment) = Some x) ->
  (forall x, x ∈ popped -> f + zlen e1 <= x.(_first_index)) ->
  disk_wf d' -> kept_but (removed popped) w.(disk) d' -> (forall s, s ∈ popped -> d'.(names) !! file_name s = None) ->
  let k := f + zlen e1 - 1 in
  sound (mkStore d' (w.(store) <| _last_log_index := k |> <| _segments := kept |> <| _open_segment := None |>))
    (log_truncate_suffix l k) f e1 [] [].
Proof using Type.
  intros H Hsegs -> Hne Hc Hpop Hge Hwf Hk Hgone k. pose proof H as [].
  assert (l.(log_first) <= k) as Hfirst.
  { destruct kept as [|s kept]; [done|]. rewrite Hsegs in so_head. specialize (so_head s eq_refl).
    pose proof (closed_first _ _ _ _ _ s Hc ltac:(left)). lia. }
  split; cbn [store disk set_field _segments _open_segment _log_checksum_type _first_log_index _last_log_index];
    rewrite ?app_nil_r; try done.
  - eapply closed_frame; [|exact Hc]. intros x i Hx Hi. destruct (Hk (closed_name x)) as [Hn Hco]; [|by rewrite Hn; split; [|apply Hco]].
    intros [?|(s & Hs & He)]; [done|]. symmetry in He. apply file_name_first in He. specialize (Hge s Hs).
    pose proof (closed_first _ _ _ _ _ _ Hc Hx). lia.
  - cbn. lia.
  - rewrite (truncated_entries l f k _ so_entries) by lia. cbn [log_first log_truncate_suffix]. rewrite Z.min_l by lia. f_equal.
    unfold k. rewrite <- !app_assoc. replace (Z.to_nat (f + zlen e1 - 1 + 1 - f)) with (length e1) by (unfold zlen; lia).
    apply take_app_length.
  - intros s Hs. cbn. transitivity (log_first l); [lia|]. apply so_head. rewrite Hsegs. by destruct kept.
  - cbn. lia.
  - intros F L Hn. destruct (directory_removed _ _ _ _ _ _ _ _ _ _ F L H Hsegs Hpop Hk Hgone Hn) as [?|(x & Hx & He)]; [by left|].
    right. exists x. split; [by left|done].
Qed.

(** ** Cutting the segment the log ends in *)
Lemma suffix_is_all l k : log_last l <= k -> l.(log_first) <= k + 1 -> log_truncate_suffix l k = l.
Proof using Type.
  intros Hk Hf. destruct l as [first es]. unfold log_truncate_suffix, log_last, zlen in *. cbn in *.
  rewrite Z.min_l by lia. f_equal. apply take_ge. lia.
Qed.

(** The segment [s] after [segs] was cut, and is the open one. *)
Lemma sound_cut d (st' : SegmentLogStorage) l f segs es1 es2 s inode d' s' k :
  disk_wf d -> closed_hold d st'.(_log_checksum_type) f segs es1 ->
  s.(_first_index) = f + zlen es1 -> s.(Segment._checksum_type) = st'.(_log_checksum_type) ->
  f <= l.(log_first) -> l.(log_entries) = drop (Z.to_nat (l.(log_first) - f)) (es1 ++ es2) -> log_last l = f + zlen (es1 ++ es2) - 1 ->
  (forall x, head segs = Some x -> l.(log_first) <= x.(_last_index)) ->
  (forall F L, d.(names) !! named (ClosedSegment F L) <> None ->
     F < f \/ (exists x, x ∈ segs /\ closed_name x = named (ClosedSegment F L)) \/ closed_name s = named (ClosedSegment F L)) ->
  (d.(names) !! file_name s = Some inode \/ d.(names) !! open_name s = Some inode) ->
  l.(log_first) <= k <= log_last l -> s.(_first_index) <= k ->
  disk_wf d' -> s'.(_first_index) = s.(_first_index) -> s'.(Segment._checksum_type) = s.(Segment._checksum_type) ->
  (forall i, i <> inode -> content d' i = content d i) ->
  (forall h, h <> open_name s -> h <> closed_name s -> d'.(names) !! h = d.(names) !! h) ->
  s'.(_is_open) = true -> d'.(names) !! closed_name s = None ->
  seg_holds d' s' (take (Z.to_nat (k + 1 - s.(_first_index))) es2) [] inode ->
  st'.(_segments) = segs -> st'.(_open_segment) = Some s' -> st'.(_first_log_index) = l.(log_first) -> st'.(_last_log_index) = k ->
  sound (mkStore d' st') (log_truncate_suffix l k) f es1 (take (Z.to_nat (k + 1 - s.(_first_index))) es2) [].
Proof using Type.
  intros Hwf0 Hcl Hf Ht Hfl He Hll Hhead Hdir Hname Hk Hsk Hwf Hf' Ht' Hc Hn Hio Hno Hs' Hsg Hop Hfi Hla. rewrite zlen_app in *.
  assert (zlen (take (Z.to_nat (k + 1 - _first_index s)) es2) = k + 1 - s.(_first_index)) as Hlen by (apply zlen_take; lia).
  assert (forall x, x ∈ segs -> x.(_first_index) <> s.(_first_index)) as Hdiff.
  { intros x Hx. pose proof (closed_first _ _ _ _ _ _ Hcl Hx). lia. }
  split; cbn [store disk]; rewrite ?Hsg, ?Hop, ?zlen_app, ?Hlen; try done.
  - assert (exists g, d.(names) !! g = Some inode /\ (g = open_name s \/ g = closed_name s)) as (g & Hg & Hgs).
    { destruct Hname as [Hg|Hg]; eexists; (split; [exact Hg|]); [unfold file_name; destruct (_is_open s)|]; auto. }
    eapply closed_frame_inode with (g := g); [exact Hwf0|done| | |exact Hc|exact Hcl]; intros x Hx;
      destruct (names_differ _ _ (Hdiff x Hx)) as (N1 & N2 & _); [by destruct Hgs as [->| ->]|by apply Hn].
  - exists inode. rewrite Hf', Ht', Hio. split_and!; [done|lia|done|by left|done].
  - cbn. lia.
  - rewrite (truncated_entries l f k _ He) by lia. cbn [log_first log_truncate_suffix]. rewrite Z.min_l by lia. f_equal.
    rewrite take_app, (take_ge es1) by (unfold zlen in *; lia). f_equal. f_equal. unfold zlen in *. lia.
  - intros x Hx. cbn. transitivity (log_first l); [lia|by apply Hhead].
  - intros -> _. cbn in Hcl |- *. subst es1. rewrite zlen_nil in *. lia.
  - cbn. lia.
  - lia.
  - intros F L. cbn. rewrite ?Hsg. destruct (decide (named (ClosedSegment F L) = closed_name s)) as [->|Hne]; [by rewrite Hno|].
    rewrite Hn by done. intros Hx. destruct (Hdir F L Hx) as [?|[(x & Hx' & He')|He']]; [by left| |congruence].
    right. exists x. split; [left; cbn; by rewrite Hsg|done].
Qed.

(** What [truncate] of the open segment gives. *)
Lemma truncate_open w l f es1 es2 junk s k :
  sound w l f es1 es2 junk -> w.(store).(_open_segment) = Some s -> l.(log_first) <= k <= log_last l -> s.(_first_index) <= k ->
  let '((rc, s'), d', ev) := truncate s k w.(disk) in
  s'.(_first_index) = s.(_first_index) /\ (whole w.(disk).(script) -> whole d'.(script)) /\
  (rc = OK -> exists es2' junk', (junk = [] -> junk' = []) /\ (s.(_pos) = s.(_bytes) -> s'.(_pos) = s'.(_bytes)) /\
     sound (mkStore d' (w.(store) <| _last_log_index := k |> <| _open_segment := Some s' |>)) (log_truncate_suffix l k) f es1 es2' junk').
Proof using Type.
  intros H Ho Hk Hsk. pose proof (sound_log_last _ _ _ _ _ _ H) as Hll. pose proof H as [].
  rewrite Ho in so_open. destruct so_open as (inode & Hs & Hf & Ht & _ & _). pose proof (sh_last _ _ _ _ _ Hs) as Hl.
  pose proof (truncate_spec w.(disk) s es2 junk inode k Hs so_wf ltac:(lia)) as Htr.
  destruct (truncate s k (disk w)) as [[[rc s'] d'] ev]. destruct Htr as (Hwf & Hf' & Ht' & Hsc & Hc & Hn & Hok).
  split; [done|]. split; [done|]. intros ->. destruct (Hok eq_refl) as [Hl' Hcut]. clear Hok. rewrite zlen_app in *.
  destruct (Z.leb_spec (_last_index s) k).
  - destruct Hcut as [-> ->]. exists es2, junk. split; [done|]. split; [done|]. rewrite suffix_is_all by lia.
    destruct w as [d []]; cbn in *; subst. replace k with (f + (zlen es1 + zlen es2) - 1) by lia. exact H.
  - destruct Hcut as (Hio & Hcn & Hs' & _ & Hp). exists (take (Z.to_nat (k + 1 - _first_index s)) es2), []. split; [done|]. split; [done|].
    apply (sound_cut w.(disk) _ l f w.(store).(_segments) es1 es2 s inode d' s'); try done.
    + lia.
    + rewrite Hll, zlen_app. lia.
    + intros F L Hx. destruct (so_dir F L Hx) as [?|(x & [Hx'|[Hx' Hxo]] & He)]; [by left|right; left; by exists x|].
      rewrite Ho in Hx'. injection Hx' as <-. by right; right.
    + destruct (sh_name _ _ _ _ _ Hs) as [?|(_ & ? & _)]; auto.
    + apply Hcn. destruct (_is_open s) eqn:Hso; [right|by left]. exact (no_closed_file w l f es1 es2 junk s H Ho Hso _).
Qed.

(** What [truncate] of the last closed segment gives, when there is no open one. *)
Lemma truncate_closed w l f es1 segs s k :
  sound w l f es1 [] [] -> w.(store).(_segments) = segs ++ [s] -> w.(store).(_open_segment) = None ->
  l.(log_first) <= k <= log_last l -> s.(_first_index) <= k ->
  let '((rc, s'), d', ev) := truncate s k w.(disk) in
  s'.(_first_index) = s.(_first_index) /\ (whole w.(disk).(script) -> whole d'.(script)) /\
  (rc = OK ->
    if s'.(_is_open) then s'.(_pos) = s'.(_bytes) /\ exists es1' es2',
      sound (mkStore d' (w.(store) <| _last_log_index := k |> <| _segments := segs |> <| _open_segment := Some s' |>))
        (log_truncate_suffix l k) f es1' es2' []
    else s' = s /\ sound (mkStore d' (w.(store) <| _last_log_index := k |>)) (log_truncate_suffix l k) f es1 [] []).
Proof using Type.
  intros H Hsegs Ho Hk Hsk. pose proof (sound_log_last _ _ _ _ _ _ H) as Hll. pose proof H as []. rewrite app_nil_r in Hll.
  pose proof so_closed as Hcl. rewrite Hsegs in Hcl. apply closed_hold_app_inv in Hcl as (e1 & e2 & -> & Hc1 & Hc2).
  destruct Hc2 as (e3 & e4 & inode & -> & Hne & Hs & _ & Hf & Ht & Hio & Hnil). cbn in Hnil. subst e4.
  rewrite !app_nil_r, zlen_app in *. pose proof (sh_last _ _ _ _ _ Hs) as Hl. pose proof (zlen_nonneg e1).
  pose proof (truncate_spec w.(disk) s e3 [] inode k Hs so_wf ltac:(lia)) as Htr.
  destruct (truncate s k (disk w)) as [[[rc s'] d'] ev]. destruct Htr as (Hwf & Hf' & Ht' & Hsc & Hc & Hn & Hok).
  split; [done|]. split; [done|]. intros ->. destruct (Hok eq_refl) as [Hl' Hcut]. clear Hok.
  destruct (Z.leb_spec (_last_index s) k).
  - destruct Hcut as [-> ->]. rewrite Hio. split; [done|]. rewrite suffix_is_all by lia.
    destruct w as [d []]; cbn in *; subst. replace k with (f + (zlen e1 + zlen e3) - 1) by lia. exact H.
  - destruct Hcut as (Hio' & Hcn & Hs' & _ & Hp). rewrite Hio'. split; [done|]. exists e1, (take (Z.to_nat (k + 1 - _first_index s)) e3).
    apply (sound_cut w.(disk) _ l f segs e1 e3 s inode d' s'); try done; [lia|by rewrite zlen_app| | | |by apply Hcn; left].
    + intros x Hx. apply so_head. rewrite Hsegs. by destruct segs.
    + intros F L Hx. destruct (so_dir F L Hx) as [?|(x & [Hx'|[Hx' Hxo]] & He)]; [by left| |congruence].
      rewrite Hsegs in Hx'. apply elem_of_app in Hx' as [Hx'|Hx'%list_elem_of_singleton]; [right; left; by exists x|]. subst x. by right; right.
    + destruct (sh_name _ _ _ _ _ Hs) as [?|(_ & ? & _)]; auto.
Qed.

(** A segment that holds both kept and dropped indices is the first. *)
Lemma only_segment w l f es1 es2 junk segs s ps :
  sound w l f es1 es2 junk -> w.(store).(_segments) = segs ++ s :: ps -> s.(_first_index) < l.(log_first) -> segs = [].
Proof using Type.
  intros [] Hsegs Hs. destruct segs as [|x segs]; [done|]. rewrite Hsegs in so_closed, so_head.
  specialize (so_head x eq_refl). destruct so_closed as (e1 & e2 & inode & _ & _ & Hx & _ & Hf & _ & _ & Hc).
  pose proof (sh_last _ _ _ _ _ Hx). assert (s ∈ segs ++ s :: ps) as Hin by (apply elem_of_app; right; left).
  pose proof (closed_first _ _ _ _ _ _ Hc Hin). lia.
Qed.


(** A successful call leaves the storage with the log [l']. *)
Definition succeeds_to (w : Store) (junk : IOBuf) (l' : Log) (r : Errno * Store * list (DiskEvent FileName)) : Prop :=
  let '(rc, w', ev) := r in
  (whole w.(disk).(script) -> whole w'.(disk).(script)) /\
  (rc = OK -> exists f es1 es2 junk', sound w' l' f es1 es2 junk' /\ (junk = [] -> junk' = []) /\ (ready w -> ready w')).

(** The test of the map of segments that a cut open segment goes through. *)
Lemma truncate_last_reopens d (st : SegmentLogStorage) b s' :
  (forall x, x ∈ st.(_segments) -> x.(_first_index) <> s'.(_first_index)) ->
  let w' := mkStore d (st <| _open_segment := Some s' |>) in
  state_of (when b (reopen_truncated s') w') = w'.
Proof using Type.
  intros Hd w'. destruct b; [|done]. cbn [when]. unfold reopen_truncated, mbind, M_bind, get, set_store, modify, state_of, check_that, when.
  assert (erase_segment s'.(_first_index) (_segments (store w')) = st.(_segments)) as He.
  { apply filter_keep_all. exact Hd. }
  destruct st. destruct (negb _); cbn in *; by rewrite He.
Qed.

Lemma truncate_last_open w l f es1 es2 junk s k :
  sound w l f es1 es2 junk -> w.(store).(_open_segment) = Some s -> l.(log_first) <= k <= log_last l -> s.(_first_index) <= k ->
  succeeds_to w junk (log_truncate_suffix l k) (truncate_last true s k (w <| store := w.(store) <| _last_log_index := k |> |>)).
Proof using Type.
  intros H Ho Hk Hsk. pose proof (truncate_open w l f es1 es2 junk s k H Ho Hk Hsk) as Ht.
  unfold truncate_last, succeeds_to, write_back, set_store, modify, on_disk, mbind, M_bind, get, mret, M_ret. cbn [disk store].
  cbn [disk set_field]. destruct (truncate s k (disk w)) as [[[rc s'] d'] ev]. destruct Ht as (Hf & Hsc & Hok).
  assert (forall x, x ∈ (w.(store) <| _last_log_index := k |>).(_segments) -> x.(_first_index) <> s'.(_first_index)) as Hd.
  { intros x Hx. cbn in Hx. destruct H. rewrite Ho in so_open. destruct so_open as (i & _ & Hfs & _).
    pose proof (closed_first _ _ _ _ _ _ so_closed Hx). lia. }
  pose proof (truncate_last_reopens d' (w.(store) <| _last_log_index := k |>) (ok rc && negb (_is_open s) && _is_open s') s' Hd) as Hre.
  cbv zeta in Hre. set (w' := mkStore d' _) in Hre.
  match goal with |- context [when ?b ?m ?x] => change x with w' end.
  destruct (when _ (reopen_truncated s') w') as [[u w2] e2]. unfold state_of in Hre. cbn in Hre. subst w2.
  split; [done|]. intros Hrc. destruct (Hok Hrc) as (es2' & junk' & Hj & Hp & Hs'). exists f, es1, es2', junk'.
  split; [exact Hs'|]. split; [done|]. intros Hr x [= <-]. by apply Hp, Hr.
Qed.

Lemma truncate_last_closed w l f es1 segs s k :
  sound w l f es1 [] [] -> w.(store).(_segments) = segs ++ [s] -> w.(store).(_open_segment) = None ->
  l.(log_first) <= k <= log_last l -> s.(_first_index) <= k ->
  succeeds_to w [] (log_truncate_suffix l k) (truncate_last false s k (w <| store := w.(store) <| _last_log_index := k |> |>)).
Proof using Type.
  intros H Hsegs Ho Hk Hsk. pose proof (truncate_closed w l f es1 segs s k H Hsegs Ho Hk Hsk) as Ht.
  assert (forall x, x ∈ segs -> x.(_first_index) < s.(_first_index)) as Hd.
  { intros x Hx. destruct H. rewrite Hsegs in so_closed. apply closed_hold_app_inv in so_closed as (e1 & e2 & _ & Hc & Hc2).
    pose proof (closed_first _ _ _ _ _ _ Hc Hx). destruct Hc2 as (? & ? & ? & _ & _ & _ & _ & Hf & _). lia. }
  assert (s.(_is_open) = false) as Hio.
  { destruct H. eapply (closed_is_closed _ _ _ _ _ s so_closed). rewrite Hsegs. apply elem_of_app. right. by left. }
  unfold truncate_last, succeeds_to, write_back, set_store, modify, on_disk, mbind, M_bind, get, mret, M_ret. cbn [disk store].
  cbn [disk set_field]. rewrite Hio. destruct (truncate s k (disk w)) as [[[rc s'] d'] ev]. destruct Ht as (Hf & Hsc & Hok). cbn.
  rewrite Hsegs, (put_again segs s s' Hd Hf).
  destruct (ok rc) eqn:Hrc; cbn [andb]; [destruct (_is_open s')|]; cbn [when].
  - destruct (Hok (ok_true rc Hrc)) as (Hp & es1' & es2' & Hs').
    unfold reopen_truncated, mbind, M_bind, get, set_store, modify, check_that, when. cbn. rewrite Ho. cbn.
    rewrite erase_last by (intros x Hx; rewrite Hf; by apply Hd).
    split; [done|]. intros _. exists f, es1', es2', []. split; [|by split; [|intros _ x [= <-]]].
    destruct w as [d []]. exact Hs'.
  - destruct (Hok (ok_true rc Hrc)) as [-> Hs']. split; [done|]. intros _. exists f, es1, [], []. split; [|split; [done|]].
    + destruct w as [d []]. cbn in Hsegs |- *. subst. exact Hs'.
    + intros Hr x. cbn. rewrite Ho. done.
  - split; [done|]. by intros ->.
Qed.

Lemma log_emptied l k : l.(log_first) = k + 1 -> log_truncate_suffix l k = log_reset (k + 1).
Proof using Type.
  intros Hf. unfold log_truncate_suffix, log_reset. rewrite Hf, Z.min_id. replace (k - (k + 1) + 1) with 0 by lia. done.
Qed.

(** Nothing is left once the files still there are unlinked. *)
Lemma unlinked_blank w junk k popped w1 :
  disk_wf w1.(disk) -> w1.(disk) = w.(disk) -> w1.(store).(_segments) = [] -> w1.(store).(_open_segment) = None ->
  w1.(store).(_first_log_index) = k + 1 -> w1.(store).(_last_log_index) = k ->
  (forall F L, w.(disk).(names) !! named (ClosedSegment F L) <> None ->
     F < k + 1 \/ exists s, s ∈ popped /\ file_name s = named (ClosedSegment F L)) ->
  succeeds_to w junk (log_reset (k + 1)) (unlink_until_failure ENEG1 popped w1).
Proof using Type.
  intros Hwf Hd Hsegs Ho Hf Hl Hdir. pose proof (unlink_until_spec popped ENEG1 w1 Hwf) as Hu.
  destruct (unlink_until_failure ENEG1 popped w1) as [[rc w2] ev]. destruct Hu as (Hwf2 & Hst & Hsc & Hk & Hgone & _).
  rewrite Hd in *. split; [done|]. intros ->. exists (k + 1), [], [], []. split; [|split; [done|by intros _ x; rewrite Hst, Ho]].
  apply sound_blank; rewrite ?Hst; try done; [|lia]. intros F L Hn.
  assert (forall s, s ∈ popped -> file_name s <> named (ClosedSegment F L)) as Hnot.
  { intros s Hs He. apply Hn. rewrite <- He. by apply Hgone. }
  destruct (Hk (named (ClosedSegment F L))) as [Heq _].
  { intros [?|(s & Hs & He)]; [done|]. by apply (Hnot s Hs). }
  rewrite Heq in Hn. destruct (Hdir F L Hn) as [?|(s & Hs & He)]; [done|]. by destruct (Hnot s Hs).
Qed.

(** The events do not matter to it. *)
Lemma succeeds_to_events w junk l' ev r :
  succeeds_to w junk l' r -> succeeds_to w junk l' (let '(b, s, e) := r in (b, s, ev ++ e)).
Proof using Type. by destruct r as [[? ?] ?]. Qed.

(** The log ends in the open segment. *)
Lemma suffix_open w l f es1 es2 junk s k w1 :
  sound w l f es1 es2 junk -> l.(log_first) - 1 <= k <= log_last l -> w.(store).(_open_segment) = Some s -> s.(_first_index) <= k ->
  w1.(disk) = w.(disk) -> w1.(store) = w.(store) <| _last_log_index := k |> ->
  (l.(log_first) <= k -> succeeds_to w junk (log_truncate_suffix l k) (truncate_last true s k w1)) /\
  (k < l.(log_first) -> succeeds_to w junk (log_truncate_suffix l k)
     (unlink_until_failure ENEG1 [s] (w1 <| store := w1.(store) <| _segments := erase_segment s.(_first_index) w1.(store).(_segments) |>
                                                              <| _open_segment := None |> |>))).
Proof using Type.
  intros H Hk Ho Hs Hd Hst. split; intros Hf.
  - pose proof (truncate_last_open w l f es1 es2 junk s k H Ho ltac:(lia) Hs) as Ht.
    destruct w1 as [d1 st1], w as [d st]. cbn in Hd, Hst. subst. exact Ht.
  - pose proof H as []. assert (w.(store).(_segments) = []) as Hnil.
    { destruct (_segments (store w)) as [|x segs]; [done|]. specialize (so_head x eq_refl). rewrite Ho in so_open.
      destruct so_open as (i & _ & Hfs & _). pose proof (closed_first _ _ _ _ _ x so_closed ltac:(left)). lia. }
    rewrite log_emptied by lia. apply unlinked_blank; rewrite ?Hst; cbn; rewrite ?Hd; try done.
    + by rewrite Hnil.
    + lia.
    + intros F L Hn. left. destruct (so_dir F L Hn) as [?|(x & [Hx|[Hx _]] & He)]; [lia|by rewrite Hnil in Hx; apply elem_of_nil in Hx|].
      rewrite Ho in Hx. injection Hx as <-. injection He as <- _. lia.
Qed.

Lemma log_truncate_suffix_twice l k k' : k <= k' -> log_truncate_suffix (log_truncate_suffix l k') k = log_truncate_suffix l k.
Proof using Type.
  intros Hk. destruct l as [first es]. unfold log_truncate_suffix. cbn. f_equal; [lia|]. rewrite take_take. f_equal. lia.
Qed.

(** The log ends in a closed segment, after [kept]. *)
Lemma suffix_kept w l f es1 es2 junk kept ps popped e1 e2 s k w1 :
  sound w l f es1 es2 junk -> w.(store).(_segments) = (kept ++ [s]) ++ ps -> es1 = e1 ++ e2 ->
  closed_hold w.(disk) w.(store).(_log_checksum_type) f (kept ++ [s]) e1 -> l.(log_first) <= k < f + zlen e1 ->
  (forall x, x ∈ popped <-> x ∈ ps \/ w.(store).(_open_segment) = Some x) ->
  (forall x, x ∈ popped -> f + zlen e1 <= x.(_first_index)) -> s.(_first_index) <= k ->
  w1.(disk) = w.(disk) ->
  w1.(store) = w.(store) <| _last_log_index := k |> <| _segments := kept ++ [s] |> <| _open_segment := None |> ->
  succeeds_to w junk (log_truncate_suffix l k)
    ((ret ← unlink_until_failure ENEG1 popped;
      if negb (ok ret) && negb (bool_decide (popped = [])) then mret ret else truncate_last false s k) w1).
Proof using Type.
  intros H Hsegs Hes Hc Hk Hpop Hge Hs Hd Hst. unfold mbind, M_bind, mret, M_ret.
  pose proof (so_wf _ _ _ _ _ _ H) as Hwf. rewrite <- Hd in Hwf.
  pose proof (unlink_until_spec popped ENEG1 w1 Hwf) as Hu. destruct (unlink_until_failure ENEG1 popped w1) as [[rc w2] e].
  destruct Hu as (Hwf2 & Hst2 & Hsc & Hkb & Hgone & _). rewrite Hd in *. apply succeeds_to_events.
  destruct (ok rc || bool_decide (popped = [])) eqn:Hcond.
  2:{ apply orb_false_iff in Hcond as [Hr0 ->]. rewrite Hr0. split; [done|]. by intros ->. }
  assert (negb (ok rc) && negb (bool_decide (popped = [])) = false) as -> by (rewrite <- negb_orb, Hcond; done).
  assert (forall x, x ∈ popped -> w2.(disk).(names) !! file_name x = None) as Hgone'.
  { apply orb_true_iff in Hcond as [Hr|Hnil%bool_decide_eq_true]; [by apply Hgone|]. intros x. rewrite Hnil. by intros ?%elem_of_nil. }
  pose proof (sound_dropped w l f es1 es2 junk (kept ++ [s]) ps popped e1 e2 w2.(disk) H Hsegs Hes ltac:(by destruct kept)
    Hc Hpop Hge Hwf2 Hkb Hgone') as HA. cbv zeta in HA. set (kA := f + zlen e1 - 1) in *. set (wA := mkStore _ _) in HA.
  assert (log_last (log_truncate_suffix l kA) = kA) as HlA by (pose proof (sound_log_last _ _ _ _ _ _ HA) as Hl; by rewrite app_nil_r in Hl).
  pose proof (truncate_last_closed wA _ f e1 kept s k HA eq_refl eq_refl) as Ht. rewrite HlA, log_truncate_suffix_twice in Ht by lia.
  specialize (Ht ltac:(cbn; lia) Hs).
  assert (wA <| store := (store wA) <| _last_log_index := k |> |> = w2) as Heq.
  { destruct w2 as [d2 st2]. cbn in Hst2. subst st2. unfold wA. cbn. by rewrite Hst. }
  rewrite Heq in Ht. unfold succeeds_to in *. destruct (truncate_last false s k w2) as [[r w3] e3]. destruct Ht as [Hw Hok].
  split; [by auto|]. intros Hr. destruct (Hok Hr) as (f' & e1' & e2' & j' & Hs3 & Hj & Hrd). exists f', e1', e2', j'.
  split; [done|]. split; [auto|]. intros _. apply Hrd. by intros x.
Qed.

(** Every segment goes, with [rest] the one that starts before the log does. *)
Lemma suffix_none w l f es1 es2 junk kept ps popped e1 e2 rest k w1 :
  sound w l f es1 es2 junk -> l.(log_first) = k + 1 -> w.(store).(_segments) = kept ++ ps ->
  closed_hold w.(disk) w.(store).(_log_checksum_type) f kept e1 -> es1 = e1 ++ e2 ->
  (forall x, x ∈ popped <-> x ∈ ps \/ w.(store).(_open_segment) = Some x) ->
  (forall x, x ∈ kept -> x.(_first_index) < k + 1) ->
  w1.(disk) = w.(disk) -> w1.(store).(_segments) = [] -> w1.(store).(_open_segment) = None ->
  w1.(store).(_first_log_index) = k + 1 -> w1.(store).(_last_log_index) = k ->
  succeeds_to w junk (log_truncate_suffix l k) (unlink_until_failure ENEG1 (popped ++ rest) w1).
Proof using Type.
  intros H Hf Hsegs Hc Hes Hpop Hkept Hd Hs1 Ho1 Hf1 Hl1. pose proof H as []. rewrite log_emptied by done.
  apply unlinked_blank; try done; [by rewrite Hd|]. intros F L Hn.
  destruct (so_dir F L Hn) as [?|(x & Hx & He)]; [left; lia|].
  assert (forall y, y ∈ popped -> file_name y = named (ClosedSegment F L) -> F < k + 1 \/
    exists s, s ∈ popped ++ rest /\ file_name s = named (ClosedSegment F L)) as Hin.
  { intros y Hy Hny. right. exists y. split; [apply elem_of_app; by left|done]. }
  destruct Hx as [Hx|[Hx Hio]].
  - rewrite Hsegs in Hx. apply elem_of_app in Hx as [Hx|Hx].
    + left. injection He as <- _. by apply Hkept.
    + apply (Hin x); [apply Hpop; by left|]. unfold file_name. rewrite (closed_is_closed _ _ _ _ _ x so_closed); [done|].
      rewrite Hsegs. apply elem_of_app. by right.
  - apply (Hin x); [apply Hpop; by right|]. unfold file_name. by rewrite Hio.
Qed.


Lemma sound_truncate_suffix w l f es1 es2 junk k :
  sound w l f es1 es2 junk -> l.(log_first) - 1 <= k <= log_last l ->
  succeeds_to w junk (log_truncate_suffix l k) (truncate_suffix k w).
Proof using Type.
  intros H Hk. pose proof (pop_back_spec w l f es1 es2 junk k H ltac:(lia)) as Hp.
  unfold truncate_suffix, set_store, modify. unfold mbind, M_bind, get, mret, M_ret.
  destruct (pop_segments_from_back k w) as [[[popped lst] w1] ev1]. destruct Hp as (Hd1 & [Hp|Hp]).
  - destruct Hp as (s & Ho & Hs & -> & -> & Hst). pose proof H as []. 
    destruct (suffix_open w l f es1 es2 junk s k w1 H Hk Ho Hs Hd1 Hst) as [Hge Hlt].
    rewrite Hst. cbn [_open_segment _first_log_index _last_log_index set_field]. rewrite so_first, Ho.
    do 2 apply succeeds_to_events. destruct (Z.leb_spec (log_first l) k).
    + cbn [unlink_until_failure]. unfold mret, M_ret. change (negb (ok ENEG1) && negb (bool_decide ([] = []))) with false. cbv iota.
      apply succeeds_to_events. by apply Hge.
    + apply succeeds_to_events. rewrite Hst in Hlt |- *. by apply Hlt.
  - destruct Hp as (kept & ps & e1 & e2 & Hsegs & Hes & Hc & Hk1 & Hpop & Hge & -> & Hle & Hst).
    do 2 apply succeeds_to_events. destruct (last kept) as [s|] eqn:Hl.
    + apply last_Some in Hl as [kept' ->]. specialize (Hle s eq_refl). rewrite Hst. cbn.
      pose proof H as []. rewrite so_first. destruct (Z.leb_spec (log_first l) k).
      * apply (suffix_kept w l f es1 es2 junk kept' ps popped e1 e2 s k w1); done.
      * assert (kept' = []) as ->.
        { rewrite <- app_assoc in Hsegs. eapply only_segment; [exact H|exact Hsegs|lia]. }
        apply (succeeds_to_events _ _ _ []). rewrite Hst. cbn.
        apply (suffix_none w l f es1 es2 junk [s] ps popped e1 e2 [s] k); try done; cbn; try lia.
        -- intros x ->%list_elem_of_singleton. lia.
        -- rewrite <- (app_nil_l [s]). apply erase_last. by intros x ?%elem_of_nil.
    + apply last_None in Hl as ->. cbn in Hc. subst e1. rewrite zlen_nil in Hk1. rewrite <- (app_nil_r popped).
      pose proof H as []. apply (suffix_none w l f es1 es2 junk [] ps popped [] e2 [] k); rewrite ?Hst; try done; [lia|].
      by intros x ?%elem_of_nil.
Qed.
(** ** Resetting *)

(** When no call is made to fail, none of the later ones is either. *)
Definition calm (d d' : Disk FileName) : Prop := d.(script) = [] -> d'.(script) = [].
#[local] Instance calm_preorder : PreOrder calm.
Proof using Type. split; [by intros d H|]. intros d1 d2 d3 H1 H2 H. auto. Qed.
Lemma outcome_calm d : calm d (state_of (outcome d)).
Proof using Type. intros Hs. eapply calm_touches; [exact (proj1 (outcome_touches d))|exact Hs]. Qed.

Lemma calm_rename g h d : calm d (state_of (sys_rename g h d)).
Proof using Type.
  pose proof (outcome_calm d) as Ho. unfold sys_rename, mbind, M_bind, get, mret, M_ret. destruct (outcome d) as [[o d1] e1].
  unfold state_of in *. cbn in Ho. destruct (names d1 !! g); [destruct (succeeds o)|]; exact Ho.
Qed.

Lemma calm_create g d : calm d (state_of (sys_create g d)).
Proof using Type.
  pose proof (outcome_calm d) as Ho. unfold sys_create, mbind, M_bind, get, mret, M_ret. destruct (outcome d) as [[o d1] e1].
  unfold state_of in *. cbn in Ho. destruct (negb (succeeds o)); [exact Ho|]. destruct (names d1 !! g); exact Ho.
Qed.

Lemma calm_save k (sync : bool) d : calm d (state_of (save tmp_name meta_path k sync d)).
Proof using Type.
  assert (obeys calm (fun _ => True) (save tmp_name meta_path k sync)) as Ho; [|apply (Ho d)].
  assert (forall i o data, obeys calm (fun _ => True) (file_pwrite (F := FileName) i o data)) as Hw.
  { intros i o data. eapply obeys_mono; [|done|apply file_pwrite_touches]. intros x y Ht Hs. by eapply calm_touches. }
  assert (obeys calm (fun _ => True) (sys_fsync (F := FileName))) as Hf.
  { eapply obeys_mono; [|done|apply (fsync_touches None)]. intros x y Ht Hs. by eapply calm_touches. }
  assert (forall g, obeys calm (fun _ => True) (sys_create g)) as Hc.
  { intros g x. split; [apply calm_create|]. by apply Forall_true. }
  assert (forall g h, obeys calm (fun _ => True) (sys_rename (F := FileName) g h)) as Hr.
  { intros g h x. split; [apply calm_rename|]. by apply Forall_true. }
  unfold save. obey.
Qed.

Lemma unlink_calm d s :
  d.(script) = [] -> let '(_, d', _) := unlink s d in d'.(script) = [] /\ d'.(names) !! file_name s = None.
Proof using Type.
  intros Hs. unfold unlink, sys_rename, outcome, mbind, M_bind, get, mret, M_ret. rewrite Hs.
  destruct (names d !! file_name s) as [i|] eqn:Hn; cbn; split; try done.
  rewrite lookup_insert_ne, lookup_delete_eq; [done|]. unfold file_name. by destruct (_is_open s).
Qed.

(** [unlink_all], whatever the storage holds. *)
Lemma unlink_all_gone popped w :
  disk_wf w.(disk) ->
  let '(_, w', ev) := unlink_all popped w in
  disk_wf w'.(disk) /\ w'.(store) = w.(store) /\ (whole w.(disk).(script) -> whole w'.(disk).(script)) /\
  kept_but (removed popped) w.(disk) w'.(disk) /\
  (w.(disk).(script) = [] -> forall s, s ∈ popped -> w'.(disk).(names) !! file_name s = None).
Proof using Type.
  revert w. induction popped as [|x popped IH]; intros w Hwf; [split_and!; try done; by intros _ s ?%elem_of_nil|].
  unfold unlink_all in *. rewrite mapM_cons. unfold mbind at 1, M_bind at 1. unfold mbind, M_bind, on_disk, skip.
  pose proof (unlink_spec w.(disk) x Hwf) as Hu. pose proof (unlink_calm w.(disk) x) as Hcalm.
  destruct (unlink x (disk w)) as [[rc d1] e1]. destruct Hu as (Hwf1 & Hsc & Hk & _). cbn in Hcalm |- *.
  assert (kept_but (removed (x :: popped)) w.(disk) d1) as Hk1.
  { eapply kept_but_mono; [|exact Hk]. intros g [->|Hg]; [right; exists x; split; [left|done]|by left]. }
  specialize (IH (w <| disk := d1 |>) Hwf1). destruct (mapM_ _ popped (w <| disk := d1 |>)) as [[u w2] e2].
  destruct IH as (Hwf2 & Hst & Hsc2 & Hk2 & Hg2). split_and!; try done; [by auto| |].
  - etransitivity; [exact Hk1|]. eapply kept_but_mono; [|exact Hk2]. intros g [?|(s & Hs & ->)]; [by left|right].
    exists s. split; [by right|done].
  - intros Hsc0 s Hs. destruct (Hcalm Hsc0) as [Hsc1 Hx]. specialize (Hg2 Hsc1).
    apply elem_of_cons in Hs as [->|Hs]; [|by apply Hg2]. eapply stays_gone; [exact Hk2|exact Hx|exact Hg2].
Qed.

(** The segments of the old log are unlinked, which matters where the new one
    starts inside it. *)
Lemma reset_directory w l f es1 es2 junk k d' F L :
  sound w l f es1 es2 junk -> l.(log_first) <= k ->
  let popped := w.(store).(_segments) ++ match w.(store).(_open_segment) with Some s => [s] | None => [] end in
  kept_but (fun g => removed popped g \/ g = meta_path) w.(disk) d' ->
  (log_last l < k \/ (forall s, s ∈ popped -> d'.(names) !! file_name s = None)) ->
  d'.(names) !! named (ClosedSegment F L) <> None -> F < k.
Proof using Type.
  intros H Hk popped Hkb Hor Hn. pose proof (sound_log_last _ _ _ _ _ _ H) as Hll. pose proof H as [].
  assert (forall s, live w.(store) s -> s ∈ popped /\ file_name s = closed_name s /\ s.(_first_index) <= log_last l) as Hlive.
  { intros s [Hs|[Hs Hio]]; unfold popped, file_name.
    - rewrite (closed_is_closed _ _ _ _ _ s so_closed Hs). pose proof (closed_first _ _ _ _ _ _ so_closed Hs).
      rewrite Hll, zlen_app. pose proof (zlen_nonneg es2). split; [apply elem_of_app; by left|]. split; [done|lia].
    - rewrite Hs, Hio in *. destruct so_open as (i & Hsh & Hf & _ & _ & Hne). destruct (Hne Hio) as [Hne' _].
      rewrite Hll, zlen_app. split; [apply elem_of_app; right; by left|]. split; [done|].
      destruct es2; [done|]. rewrite zlen_cons. pose proof (zlen_nonneg es2). lia. }
  assert (forall s, s ∈ popped -> file_name s = named (ClosedSegment F L) -> F < k) as Hpop.
  { intros s Hs He. destruct Hor as [Hlt|Hg]; [|by rewrite <- He, Hg in Hn]. pose proof (file_name_first _ _ _ He) as <-.
    enough (live w.(store) s) as Hl by (destruct (Hlive s Hl) as (_ & _ & ?); lia).
    apply elem_of_app in Hs as [Hs|Hs]; [by left|]. destruct (_open_segment (store w)) as [x|] eqn:Ho; [|by apply elem_of_nil in Hs].
    apply list_elem_of_singleton in Hs as ->. right. split; [done|]. unfold file_name in He. by destruct (_is_open x). }
  destruct (decide (Exists (fun s => file_name s = named (ClosedSegment F L)) popped)) as [He|He].
  - apply Exists_exists in He as (s & Hs & He). by apply (Hpop s).
  - destruct (Hkb (named (ClosedSegment F L))) as [Heq _].
    { intros [[?|(s & Hs & Hns)]|?]; [done| |done]. apply He, Exists_exists. by exists s. }
    rewrite Heq in Hn. destruct (so_dir F L Hn) as [?|(x & Hx & Hxn)]; [lia|].
    destruct (Hlive x Hx) as (Hin & Hfn & _). apply (Hpop x Hin). by rewrite Hfn.
Qed.

Lemma sound_reset w l f es1 es2 junk k :
  (forall i o n, ReadError ∉ reads i o n) -> pb_valid k -> sound w l f es1 es2 junk -> 0 < k -> l.(log_first) <= k ->
  log_last l < k \/ w.(disk).(script) = [] ->
  succeeds_to w junk (log_reset k) (reset flags k w).
Proof using Type.
  intros Hr Hv H Hk Hfk Hor. unfold reset, save_meta, set_store, modify, on_disk, mbind, M_bind, get, mret, M_ret.
  rewrite (proj2 (Z.leb_gt _ _)) by lia. cbn [disk store set_field]. set (popped := _ ++ _).
  pose proof (save_spec tmp_name reads meta_path k (raft_sync flags || raft_sync_meta flags) w.(disk) ltac:(done) (so_wf _ _ _ _ _ _ H) Hr Hv) as Hs.
  pose proof (calm_save k (raft_sync flags || raft_sync_meta flags) w.(disk)) as Hcalm.
  match goal with |- context [save tmp_name meta_path k ?b ?d] => change (save tmp_name meta_path k b d) with
    (save tmp_name meta_path k (raft_sync flags || raft_sync_meta flags) (disk w)) end.
  destruct (save tmp_name meta_path k _ (disk w)) as [[rc d1] e1]. unfold state_of in Hcalm. cbn in Hcalm.
  destruct Hs as (Hwf & Hsc & _ & Hok). destruct (ok rc) eqn:Hrc; cbn [negb].
  2:{ split; [exact Hsc|]. done. }
  destruct (Hok eq_refl) as [Hkb _].
  match goal with |- context [unlink_all popped ?x] => pose proof (unlink_all_gone popped x Hwf) as Hu; destruct (unlink_all popped x) as [[u w2] e2] end.
  destruct Hu as (Hwf2 & Hst & Hsc2 & Hkb2 & Hgone). cbn in Hst, Hsc2, Hkb2, Hgone.
  split; [auto|]. intros _. exists k, [], [], []. split; [|split; [done|by intros _ x; cbn; rewrite Hst]].
  cbn. apply sound_blank; rewrite ?Hst; try done. intros F L. apply (reset_directory w l f es1 es2 junk k _ F L H Hfk).
  - etransitivity; [eapply kept_but_mono; [|exact Hkb]|eapply kept_but_mono; [|exact Hkb2]].
    + intros g [->| ->]; [by right|left; by left].
    + intros g Hg. by left.
  - destruct Hor as [?|Hor]; [by left|right]. apply Hgone. auto.
Qed.
End storage.
