(* ===== verification/SegmentRecovery.v ===== *)
(** * SegmentRecovery: restarting from a directory

    What [init] of the segmented storage makes of the files a previous process
    left behind: segments in any order of the directory, temporary files, and an
    entry the process was writing when it died. *)

From S2P Require Import LogStorage ConfigurationManager Segment SegmentProofs SegmentLog SegmentLogProofs SegmentTruncate Types PeerText Disk EntryCodec ProtoBufFile Prelude.

Section storage.
Context `{IT : IpText, RP : RawPack, CS : Checksums, PB : ConfigurationPBMeta, EPO : EndPointOrder}.
Context `{LM : !PbMessage Z}.
Context (flags : Flags) (reads : positive -> nat -> nat -> list ReadOutcome) (fast_crc32 : bool).

(** ** The directory *)

(** The closed segments [ess], the first starting at [f]. *)
Fixpoint closed_files (d : Disk FileName) (t : CheckSumType) (f : Z) (ess : list (list LogEntry)) : Prop :=
  match ess with
  | [] => True
  | es :: ess' =>
      es <> [] /\ contiguous f es /\ Forall storable es /\
      (exists inode, d.(names) !! named (ClosedSegment f (f + zlen es - 1)) = Some inode /\ content d inode = enc_all t es) /\
      closed_files d t (f + zlen es) ess'
  end.

(** Those segments, as listing the directory finds them. *)
Fixpoint listed (t : CheckSumType) (f : Z) (ess : list (list LogEntry)) : list Segment :=
  match ess with
  | [] => []
  | es :: ess' => Segment_closed f (f + zlen es - 1) t :: listed t (f + zlen es) ess'
  end.

(** The segment that was being appended to, with what was written of the entry
    that follows. *)
Definition open_file (d : Disk FileName) (t : CheckSumType) (f : Z) (o : option (list LogEntry * IOBuf)) : Prop :=
  match o with
  | None => True
  | Some (es, junk) =>
      contiguous f es /\ Forall storable es /\ torn t junk /\
      exists inode, d.(names) !! named (Inprogress f) = Some inode /\ content d inode = enc_all t es ++ junk
  end.

Definition open_entries (o : option (list LogEntry * IOBuf)) : list LogEntry := from_option fst [] o.

(** A directory that holds the log from [first] on. *)
Record left_behind (d : Disk FileName) (t : CheckSumType) (first f : Z) (ess : list (list LogEntry))
    (o : option (list LogEntry * IOBuf)) : Prop := {
  lb_wf : disk_wf d;
  lb_meta : loads reads d meta_path = Some first;
  lb_closed : closed_files d t f ess;
  lb_open : open_file d t (f + zlen (concat ess)) o;
  (** the segments reach back to the first index, and not a segment more *)
  lb_range : 1 <= f /\ f <= first <= f + zlen (concat ess ++ open_entries o);
  lb_head : forall es, head ess = Some es -> first < f + zlen es;
  lb_only : ess = [] -> open_entries o <> [] -> first < f + zlen (open_entries o);
  (** no other segment is there *)
  lb_only_closed : forall F L, d.(names) !! named (ClosedSegment F L) <> None -> Segment_closed F L t ∈ listed t f ess;
  lb_only_open : forall F, d.(names) !! named (Inprogress F) <> None -> F = f + zlen (concat ess) /\ o <> None
}.

(** ** Listing *)
Definition by_first : list Segment -> Prop := StronglySorted (fun x y => x.(_first_index) < y.(_first_index)).

Lemma put_in s l x :
  (forall y, y ∈ l -> y.(_first_index) <> s.(_first_index)) -> x ∈ put_segment s l <-> x = s \/ x ∈ l.
Proof using Type.
  induction l as [|y l IH]; intros Hd; cbn; [by rewrite list_elem_of_singleton, elem_of_nil; tauto|].
  pose proof (Hd y ltac:(left)). destruct (Z.ltb_spec s.(_first_index) y.(_first_index)); [by rewrite !elem_of_cons|].
  rewrite (proj2 (Z.eqb_neq _ _)) by lia. rewrite !elem_of_cons, IH; [tauto|]. intros z Hz. apply Hd. by right.
Qed.

Lemma put_sorted s l :
  (forall y, y ∈ l -> y.(_first_index) <> s.(_first_index)) -> by_first l -> by_first (put_segment s l).
Proof using Type.
  intros Hd Hs. induction Hs as [|y l Hs IH Hy]; cbn; [by repeat constructor|].
  pose proof (Hd y ltac:(left)). rewrite Forall_forall in Hy. destruct (Z.ltb_spec s.(_first_index) y.(_first_index)).
  - constructor; [constructor; [done|by apply Forall_forall]|]. apply Forall_forall. intros z [->|Hz]%elem_of_cons; [lia|].
    specialize (Hy z Hz). lia.
  - rewrite (proj2 (Z.eqb_neq _ _)) by lia. constructor; [apply IH; intros z Hz; apply Hd; by right|].
    apply Forall_forall. intros z Hz. apply put_in in Hz as [->|Hz]; [lia|by apply Hy|]. intros w Hw. apply Hd. by right.
Qed.

Lemma sorted_first_inj l x y : by_first l -> x ∈ l -> y ∈ l -> x.(_first_index) = y.(_first_index) -> x = y.
Proof using Type.
  induction 1 as [|z l Hs IH Hz]; [by intros ?%elem_of_nil|]. rewrite Forall_forall in Hz.
  intros [->|Hx]%elem_of_cons [->|Hy]%elem_of_cons He; [done| | |by apply IH]; [specialize (Hz y Hy)|specialize (Hz x Hx)]; lia.
Qed.

Lemma sorted_same l l' : by_first l -> by_first l' -> (forall x, x ∈ l <-> x ∈ l') -> l = l'.
Proof using Type.
  intros Hs. revert l'. induction Hs as [|x l Hs IH Hx]; intros l' Hs' Hin.
  - destruct l' as [|y l']; [done|]. exfalso. apply (not_elem_of_nil y), Hin. left.
  - rewrite Forall_forall in Hx. destruct Hs' as [|y l' Hs' Hy]; [exfalso; apply (not_elem_of_nil x), Hin; left|].
    rewrite Forall_forall in Hy. assert (x = y) as <-.
    { pose proof (proj1 (Hin x) ltac:(left)) as Hxy. pose proof (proj2 (Hin y) ltac:(left)) as Hyx.
      apply elem_of_cons in Hxy as [?|Hxy]; [done|]. apply elem_of_cons in Hyx as [?|Hyx]; [done|].
      specialize (Hx y Hyx). specialize (Hy x Hxy). lia. }
    f_equal. apply IH; [done|]. intros z. specialize (Hin z). rewrite !elem_of_cons in Hin. split; intros Hz.
    + destruct (proj1 Hin ltac:(by right)) as [->|?]; [|done]. specialize (Hx x Hz). lia.
    + destruct (proj2 Hin ltac:(by right)) as [->|?]; [|done]. specialize (Hy x Hz). lia.
Qed.

(** What was found once [found] was read from the directory. *)
Record seen (t : CheckSumType) (found : list FileName) (st : SegmentLogStorage) : Prop := {
  se_sorted : by_first st.(_segments);
  se_closed : forall x, x ∈ st.(_segments) <-> exists F L, named (ClosedSegment F L) ∈ found /\ x = Segment_closed F L t;
  se_open : match st.(_open_segment) with
            | None => forall F, named (Inprogress F) ∉ found
            | Some s => exists F, s = Segment_open F t /\ named (Inprogress F) ∈ found
            end
}.

(** Nothing but the temporary files is gone. *)
Definition swept (d d' : Disk FileName) : Prop :=
  d'.(script) = d.(script) /\ d'.(files) = d.(files) /\ d'.(next_inode) = d.(next_inode) /\
  (forall g i, d'.(names) !! g = Some i -> d.(names) !! g = Some i) /\
  (forall g, g.(is_tmp) = false -> d'.(names) !! g = d.(names) !! g).
#[local] Instance swept_preorder : PreOrder swept.
Proof using Type.
  split; [by intros d; split_and!|]. intros d1 d2 d3 (H1 & H2 & H3 & H4 & H5) (H6 & H7 & H8 & H9 & H10).
  split_and!; [congruence..|auto|]. intros g Hg. by rewrite H10, H5.
Qed.
Lemma swept_wf d d' : swept d d' -> disk_wf d -> disk_wf d'.
Proof using Type.
  intros (_ & _ & Hi & Hn & _) [H1 H2]. split; [intros f i Hf; rewrite Hi; eauto|]. intros f g i Hf Hg. eauto.
Qed.
Lemma swept_content d d' i : swept d d' -> content d' i = content d i.
Proof using Type. intros (_ & Hf & _). unfold content. by rewrite Hf. Qed.

Lemma unlink_swept g d : d.(script) = [] -> g.(is_tmp) = true -> exists d', sys_unlink g d = (tt, d', []) /\ swept d d'.
Proof using Type.
  intros Hs Hg. unfold sys_unlink. unfold mbind, M_bind. rewrite calm_outcome by done. cbn. eexists. split; [done|].
  split_and!; try done; cbn.
  - intros h i. by intros [_ ?]%lookup_delete_Some.
  - intros h Hh. apply lookup_delete_ne. by intros <-; congruence.
Qed.

Lemma seen_skip t found st g :
  seen t found st -> (forall F L, g <> named (ClosedSegment F L)) -> (forall F, g <> named (Inprogress F)) -> seen t (found ++ [g]) st.
Proof using Type.
  intros [] Hc Ho. split; [done| |].
  - intros x. rewrite se_closed0. split; intros (F & L & Hin & ->); exists F, L; (split; [|done]).
    + apply elem_of_app. by left.
    + apply elem_of_app in Hin as [?|He%list_elem_of_singleton]; [done|]. by destruct (Hc F L).
  - destruct (_open_segment st).
    + destruct se_open0 as (F & -> & Hin). exists F. split; [done|]. apply elem_of_app. by left.
    + intros F [?|He%list_elem_of_singleton]%elem_of_app; [by apply (se_open0 F)|]. by destruct (Ho F).
Qed.

Lemma seen_closed t found st F L :
  seen t found st -> named (ClosedSegment F L) ∉ found ->
  (forall L', named (ClosedSegment F L') ∈ found -> L' = L) ->
  seen t (found ++ [named (ClosedSegment F L)]) (st <| _segments := put_segment (Segment_closed F L t) st.(_segments) |>).
Proof using Type.
  intros [] Hnew Huniq.
  assert (forall y, y ∈ st.(_segments) -> y.(_first_index) <> (Segment_closed F L t).(_first_index)) as Hd.
  { intros y (F' & L' & Hin & ->)%se_closed0. cbn. intros ->. by rewrite (Huniq L' Hin) in Hin. }
  split; cbn [set_field _segments _open_segment].
  - by apply put_sorted.
  - intros x. rewrite (put_in _ _ x Hd), se_closed0. setoid_rewrite elem_of_app. setoid_rewrite list_elem_of_singleton. split.
    + intros [->|(F' & L' & Hin & ->)]; [exists F, L; by split; [right|]|exists F', L'; by split; [left|]].
    + intros (F' & L' & [Hin|[= -> ->]] & ->); [right; by exists F', L'|by left].
  - cbn. destruct (_open_segment st).
    + destruct se_open0 as (F' & -> & Hin). exists F'. split; [done|]. apply elem_of_app. by left.
    + intros F' [?|He%list_elem_of_singleton]%elem_of_app; [by apply (se_open0 F')|done].
Qed.

(** Only the map of segments changed. *)
Definition maps_only (st st' : SegmentLogStorage) : Prop :=
  st' = st <| _segments := st'.(_segments) |> <| _open_segment := st'.(_open_segment) |>.
#[local] Instance maps_only_preorder : PreOrder maps_only.
Proof using Type. split; [by intros []|]. intros s1 s2 s3 H1 H2. unfold maps_only in *. rewrite H2, H1. by destruct s1. Qed.

Lemma list_name_spec t found g w :
  w.(disk).(script) = [] -> w.(store).(_log_checksum_type) = t -> seen t found w.(store) -> g ∉ found ->
  (forall F L L', g = named (ClosedSegment F L) -> named (ClosedSegment F L') ∈ found -> L' = L) ->
  (forall F F', g = named (Inprogress F) -> named (Inprogress F') ∉ found) ->
  exists w', list_name false g w = (true, w', []) /\ swept w.(disk) w'.(disk) /\ seen t (found ++ [g]) w'.(store) /\
    maps_only w.(store) w'.(store).
Proof using Type.
  intros Hsc Ht Hs Hnew Huniq Hone. unfold list_name, on_disk, set_store, modify, mbind, M_bind, get, mret, M_ret. cbn [andb orb].
  destruct g as [b [|]]; cbn [is_tmp base].
  { destruct (unlink_swept (mkFileName b true) w.(disk) Hsc eq_refl) as (d' & -> & Hsw). eexists. split; [reflexivity|].
    split; [done|]. split; [by apply seen_skip|by destruct w as [? []]]. }
  destruct b as [F|F L| |n]; cbn [base].
  - pose proof (se_open _ _ _ Hs) as Ho. destruct (_open_segment (store w)) as [s|] eqn:Hos.
    { destruct Ho as (F' & _ & Hin). exfalso. by apply (Hone F F'). }
    eexists. split; [reflexivity|]. split; [done|]. split; [|by destruct w as [? []]]. destruct Hs. split; cbn [store set_field _segments _open_segment]; try done.
    + cbn. intros x. rewrite se_closed0. split; intros (F' & L' & Hin & ->); exists F', L'; (split; [|done]).
      * apply elem_of_app. by left.
      * by apply elem_of_app in Hin as [?|He%list_elem_of_singleton].
    + cbn. exists F. rewrite Ht. split; [done|]. apply elem_of_app. right. by left.
  - eexists. split; [reflexivity|]. split; [done|]. split; [|by destruct w as [? []]]. cbn. rewrite Ht. apply seen_closed; [done|done|]. intros L'. by apply Huniq.
  - eexists. split; [reflexivity|]. split; [done|]. split; [by apply seen_skip|by destruct w as [? []]].
  - eexists. split; [reflexivity|]. split; [done|]. split; [by apply seen_skip|by destruct w as [? []]].
Qed.

Lemma list_names_spec t fs found w :
  w.(disk).(script) = [] -> w.(store).(_log_checksum_type) = t -> seen t found w.(store) -> NoDup (found ++ fs) ->
  (forall F L L', named (ClosedSegment F L) ∈ found ++ fs -> named (ClosedSegment F L') ∈ found ++ fs -> L' = L) ->
  (forall F F', named (Inprogress F) ∈ found ++ fs -> named (Inprogress F') ∈ found ++ fs -> F' = F) ->
  exists w', list_names false fs w = (true, w', []) /\ swept w.(disk) w'.(disk) /\ seen t (found ++ fs) w'.(store) /\
    maps_only w.(store) w'.(store).
Proof using Type.
  revert found w. induction fs as [|g fs IH]; intros found w Hsc Ht Hs Hnd Hc Ho.
  { exists w. rewrite app_nil_r. by split_and!. }
  assert (found ++ g :: fs = (found ++ [g]) ++ fs) as Heq by (by rewrite <- app_assoc).
  assert (g ∉ found) as Hnew.
  { intros Hin. apply NoDup_app in Hnd as (_ & Hnd & _). apply (Hnd g Hin). by left. }
  assert (g ∈ found ++ g :: fs) as Hg by (apply elem_of_app; right; by left).
  assert (forall h, h ∈ found -> h ∈ found ++ g :: fs) as Hf by (intros h Hh; apply elem_of_app; by left).
  destruct (list_name_spec t found g w Hsc Ht Hs Hnew) as (w1 & H1 & Hsw & Hs1 & Hm1).
  { intros F L L' -> Hin. apply (Hc F); [done|by apply Hf]. }
  { intros F F' -> Hin. pose proof (Ho F F' Hg (Hf _ Hin)) as ->. done. }
  cbn [list_names]. unfold mbind, M_bind. rewrite H1. cbn [negb].
  destruct (IH (found ++ [g]) w1) as (w2 & -> & Hsw2 & Hs2 & Hm2); rewrite <- ?Heq; try done.
  { by rewrite (proj1 Hsw). }
  { by rewrite Hm1. }
  rewrite <- Heq in Hs2. exists w2. split; [done|]. split; [by etransitivity|]. split; [done|]. by etransitivity.
Qed.

Lemma listed_in d t f ess x :
  closed_files d t f ess -> x ∈ listed t f ess ->
  f <= x.(_first_index) /\ exists F L, x = Segment_closed F L t /\ d.(names) !! named (ClosedSegment F L) <> None.
Proof using Type.
  revert f. induction ess as [|es ess IH]; intros f; [by intros _ ?%elem_of_nil|].
  intros (_ & _ & _ & (i & Hi & _) & Hc) [->|Hx]%elem_of_cons.
  - split; [done|]. exists f, (f + zlen es - 1). split; [done|]. by rewrite Hi.
  - destruct (IH _ Hc Hx) as [Hf He]. split; [|done]. pose proof (zlen_nonneg es). lia.
Qed.

Lemma listed_sorted d t f ess : closed_files d t f ess -> by_first (listed t f ess).
Proof using Type.
  revert f. induction ess as [|es ess IH]; intros f; [constructor|]. intros (Hne & _ & _ & _ & Hc). cbn. constructor; [by apply IH|].
  apply Forall_forall. intros x Hx. destruct (listed_in _ _ _ _ _ Hc Hx) as [Hf _]. cbn.
  assert (0 < zlen es) by (destruct es; [done|]; rewrite zlen_cons; pose proof (zlen_nonneg es); lia). lia.
Qed.

(** The map of segments that a directory gives. *)
Lemma seen_listed d t first f ess o fs st :
  left_behind d t first f ess o -> seen t fs st -> (forall g, g ∈ fs <-> d.(names) !! g <> None) ->
  st.(_segments) = listed t f ess /\
  st.(_open_segment) = (if decide (o = None) then None else Some (Segment_open (f + zlen (concat ess)) t)).
Proof using Type.
  intros H Hs Hfs. pose proof H as []. pose proof Hs as []. split.
  - apply sorted_same; [done|by eapply listed_sorted|]. intros x. rewrite se_closed0. split.
    + intros (F & L & Hin & ->). by apply lb_only_closed0, Hfs.
    + intros Hx. destruct (listed_in _ _ _ _ _ lb_closed0 Hx) as (_ & F & L & -> & Hn). exists F, L. split; [by apply Hfs|done].
  - destruct (_open_segment st) as [s|].
    + destruct se_open0 as (F & -> & Hin). apply Hfs in Hin. destruct (lb_only_open0 F Hin) as [-> Ho]. by destruct (decide (o = None)).
    + destruct (decide (o = None)) as [|Ho]; [done|]. destruct o as [[es junk]|]; [|done].
      destruct lb_open0 as (_ & _ & _ & i & Hi & _). destruct (se_open0 (f + zlen (concat ess))). apply Hfs. by rewrite Hi.
Qed.

(** Consecutive segments pass the test. *)
Lemma check_listed d t f ess w :
  closed_files d t f ess -> 1 < f ->
  check_segments (listed t f ess) (f - 1) w = ((true, listed t f ess, f + zlen (concat ess) - 1), w, []).
Proof using Type.
  revert f. induction ess as [|es ess IH]; intros f; cbn [listed check_segments concat].
  { intros _ _. rewrite zlen_nil, Z.add_0_r. reflexivity. }
  intros (Hne & _ & _ & _ & Hc) Hf. unfold mbind, M_bind, get. cbn [Segment_closed _first_index _last_index].
  assert (0 < zlen es) by (destruct es; [done|]; rewrite zlen_cons; pose proof (zlen_nonneg es); lia).
  rewrite (proj2 (Z.ltb_ge _ _)) by lia. rewrite (proj2 (Z.eqb_neq (f - 1) (-1))) by lia.
  rewrite (proj2 (Z.eqb_eq f (f - 1 + 1))) by lia. cbn [negb andb].
  rewrite (IH _ Hc ltac:(lia)). unfold mret, M_ret. rewrite zlen_app. do 3 f_equal. f_equal. lia.
Qed.

Lemma check_all d t first f ess o w :
  left_behind d t first f ess o -> w.(store).(_first_log_index) = first ->
  exists last, check_segments (listed t f ess) (-1) w = ((true, listed t f ess, last), w, []) /\ last <= f + zlen (concat ess) - 1.
Proof using Type.
  intros [] Hf. destruct ess as [|es ess].
  { exists (-1). split; [done|]. cbn. rewrite zlen_nil. lia. }
  destruct lb_closed0 as (Hne & _ & _ & _ & Hc). specialize (lb_head0 es eq_refl).
  assert (0 < zlen es) by (destruct es; [done|]; rewrite zlen_cons; pose proof (zlen_nonneg es); lia).
  exists (f + zlen (concat (es :: ess)) - 1). split; [|done]. cbn [listed check_segments concat].
  unfold mbind, M_bind, get. cbn [Segment_closed _first_index _last_index]. rewrite Hf.
  rewrite (proj2 (Z.ltb_ge (f + zlen es - 1) f)), (proj2 (Z.ltb_ge first f)), (proj2 (Z.ltb_ge (f + zlen es - 1) first)) by lia. cbn [andb negb].
  change (-1 =? -1) with true. cbn [negb andb].
  rewrite (check_listed _ _ _ _ _ Hc ltac:(lia)). unfold mret, M_ret. rewrite zlen_app. do 3 f_equal. f_equal. lia.
Qed.

Lemma list_segments_spec t first f ess o w :
  w.(disk).(script) = [] -> w.(store).(_log_checksum_type) = t -> w.(store).(_first_log_index) = first ->
  w.(store).(_segments) = [] -> w.(store).(_open_segment) = None -> left_behind w.(disk) t first f ess o ->
  exists w' ev, list_segments false w = (OK, w', ev) /\ ev = [] /\ swept w.(disk) w'.(disk) /\
    w'.(store) = w.(store) <| _segments := listed t f ess |>
                   <| _open_segment := if decide (o = None) then None else Some (Segment_open (f + zlen (concat ess)) t) |>.
Proof using Type.
  intros Hsc Ht Hf Hs Ho H. unfold list_segments. unfold mbind, M_bind, get.
  set (fs := elements (dom (names (disk w)))).
  assert (forall g, g ∈ fs <-> w.(disk).(names) !! g <> None) as Hfs.
  { intros g. unfold fs. rewrite elem_of_elements, elem_of_dom. split; [by intros [i ->]|intros Hn; by apply not_eq_None_Some]. }
  destruct (list_names_spec t fs [] w Hsc Ht) as (w1 & -> & Hsw & Hse & Hm).
  { rewrite <- (app_nil_r []). split; rewrite ?Hs, ?Ho; [constructor| |by intros F ?%elem_of_nil].
    intros x. split; [by intros ?%elem_of_nil|]. intros (F & L & Hin & _). by apply elem_of_nil in Hin. }
  { apply NoDup_elements. }
  { intros F L L' H1 H2. cbn [app] in *. apply Hfs, (lb_only_closed _ _ _ _ _ _ H) in H1, H2.
    pose proof (listed_sorted _ _ _ _ (lb_closed _ _ _ _ _ _ H)) as Hsort.
    assert (Segment_closed F L t = Segment_closed F L' t) as [= ->] by (by apply (sorted_first_inj _ _ _ Hsort)). done. }
  { intros F F' H1 H2. cbn [app] in *. apply Hfs, (lb_only_open _ _ _ _ _ _ H) in H1 as [-> _], H2 as [-> _]. done. }
  cbn [app negb] in *. destruct (seen_listed _ _ _ _ _ _ _ _ H Hse Hfs) as [Hsegs Hopen]. rewrite Hsegs.
  destruct (check_all _ _ _ _ _ _ w1 H ltac:(by rewrite Hm)) as (last & -> & Hlast). unfold set_store, modify, mret, M_ret. cbn.
  assert (forall x, (match _open_segment (store w1) with Some s => check_that (last <=? _last_index s) | None => skip end) x = (tt, x, [])) as Hchk.
  { intros x. rewrite Hopen. destruct (decide (o = None)); [done|]. cbn. unfold check_that. by rewrite (proj2 (Z.leb_le _ _)) by lia. }
  rewrite Hchk. eexists _, _. split; [reflexivity|]. split; [done|]. split; [done|]. cbn. rewrite Hm, Hopen. by destruct (store w).
Qed.

(** ** Loading *)
Context (Hreads : forall i o n, ReadError ∉ reads i o n).

(** The configurations that entries add to the manager. *)
Definition replayed (es : list LogEntry) (cm : ConfigurationManager) : ConfigurationManager := (replay es (cm, true)).1.

Lemma replayed_flag es cm b : (replay es (cm, b)).1 = replayed es cm.
Proof using Type.
  unfold replayed, replay. generalize true. revert cm b. induction es as [|e es IH]; intros cm b c; [done|]. cbn [fold_left].
  unfold replay_entry at 2 4. destruct (type e); try apply IH. cbn. destruct (ConfigurationManager.add cm _) as [[r cm'] a]. apply IH.
Qed.
Lemma replayed_app es es' cm : replayed (es ++ es') cm = replayed es' (replayed es cm).
Proof using Type.
  unfold replayed at 1. unfold replay. rewrite fold_left_app. rewrite (surjective_pairing (fold_left replay_entry es (cm, true))).
  apply replayed_flag.
Qed.

(** A name that is not that of a closed segment leads where it did. *)
Definition others_same (d d' : Disk FileName) : Prop :=
  d'.(names) = d.(names) /\ d'.(script) = d.(script) /\ (disk_wf d -> disk_wf d') /\
  forall g i, (forall F L, g <> named (ClosedSegment F L)) -> d.(names) !! g = Some i -> content d' i = content d i.
#[local] Instance others_same_preorder : PreOrder others_same.
Proof using Type.
  split; [by intros d; split_and!|]. intros d1 d2 d3 (H1 & H2 & H3 & H4) (H5 & H6 & H7 & H8). split_and!; [congruence..|auto|].
  intros g i Hg Hi. rewrite (H8 g i Hg ltac:(by rewrite H1)). by apply (H4 g).
Qed.

Lemma closed_files_frame d d' t f ess inode F0 L0 :
  disk_wf d -> d.(names) !! named (ClosedSegment F0 L0) = Some inode -> F0 < f -> touches (Some inode) d d' ->
  closed_files d t f ess -> closed_files d' t f ess.
Proof using Type.
  intros [Hlt Hinj] Hi HF Ht. pose proof Ht as (Hn & _ & Hc & _). revert f HF.
  induction ess as [|es ess IH]; intros f HF; [done|]. intros (Hne & Hct & Hst & (i & Hi' & Hco) & Hcl). cbn. split_and!; try done.
  - exists i. rewrite Hn. split; [done|]. rewrite Hc; [done|]. intros [= ->]. pose proof (Hinj _ _ _ Hi Hi') as [= -> _]. lia.
  - apply IH; [|done]. pose proof (zlen_nonneg es). lia.
Qed.

Lemma load_closed_spec t f0 before es0 ess cm w :
  w.(disk).(script) = [] -> disk_wf w.(disk) -> closed_hold w.(disk) t f0 before es0 ->
  closed_files w.(disk) t (f0 + zlen es0) ess -> w.(store).(_segments) = before ++ listed t (f0 + zlen es0) ess ->
  exists w' ev, load_closed flags reads before (listed t (f0 + zlen es0) ess) cm w = ((OK, replayed (concat ess) cm), w', ev) /\
    others_same w.(disk) w'.(disk) /\ closed_hold w'.(disk) t f0 w'.(store).(_segments) (es0 ++ concat ess) /\
    map closed_name w'.(store).(_segments) = map closed_name (before ++ listed t (f0 + zlen es0) ess) /\
    w'.(store) = w.(store) <| _segments := w'.(store).(_segments) |>
      <| _last_log_index := if decide (ess = []) then w.(store).(_last_log_index) else f0 + zlen (es0 ++ concat ess) - 1 |>.
Proof using Hreads.
  revert before es0 cm w. induction ess as [|es ess IH]; intros before es0 cm w Hsc Hwf Hbe Hcl Hsegs; cbn [listed load_closed concat] in *.
  { exists w, []. rewrite !app_nil_r in *. split; [done|]. split; [done|]. rewrite Hsegs. split; [done|]. split; [done|]. destruct w as [? []]. cbn in *. by subst. }
  destruct Hcl as (Hne & Hct & Hst & (i & Hi & Hco) & Hcl). set (f := f0 + zlen es0) in *. set (s := Segment_closed f (f + zlen es - 1) t) in *.
  assert (0 < zlen es) by (destruct es; [done|]; rewrite zlen_cons; pose proof (zlen_nonneg es); lia).
  rewrite <- (app_nil_r (enc_all t es)) in Hco.
  pose proof (load_spec flags reads Hreads w.(disk) s es [] i cm Hsc Hi Hco ltac:(by left) Hst Hct eq_refl ltac:(done)) as Hl.
  unfold mbind, M_bind, on_disk, set_store, modify, mret, M_ret.
  destruct (Segment.load flags reads s cm (disk w)) as [[[[rc s'] cm'] d1] e1].
  destruct Hl as (-> & -> & _ & Ht & Hs' & _ & Hf' & Hio' & Ht'). change (ok OK) with true. cbn [negb].
  pose proof Ht as (Hn & Hnx & Hc & _). pose proof (sh_last _ _ _ _ _ Hs') as Hl'. rewrite Hf' in Hl'.
  assert (closed_name s' = named (ClosedSegment f (f + zlen es - 1))) as Hcn by (unfold closed_name; by rewrite Hl', Hf').
  assert (f0 + zlen (es0 ++ es) = f + zlen es) as Heq by (rewrite zlen_app; unfold f; lia).
  destruct (IH (before ++ [s']) (es0 ++ es) (replayed es cm)
    (mkStore d1 (w.(store) <| _segments := before ++ s' :: listed t (f + zlen es) ess |> <| _last_log_index := s'.(_last_index) |>)))
    as (w2 & e2 & Hl & Hoth & Hh & Hls & Hst2).
  { by eapply calm_touches. }
  { by eapply touches_wf. }
  { apply closed_hold_app; cbn [disk].
    - eapply (closed_frame_inode w.(disk)); [exact Hwf|exact Hi| | | |exact Hbe].
      + intros x Hx [= He _]. pose proof (closed_first _ _ _ _ _ _ Hbe Hx). lia.
      + intros x _. by rewrite Hn.
      + intros j Hj. apply Hc. congruence.
    - cbn. exists es, [], i. rewrite app_nil_r, Hn, Hcn, Hf', Ht'. by split_and!. }
  { rewrite Heq. cbn [disk]. eapply closed_files_frame; [exact Hwf|exact Hi|lia|exact Ht|exact Hcl]. }
  { rewrite Heq, <- app_assoc. reflexivity. }
  rewrite Heq in Hl, Hls. change ((replay es (cm, true)).1) with (replayed es cm).
  match type of Hl with load_closed _ _ _ _ _ ?x = _ => match goal with |- context [load_closed _ _ (before ++ [s']) _ _ ?y] => change y with x end end.
  rewrite Hl. eexists _, _. split; [by rewrite replayed_app|].
  cbn [disk store] in *. split; [|split; [|split]].
  - etransitivity; [|exact Hoth]. split_and!; [done| |by eapply touches_wf|].
    + rewrite Hsc. by eapply calm_touches.
    + intros g j Hg Hj. apply Hc. intros [= ->]. eapply Hg. destruct Hwf as [_ Hinj]. by eapply Hinj.
  - by rewrite <- app_assoc in Hh.
  - rewrite Hls, <- app_assoc, !map_app. cbn. by rewrite Hcn.
  - rewrite Hst2. destruct w as [d []]. cbn in *. destruct (decide (es :: ess = [])); [done|]. rewrite <- app_assoc.
    destruct (decide (ess = [])) as [->|]; [|done]. cbn. rewrite app_nil_r, zlen_app, Hl'.
    replace (f0 + (zlen es0 + zlen es) - 1) with (f + zlen es - 1) by (unfold f; lia). done.
Qed.
(** The log a directory holds. *)
Definition log_left (first f : Z) (ess : list (list LogEntry)) (o : option (list LogEntry * IOBuf)) : Log :=
  mkLog first (drop (Z.to_nat (first - f)) (concat ess ++ open_entries o)).

(** Loading the open segment: either it holds entries of the log, or the log is
    empty and the segment goes. *)
Lemma load_open_spec t first f es junk cm w s :
  w.(disk).(script) = [] -> disk_wf w.(disk) -> s = Segment_open f t -> w.(store).(_open_segment) = Some s ->
  w.(store).(_first_log_index) = first -> open_file w.(disk) t f (Some (es, junk)) ->
  exists w' ev, load_open flags reads cm w = ((OK, replayed es cm), w', ev) /\ disk_wf w'.(disk) /\
    (forall F L, w'.(disk).(names) !! named (ClosedSegment F L) = w.(disk).(names) !! named (ClosedSegment F L)) /\
    (forall F L i, w.(disk).(names) !! named (ClosedSegment F L) = Some i -> content w'.(disk) i = content w.(disk) i) /\
    if f + zlen es - 1 <? first then w'.(store) = w.(store) <| _open_segment := None |>
    else exists s' i, seg_holds w'.(disk) s' es [] i /\ s'.(_pos) = s'.(_bytes) /\ s'.(_first_index) = f /\ s'.(_is_open) = true /\
           s'.(Segment._checksum_type) = t /\
           w'.(store) = w.(store) <| _open_segment := Some s' |> <| _last_log_index := f + zlen es - 1 |>.
Proof using Hreads.
  intros Hsc Hwf Hs Ho Hf (Hct & Hst & Hj & i & Hi & Hco). unfold load_open. unfold mbind, M_bind, get, mret, M_ret, on_disk, set_store, modify.
  rewrite Ho. subst s.
  pose proof (load_spec flags reads Hreads w.(disk) (Segment_open f t) es junk i cm Hsc Hi Hco Hj Hst Hct eq_refl ltac:(done)) as Hl.
  destruct (Segment.load flags reads (Segment_open f t) cm (disk w)) as [[[[rc s'] cm'] d1] e1].
  destruct Hl as (-> & -> & _ & Ht & Hs' & [_ Hp] & Hf' & Hio' & Ht'). change (ok OK) with true. cbn [negb].
  pose proof (sh_last _ _ _ _ _ Hs') as Hl'. rewrite Hf' in Hl'. cbn [_first_index Segment_open] in Hl'. rewrite Hl', Hf.
  pose proof (touches_wf _ _ _ Ht Hwf) as Hwf1. pose proof Ht as (Hn & _ & Hc & _).
  assert (forall F L j, w.(disk).(names) !! named (ClosedSegment F L) = Some j -> content d1 j = content w.(disk) j) as Hc1.
  { intros F L j Hjn. apply Hc. intros [= ->]. destruct Hwf as [_ Hinj]. pose proof (Hinj _ _ _ Hi Hjn). done. }
  destruct (Z.ltb_spec (f + zlen es - 1) first) as [Hlt|Hge].
  - pose proof (unlink_spec d1 s' Hwf1) as Hu. cbn [disk set_field].
    match goal with |- context [unlink s' ?x] => change x with d1 end.
    destruct (unlink s' d1) as [[r d2] e2]. destruct Hu as (Hwf2 & _ & Hk & _). eexists _, _. split; [reflexivity|]. cbn.
    assert (forall F L, ~ (named (ClosedSegment F L) = file_name s' \/ is_tmp (named (ClosedSegment F L)) = true)) as Hno.
    { intros F L [He|?]; [|done]. unfold file_name in He. by rewrite Hio' in He. }
    split; [done|]. split; [|split; [|by destruct w as [? []]]].
    + intros F L. destruct (Hk _ (Hno F L)) as [-> _]. by rewrite Hn.
    + intros F L j Hjn. destruct (Hk _ (Hno F L)) as [_ Hk']. rewrite Hk' by (by rewrite Hn). by eapply Hc1.
  - eexists _, _. split; [reflexivity|]. cbn. split; [done|]. split; [by rewrite Hn|]. split; [done|].
    exists s', i. by split_and!.
Qed.
Lemma closed_hold_frame d d' t f segs es :
  (forall F L, d'.(names) !! named (ClosedSegment F L) = d.(names) !! named (ClosedSegment F L)) ->
  (forall F L i, d.(names) !! named (ClosedSegment F L) = Some i -> content d' i = content d i) ->
  closed_hold d t f segs es -> closed_hold d' t f segs es.
Proof using Type. intros Hn Hc. apply closed_frame. intros s i _ Hi. unfold closed_name in *. rewrite Hn. split; [done|by eapply Hc]. Qed.

(** What loading leaves holds the log of the directory. *)
Lemma sound_loaded (w : Store) t first f ess o d :
  left_behind d t first f ess o -> disk_wf w.(disk) -> w.(store).(_log_checksum_type) = t ->
  closed_hold w.(disk) t f w.(store).(_segments) (concat ess) ->
  map closed_name w.(store).(_segments) = map closed_name (listed t f ess) ->
  (forall F L, w.(disk).(names) !! named (ClosedSegment F L) = d.(names) !! named (ClosedSegment F L)) ->
  open_holds w.(disk) t (f + zlen (concat ess)) w.(store).(_open_segment) (open_entries o) [] ->
  w.(store).(_first_log_index) = first -> w.(store).(_last_log_index) = f + zlen (concat ess ++ open_entries o) - 1 ->
  sound w (log_left first f ess o) f (concat ess) (open_entries o) [].
Proof using Type.
  intros [] Hwf Ht Hc Hm Hn Ho Hf Hl. split; rewrite ?Ht; try done; cbn.
  - lia.
  - intros s Hs. destruct (_segments (store w)) as [|x segs]; [done|]. injection Hs as ->.
    destruct ess as [|es ess]; [done|]. cbn in Hm. injection Hm as _ Hlast _. specialize (lb_head0 es eq_refl). lia.
  - intros Hs Hne. apply lb_only0; [|done]. rewrite Hs in Hm. by destruct ess.
  - intros F L Hx. rewrite Hn in Hx. apply lb_only_closed0 in Hx. right.
    assert (named (ClosedSegment F L) ∈ map closed_name (listed t f ess)) as Hin by (apply list_elem_of_fmap; by exists (Segment_closed F L t)).
    rewrite <- Hm in Hin. apply list_elem_of_fmap in Hin as (x & He & Hx'). exists x. split; [by left|done].
Qed.

(** The end of [load_segments]: an empty log ends before its first index. *)
Definition settle (l : SegmentLogStorage) : SegmentLogStorage :=
  if l.(SegmentLog._last_log_index) =? 0 then l <| SegmentLog._last_log_index := l.(_first_log_index) - 1 |> else l.

Lemma settled_holds (w : Store) t first f ess o d :
  left_behind d t first f ess o -> disk_wf w.(disk) -> w.(store).(_log_checksum_type) = t ->
  closed_hold w.(disk) t f w.(store).(_segments) (concat ess) ->
  map closed_name w.(store).(_segments) = map closed_name (listed t f ess) ->
  (forall F L, w.(disk).(names) !! named (ClosedSegment F L) = d.(names) !! named (ClosedSegment F L)) ->
  open_holds w.(disk) t (f + zlen (concat ess)) w.(store).(_open_segment) (open_entries o) [] -> ready w ->
  w.(store).(_first_log_index) = first ->
  w.(store).(_last_log_index) = (if decide (concat ess ++ open_entries o = []) then 0 else f + zlen (concat ess ++ open_entries o) - 1) ->
  holds_ready (w <| store := settle w.(store) |>) (log_left first f ess o).
Proof using Type.
  intros H Hwf Ht Hc Hm Hn Ho Hr Hf Hl. pose proof H as [].
  assert (settle w.(store) = w.(store) <| _last_log_index := f + zlen (concat ess ++ open_entries o) - 1 |>) as ->.
  { unfold settle. destruct (decide (concat ess ++ open_entries o = [])) as [He|He].
    - assert (zlen (concat ess ++ open_entries o) = 0) as Hz by (by rewrite He).
      rewrite Hl, Hf, Hz in *. change (0 =? 0) with true. cbv iota. by replace (f + 0 - 1) with (first - 1) by lia.
    - destruct (Z.eqb_spec (_last_log_index (store w)) 0) as [H0|].
      + exfalso. assert (first <= f + zlen (concat ess ++ open_entries o) - 1); [|lia]. rewrite zlen_app in *.
        destruct ess as [|es ess].
        * cbn in *. rewrite zlen_nil. specialize (lb_only0 eq_refl He). lia.
        * specialize (lb_head0 es eq_refl). cbn. rewrite zlen_app. pose proof (zlen_nonneg (concat ess)). pose proof (zlen_nonneg (open_entries o)). lia.
      + destruct (store w). cbn in *. by rewrite Hl. }
  split; [exact Hr|]. exists f, (concat ess), (open_entries o). destruct w as [d' st]. cbn in *.
  by eapply sound_loaded.
Qed.

(** The log of a directory that an open segment with nothing to keep is
    removed from is empty. *)
Lemma nothing_left d t first f ess es junk :
  left_behind d t first f ess (Some (es, junk)) -> f + zlen (concat ess) + zlen es - 1 < first -> ess = [] /\ es = [] /\ first = f.
Proof using Type.
  intros [] Hlt. cbn in *. rewrite zlen_app in *. assert (ess = []) as ->.
  { destruct ess as [|e ess]; [done|]. specialize (lb_head0 e eq_refl). cbn in Hlt. rewrite zlen_app in Hlt.
    pose proof (zlen_nonneg (concat ess)). pose proof (zlen_nonneg es). lia. }
  cbn in *. rewrite zlen_nil in *. split; [done|]. destruct es as [|e es]; [rewrite zlen_nil in *; split; [done|lia]|].
  specialize (lb_only0 eq_refl ltac:(done)). lia.
Qed.

Lemma load_segments_spec t first f ess o cm w d :
  left_behind d t first f ess o -> swept d w.(disk) -> d.(script) = [] ->
  w.(store).(_log_checksum_type) = t -> w.(store).(_first_log_index) = first -> w.(store).(_last_log_index) = 0 ->
  w.(store).(_segments) = listed t f ess ->
  w.(store).(_open_segment) = (if decide (o = None) then None else Some (Segment_open (f + zlen (concat ess)) t)) ->
  exists w' ev, load_segments flags reads cm w = ((OK, replayed (concat ess ++ open_entries o) cm), w', ev) /\
    holds_ready w' (log_left first f ess o).
Proof using Hreads.
  intros H Hsw Hsc Ht Hf Hl Hsegs Ho. pose proof (swept_wf _ _ Hsw (lb_wf _ _ _ _ _ _ H)) as Hwf. pose proof Hsw as (Hsc' & _ & _ & _ & Hn).
  assert (closed_files w.(disk) t f ess) as Hcl.
  { clear -H Hsw Hn. pose proof (lb_closed _ _ _ _ _ _ H) as Hc. clear H. revert f Hc. induction ess as [|es ess IH]; intros f; [done|].
    intros (? & ? & ? & (i & Hi & Hco) & Hc). cbn. split_and!; try done; [|by apply IH]. exists i. rewrite Hn by done.
    by rewrite (swept_content _ _ _ Hsw). }
  unfold load_segments. unfold mbind, M_bind, get. rewrite Hsegs.
  pose proof (load_closed_spec t f [] [] ess cm w) as Hlc. rewrite zlen_nil, Z.add_0_r in Hlc. cbn [app] in Hlc.
  destruct Hlc as (w1 & e1 & -> & Hoth & Hh & Hm & Hst1); [congruence|done|done|done|done|]. change (ok OK) with true. cbn [negb].
  pose proof Hoth as (Hn1 & Hsc1 & Hwf1 & Hc1). pose proof H as [].
  assert (forall F L, w1.(disk).(names) !! named (ClosedSegment F L) = d.(names) !! named (ClosedSegment F L)) as Hnd by (intros; by rewrite Hn1, Hn).
  assert (w1.(store).(_log_checksum_type) = t) as Ht1 by (by rewrite Hst1).
  assert (w1.(store).(_first_log_index) = first) as Hf1 by (by rewrite Hst1).
  assert (w1.(store).(_open_segment) = w.(store).(_open_segment)) as Ho1 by (by rewrite Hst1). rewrite Ho in Ho1.
  assert (concat ess = [] <-> ess = []) as Hnil.
  { split; [|by intros ->]. destruct ess as [|e ess]; [done|]. destruct Hcl as (Hne & _). cbn. intros [? _]%app_eq_nil. done. }
  destruct o as [[es junk]|].
  - rewrite decide_False in Ho1 by done. cbn [open_entries from_option fst].
    assert (open_file w1.(disk) t (f + zlen (concat ess)) (Some (es, junk))) as Hof.
    { destruct lb_open0 as (? & ? & ? & i & Hi & Hco). split_and!; try done. exists i. rewrite Hn1, Hn by done. split; [done|].
      rewrite (Hc1 (named (Inprogress (f + zlen (concat ess))))); [by rewrite (swept_content _ _ _ Hsw)|done|by rewrite Hn]. }
    destruct (load_open_spec t first (f + zlen (concat ess)) es junk (replayed (concat ess) cm) w1 _ ltac:(congruence) ltac:(by auto) eq_refl Ho1 Hf1 Hof)
      as (w2 & e2 & -> & Hwf2 & Hn2 & Hc2 & Hst2). change (ok OK) with true. cbn [negb]. unfold set_store, modify, mret, M_ret.
    rewrite <- replayed_app. eexists (w2 <| store := settle w2.(store) |>), _. split; [reflexivity|].
    assert (forall F L, w2.(disk).(names) !! named (ClosedSegment F L) = d.(names) !! named (ClosedSegment F L)) as Hnd2 by (intros; by rewrite Hn2).
    pose proof (closed_hold_frame _ _ _ _ _ _ Hn2 Hc2 Hh) as Hh2.
    destruct (Z.ltb_spec (f + zlen (concat ess) + zlen es - 1) first) as [Hlt|Hge].
    + destruct (nothing_left _ _ _ _ _ _ _ H Hlt) as (-> & -> & ->).
      apply (settled_holds w2 t f f [] (Some ([], junk)) d); try done; rewrite ?Hst2; try done.
      * intros x. by rewrite Hst2.
      * cbn. by rewrite Hst1.
    + destruct Hst2 as (s' & i & Hs' & Hp & Hf' & Hio' & Ht' & Hst2).
      apply (settled_holds w2 t first f ess (Some (es, junk)) d); try done; rewrite ?Hst2; try done; cbn.
      * exists i. split_and!; try done; [by left|by rewrite Hio'].
      * intros x. rewrite Hst2. by intros [= <-].
      * rewrite zlen_app. clear Hst1. match goal with |- context [decide ?P] => destruct (decide P) as [He|He] end; [|lia]. apply app_eq_nil in He as [He ->]. rewrite He, !zlen_nil in *. lia.
  - rewrite decide_True in Ho1 by done. unfold load_open, mbind, M_bind, get, mret, M_ret. rewrite Ho1. change (ok OK) with true. cbn [negb]. unfold set_store, modify.
    cbn [open_entries from_option]. rewrite (app_nil_r (concat ess)). eexists (w1 <| store := settle w1.(store) |>), _. split; [reflexivity|].
    apply (settled_holds w1 t first f ess None d); try done; [by auto|by rewrite Ho1|by intros x; rewrite Ho1|].
    rewrite Hst1. cbn. rewrite app_nil_r, Hl. destruct (decide (ess = [])) as [->|He]; [done|].
    match goal with |- context [decide ?P] => destruct (decide P) as [He'|_] end; [|done]. by apply Hnil in He'.
Qed.
(** ** [init] *)
Lemma load_meta_spec w first :
  w.(disk).(script) = [] -> loads reads w.(disk) meta_path = Some first ->
  load_meta reads w = (OK, w <| store := w.(store) <| _first_log_index := first |> |>, []).
Proof using Type.
  intros Hsc Hl. unfold load_meta, on_disk, ProtoBufFile.load, sys_open. unfold mbind, M_bind, get. rewrite calm_outcome by done.
  cbn [succeeds]. unfold loads, mbind, option_bind in Hl. unfold mret, M_ret. destruct (names (disk w) !! meta_path) as [i|]; [|done].
  cbn. rewrite Hl. unfold set_store, modify. cbn. by destruct w.
Qed.

(** The checksum of the machine. *)
Definition checksum_here : CheckSumType := if fast_crc32 then CHECKSUM_CRC32 else CHECKSUM_MURMURHASH32.

Lemma init_recovers d sync first f ess o cm :
  d.(script) = [] -> left_behind d checksum_here first f ess o ->
  exists w' ev, init flags reads fast_crc32 cm (mkStore d (SegmentLogStorage_new sync)) =
      ((OK, replayed (concat ess ++ open_entries o) cm), w', ev) /\
    holds_ready w' (log_left first f ess o).
Proof using Hreads.
  intros Hsc H. unfold init. unfold mbind at 1, M_bind at 1. unfold on_disk, sys_fsync, mbind at 1, M_bind at 1. cbn [disk].
  rewrite calm_outcome by done. unfold mret at 1, M_ret at 1. cbn [succeeds negb].
  set (w0 := mkStore d ((SegmentLogStorage_new sync) <| _log_checksum_type := checksum_here |> <| _first_log_index := first |>)).
  destruct (list_segments_spec checksum_here first f ess o w0 Hsc eq_refl eq_refl eq_refl eq_refl H) as (w1 & e1 & Hls & -> & Hsw & Hst1).
  destruct (load_segments_spec checksum_here first f ess o cm w1 d H Hsw Hsc) as (w2 & e2 & Hload & Hh); try (by rewrite Hst1).
  unfold mbind, M_bind, set_store, modify. cbn [store disk]. rewrite (load_meta_spec _ first) by (done || apply (lb_meta _ _ _ _ _ _ H)).
  change (bool_decide (OK = ENOENT)) with false. change (ok OK) with true. cbn [negb andb].
  match goal with |- context [list_segments false ?x] => change x with w0 end. rewrite Hls. cbn [negb]. change (ok OK) with true. cbn [negb]. rewrite Hload.
  eexists _, _. split; [reflexivity|done].
Qed.

Lemma outcome_spec (d : Disk FileName) : exists o d', outcome d = (o, d', []) /\ same_files d d'.
Proof using Type.
  pose proof (outcome_same d) as Hs. unfold outcome in *. destruct (script d); eexists _, _; (split; [reflexivity|exact Hs]).
Qed.

Lemma load_meta_missing w :
  w.(disk).(names) !! meta_path = None -> exists d', load_meta reads w = (ENOENT, w <| disk := d' |>, []) /\ same_files w.(disk) d'.
Proof using Type.
  intros Hn. unfold load_meta, on_disk, ProtoBufFile.load, sys_open. unfold mbind, M_bind, get.
  destruct (outcome_spec (disk w)) as (o & d' & -> & Hs). pose proof Hs as (Hn' & _). unfold mret, M_ret.
  exists d'. split; [|done]. destruct (succeeds o); cbn; rewrite ?Hn', ?Hn; cbn; by rewrite ?Hn.
Qed.

Lemma empty_wf sc : disk_wf (mkDisk (F := FileName) ∅ ∅ 1 sc).
Proof using Type. split; intros f; cbn; by rewrite lookup_empty. Qed.

Lemma list_nothing w :
  w.(disk).(names) = ∅ -> w.(store).(_segments) = [] -> w.(store).(_open_segment) = None -> list_segments true w = (OK, w, []).
Proof using Type.
  intros Hn Hs Ho. unfold list_segments, mbind, M_bind, get, set_store, modify, mret, M_ret. rewrite Hn, dom_empty_L, elements_empty. cbn.
  rewrite Hs. cbn. rewrite Ho. cbn. destruct w as [d []]. cbn in *. by subst.
Qed.

Lemma load_nothing cm w :
  w.(store).(_segments) = [] -> w.(store).(_open_segment) = None ->
  load_segments flags reads cm w = ((OK, cm), w <| store := settle w.(store) |>, []).
Proof using Type.
  intros Hs Ho. unfold load_segments, load_open, mbind, M_bind, get, set_store, modify, mret, M_ret. rewrite Hs. cbn. change (ok OK) with true. cbn.
  rewrite Ho. done.
Qed.

(** Starting where nothing was: when it succeeds, the log is empty. *)
Lemma init_fresh sc sync cm :
  pb_valid 1 ->
  let '((rc, cm'), w, ev) := init flags reads fast_crc32 cm (mkStore (mkDisk ∅ ∅ 1 sc) (SegmentLogStorage_new sync)) in
  rc = OK -> cm' = cm /\ holds_ready w (log_reset 1).
Proof using Hreads.
  intros Hv. unfold init. unfold mbind at 1, M_bind at 1. unfold on_disk, sys_fsync, mbind at 1, M_bind at 1. cbn [disk].
  destruct (outcome_spec (mkDisk ∅ ∅ 1 sc)) as (o & d1 & -> & Hs1). unfold mret at 1, M_ret at 1.
  destruct (succeeds o); cbn [negb]; [|done]. unfold mbind, M_bind, set_store, modify. cbn [store disk].
  match goal with |- context [load_meta reads ?x] => destruct (load_meta_missing x) as (d2 & -> & Hs2); [cbn; by rewrite (proj1 Hs1)|] end.
  cbn in Hs2. assert (same_files (mkDisk ∅ ∅ 1 sc) d2) as Hs by (destruct Hs1 as (? & ? & ?), Hs2 as (? & ? & ?); split_and!; congruence).
  pose proof Hs as (Hnil & _). change (bool_decide (ENOENT = ENOENT)) with true. change (ok ENOENT) with false. cbn [negb andb].
  match goal with |- context [list_segments true ?x] => set (x0 := x) end.
  rewrite (list_nothing x0) by done. change (ok OK) with true. cbn [negb]. rewrite (load_nothing cm x0) by done.
  set (x1 := x0 <| store := settle x0.(store) |>). unfold save_meta, on_disk.
  match goal with |- context [save tmp_name meta_path 1 ?b ?d] =>
    pose proof (save_spec tmp_name reads meta_path 1 b d ltac:(done) (same_files_wf _ _ Hs (empty_wf sc)) Hreads Hv) as Hsv;
    destruct (save tmp_name meta_path 1 b d) as [[rc d3] e3] end.
  destruct Hsv as (Hwf3 & _ & _ & Hok). cbn. unfold mret, M_ret. intros ->. split; [done|].
  destruct (Hok eq_refl) as [Hk _]. split; [by intros x|]. exists 1, [], []. apply sound_blank; try done.
  intros F L Hx. destruct (Hk (named (ClosedSegment F L))) as [Heq _]; [by intros [?|?]|]. cbn in Hx. rewrite Heq in Hx.
  cbn in Hx. by rewrite Hnil in Hx.
Qed.
End storage.
