(* ===== verification/SegmentLogRuns.v ===== *)
(** * SegmentLogRuns: what a client of the log on disk sees

    The statements over whole runs of the segmented storage, whatever the file
    system does: a storage whose calls reported success answers as the abstract
    log does, one whose append stopped half way holds what it said it appended,
    and a restart finds again what the files hold. *)

From S2P Require Import LogStorage ConfigurationManager Segment SegmentProofs SegmentLog SegmentLogProofs SegmentTruncate SegmentRecovery Types PeerText Disk EntryCodec ProtoBufFile Prelude.

Section storage.
Context `{IT : IpText, RP : RawPack, CS : Checksums, PB : ConfigurationPBMeta, EPO : EndPointOrder}.
Context `{LM : !PbMessage Z}.
Context (flags : Flags) (reads : positive -> nat -> nat -> list ReadOutcome) (fast_crc32 : bool).

(** One call, and whether it succeeded in full. *)
Definition seg_op (o : Op) (w : Store) : bool * Store :=
  match o with
  | OpAppend es => let '(n, w', _) := append_entries flags es w in (n =? zlen es, w')
  | OpTruncatePrefix k => let '(rc, w', _) := truncate_prefix flags k w in (ok rc, w')
  | OpTruncateSuffix k => let '(rc, w', _) := truncate_suffix k w in (ok rc, w')
  | OpReset k => let '(rc, w', _) := reset flags k w in (ok rc, w')
  end.

(** A client stops at the first call that fails. *)
Fixpoint seg_ops (os : list Op) (w : Store) : bool * Store :=
  match os with
  | [] => (true, w)
  | o :: os' => let '(b, w') := seg_op o w in if b then seg_ops os' w' else (false, w')
  end.

(** The obligations of the client. *)
Definition seg_allowed (w : Store) (l : Log) (o : Op) : Prop :=
  match o with
  | OpAppend es => contiguous (log_last l + 1) es /\ Forall storable es
  | OpTruncatePrefix k => l.(log_first) <= k /\ pb_valid k
  | OpTruncateSuffix k => l.(log_first) - 1 <= k <= log_last l
  | OpReset k => 0 < k /\ l.(log_first) <= k /\ pb_valid k /\ (log_last l < k \/ w.(disk).(script) = [])
  end.
Fixpoint seg_ops_allowed (w : Store) (l : Log) (os : list Op) : Prop :=
  match os with
  | [] => True
  | o :: os' => seg_allowed w l o /\ seg_ops_allowed (seg_op o w).2 (log_op l o) os'
  end.

(** The answers of a storage that holds a log. *)
Definition answers (w : Store) (l : Log) : Prop :=
  w.(store).(_first_log_index) = l.(log_first) /\ w.(store).(_last_log_index) = log_last l /\ log_wf l /\
  forall i, get_entry reads w i = (log_get l i, true) /\ get_term w i = log_term l i.

Context (Hreads : forall i o n, ReadError ∉ reads i o n).

Lemma holds_answers w l : holds w l -> answers w l.
Proof using Hreads.
  intros H. destruct (holds_bounds w l H) as (Hf & Hl & Hwf). split_and!; try done.
  intros i. by rewrite (holds_get_entry reads w l i Hreads H), (holds_get_term w l i H).
Qed.

Lemma succeeds_to_ready w l' junk r :
  junk = [] -> ready w -> succeeds_to w junk l' r -> r.1.1 = OK -> holds_ready r.1.2 l'.
Proof using Type.
  intros Hj Hr. destruct r as [[rc w'] ev]. intros [_ Hok] Hrc. destruct (Hok Hrc) as (f & es1 & es2 & j & Hs & Hj' & Hr').
  rewrite Hj' in Hs by done. split; [auto|]. by exists f, es1, es2.
Qed.

Lemma seg_op_holds w l o : holds_ready w l -> seg_allowed w l o -> (seg_op o w).1 = true -> holds_ready (seg_op o w).2 (log_op l o).
Proof using Hreads.
  intros H. pose proof H as (Hr & f & es1 & es2 & Hs). destruct o as [es|k|k|k]; cbn.
  - intros [Hc Hst]. pose proof (holds_append_entries flags w l es H Hc Hst) as Ha.
    destruct (append_entries flags es w) as [[n w'] ev]. cbn. destruct Ha as (_ & _ & _ & Hrd). intros ->%Z.eqb_eq.
    rewrite take_ge in Hrd by (unfold zlen; lia). by apply Hrd; left.
  - intros [Hf Hk]. pose proof (sound_truncate_prefix flags reads w l f es1 es2 [] k Hreads Hk Hs Hf) as Ht.
    destruct (truncate_prefix flags k w) as [[rc w'] ev]. cbn. destruct Ht as (_ & f' & e1 & e2 & j & Hs' & Hj & Hrd). intros Hrc.
    rewrite Hrc in Hs'. rewrite Hj in Hs' by done. split; [by apply Hrd|]. by exists f', e1, e2.
  - intros Hk. pose proof (sound_truncate_suffix w l f es1 es2 [] k Hs Hk) as Ht.
    pose proof (succeeds_to_ready w _ [] _ eq_refl Hr Ht) as Hrd. destruct (truncate_suffix k w) as [[rc w'] ev]. cbn in *.
    intros Hrc. by apply Hrd, ok_true.
  - intros (Hk & Hf & Hv & Hor). pose proof (sound_reset flags reads w l f es1 es2 [] k Hreads Hv Hs Hk Hf Hor) as Ht.
    pose proof (succeeds_to_ready w _ [] _ eq_refl Hr Ht) as Hrd. destruct (reset flags k w) as [[rc w'] ev]. cbn in *.
    intros Hrc. by apply Hrd, ok_true.
Qed.

Lemma seg_ops_hold w l os :
  holds_ready w l -> seg_ops_allowed w l os -> (seg_ops os w).1 = true -> holds_ready (seg_ops os w).2 (fold_left log_op os l).
Proof using Hreads.
  revert w l. induction os as [|o os IH]; intros w l H; [done|]. cbn. intros [Ho Hos].
  pose proof (seg_op_holds w l o H Ho) as H1. destruct (seg_op o w) as [[|] w1]; cbn in *; [|done]. apply IH; auto.
Qed.

(** A new storage in an empty directory, after [init]. *)
Definition started (sc : list Outcome) (sync : bool) (cm : ConfigurationManager) : Errno * Store :=
  let '((rc, _), w, _) := init flags reads fast_crc32 cm (mkStore (mkDisk ∅ ∅ 1 sc) (SegmentLogStorage_new sync)) in (rc, w).

Lemma started_holds sc sync cm : pb_valid 1 -> (started sc sync cm).1 = OK -> holds_ready (started sc sync cm).2 (log_reset 1).
Proof using Hreads.
  intros Hv. pose proof (init_fresh flags reads fast_crc32 Hreads sc sync cm Hv) as Hi. unfold started.
  destruct (init flags reads fast_crc32 cm _) as [[[rc cm'] w] ev]. cbn. intros Hrc. by apply Hi.
Qed.

(** C10: refinement, the log on disk.  Start a storage in an empty directory and
    run any sequence of appends, truncations at either end and resets that its
    contract allows.  However the file system behaves, in short and interrupted
    writes and in calls that fail, as long as each call reported success the
    storage is the abstract log: it answers the bounds, and the entry and the
    term at any index, as that log does, and no internal check fails.  The
    segments the log is cut into, rolled and closed along the way, are
    invisible. *)
Theorem segment_log_refines_log sc sync cm os :
  pb_valid 1 ->
  let '(rc, w0) := started sc sync cm in
  let '(all_ok, w) := seg_ops os w0 in
  rc = OK -> seg_ops_allowed w0 (log_reset 1) os -> all_ok = true ->
  answers w (fold_left log_op os (log_reset 1)).
Proof using Hreads.
  intros Hv. pose proof (started_holds sc sync cm Hv) as Hs. destruct (started sc sync cm) as [rc w0].
  pose proof (seg_ops_hold w0 (log_reset 1) os) as Ho. destruct (seg_ops os w0) as [all_ok w]. intros Hrc Hos Hall.
  apply holds_answers, holds_ready_holds, Ho; auto.
Qed.

(** C26: a failed append.  When the file system makes an append stop half way,
    in the middle of an entry even, the number it reports is exact: the storage
    holds the log it held, followed by that many of the new entries and nothing
    of the others, although bytes of the next one may be in the file. *)
Theorem append_stops_cleanly sc sync cm os es :
  pb_valid 1 ->
  let '(rc, w0) := started sc sync cm in
  let '(all_ok, w) := seg_ops os w0 in
  let l := fold_left log_op os (log_reset 1) in
  let '(n, w', _) := append_entries flags es w in
  rc = OK -> seg_ops_allowed w0 (log_reset 1) os -> all_ok = true ->
  contiguous (log_last l + 1) es -> Forall storable es ->
  0 <= n <= zlen es /\ answers w' (log_append l (take (Z.to_nat n) es)).
Proof using Hreads.
  intros Hv. pose proof (started_holds sc sync cm Hv) as Hs. destruct (started sc sync cm) as [rc w0].
  pose proof (seg_ops_hold w0 (log_reset 1) os) as Ho. destruct (seg_ops os w0) as [all_ok w].
  pose proof (holds_append_entries flags w (fold_left log_op os (log_reset 1)) es) as Ha.
  cbv zeta. destruct (append_entries flags es w) as [[n w'] ev]. intros Hrc Hos Hall Hc Hst.
  destruct Ha as (Hn & Hh & _); [by apply Ho; auto|done|done|]. split; [done|]. by apply holds_answers.
Qed.

(** C3: recovery.  A directory holds a log when its closed segments carry
    consecutive entries, an open one what follows, possibly with the beginning
    of an entry whose write did not finish, and the meta file the first index.
    From such a directory, listed in any order and with temporary files left in
    it, [init] succeeds and the storage answers as that log does: no whole entry
    is lost, none is invented from the torn bytes, the configurations are those
    of the entries, and the storage can go on from there. *)
Theorem restart_recovers d sync first f ess o cm :
  d.(script) = [] -> left_behind reads d (checksum_here fast_crc32) first f ess o ->
  let l := log_left first f ess o in
  exists w ev, init flags reads fast_crc32 cm (mkStore d (SegmentLogStorage_new sync)) =
      ((OK, replayed (concat ess ++ open_entries o) cm), w, ev) /\
    answers w l /\
    forall os, seg_ops_allowed w l os -> (seg_ops os w).1 = true -> answers (seg_ops os w).2 (fold_left log_op os l).
Proof using Hreads.
  intros Hsc H l. destruct (init_recovers flags reads fast_crc32 Hreads d sync first f ess o cm Hsc H) as (w & ev & Hi & Hh).
  exists w, ev. split; [done|]. split; [by apply holds_answers, holds_ready_holds|]. intros os Hos Hall.
  by apply holds_answers, holds_ready_holds, seg_ops_hold.
Qed.
End storage.

(** * Runs of the log on disk

    Concrete runs of the segmented storage, in which the general statements
    apply: small segments, writes in pieces, a write that fails half way, and a
    restart on what it leaves. *)


(** ** The parameters *)

(** The meta message: a 64-bit integer in eight bytes. *)
Definition int64_message : PbMessage Z.
Proof.
  refine {| pb_encode v := @pack64 big_endian (wrap_u64 v); pb_decode b := wrap_i64 (@unpack64 big_endian b);
            pb_valid v := - 2 ^ 63 <= v < 2 ^ 63 |}.
  - intros v Hv. rewrite unpack_pack64; [by apply wrap_i64_u64|]. apply wrap_u64_range.
  - intros v _. unfold zlen. rewrite pack64_length. lia.
Defined.

#[local] Existing Instances decimal_ip_text lex_endpoint_order big_endian byte_sum marked_meta int64_message.

(** Segments of two entries, the file system slow and interrupted. *)
Definition small_segments : Flags := mkFlags 30 true false true false RAFT_SYNC_IMMEDIATELY 4096.
Definition slow_reads : positive -> nat -> nat -> list ReadOutcome := fun _ _ _ => [ReadBytes 5; ReadIntr].
Definition data_entry (i t : Z) (b : Byte.byte) : LogEntry := mkLogEntry ENTRY_TYPE_DATA (mkLogId i t) None None [b].

Definition disk_ops : list Op :=
  [OpAppend [data_entry 1 1 Byte.x61; data_entry 2 1 Byte.x62; data_entry 3 2 Byte.x63];
   OpTruncateSuffix 2; OpAppend [data_entry 3 4 Byte.x64; data_entry 4 4 Byte.x65]; OpTruncatePrefix 2].

Definition disk_start (sc : list Outcome) : Errno * Store := started small_segments slow_reads true sc true ConfigurationManager_default.
Definition slow_script : list Outcome := replicate 12 SysOk ++ [SysWrote 2; SysWrote 20].
Definition disk_end : bool * Store := seg_ops small_segments disk_ops (disk_start slow_script).2.

Lemma slow_reads_fine i o n : ReadError ∉ slow_reads i o n.
Proof. unfold slow_reads. rewrite !not_elem_of_cons. repeat split; try done. apply not_elem_of_nil. Qed.

Lemma data_storable i t b : - 2 ^ 63 <= t < 2 ^ 63 -> storable (data_entry i t b).
Proof. intros Ht. split; [done|]. split; [done|]. exists [b]. by split; vm_compute. Qed.
Lemma data_contiguous f es : Forall2 (fun i e => e.(id).(index) = i) (map (fun k => f + Z.of_nat k) (seq 0 (length es))) es -> contiguous f es.
Proof.
  intros H i e He. pose proof (Forall2_lookup_r _ _ _ i e H He) as (j & Hj & ->). apply list_lookup_fmap_Some in Hj as (k & -> & Hk).
  apply lookup_seq in Hk as [-> _]. lia.
Qed.

(** The second segment's first write happens in two pieces; the log is cut in
    the closed segment, goes on, and loses its first entry. *)
Lemma segment_log_refines_log_witness :
  disk_end.1 = true /\ map file_name disk_end.2.(store).(_segments) = [named (ClosedSegment 1 2)] /\
  get_term disk_end.2 3 = 4 /\ answers slow_reads disk_end.2 (fold_left log_op disk_ops (log_reset 1)).
Proof.
  assert (disk_end.1 = true) as Hall by (vm_compute; reflexivity).
  assert ((disk_start slow_script).1 = OK) as Hrc by (vm_compute; reflexivity).
  split; [exact Hall|]. split; [vm_compute; reflexivity|]. split; [vm_compute; reflexivity|].
  pose proof (segment_log_refines_log small_segments slow_reads true slow_reads_fine slow_script true ConfigurationManager_default disk_ops) as H.
  unfold disk_end in *. fold (disk_start slow_script) in H. destruct (disk_start slow_script) as [rc w0] eqn:Hw0.
  cbn [fst snd] in *. destruct (seg_ops small_segments disk_ops w0) as [all w]. apply H; [by vm_compute|done| |done].
  repeat split; try (apply data_contiguous; repeat constructor); try (repeat constructor; apply data_storable; by vm_compute); by vm_compute.
Defined.

(** ** A write that fails half way, and what is left *)
Definition failing_script : list Outcome := replicate 15 SysOk ++ [SysWrote 7; SysFail].
Definition first_ops : list Op := [OpAppend [data_entry 1 1 Byte.x61; data_entry 2 1 Byte.x62]].
Definition more_entries : list LogEntry := [data_entry 3 2 Byte.x63; data_entry 4 2 Byte.x64; data_entry 5 2 Byte.x65].
Definition before_failure : bool * Store := seg_ops small_segments first_ops (disk_start failing_script).2.
Definition after_failure : Z * Store := (append_entries small_segments more_entries before_failure.2).1.

(** One of the three entries is appended, and seven bytes of the next are in the file. *)
Lemma append_stops_cleanly_witness :
  let l := fold_left log_op first_ops (log_reset 1) in
  before_failure.1 = true /\ after_failure.1 = 1 /\
  file_at after_failure.2.(disk) (named (Inprogress 3)) =
    Some (enc CHECKSUM_CRC32 (data_entry 3 2 Byte.x63) ++ take 7 (enc CHECKSUM_CRC32 (data_entry 4 2 Byte.x64))) /\
  0 <= after_failure.1 <= zlen more_entries /\
  answers slow_reads after_failure.2 (log_append l (take (Z.to_nat after_failure.1) more_entries)).
Proof.
  intros l. assert (before_failure.1 = true) as Hall by (vm_compute; reflexivity).
  assert ((disk_start failing_script).1 = OK) as Hrc by (vm_compute; reflexivity).
  split; [exact Hall|]. split; [vm_compute; reflexivity|]. split; [vm_compute; reflexivity|].
  pose proof (append_stops_cleanly small_segments slow_reads true slow_reads_fine failing_script true ConfigurationManager_default
    first_ops more_entries) as H.
  unfold after_failure, before_failure in *. fold (disk_start failing_script) in H. destruct (disk_start failing_script) as [rc w0] eqn:Hw0.
  cbn [fst snd] in *. destruct (seg_ops small_segments first_ops w0) as [all w]. cbn [fst snd] in *. cbv zeta in H.
  destruct (append_entries small_segments more_entries w) as [[n w'] ev]. apply H; [by vm_compute|done| |done| |].
  - repeat split; [apply data_contiguous; repeat constructor|repeat constructor; apply data_storable; by vm_compute].
  - apply data_contiguous. repeat constructor.
  - repeat constructor; apply data_storable; by vm_compute.
Defined.

(** The directory the process leaves when it dies there. *)
Definition crashed : Disk FileName := after_failure.2.(disk).
Definition crashed_open : option (list LogEntry * IOBuf) :=
  Some ([data_entry 3 2 Byte.x63], take 7 (enc CHECKSUM_CRC32 (data_entry 4 2 Byte.x64))).
Definition crashed_closed : list (list LogEntry) := [[data_entry 1 1 Byte.x61; data_entry 2 1 Byte.x62]].

Lemma crashed_names g i : crashed.(names) !! g = Some i ->
  (g, i) ∈ [(named LogMetaFile, 1%positive); (named (ClosedSegment 1 2), 2%positive); (named (Inprogress 3), 3%positive)].
Proof.
  intros H. apply elem_of_map_to_list in H. assert (map_to_list crashed.(names) =
    [(named LogMetaFile, 1%positive); (named (ClosedSegment 1 2), 2%positive); (named (Inprogress 3), 3%positive)]) as He
    by (vm_compute; reflexivity).
  by rewrite He in H.
Qed.

Lemma crashed_found g : crashed.(names) !! g <> None -> g ∈ [named LogMetaFile; named (ClosedSegment 1 2); named (Inprogress 3)].
Proof.
  intros Hn. destruct (crashed.(names) !! g) as [i|] eqn:Hi; [|exact (False_ind _ (Hn eq_refl))]. apply crashed_names in Hi. clear Hn.
  rewrite !elem_of_cons in *. rewrite elem_of_nil in Hi. destruct Hi as [Hi|[Hi|[Hi|[]]]]; injection Hi as -> ->; auto.
Qed.

Lemma crashed_left : left_behind slow_reads crashed CHECKSUM_CRC32 1 1 crashed_closed crashed_open.
Proof.
  assert (forall i t b, - 2 ^ 63 <= t < 2 ^ 63 -> storable (data_entry i t b)) as Hst by apply data_storable.
  split.
  - split.
    + intros g i H%crashed_names. repeat (apply elem_of_cons in H as [H|H]; [injection H as -> ->; vm_compute; reflexivity|]). by apply elem_of_nil in H.
    + intros g h i Hg%crashed_names Hh%crashed_names. rewrite !elem_of_cons, elem_of_nil in Hg, Hh.
      destruct Hg as [Hg|[Hg|[Hg|[]]]], Hh as [Hh|[Hh|[Hh|[]]]]; by simplify_eq.
  - vm_compute. reflexivity.
  - repeat split; try done; [apply data_contiguous; repeat constructor|repeat constructor; apply Hst; by vm_compute|].
    exists 2%positive. split; vm_compute; reflexivity.
  - repeat split; [apply data_contiguous; repeat constructor|repeat constructor; apply Hst; by vm_compute| |].
    + right. exists (data_entry 4 2 Byte.x64), 7%nat. split; [apply Hst; by vm_compute|]. split; [vm_compute; lia|done].
    + exists 3%positive. split; vm_compute; reflexivity.
  - vm_compute. split; [congruence|split; congruence].
  - intros es [= <-]. by vm_compute.
  - done.
  - intros F L Hn. apply crashed_found in Hn. rewrite !elem_of_cons, elem_of_nil in Hn.
    destruct Hn as [Hi|[Hi|[Hi|[]]]]; try done. injection Hi as -> ->. left.
  - intros F Hn. apply crashed_found in Hn. rewrite !elem_of_cons, elem_of_nil in Hn.
    destruct Hn as [Hi|[Hi|[Hi|[]]]]; try done. by injection Hi as ->.
Qed.

Definition next_ops : list Op := [OpAppend [data_entry 4 3 Byte.x66]].
Lemma next_allowed w : seg_ops_allowed small_segments w (log_left 1 1 crashed_closed crashed_open) next_ops.
Proof.
  assert (log_last (log_left 1 1 crashed_closed crashed_open) = 3) as Hl by (vm_compute; reflexivity).
  split; [|exact I]. split; [rewrite Hl; apply data_contiguous; repeat constructor|].
  constructor; [apply data_storable; by vm_compute|constructor].
Qed.

(** The restart finds the three whole entries, and appends a fourth. *)
Lemma restart_recovers_witness :
  exists w ev, init small_segments slow_reads true ConfigurationManager_default (mkStore crashed (SegmentLogStorage_new true)) =
      ((OK, ConfigurationManager_default), w, ev) /\
    w.(store).(_last_log_index) = 3 /\ answers slow_reads w (log_left 1 1 crashed_closed crashed_open) /\
    answers slow_reads (seg_ops small_segments next_ops w).2 (fold_left log_op next_ops (log_left 1 1 crashed_closed crashed_open)).
Proof.
  destruct (restart_recovers small_segments slow_reads true slow_reads_fine crashed true 1 1 crashed_closed crashed_open ConfigurationManager_default)
    as (w & ev & Hi & Ha & Hos); [vm_compute; reflexivity|exact crashed_left|].
  exists w, ev. split; [exact Hi|]. split; [by destruct Ha as (_ & -> & _)|]. split; [exact Ha|]. apply Hos.
  - apply next_allowed.
  - pose proof (f_equal (fun x => x.1.2) Hi) as Hw. cbn [fst snd] in Hw. rewrite <- Hw. vm_compute. reflexivity.
Defined.
