(* ===== verification/FsmCaller.v ===== *)
(** * FsmCaller: what the user's state machine is given

    Models the classes [FSMCaller] and [IteratorImpl] of
    [src/braft/fsm_caller.h] and [src/braft/fsm_caller.cpp], with the [Iterator]
    of [src/braft/raft.cpp].  Calls are queued in a bthread execution queue,
    whose tasks run one at a time: [run] is one run of the queue over the tasks
    it took.  The state machine is the user's code and is the parameter
    [UserCode]; what the log manager and the snapshot executor answer while a
    task runs are the parameters [LogReads] and [SnapshotAnswers].  The
    closure queue is the one the ballot box appends to. *)

From S2P Require Import Prelude Types PeerText ClosureQueue.

(** ** Data *)
Inductive ErrorType : Set :=
| ERROR_TYPE_NONE | ERROR_TYPE_LOG | ERROR_TYPE_STABLE | ERROR_TYPE_SNAPSHOT | ERROR_TYPE_STATE_MACHINE.

#[export] Instance ErrorType_eq_dec : EqDecision ErrorType.
Proof. solve_decision. Defined.

Record Error : Set := mkError { error_type : ErrorType; status : Errno }.

#[export] Instance Error_eq_dec : EqDecision Error.
Proof. solve_decision. Defined.

(** [Error()]. *)
Definition Error_default : Error := mkError ERROR_TYPE_NONE OK.

Inductive TaskType : Set :=
| IDLE | COMMITTED | SNAPSHOT_SAVE | SNAPSHOT_LOAD | LEADER_STOP | LEADER_START
| START_FOLLOWING | STOP_FOLLOWING | ERROR.

#[export] Instance TaskType_eq_dec : EqDecision TaskType.
Proof. solve_decision. Defined.

Record LeaderStartContext : Set := mkLeaderStartContext { ctx_term : Z; ctx_lease_epoch : Z }.
Record LeaderChangeContext : Set := mkLeaderChangeContext { leader_id : PeerId; change_term : Z; change_status : Errno }.

(** A task is its type with the member of the union that goes with it. *)
Inductive ApplyTask : Set :=
| TIdle
| TCommitted (committed_index : Z)
| TSnapshotSave (done : Closure)
| TSnapshotLoad (done : Closure)
| TLeaderStop (st : Errno)
| TLeaderStart (ctx : LeaderStartContext)
| TStartFollowing (ctx : LeaderChangeContext)
| TStopFollowing (ctx : LeaderChangeContext)
| TError (e : Error).

Record SnapshotMeta : Set := mkSnapshotMeta {
  last_included_index : Z;
  last_included_term : Z;
  meta_peers : list string;
  meta_old_peers : list string
}.

Inductive Event : Set :=
| Apply (e : LogEntry)
| ConfigurationCommitted (c : Configuration) (index : Z)
| RunClosure (c : Closure) (st : Errno)
| FsmOnError (e : Error)
| NodeOnError (e : Error)
| SetAppliedId (i : LogId)
| SaveSnapshotStart (c : Closure) (meta : SnapshotMeta)
| FsmOnSnapshotSave (c : Closure)
| FsmOnSnapshotLoad (c : Closure)
| LeaderLeaseStart (lease_epoch : Z)
| FsmOnLeaderStart (term : Z)
| FsmOnLeaderStop (st : Errno)
| FsmOnStartFollowing (ctx : LeaderChangeContext)
| FsmOnStopFollowing (ctx : LeaderChangeContext)
| FsmOnShutdown
| ReleaseNode
| CheckFailed
| OutOfBounds
| OutOfFuel.

(** ** The code around the caller *)

(** What the log manager answers to the reads of one run. *)
Record LogReads : Type := mkLogReads {
  read_entry : Z -> option LogEntry;
  read_term : Z -> Z;
  read_configuration : Z -> ConfigurationEntry
}.

(** What the snapshot executor's closures answer: a writer or not; a reader or
    not, and the metadata it loads. *)
Record SnapshotAnswers : Type := mkSnapshotAnswers {
  writer_starts : SnapshotMeta -> bool;
  reader_starts : bool;
  load_meta : Errno * SnapshotMeta
}.

(** What [on_apply] does with the task its iterator is on: it runs the task's
    closure or not, then moves on, returns, or reports an error that rolls back
    the last [ntail] tasks.  When it has moved past the last task it may still
    report an error, told by the index the iterator is at. *)
Inductive Then : Set := Next | Return | Rollback (ntail : nat).
Record UserCode : Type := mkUserCode {
  on_task : LogEntry -> bool * Then;
  on_end : Z -> option nat;
  on_snapshot_load : Closure -> Errno
}.

Record FSMCaller : Set := mkFSMCaller {
  _closure_queue : ClosureQueue;
  _last_applied_index : Z;
  _last_applied_term : Z;
  _after_shutdown : option Closure;
  _node : bool;
  _cur_task : TaskType;
  _applying_index : Z;
  _error : Error;
  _queue_started : bool;
  _tasks : list ApplyTask;
  _urgent : list ApplyTask
}.
#[export] Instance FSMCaller_eta : Settable FSMCaller := fun f =>
  mkFSMCaller f.(_closure_queue) f.(_last_applied_index) f.(_last_applied_term) f.(_after_shutdown)
    f.(_node) f.(_cur_task) f.(_applying_index) f.(_error) f.(_queue_started) f.(_tasks) f.(_urgent).

(** [FSMCaller::FSMCaller]. *)
Definition FSMCaller_default : FSMCaller :=
  mkFSMCaller ClosureQueue_default 0 0 None false IDLE 0 Error_default false [] [].

Record IteratorImpl : Set := mkIteratorImpl {
  _closure : list (option Closure);
  _first_closure_index : Z;
  _cur_index : Z;
  _committed_index : Z;
  _cur_entry : option LogEntry;
  _it_error : Error
}.
#[export] Instance IteratorImpl_eta : Settable IteratorImpl := fun it =>
  mkIteratorImpl it.(_closure) it.(_first_closure_index) it.(_cur_index) it.(_committed_index)
    it.(_cur_entry) it.(_it_error).

Abbreviation FM := (M FSMCaller Event).

Definition check (b : bool) : FM unit := if b then skip else emit CheckFailed.
Definition run_done (done : option Closure) (st : Errno) : FM unit :=
  match done with Some c => emit (RunClosure c st) | None => skip end.

Section caller.
Context `{IT : IpText, EPO : EndPointOrder}.
Variable reads : LogReads.
Variable snapshots : Closure -> SnapshotAnswers.
Variable user : UserCode.
Variable raft_fsm_caller_commit_batch : Z.

(** ** IteratorImpl *)
Definition has_error (it : IteratorImpl) : bool := negb (bool_decide (it.(_it_error).(error_type) = ERROR_TYPE_NONE)).
Definition is_good (it : IteratorImpl) : bool := (it.(_cur_index) <=? it.(_committed_index)) && negb (has_error it).

Definition next (it : IteratorImpl) : FM IteratorImpl :=
  let it := it <| _cur_entry := None |> in
  if it.(_cur_index) <=? it.(_committed_index) then
    let it := it <| _cur_index := it.(_cur_index) + 1 |> in
    if it.(_cur_index) <=? it.(_committed_index) then
      let entry := reads.(read_entry) it.(_cur_index) in
      modify (fun f => f <| _applying_index := it.(_cur_index) |>) ;;
      mret (match entry with
            | Some _ => it <| _cur_entry := entry |>
            | None => it <| _it_error := mkError ERROR_TYPE_LOG ENEG1 |>
            end)
    else mret it
  else mret it.

(** The constructor, which moves to the first entry. *)
Definition IteratorImpl_new (closure : list (option Closure)) (first_closure_index last_applied_index committed_index : Z)
  : FM IteratorImpl :=
  next (mkIteratorImpl closure first_closure_index last_applied_index committed_index None Error_default).

(** [done]: [None] is an access out of the vector. *)
Definition done (it : IteratorImpl) : option (option Closure) :=
  if it.(_cur_index) <? it.(_first_closure_index) then Some None
  else zget it.(_closure) (it.(_cur_index) - it.(_first_closure_index)).

Definition run_closure_of (it : IteratorImpl) : FM unit :=
  match done it with Some d => run_done d OK | None => emit OutOfBounds end.

Definition on_data (it : IteratorImpl) : bool :=
  match it.(_cur_entry) with Some e => bool_decide (e.(type) = ENTRY_TYPE_DATA) | None => false end.

Definition set_error_and_rollback (ntail : nat) (it : IteratorImpl) : FM IteratorImpl :=
  match ntail with
  | O => emit CheckFailed ;; mret it
  | S _ =>
      let back := if on_data it then Z.of_nat ntail - 1 else Z.of_nat ntail in
      mret (it <| _cur_index := it.(_cur_index) - back |> <| _cur_entry := None |>
               <| _it_error := mkError ERROR_TYPE_STATE_MACHINE ESTATEMACHINE |>)
  end.

Fixpoint rest_loop (n : nat) (i : Z) (it : IteratorImpl) : FM unit :=
  match n with
  | O => skip
  | S n =>
      match zget it.(_closure) (i - it.(_first_closure_index)) with
      | Some d => run_done d it.(_it_error).(status)
      | None => emit OutOfBounds
      end ;;
      rest_loop n (i + 1) it
  end.
Definition run_the_rest_closure_with_error (it : IteratorImpl) : FM unit :=
  let i := Z.max it.(_cur_index) it.(_first_closure_index) in
  rest_loop (Z.to_nat (it.(_committed_index) - i + 1)) i it.

(** ** Iterator ([raft.cpp]) and the state machine's [on_apply] *)
Definition valid (it : IteratorImpl) : bool := is_good it && on_data it.
Definition iter_next (it : IteratorImpl) : FM IteratorImpl := if valid it then next it else mret it.

(** The user's loop over the iterator, from the task it is on. *)
Fixpoint on_apply (fuel : nat) (it : IteratorImpl) : FM IteratorImpl :=
  match fuel, it.(_cur_entry) with
  | S fuel, Some e =>
      emit (Apply e) ;;
      let '(runs, go) := user.(on_task) e in
      when runs (run_closure_of it) ;;
      match go with
      | Return => mret it
      | Rollback ntail => set_error_and_rollback ntail it
      | Next =>
          it ← iter_next it;
          if valid it then on_apply fuel it
          else match user.(on_end) it.(_cur_index) with
               | Some ntail => set_error_and_rollback ntail it
               | None => mret it
               end
      end
  | _, _ => emit OutOfFuel ;; mret it
  end.

(** ** Tasks *)
Definition set_error (e : Error) : FM unit :=
  f ← get;
  if negb (bool_decide (f.(_error).(error_type) = ERROR_TYPE_NONE)) then skip
  else
    modify (fun f => f <| _error := e |>) ;;
    emit (FsmOnError e) ;;
    when f.(_node) (emit (NodeOnError e)).

Definition pass_by_status (done : Closure) : FM bool :=
  f ← get;
  if negb (ok f.(_error).(status)) then emit (RunClosure done EINVAL) ;; mret false
  else mret true.

(** An entry that is not the user's. *)
Definition internal_entry (it : IteratorImpl) (e : LogEntry) : FM IteratorImpl :=
  (if bool_decide (e.(type) = ENTRY_TYPE_CONFIGURATION) && bool_decide (e.(old_peers) = None)
   then emit (ConfigurationCommitted (Configuration_of (default [] e.(peers))) e.(id).(index)) else skip) ;;
  run_closure_of it ;;
  next it.

Fixpoint apply_loop (fuel : nat) (it : IteratorImpl) : FM IteratorImpl :=
  if is_good it then
    match fuel, it.(_cur_entry) with
    | S fuel', Some e =>
        it ← (if bool_decide (e.(type) = ENTRY_TYPE_DATA) then it ← on_apply fuel it; iter_next it
              else internal_entry it e);
        apply_loop fuel' it
    | _, _ => emit OutOfFuel ;; mret it
    end
  else mret it.

Definition do_committed (committed_index : Z) : FM unit :=
  f ← get;
  if negb (ok f.(_error).(status)) then skip
  else
    let last_applied_index := f.(_last_applied_index) in
    if committed_index <=? last_applied_index then skip
    else
      let '(r, q, _) := pop_closure_until f.(_closure_queue) committed_index in
      modify (fun f => f <| _closure_queue := q |>) ;;
      check (ok r.(ret)) ;;
      it ← IteratorImpl_new r.(out) (default 0 r.(out_first_index)) last_applied_index committed_index;
      it ← apply_loop (Z.to_nat (committed_index - last_applied_index)) it;
      when (has_error it) (set_error it.(_it_error) ;; run_the_rest_closure_with_error it) ;;
      let last_index := it.(_cur_index) - 1 in
      let last_term := reads.(read_term) last_index in
      modify (fun f => f <| _last_applied_index := committed_index |> <| _last_applied_term := last_term |>) ;;
      emit (SetAppliedId (mkLogId last_index last_term)).

Definition do_snapshot_save (done : Closure) : FM unit :=
  f ← get;
  let conf_entry := reads.(read_configuration) f.(_last_applied_index) in
  let meta := mkSnapshotMeta f.(_last_applied_index) f.(_last_applied_term)
                (map to_string conf_entry.(conf)) (map to_string conf_entry.(old_conf)) in
  emit (SaveSnapshotStart done meta) ;;
  if (snapshots done).(writer_starts) meta then emit (FsmOnSnapshotSave done)
  else emit (RunClosure done EINVAL).

(** The loop that rebuilds the configuration, with its parser's checks. *)
Fixpoint add_meta_peers (peers : list string) (c : Configuration) : Configuration * bool :=
  match peers with
  | [] => (c, true)
  | p :: peers =>
      let '(peer, checks) := PeerId_of_string p in
      let '(c, checks') := add_meta_peers peers (add_peer c peer).2 in
      (c, checks && checks')
  end.

Definition do_snapshot_load (done : Closure) : FM unit :=
  let answers := snapshots done in
  if negb answers.(reader_starts) then emit (RunClosure done EINVAL)
  else
    let '(rc, meta) := answers.(load_meta) in
    if negb (ok rc) then
      emit (RunClosure done rc) ;;
      when (bool_decide (rc = EIO)) (set_error (mkError ERROR_TYPE_SNAPSHOT rc))
    else
      f ← get;
      let last_applied_id := mkLogId f.(_last_applied_index) f.(_last_applied_term) in
      let snapshot_id := mkLogId meta.(last_included_index) meta.(last_included_term) in
      if logid_gtb last_applied_id snapshot_id then emit (RunClosure done ESTALE)
      else
        emit (FsmOnSnapshotLoad done) ;;
        let rc := user.(on_snapshot_load) done in
        if negb (ok rc) then
          emit (RunClosure done rc) ;; set_error (mkError ERROR_TYPE_STATE_MACHINE rc)
        else
          (match meta.(meta_old_peers) with
           | [] =>
               let '(c, checks) := add_meta_peers meta.(meta_peers) [] in
               check checks ;; emit (ConfigurationCommitted c meta.(last_included_index))
           | _ => skip
           end) ;;
          modify (fun f => f <| _last_applied_index := meta.(last_included_index) |>
                             <| _last_applied_term := meta.(last_included_term) |>) ;;
          emit (RunClosure done OK).

Definition do_on_error (e : Error) : FM unit := set_error e.
Definition do_leader_stop (st : Errno) : FM unit := emit (FsmOnLeaderStop st).
Definition do_leader_start (ctx : LeaderStartContext) : FM unit :=
  emit (LeaderLeaseStart ctx.(ctx_lease_epoch)) ;; emit (FsmOnLeaderStart ctx.(ctx_term)).
Definition do_start_following (ctx : LeaderChangeContext) : FM unit := emit (FsmOnStartFollowing ctx).
Definition do_stop_following (ctx : LeaderChangeContext) : FM unit := emit (FsmOnStopFollowing ctx).

Definition do_shutdown : FM unit :=
  f ← get;
  when f.(_node) (modify (fun f => f <| _node := false |>) ;; emit ReleaseNode) ;;
  emit FsmOnShutdown ;;
  match f.(_after_shutdown) with
  | Some c => modify (fun f => f <| _after_shutdown := None |>) ;; emit (RunClosure c OK)
  | None => skip
  end.

(** ** The execution queue's handler *)
Definition set_cur_task (t : TaskType) : FM unit := modify (fun f => f <| _cur_task := t |>).

(** The arms of the [switch] other than [COMMITTED]. *)
Definition do_task (t : ApplyTask) : FM unit :=
  match t with
  | TSnapshotSave done =>
      set_cur_task SNAPSHOT_SAVE ;;
      pass ← pass_by_status done;
      when pass (do_snapshot_save done)
  | TSnapshotLoad done =>
      set_cur_task SNAPSHOT_LOAD ;;
      pass ← pass_by_status done;
      when pass (do_snapshot_load done)
  | TLeaderStop st => set_cur_task LEADER_STOP ;; do_leader_stop st
  | TLeaderStart ctx => do_leader_start ctx
  | TStartFollowing ctx => set_cur_task START_FOLLOWING ;; do_start_following ctx
  | TStopFollowing ctx => set_cur_task STOP_FOLLOWING ;; do_stop_following ctx
  | TError e => set_cur_task ERROR ;; do_on_error e
  | TIdle => emit CheckFailed
  | TCommitted _ => skip
  end.

Definition apply_committed (max_committed_index : Z) : FM unit :=
  when (0 <=? max_committed_index) (set_cur_task COMMITTED ;; do_committed max_committed_index).

(** The loop over the tasks: commits are gathered, up to a batch, and applied
    together before any other task. *)
Fixpoint run_loop (tasks : list ApplyTask) (max_committed_index counter : Z) : FM unit :=
  match tasks with
  | [] => apply_committed max_committed_index
  | TCommitted i :: tasks =>
      if counter <? raft_fsm_caller_commit_batch then
        if max_committed_index <? i then run_loop tasks i (counter + 1)
        else run_loop tasks max_committed_index counter
      else
        apply_committed max_committed_index ;;
        let '(max, counter) := if 0 <=? max_committed_index then (-1, 0) else (max_committed_index, counter) in
        if max <? i then run_loop tasks i (counter + 1) else run_loop tasks max counter
  | t :: tasks =>
      apply_committed max_committed_index ;;
      do_task t ;;
      if 0 <=? max_committed_index then run_loop tasks (-1) 0 else run_loop tasks max_committed_index counter
  end.

Definition run (stopped : bool) (tasks : list ApplyTask) : FM unit :=
  if stopped then do_shutdown
  else run_loop tasks (-1) 0 ;; set_cur_task IDLE.

(** ** The calls that queue a task *)

(** [execution_queue_execute], with what it answers; urgent tasks run first. *)
Definition execute (queued : bool) (urgent : bool) (t : ApplyTask) : FM Errno :=
  if queued then
    modify (fun f => if urgent then f <| _urgent := f.(_urgent) ++ [t] |> else f <| _tasks := f.(_tasks) ++ [t] |>) ;;
    mret OK
  else mret ENEG1.

Definition on_committed (queued : bool) (committed_index : Z) : FM Errno := execute queued false (TCommitted committed_index).
Definition on_error (queued : bool) (e : Error) : FM Errno := execute queued true (TError e).
Definition on_snapshot_save (queued : bool) (done : Closure) : FM Errno := execute queued false (TSnapshotSave done).
Definition on_snapshot_load_task (queued : bool) (done : Closure) : FM Errno := execute queued false (TSnapshotLoad done).
Definition on_leader_stop (queued : bool) (st : Errno) : FM Errno := execute queued false (TLeaderStop st).
Definition on_leader_start (queued : bool) (term lease_epoch : Z) : FM Errno :=
  execute queued false (TLeaderStart (mkLeaderStartContext term lease_epoch)).
Definition on_start_following (queued : bool) (ctx : LeaderChangeContext) : FM Errno := execute queued false (TStartFollowing ctx).
Definition on_stop_following (queued : bool) (ctx : LeaderChangeContext) : FM Errno := execute queued false (TStopFollowing ctx).

(** One run over what the queue hands out: urgent tasks, or the first [n]. *)
Definition run_queue (stopped : bool) (n : nat) : FM unit :=
  f ← get;
  match f.(_urgent) with
  | [] => modify (fun f => f <| _tasks := drop n f.(_tasks) |>) ;; run stopped (take n f.(_tasks))
  | urgent => modify (fun f => f <| _urgent := [] |>) ;; run stopped urgent
  end.

(** ** Life cycle *)
Record FSMCallerOptions : Set := mkFSMCallerOptions {
  has_log_manager : bool;
  has_fsm : bool;
  closure_queue : option ClosureQueue;
  after_shutdown : option Closure;
  has_node : bool;
  bootstrap_id : LogId
}.
Definition init (options : FSMCallerOptions) (queue_starts : bool) : FM Errno :=
  match options.(has_log_manager) && options.(has_fsm), options.(closure_queue) with
  | true, Some q =>
      modify (fun f => f <| _closure_queue := q |> <| _after_shutdown := options.(after_shutdown) |>
        <| _node := options.(has_node) |>
        <| _last_applied_index := options.(bootstrap_id).(index) |>
        <| _last_applied_term := options.(bootstrap_id).(term) |>) ;;
      if queue_starts then modify (fun f => f <| _queue_started := true |>) ;; mret OK else mret ENEG1
  | _, _ => mret EINVAL
  end.

(** [shutdown]: the queue is stopped, when it was started. *)
Definition shutdown (stop_result : Errno) (f : FSMCaller) : Errno := if f.(_queue_started) then stop_result else OK.
Definition join : FM unit := modify (fun f => f <| _queue_started := false |>).

Definition applying_index (f : FSMCaller) : Z :=
  if negb (bool_decide (f.(_cur_task) = COMMITTED)) then 0 else f.(_applying_index).
End caller.

Arguments on_task : clear implicits.
