(* ===== verification/FsmCallerProofs.v ===== *)
(** * FsmCallerProofs: every committed entry is applied once, in order

    What a commit does to the state machine, whatever the user's code does in
    [on_apply] as long as it does not roll back, where it does, and that nothing is
    applied after an error. *)

From S2P Require Import Prelude Types PeerText ClosureQueue FsmCaller.

(** ** The closures of a commit *)

(** The closure waiting for index [i], if any. *)
Definition closure_of (q : ClosureQueue) (i : Z) : option Closure := default None (closure_at q i).

(** A commit up to [c] finds its closures: all of them are in the queue, or it
    is empty, as on a follower. *)
Definition covers (q : ClosureQueue) (c : Z) : Prop := c < next_index q \/ q.(_queue) = [].

(** The closure vector of an iterator that starts at [first]. *)
Definition vector_at (out : list (option Closure)) (first i : Z) : option (option Closure) :=
  if i <? first then Some None else zget out (i - first).

Lemma closure_of_empty q i : q.(_queue) = [] -> closure_of q i = None.
Proof. unfold closure_of, closure_at, zget. intros ->. by case_bool_decide. Qed.

Lemma closure_of_before q i : i < q.(_first_index) -> closure_of q i = None.
Proof. intros Hi. unfold closure_of, closure_at, zget. by rewrite bool_decide_true by lia. Qed.

Lemma pop_run q c :
  covers q c ->
  pop_closure_until q c =
    (if bool_decide (q.(_queue) = []) || (c <? q.(_first_index)) then (mkPopResult OK [] (Some (c + 1)), q, [])
     else (mkPopResult OK (take (Z.to_nat (c - q.(_first_index) + 1)) q.(_queue)) (Some q.(_first_index)),
           mkClosureQueue (c + 1) (drop (Z.to_nat (c - q.(_first_index) + 1)) q.(_queue)), [])).
Proof.
  intros Hc. unfold pop_closure_until. destruct (bool_decide _) eqn:He; [done|]. cbn [orb].
  apply bool_decide_eq_false in He. destruct (Z.ltb_spec c (_first_index q)); [done|].
  destruct Hc as [Hc|Hc]; [|done]. unfold next_index in Hc.
  destruct (Z.ltb_spec (_first_index q + zlen (_queue q) - 1) c); [lia|]. by rewrite pop_loop_spec.
Qed.

Definition popped (q : ClosureQueue) (c : Z) : ClosureQueue := (pop_closure_until q c).1.2.

Lemma pop_covers q c :
  covers q c ->
  exists out first, pop_closure_until q c = (mkPopResult OK out (Some first), popped q c, []) /\
    forall i, i <= c -> vector_at out first i = Some (closure_of q i).
Proof.
  intros Hc. unfold popped. rewrite pop_run by done. destruct (bool_decide _) eqn:He; cbn [orb].
  { apply bool_decide_eq_true in He. exists [], (c + 1). split; [done|]. intros i Hi.
    unfold vector_at. destruct (Z.ltb_spec i (c + 1)); [|lia]. by rewrite closure_of_empty. }
  apply bool_decide_eq_false in He. destruct (Z.ltb_spec c (_first_index q)) as [Hf|Hf].
  { exists [], (c + 1). split; [done|]. intros i Hi. unfold vector_at.
    destruct (Z.ltb_spec i (c + 1)); [|lia]. by rewrite closure_of_before by lia. }
  destruct Hc as [Hc|]; [|done]. unfold next_index in Hc.
  eexists _, _. split; [done|]. intros i Hi. unfold vector_at.
  destruct (Z.ltb_spec i (_first_index q)) as [Hif|Hif]; [by rewrite closure_of_before|].
  rewrite zget_take by lia. destruct (zget_is_Some (_queue q) (i - _first_index q)) as [d Hd]; [lia|].
  unfold closure_of, closure_at. by rewrite Hd.
Qed.

Lemma popped_covers q c c' : covers q c -> covers q c' -> covers (popped q c) c'.
Proof.
  intros Hc Hc'. unfold popped. rewrite pop_run by done. destruct (bool_decide _) eqn:He; cbn [orb snd fst]; [done|].
  apply bool_decide_eq_false in He. destruct (Z.ltb_spec c (_first_index q)); cbn [fst snd]; [done|].
  destruct Hc as [Hc|]; [|done]. destruct Hc' as [Hc'|]; [|done]. left. revert Hc Hc'. unfold next_index, zlen. cbn.
  rewrite length_drop. lia.
Qed.

Lemma popped_later q c i : covers q c -> c < i -> closure_of (popped q c) i = closure_of q i.
Proof.
  intros Hc Hi. unfold popped. rewrite pop_run by done. destruct (bool_decide _) eqn:He; cbn [orb snd fst]; [done|].
  destruct (Z.ltb_spec c (_first_index q)); cbn [fst snd]; [done|]. unfold closure_of, closure_at. cbn.
  rewrite zget_drop by lia. do 2 f_equal. lia.
Qed.

Lemma popped_popped q c c' : covers q c -> covers q c' -> c <= c' -> popped (popped q c) c' = popped q c'.
Proof.
  intros Hc Hc' Hle. pose proof (popped_covers q c c' Hc Hc') as Hcov. unfold popped in Hcov |- *.
  rewrite (pop_run _ _ Hcov), !pop_run by done. destruct (bool_decide (_queue q = [])) eqn:He; cbn [orb snd fst]; [by rewrite He|].
  destruct (Z.ltb_spec c (_first_index q)); cbn [fst snd]; [by rewrite He|].
  destruct (Z.ltb_spec c' (_first_index q)); cbn [fst snd _queue _first_index]; [lia|].
  apply bool_decide_eq_false in He. destruct Hc' as [Hc'|]; [|done]. unfold next_index in Hc'.
  destruct (Z.ltb_spec c' (c + 1)) as [Hlt|Hge].
  - assert (c' = c) as -> by lia. rewrite orb_true_r. done.
  - rewrite bool_decide_false; cbn [orb fst snd].
    + rewrite drop_drop. do 2 f_equal. lia.
    + intros Hnil%(f_equal length). rewrite length_drop in Hnil. unfold zlen in Hc'. cbn in Hnil. lia.
Qed.

(** ** What one commit shows the state machine *)
Section walk.
Context `{IT : IpText, EPO : EndPointOrder}.
Variable reads : LogReads.
Variable user : UserCode.
Variables (out : list (option Closure)) (first committed : Z) (clo : Z -> option Closure).

Definition done_events (d : option Closure) (st : Errno) : list Event :=
  match d with Some c => [RunClosure c st] | None => [] end.

(** The events of one entry, given the closure that waits for it. *)
Definition entry_events (d : option Closure) (e : LogEntry) : list Event :=
  if bool_decide (e.(type) = ENTRY_TYPE_DATA) then
    Apply e :: (if (user.(on_task) e).1 then done_events d OK else [])
  else
    (if bool_decide (e.(type) = ENTRY_TYPE_CONFIGURATION) && bool_decide (e.(old_peers) = None)
     then [ConfigurationCommitted (Configuration_of (default [] e.(peers))) e.(id).(index)] else []) ++
    done_events d OK.
Definition index_events (i : Z) : list Event := from_option (entry_events (clo i)) [] (reads.(read_entry) i).

(** The events of the entries from [i] to just before [k]. *)
Definition range_events (ev : Z -> list Event) (i k : Z) : list Event := mjoin (ev <$> seqZ i (k - i)).

Lemma range_nil ev i : range_events ev i i = [].
Proof. unfold range_events. by rewrite Z.sub_diag. Qed.
Lemma range_app ev i j k : i <= j <= k -> range_events ev i k = range_events ev i j ++ range_events ev j k.
Proof.
  intros H. unfold range_events. rewrite <- join_app, <- fmap_app. do 2 f_equal.
  replace (k - i) with ((j - i) + (k - j)) by lia. rewrite seqZ_app by lia. do 2 f_equal; lia.
Qed.
Lemma range_one ev i : range_events ev i (i + 1) = ev i.
Proof. unfold range_events. replace (i + 1 - i) with 1 by lia. unfold seqZ. change (Z.to_nat 1) with 1%nat. simpl. by rewrite app_nil_r. Qed.
Lemma range_cons ev i k : i < k -> range_events ev i k = ev i ++ range_events ev (i + 1) k.
Proof. intros H. rewrite (range_app ev i (i + 1) k) by lia. by rewrite range_one. Qed.

(** The iterator on index [i], and the two ways it stops with an error. *)
Definition iter_at (i : Z) : IteratorImpl :=
  mkIteratorImpl out first i committed (if i <=? committed then reads.(read_entry) i else None) Error_default.
Definition unread_at (i : Z) : IteratorImpl :=
  mkIteratorImpl out first i committed None (mkError ERROR_TYPE_LOG ENEG1).
Definition rolled_at (i : Z) : IteratorImpl :=
  mkIteratorImpl out first i committed None (mkError ERROR_TYPE_STATE_MACHINE ESTATEMACHINE).

(** The user's code reports an error at some point. *)
Definition rolls_back : Prop :=
  (exists e n, (user.(on_task) e).2 = Rollback n) \/ (exists i n, user.(on_end) i = Some n).

(** An error rolls back one task at least ([CHECK(ntail > 0)]). *)
Definition rolls_back_some : Prop :=
  (forall e n, (user.(on_task) e).2 = Rollback n -> (0 < n)%nat) /\
  (forall i n, user.(on_end) i = Some n -> (0 < n)%nat).

(** How the walk over the committed entries ends, everything before [k] having
    been given to the state machine. *)
Inductive ends (k : Z) : IteratorImpl -> Prop :=
| ends_all : k = committed + 1 -> ends k (iter_at k)
| ends_unread : k <= committed -> reads.(read_entry) k = None -> ends k (unread_at k)
| ends_rolled n : 0 < n -> rolls_back -> ends k (rolled_at (k - n)).

Hypothesis out_holds : forall i, i <= committed -> vector_at out first i = Some (clo i).
Hypothesis some_rolled : rolls_back_some.

Definition readable (i : Z) : Prop := is_Some (reads.(read_entry) i).
Definition on_entry (i : Z) : Prop := i <= committed -> readable i.
Abbreviation applying f i := (f <| _applying_index := Z.min i committed |>).

Lemma iter_at_entry i : i <= committed -> _cur_entry (iter_at i) = reads.(read_entry) i.
Proof. intros Hi. cbn. by destruct (Z.leb_spec i committed); [|lia]. Qed.

Lemma iter_at_good i : is_good (iter_at i) = (i <=? committed).
Proof. unfold is_good, has_error. cbn. by rewrite bool_decide_true, andb_true_r. Qed.

Lemma next_run i f :
  i <= committed ->
  next reads (iter_at i) f =
    ((if (i + 1 <=? committed) && negb (bool_decide (readable (i + 1))) then unread_at (i + 1) else iter_at (i + 1)),
     (if i + 1 <=? committed then applying f (i + 1) else f), []).
Proof.
  intros Hi. unfold next. cbn -[Z.leb Z.min]. destruct (Z.leb_spec i committed); [|lia].
  unfold iter_at, unread_at, readable. destruct (Z.leb_spec (i + 1) committed); cbn -[Z.leb Z.min]; [|done].
  rewrite modify_bind. rewrite Z.min_l by lia.
  destruct (read_entry reads (i + 1)) as [e|] eqn:He; [by rewrite bool_decide_true by done|by rewrite bool_decide_false by (by intros [])].
Qed.

Lemma run_closure_run i e f :
  i <= committed -> run_closure_of (mkIteratorImpl out first i committed e Error_default) f = (tt, f, done_events (clo i) OK).
Proof.
  intros Hi. unfold run_closure_of, done. cbn [_cur_index _first_closure_index _closure].
  specialize (out_holds i Hi). unfold vector_at in out_holds. rewrite out_holds. by destruct (clo i).
Qed.

(** What the user's code does after one task, and then the caller. *)
Definition after_task (fuel : nat) (go : Then) (it : IteratorImpl) : FM IteratorImpl :=
  it ← match go with
       | Return => mret it
       | Rollback ntail => set_error_and_rollback ntail it
       | Next =>
           it ← iter_next reads it;
           if valid it then on_apply reads user fuel it
           else match user.(on_end) it.(_cur_index) with
                | Some ntail => set_error_and_rollback ntail it
                | None => mret it
                end
       end;
  iter_next reads it.

Lemma on_apply_step fuel i e f it' f' ev :
  i <= committed -> reads.(read_entry) i = Some e -> e.(type) = ENTRY_TYPE_DATA ->
  after_task fuel (user.(on_task) e).2 (iter_at i) f = (it', f', ev) ->
  (it ← on_apply reads user (S fuel) (iter_at i); iter_next reads it) f = (it', f', index_events i ++ ev).
Proof.
  intros Hi He Hd. cbn [on_apply]. rewrite iter_at_entry, He by done. unfold after_task.
  destruct (user.(on_task) e) as [runs go] eqn:Hu. cbn [snd].
  unfold index_events, entry_events. rewrite He. cbn [from_option]. rewrite Hu, bool_decide_true by done. cbn [fst].
  assert (when runs (run_closure_of (iter_at i)) f = (tt, f, if runs then done_events (clo i) OK else [])) as Hw.
  { destruct runs; [|done]. by apply run_closure_run. }
  match goal with |- (_ ← ?rest; _) _ = _ -> _ => set (m := rest) end.
  unfold mbind, M_bind, emit. rewrite Hw. fold (m f). destruct (m f) as [[it1 f1] e1].
  destruct (iter_next reads it1 f1) as [[it2 f2] e2]. intros [= -> -> <-]. by rewrite <- !app_assoc.
Qed.

Lemma rollback_run n it f :
  (0 < n)%nat -> it.(_closure) = out -> it.(_first_closure_index) = first -> it.(_committed_index) = committed ->
  set_error_and_rollback n it f =
    (rolled_at (it.(_cur_index) - (if on_data it then Z.of_nat n - 1 else Z.of_nat n)), f, []).
Proof. intros Hn. destruct n; [lia|]. destruct it. cbn. by intros -> -> ->. Qed.

Lemma iter_next_stays it f : valid it = false -> iter_next reads it f = (it, f, []).
Proof. unfold iter_next. by intros ->. Qed.

Lemma iter_next_goes it : valid it = true -> iter_next reads it = next reads it.
Proof. unfold iter_next. by intros ->. Qed.

Lemma failed_good it : has_error it = true -> is_good it = false.
Proof. unfold is_good. intros ->. apply andb_false_r. Qed.

Lemma failed_stays it f : has_error it = true -> iter_next reads it f = (it, f, []).
Proof. intros He. apply iter_next_stays. unfold valid. by rewrite failed_good. Qed.

Lemma valid_iter_at i : valid (iter_at i) = (i <=? committed) && on_data (iter_at i).
Proof. unfold valid. by rewrite iter_at_good. Qed.

(** The iterator on [k], reached from [f]; or stopped at [k]. *)
Definition walked (k : Z) (f : FSMCaller) (it' : IteratorImpl) (f' : FSMCaller) : Prop :=
  (it' = iter_at k /\ on_entry k /\ f' = applying f k) \/
  (ends k it' /\ has_error it' = true /\ exists a, f' = f <| _applying_index := a |>).

Lemma next_walked i f :
  i <= committed -> f.(_applying_index) = i ->
  exists it' f', next reads (iter_at i) f = (it', f', []) /\ walked (i + 1) f it' f'.
Proof.
  intros Hi Hf. rewrite next_run by done. eexists _, _. split; [done|].
  destruct (Z.leb_spec (i + 1) committed) as [Hle|Hgt]; cbn [andb negb].
  - destruct (bool_decide_reflect (readable (i + 1))) as [Hr|Hr]; cbn [negb]; [left; split_and!; [done|by intros _|done]|].
    right. split_and!; [|done|by eexists]. apply ends_unread; [done|].
    unfold readable in Hr. by apply eq_None_not_Some.
  - left. split_and!; [done|intros ?; lia|]. rewrite Z.min_r by lia.
    assert (f.(_applying_index) = committed) as Hc by lia. destruct f; cbn in *. by subst.
Qed.

Lemma walked_from k f a it' f' : walked k (f <| _applying_index := a |>) it' f' -> walked k f it' f'.
Proof. intros [(?&?&?)|(?&?&b&?)]; [by left|right]. split_and!; [done..|by exists b]. Qed.

Lemma walked_rolled k n f : 0 < n -> rolls_back -> walked k f (rolled_at (k - n)) f.
Proof.
  intros Hn Hu. right. split_and!; [by apply ends_rolled|done|].
  exists f.(_applying_index). by destruct f.
Qed.

(** The fields of the iterator the walk does not change. *)
Definition same_walk (it : IteratorImpl) : Prop :=
  it.(_closure) = out /\ it.(_first_closure_index) = first /\ it.(_committed_index) = committed.

Lemma after_rollback n it f :
  (0 < n)%nat -> same_walk it ->
  (it ← set_error_and_rollback n it; iter_next reads it) f =
    (rolled_at (it.(_cur_index) - (if on_data it then Z.of_nat n - 1 else Z.of_nat n)), f, []).
Proof. intros Hn (? & ? & ?). unfold mbind, M_bind. rewrite rollback_run by done. by rewrite (failed_stays (rolled_at _)). Qed.

Lemma walked_same k f it' f' : walked k f it' f' -> same_walk it'.
Proof. intros [(-> & _)|(He & _ & _)]; [done|by destruct He]. Qed.

(** When the iterator left the task and is on no other one. *)
Lemma after_last k f it1 f1 :
  walked k f it1 f1 -> valid it1 = false ->
  exists it' f',
    (it ← match user.(on_end) it1.(_cur_index) with
          | Some ntail => set_error_and_rollback ntail it1
          | None => mret it1
          end; iter_next reads it) f1 = (it', f', []) /\ walked k f it' f'.
Proof.
  intros Hw Hv. destruct (user.(on_end) it1.(_cur_index)) as [n|] eqn:Hend.
  2:{ exists it1, f1. split; [|done]. by rewrite mret_bind, iter_next_stays. }
  assert (0 < n)%nat as Hn by (by eapply some_rolled).
  assert (rolls_back) as Hr by (right; by eexists _, _).
  rewrite (after_rollback n it1 f1 Hn (walked_same _ _ _ _ Hw)). eexists _, _. split; [done|].
  assert (on_data it1 = false) as ->.
  { destruct Hw as [(-> & Hon & _)|(He & _)]; [|destruct He as [->| |]; cbn; try done].
    - rewrite valid_iter_at in Hv. apply andb_false_iff in Hv as [Hv|]; [|done]. unfold on_data, iter_at. cbn. by rewrite Hv.
    - unfold on_data, iter_at. cbn. by destruct (Z.leb_spec (committed + 1) committed); [lia|]. }
  assert (exists a, f1 = f <| _applying_index := a |>) as [a ->].
  { destruct Hw as [(_ & _ & ->)|(_ & _ & Hf)]; [by eexists|done]. }
  right. split_and!; [|done|by eexists].
  destruct Hw as [(-> & _)|(He & _)]; [by apply ends_rolled; [lia|]|].
  destruct He as [->|_|m Hm _]; cbn [_cur_index iter_at unread_at rolled_at]; try (by apply ends_rolled; [lia|]).
  rewrite <- Z.sub_add_distr. apply ends_rolled; [lia|done].
Qed.

(** What the user's code sees from the task at [i] on. *)
Lemma on_apply_walk fuel i f :
  i <= committed -> (Z.to_nat (committed - i + 1) <= fuel)%nat -> readable i ->
  on_data (iter_at i) = true -> f.(_applying_index) = i ->
  exists k it' f', (it ← on_apply reads user fuel (iter_at i); iter_next reads it) f = (it', f', range_events index_events i k) /\
    i < k <= committed + 1 /\ walked k f it' f'.
Proof.
  revert i f. induction fuel as [|fuel IH]; intros i f Hi Hfuel [e He] Hd Hf; [lia|].
  assert (e.(type) = ENTRY_TYPE_DATA) as Hty.
  { unfold on_data in Hd. rewrite iter_at_entry, He in Hd by done. by apply bool_decide_eq_true in Hd. }
  destruct (next_walked i f Hi Hf) as (it1 & f1 & Hnext & Hw).
  assert (valid (iter_at i) = true) as Hv.
  { rewrite valid_iter_at, Hd, andb_true_r. by apply Z.leb_le. }
  assert (forall k it' f' ev, after_task fuel (user.(on_task) e).2 (iter_at i) f = (it', f', ev) ->
    i < k <= committed + 1 -> walked k f it' f' -> ev = range_events index_events (i + 1) k ->
    exists k it' f', (it ← on_apply reads user (S fuel) (iter_at i); iter_next reads it) f = (it', f', range_events index_events i k) /\
      i < k <= committed + 1 /\ walked k f it' f') as Hstep.
  { intros k it' f' ev Hrun Hk Hw' ->. exists k, it', f'. rewrite (range_cons _ i) by lia.
    split; [|done]. by apply (on_apply_step fuel i e). }
  destruct ((user.(on_task) e).2) as [| |n] eqn:Hgo.
  - destruct (valid it1) eqn:Hv1.
    + destruct Hw as [(-> & Hon & ->)|(_ & Herr & _)].
      2:{ exfalso. revert Hv1. unfold valid. by rewrite failed_good. }
      pose proof Hv1 as Hv2. rewrite valid_iter_at in Hv2. apply andb_true_iff in Hv2 as [Hle%Z.leb_le Hd1].
      destruct (IH (i + 1) (applying f (i + 1))) as (k & it' & f' & Hrun & Hk & Hw'); [lia|lia|by apply Hon|done|cbn; lia|].
      apply walked_from in Hw'. apply (Hstep k it' f' (range_events index_events (i + 1) k)); [|lia|done|done].
      unfold after_task. rewrite (iter_next_goes (iter_at i)) by done.
      rewrite bind_bind. rewrite (bind_quiet _ _ _ _ _ Hnext), Hv1. done.
    + destruct (after_last _ _ _ _ Hw Hv1) as (it' & f' & Hrun & Hw').
      apply (Hstep (i + 1) it' f' []); [|lia|done|by rewrite range_nil].
      unfold after_task. rewrite (iter_next_goes (iter_at i)) by done.
      rewrite bind_bind. rewrite (bind_quiet _ _ _ _ _ Hnext), Hv1. done.
  - apply (Hstep (i + 1) it1 f1 []); [|lia|done|by rewrite range_nil].
    unfold after_task, iter_next. rewrite mret_bind, Hv. done.
  - pose proof (proj1 some_rolled e n Hgo) as Hn.
    apply (Hstep (i + 1) (rolled_at (i + 1 - Z.of_nat n)) f []); [|lia| |by rewrite range_nil].
    + unfold after_task. rewrite after_rollback by done. rewrite Hd. do 3 f_equal. cbn. lia.
    + apply walked_rolled; [lia|]. left. by eexists _, _.
Qed.

(** One round of the caller's loop. *)
Lemma entry_walk fuel i e f :
  i <= committed -> (Z.to_nat (committed - i + 1) <= fuel)%nat -> reads.(read_entry) i = Some e -> f.(_applying_index) = i ->
  exists k it' f',
    (if bool_decide (e.(type) = ENTRY_TYPE_DATA) then it ← on_apply reads user fuel (iter_at i); iter_next reads it
     else internal_entry reads (iter_at i) e) f = (it', f', range_events index_events i k) /\
    i < k <= committed + 1 /\ walked k f it' f'.
Proof.
  intros Hi Hfuel He Hf. destruct (bool_decide (e.(type) = ENTRY_TYPE_DATA)) eqn:Hd.
  { apply on_apply_walk; [done|done|by eexists| |done]. unfold on_data. by rewrite iter_at_entry, He. }
  destruct (next_walked i f Hi Hf) as (it1 & f1 & Hnext & Hw).
  exists (i + 1), it1, f1. split_and!; [|lia|lia|done]. rewrite range_one.
  unfold index_events, entry_events, internal_entry. rewrite He. cbn [from_option]. rewrite Hd.
  pose proof (run_closure_run i (_cur_entry (iter_at i)) f Hi) as Hd'. fold (iter_at i) in Hd'. cbn [_cur_entry iter_at] in Hd'.
  fold (iter_at i) in Hd'. unfold mbind, M_bind.
  destruct (_ && _); unfold emit, skip; rewrite Hd', Hnext; by rewrite !app_nil_r.
Qed.

(** The end of the walk, the whole of it when there was no error. *)
Definition walk_ends (k : Z) (f : FSMCaller) (it' : IteratorImpl) (f' : FSMCaller) : Prop :=
  ends k it' /\ (has_error it' = false -> k = committed + 1 /\ it' = iter_at k /\ f' = applying f committed) /\
  exists a, f' = f <| _applying_index := a |>.

Lemma walk_ends_from k f a it' f' : walk_ends k (f <| _applying_index := a |>) it' f' -> walk_ends k f it' f'.
Proof. intros (He & Hg & b & ->). split_and!; [done|done|by exists b]. Qed.

Lemma apply_loop_failed fuel it f : has_error it = true -> apply_loop reads user fuel it f = (it, f, []).
Proof. intros He. destruct fuel; cbn [apply_loop]; by rewrite failed_good. Qed.

Lemma apply_loop_walk fuel i f :
  i <= committed + 1 -> on_entry i -> (Z.to_nat (committed - i + 1) <= fuel)%nat -> f.(_applying_index) = Z.min i committed ->
  exists k it' f', apply_loop reads user fuel (iter_at i) f = (it', f', range_events index_events i k) /\
    i <= k <= committed + 1 /\ walk_ends k f it' f'.
Proof.
  revert i f. induction fuel as [|fuel IH]; intros i f Hi Hon Hfuel Hf; cbn [apply_loop]; rewrite iter_at_good;
    destruct (Z.leb_spec i committed) as [Hle|Hgt]; try lia.
  1,3: assert (i = committed + 1) as -> by lia; exists (committed + 1), (iter_at (committed + 1)), f; rewrite range_nil;
    split_and!; [done|lia|lia|]; split_and!; [by apply ends_all| |exists f.(_applying_index); by destruct f];
    intros _; split_and!; [done..|]; rewrite Z.min_id; rewrite Z.min_r in Hf by lia; destruct f; cbn in *; by subst.
  rewrite iter_at_entry by done. destruct (Hon Hle) as [e He]. rewrite He.
  destruct (entry_walk (S fuel) i e f Hle Hfuel He) as (j & it1 & f1 & Hrun & Hj & Hw); [lia|].
  assert (exists k it' f', apply_loop reads user fuel it1 f1 = (it', f', range_events index_events j k) /\
    j <= k <= committed + 1 /\ walk_ends k f it' f') as (k & it' & f' & Hloop & Hk & He').
  { destruct Hw as [(-> & Honj & ->)|(Hends & Herr & a & ->)].
    - destruct (IH j (applying f j)) as (k & it' & f' & ? & ? & ?%walk_ends_from); [lia|done|lia|done|]. by exists k, it', f'.
    - exists j, it1, (f <| _applying_index := a |>). rewrite apply_loop_failed, range_nil by done.
      split_and!; [done|lia|lia|]. split_and!; [done|by rewrite Herr|by exists a]. }
  exists k, it', f'. split_and!; [|lia|lia|done]. rewrite (range_app _ i j k) by lia.
  by apply (bind_run _ _ _ _ _ _ _ _ _ Hrun).
Qed.

(** The closures run with the error that stopped the walk. *)
Lemma rest_loop_run n i it f :
  same_walk it -> first <= i -> i + Z.of_nat n = committed + 1 ->
  rest_loop n i it f = (tt, f, range_events (fun j => done_events (clo j) it.(_it_error).(status)) i (committed + 1)).
Proof.
  intros (Hout & Hfirst & Hcom). revert i. induction n as [|n IH]; intros i Hi Hn; cbn [rest_loop].
  { replace (committed + 1) with i by lia. by rewrite range_nil. }
  rewrite Hout, Hfirst. assert (zget out (i - first) = Some (clo i)) as ->.
  { specialize (out_holds i). unfold vector_at in out_holds. destruct (Z.ltb_spec i first); [lia|]. apply out_holds. lia. }
  rewrite (range_cons _ i) by lia. apply (bind_run _ _ _ tt f); [by destruct (clo i)|]. apply IH; lia.
Qed.

Lemma range_silent ev i k : (forall j, i <= j < k -> ev j = []) -> range_events ev i k = [].
Proof.
  intros Hev. destruct (Z.le_ge_cases i k) as [Hik|Hik].
  2:{ unfold range_events. by rewrite seqZ_nil by lia. }
  revert Hev. replace k with (i + Z.of_nat (Z.to_nat (k - i))) by lia. generalize (Z.to_nat (k - i)) as n.
  clear Hik. intros n. revert i. induction n as [|n IH]; intros i Hev; [by rewrite Z.add_0_r, range_nil|].
  rewrite range_cons by lia. rewrite Hev by lia. cbn [app].
  replace (i + Z.of_nat (S n)) with (i + 1 + Z.of_nat n) in * by lia. apply IH. intros j Hj. apply Hev. lia.
Qed.

Lemma rest_run it f :
  same_walk it -> it.(_cur_index) <= committed + 1 ->
  run_the_rest_closure_with_error it f =
    (tt, f, range_events (fun j => done_events (clo j) it.(_it_error).(status)) it.(_cur_index) (committed + 1)).
Proof.
  intros Hs Hc. unfold run_the_rest_closure_with_error. pose proof Hs as (Hout & Hfirst & Hcom). rewrite Hcom, Hfirst.
  assert (forall j, j < first -> j <= committed -> clo j = None) as Hnone.
  { intros j Hj Hjc. specialize (out_holds j Hjc). unfold vector_at in out_holds. destruct (Z.ltb_spec j first); [|lia].
    congruence. }
  destruct (Z.le_ge_cases first (committed + 1)) as [Hle|Hge].
  - rewrite rest_loop_run by (done || lia).
    rewrite (range_app _ (_cur_index it) (Z.max (_cur_index it) first) (committed + 1)) by lia.
    rewrite (range_silent _ (_cur_index it)); [done|]. intros j Hj. rewrite Hnone by lia. done.
  - replace (Z.to_nat (committed - Z.max (_cur_index it) first + 1)) with 0%nat by lia. cbn [rest_loop].
    rewrite range_silent; [done|]. intros j Hj. rewrite Hnone by lia. done.
Qed.
End walk.

Section commits.
Context `{IT : IpText, EPO : EndPointOrder}.
Variable reads : LogReads.
Variable user : UserCode.

(** What the state machine is shown of the entries from [i] to just before [k],
    by a caller whose closures are those of [q]. *)
Definition shown (q : ClosureQueue) (i k : Z) : list Event :=
  range_events (index_events reads user (closure_of q)) i k.

(** What follows an error: it is reported, and the closures from [cur] on are
    run with its status. *)
Definition failure_events (node : bool) (err : Error) (q : ClosureQueue) (cur c : Z) : list Event :=
  [FsmOnError err] ++ (if node then [NodeOnError err] else []) ++
  range_events (fun j => done_events (closure_of q j) err.(status)) cur (c + 1).

(** The caller after a commit up to [c] that applied up to [last]. *)
Definition committed_to (f : FSMCaller) (c last a : Z) (err : Error) : FSMCaller :=
  f <| _closure_queue := popped f.(_closure_queue) c |> <| _applying_index := a |> <| _error := err |>
    <| _last_applied_index := c |> <| _last_applied_term := reads.(read_term) last |>.

(** How a commit up to [c] that stopped before [k] ended: the error and the
    index the iterator is left at. *)
Inductive stopped (c k : Z) : Error -> Z -> Prop :=
| stopped_unread : k <= c -> reads.(read_entry) k = None -> stopped c k (mkError ERROR_TYPE_LOG ENEG1) k
| stopped_rolled n : 0 < n -> rolls_back user -> stopped c k (mkError ERROR_TYPE_STATE_MACHINE ESTATEMACHINE) (k - n).

Lemma set_error_fresh f e :
  f.(_error) = Error_default ->
  set_error e f = (tt, f <| _error := e |>, [FsmOnError e] ++ (if f.(_node) then [NodeOnError e] else [])).
Proof. intros He. unfold set_error. rewrite get_bind, He. cbn. by destruct (_node f). Qed.

Lemma first_walk out first c clo f la :
  (forall i, i <= c -> vector_at out first i = Some (clo i)) -> rolls_back_some user -> la < c ->
  exists k it f', (it ← IteratorImpl_new reads out first la c; apply_loop reads user (Z.to_nat (c - la)) it) f =
      (it, f', range_events (index_events reads user clo) (la + 1) k) /\
    la < k <= c + 1 /\ walk_ends reads user out first c k f it f'.
Proof.
  intros Hout Hr Hla. change (IteratorImpl_new reads out first la c) with (next reads (iter_at reads out first c la)).
  pose proof (next_run reads out first c la f ltac:(lia)) as Hnext.
  destruct (Z.leb_spec (la + 1) c) as [Hle|]; [cbn [andb] in Hnext|lia].
  rewrite (bind_quiet _ _ _ _ _ Hnext).
  destruct (bool_decide_reflect (readable reads (la + 1))) as [Hread|Hread]; cbn [negb].
  - destruct (apply_loop_walk reads user out first c clo Hout Hr (Z.to_nat (c - la)) (la + 1)
      (f <| _applying_index := Z.min (la + 1) c |>)) as (k & it & f' & Hrun & Hk & Hend);
      [lia|by intros _|lia|done|]. exists k, it, f'. split_and!; [done|lia|lia|]. by eapply walk_ends_from.
  - eexists (la + 1), _, _. rewrite apply_loop_failed, range_nil by done. split_and!; [done|lia|lia|].
    split_and!; [|intros Hf; discriminate Hf|by eexists]. apply ends_unread; [done|]. by apply eq_None_not_Some.
Qed.

Lemma ends_stopped out first c k it :
  ends reads user out first c k it -> has_error it = true ->
  exists err cur, stopped c k err cur /\ it = mkIteratorImpl out first cur c None err.
Proof.
  intros He Herr. destruct He as [->|Hk Hr|n Hn Hr]; [done| |].
  - eexists _, k. split; [by apply stopped_unread|done].
  - eexists _, _. split; [by apply (stopped_rolled _ _ n)|done].
Qed.

(** What a commit does once the walk is over. *)
Definition finish_commit (c : Z) (it : IteratorImpl) : FM unit :=
  when (has_error it) (set_error it.(_it_error) ;; run_the_rest_closure_with_error it) ;;
  modify (fun f => f <| _last_applied_index := c |> <| _last_applied_term := reads.(read_term) (it.(_cur_index) - 1) |>) ;;
  emit (SetAppliedId (mkLogId (it.(_cur_index) - 1) (reads.(read_term) (it.(_cur_index) - 1)))).

Definition finished (f : FSMCaller) (c last : Z) : FSMCaller :=
  f <| _last_applied_index := c |> <| _last_applied_term := reads.(read_term) last |>.

Lemma finish_clean c it f :
  has_error it = false ->
  finish_commit c it f = (tt, finished f c (it.(_cur_index) - 1),
    [SetAppliedId (mkLogId (it.(_cur_index) - 1) (reads.(read_term) (it.(_cur_index) - 1)))]).
Proof. unfold finish_commit. by intros ->. Qed.

Lemma finish_failed out first c q f it :
  (forall i, i <= c -> vector_at out first i = Some (closure_of q i)) -> same_walk out first c it ->
  f.(_error) = Error_default -> has_error it = true -> it.(_cur_index) <= c + 1 ->
  finish_commit c it f = (tt, finished (f <| _error := it.(_it_error) |>) c (it.(_cur_index) - 1),
    failure_events f.(_node) it.(_it_error) q it.(_cur_index) c ++
    [SetAppliedId (mkLogId (it.(_cur_index) - 1) (reads.(read_term) (it.(_cur_index) - 1)))]).
Proof.
  intros Hout Hs He Herr Hc. unfold finish_commit. rewrite Herr. cbn [when].
  unfold mbind, M_bind. rewrite set_error_fresh by done. rewrite (rest_run out first c (closure_of q)) by done.
  unfold failure_events. cbv beta iota zeta delta [modify emit]. rewrite app_nil_l, <- !app_assoc. done.
Qed.

(** One commit, in every case. *)
Lemma do_committed_run f c :
  f.(_error) = Error_default -> f.(_last_applied_index) < c -> covers f.(_closure_queue) c -> rolls_back_some user ->
  let q := f.(_closure_queue) in let la := f.(_last_applied_index) in
  (do_committed reads user c f =
     (tt, committed_to f c c c Error_default, shown q (la + 1) (c + 1) ++ [SetAppliedId (mkLogId c (reads.(read_term) c))])) \/
  (exists k err cur a, la < k <= c + 1 /\ stopped c k err cur /\
   do_committed reads user c f =
     (tt, committed_to f c (cur - 1) a err,
      shown q (la + 1) k ++ failure_events f.(_node) err q cur c ++ [SetAppliedId (mkLogId (cur - 1) (reads.(read_term) (cur - 1)))])).
Proof.
  intros He Hla Hcov Hr q la.
  destruct (pop_covers _ _ Hcov) as (out & first & Hpop & Hout).
  set (f1 := f <| _closure_queue := popped q c |>).
  destruct (first_walk out first c (closure_of q) f1 la Hout Hr Hla) as (k & it & f' & Hrun & Hk & Hends & Hgood & a & Hf').
  assert (do_committed reads user c f =
    (it ← (it ← IteratorImpl_new reads out first la c; apply_loop reads user (Z.to_nat (c - la)) it); finish_commit c it) f1) as ->.
  { unfold do_committed. rewrite get_bind, He. change (ok (status Error_default)) with true. cbn [negb].
    fold la. destruct (Z.leb_spec c la); [lia|]. rewrite Hpop. rewrite modify_bind. fold q. rewrite bind_bind. by rewrite (bind_quiet _ _ _ tt f1 eq_refl). }
  subst f'. destruct (has_error it) eqn:Herr.
  - right. destruct (ends_stopped _ _ _ _ _ Hends Herr) as (err & cur & Hst & ->).
    assert (cur <= k) as Hcur by (destruct Hst; lia).
    exists k, err, cur, a. split_and!; [lia|lia|done|].
    apply (bind_run _ _ _ _ _ _ _ _ _ Hrun). rewrite (finish_failed out first c q) by (done || (cbn; lia)). done.
  - left. destruct (Hgood eq_refl) as (-> & -> & Hf'').
    erewrite (bind_run _ _ _ _ _ _ _ _ _ Hrun) by (by apply finish_clean). rewrite Hf''.
    cbn [_cur_index iter_at]. replace (c + 1 - 1) with c by lia.
    unfold committed_to, finished. rewrite <- He, Z.min_id. by destruct f.
Qed.

Lemma clean_some : ~ rolls_back user -> rolls_back_some user.
Proof. intros Hn. split; intros x n Hx; destruct Hn; [left|right]; by eexists _, _. Qed.

Lemma do_committed_clean f c :
  f.(_error) = Error_default -> f.(_last_applied_index) < c -> covers f.(_closure_queue) c ->
  ~ rolls_back user -> (forall i, f.(_last_applied_index) < i <= c -> readable reads i) ->
  do_committed reads user c f =
    (tt, committed_to f c c c Error_default,
     shown f.(_closure_queue) (f.(_last_applied_index) + 1) (c + 1) ++ [SetAppliedId (mkLogId c (reads.(read_term) c))]).
Proof.
  intros He Hla Hcov Hn Hread.
  destruct (do_committed_run f c He Hla Hcov (clean_some Hn)) as [Hrun|(k & err & cur & a & Hk & Hst & _)]; [done|].
  destruct Hst as [Hkc Hnone|n Hpos Hr]; [|done].
  destruct (Hread k ltac:(lia)) as [e He']. congruence.
Qed.

(** C13: a commit up to [c] of a caller that has no error, whose closure queue covers
    [c], when every entry up to [c] can be read and the user's code never rolls back:
    the state machine is shown exactly the entries after the last applied one up to
    [c], each once and in the order of the log: a task is given to [on_apply], a
    configuration that has left the joint stage is announced, and the closure that
    waits for an entry is run (by the user's code, when it is a task). Afterwards [c]
    is the last applied index, with its term. [on_apply] may return before it has gone
    through the tasks it was given, which raft.h says is a critical error that is
    reported: the code reports none, moves past the task [on_apply] returned on and
    calls it again with the next one, and the theorem holds of these runs too. *)
Theorem committed_entries_applied f c :
  f.(_error) = Error_default -> f.(_last_applied_index) < c -> covers f.(_closure_queue) c ->
  ~ rolls_back user -> (forall i, f.(_last_applied_index) < i <= c -> is_Some (reads.(read_entry) i)) ->
  do_committed reads user c f =
    (tt, f <| _closure_queue := popped f.(_closure_queue) c |> <| _applying_index := c |>
           <| _last_applied_index := c |> <| _last_applied_term := reads.(read_term) c |>,
     range_events (index_events reads user (closure_of f.(_closure_queue))) (f.(_last_applied_index) + 1) (c + 1) ++
     [SetAppliedId (mkLogId c (reads.(read_term) c))]).
Proof.
  intros He Hla Hcov Hn Hread. rewrite do_committed_clean by done. unfold committed_to. rewrite <- He. by destruct f.
Qed.

(** When an entry cannot be read, or the user's code reports an error and
    rolls back [n] tasks, the walk stops there: everything before was shown in
    order, the error is reported to the state machine and to the node, every
    closure from the first entry that counts as not applied on is run with it,
    and the log manager is told the entry before that one.  The last applied
    index the caller publishes is [c] all the same. *)
Theorem apply_stops_at_error f c f' ev :
  f.(_error) = Error_default -> f.(_last_applied_index) < c -> covers f.(_closure_queue) c -> rolls_back_some user ->
  do_committed reads user c f = (tt, f', ev) -> f'.(_error) <> Error_default ->
  exists k cur, f.(_last_applied_index) < k <= c + 1 /\
    ((f'.(_error) = mkError ERROR_TYPE_LOG ENEG1 /\ k <= c /\ cur = k /\ reads.(read_entry) k = None) \/
     (f'.(_error) = mkError ERROR_TYPE_STATE_MACHINE ESTATEMACHINE /\ cur < k /\ rolls_back user)) /\
    ev = range_events (index_events reads user (closure_of f.(_closure_queue))) (f.(_last_applied_index) + 1) k ++
         [FsmOnError f'.(_error)] ++ (if f.(_node) then [NodeOnError f'.(_error)] else []) ++
         range_events (fun j => done_events (closure_of f.(_closure_queue) j) f'.(_error).(status)) cur (c + 1) ++
         [SetAppliedId (mkLogId (cur - 1) (reads.(read_term) (cur - 1)))] /\
    f'.(_last_applied_index) = c.
Proof.
  intros He Hla Hcov Hr Hrun Hf'.
  destruct (do_committed_run f c He Hla Hcov Hr) as [Hrun'|(k & err & cur & a & Hk & Hst & Hrun')];
    rewrite Hrun' in Hrun; injection Hrun as <- <-; cbn in Hf' |- *; [done|].
  exists k, cur. unfold shown, failure_events. split; [lia|]. rewrite <- !app_assoc.
  split; [destruct Hst as [Hkc Hnone|n Hpos Hrb]; [left|right]; split_and!; (done || lia)|done].
Qed.

(** *** After an error *)

(** The caller has reported an error. *)
Definition broken (f : FSMCaller) : Prop :=
  f.(_error).(error_type) <> ERROR_TYPE_NONE /\ f.(_error).(status) <> OK.

(** Events that neither show the state machine an entry or a snapshot nor
    report an error. *)
Definition quiet (e : Event) : Prop :=
  match e with
  | Apply _ | ConfigurationCommitted _ _ | FsmOnSnapshotSave _ | FsmOnSnapshotLoad _ | SaveSnapshotStart _ _
  | FsmOnError _ | NodeOnError _ | SetAppliedId _ => False
  | RunClosure _ st => st = EINVAL
  | _ => True
  end.

(** What an error freezes. *)
Definition frozen (f f' : FSMCaller) : Prop :=
  f'.(_error) = f.(_error) /\ f'.(_last_applied_index) = f.(_last_applied_index) /\
  f'.(_last_applied_term) = f.(_last_applied_term) /\ f'.(_closure_queue) = f.(_closure_queue).
#[local] Instance frozen_preorder : PreOrder frozen.
Proof. split; [by intros f|]. intros f g h (?&?&?&?) (?&?&?&?). split_and!; congruence. Qed.

Definition stuck (m : FM unit) : Prop := forall f, broken f -> frozen f (state_of (m f)) /\ Forall quiet (events_of (m f)).

Lemma stuck_bind m (k : unit -> FM unit) : stuck m -> stuck (k tt) -> stuck (m ≫= k).
Proof.
  intros Hm Hk f Hf. destruct (Hm f Hf) as [Hr Hq]. unfold mbind, M_bind, state_of, events_of in *.
  destruct (m f) as [[[] f1] e1]. cbn in *. assert (broken f1) as Hf1.
  { destruct Hr as (He & _). unfold broken. by rewrite He. }
  destruct (Hk f1 Hf1) as [Hr' Hq']. unfold state_of, events_of in *. destruct (k tt f1) as [[b f2] e2]. cbn in *.
  split; [by transitivity f1|by apply Forall_app].
Qed.

Lemma stuck_skip : stuck skip.
Proof. intros f _. split; [by apply reflexivity|constructor]. Qed.
Lemma stuck_cur_task t : stuck (set_cur_task t).
Proof. intros f _. by split; [|constructor]. Qed.
Lemma stuck_emit e : quiet e -> stuck (emit e).
Proof. intros He f _. split; [by apply reflexivity|by repeat constructor]. Qed.

Lemma broken_not_ok f : broken f -> ok f.(_error).(status) = false.
Proof. intros [_ H]. by apply bool_decide_eq_false. Qed.

Lemma stuck_commit c : stuck (apply_committed reads user c).
Proof.
  unfold apply_committed. destruct (0 <=? c); cbn [when]; [|apply stuck_skip].
  apply stuck_bind; [apply stuck_cur_task|]. intros f Hf. unfold do_committed. rewrite get_bind, broken_not_ok by done.
  by apply stuck_skip.
Qed.

Lemma stuck_set_error e : stuck (set_error e).
Proof.
  intros f Hf. unfold set_error. rewrite get_bind. rewrite bool_decide_false by apply Hf. by apply stuck_skip.
Qed.

Lemma stuck_pass done (k : FM unit) : stuck (pass ← pass_by_status done; when pass k).
Proof.
  intros f Hf. unfold pass_by_status, mbind, M_bind, get. rewrite broken_not_ok by done. cbn.
  split; [by apply reflexivity|by repeat constructor].
Qed.

Lemma stuck_task snapshots t : stuck (do_task reads snapshots user t).
Proof.
  destruct t; cbn [do_task]; try (by apply stuck_emit); try (by apply stuck_skip);
    try (apply stuck_bind; [apply stuck_cur_task|]); try (by apply stuck_emit); try apply stuck_set_error; try apply stuck_pass.
  by apply stuck_bind; apply stuck_emit.
Qed.

Lemma stuck_run_loop snapshots batch tasks max counter : stuck (run_loop reads snapshots user batch tasks max counter).
Proof.
  revert max counter. induction tasks as [|t tasks IH]; intros max counter; cbn [run_loop]; [apply stuck_commit|].
  destruct t; repeat match goal with
    | |- stuck (_ ≫= _) => apply stuck_bind
    | |- stuck (if ?b then _ else _) => destruct b
    | |- stuck (let '(_, _) := (if ?b then _ else _) in _) => destruct b
    | |- stuck (apply_committed _ _ _) => apply stuck_commit
    | |- stuck (do_task _ _ _ _) => apply stuck_task
    end; apply IH.
Qed.

(** C30: an error is final.  Once the caller has one, a run over any tasks, of
    any size and order, shows the state machine no entry and no snapshot,
    reports no second error, runs the closures of snapshots with [EINVAL], and
    leaves the error, the last applied index and the waiting closures as they
    are. *)
Theorem error_is_final snapshots batch f tasks f' ev :
  f.(_error).(error_type) <> ERROR_TYPE_NONE -> f.(_error).(status) <> OK ->
  run reads snapshots user batch false tasks f = (tt, f', ev) ->
  Forall quiet ev /\ f'.(_error) = f.(_error) /\ f'.(_last_applied_index) = f.(_last_applied_index) /\
  f'.(_last_applied_term) = f.(_last_applied_term) /\ f'.(_closure_queue) = f.(_closure_queue).
Proof.
  intros Ht Hs Hrun. assert (stuck (run reads snapshots user batch false tasks)) as Hstuck.
  { unfold run. apply stuck_bind; [apply stuck_run_loop|apply stuck_cur_task]. }
  destruct (Hstuck f (conj Ht Hs)) as [Hf Hq]. rewrite Hrun in Hf, Hq. by split.
Qed.
End commits.
