(* ===== verification/FsmCallerBatch.v ===== *)
(** * FsmCallerBatch: gathering commits is invisible

    The queue's handler gathers commits and applies them together.  To the state
    machine, to the closures and to the caller's state this is the same as
    running every task by itself, in order, as long as the user's code does not roll
    back and the log can be read.  Two states are equivalent when they
    differ at most in [_cur_task], which only [describe] reads. *)

From S2P Require Import Prelude Types PeerText ClosureQueue FsmCaller FsmCallerProofs.

#[export] Instance FSMCaller_equiv : Equiv FSMCaller := fun f g => f <| _cur_task := IDLE |> = g <| _cur_task := IDLE |>.
#[export] Instance FSMCaller_equivalence : Equivalence (≡@{FSMCaller}).
Proof. unfold equiv, FSMCaller_equiv. split; [by intros f|by intros f g ->|by intros f g h -> ->]. Qed.

Lemma equiv_cur_task f t : f <| _cur_task := t |> ≡ f.
Proof. done. Qed.

Lemma equiv_view f g : f ≡ g -> exists t, g = f <| _cur_task := t |>.
Proof.
  intros H. exists g.(_cur_task). destruct f, g. injection H as -> -> -> -> -> -> -> -> -> ->. done.
Qed.

(** Events other than the report to the log manager, of which a batch makes one. *)
Definition shows (e : Event) : Prop := match e with SetAppliedId _ => False | _ => True end.
#[export] Instance shows_dec e : Decision (shows e).
Proof. destruct e; cbn; apply _. Defined.

(** Two runs alike: equivalent states and the same events. *)
Definition alike (r1 r2 : unit * FSMCaller * list Event) : Prop :=
  state_of r1 ≡ state_of r2 /\ filter shows (events_of r1) = filter shows (events_of r2).
#[export] Instance alike_equivalence : Equivalence alike.
Proof.
  unfold alike. split; [done|intros r s [? ?]; by split|intros r s t [? ?] [? ?]].
  split; [by etransitivity|congruence].
Qed.

(** An operation that does not look at [_cur_task]. *)
Definition blind (m : FM unit) : Prop := forall f g, f ≡ g -> alike (m f) (m g).

Lemma alike_bind m1 m2 (k1 k2 : unit -> FM unit) f g :
  alike (m1 f) (m2 g) -> (forall f' g', f' ≡ g' -> f' = state_of (m1 f) -> alike (k1 tt f') (k2 tt g')) ->
  alike ((m1 ≫= k1) f) ((m2 ≫= k2) g).
Proof.
  unfold alike, mbind, M_bind, state_of, events_of. intros [Hs He] Hk.
  destruct (m1 f) as [[[] f1] e1]. destruct (m2 g) as [[[] g1] e2]. cbn in *.
  destruct (Hk f1 g1 Hs eq_refl) as [Hs' He'].
  destruct (k1 tt f1) as [[u1 f2] e3]. destruct (k2 tt g1) as [[u2 g2] e4]. cbn in *.
  split; [done|]. by rewrite !filter_app, He, He'.
Qed.

Lemma blind_bind m (k : unit -> FM unit) : blind m -> blind (k tt) -> blind (m ≫= k).
Proof. intros Hm Hk f g Hfg. apply alike_bind; [by apply Hm|]. intros f' g' Hfg' _. by apply Hk. Qed.
Lemma blind_emit e : blind (emit e).
Proof. intros f g Hfg. by split. Qed.
Lemma blind_skip : blind skip.
Proof. intros f g Hfg. by split. Qed.
Lemma blind_cur_task t : blind (set_cur_task t).
Proof. intros f g Hfg. by split. Qed.
Lemma blind_when (b : bool) m : blind m -> blind (when b m).
Proof. by destruct b; [|intros _; apply blind_skip]. Qed.
Lemma blind_get (k : FSMCaller -> FM unit) :
  (forall f t, k (f <| _cur_task := t |>) = k f) -> (forall f, blind (k f)) -> blind (get ≫= k).
Proof.
  intros Hk Hb f g Hfg. rewrite !get_bind. pose proof (equiv_view f g Hfg) as [t Hg]. subst g.
  rewrite Hk. by apply Hb.
Qed.
Lemma blind_modify (u : FSMCaller -> FSMCaller) :
  (forall f t, u (f <| _cur_task := t |>) ≡ u f) -> blind (modify u).
Proof. intros Hu f g Hfg. pose proof (equiv_view f g Hfg) as [t ->]. split; [|done]. symmetry. apply Hu. Qed.

Section batch.
Context `{IT : IpText, EPO : EndPointOrder}.
Variable reads : LogReads.
Variable snapshots : Closure -> SnapshotAnswers.
Variable user : UserCode.
Variable batch : Z.

Lemma blind_set_error e : blind (set_error e).
Proof.
  apply blind_get; [by intros [] t|]. intros f. destruct (negb _); [apply blind_skip|].
  apply blind_bind; [by apply blind_modify|]. apply blind_bind; [apply blind_emit|apply blind_when, blind_emit].
Qed.

Ltac by_blind := repeat first
  [ apply blind_skip | apply blind_emit | apply blind_cur_task | apply blind_set_error | apply blind_when
  | apply blind_bind | (apply blind_modify; by intros []) | (apply blind_get; [by intros [] ?|intros ?])
  | match goal with
    | |- blind (if ?b then _ else _) => destruct b
    | |- blind (match ?x with _ => _ end) => destruct x
    end ].

Lemma blind_snapshot_save d : blind (do_snapshot_save reads snapshots d).
Proof. unfold do_snapshot_save. by_blind. Qed.

Lemma blind_snapshot_load d : blind (do_snapshot_load snapshots user d).
Proof. unfold do_snapshot_load, check. by_blind. Qed.

Lemma blind_pass d (m : FM unit) : blind m -> blind (pass ← pass_by_status d; when pass m).
Proof.
  intros Hm f g Hfg. pose proof (equiv_view f g Hfg) as [t Hg]. unfold pass_by_status, mbind, M_bind, get.
  subst g. cbn [_error set_field FSMCaller_eta]. change (_error (f <| _cur_task := t |>)) with (_error f).
  destruct (negb (ok (status (_error f)))); cbn; [by split|].
  destruct (Hm _ _ Hfg) as [Hs He]. unfold state_of, events_of in *.
  destruct (m f) as [[[] f1] e1]. destruct (m (f <| _cur_task := t |>)) as [[[] g1] e2]. by split.
Qed.

Lemma blind_task t : blind (do_task reads snapshots user t).
Proof.
  destruct t; cbn [do_task do_leader_stop do_leader_start do_start_following do_stop_following do_on_error]; by_blind;
    apply blind_pass; [apply blind_snapshot_save|apply blind_snapshot_load].
Qed.

(** *** The states a run goes through

    [C] holds of the indexes that are committed, none past [N], up to which the
    log can be read. *)
Variables (C : Z -> Prop) (N : Z).
Hypothesis committed_read : forall c, C c -> c <= N.
Hypothesis log_read : forall i, 0 < i <= N -> is_Some (reads.(read_entry) i).
Hypothesis user_clean : ~ rolls_back user.

Definition error_known (e : Error) : Prop := e = Error_default \/ e.(status) <> OK.
Record fit (f : FSMCaller) : Prop := mkFit {
  fit_applied : 0 <= f.(_last_applied_index);
  fit_queue : forall c, C c -> covers f.(_closure_queue) c;
  fit_error : error_known f.(_error)
}.

Definition valid_task (t : ApplyTask) : Prop :=
  match t with
  | TCommitted c => C c
  | TSnapshotLoad d => 0 <= (snapshots d).(load_meta).2.(last_included_index)
  | TError e => e.(status) <> OK
  | _ => True
  end.

Definition keeps (m : FM unit) : Prop := forall f, fit f -> fit (state_of (m f)).
Lemma keeps_bind m (k : unit -> FM unit) : keeps m -> keeps (k tt) -> keeps (m ≫= k).
Proof.
  intros Hm Hk f Hf. specialize (Hm f Hf). unfold mbind, M_bind, state_of in *. destruct (m f) as [[[] f1] e1]. cbn in *.
  specialize (Hk f1 Hm). by destruct (k tt f1) as [[b f2] e2].
Qed.
Lemma keeps_get (k : FSMCaller -> FM unit) : (forall f, fit f -> fit (state_of (k f f))) -> keeps (get ≫= k).
Proof. intros Hk f Hf. rewrite get_bind. by apply Hk. Qed.
Lemma keeps_skip : keeps skip.
Proof. by intros f Hf. Qed.
Lemma keeps_emit e : keeps (emit e).
Proof. by intros f Hf. Qed.
Lemma keeps_cur_task t : keeps (set_cur_task t).
Proof. intros f [? ? ?]. by split. Qed.
Lemma keeps_when (b : bool) m : keeps m -> keeps (when b m).
Proof. by destruct b; [|intros _; apply keeps_skip]. Qed.

Lemma keeps_set_error e : e.(status) <> OK -> keeps (set_error e).
Proof.
  intros He. apply keeps_get. intros f Hf. destruct (negb _); [done|]. destruct Hf as [Ha Hq _].
  destruct (_node f) eqn:Hn; split; unfold state_of; cbn; rewrite ?Hn; try done; by right.
Qed.

Lemma keeps_snapshot_save d : keeps (do_snapshot_save reads snapshots d).
Proof. apply keeps_get. intros f Hf. unfold mbind, M_bind, emit. by destruct (writer_starts (snapshots d) _). Qed.

Lemma keeps_snapshot_load d :
  0 <= (snapshots d).(load_meta).2.(last_included_index) -> keeps (do_snapshot_load snapshots user d).
Proof.
  intros Hd. unfold do_snapshot_load. destruct (negb _); [apply keeps_emit|].
  destruct (load_meta (snapshots d)) as [rc meta]. cbn in Hd.
  destruct (ok rc) eqn:Hrc; cbn [negb].
  2:{ apply keeps_bind; [apply keeps_emit|]. apply keeps_when, keeps_set_error. by apply bool_decide_eq_false in Hrc. }
  intros f Hf. rewrite get_bind. destruct (logid_gtb _ _); [done|]. revert f Hf.
  change (keeps (emit (FsmOnSnapshotLoad d) ;;
    if negb (ok (on_snapshot_load user d)) then
      emit (RunClosure d (on_snapshot_load user d)) ;; set_error (mkError ERROR_TYPE_STATE_MACHINE (on_snapshot_load user d))
    else (match meta.(meta_old_peers) with
          | [] => let '(c, checks) := add_meta_peers meta.(meta_peers) [] in
                  check checks ;; emit (ConfigurationCommitted c meta.(last_included_index))
          | _ => skip
          end) ;;
         modify (fun f => f <| _last_applied_index := meta.(last_included_index) |>
                            <| _last_applied_term := meta.(last_included_term) |>) ;;
         emit (RunClosure d OK))).
  apply keeps_bind; [apply keeps_emit|]. destruct (ok (on_snapshot_load user d)) eqn:Hl; cbn [negb].
  - apply keeps_bind; [|apply keeps_bind; [by intros f [? ? ?]; split|apply keeps_emit]].
    destruct (meta_old_peers meta); [|apply keeps_skip]. destruct (add_meta_peers _ _) as [c checks].
    apply keeps_bind; [destruct checks; [apply keeps_skip|apply keeps_emit]|apply keeps_emit].
  - apply keeps_bind; [apply keeps_emit|]. apply keeps_set_error. by apply bool_decide_eq_false in Hl.
Qed.

Lemma keeps_pass d m : keeps m -> keeps (pass ← pass_by_status d; when pass m).
Proof.
  intros Hm f Hf. unfold pass_by_status, mbind, M_bind, get. destruct (negb _); cbn; [done|].
  specialize (Hm f Hf). unfold state_of in *. by destruct (m f) as [[[] f1] e1].
Qed.

Lemma keeps_task t : valid_task t -> keeps (do_task reads snapshots user t).
Proof.
  intros Hv. destruct t; cbn [do_task valid_task do_leader_stop do_leader_start do_start_following do_stop_following do_on_error] in *;
    try (apply keeps_bind; [apply keeps_cur_task|]); try apply keeps_emit; try apply keeps_skip.
  - apply keeps_pass, keeps_snapshot_save.
  - by apply keeps_pass, keeps_snapshot_load.
  - by apply keeps_set_error.
Qed.

(** *** Commits *)
Abbreviation commit := (apply_committed reads user).

(** What one commit comes to. *)
Definition commit_result (c : Z) : FM unit := fun f =>
  if ok f.(_error).(status) && (f.(_last_applied_index) <? c) then
    (tt, committed_to reads f c c c Error_default,
     shown reads user f.(_closure_queue) (f.(_last_applied_index) + 1) (c + 1) ++ [SetAppliedId (mkLogId c (reads.(read_term) c))])
  else (tt, f, []).

Lemma fit_default f : fit f -> ok f.(_error).(status) = true -> f.(_error) = Error_default.
Proof. intros [_ _ [H|H]] Hok; [done|]. by apply bool_decide_eq_true in Hok. Qed.

Lemma fit_equiv f g : f ≡ g -> fit f -> fit g.
Proof. intros [t ->]%equiv_view [? ? ?]. by split. Qed.

Lemma do_committed_result f c : fit f -> C c -> do_committed reads user c f = commit_result c f.
Proof.
  intros Hf Hc. unfold commit_result. destruct (ok (status (_error f))) eqn:Hok; cbn [andb].
  2:{ unfold do_committed. by rewrite get_bind, Hok. }
  pose proof (fit_default f Hf Hok) as He. destruct Hf as [Ha Hq _].
  destruct (Z.ltb_spec (_last_applied_index f) c) as [Hlt|Hge].
  - apply do_committed_clean; try done; [by apply Hq|]. intros i Hi. apply log_read. specialize (committed_read c Hc). lia.
  - unfold do_committed. rewrite get_bind, Hok. cbn [negb]. by destruct (Z.leb_spec c (_last_applied_index f)); [|lia].
Qed.

Lemma commit_alike c f g : fit f -> f ≡ g -> 0 <= c -> C c -> alike (commit c f) (commit_result c g).
Proof.
  intros Hf Hfg Hpos Hc. unfold apply_committed. destruct (Z.leb_spec 0 c); [|lia]. cbn [when].
  unfold set_cur_task. rewrite modify_bind.
  pose proof (equiv_view _ _ Hfg) as [t ->].
  rewrite do_committed_result; [|by destruct Hf; split|done].
  unfold commit_result. cbn. by destruct (ok (status (_error f)) && (_last_applied_index f <? c)).
Qed.

Lemma keeps_commit c : (0 <= c -> C c) -> keeps (commit c).
Proof.
  intros Hc f Hf. unfold apply_committed. destruct (Z.leb_spec 0 c) as [Hpos|]; cbn [when]; [|done].
  specialize (Hc Hpos). unfold set_cur_task. rewrite modify_bind.
  assert (fit (f <| _cur_task := COMMITTED |>)) as Hf' by (by destruct Hf; split).
  rewrite do_committed_result by done. unfold commit_result. destruct (_ && _) eqn:Hb; [|done].
  destruct Hf' as [Ha Hq He]. split; cbn; [done| |by left]. intros c' Hc'. apply popped_covers; by apply Hq.
Qed.

(** Programs that do the same from fit states. *)
Definition same (m1 m2 : FM unit) : Prop := forall f g, fit f -> f ≡ g -> alike (m1 f) (m2 g).

Lemma blind_same m : blind m -> same m m.
Proof. intros Hm f g _. by apply Hm. Qed.
Lemma same_trans m1 m2 m3 : same m1 m2 -> same m2 m3 -> same m1 m3.
Proof. intros H1 H2 f g Hf Hfg. transitivity (m2 f); [by apply H1|by apply H2]. Qed.
Lemma same_sym m1 m2 : same m1 m2 -> same m2 m1.
Proof. intros H f g Hf Hfg. symmetry. apply H; [by eapply fit_equiv|done]. Qed.
Lemma same_bind m1 m2 (k1 k2 : unit -> FM unit) : keeps m1 -> same m1 m2 -> same (k1 tt) (k2 tt) -> same (m1 ≫= k1) (m2 ≫= k2).
Proof.
  intros Hkeep Hm Hk f g Hf Hfg. apply alike_bind; [by apply Hm|]. intros f' g' Hfg' ->. apply Hk; [by apply Hkeep|done].
Qed.

Lemma range_ext ev1 ev2 i k : (forall j, i <= j < k -> ev1 j = ev2 j) -> range_events ev1 i k = range_events ev2 i k.
Proof.
  intros H. unfold range_events. f_equal. apply list_fmap_ext. intros n j Hj%lookup_seqZ. apply H. lia.
Qed.

(** A commit after a smaller one adds the rest of the entries. *)
Lemma commit_result_twice m c f :
  fit f -> C m -> C c -> m <= c -> alike ((commit_result m ;; commit_result c) f) (commit_result c f).
Proof.
  intros Hf Hm Hc Hle. unfold mbind, M_bind. unfold commit_result at 1 3.
  destruct (ok (status (_error f))) eqn:Hok; cbn [andb]; [|by unfold commit_result; rewrite Hok].
  pose proof (fit_default f Hf Hok) as He. destruct Hf as [Ha Hq _].
  destruct (Z.ltb_spec (_last_applied_index f) m) as [Hlt|Hge].
  2:{ unfold commit_result. rewrite Hok. cbn [andb]. by destruct (_last_applied_index f <? c). }
  destruct (Z.ltb_spec (_last_applied_index f) c); [|lia].
  unfold commit_result. cbn -[Z.ltb]. change (ok OK) with true. destruct (Z.ltb_spec m c) as [Hmc|Hmc]; cbn [andb].
  2:{ assert (m = c) as -> by lia. rewrite app_nil_r. done. }
  split; unfold state_of, events_of; cbn.
  - unfold committed_to, equiv, FSMCaller_equiv. cbn. rewrite popped_popped; [done|by apply Hq|by apply Hq|lia].
  - rewrite !filter_app. cbn. rewrite !app_nil_r. unfold shown.
    rewrite (range_app _ (_last_applied_index f + 1) (m + 1) (c + 1)) by lia. rewrite filter_app. f_equal. f_equal.
    apply range_ext. intros j Hj. unfold index_events. rewrite popped_later; [done|by apply Hq|lia].
Qed.

Lemma same_commit c : (0 <= c -> C c) -> same (commit c) (commit c).
Proof.
  intros Hc f g Hf Hfg. destruct (Z.le_gt_cases 0 c) as [Hpos|Hneg].
  - specialize (Hc Hpos). transitivity (commit_result c g); [by apply commit_alike|]. symmetry.
    apply commit_alike; [by eapply fit_equiv|done|done|done].
  - unfold apply_committed. destruct (Z.leb_spec 0 c); [lia|]. by apply blind_skip.
Qed.

Lemma commit_negative c : c < 0 -> commit c = skip.
Proof. intros Hc. unfold apply_committed. by destruct (Z.leb_spec 0 c); [lia|]. Qed.

Lemma same_twice m c : (0 <= m -> C m) -> C c -> m < c -> same (commit m ;; commit c) (commit c).
Proof.
  intros Hm Hc Hlt f g Hf Hfg. destruct (Z.le_gt_cases 0 m) as [Hpos|Hneg].
  - specialize (Hm Hpos). transitivity ((commit_result m ;; commit_result c) f).
    + apply alike_bind; [by apply commit_alike|]. intros f' g' Hfg' ->. apply commit_alike; [|done|lia|done].
      by apply keeps_commit.
    + etransitivity; [apply commit_result_twice; try done; lia|]. symmetry.
      apply commit_alike; [by eapply fit_equiv|by symmetry|lia|done].
  - rewrite (commit_negative m) by done. rewrite (bind_quiet _ _ _ tt f eq_refl). by apply same_commit.
Qed.

(** A commit after a larger one does nothing. *)
Lemma same_lower m c : (0 <= m -> C m) -> (0 <= c -> C c) -> c <= m -> same (commit m ;; commit c) (commit m).
Proof.
  intros Hm Hc Hle f g Hf Hfg. destruct (Z.le_gt_cases 0 c) as [Hpos|Hneg].
  - specialize (Hm ltac:(lia)). specialize (Hc Hpos).
    transitivity ((commit_result m ;; commit_result c) f).
    { apply alike_bind; [apply commit_alike; (done || lia)|]. intros f' g' Hfg' ->. apply commit_alike; [|done|lia|done]. by apply keeps_commit. }
    transitivity (commit_result m f); [|symmetry; apply commit_alike; [by eapply fit_equiv|by symmetry|lia|done]].
    unfold mbind, M_bind, commit_result. destruct (ok (status (_error f))) eqn:Hok; cbn [andb]; [|by rewrite Hok].
    destruct (Z.ltb_spec (_last_applied_index f) m).
    + cbn -[Z.ltb]. change (ok OK) with true. destruct (Z.ltb_spec m c); [lia|]. cbn [andb]. by rewrite app_nil_r.
    + rewrite Hok. cbn [andb]. by destruct (Z.ltb_spec (_last_applied_index f) c); [lia|].
  - rewrite (commit_negative c) by done. etransitivity; [|by apply same_commit].
    unfold mbind, M_bind, skip. destruct (commit m f) as [[[] f1] e1]. by rewrite app_nil_r.
Qed.

(** *** Runs *)

(** A task by itself. *)
Definition one_task (t : ApplyTask) : FM unit :=
  match t with TCommitted c => commit c | _ => do_task reads snapshots user t end.
Definition each_task (tasks : list ApplyTask) : FM unit := mapM_ one_task tasks.

Lemma same_tasks tasks : Forall valid_task tasks -> same (each_task tasks) (each_task tasks) /\ keeps (each_task tasks).
Proof.
  unfold each_task. induction 1 as [|t tasks Ht _ [IHs IHk]]; [split; [apply blind_same, blind_skip|apply keeps_skip]|].
  assert (same (one_task t) (one_task t) /\ keeps (one_task t)) as [Hs Hk].
  { destruct t; cbn [one_task valid_task] in *; try (split; [apply blind_same, blind_task|by apply keeps_task]).
    split; [by apply same_commit|by apply keeps_commit]. }
  rewrite mapM_cons. split; [by apply same_bind|by apply keeps_bind].
Qed.

Lemma same_assoc (m1 m2 rest m3 : FM unit) : same ((m1 ;; m2) ;; rest) m3 -> same (m1 ;; m2 ;; rest) m3.
Proof. intros H f g Hf Hfg. rewrite <- bind_bind. by apply H. Qed.

Lemma same_skip (m1 m2 : FM unit) : same m1 m2 -> same (skip ;; m1) m2.
Proof. intros H f g Hf Hfg. rewrite (bind_quiet _ _ _ tt f eq_refl). by apply H. Qed.

Lemma run_loop_each tasks m counter :
  (0 <= m -> C m) -> Forall valid_task tasks ->
  same (run_loop reads snapshots user batch tasks m counter) (commit m ;; each_task tasks).
Proof.
  revert m counter. induction tasks as [|t tasks IH]; intros m counter Hm Hts; cbn [run_loop].
  { intros f g Hf Hfg. etransitivity; [by apply same_commit|]. unfold each_task, mapM_, mbind, M_bind, skip.
    destruct (commit m g) as [[[] f1] e1]. by rewrite app_nil_r. }
  apply Forall_cons in Hts as [Ht Hts]. destruct (same_tasks _ Hts) as [Hes Hek].
  assert (forall i counter, t = TCommitted i ->
    same (if m <? i then run_loop reads snapshots user batch tasks i (counter + 1)
          else run_loop reads snapshots user batch tasks m counter) (commit m ;; each_task (t :: tasks))) as Hgather.
  { intros i n ->. cbn in Ht. change (each_task (TCommitted i :: tasks)) with (commit i ;; each_task tasks).
    destruct (Z.ltb_spec m i) as [Hlt|Hge]; (eapply same_trans; [by apply IH|]).
    - apply same_sym, same_assoc. apply same_bind; [apply keeps_bind; by apply keeps_commit|by apply same_twice|done].
    - apply same_sym, same_assoc. apply same_bind; [apply keeps_bind; by apply keeps_commit|by apply same_lower|done]. }
  assert (forall rest : FM unit, same rest (each_task (t :: tasks)) -> same (commit m ;; rest) (commit m ;; each_task (t :: tasks))) as Hflush.
  { intros rest Hrest. apply same_bind; [by apply keeps_commit|by apply same_commit|done]. }
  assert (forall max n, max < 0 -> same (run_loop reads snapshots user batch tasks max n) (each_task tasks)) as Hafter.
  { intros max n Hneg. eapply same_trans; [apply IH; [lia|done]|]. rewrite commit_negative by done. apply same_skip, Hes. }
  assert (forall t', t' = t -> (forall i, t' <> TCommitted i) ->
    same (do_task reads snapshots user t' ;;
          if 0 <=? m then run_loop reads snapshots user batch tasks (-1) 0 else run_loop reads snapshots user batch tasks m counter)
         (each_task (t :: tasks))) as Hother.
  { intros t' -> Hnc. replace (each_task (t :: tasks)) with (do_task reads snapshots user t ;; each_task tasks).
    2:{ unfold each_task. rewrite mapM_cons. destruct t; try done. by destruct (Hnc committed_index). }
    apply same_bind; [by apply keeps_task|apply blind_same, blind_task|].
    destruct (Z.leb_spec 0 m); by apply Hafter. }
  destruct t as [|i| | | | | | |]; try (apply Hflush; by apply Hother).
  destruct (counter <? batch); [by apply Hgather|]. apply Hflush.
  change (each_task (TCommitted i :: tasks)) with (commit i ;; each_task tasks). cbn in Ht.
  assert (forall max n, max < 0 ->
    same (if max <? i then run_loop reads snapshots user batch tasks i (n + 1)
          else run_loop reads snapshots user batch tasks max n) (commit i ;; each_task tasks)) as Hnext.
  { intros max n Hmax. destruct (Z.ltb_spec max i); [by apply IH|].
    rewrite (commit_negative i) by lia. apply same_sym, same_skip, same_sym. by apply Hafter. }
  destruct (Z.leb_spec 0 m); by apply Hnext.
Qed.

Lemma same_idle m : same m m -> same (m ;; set_cur_task IDLE) m.
Proof.
  intros Hm g h Hg Hgh. transitivity (m g); [|by apply Hm]. unfold mbind, M_bind.
  destruct (m g) as [[[] g1] e1]. split; unfold state_of, events_of; cbn; [done|by rewrite app_nil_r].
Qed.

Lemma same_refl_l m1 m2 : same m1 m2 -> same m1 m1.
Proof. intros H. eapply same_trans; [exact H|]. by apply same_sym. Qed.

Lemma keeps_same m1 m2 : same m1 m2 -> keeps m2 -> keeps m1.
Proof.
  intros Hs Hk f Hf. destruct (Hs f f Hf ltac:(done)) as [He _]. eapply fit_equiv; [by symmetry in He; apply He|]. by apply Hk.
Qed.

Abbreviation run_tasks := (run reads snapshots user batch false).

Lemma run_same tasks : Forall valid_task tasks -> same (run_tasks tasks) (each_task tasks).
Proof.
  intros Hts. assert (same (run_loop reads snapshots user batch tasks (-1) 0) (each_task tasks)) as Hloop.
  { eapply same_trans; [by apply run_loop_each; [lia|]|]. rewrite commit_negative by lia. apply same_skip. by apply same_tasks. }
  eapply same_trans; [apply same_idle; by apply same_refl_l in Hloop|done].
Qed.

Lemma runs_same tasks : Forall valid_task tasks -> same (mapM_ (fun t => run_tasks [t]) tasks) (each_task tasks).
Proof.
  induction 1 as [|t tasks Ht Hts IH]; [apply blind_same, blind_skip|].
  assert (Forall valid_task [t]) as Ht' by (by constructor).
  assert (same (one_task t ;; skip) (one_task t)) as Hone.
  { destruct (same_tasks [t] Ht') as [Hs _]. intros f g Hf Hfg. etransitivity; [by apply Hs|].
    unfold each_task. rewrite mapM_cons, mapM_nil. unfold mbind, M_bind, skip.
    destruct (one_task t g) as [[[] g1] e1]. by rewrite app_nil_r. }
  assert (same (run_tasks [t]) (one_task t)) as Hrun by (eapply same_trans; [by apply run_same|done]).
  unfold each_task in *. rewrite !mapM_cons. apply same_bind; [|done|done].
  eapply keeps_same; [by apply run_same|]. by apply same_tasks.
Qed.

(** C14: gathering commits is invisible, to a user's code that never rolls back and
    over a log that can be read. Take any tasks whose commits are indexes that are
    committed, up to which every entry of the log can be read and the closure queue
    covers, whose snapshots have no negative index and whose errors are errors;
    commits may be out of order and repeated. One run of the queue leaves the caller
    in the state that running the tasks one by one leaves it in ([_cur_task] apart,
    which only [describe] reads), and shows the state machine, the closures and the
    node the same events in the same order. The reports of the last applied id to the
    log manager are left out, of which a batch makes one. When the user's code rolls
    back, a batch does show. *)
Theorem batching_is_invisible tasks f :
  fit f -> Forall valid_task tasks ->
  let '(_, f1, ev1) := run reads snapshots user batch false tasks f in
  let '(_, f2, ev2) := mapM_ (fun t => run reads snapshots user batch false [t]) tasks f in
  f1 ≡ f2 /\ filter shows ev1 = filter shows ev2.
Proof.
  intros Hf Hts. destruct (same_trans _ _ _ (run_same _ Hts) (same_sym _ _ (runs_same _ Hts)) f f Hf ltac:(done)) as [Hs He].
  unfold state_of, events_of in *. destruct (run_tasks tasks f) as [[? f1] ev1].
  by destruct (mapM_ _ tasks f) as [[? f2] ev2].
Qed.
End batch.

(** * Runs of the state machine's queue

    A log of four entries (one of the library, two tasks, a configuration) with
    the closures of the two tasks waiting, given to a state machine that takes
    its tasks in two ways, and to one that fails on the last. *)


#[local] Existing Instance decimal_ip_text.
#[local] Existing Instance lex_endpoint_order.

Definition task_entry (i : Z) : LogEntry := mkLogEntry ENTRY_TYPE_DATA (mkLogId i 1) None None [].
Definition entry_of (i : Z) : option LogEntry :=
  if i =? 1 then Some (mkLogEntry ENTRY_TYPE_NO_OP (mkLogId 1 1) None None [])
  else if i =? 3 then Some (mkLogEntry ENTRY_TYPE_CONFIGURATION (mkLogId 3 1) (Some [PeerId_default]) None [])
  else if (i =? 2) || (i =? 4) then Some (task_entry i)
  else None.
Definition four_entries : LogReads := mkLogReads entry_of (fun i => if i =? 0 then 0 else 1) (fun _ => ConfigurationEntry_default).

(** Runs every closure; returns after the first task, so that it is called again. *)
Definition two_calls : UserCode := mkUserCode (fun e => (true, if e.(id).(index) =? 2 then Return else Next)) (fun _ => None) (fun _ => OK).
(** Fails on the last task. *)
Definition fails_on_4 : UserCode :=
  mkUserCode (fun e => if e.(id).(index) =? 4 then (false, Rollback 1) else (true, Next)) (fun _ => None) (fun _ => OK).

Definition waiting : FSMCaller :=
  FSMCaller_default <| _closure_queue := mkClosureQueue 1 [None; Some 7%positive; None; Some 8%positive] |> <| _node := true |>.

Lemma two_calls_clean : ~ rolls_back two_calls.
Proof. intros [(e & n & H)|(i & n & H)]; [|done]. cbn in H. by destruct (index (id e) =? 2). Qed.

Lemma four_readable i : 0 < i <= 4 -> is_Some (four_entries.(read_entry) i).
Proof. intros H. assert (i = 1 \/ i = 2 \/ i = 3 \/ i = 4) as [->|[->|[->| ->]]] by lia; by eexists. Qed.

Lemma committed_entries_applied_witness :
  let '(_, f', ev) := do_committed four_entries two_calls 4 waiting in
  f'.(_last_applied_index) = 4 /\
  ev = [Apply (task_entry 2); RunClosure 7 OK; ConfigurationCommitted [PeerId_default] 3;
        Apply (task_entry 4); RunClosure 8 OK; SetAppliedId (mkLogId 4 1)].
Proof.
  rewrite (committed_entries_applied four_entries two_calls waiting 4);
    [split; vm_compute; reflexivity|reflexivity|vm_compute; reflexivity|left; vm_compute; reflexivity|apply two_calls_clean|].
  intros i Hi. apply four_readable. exact Hi.
Defined.

Definition after_failure : FSMCaller := (do_committed four_entries fails_on_4 4 waiting).1.2.

Lemma fails_some : rolls_back_some fails_on_4.
Proof. split; [|done]. intros e n. cbn. destruct (index (id e) =? 4); [by intros [= <-]; lia|done]. Qed.

Lemma apply_stops_at_error_witness :
  exists k cur, 0 < k <= 5 /\ cur < k /\
    (do_committed four_entries fails_on_4 4 waiting).2 =
      range_events (index_events four_entries fails_on_4 (closure_of (_closure_queue waiting))) 1 k ++
      [FsmOnError (mkError ERROR_TYPE_STATE_MACHINE ESTATEMACHINE); NodeOnError (mkError ERROR_TYPE_STATE_MACHINE ESTATEMACHINE)] ++
      range_events (fun j => done_events (closure_of (_closure_queue waiting) j) ESTATEMACHINE) cur 5 ++
      [SetAppliedId (mkLogId (cur - 1) (four_entries.(read_term) (cur - 1)))].
Proof.
  destruct (apply_stops_at_error four_entries fails_on_4 waiting 4 after_failure (do_committed four_entries fails_on_4 4 waiting).2)
    as (k & cur & Hk & [[Herr _]|[_ [Hcur _]]] & Hev & _);
    [reflexivity|vm_compute; reflexivity|left; vm_compute; reflexivity|apply fails_some|vm_compute; reflexivity|
     vm_compute; discriminate|exfalso; vm_compute in Herr; discriminate|].
  exists k, cur. split; [exact Hk|]. split; [exact Hcur|]. rewrite Hev. reflexivity.
Defined.

Definition no_snapshots : Closure -> SnapshotAnswers := fun _ => mkSnapshotAnswers (fun _ => false) false (OK, mkSnapshotMeta 0 0 [] []).

Definition late_tasks : list ApplyTask := [TCommitted 9; TSnapshotSave 3; TError (mkError ERROR_TYPE_LOG EIO)].

Lemma error_is_final_witness :
  let '(_, f', ev) := run four_entries no_snapshots two_calls 512 false late_tasks after_failure in
  Forall quiet ev /\ f'.(_error) = mkError ERROR_TYPE_STATE_MACHINE ESTATEMACHINE.
Proof.
  destruct (run four_entries no_snapshots two_calls 512 false late_tasks after_failure) as [[[] f'] ev] eqn:Hrun.
  destruct (error_is_final four_entries two_calls no_snapshots 512 after_failure late_tasks f' ev) as (Hq & He & _);
    [vm_compute; discriminate|vm_compute; discriminate|exact Hrun|]. split; [exact Hq|]. rewrite He. vm_compute. reflexivity.
Defined.

Definition up_to_4 (c : Z) : Prop := c <= 4.

Lemma waiting_fit : fit up_to_4 waiting.
Proof. split; [done|intros c Hc; left; unfold up_to_4 in Hc; cbn; unfold next_index, zlen; cbn; lia|by left]. Qed.

Lemma batching_is_invisible_witness :
  let tasks := [TCommitted 2; TCommitted 1; TCommitted 3; TLeaderStop OK; TCommitted 4] in
  let '(_, f1, ev1) := run four_entries no_snapshots two_calls 2 false tasks waiting in
  let '(_, f2, ev2) := mapM_ (fun t => run four_entries no_snapshots two_calls 2 false [t]) tasks waiting in
  f1 ≡ f2 /\ filter shows ev1 = filter shows ev2 /\ length ev1 <> length ev2.
Proof.
  intros tasks.
  pose proof (batching_is_invisible four_entries no_snapshots two_calls 2 up_to_4 4 (fun c Hc => Hc) four_readable two_calls_clean
    tasks waiting waiting_fit ltac:(unfold tasks; repeat constructor; vm_compute; done)) as H.
  destruct (run four_entries no_snapshots two_calls 2 false tasks waiting) as [[u1 f1] ev1] eqn:H1.
  destruct (mapM_ (fun t => run four_entries no_snapshots two_calls 2 false [t]) tasks waiting) as [[u2 f2] ev2] eqn:H2.
  destruct H as [Hs He]. split; [exact Hs|]. split; [exact He|].
  vm_compute in H1. vm_compute in H2. injection H1 as _ _ <-. injection H2 as _ _ <-. vm_compute. discriminate.
Defined.
