(* ===== verification/MemoryLog.v ===== *)
(** * MemoryLogStorage: a log kept in memory

    Models [src/braft/memory_log.h] and [src/braft/memory_log.cpp] and proves
    that it implements the [LogStorage] interface.  Each method holds [_mutex]
    over its effect.  A failed [CHECK] is the boolean [false]. *)

From S2P Require Import Prelude Types LogStorage.

Record MemoryLogStorage : Set := mkMemoryLogStorage {
  _first_log_index : Z;
  _last_log_index : Z;
  _log_entry_data : list LogEntry
}.

(** The constructors, and [init], which keeps the data. *)
Definition MemoryLogStorage_default : MemoryLogStorage := mkMemoryLogStorage 1 0 [].
Definition init (m : MemoryLogStorage) : MemoryLogStorage := mkMemoryLogStorage 1 0 m.(_log_entry_data).

Definition first_log_index (m : MemoryLogStorage) : Z := m.(_first_log_index).
Definition last_log_index (m : MemoryLogStorage) : Z := m.(_last_log_index).

(** [get_entry]; the second component is its [CHECK]. *)
Definition get_entry (m : MemoryLogStorage) (index : Z) : option LogEntry * bool :=
  if (index <? m.(_first_log_index)) || (m.(_last_log_index) <? index) then (None, true)
  else
    let temp := zget m.(_log_entry_data) (index - m.(_first_log_index)) in
    (temp, from_option (fun e => e.(id).(Types.index) =? index) false temp).

Definition get_term (m : MemoryLogStorage) (index : Z) : Z * bool :=
  if (index <? m.(_first_log_index)) || (m.(_last_log_index) <? index) then (0, true)
  else
    let temp := zget m.(_log_entry_data) (index - m.(_first_log_index)) in
    (from_option (fun e => e.(id).(term)) 0 temp,
     from_option (fun e => e.(id).(Types.index) =? index) false temp).

Definition append_entry (m : MemoryLogStorage) (e : LogEntry) : Errno * MemoryLogStorage :=
  if negb (e.(id).(Types.index) =? m.(_last_log_index) + 1) then (ERANGE, m)
  else (OK, mkMemoryLogStorage m.(_first_log_index) (m.(_last_log_index) + 1) (m.(_log_entry_data) ++ [e])).

(** [append_entries] ignores the result of each [append_entry]. *)
Definition append_entries (m : MemoryLogStorage) (entries : list LogEntry) : Z * MemoryLogStorage :=
  match entries with
  | [] => (0, m)
  | _ => (zlen entries, fold_left (fun m e => (append_entry m e).2) entries m)
  end.

Definition truncate_prefix (m : MemoryLogStorage) (first_index_kept : Z) : Errno * MemoryLogStorage :=
  let data := pop_front_while (fun e => e.(id).(Types.index) <? first_index_kept) m.(_log_entry_data) in
  let last := if m.(_last_log_index) <? first_index_kept then first_index_kept - 1 else m.(_last_log_index) in
  (OK, mkMemoryLogStorage first_index_kept last data).

Definition truncate_suffix (m : MemoryLogStorage) (last_index_kept : Z) : Errno * MemoryLogStorage :=
  let data := pop_back_while (fun e => last_index_kept <? e.(id).(Types.index)) m.(_log_entry_data) in
  let first := if last_index_kept <? m.(_first_log_index) then last_index_kept + 1 else m.(_first_log_index) in
  (OK, mkMemoryLogStorage first last_index_kept data).

Definition reset (m : MemoryLogStorage) (next_log_index : Z) : Errno * MemoryLogStorage :=
  if next_log_index <=? 0 then (EINVAL, m)
  else (OK, mkMemoryLogStorage next_log_index (next_log_index - 1) []).

(** ** The abstraction *)
Definition repr (m : MemoryLogStorage) (l : Log) : Prop :=
  m.(_first_log_index) = l.(log_first) /\ m.(_last_log_index) = log_last l /\
  m.(_log_entry_data) = l.(log_entries) /\ log_wf l.

Lemma default_repr : repr MemoryLogStorage_default (log_reset 1).
Proof. split_and!; [done..|apply contiguous_nil]. Qed.

Lemma out_of_range_log_get l i :
  ((i <? l.(log_first)) || (log_last l <? i)) = true -> log_get l i = None.
Proof.
  unfold log_get, zget, log_last, zlen. rewrite orb_true_iff, !Z.ltb_lt. intros Hi.
  case_bool_decide; [done|]. apply lookup_ge_None_2. lia.
Qed.

Lemma in_range_log_get l i :
  ((i <? l.(log_first)) || (log_last l <? i)) = false -> exists e, log_get l i = Some e.
Proof.
  rewrite orb_false_iff, !Z.ltb_ge. intros [H1 H2]. apply zget_is_Some.
  unfold log_last in H2. lia.
Qed.

Lemma get_entry_repr m l i : repr m l -> get_entry m i = (log_get l i, true).
Proof.
  intros (Hf & Hl & Hd & Hwf). unfold get_entry. rewrite Hf, Hl, Hd.
  destruct (_ || _) eqn:Hr; [by rewrite out_of_range_log_get|].
  destruct (in_range_log_get l i Hr) as [e He]. fold (log_get l i). rewrite He. simpl. f_equal.
  apply Z.eqb_eq. by eapply contiguous_get.
Qed.

Lemma get_term_repr m l i : repr m l -> get_term m i = (log_term l i, true).
Proof.
  intros (Hf & Hl & Hd & Hwf). unfold get_term, log_term. rewrite Hf, Hl, Hd.
  destruct (_ || _) eqn:Hr; [by rewrite out_of_range_log_get|].
  destruct (in_range_log_get l i Hr) as [e He]. fold (log_get l i). rewrite He. simpl. f_equal.
  apply Z.eqb_eq. by eapply contiguous_get.
Qed.

Lemma append_entry_repr m l e :
  repr m l -> e.(id).(index) = log_last l + 1 ->
  append_entry m e = (OK, (append_entry m e).2) /\ repr (append_entry m e).2 (log_append l [e]).
Proof.
  intros (Hf & Hl & Hd & Hwf) He. unfold append_entry. rewrite Hl, He, Z.eqb_refl. simpl.
  split; [done|]. split_and!; simpl; [done| |by rewrite Hd|].
  - by rewrite log_last_append, zlen_cons, zlen_nil.
  - apply log_append_wf; [done|]. by apply contiguous_cons; split; [|apply contiguous_nil].
Qed.

Lemma append_entries_repr m l es :
  repr m l -> contiguous (log_last l + 1) es ->
  (append_entries m es).1 = zlen es /\ repr (append_entries m es).2 (log_append l es).
Proof.
  assert (repr m l -> contiguous (log_last l + 1) es ->
          repr (fold_left (fun m e => (append_entry m e).2) es m) (log_append l es)) as Hfold.
  { revert m l. induction es as [|e es IH]; intros m l Hm Hes; simpl; [by rewrite log_append_nil|].
    apply contiguous_cons in Hes as [He Hes]. change (e :: es) with ([e] ++ es).
    rewrite log_append_app. apply IH.
    - by apply append_entry_repr.
    - by rewrite log_last_append, zlen_cons, zlen_nil. }
  intros Hm Hes. destruct es as [|e es]; [by rewrite log_append_nil|]. split; [done|by apply Hfold].
Qed.

Lemma truncate_prefix_repr m l k :
  repr m l -> l.(log_first) <= k -> repr (truncate_prefix m k).2 (log_truncate_prefix l k).
Proof.
  intros (Hf & Hl & Hd & Hwf) Hk. split_and!; simpl; [done| | |by apply log_truncate_prefix_wf].
  - rewrite Hl. unfold log_last, zlen. simpl. rewrite length_drop.
    destruct (Z.ltb_spec (log_first l + Z.of_nat (length (log_entries l)) - 1) k); lia.
  - rewrite Hd. by apply pop_front_contiguous.
Qed.

Lemma truncate_suffix_repr m l k :
  repr m l -> k <= log_last l -> repr (truncate_suffix m k).2 (log_truncate_suffix l k).
Proof.
  intros (Hf & Hl & Hd & Hwf) Hk. split_and!; simpl; [| | |by apply log_truncate_suffix_wf].
  - rewrite Hf. destruct (Z.ltb_spec k (log_first l)); lia.
  - unfold log_last, zlen in *. simpl. rewrite length_take. lia.
  - rewrite Hd. by apply pop_back_contiguous.
Qed.

Lemma reset_repr m l k :
  repr m l -> (reset m k).1 = OK -> repr (reset m k).2 (log_reset k).
Proof.
  intros _. unfold reset. destruct (Z.leb_spec k 0); simpl; [done|]. intros _.
  split_and!; simpl; [done| |done|apply contiguous_nil]. unfold log_last. simpl. by rewrite zlen_nil; lia.
Qed.

#[export] Instance memory_log_storage : LogStorage MemoryLogStorage.
Proof.
  refine {| ls_first_log_index := first_log_index; ls_last_log_index := last_log_index;
            ls_get_entry m i := (get_entry m i).1; ls_get_term m i := (get_term m i).1;
            ls_append_entries := append_entries; ls_truncate_prefix := truncate_prefix;
            ls_truncate_suffix := truncate_suffix; ls_reset := reset; ls_repr := repr |}.
  - by intros s l (_ & _ & _ & Hwf).
  - by intros s l (Hf & _).
  - by intros s l (_ & Hl & _).
  - intros s l i Hm. by rewrite (get_entry_repr s l).
  - intros s l i Hm. by rewrite (get_term_repr s l).
  - intros s l es Hm Hes. destruct (append_entries_repr s l es Hm Hes) as [Hn Hr].
    destruct (append_entries s es) as [n s']. simpl in *. subst n. pose proof (zlen_nonneg es).
    split; [lia|]. rewrite take_ge; [done|]. unfold zlen. lia.
  - intros s l k Hm Hk. pose proof (truncate_prefix_repr s l k Hm Hk).
    by destruct (truncate_prefix s k).
  - intros s l k Hm [_ Hk]. pose proof (truncate_suffix_repr s l k Hm Hk).
    by destruct (truncate_suffix s k).
  - intros s l k Hm. pose proof (reset_repr s l k Hm). by destruct (reset s k).
Defined.

(** ** Refinement over whole runs *)
(** The obligations of the caller, over the abstract log. *)
Definition op_allowed (l : Log) (o : Op) : Prop :=
  match o with
  | OpAppend es => contiguous (log_last l + 1) es
  | OpTruncatePrefix k => l.(log_first) <= k
  | OpTruncateSuffix k => k <= log_last l
  | OpReset k => 0 < k
  end.

Definition mem_op (m : MemoryLogStorage) (o : Op) : MemoryLogStorage :=
  match o with
  | OpAppend es => (append_entries m es).2
  | OpTruncatePrefix k => (truncate_prefix m k).2
  | OpTruncateSuffix k => (truncate_suffix m k).2
  | OpReset k => (reset m k).2
  end.

Fixpoint ops_allowed (l : Log) (os : list Op) : Prop :=
  match os with
  | [] => True
  | o :: os' => op_allowed l o /\ ops_allowed (log_op l o) os'
  end.

Lemma mem_op_repr m l o : repr m l -> op_allowed l o -> repr (mem_op m o) (log_op l o).
Proof.
  destruct o as [es|k|k|k]; simpl; intros Hm Ho.
  - by apply append_entries_repr.
  - by apply truncate_prefix_repr.
  - by apply truncate_suffix_repr.
  - apply (reset_repr _ _ _ Hm). unfold reset. by rewrite (proj2 (Z.leb_gt _ _)).
Qed.

Lemma mem_ops_repr m l os :
  repr m l -> ops_allowed l os -> repr (fold_left mem_op os m) (fold_left log_op os l).
Proof.
  revert m l. induction os as [|o os IH]; intros m l Hm Ho; [done|].
  destruct Ho as [Ho Hos]. apply IH; [by apply mem_op_repr|done].
Qed.

(** Refinement.  After any sequence of appends, truncations and resets that
    respects the interface, started from a new storage, the storage answers
    every query, bounds, entry and term of any index, as the abstract log does,
    with no failed [CHECK], and its entries are contiguous. *)
Theorem memory_log_refines_log os i :
  ops_allowed (log_reset 1) os ->
  let m := fold_left mem_op os MemoryLogStorage_default in
  let l := fold_left log_op os (log_reset 1) in
  first_log_index m = l.(log_first) /\ last_log_index m = log_last l /\
  get_entry m i = (log_get l i, true) /\ get_term m i = (log_term l i, true) /\ log_wf l.
Proof.
  intros Hos. cbv zeta. pose proof (mem_ops_repr _ _ os default_repr Hos) as Hr.
  pose proof Hr as (Hf & Hl & _ & Hwf).
  split_and!; [done|done|by apply get_entry_repr|by apply get_term_repr|done].
Qed.

Definition example_entry (i t : Z) : LogEntry :=
  mkLogEntry ENTRY_TYPE_DATA (mkLogId i t) None None [].

Lemma memory_log_refines_log_witness :
  let os := [OpAppend [example_entry 1 1; example_entry 2 1; example_entry 3 2];
             OpTruncateSuffix 2; OpAppend [example_entry 3 4]; OpTruncatePrefix 2] in
  let m := fold_left mem_op os MemoryLogStorage_default in
  let l := fold_left log_op os (log_reset 1) in
  get_term m 3 = (4, true) /\
  first_log_index m = l.(log_first) /\ last_log_index m = log_last l /\
  get_entry m 3 = (log_get l 3, true) /\ get_term m 3 = (log_term l 3, true) /\ log_wf l.
Proof.
  split; [done|].
  apply (memory_log_refines_log
    [OpAppend [example_entry 1 1; example_entry 2 1; example_entry 3 2];
     OpTruncateSuffix 2; OpAppend [example_entry 3 4]; OpTruncatePrefix 2] 3).
  assert (forall f a, a.(id).(index) = f -> contiguous f [a]) as H1.
  { intros f a Ha. apply contiguous_cons. split; [done|apply contiguous_nil]. }
  repeat split; simpl; try (apply H1; done); try (vm_compute; congruence).
  apply contiguous_cons. split; [done|]. apply contiguous_cons. split; [done|by apply H1].
Defined.
