(* ===== verification/LogManager.v ===== *)
(** * LogManager: the log a node appends to, in memory and on disk

    Models [src/braft/log_manager.h] and [src/braft/log_manager.cpp] over any
    [LogStorage].  Every public method holds [_mutex] over its whole effect on
    the state, so it is one atomic step; what it does after unlocking (running
    closures, waking waiters, reading the storage) is an output event or a
    read.  The execution queue of the disk thread is the list [_disk_queue];
    [disk_thread] consumes a batch of it.  Reference counts, timers and metrics
    are left out. *)

From S2P Require Import ConfigurationManager LogStorage Types Prelude.

(** [StableClosure]: the closure of one [append_entries]. *)
Record StableClosure : Set := mkStableClosure {
  closure : Closure;
  status : Errno;
  sc_first_log_index : Z;
  entries : list LogEntry
}.
#[export] Instance StableClosure_eta : Settable StableClosure := fun d =>
  mkStableClosure d.(closure) d.(status) d.(sc_first_log_index) d.(entries).

(** The subclasses of [StableClosure] that are queued to the disk thread. *)
Inductive DiskTask : Set :=
| TStable (done : StableClosure)
| TLastLogId (c : Closure)
| TTruncatePrefix (first_index_kept : Z)
| TTruncateSuffix (last_index_kept last_term_kept : Z)
| TReset (next_log_index : Z).

Inductive Event : Set :=
| StableRun (done : StableClosure)
| LastLogIdReady (c : Closure) (last_log_id : LogId)
| OnNewLog (wm : positive) (error_code : Errno)
| OnError (error_code : Errno)
| CheckFailed
| Fatal.

Record SnapshotMeta : Set := mkSnapshotMeta {
  last_included_index : Z;
  last_included_term : Z;
  meta_peers : list PeerId;
  meta_old_peers : list PeerId
}.

Record LogManager (S : Type) : Type := mkLogManager {
  _log_storage : S;
  _config_manager : ConfigurationManager;
  _wait_map : gmap Z positive;
  _stopped : bool;
  _has_error : bool;
  _next_wait_id : Z;
  _disk_id : LogId;
  _applied_id : LogId;
  _logs_in_memory : list LogEntry;
  _first_log_index : Z;
  _last_log_index : Z;
  _last_snapshot_id : LogId;
  _virtual_first_log_id : LogId;
  _disk_queue : list DiskTask
}.
Arguments mkLogManager {S}.
Arguments _log_storage {S}. Arguments _config_manager {S}. Arguments _wait_map {S}.
Arguments _stopped {S}. Arguments _has_error {S}. Arguments _next_wait_id {S}.
Arguments _disk_id {S}. Arguments _applied_id {S}. Arguments _logs_in_memory {S}.
Arguments _first_log_index {S}. Arguments _last_log_index {S}.
Arguments _last_snapshot_id {S}. Arguments _virtual_first_log_id {S}. Arguments _disk_queue {S}.

#[export] Instance LogManager_eta S : Settable (LogManager S) := fun m =>
  mkLogManager m.(_log_storage) m.(_config_manager) m.(_wait_map) m.(_stopped) m.(_has_error)
    m.(_next_wait_id) m.(_disk_id) m.(_applied_id) m.(_logs_in_memory) m.(_first_log_index)
    m.(_last_log_index) m.(_last_snapshot_id) m.(_virtual_first_log_id) m.(_disk_queue).

(** The configuration of the writes of one disk batch. *)
Record Batcher : Set := mkBatcher {
  storage : list StableClosure;
  buffer_size : Z;
  to_append : list LogEntry
}.
Definition Batcher_empty : Batcher := mkBatcher [] 0 [].

(** The capacity of [storage] in [disk_thread]. *)
Definition batcher_cap : Z := 256.

(** The number of entries [clear_memory_logs] releases per critical section. *)
Definition clear_cap : nat := 256.

(** [LogManager::LogManager]. *)
Definition LogManager_default {S} (s : S) : LogManager S :=
  mkLogManager s ConfigurationManager_default ∅ false false 0 LogId_default LogId_default [] 0 0
    LogId_default LogId_default [].

Section manager.
Context {S : Type} `{LS : LogStorage S} `{EPO : EndPointOrder}.

Abbreviation LM := (M (LogManager S) Event).

Definition check (b : bool) : LM unit := if b then skip else emit CheckFailed.

Definition queue_disk (t : DiskTask) : LM unit :=
  modify (fun m => m <| _disk_queue := m.(_disk_queue) ++ [t] |>).

(** [LogManager::report_error]. *)
Definition report_error (code : Errno) : LM unit :=
  modify (fun m => m <| _has_error := true |>) ;; emit (OnError code).

(** [LogManager::init]; [storage_init] is the storage's own [init], which may
    add the configurations it reads to the configuration manager. *)
Definition init (storage_init : S -> ConfigurationManager -> Errno * S * ConfigurationManager)
    (log_storage : option S) (configuration_manager : ConfigurationManager) : LM Errno :=
  match log_storage with
  | None => mret EINVAL
  | Some s =>
      let '(ret, s', cm') := storage_init s configuration_manager in
      modify (fun m => m <| _log_storage := s' |> <| _config_manager := cm' |>) ;;
      if negb (ok ret) then mret ret
      else
        modify (fun m =>
          let last := ls_last_log_index s' in
          m <| _first_log_index := ls_first_log_index s' |>
            <| _last_log_index := last |>
            <| _disk_id := mkLogId last (ls_get_term s' last) |>) ;;
        mret OK
  end.

(** ** Reading *)

(** [get_entry_from_memory], and its [CHECK]. *)
Definition get_entry_from_memory (m : LogManager S) (index : Z) : option LogEntry * bool :=
  match m.(_logs_in_memory), last m.(_logs_in_memory) with
  | front :: _, Some back =>
      let first_index := front.(id).(Types.index) in
      let last_index := back.(id).(Types.index) in
      (if (first_index <=? index) && (index <=? last_index)
       then zget m.(_logs_in_memory) (index - first_index) else None,
       last_index - first_index + 1 =? zlen m.(_logs_in_memory))
  | _, _ => (None, true)
  end.

(** [unsafe_get_term]; [get_term] does the same, with the lock released before
    the storage is read. *)
Definition unsafe_get_term (m : LogManager S) (index : Z) : Z :=
  if index =? 0 then 0
  else if index =? m.(_virtual_first_log_id).(Types.index) then m.(_virtual_first_log_id).(term)
  else if index =? m.(_last_snapshot_id).(Types.index) then m.(_last_snapshot_id).(term)
  else if (m.(_last_log_index) <? index) || (index <? m.(_first_log_index)) then 0
  else match (get_entry_from_memory m index).1 with
       | Some entry => entry.(id).(term)
       | None => ls_get_term m.(_log_storage) index
       end.
Definition get_term (m : LogManager S) (index : Z) : Z :=
  if index =? 0 then 0
  else if index =? m.(_virtual_first_log_id).(Types.index) then m.(_virtual_first_log_id).(term)
  else if index =? m.(_last_snapshot_id).(Types.index) then m.(_last_snapshot_id).(term)
  else if (m.(_last_log_index) <? index) || (index <? m.(_first_log_index)) then 0
  else match (get_entry_from_memory m index).1 with
       | Some entry => entry.(id).(term)
       | None => ls_get_term m.(_log_storage) index
       end.

(** [get_entry]. *)
Definition get_entry (index : Z) : LM (option LogEntry) :=
  m ← get;
  if (m.(_last_log_index) <? index) || (index <? m.(_first_log_index)) then mret None
  else match (get_entry_from_memory m index).1 with
       | Some entry => mret (Some entry)
       | None =>
           let entry := ls_get_entry m.(_log_storage) index in
           (match entry with None => report_error EIO | Some _ => skip end) ;;
           mret entry
       end.

Definition first_log_index (m : LogManager S) : Z := m.(_first_log_index).

(** [last_log_index] and [last_log_id]: [None] when the answer comes with the
    [LastLogIdReady] event of the queued closure [c]. *)
Definition last_log_index (is_flush : bool) (c : Closure) : LM (option Z) :=
  m ← get;
  if negb is_flush then mret (Some m.(_last_log_index))
  else if m.(_last_log_index) =? m.(_last_snapshot_id).(Types.index) then mret (Some m.(_last_log_index))
  else queue_disk (TLastLogId c) ;; mret None.

Definition last_log_id (is_flush : bool) (c : Closure) : LM (option LogId) :=
  m ← get;
  if negb is_flush then
    if m.(_first_log_index) <=? m.(_last_log_index) then
      mret (Some (mkLogId m.(_last_log_index) (unsafe_get_term m m.(_last_log_index))))
    else mret (Some m.(_last_snapshot_id))
  else if m.(_last_log_index) =? m.(_last_snapshot_id).(Types.index) then mret (Some m.(_last_snapshot_id))
  else queue_disk (TLastLogId c) ;; mret None.

Definition get_configuration (m : LogManager S) (index : Z) : ConfigurationEntry * bool :=
  ConfigurationManager.get m.(_config_manager) index.

(** [check_and_set_configuration]: [None] when [current] is left as it is. *)
Definition check_and_set_configuration (m : LogManager S) (current : ConfigurationEntry)
  : option ConfigurationEntry :=
  let last_conf := last_configuration m.(_config_manager) in
  if logid_eqb current.(conf_id) last_conf.(conf_id) then None else Some last_conf.

Record LogManagerStatus : Set := mkLogManagerStatus {
  first_index : Z; last_index : Z; disk_index : Z; known_applied_index : Z
}.
Definition get_status (m : LogManager S) : LogManagerStatus :=
  mkLogManagerStatus (ls_first_log_index m.(_log_storage)) (ls_last_log_index m.(_log_storage))
    m.(_disk_id).(Types.index) m.(_applied_id).(Types.index).

(** ** Waiting for new logs *)

(** [notify_on_new_log], which [wait] calls: 0 when the waiter is run at once.
    The identifier is narrowed to an [int]. *)
Definition wait (expected_last_log_index : Z) (wm : positive) : LM Z :=
  m ← get;
  if negb (expected_last_log_index =? m.(_last_log_index)) || m.(_stopped) then
    emit (OnNewLog wm (if m.(_stopped) then ESTOP else OK)) ;; mret 0
  else
    let next := if m.(_next_wait_id) =? 0 then m.(_next_wait_id) + 1 else m.(_next_wait_id) in
    let wait_id := wrap_i32 next in
    modify (fun m => m <| _next_wait_id := next + 1 |>
                       <| _wait_map := <[wait_id := wm]> m.(_wait_map) |>) ;;
    mret wait_id.

Definition remove_waiter (id : Z) : LM Errno :=
  m ← get;
  match m.(_wait_map) !! id with
  | Some _ => modify (fun m => m <| _wait_map := delete id m.(_wait_map) |>) ;; mret OK
  | None => mret ENEG1
  end.

(** [wakeup_all_waiter]. *)
Definition wakeup_all_waiter : LM unit :=
  m ← get;
  let error_code := if m.(_stopped) then ESTOP else OK in
  modify (fun m => m <| _wait_map := ∅ |>) ;;
  emits (map (fun w => OnNewLog w.2 error_code) (map_to_list m.(_wait_map))).

Definition shutdown : LM unit :=
  modify (fun m => m <| _stopped := true |>) ;; wakeup_all_waiter.

(** ** Truncation *)

(** [truncate_prefix(first_index_kept, lck)]. *)
Definition truncate_prefix (first_index_kept : Z) : LM unit :=
  m ← get;
  check (m.(_first_log_index) <=? first_index_kept) ;;
  modify (fun m =>
    m <| _logs_in_memory :=
           pop_front_while (fun e => e.(id).(Types.index) <? first_index_kept) m.(_logs_in_memory) |>
      <| _first_log_index := first_index_kept |>
      <| _last_log_index :=
           if m.(_last_log_index) <? first_index_kept then first_index_kept - 1 else m.(_last_log_index) |>
      <| _config_manager := ConfigurationManager.truncate_prefix m.(_config_manager) first_index_kept |>) ;;
  queue_disk (TTruncatePrefix first_index_kept).

(** [reset(next_log_index, lck)]. *)
Definition reset (next_log_index : Z) : LM unit :=
  modify (fun m =>
    m <| _logs_in_memory := [] |>
      <| _first_log_index := next_log_index |>
      <| _last_log_index := next_log_index - 1 |>
      <| _config_manager :=
           ConfigurationManager.truncate_suffix
             (ConfigurationManager.truncate_prefix m.(_config_manager) next_log_index)
             (next_log_index - 1) |>) ;;
  queue_disk (TReset next_log_index).

(** [unsafe_truncate_suffix]. *)
Definition unsafe_truncate_suffix (last_index_kept : Z) : LM unit :=
  m ← get;
  if last_index_kept <? m.(_applied_id).(Types.index) then emit Fatal
  else
    modify (fun m =>
      m <| _logs_in_memory :=
             pop_back_while (fun e => last_index_kept <? e.(id).(Types.index)) m.(_logs_in_memory) |>
        <| _last_log_index := last_index_kept |>) ;;
    m1 ← get;
    let last_term_kept := unsafe_get_term m1 last_index_kept in
    check ((last_index_kept =? 0) || negb (last_term_kept =? 0)) ;;
    modify (fun m =>
      m <| _config_manager := ConfigurationManager.truncate_suffix m.(_config_manager) last_index_kept |>) ;;
    queue_disk (TTruncateSuffix last_index_kept last_term_kept).

(** ** Appending *)

(** The leader numbers the entries of its users. *)
Fixpoint assign_indexes (last : Z) (es : list LogEntry) : list LogEntry :=
  match es with
  | [] => []
  | e :: es' => (e <| id := mkLogId (last + 1) e.(id).(term) |>) :: assign_indexes (last + 1) es'
  end.

(** The scan for [conflicting_index]. *)
Fixpoint conflict_scan (m : LogManager S) (es : list LogEntry) : nat :=
  match es with
  | [] => 0%nat
  | e :: es' =>
      if negb (unsafe_get_term m e.(id).(Types.index) =? e.(id).(term)) then 0%nat
      else Datatypes.S (conflict_scan m es')
  end.

(** [check_and_resolve_conflict] on a non-empty vector: the code it returns and
    what it leaves in the vector.  [done] is run when the code is not 0. *)
Definition check_and_resolve_conflict (es : list LogEntry) (front back : LogEntry)
    (done : StableClosure) : LM (Z * list LogEntry) :=
  m ← get;
  if front.(id).(Types.index) =? 0 then
    modify (fun m => m <| _last_log_index := m.(_last_log_index) + zlen es |>) ;;
    mret (0, assign_indexes m.(_last_log_index) es)
  else if m.(_last_log_index) + 1 <? front.(id).(Types.index) then
    emit (StableRun (done <| status := EINVAL |>)) ;; mret (-1, es)
  else if back.(id).(Types.index) <=? m.(_applied_id).(Types.index) then
    emit (StableRun done) ;; mret (1, es)
  else if front.(id).(Types.index) =? m.(_last_log_index) + 1 then
    modify (fun m => m <| _last_log_index := back.(id).(Types.index) |>) ;;
    mret (0, es)
  else
    let conflicting_index := conflict_scan m es in
    (match es !! conflicting_index with
     | Some e =>
         when (e.(id).(Types.index) <=? m.(_last_log_index))
           (unsafe_truncate_suffix (e.(id).(Types.index) - 1)) ;;
         modify (fun m => m <| _last_log_index := back.(id).(Types.index) |>)
     | None => skip
     end) ;;
    mret (0, drop conflicting_index es).

(** The loop of [append_entries] that hands configurations over. *)
Definition add_configuration (e : LogEntry) : LM unit :=
  if bool_decide (e.(type) = ENTRY_TYPE_CONFIGURATION) then
    m ← get;
    let '(_, cm, held) := ConfigurationManager.add m.(_config_manager) (ConfigurationEntry_of e) in
    modify (fun m => m <| _config_manager := cm |>) ;;
    check held
  else skip.

(** [append_entries] after the conflicts are resolved. *)
Definition store_entries (es : list LogEntry) (done : StableClosure) : LM unit :=
  mapM_ add_configuration es ;;
  modify (fun m => m <| _logs_in_memory := m.(_logs_in_memory) ++ es |>) ;;
  let done := match es with
              | [] => done
              | front :: _ => done <| sc_first_log_index := front.(id).(Types.index) |>
              end in
  queue_disk (TStable (done <| entries := es |>)) ;;
  wakeup_all_waiter.

(** [append_entries]. *)
Definition append_entries (es : list LogEntry) (done : StableClosure) : LM unit :=
  m ← get;
  if m.(_has_error) then emit (StableRun (done <| status := EIO |>))
  else
    match es, last es with
    | front :: _, Some back =>
        '(r, es') ← check_and_resolve_conflict es front back done;
        if negb (r =? 0) then skip else store_entries es' done
    | _, _ => store_entries es done
    end.

(** ** The disk thread *)

(** [append_to_storage]; returns the updated [last_id]. *)
Definition append_to_storage (es : list LogEntry) (last_id : LogId) : LM LogId :=
  m ← get;
  if m.(_has_error) then mret last_id
  else
    let '(nappent, s') := ls_append_entries m.(_log_storage) es in
    modify (fun m => m <| _log_storage := s' |>) ;;
    when (negb (nappent =? zlen es)) (report_error EIO) ;;
    mret (if 0 <? nappent then from_option id last_id (zget es (nappent - 1)) else last_id).

(** [AppendBatcher::flush]. *)
Definition flush (b : Batcher) (last_id : LogId) : LM (Batcher * LogId) :=
  match b.(storage) with
  | [] => mret (Batcher_empty, last_id)
  | ds =>
      last_id' ← append_to_storage b.(to_append) last_id;
      m ← get;
      emits (map (fun d => StableRun ((if m.(_has_error) then d <| status := EIO |> else d)
                                        <| entries := [] |>)) ds) ;;
      mret (Batcher_empty, last_id')
  end.

Definition data_size (es : list LogEntry) : Z :=
  foldr (fun e n => zlen e.(data) + n) 0 es.

(** [AppendBatcher::append]; [max_append_buffer_size] is the flag. *)
Definition batch_append (max_append_buffer_size : Z) (b : Batcher) (last_id : LogId)
    (done : StableClosure) : LM (Batcher * LogId) :=
  '(b, last_id) ← (if (zlen b.(storage) =? batcher_cap) || (max_append_buffer_size <=? b.(buffer_size))
                   then flush b last_id else mret (b, last_id));
  mret (mkBatcher (b.(storage) ++ [done]) (b.(buffer_size) + data_size done.(entries))
          (b.(to_append) ++ done.(entries)), last_id).

(** One iteration of the loop of [disk_thread]. *)
Definition disk_task (max_append_buffer_size : Z) (t : DiskTask) (b : Batcher) (last_id : LogId)
  : LM (Batcher * LogId) :=
  let storage_op (op : S -> Errno * S) : LM Errno :=
    m ← get;
    let '(ret, s') := op m.(_log_storage) in
    modify (fun m => m <| _log_storage := s' |>) ;;
    when (negb (ok ret)) (report_error ret) ;;
    mret ret in
  match t with
  | TStable done =>
      match done.(entries) with
      | [] => '(b, last_id) ← flush b last_id; emit (StableRun done) ;; mret (b, last_id)
      | _ => batch_append max_append_buffer_size b last_id done
      end
  | TLastLogId c =>
      '(b, last_id) ← flush b last_id;
      check ((last_id.(Types.index) =? 0) || negb (last_id.(term) =? 0)) ;;
      emit (LastLogIdReady c last_id) ;; mret (b, last_id)
  | TTruncatePrefix k =>
      '(b, last_id) ← flush b last_id;
      storage_op (fun s => ls_truncate_prefix s k) ;; mret (b, last_id)
  | TTruncateSuffix k kt =>
      '(b, last_id) ← flush b last_id;
      ret ← storage_op (fun s => ls_truncate_suffix s k);
      if ok ret then
        check ((k =? 0) || negb (kt =? 0)) ;; mret (b, mkLogId k kt)
      else mret (b, last_id)
  | TReset k =>
      '(b, last_id) ← flush b last_id;
      storage_op (fun s => ls_reset s k) ;; mret (b, last_id)
  end.

Fixpoint disk_loop (max_append_buffer_size : Z) (ts : list DiskTask) (b : Batcher) (last_id : LogId)
  : LM (Batcher * LogId) :=
  match ts with
  | [] => mret (b, last_id)
  | t :: ts' =>
      '(b, last_id) ← disk_task max_append_buffer_size t b last_id;
      disk_loop max_append_buffer_size ts' b last_id
  end.

(** [clear_memory_logs]: one critical section pops at most [clear_cap]. *)
Fixpoint clear_chunk (n : nat) (clear_id : LogId) (mem : list LogEntry) : nat * list LogEntry :=
  match n, mem with
  | Datatypes.S n', e :: mem' =>
      if logid_gtb e.(id) clear_id then (0%nat, mem)
      else let '(k, rest) := clear_chunk n' clear_id mem' in (Datatypes.S k, rest)
  | _, _ => (0%nat, mem)
  end.
Fixpoint clear_loop (fuel : nat) (clear_id : LogId) (mem : list LogEntry) : list LogEntry :=
  match fuel with
  | O => mem
  | Datatypes.S fuel' =>
      let '(nentries, mem') := clear_chunk clear_cap clear_id mem in
      if bool_decide (nentries = clear_cap) then clear_loop fuel' clear_id mem' else mem'
  end.
Definition clear_memory_logs (clear_id : LogId) : LM unit :=
  modify (fun m => m <| _logs_in_memory :=
    clear_loop (Datatypes.S (length m.(_logs_in_memory))) clear_id m.(_logs_in_memory) |>).

Definition set_disk_id (disk_id : LogId) : LM unit :=
  m ← get;
  if logid_ltb disk_id m.(_disk_id) then skip
  else
    modify (fun m => m <| _disk_id := disk_id |>) ;;
    clear_memory_logs (logid_min disk_id m.(_applied_id)).

Definition set_applied_id (applied_id : LogId) : LM unit :=
  m ← get;
  if logid_ltb applied_id m.(_applied_id) then skip
  else
    modify (fun m => m <| _applied_id := applied_id |>) ;;
    clear_memory_logs (logid_min m.(_disk_id) applied_id).

(** [disk_thread] on the first [n] tasks of the queue. *)
Definition disk_thread (max_append_buffer_size : Z) (n : nat) : LM unit :=
  m ← get;
  modify (fun m => m <| _disk_queue := drop n m.(_disk_queue) |>) ;;
  '(b, last_id) ← disk_loop max_append_buffer_size (take n m.(_disk_queue)) Batcher_empty m.(_disk_id);
  '(_, last_id) ← flush b last_id;
  set_disk_id last_id.

(** ** Snapshots *)
Definition set_snapshot (meta : SnapshotMeta) : LM unit :=
  m ← get;
  if meta.(last_included_index) <=? m.(_last_snapshot_id).(Types.index) then skip
  else
    let entry := mkConfigurationEntry (mkLogId meta.(last_included_index) meta.(last_included_term))
                   (Configuration_of meta.(meta_peers)) (Configuration_of meta.(meta_old_peers)) in
    let '(cm, held) := ConfigurationManager.set_snapshot m.(_config_manager) entry in
    check held ;;
    let term := unsafe_get_term m meta.(last_included_index) in
    let last_but_one_snapshot_id := m.(_last_snapshot_id) in
    let snapshot_id := mkLogId meta.(last_included_index) meta.(last_included_term) in
    modify (fun m =>
      m <| _config_manager := cm |>
        <| _last_snapshot_id := snapshot_id |>
        <| _applied_id := if logid_gtb snapshot_id m.(_applied_id) then snapshot_id else m.(_applied_id) |>) ;;
    if term =? 0 then
      modify (fun m => m <| _virtual_first_log_id := snapshot_id |>) ;;
      truncate_prefix (meta.(last_included_index) + 1)
    else if term =? meta.(last_included_term) then
      when (0 <? last_but_one_snapshot_id.(Types.index))
        (modify (fun m => m <| _virtual_first_log_id := last_but_one_snapshot_id |>) ;;
         truncate_prefix (last_but_one_snapshot_id.(Types.index) + 1))
    else
      modify (fun m => m <| _virtual_first_log_id := snapshot_id |>) ;;
      reset (meta.(last_included_index) + 1).

(** [clear_bufferred_logs]. *)
Definition clear_bufferred_logs : LM unit :=
  m ← get;
  when (negb (m.(_last_snapshot_id).(Types.index) =? 0))
    (modify (fun m => m <| _virtual_first_log_id := m.(_last_snapshot_id) |>) ;;
     truncate_prefix (m.(_last_snapshot_id).(Types.index) + 1)).

(** [check_consistency], and whether its two [CHECK]s hold. *)
Definition check_consistency (m : LogManager S) : Errno * bool :=
  (if logid_eqb m.(_last_snapshot_id) LogId_default then
     if m.(_first_log_index) =? 1 then OK else EIO
   else if (m.(_first_log_index) - 1 <=? m.(_last_snapshot_id).(Types.index))
           && (m.(_last_snapshot_id).(Types.index) <=? m.(_last_log_index)) then OK
   else EIO,
   (0 <? m.(_first_log_index)) && (0 <=? m.(_last_log_index))).

End manager.
