(* ===== verification/LogManagerProofs.v ===== *)
(** * LogManager: its view of the log, and what its operations do to it

    The state is related to an abstract log [l] by [view]: the memory holds a
    suffix of [l], the storage answers for the rest. *)

From S2P Require Import MemoryLog ConfigurationManager LogStorage LogManager Types Prelude.

Section proofs.
Context {S : Type} `{LS : LogStorage S} `{EPO : EndPointOrder}.
Implicit Types (m : LogManager S) (l : Log).

(** ** The view *)
Record view m l (n : nat) : Prop := {
  v_first : m.(_first_log_index) = l.(log_first);
  v_last : m.(_last_log_index) = log_last l;
  v_pos : 0 < l.(log_first);
  v_wf : log_wf l;
  v_terms : Forall (fun e => e.(id).(term) <> 0) l.(log_entries);
  v_memory : m.(_logs_in_memory) = drop n l.(log_entries);
  v_bound : (n <= length l.(log_entries))%nat;
  v_storage : exists sl, ls_repr m.(_log_storage) sl /\
    forall i, l.(log_first) <= i < l.(log_first) + Z.of_nat n -> log_get sl i = log_get l i
}.

(** The snapshot identifiers agree with the log where they meet it, and the
    entry before the first one is known unless it does not exist. *)
Definition id_agrees l (i : LogId) : Prop :=
  l.(log_first) <= i.(index) <= log_last l -> log_term l i.(index) = i.(term).
#[global] Arguments id_agrees : simpl never.
Record ids_agree m l : Prop := {
  ia_virtual : id_agrees l m.(_virtual_first_log_id);
  ia_snapshot : id_agrees l m.(_last_snapshot_id);
  ia_bounds : m.(_virtual_first_log_id).(index) <= m.(_applied_id).(index) /\
    m.(_last_snapshot_id).(index) <= m.(_applied_id).(index) /\ m.(_applied_id).(index) <= log_last l;
  ia_boundary : l.(log_first) = 1 \/ unsafe_get_term m (l.(log_first) - 1) <> 0
}.

(** The configurations known are those of entries that are still there. *)
Definition confs_bounded m : Prop :=
  cm_wf m.(_config_manager) /\
  Forall (fun c => entry_index c <= m.(_last_log_index)) m.(_config_manager).(_configurations).

(** Memory as a window. *)
Lemma memory_lookup m l n i :
  view m l n -> l.(log_first) <= i <= log_last l ->
  (get_entry_from_memory m i).1 =
    if i <? l.(log_first) + Z.of_nat n then None else log_get l i.
Proof.
  intros Hv Hi. unfold get_entry_from_memory. rewrite (v_memory _ _ _ Hv).
  pose proof (v_bound _ _ _ Hv) as Hn. unfold log_last, zlen in Hi.
  destruct (drop n (log_entries l)) as [|front mem] eqn:Hd.
  { apply (f_equal length) in Hd. rewrite length_drop in Hd. simpl in Hd.
    by rewrite (proj2 (Z.ltb_lt _ _)) by lia. }
  destruct (last (front :: mem)) as [back|] eqn:Hb; [|by apply last_None in Hb].
  assert (front.(id).(index) = l.(log_first) + Z.of_nat n) as Hf.
  { rewrite <- (v_wf _ _ _ Hv n front); [done|]. rewrite <- (Nat.add_0_r n), <- lookup_drop. by rewrite Hd. }
  assert (length (front :: mem) = length (log_entries l) - n)%nat as Hlen.
  { by rewrite <- Hd, length_drop. }
  assert (back.(id).(index) = log_last l) as Hbk.
  { rewrite last_lookup, <- Hd, lookup_drop, Hd, Hlen in Hb. rewrite (v_wf _ _ _ Hv _ back Hb).
    unfold log_last, zlen. simpl in Hlen. lia. }
  cbn [fst]. rewrite Hf, Hbk, (proj2 (Z.leb_le i _)) by (unfold log_last, zlen; lia). rewrite andb_true_r.
  destruct (Z.ltb_spec i (log_first l + Z.of_nat n)).
  - by rewrite (proj2 (Z.leb_gt _ _)) by lia.
  - rewrite (proj2 (Z.leb_le _ _)) by lia. rewrite <- Hd. unfold zget, log_get, zget.
    rewrite !bool_decide_false by lia. rewrite lookup_drop. f_equal. lia.
Qed.

(** The memory window never breaks the [CHECK] of its lookups. *)
Lemma memory_check m l n i : view m l n -> (get_entry_from_memory m i).2 = true.
Proof.
  intros Hv. unfold get_entry_from_memory. rewrite (v_memory _ _ _ Hv).
  assert (contiguous (log_first l + Z.of_nat n) (drop n (log_entries l))) as Hc.
  { apply contiguous_drop; [by eapply v_bound|by eapply v_wf]. }
  destruct (drop n (log_entries l)) as [|front mem]; [done|].
  destruct (last (front :: mem)) as [back|] eqn:Hb; [|by apply last_None in Hb]. simpl.
  rewrite (Hc 0%nat front), (Hc _ back) by (done || by rewrite <- last_lookup).
  apply Z.eqb_eq. unfold zlen. simpl. lia.
Qed.

Lemma storage_lookup m l n i :
  view m l n -> l.(log_first) <= i < l.(log_first) + Z.of_nat n ->
  ls_get_entry m.(_log_storage) i = log_get l i /\ ls_get_term m.(_log_storage) i = log_term l i.
Proof.
  intros Hv Hi. destruct (v_storage _ _ _ Hv) as (sl & Hr & Heq).
  rewrite (ls_get_entry_spec _ sl), (ls_get_term_spec _ sl) by done.
  unfold log_term. by rewrite Heq.
Qed.

Lemma log_get_in_range l i : l.(log_first) <= i <= log_last l -> exists e, log_get l i = Some e.
Proof. unfold log_last. intros. apply zget_is_Some. lia. Qed.

Lemma unsafe_get_term_view m l n i :
  view m l n -> ids_agree m l -> l.(log_first) <= i <= log_last l ->
  unsafe_get_term m i = log_term l i.
Proof.
  intros Hv Hia Hi. pose proof (v_pos _ _ _ Hv). unfold unsafe_get_term.
  destruct (Z.eqb_spec i 0); [lia|].
  destruct (Z.eqb_spec i (m.(_virtual_first_log_id).(index))) as [->|_].
  { symmetry. by apply (ia_virtual _ _ Hia). }
  destruct (Z.eqb_spec i (m.(_last_snapshot_id).(index))) as [->|_].
  { symmetry. by apply (ia_snapshot _ _ Hia). }
  rewrite (v_first _ _ _ Hv), (v_last _ _ _ Hv), !(proj2 (Z.ltb_ge _ _)) by lia. simpl.
  rewrite (memory_lookup m l n i Hv Hi). destruct (Z.ltb_spec i (log_first l + Z.of_nat n)).
  - apply (storage_lookup m l n i Hv). lia.
  - unfold log_term. by destruct (log_get_in_range l i Hi) as [e ->].
Qed.

(** Reads.  When the memory holds a suffix of the log and the storage the
    rest, an index in range is answered with the log's own entry and term,
    wherever it lives, and an index out of range with none; reading changes
    nothing, reports no error, and the memory window passes its [CHECK]. *)
Theorem reads_return_log m l n i :
  view m l n -> ids_agree m l ->
  get_entry i m = (log_get l i, m, []) /\
  (l.(log_first) <= i <= log_last l -> get_term m i = log_term l i) /\
  (get_entry_from_memory m i).2 = true.
Proof.
  intros Hv Hia. split_and!; [|intros; by apply (unsafe_get_term_view m l n)|by eapply memory_check].
  unfold get_entry. run. rewrite (v_first _ _ _ Hv), (v_last _ _ _ Hv).
  destruct (Z.ltb_spec (log_last l) i) as [Hi|Hi]; simpl.
  { unfold log_get, zget, log_last, zlen in *. case_bool_decide; [done|].
    by rewrite lookup_ge_None_2 by lia. }
  destruct (Z.ltb_spec i (log_first l)) as [Hf|Hf].
  { unfold log_get, zget. by rewrite bool_decide_true by lia. }
  rewrite (memory_lookup m l n i Hv) by lia. destruct (log_get_in_range l i) as [e He]; [lia|].
  destruct (Z.ltb_spec i (log_first l + Z.of_nat n)); rewrite ?He; [|done].
  destruct (storage_lookup m l n i Hv) as [-> _]; [lia|]. by rewrite He.
Qed.

(** The term read at any index from the first one on. *)
Lemma unsafe_get_term_from m l n i :
  view m l n -> ids_agree m l -> l.(log_first) <= i -> unsafe_get_term m i = log_term l i.
Proof.
  intros Hv Hia Hi. destruct (decide (i <= log_last l)); [by eapply unsafe_get_term_view|].
  rewrite log_term_out by lia. pose proof (v_pos _ _ _ Hv). pose proof (ia_bounds _ _ Hia).
  unfold unsafe_get_term.
  destruct (Z.eqb_spec i 0); [lia|].
  destruct (Z.eqb_spec i (m.(_virtual_first_log_id).(index))); [lia|].
  destruct (Z.eqb_spec i (m.(_last_snapshot_id).(index))); [lia|].
  rewrite (v_last _ _ _ Hv), (proj2 (Z.ltb_lt _ _)) by lia. done.
Qed.

Lemma conflict_scan_view m l n f es :
  view m l n -> ids_agree m l -> contiguous f es -> l.(log_first) <= f ->
  conflict_scan m es = log_conflict l es.
Proof.
  intros Hv Hia. revert f. induction es as [|e es IH]; intros f Hc Hf; [done|].
  apply contiguous_cons in Hc as [He Hc]. simpl.
  rewrite (unsafe_get_term_from m l n _ Hv Hia) by lia.
  destruct (_ =? _); simpl; [|done]. f_equal. apply (IH (f + 1)); [done|lia].
Qed.

(** ** Truncating the tail *)

(** The state [unsafe_truncate_suffix] leaves. *)
Definition truncated m (k kt : Z) : LogManager S :=
  m <| _logs_in_memory := pop_back_while (fun e => k <? e.(id).(index)) m.(_logs_in_memory) |>
    <| _last_log_index := k |>
    <| _config_manager := ConfigurationManager.truncate_suffix m.(_config_manager) k |>
    <| _disk_queue := m.(_disk_queue) ++ [TTruncateSuffix k kt] |>.

Lemma view_same m m' l n :
  m'.(_first_log_index) = m.(_first_log_index) -> m'.(_last_log_index) = m.(_last_log_index) ->
  m'.(_logs_in_memory) = m.(_logs_in_memory) -> m'.(_log_storage) = m.(_log_storage) ->
  view m l n -> view m' l n.
Proof. intros Hf Hl Hm Hs []. constructor; rewrite ?Hf, ?Hl, ?Hm, ?Hs; done. Qed.

Lemma log_get_none_or m l i : log_get l i = None \/ exists e, log_get l i = Some e.
Proof. destruct (log_get l i); eauto. Qed.

(** Truncating the tail keeps the view, on the truncated log. *)
Lemma view_truncated m l n k :
  view m l n -> l.(log_first) - 1 <= k <= log_last l ->
  view (m <| _logs_in_memory := pop_back_while (fun e => k <? e.(id).(index)) m.(_logs_in_memory) |>
          <| _last_log_index := k |>)
    (log_truncate_suffix l k) (Nat.min n (Z.to_nat (k - l.(log_first) + 1))).
Proof.
  intros Hv Hk. pose proof (v_bound _ _ _ Hv). unfold log_last, zlen in Hk.
  constructor; simpl.
  - rewrite (v_first _ _ _ Hv). lia.
  - rewrite log_last_truncate_suffix; [done|]. unfold log_last, zlen. lia.
  - pose proof (v_pos _ _ _ Hv). lia.
  - apply log_truncate_suffix_wf. by eapply v_wf.
  - apply Forall_take. by eapply v_terms.
  - rewrite (v_memory _ _ _ Hv), (pop_back_contiguous (log_first l + Z.of_nat n)).
    2:{ apply contiguous_drop; [done|by eapply v_wf]. }
    destruct (decide (log_first l + Z.of_nat n <= k + 1)).
    + rewrite Nat.min_l by lia. rewrite skipn_firstn_comm. f_equal. lia.
    + rewrite Nat.min_r by lia. replace (Z.to_nat (k - (_ + _) + 1)) with 0%nat by lia.
      symmetry. apply drop_ge. rewrite length_take. lia.
  - rewrite length_take. lia.
  - destruct (v_storage _ _ _ Hv) as (sl & Hr & Heq). exists sl. split; [done|]. intros i Hi.
    rewrite Heq by lia. rewrite log_get_truncate_suffix by lia. by rewrite (proj2 (Z.ltb_ge _ _)) by lia.
Qed.

(** Shortening the log keeps the identifiers in agreement, as long as it
    keeps the entries they name. *)
Lemma ids_agree_truncated m l n k :
  view m l n -> ids_agree m l -> l.(log_first) - 1 <= k <= log_last l ->
  m.(_applied_id).(index) <= k ->
  ids_agree (m <| _logs_in_memory := pop_back_while (fun e => k <? e.(id).(index)) m.(_logs_in_memory) |>
               <| _last_log_index := k |>) (log_truncate_suffix l k).
Proof.
  intros Hv Hia Hk Hak. pose proof (ia_bounds _ _ Hia).
  assert (forall x, id_agrees l x -> id_agrees (log_truncate_suffix l k) x) as Hag.
  { unfold id_agrees. intros x Hx Hb. rewrite log_last_truncate_suffix in Hb by done. simpl in Hb.
    unfold log_term. rewrite log_get_truncate_suffix by lia. rewrite (proj2 (Z.ltb_ge _ _)) by lia.
    apply Hx. lia. }
  constructor; simpl.
  - apply Hag, Hia.
  - apply Hag, Hia.
  - rewrite log_last_truncate_suffix by done. lia.
  - rewrite Z.min_l by lia. destruct (ia_boundary _ _ Hia) as [?|Hb]; [by left|right].
    unfold unsafe_get_term in *. simpl.
    destruct (_ =? 0); [done|]. destruct (_ =? _); [done|]. destruct (_ =? _); [done|].
    rewrite (v_first _ _ _ Hv) in *. by rewrite (proj2 (Z.ltb_lt (log_first l - 1) _)), orb_true_r in Hb by lia.
Qed.

(** The last kept entry has a known term. *)
Lemma boundary_term m l n k :
  view m l n -> ids_agree m l -> l.(log_first) - 1 <= k <= log_last l ->
  k = 0 \/ unsafe_get_term m k <> 0.
Proof.
  intros Hv Hia Hk. destruct (decide (k = l.(log_first) - 1)) as [->|].
  - destruct (ia_boundary _ _ Hia); [left; lia|by right].
  - right. rewrite (unsafe_get_term_view m l n) by (done || lia).
    destruct (log_get_in_range l k) as [e He]; [lia|]. unfold log_term. rewrite He. simpl.
    pose proof (v_terms _ _ _ Hv) as Ht. rewrite Forall_lookup in Ht.
    apply zget_Some in He as [_ He]. by eapply Ht.
Qed.

Lemma unsafe_truncate_suffix_eq m l n k :
  view m l n -> ids_agree m l -> l.(log_first) - 1 <= k <= log_last l ->
  m.(_applied_id).(index) <= k ->
  exists kt, unsafe_truncate_suffix k m = (tt, truncated m k kt, []).
Proof.
  intros Hv Hia Hk Ha. unfold unsafe_truncate_suffix. run.
  rewrite (proj2 (Z.ltb_ge _ _)) by lia.
  set (m1 := set_field _last_log_index k _).
  pose proof (boundary_term m1 _ _ k (view_truncated m l n k Hv Hk) (ids_agree_truncated m l n k Hv Hia Hk Ha)) as Hb.
  destruct Hb as [Hb|Hb].
  { rewrite log_last_truncate_suffix by done. simpl. lia. }
  - subst k. simpl. by eexists.
  - apply Z.eqb_neq in Hb. rewrite Hb. simpl. rewrite orb_true_r. by eexists.
Qed.

(** ** Storing entries *)

(** The configurations known, all below [f]. *)
Definition confs_below (f : Z) (cm : ConfigurationManager) : Prop :=
  cm_wf cm /\ Forall (fun c => entry_index c < f) cm.(_configurations).

Lemma confs_below_mono f f' cm : f <= f' -> confs_below f cm -> confs_below f' cm.
Proof. intros Hf [Hwf Hc]. split; [done|]. eapply Forall_impl; [exact Hc|]. simpl. lia. Qed.

Lemma add_below f cm c :
  confs_below f cm -> entry_index c = f ->
  exists cm', ConfigurationManager.add cm c = (OK, cm', true) /\ confs_below (f + 1) cm'.
Proof.
  intros [Hwf Hlt] Hc. destruct (ConfigurationManager.add cm c) as [[r cm1] held] eqn:Ha.
  pose proof (add_wf _ _ _ _ _ Hwf Ha) as Hwf1. unfold ConfigurationManager.add in Ha.
  destruct (last (_configurations cm)) as [b|] eqn:Hb.
  - assert (entry_index b < f) as Hbf.
    { rewrite Forall_forall in Hlt. by apply Hlt, last_Some_elem_of. }
    rewrite (proj2 (Z.leb_gt _ _)) in Ha by lia. simplify_eq. eexists. split; [done|]. split; [exact Hwf1|].
    simpl. apply Forall_app. split; [eapply Forall_impl; [exact Hlt|]; simpl; lia|]. repeat constructor. lia.
  - simplify_eq. eexists. split; [done|]. split; [exact Hwf1|]. simpl. repeat constructor. lia.
Qed.

Lemma add_configuration_eq f e m :
  e.(id).(index) = f -> confs_below f m.(_config_manager) ->
  exists cm, add_configuration e m = (tt, m <| _config_manager := cm |>, []) /\ confs_below (f + 1) cm.
Proof.
  intros He Hcm. unfold add_configuration. destruct (bool_decide _).
  - destruct (add_below f m.(_config_manager) (ConfigurationEntry_of e) Hcm He) as (cm & Ha & Hcm').
    exists cm. run. rewrite Ha. by unfold check.
  - exists m.(_config_manager). split; [unfold skip; by destruct m|]. eapply confs_below_mono; [|done]. lia.
Qed.

(** The loop over the configurations of contiguous entries never meets an
    index that goes back. *)
Lemma add_configurations_eq f es m :
  contiguous f es -> confs_below f m.(_config_manager) ->
  exists cm, mapM_ add_configuration es m = (tt, m <| _config_manager := cm |>, []) /\
    confs_below (f + zlen es) cm.
Proof.
  revert f m. induction es as [|e es IH]; intros f m Hc Hcm.
  { exists m.(_config_manager). rewrite zlen_nil, Z.add_0_r. rewrite mapM_nil. split; [unfold skip; by destruct m|done]. }
  apply contiguous_cons in Hc as [He Hc]. rewrite zlen_cons, mapM_cons.
  destruct (add_configuration_eq f e m He Hcm) as (cm1 & Heq1 & Hcm1).
  destruct (IH (f + 1) (m <| _config_manager := cm1 |>)) as (cm & Heq & Hcm'); [done..|].
  exists cm. run. rewrite Heq1, Heq. split; [done|].
  by replace (f + (1 + zlen es)) with (f + 1 + zlen es) by lia.
Qed.

(** The only event of a successful append is that waiters are woken. *)
Definition wakes (e : Event) : Prop := exists wm code, e = OnNewLog wm code.

Lemma wakeup_all_waiter_eq m :
  exists ev, wakeup_all_waiter m = (tt, m <| _wait_map := ∅ |>, ev) /\ Forall wakes ev.
Proof.
  unfold wakeup_all_waiter. run. eexists. split; [done|]. apply Forall_fmap, Forall_forall.
  intros w _. by eexists _, _.
Qed.

(** Fields the append path leaves alone. *)
Definition same_ids m m' : Prop :=
  m'.(_applied_id) = m.(_applied_id) /\ m'.(_disk_id) = m.(_disk_id) /\
  m'.(_virtual_first_log_id) = m.(_virtual_first_log_id) /\
  m'.(_last_snapshot_id) = m.(_last_snapshot_id) /\ m'.(_has_error) = m.(_has_error).

Lemma ids_agree_same m m' l l' :
  ids_agree m l -> same_ids m m' -> m'.(_first_log_index) = m.(_first_log_index) ->
  m.(_first_log_index) = l.(log_first) -> l'.(log_first) = l.(log_first) ->
  log_last l <= log_last l' ->
  (forall i, i <= log_last l -> log_get l' i = log_get l i) -> ids_agree m' l'.
Proof.
  intros Hia (Hap & _ & Hv & Hs & _) Hf Hfl Hfirst Hlast Hget. pose proof (ia_bounds _ _ Hia).
  assert (forall x, x.(index) <= log_last l -> id_agrees l x -> id_agrees l' x) as Hag.
  { unfold id_agrees, log_term. intros x Hx Ha Hr. rewrite Hget by done. apply Ha. lia. }
  constructor; rewrite ?Hv, ?Hs, ?Hap, ?Hfirst.
  - apply Hag; [lia|apply Hia].
  - apply Hag; [lia|apply Hia].
  - lia.
  - destruct (ia_boundary _ _ Hia) as [?|Hb]; [by left|right]. unfold unsafe_get_term in *.
    rewrite Hv, Hs, Hf. destruct (_ =? 0); [done|]. destruct (_ =? _); [done|]. destruct (_ =? _); [done|].
    by rewrite Hfl, (proj2 (Z.ltb_lt (log_first l - 1) _)), orb_true_r in Hb by lia.
Qed.

Lemma store_entries_spec m l n es d :
  view m l n -> ids_agree m l -> confs_bounded m -> contiguous (log_last l + 1) es ->
  Forall (fun e => e.(id).(term) <> 0) es ->
  exists m' ev dn,
    store_entries es d (m <| _last_log_index := log_last l + zlen es |>) = (tt, m', ev) /\
    view m' (log_append l es) n /\ ids_agree m' (log_append l es) /\ confs_bounded m' /\
    same_ids m m' /\ m'.(_disk_queue) = m.(_disk_queue) ++ [TStable dn] /\
    dn.(entries) = es /\ Forall wakes ev.
Proof.
  intros Hv Hia [Hcm Hcb] Hc Ht. set (m0 := m <| _last_log_index := _ |>). unfold store_entries.
  destruct (add_configurations_eq (log_last l + 1) es m0) as (cm & Heq & Hwf & Hlt); [done| |].
  { split; [done|]. simpl. eapply Forall_impl; [exact Hcb|]. simpl. rewrite (v_last _ _ _ Hv). lia. }
  run. rewrite Heq. unfold queue_disk. run.
  edestruct wakeup_all_waiter_eq as (ev & Hw & Hev). rewrite Hw. eexists _, ev, _.
  split; [reflexivity|]. simpl.
  assert (forall m', m'.(_first_log_index) = m.(_first_log_index) ->
    m'.(_last_log_index) = log_last l + zlen es -> m'.(_logs_in_memory) = m.(_logs_in_memory) ++ es ->
    m'.(_log_storage) = m.(_log_storage) -> view m' (log_append l es) n) as Hview.
  { intros m' H1 H2 H3 H4. constructor; rewrite ?H1, ?H2, ?H3, ?H4; simpl.
    - by eapply v_first.
    - by rewrite log_last_append.
    - by eapply v_pos.
    - apply log_append_wf; [by eapply v_wf|done].
    - apply Forall_app. split; [by eapply v_terms|done].
    - rewrite (v_memory _ _ _ Hv), drop_app_le by (by eapply v_bound). done.
    - rewrite length_app. pose proof (v_bound _ _ _ Hv). lia.
    - destruct (v_storage _ _ _ Hv) as (sl & Hr & Hg). exists sl. split; [done|]. intros i Hi.
      rewrite log_get_append, (proj2 (Z.leb_le _ _)); [by apply Hg|].
      pose proof (v_bound _ _ _ Hv). unfold log_last, zlen. lia. }
  split_and!.
  - by apply Hview.
  - eapply (ids_agree_same m); [exact Hia|done|done|by eapply v_first|done| |].
    + rewrite log_last_append. pose proof (zlen_nonneg es). lia.
    + intros i Hi. by rewrite log_get_append, (proj2 (Z.leb_le _ _)).
  - split; [done|]. simpl. eapply Forall_impl; [exact Hlt|]. simpl. lia.
  - done.
  - done.
  - by destruct es.
  - done.
Qed.

(** ** Appending as a follower *)

(** What a queued task does to the log on disk. *)
Definition task_log l (t : DiskTask) : Log :=
  match t with
  | TStable d => log_append l d.(entries)
  | TLastLogId _ => l
  | TTruncatePrefix k => log_truncate_prefix l k
  | TTruncateSuffix k _ => log_truncate_suffix l k
  | TReset k => log_reset k
  end.

(** What an accepted append leads to: the log [l'], reached on disk by the
    tasks it queues, with waiters woken and nothing else reported. *)
Definition appended m l l' (r : unit * LogManager S * list Event) : Prop :=
  exists m' ev n' ts,
    r = (tt, m', ev) /\ view m' l' n' /\ ids_agree m' l' /\ confs_bounded m' /\ same_ids m m' /\
    m'.(_disk_queue) = m.(_disk_queue) ++ ts /\ fold_left task_log ts l = l' /\ Forall wakes ev.

Lemma store_appended m l n es d x :
  view m l n -> ids_agree m l -> confs_bounded m -> contiguous (log_last l + 1) es ->
  Forall (fun e => e.(id).(term) <> 0) es -> x = log_last l + zlen es ->
  appended m l (log_append l es) (store_entries es d (m <| _last_log_index := x |>)).
Proof.
  intros Hv Hia Hcb Hc Ht ->.
  destruct (store_entries_spec m l n es d) as (m' & ev & dn & Heq & H1 & H2 & H3 & H4 & H5 & H6 & H7); [done..|].
  exists m', ev, n, [TStable dn]. simpl. rewrite H6. split_and!; done.
Qed.

(** Chaining a truncation before an append. *)
Lemma appended_truncated m l n k kt es d x :
  view m l n -> ids_agree m l -> confs_bounded m -> l.(log_first) - 1 <= k <= log_last l ->
  m.(_applied_id).(index) <= k -> contiguous (k + 1) es ->
  Forall (fun e => e.(id).(term) <> 0) es -> x = k + zlen es ->
  appended m l (log_append (log_truncate_suffix l k) es)
    (store_entries es d ((truncated m k kt) <| _last_log_index := x |>)).
Proof.
  intros Hv Hia [Hcw Hcb] Hk Ha Hc Ht ->.
  assert (log_last (log_truncate_suffix l k) = k) as Hlast by (by apply log_last_truncate_suffix).
  destruct (store_entries_spec (truncated m k kt) (log_truncate_suffix l k)
    (Nat.min n (Z.to_nat (k - l.(log_first) + 1))) es d)
    as (m' & ev & dn & Heq & H1 & H2 & H3 & H4 & H5 & H6 & H7).
  - eapply view_same; [..|exact (view_truncated m l n k Hv Hk)]; done.
  - eapply (ids_agree_same _ _ _ _ (ids_agree_truncated m l n k Hv Hia Hk Ha)); try done.
    simpl. rewrite (v_first _ _ _ Hv). lia.
  - split; [by apply truncate_suffix_wf|]. simpl. rewrite pop_back_above_filter by done.
    apply Forall_forall. by intros c [? _]%list_elem_of_filter.
  - by rewrite Hlast.
  - done.
  - rewrite Hlast in Heq.
    exists m', ev, (Nat.min n (Z.to_nat (k - l.(log_first) + 1))), [TTruncateSuffix k kt; TStable dn].
    split_and!; try done.
    + rewrite H5. simpl. by rewrite <- app_assoc.
    + simpl. by rewrite H6.
Qed.

Lemma log_resolve_fast l f es :
  contiguous f es -> f = log_last l + 1 -> Forall (fun e => e.(id).(term) <> 0) es ->
  log_resolve l es = log_append l es.
Proof.
  intros Hc Hf Ht. unfold log_resolve. destruct es as [|e es]; [by rewrite log_append_nil|].
  apply contiguous_cons in Hc as [He _]. inversion Ht as [|? ? Hte _]. simpl.
  rewrite log_term_out by lia. destruct (Z.eqb_spec 0 e.(id).(term)); [by symmetry in e0|]. simpl.
  replace (e.(id).(index) - 1) with (log_last l) by lia. by rewrite log_truncate_suffix_last.
Qed.

Lemma last_contiguous f es e : contiguous f es -> last es = Some e -> e.(id).(index) = f + zlen es - 1.
Proof.
  intros Hc He. rewrite last_lookup in He. rewrite (Hc _ _ He). unfold zlen.
  destruct es; [done|]. simpl. lia.
Qed.

Section follower.
Context (m : LogManager S) (l : Log) (n : nat) (f : Z) (es : list LogEntry) (done : StableClosure).
Context (Hv : view m l n) (Hia : ids_agree m l) (Hcb : confs_bounded m)
  (Herr : m.(_has_error) = false)
  (Hes : contiguous f es) (Hf : l.(log_first) <= f <= log_last l + 1)
  (Hterms : Forall (fun e => e.(id).(term) <> 0) es)
  (Hnew : m.(_applied_id).(index) < f + zlen es - 1)
  (Hcommitted : Forall (fun e => e.(id).(index) <= m.(_applied_id).(index) ->
                          log_term l e.(id).(index) = e.(id).(term)) es).

(** The overlapping case of [check_and_resolve_conflict]. *)
Lemma resolve_overlap back :
  last es = Some back -> f <= log_last l -> es <> [] ->
  appended m l (log_resolve l es) (append_entries es done m).
Proof using All.
  intros Hback Hover Hne. destruct es as [|front es'] eqn:Hes'; [done|]. rewrite <- Hes' in *.
  unfold append_entries. run. rewrite Herr, Hes', <- Hes', Hback.
  assert (front.(id).(index) = f) as Hfr by (subst es; by apply contiguous_cons in Hes as [? _]).
  pose proof (last_contiguous _ _ _ Hes Hback) as Hbk.
  pose proof (v_pos _ _ _ Hv). pose proof (v_last _ _ _ Hv) as Hl.
  unfold check_and_resolve_conflict. run.
  rewrite (proj2 (Z.eqb_neq _ 0)), (proj2 (Z.ltb_ge _ _)), (proj2 (Z.leb_gt _ _)),
    (proj2 (Z.eqb_neq _ (_ + 1))) by lia.
  rewrite (conflict_scan_view m l n f) by (done || lia).
  unfold log_resolve. destruct (es !! log_conflict l es) as [e|] eqn:He.
  - destruct (resolve_conflict_bounds l f es Hes Hf Hterms e He) as [Hei Heb].
    assert (m.(_applied_id).(index) < e.(id).(index)) as Happ.
    { rewrite Forall_lookup in Hcommitted. specialize (Hcommitted _ _ He).
      pose proof (log_conflict_differs l es e He). lia. }
    assert (contiguous (e.(id).(index) - 1 + 1) (drop (log_conflict l es) es)) as Hdc.
    { replace (e.(id).(index) - 1 + 1) with (f + Z.of_nat (log_conflict l es)) by lia.
      apply contiguous_drop; [|done]. apply lookup_lt_Some in He. lia. }
    assert (Forall (fun e => e.(id).(term) <> 0) (drop (log_conflict l es) es)) as Hdt
      by (by apply Forall_drop).
    assert (back.(id).(index) = e.(id).(index) - 1 + zlen (drop (log_conflict l es) es)) as Hlen.
    { rewrite Hbk, Hei. apply lookup_lt_Some in He. unfold zlen. rewrite length_drop. lia. }
    destruct (Z.leb_spec e.(id).(index) (_last_log_index m)).
    + destruct (unsafe_truncate_suffix_eq m l n (e.(id).(index) - 1)) as [kt Hkt]; [done|done|lia|lia|].
      rewrite Hkt. simpl. edestruct (appended_truncated m l n (e.(id).(index) - 1) kt) as
        (m' & ev & n' & ts & Heq & Hrest); [done|done|done|lia|lia|exact Hdc|exact Hdt|exact Hlen|].
      rewrite Heq. by exists m', ev, n', ts.
    + replace (e.(id).(index) - 1) with (log_last l) in * by lia. rewrite log_truncate_suffix_last.
      edestruct (store_appended m l n) as (m' & ev & n' & ts & Heq & Hrest);
        [done|done|done|exact Hdc|exact Hdt|exact Hlen|].
      simpl. rewrite Heq. by exists m', ev, n', ts.
  - rewrite (log_conflict_none l es He), drop_all.
    edestruct (store_appended m l n [] done (log_last l)) as (m' & ev & n' & ts & Heq & Hrest);
      [done|done|done|apply contiguous_nil|constructor|by rewrite zlen_nil; lia|].
    rewrite <- Hl in Heq. cbn -[store_entries]. replace (m <| _last_log_index := _last_log_index m |>) with m in Heq
      by (by destruct m).
    rewrite Heq. rewrite log_append_nil in Hrest. by exists m', ev, n', ts.
Qed.

Lemma append_follower : es <> [] -> appended m l (log_resolve l es) (append_entries es done m).
Proof using All.
  intros Hne. destruct (last es) as [back|] eqn:Hback; [|by apply last_None in Hback].
  destruct (decide (f <= log_last l)); [by eapply resolve_overlap|].
  destruct es as [|front es'] eqn:Hes'; [done|]. rewrite <- Hes' in *.
  rewrite (log_resolve_fast l f es) by (done || lia).
  unfold append_entries. run. rewrite Herr, Hes', <- Hes', Hback.
  assert (front.(id).(index) = f) as Hfr by (subst es; by apply contiguous_cons in Hes as [? _]).
  pose proof (last_contiguous _ _ _ Hes Hback) as Hbk.
  pose proof (v_pos _ _ _ Hv). pose proof (v_last _ _ _ Hv) as Hl.
  unfold check_and_resolve_conflict. run.
  rewrite (proj2 (Z.eqb_neq _ 0)), (proj2 (Z.ltb_ge _ _)), (proj2 (Z.leb_gt _ _)),
    (proj2 (Z.eqb_eq _ (_ + 1))) by lia.
  edestruct (store_appended m l n es done back.(id).(index)) as (m' & ev & n' & ts & Heq & Hrest);
    [done|done|done|by replace (log_last l + 1) with f by lia|done|lia|].
  cbn -[store_entries]. rewrite Heq. by exists m', ev, n', ts.
Qed.

End follower.

(** C39: log matching at the follower.  Take a log manager without an error whose
    memory and storage hold the log [l], and entries of a leader, at least one,
    with terms other than 0, contiguous from [f], where [f] is not before the first
    index of [l] nor leaves a gap after its last, that reach past what is applied
    and agree with it.  They turn [l] into [l']: [l'] has the
    leader's term at every index sent; nothing below [f] nor at or below the
    applied index moves; when every entry is already there [l'] is [l], so a
    stale or duplicated request never shortens the log; otherwise [l'] ends with
    the last entry sent.  Memory and storage keep representing it, the disk
    queue receives exactly the tasks that take [l] to [l'], no fatal error and
    no failed check is reported, and only waiters are woken.  Entries from before
    the first index are not resolved ([entries_before_the_first_index]). *)
Theorem follower_append_resolves m l n f es done :
  view m l n -> ids_agree m l -> confs_bounded m -> m.(_has_error) = false ->
  es <> [] -> contiguous f es -> l.(log_first) <= f <= log_last l + 1 ->
  Forall (fun e => e.(id).(term) <> 0) es -> m.(_applied_id).(index) < f + zlen es - 1 ->
  Forall (fun e => e.(id).(index) <= m.(_applied_id).(index) ->
            log_term l e.(id).(index) = e.(id).(term)) es ->
  let l' := log_resolve l es in
  appended m l l' (append_entries es done m) /\
  (forall i e, zget es (i - f) = Some e -> log_term l' i = e.(id).(term)) /\
  (forall i, i < f \/ i <= m.(_applied_id).(index) -> log_get l' i = log_get l i) /\
  (Forall (fun e => log_term l e.(id).(index) = e.(id).(term)) es -> l' = l) /\
  (l' <> l -> log_last l' = f + zlen es - 1).
Proof.
  intros Hv Hia Hcb Herr Hne Hes Hf Hterms Hnew Hcom l'.
  assert (forall e, es !! log_conflict l es = Some e -> m.(_applied_id).(index) < e.(id).(index)) as Happ.
  { intros e He. rewrite Forall_lookup in Hcom. specialize (Hcom _ _ He).
    pose proof (log_conflict_differs l es e He). lia. }
  split_and!.
  - by eapply append_follower.
  - intros i e He. by eapply resolve_terms.
  - intros i Hi. apply (resolve_keeps l f es Hes Hf Hterms).
    destruct (es !! log_conflict l es) as [e|] eqn:He.
    + specialize (Happ e eq_refl). rewrite (Hes _ _ He) in Happ. lia.
    + apply log_conflict_none in He. rewrite He. unfold zlen in Hnew. lia.
  - intros Hall. unfold l', log_resolve. destruct (es !! log_conflict l es) as [e|] eqn:He; [|done].
    pose proof (log_conflict_differs l es e He). rewrite Forall_lookup in Hall. by apply Hall in He.
  - intros Hl. unfold l'. rewrite (resolve_last l f es Hes Hf Hterms).
    case_bool_decide as Hc; [|done]. destruct Hl. unfold l', log_resolve.
    rewrite Hc. by rewrite lookup_ge_None_2.
Qed.

(** ** Appending as a leader *)
Lemma assign_indexes_contiguous k es : contiguous (k + 1) (assign_indexes k es).
Proof.
  revert k. induction es as [|e es IH]; intros k; [apply contiguous_nil|]. simpl.
  apply contiguous_cons. split; [done|apply IH].
Qed.
Lemma assign_indexes_length k es : zlen (assign_indexes k es) = zlen es.
Proof.
  revert k. induction es as [|e es IH]; intros k; [done|]. simpl. by rewrite !zlen_cons, IH.
Qed.
Lemma assign_indexes_terms k es :
  Forall (fun e => e.(id).(term) <> 0) es -> Forall (fun e => e.(id).(term) <> 0) (assign_indexes k es).
Proof. intros H. revert k. induction H as [|e es He H IH]; intros k; simpl; by constructor. Qed.

(** Appending as a leader.  Entries that come without an index are numbered
    consecutively after the end of the log, in the order given, and nothing
    else of them changes; the log grows by exactly them, in memory and, through
    the one task queued, on disk. *)
Theorem leader_append_numbers m l n front es done :
  view m l n -> ids_agree m l -> confs_bounded m -> m.(_has_error) = false ->
  front.(id).(index) = 0 -> Forall (fun e => e.(id).(term) <> 0) (front :: es) ->
  let l' := log_append l (assign_indexes (log_last l) (front :: es)) in
  appended m l l' (append_entries (front :: es) done m) /\
  log_last l' = log_last l + 1 + zlen es /\
  (forall i e, (front :: es) !! i = Some e ->
     log_get l' (log_last l + 1 + Z.of_nat i) =
       Some (e <| id := mkLogId (log_last l + 1 + Z.of_nat i) e.(id).(term) |>)).
Proof.
  intros Hv Hia Hcb Herr Hfr Ht l'. split_and!.
  - unfold append_entries. run. rewrite Herr.
    destruct (last (front :: es)) as [back|] eqn:Hb; [|by apply last_None in Hb].
    unfold check_and_resolve_conflict. run. rewrite Hfr. cbn -[store_entries assign_indexes].
    rewrite (v_last _ _ _ Hv). edestruct (store_appended m l n (assign_indexes (log_last l) (front :: es)) done)
      as (m' & ev & n' & ts & Heq & Hrest); [done|done|done|apply assign_indexes_contiguous
      |by apply assign_indexes_terms|by rewrite assign_indexes_length|].
    rewrite Heq. by exists m', ev, n', ts.
  - unfold l'. rewrite log_last_append, assign_indexes_length, zlen_cons. lia.
  - intros i e He. unfold l'. rewrite log_get_append, (proj2 (Z.leb_gt _ _)) by lia.
    unfold zget. rewrite bool_decide_false by lia.
    replace (Z.to_nat _) with i by lia. clear -He. revert i He. generalize (log_last l) as k.
    generalize (front :: es) as xs. induction xs as [|x xs IH]; intros k [|i] He; simpl in *; simplify_eq.
    + by rewrite Z.add_0_r.
    + rewrite (IH (k + 1) i He). by replace (k + 1 + 1 + Z.of_nat i) with (k + 1 + Z.of_nat (Datatypes.S i)) by lia.
Qed.

End proofs.

(** ** Examples: four entries, the last two only in memory *)
Section examples.
#[local] Existing Instance lex_endpoint_order.

Definition ex_entry (i t : Z) : LogEntry := MemoryLog.example_entry i t.
Definition example_log : Log := mkLog 1 [ex_entry 1 1; ex_entry 2 1; ex_entry 3 2; ex_entry 4 2].
Definition example_store : MemoryLogStorage :=
  mkMemoryLogStorage 1 3 [ex_entry 1 1; ex_entry 2 1; ex_entry 3 2].
Definition example_manager : LogManager MemoryLogStorage :=
  (LogManager_default example_store)
    <| _first_log_index := 1 |> <| _last_log_index := 4 |>
    <| _logs_in_memory := [ex_entry 3 2; ex_entry 4 2] |>
    <| _disk_id := mkLogId 3 2 |> <| _applied_id := mkLogId 2 1 |>.

Ltac solve_contiguous :=
  repeat (apply contiguous_cons; split; [reflexivity|]); apply contiguous_nil.

Lemma example_view : view example_manager example_log 2.
Proof.
  constructor; try done.
  - solve_contiguous.
  - repeat constructor; discriminate.
  - unfold example_log. simpl. lia.
  - exists (mkLog 1 [ex_entry 1 1; ex_entry 2 1; ex_entry 3 2]). split.
    + split_and!; try done. solve_contiguous.
    + simpl. intros i Hi. assert (i = 1 \/ i = 2) as [-> | ->] by lia; done.
Qed.
Lemma example_ids : ids_agree example_manager example_log.
Proof. constructor; unfold id_agrees, example_log, log_last, zlen; simpl; try lia. Qed.
Lemma example_confs : confs_bounded example_manager.
Proof. split; [constructor|constructor]. Qed.

Lemma reads_return_log_witness :
  log_get example_log 2 = Some (ex_entry 2 1) /\
  get_entry 2 example_manager = (log_get example_log 2, example_manager, []) /\
  (1 <= 2 <= 4 -> get_term example_manager 2 = log_term example_log 2) /\
  (get_entry_from_memory example_manager 2).2 = true.
Proof.
  split; [done|]. exact (reads_return_log example_manager example_log 2 2 example_view example_ids).
Defined.

Definition example_done : StableClosure := mkStableClosure 1 OK 0 [].

Lemma follower_append_resolves_witness :
  let es := [ex_entry 3 2; ex_entry 4 3; ex_entry 5 3] in
  let l' := log_resolve example_log es in
  l' = mkLog 1 [ex_entry 1 1; ex_entry 2 1; ex_entry 3 2; ex_entry 4 3; ex_entry 5 3] /\
  appended example_manager example_log l' (append_entries es example_done example_manager) /\
  (forall i e, zget es (i - 3) = Some e -> log_term l' i = e.(id).(term)) /\
  (forall i, i < 3 \/ i <= 2 -> log_get l' i = log_get example_log i) /\
  (Forall (fun e => log_term example_log e.(id).(index) = e.(id).(term)) es -> l' = example_log) /\
  (l' <> example_log -> log_last l' = 3 + zlen es - 1).
Proof.
  split; [reflexivity|].
  apply (follower_append_resolves example_manager example_log 2 3
    [ex_entry 3 2; ex_entry 4 3; ex_entry 5 3] example_done example_view example_ids example_confs).
  - reflexivity.
  - discriminate.
  - solve_contiguous.
  - unfold example_log, log_last, zlen. simpl. lia.
  - repeat constructor; discriminate.
  - reflexivity.
  - repeat constructor; simpl; lia.
Defined.

(** The follower has entries 3 to 5 behind a snapshot at 2, and has applied 3.  A
    delayed request for entries 1 to 4, whose previous index 0 has the term 0 the
    node looks for, reaches past what is applied; entry 1, of which only the
    snapshot is left, is taken for a conflict, the log is to be truncated below
    what is applied, which is fatal, and the entries end up behind the others. *)
Definition behind_snapshot : LogManager MemoryLogStorage :=
  (LogManager_default (mkMemoryLogStorage 3 5 [ex_entry 3 2; ex_entry 4 2; ex_entry 5 2]))
    <| _first_log_index := 3 |> <| _last_log_index := 5 |> <| _logs_in_memory := [ex_entry 4 2; ex_entry 5 2] |>
    <| _last_snapshot_id := mkLogId 2 1 |> <| _virtual_first_log_id := mkLogId 2 1 |>
    <| _disk_id := mkLogId 5 2 |> <| _applied_id := mkLogId 3 2 |>.

Example entries_before_the_first_index :
  get_term behind_snapshot 0 = 0 /\
  let '(_, m', ev) := append_entries [ex_entry 1 1; ex_entry 2 1; ex_entry 3 2; ex_entry 4 2] example_done behind_snapshot in
  ev = [Fatal] /\ m'.(_last_log_index) = 4 /\
  map (fun e => e.(id).(index)) m'.(_logs_in_memory) = [4; 5; 1; 2; 3; 4].
Proof. vm_compute. done. Qed.

Lemma leader_append_numbers_witness :
  let es := [mkLogEntry ENTRY_TYPE_DATA (mkLogId 0 3) None None []] in
  let front := mkLogEntry ENTRY_TYPE_DATA (mkLogId 0 3) None None [] in
  let l' := log_append example_log (assign_indexes 4 (front :: es)) in
  l'.(log_entries) = example_log.(log_entries) ++ [ex_entry 5 3; ex_entry 6 3] /\
  appended example_manager example_log l' (append_entries (front :: es) example_done example_manager) /\
  log_last l' = 4 + 1 + zlen es /\
  (forall i e, (front :: es) !! i = Some e ->
     log_get l' (4 + 1 + Z.of_nat i) = Some (e <| id := mkLogId (4 + 1 + Z.of_nat i) e.(id).(term) |>)).
Proof.
  split; [reflexivity|].
  apply (leader_append_numbers example_manager example_log 2
    (mkLogEntry ENTRY_TYPE_DATA (mkLogId 0 3) None None [])
    [mkLogEntry ENTRY_TYPE_DATA (mkLogId 0 3) None None []] example_done
    example_view example_ids example_confs); try reflexivity.
  repeat constructor; discriminate.
Defined.
End examples.
