(* ===== verification/LogManagerDisk.v ===== *)
(** * LogManager: the disk thread and snapshots

    The disk thread groups the appends of a run into larger writes.  On a
    storage that does not fail, a run has the effect of its tasks in order,
    answers queries of the last log id accordingly and completes their closures
    in order; how the queue is cut into runs shows in the answers. *)

From S2P Require Import Ballot MemoryLog ConfigurationManager LogStorage LogManager LogManagerProofs Types Prelude.

Section disk.
Context {S : Type} `{LS : LogStorage S} `{EPO : EndPointOrder}.
Implicit Types (m : LogManager S) (l : Log).

(** What a task expects of the log it is applied to. *)
Definition task_allowed l (t : DiskTask) : Prop :=
  match t with
  | TStable d => contiguous (log_last l + 1) d.(entries)
  | TLastLogId _ => True
  | TTruncatePrefix k => l.(log_first) <= k
  | TTruncateSuffix k kt => l.(log_first) - 1 <= k <= log_last l
  | TReset k => 0 < k
  end.
Fixpoint tasks_allowed l (ts : list DiskTask) : Prop :=
  match ts with
  | [] => True
  | t :: ts' => task_allowed l t /\ tasks_allowed (task_log l t) ts'
  end.

(** A storage that performs what it is asked. *)
Record storage_healthy : Prop := {
  h_append s l es : ls_repr s l -> contiguous (log_last l + 1) es -> (ls_append_entries s es).1 = zlen es;
  h_prefix s l k : ls_repr s l -> l.(log_first) <= k -> (ls_truncate_prefix s k).1 = OK;
  h_suffix s l k : ls_repr s l -> l.(log_first) - 1 <= k <= log_last l -> (ls_truncate_suffix s k).1 = OK;
  h_reset s l k : ls_repr s l -> 0 < k -> (ls_reset s k).1 = OK
}.

(** The closures a run completes, in order, with their status and the last log id a
    query is answered with. *)
Definition completed (ev : list Event) : list (Closure * Errno * option LogId) :=
  omap (fun e => match e with
                 | StableRun d => Some (d.(closure), d.(status), None)
                 | LastLogIdReady c lid => Some (c, OK, Some lid)
                 | _ => None
                 end) ev.

(** The last log id after a task, and the completions of tasks from a last log id on. *)
Definition next_id (lid : LogId) (t : DiskTask) : LogId :=
  match t with
  | TStable d => from_option Types.id lid (last d.(entries))
  | TTruncateSuffix k kt => mkLogId k kt
  | _ => lid
  end.
Definition completion (lid : LogId) (t : DiskTask) : list (Closure * Errno * option LogId) :=
  match t with
  | TStable d => [(d.(closure), d.(status), None)]
  | TLastLogId c => [(c, OK, Some lid)]
  | _ => []
  end.
Fixpoint completions (lid : LogId) (ts : list DiskTask) : list (Closure * Errno * option LogId) :=
  match ts with
  | [] => []
  | t :: ts => completion lid t ++ completions (next_id lid t) ts
  end.
Definition no_storage_error (e : Event) : Prop := match e with OnError _ => False | _ => True end.

(** The writes a batcher holds back. *)
Definition held (b : Batcher) : list (Closure * Errno * option LogId) :=
  map (fun d => (d.(closure), d.(status), None)) b.(storage).
(** The last log id once what is held back is written. *)
Definition id_with (b : Batcher) (lid : LogId) : LogId := from_option Types.id lid (last b.(to_append)).
Definition batcher_wf (b : Batcher) : Prop := b.(storage) = [] -> b.(to_append) = [].

Section healthy.
Context (HH : storage_healthy).

(** [r] only touched the storage of [m], which holds [l] once what the batcher
    holds back is written; [id] is then the last log id, and the closures in [cs]
    are completed. *)
Definition disk_ok m l (id : LogId) (cs : list (Closure * Errno * option LogId)) (r : (Batcher * LogId) * LogManager S * list Event) : Prop :=
  exists b lid s ev,
    r = ((b, lid), m <| _log_storage := s |>, ev) /\ batcher_wf b /\
    (exists sl, ls_repr s sl /\ contiguous (log_last sl + 1) b.(to_append) /\ log_append sl b.(to_append) = l) /\
    completed ev ++ held b = cs /\ id_with b lid = id /\ Forall no_storage_error ev.

Lemma zget_last {A} (es : list A) : zget es (zlen es - 1) = last es.
Proof.
  destruct es as [|e es _] using rev_ind; [done|]. rewrite last_snoc. apply zget_Some.
  unfold zlen. rewrite length_app. cbn [length]. split; [lia|]. apply list_lookup_middle. lia.
Qed.

Lemma append_to_storage_ok m sl es lid :
  m.(_has_error) = false -> ls_repr m.(_log_storage) sl -> contiguous (log_last sl + 1) es ->
  exists s, append_to_storage es lid m = (from_option Types.id lid (last es), m <| _log_storage := s |>, []) /\
    ls_repr s (log_append sl es).
Proof using HH.
  intros He Hr Hc. unfold append_to_storage. run. rewrite He.
  pose proof (h_append HH _ _ _ Hr Hc) as Hn. pose proof (ls_append_spec _ _ _ Hr Hc) as Hs.
  destruct (ls_append_entries _ es) as [n s]. simpl in Hn. subst n.
  rewrite Z.eqb_refl. simpl. exists s. split.
  { do 2 f_equal. destruct (Z.ltb_spec 0 (zlen es)) as [|H0].
    - by rewrite zget_last.
    - destruct es; [done|]. rewrite zlen_cons in H0. pose proof (zlen_nonneg es). lia. }
  destruct Hs as [_ Hs]. by rewrite take_ge in Hs by (unfold zlen; lia).
Qed.

Lemma flush_ok m b sl lid :
  m.(_has_error) = false -> batcher_wf b -> ls_repr m.(_log_storage) sl ->
  contiguous (log_last sl + 1) b.(to_append) ->
  exists s ev, flush b lid m = ((Batcher_empty, id_with b lid), m <| _log_storage := s |>, ev) /\
    ls_repr s (log_append sl b.(to_append)) /\ completed ev = held b /\ Forall no_storage_error ev.
Proof using HH.
  intros He Hb Hr Hc. unfold flush, held. destruct (storage b) as [|d ds] eqn:Hst.
  - unfold id_with. rewrite Hb by done. rewrite log_append_nil. exists m.(_log_storage), []. split_and!; try done.
    run. by destruct m.
  - run. destruct (append_to_storage_ok m sl b.(to_append) lid He Hr Hc) as (s & Heq & Hr').
    rewrite Heq. simpl. rewrite He. eexists s, _. split_and!; [reflexivity|done| |].
    + simpl. rewrite app_nil_r. f_equal. clear. induction ds as [|d' ds IH]; simpl; [done|]. by f_equal.
    + simpl. rewrite app_nil_r. constructor; [done|]. apply Forall_fmap, Forall_forall. done.
Qed.

(** One task: flush what is held if the task is not a write, then do it. *)
Lemma disk_task_ok max m b lid l t :
  m.(_has_error) = false -> task_allowed l t -> batcher_wf b ->
  (exists sl, ls_repr m.(_log_storage) sl /\ contiguous (log_last sl + 1) b.(to_append) /\
     log_append sl b.(to_append) = l) ->
  disk_ok m (task_log l t) (next_id (id_with b lid) t) (held b ++ completion (id_with b lid) t) (disk_task max t b lid m).
Proof using HH.
  intros He Ht Hb (sl & Hr & Hc & Hl).
  destruct (flush_ok m b sl lid He Hb Hr Hc) as (s & ev & Hfl & Hrs & Hev & Hne).
  rewrite Hl in Hrs. set (id := id_with b lid) in *.
  assert (forall t' s' ev', ls_repr s' (task_log l t') -> completed ev' = completion id t' -> Forall no_storage_error ev' ->
    disk_ok m (task_log l t') (next_id id t') (held b ++ completion id t')
      ((Batcher_empty, next_id id t'), m <| _log_storage := s |> <| _log_storage := s' |>, ev ++ ev')) as Hdone.
  { intros t' s' ev' Hr' Hc' Hn'. eexists _, _, s', _. split_and!; [done|done| | |done|].
    - exists (task_log l t'). split_and!; [done|apply contiguous_nil|apply log_append_nil].
    - unfold completed in *. rewrite omap_app, app_nil_r. by rewrite Hev, Hc'.
    - by apply Forall_app. }
  destruct t as [d|c|k|k kt|k]; simpl in Ht |- *.
  - destruct (entries d) as [|e es] eqn:Hd.
    + run. rewrite Hfl. specialize (Hdone (TStable d) s [StableRun d]). simpl in Hdone.
      rewrite Hd, log_append_nil in *. by apply Hdone; repeat constructor.
    + rewrite <- Hd in *. assert (is_Some (last (entries d))) as [x Hx] by (rewrite Hd; by apply last_is_Some).
      assert (entries d <> []) as Hdne by (by rewrite Hd). clear Hd e es.
      unfold batch_append. run. destruct (_ || _).
      * rewrite Hfl. simpl. eexists _, _, s, _. split_and!; [reflexivity| | | |done|by rewrite app_nil_r].
        { by intros ?. }
        { exists l. by split_and!. }
        { rewrite app_nil_r. unfold held. simpl. by rewrite Hev. }
      * eexists _, lid, m.(_log_storage), []. split_and!; [by destruct m| | | | |done].
        { unfold batcher_wf. simpl. by destruct (storage b). }
        { exists sl. simpl. split_and!; [done| |by rewrite log_append_app, Hl].
          apply contiguous_app. split; [done|]. rewrite <- Hl, log_last_append in Ht.
          by replace (log_last sl + 1 + zlen (to_append b)) with (log_last sl + zlen (to_append b) + 1) by lia. }
        { unfold held. simpl. by rewrite map_app. }
        { unfold id_with. simpl. by rewrite last_app, Hx. }
  - run. rewrite Hfl. unfold check. destruct (_ || _); simpl;
      [apply (Hdone (TLastLogId c) s [LastLogIdReady c id])
      |apply (Hdone (TLastLogId c) s [CheckFailed; LastLogIdReady c id])]; done || by repeat constructor.
  - run. rewrite Hfl. simpl. pose proof (ls_truncate_prefix_spec s l k Hrs Ht) as Hs.
    pose proof (h_prefix HH s l k Hrs Ht) as Hok. destruct (ls_truncate_prefix s k) as [r s'].
    simpl in Hok. subst r. apply (Hdone (TTruncatePrefix k) s' []); [by apply Hs|done|constructor].
  - run. rewrite Hfl. simpl. pose proof (ls_truncate_suffix_spec s l k Hrs Ht) as Hs.
    pose proof (h_suffix HH s l k Hrs Ht) as Hok. destruct (ls_truncate_suffix s k) as [r s'].
    simpl in Hok. subst r. simpl. unfold check. destruct (_ || _); simpl.
    + apply (Hdone (TTruncateSuffix k kt) s' []); [by apply Hs|done|constructor].
    + apply (Hdone (TTruncateSuffix k kt) s' [CheckFailed]); [by apply Hs|done|by repeat constructor].
  - run. rewrite Hfl. simpl. pose proof (ls_reset_spec s l k Hrs) as Hs.
    pose proof (h_reset HH s l k Hrs Ht) as Hok. destruct (ls_reset s k) as [r s'].
    simpl in Hok. subst r. apply (Hdone (TReset k) s' []); [by apply Hs|done|constructor].
Qed.

Lemma disk_loop_ok max ts m b lid l :
  m.(_has_error) = false -> tasks_allowed l ts -> batcher_wf b ->
  (exists sl, ls_repr m.(_log_storage) sl /\ contiguous (log_last sl + 1) b.(to_append) /\
     log_append sl b.(to_append) = l) ->
  disk_ok m (fold_left task_log ts l) (fold_left next_id ts (id_with b lid)) (held b ++ completions (id_with b lid) ts)
    (disk_loop max ts b lid m).
Proof using HH.
  revert m b lid l. induction ts as [|t ts IH]; intros m b lid l He Hts Hb Hsl.
  - eexists b, lid, m.(_log_storage), []. split_and!; [by destruct m|done|done| |done|constructor].
    by rewrite app_nil_r.
  - destruct Hts as [Ht Hts]. simpl. run.
    destruct (disk_task_ok max m b lid l t He Ht Hb Hsl) as (b1 & lid1 & s1 & ev1 & -> & Hb1 & Hsl1 & Hc1 & Hi1 & Hn1).
    destruct (IH (m <| _log_storage := s1 |>) b1 lid1 (task_log l t)) as (b2 & lid2 & s2 & ev2 & Heq & Hb2 & Hsl2 & Hc2 & Hi2 & Hn2);
      [done..|].
    rewrite Heq. rewrite Hi1 in Hc2, Hi2. eexists b2, lid2, s2, _. split_and!; [done|done|done| |done|by apply Forall_app].
    unfold completed in *. rewrite omap_app, <- app_assoc, Hc2, app_assoc, Hc1, <- app_assoc. done.
Qed.

End healthy.

(** What [set_disk_id] makes of the last log id: it never goes back. *)
Definition disk_id_after (m : LogManager S) (id : LogId) : LogId := if logid_ltb id m.(_disk_id) then m.(_disk_id) else id.


(** ** The memory after a batch is still a suffix of the log *)
Lemma clear_loop_eq fuel i mem :
  (length mem < fuel)%nat -> clear_loop fuel i mem = pop_front_while (fun e => negb (logid_gtb e.(id) i)) mem.
Proof.
  assert (forall n (l0 : list LogEntry),
    let r := clear_chunk n i l0 in
    (r.1 <= n)%nat /\ (r.1 < n)%nat /\ r.2 = pop_front_while (fun e => negb (logid_gtb e.(id) i)) l0 \/
    r.1 = n /\ (length r.2 + n = length l0)%nat /\
      pop_front_while (fun e => negb (logid_gtb e.(id) i)) r.2 =
      pop_front_while (fun e => negb (logid_gtb e.(id) i)) l0) as Hchunk.
  { intros n. induction n as [|n IH]; intros [|e l0]; simpl; [right; split_and!; lia || done
      |right; split_and!; lia || done|left; split_and!; lia || done|].
    destruct (logid_gtb _ _) eqn:Hg; simpl; [left; split_and!; lia || done|].
    specialize (IH l0). destruct (clear_chunk n i l0) as [k rest]. simpl in *.
    destruct IH as [(? & ? & ->)|(-> & ? & ?)]; [left|right]; split_and!; lia || done. }
  revert mem. induction fuel as [|fuel IH]; intros mem Hlen; [lia|]. cbn [clear_loop].
  pose proof (Hchunk clear_cap mem) as H. destruct (clear_chunk clear_cap i mem) as [k rest]. simpl in H.
  destruct H as [(_ & Hk & ->)|(-> & Hlen' & Heq)].
  - by rewrite bool_decide_false by lia.
  - rewrite bool_decide_true by done. rewrite IH; [done|]. unfold clear_cap in *. lia.
Qed.

Lemma pop_front_while_suffix (p : LogEntry -> bool) (es : list LogEntry) :
  exists k, (k <= length es)%nat /\ pop_front_while p es = drop k es /\
    (forall j e, (j < k)%nat -> es !! j = Some e -> p e = true) /\
    (forall e, es !! k = Some e -> p e = false).
Proof.
  induction es as [|a es (k & Hk & Heq & Hall & Hnext)]; [by exists 0%nat|]. simpl.
  destruct (p a) eqn:Hp; [|exists 0%nat; split_and!; [lia|done|lia|intros; by simplify_eq/=]].
  exists (Datatypes.S k). split_and!; [lia|done| |done].
  intros [|j] e Hj He; simpl in He; [by simplify_eq|]. apply (Hall j); [lia|done].
Qed.

Lemma view_clear m l n c sl :
  view m l n -> ls_repr m.(_log_storage) sl ->
  (forall i e, log_get l i = Some e -> logid_gtb e.(id) c = false -> log_get sl i = Some e) ->
  exists n', (n <= n')%nat /\
    view (m <| _logs_in_memory := clear_loop (Datatypes.S (length m.(_logs_in_memory))) c m.(_logs_in_memory) |>) l n' /\
    (forall e, l.(log_entries) !! n' = Some e -> logid_gtb e.(id) c = true).
Proof.
  intros Hv Hr Hdur. rewrite clear_loop_eq by lia.
  destruct (pop_front_while_suffix (fun e => negb (logid_gtb e.(id) c)) m.(_logs_in_memory))
    as (k & Hk & -> & Hall & Hnext). rewrite (v_memory _ _ _ Hv) in *.
  pose proof (v_bound _ _ _ Hv) as Hn. rewrite length_drop in Hk. exists (n + k)%nat. split_and!; [lia| |].
  - pose proof Hv as []. constructor; simpl; try done; [by rewrite drop_drop|lia|].
    exists sl. split; [done|]. intros i Hi.
    destruct (decide (i < log_first l + Z.of_nat n)) as [Hlo|Hhi].
    + destruct v_storage as (sl' & Hr' & Heq). rewrite <- (Heq i) by lia.
      by rewrite <- (ls_get_entry_spec m.(_log_storage) sl), <- (ls_get_entry_spec m.(_log_storage) sl').
    + destruct (log_get_in_range l i) as [e He]; [unfold log_last, zlen; lia|]. rewrite He.
      apply Hdur; [done|]. apply negb_true_iff.
      apply (Hall (Z.to_nat (i - log_first l) - n)%nat e); [lia|]. rewrite lookup_drop.
      apply zget_Some in He as [_ He]. by replace (n + _)%nat with (Z.to_nat (i - log_first l)) by lia.
  - intros e He. apply negb_false_iff, Hnext. by rewrite lookup_drop.
Qed.

(** Releasing memory.  When what is at or below both the durable and the
    applied identifier really is on disk, [set_disk_id] and [set_applied_id]
    release exactly the leading entries at or below both, however many critical
    sections that takes, and the log stays readable in full: memory and storage
    together still hold every entry. *)
Theorem release_keeps_log_readable m l n sl new (by_disk : bool) :
  view m l n -> ls_repr m.(_log_storage) sl ->
  let c := if by_disk then logid_min new m.(_applied_id) else logid_min m.(_disk_id) new in
  (forall i e, log_get l i = Some e -> logid_gtb e.(id) c = false -> log_get sl i = Some e) ->
  let '(_, m', ev) := if by_disk then set_disk_id new m else set_applied_id new m in
  ev = [] /\ exists n', (n <= n')%nat /\ view m' l n' /\
    (logid_ltb new (if by_disk then m.(_disk_id) else m.(_applied_id)) = false ->
     forall e, l.(log_entries) !! n' = Some e -> logid_gtb e.(id) c = true).
Proof.
  intros Hv Hr c Hdur. destruct (view_clear m l n c sl Hv Hr Hdur) as (n' & Hn' & Hv' & Hnext).
  unfold set_disk_id, set_applied_id, clear_memory_logs. run.
  destruct by_disk; (destruct (logid_ltb new _) eqn:Hlt; [split; [done|by exists n]|]);
    split; try done; exists n'; (split_and!; [done| |done]);
    (eapply view_same; [..|exact Hv']; reflexivity).
Qed.

(** What a consistent log and snapshot say of their bounds. *)
Lemma consistency_bounds m :
  check_consistency m = (OK, true) ->
  (m.(_last_snapshot_id).(index) = 0 -> m.(_last_snapshot_id) = LogId_default) ->
  m.(_first_log_index) - 1 <= m.(_last_snapshot_id).(index) <= m.(_last_log_index) /\
  0 < m.(_first_log_index) /\ (m.(_last_snapshot_id).(index) = 0 -> m.(_first_log_index) = 1).
Proof.
  unfold check_consistency. intros Hcons Hdef.
  injection Hcons as Hr Hc. apply andb_true_iff in Hc as [Hc1%Z.ltb_lt Hc2%Z.leb_le].
  destruct (logid_eqb m.(_last_snapshot_id) LogId_default) eqn:Heq.
  - apply logid_eqb_spec in Heq. rewrite Heq. simpl.
    destruct (Z.eqb_spec (_first_log_index m) 1); [lia|done].
  - destruct (_ && _) eqn:Hr'; [|done]. apply andb_true_iff in Hr' as [?%Z.leb_le ?%Z.leb_le].
    split_and!; lia.
Qed.

(** A log around its last snapshot is consistent, and its term is known. *)
Lemma consistency_after m i t :
  0 < i -> m.(_first_log_index) - 1 <= i <= m.(_last_log_index) -> 0 < m.(_first_log_index) ->
  m.(_last_snapshot_id) = mkLogId i t ->
  (m.(_virtual_first_log_id).(index) = i -> m.(_virtual_first_log_id).(term) = t) ->
  check_consistency m = (OK, true) /\ get_term m i = t.
Proof.
  intros Hi Hr Hp Hs Hv. unfold check_consistency, get_term. rewrite Hs. simpl.
  assert (logid_eqb (mkLogId i t) LogId_default = false) as ->.
  { apply not_true_iff_false. rewrite logid_eqb_spec. intros [=]. lia. }
  rewrite (proj2 (Z.leb_le _ _)), (proj2 (Z.leb_le i _)), (proj2 (Z.ltb_lt _ _)), (proj2 (Z.leb_le 0 _)) by lia.
  rewrite (proj2 (Z.eqb_neq i 0)) by lia. split; [done|].
  destruct (Z.eqb_spec i m.(_virtual_first_log_id).(index)); [by apply Hv|]. by rewrite Z.eqb_refl.
Qed.

(** Applies [consistency_after] to the state at hand. *)
Ltac consistent i t := apply (consistency_after _ i t); simpl; (done || lia).

(** A log manager keeps its log consistent with its snapshot.  Given a
    log contiguous with the last snapshot, [set_snapshot] with a newer snapshot
    leaves one [check_consistency] accepts, in each of its three cases: the
    snapshot is beyond the log, agrees with it, or contradicts it; no [CHECK]
    fails, the new snapshot is then the last one, its term is what [get_term]
    answers at its index, and a log that agrees with it loses no entry after the
    previous snapshot. *)
Theorem set_snapshot_consistent m meta :
  check_consistency m = (OK, true) ->
  (m.(_last_snapshot_id).(index) = 0 -> m.(_last_snapshot_id) = LogId_default) ->
  0 <= m.(_last_snapshot_id).(index) < meta.(last_included_index) -> 0 < meta.(last_included_term) ->
  m.(_virtual_first_log_id).(index) <= m.(_last_snapshot_id).(index) ->
  (m.(_first_log_index) <= meta.(last_included_index) <= m.(_last_log_index) ->
     unsafe_get_term m meta.(last_included_index) <> 0) ->
  logid_geb (mkLogId meta.(last_included_index) meta.(last_included_term))
    m.(_config_manager).(_snapshot).(conf_id) = true ->
  let '(_, m', ev) := set_snapshot meta m in
  check_consistency m' = (OK, true) /\ ev = [] /\
  m'.(_last_snapshot_id) = mkLogId meta.(last_included_index) meta.(last_included_term) /\
  get_term m' meta.(last_included_index) = meta.(last_included_term) /\
  (unsafe_get_term m meta.(last_included_index) = meta.(last_included_term) ->
     m'.(_last_log_index) = m.(_last_log_index) /\
     m'.(_first_log_index) <= m.(_last_snapshot_id).(index) + 1).
Proof.
  intros Hcons Hdef Hidx Hterm Hvirt Hlog Hconf.
  set (i := meta.(last_included_index)) in *. set (t := meta.(last_included_term)) in *.
  set (prev := m.(_last_snapshot_id)) in *.
  destruct (consistency_bounds m Hcons Hdef) as (Hb & Hpos & Hone). fold prev in Hb, Hone.
  assert (unsafe_get_term m i = 0 \/ i <= m.(_last_log_index)) as Hut.
  { destruct (Z.le_gt_cases i (_last_log_index m)); [by right|left]. unfold unsafe_get_term. fold prev.
    rewrite !(proj2 (Z.eqb_neq i _)), (proj2 (Z.ltb_lt _ _)) by lia. done. }
  unfold set_snapshot. run. fold i t prev. rewrite (proj2 (Z.leb_gt i prev.(index))) by lia.
  unfold ConfigurationManager.set_snapshot. simpl conf_id. rewrite Hconf. unfold check. run.
  destruct (Z.eqb_spec (unsafe_get_term m i) 0) as [H0|H0].
  - assert (m.(_last_log_index) < i) as Hbeyond by (destruct (Z.le_gt_cases i (_last_log_index m)); [|lia];
      exfalso; apply Hlog; [lia|done]).
    unfold truncate_prefix, check, queue_disk. run. simpl.
    rewrite (proj2 (Z.leb_le (_first_log_index m) (i + 1))) by lia. simpl.
    rewrite (proj2 (Z.ltb_lt (_last_log_index m) (i + 1))) by lia.
    split_and!; [consistent i t|done|done|consistent i t|simpl; lia..].
  - destruct (Z.eqb_spec (unsafe_get_term m i) t) as [Ht|Ht].
    + destruct (Z.ltb_spec 0 prev.(index)) as [Hp|Hp].
      * unfold truncate_prefix, check, queue_disk. run. simpl.
        rewrite (proj2 (Z.leb_le (_first_log_index m) (prev.(index) + 1))) by lia. simpl.
        rewrite (proj2 (Z.ltb_ge (_last_log_index m) (prev.(index) + 1))) by lia.
        split_and!; [consistent i t|done|done|consistent i t|simpl; lia..].
      * simpl. split_and!; [consistent i t|done|done|consistent i t|simpl; lia..].
    + unfold reset, queue_disk. run. simpl.
      split_and!; [consistent i t|done|done|consistent i t|done..].
Qed.

(** ** Waiting *)

(** The identifier the next waiter gets. *)
Definition next_wait_id m : Z :=
  wrap_i32 (if m.(_next_wait_id) =? 0 then m.(_next_wait_id) + 1 else m.(_next_wait_id)).

(** No wakeup is lost.  A waiter is registered only while the log ends where
    it expects; otherwise, or after [shutdown], it is run at once and nothing is
    registered.  A waiter registered under an identifier that is free and not 0
    is run exactly once by the next append or shutdown, along with the others,
    with [ESTOP] in the latter case, and the map is then empty. *)
Theorem wait_then_wakeup m expected wm :
  m.(_wait_map) !! next_wait_id m = None -> next_wait_id m <> 0 ->
  let '(wid, m1, ev1) := wait expected wm m in
  if (expected =? m.(_last_log_index)) && negb m.(_stopped) then
    ev1 = [] /\ wid = next_wait_id m /\ m1.(_wait_map) = <[wid := wm]> m.(_wait_map) /\
    (let '(_, m2, ev2) := wakeup_all_waiter m1 in
     m2.(_wait_map) = ∅ /\
     ev2 ≡ₚ OnNewLog wm OK :: map (fun w => OnNewLog w.2 OK) (map_to_list m.(_wait_map))) /\
    (let '(_, m3, ev3) := shutdown m1 in
     m3.(_wait_map) = ∅ /\
     ev3 ≡ₚ OnNewLog wm ESTOP :: map (fun w => OnNewLog w.2 ESTOP) (map_to_list m.(_wait_map)))
  else ev1 = [OnNewLog wm (if m.(_stopped) then ESTOP else OK)] /\ m1 = m /\ wid = 0.
Proof.
  intros Hfresh Hne. unfold wait. run. destruct (Z.eqb_spec expected m.(_last_log_index)); simpl; [|done].
  destruct m.(_stopped) eqn:Hst; simpl; [done|]. fold (next_wait_id m).
  unfold wakeup_all_waiter, shutdown. run. simpl. rewrite Hst.
  assert (map_to_list (<[next_wait_id m := wm]> m.(_wait_map)) ≡ₚ
          (next_wait_id m, wm) :: map_to_list m.(_wait_map)) as Hperm by (by apply map_to_list_insert).
  split_and!; try done; by rewrite Hperm.
Qed.

End disk.

(** ** Examples *)
Section examples.
#[local] Existing Instance lex_endpoint_order.

Lemma memory_storage_healthy : storage_healthy (S := MemoryLogStorage).
Proof.
  constructor; simpl.
  - intros s l es Hr Hc. by apply (append_entries_repr s l es).
  - done.
  - done.
  - intros s l k _ Hk. unfold MemoryLog.reset. by rewrite (proj2 (Z.leb_gt _ _)).
Qed.

(** A batch of two appends, a query, and a truncation followed by an append. *)
Definition disk_tasks : list DiskTask :=
  [TStable (mkStableClosure 1 OK 1 [ex_entry 1 1; ex_entry 2 1]);
   TStable (mkStableClosure 2 OK 3 [ex_entry 3 1]);
   TLastLogId 3;
   TTruncateSuffix 2 1;
   TStable (mkStableClosure 4 OK 3 [ex_entry 3 2])].
Definition disk_manager : LogManager MemoryLogStorage :=
  (LogManager_default MemoryLogStorage_default) <| _disk_queue := disk_tasks |>
    <| _first_log_index := 1 |> <| _last_log_index := 3 |>.


(** The cutting of the queue shows: after entries 1 to 3 and a truncation to 2, a
    query is told 2 by the run that truncated and 3, which is gone, by a later
    one, since the disk id never goes back. *)
Definition truncated_queue : LogManager MemoryLogStorage :=
  disk_manager <| _disk_queue :=
    [TStable (mkStableClosure 1 OK 1 [ex_entry 1 1; ex_entry 2 1]); TStable (mkStableClosure 2 OK 3 [ex_entry 3 1]);
     TTruncateSuffix 2 1; TLastLogId 3] |>.
Fixpoint disk_runs (cuts : list nat) (m : LogManager MemoryLogStorage) : list Event :=
  match cuts with
  | [] => []
  | n :: cuts => let '(_, m', ev) := disk_thread 1000 n m in ev ++ disk_runs cuts m'
  end.

Example disk_id_outlives_truncation :
  last (completed (disk_runs [4%nat] truncated_queue)) = Some (3%positive, OK, Some (mkLogId 2 1)) /\
  last (completed (disk_runs [2; 1; 1]%nat truncated_queue)) = Some (3%positive, OK, Some (mkLogId 3 1)).
Proof. split; vm_compute; reflexivity. Qed.

Lemma release_keeps_log_readable_witness :
  let m := example_manager in
  let '(_, m', ev) := set_applied_id (mkLogId 3 2) m in
  ev = [] /\ exists n', (2 <= n')%nat /\ view m' example_log n' /\
    (logid_ltb (mkLogId 3 2) m.(_applied_id) = false ->
     forall e, example_log.(log_entries) !! n' = Some e -> logid_gtb e.(id) (mkLogId 3 2) = true).
Proof.
  apply (release_keeps_log_readable example_manager example_log 2
    (mkLog 1 [ex_entry 1 1; ex_entry 2 1; ex_entry 3 2]) (mkLogId 3 2) false example_view).
  - split_and!; try done. repeat (apply contiguous_cons; split; [reflexivity|]); apply contiguous_nil.
  - intros i e He Hle. pose proof He as Hr. unfold log_get in Hr. apply zget_Some in Hr as [Hi Hr].
    simpl in Hi, Hr. pose proof (lookup_lt_Some _ _ _ Hr). simpl in H.
    assert (i = 1 \/ i = 2 \/ i = 3 \/ i = 4) as [-> | [-> | [-> | ->]]] by lia;
      vm_compute in He; injection He as <-; done.
Defined.

Lemma wait_then_wakeup_witness :
  let m := example_manager in
  next_wait_id m = 1 /\
  let '(wid, m1, ev1) := wait 4 9 m in
  ev1 = [] /\ wid = next_wait_id m /\ m1.(_wait_map) = <[wid := 9%positive]> m.(_wait_map) /\
  (let '(_, m2, ev2) := wakeup_all_waiter m1 in
   m2.(_wait_map) = ∅ /\
   ev2 ≡ₚ OnNewLog 9 OK :: map (fun w => OnNewLog w.2 OK) (map_to_list m.(_wait_map))) /\
  (let '(_, m3, ev3) := shutdown m1 in
   m3.(_wait_map) = ∅ /\
   ev3 ≡ₚ OnNewLog 9 ESTOP :: map (fun w => OnNewLog w.2 ESTOP) (map_to_list m.(_wait_map))).
Proof.
  split; [reflexivity|].
  exact (wait_then_wakeup example_manager 4 9 eq_refl ltac:(discriminate)).
Defined.

Lemma set_snapshot_consistent_witness :
  let m := example_manager in
  let meta := mkSnapshotMeta 7 3 [example_peer 1] [] in
  let '(_, m', ev) := set_snapshot meta m in
  check_consistency m' = (OK, true) /\ ev = [] /\
  m'.(_last_snapshot_id) = mkLogId 7 3 /\ get_term m' 7 = 3 /\
  (unsafe_get_term m 7 = 3 -> m'.(_last_log_index) = m.(_last_log_index) /\ m'.(_first_log_index) <= 0 + 1).
Proof.
  apply (set_snapshot_consistent example_manager (mkSnapshotMeta 7 3 [example_peer 1] [])); simpl;
    try done; try lia.
Defined.
End examples.
