(* ===== verification/AppendEntriesCache.v ===== *)
(** * AppendEntriesCache: out-of-order AppendEntries requests held for a while

    Models the class [NodeImpl::AppendEntriesCache] of [src/braft/node.h] and
    [src/braft/node.cpp].  A request is kept with what the cache reads of it.
    [_rpc_queue] is in order of arrival; [_rpc_map], a [std::map] keyed by
    [prev_log_index], is the list of its values in key order.  Timers: [env]
    says whether adding and deleting one succeeds; adding is an event. *)

From S2P Require Import Prelude.

Record Rpc : Set := mkRpc {
  rpc_id : positive;
  prev_log_index : Z;
  entries_size : Z;
  receive_time_ms : Z
}.

#[export] Instance Rpc_eq_dec : EqDecision Rpc.
Proof. solve_decision. Defined.

Inductive Event : Set :=
| Handle (rpcs : list Rpc)
| StartTimer (timer_version cache_version timer_start_ms : Z)
| CheckFailed.

Record AppendEntriesCache : Set := mkAppendEntriesCache {
  _rpc_queue : list Rpc;
  _rpc_map : list Rpc;
  _timer : bool;
  _cache_version : Z;
  _timer_version : Z
}.
#[export] Instance AppendEntriesCache_eta : Settable AppendEntriesCache := fun c =>
  mkAppendEntriesCache c.(_rpc_queue) c.(_rpc_map) c.(_timer) c.(_cache_version) c.(_timer_version).

(** The constructor; it leaves its [version] argument unused. *)
Definition AppendEntriesCache_new (version : Z) : AppendEntriesCache :=
  mkAppendEntriesCache [] [] false 0 0.

Record TimerEnv : Set := mkTimerEnv { timer_add_ok : bool; timer_del_ok : bool }.

Abbreviation CM := (M AppendEntriesCache Event).

(** [first_index]. *)
Definition first_index (c : AppendEntriesCache) : option Z :=
  (fun r => r.(prev_log_index) + 1) <$> head c.(_rpc_map).

Definition cache_version (c : AppendEntriesCache) : Z := c.(_cache_version).

(** [empty]. *)
Definition empty_cache (c : AppendEntriesCache) : bool := bool_decide (c.(_rpc_map) = []).

(** [std::map::insert]: a key that is present is left as it is. *)
Fixpoint map_insert (r : Rpc) (l : list Rpc) : list Rpc :=
  match l with
  | [] => [r]
  | x :: l' =>
      if r.(prev_log_index) <? x.(prev_log_index) then r :: l
      else if r.(prev_log_index) =? x.(prev_log_index) then l
      else x :: map_insert r l'
  end.

(** [RemoveFromList] on the arrival queue. *)
Definition remove_from_list (r : Rpc) (l : list Rpc) : list Rpc :=
  filter (fun x => x.(rpc_id) <> r.(rpc_id)) l.

(** [lower_bound] splits the map: the entries before the iterator and those
    from it on. *)
Fixpoint lower_bound (k : Z) (l : list Rpc) : list Rpc * list Rpc :=
  match l with
  | [] => ([], [])
  | x :: l' =>
      if x.(prev_log_index) <? k then let '(a, b) := lower_bound k l' in (x :: a, b) else ([], l)
  end.

(** The overlap test of [store]. *)
Definition need_clear (r : Rpc) (l : list Rpc) : bool :=
  let '(before, from) := lower_bound r.(prev_log_index) l in
  match last before with
  | Some prev_rpc => r.(prev_log_index) <? prev_rpc.(prev_log_index) + prev_rpc.(entries_size)
  | None => false
  end ||
  match from with
  | next_rpc :: _ => next_rpc.(prev_log_index) <? r.(prev_log_index) + r.(entries_size)
  | [] => false
  end.

Definition start_timer (env : TimerEnv) : CM bool :=
  modify (fun c => c <| _timer_version := c.(_timer_version) + 1 |>) ;;
  c ← get;
  if env.(timer_add_ok) then
    emit (StartTimer c.(_timer_version) c.(_cache_version)
            (from_option receive_time_ms 0 (head c.(_rpc_queue)))) ;;
    modify (fun c => c <| _timer := true |>) ;; mret true
  else mret false.

Definition stop_timer (env : TimerEnv) : CM unit :=
  c ← get;
  if negb c.(_timer) then skip
  else
    modify (fun c => c <| _timer_version := c.(_timer_version) + 1 |>) ;;
    when env.(timer_del_ok) (modify (fun c => c <| _timer := false |>)).

Definition clear (env : TimerEnv) : CM unit :=
  stop_timer env ;;
  c ← get;
  modify (fun c => c <| _rpc_queue := [] |> <| _rpc_map := [] |>) ;;
  emit (Handle c.(_rpc_queue)).

(** The loop of [store] that releases the requests beyond the capacity, from the
    greatest index down; [fuel] is the size of the map. *)
Fixpoint release_loop (fuel : nat) (max_size : Z) (map queue released : list Rpc)
  : list Rpc * list Rpc * list Rpc :=
  match fuel with
  | O => (map, queue, released)
  | S fuel' =>
      if max_size <? zlen map then
        match last map with
        | Some r => release_loop fuel' max_size (removelast map) (remove_from_list r queue) (released ++ [r])
        | None => (map, queue, released)
        end
      else (map, queue, released)
  end.

(** [store]; [max_size] is the flag [raft_max_append_entries_cache_size]. *)
Definition store (env : TimerEnv) (max_size : Z) (r : Rpc) : CM bool :=
  c ← get;
  when (negb (empty_cache c) && need_clear r c.(_rpc_map)) (clear env) ;;
  modify (fun c => c <| _rpc_queue := c.(_rpc_queue) ++ [r] |>
                     <| _rpc_map := map_insert r c.(_rpc_map) |>) ;;
  c ← get;
  started ← (if zlen c.(_rpc_map) =? 1 then start_timer env else mret true);
  if negb started then clear env ;; mret true
  else
    c ← get;
    let '(map', queue', released) :=
      release_loop (length c.(_rpc_map)) max_size c.(_rpc_map) c.(_rpc_queue) [] in
    modify (fun c => c <| _rpc_queue := queue' |> <| _rpc_map := map' |>) ;;
    when (negb (bool_decide (released = []))) (emit (Handle released)) ;;
    mret true.

(** The loop of [process_runable_rpcs]. *)
Fixpoint runable_loop (local_last_index : Z) (map queue handled : list Rpc)
  : list Rpc * list Rpc * list Rpc :=
  match map with
  | [] => ([], queue, handled)
  | r :: map' =>
      if local_last_index <? r.(prev_log_index) then (map, queue, handled)
      else runable_loop (r.(prev_log_index) + r.(entries_size)) map' (remove_from_list r queue) (handled ++ [r])
  end.

Definition process_runable_rpcs (env : TimerEnv) (local_last_index : Z) : CM unit :=
  c ← get;
  when (empty_cache c || bool_decide (c.(_rpc_queue) = [])) (emit CheckFailed) ;;
  let '(map', queue', handled) := runable_loop local_last_index c.(_rpc_map) c.(_rpc_queue) [] in
  modify (fun c => c <| _rpc_queue := queue' |> <| _rpc_map := map' |>) ;;
  when (negb (bool_decide (handled = []))) (emit (Handle handled)) ;;
  when (bool_decide (map' = [])) (stop_timer env).

Definition do_handle_append_entries_cache_timedout (env : TimerEnv) (timer_version timer_start_ms : Z) : CM unit :=
  c ← get;
  if negb (timer_version =? c.(_timer_version)) then skip
  else
    when (empty_cache c || bool_decide (c.(_rpc_queue) = [])) (emit CheckFailed) ;;
    if from_option receive_time_ms 0 (head c.(_rpc_queue)) <=? timer_start_ms then clear env
    else
      started ← start_timer env;
      when (negb started) (clear env).

(** ** Specification *)

(** Requests in the map are in order and do not overlap. *)
Fixpoint disjoint_from (lo : Z) (l : list Rpc) : Prop :=
  match l with
  | [] => True
  | r :: l' => lo <= r.(prev_log_index) /\ 0 < r.(entries_size) /\
               disjoint_from (r.(prev_log_index) + r.(entries_size)) l'
  end.

Record cache_wf (c : AppendEntriesCache) : Prop := {
  cw_disjoint : exists lo, disjoint_from lo c.(_rpc_map);
  cw_same : c.(_rpc_queue) ≡ₚ c.(_rpc_map);
  cw_ids : NoDup (rpc_id <$> c.(_rpc_queue))
}.

(** The requests a run hands out. *)
Definition handled (ev : list Event) : list Rpc :=
  List.concat (omap (fun e => match e with Handle rs => Some rs | _ => None end) ev).

Lemma disjoint_mono lo lo' l : lo' <= lo -> disjoint_from lo l -> disjoint_from lo' l.
Proof. destruct l as [|r l]; simpl; [done|]. intuition lia. Qed.

Lemma disjoint_app lo l1 l2 :
  disjoint_from lo (l1 ++ l2) <->
  disjoint_from lo l1 /\
  disjoint_from (from_option (fun r => r.(prev_log_index) + r.(entries_size)) lo (last l1)) l2.
Proof.
  revert lo. induction l1 as [|r l1 IH]; intros lo; [simpl; tauto|].
  rewrite last_cons. simpl. rewrite IH. destruct (last l1); simpl; tauto.
Qed.

Lemma lower_bound_app k l : let '(a, b) := lower_bound k l in
  l = a ++ b /\ Forall (fun r => r.(prev_log_index) < k) a /\
  match b with r :: _ => k <= r.(prev_log_index) | [] => True end.
Proof.
  induction l as [|x l IH]; simpl; [done|].
  destruct (Z.ltb_spec x.(prev_log_index) k).
  - destruct (lower_bound k l) as [a b]. destruct IH as (-> & Ha & Hb). split_and!; [done|by constructor|done].
  - split_and!; [done|constructor|done].
Qed.

Lemma map_insert_app r a b :
  Forall (fun x => x.(prev_log_index) < r.(prev_log_index)) a ->
  match b with x :: _ => r.(prev_log_index) < x.(prev_log_index) | [] => True end ->
  map_insert r (a ++ b) = a ++ r :: b.
Proof.
  intros Ha Hb. induction Ha as [|x a Hx Ha IH]; simpl.
  - destruct b as [|x b]; [done|]. simpl. by rewrite (proj2 (Z.ltb_lt _ _)).
  - rewrite (proj2 (Z.ltb_ge _ _)), (proj2 (Z.eqb_neq _ _)) by lia. by rewrite IH.
Qed.

(** A request that overlaps none is inserted in place. *)
Lemma insert_disjoint r l lo :
  disjoint_from lo l -> 0 < r.(entries_size) -> need_clear r l = false ->
  (exists lo', disjoint_from lo' (map_insert r l)) /\ map_insert r l ≡ₚ r :: l.
Proof.
  intros Hd Hs Hn. unfold need_clear in Hn. pose proof (lower_bound_app r.(prev_log_index) l) as Hlb.
  destruct (lower_bound _ l) as [a b]. destruct Hlb as (-> & Ha & Hb).
  apply orb_false_iff in Hn as [Hp Hnx]. apply disjoint_app in Hd as [Hda Hdb].
  rewrite map_insert_app; [|done|destruct b as [|x b]; [done|]].
  2:{ apply Z.ltb_ge in Hnx. lia. }
  split; [|by rewrite Permutation_middle].
  exists (Z.min lo r.(prev_log_index)). apply disjoint_app. split; [eapply disjoint_mono; [|done]; lia|].
  simpl. split_and!; [|done|].
  - destruct (last a) as [p|]; simpl; [apply Z.ltb_ge in Hp; lia|lia].
  - destruct b as [|x b]; [done|]. simpl in *. apply Z.ltb_ge in Hnx. intuition lia.
Qed.

Lemma remove_from_list_perm r q m :
  q ≡ₚ r :: m -> NoDup (rpc_id <$> q) -> remove_from_list r q ≡ₚ m /\ NoDup (rpc_id <$> remove_from_list r q).
Proof.
  intros Hq Hn. assert (NoDup (rpc_id <$> r :: m)) as Hn' by (by rewrite <- Hq).
  apply NoDup_cons in Hn' as [Hr Hm].
  assert (remove_from_list r q ≡ₚ m) as Hp.
  { unfold remove_from_list. rewrite Hq, filter_cons, decide_False by tauto.
    rewrite filter_keep_all; [done|]. intros x Hx Heq. destruct Hr. rewrite <- Heq.
    by apply list_elem_of_fmap_2. }
  split; [done|]. by rewrite Hp.
Qed.

Lemma removelast_app_last (l : list Rpc) r : last l = Some r -> l = removelast l ++ [r].
Proof.
  intros Hl. destruct l as [|x l]; [done|]. rewrite (app_removelast_last r) at 1 by done. f_equal. f_equal.
  apply last_Some in Hl as [l' ->]. by rewrite List.last_last.
Qed.

Lemma release_loop_ok fuel max m q acc lo :
  (length m <= fuel)%nat -> 0 <= max -> disjoint_from lo m -> q ≡ₚ m -> NoDup (rpc_id <$> q) ->
  let '(m', q', out) := release_loop fuel max m q acc in
  disjoint_from lo m' /\ q' ≡ₚ m' /\ NoDup (rpc_id <$> q') /\ out ++ q' ≡ₚ acc ++ q /\ zlen m' <= max.
Proof.
  revert m q acc. induction fuel as [|fuel IH]; intros m q acc Hlen Hmax Hd Hq Hn; simpl.
  { unfold zlen. split_and!; try done. lia. }
  destruct (Z.ltb_spec max (zlen m)) as [Hover|]; [|by split_and!].
  destruct (last m) as [r|] eqn:Hl.
  2:{ apply last_None in Hl. subst m. rewrite zlen_nil in Hover. lia. }
  pose proof (removelast_app_last m r Hl) as Hm.
  assert (q ≡ₚ r :: removelast m) as Hq'.
  { rewrite Hq, Hm at 1. by rewrite Permutation_app_comm. }
  destruct (remove_from_list_perm r q (removelast m) Hq' Hn) as [Hp Hn'].
  specialize (IH (removelast m) (remove_from_list r q) (acc ++ [r])).
  destruct (release_loop fuel max _ _ _) as [[m' q'] out].
  destruct IH as (H1 & H2 & H3 & H4 & H5); [|done| |done|done|].
  - apply (f_equal length) in Hm. rewrite length_app in Hm. simpl in Hm. lia.
  - rewrite Hm in Hd. by apply disjoint_app in Hd as [? _].
  - split_and!; try done. rewrite H4, Hp, Hq', <- app_assoc. done.
Qed.

Lemma runable_loop_ok local m q acc lo :
  disjoint_from lo m -> q ≡ₚ m -> NoDup (rpc_id <$> q) ->
  let '(m', q', out) := runable_loop local m q acc in
  (exists lo', disjoint_from lo' m') /\ q' ≡ₚ m' /\ NoDup (rpc_id <$> q') /\ out ++ q' ≡ₚ acc ++ q /\
  (exists k, out = acc ++ take k m /\ m' = drop k m).
Proof.
  revert local q acc lo. induction m as [|r m IH]; intros local q acc lo Hd Hq Hn; simpl.
  { split_and!; try done; try (by exists lo). exists 0%nat. by rewrite app_nil_r. }
  destruct (local <? prev_log_index r).
  { split_and!; try done; try (by exists lo). exists 0%nat. simpl. by rewrite app_nil_r. }
  destruct (remove_from_list_perm r q m Hq Hn) as [Hp Hn']. destruct Hd as (_ & _ & Hd).
  specialize (IH (prev_log_index r + entries_size r) (remove_from_list r q) (acc ++ [r]) _ Hd Hp Hn').
  destruct (runable_loop _ m _ _) as [[m' q'] out]. destruct IH as (H1 & H2 & H3 & H4 & k & H5 & H6).
  split_and!; try done.
  - rewrite H4, Hp, <- app_assoc, Hq. done.
  - exists (S k). simpl. by rewrite H5, <- app_assoc.
Qed.

(** ** Steps *)
Inductive step (max_size : Z) : AppendEntriesCache -> list Rpc -> list Event -> AppendEntriesCache -> Prop :=
| StepStore c env r c' ev :
    0 < r.(entries_size) -> rpc_id r ∉ rpc_id <$> c.(_rpc_queue) ->
    store env max_size r c = (true, c', ev) -> step max_size c [r] ev c'
| StepProcess c env i c' ev :
    empty_cache c = false -> process_runable_rpcs env i c = (tt, c', ev) -> step max_size c [] ev c'
| StepClear c env c' ev : clear env c = (tt, c', ev) -> step max_size c [] ev c'
| StepTimeout c env v t c' ev :
    empty_cache c = false ->
    do_handle_append_entries_cache_timedout env v t c = (tt, c', ev) -> step max_size c [] ev c'.

Lemma stop_timer_eq env c :
  exists b v, stop_timer env c = (tt, c <| _timer := b |> <| _timer_version := v |>, []).
Proof.
  unfold stop_timer. run. destruct (_timer c) eqn:Ht; simpl.
  - destruct (timer_del_ok env); simpl.
    + by exists false, (c.(_timer_version) + 1).
    + exists c.(_timer), (c.(_timer_version) + 1). by destruct c.
  - exists c.(_timer), c.(_timer_version). by destruct c.
Qed.

Lemma clear_eq env c :
  exists b v, clear env c =
    (tt, mkAppendEntriesCache [] [] b c.(_cache_version) v, [Handle c.(_rpc_queue)]).
Proof.
  unfold clear. run. destruct (stop_timer_eq env c) as (b & v & ->). by exists b, v.
Qed.

Lemma start_timer_eq env c :
  exists r b v ev, start_timer env c = (r, c <| _timer := b |> <| _timer_version := v |>, ev) /\
    handled ev = [] /\ CheckFailed ∉ ev.
Proof.
  unfold start_timer. run. destruct (timer_add_ok env); simpl.
  - eexists _, true, _, _. split; [reflexivity|]. split; [done|]. by intros [=]%list_elem_of_singleton.
  - exists false, c.(_timer), (c.(_timer_version) + 1), []. split; [by destruct c|]. split; [done|].
    apply not_elem_of_nil.
Qed.

Lemma handled_app a b : handled (a ++ b) = handled a ++ handled b.
Proof. unfold handled. by rewrite omap_app, List.concat_app. Qed.

(** What a step guarantees: [inp] comes in, the rest is handed out or kept. *)
Definition step_ok (max_size : Z) (c : AppendEntriesCache) (inp : list Rpc) (ev : list Event)
    (c' : AppendEntriesCache) : Prop :=
  cache_wf c' /\ (handled ev ++ c'.(_rpc_queue)) ≡ₚ (inp ++ c.(_rpc_queue)) /\ (CheckFailed ∉ ev) /\
  (zlen c.(_rpc_map) <= max_size -> zlen c'.(_rpc_map) <= max_size).

Lemma clear_ok max env c : 0 <= max -> cache_wf c ->
  let '(_, c', ev) := clear env c in
  step_ok max c [] ev c' /\ c'.(_rpc_map) = [] /\ c'.(_rpc_queue) = [].
Proof.
  intros Hm Hwf. destruct (clear_eq env c) as (b & v & ->). split_and!; try done. split_and!; simpl.
  - constructor; simpl; [by exists 0|done|constructor].
  - unfold handled. simpl. by rewrite !app_nil_r.
  - by intros [=]%list_elem_of_singleton.
  - rewrite zlen_nil. lia.
Qed.

(** The state in which [store] has put a request that overlaps none. *)
Definition stored (r : Rpc) (c : AppendEntriesCache) : AppendEntriesCache :=
  c <| _rpc_queue := c.(_rpc_queue) ++ [r] |> <| _rpc_map := map_insert r c.(_rpc_map) |>.

Lemma stored_wf r c :
  cache_wf c -> 0 < r.(entries_size) -> rpc_id r ∉ rpc_id <$> c.(_rpc_queue) ->
  need_clear r c.(_rpc_map) = false ->
  cache_wf (stored r c) /\ (stored r c).(_rpc_queue) ≡ₚ r :: c.(_rpc_queue).
Proof.
  intros [[lo Hd] Hs Hn] Hr Hid Hnc.
  destruct (insert_disjoint r c.(_rpc_map) lo Hd Hr Hnc) as [Hd' Hp].
  assert (_rpc_queue c ++ [r] ≡ₚ r :: _rpc_queue c) as Hq by (by rewrite Permutation_app_comm).
  split; [|done]. constructor; simpl; [done| |].
  - by rewrite Hp, Hq, Hs.
  - rewrite fmap_app. simpl. apply NoDup_app. split_and!; [done| |apply NoDup_singleton].
    by intros x Hx ->%list_elem_of_singleton.
Qed.

(** The end of [store]: the timer, and the release of what is beyond the capacity. *)
Definition finish_store (env : TimerEnv) (max_size : Z) : CM bool :=
  c ← get;
  started ← (if zlen c.(_rpc_map) =? 1 then start_timer env else mret true);
  if negb started then clear env ;; mret true
  else
    c ← get;
    let '(map', queue', released) :=
      release_loop (length c.(_rpc_map)) max_size c.(_rpc_map) c.(_rpc_queue) [] in
    modify (fun c => c <| _rpc_queue := queue' |> <| _rpc_map := map' |>) ;;
    when (negb (bool_decide (released = []))) (emit (Handle released)) ;;
    mret true.

Lemma store_eq env max r c :
  store env max r c =
  (when (negb (empty_cache c) && need_clear r c.(_rpc_map)) (clear env) ;;
   modify (stored r) ;; finish_store env max) c.
Proof. unfold store. rewrite get_bind. reflexivity. Qed.

Lemma finish_store_ok env max c :
  0 <= max -> cache_wf c ->
  let '(b, c', ev) := finish_store env max c in
  b = true /\ cache_wf c' /\ (handled ev ++ c'.(_rpc_queue)) ≡ₚ c.(_rpc_queue) /\
  (CheckFailed ∉ ev) /\ zlen c'.(_rpc_map) <= max.
Proof.
  intros Hm Hwf.
  assert (forall c1 ev1, c1.(_rpc_queue) = c.(_rpc_queue) -> c1.(_rpc_map) = c.(_rpc_map) ->
    handled ev1 = [] -> CheckFailed ∉ ev1 ->
    let '(map', queue', released) :=
      release_loop (length c1.(_rpc_map)) max c1.(_rpc_map) c1.(_rpc_queue) [] in
    let c' := c1 <| _rpc_queue := queue' |> <| _rpc_map := map' |> in
    let ev := ev1 ++ (if bool_decide (released = []) then [] else [Handle released]) in
    cache_wf c' /\ (handled ev ++ c'.(_rpc_queue)) ≡ₚ c.(_rpc_queue) /\
    (CheckFailed ∉ ev) /\ zlen c'.(_rpc_map) <= max) as Hrel.
  { intros c1 ev1 Hq Hmp He Hc. rewrite Hq, Hmp. destruct Hwf as [[lo Hd] Hs Hn].
    pose proof (release_loop_ok (length (_rpc_map c)) max (_rpc_map c) (_rpc_queue c) [] lo) as Hr.
    destruct (release_loop _ max _ _ _) as [[m' q'] out].
    destruct Hr as (H1 & H2 & H3 & H4 & H5); [done..|]. simpl in *. split_and!.
    - constructor; simpl; [by exists lo|done|done].
    - rewrite handled_app, He. simpl. case_bool_decide; [subst out; done|].
      unfold handled. simpl. by rewrite app_nil_r.
    - intros [?|Hin]%elem_of_app; [done|]. case_bool_decide; [by apply not_elem_of_nil in Hin|].
      by apply list_elem_of_singleton in Hin.
    - done. }
  unfold finish_store. run. destruct (zlen (_rpc_map c) =? 1).
  - destruct (start_timer_eq env c) as (st & b & v & ev & -> & He & Hc). destruct st; simpl.
    + set (c1 := c <| _timer := b |> <| _timer_version := v |>).
      specialize (Hrel c1 ev eq_refl eq_refl He Hc). simpl in Hrel.
      destruct (release_loop _ max _ _ _) as [[m' q'] out].
      destruct (bool_decide_reflect (out = [])); simpl in *; rewrite ?app_nil_r in *; (split; [done|exact Hrel]).
    + destruct (clear_eq env (c <| _timer := b |> <| _timer_version := v |>)) as (b' & v' & ->). simpl.
      split_and!; [done| | | |rewrite zlen_nil; lia].
      * constructor; simpl; [by exists 0|done|constructor].
      * rewrite handled_app, He. unfold handled. simpl. by rewrite !app_nil_r.
      * intros [?|Hin]%elem_of_app; [done|]. by apply list_elem_of_singleton in Hin.
  - specialize (Hrel c [] eq_refl eq_refl eq_refl (not_elem_of_nil _)). simpl in *.
    destruct (release_loop _ max _ _ _) as [[m' q'] out].
    destruct (bool_decide_reflect (out = [])); simpl in *; (split; [done|exact Hrel]).
Qed.

Lemma empty_no_overlap r c : empty_cache c = true -> need_clear r c.(_rpc_map) = false.
Proof. unfold empty_cache. by intros ->%bool_decide_eq_true. Qed.

Lemma store_ok env max r c :
  0 <= max -> cache_wf c -> 0 < r.(entries_size) -> rpc_id r ∉ rpc_id <$> c.(_rpc_queue) ->
  let '(_, c', ev) := store env max r c in step_ok max c [r] ev c' /\ zlen c'.(_rpc_map) <= max.
Proof.
  intros Hm Hwf Hr Hid. rewrite store_eq. unfold when. destruct (negb (empty_cache c) && _) eqn:Hclear.
  - run. destruct (clear_eq env c) as (b & v & ->). set (c0 := mkAppendEntriesCache [] [] b _ v).
    assert (cache_wf c0) as Hwf0 by (constructor; simpl; [by exists 0|done|constructor]).
    destruct (stored_wf r c0 Hwf0 Hr) as [Hwf1 Hq1]; [apply not_elem_of_nil|done|].
    pose proof (finish_store_ok env max (stored r c0) Hm Hwf1) as Hf.
    destruct (finish_store env max _) as [[b' c'] ev]. destruct Hf as (-> & H1 & H2 & H3 & H4).
    split; [split_and!|]; try done.
    + change (Handle (_rpc_queue c) :: ev) with ([Handle (_rpc_queue c)] ++ ev).
      rewrite handled_app, <- app_assoc, H2, Hq1. unfold handled. simpl.
      by rewrite app_nil_r, Permutation_app_comm.
    + by intros [?|?]%elem_of_cons.
  - assert (need_clear r c.(_rpc_map) = false) as Hnc.
    { destruct (empty_cache c) eqn:He; [by apply empty_no_overlap|done]. }
    run. destruct (stored_wf r c Hwf Hr Hid Hnc) as [Hwf1 Hq1].
    pose proof (finish_store_ok env max (stored r c) Hm Hwf1) as Hf.
    destruct (finish_store env max _) as [[b' c'] ev]. destruct Hf as (-> & H1 & H2 & H3 & H4).
    split; [split_and!|]; try done. by rewrite H2, Hq1.
Qed.

Lemma process_ok env max i c :
  0 <= max -> cache_wf c -> empty_cache c = false ->
  let '(_, c', ev) := process_runable_rpcs env i c in step_ok max c [] ev c'.
Proof.
  intros Hm [[lo Hd] Hs Hn] He. unfold process_runable_rpcs. run. rewrite He.
  assert (bool_decide (_rpc_queue c = []) = false) as ->.
  { apply bool_decide_eq_false. intros Hq. rewrite Hq in Hs. apply Permutation_nil in Hs.
    unfold empty_cache in He. by rewrite Hs in He. }
  simpl. pose proof (runable_loop_ok i (_rpc_map c) (_rpc_queue c) [] lo Hd Hs Hn) as Hr.
  destruct (runable_loop i _ _ _) as [[m' q'] out]. destruct Hr as (H1 & H2 & H3 & H4 & k & _ & H6). simpl in H4.
  set (c1 := c <| _rpc_queue := q' |> <| _rpc_map := m' |>).
  assert (forall ev c', c'.(_rpc_queue) = q' -> c'.(_rpc_map) = m' -> handled ev = out -> CheckFailed ∉ ev ->
    step_ok max c [] ev c') as Hgoal.
  { intros ev c' Hq' Hm' Hh Hc. split_and!; [constructor; by rewrite ?Hq', ?Hm'|by rewrite Hh, Hq', H4|done|].
    rewrite Hm', H6. unfold zlen. rewrite length_drop. lia. }
  destruct (bool_decide_reflect (out = [])); destruct (bool_decide_reflect (m' = [])); simpl;
    try (destruct (stop_timer_eq env c1) as (b & v & ->)); apply Hgoal;
    try done; try (unfold handled; simpl; by rewrite app_nil_r);
    try (by intros [=]%list_elem_of_singleton); apply not_elem_of_nil.
Qed.

Lemma timeout_ok env max v t c :
  0 <= max -> cache_wf c -> empty_cache c = false ->
  let '(_, c', ev) := do_handle_append_entries_cache_timedout env v t c in step_ok max c [] ev c'.
Proof.
  intros Hm Hwf He. unfold do_handle_append_entries_cache_timedout. run.
  assert (step_ok max c [] [] c) as Hid.
  { split_and!; try done. apply not_elem_of_nil. }
  destruct (negb _); [exact Hid|]. rewrite He.
  assert (bool_decide (_rpc_queue c = []) = false) as ->.
  { apply bool_decide_eq_false. intros Hq. destruct Hwf as [_ Hs _]. rewrite Hq in Hs.
    apply Permutation_nil in Hs. unfold empty_cache in He. by rewrite Hs in He. }
  simpl. destruct (_ <=? t).
  - pose proof (clear_ok max env c Hm Hwf) as Hc. destruct (clear env c) as [[u c'] ev]. by destruct Hc.
  - destruct (start_timer_eq env c) as (st & b & w & ev & -> & Hh & Hne).
    assert (cache_wf (c <| _timer := b |> <| _timer_version := w |>)) as Hwf1 by (destruct Hwf; by constructor).
    destruct st; simpl.
    + rewrite app_nil_r. split_and!; [done|by rewrite Hh|done|done].
    + destruct (clear_eq env (c <| _timer := b |> <| _timer_version := w |>)) as (b' & v' & ->). simpl.
      split_and!; simpl.
      * constructor; simpl; [by exists 0|done|constructor].
      * rewrite handled_app, Hh. unfold handled. simpl. by rewrite !app_nil_r.
      * intros [?|Hin]%elem_of_app; [done|]. by apply list_elem_of_singleton in Hin.
      * rewrite zlen_nil. lia.
Qed.

(** The out-of-order cache loses and duplicates nothing.  Along every step,
    the cached requests stay ordered and free of overlaps, the arrival queue and
    the ordered map hold the same requests, at most the configured number of
    them, no [CHECK] fails, and each request that came in is either still held
    or has been handed out exactly once. *)
Theorem cache_conserves_requests max c inp ev c' :
  0 <= max -> cache_wf c -> step max c inp ev c' ->
  cache_wf c' /\ (handled ev ++ c'.(_rpc_queue)) ≡ₚ (inp ++ c.(_rpc_queue)) /\
  (CheckFailed ∉ ev) /\ (zlen c.(_rpc_map) <= max -> zlen c'.(_rpc_map) <= max).
Proof.
  intros Hm Hwf Hs. change (step_ok max c inp ev c').
  destruct Hs as [c env r c' ev Hr Hid Hst|c env i c' ev He Hst|c env c' ev Hst|c env v t c' ev He Hst].
  - pose proof (store_ok env max r c Hm Hwf Hr Hid) as H. rewrite Hst in H. by destruct H.
  - pose proof (process_ok env max i c Hm Hwf He) as H. by rewrite Hst in H.
  - pose proof (clear_ok max env c Hm Hwf) as H. rewrite Hst in H. by destruct H.
  - pose proof (timeout_ok env max v t c Hm Hwf He) as H. by rewrite Hst in H.
Qed.

(** Two requests held, and a third that overlaps the second comes in. *)
Definition example_cache : AppendEntriesCache :=
  let a := mkRpc 1 10 5 100 in let b := mkRpc 2 20 5 101 in
  mkAppendEntriesCache [b; a] [a; b] true 0 1.

Lemma cache_conserves_requests_witness :
  let r := mkRpc 3 22 4 102 in
  let c' := mkAppendEntriesCache [r] [r] true 0 3 in
  let ev := [Handle [mkRpc 2 20 5 101; mkRpc 1 10 5 100]; StartTimer 3 0 102] in
  cache_wf c' /\ (handled ev ++ c'.(_rpc_queue)) ≡ₚ ([r] ++ example_cache.(_rpc_queue)) /\
  (CheckFailed ∉ ev) /\ (zlen example_cache.(_rpc_map) <= 8 -> zlen c'.(_rpc_map) <= 8).
Proof.
  apply (cache_conserves_requests 8 example_cache).
  - lia.
  - constructor; simpl; [exists 0; lia|apply Permutation_swap|].
    apply NoDup_cons. split; [by intros ?%list_elem_of_singleton|apply NoDup_singleton].
  - apply (StepStore 8 example_cache (mkTimerEnv true true)); [simpl; lia| |by vm_compute].
    simpl. intros [?|[?|?%elem_of_nil]%elem_of_cons]%elem_of_cons; done.
Defined.
