(* ===== verification/NodeState.v ===== *)
(** * NodeState: the data of a raft node

    The fields of [NodeImpl] ([src/braft/node.h]) with the vote contexts, the
    requests and responses of the protocol, and what a node asks of the parts
    it calls.  The log manager, the ballot box, the leases and the cache of
    out-of-order requests are embedded: the node runs their own definitions.
    The calls to the state machine caller, the replicators, the snapshot
    executor, the timers and the network are output events, and [Env] holds
    what these parts answer during one call.  A handler runs under [_mutex]; the
    places where it unlocks to wait for [last_log_id(true)] suspend it: the rest
    of the handler is a [Cont] in [_suspended]. *)

From S2P Require Import AppendEntriesCache LogManager ConfigurationManager LogStorage Lease BallotBox ClosureQueue Ballot Types Prelude.

(** ** The term and vote storage ([RaftMetaStorage], [src/braft/storage.h])

    [meta_durable] is what a restarted process reads back.  A failed write may
    have reached the disk or not. *)
Class RaftMetaStorage (Mt : Type) := {
  set_term_and_votedfor : Z -> PeerId -> Mt -> Errno * Mt;
  meta_durable : Mt -> Z * PeerId;
  set_term_durable t p m e m' :
    set_term_and_votedfor t p m = (e, m') ->
    meta_durable m' = (t, p) \/ (e <> OK /\ meta_durable m' = meta_durable m)
}.

(** ** Vote contexts *)
Record DisruptedLeader : Set := mkDisruptedLeader { dl_peer_id : PeerId; dl_term : Z }.

(** [DisruptedLeader()]. *)
Definition DisruptedLeader_default : DisruptedLeader := mkDisruptedLeader PeerId_default (-1).

(** [_grant_self_arg] keeps the version the pending timer was started with. *)
Record VoteBallotCtx : Set := mkVoteBallotCtx {
  _timer : bool;
  _ballot : Ballot;
  _version : Z;
  _grant_self_arg : option Z;
  _triggered : bool;
  _reserved_peers : Configuration;
  _disrupted_leader : DisruptedLeader;
  _last_log_id : LogId
}.
#[export] Instance VoteBallotCtx_eta : Settable VoteBallotCtx := fun v =>
  mkVoteBallotCtx v.(_timer) v.(_ballot) v.(_version) v.(_grant_self_arg) v.(_triggered)
    v.(_reserved_peers) v.(_disrupted_leader) v.(_last_log_id).

(** [VoteBallotCtx()]. *)
Definition VoteBallotCtx_default : VoteBallotCtx :=
  mkVoteBallotCtx false Ballot_default 0 None false [] DisruptedLeader_default LogId_default.

(** ** Configuration changes *)
Inductive Stage : Set := STAGE_NONE | STAGE_CATCHING_UP | STAGE_JOINT | STAGE_STABLE.

#[export] Instance Stage_eq_dec : EqDecision Stage.
Proof. solve_decision. Defined.

Record ConfigurationCtx : Set := mkConfigurationCtx {
  _stage : Stage;
  _nchanges : Z;
  _ctx_version : Z;
  _new_peers : Configuration;
  _old_peers : Configuration;
  _adding_peers : Configuration;
  _done : option Closure
}.
#[export] Instance ConfigurationCtx_eta : Settable ConfigurationCtx := fun c =>
  mkConfigurationCtx c.(_stage) c.(_nchanges) c.(_ctx_version) c.(_new_peers) c.(_old_peers)
    c.(_adding_peers) c.(_done).

(** [ConfigurationCtx(node)]; the constructor leaves [_nchanges] unset. *)
Definition ConfigurationCtx_default : ConfigurationCtx :=
  mkConfigurationCtx STAGE_NONE 0 0 [] [] [] None.

(** [is_busy]. *)
Definition is_busy (c : ConfigurationCtx) : bool := negb (bool_decide (c.(_stage) = STAGE_NONE)).

(** ** Messages

    A server id travels as text: a request carries what parsing it gives. *)
Record RequestVoteRequest : Set := mkRequestVoteRequest {
  rv_server_id : option PeerId;
  rv_term : Z;
  rv_last_log_id : LogId;
  rv_disrupted_leader : option (option PeerId * Z)
}.
Record RequestVoteResponse : Set := mkRequestVoteResponse {
  rs_term : Z;
  rs_granted : bool;
  rs_rejected_by_lease : bool;
  rs_disrupted : bool;
  rs_previous_term : Z
}.
Record EntryMeta : Set := mkEntryMeta {
  em_type : EntryType;
  em_term : Z;
  em_peers : list string;
  em_old_peers : list string;
  em_data_len : option Z
}.
Record AppendEntriesRequest : Set := mkAppendEntriesRequest {
  ae_server_id : option PeerId;
  ae_term : Z;
  ae_prev_log_index : Z;
  ae_prev_log_term : Z;
  ae_committed_index : Z;
  ae_entries : list EntryMeta;
  ae_attachment : IOBuf
}.
Record AppendEntriesResponse : Set := mkAppendEntriesResponse {
  ar_term : Z;
  ar_success : bool;
  ar_last_log_index : option Z;
  ar_readonly : option bool
}.

(** ** The parts a node drives *)
Inductive FsmCall : Set :=
| OnLeaderStart (term lease_epoch : Z)
| OnLeaderStop (e : Errno)
| OnStartFollowing (leader : PeerId) (term : Z) (e : Errno)
| OnStopFollowing (leader : PeerId) (term : Z) (e : Errno)
| FsmOnError (e : Errno)
| FsmShutdown
| UserOnLeaderStart (term : Z).

Inductive ReplicatorCall : Set :=
| AddReplicator (p : PeerId)
| WaitCaughtup (p : PeerId) (term version : Z)
| StopReplicator (p : PeerId)
| StopAll
| StopAllAndWakeup
| ResetTerm (term : Z)
| TransferLeadershipTo (p : PeerId) (log_index : Z)
| StopTransferLeadership (p : PeerId)
| ResetHeartbeatInterval (ms : Z)
| ResetElectionTimeoutInterval (ms : Z)
| ChangeReadonlyConfig (p : PeerId) (readonly : bool).

Inductive SnapshotCall : Set :=
| InterruptDownloading (term : Z)
| DoSnapshot (done : option Closure)
| InstallSnapshot (rpc : Closure)
| SnapshotShutdown.

Inductive NodeTimer : Set := ElectionTimer | VoteTimer | StepdownTimer | SnapshotTimer.
Inductive TimerOp : Set := Init (timeout_ms : Z) | Start | Stop | Reset (timeout_ms : Z) | Destroy.

(** Which of the two vote contexts. *)
Inductive Poll : Set := PreVote | Vote.

Inductive Event : Set :=
| EvLog (e : LogManager.Event)
| EvBox (e : BallotBox.Event)
| EvCache (e : AppendEntriesCache.Event)
| RunClosure (c : Closure) (e : Errno)
| Fsm (c : FsmCall)
| Replicators (c : ReplicatorCall)
| Snapshots (c : SnapshotCall)
| Timer (t : NodeTimer) (op : TimerOp)
| StartGrantSelfTimer (w : Poll) (version wait_ms : Z)
| StartTransferTimer (term : Z) (peer : PeerId)
| Send (w : Poll) (to : PeerId) (ctx_version : Z) (r : RequestVoteRequest)
| VoteReply (w : Poll) (rpc : Closure) (request : RequestVoteRequest) (r : option RequestVoteResponse)
| AppendFailed (rpc : Closure) (e : Errno)
| AppendReply (rpc : Closure) (r : AppendEntriesResponse)
| InstallFailed (rpc : Closure) (e : Errno)
| InstallReply (rpc : Closure) (term : Z) (success : bool)
| TimeoutNowReply (rpc : Closure) (term : Z) (success : bool)
| RemovedFromManager
| CheckFailed.

(** The closures a node makes: the fields of [LeaderStableClosure],
    [FollowerStableClosure] and [ConfigurationChangeDone]. *)
Inductive NodeClosure : Set :=
| LeaderStable (nentries : Z)
| FollowerStable (rpc : Closure) (request : AppendEntriesRequest) (term : Z)
| ConfChangeDone (term : Z) (leader_start : bool) (lease_epoch : Z).

(** The rest of a handler that waits for the last log id. *)
Inductive Cont : Set :=
| CPreVote (old_term : Z) (triggered : bool)
| CElect (old_term : Z)
| CPreVoteRequest (rpc : Closure) (request : RequestVoteRequest)
| CVoteRequest (rpc : Closure) (request : RequestVoteRequest) (candidate_id : PeerId) (previous_term : Z).

(** ** The answers of the other parts during one call *)
Record Env : Type := mkEnv {
  now_ms : Z;
  gettimeofday_ms : Z;
  enable_leader_lease : bool;
  has_snapshot_executor : bool;
  installing_snapshot : bool;
  last_rpc_send_timestamp : PeerId -> Z;
  replicator_readonly : PeerId -> bool;
  add_replicator_ok : PeerId -> bool;
  wait_caughtup_ok : PeerId -> bool;
  next_candidate : option PeerId;
  transfer_result : Errno;
  channel_ok : PeerId -> bool;
  timer_add : bool;
  timer_del : bool;
  step_down_when_vote_timedout : bool;
  enable_append_entries_cache : bool;
  max_append_entries_cache_size : Z;
  enable_witness_to_leader : bool;
  election_heartbeat_factor : Z
}.

Record NodeOptions : Set := mkNodeOptions {
  election_timeout_ms : Z;
  max_clock_drift_ms : Z;
  witness : bool;
  snapshot_interval_s : Z;
  initial_conf : Configuration
}.
#[export] Instance NodeOptions_eta : Settable NodeOptions := fun o =>
  mkNodeOptions o.(election_timeout_ms) o.(max_clock_drift_ms) o.(witness) o.(snapshot_interval_s)
    o.(initial_conf).

(** ** The node *)
Record Node (S Mt : Type) : Type := mkNode {
  _state : State;
  _current_term : Z;
  _leader_id : PeerId;
  _voted_id : PeerId;
  _vote_ctx : VoteBallotCtx;
  _pre_vote_ctx : VoteBallotCtx;
  _conf : ConfigurationEntry;
  _server_id : PeerId;
  _options : NodeOptions;
  _conf_ctx : ConfigurationCtx;
  _meta_storage : Mt;
  _log_manager : LogManager S;
  _ballot_box : BallotBox;
  _shutdown_continuations : list (option Closure);
  _stop_transfer_arg : option (Z * PeerId);
  _vote_triggered : bool;
  _append_entries_cache : option AppendEntriesCache;
  _append_entries_cache_version : Z;
  _node_readonly : bool;
  _majority_nodes_readonly : bool;
  _leader_lease : LeaderLease;
  _follower_lease : FollowerLease;
  _closures : gmap Closure NodeClosure;
  _rpcs : gmap Closure AppendEntriesRequest;
  _suspended : list (Closure * Cont * option LogId);
  _next_closure : Closure
}.
Arguments mkNode {S Mt}.
Arguments _state {S Mt}. Arguments _current_term {S Mt}. Arguments _leader_id {S Mt}.
Arguments _voted_id {S Mt}. Arguments _vote_ctx {S Mt}. Arguments _pre_vote_ctx {S Mt}.
Arguments _conf {S Mt}. Arguments _server_id {S Mt}. Arguments _options {S Mt}.
Arguments _conf_ctx {S Mt}. Arguments _meta_storage {S Mt}. Arguments _log_manager {S Mt}.
Arguments _ballot_box {S Mt}. Arguments _shutdown_continuations {S Mt}.
Arguments _stop_transfer_arg {S Mt}. Arguments _vote_triggered {S Mt}.
Arguments _append_entries_cache {S Mt}. Arguments _append_entries_cache_version {S Mt}.
Arguments _node_readonly {S Mt}. Arguments _majority_nodes_readonly {S Mt}.
Arguments _leader_lease {S Mt}. Arguments _follower_lease {S Mt}. Arguments _closures {S Mt}.
Arguments _rpcs {S Mt}. Arguments _suspended {S Mt}. Arguments _next_closure {S Mt}.

#[export] Instance Node_eta S Mt : Settable (Node S Mt) := fun n =>
  mkNode n.(_state) n.(_current_term) n.(_leader_id) n.(_voted_id) n.(_vote_ctx) n.(_pre_vote_ctx)
    n.(_conf) n.(_server_id) n.(_options) n.(_conf_ctx) n.(_meta_storage) n.(_log_manager)
    n.(_ballot_box) n.(_shutdown_continuations) n.(_stop_transfer_arg) n.(_vote_triggered)
    n.(_append_entries_cache) n.(_append_entries_cache_version) n.(_node_readonly)
    n.(_majority_nodes_readonly) n.(_leader_lease) n.(_follower_lease) n.(_closures) n.(_rpcs)
    n.(_suspended) n.(_next_closure).

(** [NodeImpl::NodeImpl] over a log storage and a meta storage. *)
Definition NodeImpl {S Mt} (server_id : PeerId) (s : S) (m : Mt) (options : NodeOptions) : Node S Mt :=
  mkNode STATE_UNINITIALIZED 0 PeerId_default PeerId_default VoteBallotCtx_default VoteBallotCtx_default
    ConfigurationEntry_default server_id options ConfigurationCtx_default m (LogManager_default s)
    BallotBox_default [] None false None 0 false false LeaderLease_default FollowerLease_default
    ∅ ∅ [] 1%positive.

(** The node's handle on its rpcs in the cache and what the cache keeps of one. *)
Definition rpc_of (rpc : Closure) (r : AppendEntriesRequest) (now : Z) : Rpc :=
  mkRpc rpc r.(ae_prev_log_index) (zlen r.(ae_entries)) now.
