(* ===== verification/RepeatedTimer.v ===== *)
(** * RepeatedTimer: the timers of a node

    Models the class [RepeatedTimerTask] of [src/braft/repeated_timer_task.h] and
    [src/braft/repeated_timer_task.cpp] and the four timers of [src/braft/node.h]
    and [src/braft/node.cpp] that inherit from it.  What runs between two uses of
    [_mutex] is a definition of its own.

    The timers of bthread are a set of the ids of those that have not fired yet:
    [bthread_timer_add] may fail, and adds an id otherwise; [bthread_timer_del]
    returns 0 just when its timer has not fired.  Its clock and the random numbers
    are arguments. *)

From S2P Require Import Prelude Types FsmCaller NodeState.

Record AddEnv : Type := mkAddEnv {
  add_ok : bool;
  fast_rand_in : Z -> Z -> Z;
  fast_rand_less_than : Z -> Z;
  raft_max_election_delay_ms : Z
}.

Record RepeatedTimerTask : Set := mkRepeatedTimerTask {
  _timer : option positive;
  _timeout_ms : Z;
  _stopped : bool;
  _running : bool;
  _destroyed : bool;
  _invoking : bool
}.
#[export] Instance RepeatedTimerTask_eta : Settable RepeatedTimerTask := fun t =>
  mkRepeatedTimerTask t.(_timer) t.(_timeout_ms) t.(_stopped) t.(_running) t.(_destroyed) t.(_invoking).
Definition RepeatedTimerTask_default : RepeatedTimerTask := mkRepeatedTimerTask None 0 true false true false.

(** A timer of a node, and the timers of bthread. *)
Record TimerState : Type := mkTimerState {
  task : RepeatedTimerTask;
  (** whether the timer has the node: [_node] is not NULL *)
  _node : bool;
  _first_schedule : bool;
  waiting : gset positive;
  next_timer : positive
}.
#[export] Instance TimerState_eta : Settable TimerState := fun t =>
  mkTimerState t.(task) t.(_node) t.(_first_schedule) t.(waiting) t.(next_timer).
Definition TimerState_default : TimerState := mkTimerState RepeatedTimerTask_default false true ∅ 1.

Inductive Event : Set :=
| Scheduled (timeout_ms : Z)
(** [run] of the timer: the handler of the node *)
| Run
| NodeAddRef
| NodeRelease
(** a write to the timer after the node, which it is a part of, was deleted *)
| WriteAfterFree
| NullNode
| CheckFailed.

Abbreviation TM := (M TimerState Event).
Definition set_task (f : RepeatedTimerTask -> RepeatedTimerTask) : TM unit := modify (fun s => s <| task := f s.(task) |>).
Definition check_that (b : bool) : TM unit := when (negb b) (emit CheckFailed).

(** What a thread does once it has given up the lock: nothing, [on_timedout], or
    [on_destroy]. *)
Inductive Next : Set := Return | TimedOut | Destroying.

(** ** The timers of a node *)
Section timer.
Variable kind : NodeTimer.

Definition random_timeout (env : AddEnv) (timeout_ms : Z) : Z :=
  let delta := Z.min timeout_ms env.(raft_max_election_delay_ms) in
  env.(fast_rand_in) timeout_ms (wrap_i32 (timeout_ms + delta)).

Definition adjust_timeout_ms (env : AddEnv) (timeout_ms : Z) : TM Z :=
  match kind with
  | ElectionTimer | VoteTimer => mret (random_timeout env timeout_ms)
  | StepdownTimer => mret timeout_ms
  | SnapshotTimer =>
      s ← get;
      if negb s.(_first_schedule) then mret timeout_ms
      else
        modify (fun s => s <| _first_schedule := false |>) ;;
        mret (if 0 <? timeout_ms then env.(fast_rand_less_than) timeout_ms + 1 else timeout_ms)
  end.

(** ** [RepeatedTimerTask] *)
Definition bthread_timer_add (ok : bool) : TM bool :=
  when ok (modify (fun s => s <| waiting := {[s.(next_timer)]} ∪ s.(waiting) |> <| next_timer := Pos.succ s.(next_timer) |>
    <| task := s.(task) <| _timer := Some s.(next_timer) |> |>)) ;;
  mret ok.
Definition bthread_timer_del : TM bool :=
  s ← get;
  match s.(task).(_timer) with
  | Some i =>
      if decide (i ∈ s.(waiting)) then modify (fun s => s <| waiting := s.(waiting) ∖ {[i]} |>) ;; mret true else mret false
  | None => mret false
  end.

Definition schedule (env : AddEnv) : TM Next :=
  s ← get;
  timeout_ms ← adjust_timeout_ms env s.(task).(_timeout_ms);
  added ← bthread_timer_add env.(add_ok);
  if negb added then mret TimedOut else emit (Scheduled timeout_ms) ;; mret Return.

Definition task_init (timeout_ms : Z) : TM Errno :=
  set_task (fun t => t <| _timeout_ms := timeout_ms |> <| _destroyed := false |> <| _stopped := true |>
                       <| _running := false |> <| _timer := None |>) ;;
  mret OK.

Definition stop : TM unit :=
  s ← get;
  if s.(task).(_stopped) then skip
  else
    set_task (fun t => t <| _stopped := true |>) ;;
    check_that s.(task).(_running) ;;
    deleted ← bthread_timer_del;
    when deleted (set_task (fun t => t <| _running := false |>)).

(** [on_timedout], with [run] between its two sections. *)
Definition timedout_begin : TM unit :=
  set_task (fun t => t <| _invoking := true |>) ;;
  s ← get;
  emit (if s.(_node) then Run else NullNode).
Definition timedout_end (env : AddEnv) : TM Next :=
  set_task (fun t => t <| _invoking := false |>) ;;
  s ← get;
  check_that s.(task).(_running) ;;
  if s.(task).(_stopped) then
    set_task (fun t => t <| _running := false |>) ;;
    mret (if s.(task).(_destroyed) then Destroying else Return)
  else schedule env.

Definition start (env : AddEnv) : TM Next :=
  s ← get;
  if s.(task).(_destroyed) then mret Return
  else if negb s.(task).(_stopped) then mret Return
  else
    set_task (fun t => t <| _stopped := false |>) ;;
    if s.(task).(_running) then mret Return
    else
      set_task (fun t => t <| _running := true |>) ;;
      schedule env.

Definition run_once_now : TM Next :=
  deleted ← bthread_timer_del;
  if (deleted : bool) then mret TimedOut else mret Return.

Definition reset (env : AddEnv) : TM Next :=
  s ← get;
  if s.(task).(_stopped) then mret Return
  else
    check_that s.(task).(_running) ;;
    deleted ← bthread_timer_del;
    if (deleted : bool) then schedule env else mret Return.
Definition reset_to (timeout_ms : Z) (env : AddEnv) : TM Next :=
  set_task (fun t => t <| _timeout_ms := timeout_ms |>) ;;
  reset env.

Definition destroy : TM Next :=
  s ← get;
  if s.(task).(_destroyed) then mret Return
  else
    set_task (fun t => t <| _destroyed := true |>) ;;
    if negb s.(task).(_running) then
      check_that s.(task).(_stopped) ;;
      mret Destroying
    else if s.(task).(_stopped) then mret Return
    else
      set_task (fun t => t <| _stopped := true |>) ;;
      deleted ← bthread_timer_del;
      if (deleted : bool) then
        set_task (fun t => t <| _running := false |>) ;;
        mret Destroying
      else
        s ← get;
        check_that s.(task).(_running) ;;
        mret Return.

(** ** [NodeTimer] *)
Definition NodeTimer_init (timeout_ms : Z) : TM Errno :=
  rc ← task_init timeout_ms;
  if negb (ok rc) then mret ENEG1
  else
    modify (fun s => s <| _node := true |>) ;;
    emit NodeAddRef ;;
    mret OK.

(** [last]: nobody else has a reference to the node. *)
Definition on_destroy (last : bool) : TM unit :=
  s ← get;
  when s.(_node)
    (emit NodeRelease ;;
     when last (emit WriteAfterFree) ;;
     modify (fun s => s <| _node := false |>)).

(** ** Runs *)

(** A thread that runs [on_timedout], before and after the start of [run], or has
    [on_destroy] to call. *)
Inductive Thread : Set := Due | Invoking | Ending.
Record World : Type := mkWorld { tm : TimerState; threads : list Thread; trace : list Event }.

Definition thread_of (n : Next) : list Thread :=
  match n with Return => [] | TimedOut => [Due] | Destroying => [Ending] end.

Inductive Section_ : Type :=
| Start (env : AddEnv)
| Stop
| Reset (env : AddEnv)
| ResetTo (timeout_ms : Z) (env : AddEnv)
| RunOnceNow
| Destroy
(** a timer of bthread fires *)
| Fire (i : positive)
| Begin (n : nat)
| End (n : nat) (env : AddEnv)
| OnDestroy (n : nat) (last : bool).

Definition section_of (ts : list Thread) (c : Section_) : option (TM (list Thread)) :=
  let and_then (l : list Thread) (m : TM Next) : option (TM (list Thread)) := Some (n ← m; mret (thread_of n ++ l)) in
  match c with
  | Start env => and_then ts (start env)
  | Stop => Some (stop ;; mret ts)
  | Reset env => and_then ts (reset env)
  | ResetTo ms env => and_then ts (reset_to ms env)
  | RunOnceNow => and_then ts run_once_now
  | Destroy => and_then ts destroy
  | Fire i => Some (s ← get;
      if decide (i ∈ s.(waiting)) then modify (fun s => s <| waiting := s.(waiting) ∖ {[i]} |>) ;; mret (Due :: ts) else mret ts)
  | Begin n => match ts !! n with Some Due => Some (timedout_begin ;; mret (<[n := Invoking]> ts)) | _ => None end
  | End n env => match ts !! n with Some Invoking => and_then (delete n ts) (timedout_end env) | _ => None end
  | OnDestroy n last => match ts !! n with Some Ending => Some (on_destroy last ;; mret (delete n ts)) | _ => None end
  end.

Definition step_with (w : World) (c : Section_) : option World :=
  (fun m : TM (list Thread) => let '(ts, s, ev) := m w.(tm) in mkWorld s ts (w.(trace) ++ ev)) <$> section_of w.(threads) c.
Definition step (w w' : World) : Prop := exists c, step_with w c = Some w'.

Definition initialised (timeout_ms : Z) : World :=
  let '(_, s, ev) := NodeTimer_init timeout_ms TimerState_default in mkWorld s [] ev.
Definition reachable (w : World) : Prop := exists timeout_ms, rtc step (initialised timeout_ms) w.
End timer.
