(* ===== verification/RepeatedTimerProofs.v ===== *)
(** * RepeatedTimerProofs: a timer runs one thing at a time, and lets its node go once

    The invariant of the runs of a timer: it is idle, or waits in bthread, or one
    thread runs it, or one thread is about to end it; what follows of it; and the
    range of the times it waits. *)

From S2P Require Import Prelude Types FsmCaller NodeState RepeatedTimer.

(** The flags, in the order stopped, running, destroyed, invoking. *)
Definition flags (s : TimerState) (stopped running destroyed invoking : bool) : Prop :=
  s.(task).(_stopped) = stopped /\ s.(task).(_running) = running /\ s.(task).(_destroyed) = destroyed /\ s.(task).(_invoking) = invoking.

Definition live (s : TimerState) (ts : list Thread) : Prop :=
  match ts with
  | [] =>
      (s.(waiting) = ∅ /\ exists d, flags s true false d false /\ s.(_node) = negb d) \/
      (exists i, s.(waiting) = {[i]} /\ s.(task).(_timer) = Some i /\ flags s false true false false /\ s.(_node) = true)
  | [Due] => s.(waiting) = ∅ /\ s.(_node) = true /\ exists st d, flags s st true d false /\ (d = true -> st = true)
  | [Invoking] => s.(waiting) = ∅ /\ s.(_node) = true /\ exists st d, flags s st true d true /\ (d = true -> st = true)
  | [Ending] => s.(waiting) = ∅ /\ s.(_node) = true /\ flags s true false true false
  | _ => False
  end.

Definition fine (e : Event) : Prop := e <> CheckFailed /\ e <> NullNode.
#[export] Instance TimerEvent_eq_dec : EqDecision Event.
Proof. solve_decision. Defined.
Definition releases (tr : list Event) : nat := length (filter (fun e => e = NodeRelease) tr).
Arguments releases _ : simpl never.

Lemma releases_app l k : releases (l ++ k) = (releases l + releases k)%nat.
Proof. unfold releases. by rewrite filter_app, length_app. Qed.

(** What is told of a run so far: no check has failed, and the node has been let
    go just when the timer no longer has it. *)
Definition told (s : TimerState) (tr : list Event) : Prop :=
  Forall fine tr /\ releases tr = (if s.(_node) then 0 else 1)%nat.
Definition good (ts : list Thread) (s : TimerState) (tr : list Event) : Prop := live s ts /\ told s tr.

Lemma told_quiet s s' tr e : told s tr -> s'.(_node) = s.(_node) -> fine e -> e <> NodeRelease -> told s' (tr ++ [e]).
Proof.
  intros [Hf Hr] Hn He Hne. split; [by apply Forall_app; split; [|by constructor]|].
  rewrite releases_app, Hr, Hn. unfold releases. rewrite filter_cons, decide_False by done. cbn. lia.
Qed.

Section timer.
Variable kind : NodeTimer.

Lemma adjust_spec env ms (Q : Z -> TimerState -> list Event -> Prop) s tr :
  (forall z b, Q z (s <| _first_schedule := b |>) tr) -> wpt (adjust_timeout_ms kind env ms) Q s tr.
Proof.
  intros HQ. assert (s = s <| _first_schedule := s.(_first_schedule) |>) as Hs by by destruct s.
  unfold adjust_timeout_ms. destruct kind; wpt_go; try (rewrite Hs; apply HQ).
  destruct (_first_schedule s); cbn [negb]; wpt_go; [apply HQ|]. rewrite Hs. apply HQ.
Qed.

(** A timer that runs and has nobody to run it waits, or is run. *)
Lemma schedule_good env s tr : s.(waiting) = ∅ -> s.(_node) = true -> flags s false true false false -> told s tr ->
  wpt (schedule kind env) (fun n s' tr' => good (thread_of n) s' tr') s tr.
Proof.
  intros Hw Hn Hf Ht. unfold schedule. wpt_go. apply adjust_spec. intros ms b. unfold bthread_timer_add.
  wpt_go; destruct (add_ok env) eqn:Ha; cbn [negb]; try discriminate; wpt_go; cbn [thread_of].
  - split; [|by eapply told_quiet]. right. eexists. cbn. rewrite Hw. split_and!; try done. set_solver.
  - split; [|done]. cbn. split_and!; [done|done|]. by exists false, false.
Qed.

Lemma del_spec (Q : bool -> TimerState -> list Event -> Prop) s tr i : s.(waiting) = {[i]} -> s.(task).(_timer) = Some i ->
  Q true (s <| waiting := ∅ |>) tr -> wpt bthread_timer_del Q s tr.
Proof.
  intros Hw Ht HQ. unfold bthread_timer_del. wpt_step. wpt_step. rewrite Ht, decide_True by (rewrite Hw; set_solver).
  wpt_go. replace (waiting s ∖ {[i]}) with (∅ : gset positive) by (rewrite Hw; set_solver). done.
Qed.
Lemma del_none_spec (Q : bool -> TimerState -> list Event -> Prop) s tr : s.(waiting) = ∅ ->
  Q false s tr -> wpt bthread_timer_del Q s tr.
Proof.
  intros Hw HQ. unfold bthread_timer_del. wpt_step. wpt_step. destruct (_timer _); [|by wpt_go]. rewrite decide_False by (rewrite Hw; set_solver). by wpt_go.
Qed.

(** A state of one of the shapes of [live], with its flags in place. *)
Ltac shapes H :=
  lazymatch type of H with
  | live ?s ?ts => destruct s as [[tmr ms st run des inv] nd fs wt nx];
      destruct ts as [|[] [|]]; cbn in H; try done; unfold flags in H; cbn in H; destruct_and?;
      repeat match goal with
      | H : _ \/ _ |- _ => destruct H
      | H : exists _, _ |- _ => destruct H
      | H : _ /\ _ |- _ => destruct H
      end; subst; cbn in *; subst; try discriminate
  end.

(** What has been told of a state holds of one that has the same node. *)
Lemma told_same s s' tr : told s tr -> s'.(_node) = s.(_node) -> told s' tr.
Proof. unfold told. by intros [? ?] ->. Qed.

Ltac shape_of := cbn; first
  [ left; split; [done|]; eexists; split; [by split_and!|done]
  | by right; eexists; split_and!
  | split_and!; [done|done|]; eexists _, _; split; [by split_and!|done]
  | by split_and! ].
Ltac settle := cbn [thread_of app delete list_delete]; split; [shape_of|first [eapply told_same; [eassumption|done]|eapply told_quiet; [eassumption|done..]]].
Ltac timer_step :=
  match goal with
  | |- wpt (schedule _ _) _ _ _ =>
      eapply wpt_mono; [apply schedule_good; [done|done|by split_and!|by eapply told_same]|];
      intros; apply wpt_ret; rewrite app_nil_r; assumption
  | |- wpt bthread_timer_del _ _ _ => first [eapply del_spec; [done|done|]|apply del_none_spec; [done|]]
  | |- wpt (if ?b then _ else _) _ _ _ => destruct b
  | |- wpt (set_task _) _ _ _ => unfold set_task
  | |- wpt (check_that _) _ _ _ => unfold check_that
  | |- wpt (when true _) _ _ _ => cbn [when]
  | |- wpt (when false _) _ _ _ => cbn [when]
  | _ => wpt_step
  end; cbn.
Ltac timer_go := repeat timer_step.

Section sections.
Context (ts : list Thread) (s : TimerState) (tr : list Event) (Hl : live s ts) (Ht : told s tr).

Lemma stop_good : wpt stop (fun _ => good ts) s tr.
Proof. unfold stop. shapes Hl; timer_go; settle.
Qed.
Lemma start_good env : wpt (start kind env ≫= fun n => mret (thread_of n ++ ts)) good s tr.
Proof.
  unfold start. shapes Hl; timer_go; settle.
Qed.
Lemma run_once_now_good : wpt (run_once_now ≫= fun n => mret (thread_of n ++ ts)) good s tr.
Proof.
  unfold run_once_now. shapes Hl; timer_go; settle.
Qed.
Lemma reset_good env : wpt (reset kind env ≫= fun n => mret (thread_of n ++ ts)) good s tr.
Proof.
  unfold reset. shapes Hl; timer_go; settle.
Qed.
Lemma destroy_good : wpt (destroy ≫= fun n => mret (thread_of n ++ ts)) good s tr.
Proof.
  unfold destroy. shapes Hl; timer_go; settle.
Qed.
Lemma reset_to_good timeout env : wpt (reset_to kind timeout env ≫= fun n => mret (thread_of n ++ ts)) good s tr.
Proof. unfold reset_to, reset. shapes Hl; timer_go; settle. Qed.
Lemma fire_good i : wpt (s ← get;
  if decide (i ∈ s.(waiting)) then modify (fun s => s <| waiting := s.(waiting) ∖ {[i]} |>) ;; mret (Due :: ts) else mret ts) good s tr.
Proof.
  wpt_step. wpt_step. destruct (decide _) as [Hi|]; [|by wpt_go].
  shapes Hl; try (by apply not_elem_of_empty in Hi). apply elem_of_singleton in Hi as ->. timer_go.
  match goal with |- context [?a ∖ ?a] => replace (a ∖ a) with (∅ : gset positive) by set_solver end. settle.
Qed.
Lemma begin_good n : ts !! n = Some Due -> wpt (timedout_begin ;; mret (<[n := Invoking]> ts)) good s tr.
Proof.
  intros Hn. unfold timedout_begin. shapes Hl; destruct n as [|[|]]; try discriminate Hn. timer_go. split; [shape_of|].
  by eapply told_quiet.
Qed.
Lemma end_good n env : ts !! n = Some Invoking ->
  wpt (timedout_end kind env ≫= fun k => mret (thread_of k ++ delete n ts)) good s tr.
Proof.
  intros Hn. unfold timedout_end. shapes Hl; destruct n as [|[|]]; try discriminate Hn.
  destruct x, x0; try (match goal with H : true = true -> false = true |- _ => discriminate (H eq_refl) end); timer_go; settle.
Qed.
Lemma on_destroy_good n last : ts !! n = Some Ending -> wpt (on_destroy last ;; mret (delete n ts)) good s tr.
Proof.
  intros Hn. unfold on_destroy. shapes Hl; destruct n as [|[|]]; try discriminate Hn.
  destruct Ht as [Hf Hr]. cbn in Hr. destruct last; timer_go; (split; [shape_of|split; cbn]).
  1,3: repeat (apply Forall_app; split); try done; by repeat constructor.
  all: rewrite !releases_app, Hr; reflexivity.
Qed.
End sections.

Lemma timer_section_good w c w' : good w.(threads) w.(tm) w.(trace) -> step_with kind w c = Some w' -> good w'.(threads) w'.(tm) w'.(trace).
Proof.
  intros [Hl Ht]. unfold step_with. intros (m & Hm & ->)%fmap_Some.
  assert (wpt m good w.(tm) w.(trace)) as Hg.
  { destruct c; cbn in Hm; try (injection Hm as <-);
      repeat match type of Hm with (match ?x with _ => _ end = _) => destruct x eqn:?; try discriminate Hm end; try injection Hm as <-;
      first [by apply start_good|by apply reset_good|by apply reset_to_good|by apply run_once_now_good|by apply destroy_good|by apply fire_good
            |by apply begin_good|by apply end_good|by apply on_destroy_good|idtac].
    apply wpt_bind. eapply wpt_mono; [by apply stop_good|]. intros ? s' tr' Hg. by apply wpt_ret. }
  unfold wpt, value_of, state_of, events_of in Hg. by destruct (m w.(tm)) as [[ts s] ev].
Qed.

Lemma reachable_good w : reachable kind w -> good w.(threads) w.(tm) w.(trace).
Proof.
  intros [ms Hr]. assert (good (threads (initialised ms)) (tm (initialised ms)) (trace (initialised ms))) as Hi.
  { split; [|split; [by repeat constructor|reflexivity]]. left. split; [done|]. exists false. split; [by split_and!|done]. }
  induction Hr as [w|w w1 w2 [c Hs] Hr IH]; [done|]. apply IH. by eapply timer_section_good.
Qed.
(** C16: a timer is one thing at a time.  In every run, whatever threads call while
    its handler runs and whatever timers of bthread cannot be added: there is at
    most one of a bthread timer that waits, a thread that runs the handler and a
    thread that ends the timer; the flags say which; a timer that neither waits nor
    is run has been stopped; and no check of the code fails. *)
Theorem timer_is_one_thing_at_a_time w : reachable kind w ->
  let t := w.(tm).(task) in
  (size w.(tm).(waiting) + length w.(threads) <= 1)%nat /\
  (t.(_running) = true <-> w.(tm).(waiting) <> ∅ \/ Due ∈ w.(threads) \/ Invoking ∈ w.(threads)) /\
  (t.(_invoking) = true <-> Invoking ∈ w.(threads)) /\
  (Ending ∈ w.(threads) -> t.(_destroyed) = true) /\
  (t.(_running) = false -> t.(_stopped) = true) /\
  (t.(_destroyed) = true -> t.(_stopped) = true) /\
  CheckFailed ∉ w.(trace) /\ NullNode ∉ w.(trace).
Proof.
  intros [Hl [Hf _]]%reachable_good. rewrite Forall_forall in Hf.
  assert (CheckFailed ∉ w.(trace) /\ NullNode ∉ w.(trace)) as [Hc Hn] by (split; intros [? ?]%Hf; done).
  destruct w as [s ts tr]. cbn in *. clear Hf. shapes Hl; rewrite ?size_empty, ?size_singleton; split_and!; try done; try (split; set_solver); set_solver.
Qed.

(** What is left to do of the threads of a timer. *)
Definition remaining (ts : list Thread) : nat :=
  sum_list_with (fun t => match t with Due => 3 | Invoking => 2 | Ending => 1 end)%nat ts.
Definition of_thread (c : Section_) : Prop := match c with Begin _ | End _ _ | OnDestroy _ _ => True | _ => False end.

(** Nobody else changes anything once the timer has been destroyed. *)
Lemma outside_quiet w c w' : w.(tm).(waiting) = ∅ -> w.(tm).(task).(_stopped) = true -> w.(tm).(task).(_destroyed) = true ->
  ~ of_thread c -> step_with kind w c = Some w' -> w'.(threads) = w.(threads) /\ w'.(trace) = w.(trace).
Proof.
  destruct w as [[[tmr ms st run des inv] nd fs wt nx] ts tr]. cbn. intros -> -> -> Hc.
  unfold step_with. intros (m & Hm & ->)%fmap_Some. cbn in Hm |- *.
  assert (wpt m (fun ts' _ tr' => ts' = ts /\ tr' = tr) (mkTimerState (mkRepeatedTimerTask tmr ms true run true inv) nd fs ∅ nx) tr) as Hq.
  { destruct c; try (by destruct Hc); cbn in Hm; injection Hm as <-;
      unfold start, stop, reset_to, reset, run_once_now, destroy; timer_go; done. }
  unfold wpt, value_of, state_of, events_of in Hq. by destruct (m _) as [[ts' s'] ev].
Qed.

Lemma thread_step w c w' : of_thread c -> good w.(threads) w.(tm) w.(trace) -> w.(tm).(task).(_destroyed) = true ->
  step_with kind w c = Some w' -> (remaining w'.(threads) < remaining w.(threads))%nat.
Proof.
  destruct w as [s ts tr]. intros Hc [Hl _] Hd. unfold step_with. intros (m & Hm & ->)%fmap_Some. cbn in Hm, Hl, Hd |- *.
  assert (wpt m (fun ts' _ _ => (remaining ts' < remaining ts)%nat) s tr) as Hq.
  { shapes Hl; destruct c as [| | | | | | |[|]|[|] env|[|] last]; try (by destruct Hc); try discriminate Hm; injection Hm as <-;
      try (match goal with H : true = true -> ?x = true |- _ => rewrite (H eq_refl) end);
      unfold timedout_begin, timedout_end, on_destroy; timer_go; unfold remaining; cbn; lia. }
  unfold wpt, value_of, state_of, events_of in Hq. by destruct (m _) as [[ts' s'] ev].
Qed.

(** C17: a timer that has been destroyed lets its node go, once.  At most three
    sections of its own thread are left, each of which can run and brings the end
    nearer, which no call from outside puts off; until then the timer has the node,
    and has not let it go; at the end it has let it go just once, nothing waits or
    runs, and no call has an effect any more. *)
Theorem destroyed_timer_lets_go w : reachable kind w -> w.(tm).(task).(_destroyed) = true ->
  w.(tm).(waiting) = ∅ /\ (remaining w.(threads) <= 3)%nat /\
  (forall c w', step_with kind w c = Some w' -> (remaining w'.(threads) <= remaining w.(threads))%nat /\
    (of_thread c -> (remaining w'.(threads) < remaining w.(threads))%nat)) /\
  (((0 < remaining w.(threads))%nat /\ w.(tm).(_node) = true /\ releases w.(trace) = 0%nat /\
     (forall env last, exists c, of_thread c /\ is_Some (step_with kind w c) /\ c ∈ [Begin 0; End 0 env; OnDestroy 0 last])) \/
   (w.(threads) = [] /\ w.(tm).(_node) = false /\ releases w.(trace) = 1%nat /\
     forall c w', step_with kind w c = Some w' -> w'.(trace) = w.(trace))).
Proof.
  intros Hw%reachable_good Hd. assert (w.(tm).(waiting) = ∅ /\ w.(tm).(task).(_stopped) = true) as [Hwait Hst].
  { destruct Hw as [Hl _]. destruct w as [s ts tr]. cbn in *. shapes Hl; auto. }
  assert (forall c w', step_with kind w c = Some w' -> (of_thread c \/ w'.(threads) = w.(threads) /\ w'.(trace) = w.(trace))) as Hq.
  { intros c w' Hs. destruct c; try (left; exact I); right; (refine (outside_quiet w _ w' Hwait Hst Hd _ Hs); exact (fun H => H)). }
  split; [done|]. split; [|split].
  - destruct Hw as [Hl _]. destruct w as [s ts tr]. cbn in *. shapes Hl; unfold remaining; cbn; lia.
  - intros c w' Hs. split; [|intros Hc; by eapply thread_step].
    destruct (Hq c w' Hs) as [Hc|[-> _]]; [|done]. pose proof (thread_step w c w' Hc Hw Hd Hs). lia.
  - destruct Hw as [Hl [_ Hr]]. destruct w as [s ts tr]. cbn in *. unfold remaining.
    shapes Hl; [right|left..].
    + split_and!; [done|done|done|]. intros c w' Hs. destruct (Hq c w' Hs) as [Hc|[_ ?]]; [|done]. by destruct c as [| | | | | | |[]|[]|[]].
    + split_and!; [cbn; lia|done|done|]. intros env last. exists (Begin 0). split_and!; [done|by eexists|set_solver].
    + split_and!; [cbn; lia|done|done|]. intros env last. exists (End 0 env). split_and!; [done|by eexists|set_solver].
    + split_and!; [cbn; lia|done|done|]. intros env last. exists (OnDestroy 0 last). split_and!; [done|by eexists|set_solver].
Qed.
End timer.

(** * Runs of a timer

    Concrete timers on which the theorems of [RepeatedTimerProofs] are applied, the
    range of the times a timer waits, and a run that ends badly. *)


Definition smooth_env : AddEnv := mkAddEnv true (fun a b => (a + b) / 2) (fun n => n / 2) 1000.
Definition blocked_env : AddEnv := mkAddEnv false (fun a b => a) (fun n => 0) 1000.

Fixpoint run_sections (kind : NodeTimer) (w : World) (cs : list Section_) : option World :=
  match cs with
  | [] => Some w
  | c :: cs => step_with kind w c ≫= fun w' => run_sections kind w' cs
  end.
Lemma timer_sections_reach kind cs ms w : run_sections kind (initialised ms) cs = Some w -> reachable kind w.
Proof.
  intros Hrun. exists ms. revert Hrun. generalize (initialised ms) as w0. induction cs as [|c cs IH]; intros w0 Hrun; cbn in Hrun.
  - injection Hrun as ->. apply rtc_refl.
  - apply bind_Some in Hrun as (w1 & Hs & Hrun). eapply rtc_l; [by exists c|by apply IH].
Qed.

(** The election timer fires; while its handler runs the timer is stopped, started
    and destroyed. *)
Definition busy_sections : list Section_ := [Start smooth_env; Fire 1; Begin 0; Stop; Start blocked_env; Destroy].
Definition busy_timer : World := default (initialised 0) (run_sections ElectionTimer (initialised 1000) busy_sections).
Lemma busy_timer_reachable : reachable ElectionTimer busy_timer.
Proof. apply (timer_sections_reach _ busy_sections 1000). vm_compute. reflexivity. Qed.

Lemma timer_is_one_thing_witness : busy_timer.(trace) = [NodeAddRef; Scheduled 1500; Run] /\ busy_timer.(threads) = [Invoking] /\
  CheckFailed ∉ busy_timer.(trace).
Proof.
  split; [vm_compute; reflexivity|]. split; [vm_compute; reflexivity|].
  destruct (timer_is_one_thing_at_a_time ElectionTimer busy_timer busy_timer_reachable) as (_ & _ & _ & _ & _ & _ & Hc & _). exact Hc.
Defined.

Lemma destroyed_timer_witness : remaining busy_timer.(threads) = 2%nat /\ busy_timer.(tm).(waiting) = ∅.
Proof.
  split; [vm_compute; reflexivity|].
  exact (proj1 (destroyed_timer_lets_go ElectionTimer busy_timer busy_timer_reachable eq_refl)).
Defined.

(** ** How long a timer waits *)
Definition fair_random (env : AddEnv) : Prop :=
  (forall a b, a <= b -> a <= env.(fast_rand_in) a b <= b) /\ (forall n, 0 < n -> 0 <= env.(fast_rand_less_than) n < n).

(** An election timer waits at least the election timeout it was given and at most
    twice as long; the first wait of a snapshot timer is spread over its interval. *)
Lemma wait_in_range kind env s t : fair_random env -> 0 < s.(task).(_timeout_ms) ->
  s.(task).(_timeout_ms) + Z.min s.(task).(_timeout_ms) env.(raft_max_election_delay_ms) < 2 ^ 31 ->
  0 <= env.(raft_max_election_delay_ms) -> Scheduled t ∈ (schedule kind env s).2 ->
  match kind with
  | ElectionTimer | VoteTimer => s.(task).(_timeout_ms) <= t <= 2 * s.(task).(_timeout_ms)
  | StepdownTimer => t = s.(task).(_timeout_ms)
  | SnapshotTimer => 1 <= t <= s.(task).(_timeout_ms)
  end.
Proof.
  intros [Hin Hless] Hms Hmax Hd. destruct s as [[tmr ms st run des inv] nd fs wt nx]. cbn in *.
  unfold schedule, adjust_timeout_ms, bthread_timer_add, mbind, M_bind. cbn.
  destruct kind; cbn; try destruct fs; destruct (add_ok env); cbn; try (by intros ?%elem_of_nil); intros [[= ->]|?%elem_of_nil]%elem_of_cons; try done.
  1-4: unfold random_timeout; rewrite wrap_i32_small by lia; specialize (Hin ms (ms + Z.min ms (raft_max_election_delay_ms env))); lia.
  all: specialize (Hless ms Hms); try case_match; lia.
Qed.

(** ** A finding *)

(** [NodeTimer::on_destroy] sets [_node] after it has released the node, of which
    the timer is a member: when that was the last reference, the node's destructor
    has freed the timer. *)
Example on_destroy_writes_after_free :
  (trace <$> run_sections ElectionTimer (initialised 1000) [Destroy; OnDestroy 0 true]) = Some [NodeAddRef; NodeRelease; WriteAfterFree].
Proof. vm_compute. reflexivity. Qed.
