(* ===== verification/Node.v ===== *)
(** * Node: elections, leadership and configuration changes of a raft node

    Models [NodeImpl] ([src/braft/node.h], [src/braft/node.cpp]): the vote
    contexts, the stages of a configuration change, stepping down and becoming
    leader, the two vote protocols, readonly mode and leases.  A definition
    bears the name of the method it models; [env] gives the answers of the
    other parts during the call.  [std::unique_lock::unlock] around
    [last_log_id(true)] is [wait_last_log_id], and [resume] runs the rest. *)

From S2P Require Import AppendEntriesCache LogManager ConfigurationManager LogStorage Lease BallotBox ClosureQueue Ballot NodeState Types Prelude.

Section vote_ctx.
Context `{EPO : EndPointOrder}.

(** ** [VoteBallotCtx] *)
Definition stop_grant_self_timer (del_ok : bool) (v : VoteBallotCtx) : VoteBallotCtx :=
  if negb v.(NodeState._timer) then v
  else if del_ok then v <| _grant_self_arg := None |> <| NodeState._timer := false |>
  else v.

Definition ctx_reset (del_ok : bool) (v : VoteBallotCtx) : VoteBallotCtx :=
  (stop_grant_self_timer del_ok v) <| _version := v.(_version) + 1 |> <| _triggered := false |>
    <| NodeState._last_log_id := LogId_default |> <| _disrupted_leader := DisruptedLeader_default |>
    <| _reserved_peers := [] |>.

Definition ctx_init (del_ok : bool) (e : ConfigurationEntry) (triggered : bool) (v : VoteBallotCtx) : VoteBallotCtx :=
  (ctx_reset del_ok v)
    <| _ballot := Ballot.init e.(conf) (if stable e then None else Some e.(old_conf)) |>
    <| _triggered := triggered |>.

Definition ctx_grant (peer : PeerId) (v : VoteBallotCtx) : VoteBallotCtx :=
  v <| _ballot := grant_nohint v.(_ballot) peer |>.

Definition ctx_granted (v : VoteBallotCtx) : bool := Ballot.granted v.(_ballot).

Definition reserve (peer : PeerId) (v : VoteBallotCtx) : VoteBallotCtx :=
  v <| _reserved_peers := set_insert peer v.(_reserved_peers) |>.

Definition set_disrupted_leader (d : DisruptedLeader) (v : VoteBallotCtx) : VoteBallotCtx :=
  v <| _disrupted_leader := d |>.

Definition set_last_log_id (l : LogId) (v : VoteBallotCtx) : VoteBallotCtx :=
  v <| NodeState._last_log_id := l |>.

(** [pop_grantable_peers]. *)
Definition pop_grantable_peers (v : VoteBallotCtx) : Configuration * VoteBallotCtx :=
  if v.(_disrupted_leader).(dl_term) =? -1 then ([], v)
  else (v.(_reserved_peers), v <| _reserved_peers := [] |>).
End vote_ctx.

Section node.
Context {S Mt : Type} `{LS : LogStorage S} `{MS : RaftMetaStorage Mt} `{EPO : EndPointOrder}.
Context (env : Env).

Abbreviation NM := (M (Node S Mt) Event).

(** ** Running the parts of the node *)
Definition lift_log {A} (m : M (LogManager S) LogManager.Event A) : NM A := fun n =>
  let '(a, lm, ev) := m n.(_log_manager) in (a, n <| _log_manager := lm |>, map EvLog ev).

Definition lift_box {A} (f : BallotBox -> A * BallotBox * list BallotBox.Event) : NM A := fun n =>
  let '(a, bb, ev) := f n.(_ballot_box) in (a, n <| _ballot_box := bb |>, map EvBox ev).

Definition lift_box' (f : BallotBox -> BallotBox * list BallotBox.Event) : NM unit :=
  lift_box (fun bb => let '(bb', ev) := f bb in (tt, bb', ev)).

Definition lift_cache {A} (c : AppendEntriesCache) (m : M AppendEntriesCache AppendEntriesCache.Event A)
  : NM A := fun n =>
  let '(a, c', ev) := m c in (a, n <| _append_entries_cache := Some c' |>, map EvCache ev).

Definition cache_env : TimerEnv := mkTimerEnv env.(timer_add) env.(timer_del).

Definition check (b : bool) : NM unit := if b then skip else emit CheckFailed.

(** [run_closure_in_bthread]; a null closure is not run. *)
Definition run_closure (c : option Closure) (e : Errno) : NM unit :=
  match c with Some c => emit (RunClosure c e) | None => skip end.

(** A call of [run_closure_in_bthread] without a null test: a null closure is
    dereferenced. *)
Definition run_closure_nonnull (c : option Closure) (e : Errno) : NM unit :=
  match c with Some c => emit (RunClosure c e) | None => emit CheckFailed end.

(** [new] of one of the node's closures. *)
Definition new_closure (k : NodeClosure) : NM Closure :=
  n ← get;
  modify (fun n => n <| _closures := <[n.(_next_closure) := k]> n.(_closures) |>
                     <| _next_closure := Pos.succ n.(_next_closure) |>) ;;
  mret n.(_next_closure).

(** [_meta_storage->set_term_and_votedfor]. *)
Definition save_meta (term : Z) (voted : PeerId) : NM Errno := fun n =>
  let '(e, m') := set_term_and_votedfor term voted n.(_meta_storage) in
  (e, n <| _meta_storage := m' |>, []).

(** [lck.unlock(); _log_manager->last_log_id(true); lck.lock()]: the rest is [k]. *)
Definition wait_last_log_id (k : Cont) : NM unit :=
  n ← get;
  modify (fun n => n <| _next_closure := Pos.succ n.(_next_closure) |>) ;;
  answer ← lift_log (last_log_id true n.(_next_closure));
  modify (fun n' => n' <| _suspended := n'.(_suspended) ++ [(n.(_next_closure), k, answer)] |>).

(** [check_and_set_configuration(&_conf)]. *)
Definition check_and_set_conf : NM unit :=
  n ← get;
  match check_and_set_configuration n.(_log_manager) n.(_conf) with
  | Some e => modify (fun n => n <| _conf := e |>)
  | None => skip
  end.

Definition heartbeat_timeout (election_timeout : Z) : Z :=
  let factor := if env.(election_heartbeat_factor) <=? 0 then 10 else env.(election_heartbeat_factor) in
  Z.max (Z.quot election_timeout factor) 10.

(** ** Readonly mode *)
Definition enter_readonly_mode : NM unit :=
  n ← get; when (negb n.(_node_readonly)) (modify (fun n => n <| _node_readonly := true |>)).

Definition leave_readonly_mode : NM unit :=
  n ← get; when n.(_node_readonly) (modify (fun n => n <| _node_readonly := false |>)).

Definition readonly (n : Node S Mt) : bool := n.(_node_readonly) || n.(_majority_nodes_readonly).

(** The number of readonly peers of [check_majority_nodes_readonly(conf)]. *)
Definition readonly_nodes (n : Node S Mt) (peers : Configuration) : Z :=
  zlen (filter (fun p => (if peer_eqb p n.(_server_id) then n.(_node_readonly)
                          else env.(replicator_readonly) p) = true) peers).

Definition check_majority_nodes_readonly_conf (peers : Configuration) : NM unit :=
  modify (fun n =>
    let writable_nodes := zlen peers - readonly_nodes n peers in
    n <| _majority_nodes_readonly := negb (zlen peers / 2 + 1 <=? writable_nodes) |>).

Definition check_majority_nodes_readonly : NM unit :=
  n ← get;
  check_majority_nodes_readonly_conf n.(_conf).(conf) ;;
  when (negb (stable n.(_conf))) (check_majority_nodes_readonly_conf n.(_conf).(old_conf)).

Definition change_readonly_config (term : Z) (peer : PeerId) (readonly : bool) : NM Errno :=
  n ← get;
  if negb (term =? n.(_current_term)) && negb (bool_decide (n.(_state) = STATE_LEADER)) then mret EINVAL
  else
    emit (Replicators (ChangeReadonlyConfig peer readonly)) ;;
    check_majority_nodes_readonly ;;
    mret OK.

(** ** Out-of-order requests *)

(** [check_append_entries_cache] and the deletions of an empty cache. *)
Definition delete_empty_cache : NM unit :=
  modify (fun n => match n.(_append_entries_cache) with
                   | Some c => if empty_cache c then n <| _append_entries_cache := None |> else n
                   | None => n
                   end).

Definition check_append_entries_cache (local_last_index : Z) : NM unit :=
  n ← get;
  match n.(_append_entries_cache) with
  | None => skip
  | Some c => lift_cache c (process_runable_rpcs cache_env local_last_index) ;; delete_empty_cache
  end.

Definition clear_append_entries_cache : NM unit :=
  n ← get;
  match n.(_append_entries_cache) with
  | None => skip
  | Some c =>
      lift_cache c (AppendEntriesCache.clear cache_env) ;;
      modify (fun n => n <| _append_entries_cache := None |>)
  end.

Definition handle_append_entries_cache_timedout (timer_version cache_version timer_start_ms : Z) : NM unit :=
  n ← get;
  match n.(_append_entries_cache) with
  | Some c =>
      if cache_version =? AppendEntriesCache.cache_version c then
        lift_cache c (do_handle_append_entries_cache_timedout cache_env timer_version timer_start_ms) ;;
        delete_empty_cache
      else skip
  | None => skip
  end.

(** [handle_out_of_order_append_entries]. *)
Definition handle_out_of_order_append_entries (rpc : Closure) (request : AppendEntriesRequest)
    (local_last_index : Z) : NM bool :=
  if negb env.(enable_append_entries_cache) || (request.(ae_prev_log_index) <=? local_last_index)
     || bool_decide (request.(ae_entries) = []) then mret false
  else
    n ← get;
    when (bool_decide (n.(_append_entries_cache) = None))
      (modify (fun n =>
         n <| _append_entries_cache_version := n.(_append_entries_cache_version) + 1 |>
           <| _append_entries_cache :=
                Some (AppendEntriesCache_new (n.(_append_entries_cache_version) + 1)) |>)) ;;
    modify (fun n => n <| _rpcs := <[rpc := request]> n.(_rpcs) |>) ;;
    n ← get;
    match n.(_append_entries_cache) with
    | None => mret false
    | Some c =>
        rc ← lift_cache c (store cache_env env.(max_append_entries_cache_size)
                             (rpc_of rpc request env.(gettimeofday_ms)));
        when (negb rc) delete_empty_cache ;;
        mret rc
    end.

(** ** Stepping down *)

(** [stop_replicator(keep, drop)]. *)
Definition stop_replicator (keep drop : Configuration) : NM unit :=
  n ← get;
  mapM_ (fun p => when (negb (contains keep p) && negb (peer_eqb p n.(_server_id)))
                    (emit (Replicators (StopReplicator p)))) drop.

(** [ConfigurationCtx::reset]; [st] is a pointer. *)
Definition conf_ctx_reset (st : option Errno) : NM unit :=
  n ← get;
  let c := n.(_conf_ctx) in
  if negb (is_busy c) then skip
  else
    (if from_option ok false st then stop_replicator c.(_new_peers) c.(_old_peers)
     else stop_replicator c.(_old_peers) c.(_new_peers)) ;;
    modify (fun n => n <| _conf_ctx := (n.(_conf_ctx)
      <| _new_peers := [] |> <| _old_peers := [] |> <| _adding_peers := [] |>
      <| _ctx_version := n.(_conf_ctx).(_ctx_version) + 1 |> <| _stage := STAGE_NONE |> <| _nchanges := 0 |>) |>) ;;
    check_majority_nodes_readonly ;;
    n ← get;
    run_closure n.(_conf_ctx).(_done) (default EPERM st) ;;
    modify (fun n => n <| _conf_ctx := (n.(_conf_ctx) <| _done := None |>) |>).

(** [reset_leader_id]. *)
Definition reset_leader_id (new_leader_id : PeerId) (status : Errno) : NM unit :=
  n ← get;
  if is_empty new_leader_id then
    when (negb (is_empty n.(_leader_id)) && (state_num STATE_TRANSFERRING <? state_num n.(_state)))
      (emit (Fsm (OnStopFollowing n.(_leader_id) n.(_current_term) status))) ;;
    modify (fun n => n <| _leader_id := PeerId_default |>)
  else
    when (is_empty n.(_leader_id))
      (modify (fun n => n <| _pre_vote_ctx := ctx_reset env.(timer_del) n.(_pre_vote_ctx) |>) ;;
       emit (Fsm (OnStartFollowing new_leader_id n.(_current_term) status))) ;;
    modify (fun n => n <| _leader_id := new_leader_id |>).

(** The first part of [step_down]: what the state being left needs undone. *)
Definition leave_state (status : Errno) : NM unit :=
  n ← get;
  match n.(_state) with
  | STATE_CANDIDATE =>
      emit (Timer VoteTimer Stop) ;;
      modify (fun n => n <| _vote_ctx := ctx_reset env.(timer_del) n.(_vote_ctx) |>)
  | STATE_FOLLOWER => modify (fun n => n <| _pre_vote_ctx := ctx_reset env.(timer_del) n.(_pre_vote_ctx) |>)
  | STATE_LEADER =>
      emit (Timer StepdownTimer Stop) ;;
      lift_box' clear_pending_tasks ;;
      modify (fun n => n <| _leader_lease := on_leader_stop n.(_leader_lease) |>) ;;
      emit (Fsm (OnLeaderStop status))
  | STATE_TRANSFERRING =>
      emit (Timer StepdownTimer Stop) ;;
      lift_box' clear_pending_tasks
  | _ => skip
  end.

(** The part of [step_down] that raises the term; a failed write is only logged. *)
Definition raise_term (term : Z) : NM unit :=
  n ← get;
  when (n.(_current_term) <? term)
    (modify (fun n => n <| _current_term := term |> <| _voted_id := PeerId_default |>) ;;
     save_meta term PeerId_default ;;
     skip).

Definition step_down (term : Z) (wakeup_a_candidate : bool) (status : Errno) : NM unit :=
  n ← get;
  if negb (is_active_state n.(_state)) then skip
  else
    leave_state status ;;
    reset_leader_id PeerId_default status ;;
    modify (fun n => n <| _state := STATE_FOLLOWER |>) ;;
    conf_ctx_reset None ;;
    modify (fun n => n <| _majority_nodes_readonly := false |>) ;;
    clear_append_entries_cache ;;
    when env.(has_snapshot_executor) (emit (Snapshots (InterruptDownloading term))) ;;
    raise_term term ;;
    emit (Replicators (if wakeup_a_candidate then StopAllAndWakeup else StopAll)) ;;
    modify (fun n => n <| _stop_transfer_arg := None |>) ;;
    emit (Timer ElectionTimer Start).

(** [check_step_down]. *)
Definition check_step_down (request_term : Z) (server_id : PeerId) : NM unit :=
  n ← get;
  when ((n.(_current_term) <? request_term) || negb (bool_decide (n.(_state) = STATE_FOLLOWER))
        || is_empty n.(_leader_id))
    (step_down request_term false ENEWLEADER) ;;
  n' ← get;
  when (is_empty n'.(_leader_id))
    (reset_leader_id server_id
       (if (n.(_current_term) <? request_term) || negb (bool_decide (n.(_state) = STATE_FOLLOWER))
           || is_empty n.(_leader_id) then ENEWLEADER else OK)).

(** ** Configuration changes *)

(** The log entry of a configuration. *)
Definition configuration_entry (term : Z) (new_conf : Configuration) (old_conf : option Configuration) : LogEntry :=
  mkLogEntry ENTRY_TYPE_CONFIGURATION (mkLogId 0 term) (Some new_conf) old_conf [].

(** [new StableClosure] with the fields the base class sets. *)
Definition stable_closure (c : Closure) : StableClosure := mkStableClosure c OK 0 [].

Definition unsafe_apply_configuration (new_conf : Configuration) (old_conf : option Configuration)
    (leader_start : bool) : NM unit :=
  n ← get;
  check (is_busy n.(_conf_ctx)) ;;
  let entry := configuration_entry n.(_current_term) new_conf old_conf in
  done ← new_closure (ConfChangeDone n.(_current_term) leader_start n.(_leader_lease).(Lease._lease_epoch));
  lift_box' (fun bb => append_pending_task bb new_conf old_conf (Some done)) ;;
  stable ← new_closure (LeaderStable 1);
  lift_log (append_entries [entry] (stable_closure stable)) ;;
  check_and_set_conf.

(** [ConfigurationCtx::next_stage]. *)
Definition next_stage : NM unit :=
  n ← get;
  let c := n.(_conf_ctx) in
  check (is_busy c) ;;
  let to_stable :=
    modify (fun n => n <| _conf_ctx := (n.(_conf_ctx) <| _stage := STAGE_STABLE |>) |>) ;;
    unsafe_apply_configuration c.(_new_peers) None false in
  match c.(_stage) with
  | STAGE_CATCHING_UP =>
      if 1 <? c.(_nchanges) then
        modify (fun n => n <| _conf_ctx := (n.(_conf_ctx) <| _stage := STAGE_JOINT |>) |>) ;;
        unsafe_apply_configuration c.(_new_peers) (Some c.(_old_peers)) false
      else to_stable
  | STAGE_JOINT => to_stable
  | STAGE_STABLE =>
      let should_step_down := negb (contains c.(_new_peers) n.(_server_id)) in
      conf_ctx_reset (Some OK) ;;
      when should_step_down (n ← get; step_down n.(_current_term) true ELEADERREMOVED)
  | STAGE_NONE => emit CheckFailed
  end.

(** [ConfigurationCtx::on_caughtup]. *)
Definition conf_ctx_on_caughtup (version : Z) (peer_id : PeerId) (succ : bool) : NM unit :=
  n ← get;
  let c := n.(_conf_ctx) in
  if negb (version =? c.(_ctx_version)) then skip
  else
    check (bool_decide (c.(_stage) = STAGE_CATCHING_UP)) ;;
    if succ then
      let adding := set_erase peer_id c.(_adding_peers) in
      modify (fun n => n <| _conf_ctx := (n.(_conf_ctx) <| _adding_peers := adding |>) |>) ;;
      when (bool_decide (adding = [])) next_stage
    else conf_ctx_reset (Some ECATCHUP).

(** The loop of [ConfigurationCtx::start] over the peers to add. *)
Fixpoint start_catchup (adding : list PeerId) : NM unit :=
  match adding with
  | [] => skip
  | p :: adding' =>
      n ← get;
      emit (Replicators (AddReplicator p)) ;;
      if negb (env.(add_replicator_ok) p) then conf_ctx_on_caughtup n.(_conf_ctx).(_ctx_version) p false
      else if negb (env.(wait_caughtup_ok) p) then conf_ctx_on_caughtup n.(_conf_ctx).(_ctx_version) p false
      else
        emit (Replicators (WaitCaughtup p n.(_current_term) n.(_conf_ctx).(_ctx_version))) ;;
        start_catchup adding'
  end.

(** [ConfigurationCtx::start]; [append_peers] inserts into sets that may hold peers. *)
Definition conf_ctx_start (old_conf new_conf : Configuration) (done : option Closure) : NM unit :=
  n ← get;
  check (negb (is_busy n.(_conf_ctx))) ;;
  check (bool_decide (n.(_conf_ctx).(_done) = None)) ;;
  let '(adding, removing) := diffs new_conf old_conf in
  modify (fun n => n <| _conf_ctx := (n.(_conf_ctx) <| _done := done |> <| _stage := STAGE_CATCHING_UP |>
    <| _old_peers := old_conf |> <| _new_peers := new_conf |>
    <| _nchanges := zlen adding + zlen removing |>) |>) ;;
  if bool_decide (adding = []) then next_stage
  else
    modify (fun n => n <| _conf_ctx := (n.(_conf_ctx) <| _adding_peers := adding |>) |>) ;;
    start_catchup adding.

(** [ConfigurationCtx::flush]. *)
Definition conf_ctx_flush (conf old_conf : Configuration) : NM unit :=
  n ← get;
  check (negb (is_busy n.(_conf_ctx))) ;;
  let joint := negb (bool_decide (old_conf = [])) in
  modify (fun n => n <| _conf_ctx := (n.(_conf_ctx) <| _new_peers := conf |>
    <| _stage := if joint then STAGE_JOINT else STAGE_STABLE |>
    <| _old_peers := if joint then old_conf else conf |>) |>) ;;
  unsafe_apply_configuration conf (if joint then Some old_conf else None) true.

Definition on_configuration_change_done (term : Z) : NM unit :=
  n ← get;
  if (state_num STATE_TRANSFERRING <? state_num n.(_state)) || negb (term =? n.(_current_term)) then skip
  else next_stage.

(** [NodeImpl::on_caughtup]. *)
Definition on_caughtup (peer : PeerId) (term version : Z) (st : Errno) : NM unit :=
  n ← get;
  if negb (bool_decide (n.(_state) = STATE_LEADER)) || negb (term =? n.(_current_term)) then skip
  else if ok st then conf_ctx_on_caughtup version peer true
  else if bool_decide (st = ETIMEDOUT)
          && (env.(now_ms) - env.(last_rpc_send_timestamp) peer <=? n.(_options).(election_timeout_ms))
          && env.(wait_caughtup_ok) peer
  then emit (Replicators (WaitCaughtup peer n.(_current_term) version))
  else conf_ctx_on_caughtup version peer false.

Definition unsafe_register_conf_change (old_conf new_conf : Configuration) (done : option Closure) : NM unit :=
  n ← get;
  if negb (bool_decide (n.(_state) = STATE_LEADER)) then
    run_closure done (if bool_decide (n.(_state) = STATE_TRANSFERRING) then EBUSY else EPERM)
  else if is_busy n.(_conf_ctx) then run_closure done EBUSY
  else if equals n.(_conf).(conf) new_conf then run_closure_nonnull done OK
  else conf_ctx_start old_conf new_conf done.

Definition list_peers (n : Node S Mt) : Errno * Configuration :=
  if negb (bool_decide (n.(_state) = STATE_LEADER)) then (EPERM, []) else (OK, n.(_conf).(conf)).

Definition add_peer (peer : PeerId) (done : option Closure) : NM unit :=
  n ← get; unsafe_register_conf_change n.(_conf).(conf) (Types.add_peer n.(_conf).(conf) peer).2 done.

Definition remove_peer (peer : PeerId) (done : option Closure) : NM unit :=
  n ← get; unsafe_register_conf_change n.(_conf).(conf) (Types.remove_peer n.(_conf).(conf) peer).2 done.

Definition change_peers (new_peers : Configuration) (done : option Closure) : NM unit :=
  n ← get; unsafe_register_conf_change n.(_conf).(conf) new_peers done.

Definition reset_peers (new_peers : Configuration) : NM Errno :=
  n ← get;
  if bool_decide (new_peers = []) then mret EINVAL
  else if negb (is_active_state n.(_state)) then mret EPERM
  else if bool_decide (n.(_conf).(conf) = []) then
    modify (fun n => n <| _conf := (n.(_conf) <| conf := new_peers |>) |>) ;;
    step_down (n.(_current_term) + 1) false ESETPEER ;;
    mret OK
  else if bool_decide (n.(_state) = STATE_LEADER) && is_busy n.(_conf_ctx) then mret EBUSY
  else if equals n.(_conf).(conf) new_peers then mret OK
  else
    modify (fun n => n <| _conf := (n.(_conf) <| conf := new_peers |> <| old_conf := [] |>) |>) ;;
    step_down (n.(_current_term) + 1) false ESETPEER ;;
    mret OK.

(** ** Leases *)

(** The smallest of the [cap] largest timestamps: the heap of
    [last_leader_active_timestamp], as an ascending list. *)
Fixpoint push_heap (t : Z) (heap : list Z) : list Z :=
  match heap with
  | [] => [t]
  | x :: heap' => if t <=? x then t :: heap else x :: push_heap t heap'
  end.

Definition keep_largest (cap : Z) (heap : list Z) (t : Z) : list Z :=
  let heap' := push_heap t heap in
  if cap <? zlen heap' then tail heap' else heap'.

Definition last_leader_active_timestamp_conf (n : Node S Mt) (peers : Configuration) : Z :=
  let others := filter (fun p => peer_eqb p n.(_server_id) = false) peers in
  match fold_left (keep_largest (zlen peers / 2)) (map env.(last_rpc_send_timestamp) others) [] with
  | [] => env.(now_ms)
  | t :: _ => t
  end.

Definition last_leader_active_timestamp (n : Node S Mt) : Z :=
  let t := last_leader_active_timestamp_conf n n.(_conf).(conf) in
  if stable n.(_conf) then t else Z.min t (last_leader_active_timestamp_conf n n.(_conf).(old_conf)).

Definition leader_lease_start (lease_epoch : Z) : NM unit :=
  n ← get;
  when (bool_decide (n.(_state) = STATE_LEADER))
    (modify (fun n => n <| _leader_lease :=
       on_lease_start n.(_leader_lease) lease_epoch (last_leader_active_timestamp n) |>)).

(** [get_leader_lease_status]: the state is never [SUSPECT]. *)
Definition get_leader_lease_status : NM LeaseInfo :=
  n ← get;
  let info := get_lease_info env.(enable_leader_lease) env.(now_ms) n.(_leader_lease) in
  match info.(lease_state) with
  | SUSPECT =>
      if negb (bool_decide (n.(_state) = STATE_LEADER)) then mret (mkLeaseInfo EXPIRED 0 0)
      else
        modify (fun n => n <| _leader_lease := leader_renew n.(_leader_lease) (last_leader_active_timestamp n) |>) ;;
        n ← get;
        let info := get_lease_info env.(enable_leader_lease) env.(now_ms) n.(_leader_lease) in
        match info.(lease_state) with
        | VALID => mret info
        | DISABLED => mret (mkLeaseInfo DISABLED 0 0)
        | _ => step_down n.(_current_term) false ERAFTTIMEDOUT ;; mret (mkLeaseInfo EXPIRED 0 0)
        end
  | _ => mret info
  end.

Definition is_leader_lease_valid : NM bool :=
  info ← get_leader_lease_status;
  mret (match info.(lease_state) with VALID => true | _ => false end).

(** The peers [check_dead_nodes] counts as alive. *)
Definition alive_count (n : Node S Mt) (peers : Configuration) (now : Z) : Z :=
  zlen (filter (fun p => (peer_eqb p n.(_server_id)
    || (now - env.(last_rpc_send_timestamp) p <=? n.(_options).(election_timeout_ms))) = true) peers).

Definition check_dead_nodes (peers : Configuration) (now : Z) : NM unit :=
  n ← get;
  if zlen peers / 2 + 1 <=? alive_count n peers now then skip
  else step_down n.(_current_term) false ERAFTTIMEDOUT.

Definition check_witness : NM unit :=
  n ← get;
  when n.(_options).(witness) (step_down n.(_current_term) true ETRANSFERLEADERSHIP).

Definition handle_stepdown_timeout : NM unit :=
  n ← get;
  if state_num STATE_TRANSFERRING <? state_num n.(_state) then skip
  else
    check_witness ;;
    n ← get;
    check_dead_nodes n.(_conf).(conf) env.(now_ms) ;;
    n ← get;
    when (negb (stable n.(_conf))) (check_dead_nodes n.(_conf).(old_conf) env.(now_ms)).

(** ** Elections *)

Definition vote_ctx (w : Poll) (n : Node S Mt) : VoteBallotCtx :=
  match w with Vote => n.(_vote_ctx) | PreVote => n.(_pre_vote_ctx) end.

Definition modify_ctx (w : Poll) (f : VoteBallotCtx -> VoteBallotCtx) : NM unit :=
  modify (fun n => match w with
                   | Vote => n <| _vote_ctx := f n.(_vote_ctx) |>
                   | PreVote => n <| _pre_vote_ctx := f n.(_pre_vote_ctx) |>
                   end).

Definition start_grant_self_timer (w : Poll) (wait_ms : Z) : NM unit :=
  n ← get;
  let v := (vote_ctx w n).(_version) in
  if env.(timer_add) then
    modify_ctx w (fun c => c <| _grant_self_arg := Some v |> <| NodeState._timer := true |>) ;;
    emit (StartGrantSelfTimer w v wait_ms)
  else modify_ctx w (fun c => c <| _grant_self_arg := None |>).

(** [become_leader]: the part after the change of state, for the node [n] that
    was the candidate. *)
Definition start_leading (n : Node S Mt) : NM unit :=
  emit (Replicators (ResetTerm n.(_current_term))) ;;
  modify (fun n' => n' <| _follower_lease := follower_reset n'.(_follower_lease) |>
                       <| _leader_lease := on_leader_start n'.(_leader_lease) n.(_current_term) |>) ;;
  mapM_ (fun p => when (negb (peer_eqb p n.(_server_id))) (emit (Replicators (AddReplicator p))))
    (Types.list_peers n.(_conf)) ;;
  lift_box' (fun bb => reset_pending_index bb (n.(_log_manager).(_last_log_index) + 1)) ;;
  n' ← get;
  check (negb (is_busy n'.(_conf_ctx))) ;;
  conf_ctx_flush n'.(_conf).(conf) n'.(_conf).(old_conf) ;;
  emit (Timer StepdownTimer Start).

Definition become_leader : NM unit :=
  n ← get;
  check (bool_decide (n.(_state) = STATE_CANDIDATE)) ;;
  emit (Timer VoteTimer Stop) ;;
  modify_ctx Vote (ctx_reset env.(timer_del)) ;;
  modify (fun n => n <| _state := STATE_LEADER |> <| _leader_id := n.(_server_id) |>) ;;
  start_leading n.

(** The request sent to each other peer. *)
Definition poll_request (n : Node S Mt) (term : Z) (last : LogId) (d : DisruptedLeader) : RequestVoteRequest :=
  mkRequestVoteRequest (Some n.(_server_id)) term last
    (if peer_eqb d.(dl_peer_id) ANY_PEER then None else Some (Some d.(dl_peer_id), d.(dl_term))).

Definition poll_peers (w : Poll) (peers : Configuration) (r : RequestVoteRequest) : NM unit :=
  n ← get;
  mapM_ (fun p => when (negb (peer_eqb p n.(_server_id)) && env.(channel_ok) p)
                    (emit (Send w p (vote_ctx w n).(_version) r))) peers.

Definition request_peers_to_vote (peers : Configuration) (disrupted_leader : DisruptedLeader) : NM unit :=
  n ← get;
  poll_peers Vote peers
    (poll_request n n.(_current_term) n.(_vote_ctx).(NodeState._last_log_id) disrupted_leader).

(** [elect_self], up to the unlock. *)
Definition elect_self (old_leader_stepped_down : bool) : NM unit :=
  n ← get;
  if negb (conf_contains n.(_conf) n.(_server_id)) then skip
  else
    when (bool_decide (n.(_state) = STATE_FOLLOWER)) (emit (Timer ElectionTimer Stop)) ;;
    let old_leader := n.(_leader_id) in
    let leader_term := n.(_current_term) in
    reset_leader_id PeerId_default ERAFTTIMEDOUT ;;
    modify (fun n => n <| _state := STATE_CANDIDATE |> <| _current_term := n.(_current_term) + 1 |>
                       <| _voted_id := n.(_server_id) |>) ;;
    emit (Timer VoteTimer Start) ;;
    modify_ctx PreVote (ctx_reset env.(timer_del)) ;;
    modify_ctx Vote (ctx_init env.(timer_del) n.(_conf) false) ;;
    when old_leader_stepped_down
      (modify_ctx Vote (set_disrupted_leader (mkDisruptedLeader old_leader leader_term)) ;;
       modify (fun n => n <| _follower_lease := expire n.(_follower_lease) |>)) ;;
    n ← get;
    wait_last_log_id (CElect n.(_current_term)).

(** [grant_self]. *)
Definition grant_self (w : Poll) : NM unit :=
  n ← get;
  let wait_ms := votable_time_from_now env.(enable_leader_lease) env.(now_ms) n.(_follower_lease) in
  if wait_ms =? 0 then
    modify_ctx w (ctx_grant n.(_server_id)) ;;
    n ← get;
    if negb (ctx_granted (vote_ctx w n)) then skip
    else match w with PreVote => elect_self false | Vote => become_leader end
  else start_grant_self_timer w wait_ms.

(** [elect_self], after the unlock. *)
Definition elect_self_locked (old_term : Z) (last_log_id : LogId) : NM unit :=
  n ← get;
  if negb (old_term =? n.(_current_term)) then skip
  else
    modify_ctx Vote (set_last_log_id last_log_id) ;;
    n ← get;
    request_peers_to_vote (Types.list_peers n.(_conf)) n.(_vote_ctx).(_disrupted_leader) ;;
    e ← save_meta n.(_current_term) n.(_server_id);
    if negb (ok e) then modify (fun n => n <| _voted_id := PeerId_default |>)
    else grant_self Vote.

(** [pre_vote], before and after the unlock. *)
Definition pre_vote (triggered : bool) : NM unit :=
  n ← get;
  if env.(has_snapshot_executor) && env.(installing_snapshot) then skip
  else if negb (conf_contains n.(_conf) n.(_server_id)) then skip
  else wait_last_log_id (CPreVote n.(_current_term) triggered).

Definition pre_vote_locked (old_term : Z) (triggered : bool) (last_log_id : LogId) : NM unit :=
  n ← get;
  if negb (old_term =? n.(_current_term)) then skip
  else
    modify_ctx PreVote (ctx_init env.(timer_del) n.(_conf) triggered) ;;
    n ← get;
    poll_peers PreVote (Types.list_peers n.(_conf))
      (poll_request n (n.(_current_term) + 1) last_log_id DisruptedLeader_default) ;;
    grant_self PreVote.

Definition handle_grant_self_timedout (w : Poll) (vote_ctx_version : Z) : NM unit :=
  n ← get;
  if negb (is_active_state n.(_state)) || negb ((vote_ctx w n).(_version) =? vote_ctx_version) then skip
  else grant_self w.

Definition handle_election_timeout : NM unit :=
  n ← get;
  if negb (bool_decide (n.(_state) = STATE_FOLLOWER)) then skip
  else if negb n.(_vote_triggered) && negb (expired env.(now_ms) n.(_follower_lease)) then skip
  else
    modify (fun n => n <| _vote_triggered := false |>) ;;
    reset_leader_id PeerId_default ERAFTTIMEDOUT ;;
    pre_vote n.(_vote_triggered).

Definition handle_vote_timeout : NM unit :=
  n ← get;
  if negb (bool_decide (n.(_state) = STATE_CANDIDATE)) then skip
  else if env.(step_down_when_vote_timedout) then
    step_down n.(_current_term) false ERAFTTIMEDOUT ;; pre_vote false
  else elect_self false.

Definition handle_timeout_now_request (rpc : Closure) (term : Z) (old_leader_stepped_down : bool) : NM unit :=
  n ← get;
  if negb (term =? n.(_current_term)) then
    when (n.(_current_term) <? term) (step_down term false EHIGHERTERMREQUEST) ;;
    n ← get;
    emit (TimeoutNowReply rpc n.(_current_term) false)
  else if negb (bool_decide (n.(_state) = STATE_FOLLOWER)) then
    emit (TimeoutNowReply rpc n.(_current_term) false)
  else
    emit (TimeoutNowReply rpc
            (if env.(enable_leader_lease) then n.(_current_term) else n.(_current_term) + 1) true) ;;
    elect_self old_leader_stepped_down.

(** [retry_vote_on_reserved_peers]. *)
Definition retry_vote_on_reserved_peers : NM unit :=
  n ← get;
  let '(peers, v) := pop_grantable_peers n.(_vote_ctx) in
  modify_ctx Vote (fun _ => v) ;;
  when (negb (bool_decide (peers = []))) (request_peers_to_vote peers v.(_disrupted_leader)).

(** The grants of a response: the last leader's vote brings our own with it. *)
Definition grant_peer (w : Poll) (peer : PeerId) : NM unit :=
  modify_ctx w (ctx_grant peer) ;;
  n ← get;
  when (peer_eqb peer n.(_follower_lease).(Lease._last_leader))
    (modify_ctx w (ctx_grant n.(_server_id)) ;;
     modify_ctx w (stop_grant_self_timer env.(timer_del))).

(** The tests both response handlers make before they count anything:
    whether to go on. *)
Definition response_acceptable (w : Poll) (expected : State) (term ctx_version : Z)
    (response : RequestVoteResponse) : NM bool :=
  n ← get;
  if negb (ctx_version =? (vote_ctx w n).(_version)) then mret false
  else if negb (bool_decide (n.(_state) = expected)) then mret false
  else if negb (term =? n.(_current_term)) then mret false
  else if n.(_current_term) <? response.(rs_term) then
    step_down response.(rs_term) false EHIGHERTERMRESPONSE ;; mret false
  else mret (response.(rs_granted) || response.(rs_rejected_by_lease)).

Definition handle_request_vote_response (peer_id : PeerId) (term ctx_version : Z)
    (response : RequestVoteResponse) : NM unit :=
  go ← response_acceptable Vote STATE_CANDIDATE term ctx_version response;
  if negb go then skip
  else
    when response.(rs_disrupted)
      (modify_ctx Vote (set_disrupted_leader (mkDisruptedLeader peer_id response.(rs_previous_term)))) ;;
    (if response.(rs_granted) then grant_peer Vote peer_id else modify_ctx Vote (reserve peer_id)) ;;
    n ← get;
    if response.(rs_granted) && ctx_granted n.(_vote_ctx) then become_leader
    else retry_vote_on_reserved_peers.

Definition handle_pre_vote_response (peer_id : PeerId) (term ctx_version : Z)
    (response : RequestVoteResponse) : NM unit :=
  go ← response_acceptable PreVote STATE_FOLLOWER term ctx_version response;
  n ← get;
  if negb go || (response.(rs_rejected_by_lease) && negb n.(_pre_vote_ctx).(_triggered)) then skip
  else
    when response.(rs_disrupted)
      (modify_ctx PreVote (set_disrupted_leader (mkDisruptedLeader peer_id response.(rs_previous_term)))) ;;
    when response.(rs_rejected_by_lease) (modify_ctx PreVote (reserve peer_id)) ;;
    n ← get;
    let '(grantable, v) := pop_grantable_peers n.(_pre_vote_ctx) in
    modify_ctx PreVote (fun _ => v) ;;
    mapM_ (grant_peer PreVote)
      (if response.(rs_rejected_by_lease) then grantable else set_insert peer_id grantable) ;;
    n ← get;
    when (ctx_granted n.(_pre_vote_ctx)) (elect_self false).

(** [handle_pre_vote_request], its answer, and its rest after the unlock. *)
Definition pre_vote_reply (rpc : Closure) (request : RequestVoteRequest) (granted rejected_by_lease : bool) : NM unit :=
  n ← get;
  emit (VoteReply PreVote rpc request (Some (mkRequestVoteResponse n.(_current_term) granted rejected_by_lease
    (bool_decide (n.(_state) = STATE_LEADER)) n.(_current_term)))).

Definition handle_pre_vote_request (rpc : Closure) (request : RequestVoteRequest) : NM unit :=
  n ← get;
  if negb (is_active_state n.(_state)) then emit (VoteReply PreVote rpc request None)
  else match request.(rv_server_id) with
       | None => emit (VoteReply PreVote rpc request None)
       | Some _ =>
           if request.(rv_term) <? n.(_current_term) then pre_vote_reply rpc request false false
           else wait_last_log_id (CPreVoteRequest rpc request)
       end.

Definition pre_vote_request_locked (rpc : Closure) (request : RequestVoteRequest) (last_log_id : LogId) : NM unit :=
  n ← get;
  let votable_time := votable_time_from_now env.(enable_leader_lease) env.(now_ms) n.(_follower_lease) in
  let grantable := logid_geb request.(rv_last_log_id) last_log_id in
  pre_vote_reply rpc request (grantable && (votable_time =? 0)) (grantable && (0 <? votable_time)).

(** [handle_request_vote_request], in the same three parts. *)
Definition request_vote_reply (rpc : Closure) (request : RequestVoteRequest) (candidate_id : PeerId)
    (disrupted : bool) (previous_term : Z) (rejected_by_lease : bool) : NM unit :=
  n ← get;
  emit (VoteReply Vote rpc request (Some (mkRequestVoteResponse n.(_current_term)
    ((request.(rv_term) =? n.(_current_term)) && peer_eqb n.(_voted_id) candidate_id)
    rejected_by_lease disrupted previous_term))).

Definition disrupts_our_leader (n : Node S Mt) (request : RequestVoteRequest) : bool :=
  match request.(rv_disrupted_leader) with
  | Some (Some leader, term) =>
      bool_decide (n.(_state) = STATE_FOLLOWER) && (n.(_current_term) =? term) && peer_eqb n.(_leader_id) leader
  | _ => false
  end.

Definition handle_request_vote_request (rpc : Closure) (request : RequestVoteRequest) : NM unit :=
  n ← get;
  if negb (is_active_state n.(_state)) then emit (VoteReply Vote rpc request None)
  else match request.(rv_server_id) with
       | None => emit (VoteReply Vote rpc request None)
       | Some candidate_id =>
           when (disrupts_our_leader n request)
             (modify (fun n => n <| _follower_lease := expire n.(_follower_lease) |>)) ;;
           if request.(rv_term) <? n.(_current_term) then
             request_vote_reply rpc request candidate_id false n.(_current_term) false
           else wait_last_log_id (CVoteRequest rpc request candidate_id n.(_current_term))
       end.

(** The vote itself: persisted before it is answered. *)
Definition vote_for (request_term : Z) (candidate_id : PeerId) : NM unit :=
  step_down request_term false EVOTEFORCANDIDATE ;;
  modify (fun n => n <| _voted_id := candidate_id |>) ;;
  n ← get;
  e ← save_meta n.(_current_term) candidate_id;
  when (negb (ok e)) (modify (fun n => n <| _voted_id := PeerId_default |>)).

Definition request_vote_locked (rpc : Closure) (request : RequestVoteRequest) (candidate_id : PeerId)
    (previous_term : Z) (last_log_id : LogId) : NM unit :=
  n ← get;
  let log_is_ok := logid_geb request.(rv_last_log_id) last_log_id in
  let votable_time := votable_time_from_now env.(enable_leader_lease) env.(now_ms) n.(_follower_lease) in
  if negb (previous_term =? n.(_current_term)) then
    request_vote_reply rpc request candidate_id false previous_term false
  else if 0 <? votable_time then
    request_vote_reply rpc request candidate_id false previous_term log_is_ok
  else
    let higher := n.(_current_term) <? request.(rv_term) in
    when higher (step_down request.(rv_term) false EHIGHERTERMREQUEST) ;;
    n' ← get;
    when (log_is_ok && is_empty n'.(_voted_id)) (vote_for request.(rv_term) candidate_id) ;;
    request_vote_reply rpc request candidate_id
      (higher && (state_num n.(_state) <=? state_num STATE_TRANSFERRING)) previous_term false.

(** The handlers that wait for the last log id, resumed with it. *)
Definition resume_cont (k : Cont) (last_log_id : LogId) : NM unit :=
  match k with
  | CPreVote old_term triggered => pre_vote_locked old_term triggered last_log_id
  | CElect old_term => elect_self_locked old_term last_log_id
  | CPreVoteRequest rpc request => pre_vote_request_locked rpc request last_log_id
  | CVoteRequest rpc request candidate_id previous_term =>
      request_vote_locked rpc request candidate_id previous_term last_log_id
  end.

(** Takes the [i]-th suspended handler; [flushed] is the answer the disk thread
    gave it when the log manager had none at once. *)
Definition resume (i : nat) (flushed : LogId) : NM unit :=
  n ← get;
  match n.(_suspended) !! i with
  | None => skip
  | Some (_, k, answer) =>
      modify (fun n => n <| _suspended := delete i n.(_suspended) |>) ;;
      resume_cont k (default flushed answer)
  end.

(** ** Leadership transfer *)
Definition handle_transfer_timeout (term : Z) (peer : PeerId) : NM unit :=
  n ← get;
  when (term =? n.(_current_term))
    (emit (Replicators (StopTransferLeadership peer)) ;;
     when (bool_decide (n.(_state) = STATE_TRANSFERRING))
       (modify (fun n => n <| _leader_lease := on_leader_start n.(_leader_lease) term |>) ;;
        n ← get;
        emit (Fsm (OnLeaderStart term n.(_leader_lease).(Lease._lease_epoch))) ;;
        modify (fun n => n <| _state := STATE_LEADER |> <| _stop_transfer_arg := None |>))).

Definition transfer_leadership_to (peer : PeerId) : NM Errno :=
  n ← get;
  if negb (bool_decide (n.(_state) = STATE_LEADER)) then
    mret (if bool_decide (n.(_state) = STATE_TRANSFERRING) then EBUSY else EPERM)
  else if is_busy n.(_conf_ctx) then mret EBUSY
  else
    match (if peer_eqb peer ANY_PEER then env.(next_candidate) else Some peer) with
    | None => mret ENEG1
    | Some peer_id =>
        if peer_eqb peer_id n.(_server_id) then mret OK
        else if negb (conf_contains n.(_conf) peer_id) then mret EINVAL
        else
          emit (Replicators (TransferLeadershipTo peer_id n.(_log_manager).(_last_log_index))) ;;
          if negb (ok env.(transfer_result)) then mret env.(transfer_result)
          else
            modify (fun n => n <| _state := STATE_TRANSFERRING |>
                               <| _leader_lease := on_leader_stop n.(_leader_lease) |>) ;;
            emit (Fsm (OnLeaderStop ETRANSFERLEADERSHIP)) ;;
            modify (fun n => n <| _stop_transfer_arg := Some (n.(_current_term), peer_id) |>) ;;
            if env.(timer_add) then emit (StartTransferTimer n.(_current_term) peer_id) ;; mret OK
            else handle_transfer_timeout n.(_current_term) peer_id ;; mret ENEG1
    end.

(** ** Timeouts *)
Definition unsafe_reset_election_timeout_ms (election_timeout max_clock_drift : Z) : NM unit :=
  modify (fun n => n <| _options := (n.(_options) <| election_timeout_ms := election_timeout |>
                                                  <| max_clock_drift_ms := max_clock_drift |>) |>) ;;
  emit (Replicators (ResetHeartbeatInterval (heartbeat_timeout election_timeout))) ;;
  emit (Replicators (ResetElectionTimeoutInterval election_timeout)) ;;
  n ← get;
  if n.(_options).(witness) && env.(enable_witness_to_leader) then
    emit (Timer ElectionTimer (Reset (election_timeout * 2))) ;;
    modify (fun n => n <| _follower_lease :=
      follower_reset_election_timeout_ms n.(_follower_lease) (election_timeout * 2) max_clock_drift |>)
  else
    emit (Timer ElectionTimer (Reset election_timeout)) ;;
    modify (fun n => n <| _leader_lease := leader_reset_election_timeout_ms n.(_leader_lease) election_timeout |>
      <| _follower_lease :=
           follower_reset_election_timeout_ms n.(_follower_lease) election_timeout max_clock_drift |>).

Definition reset_election_timeout_ms (election_timeout : Z) : NM Errno :=
  n ← get;
  let max_timeout := n.(_options).(max_clock_drift_ms) + n.(_options).(election_timeout_ms) in
  if max_timeout <? election_timeout then mret EINVAL
  else
    unsafe_reset_election_timeout_ms (Z.min election_timeout max_timeout)
      (max_timeout - Z.min election_timeout max_timeout) ;;
    mret OK.

Definition vote (election_timeout : Z) : NM Errno :=
  n ← get;
  if negb (bool_decide (n.(_state) = STATE_FOLLOWER)) then mret EPERM
  else
    e ← reset_election_timeout_ms election_timeout;
    if negb (ok e) then mret e
    else modify (fun n => n <| _vote_triggered := true |>) ;; mret OK.

(** ** Errors and shutdown *)
Definition on_error (e : Errno) : NM unit :=
  n ← get;
  emit (Fsm (FsmOnError e)) ;;
  when (state_num n.(_state) <=? state_num STATE_FOLLOWER)
    (step_down n.(_current_term) (bool_decide (n.(_state) = STATE_LEADER)) EBADNODE) ;;
  n ← get;
  when (state_num n.(_state) <? state_num STATE_ERROR) (modify (fun n => n <| _state := STATE_ERROR |>)).

Definition increase_term_to (new_term : Z) (status : Errno) : NM Errno :=
  n ← get;
  if new_term <=? n.(_current_term) then mret EINVAL
  else step_down new_term false status ;; mret OK.

Definition do_snapshot (done : option Closure) : NM unit :=
  if env.(has_snapshot_executor) then emit (Snapshots (DoSnapshot done))
  else run_closure done EINVAL.

Definition handle_snapshot_timeout : NM unit :=
  n ← get; when (is_active_state n.(_state)) (do_snapshot None).

Definition shutdown (done : option Closure) : NM unit :=
  n ← get;
  when (state_num n.(_state) <? state_num STATE_SHUTTING)
    (emit RemovedFromManager ;;
     when (state_num n.(_state) <=? state_num STATE_FOLLOWER)
       (step_down n.(_current_term) (bool_decide (n.(_state) = STATE_LEADER)) ESHUTDOWN) ;;
     modify (fun n => n <| _state := STATE_SHUTTING |>) ;;
     mapM_ (fun t => emit (Timer t Destroy)) [ElectionTimer; VoteTimer; StepdownTimer; SnapshotTimer] ;;
     lift_log LogManager.shutdown ;;
     when env.(has_snapshot_executor) (emit (Snapshots SnapshotShutdown)) ;;
     emit (Fsm FsmShutdown)) ;;
  n ← get;
  if negb (bool_decide (n.(_state) = STATE_SHUTDOWN)) then
    when (bool_decide (done <> None))
      (modify (fun n => n <| _shutdown_continuations := n.(_shutdown_continuations) ++ [done] |>))
  else run_closure done OK.

Definition after_shutdown : NM unit :=
  n ← get;
  check (bool_decide (n.(_state) = STATE_SHUTTING)) ;;
  modify (fun n => n <| _state := STATE_SHUTDOWN |> <| _shutdown_continuations := [] |>) ;;
  mapM_ (fun done => run_closure done OK) n.(_shutdown_continuations).
End node.
