(* ===== verification/NodeLog.v ===== *)
(** * NodeLog: the replicated log at a raft node, and the node's life cycle

    The rest of [NodeImpl] ([src/braft/node.cpp]): applying tasks, receiving
    AppendEntries and InstallSnapshot requests, the closures that run when
    entries are stable or committed, reading committed entries, status,
    [init] and [bootstrap]. *)

From S2P Require Import PeerText AppendEntriesCache LogManager ConfigurationManager LogStorage Lease BallotBox ClosureQueue Ballot NodeState Node Types Prelude.

(** A [Task] in the apply queue ([LogEntryAndClosure]). *)
Record Task : Set := mkTask { task_data : IOBuf; task_done : option Closure; expected_term : Z }.

(** What [init] and [bootstrap] need of the parts they start. *)
Record InitEnv (S : Type) : Type := mkInitEnv {
  server_exists : bool;
  apply_queue_ok : bool;
  log_storage : option S;
  storage_init : S -> ConfigurationManager -> Errno * S * ConfigurationManager;
  fsm_caller_init : Errno;
  snapshot_init : LogManager S -> Errno * LogManager S;
  meta_created : bool;
  meta_init : Errno;
  meta_get : Errno;
  manager_add : bool
}.
Arguments mkInitEnv {S}. Arguments server_exists {S}. Arguments apply_queue_ok {S}.
Arguments log_storage {S}. Arguments storage_init {S}. Arguments fsm_caller_init {S}.
Arguments snapshot_init {S}. Arguments meta_created {S}. Arguments meta_init {S}.
Arguments meta_get {S}. Arguments manager_add {S}.

(** ** Entries of a request

    [cutn] of a length narrowed to [int]: a negative one takes everything. *)
Definition cutn (len : Z) (buf : IOBuf) : IOBuf * IOBuf :=
  let len := wrap_i32 len in
  if len <? 0 then (buf, []) else (take (Z.to_nat len) buf, drop (Z.to_nat len) buf).

(** The parsing loop of [handle_append_entries_request]: the entries, the last
    index, and whether the [CHECK]s on the entry types and of the conversion of
    each peer's text to a [PeerId] hold. *)
Definition parse_entry `{IT : IpText} (index : Z) (e : EntryMeta) (buf : IOBuf) : LogEntry * IOBuf * bool :=
  let '(data, buf') := match e.(em_data_len) with Some len => cutn len buf | None => ([], buf) end in
  let has_peers := negb (bool_decide (e.(em_peers) = [])) in
  let has_old_peers := has_peers && negb (bool_decide (e.(em_old_peers) = [])) in
  let ps := map PeerId_of_string e.(em_peers) in
  let os := map PeerId_of_string e.(em_old_peers) in
  (mkLogEntry e.(em_type) (mkLogId index e.(em_term))
     (if has_peers then Some (map fst ps) else None)
     (if has_old_peers then Some (map fst os) else None)
     data,
   buf', eqb has_peers (bool_decide (e.(em_type) = ENTRY_TYPE_CONFIGURATION)) &&
         forallb snd ps && (negb has_old_peers || forallb snd os)).

Fixpoint parse_entries `{IT : IpText} (index : Z) (es : list EntryMeta) (buf : IOBuf) : list LogEntry * Z * bool :=
  match es with
  | [] => ([], index, true)
  | e :: es' =>
      if bool_decide (e.(em_type) = ENTRY_TYPE_UNKNOWN) then parse_entries (index + 1) es' buf
      else
        let '(entry, buf', ok1) := parse_entry (index + 1) e buf in
        let '(entries, last, ok2) := parse_entries (index + 1) es' buf' in
        (entry :: entries, last, ok1 && ok2)
  end.

Section node.
Context {S Mt : Type} `{LS : LogStorage S} `{MS : RaftMetaStorage Mt} `{EPO : EndPointOrder} `{IT : IpText}.
Context (env : Env).

Abbreviation NM := (M (Node S Mt) Event).

(** ** Applying tasks *)

(** [apply(const Task&)]: into the queue, or refused when the queue is gone. *)
Definition apply_task (queue_ok : bool) (task : Task) : NM (option Task) :=
  if queue_ok then mret (Some task)
  else run_closure_nonnull task.(task_done) EPERM ;; mret None.

Definition reject_task (e : Errno) (task : Task) : NM unit := run_closure task.(task_done) e.

(** The entry of an accepted task. *)
Definition data_entry (term : Z) (task : Task) : LogEntry :=
  mkLogEntry ENTRY_TYPE_DATA (mkLogId 0 term) None None task.(task_data).

Definition term_matches (term : Z) (task : Task) : bool :=
  (task.(expected_term) =? -1) || (task.(expected_term) =? term).

(** One iteration of the loop of [apply]. *)
Definition append_task (n : Node S Mt) (task : Task) : NM unit :=
  if negb (term_matches n.(_current_term) task) then reject_task EPERM task
  else lift_box' (fun bb => append_pending_task bb n.(_conf).(conf)
                              (if stable n.(_conf) then None else Some n.(_conf).(old_conf)) task.(task_done)).

(** [apply(tasks, size)]. *)
Definition apply (tasks : list Task) : NM unit :=
  n ← get;
  let reject_new_user_logs := readonly n in
  if negb (bool_decide (n.(_state) = STATE_LEADER)) || reject_new_user_logs then
    mapM_ (reject_task
      (if bool_decide (n.(_state) = STATE_LEADER) && reject_new_user_logs then EREADONLY
       else if negb (bool_decide (n.(_state) = STATE_TRANSFERRING)) then EPERM else EBUSY)) tasks
  else
    mapM_ (append_task n) tasks ;;
    let entries := map (data_entry n.(_current_term))
                     (filter (fun t => term_matches n.(_current_term) t = true) tasks) in
    stable ← new_closure (LeaderStable (zlen entries));
    lift_log (append_entries entries (stable_closure stable)) ;;
    check_and_set_conf.

(** The batching loop of [execute_applying_tasks]. *)
Fixpoint execute_applying_tasks (batch_size : Z) (cur tasks : list Task) : NM unit :=
  match tasks with
  | [] => when (0 <? zlen cur) (apply cur)
  | t :: tasks' =>
      if zlen cur =? batch_size then apply cur ;; execute_applying_tasks batch_size [t] tasks'
      else execute_applying_tasks batch_size (cur ++ [t]) tasks'
  end.

(** ** The closures a node makes *)

(** [FollowerStableClosure::run]. *)
Definition follower_stable_run (rpc : Closure) (request : AppendEntriesRequest) (term : Z) (status : Errno) : NM unit :=
  n ← get;
  if negb (ok status) then emit (AppendFailed rpc status)
  else if negb (term =? n.(_current_term)) then
    emit (AppendReply rpc (mkAppendEntriesResponse n.(_current_term) false None None))
  else
    lift_box (fun bb => set_last_committed_index bb
      (Z.min request.(ae_committed_index) (request.(ae_prev_log_index) + zlen request.(ae_entries)))) ;;
    emit (AppendReply rpc (mkAppendEntriesResponse term true None None)).

(** [LeaderStableClosure::Run]. *)
Definition leader_stable_run (nentries first_log_index : Z) (status : Errno) : NM unit :=
  n ← get;
  when (ok status)
    (lift_box (fun bb => commit_at bb first_log_index (first_log_index + nentries - 1) n.(_server_id)) ;; skip).

(** [ConfigurationChangeDone::Run]. *)
Definition configuration_change_done_run (term : Z) (leader_start : bool) (lease_epoch : Z) (status : Errno) : NM unit :=
  when (ok status)
    (on_configuration_change_done env term ;;
     when leader_start (leader_lease_start env lease_epoch ;; emit (Fsm (UserOnLeaderStart term)))).

(** [Run] of one of the node's closures, which deletes itself. *)
Definition run_node_closure (c : Closure) (status : Errno) (first_log_index : Z) : NM unit :=
  n ← get;
  modify (fun n => n <| _closures := delete c n.(_closures) |>) ;;
  match n.(_closures) !! c with
  | None => skip
  | Some (LeaderStable nentries) => leader_stable_run nentries first_log_index status
  | Some (FollowerStable rpc request term) => follower_stable_run rpc request term status
  | Some (ConfChangeDone term leader_start epoch) => configuration_change_done_run term leader_start epoch status
  end.

(** ** Requests of the leader *)

(** The answer of a follower whose previous entry does not match. *)
Definition reject_unmatched (rpc : Closure) (request : AppendEntriesRequest) (from_cache : bool) : NM unit :=
  n ← get;
  let last_index := n.(_log_manager).(_last_log_index) in
  cached ← (if from_cache then mret false
            else handle_out_of_order_append_entries env rpc request last_index);
  when (negb cached)
    (n ← get;
     emit (AppendReply rpc (mkAppendEntriesResponse n.(_current_term) false (Some last_index) None))).

(** What follows a matching previous entry. *)
Definition accept_heartbeat (rpc : Closure) (request : AppendEntriesRequest) : NM unit :=
  n ← get;
  lift_box (fun bb => set_last_committed_index bb
    (Z.min request.(ae_committed_index) request.(ae_prev_log_index))) ;;
  emit (AppendReply rpc (mkAppendEntriesResponse n.(_current_term) true
    (Some n.(_log_manager).(_last_log_index)) (Some n.(_node_readonly)))).

Definition accept_entries (rpc : Closure) (request : AppendEntriesRequest) : NM unit :=
  let '(entries, index, types_ok) :=
    parse_entries request.(ae_prev_log_index) request.(ae_entries) request.(ae_attachment) in
  check types_ok ;;
  check_append_entries_cache env index ;;
  n ← get;
  c ← new_closure (FollowerStable rpc request n.(_current_term));
  lift_log (append_entries entries (stable_closure c)) ;;
  check_and_set_conf.

(** The sender is not the leader this node follows: both step down. *)
Definition leader_conflict (term : Z) : NM unit := step_down env (term + 1) false ELEADERCONFLICT.

Definition handle_append_entries_request (rpc : Closure) (request : AppendEntriesRequest) (from_cache : bool) : NM unit :=
  n ← get;
  if negb (is_active_state n.(_state)) then emit (AppendFailed rpc EINVAL)
  else match request.(ae_server_id) with
  | None => emit (AppendFailed rpc EREQUEST)
  | Some server_id =>
      if request.(ae_term) <? n.(_current_term) then
        emit (AppendReply rpc (mkAppendEntriesResponse n.(_current_term) false None None))
      else
        check_step_down env request.(ae_term) server_id ;;
        n ← get;
        if negb (peer_eqb server_id n.(_leader_id)) then
          leader_conflict request.(ae_term) ;;
          emit (AppendReply rpc (mkAppendEntriesResponse (request.(ae_term) + 1) false None None))
        else
          when (negb from_cache)
            (modify (fun n => n <| _follower_lease := follower_renew env.(now_ms) n.(_follower_lease) n.(_leader_id) |>)) ;;
          if (0 <? zlen request.(ae_entries)) && (env.(has_snapshot_executor) && env.(installing_snapshot)) then
            emit (AppendFailed rpc EBUSY)
          else if negb (LogManager.get_term n.(_log_manager) request.(ae_prev_log_index)
                        =? request.(ae_prev_log_term)) then
            reject_unmatched rpc request from_cache
          else if zlen request.(ae_entries) =? 0 then accept_heartbeat rpc request
          else accept_entries rpc request
  end.

(** [handle_append_entries_from_cache] on the requests the cache hands out, and
    [start_to_handle], which fails them when no thread can be started. *)
Definition handle_append_entries_from_cache (thread_ok : bool) (rpcs : list Rpc) : NM unit :=
  mapM_ (fun r =>
    n ← get;
    modify (fun n => n <| _rpcs := delete r.(rpc_id) n.(_rpcs) |>) ;;
    match n.(_rpcs) !! r.(rpc_id) with
    | None => skip
    | Some request =>
        if thread_ok then handle_append_entries_request r.(rpc_id) request true
        else emit (AppendFailed r.(rpc_id) EINVAL)
    end) rpcs.

Definition handle_install_snapshot_request (rpc : Closure) (server : option PeerId) (request_term : Z) : NM unit :=
  n ← get;
  if negb env.(has_snapshot_executor) then emit (InstallFailed rpc EINVAL)
  else match server with
  | None => emit (InstallFailed rpc EREQUEST)
  | Some server_id =>
      if negb (is_active_state n.(_state)) then emit (InstallFailed rpc EINVAL)
      else if request_term <? n.(_current_term) then emit (InstallReply rpc n.(_current_term) false)
      else
        check_step_down env request_term server_id ;;
        n ← get;
        if negb (peer_eqb server_id n.(_leader_id)) then
          leader_conflict request_term ;;
          emit (InstallReply rpc (request_term + 1) false)
        else
          clear_append_entries_cache env ;;
          emit (Snapshots (InstallSnapshot rpc))
  end.

Definition update_configuration_after_installing_snapshot : NM unit := check_and_set_conf.

(** ** Reading *)

(** The loop of [read_committed_user_log] from [cur_index]; [fuel] iterations. *)
Fixpoint read_user_log (fuel : nat) (cur_index last_applied : Z) : NM (Errno * option (Z * IOBuf)) :=
  match fuel with
  | O => mret (ENOMOREUSERLOG, None)
  | Datatypes.S fuel' =>
      entry ← lift_log (LogManager.get_entry cur_index);
      match entry with
      | None => mret (ELOGDELETED, None)
      | Some e =>
          if bool_decide (e.(type) = ENTRY_TYPE_DATA) then mret (OK, Some (cur_index, e.(data)))
          else if last_applied <? cur_index + 1 then mret (ENOMOREUSERLOG, None)
          else read_user_log fuel' (cur_index + 1) last_applied
      end
  end.

Definition read_committed_user_log (index last_applied_index : Z) : NM (Errno * option (Z * IOBuf)) :=
  if index <=? 0 then mret (EINVAL, None)
  else if last_applied_index <? index then mret (ENOMOREUSERLOG, None)
  else read_user_log (Z.to_nat (last_applied_index - index + 1)) index last_applied_index.

(** [get_status], without the replicators' part. *)
Record NodeStatus : Set := mkNodeStatus {
  st_state : State;
  st_leader_id : PeerId;
  st_readonly : bool;
  st_term : Z;
  st_log : LogManagerStatus;
  st_box : BallotBoxStatus
}.
Definition get_status (n : Node S Mt) (status : NodeStatus) : NodeStatus :=
  mkNodeStatus n.(_state)
    (match n.(_state) with
     | STATE_LEADER | STATE_TRANSFERRING => n.(_server_id)
     | STATE_FOLLOWER => n.(_leader_id)
     | _ => status.(st_leader_id)
     end)
    (readonly n) n.(_current_term) (LogManager.get_status n.(_log_manager))
    (BallotBox.get_status n.(_ballot_box) status.(st_box)).

(** ** Starting *)
Definition init_timers (o : NodeOptions) : NM unit :=
  let t := o.(election_timeout_ms) in
  let d := o.(max_clock_drift_ms) in
  (if o.(witness) then
     when env.(enable_witness_to_leader)
       (emit (Timer ElectionTimer (Init (t * 2))) ;; emit (Timer VoteTimer (Init (t * 2 + d))))
   else emit (Timer ElectionTimer (Init t)) ;; emit (Timer VoteTimer (Init (t + d)))) ;;
  emit (Timer StepdownTimer (Init t)) ;;
  emit (Timer SnapshotTimer (Init (o.(snapshot_interval_s) * 1000))).

Definition init_leases (o : NodeOptions) : NM unit :=
  modify (fun n =>
    n <| _leader_lease := leader_init n.(_leader_lease) o.(election_timeout_ms) |>
      <| _follower_lease := follower_init env.(now_ms) n.(_follower_lease)
           (if o.(witness) then o.(election_timeout_ms) * 2 else o.(election_timeout_ms)) o.(max_clock_drift_ms) |>).

Definition init_log_storage (ie : InitEnv S) : NM Errno :=
  match ie.(log_storage) with
  | None => mret ENEG1
  | Some s => lift_log (LogManager.init ie.(storage_init) (Some s) ConfigurationManager_default)
  end.

(** [init_meta_storage]: what the storage holds becomes the term and the vote;
    a term below the last log's is raised past it. *)
Definition init_meta_storage (ie : InitEnv S) : NM Errno :=
  if negb ie.(meta_created) then mret ENOENT
  else if negb (ok ie.(meta_init)) then mret ie.(meta_init)
  else if negb (ok ie.(meta_get)) then mret ie.(meta_get)
  else
    modify (fun n => n <| _current_term := (meta_durable n.(_meta_storage)).1 |>
                       <| _voted_id := (meta_durable n.(_meta_storage)).2 |>) ;;
    n ← get;
    last ← lift_log (last_log_id false n.(_next_closure));
    let last_term := (default LogId_default last).(term) in
    if n.(_current_term) <? last_term then
      modify (fun n => n <| _current_term := last_term + 1 |> <| _voted_id := PeerId_default |>) ;;
      save_meta (last_term + 1) PeerId_default
    else mret OK.

Definition init_snapshot_storage (ie : InitEnv S) : NM Errno := fun n =>
  if negb env.(has_snapshot_executor) then (OK, n, [])
  else let '(e, lm) := ie.(snapshot_init) n.(_log_manager) in (e, n <| _log_manager := lm |>, []).

(** A step of [init] that fails makes it return -1. *)
Definition or_fail (m : NM Errno) (k : NM Errno) : NM Errno :=
  e ← m; if negb (ok e) then mret ENEG1 else k.

Definition check_log_consistency : NM Errno :=
  n ← get;
  let '(e, held) := check_consistency n.(_log_manager) in
  check held ;; mret e.

Definition init_ballot_box : NM Errno := fun n =>
  let '(e, bb) := BallotBox.init n.(_ballot_box) (mkBallotBoxOptions (Some 1%positive) (Some ClosureQueue_default)) in
  (e, n <| _ballot_box := bb |>, []).

(** [init] once its storages are open. *)
Definition start_node (ie : InitEnv S) : NM Errno :=
  modify (fun n => if (n.(_current_term) =? 1) && is_empty n.(_voted_id)
                   then n <| _follower_lease := follower_reset n.(_follower_lease) |> else n) ;;
  modify (fun n => n <| _state := STATE_FOLLOWER |>) ;;
  n ← get;
  when (env.(has_snapshot_executor) && (0 <? n.(_options).(snapshot_interval_s))) (emit (Timer SnapshotTimer Start)) ;;
  when (negb (conf_empty n.(_conf))) (step_down env n.(_current_term) false OK) ;;
  if negb ie.(manager_add) then mret ENEG1
  else
    n ← get;
    when (stable n.(_conf) && (zlen n.(_conf).(conf) =? 1) && contains n.(_conf).(conf) n.(_server_id))
      (elect_self env false) ;;
    mret OK.

(** The configuration [init] starts from: the log's, or the one of the options. *)
Definition init_conf : NM unit :=
  modify (fun n => n <| _conf := mkConfigurationEntry LogId_default n.(_conf).(conf) n.(_conf).(old_conf) |>) ;;
  n ← get;
  if 0 <? n.(_log_manager).(_last_log_index) then check_and_set_conf
  else modify (fun n => n <| _conf := (n.(_conf) <| conf := n.(_options).(initial_conf) |>) |>).

(** [NodeImpl::init]; the options were given to [NodeImpl]. *)
Definition init (ie : InitEnv S) : NM Errno :=
  n ← get;
  if n.(_server_id).(addr).(ip) =? IP_ANY then mret ENEG1
  else if negb ie.(server_exists) then mret ENEG1
  else
    init_timers n.(_options) ;;
    if negb ie.(apply_queue_ok) then mret ENEG1
    else
      init_leases n.(_options) ;;
      or_fail (init_log_storage ie)
     (or_fail (mret ie.(fsm_caller_init))
     (or_fail init_ballot_box
     (or_fail (init_snapshot_storage ie)
     (or_fail check_log_consistency
     (init_conf ;;
      or_fail (init_meta_storage ie)
     (start_node ie)))))).

(** [NodeImpl::bootstrap]: the arguments it reads, and its first entry. *)
Record BootstrapOptions : Set := mkBootstrapOptions {
  group_conf : Configuration;
  bootstrap_fsm : bool;
  last_log_index : Z
}.
Definition bootstrap (ie : InitEnv S) (snapshot_saved entry_stable : Errno) (o : BootstrapOptions) : NM Errno :=
  if (0 <? o.(last_log_index)) && (bool_decide (o.(group_conf) = []) || negb o.(bootstrap_fsm)) then mret ENEG1
  else if bool_decide (o.(group_conf) = []) then mret ENEG1
  else
    or_fail (init_log_storage ie)
   (or_fail (init_meta_storage ie)
   (n ← get;
    if n.(_current_term) =? 0 then
      modify (fun n => n <| _current_term := 1 |>) ;;
      save_meta 1 PeerId_default ;;
      mret ENEG1
    else
      or_fail (mret (if o.(bootstrap_fsm) then ie.(fsm_caller_init) else OK))
     (or_fail (if 0 <? o.(last_log_index)
               then or_fail (init_snapshot_storage ie)
                      (emit (Snapshots (DoSnapshot (Some n.(_next_closure)))) ;; mret snapshot_saved)
               else mret OK)
     (n ← get;
      check (n.(_log_manager).(_first_log_index) =? o.(last_log_index) + 1) ;;
      check (n.(_log_manager).(_last_log_index) =? o.(last_log_index)) ;;
      lift_log (append_entries [configuration_entry n.(_current_term) o.(group_conf) None]
                  (stable_closure n.(_next_closure))) ;;
      or_fail (mret entry_stable) (mret OK))))).

End node.
