(* ===== verification/Replicator.v ===== *)
(** * Replicator: the leader's pipeline to one follower

    Models the class [Replicator] of [src/braft/replicator.h] and
    [src/braft/replicator.cpp].  A replicator is locked by its bthread_id while
    one of its functions runs; a function that takes the lock is [locked], and
    does nothing once the id is destroyed.  What the log manager, the ballot
    box, the snapshot storage, the timers and the clocks answer during one call
    are the fields of [Env]; RPCs, calls to the node and to the other parts are
    output events.  An RPC is known by the call id of its controller, which is
    the number of controllers made so far. *)

From S2P Require Import Prelude Types PeerText FsmCaller NodeState.

(** ** Data *)
Inductive St : Set := IDLE | BLOCKING | APPENDING_ENTRIES | INSTALLING_SNAPSHOT.

#[export] Instance St_eq_dec : EqDecision St.
Proof. solve_decision. Defined.

(** The two unions hold two numbers, named here by their first member. *)
Record Stat : Set := mkStat { st : St; first_index : Z; last_index : Z }.
#[export] Instance Stat_eta : Settable Stat := fun s => mkStat s.(st) s.(first_index) s.(last_index).

Record FlyingAppendEntriesRpc : Set := mkFlying { log_index : Z; entries_size : Z; call_id : Z }.

Record CatchupClosure : Set := mkCatchupClosure {
  closure : Closure;
  _max_margin : Z;
  _has_timer : bool;
  _error_was_set : bool;
  closure_status : Errno
}.
#[export] Instance CatchupClosure_eta : Settable CatchupClosure := fun c =>
  mkCatchupClosure c.(closure) c.(_max_margin) c.(_has_timer) c.(_error_was_set) c.(closure_status).

Record ReplicatorOptions : Set := mkReplicatorOptions { server_id : PeerId; peer : PeerId; opt_term : Z }.

Record Replicator : Set := mkReplicator {
  _next_index : Z;
  _flying_append_entries_size : Z;
  _consecutive_error_times : Z;
  _has_succeeded : bool;
  _timeout_now_index : Z;
  _heartbeat_counter : Z;
  _append_entries_counter : Z;
  _install_snapshot_counter : Z;
  _readonly_index : Z;
  _st : Stat;
  _append_entries_in_fly : list FlyingAppendEntriesRpc;
  _install_snapshot_in_fly : Z;
  _heartbeat_in_fly : Z;
  _timeout_now_in_fly : Z;
  _wait_id : Z;
  _is_waiter_canceled : bool;
  _options : ReplicatorOptions;
  _reader : bool;
  _catchup_closure : option CatchupClosure;
  last_rpc_send_timestamp : Z;
  calls : Z;
  valid_id : bool
}.
#[export] Instance Replicator_eta : Settable Replicator := fun r =>
  mkReplicator r.(_next_index) r.(_flying_append_entries_size) r.(_consecutive_error_times)
    r.(_has_succeeded) r.(_timeout_now_index) r.(_heartbeat_counter) r.(_append_entries_counter)
    r.(_install_snapshot_counter) r.(_readonly_index) r.(_st) r.(_append_entries_in_fly)
    r.(_install_snapshot_in_fly) r.(_heartbeat_in_fly) r.(_timeout_now_in_fly) r.(_wait_id)
    r.(_is_waiter_canceled) r.(_options) r.(_reader) r.(_catchup_closure)
    r.(last_rpc_send_timestamp) r.(calls) r.(valid_id).

Record InstallSnapshotRequest : Set := mkInstallSnapshotRequest {
  is_term : Z; is_server_id : PeerId; is_peer_id : PeerId; is_meta : SnapshotMeta; is_uri : string
}.
Record TimeoutNowRequest : Set := mkTimeoutNowRequest {
  tn_term : Z; tn_server_id : PeerId; tn_peer_id : PeerId; tn_old_leader_stepped_down : bool
}.

(** A controller whose RPC has ended: its call id and its error, [OK] when the
    RPC did not fail. *)
Record Controller : Set := mkController { cntl_call_id : Z; ErrorCode : Errno }.
Definition Failed (c : Controller) : bool := negb (ok c.(ErrorCode)).

Inductive Event : Set :=
| SendHeartbeat (call : Z) (timeout_ms : Z) (request : AppendEntriesRequest)
| SendAppendEntries (call : Z) (request : AppendEntriesRequest)
| SendInstallSnapshot (call : Z) (request : InstallSnapshotRequest)
| SendTimeoutNow (call : Z) (timeout_ms : option Z) (request : TimeoutNowRequest)
| StartCancel (call : Z)
| HeartbeatTimer (due_us : Z)
| HeartbeatTimedout
| DeleteHeartbeatTimer
| BlockTimer (due_us : Z)
| CatchupTimer (due_us : Z)
| DeleteCatchupTimer
| Wait (expected_last_log_index : Z)
| RemoveWaiter (id : Z)
| CommitAt (first last : Z) (p : PeerId)
| IncreaseTermTo (term : Z) (e : Errno)
| ChangeReadonlyConfig (term : Z) (p : PeerId) (readonly : bool)
| NodeError (t : ErrorType) (e : Errno)
| RunCatchup (c : Closure) (e : Errno)
| CloseReader
| FinishThrottled
| NodeAddRef | NodeRelease
| StatusAddRef | StatusRelease | StatusDelete
| CheckFailed.

(** ** The code around a replicator *)

(** What [SnapshotReader] answers: its uri and the metadata it loads. *)
Record ReaderAnswers : Set := mkReaderAnswers { uri_for_copy : string; reader_meta : option SnapshotMeta }.

Record Env : Type := mkEnv {
  first_log_index : Z;
  last_log_index : Z;
  get_term : Z -> Z;
  get_entry : Z -> option LogEntry;
  wait : Z -> Z;
  last_committed_index : Z;
  node_is_witness : bool;
  (** no throttle, or the answer of [add_one_more_task] *)
  snapshot_throttle : option bool;
  snapshot_open : option ReaderAnswers;
  (** how many times in a row a block timer cannot be added *)
  block_timer_failures : nat;
  timer_added : bool;
  (** [bthread_timer_del] answers 1: the timer's task is running *)
  timer_is_running : bool;
  gettimeofday_us : Z;
  monotonic_time_ms : Z;
  dynamic_heartbeat_timeout_ms : Z;
  election_timeout_ms : Z
}.

Record Flags : Set := mkFlags {
  raft_max_entries_size : Z;
  raft_max_parallel_append_entries_rpc_num : Z;
  raft_max_body_size : Z;
  raft_retry_replicate_interval_ms : Z;
  raft_enable_witness_to_leader : bool
}.

Abbreviation RM := (M Replicator Event).

(** [Replicator::Replicator]. *)
Definition Replicator_new (o : ReplicatorOptions) : Replicator :=
  mkReplicator 0 0 0 false 0 0 0 0 0 (mkStat IDLE 0 0) [] 0 0 0 0 false o false None 0 0 true.

Definition check (b : bool) : RM unit := if b then skip else emit CheckFailed.

(** [bthread_id_lock], which fails once the id is destroyed. *)
Definition locked {A} (failed : A) (m : RM A) : RM A :=
  r ← get; if r.(valid_id) then m else mret failed.

(** A new [brpc::Controller], and its call id. *)
Definition new_controller : RM Z :=
  modify (fun r => r <| calls := r.(calls) + 1 |>) ;;
  r ← get; mret r.(calls).

Definition _min_flying_index (r : Replicator) : Z := r.(_next_index) - r.(_flying_append_entries_size).

Definition peer_is_witness (r : Replicator) : bool := is_witness r.(_options).(peer).

Definition set_st (s : St) : RM unit := modify (fun r => r <| _st := r.(_st) <| st := s |> |>).

Definition _update_last_rpc_send_timestamp (new_timestamp : Z) : RM unit :=
  r ← get;
  when (r.(last_rpc_send_timestamp) <? new_timestamp)
    (modify (fun r => r <| last_rpc_send_timestamp := new_timestamp |>)).

(** [milliseconds_from(microseconds_to_timespec(start_time_us), ms)]. *)
Definition milliseconds_from (start_time_us ms : Z) : Z := start_time_us + ms * 1000.

Section replicator.
Context `{IT : IpText}.
Variable flags : Flags.
Variable env : Env.

(** ** Catching up *)
Definition _is_catchup (r : Replicator) (max_margin : Z) : bool :=
  if r.(_next_index) <? env.(first_log_index) then false
  else if _min_flying_index r - 1 + max_margin <? env.(last_log_index) then false
  else true.

(** The last lines of [_notify_on_caught_up]. *)
Definition run_catchup_closure (c : CatchupClosure) : RM unit :=
  modify (fun r => r <| _catchup_closure := None |>) ;;
  emit (RunCatchup c.(closure) c.(closure_status)).

Definition set_error (e : Errno) (c : CatchupClosure) : CatchupClosure :=
  if ok e then c else c <| closure_status := e |>.

Definition _notify_on_caught_up (error_code : Errno) (before_destroy : bool) : RM unit :=
  r ← get;
  match r.(_catchup_closure) with
  | None => skip
  | Some c =>
      if negb (bool_decide (error_code = ETIMEDOUT)) && negb (bool_decide (error_code = EPERM)) then
        if negb (_is_catchup r c.(_max_margin)) then skip
        else if c.(_error_was_set) then skip
        else
          let c := set_error error_code (c <| _error_was_set := true |>) in
          modify (fun r => r <| _catchup_closure := Some c |>) ;;
          if c.(_has_timer) && negb before_destroy then
            emit DeleteCatchupTimer ;;
            if env.(timer_is_running) then skip else run_catchup_closure c
          else run_catchup_closure c
      else run_catchup_closure (if c.(_error_was_set) then c else set_error error_code c)
  end.

(** ** Leaving *)
Definition _close_reader : RM unit :=
  r ← get;
  when r.(_reader)
    (emit CloseReader ;;
     modify (fun r => r <| _reader := false |>) ;;
     match env.(snapshot_throttle) with Some _ => emit FinishThrottled | None => skip end).

(** [_destroy], with the destructor. *)
Definition _destroy : RM unit :=
  modify (fun r => r <| valid_id := false |>) ;;
  _close_reader ;;
  emit NodeRelease ;; emit StatusRelease.

(** The node learns that there is a higher term, and the replicator leaves. *)
Definition quit_for_term (term : Z) : RM unit :=
  emit NodeAddRef ;;
  _notify_on_caught_up EPERM true ;;
  _destroy ;;
  emit (IncreaseTermTo term EHIGHERTERMRESPONSE) ;;
  emit NodeRelease.

Definition _cancel_append_entries_rpcs : RM unit :=
  r ← get;
  mapM_ (fun rpc => emit (StartCancel rpc.(call_id))) r.(_append_entries_in_fly) ;;
  modify (fun r => r <| _append_entries_in_fly := [] |>).

Definition _reset_next_index : RM unit :=
  modify (fun r => r <| _next_index := r.(_next_index) - r.(_flying_append_entries_size) |>
                     <| _flying_append_entries_size := 0 |>) ;;
  _cancel_append_entries_rpcs ;;
  modify (fun r => r <| _is_waiter_canceled := true |>) ;;
  r ← get;
  when (negb (r.(_wait_id) =? 0))
    (emit (RemoveWaiter r.(_wait_id)) ;; modify (fun r => r <| _wait_id := 0 |>)).

(** ** Requests *)
Definition _fill_common_fields (prev_log_index : Z) (is_heartbeat : bool) : RM (option AppendEntriesRequest) :=
  r ← get;
  let prev_log_term := env.(get_term) prev_log_index in
  let filled prev_log_index :=
    Some (mkAppendEntriesRequest (Some r.(_options).(server_id)) r.(_options).(opt_term)
            prev_log_index prev_log_term env.(last_committed_index) [] []) in
  if (prev_log_term =? 0) && negb (prev_log_index =? 0) then
    if negb is_heartbeat then
      check (prev_log_index <? env.(first_log_index)) ;; mret None
    else mret (filled 0)
  else mret (filled prev_log_index).

(** The part of [_send_empty_entries] for a request that could be filled. *)
Definition send_heartbeat_rpc (request : AppendEntriesRequest) : RM unit :=
  call ← new_controller;
  modify (fun r => r <| _heartbeat_in_fly := call |> <| _heartbeat_counter := r.(_heartbeat_counter) + 1 |>) ;;
  emit (SendHeartbeat call (Z.quot env.(election_timeout_ms) 2) request).

Definition send_probe_rpc (request : AppendEntriesRequest) : RM unit :=
  call ← new_controller;
  r ← get;
  modify (fun r => r <| _st := mkStat APPENDING_ENTRIES r.(_next_index) (r.(_next_index) - 1) |>) ;;
  check (bool_decide (r.(_append_entries_in_fly) = [])) ;;
  check (r.(_flying_append_entries_size) =? 0) ;;
  modify (fun r => r <| _append_entries_in_fly := r.(_append_entries_in_fly) ++ [mkFlying r.(_next_index) 0 call] |>
                     <| _append_entries_counter := r.(_append_entries_counter) + 1 |>) ;;
  emit (SendAppendEntries call request).

(** [_send_empty_entries]; [install] is [_install_snapshot]. *)
Definition send_empty_entries_or (install : RM unit) (is_heartbeat : bool) : RM unit :=
  r ← get;
  request ← _fill_common_fields (r.(_next_index) - 1) is_heartbeat;
  match request with
  | None => check (negb is_heartbeat) ;; install
  | Some request => if is_heartbeat then send_heartbeat_rpc request else send_probe_rpc request
  end.

(** ** Installing a snapshot *)
Definition snapshot_error : RM unit :=
  emit NodeAddRef ;; emit (NodeError ERROR_TYPE_SNAPSHOT EIO) ;; emit NodeRelease.

(** The part of [_install_snapshot] that has a reader; [block] is [_block]. *)
Definition install_from (block : Z -> Errno -> RM unit) (reader : ReaderAnswers) : RM unit :=
  if bool_decide (reader.(uri_for_copy) = EmptyString) then
    _close_reader ;; block env.(gettimeofday_us) EBUSY
  else
    match reader.(reader_meta) with
    | None => snapshot_error
    | Some meta =>
        call ← new_controller;
        r ← get;
        modify (fun r => r <| _install_snapshot_in_fly := call |>
                           <| _install_snapshot_counter := r.(_install_snapshot_counter) + 1 |>
                           <| _st := mkStat r.(_st).(st) meta.(last_included_index) meta.(last_included_term) |>) ;;
        emit (SendInstallSnapshot call
                (mkInstallSnapshotRequest r.(_options).(opt_term) r.(_options).(server_id) r.(_options).(peer)
                   meta reader.(uri_for_copy)))
    end.

Definition install_snapshot_or (block : Z -> Errno -> RM unit) : RM unit :=
  r ← get;
  if env.(node_is_witness) then block env.(gettimeofday_us) EBUSY
  else if r.(_reader) then skip
  else if bool_decide (env.(snapshot_throttle) = Some false) then block env.(gettimeofday_us) EBUSY
  else
    set_st INSTALLING_SNAPSHOT ;;
    match env.(snapshot_open) with
    | None =>
        match env.(snapshot_throttle) with Some _ => emit FinishThrottled | None => skip end ;;
        snapshot_error
    | Some reader =>
        modify (fun r => r <| _reader := true |>) ;;
        install_from block reader
    end.

(** ** Blocking

    A block timer that cannot be added leads back here through
    [_send_empty_entries] and [_install_snapshot]: the recursion is on the
    number of failures. *)
Definition blocking_time (error_code : Errno) : Z :=
  if bool_decide (error_code = EBUSY) || bool_decide (error_code = EINTR)
  then flags.(raft_retry_replicate_interval_ms) else env.(dynamic_heartbeat_timeout_ms).

Fixpoint block_after (failures : nat) (start_time_us : Z) (error_code : Errno) : RM unit :=
  r ← get;
  if bool_decide (r.(_st).(st) = BLOCKING) then skip
  else
    match failures with
    | O =>
        emit (BlockTimer (milliseconds_from start_time_us (blocking_time error_code))) ;;
        set_st BLOCKING
    | S failures => send_empty_entries_or (install_snapshot_or (block_after failures)) false
    end.

Definition _block : Z -> Errno -> RM unit := block_after env.(block_timer_failures).
Definition _install_snapshot : RM unit := install_snapshot_or _block.
Definition _send_empty_entries (is_heartbeat : bool) : RM unit := send_empty_entries_or _install_snapshot is_heartbeat.

(** ** Sending entries *)

(** The fields of an entry's metadata, its peers as text, and whether its [CHECK]s hold. *)
Definition meta_of (with_data : bool) (e : LogEntry) : EntryMeta :=
  mkEntryMeta e.(type) e.(id).(term) (map to_string (default [] e.(peers)))
    (map to_string (match e.(peers) with Some _ => default [] e.(old_peers) | None => [] end))
    (if with_data then Some (zlen e.(data)) else None).
Definition entry_checks (e : LogEntry) : bool :=
  match e.(peers) with
  | Some peers => negb (bool_decide (peers = []))
  | None => negb (bool_decide (e.(type) = ENTRY_TYPE_CONFIGURATION))
  end.

Definition sends_data (r : Replicator) : bool :=
  negb (peer_is_witness r) || flags.(raft_enable_witness_to_leader).

Definition _prepare_entry (offset : Z) (buf : IOBuf) : RM (Errno + EntryMeta * IOBuf) :=
  if flags.(raft_max_body_size) <=? zlen buf then mret (inl ERANGE)
  else
    r ← get;
    let log_index := r.(_next_index) + offset in
    match env.(get_entry) log_index with
    | None => mret (inl ENOENT)
    | Some entry =>
        let is_readonly := negb (r.(_readonly_index) =? 0) && (r.(_readonly_index) <=? log_index) in
        if is_readonly && negb (bool_decide (entry.(type) = ENTRY_TYPE_CONFIGURATION)) then mret (inl EREADONLY)
        else
          when is_readonly (modify (fun r => r <| _readonly_index := log_index + 1 |>)) ;;
          check (entry_checks entry) ;;
          mret (inr (meta_of (sends_data r) entry,
                     if sends_data r then buf ++ entry.(data) else buf))
    end.

(** The loop of [_send_entries]: the entries, the attachment and the last return code. *)
Fixpoint prepare_entries (n : nat) (i : Z) (buf : IOBuf) : RM (list EntryMeta * IOBuf * Errno) :=
  match n with
  | O => mret ([], buf, OK)
  | S n =>
      p ← _prepare_entry i buf;
      match p with
      | inl rc => mret ([], buf, rc)
      | inr (em, buf) =>
          rest ← prepare_entries n (i + 1) buf;
          let '(ems, buf, rc) := rest in mret (em :: ems, buf, rc)
      end
  end.

Definition can_fly (r : Replicator) : bool :=
  (r.(_flying_append_entries_size) <? flags.(raft_max_entries_size)) &&
  (zlen r.(_append_entries_in_fly) <? flags.(raft_max_parallel_append_entries_rpc_num)).

Definition _wait_more_entries : RM unit :=
  r ← get;
  when ((r.(_wait_id) =? 0) && can_fly r)
    (emit (Wait (r.(_next_index) - 1)) ;;
     modify (fun r => r <| _wait_id := env.(wait) (r.(_next_index) - 1) |> <| _is_waiter_canceled := false |>)) ;;
  r ← get;
  when (r.(_flying_append_entries_size) =? 0) (set_st IDLE).

(** The part of [_send_entries] that has entries to send. *)
Definition send_rpc (request : AppendEntriesRequest) (ems : list EntryMeta) (buf : IOBuf) : RM unit :=
  call ← new_controller;
  modify (fun r => r <| _append_entries_in_fly :=
                          r.(_append_entries_in_fly) ++ [mkFlying r.(_next_index) (zlen ems) call] |>
                     <| _append_entries_counter := r.(_append_entries_counter) + 1 |>
                     <| _next_index := r.(_next_index) + zlen ems |>
                     <| _flying_append_entries_size := r.(_flying_append_entries_size) + zlen ems |>) ;;
  modify (fun r => r <| _st := mkStat APPENDING_ENTRIES (_min_flying_index r) (r.(_next_index) - 1) |>) ;;
  emit (SendAppendEntries call
          (mkAppendEntriesRequest request.(ae_server_id) request.(ae_term) request.(ae_prev_log_index)
             request.(ae_prev_log_term) request.(ae_committed_index) ems buf)) ;;
  _wait_more_entries.

(** What it does when there are none. *)
Definition nothing_to_send (prepare_entry_rc : Errno) : RM unit :=
  r ← get;
  if r.(_next_index) <? env.(first_log_index) then _reset_next_index ;; _install_snapshot
  else if bool_decide (prepare_entry_rc = EREADONLY) then
    when (r.(_flying_append_entries_size) =? 0) (set_st IDLE)
  else _wait_more_entries.

Definition _send_entries : RM unit :=
  r ← get;
  if negb (can_fly r) || bool_decide (r.(_st).(st) = BLOCKING) then skip
  else
    request ← _fill_common_fields (r.(_next_index) - 1) false;
    match request with
    | None => _reset_next_index ;; _install_snapshot
    | Some request =>
        let max_entries_size := flags.(raft_max_entries_size) - r.(_flying_append_entries_size) in
        p ← prepare_entries (Z.to_nat max_entries_size) 0 [];
        let '(ems, buf, rc) := p in
        if bool_decide (ems = []) then nothing_to_send rc else send_rpc request ems buf
    end.

(** ** Timers and wake-ups *)
Definition _start_heartbeat_timer (start_time_us : Z) : RM unit :=
  if env.(timer_added)
  then emit (HeartbeatTimer (milliseconds_from start_time_us env.(dynamic_heartbeat_timeout_ms)))
  else emit HeartbeatTimedout.

Definition _send_heartbeat : RM unit := locked tt (_send_empty_entries true).

Definition _continue_sending (error_code : Errno) : RM Errno := locked ENEG1 (
  r ← get;
  (if bool_decide (error_code = ETIMEDOUT) then
     if negb (r.(_wait_id) =? 0) then skip else _send_empty_entries false
   else if negb (bool_decide (error_code = ESTOP)) && negb r.(_is_waiter_canceled) then
     modify (fun r => r <| _wait_id := 0 |>) ;; _send_entries
   else skip) ;;
  mret OK).

(** [_on_block_timedout_in_new_thread]: the lock is released in between. *)
Definition block_timedout : RM unit := locked tt (set_st IDLE).
Definition _on_block_timedout : RM unit :=
  r ← get;
  if r.(valid_id) then block_timedout ;; _continue_sending ETIMEDOUT ;; skip else skip.

Definition _on_catch_up_timedout : RM unit := locked tt (_notify_on_caught_up ETIMEDOUT false).

(** The handler of [bthread_id_error]; a heartbeat is sent in another thread. *)
Definition _on_error (error_code : Errno) : RM Errno := locked EINVAL (
  if bool_decide (error_code = ESTOP) then
    r ← get;
    emit (StartCancel r.(_install_snapshot_in_fly)) ;;
    emit (StartCancel r.(_heartbeat_in_fly)) ;;
    emit (StartCancel r.(_timeout_now_in_fly)) ;;
    _cancel_append_entries_rpcs ;;
    emit DeleteHeartbeatTimer ;;
    emit (RemoveWaiter r.(_wait_id)) ;;
    _notify_on_caught_up error_code true ;;
    modify (fun r => r <| _wait_id := 0 |>) ;;
    _destroy ;;
    mret OK
  else if bool_decide (error_code = ETIMEDOUT) then _send_heartbeat ;; mret OK
  else emit CheckFailed ;; mret ENEG1).

(** ** Leadership transfer *)
Definition _send_timeout_now (old_leader_stepped_down : bool) (timeout_ms : Z) : RM unit :=
  call ← new_controller;
  r ← get;
  when (negb old_leader_stepped_down)
    (modify (fun r => r <| _timeout_now_in_fly := call |> <| _timeout_now_index := 0 |>)) ;;
  emit (SendTimeoutNow call (if 0 <? timeout_ms then Some timeout_ms else None)
          (mkTimeoutNowRequest r.(_options).(opt_term) r.(_options).(server_id) r.(_options).(peer)
             old_leader_stepped_down)).

(** [if (_timeout_now_index > 0 && _timeout_now_index < _min_flying_index())]. *)
Definition maybe_timeout_now : RM unit :=
  r ← get;
  when ((0 <? r.(_timeout_now_index)) && (r.(_timeout_now_index) <? _min_flying_index r))
    (_send_timeout_now false (-1)).

Definition _transfer_leadership (log_index : Z) : RM Errno :=
  r ← get;
  (if r.(_has_succeeded) && (log_index <? _min_flying_index r) then _send_timeout_now false (-1)
   else modify (fun r => r <| _timeout_now_index := log_index |>)) ;;
  mret OK.
Definition transfer_leadership (log_index : Z) : RM Errno := locked EINVAL (_transfer_leadership log_index).
Definition stop_transfer_leadership : RM Errno :=
  locked EINVAL (modify (fun r => r <| _timeout_now_index := 0 |>) ;; mret OK).
Definition send_timeout_now_and_stop (timeout_ms : Z) : RM Errno :=
  locked ENEG1 (_send_timeout_now true timeout_ms ;; mret OK).

Definition _on_timeout_now_returned (cntl : Controller) (response_term : Z)
    (old_leader_stepped_down : bool) : RM unit := locked tt (
  let leave := when old_leader_stepped_down (_notify_on_caught_up ESTOP true ;; _destroy) in
  r ← get;
  if Failed cntl then leave
  else if r.(_options).(opt_term) <? response_term then quit_for_term response_term
  else leave).

(** ** Answers of the follower *)
Definition count_error : RM unit :=
  modify (fun r => r <| _consecutive_error_times := r.(_consecutive_error_times) + 1 |>).
Definition clear_errors : RM unit := modify (fun r => r <| _consecutive_error_times := 0 |>).

Definition _on_heartbeat_returned (cntl : Controller) (response : AppendEntriesResponse)
    (rpc_send_time : Z) : RM unit := locked tt (
  if Failed cntl then count_error ;; _start_heartbeat_timer env.(gettimeofday_us)
  else
    clear_errors ;;
    r ← get;
    if r.(_options).(opt_term) <? response.(ar_term) then quit_for_term response.(ar_term)
    else
      let readonly := default false response.(ar_readonly) in
      _update_last_rpc_send_timestamp rpc_send_time ;;
      _start_heartbeat_timer env.(gettimeofday_us) ;;
      when (bool_decide (readonly = (r.(_readonly_index) =? 0)))
        (emit NodeAddRef ;;
         emit (ChangeReadonlyConfig r.(_options).(opt_term) r.(_options).(peer) readonly) ;;
         emit NodeRelease)).

(** The loop that looks for the RPC among those in flight. *)
Fixpoint valid_rpc (call rpc_first_index : Z) (fly : list FlyingAppendEntriesRpc) : bool :=
  match fly with
  | [] => false
  | rpc :: fly =>
      if rpc_first_index <? rpc.(log_index) then false
      else (rpc.(call_id) =? call) || valid_rpc call rpc_first_index fly
  end.

(** The peer's log does not match at [prev_log_index]. *)
Definition find_next_index (last_log_index : Z) : RM unit :=
  _reset_next_index ;;
  modify (fun r => r <| _next_index :=
    if last_log_index + 1 <? r.(_next_index) then last_log_index + 1
    else if 1 <? r.(_next_index) then r.(_next_index) - 1 else r.(_next_index) |>) ;;
  _send_empty_entries false.

(** [while (...) pop_front()] on the RPCs in flight. *)
Fixpoint acknowledged_size (rpc_first_index : Z) (fly : list FlyingAppendEntriesRpc) : Z :=
  match fly with
  | rpc :: fly' => if rpc.(log_index) <=? rpc_first_index then rpc.(entries_size) + acknowledged_size rpc_first_index fly' else 0
  | [] => 0
  end.
Definition pop_acknowledged (rpc_first_index : Z) : RM unit :=
  modify (fun r =>
    r <| _flying_append_entries_size :=
           r.(_flying_append_entries_size) - acknowledged_size rpc_first_index r.(_append_entries_in_fly) |>
      <| _append_entries_in_fly :=
           pop_front_while (fun rpc => rpc.(log_index) <=? rpc_first_index) r.(_append_entries_in_fly) |>).

(** The follower is up to date up to the end of the request. *)
Definition replicated (request : AppendEntriesRequest) : RM unit :=
  r ← get;
  let size := zlen request.(ae_entries) in
  when (0 <? size)
    (emit (CommitAt (_min_flying_index r) (request.(ae_prev_log_index) + size) r.(_options).(peer))) ;;
  pop_acknowledged (request.(ae_prev_log_index) + 1) ;;
  modify (fun r => r <| _has_succeeded := true |>) ;;
  _notify_on_caught_up OK false ;;
  maybe_timeout_now ;;
  _send_entries.

Definition _on_rpc_returned (cntl : Controller) (request : AppendEntriesRequest)
    (response : AppendEntriesResponse) (rpc_send_time : Z) : RM unit := locked tt (
  r ← get;
  check (0 <? _min_flying_index r) ;;
  if negb (valid_rpc cntl.(cntl_call_id) (request.(ae_prev_log_index) + 1) r.(_append_entries_in_fly)) then skip
  else if Failed cntl then
    count_error ;;
    _reset_next_index ;;
    _block env.(gettimeofday_us) cntl.(ErrorCode)
  else
    clear_errors ;;
    if negb response.(ar_success) then
      if r.(_options).(opt_term) <? response.(ar_term) then
        _reset_next_index ;; quit_for_term response.(ar_term)
      else
        _update_last_rpc_send_timestamp rpc_send_time ;;
        find_next_index (default 0 response.(ar_last_log_index))
    else if negb (response.(ar_term) =? r.(_options).(opt_term)) then _reset_next_index
    else
      _update_last_rpc_send_timestamp rpc_send_time ;;
      replicated request).

Definition _on_install_snapshot_returned (cntl : Controller) (request : InstallSnapshotRequest)
    (success : bool) : RM unit := locked tt (
  _close_reader ;;
  if Failed cntl then
    count_error ;; _block env.(gettimeofday_us) cntl.(ErrorCode)
  else if negb success then _block env.(gettimeofday_us) cntl.(ErrorCode)
  else
    modify (fun r => r <| _next_index := request.(is_meta).(last_included_index) + 1 |>
                       <| _has_succeeded := true |>) ;;
    _notify_on_caught_up OK false ;;
    maybe_timeout_now ;;
    _send_entries).

(** ** Called by the node and the group *)

(** [start]: the arguments tell whether the channel can be made and an id found. *)
Definition start (o : ReplicatorOptions) (channel_ok id_ok : bool) : option Errno * option Replicator * list Event :=
  if negb channel_ok then (Some ENEG1, None, [])
  else
    let acquired := [NodeAddRef; StatusAddRef] in
    let r := (Replicator_new o) <| _next_index := env.(last_log_index) + 1 |> in
    if negb id_ok then (Some ENEG1, None, acquired ++ [NodeRelease; StatusRelease])
    else
      let '(_, r, ev) :=
        (_update_last_rpc_send_timestamp env.(monotonic_time_ms) ;;
         _start_heartbeat_timer env.(gettimeofday_us) ;;
         _send_empty_entries false) r in
      (None, Some r, acquired ++ ev).

Definition stop : RM Errno := locked OK (
  _notify_on_caught_up EPERM true ;;
  _on_error ESTOP).

(** [wait_for_caught_up]; [done] is handed over with no status set. *)
Definition wait_for_caught_up (max_margin : Z) (due_time_us : option Z) (done : Closure) : RM unit :=
  r ← get;
  if negb r.(valid_id) then emit (RunCatchup done EINVAL)
  else if bool_decide (r.(_catchup_closure) <> None) then emit (RunCatchup done EINVAL)
  else if r.(_has_succeeded) && _is_catchup r max_margin then emit (RunCatchup done OK)
  else
    let register has_timer :=
      modify (fun r => r <| _catchup_closure := Some (mkCatchupClosure done max_margin has_timer false OK) |>) in
    match due_time_us with
    | None => register false
    | Some due => if negb env.(timer_added) then emit (RunCatchup done EINVAL)
                  else emit (CatchupTimer due) ;; register true
    end.

Definition get_next_index : RM Z := locked 0 (
  r ← get; mret (if r.(_has_succeeded) then _min_flying_index r else 0)).

Definition get_consecutive_error_times : RM Z := locked (-1) (
  r ← get; mret r.(_consecutive_error_times)).

Definition _change_readonly_config (readonly : bool) : RM Errno :=
  r ← get;
  if eqb readonly (negb (r.(_readonly_index) =? 0)) then mret OK
  else if readonly then
    modify (fun r => r <| _readonly_index := env.(last_log_index) + 1 |>) ;; mret OK
  else modify (fun r => r <| _readonly_index := 0 |>) ;; _wait_more_entries ;; mret OK.
Definition change_readonly_config (readonly : bool) : RM Errno := locked OK (_change_readonly_config readonly).

Definition readonly : RM bool := locked false (r ← get; mret (negb (r.(_readonly_index) =? 0))).

End replicator.

(** [get_status]: the fields of [PeerStatus]. *)
Record PeerStatus : Set := mkPeerStatus {
  installing_snapshot : bool;
  blocking : bool;
  ps_next_index : Z;
  ps_flying_append_entries_size : Z;
  ps_last_rpc_send_timestamp : Z;
  ps_consecutive_error_times : Z;
  ps_readonly_index : Z
}.
Definition get_status : RM (option PeerStatus) := locked None (
  r ← get;
  mret (Some (mkPeerStatus (bool_decide (r.(_st).(st) = INSTALLING_SNAPSHOT))
    (bool_decide (r.(_st).(st) = BLOCKING)) r.(_next_index) r.(_flying_append_entries_size)
    r.(last_rpc_send_timestamp) r.(_consecutive_error_times) r.(_readonly_index)))).
