(* ===== verification/ReplicatorRuns.v ===== *)
(** * ReplicatorRuns: the life of a replicator

    Runs of a replicator as sequences of calls, each under its own answers of
    the parts around it, and the invariant of the pipeline: the requests in
    flight carry consecutive entries, from the first entry that is not
    acknowledged to the last one sent. *)

From S2P Require Import Prelude Types PeerText FsmCaller NodeState Replicator.

(** ** The leader's log, as a replicator sees it

    While a leader lives its log only grows at the end and is only compacted at
    the front. *)
Record env_ok (env : Env) : Prop := mkEnvOk {
  ok_last : 0 <= env.(last_log_index);
  ok_entry : forall i e, env.(get_entry) i = Some e -> env.(first_log_index) <= i <= env.(last_log_index);
  ok_compacted : forall i, env.(get_term) i = 0 -> i <> 0 -> i <= env.(last_log_index) -> i < env.(first_log_index);
  ok_snapshot : forall reader meta, env.(snapshot_open) = Some reader -> reader.(reader_meta) = Some meta ->
    0 <= meta.(last_included_index) <= env.(last_log_index)
}.

Record env_later (env env' : Env) : Prop := mkEnvLater {
  later_first : env.(first_log_index) <= env'.(first_log_index);
  later_last : env.(last_log_index) <= env'.(last_log_index);
  later_compacted : forall i, i <> 0 -> i <= env.(last_log_index) -> env.(get_term) i = 0 -> env'.(get_term) i = 0;
  later_witness : env'.(node_is_witness) = env.(node_is_witness)
}.

(** ** Calls and runs *)
Inductive Call : Set :=
| CRpcReturned (call : Z) (error : Errno) (response : AppendEntriesResponse) (rpc_send_time : Z)
| CHeartbeatReturned (cntl : Controller) (response : AppendEntriesResponse) (rpc_send_time : Z)
| CInstallSnapshotReturned (call : Z) (error : Errno) (success : bool)
| CTimeoutNowReturned (cntl : Controller) (response_term : Z) (old_leader_stepped_down : bool)
| CHeartbeatTimer
| CBlockTimedout
| CContinueSending (error_code : Errno)
| CCatchUpTimedout
| CWaitForCaughtUp (max_margin : Z) (due_time_us : option Z) (done : Closure)
| CTransferLeadership (log_index : Z)
| CStopTransferLeadership
| CSendTimeoutNowAndStop (timeout_ms : Z)
| CChangeReadonlyConfig (readonly : bool)
| CStop.

Definition sent_of (e : Event) : option (Z * AppendEntriesRequest) :=
  match e with SendAppendEntries call request => Some (call, request) | _ => None end.
Definition installed_of (e : Event) : option (Z * InstallSnapshotRequest) :=
  match e with SendInstallSnapshot call request => Some (call, request) | _ => None end.
Definition commit_of (e : Event) : option (Z * Z * PeerId) :=
  match e with CommitAt first last p => Some (first, last, p) | _ => None end.
Abbreviation sent := (omap sent_of).
Abbreviation installs := (omap installed_of).
Abbreviation commits := (omap commit_of).

Definition request_of {R} (call : Z) (requests : list (Z * R)) : option R :=
  snd <$> find (fun cq => cq.1 =? call) requests.

(** A replicator, the log it last saw, what it has done, the calls that have
    returned and those the follower acknowledged in the replicator's term. *)
Record World : Type := mkWorld {
  rep : Replicator;
  env : Env;
  done_so_far : list Event;
  answered : list Z;
  acked : list Z
}.

Section runs.
Context `{IT : IpText}.
Variable flags : Flags.

(** The function a call runs; [None] when no such request was sent. *)
Definition handler (env : Env) (tr : list Event) (c : Call) : option (RM unit) :=
  match c with
  | CRpcReturned call e response t =>
      (fun q => _on_rpc_returned flags env (mkController call e) q response t) <$> request_of call (sent tr)
  | CHeartbeatReturned cntl response t => Some (_on_heartbeat_returned env cntl response t)
  | CInstallSnapshotReturned call e success =>
      (fun q => _on_install_snapshot_returned flags env (mkController call e) q success) <$> request_of call (installs tr)
  | CTimeoutNowReturned cntl t old => Some (_on_timeout_now_returned env cntl t old)
  | CHeartbeatTimer => Some (_on_error flags env ETIMEDOUT ;; skip)
  | CBlockTimedout => Some block_timedout
  | CContinueSending e => Some (_continue_sending flags env e ;; skip)
  | CCatchUpTimedout => Some (_on_catch_up_timedout env)
  | CWaitForCaughtUp margin due done => Some (wait_for_caught_up env margin due done)
  | CTransferLeadership i => Some (transfer_leadership i ;; skip)
  | CStopTransferLeadership => Some (stop_transfer_leadership ;; skip)
  | CSendTimeoutNowAndStop ms => Some (send_timeout_now_and_stop ms ;; skip)
  | CChangeReadonlyConfig b => Some (change_readonly_config flags env b ;; skip)
  | CStop => Some (stop flags env ;; skip)
  end.

(** The call acknowledges an RPC in the term of the replicator. *)
Definition acknowledges (r : Replicator) (c : Call) : option Z :=
  match c with
  | CRpcReturned call e response _ =>
      if ok e && response.(ar_success) && (response.(ar_term) =? r.(_options).(opt_term)) then Some call else None
  | _ => None
  end.
Definition returns (c : Call) : option Z :=
  match c with
  | CRpcReturned call _ _ _ | CInstallSnapshotReturned call _ _ => Some call
  | _ => None
  end.

Definition run_call (w : World) (env : Env) (c : Call) : option World :=
  (fun m => mkWorld (state_of (m w.(rep))) env (w.(done_so_far) ++ events_of (m w.(rep)))
              (option_list (returns c) ++ w.(answered))
              (option_list (acknowledges w.(rep) c) ++ w.(acked))) <$> handler env w.(done_so_far) c.

(** What the callers guarantee.  A follower's last log index is not negative;
    an installation returns once; and, as [_send_empty_entries] checks, a block
    timer does not find RPCs in flight or an installation running with no
    waiter registered. *)
Definition call_ok (w : World) (c : Call) : Prop :=
  match c with
  | CRpcReturned _ _ response _ => 0 <= default 0 response.(ar_last_log_index)
  | CInstallSnapshotReturned call _ _ => call ∉ w.(answered)
  | CContinueSending e => e = ETIMEDOUT ->
      w.(rep).(_append_entries_in_fly) = [] /\ w.(rep).(_reader) = false \/ w.(rep).(_wait_id) <> 0
  | _ => True
  end.

Definition step (w w' : World) : Prop :=
  exists env c, env_ok env /\ env_later w.(ReplicatorRuns.env) env /\ call_ok w c /\ run_call w env c = Some w'.

Definition started (w : World) : Prop :=
  exists o r, env_ok w.(env) /\ start flags w.(env) o true true = (None, Some r, w.(done_so_far)) /\
    w.(rep) = r /\ w.(answered) = [] /\ w.(acked) = [].

Definition reachable (w : World) : Prop := exists w0, started w0 /\ rtc step w0 w.

(** ** The pipeline *)

(** The RPCs carry consecutive entries, from index [i] up to but not with [n]. *)
Fixpoint chain (i : Z) (fly : list FlyingAppendEntriesRpc) (n : Z) : Prop :=
  match fly with
  | [] => i = n
  | rpc :: fly => rpc.(log_index) = i /\ 0 <= rpc.(entries_size) /\ chain (i + rpc.(entries_size)) fly n
  end.

Definition carries (sends : list (Z * AppendEntriesRequest)) (rpc : FlyingAppendEntriesRpc) : Prop :=
  exists request, (rpc.(call_id), request) ∈ sends /\
    request.(ae_prev_log_index) + 1 = rpc.(log_index) /\ zlen request.(ae_entries) = rpc.(entries_size).

(** The entries from index [n] on can only be had by installing a snapshot. *)
Definition unreachable (env : Env) (n : Z) : Prop :=
  n < env.(first_log_index) \/ (n <> 1 /\ env.(get_term) (n - 1) = 0).

Record pipeline (env : Env) (answered : list Z) (r : Replicator) (tr : list Event) : Prop := mkPipeline {
  p_chain : chain (_min_flying_index r) r.(_append_entries_in_fly) r.(_next_index);
  p_size : 0 <= r.(_flying_append_entries_size) <= flags.(raft_max_entries_size);
  p_first : 1 <= _min_flying_index r;
  p_last : r.(_next_index) <= env.(last_log_index) + 1;
  p_sent : Forall (carries (sent tr)) r.(_append_entries_in_fly);
  p_reader : r.(_reader) = true -> r.(_append_entries_in_fly) = [] /\
    unreachable env r.(_next_index) /\ env.(node_is_witness) = false;
  p_installs : Forall (fun cq => cq.1 ∈ answered \/
    (r.(_reader) = true /\ cq.1 = r.(_install_snapshot_in_fly) /\
     0 <= cq.2.(is_meta).(last_included_index) <= env.(last_log_index))) (installs tr)
}.

(** What a report to the ballot box rests on: a request that ends at [last] was
    acknowledged, and every index reported is in a request that was sent. *)
Definition covered (sends : list (Z * AppendEntriesRequest)) (i : Z) : Prop :=
  exists call request, (call, request) ∈ sends /\
    request.(ae_prev_log_index) < i <= request.(ae_prev_log_index) + zlen request.(ae_entries).
Definition commit_ok (acked : list Z) (sends : list (Z * AppendEntriesRequest)) (p : PeerId) (c : Z * Z * PeerId) : Prop :=
  let '(first, last, q) := c in
  q = p /\ 1 <= first <= last /\
  (exists call request, call ∈ acked /\ (call, request) ∈ sends /\
    request.(ae_prev_log_index) + zlen request.(ae_entries) = last) /\
  (forall i, first <= i <= last -> covered sends i).

Record Inv (env : Env) (answered acked : list Z) (r : Replicator) (tr : list Event) : Prop := mkInv {
  i_calls : Forall (fun cq => cq.1 <= r.(calls)) (sent tr);
  i_unique : NoDup (sent tr).*1;
  i_term : Forall (fun cq => cq.2.(ae_term) = r.(_options).(opt_term)) (sent tr);
  i_small : Forall (fun cq => zlen cq.2.(ae_entries) <= flags.(raft_max_entries_size)) (sent tr);
  i_commits : Forall (commit_ok acked (sent tr) r.(_options).(peer)) (commits tr);
  i_live : r.(valid_id) = true -> pipeline env answered r tr
}.

(** ** The calls that leave the pipeline alone *)
Definition core (r : Replicator) :=
  (r.(_next_index), r.(_flying_append_entries_size), r.(_append_entries_in_fly), r.(_options)).

Record frame (r r' : Replicator) : Prop := mkFrame {
  f_core : core r' = core r;
  f_calls : r.(calls) <= r'.(calls);
  f_valid : r'.(valid_id) = true -> r.(valid_id) = true /\ r'.(_reader) = r.(_reader) /\
    r'.(_install_snapshot_in_fly) = r.(_install_snapshot_in_fly)
}.
#[export] Instance frame_preorder : PreOrder frame.
Proof.
  split; [intros r; by split|]. intros r1 r2 r3 [H1 H2 H3] [H4 H5 H6].
  split; [congruence|lia|]. intros (H7 & H8 & H9)%H6. destruct (H3 H7) as (? & ? & ?). split_and!; congruence.
Qed.

Definition quiet (e : Event) : Prop :=
  match e with SendAppendEntries _ _ | SendInstallSnapshot _ _ | CommitAt _ _ _ => False | _ => True end.

Lemma quiet_trace ev : Forall quiet ev -> sent ev = [] /\ installs ev = [] /\ commits ev = [].
Proof. induction 1 as [|e ev He Hev IH]; [done|]. by destruct e. Qed.

Lemma quiet_app tr ev : Forall quiet ev ->
  sent (tr ++ ev) = sent tr /\ installs (tr ++ ev) = installs tr /\ commits (tr ++ ev) = commits tr.
Proof. intros (H1 & H2 & H3)%quiet_trace. rewrite !omap_app, H1, H2, H3, !app_nil_r. done. Qed.

Lemma Inv_frame env answered acked r r' tr ev :
  Inv env answered acked r tr -> frame r r' -> Forall quiet ev -> Inv env answered acked r' (tr ++ ev).
Proof.
  intros [Hc Hu Ht Hsm Hcm Hl] [Hco Hca Hv] (Hs & Hi & Hm)%(quiet_app tr). injection Hco as Hn Hf Hfl Ho.
  split; rewrite ?Hs, ?Hm, ?Ho; [|done..|].
  - eapply Forall_impl; [exact Hc|]. cbn. lia.
  - intros (Hva & Hr & Hif)%Hv. destruct (Hl Hva) as [P1 P2 P3 P4 P5 P6 P7]. unfold _min_flying_index in *.
    split; unfold _min_flying_index; rewrite ?Hs, ?Hi, ?Hn, ?Hf, ?Hfl, ?Hr, ?Hif; done.
Qed.

(** Later answers, more calls returned and acknowledged. *)
Lemma Inv_later env env' answered answered' acked acked' r tr :
  Inv env answered acked r tr -> env_later env env' -> answered ⊆ answered' -> acked ⊆ acked' ->
  Inv env' answered' acked' r tr.
Proof.
  intros [Hc Hu Ht Hsm Hcm Hl] [Hfi Hla Hco Hw] Ha Hk. split; try done.
  - eapply Forall_impl; [exact Hcm|]. intros [[f l] p] (Hp & Hfl & (call & q & Hcall & Hq) & Hcov).
    split; [exact Hp|split; [exact Hfl|split; [|exact Hcov]]]. exists call, q. split; [by apply Hk|exact Hq].
  - intros [P1 P2 P3 P4 P5 P6 P7]%Hl. split; try done; [lia| |].
    + intros (? & Hun & ?)%P6. split_and!; [done| |congruence]. unfold unreachable in *.
      destruct Hun as [?|[? ?]]; [left; lia|right]. split; [done|]. apply Hco; [lia|lia|done].
    + eapply Forall_impl; [exact P7|]. cbn. intros cq [Hin|(? & ? & ?)]; [left; by apply Ha|right]. split_and!; [done..|lia|lia].
Qed.

End runs.

#[export] Hint Resolve Inv_frame : core.
Lemma frame_same r r' :
  core r' = core r -> r'.(calls) = r.(calls) -> r'.(valid_id) = r.(valid_id) -> r'.(_reader) = r.(_reader) ->
  r'.(_install_snapshot_in_fly) = r.(_install_snapshot_in_fly) -> frame r r'.
Proof. intros ? ? Hv ? ?. split; [done|lia|]. rewrite Hv. done. Qed.

Ltac frame_step := intros; apply frame_same; reflexivity.
