(* ===== verification/ReplicatorProofs.v ===== *)
(** * ReplicatorProofs: every call keeps the pipeline in order *)

From S2P Require Import Prelude Types PeerText FsmCaller NodeState Replicator ReplicatorRuns.

Create HintDb rep discriminated.

Ltac rep_obey :=
  repeat first
    [ obey_step
    | match goal with
      | |- obeys _ _ (check _) => unfold check
      | |- obeys _ _ (modify _) => apply obeys_modify; intros; apply frame_same; reflexivity
      | |- quiet _ => exact I
      end
    | solve [eauto with rep] ].

Section frames.
Context `{IT : IpText}.
Variable flags : Flags.
Variable env : Env.
Abbreviation still := (obeys frame quiet).

Lemma still_new_controller : still new_controller.
Proof. unfold new_controller. rep_obey. apply obeys_modify. intros r. split; [done|cbn; lia|done]. Qed.
Hint Resolve still_new_controller : rep.

Lemma still_update_timestamp t : still (_update_last_rpc_send_timestamp t).
Proof. unfold _update_last_rpc_send_timestamp. rep_obey. Qed.
Lemma still_run_catchup c : still (run_catchup_closure c).
Proof. unfold run_catchup_closure. rep_obey. Qed.
Hint Resolve still_run_catchup : rep.
Lemma still_notify e b : still (_notify_on_caught_up env e b).
Proof. unfold _notify_on_caught_up. rep_obey. Qed.
Hint Resolve still_notify still_update_timestamp : rep.

(** After the id is destroyed nothing is left to keep. *)
Lemma still_destroy : still (_destroy env).
Proof.
  intros r. unfold _destroy, _close_reader. run.
  destruct (_reader _); [destruct (env.(snapshot_throttle))|]; cbn; (split; [by split|by repeat constructor]).
Qed.
Hint Resolve still_destroy : rep.
Lemma still_quit t : still (quit_for_term env t).
Proof. unfold quit_for_term. rep_obey. Qed.
Lemma still_wait_more : still (_wait_more_entries flags env).
Proof. unfold _wait_more_entries, set_st. rep_obey. Qed.
Lemma still_heartbeat_timer t : still (_start_heartbeat_timer env t).
Proof. unfold _start_heartbeat_timer. rep_obey. Qed.
Lemma still_timeout_now b ms : still (_send_timeout_now b ms).
Proof. unfold _send_timeout_now. rep_obey. Qed.
Hint Resolve still_quit still_wait_more still_heartbeat_timer still_timeout_now : rep.
Lemma still_maybe_timeout_now : still maybe_timeout_now.
Proof. unfold maybe_timeout_now. rep_obey. Qed.
Lemma still_count_error : still count_error.
Proof. unfold count_error. rep_obey. Qed.
Lemma still_clear_errors : still clear_errors.
Proof. unfold clear_errors. rep_obey. Qed.
Lemma still_set_st s : still (set_st s).
Proof. unfold set_st. rep_obey. Qed.
Hint Resolve still_maybe_timeout_now still_count_error still_clear_errors still_set_st : rep.

Lemma still_locked {A} (a : A) (m : RM A) : still m -> still (locked a m).
Proof. intros Hm. unfold locked. rep_obey. Qed.

Lemma still_prepare_entry i buf : still (_prepare_entry flags env i buf).
Proof. unfold _prepare_entry. rep_obey. Qed.
Hint Resolve still_prepare_entry : rep.
Lemma still_prepare n i buf : still (prepare_entries flags env n i buf).
Proof. revert i buf. induction n as [|n IH]; intros i buf; cbn [prepare_entries]; rep_obey; apply IH. Qed.

Lemma still_fill i b : still (_fill_common_fields env i b).
Proof. unfold _fill_common_fields. rep_obey. Qed.

Lemma still_heartbeat_rpc q : still (send_heartbeat_rpc env q).
Proof. unfold send_heartbeat_rpc. rep_obey. Qed.
Hint Resolve still_prepare still_fill still_heartbeat_rpc : rep.

(** Heartbeats are always sent. *)
Lemma still_send_heartbeat : still (_send_empty_entries flags env true).
Proof.
  unfold _send_empty_entries, send_empty_entries_or. apply obeys_get_bind. intros r.
  unfold _fill_common_fields. run. destruct (_ && _); cbn [negb];
    match goal with |- context [send_heartbeat_rpc env ?q] => pose proof (still_heartbeat_rpc q r) as H end;
    unfold state_of, events_of in H; destruct (send_heartbeat_rpc _ _ _) as [[a s] e]; exact H.
Qed.
Hint Resolve still_send_heartbeat : rep.

Lemma still_heartbeat_returned c q t : still (_on_heartbeat_returned env c q t).
Proof. unfold _on_heartbeat_returned. apply still_locked. rep_obey. Qed.
Lemma still_timeout_now_returned c t b : still (_on_timeout_now_returned env c t b).
Proof. unfold _on_timeout_now_returned. apply still_locked. rep_obey. Qed.
Lemma still_block_timedout : still block_timedout.
Proof. apply still_locked, still_set_st. Qed.
Lemma still_catch_up_timedout : still (_on_catch_up_timedout env).
Proof. unfold _on_catch_up_timedout. apply still_locked, still_notify. Qed.
Lemma still_wait_for_caught_up m d c : still (wait_for_caught_up env m d c).
Proof. unfold wait_for_caught_up. rep_obey. Qed.
Lemma still_transfer i : still (transfer_leadership i).
Proof. unfold transfer_leadership, _transfer_leadership. apply still_locked. rep_obey. Qed.
Lemma still_stop_transfer : still stop_transfer_leadership.
Proof. unfold stop_transfer_leadership. apply still_locked. rep_obey. Qed.
Lemma still_timeout_now_and_stop ms : still (send_timeout_now_and_stop ms).
Proof. unfold send_timeout_now_and_stop. apply still_locked. rep_obey. Qed.
Lemma still_change_readonly b : still (change_readonly_config flags env b).
Proof. unfold change_readonly_config, _change_readonly_config. apply still_locked. rep_obey. Qed.
End frames.

#[export] Hint Resolve still_new_controller still_update_timestamp still_notify still_destroy still_quit still_wait_more
  still_heartbeat_timer still_timeout_now still_maybe_timeout_now still_count_error still_clear_errors still_set_st
  still_prepare still_send_heartbeat : rep.

(** ** Chains of RPCs *)
Lemma chain_le i fly n : chain i fly n -> i <= n.
Proof. revert i. induction fly as [|rpc fly IH]; intros i; cbn; [lia|]. intros (_ & ? & ?%IH). lia. Qed.

Lemma chain_member i fly n rpc : chain i fly n -> rpc ∈ fly ->
  i <= rpc.(log_index) /\ 0 <= rpc.(entries_size) /\ rpc.(log_index) + rpc.(entries_size) <= n.
Proof.
  revert i. induction fly as [|r fly IH]; intros i; cbn; [by intros _ ?%elem_of_nil|].
  intros (Hi & Hs & Hc) [->|Hin]%elem_of_cons.
  - pose proof (chain_le _ _ _ Hc). lia.
  - destruct (IH _ Hc Hin) as (? & ? & ?). lia.
Qed.

Lemma chain_snoc i fly n size call : chain i fly n -> 0 <= size -> chain i (fly ++ [mkFlying n size call]) (n + size).
Proof.
  revert i. induction fly as [|r fly IH]; intros i; cbn; [by intros ->|]. intros (Hi & Hs & Hc) ?.
  split_and!; [done..|]. by apply IH.
Qed.

Lemma chain_pop i fly n k : chain i fly n ->
  0 <= acknowledged_size k fly /\
  chain (i + acknowledged_size k fly) (pop_front_while (fun rpc => rpc.(log_index) <=? k) fly) n.
Proof.
  revert i. induction fly as [|r fly IH]; intros i; cbn [chain acknowledged_size pop_front_while].
  { intros ->. split; [lia|]. cbn. lia. }
  intros (Hi & Hs & Hc). destruct (log_index r <=? k).
  - destruct (IH _ Hc) as [? Hc']. split; [lia|]. by rewrite Z.add_assoc.
  - split; [lia|]. rewrite Z.add_0_r. cbn. done.
Qed.

Lemma pop_front_while_subset {A} (p : A -> bool) l x : x ∈ pop_front_while p l -> x ∈ l.
Proof.
  induction l as [|a l IH]; cbn; [done|]. destruct (p a); [|done]. intros ?. apply list_elem_of_further. auto.
Qed.

Lemma chain_covered sends i fly n j : chain i fly n -> Forall (carries sends) fly -> i <= j < n -> covered sends j.
Proof.
  revert i. induction fly as [|r fly IH]; intros i; cbn; [intros ->; lia|].
  intros (Hi & Hs & Hc) Hall Hj. inversion Hall as [|? ? (q & Hq & Hp & Hz) Hall']; subst.
  destruct (decide (j < r.(log_index) + r.(entries_size))).
  - exists r.(call_id), q. split; [done|lia].
  - eapply IH; [exact Hc|done|lia].
Qed.

Lemma carries_mono sends sends' rpc : sends ⊆ sends' -> carries sends rpc -> carries sends' rpc.
Proof. intros Hs (q & Hq & ?). exists q. split; [by apply Hs|done]. Qed.
Lemma commit_ok_mono acked sends sends' p c : sends ⊆ sends' -> commit_ok acked sends p c -> commit_ok acked sends' p c.
Proof.
  destruct c as [[f l] q]. intros Hs (? & ? & (call & rq & ? & ? & ?) & Hcov).
  split; [done|split; [done|split]].
  - exists call, rq. split_and!; [done|by apply Hs|done].
  - intros i Hi. destruct (Hcov i Hi) as (c & r & ? & ?). exists c, r. split; [by apply Hs|done].
Qed.

Lemma request_of_elem {R} call (rs : list (Z * R)) q : request_of call rs = Some q -> (call, q) ∈ rs.
Proof.
  unfold request_of. induction rs as [|[c r] rs IH]; cbn; [done|].
  destruct (Z.eqb_spec c call) as [->|]; cbn; [intros [= ->]; apply list_elem_of_here|].
  intros ?. apply list_elem_of_further. auto.
Qed.

Lemma unique_call {R} (rs : list (Z * R)) c q q' : NoDup rs.*1 -> (c, q) ∈ rs -> (c, q') ∈ rs -> q = q'.
Proof.
  induction rs as [|[d r] rs IH]; cbn; [by intros _ ?%elem_of_nil|].
  intros [Hd Hn]%NoDup_cons H1 H2.
  assert (forall x, (d, x) ∈ rs -> False) as Habs.
  { intros x Hx. apply Hd. apply list_elem_of_fmap. by exists (d, x). }
  apply elem_of_cons in H1 as [H1|H1]; apply elem_of_cons in H2 as [H2|H2]; simplify_eq; try done; try (exfalso; by eapply Habs).
  by apply IH.
Qed.

Lemma valid_rpc_flying call k fly : valid_rpc call k fly = true -> exists rpc, rpc ∈ fly /\ rpc.(call_id) = call.
Proof.
  induction fly as [|r fly IH]; cbn; [done|]. destruct (k <? log_index r); [done|].
  intros [Hc%Z.eqb_eq|Hv]%orb_prop; [exists r; split; [apply list_elem_of_here|done]|].
  destruct (IH Hv) as (rpc & ? & ?). exists rpc. split; [by apply list_elem_of_further|done].
Qed.

Lemma subseteq_app_l {A} (l k : list A) : l ⊆ l ++ k.
Proof. intros x Hx. apply elem_of_app. by left. Qed.

Lemma mapM_emit {S E A} (f : A -> E) (l : list A) (s : S) : mapM_ (fun x => emit (f x)) l s = (tt, s, map f l).
Proof. induction l as [|x l IH]; [done|]. rewrite mapM_cons, emit_bind, IH. done. Qed.

(** ** The entries of a request *)
Section prepare.
Context `{IT : IpText}.
Variable flags : Flags.
Variable env : Env.

Lemma prepare_entry_spec i buf r :
  (exists x, state_of (_prepare_entry flags env i buf r) = r <| _readonly_index := x |>) /\
  match value_of (_prepare_entry flags env i buf r) with
  | inl _ => True
  | inr p => exists e, env.(get_entry) (r.(_next_index) + i) = Some e /\
      p = (meta_of (sends_data flags r) e, if sends_data flags r then buf ++ e.(data) else buf)
  end.
Proof.
  assert (exists x, r = r <| _readonly_index := x |>) as Hsame by (by exists r.(_readonly_index); destruct r).
  unfold _prepare_entry. destruct (_ <=? _); [by split|]. rewrite get_bind.
  destruct (env.(get_entry) _) as [e|]; [|by split].
  destruct (_ && negb _); [by split|]. unfold check.
  destruct (_ && _), (entry_checks e); run; cbn; (split; [|by exists e]); try done; by eexists.
Qed.

Lemma prepare_spec n i buf r :
  (exists x, state_of (prepare_entries flags env n i buf r) = r <| _readonly_index := x |>) /\
  exists es, (value_of (prepare_entries flags env n i buf r)).1 =
      (map (meta_of (sends_data flags r)) es, buf ++ (if sends_data flags r then mjoin (map data es) else [])) /\
    (forall k e, es !! k = Some e -> env.(get_entry) (r.(_next_index) + i + Z.of_nat k) = Some e) /\
    (length es <= n)%nat.
Proof.
  revert i buf r. induction n as [|n IH]; intros i buf r; cbn [prepare_entries].
  { split; [by exists r.(_readonly_index); destruct r|]. exists []. cbn. split_and!; [|done..].
    by destruct (sends_data _ _); rewrite app_nil_r. }
  destruct (prepare_entry_spec i buf r) as [[x Hx] Hv]. unfold mbind, M_bind, state_of, value_of in *.
  destruct (_prepare_entry flags env i buf r) as [[v r1] ev1]. cbn in Hx, Hv. subst r1.
  destruct v as [rc|[em buf1]].
  { cbn. split; [by exists x|]. exists []. cbn. split_and!; [|done|lia]. by destruct (sends_data _ _); rewrite app_nil_r. }
  destruct Hv as (e & He & [= -> ->]).
  destruct (IH (i + 1) (if sends_data flags r then buf ++ data e else buf) (r <| _readonly_index := x |>))
    as [[y Hy] (es & Hes & Hget & Hlen)].
  destruct (prepare_entries flags env n (i + 1) _ _) as [[[[ems buf2] rc] r2] ev2]. cbn in Hy, Hes |- *.
  split; [by exists y; rewrite Hy|]. exists (e :: es). cbn in Hget |- *. split_and!; [|intros [|k] e'; cbn|lia].
  - injection Hes as -> ->. change (sends_data flags (r <| _readonly_index := x |>)) with (sends_data flags r).
    destruct (sends_data _ _); [by rewrite <- app_assoc|done].
  - intros [= <-]. by rewrite Z.add_0_r.
  - intros Hk. rewrite <- (Hget _ _ Hk). f_equal. lia.
Qed.
End prepare.

(** ** The invariant through the calls that send *)
Section keeping.
Context `{IT : IpText}.
Variable flags : Flags.
Variable env : Env.
Hypothesis Hok : env_ok env.
Variable answered acked : list Z.
Abbreviation inv := (Inv flags env answered acked).

Lemma wpt_still {A} (m : RM A) Q r tr :
  obeys frame quiet m -> inv r tr -> (forall a r' tr', inv r' tr' -> frame r r' -> Q a r' tr') -> wpt m Q r tr.
Proof. intros Hm Hi HQ. eapply wpt_obeys; [exact Hm|]. intros a r' ev Hf He. apply HQ; [by eapply Inv_frame|done]. Qed.

Lemma inv_pipeline r tr : inv r tr -> r.(valid_id) = true -> pipeline flags env answered r tr.
Proof. intros Hi. apply (i_live _ _ _ _ _ _ Hi). Qed.

Lemma idle_size r tr : inv r tr -> r.(valid_id) = true -> r.(_append_entries_in_fly) = [] ->
  r.(_flying_append_entries_size) = 0.
Proof.
  intros Hi Hv Hf. pose proof (p_chain _ _ _ _ _ (inv_pipeline _ _ Hi Hv)) as Hc. rewrite Hf in Hc.
  cbn in Hc. unfold _min_flying_index in Hc. lia.
Qed.

Lemma wpt_reset Q r tr :
  inv r tr -> r.(valid_id) = true ->
  (forall r' tr', inv r' tr' -> r'.(valid_id) = true -> r'.(_append_entries_in_fly) = [] ->
    r'.(_next_index) = _min_flying_index r -> r'.(_reader) = r.(_reader) -> r'.(_options) = r.(_options) -> Q tt r' tr') ->
  wpt _reset_next_index Q r tr.
Proof.
  intros Hi Hv HQ.
  destruct (inv_pipeline _ _ Hi Hv) as [P1 P2 P3 P4 P5 P6 P7].
  assert (forall r' ev, Forall quiet ev -> r' = r <| _next_index := _min_flying_index r |>
    <| _flying_append_entries_size := 0 |> <| _append_entries_in_fly := [] |> <| _is_waiter_canceled := true |>
    <| _wait_id := 0 |> -> Q tt r' (tr ++ ev)) as Hend.
  { intros r' ev (Hs & Hin & Hcm)%(quiet_app tr) ->. apply HQ; try done.
    destruct Hi as [H1 H2 H3 H4 H5 _]. split; rewrite ?Hs, ?Hcm; try done.
    intros _. unfold _min_flying_index in *.
    split; unfold _min_flying_index; rewrite ?Hs, ?Hin; cbn; try done; try lia.
    intros Hr. destruct (P6 Hr) as (Hf & Hun & Hw). rewrite Hf in P1. cbn in P1.
    rewrite P1. done. }
  assert (forall l, Forall quiet (map (fun rpc => StartCancel rpc.(call_id)) l)) as Hq.
  { intros l. apply Forall_map, Forall_forall. intros rpc _. exact I. }
  unfold _reset_next_index, _cancel_append_entries_rpcs. wpt_go.
  unfold wpt at 1, value_of, state_of, events_of. rewrite mapM_emit. wpt_go.
  - cbn. rewrite <- app_assoc. apply Hend; [|done]. apply Forall_app. split; [apply Hq|by repeat constructor].
  - apply Hend; [apply Hq|]. cbn in *. apply negb_false_iff, Z.eqb_eq in H. destruct r; cbn in *. by subst.
Qed.

(** A request that continues the pipeline. *)
Lemma Inv_send r r' tr q :
  inv r tr -> r.(valid_id) = true -> r.(_reader) = false -> frame (r <| _next_index := r'.(_next_index) |>
    <| _flying_append_entries_size := r'.(_flying_append_entries_size) |>
    <| _append_entries_in_fly := r'.(_append_entries_in_fly) |>) r' ->
  r.(calls) < r'.(calls) ->
  r'.(_next_index) = r.(_next_index) + zlen q.(ae_entries) ->
  r'.(_flying_append_entries_size) = r.(_flying_append_entries_size) + zlen q.(ae_entries) ->
  r'.(_append_entries_in_fly) =
    r.(_append_entries_in_fly) ++ [mkFlying r.(_next_index) (zlen q.(ae_entries)) r'.(calls)] ->
  q.(ae_prev_log_index) = r.(_next_index) - 1 -> q.(ae_term) = r.(_options).(opt_term) ->
  r'.(_flying_append_entries_size) <= flags.(raft_max_entries_size) ->
  r'.(_next_index) <= env.(last_log_index) + 1 ->
  inv r' (tr ++ [SendAppendEntries r'.(calls) q]).
Proof.
  intros Hi Hv Hrd [Hco Hca Hva] Hc Hn Hf Hfl Hp Ht Hmax Hlast.
  destruct (inv_pipeline _ _ Hi Hv) as [P1 P2 P3 P4 P5 P6 P7]. destruct Hi as [H1 H2 H3 H4 H5 _].
  unfold core in Hco. cbn in Hco. injection Hco as Ho. cbn in Hva.
  pose proof (zlen_nonneg q.(ae_entries)).
  split; rewrite ?omap_app; cbn; rewrite ?app_nil_r, ?Ho.
  - apply Forall_app. split; [|by constructor]. eapply Forall_impl; [exact H1|]. cbn. lia.
  - rewrite fmap_app. apply NoDup_app. split_and!; [done| |apply NoDup_singleton].
    intros c (cq & -> & Hin)%list_elem_of_fmap Hc'%list_elem_of_singleton.
    rewrite Forall_forall in H1. specialize (H1 _ Hin). cbn in H1, Hc'. lia.
  - apply Forall_app. split; [done|by constructor].
  - apply Forall_app. split; [done|]. constructor; [cbn; lia|done].
  - eapply Forall_impl; [exact H5|]. intros c. apply commit_ok_mono, subseteq_app_l.
  - intros (_ & Hr & Hif)%Hva. unfold _min_flying_index in *.
    split; unfold _min_flying_index; rewrite ?omap_app; cbn; rewrite ?app_nil_r, ?Hr, ?Hif, ?Hrd; try done; try lia.
    + rewrite Hn, Hf, Hfl. replace (_ + _ - _) with (r.(_next_index) - r.(_flying_append_entries_size)) by lia.
      by apply chain_snoc.
    + rewrite Hfl. apply Forall_app. split.
      * eapply Forall_impl; [exact P5|]. intros rpc. apply carries_mono, subseteq_app_l.
      * constructor; [|done]. exists q. cbn. split_and!; [apply elem_of_app; right; apply list_elem_of_here|lia|done].
    + rewrite Hrd in P7. done.
Qed.

Lemma wpt_fill Q r tr :
  inv r tr ->
  (forall tr', inv r tr' -> env.(get_term) (r.(_next_index) - 1) = 0 -> r.(_next_index) <> 1 -> Q None r tr') ->
  (forall q, (env.(get_term) (r.(_next_index) - 1) = 0 -> r.(_next_index) = 1) ->
    q.(ae_prev_log_index) = r.(_next_index) - 1 -> q.(ae_term) = r.(_options).(opt_term) -> q.(ae_entries) = [] ->
    Q (Some q) r tr) ->
  wpt (_fill_common_fields env (r.(_next_index) - 1) false) Q r tr.
Proof.
  intros Hi Hnone Hsome. unfold _fill_common_fields. wpt_go.
  destruct (Z.eqb_spec (env.(get_term) (r.(_next_index) - 1)) 0) as [Hz|Hz]; cbn [andb].
  2: { apply wpt_ret, Hsome; try done. }
  destruct (Z.eqb_spec (r.(_next_index) - 1) 0) as [Hn|Hn]; cbn [negb].
  { apply wpt_ret, Hsome; try done. lia. }
  unfold check. wpt_go.
  destruct (_ <? _); wpt_go; (apply Hnone; [|done|lia]); [done|].
  eapply Inv_frame; [exact Hi|reflexivity|by repeat constructor].
Qed.

(** The last state and the events of an operation, and no more. *)
Abbreviation keeps := (fun (_ : unit) r' tr' => inv r' tr').

Lemma probe_keeps r tr q :
  inv r tr -> r.(valid_id) = true -> r.(_append_entries_in_fly) = [] -> r.(_reader) = false ->
  q.(ae_prev_log_index) = r.(_next_index) - 1 -> q.(ae_term) = r.(_options).(opt_term) -> q.(ae_entries) = [] ->
  wpt (send_probe_rpc q) keeps r tr.
Proof.
  intros Hi Hv Hf Hr Hp Ht He. pose proof (idle_size _ _ Hi Hv Hf) as Hs.
  destruct (inv_pipeline _ _ Hi Hv) as [P1 P2 P3 P4 _ _ _].
  unfold send_probe_rpc, new_controller, check. wpt_go. cbn. rewrite Hf, Hs, bool_decide_true by done. cbn. wpt_go.
  match goal with |- Inv _ _ _ _ ?r' _ =>
    change (inv r' (tr ++ [SendAppendEntries r'.(calls) q]));
    apply (Inv_send r r' tr q); [done|done|done|split; [done|cbn; lia|done]|..] end.
  all: cbn; rewrite ?He, ?Hf, ?Hs; try done; change (zlen (@nil EntryMeta)) with 0; lia.
Qed.

Definition blocks (block : Z -> Errno -> RM unit) : Prop := forall t e r tr,
  inv r tr -> r.(valid_id) = true -> r.(_append_entries_in_fly) = [] -> r.(_reader) = false ->
  wpt (block t e) keeps r tr.

Lemma snapshot_error_keeps r tr : inv r tr -> wpt snapshot_error keeps r tr.
Proof.
  intros Hi. eapply wpt_still; [|exact Hi|auto]. unfold snapshot_error. rep_obey.
Qed.

(** With nothing in flight and the next entry compacted, a reader can be open. *)
Lemma Inv_reader r tr (b : bool) :
  inv r tr -> r.(_append_entries_in_fly) = [] -> unreachable env r.(_next_index) -> env.(node_is_witness) = false ->
  (r.(_reader) = true -> b = true) -> inv (r <| _reader := b |>) tr.
Proof.
  intros [H1 H2 H3 H4 H5 Hl] Hf Hun Hw Hb. split; try done. cbn. intros [P1 P2 P3 P4 P5 P6 P7]%Hl. split; try done.
  eapply Forall_impl; [exact P7|]. intros cq [Hin|(Hr & ? & ?)]; [by left|right]. cbn. by rewrite (Hb Hr).
Qed.

Lemma Inv_install r tr meta q :
  inv r tr -> r.(_reader) = true -> 0 <= meta.(last_included_index) <= env.(last_log_index) -> q.(is_meta) = meta ->
  (r.(valid_id) = true -> Forall (fun cq => cq.1 ∈ answered) (installs tr)) ->
  forall r', core r' = core r -> r'.(calls) = r.(calls) + 1 -> r'.(valid_id) = r.(valid_id) -> r'.(_reader) = true ->
  r'.(_install_snapshot_in_fly) = r.(calls) + 1 ->
  inv r' (tr ++ [SendInstallSnapshot (r.(calls) + 1) q]).
Proof.
  intros [H1 H2 H3 H4 H5 Hl] Hr Hm <- Hans r' [= Hn Hf Hfl Ho] Hc Hv Hr' Hif.
  split; rewrite ?omap_app; cbn; rewrite ?app_nil_r, ?Ho; try done.
  - eapply Forall_impl; [exact H1|]. cbn. lia.
  - rewrite Hv. intros Hva. destruct (Hl Hva) as [P1 P2 P3 P4 P5 P6 P7]. unfold _min_flying_index in *.
    split; unfold _min_flying_index; rewrite ?omap_app; cbn; rewrite ?app_nil_r, ?Hn, ?Hf, ?Hfl; try done; [intros _; by apply P6|].
    apply Forall_app. split; [|constructor; [right; by rewrite Hif|done]].
    eapply Forall_impl; [by apply Hans|]. intros cq ?. by left.
Qed.

(** No installation is waited for when no reader is open. *)
Lemma no_reader_answered r tr : inv r tr -> r.(valid_id) = true -> r.(_reader) = false ->
  Forall (fun cq => cq.1 ∈ answered) (installs tr).
Proof.
  intros Hi Hv Hr. eapply Forall_impl; [exact (p_installs _ _ _ _ _ (inv_pipeline _ _ Hi Hv))|].
  intros cq [?|[? _]]; congruence.
Qed.

Lemma wpt_close_reader Q r tr :
  r.(_reader) = true -> (forall ev, Forall quiet ev -> Q tt (r <| _reader := false |>) (tr ++ ev)) ->
  wpt (_close_reader env) Q r tr.
Proof.
  intros Hr HQ. unfold _close_reader. wpt_go; [|congruence].
  destruct (env.(snapshot_throttle)); wpt_go; rewrite <- ?app_assoc; apply HQ; by repeat constructor.
Qed.

Lemma install_from_keeps block reader r0 r tr :
  blocks block -> inv r0 tr -> r0.(valid_id) = true -> r0.(_append_entries_in_fly) = [] -> r0.(_reader) = false ->
  unreachable env r0.(_next_index) -> env.(node_is_witness) = false ->
  env.(snapshot_open) = Some reader -> frame r0 (r <| _reader := false |>) -> r.(_reader) = true -> r.(valid_id) = true ->
  wpt (install_from env block reader) keeps r tr.
Proof.
  intros Hb Hi Hv Hf Hr Hun Hw Ho Hfr Hrr Hrv. pose proof Hfr as [Hco Hca _]. unfold core in Hco. cbn in Hco.
  injection Hco as Hn' Hf' Hfl' Ho'.
  assert (inv (r <| _reader := false |>) tr) as Hi'.
  { rewrite <- (app_nil_r tr). by eapply Inv_frame. }
  unfold install_from. case_bool_decide as Hu.
  - wpt_go. apply wpt_close_reader; [done|]. intros ev Hev. apply Hb; cbn; [|done|by rewrite Hfl'|done].
    eapply Inv_frame; [exact Hi'|done|done].
  - destruct (reader_meta reader) as [meta|] eqn:Hm.
    + assert (inv r tr) as Hir.
      { replace r with ((r <| _reader := false |>) <| _reader := true |>) by (destruct r; cbn in *; by subst).
        apply Inv_reader; cbn; rewrite ?Hfl', ?Hn'; done. }
      unfold new_controller. wpt_go. cbn. eapply (Inv_install r tr meta); try done; cbn.
      * by apply (ok_snapshot _ Hok reader).
      * intros _. by apply (no_reader_answered r0).
    + apply snapshot_error_keeps.
      replace r with ((r <| _reader := false |>) <| _reader := true |>) by (destruct r; cbn in *; by subst).
      apply Inv_reader; cbn; rewrite ?Hfl', ?Hn'; done.
Qed.

Lemma install_keeps block r tr :
  blocks block -> inv r tr -> r.(valid_id) = true -> r.(_append_entries_in_fly) = [] ->
  unreachable env r.(_next_index) -> wpt (install_snapshot_or env block) keeps r tr.
Proof.
  intros Hb Hi Hv Hf Hun. unfold install_snapshot_or. wpt_go.
  destruct env.(node_is_witness) eqn:Hw.
  { apply Hb; [done..|]. destruct r.(_reader) eqn:Hr; [|done].
    destruct (p_reader _ _ _ _ _ (inv_pipeline _ _ Hi Hv) Hr) as (_ & _ & ?). congruence. }
  destruct r.(_reader) eqn:Hr; [by wpt_go|].
  case_bool_decide; [by apply Hb|].
  wpt_go. unfold set_st. wpt_go.
  destruct env.(snapshot_open) as [reader|] eqn:Ho.
  - wpt_go. eapply install_from_keeps; try done.
  - wpt_go. destruct env.(snapshot_throttle); wpt_go; apply snapshot_error_keeps;
      rewrite <- ?app_assoc; (eapply Inv_frame || idtac); try exact Hi; try frame_step; try by repeat constructor.
    rewrite <- (app_nil_r tr). eapply Inv_frame; [exact Hi|frame_step|done].
Qed.

Lemma send_empty_keeps block r tr :
  blocks block -> inv r tr -> r.(valid_id) = true -> r.(_append_entries_in_fly) = [] -> r.(_reader) = false ->
  wpt (send_empty_entries_or env (install_snapshot_or env block) false) keeps r tr.
Proof.
  intros Hb Hi Hv Hf Hr. unfold send_empty_entries_or. wpt_go. apply wpt_fill; [done| |].
  - intros tr' Hi' Hz Hn. cbn [negb check]. unfold check. wpt_go. apply install_keeps; [done..|by right].
  - intros q Hz Hp Ht He. by apply probe_keeps.
Qed.

Lemma block_keeps n : blocks (block_after flags env n).
Proof.
  induction n as [|n IH]; intros t e r tr Hi Hv Hf Hr; cbn [block_after]; wpt_go; case_bool_decide; try by wpt_go.
  - unfold set_st. wpt_go. eapply Inv_frame; [exact Hi|frame_step|by repeat constructor].
  - by apply send_empty_keeps.
Qed.

Lemma install_snapshot_keeps r tr :
  inv r tr -> r.(valid_id) = true -> r.(_append_entries_in_fly) = [] ->
  unreachable env r.(_next_index) -> wpt (_install_snapshot flags env) keeps r tr.
Proof. intros. by apply install_keeps; [apply block_keeps|..]. Qed.
Lemma send_probe_keeps r tr :
  inv r tr -> r.(valid_id) = true -> r.(_append_entries_in_fly) = [] -> r.(_reader) = false ->
  wpt (_send_empty_entries flags env false) keeps r tr.
Proof. intros. by apply send_empty_keeps; [apply block_keeps|..]. Qed.

Lemma still_keeps {A} (m : RM A) r tr : obeys frame quiet m -> inv r tr -> wpt m (fun _ r' tr' => inv r' tr') r tr.
Proof. intros Hm Hi. eapply wpt_still; [exact Hm|exact Hi|auto]. Qed.

Lemma send_rpc_keeps r tr q ems buf :
  inv r tr -> r.(valid_id) = true -> r.(_reader) = false ->
  q.(ae_prev_log_index) = r.(_next_index) - 1 -> q.(ae_term) = r.(_options).(opt_term) ->
  r.(_flying_append_entries_size) + zlen ems <= flags.(raft_max_entries_size) ->
  r.(_next_index) + zlen ems <= env.(last_log_index) + 1 ->
  wpt (send_rpc flags env q ems buf) keeps r tr.
Proof.
  intros Hi Hv Hr Hp Ht Hmax Hlast. unfold send_rpc, new_controller. wpt_go.
  apply still_keeps; [apply still_wait_more|]. cbn.
  match goal with |- Inv _ _ _ _ ?r' (_ ++ [SendAppendEntries _ ?q']) =>
    change (inv r' (tr ++ [SendAppendEntries r'.(calls) q']));
    apply (Inv_send r r' tr q'); [done|done|done|split; [done|cbn; lia|done]|..] end.
  all: cbn; try done; lia.
Qed.

(** After a reset the next entry is still out of reach. *)
Lemma unreachable_reset r tr : inv r tr -> r.(valid_id) = true -> unreachable env r.(_next_index) ->
  unreachable env (_min_flying_index r).
Proof.
  intros Hi Hv Hun. destruct (inv_pipeline _ _ Hi Hv) as [P1 P2 P3 P4 _ _ _]. unfold unreachable, _min_flying_index in *.
  destruct (decide (r.(_flying_append_entries_size) = 0)) as [->|]; [by rewrite Z.sub_0_r|]. left.
  destruct Hun as [?|[? Hz]]; [lia|]. pose proof (ok_compacted _ Hok _ Hz ltac:(lia) ltac:(lia)). lia.
Qed.

Lemma reset_and_install r tr : inv r tr -> r.(valid_id) = true -> unreachable env r.(_next_index) ->
  wpt (_reset_next_index ;; _install_snapshot flags env) keeps r tr.
Proof.
  intros Hi Hv Hun. wpt_go. apply wpt_reset; [done..|]. intros r' tr' Hi' Hv' Hf' Hn' Hr' Ho'.
  apply install_snapshot_keeps; try done. rewrite Hn'. by eapply unreachable_reset.
Qed.

Lemma nothing_to_send_keeps r tr rc : inv r tr -> r.(valid_id) = true -> wpt (nothing_to_send flags env rc) keeps r tr.
Proof.
  intros Hi Hv. unfold nothing_to_send. apply wpt_bind, wpt_get.
  destruct (Z.ltb_spec r.(_next_index) env.(first_log_index)); [by apply reset_and_install; [..|left]|].
  case_bool_decide; (apply still_keeps; [|done]); [apply obeys_when, still_set_st; exact _|apply still_wait_more].
Qed.

Lemma wpt_prepare Q n r tr :
  inv r tr ->
  (forall x es rc tr', inv (r <| _readonly_index := x |>) tr' ->
    (forall k e, es !! k = Some e -> env.(get_entry) (r.(_next_index) + Z.of_nat k) = Some e) -> (length es <= n)%nat ->
    Q (map (meta_of (sends_data flags r)) es, if sends_data flags r then mjoin (map data es) else [], rc)
      (r <| _readonly_index := x |>) tr') ->
  wpt (prepare_entries flags env n 0 []) Q r tr.
Proof.
  intros Hi HQ. destruct (prepare_spec flags env n 0 [] r) as [[x Hx] (es & Hes & Hget & Hlen)].
  destruct (still_prepare flags env n 0 [] r) as [Hf He].
  unfold wpt. rewrite Hx in *. destruct (value_of _) as [p rc]. cbn in Hes. subst p. apply HQ; [|by setoid_rewrite Z.add_0_r in Hget|done].
  by eapply Inv_frame.
Qed.

Lemma send_entries_keeps r tr : inv r tr -> r.(valid_id) = true -> wpt (_send_entries flags env) keeps r tr.
Proof.
  intros Hi Hv. unfold _send_entries. apply wpt_bind, wpt_get. destruct (negb _ || _) eqn:Hcan; [by wpt_go|].
  apply wpt_bind, wpt_fill; [done|by intros; apply reset_and_install; [..|right]|].
  intros q Hz Hp Ht He. apply orb_false_iff in Hcan as [Hcan _]. apply negb_false_iff, andb_prop in Hcan as [Hsz%Z.ltb_lt _].
  apply wpt_bind, wpt_prepare; [done|]. intros x es rc tr' Hi' Hget Hlen.
  case_bool_decide as Hem; [by apply nothing_to_send_keeps|].
  destruct (inv_pipeline _ _ Hi Hv) as [P1 P2 P3 P4 _ P6 _].
  assert (exists e, last es = Some e) as [e Hlast].
  { destruct (last es) eqn:Hl; [by eexists|]. by apply last_None in Hl as ->. }
  rewrite last_lookup in Hlast. pose proof (ok_entry _ Hok _ _ (Hget _ _ Hlast)) as Hin.
  assert (zlen (map (meta_of (sends_data flags r)) es) = zlen es) as Hzl by (unfold zlen; by rewrite length_map).
  apply lookup_lt_Some in Hlast. unfold zlen in Hzl.
  apply send_rpc_keeps; try done; cbn; unfold zlen; rewrite ?Hzl; try lia.
  destruct r.(_reader) eqn:Hr; [|done]. destruct (P6 eq_refl) as (_ & [Hlt|[Hn Hg]] & _); [|by destruct (Hn (Hz Hg))].
  destruct es as [|e0 es]; [done|]. pose proof (ok_entry _ Hok _ _ (Hget 0%nat e0 eq_refl)). lia.
Qed.

(** *** Operations after which the replicator is still there *)
Definition steady (r r' : Replicator) : Prop := frame r r' /\ r'.(valid_id) = r.(valid_id).
#[local] Instance steady_preorder : PreOrder steady.
Proof.
  split; [by intros r; split|]. intros r1 r2 r3 [H1 H2] [H3 H4]. split; [by etransitivity|congruence].
Qed.

Ltac steady_obey :=
  repeat first
    [ obey_step
    | match goal with
      | |- obeys _ _ (modify _) => apply obeys_modify; intros; split; [apply frame_same; reflexivity|reflexivity]
      | |- quiet _ => exact I
      end ].

Lemma steady_notify e b : obeys steady quiet (_notify_on_caught_up env e b).
Proof. unfold _notify_on_caught_up, run_catchup_closure. steady_obey. Qed.
Lemma steady_maybe_timeout_now : obeys steady quiet maybe_timeout_now.
Proof.
  unfold maybe_timeout_now, _send_timeout_now, new_controller. steady_obey.
  apply obeys_modify. intros r. split; [split; [done|cbn; lia|done]|done].
Qed.
Lemma steady_count_error : obeys steady quiet count_error.
Proof. unfold count_error. steady_obey. Qed.
Lemma steady_clear_errors : obeys steady quiet clear_errors.
Proof. unfold clear_errors. steady_obey. Qed.
Lemma steady_update_timestamp t : obeys steady quiet (_update_last_rpc_send_timestamp t).
Proof. unfold _update_last_rpc_send_timestamp. steady_obey. Qed.

Lemma steady_start_timer t : obeys steady quiet (_start_heartbeat_timer env t).
Proof. unfold _start_heartbeat_timer. steady_obey. Qed.

Lemma wpt_steady {A} (m : RM A) Q r tr :
  obeys steady quiet m -> inv r tr -> r.(valid_id) = true ->
  (forall a r' tr', inv r' tr' -> r'.(valid_id) = true -> core r' = core r -> r'.(_reader) = r.(_reader) ->
    sent tr' = sent tr -> Q a r' tr') ->
  wpt m Q r tr.
Proof.
  intros Hm Hi Hv HQ. eapply wpt_obeys; [exact Hm|]. intros a r' ev [Hf Hva] He. rewrite Hv in Hva.
  apply HQ; [by eapply Inv_frame|done|apply (f_core _ _ Hf)|apply (f_valid _ _ Hf Hva)|by apply quiet_app].
Qed.

(** *** The answers of the follower *)
Lemma wpt_pop Q r tr k :
  inv r tr -> r.(valid_id) = true -> r.(_reader) = false ->
  (forall r', inv r' tr -> r'.(valid_id) = true -> Q tt r' tr) -> wpt (pop_acknowledged k) Q r tr.
Proof.
  intros Hi Hv Hr HQ. unfold pop_acknowledged. wpt_go. apply HQ; [|done].
  destruct (inv_pipeline _ _ Hi Hv) as [P1 P2 P3 P4 P5 _ P7]. destruct Hi as [H1 H2 H3 H4 H5 _]. split; try done. intros _.
  destruct (chain_pop _ _ _ k P1) as [Hack Hch]. pose proof (chain_le _ _ _ Hch) as Hle. unfold _min_flying_index in *.
  split; unfold _min_flying_index; cbn; try done; try lia.
  - by replace (_ - (_ - _)) with (_next_index r - _flying_append_entries_size r
      + acknowledged_size k (_append_entries_in_fly r)) by lia.
  - rewrite Forall_forall in *. intros rpc Hin. apply P5. by eapply pop_front_while_subset.
  - congruence.
Qed.

Lemma caught_up_and_send r tr :
  inv r tr -> r.(valid_id) = true ->
  wpt (_notify_on_caught_up env OK false ;; maybe_timeout_now ;; _send_entries flags env) keeps r tr.
Proof.
  intros Hi Hv. apply wpt_bind, wpt_steady; [apply steady_notify|done|done|]. intros _ r1 tr1 Hi1 Hv1 _ _ _.
  apply wpt_bind, wpt_steady; [apply steady_maybe_timeout_now|done|done|]. intros _ r2 tr2 Hi2 Hv2 _ _ _.
  by apply send_entries_keeps.
Qed.

(** What is known of the RPC that returns. *)
Lemma flying_rpc r tr call q :
  inv r tr -> r.(valid_id) = true -> request_of call (sent tr) = Some q ->
  valid_rpc call (q.(ae_prev_log_index) + 1) r.(_append_entries_in_fly) = true ->
  _min_flying_index r <= q.(ae_prev_log_index) + 1 /\
  q.(ae_prev_log_index) + zlen q.(ae_entries) < r.(_next_index) /\
  r.(_reader) = false /\ (call, q) ∈ sent tr.
Proof.
  intros Hi Hv Hq%request_of_elem (rpc & Hin & Hc)%valid_rpc_flying.
  destruct (inv_pipeline _ _ Hi Hv) as [P1 P2 P3 P4 P5 P6 P7]. destruct (chain_member _ _ _ _ P1 Hin) as (H1 & H2 & H3).
  rewrite Forall_forall in P5. destruct (P5 _ Hin) as (q' & Hq' & Hp & Hz). rewrite Hc in Hq'.
  pose proof (unique_call _ _ _ _ (i_unique _ _ _ _ _ _ Hi) Hq Hq') as <-. split_and!; [lia|lia| |done].
  destruct r.(_reader); [|done]. destruct (P6 eq_refl) as [Hnil _]. rewrite Hnil in Hin. by apply elem_of_nil in Hin.
Qed.

Lemma replicated_keeps r tr call q :
  inv r tr -> r.(valid_id) = true -> call ∈ acked -> (call, q) ∈ sent tr -> r.(_reader) = false ->
  _min_flying_index r <= q.(ae_prev_log_index) + 1 ->
  q.(ae_prev_log_index) + zlen q.(ae_entries) < r.(_next_index) ->
  wpt (replicated flags env q) keeps r tr.
Proof.
  intros Hi Hv Hack Hq Hr Hmin Hend. unfold replicated. apply wpt_bind, wpt_get. cbv zeta.
  assert (forall tr', inv r tr' -> wpt (pop_acknowledged (q.(ae_prev_log_index) + 1) ;;
    modify (fun r => r <| _has_succeeded := true |>) ;;
    _notify_on_caught_up env OK false ;; maybe_timeout_now ;; _send_entries flags env) keeps r tr') as Hrest.
  { intros tr' Hi'. apply wpt_bind, wpt_pop; [done..|]. intros r' Hir' Hv'. apply wpt_bind, wpt_modify.
    apply caught_up_and_send; [|done]. rewrite <- (app_nil_r tr'). eapply Inv_frame; [exact Hir'|frame_step|done]. }
  apply wpt_bind, wpt_when; intros Hsz; [|by apply Hrest]. apply Z.ltb_lt in Hsz. wpt_step. apply Hrest.
  destruct (inv_pipeline _ _ Hi Hv) as [P1 P2 P3 P4 P5 P6 P7]. pose proof Hi as [H1 H2 H3 H4 H5 _].
  split; rewrite ?omap_app; cbn; rewrite ?app_nil_r; try done.
  - apply Forall_app. split; [done|]. constructor; [|done]. split; [done|split; [lia|split]].
    + by exists call, q.
    + intros i Hi'. eapply chain_covered; [exact P1|done|lia].
  - intros _. split; rewrite ?omap_app; cbn; rewrite ?app_nil_r; done.
Qed.

Lemma wpt_locked {A} (a : A) (m : RM A) Q r tr :
  (r.(valid_id) = true -> wpt m Q r tr) -> (r.(valid_id) = false -> Q a r tr) -> wpt (locked a m) Q r tr.
Proof. intros H1 H2. unfold locked. wpt_go. destruct r.(valid_id); [by apply H1|]. apply wpt_ret. by apply H2. Qed.

Lemma rpc_returned_keeps r tr call e q response t :
  inv r tr -> request_of call (sent tr) = Some q -> 0 <= default 0 response.(ar_last_log_index) ->
  (acknowledges r (CRpcReturned call e response t) = Some call -> call ∈ acked) ->
  wpt (_on_rpc_returned flags env (mkController call e) q response t) keeps r tr.
Proof.
  intros Hi Hq Hlast Hack. unfold _on_rpc_returned. apply wpt_locked; [intros Hv|done]. apply wpt_bind, wpt_get, wpt_bind.
  destruct (inv_pipeline _ _ Hi Hv) as [P1 P2 P3 P4 P5 P6 P7]. unfold check.
  rewrite (proj2 (Z.ltb_lt 0 (_min_flying_index r))) by lia. wpt_go. cbn [cntl_call_id].
  destruct (valid_rpc call _ _) eqn:Hval; cbn [negb]; [|by wpt_go].
  destruct (flying_rpc _ _ _ _ Hi Hv Hq Hval) as (Hmin & Hend & Hr & Hs).
  destruct (Failed _) eqn:Hfailed.
  { apply wpt_bind, wpt_steady; [apply steady_count_error|done|done|]. intros _ r1 tr1 Hi1 Hv1 _ Hr1 _.
    apply wpt_bind, wpt_reset; [done..|]. intros r2 tr2 Hi2 Hv2 Hf2 _ Hr2 _. apply block_keeps; congruence. }
  apply wpt_bind, wpt_steady; [apply steady_clear_errors|done|done|]. intros _ r1 tr1 Hi1 Hv1 Hco1 Hr1 Hs1.
  destruct (ar_success response) eqn:Hsu; cbn [negb].
  2: { destruct (_ <? ar_term response).
    - apply wpt_bind, wpt_reset; [done..|]. intros. apply still_keeps; [apply still_quit|done].
    - apply wpt_bind, wpt_steady; [apply steady_update_timestamp|done|done|]. intros _ r2 tr2 Hi2 Hv2 Hco2 Hr2 Hs2.
      unfold find_next_index. apply wpt_bind, wpt_reset; [done..|]. intros r3 tr3 Hi3 Hv3 Hf3 Hn3 Hr3 _.
      apply wpt_bind, wpt_modify. apply send_probe_keeps; try done; [|cbn; congruence].
      pose proof (idle_size _ _ Hi3 Hv3 Hf3) as Hsz. destruct (inv_pipeline _ _ Hi3 Hv3) as [_ _ Q3 Q4 Q5 Q6 Q7].
      assert (r3.(_reader) = false) as Hrd by congruence.
      destruct Hi3 as [H1 H2 H3 H4 H5 _]. split; try done. intros _. unfold _min_flying_index in *. rewrite Hsz in Q3.
      split; unfold _min_flying_index; cbn; rewrite ?Hf3, ?Hsz, ?Hrd; try done; try lia; try (rewrite Hrd in Q7; done).
      all: repeat case_match; try lia; cbn; lia. }
  destruct (Z.eqb_spec (ar_term response) (opt_term (_options r))) as [Hterm|Hterm]; cbn [negb].
  2: { apply wpt_reset; [done..|]. done. }
  apply wpt_bind, wpt_steady; [apply steady_update_timestamp|done|done|]. intros _ r2 tr2 Hi2 Hv2 Hco2 Hr2 Hs2.
  rewrite Hco1 in Hco2. injection Hco2 as Hn2 Hsz2 Hf2 Ho2. unfold _min_flying_index in Hmin.
  apply (replicated_keeps _ _ call); try done; [|by rewrite Hs2, Hs1|congruence|unfold _min_flying_index; lia|lia].
  apply Hack. apply negb_false_iff in Hfailed. cbn in Hfailed |- *. rewrite Hfailed, Hsu. cbn.
  by rewrite (proj2 (Z.eqb_eq _ _) Hterm).
Qed.

Lemma install_returned_keeps answered0 r tr call e q success :
  Inv flags env answered0 acked r tr -> request_of call (installs tr) = Some q -> call ∉ answered0 ->
  answered0 ⊆ answered -> call ∈ answered ->
  wpt (_on_install_snapshot_returned flags env (mkController call e) q success) keeps r tr.
Proof.
  intros Hi Hq%request_of_elem Hnot Hsub Hin. unfold _on_install_snapshot_returned.
  apply wpt_locked; intros Hv.
  2: { destruct Hi as [H1 H2 H3 H4 H5 _]. split; try done. congruence. }
  destruct (i_live _ _ _ _ _ _ Hi Hv) as [P1 P2 P3 P4 P5 P6 P7]. rewrite Forall_forall in P7.
  destruct (P7 _ Hq) as [?|(Hr & Hc & Hm)]; [done|]. destruct (P6 Hr) as (Hf & _). cbn in Hc, Hm.
  rewrite Hf in P1. cbn in P1. unfold _min_flying_index in P1.
  assert (forall n, 1 <= n <= env.(last_log_index) + 1 -> inv (r <| _reader := false |> <| _next_index := n |>) tr) as Hn.
  { intros n Hn. destruct Hi as [H1 H2 H3 H4 H5 _]. split; try done. intros _.
    split; unfold _min_flying_index; cbn; rewrite ?Hf; try done; try lia; [cbn; lia|].
    apply Forall_forall. intros cq Hcq. left. destruct (P7 _ Hcq) as [?|(_ & -> & _)]; [by apply Hsub|by rewrite <- Hc]. }
  assert (inv (r <| _reader := false |>) tr) as Hsame.
  { replace (r <| _reader := false |>) with (r <| _reader := false |> <| _next_index := r.(_next_index) |>) by (by destruct r).
    apply Hn. unfold _min_flying_index in P3. lia. }
  assert (forall ev, Forall quiet ev -> wpt (_block flags env env.(gettimeofday_us) e) keeps (r <| _reader := false |>) (tr ++ ev)) as Hblock.
  { intros ev Hev. apply block_keeps; try done. by eapply Inv_frame. }
  apply wpt_bind, wpt_close_reader; [done|]. intros ev Hev. destruct (Failed _).
  { apply wpt_bind, wpt_steady; [apply steady_count_error|by eapply Inv_frame|done|]. intros _ r1 tr1 Hi1 Hv1 Hco1 Hr1 _.
    apply block_keeps; [done|done| |done]. by injection Hco1 as _ _ -> _. }
  destruct success; cbn [negb]; [|by apply Hblock].
  apply wpt_bind, wpt_modify, caught_up_and_send; [|done].
  eapply Inv_frame; [apply (Hn (q.(is_meta).(last_included_index) + 1)); lia|frame_step|done].
Qed.

(** *** Waking up *)
Lemma continue_sending_keeps r tr e :
  inv r tr -> (e = ETIMEDOUT -> r.(_append_entries_in_fly) = [] /\ r.(_reader) = false \/ r.(_wait_id) <> 0) ->
  wpt (_continue_sending flags env e) (fun _ r' tr' => inv r' tr') r tr.
Proof.
  intros Hi Hready. unfold _continue_sending. apply wpt_locked; [intros Hv|done]. apply wpt_bind, wpt_get, wpt_bind.
  apply (wpt_mono _ keeps); [|intros [] r' tr' Hi'; apply wpt_ret; exact Hi'].
  case_bool_decide as He.
  - destruct (Z.eqb_spec r.(_wait_id) 0) as [Hw|Hw]; cbn [negb]; [|by wpt_go].
    destruct (Hready He) as [[Hf Hr]|?]; [|done]. by apply send_probe_keeps.
  - destruct (_ && _); [|by wpt_go]. apply wpt_bind, wpt_modify, send_entries_keeps; [|done].
    rewrite <- (app_nil_r tr). eapply Inv_frame; [exact Hi|frame_step|done].
Qed.
End keeping.
