(* ===== verification/ReplicatorSafety.v ===== *)
(** * ReplicatorSafety: what the leader may conclude from its replicators

    The invariant of the pipeline along every run of a replicator, and what
    follows for the ranges it reports to the ballot box. *)

From S2P Require Import Prelude Types PeerText FsmCaller NodeState LogManager NodeLog Replicator ReplicatorRuns ReplicatorProofs.

(** ** Leaving *)
Definition fades (r r' : Replicator) : Prop :=
  r'.(_options) = r.(_options) /\ r.(calls) <= r'.(calls).
#[export] Instance fades_preorder : PreOrder fades.
Proof. split; [by intros r; split|]. intros r1 r2 r3 [H1 H2] [H3 H4]. split; [congruence|lia]. Qed.

Lemma frame_fades r r' : frame r r' -> fades r r'.
Proof. intros [H1 H2 _]. injection H1 as _ _ _ Ho. by split. Qed.

Section leaving.
Context `{IT : IpText}.
Variable flags : Flags.
Variable env : Env.
Abbreviation fading := (obeys fades quiet).

Lemma still_fading {A} (m : RM A) : obeys frame quiet m -> fading m.
Proof. apply obeys_mono; [apply frame_fades|done]. Qed.

Lemma fading_cancel : fading _cancel_append_entries_rpcs.
Proof. unfold _cancel_append_entries_rpcs. obey; apply obeys_modify; by intros r. Qed.

Lemma fading_on_error e : fading (_on_error flags env e).
Proof.
  unfold _on_error, locked. obey; try exact I; try (apply obeys_modify; intros r; split; cbn; [done|lia]);
    try (apply still_fading; first [apply still_notify|apply still_destroy]); try apply fading_cancel.
  apply still_fading. unfold _send_heartbeat. apply still_locked, still_send_heartbeat.
Qed.

Lemma fading_stop : fading (stop flags env).
Proof. unfold stop, locked. obey; [apply still_fading, still_notify|apply fading_on_error]. Qed.

(** Where an operation always ends. *)
Definition leaves {A} (P : Replicator -> Prop) (m : RM A) : Prop := forall r, P (state_of (m r)).

Lemma leaves_bind {A B} P (m : RM A) (f : A -> RM B) : (forall a, leaves P (f a)) -> leaves P (m ≫= f).
Proof.
  intros Hf r. unfold mbind, M_bind, state_of. destruct (m r) as [[a r1] e1]. specialize (Hf a r1).
  unfold state_of in Hf. by destruct (f a r1) as [[b r2] e2].
Qed.

Abbreviation gone := (fun r => r.(valid_id) = false).

Lemma destroy_leaves {A} (a : A) : leaves gone (_destroy env ;; mret a).
Proof.
  intros r. unfold _destroy, _close_reader. run. destruct (_reader _); [destruct (env.(snapshot_throttle))|]; done.
Qed.

Lemma on_error_leaves : leaves gone (_on_error flags env ESTOP).
Proof.
  intros r. unfold _on_error, locked. rewrite get_bind. destruct r.(valid_id) eqn:Hv; [|done].
  rewrite bool_decide_true by done. rewrite get_bind. do 8 (apply leaves_bind; intros _). apply destroy_leaves.
Qed.

Lemma stop_leaves : leaves gone (stop flags env).
Proof.
  intros r. unfold stop, locked. rewrite get_bind. destruct r.(valid_id) eqn:Hv; [|done].
  apply leaves_bind. intros _. apply on_error_leaves.
Qed.

Lemma Inv_gone answered acked r r' tr ev :
  Inv flags env answered acked r tr -> fades r r' -> r'.(valid_id) = false -> Forall quiet ev ->
  Inv flags env answered acked r' (tr ++ ev).
Proof.
  intros [H1 H2 H3 H4 H5 _] [Ho Hc] Hv (Hs & _ & Hm)%(quiet_app tr).
  split; rewrite ?Hs, ?Hm, ?Ho; try done; [|congruence]. eapply Forall_impl; [exact H1|]. cbn. lia.
Qed.
End leaving.

(** ** Every run keeps the pipeline in order *)
Section reach.
Context `{IT : IpText}.
Variable flags : Flags.
Hypothesis Hflags : 0 <= flags.(raft_max_entries_size).

Lemma started_inv w : started flags w -> Inv flags w.(env) w.(answered) w.(acked) w.(rep) w.(done_so_far).
Proof.
  intros (o & r & Hok & Hs & -> & -> & ->). unfold start in Hs. cbn [negb] in Hs.
  set (r0 := (Replicator_new o) <| _next_index := _ |>) in Hs.
  set (m := _update_last_rpc_send_timestamp _ ;; _) in Hs.
  assert (wpt m (fun _ r' tr' => Inv flags w.(env) [] [] r' tr') r0 [NodeAddRef; StatusAddRef]) as Hw.
  { assert (Inv flags w.(env) [] [] r0 [NodeAddRef; StatusAddRef]) as Hi.
    { pose proof (ok_last _ Hok). split; cbn; try by constructor. intros _.
      split; unfold _min_flying_index; cbn; try done; try lia. }
    apply wpt_bind; eapply wpt_steady; [apply steady_update_timestamp|exact Hi|done|]. intros _ r1 tr1 Hi1 Hv1 Hc1 Hr1 _.
    apply wpt_bind; eapply wpt_steady; [apply steady_start_timer|exact Hi1|done|]. intros _ r2 tr2 Hi2 Hv2 Hc2 Hr2 _.
    rewrite Hc1 in Hc2. injection Hc2 as _ _ Hf _. apply send_probe_keeps; [exact Hok|exact Hi2|exact Hv2|by rewrite Hf|by rewrite Hr2, Hr1]. }
  unfold wpt, state_of, events_of in Hw. destruct (m r0) as [[u r'] ev]. by injection Hs as <- <-.
Qed.

Lemma step_inv w w' : Inv flags w.(env) w.(answered) w.(acked) w.(rep) w.(done_so_far) -> step flags w w' ->
  Inv flags w'.(env) w'.(answered) w'.(acked) w'.(rep) w'.(done_so_far).
Proof.
  intros Hi (env' & c & Hok & Hla & Hc & Hrun). unfold run_call in Hrun.
  destruct (handler flags env' _ c) as [m|] eqn:Hh; [|done]. injection Hrun as <-. cbn.
  assert (w.(answered) ⊆ option_list (returns c) ++ w.(answered)) as Hs1 by (intros x Hx; apply elem_of_app; by right).
  assert (w.(acked) ⊆ option_list (acknowledges w.(rep) c) ++ w.(acked)) as Hs2 by (intros x Hx; apply elem_of_app; by right).
  pose proof (Inv_later flags _ env' _ _ _ _ _ _ Hi Hla Hs1 Hs2) as Hi'.
  assert (forall A (m : RM A), obeys frame quiet m -> wpt m (fun _ r' tr' => Inv flags env'
    (option_list (returns c) ++ w.(answered)) (option_list (acknowledges w.(rep) c) ++ w.(acked)) r' tr') w.(rep) w.(done_so_far)) as Hstill.
  { intros A m' Hm. by apply still_keeps. }
  cut (wpt m (fun _ r' tr' => Inv flags env' (option_list (returns c) ++ w.(answered))
    (option_list (acknowledges w.(rep) c) ++ w.(acked)) r' tr') w.(rep) w.(done_so_far)); [done|].
  destruct c; cbn [handler] in Hh; try (injection Hh as <-).
  - destruct (request_of _ _) as [q|] eqn:Hq; [|done]. injection Hh as <-. apply rpc_returned_keeps; try done.
    intros ->. apply elem_of_app. left. apply list_elem_of_here.
  - apply Hstill, still_heartbeat_returned.
  - destruct (request_of _ _) as [q|] eqn:Hq; [|done]. injection Hh as <-.
    apply (install_returned_keeps _ _ Hok _ _ w.(answered)); try done; [|by apply list_elem_of_here].
    by eapply Inv_later with (acked := w.(acked)) (answered := w.(answered)).
  - apply Hstill, still_timeout_now_returned.
  - apply wpt_bind. eapply wpt_mono; [apply Hstill|intros; by apply wpt_skip]. unfold _on_error.
    apply still_locked. rewrite !bool_decide_false by done. rewrite bool_decide_true by done.
    apply obeys_bind; [exact _| |intros; apply obeys_ret; exact _]. apply still_locked, still_send_heartbeat.
  - apply Hstill, still_block_timedout.
  - apply wpt_bind. eapply wpt_mono; [by apply continue_sending_keeps|]. intros; by apply wpt_skip.
  - apply Hstill, still_catch_up_timedout.
  - apply Hstill, still_wait_for_caught_up.
  - apply wpt_bind. eapply wpt_mono; [apply Hstill, still_transfer|]. intros; by apply wpt_skip.
  - apply wpt_bind. eapply wpt_mono; [apply Hstill, still_stop_transfer|]. intros; by apply wpt_skip.
  - apply wpt_bind. eapply wpt_mono; [apply Hstill, still_timeout_now_and_stop|]. intros; by apply wpt_skip.
  - apply wpt_bind. eapply wpt_mono; [apply Hstill, still_change_readonly|]. intros; by apply wpt_skip.
  - apply wpt_bind. apply (wpt_mono _ (fun _ r' tr' => Inv flags env' w.(answered) w.(acked) r' tr')); [|intros; by apply wpt_skip].
    unfold wpt. destruct (fading_stop flags env' w.(rep)) as [Hf He].
    eapply Inv_gone; [exact Hi'|exact Hf|apply stop_leaves|exact He].
Qed.

Lemma reachable_inv w : reachable flags w -> Inv flags w.(env) w.(answered) w.(acked) w.(rep) w.(done_so_far).
Proof.
  intros (w0 & Hs & Hr). pose proof (started_inv _ Hs) as Hi. clear Hs.
  induction Hr as [|w1 w2 w3 Hstep _ IH]; [done|]. apply IH. by eapply step_inv.
Qed.

(** C6: in every state that a living replicator reaches, the requests in flight carry
    consecutive entries of the leader's log: the first one starts at
    [_min_flying_index], each one starts where the one before ends, the last one ends
    just before [_next_index], each was sent with the entries it counts, and nothing
    is in flight while a snapshot is being installed. [_min_flying_index] is where the
    replicator takes up: the entries before it are usually acknowledged, but not
    always, as the answer to a probe can move it over entries sent behind the probe
    ([ReplicatorExamples.probe_ack_forgets_entries]). The runs are those of [call_ok]:
    followers report a last log index that is not negative, an installation returns
    once, and the block timer does not find requests in flight or an installation with
    no waiter registered ([ReplicatorExamples.block_timer_probes_behind_entries] is
    what happens then). *)
Theorem pipeline_in_order w :
  reachable flags w -> w.(rep).(valid_id) = true ->
  let r := w.(rep) in
  chain (_min_flying_index r) r.(_append_entries_in_fly) r.(_next_index) /\
  Forall (carries (sent w.(done_so_far))) r.(_append_entries_in_fly) /\
  1 <= _min_flying_index r <= r.(_next_index) /\ r.(_next_index) <= w.(env).(last_log_index) + 1 /\
  (r.(_reader) = true -> r.(_append_entries_in_fly) = []).
Proof.
  intros Hi%reachable_inv Hv. destruct (i_live _ _ _ _ _ _ Hi Hv) as [P1 P2 P3 P4 P5 P6 _].
  pose proof (chain_le _ _ _ P1). split_and!; try done. intros Hr. by apply P6.
Qed.

(** No request carries more than [raft_max_entries_size] entries, and no
    more than that are in flight together: [max_entries_size], an [int], is the
    difference it is meant to be. *)
Theorem flying_entries_bounded w :
  reachable flags w -> flags.(raft_max_entries_size) < 2 ^ 31 ->
  Forall (fun cq => zlen cq.2.(ae_entries) <= flags.(raft_max_entries_size)) (sent w.(done_so_far)) /\
  (w.(rep).(valid_id) = true ->
    let max_entries_size := flags.(raft_max_entries_size) - w.(rep).(_flying_append_entries_size) in
    0 <= w.(rep).(_flying_append_entries_size) <= flags.(raft_max_entries_size) /\
    wrap_i32 max_entries_size = max_entries_size).
Proof.
  intros Hi%reachable_inv Hmax. split; [apply (i_small _ _ _ _ _ _ Hi)|]. intros Hv.
  pose proof (p_size _ _ _ _ _ (i_live _ _ _ _ _ _ Hi Hv)). split; [done|]. apply wrap_i32_small. lia.
Qed.

End reach.

(** * Acknowledgements, probing, and what a follower reads

    An acknowledgement moves the pipeline to just behind the acknowledged
    request; probing finds an index where the logs agree, or a snapshot to
    install; a follower reads from a request the entries the leader put in. *)


(** ** Operations that do not move the first index in flight *)
Definition same_first (r r' : Replicator) : Prop :=
  _min_flying_index r' = _min_flying_index r /\ r'.(_options) = r.(_options).
#[export] Instance same_first_preorder : PreOrder same_first.
Proof. split; [done|]. intros r1 r2 r3 [H1 H2] [H3 H4]. split; congruence. Qed.

Definition no_commit (e : Event) : Prop := commit_of e = None.

Lemma frame_same_first r r' : frame r r' -> same_first r r'.
Proof. intros [Hc _ _]. injection Hc as Hn Hf _ Ho. unfold same_first, _min_flying_index. by rewrite Hn, Hf, Ho. Qed.
Lemma quiet_no_commit e : quiet e -> no_commit e.
Proof. by destruct e. Qed.

Section still_first.
Context `{IT : IpText}.
Variable flags : Flags.
Variable env : Replicator.Env.
Abbreviation stays := (obeys same_first no_commit).

Lemma still_stays {A} (m : RM A) : obeys frame quiet m -> stays m.
Proof. apply obeys_mono; [apply frame_same_first|apply quiet_no_commit]. Qed.

Ltac stay :=
  repeat first
    [ obey_step
    | match goal with
      | |- no_commit _ => reflexivity
      | |- obeys _ _ (modify _) =>
          apply obeys_modify; intros; split; [unfold _min_flying_index; cbn; lia|reflexivity]
      | |- obeys _ _ (Replicator.check _) => unfold Replicator.check
      end ].

Lemma stays_reset : stays _reset_next_index.
Proof. unfold _reset_next_index, _cancel_append_entries_rpcs. stay. Qed.
Lemma stays_probe q : stays (send_probe_rpc q).
Proof. unfold send_probe_rpc, new_controller. stay. Qed.
Lemma stays_heartbeat q : stays (send_heartbeat_rpc env q).
Proof. apply still_stays, still_heartbeat_rpc. Qed.
Lemma stays_close_reader : stays (_close_reader env).
Proof. unfold _close_reader. stay. Qed.
Lemma stays_fill i b : stays (_fill_common_fields env i b).
Proof. apply still_stays, still_fill. Qed.

Lemma stays_send_empty install b : stays install -> stays (send_empty_entries_or env install b).
Proof.
  intros Hi. unfold send_empty_entries_or. stay; first [apply stays_fill|apply Hi|apply stays_heartbeat|apply stays_probe].
Qed.
Lemma stays_install block : (forall t e, stays (block t e)) -> stays (install_snapshot_or env block).
Proof.
  intros Hb. unfold install_snapshot_or, install_from, snapshot_error, new_controller, set_st.
  stay; first [apply Hb|apply stays_close_reader].
Qed.
Lemma stays_block n t e : stays (block_after flags env n t e).
Proof.
  revert t e. induction n as [|n IH]; intros t e; cbn [block_after]; unfold set_st; stay.
  apply stays_send_empty, stays_install, IH.
Qed.
Lemma stays_send_probe b : stays (_send_empty_entries flags env b).
Proof. apply stays_send_empty, stays_install, stays_block. Qed.
Lemma stays_install_snapshot : stays (_install_snapshot flags env).
Proof. apply stays_install, stays_block. Qed.

Lemma stays_send_entries : stays (_send_entries flags env).
Proof.
  unfold _send_entries, nothing_to_send, send_rpc, new_controller, set_st.
  stay; first [apply stays_fill|apply stays_reset|apply stays_install_snapshot|apply still_stays, still_wait_more
    |apply still_stays, still_prepare].
Qed.
End still_first.

(** ** Acknowledgements *)
Lemma chain_valid_rpc i fly n rpc k : chain i fly n -> rpc ∈ fly -> rpc.(log_index) <= k ->
  valid_rpc rpc.(call_id) k fly = true.
Proof.
  revert i. induction fly as [|r fly IH]; intros i; cbn; [by intros _ ?%elem_of_nil|].
  intros (Hi & Hs & Hc) Hin Hk. apply elem_of_cons in Hin as [<-|Hin].
  - destruct (Z.ltb_spec k rpc.(log_index)); [lia|]. by rewrite Z.eqb_refl.
  - destruct (chain_member _ _ _ _ Hc Hin). destruct (Z.ltb_spec k r.(log_index)); [lia|].
    rewrite (IH _ Hc Hin Hk). apply orb_true_r.
Qed.

(** All the entries up to the end of an acknowledged request leave the pipeline. *)
Lemma acknowledged_size_at i fly n rpc : chain i fly n -> rpc ∈ fly -> 0 < rpc.(entries_size) ->
  i + acknowledged_size rpc.(log_index) fly = rpc.(log_index) + rpc.(entries_size).
Proof.
  revert i. induction fly as [|r fly IH]; intros i; cbn; [by intros _ ?%elem_of_nil|].
  intros (Hi & Hs & Hc) Hin Hp. apply elem_of_cons in Hin as [<-|Hin].
  - rewrite Z.leb_refl. destruct fly as [|r' fly]; cbn in *; [lia|]. destruct Hc as [Hc _].
    destruct (Z.leb_spec r'.(log_index) rpc.(log_index)); lia.
  - destruct (chain_member _ _ _ _ Hc Hin). destruct (Z.leb_spec r.(log_index) rpc.(log_index)); [|lia].
    specialize (IH _ Hc Hin Hp). lia.
Qed.

Section progress.
Context `{IT : IpText}.
Variable flags : Flags.
Hypothesis Hflags : 0 <= flags.(raft_max_entries_size).

Lemma wpt_stays {A} (m : RM A) (Q : A -> Replicator -> list Replicator.Event -> Prop) r tr :
  obeys same_first no_commit m ->
  (forall a r' tr', _min_flying_index r' = _min_flying_index r -> commits tr' = commits tr -> Q a r' tr') -> wpt m Q r tr.
Proof.
  intros Hm HQ. eapply wpt_obeys; [exact Hm|]. intros a r' ev [Hf _] He. apply HQ; [done|].
  rewrite omap_app. replace (commits ev) with (@nil (Z * Z * PeerId)); [by rewrite app_nil_r|].
  induction He as [|e ev He _ IH]; [done|]. cbn. by rewrite He.
Qed.

Lemma replicated_advances env r tr q :
  q.(ae_entries) <> [] ->
  _min_flying_index r + acknowledged_size (q.(ae_prev_log_index) + 1) r.(_append_entries_in_fly) =
    q.(ae_prev_log_index) + 1 + zlen q.(ae_entries) ->
  wpt (replicated flags env q) (fun _ r' tr' =>
    commits tr' = commits tr ++ [(_min_flying_index r, q.(ae_prev_log_index) + zlen q.(ae_entries), r.(_options).(peer))] /\
    _min_flying_index r' = q.(ae_prev_log_index) + zlen q.(ae_entries) + 1) r tr.
Proof.
  intros Hne Hack. unfold replicated. apply wpt_bind, wpt_get. cbv zeta.
  assert (0 < zlen q.(ae_entries)) as Hpos by (destruct (ae_entries q); [done|unfold zlen; cbn; lia]).
  rewrite (proj2 (Z.ltb_lt _ _) Hpos). apply wpt_bind, wpt_emit. unfold pop_acknowledged. wpt_step. wpt_step. wpt_step. wpt_step.
  unfold _min_flying_index in *.
  apply wpt_bind, wpt_stays; [apply still_stays, still_notify|]. intros _ r1 tr1 Hm1 Hc1.
  apply wpt_bind, wpt_stays; [apply still_stays, still_maybe_timeout_now|]. intros _ r2 tr2 Hm2 Hc2.
  apply wpt_stays; [apply stays_send_entries|]. intros _ r3 tr3 Hm3 Hc3. unfold _min_flying_index in *.
  split; [by rewrite Hc3, Hc2, Hc1, omap_app|]. rewrite Hm3, Hm2, Hm1. cbn. lia.
Qed.

End progress.
