(* ===== verification/ReplicatorWire.v ===== *)
(** * ReplicatorWire: a follower reads the entries the leader put in

    [_send_entries] writes the metadata of consecutive entries of the log into a
    request and their data into its attachment; the parser of
    [NodeImpl::handle_append_entries_request] takes them apart again. *)

From S2P Require Import Prelude Types PeerText FsmCaller NodeState LogManager NodeLog Replicator ReplicatorRuns ReplicatorProofs ReplicatorSafety.

(** An entry a leader may hold at an index: a configuration entry, and no other,
    has peers, its old peers are absent or some, the fields of its peers fit the
    widths they are printed and scanned at, its data fits an [int]. *)
Definition wire_ok (i : Z) (e : LogEntry) : Prop :=
  e.(id).(index) = i /\ e.(type) <> ENTRY_TYPE_UNKNOWN /\ zlen e.(data) < 2 ^ 31 /\
  match e.(peers) with
  | Some ps =>
      ps <> [] /\ e.(type) = ENTRY_TYPE_CONFIGURATION /\ e.(old_peers) <> Some [] /\
      Forall peer_ok ps /\ Forall peer_ok (default [] e.(old_peers))
  | None => e.(type) <> ENTRY_TYPE_CONFIGURATION /\ e.(old_peers) = None
  end.

(** What is left of an entry that is sent to a witness. *)
Definition as_sent (with_data : bool) (e : LogEntry) : LogEntry :=
  if with_data then e else mkLogEntry e.(type) e.(id) e.(peers) e.(old_peers) [].

Lemma cutn_app d rest : zlen d < 2 ^ 31 -> cutn (zlen d) (d ++ rest) = (d, rest).
Proof.
  intros Hd. unfold cutn. pose proof (zlen_nonneg d). rewrite wrap_i32_small by lia.
  destruct (Z.ltb_spec (zlen d) 0); [lia|]. unfold zlen. rewrite Nat2Z.id, take_app_length, drop_app_length. done.
Qed.

Section text.
Context `{IT : IpText}.

(** Peers printed by the leader are the peers the follower scans. *)
Lemma peers_through_text ps : Forall peer_ok ps ->
  map fst (map PeerId_of_string (map to_string ps)) = ps /\ forallb snd (map PeerId_of_string (map to_string ps)) = true.
Proof.
  induction 1 as [|p ps Hp _ [IH1 IH2]]; [done|]. cbn [map forallb].
  unfold PeerId_of_string at 1 3. rewrite parse_to_string by done. cbn. by rewrite IH1, IH2.
Qed.

Lemma map_nonempty {A B} (f : A -> B) l : l <> [] -> bool_decide (map f l = []) = false.
Proof. intros Hl. apply bool_decide_eq_false_2. by destruct l. Qed.

Lemma parse_meta_of wd i e rest : wire_ok i e ->
  parse_entry i (meta_of wd e) (if wd then e.(data) ++ rest else rest) = (as_sent wd e, rest, true).
Proof.
  destruct e as [ty [ix tm] ps os dt]. unfold wire_ok, parse_entry, meta_of, as_sent. cbn. intros (-> & Hu & Hlen & Hps).
  destruct wd; [rewrite cutn_app by done|]; cbn.
  all: destruct ps as [ps|]; cbn.
  all: destruct Hps as [Hne Hty].
  all: try (rewrite Hty, (bool_decide_eq_false_2 (ty = _)) by done; done).
  all: destruct Hty as (-> & Ho & Hp & Hq); rewrite map_nonempty by done.
  all: destruct (peers_through_text _ Hp) as [-> ->], (peers_through_text _ Hq) as [Hos ->]; rewrite Hos.
  all: destruct os as [os|]; cbn; [rewrite map_nonempty by congruence|]; done.
Qed.

Lemma parse_metas_of wd i es : (forall k e, es !! k = Some e -> wire_ok (i + 1 + Z.of_nat k) e) ->
  parse_entries i (map (meta_of wd) es) (if wd then mjoin (map data es) else []) =
  (map (as_sent wd) es, i + zlen es, true).
Proof.
  revert i. induction es as [|e es IH]; intros i Hok; cbn [map parse_entries].
  { by rewrite zlen_nil, Z.add_0_r. }
  pose proof (Hok 0%nat e eq_refl) as He. rewrite Z.add_0_r in He. pose proof He as (_ & Hu & _).
  rewrite bool_decide_eq_false_2 by (by destruct e).
  replace (if wd then mjoin (map data (e :: es)) else []) with
    (if wd then e.(data) ++ (if wd then mjoin (map data es) else []) else (if wd then mjoin (map data es) else []))
    by (by destruct wd).
  cbn [map]. rewrite parse_meta_of by done. rewrite IH.
  - rewrite zlen_cons, Z.add_assoc. done.
  - intros k e' Hk. replace (i + 1 + 1 + Z.of_nat k) with (i + 1 + Z.of_nat (S k)) by lia. by apply Hok.
Qed.
End text.

Section wire.
Context `{IT : IpText}.
Variable flags : Flags.
Variable env : Replicator.Env.

(** Probes carry nothing. *)
Definition probes_only (e : Replicator.Event) : Prop :=
  forall c q, sent_of e = Some (c, q) -> q.(ae_entries) = [] /\ q.(ae_attachment) = [].

Abbreviation probing := (obeys (fun _ _ => True) probes_only).
#[local] Instance any_preorder : PreOrder (fun _ _ : Replicator => True).
Proof. by split. Qed.

Lemma still_probing {A} (m : RM A) : obeys frame quiet m -> probing m.
Proof. apply obeys_mono; [done|]. intros e He; destruct e; try done; by intros ? ? [=]. Qed.

Ltac probe :=
  repeat first
    [ obey_step
    | match goal with
      | |- probes_only _ => intros ? ?; cbn; by try intros [=]
      | |- obeys _ _ (modify _) => apply obeys_modify; done
      | |- obeys _ _ (Replicator.check _) => unfold Replicator.check
      end ].

(** Sequencing, with what is known of the first operation's value. *)
Lemma obeys_bind_value {A B} (V : A -> Prop) (m : RM A) (f : A -> RM B) :
  probing m -> (forall r, V (value_of (m r))) -> (forall a, V a -> probing (f a)) -> probing (m ≫= f).
Proof.
  intros Hm HV Hf r. destruct (Hm r) as [_ Hp]. specialize (HV r).
  unfold mbind, M_bind, state_of, events_of, value_of in *. destruct (m r) as [[a r1] e1]; cbn in *.
  destruct (Hf a HV r1) as [_ Hp']. unfold events_of in *. destruct (f a r1) as [[b r2] e2]; cbn in *.
  split; [done|by apply Forall_app].
Qed.

Lemma probing_send_probe q : q.(ae_entries) = [] -> q.(ae_attachment) = [] -> probing (send_probe_rpc q).
Proof. intros He Ha. unfold send_probe_rpc, new_controller. probe. by intros c q' [= _ <-]. Qed.
Lemma probing_close_reader : probing (_close_reader env).
Proof. unfold _close_reader. probe. Qed.

Lemma probing_send_empty install : probing install -> probing (send_empty_entries_or env install false).
Proof.
  intros Hin. unfold send_empty_entries_or. apply obeys_bind; [exact _|apply obeys_get; exact _|]. intros r.
  apply (obeys_bind_value (fun q => match q with Some q => q.(ae_entries) = [] /\ q.(ae_attachment) = [] | None => True end)).
  - apply still_probing, still_fill.
  - intros r'. unfold _fill_common_fields. run. destruct (_ && _); cbn; [|done].
    destruct (Replicator.check _ _) as [[u r1] ev]. done.
  - intros [q|] Hq; [destruct Hq; by apply probing_send_probe|]. probe.
Qed.
Lemma probing_install block : (forall t e, probing (block t e)) -> probing (install_snapshot_or env block).
Proof.
  intros Hb. unfold install_snapshot_or, install_from, snapshot_error, new_controller, set_st.
  probe; first [apply Hb|apply probing_close_reader].
Qed.
Lemma probing_block n t e : probing (block_after flags env n t e).
Proof.
  revert t e. induction n as [|n IH]; intros t e; cbn [block_after]; unfold set_st; probe.
  apply probing_send_empty, probing_install, IH.
Qed.
Lemma probing_install_snapshot : probing (_install_snapshot flags env).
Proof. apply probing_install, probing_block. Qed.
Lemma probing_reset : probing _reset_next_index.
Proof. unfold _reset_next_index, _cancel_append_entries_rpcs. probe. Qed.
Lemma probing_wait_more : probing (_wait_more_entries flags env).
Proof. apply still_probing, still_wait_more. Qed.
Lemma probing_nothing_to_send rc : probing (nothing_to_send flags env rc).
Proof.
  unfold nothing_to_send, set_st. probe; first [apply probing_reset|apply probing_install_snapshot|apply probing_wait_more].
Qed.

(** The entries of a request are those of the log from its first index on. *)
Definition carries_log (with_data : bool) (q : AppendEntriesRequest) : Prop :=
  exists es, (forall k e, es !! k = Some e -> env.(Replicator.get_entry) (q.(ae_prev_log_index) + 1 + Z.of_nat k) = Some e) /\
    q.(ae_entries) = map (meta_of with_data) es /\
    q.(ae_attachment) = if with_data then mjoin (map data es) else [].

Lemma probing_carries {A} with_data (m : RM A) r tr : probing m ->
  Forall (fun cq => carries_log with_data cq.2) (sent tr) ->
  wpt m (fun _ _ tr' => Forall (fun cq => carries_log with_data cq.2) (sent tr')) r tr.
Proof.
  intros Hm Htr. eapply wpt_obeys; [exact Hm|]. intros _ _ ev _ Hev. rewrite omap_app. apply Forall_app. split; [done|].
  induction Hev as [|e ev He _ IH]; [done|]. cbn. destruct (sent_of e) as [[c q]|] eqn:Hs; [|done].
  constructor; [|exact IH]. destruct (He _ _ Hs) as [H1 H2]. exists []. cbn. rewrite H1, H2. by destruct with_data.
Qed.

Lemma sends_log r : wpt (_send_entries flags env)
  (fun _ _ tr => Forall (fun cq => carries_log (sends_data flags r) cq.2) (sent tr)) r [].
Proof.
  unfold _send_entries. apply wpt_bind, wpt_get. destruct (_ || _); [by apply wpt_skip|].
  unfold _fill_common_fields. apply wpt_bind, wpt_bind, wpt_get.
  destruct (_ && _); cbn [negb].
  { apply wpt_bind. unfold Replicator.check. destruct (_ <? _); wpt_step; wpt_step; (apply probing_carries; [|done]);
      (apply obeys_bind; [exact _|apply probing_reset|intros; apply probing_install_snapshot]). }
  apply wpt_ret. cbv zeta. apply wpt_bind.
  destruct (prepare_spec flags env (Z.to_nat (raft_max_entries_size flags - r.(_flying_append_entries_size))) 0 [] r)
    as [[x Hx] (es & Hes & Hget & Hlen)].
  destruct (still_prepare flags env (Z.to_nat (raft_max_entries_size flags - r.(_flying_append_entries_size))) 0 [] r) as [_ He].
  unfold wpt at 1. rewrite Hx. destruct (value_of _) as [p rc]. cbn in Hes. subst p.
  destruct (quiet_app [] _ He) as (Hs & _ & _).
  case_bool_decide as Hem; [by apply probing_carries; [apply probing_nothing_to_send|rewrite Hs]|].
  unfold send_rpc, new_controller. wpt_go. apply probing_carries; [apply probing_wait_more|].
  rewrite omap_app, Hs. cbn. constructor; [|done]. cbn. exists es. cbn. split; [|done].
  intros k e Hk. rewrite <- (Hget k e Hk). f_equal. lia.
Qed.

(** C12: what a follower parses from any request [_send_entries] makes is the sequence
    of entries the leader's log holds from the request's first index on, with its last
    index, and the parser's checks hold. The peers of a configuration entry travel as
    text, printed by [to_string] and parsed by [PeerId(const std::string&)], which
    checks that it succeeds. The entries of the log are those a leader may hold
    ([wire_ok]): they have their index, none is of unknown type, only a configuration
    entry has peers, its old peers are absent or at least one, the fields of peers are
    in the width of their texts, and the data of each is shorter than 2^31 bytes. To a
    witness, unless raft_enable_witness_to_leader is set, the entries come without
    their data. *)
Theorem follower_reads_what_was_sent r call q :
  (forall i e, env.(Replicator.get_entry) i = Some e -> wire_ok i e) ->
  (call, q) ∈ sent (events_of (_send_entries flags env r)) ->
  exists es, (forall k e, es !! k = Some e ->
      env.(Replicator.get_entry) (q.(ae_prev_log_index) + 1 + Z.of_nat k) = Some e) /\
    length es = length q.(ae_entries) /\
    parse_entries q.(ae_prev_log_index) q.(ae_entries) q.(ae_attachment) =
      (map (as_sent (sends_data flags r)) es, q.(ae_prev_log_index) + zlen es, true).
Proof.
  intros Hok Hin. pose proof (sends_log r) as Hw. unfold wpt in Hw. cbn [app] in Hw. rewrite Forall_forall in Hw.
  destruct (Hw _ Hin) as (es & Hget & He & Ha). cbn in Hget, He, Ha. exists es. split; [done|].
  rewrite He, Ha, length_map. split; [done|]. apply parse_metas_of. intros k e Hk. by apply Hok, Hget.
Qed.
End wire.
