(* ===== verification/ReplicatorGroup.v ===== *)
(** * ReplicatorGroup: the replicators of a leader

    Models the class [ReplicatorGroup] of [src/braft/replicator.h] and
    [src/braft/replicator.cpp].  The replicators themselves are in a store, by
    id: a stopped one stays there with its id no longer valid, as its status,
    which the group shares, outlives it.  The map from peers to replicators is
    the list of its entries in the order of its keys. *)

From S2P Require Import Prelude Types PeerText FsmCaller NodeState Replicator.

(** The fields of [_common_options] that vary are its term and the server. *)
Record ReplicatorGroup : Type := mkReplicatorGroup {
  _rmap : list (PeerId * Z);
  common_server_id : PeerId;
  common_term : Z;
  _dynamic_timeout_ms : Z;
  _election_timeout_ms : Z;
  replicators : gmap Z Replicator;
  last_id : Z
}.
#[export] Instance ReplicatorGroup_eta : Settable ReplicatorGroup := fun g =>
  mkReplicatorGroup g.(_rmap) g.(common_server_id) g.(common_term) g.(_dynamic_timeout_ms)
    g.(_election_timeout_ms) g.(replicators) g.(last_id).

(** What the replicator with an id does. *)
Inductive GroupEvent : Set :=
| On (id : Z) (e : Event)
| GroupCheckFailed.

Abbreviation GM := (M ReplicatorGroup GroupEvent).

(** [INVALID_BTHREAD_ID.value]. *)
Definition INVALID_ID : Z := 0.

Definition ReplicatorGroup_default : ReplicatorGroup :=
  mkReplicatorGroup [] PeerId_default 0 (-1) (-1) ∅ INVALID_ID.

Definition group_check (b : bool) : GM unit := if b then skip else emit GroupCheckFailed.

(** A static function of [Replicator] on the id: [gone] when there is none. *)
Definition on {A} (id : Z) (gone : A) (m : RM A) : GM A := fun g =>
  match g.(replicators) !! id with
  | None => (gone, g, [])
  | Some r =>
      let '(a, r, ev) := m r in
      (a, g <| replicators := <[id := r]> g.(replicators) |>, map (On id) ev)
  end.

Section group.
Context `{EPO : EndPointOrder} `{IT : IpText}.

(** ** The map *)
Definition rmap_find (p : PeerId) (l : list (PeerId * Z)) : option Z :=
  snd <$> find (fun e => peer_eqb e.1 p) l.
Definition rmap_erase (p : PeerId) (l : list (PeerId * Z)) : list (PeerId * Z) :=
  filter (fun e => peer_eqb e.1 p = false) l.
(** [_rmap[p] = id]. *)
Fixpoint rmap_set (p : PeerId) (id : Z) (l : list (PeerId * Z)) : list (PeerId * Z) :=
  match l with
  | [] => [(p, id)]
  | (q, i) :: l' =>
      if peer_ltb p q then (p, id) :: l
      else if peer_ltb q p then (q, i) :: rmap_set p id l'
      else (q, id) :: l'
  end.

Variable flags : Flags.
(** The answers of the other parts; the two timeouts are the group's. *)
Variable env : ReplicatorGroup -> Env.
Variable shuffle : list (PeerId * Z) -> list (PeerId * Z).

(** ** Operations *)
Definition init (server : PeerId) (heartbeat_timeout_ms election_timeout_ms : Z) : GM Errno :=
  modify (fun g => g <| _dynamic_timeout_ms := heartbeat_timeout_ms |> <| _election_timeout_ms := election_timeout_ms |>
                     <| common_term := 0 |> <| common_server_id := server |>) ;;
  mret OK.

Definition add_replicator (peer : PeerId) (channel_ok id_ok : bool) : GM Errno :=
  g ← get;
  group_check (negb (g.(common_term) =? 0)) ;;
  match rmap_find peer g.(_rmap) with
  | Some _ => mret OK
  | None =>
      let id := g.(last_id) + 1 in
      let '(rc, started, ev) :=
        start flags (env g) (mkReplicatorOptions g.(common_server_id) peer g.(common_term)) channel_ok id_ok in
      emits (map (On id) ev) ;;
      match rc, started with
      | None, Some r =>
          modify (fun g => g <| replicators := <[id := r]> g.(replicators) |> <| last_id := id |>
                             <| _rmap := rmap_set peer id g.(_rmap) |>) ;;
          mret OK
      | _, _ => emit (On id StatusDelete) ;; mret ENEG1
      end
  end.

Definition wait_caughtup (peer : PeerId) (max_margin : Z) (due_time_us : option Z) (done : Closure) : GM Errno :=
  g ← get;
  match rmap_find peer g.(_rmap) with
  | None => mret ENEG1
  | Some id => on id tt (wait_for_caught_up (env g) max_margin due_time_us done) ;; mret OK
  end.

Definition last_rpc_send_timestamp_of (peer : PeerId) (g : ReplicatorGroup) : Z :=
  match rmap_find peer g.(_rmap) with
  | None => 0
  | Some id => match g.(replicators) !! id with Some r => r.(Replicator.last_rpc_send_timestamp) | None => 0 end
  end.

Definition stop_replicator (peer : PeerId) : GM Errno :=
  g ← get;
  match rmap_find peer g.(_rmap) with
  | None => mret ENEG1
  | Some id =>
      modify (fun g => g <| _rmap := rmap_erase peer g.(_rmap) |>) ;;
      on id OK (stop flags (env g))
  end.

Definition stop_id (id : Z) : GM unit := g ← get; on id OK (stop flags (env g)) ;; skip.

Definition stop_all : GM Errno :=
  g ← get;
  let rids := g.(_rmap).*2 in
  modify (fun g => g <| _rmap := [] |>) ;;
  mapM_ stop_id rids ;;
  mret OK.

Definition group_contains (peer : PeerId) (g : ReplicatorGroup) : bool :=
  bool_decide (is_Some (rmap_find peer g.(_rmap))).

Definition reset_term (new_term : Z) : GM Errno :=
  g ← get;
  if new_term <=? g.(common_term) then group_check (g.(common_term) <? new_term) ;; mret ENEG1
  else modify (fun g => g <| common_term := new_term |>) ;; mret OK.

Definition reset_heartbeat_interval (new_interval_ms : Z) : GM Errno :=
  modify (fun g => g <| _dynamic_timeout_ms := new_interval_ms |>) ;; mret OK.
Definition reset_election_timeout_interval (new_interval_ms : Z) : GM Errno :=
  modify (fun g => g <| _election_timeout_ms := new_interval_ms |>) ;; mret OK.

Definition transfer_leadership_to (peer : PeerId) (log_index : Z) : GM Errno :=
  g ← get;
  match rmap_find peer g.(_rmap) with
  | None => mret EINVAL
  | Some id =>
      consecutive_error_times ← on id (-1) get_consecutive_error_times;
      if 0 <? consecutive_error_times then mret EHOSTUNREACH
      else on id EINVAL (transfer_leadership log_index)
  end.

Definition stop_transfer_leadership_of (peer : PeerId) : GM Errno :=
  g ← get;
  match rmap_find peer g.(_rmap) with
  | None => mret ENEG1
  | Some id => on id EINVAL stop_transfer_leadership
  end.

(** The loop of [find_the_next_candidate]. *)
Fixpoint candidate_loop (conf : ConfigurationEntry) (peers : list (PeerId * Z)) (max_index : Z)
    (best : option (PeerId)) : GM (Z * option PeerId) :=
  match peers with
  | [] => mret (max_index, best)
  | (p, id) :: peers =>
      if negb (conf_contains conf p) then candidate_loop conf peers max_index best
      else
        next_index ← on id 0 get_next_index;
        consecutive_error_times ← on id (-1) get_consecutive_error_times;
        if (consecutive_error_times =? 0) && (max_index <? next_index) && negb (is_witness p)
        then candidate_loop conf peers next_index (Some p)
        else candidate_loop conf peers max_index best
  end.

(** The peer it finds, or [None] for [-1]. *)
Definition find_the_next_candidate (conf : ConfigurationEntry) : GM (option PeerId) :=
  g ← get;
  r ← candidate_loop conf (shuffle g.(_rmap)) 0 None;
  let '(max_index, best) := r in
  mret (if max_index =? 0 then None else best).

Definition stop_all_and_find_the_next_candidate (conf : ConfigurationEntry) : GM Z :=
  found ← find_the_next_candidate conf;
  g ← get;
  let candidate :=
    match found with Some p => default INVALID_ID (rmap_find p g.(_rmap)) | None => INVALID_ID end in
  mapM_ (fun e : PeerId * Z => when (negb (e.2 =? candidate)) (stop_id e.2)) g.(_rmap) ;;
  modify (fun g => g <| _rmap := [] |>) ;;
  mret candidate.

Definition list_replicators (g : ReplicatorGroup) : list Z := g.(_rmap).*2.
Definition list_peer_replicators (g : ReplicatorGroup) : list (PeerId * Z) := g.(_rmap).

Definition change_readonly_config_of (peer : PeerId) (readonly : bool) : GM Errno :=
  g ← get;
  match rmap_find peer g.(_rmap) with
  | None => mret ENEG1
  | Some id => on id OK (change_readonly_config flags (env g) readonly)
  end.

Definition peer_readonly (peer : PeerId) : GM bool :=
  g ← get;
  match rmap_find peer g.(_rmap) with
  | None => mret false
  | Some id => on id false readonly
  end.
End group.
