(* ===== verification/ReplicatorGroupProofs.v ===== *)
(** * ReplicatorGroupProofs: the candidate a leader leaves behind *)

From S2P Require Import Prelude Types PeerText FsmCaller NodeState Replicator ReplicatorRuns ReplicatorProofs ReplicatorSafety ReplicatorGroup.

(** ** What the group reads of its replicators *)
Definition next_of (g : ReplicatorGroup) (id : Z) : Z :=
  match g.(replicators) !! id with
  | Some r => if r.(valid_id) && r.(_has_succeeded) then _min_flying_index r else 0
  | None => 0
  end.
Definition errors_of (g : ReplicatorGroup) (id : Z) : Z :=
  match g.(replicators) !! id with
  | Some r => if r.(valid_id) then r.(_consecutive_error_times) else -1
  | None => -1
  end.
Definition stopped (g : ReplicatorGroup) (id : Z) : Prop :=
  match g.(replicators) !! id with Some r => r.(valid_id) = false | None => True end.

(** A peer that may be handed the leadership. *)
Definition eligible (g : ReplicatorGroup) (conf : ConfigurationEntry) (e : PeerId * Z) : Prop :=
  conf_contains conf e.1 = true /\ errors_of g e.2 = 0 /\ is_witness e.1 = false.

Lemma on_pure {A} id (gone : A) (m : RM A) (f : Replicator -> A) g :
  (forall r, m r = (f r, r, [])) ->
  on id gone m g = (match g.(replicators) !! id with Some r => f r | None => gone end, g, []).
Proof.
  intros Hm. unfold on. destruct (g.(replicators) !! id) as [r|] eqn:Hr; [|done]. rewrite Hm. cbn.
  rewrite insert_id by done. by destruct g.
Qed.

Lemma on_next_index id g : on id 0 get_next_index g = (next_of g id, g, []).
Proof.
  rewrite (on_pure id 0 _ (fun r => if r.(valid_id) && r.(_has_succeeded) then _min_flying_index r else 0)); [done|].
  intros r. unfold get_next_index, locked. run. by destruct (valid_id r).
Qed.
Lemma on_error_times id g : on id (-1) get_consecutive_error_times g = (errors_of g id, g, []).
Proof.
  rewrite (on_pure id (-1) _ (fun r => if r.(valid_id) then r.(_consecutive_error_times) else -1)); [done|].
  intros r. unfold get_consecutive_error_times, locked. run. by destruct (valid_id r).
Qed.

(** ** The choice of a candidate *)
Lemma candidate_loop_spec conf g peers max best :
  exists max' best', candidate_loop conf peers max best g = ((max', best'), g, []) /\ max <= max' /\
    (forall e, e ∈ peers -> eligible g conf e -> next_of g e.2 <= max') /\
    ((max' = max /\ best' = best) \/
     exists e, e ∈ peers /\ eligible g conf e /\ best' = Some e.1 /\ max' = next_of g e.2 /\ max < max').
Proof.
  revert max best. induction peers as [|[p id] peers IH]; intros max best; cbn [candidate_loop].
  { exists max, best. split_and!; [done|lia| |by left]. by intros e ?%elem_of_nil. }
  assert (forall max1 best1, (max1 = max /\ best1 = best /\ ~ (eligible g conf (p, id) /\ max < next_of g id)) \/
      (eligible g conf (p, id) /\ max < next_of g id /\ max1 = next_of g id /\ best1 = Some p) ->
      exists max' best', candidate_loop conf peers max1 best1 g = ((max', best'), g, []) /\ max <= max' /\
      (forall e, e ∈ (p, id) :: peers -> eligible g conf e -> next_of g e.2 <= max') /\
      ((max' = max /\ best' = best) \/
       exists e, e ∈ (p, id) :: peers /\ eligible g conf e /\ best' = Some e.1 /\ max' = next_of g e.2 /\ max < max')) as Hgo.
  { intros max1 best1 Hcase. destruct (IH max1 best1) as (max' & best' & Hl & Hle & Hub & Hwho).
    exists max', best'. split; [done|]. split; [destruct Hcase as [(-> & _)|(_ & ? & -> & _)]; lia|]. split.
    - intros e [->|Hin]%elem_of_cons He; [cbn|by apply Hub].
      destruct Hcase as [(-> & _ & Hn)|(_ & _ & -> & _)]; [|done].
      destruct (decide (max < next_of g id)); [by destruct Hn|lia].
    - destruct Hwho as [[-> ->]|(e & Hin & ? & ? & ? & ?)].
      + destruct Hcase as [(-> & -> & _)|(He & ? & -> & ->)]; [by left|right].
        exists (p, id). split_and!; try done. apply list_elem_of_here.
      + right. exists e. split_and!; try done; [by apply list_elem_of_further|].
        destruct Hcase as [(-> & _)|(_ & ? & -> & _)]; lia. }
  destruct (conf_contains conf p) eqn:Hc; cbn [negb]; [|apply Hgo; left; split_and!; try done; intros [[? _] _]; cbn in *; congruence].
  rewrite (bind_quiet _ _ _ _ _ (on_next_index id g)), (bind_quiet _ _ _ _ _ (on_error_times id g)).
  destruct (_ && _ && _) eqn:Hif; apply Hgo.
  - right. apply andb_prop in Hif as [[He%Z.eqb_eq Hlt%Z.ltb_lt]%andb_prop Hw%negb_true_iff]. done.
  - left. split_and!; try done. intros [(_ & He & Hw) Hlt]. cbn in He, Hw.
    rewrite He, Hw, (proj2 (Z.ltb_lt _ _) Hlt) in Hif. done.
Qed.

Section candidate.
Context `{EPO : EndPointOrder} `{IT : IpText}.
Variable flags : Flags.
Variable env : ReplicatorGroup -> Env.
Variable shuffle : list (PeerId * Z) -> list (PeerId * Z).
Hypothesis Hshuffle : forall l, shuffle l ≡ₚ l.

Lemma find_candidate_spec conf g :
  exists found, find_the_next_candidate shuffle conf g = (found, g, []) /\
    match found with
    | Some p => exists id, (p, id) ∈ g.(_rmap) /\ eligible g conf (p, id) /\ 0 < next_of g id /\
        forall e, e ∈ g.(_rmap) -> eligible g conf e -> next_of g e.2 <= next_of g id
    | None => forall e, e ∈ g.(_rmap) -> eligible g conf e -> next_of g e.2 <= 0
    end.
Proof.
  unfold find_the_next_candidate. rewrite get_bind.
  destruct (candidate_loop_spec conf g (shuffle g.(_rmap)) 0 None) as (max & best & Hl & Hle & Hub & Hwho).
  rewrite (bind_quiet _ _ _ _ _ Hl). cbn. eexists. split; [done|]. setoid_rewrite Hshuffle in Hub.
  destruct Hwho as [[-> ->]|([p id] & Hin & He & -> & -> & Hlt)]; [done|]. cbn in *.
  destruct (Z.eqb_spec (next_of g id) 0); [lia|]. exists id. rewrite Hshuffle in Hin. done.
Qed.

(** ** The map: one entry for each peer *)
Definition keys_apart (l : list (PeerId * Z)) : Prop := forall e1 e2, e1 ∈ l -> e2 ∈ l -> e1.1 ≡ e2.1 -> e1 = e2.

Lemma rmap_find_elem p id l : keys_apart l -> (p, id) ∈ l -> rmap_find p l = Some id.
Proof.
  intros Ha Hin. unfold rmap_find. destruct (find _ l) as [e|] eqn:Hf; cbn.
  - apply find_some in Hf as [He%list_elem_of_In Hp]. by rewrite (Ha _ _ He Hin Hp).
  - eapply find_none in Hf; [|by apply list_elem_of_In]. cbn in Hf. by rewrite peer_eqb_refl in Hf.
Qed.

Lemma rmap_set_elem p id l e : rmap_find p l = None -> e ∈ rmap_set p id l <-> e = (p, id) \/ e ∈ l.
Proof.
  unfold rmap_find. induction l as [|[q i] l IH]; cbn [rmap_set find]; [by rewrite elem_of_cons|].
  cbn. destruct (peer_eqb q p) eqn:Hq; cbn; [done|]. intros Hn.
  destruct (peer_ltb p q) eqn:Hpq; [by rewrite elem_of_cons|].
  destruct (peer_ltb q p) eqn:Hqp; [rewrite !elem_of_cons, (IH Hn); tauto|].
  pose proof (proj2 (peer_eqb_equiv _ _) (peer_ltb_total _ _ Hqp Hpq)). congruence.
Qed.

Lemma keys_apart_set p id l : keys_apart l -> rmap_find p l = None -> keys_apart (rmap_set p id l).
Proof.
  intros Ha Hn e1 e2 H1 H2 Heq. apply rmap_set_elem in H1, H2; try done.
  assert (forall e, e ∈ l -> e.1 ≢ p) as Habs.
  { intros e He Hp. unfold rmap_find in Hn. destruct (find _ l) eqn:Hf; [done|].
    eapply find_none in Hf; [|by apply list_elem_of_In]. cbn in Hf.
    apply peer_eqb_equiv in Hp. congruence. }
  destruct H1 as [->|H1], H2 as [->|H2]; cbn in Heq; [done|by destruct (Habs _ H2)|by destruct (Habs _ H1)|by apply Ha].
Qed.
Lemma keys_apart_erase p l : keys_apart l -> keys_apart (rmap_erase p l).
Proof. intros Ha e1 e2 [_ H1]%list_elem_of_filter [_ H2]%list_elem_of_filter. by apply Ha. Qed.

(** ** Stopping *)
Lemma on_leaves {A} id (a : A) m g : leaves (fun r => r.(valid_id) = false) m ->
  let g' := state_of (on id a m g) in
  g'.(_rmap) = g.(_rmap) /\ stopped g' id /\ (forall i, i <> id -> g'.(replicators) !! i = g.(replicators) !! i).
Proof.
  intros Hm. unfold on, stopped, state_of. destruct (g.(replicators) !! id) as [r|] eqn:Hr; cbn; [|by rewrite Hr].
  pose proof (Hm r) as Hs. unfold state_of in Hs. destruct (m r) as [[v r'] ev]. cbn in *.
  split_and!; [done|by rewrite lookup_insert_eq|]. intros i Hi. by rewrite lookup_insert_ne.
Qed.

Lemma stop_id_spec id g :
  let g' := state_of (stop_id flags env id g) in
  g'.(_rmap) = g.(_rmap) /\ stopped g' id /\ (forall i, i <> id -> g'.(replicators) !! i = g.(replicators) !! i).
Proof.
  unfold stop_id. rewrite get_bind. pose proof (on_leaves id OK _ g (stop_leaves flags (env g))) as H.
  unfold mbind, M_bind, state_of in *. by destruct (on id OK _ g) as [[v g'] ev].
Qed.

Lemma stop_others_spec candidate l g :
  let g' := state_of (mapM_ (fun e : PeerId * Z => when (negb (e.2 =? candidate)) (stop_id flags env e.2)) l g) in
  g'.(replicators) !! candidate = g.(replicators) !! candidate /\
  (forall i, stopped g i -> stopped g' i) /\ (forall e, e ∈ l -> e.2 <> candidate -> stopped g' e.2).
Proof.
  revert g. induction l as [|[p id] l IH]; intros g; [split_and!; [done..|]; by intros e ?%elem_of_nil|].
  rewrite mapM_cons. cbn zeta in *.
  assert (exists g1 e1, when (negb (id =? candidate)) (stop_id flags env id) g = (tt, g1, e1) /\
    g1.(replicators) !! candidate = g.(replicators) !! candidate /\ (forall i, stopped g i -> stopped g1 i) /\
    (id <> candidate -> stopped g1 id)) as (g1 & e1 & Hrun & Hc & Hmono & Hid).
  { destruct (Z.eqb_spec id candidate); cbn [negb when]; [by exists g, []|].
    destruct (stop_id_spec id g) as (_ & Hs & Ho). unfold state_of in *.
    destruct (stop_id flags env id g) as [[[] g1] e1]. cbn in *. exists g1, e1. split_and!; [done|by apply Ho| |done].
    intros i Hi. destruct (decide (i = id)) as [->|]; [done|]. unfold stopped in *. by rewrite Ho. }
  destruct (IH g1) as (IH1 & IH2 & IH3).
  unfold mbind, M_bind, state_of in *. cbn [snd fst]. rewrite Hrun. destruct (mapM_ _ l g1) as [[u g2] e2]. cbn in *.
  split_and!; [congruence|auto|]. intros e [->|Hin]%elem_of_cons Hne; [by apply IH2, Hid|by apply IH3].
Qed.

End candidate.
