(* ===== verification/ReplicatorExamples.v ===== *)
(** * ReplicatorExamples: runs of a replicator on a small log

    A leader's log of three entries is replicated to one follower, two entries
    at most in a request; the theorems about replicators applied to it; and
    runs that show what the invariant's assumption on block timers excludes. *)

From S2P Require Import Prelude Types PeerText FsmCaller NodeState LogManager NodeLog Replicator ReplicatorRuns ReplicatorProofs ReplicatorSafety ReplicatorWire ReplicatorGroup ReplicatorGroupProofs.

#[local] Existing Instances decimal_ip_text lex_endpoint_order.

(** ** A leader's log *)
Definition log_env (es : list LogEntry) : Replicator.Env :=
  Replicator.mkEnv 1 (zlen es)
    (fun i => match zget es (i - 1) with Some e => e.(id).(term) | None => 0 end)
    (fun i => zget es (i - 1))
    (fun _ => 7) 0 false None None 0 true false 0 1 100 1000.

Lemma log_env_ok es : Forall (fun e => e.(id).(term) <> 0) es -> env_ok (log_env es).
Proof.
  intros Hes. split; cbn; [apply zlen_nonneg| | |done].
  - intros i e [? Hl]%zget_Some. apply lookup_lt_Some in Hl. unfold zlen. lia.
  - intros i Hz Hi Hlast. destruct (zget es (i - 1)) as [e|] eqn:He.
    + apply zget_Some in He as [_ He]. rewrite Forall_lookup in Hes. by destruct (Hes _ _ He).
    + destruct (decide (1 <= i)); [|lia]. destruct (zget_is_Some es (i - 1)) as [e He']; [lia|congruence].
Qed.
Lemma env_later_refl e : env_later e e.
Proof. split; [lia|lia|done|done]. Qed.

Definition follower_peer : PeerId := mkPeerId (mkEndPoint 1 8000) 0 REPLICA.
Definition leader_peer : PeerId := mkPeerId (mkEndPoint 2 8000) 0 REPLICA.

Definition user_entry (i : Z) (b : Byte.byte) : LogEntry := mkLogEntry ENTRY_TYPE_DATA (mkLogId i 2) None None [b; b].
Definition three_entries : list LogEntry :=
  [mkLogEntry ENTRY_TYPE_CONFIGURATION (mkLogId 1 2) (Some [leader_peer; follower_peer]) None [];
   user_entry 2 Byte.x61; user_entry 3 Byte.x62].
Definition small_env : Replicator.Env := log_env three_entries.
Definition small_flags : Flags := mkFlags 2 2 1000 100 false.
Definition small_options : ReplicatorOptions := mkReplicatorOptions leader_peer follower_peer 2.

Lemma small_env_ok : env_ok small_env.
Proof. apply log_env_ok. repeat constructor; done. Qed.

Definition no_world : World := mkWorld (Replicator_new small_options) small_env [] [] [].
Definition world0 : World :=
  match start small_flags small_env small_options true true with
  | (None, Some r, ev) => mkWorld r small_env ev [] []
  | _ => no_world
  end.
Lemma world0_started : started small_flags world0.
Proof. eexists small_options, _. split; [exact small_env_ok|]. split; [vm_compute; reflexivity|done]. Qed.

Definition run1 (w : World) (c : Call) : World := default no_world (run_call small_flags w small_env c).
Definition run_from (w : World) (cs : list Call) : World := fold_left run1 cs w.

Lemma run1_reachable w c : reachable small_flags w -> w.(env) = small_env -> call_ok w c ->
  is_Some (run_call small_flags w small_env c) -> reachable small_flags (run1 w c).
Proof.
  intros (w0 & Hs & Hr) He Hc [w' Hw']. exists w0. split; [done|]. eapply rtc_r; [exact Hr|].
  exists small_env, c. unfold run1. rewrite Hw'. cbn. split; [exact small_env_ok|]. rewrite He.
  split; [apply env_later_refl|done].
Qed.

Definition no_match (last : Z) : AppendEntriesResponse := mkAppendEntriesResponse 2 false (Some last) None.
Definition matched : AppendEntriesResponse := mkAppendEntriesResponse 2 true None None.

(** The follower has nothing: the probe at index 4 fails, the one at 1 succeeds,
    and the first two entries are sent. *)
Definition probed : World := run1 world0 (CRpcReturned 1 OK (no_match 0) 5).
Definition sending : World := run1 probed (CRpcReturned 2 OK matched 6).

Lemma sending_reachable : reachable small_flags sending.
Proof.
  apply run1_reachable; [apply run1_reachable|vm_compute; reflexivity|vm_compute; discriminate|vm_compute; by eexists].
  - exists world0. split; [exact world0_started|constructor].
  - vm_compute. reflexivity.
  - vm_compute. discriminate.
  - vm_compute. by eexists.
Qed.

Definition first_entries : AppendEntriesRequest :=
  default (mkAppendEntriesRequest None 0 0 0 0 [] []) (request_of 3 (sent sending.(done_so_far))).

Lemma pipeline_in_order_witness :
  chain 1 [mkFlying 1 2 3] 3 /\ _min_flying_index sending.(rep) = 1.
Proof.
  destruct (pipeline_in_order small_flags ltac:(done) sending sending_reachable ltac:(vm_compute; reflexivity)) as [H _].
  split; [exact H|vm_compute; reflexivity].
Defined.

Lemma flying_entries_bounded_witness :
  Forall (fun cq => zlen cq.2.(ae_entries) <= 2) (sent sending.(done_so_far)) /\
  0 <= sending.(rep).(_flying_append_entries_size) <= 2.
Proof.
  destruct (flying_entries_bounded small_flags ltac:(done) sending sending_reachable ltac:(reflexivity)) as [H1 H2].
  split; [exact H1|apply H2; vm_compute; reflexivity].
Defined.

Definition acknowledged : World := run1 sending (CRpcReturned 3 OK matched 7).

Lemma acknowledged_reachable : reachable small_flags acknowledged.
Proof. apply run1_reachable; [exact sending_reachable|vm_compute; reflexivity|vm_compute; discriminate|vm_compute; by eexists]. Qed.



Lemma small_peers_ok : Forall peer_ok [leader_peer; follower_peer].
Proof. repeat constructor; unfold int32; cbn; lia. Qed.

Lemma small_wire_ok i e : small_env.(Replicator.get_entry) i = Some e -> wire_ok i e.
Proof.
  intros [Hi He]%zget_Some.
  destruct (Z.to_nat (i - 1)) as [|[|[|n]]] eqn:Hn; cbn in He; [| | |done]; injection He as <-.
  - split; [cbn; lia|]. split; [done|]. split; [done|]. split; [done|]. split; [done|]. split; [done|].
    split; [exact small_peers_ok|constructor].
  - split; [cbn; lia|]. by split.
  - split; [cbn; lia|]. by split.
Qed.

Lemma follower_reads_what_was_sent_witness :
  exists es, length es = 2%nat /\
    parse_entries first_entries.(ae_prev_log_index) first_entries.(ae_entries) first_entries.(ae_attachment) =
    (map (as_sent true) es, first_entries.(ae_prev_log_index) + zlen es, true).
Proof.
  destruct (follower_reads_what_was_sent small_flags small_env probed.(rep) 3
    first_entries) as (es & _ & Hl & Hp).
  - exact small_wire_ok.
  - vm_compute. apply list_elem_of_here.
  - assert (sends_data small_flags probed.(rep) = true) as Hsd by (vm_compute; reflexivity).
    rewrite Hsd in Hp. exists es. split; [rewrite Hl; vm_compute; reflexivity|exact Hp].
Defined.

(** ** A leader steps down *)
Definition no_shuffle (l : list (PeerId * Z)) : list (PeerId * Z) := l.
Definition group_env (_ : ReplicatorGroup) : Replicator.Env := small_env.
Definition other_peer : PeerId := mkPeerId (mkEndPoint 3 8000) 0 REPLICA.

Definition small_group : ReplicatorGroup :=
  mkReplicatorGroup [(follower_peer, 1); (other_peer, 2)] leader_peer 2 100 1000
    {[ 1 := acknowledged.(rep); 2 := world0.(rep) ]} 2.
Definition small_conf : ConfigurationEntry :=
  mkConfigurationEntry (mkLogId 1 2) [follower_peer; leader_peer; other_peer] [].


(** ** What the code does not exclude

    A follower fails while it is blocked, its readonly mode is switched off and
    entries are sent before the block timer fires: with one RPC at a time no
    waiter is registered, and the timer probes behind the entries in flight. *)
Definition one_at_a_time : Flags := mkFlags 2 1 1000 100 false.
Definition run_with (flags : Flags) (w : World) (cs : list Call) : World :=
  fold_left (fun w c => default no_world (run_call flags w small_env c)) cs w.

Theorem block_timer_probes_behind_entries :
  let w := run_with one_at_a_time probed
    [CChangeReadonlyConfig true; CRpcReturned 2 EHOSTDOWN matched 6; CChangeReadonlyConfig false;
     CContinueSending OK; CBlockTimedout; CContinueSending ETIMEDOUT] in
  last w.(done_so_far) = Some (SendAppendEntries 4 (mkAppendEntriesRequest (Some leader_peer) 2 2 2 0 [] [])) /\
  Replicator.CheckFailed ∈ w.(done_so_far) /\
  w.(rep).(_append_entries_in_fly) = [mkFlying 1 2 3; mkFlying 3 0 4].
Proof. vm_compute. split_and!; [reflexivity| |reflexivity]. repeat first [apply list_elem_of_here|apply list_elem_of_further]. Qed.

(** The readonly mode is switched off while a probe is in flight, and entries are
    sent behind it: the answer to the probe takes the entries out of flight, and
    their own acknowledgement is ignored, so that they are never reported. *)
Theorem probe_ack_forgets_entries :
  let w := run_from probed
    [CChangeReadonlyConfig true; CChangeReadonlyConfig false; CContinueSending OK;
     CRpcReturned 2 OK matched 6; CRpcReturned 3 OK matched 6; CRpcReturned 4 OK matched 6] in
  map (fun cq => (cq.2.(ae_prev_log_index) + 1, zlen cq.2.(ae_entries))) (sent w.(done_so_far)) =
    [(4, 0); (1, 0); (1, 2); (3, 1)] /\
  commits w.(done_so_far) = [(3, 3, follower_peer)].
Proof. vm_compute. split; reflexivity. Qed.

(** When no bthread id can be had, [start] has released the status, the object
    [add_replicator] deletes. *)
Theorem failed_start_deletes_status_twice :
  events_of (add_replicator small_flags group_env other_peer true false
    (mkReplicatorGroup [] leader_peer 2 100 1000 ∅ 0)) =
  [On 1 NodeAddRef; On 1 StatusAddRef; On 1 NodeRelease; On 1 StatusRelease; On 1 StatusDelete].
Proof. vm_compute. reflexivity. Qed.
