(* ===== verification/SnapshotExecutor.v ===== *)
(** * SnapshotExecutor: saving, installing and loading snapshots

    Models the class [SnapshotExecutor] of [src/braft/snapshot_executor.h] and
    [src/braft/snapshot_executor.cpp].  Each definition is what runs under
    [_mutex], or what runs between two such sections: a job that gives the lock
    up goes on with a later definition, and the whole function is their
    composition.  [DownloadingSnapshot] objects are kept by address, as a retry
    overwrites the one being downloaded; what has been put in the response of an
    RPC is kept by the RPC until its closure runs.  What the state machine
    caller, the storage, its writers, readers and copiers and the throttle
    answer are arguments. *)

From S2P Require Import Prelude Types PeerText FsmCaller NodeState Replicator.

(** ** Data *)
Record DownloadingSnapshot : Set := mkDownloadingSnapshot { ds_request : InstallSnapshotRequest; ds_rpc : Closure }.

(** A response: its fields, and the error of the controller. *)
Record Reply : Set := mkReply { reply_term : Z; reply_success : bool; reply_failed : Errno }.
#[export] Instance Reply_eta : Settable Reply := fun r => mkReply r.(reply_term) r.(reply_success) r.(reply_failed).
Definition Reply_default : Reply := mkReply 0 false OK.

(** [SnapshotMeta()]. *)
Definition SnapshotMeta_default : SnapshotMeta := mkSnapshotMeta 0 0 [] [].

Record SnapshotExecutor : Type := mkSnapshotExecutor {
  _last_snapshot_term : Z;
  _last_snapshot_index : Z;
  _term : Z;
  _saving_snapshot : bool;
  _loading_snapshot : bool;
  _stopped : bool;
  _cur_copier : bool;
  _node : bool;
  _downloading_snapshot : option positive;
  _loading_snapshot_meta : SnapshotMeta;
  _running_jobs : Z;
  _snapshot_throttle : bool;
  downloads : gmap positive DownloadingSnapshot;
  replies : gmap positive Reply
}.
#[export] Instance SnapshotExecutor_eta : Settable SnapshotExecutor := fun s =>
  mkSnapshotExecutor s.(_last_snapshot_term) s.(_last_snapshot_index) s.(_term) s.(_saving_snapshot)
    s.(_loading_snapshot) s.(_stopped) s.(_cur_copier) s.(_node) s.(_downloading_snapshot)
    s.(_loading_snapshot_meta) s.(_running_jobs) s.(_snapshot_throttle) s.(downloads) s.(replies).

(** [SnapshotExecutor::SnapshotExecutor]. *)
Definition SnapshotExecutor_default : SnapshotExecutor :=
  mkSnapshotExecutor 0 0 0 false false false false false None SnapshotMeta_default 0 false ∅ ∅.

Inductive Event : Set :=
| RunClosure (c : Closure) (e : Errno)
| ClearBufferedLogs
| FsmSnapshotSave
| FsmSnapshotLoad
| FsmError (e : Errno)
| WriterError (e : Errno)
| CloseWriter
| CloseReader
| StartCopy (uri : string)
| CancelCopy
| CloseCopier
| SetSnapshot (meta : SnapshotMeta)
| UpdateConfiguration
| Respond (rpc : Closure) (r : Reply)
| FinishThrottled
| StorageCreated
| NullNode
| NullStorage
| CheckFailed.

Abbreviation SM := (M SnapshotExecutor Event).

Definition check (b : bool) : SM unit := if b then skip else emit CheckFailed.
Definition run_done (done : option Closure) (e : Errno) : SM unit :=
  match done with Some c => emit (RunClosure c e) | None => skip end.

(** A log line that prints [_node->node_id()] without looking at [_node]. *)
Definition log_node : SM unit := s ← get; if s.(_node) then skip else emit NullNode.

Definition report_error (e : Errno) : SM unit := emit (FsmError e).
Definition signal : SM unit := modify (fun s => s <| _running_jobs := s.(_running_jobs) - 1 |>).
Definition add_count : SM unit := modify (fun s => s <| _running_jobs := s.(_running_jobs) + 1 |>).

(** ** Responses *)
Definition reply_of (rpc : Closure) (s : SnapshotExecutor) : Reply := default Reply_default (s.(replies) !! rpc).
Definition set_reply (rpc : Closure) (f : Reply -> Reply) : SM unit :=
  modify (fun s => s <| replies := <[rpc := f (reply_of rpc s)]> s.(replies) |>).
Definition set_term (rpc : Closure) (t : Z) : SM unit := set_reply rpc (fun r => r <| reply_term := t |>).
Definition set_success (rpc : Closure) (b : bool) : SM unit := set_reply rpc (fun r => r <| reply_success := b |>).
Definition set_failed (rpc : Closure) (e : Errno) : SM unit := set_reply rpc (fun r => r <| reply_failed := e |>).
(** [done->Run()]. *)
Definition respond (rpc : Closure) : SM unit :=
  s ← get;
  emit (Respond rpc (reply_of rpc s)) ;;
  modify (fun s => s <| replies := delete rpc s.(replies) |>).

(** [delete] of a [DownloadingSnapshot]. *)
Definition free (i : positive) : SM unit := modify (fun s => s <| downloads := delete i s.(downloads) |>).

(** ** Saving *)
Record WriterAnswers : Set := mkWriterAnswers { save_meta_ok : bool; writer_ok : bool; close_writer_ok : bool }.

Record SaveEnv : Set := mkSaveEnv {
  last_applied_index : Z;
  raft_do_snapshot_min_index_gap : Z;
  create_writer : bool;
  on_snapshot_save_rc : Errno;
  writer_when_refused : WriterAnswers
}.

(** The first section of [on_snapshot_save_done]: the return code so far, and
    whether the writer is still without an error. *)
Definition save_done_check (st : Errno) (meta : SnapshotMeta) (w : WriterAnswers) : SM (Errno * bool) :=
  s ← get;
  if ok st && (meta.(last_included_index) <=? s.(_last_snapshot_index))
  then emit (WriterError ESTALE) ;; mret (ESTALE, false)
  else mret (st, w.(writer_ok)).

(** Outside the lock. *)
Definition save_done_write (ret : Errno) (w_ok : bool) (w : WriterAnswers) : SM Errno :=
  ret ← (if ok ret then if w.(save_meta_ok) then mret OK else log_node ;; mret EIO
         else when w_ok (emit (WriterError ret)) ;; mret ret);
  emit CloseWriter ;;
  if w.(close_writer_ok) then mret ret else log_node ;; mret EIO.

(** The last sections; [set_snapshot] is called between them. *)
Definition save_done_finish (ret : Errno) (meta : SnapshotMeta) : SM Errno :=
  when (ok ret)
    (modify (fun s => s <| _last_snapshot_index := meta.(last_included_index) |>
                       <| _last_snapshot_term := meta.(last_included_term) |>) ;;
     emit (SetSnapshot meta)) ;;
  when (bool_decide (ret = EIO)) (report_error EIO) ;;
  modify (fun s => s <| _saving_snapshot := false |>) ;;
  signal ;;
  mret ret.

Definition on_snapshot_save_done (st : Errno) (meta : SnapshotMeta) (w : WriterAnswers) : SM Errno :=
  p ← save_done_check st meta w;
  ret ← save_done_write p.1 p.2 w;
  save_done_finish ret meta.

(** The end of [SaveSnapshotDone::continue_run]. *)
Definition save_done_user (st ret : Errno) (done : option Closure) : SM unit :=
  run_done done (if negb (ok ret) && ok st then ret else st).
Definition continue_run (st : Errno) (meta : SnapshotMeta) (w : WriterAnswers) (done : option Closure) : SM unit :=
  ret ← on_snapshot_save_done st meta w;
  save_done_user st ret done.

(** The value tells whether a saving job was started. *)
Definition do_snapshot (env : SaveEnv) (done : option Closure) : SM bool :=
  s ← get;
  if s.(_stopped) then run_done done EPERM ;; mret false
  else if bool_decide (s.(_downloading_snapshot) <> None) then run_done done EBUSY ;; mret false
  else if s.(_saving_snapshot) then run_done done EBUSY ;; mret false
  else if env.(last_applied_index) - s.(_last_snapshot_index) <? env.(raft_do_snapshot_min_index_gap) then
    emit ClearBufferedLogs ;; run_done done OK ;; mret false
  else if negb env.(create_writer) then run_done done EIO ;; report_error EIO ;; mret false
  else
    modify (fun s => s <| _saving_snapshot := true |>) ;;
    emit FsmSnapshotSave ;;
    if negb (ok env.(on_snapshot_save_rc)) then
      (match done with
       | Some _ => continue_run EHOSTDOWN SnapshotMeta_default env.(writer_when_refused) done
       | None => skip
       end) ;; mret false
    else add_count ;; mret true.

(** ** Loading *)

(** [on_snapshot_load_done], up to where it gives the lock up, and the rest; [m] is
    the download it read. *)
Definition load_done_first (st : Errno) : SM (option positive) :=
  s ← get;
  check s.(_loading_snapshot) ;;
  when (ok st)
    (modify (fun s => s <| _last_snapshot_index := s.(_loading_snapshot_meta).(last_included_index) |>
                       <| _last_snapshot_term := s.(_loading_snapshot_meta).(last_included_term) |>) ;;
     emit (SetSnapshot s.(_loading_snapshot_meta))) ;;
  when s.(_node) (emit UpdateConfiguration) ;;
  mret s.(_downloading_snapshot).

Definition load_done_last (st : Errno) (m : option positive) : SM unit :=
  modify (fun s => s <| _loading_snapshot := false |> <| _downloading_snapshot := None |>) ;;
  s ← get;
  (match m ≫= fun i => s.(downloads) !! i with
   | Some ds =>
       (if negb (ok st) then set_failed ds.(ds_rpc) st else set_success ds.(ds_rpc) true) ;;
       respond ds.(ds_rpc) ;;
       (match m with Some i => free i | None => skip end)
   | None => skip
   end) ;;
  signal.

Definition on_snapshot_load_done (st : Errno) : SM unit := m ← load_done_first st; load_done_last st m.
(** [InstallSnapshotDone::Run] closes the reader when it is deleted. *)
Definition install_done_run (st : Errno) : SM unit := on_snapshot_load_done st ;; emit CloseReader.

(** ** Installing *)
Inductive Registered : Set := Refused | Downloading | Retried.

(** [register_downloading_snapshot] of the object at [i]; [can_copy] is the answer
    of [start_to_copy_from]. *)
Definition start_download (i : positive) (ds : DownloadingSnapshot) (can_copy : bool) : SM Registered :=
  s ← get;
  modify (fun s => s <| _downloading_snapshot := Some i |>) ;;
  check (negb s.(_cur_copier)) ;;
  emit (StartCopy ds.(ds_request).(is_uri)) ;;
  if negb can_copy then
    modify (fun s => s <| _downloading_snapshot := None |> <| _cur_copier := false |>) ;;
    set_failed ds.(ds_rpc) EINVAL ;; mret Refused
  else modify (fun s => s <| _cur_copier := true |>) ;; add_count ;; mret Downloading.

(** A download is under way, of the object [m] at [j]. *)
Definition meet_download (j : positive) (m ds : DownloadingSnapshot) : SM Registered :=
  let old := m.(ds_request).(is_meta).(last_included_index) in
  let new := ds.(ds_request).(is_meta).(last_included_index) in
  s ← get;
  if old =? new then
    modify (fun s => s <| downloads := <[j := ds]> s.(downloads) |>) ;;
    set_failed m.(ds_rpc) EINTR ;;
    respond m.(ds_rpc) ;;
    mret Retried
  else if new <? old then set_failed ds.(ds_rpc) EINVAL ;; mret Refused
  else if s.(_loading_snapshot) then set_failed ds.(ds_rpc) EBUSY ;; mret Refused
  else
    check s.(_cur_copier) ;;
    emit CancelCopy ;;
    set_failed ds.(ds_rpc) EBUSY ;; mret Refused.

Definition register_downloading_snapshot (i : positive) (ds : DownloadingSnapshot) (can_copy : bool) : SM Registered :=
  s ← get;
  let rpc := ds.(ds_rpc) in
  if s.(_stopped) then set_failed rpc EHOSTDOWN ;; mret Refused
  else if negb (ds.(ds_request).(is_term) =? s.(_term)) then
    set_success rpc false ;; set_term rpc s.(_term) ;; mret Refused
  else if ds.(ds_request).(is_meta).(last_included_index) <=? s.(_last_snapshot_index) then
    set_term rpc s.(_term) ;; set_success rpc true ;; mret Refused
  else
    set_term rpc s.(_term) ;;
    if s.(_saving_snapshot) then set_failed rpc EBUSY ;; mret Refused
    else
      match s.(_downloading_snapshot) with
      | None => start_download i ds can_copy
      | Some j =>
          match s.(downloads) !! j with
          | Some m => meet_download j m ds
          | None => emit CheckFailed ;; mret Refused
          end
      end.

Definition finish_throttled : SM unit := s ← get; when s.(_snapshot_throttle) (emit FinishThrottled).

(** [install_snapshot] up to [_cur_copier->join()]: the object it goes on with. *)
Definition install_snapshot_begin (i : positive) (request : InstallSnapshotRequest) (rpc : Closure)
    (admitted can_copy : bool) : SM bool :=
  s ← get;
  if s.(_snapshot_throttle) && negb admitted then set_failed rpc EBUSY ;; respond rpc ;; mret false
  else
    let ds := mkDownloadingSnapshot request rpc in
    modify (fun s => s <| downloads := <[i := ds]> s.(downloads) |>) ;;
    r ← register_downloading_snapshot i ds can_copy;
    match r with
    | Downloading => s ← get; check s.(_cur_copier) ;; mret true
    | Refused =>
        finish_throttled ;;
        free i ;;
        respond rpc ;; mret false
    | Retried =>
        finish_throttled ;;
        free i ;; mret false
    end.

(** What the copier answers once it is joined: its error, its reader if any, and
    whether the reader is ok. *)
Record CopierAnswers : Set := mkCopierAnswers { copier_error : Errno; copier_reader : option bool }.

Definition load_downloading_snapshot (i : positive) (meta : SnapshotMeta) (c : CopierAnswers)
    (on_snapshot_load_rc : Errno) : SM bool :=
  s ← get;
  check (bool_decide (s.(_downloading_snapshot) = Some i)) ;;
  check s.(_cur_copier) ;;
  match s.(downloads) !! i with
  | None => emit CheckFailed ;; mret false
  | Some ds =>
      if negb (ok c.(copier_error)) then
        when (bool_decide (c.(copier_error) = EIO)) (report_error EIO) ;;
        when (bool_decide (c.(copier_reader) <> None)) (emit CloseReader) ;;
        set_failed ds.(ds_rpc) c.(copier_error) ;;
        emit CloseCopier ;;
        modify (fun s => s <| _cur_copier := false |> <| _downloading_snapshot := None |>) ;;
        signal ;;
        respond ds.(ds_rpc) ;; free i ;; mret false
      else
        emit CloseCopier ;;
        modify (fun s => s <| _cur_copier := false |>) ;;
        if negb (default false c.(copier_reader)) then
          when (bool_decide (c.(copier_reader) <> None)) (emit CloseReader) ;;
          modify (fun s => s <| _downloading_snapshot := None |>) ;;
          set_failed ds.(ds_rpc) EINTERNAL ;;
          signal ;;
          respond ds.(ds_rpc) ;; free i ;; mret false
        else
          modify (fun s => s <| _loading_snapshot := true |> <| _loading_snapshot_meta := meta |>) ;;
          emit FsmSnapshotLoad ;;
          if negb (ok on_snapshot_load_rc) then log_node ;; install_done_run EHOSTDOWN ;; mret false
          else mret true
  end.

(** The rest of [install_snapshot]; the value tells whether a load was queued. *)
Definition install_snapshot_end (i : positive) (meta : SnapshotMeta) (c : CopierAnswers) (rc : Errno) : SM bool :=
  finish_throttled ;;
  load_downloading_snapshot i meta c rc.

(** ** Interrupting and stopping *)
Definition interrupt_downloading_snapshot (new_term : Z) : SM unit :=
  s ← get;
  check (s.(_term) <=? new_term) ;;
  modify (fun s => s <| _term := new_term |>) ;;
  if bool_decide (s.(_downloading_snapshot) = None) then skip
  else if s.(_loading_snapshot) then skip
  else check s.(_cur_copier) ;; emit CancelCopy.

Definition is_installing_snapshot (s : SnapshotExecutor) : bool := bool_decide (s.(_downloading_snapshot) <> None).

Definition shutdown : SM unit :=
  s ← get;
  let saved_term := s.(_term) in
  modify (fun s => s <| _stopped := true |>) ;;
  interrupt_downloading_snapshot saved_term.

(** ** Starting *)
Record SnapshotExecutorOptions : Type := mkSnapshotExecutorOptions {
  uri : string;
  has_node : bool;
  init_term : Z;
  has_throttle : bool;
  copy_file : bool
}.
Record InitEnv : Type := mkInitEnv {
  create_storage : bool;
  storage_init_ok : bool;
  local_storage : bool;
  (** no snapshot, or what [load_meta] answers *)
  open_snapshot : option (option SnapshotMeta);
  fsm_loads : bool;
  load_status : Errno
}.

(** [init]; the state machine caller runs the load before [wait_for_run] returns. *)
Definition init (env : InitEnv) (o : SnapshotExecutorOptions) : SM Errno :=
  if bool_decide (o.(uri) = EmptyString) then log_node ;; mret ENEG1
  else
    modify (fun s => s <| _node := o.(has_node) |> <| _term := o.(init_term) |>) ;;
    if negb env.(create_storage) then log_node ;; mret ENEG1
    else
      emit StorageCreated ;;
      modify (fun s => s <| _snapshot_throttle := o.(has_throttle) |>) ;;
      if negb env.(storage_init_ok) then log_node ;; mret ENEG1
      else
        when (negb o.(copy_file) && negb env.(local_storage)) (emit NullStorage) ;;
        match env.(open_snapshot) with
        | None => mret OK
        | Some None => emit CloseReader ;; mret ENEG1
        | Some (Some meta) =>
            modify (fun s => s <| _loading_snapshot_meta := meta |> <| _loading_snapshot := true |>) ;;
            add_count ;;
            check env.(fsm_loads) ;;
            emit FsmSnapshotLoad ;;
            on_snapshot_load_done env.(load_status) ;;
            emit CloseReader ;;
            mret (if ok env.(load_status) then OK else ENEG1)
        end.
