(* ===== verification/SnapshotRuns.v ===== *)
(** * SnapshotRuns: one snapshot at a time, and every installation answered

    Runs of a snapshot executor as sequences of the sections its jobs are made
    of, in any order the lock allows, with the requests it has received.  At
    most one job runs at a time; each request to install a snapshot is answered
    once; and one that is answered with success finds the snapshot in place. *)

From S2P Require Import Prelude Types PeerText FsmCaller NodeState Replicator SnapshotExecutor.

(** ** Runs *)

(** A job between two of its sections: a save or a load the state machine caller
    has queued, a save that has written its files, a copy that is waited for, a
    load that has told the node. *)
Inductive Job : Set :=
| JSave (done : option Closure)
| JSaveFinish (done : option Closure) (st : Errno) (meta : SnapshotMeta) (ret : Errno)
| JCopy (i : positive) (meta : SnapshotMeta)
| JLoad
| JLoadLast (st : Errno) (m : option positive).

Record World : Type := mkWorld {
  se : SnapshotExecutor;
  jobs : list Job;
  trace : list Event;
  received : list (Closure * InstallSnapshotRequest)
}.

Inductive Section_ : Set :=
| DoSnapshot (env : SaveEnv) (done : option Closure)
| SaveDone (st : Errno) (meta : SnapshotMeta) (w : WriterAnswers)
| SaveFinish
| InstallSnapshot (i : positive) (request : InstallSnapshotRequest) (rpc : Closure) (admitted can_copy : bool)
| Copied (c : CopierAnswers) (on_snapshot_load_rc : Errno)
| LoadDone (st : Errno)
| LoadLast
| Interrupt (new_term : Z)
| Shutdown.

Definition new_job (started : bool) (j : Job) : list Job := if started then [j] else [].

(** A load the state machine caller refuses fails in the section that queues it;
    that another job's section comes before it is the run of a load that is queued
    and then fails with [EHOSTDOWN].

    One section: what it does, and the jobs there are after it.  [None]: there is
    no such job, or an address or an RPC that is not new. *)
Definition run_section (w : World) (c : Section_) : option (SM (list Job) * list (Closure * InstallSnapshotRequest)) :=
  let stay m := Some (m ;; mret w.(jobs), w.(received)) in
  match c, w.(jobs) with
  | DoSnapshot env done, js => Some (b ← do_snapshot env done; mret (js ++ new_job b (JSave done)), w.(received))
  | SaveDone st meta wr, JSave done :: js =>
      Some (p ← save_done_check st meta wr; ret ← save_done_write p.1 p.2 wr;
            mret (JSaveFinish done st meta ret :: js), w.(received))
  | SaveFinish, JSaveFinish done st meta ret :: js =>
      Some (ret ← save_done_finish ret meta; save_done_user st ret done ;; mret js, w.(received))
  | InstallSnapshot i request rpc admitted can_copy, js =>
      if bool_decide (w.(se).(downloads) !! i = None) && bool_decide (rpc ∉ w.(received).*1) then
        Some (b ← install_snapshot_begin i request rpc admitted can_copy;
              mret (js ++ new_job b (JCopy i request.(is_meta))), (rpc, request) :: w.(received))
      else None
  | Copied c rc, JCopy i meta :: js =>
      Some (b ← install_snapshot_end i meta c rc; mret (js ++ new_job b JLoad), w.(received))
  | LoadDone st, JLoad :: js => Some (m ← load_done_first st; mret (js ++ [JLoadLast st m]), w.(received))
  | LoadLast, JLoadLast st m :: js => Some (load_done_last st m ;; emit CloseReader ;; mret js, w.(received))
  | Interrupt t, _ => stay (interrupt_downloading_snapshot t)
  | Shutdown, _ => stay shutdown
  | _, _ => None
  end.

(** The state machine caller takes the saves it is given. *)
Definition section_ok (c : Section_) : Prop :=
  match c with DoSnapshot env _ => env.(on_snapshot_save_rc) = OK | _ => True end.

Definition step_with (w : World) (c : Section_) : option World :=
  (fun mr : SM (list Job) * list (Closure * InstallSnapshotRequest) =>
     let '(js, s, ev) := mr.1 w.(se) in mkWorld s js (w.(trace) ++ ev) mr.2) <$> run_section w c.

Definition step (w w' : World) : Prop := exists c, section_ok c /\ step_with w c = Some w'.

(** An executor that has been initialised, with or without a snapshot to load. *)
Definition started (w : World) : Prop :=
  exists env o, init env o SnapshotExecutor_default = (OK, w.(se), w.(trace)) /\
    env.(fsm_loads) = true /\ w.(jobs) = [] /\ w.(received) = [].

Definition reachable (w : World) : Prop := exists w0, started w0 /\ rtc step w0 w.

(** ** The invariant *)
Definition snapshot_index (q : InstallSnapshotRequest) : Z := q.(is_meta).(last_included_index).

(** The download under way. *)
Definition pending (s : SnapshotExecutor) : list DownloadingSnapshot :=
  match s.(_downloading_snapshot) with
  | Some i => option_list (s.(downloads) !! i)
  | None => []
  end.

Definition busy (s : SnapshotExecutor) (saving copying loading : bool) : Prop :=
  s.(_saving_snapshot) = saving /\ s.(_cur_copier) = copying /\ s.(_loading_snapshot) = loading.

(** [s] downloads a snapshot that ends at [index]. *)
Definition downloads_to (s : SnapshotExecutor) (i : positive) (index : Z) : Prop :=
  s.(_downloading_snapshot) = Some i /\ exists ds, s.(downloads) !! i = Some ds /\ snapshot_index ds.(ds_request) = index.

Definition shape (s : SnapshotExecutor) (js : list Job) : Prop :=
  match js with
  | [] => busy s false false false /\ s.(_downloading_snapshot) = None
  | [JSave _] => busy s true false false /\ s.(_downloading_snapshot) = None
  | [JSaveFinish _ _ meta ret] =>
      busy s true false false /\ s.(_downloading_snapshot) = None /\
      (ret = OK -> s.(_last_snapshot_index) < meta.(last_included_index))
  | [JCopy i meta] =>
      busy s false true false /\ downloads_to s i meta.(last_included_index) /\
      s.(_last_snapshot_index) < meta.(last_included_index)
  | [JLoad] =>
      busy s false false true /\ (exists i, downloads_to s i s.(_loading_snapshot_meta).(last_included_index)) /\
      s.(_last_snapshot_index) < s.(_loading_snapshot_meta).(last_included_index)
  | [JLoadLast st m] =>
      busy s false false true /\ exists i index, m = Some i /\ downloads_to s i index /\
      (st = OK -> s.(_last_snapshot_index) = index)
  | _ => False
  end.

Definition response_of (e : Event) : option (Closure * Reply) :=
  match e with Respond rpc r => Some (rpc, r) | _ => None end.
Abbreviation responses := (omap response_of).

Definition succeeded (r : Reply) : Prop := r.(reply_success) = true /\ r.(reply_failed) = OK.

Record Inv (s : SnapshotExecutor) (js : list Job) (tr : list Event) (rs : list (Closure * InstallSnapshotRequest)) : Prop := mkInv {
  v_shape : shape s js;
  v_jobs : s.(_running_jobs) = zlen js;
  v_unique : NoDup rs.*1;
  v_answered : rs.*1 ≡ₚ (responses tr).*1 ++ (ds_rpc <$> pending s);
  v_requests : Forall (fun ds => (ds.(ds_rpc), ds.(ds_request)) ∈ rs) (pending s);
  v_replies : forall rpc r, s.(replies) !! rpc = Some r -> rpc ∈ ds_rpc <$> pending s /\ r.(reply_success) = false /\ r.(reply_failed) = OK;
  v_loaded : Forall (fun p => succeeded p.2 ->
    exists q, (p.1, q) ∈ rs /\ snapshot_index q <= s.(_last_snapshot_index)) (responses tr)
}.

Lemma Inv_next s js tr rs s' js' ev rs' :
  Inv s js tr rs -> shape s' js' -> s'.(_running_jobs) = zlen js' -> NoDup rs'.*1 -> rs ⊆ rs' ->
  s.(_last_snapshot_index) <= s'.(_last_snapshot_index) ->
  rs'.*1 ≡ₚ (responses tr).*1 ++ (responses ev).*1 ++ (ds_rpc <$> pending s') ->
  Forall (fun ds => (ds.(ds_rpc), ds.(ds_request)) ∈ rs') (pending s') ->
  (forall rpc r, s'.(replies) !! rpc = Some r -> rpc ∈ ds_rpc <$> pending s' /\ r.(reply_success) = false /\ r.(reply_failed) = OK) ->
  Forall (fun p => succeeded p.2 -> exists q, (p.1, q) ∈ rs' /\ snapshot_index q <= s'.(_last_snapshot_index)) (responses ev) ->
  Inv s' js' (tr ++ ev) rs'.
Proof.
  intros [V1 V2 V3 V4 V5 V6 V7] Hsh Hj Hn Hrs Hle Hans Hreq Hrep Hev. split; try done.
  - by rewrite omap_app, fmap_app, <- app_assoc.
  - rewrite omap_app. apply Forall_app. split; [|done]. eapply Forall_impl; [exact V7|].
    intros p Hp (q & Hq & Hle')%Hp. exists q. split; [by apply Hrs|lia].
Qed.

(** A section that receives no request and answers none. *)
Lemma Inv_silent s js tr rs s' js' ev :
  Inv s js tr rs -> shape s' js' -> s'.(_running_jobs) = zlen js' ->
  s.(_last_snapshot_index) <= s'.(_last_snapshot_index) -> pending s' = pending s -> s'.(replies) = s.(replies) ->
  responses ev = [] -> Inv s' js' (tr ++ ev) rs.
Proof.
  intros Hi Hsh Hj Hle Hp Hr Hev. pose proof Hi as [V1 V2 V3 V4 V5 V6 V7].
  apply (Inv_next s js tr rs); rewrite ?Hp, ?Hr, ?Hev; try done.
Qed.

(** The download under way is answered, and there is none any more. *)
Lemma Inv_answer_pending s js tr rs s' js' ev ds r :
  Inv s js tr rs -> shape s' js' -> s'.(_running_jobs) = zlen js' ->
  s.(_last_snapshot_index) <= s'.(_last_snapshot_index) -> pending s = [ds] -> pending s' = [] ->
  s'.(replies) = delete ds.(ds_rpc) s.(replies) -> responses ev = [(ds.(ds_rpc), r)] ->
  (succeeded r -> snapshot_index ds.(ds_request) <= s'.(_last_snapshot_index)) -> Inv s' js' (tr ++ ev) rs.
Proof.
  intros Hi Hsh Hj Hle Hp Hp' Hr Hev Hok. pose proof Hi as [V1 V2 V3 V4 V5 V6 V7]. rewrite Hp in *.
  apply (Inv_next s js tr rs); rewrite ?Hp', ?Hev; try done.
  - intros rpc r' Hr'. rewrite Hr in Hr'. apply lookup_delete_Some in Hr' as [Hne Hr'].
    destruct (V6 _ _ Hr') as [Hin _]. by apply list_elem_of_singleton in Hin.
  - rewrite Forall_singleton in V5. apply Forall_singleton. intros Hs. exists ds.(ds_request). split; [exact V5|by apply Hok].
Qed.

(** A new request is answered at once. *)
Lemma Inv_answer_new s js tr rs s' js' ev rpc q r :
  Inv s js tr rs -> rpc ∉ rs.*1 -> shape s' js' -> s'.(_running_jobs) = zlen js' ->
  s.(_last_snapshot_index) <= s'.(_last_snapshot_index) -> pending s' = pending s ->
  s'.(replies) = delete rpc s.(replies) -> responses ev = [(rpc, r)] ->
  (succeeded r -> snapshot_index q <= s'.(_last_snapshot_index)) -> Inv s' js' (tr ++ ev) ((rpc, q) :: rs).
Proof.
  intros Hi Hnew Hsh Hj Hle Hp Hr Hev Hok. pose proof Hi as [V1 V2 V3 V4 V5 V6 V7].
  apply (Inv_next s js tr rs); rewrite ?Hp, ?Hev; try done.
  - by constructor.
  - intros x Hx. by apply list_elem_of_further.
  - cbn. rewrite V4. apply Permutation_middle.
  - eapply Forall_impl; [exact V5|]. intros ds Hds. by apply list_elem_of_further.
  - intros rpc' r' Hr'. rewrite Hr in Hr'. apply lookup_delete_Some in Hr' as [Hne Hr']. by apply V6.
  - apply Forall_singleton. intros Hs. exists q. split; [apply list_elem_of_here|by apply Hok].
Qed.

(** A new request, with nothing in its response but the term, becomes the download
    under way; the one before it, if any, is answered with an error. *)
Lemma Inv_take s js tr rs s' js' ev rpc q out :
  Inv s js tr rs -> rpc ∉ rs.*1 -> shape s' js' -> s'.(_running_jobs) = zlen js' ->
  s'.(_last_snapshot_index) = s.(_last_snapshot_index) -> pending s' = [mkDownloadingSnapshot q rpc] ->
  (forall i r, s'.(replies) !! i = Some r ->
     (i = rpc /\ r.(reply_success) = false /\ r.(reply_failed) = OK) \/ ((i ∉ (responses ev).*1) /\ s.(replies) !! i = Some r)) ->
  responses ev = out -> Forall (fun p => ~ succeeded p.2) out -> out.*1 = ds_rpc <$> pending s ->
  Inv s' js' (tr ++ ev) ((rpc, q) :: rs).
Proof.
  intros Hi Hnew Hsh Hj Hle Hp Hr Hev Hbad Hout. pose proof Hi as [V1 V2 V3 V4 V5 V6 V7].
  apply (Inv_next s js tr rs); rewrite ?Hp; try done; try lia.
  - by constructor.
  - intros x Hx. by apply list_elem_of_further.
  - cbn. rewrite V4, Hev, Hout. rewrite app_assoc. apply Permutation_cons_append.
  - apply Forall_singleton. cbn. apply list_elem_of_here.
  - intros i r Hir. destruct (Hr _ _ Hir) as [(-> & ? & ?)|[Hno Hold]]; [split; [apply list_elem_of_here|done]|].
    destruct (V6 _ _ Hold) as [Hin _]. rewrite Hev, Hout in Hno. done.
  - rewrite Hev. eapply Forall_impl; [exact Hbad|]. cbn. tauto.
Qed.
