(* ===== verification/SnapshotSafety.v ===== *)
(** * SnapshotSafety: the sections of the snapshot executor keep its invariant *)

From S2P Require Import Prelude Types PeerText FsmCaller NodeState Replicator SnapshotExecutor SnapshotRuns.

(** What a section leaves alone. *)
Lemma shape_ext s s' js :
  busy s' s.(_saving_snapshot) s.(_cur_copier) s.(_loading_snapshot) ->
  s'.(_downloading_snapshot) = s.(_downloading_snapshot) -> s'.(downloads) = s.(downloads) ->
  s'.(_last_snapshot_index) = s.(_last_snapshot_index) -> s'.(_loading_snapshot_meta) = s.(_loading_snapshot_meta) ->
  shape s js -> shape s' js.
Proof.
  unfold shape, downloads_to, busy. intros (H1 & H2 & H3) Hd Hdl Hl Hm.
  destruct js as [|[] [|]]; rewrite ?H1, ?H2, ?H3, ?Hd, ?Hdl, ?Hl, ?Hm; done.
Qed.

Ltac flat := repeat match goal with
  | H : _ /\ _ |- _ => destruct H
  | H : exists _, _ |- _ => destruct H
  end.

(** Ends a branch whose events are all in [ev] of [H : forall ev, ...]. *)
Ltac finish_with H tr :=
  rewrite <- ?app_assoc;
  first [apply H; reflexivity | rewrite <- (app_nil_r tr); apply H; reflexivity].

Section sections.
Variable js : list Job.
Variable rs : list (Closure * InstallSnapshotRequest).

(** At most one job runs, and none while there is neither a save nor a download. *)
Lemma shape_idle s : shape s js -> s.(_saving_snapshot) = false -> s.(_downloading_snapshot) = None -> js = [].
Proof.
  unfold shape, busy, downloads_to.
  destruct js as [|[] [|]]; try done; intros H Hs Hd; exfalso; flat; congruence.
Qed.

Lemma shape_download s j : shape s js -> s.(_downloading_snapshot) = Some j -> exists m, s.(downloads) !! j = Some m.
Proof.
  unfold shape, busy, downloads_to.
  destruct js as [|[] [|]]; try done; intros H Hd; flat; (congruence || (rewrite Hd in *; simplify_eq; by eexists)).
Qed.

Lemma do_snapshot_inv env done s tr :
  Inv s js tr rs -> env.(on_snapshot_save_rc) = OK ->
  wpt (b ← do_snapshot env done; mret (js ++ new_job b (JSave done))) (fun js' s' tr' => Inv s' js' tr' rs) s tr.
Proof.
  intros Hi Hrc. pose proof Hi as [V1 V2 _ _ _ _ _].
  assert (forall ev, responses ev = [] -> Inv s (js ++ []) (tr ++ ev) rs) as Hsame.
  { intros ev Hev. rewrite app_nil_r. by apply (Inv_silent s js tr rs). }
  unfold do_snapshot, run_done, report_error. apply wpt_bind. wpt_go. rewrite Hrc. change (ok OK) with true. cbn [negb].
  destruct s.(_stopped); [destruct done; wpt_go; finish_with Hsame tr|].
  case_bool_decide as Hd; [destruct done; wpt_go; finish_with Hsame tr|].
  destruct s.(_saving_snapshot) eqn:Hsv; [destruct done; wpt_go; finish_with Hsame tr|].
  destruct (_ <? _); [destruct done; wpt_go; finish_with Hsame tr|].
  destruct (negb _); [destruct done; wpt_go; finish_with Hsame tr|].
  pose proof (shape_idle s V1 Hsv Hd) as Hjs. rewrite Hjs in *.
  unfold add_count. wpt_go. apply (Inv_silent s [] tr rs); try done; [|cbn; rewrite V2; done].
  unfold shape in *. destruct V1 as [(_ & ? & ?) ?]. done.
Qed.

Lemma shape_first s j : shape s (j :: js) -> js = [].
Proof. unfold shape. destruct j, js as [|k js']; try done; destruct k; done. Qed.

Lemma save_done_inv st meta w done s tr :
  Inv s (JSave done :: js) tr rs ->
  wpt (p ← save_done_check st meta w; ret ← save_done_write p.1 p.2 w; mret (JSaveFinish done st meta ret :: js))
    (fun js' s' tr' => Inv s' js' tr' rs) s tr.
Proof.
  intros Hi. pose proof Hi as [V1 V2 _ _ _ _ _]. pose proof (shape_first _ _ V1) as Hjs. rewrite Hjs in *.
  destruct V1 as [Hb Hd].
  assert (forall ret ev, responses ev = [] -> (ret = OK -> s.(_last_snapshot_index) < meta.(last_included_index)) ->
    Inv s [JSaveFinish done st meta ret] (tr ++ ev) rs) as Hend.
  { intros ret ev Hev Hret. by apply (Inv_silent s [JSave done] tr rs). }
  unfold save_done_check, save_done_write, log_node. apply wpt_bind. wpt_go.
  destruct (ok st) eqn:Hst; cbn [andb].
  - destruct (Z.leb_spec meta.(last_included_index) s.(_last_snapshot_index)); wpt_go.
    all: change (ok ESTALE) with false; change (ok OK) with true; rewrite ?Hst; cbn [fst snd when].
    all: repeat first [wpt_step | match goal with |- wpt (if ?b then _ else _) _ _ _ => destruct b eqn:? end].
    all: rewrite <- ?app_assoc; apply Hend; try reflexivity; try discriminate; intros; lia.
  - wpt_go. rewrite ?Hst. cbn [fst snd].
    repeat first [wpt_step | match goal with |- wpt (if ?b then _ else _) _ _ _ => destruct b eqn:? end].
    all: rewrite <- ?app_assoc; apply Hend; try reflexivity; try discriminate; intros ->; discriminate.
Qed.

Lemma save_finish_inv done st meta ret s tr :
  Inv s (JSaveFinish done st meta ret :: js) tr rs ->
  wpt (ret ← save_done_finish ret meta; save_done_user st ret done ;; mret js) (fun js' s' tr' => Inv s' js' tr' rs) s tr.
Proof.
  intros Hi. pose proof Hi as [V1 V2 _ _ _ _ _]. pose proof (shape_first _ _ V1) as Hjs. rewrite Hjs in *.
  destruct V1 as ((H1 & H2 & H3) & Hd & Hlt).
  assert (forall s' ev, responses ev = [] -> busy s' false false false -> s'.(_downloading_snapshot) = None ->
    s'.(downloads) = s.(downloads) -> s'.(replies) = s.(replies) -> s'.(_running_jobs) = s.(_running_jobs) - 1 ->
    s.(_last_snapshot_index) <= s'.(_last_snapshot_index) -> Inv s' [] (tr ++ ev) rs) as Hend.
  { intros s' ev Hev Hb Hd' Hdl Hr Hj Hle. apply (Inv_silent s [JSaveFinish done st meta ret] tr rs); try done.
    - rewrite Hj, V2. done.
    - unfold pending. by rewrite Hd, Hd'. }
  unfold save_done_finish, save_done_user, signal, report_error, run_done. apply wpt_bind. wpt_go.
  all: try (apply ok_true in H; subst ret; specialize (Hlt eq_refl)).
  all: destruct done; wpt_go; rewrite <- ?app_assoc;
    first [apply Hend; cbn; try done; lia | rewrite <- (app_nil_r tr); apply Hend; cbn; try done; lia].
Qed.

(** What is known while a download is under way. *)
Lemma pending_some s i ds : s.(_downloading_snapshot) = Some i -> s.(downloads) !! i = Some ds -> pending s = [ds].
Proof. unfold pending. by intros -> ->. Qed.
Lemma pending_none s : s.(_downloading_snapshot) = None -> pending s = [].
Proof. unfold pending. by intros ->. Qed.

(** The response of a request that is answered now, as it was left so far. *)
Lemma fresh_reply s tr rpc : Inv s js tr rs -> rpc ∉ rs.*1 -> s.(replies) !! rpc = None.
Proof.
  intros Hi Hnew. destruct (s.(replies) !! rpc) as [r|] eqn:Hr; [|done].
  destruct (v_replies _ _ _ _ Hi _ _ Hr) as [Hin _]. destruct Hnew. rewrite (v_answered _ _ _ _ Hi). apply elem_of_app. by right.
Qed.
Lemma pending_reply s tr ds : Inv s js tr rs -> pending s = [ds] ->
  (reply_of ds.(ds_rpc) s).(reply_success) = false /\ (reply_of ds.(ds_rpc) s).(reply_failed) = OK.
Proof.
  intros Hi _. unfold reply_of. destruct (s.(replies) !! ds_rpc ds) as [r|] eqn:Hr; [|done].
  by destruct (v_replies _ _ _ _ Hi _ _ Hr) as (_ & ? & ?).
Qed.

Lemma load_done_inv st s tr :
  Inv s (JLoad :: js) tr rs ->
  wpt (m ← load_done_first st; mret (js ++ [JLoadLast st m])) (fun js' s' tr' => Inv s' js' tr' rs) s tr.
Proof.
  intros Hi. pose proof Hi as [V1 V2 _ _ _ _ _]. pose proof (shape_first _ _ V1) as Hjs. rewrite Hjs in *.
  destruct V1 as ((H1 & H2 & H3) & (i & Hd & ds & Hds & Hix) & Hlt).
  assert (forall s' ev, responses ev = [] -> busy s' false false true -> s'.(_downloading_snapshot) = s.(_downloading_snapshot) ->
    s'.(downloads) = s.(downloads) -> s'.(replies) = s.(replies) -> s'.(_running_jobs) = s.(_running_jobs) ->
    s.(_last_snapshot_index) <= s'.(_last_snapshot_index) -> (st = OK -> s'.(_last_snapshot_index) = snapshot_index ds.(ds_request)) ->
    Inv s' ([] ++ [JLoadLast st s.(_downloading_snapshot)]) (tr ++ ev) rs) as Hend.
  { intros s' ev Hev Hb Hd' Hdl Hr Hj Hle Hok. apply (Inv_silent s [JLoad] tr rs); try done.
    - cbn. split; [done|]. exists i, (snapshot_index ds.(ds_request)). split; [done|].
      split; [|exact Hok]. unfold downloads_to. rewrite Hd', Hdl. split; [done|]. by exists ds.
    - rewrite Hj, V2. done.
    - unfold pending. by rewrite Hd', Hdl. }
  unfold load_done_first, check. apply wpt_bind. wpt_go. rewrite H3. wpt_go.
  all: rewrite <- ?app_assoc; first [apply Hend | rewrite <- (app_nil_r tr); apply Hend].
  all: cbn; try done; try lia; intros ->; done.
Qed.

Lemma load_last_inv st m s tr :
  Inv s (JLoadLast st m :: js) tr rs ->
  wpt (load_done_last st m ;; emit CloseReader ;; mret js) (fun js' s' tr' => Inv s' js' tr' rs) s tr.
Proof.
  intros Hi. pose proof Hi as [V1 V2 _ _ _ _ _]. pose proof (shape_first _ _ V1) as Hjs. rewrite Hjs in *.
  destruct V1 as ((H1 & H2 & H3) & i & index & Hm & (Hd & ds & Hds & Hix) & Hok). rewrite Hm in *.
  pose proof (pending_some _ _ _ Hd Hds) as Hp.
  unfold load_done_last, set_failed, set_success, set_reply, respond, signal, free. wpt_go. cbn. rewrite Hds.
  destruct (ok st) eqn:Hst; cbn [negb]; wpt_go; rewrite <- ?app_assoc.
  - eapply (Inv_answer_pending s [JLoadLast st (Some i)] tr rs _ _ _ ds); try done; [cbn; rewrite V2; done| |].
    + cbn. by rewrite delete_insert_eq.
    + intros _. cbn. rewrite (Hok (ok_true _ Hst)), Hix. done.
  - eapply (Inv_answer_pending s [JLoadLast st (Some i)] tr rs _ _ _ ds); try done; [cbn; rewrite V2; done| |].
    + cbn. by rewrite delete_insert_eq.
    + intros [_ Hf]. unfold reply_of in Hf. cbn in Hf. rewrite lookup_insert_eq in Hf. cbn in Hf. by rewrite Hf in Hst.
Qed.

(** Both sections of a load in a row. *)
Lemma install_done_keeps st s tr : Inv s (JLoad :: js) tr rs ->
  wpt (install_done_run st) (fun _ s' tr' => Inv s' js tr' rs) s tr.
Proof.
  intros Hi. pose proof (shape_first _ _ (v_shape _ _ _ _ Hi)) as Hjs.
  pose proof (load_done_inv st s tr Hi) as Hfirst. apply wpt_bind_inv in Hfirst.
  unfold install_done_run, on_snapshot_load_done. apply wpt_bind, wpt_bind. eapply wpt_mono; [exact Hfirst|].
  intros m s' tr' Hi'. unfold wpt in Hi'. cbn in Hi'. rewrite Hjs, app_nil_r in Hi'. cbn [app] in Hi'.
  rewrite <- Hjs in Hi'. pose proof (load_last_inv st m s' tr' Hi') as Hlast. apply wpt_bind_inv in Hlast.
  eapply wpt_mono; [exact Hlast|]. intros [] s2 tr2 Hc. apply wpt_bind_inv in Hc.
  eapply wpt_mono; [exact Hc|]. intros [] s3 tr3 Hr. unfold wpt in Hr. cbn in Hr. by rewrite app_nil_r in Hr.
Qed.

Lemma interrupt_keeps t s tr : Inv s js tr rs ->
  wpt (interrupt_downloading_snapshot t) (fun _ s' tr' => Inv s' js tr' rs) s tr.
Proof.
  intros Hi. pose proof Hi as [V1 V2 _ _ _ _ _].
  assert (forall ev, responses ev = [] -> Inv (s <| _term := t |>) js (tr ++ ev) rs) as Hend.
  { intros ev Hev. apply (Inv_silent s js tr rs); try done. }
  unfold interrupt_downloading_snapshot, check. wpt_go.
  destruct (_ <=? _); repeat first [wpt_step | match goal with |- wpt (if ?b then _ else _) _ _ _ => destruct b end].
  all: finish_with Hend tr.
Qed.

Lemma shutdown_keeps s tr : Inv s js tr rs -> wpt shutdown (fun _ s' tr' => Inv s' js tr' rs) s tr.
Proof.
  intros Hi. pose proof Hi as [V1 V2 _ _ _ _ _]. unfold shutdown. wpt_go. apply interrupt_keeps.
  rewrite <- (app_nil_r tr). apply (Inv_silent s js tr rs); done.
Qed.

(** The copy has failed, or the snapshot cannot be read. *)
Lemma copy_failed_inv i meta s tr ds s' ev e r :
  Inv s (JCopy i meta :: js) tr rs -> s.(downloads) !! i = Some ds -> js = [] ->
  busy s' false false false -> s'.(_downloading_snapshot) = None -> s'.(_running_jobs) = s.(_running_jobs) - 1 ->
  s'.(_last_snapshot_index) = s.(_last_snapshot_index) -> s'.(replies) = delete ds.(ds_rpc) s.(replies) ->
  responses ev = [(ds.(ds_rpc), r)] -> r.(reply_failed) = e -> e <> OK -> Inv s' [] (tr ++ ev) rs.
Proof.
  intros Hi Hds -> Hb Hd Hj Hl Hr Hev He Hne. pose proof Hi as [V1 V2 _ _ _ _ _]. destruct V1 as (_ & (Hd0 & _) & _).
  apply (Inv_answer_pending s [JCopy i meta] tr rs _ _ _ ds r); try done.
  - rewrite Hj, V2. done.
  - lia.
  - by apply (pending_some _ i).
  - by apply pending_none.
  - intros [_ Hf]. congruence.
Qed.

Lemma install_end_inv i meta c rc s tr :
  Inv s (JCopy i meta :: js) tr rs ->
  wpt (b ← install_snapshot_end i meta c rc; mret (js ++ new_job b JLoad)) (fun js' s' tr' => Inv s' js' tr' rs) s tr.
Proof.
  intros Hi. pose proof Hi as [V1 V2 _ _ _ _ _]. pose proof (shape_first _ _ V1) as Hjs.
  pose proof V1 as Hsh. rewrite Hjs in Hsh. destruct Hsh as ((H1 & H2 & H3) & (Hd & ds & Hds & Hix) & Hlt).
  unfold install_snapshot_end, finish_throttled. apply wpt_bind. wpt_step. wpt_step. wpt_step.
  assert (forall tr', Inv s (JCopy i meta :: js) tr' rs ->
    wpt (load_downloading_snapshot i meta c rc) (fun b => wpt (mret (js ++ new_job b JLoad)) (fun js' s' tr' => Inv s' js' tr' rs)) s tr') as Hload.
  { clear Hi tr. intros tr Hi. unfold load_downloading_snapshot, check, report_error, set_failed, set_reply, respond, signal, free. wpt_go.
    rewrite (bool_decide_eq_true_2 _ Hd), H2. wpt_go. rewrite Hds.
    destruct (ok c.(copier_error)) eqn:Hce; cbn [negb].
    2: { wpt_go; rewrite <- ?app_assoc; rewrite Hjs; cbn [app new_job].
      all: eapply (copy_failed_inv i meta s tr ds _ _ c.(copier_error)); try exact Hi; try exact Hds; try done.
      all: try (unfold reply_of; cbn; rewrite ?lookup_insert_eq, ?delete_insert_eq; done).
      all: intros Hc; by rewrite Hc in Hce. }
    wpt_go. destruct c.(copier_reader) as [[]|]; cbn [from_option Datatypes.id negb].
    2,3: wpt_go; rewrite <- ?app_assoc; rewrite Hjs; cbn [app new_job];
      eapply (copy_failed_inv i meta s tr ds _ _ EINTERNAL); try exact Hi; try exact Hds; try done;
      unfold reply_of; cbn; rewrite ?lookup_insert_eq, ?delete_insert_eq; done.
    wpt_go. rewrite <- ?app_assoc.
    assert (Inv (s <| _cur_copier := false |> <| _loading_snapshot := true |> <| _loading_snapshot_meta := meta |>)
      (JLoad :: js) (tr ++ [CloseCopier; FsmSnapshotLoad]) rs) as Hi'.
    { rewrite Hjs in *. apply (Inv_silent s [JCopy i meta] tr rs); try done. cbn. split; [done|].
      split; [|done]. exists i. split; [done|]. by exists ds. }
    destruct (ok rc); cbn [negb]; [rewrite Hjs in *; by wpt_go|].
    assert (forall tr', Inv (s <| _cur_copier := false |> <| _loading_snapshot := true |> <| _loading_snapshot_meta := meta |>)
      (JLoad :: js) tr' rs -> wpt (install_done_run EHOSTDOWN) (fun _ => wpt (mret false) (fun b => wpt (mret (js ++ new_job b JLoad))
        (fun js' s' tr' => Inv s' js' tr' rs))) (s <| _cur_copier := false |> <| _loading_snapshot := true |> <| _loading_snapshot_meta := meta |>) tr') as Hrun.
    { intros tr' Htr'. eapply wpt_mono; [by apply install_done_keeps|]. intros [] s2 tr2 Hi2. wpt_go. cbn [new_job]. by rewrite app_nil_r. }
    unfold log_node. apply wpt_bind, wpt_bind, wpt_get.
    match goal with |- context [if _node ?x then _ else _] => change (_node x) with s.(_node) end.
    destruct s.(_node); wpt_go; [by apply Hrun|].
    apply Hrun. apply (Inv_silent _ _ _ _ _ _ [NullNode] Hi'); try done; apply Hi'. }
  apply wpt_when; intros _; [|by apply Hload]. wpt_go. apply Hload.
  apply (Inv_silent s (JCopy i meta :: js) tr rs); done.
Qed.

(** The object being downloaded is replaced by one for the same snapshot. *)
Lemma shape_swap s s' j m m' :
  busy s' s.(_saving_snapshot) s.(_cur_copier) s.(_loading_snapshot) ->
  s.(_downloading_snapshot) = Some j -> s.(downloads) !! j = Some m ->
  s'.(_downloading_snapshot) = s.(_downloading_snapshot) -> s'.(downloads) !! j = Some m' ->
  s'.(_last_snapshot_index) = s.(_last_snapshot_index) -> s'.(_loading_snapshot_meta) = s.(_loading_snapshot_meta) ->
  snapshot_index m.(ds_request) = snapshot_index m'.(ds_request) -> shape s js -> shape s' js.
Proof.
  intros (H1 & H2 & H3) Hd Hm Hd' Hm' Hl Hme Heq.
  assert (forall k index, downloads_to s k index -> downloads_to s' k index) as Hto.
  { intros k index (Hk & ds & Hds & <-). rewrite Hd in Hk. injection Hk as <-. rewrite Hm in Hds. injection Hds as <-.
    split; [by rewrite Hd'|]. by exists m'. }
  unfold shape, busy. destruct js as [|[] [|]]; rewrite ?H1, ?H2, ?H3, ?Hd', ?Hl, ?Hme, ?Hd; try done.
  - intros (Hb & Hdl & Hlt). split; [exact Hb|split; [by apply Hto|exact Hlt]].
  - intros (Hb & (k & Hdl) & Hlt). split; [exact Hb|split; [exists k; by apply Hto|exact Hlt]].
  - intros (Hb & k & index & Hm0 & Hdl & Hok). split; [exact Hb|]. exists k, index.
    split; [exact Hm0|split; [by apply Hto|exact Hok]].
Qed.

Section install.
Variable i : positive.
Variable q : InstallSnapshotRequest.
Variable rpc : Closure.
Abbreviation ds := (mkDownloadingSnapshot q rpc).
Abbreviation taken := (fun b => wpt (mret (js ++ new_job b (JCopy i q.(is_meta))))
  (fun js' s' tr' => Inv s' js' tr' ((rpc, q) :: rs))).

(** [s0] is [s] with the new object, and with something in the response. *)
Record noted (s s0 : SnapshotExecutor) : Prop := mkNoted {
  n_busy : busy s0 s.(_saving_snapshot) s.(_cur_copier) s.(_loading_snapshot);
  n_download : s0.(_downloading_snapshot) = s.(_downloading_snapshot);
  n_downloads : s0.(downloads) = <[i := ds]> s.(downloads);
  n_last : s0.(_last_snapshot_index) = s.(_last_snapshot_index);
  n_meta : s0.(_loading_snapshot_meta) = s.(_loading_snapshot_meta);
  n_jobs : s0.(_running_jobs) = s.(_running_jobs);
  n_replies : delete rpc s0.(replies) = delete rpc s.(replies)
}.

Definition refuse : SM bool := finish_throttled ;; free i ;; respond rpc ;; mret false.

Lemma refuse_keeps s s0 tr ev :
  Inv s js tr rs -> rpc ∉ rs.*1 -> s.(downloads) !! i = None -> noted s s0 -> responses ev = [] ->
  (succeeded (reply_of rpc s0) -> snapshot_index q <= s.(_last_snapshot_index)) ->
  wpt refuse taken s0 (tr ++ ev).
Proof.
  intros Hi Hnew Hdi [N1 N2 N3 N4 N5 N6 N7] Hev Hok. pose proof Hi as [V1 V2 _ _ _ _ _].
  assert (forall s' ev', responses ev' = [(rpc, reply_of rpc s0)] -> noted s s0 ->
    s' = s0 <| downloads := s.(downloads) |> <| replies := delete rpc s0.(replies) |> ->
    Inv s' (js ++ []) (tr ++ ev') ((rpc, q) :: rs)) as Hend.
  { intros s' ev' Hev' _ ->. rewrite app_nil_r. eapply (Inv_answer_new s js tr rs); try done; cbn.
    - by eapply shape_ext; [..|exact V1].
    - by rewrite N6.
    - lia.
    - unfold pending. cbn. by rewrite N2.
    - intros Hs. rewrite N4. by apply Hok. }
  unfold refuse, finish_throttled, free, respond. wpt_go; cbn [new_job]; rewrite <- ?app_assoc.
  all: apply Hend; [rewrite omap_app, Hev; cbn; reflexivity|done|].
  all: rewrite N3, delete_insert_id by done; reflexivity.
Qed.

(** How registering ends. *)
Definition registered (s : SnapshotExecutor) (tr : list Event) (r : Registered) (s0 : SnapshotExecutor) (tr0 : list Event) : Prop :=
  match r with
  | Refused => exists ev, tr0 = tr ++ ev /\ responses ev = [] /\ noted s s0 /\
      (succeeded (reply_of rpc s0) -> snapshot_index q <= s.(_last_snapshot_index))
  | Downloading => js = [] /\ s0.(_cur_copier) = true /\ Inv s0 [JCopy i q.(is_meta)] tr0 ((rpc, q) :: rs)
  | Retried => Inv (s0 <| downloads := delete i s0.(downloads) |>) js tr0 ((rpc, q) :: rs)
  end.

Ltac refuses ev :=
  exists ev; split; [by rewrite ?app_nil_r|split; [reflexivity|split; [split; cbn; rewrite ?delete_insert_eq; done|]]];
  unfold reply_of; cbn; rewrite ?lookup_insert_eq; cbn; unfold succeeded; cbn; try (intros [_ ?]; discriminate).

(** The state a request is registered in, once its term is in the response. *)
Definition termed (s : SnapshotExecutor) : SnapshotExecutor :=
  s <| downloads := <[i := ds]> s.(downloads) |>
    <| replies := <[rpc := Reply_default <| reply_term := s.(_term) |>]> s.(replies) |>.

Lemma termed_reply s j r : (termed s).(replies) !! j = Some r ->
  (j = rpc /\ r.(reply_success) = false /\ r.(reply_failed) = OK) \/ (j <> rpc /\ s.(replies) !! j = Some r).
Proof.
  cbn. intros [[<- <-]|[? ?]]%lookup_insert_Some; [left; done|right; done].
Qed.

Lemma start_download_keeps s tr can_copy :
  Inv s js tr rs -> rpc ∉ rs.*1 -> s.(_saving_snapshot) = false -> s.(_downloading_snapshot) = None ->
  s.(_last_snapshot_index) < snapshot_index q ->
  wpt (start_download i ds can_copy) (registered s tr) (termed s) tr.
Proof.
  intros Hi Hnew Hsv Hd Hlt. pose proof Hi as [V1 V2 _ _ _ _ _]. pose proof (shape_idle _ V1 Hsv Hd) as Hjs.
  assert (s.(_cur_copier) = false) as Hc by (rewrite Hjs in V1; apply V1).
  assert (s.(_loading_snapshot) = false) as Hl by (rewrite Hjs in V1; apply V1).
  unfold start_download, check, set_failed, set_reply, add_count. wpt_go. cbn. rewrite Hc. wpt_go. destruct can_copy; cbn [negb]; wpt_go.
  - split; [done|split; [done|]]. eapply (Inv_take s js tr rs _ _ _ rpc q []); try done.
    + cbn. split; [done|]. split; [|done]. split; [done|]. exists ds. cbn. by rewrite lookup_insert_eq.
    + cbn. rewrite V2, Hjs. done.
    + unfold pending. cbn. by rewrite lookup_insert_eq.
    + intros j r [?|[? ?]]%termed_reply; [by left|right]. split; [by intros ?%elem_of_nil|done].
    + by rewrite (pending_none s).
  - exists [StartCopy q.(is_uri)]. split; [done|split; [done|split]].
    + split; cbn; rewrite ?delete_insert_eq; try done.
    + unfold reply_of. cbn. rewrite lookup_insert_eq. intros [_ ?]. done.
Qed.

Lemma meet_download_keeps s tr j m :
  Inv s js tr rs -> rpc ∉ rs.*1 -> s.(downloads) !! i = None -> s.(_downloading_snapshot) = Some j ->
  s.(downloads) !! j = Some m -> s.(_last_snapshot_index) < snapshot_index q ->
  wpt (meet_download j m ds) (registered s tr) (termed s) tr.
Proof.
  intros Hi Hnew Hdi Hd Hm Hlt. pose proof Hi as [V1 V2 _ V4 _ V6 _].
  pose proof (pending_some _ _ _ Hd Hm) as Hp.
  assert (i <> j) as Hij by congruence.
  assert (m.(ds_rpc) <> rpc) as Hmr.
  { intros <-. destruct Hnew. rewrite V4, Hp. apply elem_of_app. right. apply list_elem_of_here. }
  assert (forall e s0 ev, e <> OK -> responses ev = [] ->
    s0 = (termed s) <| replies := <[rpc := (reply_of rpc (termed s)) <| reply_failed := e |>]> (termed s).(replies) |> ->
    registered s tr Refused s0 (tr ++ ev)) as Hrefuse.
  { intros e s0 ev He Hev ->. exists ev. split; [done|split; [done|split]].
    - split; cbn; rewrite ?delete_insert_eq; try done.
    - unfold reply_of. cbn. rewrite lookup_insert_eq. intros [_ Hf]. by destruct (He Hf). }
  assert (forall e s0, e <> OK ->
    s0 = (termed s) <| replies := <[rpc := (reply_of rpc (termed s)) <| reply_failed := e |>]> (termed s).(replies) |> ->
    registered s tr Refused s0 tr) as Hrefuse'.
  { intros e s0 He Hs. pose proof (Hrefuse e s0 [] He eq_refl Hs) as Hr. by rewrite app_nil_r in Hr. }
  unfold meet_download, check, set_failed, set_reply, respond. wpt_go. cbn [ds_request ds_rpc].
  destruct (Z.eqb_spec m.(ds_request).(is_meta).(last_included_index) q.(is_meta).(last_included_index)) as [Heq|Hne].
  - wpt_go. cbn [registered]. eapply (Inv_take s js tr rs _ _ _ rpc q); try done.
    + eapply (shape_swap s _ j m ds); try done. cbn. rewrite lookup_delete_ne, lookup_insert_eq by done. done.
    + unfold pending. cbn. rewrite Hd, lookup_delete_ne, lookup_insert_eq by done. done.
    + intros k r Hr. cbn in Hr. apply lookup_delete_Some in Hr as [Hk Hr]. apply lookup_insert_Some in Hr as [[? _]|[_ Hr]]; [done|].
      destruct (termed_reply _ _ _ Hr) as [?|[? ?]]; [by left|right]. split; [|done]. by intros ?%list_elem_of_singleton.
    + apply Forall_singleton. cbn. unfold reply_of. cbn. rewrite lookup_insert_eq. intros [_ ?]. done.
    + cbn. by rewrite Hp.
  - destruct (_ <? _); [wpt_go; by eapply (Hrefuse' EINVAL)|].
    destruct (_loading_snapshot _); [wpt_go; by eapply (Hrefuse' EBUSY)|].
    destruct (_cur_copier _); wpt_go; rewrite <- ?app_assoc; by eapply (Hrefuse EBUSY).
Qed.

Lemma register_keeps s tr can_copy :
  Inv s js tr rs -> rpc ∉ rs.*1 -> s.(downloads) !! i = None ->
  wpt (register_downloading_snapshot i ds can_copy) (registered s tr) (s <| downloads := <[i := ds]> s.(downloads) |>) tr.
Proof.
  intros Hi Hnew Hdi. pose proof Hi as [V1 V2 _ _ _ _ _]. pose proof (fresh_reply _ _ _ Hi Hnew) as Hfr.
  assert (reply_of rpc (s <| downloads := <[i := ds]> s.(downloads) |>) = Reply_default) as Hrep.
  { unfold reply_of. cbn. by rewrite Hfr. }
  assert (forall s0, noted s s0 -> (succeeded (reply_of rpc s0) -> snapshot_index q <= s.(_last_snapshot_index)) ->
    registered s tr Refused s0 tr) as Hrefuse.
  { intros s0 Hn Hok. exists []. by rewrite app_nil_r. }
  unfold register_downloading_snapshot, set_failed, set_term, set_success, set_reply. wpt_go. cbn [ds_rpc ds_request].
  assert (forall (b : bool) m1 m2 st0 tr0, (b = true -> wpt m1 (registered s tr) st0 tr0) ->
    (b = false -> wpt m2 (registered s tr) st0 tr0) -> wpt (if b then m1 else m2) (registered s tr) st0 tr0) as Hif.
  { intros []; auto. }
  apply Hif; intros _.
  { wpt_go. apply Hrefuse; [split; cbn; rewrite ?delete_insert_eq; done|].
    unfold reply_of. cbn. rewrite lookup_insert_eq. intros [_ ?]. done. }
  apply Hif; intros _.
  { wpt_go. apply Hrefuse; [split; cbn; rewrite ?delete_insert_eq; done|].
    unfold reply_of. cbn. rewrite !lookup_insert_eq. cbn. rewrite Hfr. intros [? _]. done. }
  apply Hif; intros Hle.
  { wpt_go. apply Hrefuse; [split; cbn; rewrite ?delete_insert_eq; done|]. intros _. by apply Z.leb_le in Hle. }
  apply Z.leb_gt in Hle. change (s.(_last_snapshot_index) < snapshot_index q) in Hle.
  wpt_go. rewrite Hrep. match goal with |- wpt _ _ ?x _ => change x with (termed s) end.
  apply Hif; intros Hsv.
  { wpt_go. apply Hrefuse; [split; cbn; rewrite ?delete_insert_eq; done|].
    unfold reply_of. cbn. rewrite lookup_insert_eq. intros [_ ?]. done. }
  change (s.(_saving_snapshot) = false) in Hsv. match goal with |- context [_downloading_snapshot ?x] => change (_downloading_snapshot x) with s.(_downloading_snapshot) end.
  destruct s.(_downloading_snapshot) as [j|] eqn:Hd; [|by apply start_download_keeps].
  destruct (shape_download _ _ V1 Hd) as [m Hm].
  match goal with |- context [downloads ?x !! j] => change (downloads x !! j) with (<[i := ds]> s.(downloads) !! j) end.
  rewrite lookup_insert_ne by congruence. rewrite Hm. by apply meet_download_keeps.
Qed.

Lemma install_begin_inv admitted can_copy s tr :
  Inv s js tr rs -> rpc ∉ rs.*1 -> s.(downloads) !! i = None ->
  wpt (b ← install_snapshot_begin i q rpc admitted can_copy; mret (js ++ new_job b (JCopy i q.(is_meta))))
    (fun js' s' tr' => Inv s' js' tr' ((rpc, q) :: rs)) s tr.
Proof.
  intros Hi Hnew Hdi. pose proof Hi as [V1 V2 _ _ _ _ _].
  apply wpt_bind. unfold install_snapshot_begin. wpt_step. wpt_step.
  destruct (_ && _).
  { unfold set_failed, set_reply, respond. wpt_go. cbn [new_job]. rewrite app_nil_r.
    eapply (Inv_answer_new s js tr rs); try done.
    - cbn. by rewrite delete_insert_eq.
    - unfold reply_of. cbn. rewrite lookup_insert_eq. intros [_ ?]. done. }
  wpt_step. wpt_step. apply wpt_bind. eapply wpt_mono; [by apply register_keeps|].
  intros r s0 tr0 Hr. destruct r; cbn [registered] in Hr.
  - destruct Hr as (ev & -> & Hev & Hn & Hok). by eapply refuse_keeps.
  - destruct Hr as (-> & Hc & Hinv). unfold check. wpt_go. rewrite Hc. by wpt_go.
  - unfold finish_throttled, free. wpt_go; cbn [new_job]; rewrite app_nil_r; [|exact Hr].
    by apply (Inv_silent _ _ _ _ _ _ [FinishThrottled] Hr); try apply Hr.
Qed.
End install.
End sections.

Lemma wpt_step_with w m r (Q : World -> Prop) :
  wpt m (fun js' s' tr' => Q (mkWorld s' js' tr' r)) w.(se) w.(trace) ->
  Q (let '(js', s', ev) := m w.(se) in mkWorld s' js' (w.(trace) ++ ev) r).
Proof. unfold wpt, value_of, state_of, events_of. by destruct (m w.(se)) as [[js' s'] ev]. Qed.

Definition InvW (w : World) : Prop := Inv w.(se) w.(jobs) w.(trace) w.(received).

Lemma snapshot_step_inv w w' : step w w' -> InvW w -> InvW w'.
Proof.
  intros (c & Hok & Hs) Hi. unfold InvW in Hi. unfold step_with in Hs.
  apply fmap_Some in Hs as ([m r] & Hr & ->). cbn [fst snd].
  apply (wpt_step_with w m r InvW). unfold InvW. cbn.
  destruct w as [s js tr rs]. unfold run_section in Hr. cbn in *.
  destruct c; cbn in Hok; repeat (case_match; try done); simplify_eq.
  - by apply do_snapshot_inv.
  - by apply save_done_inv.
  - by apply save_finish_inv.
  - apply andb_true_iff in H as [H1 H2]. apply bool_decide_eq_true_1 in H1, H2. by apply install_begin_inv.
  - by apply install_end_inv.
  - by apply load_done_inv.
  - by apply load_last_inv.
  - apply wpt_bind. eapply wpt_mono; [by apply interrupt_keeps|]. intros [] s' tr' Hi'. by wpt_go.
  - apply wpt_bind. eapply wpt_mono; [by apply shutdown_keeps|]. intros [] s' tr' Hi'. by wpt_go.
Qed.

(** Nothing runs and nothing has been received. *)
Lemma Inv_initial s tr :
  busy s false false false -> s.(_downloading_snapshot) = None -> s.(_running_jobs) = 0 -> s.(replies) = ∅ ->
  responses tr = [] -> Inv s [] tr [].
Proof.
  intros Hb Hd Hj Hr Htr. pose proof (pending_none s Hd) as Hp.
  split; rewrite ?Hp, ?Htr, ?Hr; try done.
  by constructor.
Qed.

Lemma init_inv env o tr :
  responses tr = [] -> env.(fsm_loads) = true -> wpt (init env o) (fun r s tr' => r = OK -> Inv s [] tr' []) SnapshotExecutor_default tr.
Proof.
  intros Htr Hf. destruct env as [cs si ls os fl st], o as [u hn it ht cf]. cbn in Hf. subst fl.
  unfold init, log_node, wpt, value_of, state_of, events_of. cbn [uri].
  case_bool_decide; [by destruct hn|].
  destruct cs; [|by destruct hn]. destruct si; [|by destruct hn].
  assert (forall b, (if ok b then OK else ENEG1) = OK -> b = OK) as Hok by (intros []; done).
  destruct os as [[meta|]|]; intros Hrc.
  - assert (st = OK) as ->.
    { apply Hok. rewrite <- Hrc. unfold on_snapshot_load_done, load_done_first, load_done_last. cbn [load_status].
      generalize (ok st). intros []; by destruct cf, ls, hn. }
    clear Hrc.
    destruct cf, ls, hn; apply Inv_initial; try reflexivity; try (vm_compute; auto; fail);
      rewrite omap_app, Htr; reflexivity.
  - exfalso. destruct cf, ls, hn; cbv in Hrc; discriminate.
  - clear Hrc. destruct cf, ls, hn; apply Inv_initial; try reflexivity; try (vm_compute; auto; fail);
      rewrite omap_app, Htr; reflexivity.
Qed.

Lemma snapshot_started_inv w : started w -> InvW w.
Proof.
  intros (env & o & Hrun & Hf & Hj & Hr). pose proof (init_inv env o [] eq_refl Hf) as Hi.
  unfold wpt, value_of, state_of, events_of in Hi. rewrite Hrun in Hi. unfold InvW. rewrite Hj, Hr. by apply Hi.
Qed.

Lemma snapshot_reachable_inv w : reachable w -> InvW w.
Proof.
  intros (w0 & Hw & Hrun). apply snapshot_started_inv in Hw. induction Hrun as [|? ? ? Hs _ IH]; [done|].
  by apply IH, (snapshot_step_inv _ _ Hs).
Qed.
