(* ===== verification/SnapshotProps.v ===== *)
(** * SnapshotProps: what a snapshot executor promises *)

From S2P Require Import Prelude Types PeerText FsmCaller NodeState Replicator SnapshotExecutor SnapshotRuns SnapshotSafety.

(** ** The snapshot index never goes back *)
Definition same_index (s s' : SnapshotExecutor) : Prop := s'.(_last_snapshot_index) = s.(_last_snapshot_index).
#[export] Instance same_index_PreOrder : PreOrder same_index.
Proof. split; [by intros s|intros s1 s2 s3 H1 H2; unfold same_index in *; congruence]. Qed.

Abbreviation keeps_index := (obeys same_index (fun _ => True)).
Ltac index_kept := obey; try (apply obeys_modify; done); try done.

Lemma run_done_index done e : keeps_index (run_done done e).
Proof. unfold run_done. index_kept. Qed.
Lemma finish_throttled_index : keeps_index finish_throttled.
Proof. unfold finish_throttled. index_kept. Qed.
Lemma set_reply_index rpc f : keeps_index (set_reply rpc f).
Proof. unfold set_reply. index_kept. Qed.
Lemma respond_index rpc : keeps_index (respond rpc).
Proof. unfold respond. index_kept. Qed.
#[export] Hint Resolve run_done_index finish_throttled_index set_reply_index respond_index : obeys.

Lemma save_done_index st meta w done js :
  keeps_index (p ← save_done_check st meta w; ret ← save_done_write p.1 p.2 w; mret (JSaveFinish done st meta ret :: js)).
Proof. unfold save_done_check, save_done_write, log_node. index_kept. Qed.

Lemma do_snapshot_index env done : env.(on_snapshot_save_rc) = OK -> keeps_index (do_snapshot env done).
Proof. intros Hrc. unfold do_snapshot, report_error, add_count. rewrite Hrc. change (negb (ok OK)) with false. cbv iota. index_kept. Qed.

Lemma install_begin_index i q rpc admitted can_copy : keeps_index (install_snapshot_begin i q rpc admitted can_copy).
Proof.
  unfold install_snapshot_begin, register_downloading_snapshot, start_download, meet_download, set_failed, set_term,
    set_success, check, free, add_count. index_kept.
Qed.

Lemma load_last_index st m : keeps_index (load_done_last st m).
Proof. unfold load_done_last, set_failed, set_success, free, signal. index_kept. Qed.
#[export] Hint Resolve load_last_index : obeys.

Lemma failed_load_index st : st <> OK -> keeps_index (install_done_run st).
Proof.
  intros Hst. assert (ok st = false) as Hok by by destruct st.
  unfold install_done_run, on_snapshot_load_done, load_done_first, check. rewrite Hok. cbn [when]. index_kept.
Qed.

Lemma install_end_index i meta c rc : keeps_index (install_snapshot_end i meta c rc).
Proof.
  assert (keeps_index (install_done_run EHOSTDOWN)) as Hf by by apply failed_load_index.
  unfold install_snapshot_end, load_downloading_snapshot, set_failed, check, report_error, signal, free, log_node. index_kept.
Qed.

Lemma interrupt_index t : keeps_index (interrupt_downloading_snapshot t).
Proof. unfold interrupt_downloading_snapshot, check. index_kept. Qed.
#[export] Hint Resolve do_snapshot_index install_begin_index install_end_index interrupt_index : obeys.

Definition index_grows (w : World) (s : SnapshotExecutor) : Prop := w.(se).(_last_snapshot_index) <= s.(_last_snapshot_index).

Lemma wpt_keeps_index {A} (m : SM A) s tr : keeps_index m ->
  wpt m (fun _ s' _ => s.(_last_snapshot_index) <= s'.(_last_snapshot_index)) s tr.
Proof. intros Hm. eapply wpt_obeys; [exact Hm|]. intros a s' ev Hs _. unfold same_index in Hs. lia. Qed.

Lemma step_index w w' : InvW w -> step w w' -> w.(se).(_last_snapshot_index) <= w'.(se).(_last_snapshot_index).
Proof.
  intros [Hsh _ _ _ _ _ _] (c & Hok & Hs). unfold step_with in Hs.
  apply fmap_Some in Hs as ([m r] & Hr & ->). cbn [fst snd].
  apply (wpt_step_with w m r (fun w' => w.(se).(_last_snapshot_index) <= w'.(se).(_last_snapshot_index))). cbn.
  destruct w as [s js tr rs]. unfold run_section in Hr. cbn in *.
  destruct c; cbn in Hok; repeat (case_match; try done); simplify_eq.
  all: try (apply wpt_keeps_index; first [by apply save_done_index | unfold shutdown; index_kept; fail]).
  - destruct l; [|by destruct Hsh]. destruct Hsh as (_ & _ & Hlt).
    unfold save_done_finish, save_done_user, signal, report_error. wpt_step. wpt_step.
    apply wpt_when; intros Hret.
    1: assert (ret = OK) as Heq by (by destruct ret); specialize (Hlt Heq); do 3 wpt_step.
    all: eapply wpt_mono; [apply wpt_keeps_index; index_kept|]; cbn; intros a s1 tr1 H1.
    all: eapply wpt_mono; [apply wpt_keeps_index; index_kept|]; cbn; intros b s2 tr2 H2; lia.
  - destruct l; [|by destruct Hsh]. destruct Hsh as ((_ & _ & Hl) & _ & Hlt).
    unfold load_done_first, check. do 3 wpt_step. rewrite Hl. wpt_go; cbn; lia.
Qed.

(** ** Jobs end *)
Definition ends_a_job (c : Section_) : bool :=
  match c with SaveDone _ _ _ | SaveFinish | Copied _ _ | LoadDone _ | LoadLast => true | _ => false end.
Definition finishing (w w' : World) : Prop := exists c, ends_a_job c = true /\ step_with w c = Some w'.

(** How many sections a job still takes. *)
Definition job_work (j : Job) : nat :=
  match j with JSave _ => 2 | JSaveFinish _ _ _ _ => 1 | JCopy _ _ => 3 | JLoad => 2 | JLoadLast _ _ => 1 end.
Definition work (w : World) : nat := sum_list_with job_work w.(jobs).

Lemma finishing_step w w' : finishing w w' -> step w w'.
Proof. intros (c & Hc & Hs). exists c. by destruct c. Qed.

Lemma finishing_inv w w' : finishing w w' -> InvW w -> InvW w'.
Proof. intros Hs%finishing_step. by apply snapshot_step_inv. Qed.

Lemma finishing_lowers_work w w' : finishing w w' -> InvW w -> (work w' < work w)%nat /\ w'.(received) = w.(received).
Proof.
  intros (c & Hc & Hs) [Hsh _ _ _ _ _ _]. unfold step_with in Hs.
  apply fmap_Some in Hs as ([m r] & Hr & ->). cbn [fst snd].
  apply (wpt_step_with w m r (fun w' => (work w' < work w)%nat /\ w'.(received) = w.(received))). cbn.
  destruct w as [s js tr rs]. unfold run_section in Hr. cbn in *.
  destruct c; try done; repeat (case_match; try done); simplify_eq; pose proof (shape_first _ _ _ Hsh) as ->.
  all: unfold work; cbn [jobs sum_list_with job_work app].
  all: repeat (apply wpt_bind, wpt_any; intros); apply wpt_ret; split; [|done].
  all: match goal with |- context [new_job ?b _] => destruct b | _ => idtac end; cbn; lia.
Qed.

Lemma finishing_enabled w : InvW w -> w.(jobs) <> [] -> exists w', finishing w w'.
Proof.
  intros [Hsh _ _ _ _ _ _] Hne. destruct w as [s js tr rs]. cbn in *.
  destruct js as [|j js]; [done|]. pose proof (shape_first _ _ _ Hsh) as ->.
  destruct j as [done|done st meta ret|i meta| |st m].
  - eexists. exists (SaveDone OK SnapshotMeta_default (mkWriterAnswers true true true)). split; [done|]. reflexivity.
  - eexists. exists SaveFinish. split; [done|]. reflexivity.
  - eexists. exists (Copied (mkCopierAnswers OK None) OK). split; [done|]. reflexivity.
  - eexists. exists (LoadDone OK). split; [done|]. reflexivity.
  - eexists. exists LoadLast. split; [done|]. reflexivity.
Qed.

Lemma work_bound w : InvW w -> (work w <= 3)%nat.
Proof.
  intros [Hsh _ _ _ _ _ _]. unfold work. destruct w.(jobs) as [|j js]; [cbn; lia|].
  pose proof (shape_first _ _ _ Hsh) as ->. destruct j; cbn; lia.
Qed.

Lemma finishing_runs n w w' : nsteps finishing n w w' -> InvW w -> InvW w' /\ (n + work w' <= work w)%nat /\ w'.(received) = w.(received).
Proof.
  induction 1 as [w|n w w1 w2 Hs _ IH]; intros Hi; [split; [done|split; [lia|done]]|].
  destruct (IH (finishing_inv _ _ Hs Hi)) as (? & ? & ->). destruct (finishing_lowers_work _ _ Hs Hi) as [? ->].
  split; [done|split; [lia|done]].
Qed.

(** ** The theorems *)

(** C18: as long as the state machine caller takes every save it is given, a snapshot
    executor runs at most one job at a time, however the sections of its jobs
    interleave: it never saves a snapshot while it downloads or loads one, the copier
    is there exactly while a download has not become a load, the counter [join] waits
    for is the number of jobs, and once there is none every flag is back to its
    initial value. A save that is refused breaks this: [refused_save_never_ends]
    leaves the flag set and [refused_save_counts_down] takes the counter to -1. *)
Theorem one_snapshot_job_at_a_time w : reachable w ->
  w.(se).(_running_jobs) = zlen w.(jobs) /\ 0 <= w.(se).(_running_jobs) <= 1 /\
  ~ (w.(se).(_saving_snapshot) = true /\ is_installing_snapshot w.(se) = true) /\
  (is_installing_snapshot w.(se) = true <-> w.(se).(_cur_copier) = true \/ w.(se).(_loading_snapshot) = true) /\
  ~ (w.(se).(_cur_copier) = true /\ w.(se).(_loading_snapshot) = true) /\
  (w.(se).(_running_jobs) = 0 <-> w.(se).(_saving_snapshot) = false /\ is_installing_snapshot w.(se) = false).
Proof.
  intros [Hsh Hj _ _ _ _ _]%snapshot_reachable_inv. unfold is_installing_snapshot.
  assert (w.(jobs) = [] \/ exists j, w.(jobs) = [j]) as [Hjs|[j Hjs]].
  { destruct w.(jobs) as [|j js]; [by left|right]. rewrite (shape_first _ _ _ Hsh). by exists j. }
  - rewrite Hjs in *. destruct Hsh as ((H1 & H2 & H3) & Hd). rewrite Hd, H1, H2, H3, Hj. cbn. intuition (done || lia).
  - rewrite Hjs in *. rewrite Hj. unfold shape, busy, downloads_to in Hsh.
    destruct j; flat; repeat match goal with H : _ = _ |- _ => progress rewrite H end; cbn; intuition (done || lia).
Qed.

(** C19: every request to install a snapshot is answered exactly once.  The RPCs
    received so far are those answered, each once, and the one whose snapshot is
    being installed; whatever the copier, the state machine and the storage
    answer, a job is at most three sections from its end, one of them can always
    run, and when there is none left every RPC received has been answered. *)
Theorem installations_are_answered_once w : reachable w ->
  NoDup (responses w.(trace)).*1 /\
  w.(received).*1 ≡ₚ (responses w.(trace)).*1 ++ (ds_rpc <$> pending w.(se)) /\
  (forall n w', nsteps finishing n w w' -> (n <= 3)%nat) /\
  (forall w', rtc finishing w w' -> (exists w'', finishing w' w'') \/
     (w'.(jobs) = [] /\ w'.(received) = w.(received) /\ w.(received).*1 ≡ₚ (responses w'.(trace)).*1)).
Proof.
  intros Hi%snapshot_reachable_inv. split; [|split; [|split]].
  - assert (NoDup ((responses w.(trace)).*1 ++ (ds_rpc <$> pending w.(se)))) as Hnd
      by (rewrite <- (v_answered _ _ _ _ Hi); apply Hi).
    by apply NoDup_app in Hnd as (? & _ & _).
  - apply Hi.
  - intros n w' Hn. pose proof (work_bound _ Hi). destruct (finishing_runs _ _ _ Hn Hi) as (_ & ? & _). lia.
  - intros w' (n & Hn)%rtc_nsteps. destruct (finishing_runs _ _ _ Hn Hi) as (Hi' & _ & Hr).
    destruct w'.(jobs) as [|j js] eqn:Hj; [right|left; apply finishing_enabled; [done|by rewrite Hj]].
    split; [done|split; [done|]]. rewrite <- Hr. pose proof (v_answered _ _ _ _ Hi') as Ha.
    pose proof (v_shape _ _ _ _ Hi') as Hsh. rewrite Hj in Hsh. rewrite (pending_none _ (proj2 Hsh)) in Ha.
    by rewrite app_nil_r in Ha.
Qed.

(** C20: an RPC answered with success had asked for a snapshot the executor now
    has: [_last_snapshot_index] has reached its last index, and no section ever
    moves that index back. *)
Theorem success_means_installed w w' rpc r : reachable w -> rtc step w w' ->
  (rpc, r) ∈ responses w.(trace) -> r.(reply_success) = true -> r.(reply_failed) = OK ->
  exists q, (rpc, q) ∈ w.(received) /\
    q.(is_meta).(last_included_index) <= w.(se).(_last_snapshot_index) <= w'.(se).(_last_snapshot_index).
Proof.
  intros Hi%snapshot_reachable_inv Hrun Hin Hs Hf.
  pose proof (proj1 (Forall_forall _ _) (v_loaded _ _ _ _ Hi) _ Hin (conj Hs Hf)) as (q & Hq & Hle).
  exists q. split; [done|]. split; [exact Hle|]. clear -Hi Hrun.
  induction Hrun as [w|w w1 w2 Hs _ IH]; [lia|].
  pose proof (step_index _ _ Hi Hs). pose proof (IH (snapshot_step_inv _ _ Hs Hi)). lia.
Qed.

(** * Runs of a snapshot executor

    Concrete executors on which the theorems of [SnapshotProps] are applied, and
    three runs that show what the code does where it does not do what it means to. *)


(** Sections run one after the other. *)
Fixpoint run_all (w : World) (cs : list Section_) : option World :=
  match cs with
  | [] => Some w
  | c :: cs => step_with w c ≫= fun w' => run_all w' cs
  end.

Lemma run_all_steps w cs w' : Forall section_ok cs -> run_all w cs = Some w' -> rtc step w w'.
Proof.
  intros Hok. revert w. induction Hok as [|c cs Hc _ IH]; intros w Hrun; cbn in Hrun; [by injection Hrun as ->|].
  apply bind_Some in Hrun as (w1 & Hs & Hrun). eapply rtc_l; [by exists c|by apply IH].
Qed.

Definition example_options : SnapshotExecutorOptions := mkSnapshotExecutorOptions "local://./data" true 3 true true.
Definition no_snapshot : InitEnv := mkInitEnv true true true None true OK.
Definition fresh_executor : World :=
  let '(_, s, ev) := init no_snapshot example_options SnapshotExecutor_default in mkWorld s [] ev [].

Lemma fresh_executor_started : started fresh_executor.
Proof. exists no_snapshot, example_options. split; [reflexivity|done]. Qed.

Lemma run_all_reachable cs w : Forall section_ok cs -> run_all fresh_executor cs = Some w -> reachable w.
Proof. intros Hok Hrun. exists fresh_executor. split; [apply fresh_executor_started|by eapply run_all_steps]. Qed.

Definition request_of (term index : Z) : InstallSnapshotRequest :=
  mkInstallSnapshotRequest term PeerId_default PeerId_default (mkSnapshotMeta index term [] []) "remote://a/1".

(** Three requests while a snapshot is downloaded: the second asks for the same one
    and takes the place of the first, the third for a newer one. *)
Definition downloading_sections : list Section_ :=
  [InstallSnapshot 1 (request_of 3 50) 10 true true;
   InstallSnapshot 2 (request_of 3 50) 11 true true;
   InstallSnapshot 2 (request_of 3 60) 12 true true].
(** It is loaded, and asked for once more. *)
Definition installing_sections : list Section_ :=
  downloading_sections ++
  [Copied (mkCopierAnswers OK (Some true)) OK; LoadDone OK; LoadLast; InstallSnapshot 1 (request_of 3 50) 13 true true].

Definition world_after (cs : list Section_) : World := default fresh_executor (run_all fresh_executor cs).
Definition downloading_world : World := world_after downloading_sections.
Definition installed_world : World := world_after installing_sections.

Lemma downloading_world_reachable : reachable downloading_world.
Proof. apply (run_all_reachable downloading_sections); [repeat constructor|vm_compute; reflexivity]. Qed.
Lemma installed_world_reachable : reachable installed_world.
Proof. apply (run_all_reachable installing_sections); [repeat constructor|vm_compute; reflexivity]. Qed.

Lemma one_snapshot_job_witness :
  downloading_world.(jobs) = [JCopy 1 (mkSnapshotMeta 50 3 [] [])] /\ downloading_world.(se).(_running_jobs) = 1 /\
  ~ (downloading_world.(se).(_saving_snapshot) = true /\ is_installing_snapshot downloading_world.(se) = true).
Proof.
  pose proof (one_snapshot_job_at_a_time downloading_world downloading_world_reachable) as (_ & _ & Hno & _).
  split; [reflexivity|split; [reflexivity|exact Hno]].
Defined.

Lemma installations_are_answered_witness :
  (responses downloading_world.(trace)) = [(10%positive, mkReply 3 false EINTR); (12%positive, mkReply 3 false EBUSY)] /\
  downloading_world.(received).*1 ≡ₚ (responses downloading_world.(trace)).*1 ++ (ds_rpc <$> pending downloading_world.(se)).
Proof.
  pose proof (installations_are_answered_once downloading_world downloading_world_reachable) as (_ & Hans & _).
  split; [vm_compute; reflexivity|exact Hans].
Defined.

Lemma success_means_installed_witness : exists q, (11%positive, q) ∈ installed_world.(received) /\
  q.(is_meta).(last_included_index) <= installed_world.(se).(_last_snapshot_index) <= installed_world.(se).(_last_snapshot_index).
Proof.
  apply (success_means_installed installed_world installed_world 11 (mkReply 3 true OK) installed_world_reachable).
  - apply rtc_refl.
  - assert (responses installed_world.(trace) !! 2%nat = Some (11%positive, mkReply 3 true OK)) as Hl by (vm_compute; reflexivity).
    exact (list_elem_of_lookup_2 _ _ _ Hl).
  - reflexivity.
  - reflexivity.
Defined.

(** ** Findings *)
Definition refusing_env : SaveEnv := mkSaveEnv 100 1 true EHOSTDOWN (mkWriterAnswers true true true).
Definition saving_env : SaveEnv := mkSaveEnv 100 1 true OK (mkWriterAnswers true true true).

(** The state machine caller refuses a save nobody waits for: the writer is never
    closed, no job runs, and every save and installation from then on is told that
    one is under way. *)
Example refused_save_never_ends :
  let '(b, s, ev) := do_snapshot refusing_env None fresh_executor.(se) in
  b = false /\ ev = [FsmSnapshotSave] /\ s.(_saving_snapshot) = true /\ s.(_running_jobs) = 0 /\
  (do_snapshot saving_env (Some 7%positive) s).2 = [RunClosure 7 EBUSY] /\
  (install_snapshot_begin 1 (request_of 3 50) 10 true true s).2 = [FinishThrottled; Respond 10 (mkReply 3 false EBUSY)].
Proof. vm_compute. auto 10. Qed.

(** When somebody waits for it, the end of the save counts down a job that was
    never counted. *)
Example refused_save_counts_down :
  let '(b, s, ev) := do_snapshot refusing_env (Some 7%positive) fresh_executor.(se) in
  b = false /\ ev = [FsmSnapshotSave; WriterError EHOSTDOWN; CloseWriter; RunClosure 7 EHOSTDOWN] /\ s.(_running_jobs) = -1.
Proof. vm_compute. auto. Qed.

(** The executor of a bootstrap has no node, and its errors are logged with the
    node's id; and a storage that is not a local one is cast to one. *)
Example logging_without_a_node :
  (init no_snapshot (mkSnapshotExecutorOptions EmptyString false 0 false true) SnapshotExecutor_default).2 = [NullNode] /\
  (on_snapshot_save_done OK (mkSnapshotMeta 9 1 [] []) (mkWriterAnswers false true true) SnapshotExecutor_default).2 =
    [NullNode; CloseWriter; FsmError EIO] /\
  (init (mkInitEnv true true false None true OK) (mkSnapshotExecutorOptions "x://y" true 0 false false) SnapshotExecutor_default).2 =
    [StorageCreated; NullStorage].
Proof. vm_compute. auto. Qed.
