(* ===== verification/SnapshotFiles.v ===== *)
(** * SnapshotFiles: the table of a snapshot's files and its directory

    Models the classes [LocalSnapshotMetaTable], [LocalSnapshotWriter] and
    [LocalSnapshot] of [src/braft/snapshot.h] and [src/braft/snapshot.cpp], over a
    model of the directory a snapshot storage works in.  The directory holds one
    directory for each snapshot; a file in it is a name of an inode, as a snapshot
    may share files with another by hard links.  A call of the file system takes
    its outcome from a script and succeeds once the script is used up.  The file
    with the table is replaced by [ProtoBufFile::save], which is atomic
    ([ProtoBufFile.save_atomic]): here it is one call. *)

From S2P Require Import Prelude Types FsmCaller.

(** ** Tables *)
Inductive FileSource : Set := FILE_SOURCE_LOCAL | FILE_SOURCE_REFERENCE.
Record LocalFileMeta : Set := mkLocalFileMeta {
  user_meta : option string;
  source_field : option FileSource;
  checksum_field : option string
}.
Definition LocalFileMeta_default : LocalFileMeta := mkLocalFileMeta None None None.
Definition source (m : LocalFileMeta) : FileSource := default FILE_SOURCE_LOCAL m.(source_field).
Definition has_checksum (m : LocalFileMeta) : bool := bool_decide (m.(checksum_field) <> None).
Definition checksum (m : LocalFileMeta) : string := default EmptyString m.(checksum_field).
Definition clear_source (m : LocalFileMeta) : LocalFileMeta := mkLocalFileMeta m.(user_meta) None m.(checksum_field).

#[export] Instance FileSource_eq_dec : EqDecision FileSource.
Proof. solve_decision. Defined.
#[export] Instance LocalFileMeta_eq_dec : EqDecision LocalFileMeta.
Proof. solve_decision. Defined.

(** The message in the file; a table is [None] where its meta is not initialized. *)
Record LocalSnapshotPbMeta : Set := mkLocalSnapshotPbMeta { pb_meta : option SnapshotMeta; pb_files : list (string * LocalFileMeta) }.

Record LocalSnapshotMetaTable : Set := mkLocalSnapshotMetaTable { _file_map : gmap string LocalFileMeta; _meta : option SnapshotMeta }.
#[export] Instance LocalSnapshotMetaTable_eta : Settable LocalSnapshotMetaTable := fun t => mkLocalSnapshotMetaTable t.(_file_map) t.(_meta).
Definition LocalSnapshotMetaTable_default : LocalSnapshotMetaTable := mkLocalSnapshotMetaTable ∅ None.

Definition table_add_file (filename : string) (meta : LocalFileMeta) (t : LocalSnapshotMetaTable) : Errno * LocalSnapshotMetaTable :=
  match t.(_file_map) !! filename with
  | None => (OK, t <| _file_map := <[filename := meta]> t.(_file_map) |>)
  | Some _ => (ENEG1, t)
  end.
Definition table_remove_file (filename : string) (t : LocalSnapshotMetaTable) : Errno * LocalSnapshotMetaTable :=
  match t.(_file_map) !! filename with
  | None => (ENEG1, t)
  | Some _ => (OK, t <| _file_map := delete filename t.(_file_map) |>)
  end.

(** A [std::map] is walked in the order of its keys. *)
Definition string_le (a b : string) : Prop := String.leb a b = true.
#[export] Instance string_le_dec a b : Decision (string_le a b).
Proof. unfold string_le. apply _. Defined.
Definition walk (m : gmap string LocalFileMeta) : list (string * LocalFileMeta) :=
  merge_sort (fun a b => string_le a.1 b.1) (map_to_list m).

Definition list_files (t : LocalSnapshotMetaTable) : list string := (walk t.(_file_map)).*1.
Definition get_file_meta (t : LocalSnapshotMetaTable) (filename : string) : option LocalFileMeta := t.(_file_map) !! filename.
Definition has_meta (t : LocalSnapshotMetaTable) : bool := bool_decide (t.(_meta) <> None).
(** [None]: a meta that is not initialized. *)
Definition set_meta (meta : option SnapshotMeta) (t : LocalSnapshotMetaTable) : LocalSnapshotMetaTable := t <| _meta := meta |>.

(** What [save_to_file] writes, and what [load_from_file] makes of it. *)
Definition save_table (t : LocalSnapshotMetaTable) : LocalSnapshotPbMeta := mkLocalSnapshotPbMeta t.(_meta) (walk t.(_file_map)).
Definition load_table (pb : LocalSnapshotPbMeta) : LocalSnapshotMetaTable :=
  mkLocalSnapshotMetaTable (foldl (fun m f => <[f.1 := f.2]> m) ∅ pb.(pb_files)) pb.(pb_meta).

(** [save_to_iobuf_as_remote]: what another peer is shown; a bad message is [None]
    in [load_from_iobuf_as_remote], which reads it as [load_table] does. *)
Definition save_as_remote (t : LocalSnapshotMetaTable) : LocalSnapshotPbMeta :=
  mkLocalSnapshotPbMeta t.(_meta) (map (fun f => (f.1, clear_source f.2)) (walk t.(_file_map))).
Definition load_from_iobuf_as_remote (buf : option LocalSnapshotPbMeta) (t : LocalSnapshotMetaTable) : Errno * LocalSnapshotMetaTable :=
  match buf with Some pb => (OK, load_table pb) | None => (ENEG1, t) end.

(** ** The directory of the storage *)

(** [temp], a snapshot under the name printed for its index, or anything else, with
    the index [sscanf] finds in its name, if any. *)
Inductive DirName : Set := Temp | Snap (index : Z) | Other (name : string) (matched : option Z).
#[export] Instance DirName_eq_dec : EqDecision DirName.
Proof. solve_decision. Defined.
#[export] Instance DirName_countable : Countable DirName.
Proof.
  refine (inj_countable' (fun d => match d with Temp => inl tt | Snap i => inr (inl i) | Other n m => inr (inr (n, m)) end)
    (fun s => match s with inl tt => Temp | inr (inl i) => Snap i | inr (inr (n, m)) => Other n m end) _).
  by intros [].
Defined.

(** The file with the table: there is none, it cannot be read, or it holds a
    message. *)
Inductive MetaFile : Set := NoFile | Damaged | Holds (pb : LocalSnapshotPbMeta).

(** Files are named by their paths below the directory. *)
Record SnapDir : Set := mkSnapDir { meta_file : MetaFile; entries : gmap string positive }.
#[export] Instance SnapDir_eta : Settable SnapDir := fun d => mkSnapDir d.(meta_file) d.(entries).
Definition empty_dir : SnapDir := mkSnapDir NoFile ∅.

(** A call succeeds, fails, or, when it deletes a directory, stops on the way with
    some of the files left. *)
Inductive FsOutcome : Set := FsOk | FsFail | FsPart (meta_kept : bool) (kept : list string).
Definition done_ok (o : FsOutcome) : bool := match o with FsOk => true | _ => false end.

Record SnapFs : Type := mkSnapFs {
  dirs : gmap DirName SnapDir;
  inodes : gmap positive IOBuf;
  next_inode : positive;
  script : list FsOutcome
}.
#[export] Instance SnapFs_eta : Settable SnapFs := fun f => mkSnapFs f.(dirs) f.(inodes) f.(next_inode) f.(script).

Inductive Event : Set := CheckFailed.
Abbreviation FsM := (M SnapFs Event).

Definition outcome : FsM FsOutcome := fun f =>
  match f.(script) with
  | o :: rest => (o, f <| script := rest |>, [])
  | [] => (FsOk, f, [])
  end.
Definition set_dir (d : DirName) (x : SnapDir) (f : SnapFs) : SnapFs := f <| dirs := <[d := x]> f.(dirs) |>.
Definition is_dir (f : SnapFs) (d : DirName) : bool := bool_decide (is_Some (f.(dirs) !! d)).

Definition create_directory (d : DirName) : FsM bool :=
  o ← outcome; f ← get;
  when (done_ok o && negb (is_dir f d)) (modify (set_dir d empty_dir)) ;;
  mret (done_ok o).

(** [delete_file(path, true)]: a directory that is not there is a success. *)
Definition remaining (meta_kept : bool) (kept : list string) (x : SnapDir) : SnapDir :=
  mkSnapDir (if meta_kept then x.(meta_file) else NoFile) (filter (fun e => e.1 ∈ kept) x.(entries)).
Definition delete_tree (d : DirName) : FsM bool :=
  o ← outcome; f ← get;
  match o, f.(dirs) !! d with
  | FsOk, _ => modify (fun f => f <| dirs := delete d f.(dirs) |>) ;; mret true
  | FsPart meta_kept kept, Some x => modify (set_dir d (remaining meta_kept kept x)) ;; mret false
  | _, _ => mret false
  end.

(** [delete_file(path, false)] of a file. *)
Definition delete_entry (d : DirName) (filename : string) : FsM bool :=
  o ← outcome; f ← get;
  match f.(dirs) !! d with
  | Some x => when (done_ok o) (modify (set_dir d (x <| entries := delete filename x.(entries) |>))) ;; mret (done_ok o)
  | None => mret (done_ok o)
  end.

(** [rename] of a directory: over an empty one, or where there is none. *)
Definition is_empty_dir (x : SnapDir) : bool := match x.(meta_file) with NoFile => bool_decide (x.(entries) = ∅) | _ => false end.
Definition rename (from to : DirName) : FsM bool :=
  o ← outcome; f ← get;
  match f.(dirs) !! from with
  | Some x =>
      if done_ok o && (match f.(dirs) !! to with Some y => is_empty_dir y | None => true end) then
        modify (fun f => f <| dirs := <[to := x]> (delete from f.(dirs)) |>) ;; mret true
      else mret false
  | None => mret false
  end.

(** [link]: the new name must not exist. *)
Definition link (from : DirName) (from_name : string) (to : DirName) (to_name : string) : FsM bool :=
  o ← outcome; f ← get;
  match f.(dirs) !! from ≫= fun x => x.(entries) !! from_name, f.(dirs) !! to with
  | Some inode, Some y =>
      if done_ok o && bool_decide (y.(entries) !! to_name = None) then
        modify (set_dir to (y <| entries := <[to_name := inode]> y.(entries) |>)) ;; mret true
      else mret false
  | _, _ => mret false
  end.

(** [open] with [O_CREAT | O_TRUNC], and what is then written to it. *)
Definition write_file (d : DirName) (filename : string) (c : IOBuf) : FsM bool :=
  o ← outcome; f ← get;
  match f.(dirs) !! d with
  | Some x =>
      if negb (done_ok o) then mret false
      else
        match x.(entries) !! filename with
        | Some inode => modify (fun f => f <| inodes := <[inode := c]> f.(inodes) |>) ;; mret true
        | None =>
            modify (fun f =>
              set_dir d (x <| entries := <[filename := f.(next_inode)]> x.(entries) |>) f
                <| inodes := <[f.(next_inode) := c]> f.(inodes) |> <| next_inode := Pos.succ f.(next_inode) |>) ;;
            mret true
        end
  | None => mret false
  end.

(** The names in a directory, but for that of the table's file; a directory reader
    does not go into subdirectories, and a name of one is not a file. *)
Definition in_subdirectory (filename : string) : bool := bool_decide (String.index 0 "/" filename <> None).
Definition directory_reader (d : DirName) : FsM (option (list string)) :=
  o ← outcome; f ← get;
  mret (match f.(dirs) !! d with
        | Some x => if done_ok o then Some (filter (fun n => in_subdirectory n = false) (elements (dom x.(entries)))) else None
        | None => None
        end).

(** [LocalSnapshotMetaTable::save_to_file] and [load_from_file]. *)
Definition save_to_file (d : DirName) (t : LocalSnapshotMetaTable) : FsM Errno :=
  o ← outcome; f ← get;
  match f.(dirs) !! d with
  | Some x => if done_ok o then modify (set_dir d (x <| meta_file := Holds (save_table t) |>)) ;; mret OK else mret ENEG1
  | None => mret ENEG1
  end.
Definition load_from_file (d : DirName) : FsM (option LocalSnapshotMetaTable) :=
  o ← outcome; f ← get;
  mret (match f.(dirs) !! d with
        | Some x =>
            match x.(meta_file) with
            | Holds pb => if done_ok o then Some (load_table pb) else None
            | _ => None
            end
        | None => None
        end).

(** ** The writer *)
Record LocalSnapshotWriter : Set := mkLocalSnapshotWriter { w_path : DirName; w_table : LocalSnapshotMetaTable; w_error : Errno }.
#[export] Instance LocalSnapshotWriter_eta : Settable LocalSnapshotWriter := fun w => mkLocalSnapshotWriter w.(w_path) w.(w_table) w.(w_error).

(** The constructor. *)
Definition LocalSnapshotWriter_new (path : DirName) : LocalSnapshotWriter := mkLocalSnapshotWriter path LocalSnapshotMetaTable_default OK.
Definition set_writer_error (e : Errno) (w : LocalSnapshotWriter) : LocalSnapshotWriter := w <| w_error := e |>.

(** The files the table does not know; whether each could be deleted does not
    matter. *)
Definition delete_entries (d : DirName) (names : list string) : FsM unit := mapM_ (fun n => delete_entry d n ;; skip) names.

Definition writer_init (w : LocalSnapshotWriter) : FsM (Errno * LocalSnapshotWriter) :=
  created ← create_directory w.(w_path);
  if negb created then mret (EIO, set_writer_error EIO w)
  else
    f ← get;
    let meta_exists := match f.(dirs) !! w.(w_path) with
                       | Some x => match x.(meta_file) with NoFile => false | _ => true end
                       | None => false
                       end in
    loaded ← (if meta_exists then t ← load_from_file w.(w_path); mret (option_map Some t) else mret (Some None));
    match loaded with
    | None => mret (EIO, set_writer_error EIO w)
    | Some t =>
        let w := w <| w_table := default w.(w_table) t |> in
        names ← directory_reader w.(w_path);
        match names with
        | None => mret (EIO, set_writer_error EIO w)
        | Some names =>
            delete_entries w.(w_path) (filter (fun n => get_file_meta w.(w_table) n = None) names) ;;
            mret (OK, w)
        end
    end.

Definition writer_snapshot_index (w : LocalSnapshotWriter) : Z :=
  match w.(w_table).(_meta) with Some m => m.(last_included_index) | None => 0 end.

Definition writer_add_file (filename : string) (file_meta : option LocalFileMeta) (w : LocalSnapshotWriter) : Errno * LocalSnapshotWriter :=
  let '(rc, t) := table_add_file filename (default LocalFileMeta_default file_meta) w.(w_table) in (rc, w <| w_table := t |>).
Definition writer_remove_file (filename : string) (w : LocalSnapshotWriter) : Errno * LocalSnapshotWriter :=
  let '(rc, t) := table_remove_file filename w.(w_table) in (rc, w <| w_table := t |>).
Definition writer_save_meta (meta : option SnapshotMeta) (w : LocalSnapshotWriter) : LocalSnapshotWriter :=
  w <| w_table := set_meta meta w.(w_table) |>.

(** [sync]: the first failure is remembered. *)
Definition writer_sync (w : LocalSnapshotWriter) : FsM (Errno * LocalSnapshotWriter) :=
  rc ← save_to_file w.(w_path) w.(w_table);
  mret (rc, if negb (ok rc) && ok w.(w_error) then set_writer_error rc w else w).
