(* ===== verification/SnapshotStorage.v ===== *)
(** * SnapshotStorage: the snapshots on disk and who uses them

    Models the classes [LocalSnapshotStorage] and [LocalSnapshotReader] of
    [src/braft/snapshot.h] and [src/braft/snapshot.cpp].  What runs between two
    uses of [_mutex] is a definition of its own, and a method is their
    composition: a reader may be opened or closed by another thread in between. *)

From S2P Require Import Prelude Types FsmCaller SnapshotFiles.

Record LocalSnapshotStorage : Type := mkLocalSnapshotStorage {
  _filter_before_copy_remote : bool;
  _last_snapshot_index : Z;
  _ref_map : gmap Z Z;
  _copy_file : bool
}.
#[export] Instance LocalSnapshotStorage_eta : Settable LocalSnapshotStorage := fun s =>
  mkLocalSnapshotStorage s.(_filter_before_copy_remote) s.(_last_snapshot_index) s.(_ref_map) s.(_copy_file).

(** The constructor leaves [_filter_before_copy_remote] to chance: [garbage]. *)
Definition LocalSnapshotStorage_new (garbage : bool) : LocalSnapshotStorage := mkLocalSnapshotStorage garbage 0 ∅ true.
Definition set_filter_before_copy_remote (s : LocalSnapshotStorage) : LocalSnapshotStorage := s <| _filter_before_copy_remote := true |>.

(** The storage and the directory it works in. *)
Record Store : Type := mkStore { fs : SnapFs; storage : LocalSnapshotStorage }.
#[export] Instance Store_eta : Settable Store := fun w => mkStore w.(fs) w.(storage).

Abbreviation StoreM := (M Store Event).
Definition on_fs {A} (m : FsM A) : StoreM A := fun w => let '(a, f, ev) := m w.(fs) in (a, w <| fs := f |>, ev).
Definition set_storage (f : LocalSnapshotStorage -> LocalSnapshotStorage) : StoreM unit :=
  modify (fun w => w <| storage := f w.(storage) |>).
Definition check_that (b : bool) : StoreM unit := when (negb b) (emit CheckFailed).

(** ** References *)
Definition refs_of (index : Z) (s : LocalSnapshotStorage) : Z := default 0 (s.(_ref_map) !! index).
Definition ref (index : Z) : StoreM unit :=
  set_storage (fun s => s <| _ref_map := <[index := refs_of index s + 1]> s.(_ref_map) |>).

Definition destroy_snapshot (d : DirName) : StoreM Errno := b ← on_fs (delete_tree d); mret (if negb b then ENEG1 else OK).

(** [unref] under the lock: whether the directory is to be deleted; and the rest. *)
Definition unref_locked (index : Z) : StoreM bool :=
  w ← get;
  match w.(storage).(_ref_map) !! index with
  | Some n =>
      if n - 1 =? 0 then set_storage (fun s => s <| _ref_map := delete index s.(_ref_map) |>) ;; mret true
      else set_storage (fun s => s <| _ref_map := <[index := n - 1]> s.(_ref_map) |>) ;; mret false
  | None => mret false
  end.
Definition destroy_old (index : Z) : StoreM unit := destroy_snapshot (Snap index) ;; skip.
Definition unref (index : Z) : StoreM unit := b ← unref_locked index; when b (destroy_old index).

(** ** Starting *)
Definition matched_index (d : DirName) : option Z :=
  match d with Temp => None | Snap i => Some i | Other _ m => m end.
(** The [std::set] of the indexes in the names of the directory. *)
Definition snapshot_set (f : SnapFs) : list Z :=
  merge_sort Z.le (remove_dups (omap matched_index (elements (dom f.(dirs))))).

(** All but the last, in order, until one cannot be deleted. *)
Fixpoint delete_snapshots (old : list Z) : StoreM bool :=
  match old with
  | [] => mret true
  | i :: old => b ← on_fs (delete_tree (Snap i)); if negb b then mret false else delete_snapshots old
  end.

(** The storage's own directory is the whole of [SnapFs]: creating it and opening
    it for reading are calls that may fail. *)
Definition init : StoreM Errno :=
  o ← on_fs outcome;
  if negb (done_ok o) then mret ENEG1
  else
    w ← get;
    cleared ← (if negb w.(storage).(_filter_before_copy_remote) then on_fs (delete_tree Temp) else mret true);
    if negb cleared then mret EIO
    else
      o ← on_fs outcome;
      if negb (done_ok o) then mret EIO
      else
        w ← get;
        let snapshots := snapshot_set w.(fs) in
        match last snapshots with
        | None => mret OK
        | Some index =>
            b ← delete_snapshots (removelast snapshots);
            if negb b then mret EIO
            else
              set_storage (fun s => s <| _last_snapshot_index := index |>) ;;
              ref index ;;
              mret OK
        end.

(** ** Writing *)
Definition create (from_empty : bool) : StoreM (option LocalSnapshotWriter) :=
  w ← get;
  cleared ← (if is_dir w.(fs) Temp && from_empty then rc ← destroy_snapshot Temp; mret (ok rc) else mret true);
  if negb cleared then mret None
  else
    '(rc, writer) ← on_fs (writer_init (LocalSnapshotWriter_new Temp));
    mret (if negb (ok rc) then None else Some writer).

(** [close] of a writer, up to the renaming: the error, and the old and the new
    index once [temp] has become a snapshot. *)
Definition close_rename (writer : LocalSnapshotWriter) : StoreM (Errno * (Z * Z)) :=
  let fail e := mret (e, (0, 0)) in
  if negb (ok writer.(w_error)) then fail writer.(w_error)
  else
    '(rc, writer) ← on_fs (writer_sync writer);
    if negb (ok rc) then fail rc
    else
      w ← get;
      let old_index := w.(storage).(_last_snapshot_index) in
      let new_index := writer_snapshot_index writer in
      if new_index =? old_index then fail EEXIST
      else
        b ← on_fs (delete_tree (Snap new_index));
        if negb b then fail EIO
        else
          b ← on_fs (rename Temp (Snap new_index));
          if negb b then fail EIO else mret (OK, (old_index, new_index)).

Definition close_switch (old_index new_index : Z) : StoreM unit :=
  w ← get;
  check_that (old_index =? w.(storage).(_last_snapshot_index)) ;;
  set_storage (fun s => s <| _last_snapshot_index := new_index |>).

(** What is left of a failed writer, and what is told to the caller. *)
Definition close_failed (ret : Errno) (keep_data_on_error : bool) (d : DirName) : StoreM unit :=
  when (negb (ok ret) && negb keep_data_on_error) (destroy_snapshot d ;; skip).
Definition close_result (ret : Errno) : Errno := if negb (bool_decide (ret = EIO)) then OK else ENEG1.

Definition close (writer : LocalSnapshotWriter) (keep_data_on_error : bool) : StoreM Errno :=
  '(ret, (old_index, new_index)) ← close_rename writer;
  (if ok ret then
     ref new_index ;;
     close_switch old_index new_index ;;
     unref old_index
   else skip) ;;
  close_failed ret keep_data_on_error writer.(w_path) ;;
  mret (close_result ret).

(** ** Reading *)
Record LocalSnapshotReader : Set := mkLocalSnapshotReader { r_path : DirName; r_table : LocalSnapshotMetaTable; r_error : Errno }.

Definition reader_init (d : DirName) : FsM (Errno * LocalSnapshotReader) :=
  f ← get;
  if negb (is_dir f d) then mret (ENOENT, mkLocalSnapshotReader d LocalSnapshotMetaTable_default ENOENT)
  else
    t ← load_from_file d;
    mret (match t with
          | Some t => (OK, mkLocalSnapshotReader d t OK)
          | None => (EIO, mkLocalSnapshotReader d LocalSnapshotMetaTable_default EIO)
          end).

Definition load_meta (r : LocalSnapshotReader) : option SnapshotMeta := r.(r_table).(_meta).

(** [snapshot_index] reads the name of the directory. *)
Definition reader_snapshot_index (r : LocalSnapshotReader) : StoreM Z :=
  match matched_index r.(r_path) with Some i => mret i | None => emit CheckFailed ;; mret 0 end.

(** [open]: the index whose snapshot is referenced, and the rest. *)
Definition open_locked : StoreM (option Z) :=
  w ← get;
  let index := w.(storage).(_last_snapshot_index) in
  if negb (index =? 0) then ref index ;; mret (Some index) else mret None.
Definition open_read (index : Z) : StoreM (option LocalSnapshotReader) :=
  '(rc, r) ← on_fs (reader_init (Snap index));
  mret (if negb (ok rc) then None else Some r).
Definition open : StoreM (option LocalSnapshotReader) :=
  index ← open_locked;
  match index with
  | None => mret None
  | Some index =>
      r ← open_read index;
      match r with
      | None => unref index ;; mret None
      | Some r => mret (Some r)
      end
  end.

Definition close_reader (r : LocalSnapshotReader) : StoreM unit := i ← reader_snapshot_index r; unref i.
