(* ===== verification/SnapshotCopier.v ===== *)
(** * SnapshotCopier: copying a snapshot from another peer

    Models the class [LocalSnapshotCopier] of [src/braft/snapshot.h] and
    [src/braft/snapshot.cpp].  What the peer sends, and when the copier is
    cancelled, are answers for each file it asks for ([FileAnswer]); the copier asks
    for a file at most once.  [session->cancel] is an answer with the status
    [ECANCELED]. *)

From S2P Require Import Prelude Types FsmCaller SnapshotFiles SnapshotStorage.

Record MetaAnswer : Set := mkMetaAnswer {
  meta_cancelled : bool;
  meta_status : Errno;
  (** [None]: the bytes cannot be parsed. *)
  meta_buf : option LocalSnapshotPbMeta
}.
Record FileAnswer : Set := mkFileAnswer {
  (** [create_sub_directory]; its error *)
  sub_directory : Errno;
  file_cancelled : bool;
  file_status : Errno;
  file_content : IOBuf
}.
Record CopyEnv : Type := mkCopyEnv { meta_answer : MetaAnswer; file_answer : string -> FileAnswer }.

Record LocalSnapshotCopier : Type := mkLocalSnapshotCopier {
  error_code : Errno;
  _writer : option LocalSnapshotWriter;
  _reader : option LocalSnapshotReader;
  _remote_snapshot : LocalSnapshotMetaTable
}.
#[export] Instance LocalSnapshotCopier_eta : Settable LocalSnapshotCopier := fun c =>
  mkLocalSnapshotCopier c.(error_code) c.(_writer) c.(_reader) c.(_remote_snapshot).
Definition LocalSnapshotCopier_new : LocalSnapshotCopier := mkLocalSnapshotCopier OK None None LocalSnapshotMetaTable_default.

(** The copier and the storage it works for. *)
Record Copying : Type := mkCopying { store : Store; copier : LocalSnapshotCopier }.
#[export] Instance Copying_eta : Settable Copying := fun c => mkCopying c.(store) c.(copier).
Abbreviation CopyM := (M Copying Event).
Definition on_store {A} (m : StoreM A) : CopyM A := fun c => let '(a, w, ev) := m c.(store) in (a, c <| store := w |>, ev).
Definition set_copier (f : LocalSnapshotCopier -> LocalSnapshotCopier) : CopyM unit := modify (fun c => c <| copier := f c.(copier) |>).
Definition set_error (e : Errno) : CopyM unit := set_copier (fun c => c <| error_code := e |>).
Definition copier_ok (c : Copying) : bool := ok c.(copier).(error_code).
Definition set_writer (w : option LocalSnapshotWriter) : CopyM unit := set_copier (fun c => c <| _writer := w |>).
(** A step of the writer the copier holds. *)
Definition with_writer {A} (m : LocalSnapshotWriter -> CopyM A) (none : A) : CopyM A :=
  c ← get; match c.(copier).(_writer) with Some w => m w | None => emit CheckFailed ;; mret none end.

Definition load_meta_table (a : MetaAnswer) : CopyM unit :=
  if a.(meta_cancelled) then set_error ECANCELED
  else if negb (ok a.(meta_status)) then set_error a.(meta_status)
  else
    c ← get;
    let '(rc, t) := load_from_iobuf_as_remote a.(meta_buf) c.(copier).(_remote_snapshot) in
    if negb (ok rc) then set_error ENEG1
    else
      set_copier (fun c => c <| _remote_snapshot := t |>) ;;
      when (negb (has_meta t)) (emit CheckFailed).

(** ** Filtering *)

(** The state of the loops of [filter_before_copy]: the writer and [to_remove]. *)
Definition Filtering : Set := (LocalSnapshotWriter * list string)%type.

(** A file of the writer the peer does not have. *)
Definition drop_unknown (remote : LocalSnapshotMetaTable) (filename : string) (x : Filtering) : Filtering :=
  match get_file_meta remote filename with
  | None => ((writer_remove_file filename x.1).2, x.2 ++ [filename])
  | Some _ => x
  end.

Definition same_checksum (local remote : LocalFileMeta) : bool :=
  has_checksum local && bool_decide (checksum local = checksum remote).

(** The file is looked for in the last snapshot. *)
Definition take_from_last (last_snapshot : option LocalSnapshotReader) (filename : string) (remote_meta : LocalFileMeta)
    (x : Filtering) : FsM Filtering :=
  let '(writer, to_remove) := x in
  match last_snapshot with
  | None => mret x
  | Some r =>
      match get_file_meta r.(r_table) filename with
      | None => mret x
      | Some local_meta =>
          if negb (same_checksum local_meta remote_meta) then mret x
          else
            match source local_meta with
            | FILE_SOURCE_LOCAL =>
                delete_entry writer.(w_path) filename ;;
                linked ← link r.(r_path) filename writer.(w_path) filename;
                if negb linked then mret x
                else mret ((writer_add_file filename (Some local_meta) writer).2,
                           if bool_decide (last to_remove = Some filename) then removelast to_remove else to_remove)
            | FILE_SOURCE_REFERENCE => mret ((writer_add_file filename (Some local_meta) writer).2, to_remove)
            end
      end
  end.

(** A file of the peer. *)
Definition filter_file (last_snapshot : option LocalSnapshotReader) (f : string * LocalFileMeta) (x : Filtering) : FsM Filtering :=
  let '(filename, remote_meta) := f in
  let '(writer, to_remove) := x in
  if negb (has_checksum remote_meta) then mret ((writer_remove_file filename writer).2, to_remove ++ [filename])
  else
    match get_file_meta writer.(w_table) filename with
    | Some local_meta =>
        if same_checksum local_meta remote_meta then mret x
        else take_from_last last_snapshot filename remote_meta ((writer_remove_file filename writer).2, to_remove ++ [filename])
    | None => take_from_last last_snapshot filename remote_meta x
    end.
Fixpoint filter_files (last_snapshot : option LocalSnapshotReader) (fl : list (string * LocalFileMeta)) (x : Filtering) : FsM Filtering :=
  match fl with
  | [] => mret x
  | f :: fl => x ← filter_file last_snapshot f x; filter_files last_snapshot fl x
  end.

Definition filter_before_copy (remote : LocalSnapshotMetaTable) (writer : LocalSnapshotWriter)
    (last_snapshot : option LocalSnapshotReader) : FsM (Errno * LocalSnapshotWriter) :=
  let x := fold_left (fun x n => drop_unknown remote n x) (list_files writer.(w_table)) (writer, []) in
  '(writer, to_remove) ← filter_files last_snapshot (walk remote.(_file_map)) x;
  '(rc, writer) ← writer_sync writer;
  if negb (ok rc) then mret (ENEG1, writer)
  else
    delete_entries writer.(w_path) to_remove ;;
    mret (OK, writer).

(** What the copier starts from when it keeps the files it has. *)
Definition filter_kept (writer : LocalSnapshotWriter) : CopyM unit :=
  c ← get;
  reader ← on_store open;
  '(rc, writer) ← on_store (on_fs (filter_before_copy c.(copier).(_remote_snapshot) writer reader));
  (if negb (ok rc) then
     on_store (close (set_writer_error ENEG1 writer) false) ;;
     w ← on_store (create true);
     set_writer w
   else set_writer (Some writer)) ;;
  match reader with Some r => on_store (close_reader r) | None => skip end.

Definition filter_remote : CopyM unit :=
  c ← get;
  let keep := c.(store).(storage).(_filter_before_copy_remote) in
  w ← on_store (create (negb keep));
  set_writer w ;;
  match w with
  | None => set_error EIO
  | Some writer =>
      when keep (filter_kept writer) ;;
      c ← get;
      match c.(copier).(_writer) with
      | None => set_error EIO
      | Some writer =>
          '(rc, writer) ← on_store (on_fs (writer_sync (writer_save_meta c.(copier).(_remote_snapshot).(_meta) writer)));
          set_writer (Some writer) ;;
          when (negb (ok rc)) (set_error EIO)
      end
  end.

(** ** Copying *)
Definition copy_file (env : CopyEnv) (filename : string) : CopyM unit :=
  with_writer (fun w =>
    match get_file_meta w.(w_table) filename with
    | Some _ => skip
    | None =>
        let a := env.(file_answer) filename in
        when (in_subdirectory filename && negb (ok a.(sub_directory))) (set_error a.(sub_directory)) ;;
        c ← get;
        let meta := default LocalFileMeta_default (get_file_meta c.(copier).(_remote_snapshot) filename) in
        if a.(file_cancelled) then set_error ECANCELED
        else
          written ← on_store (on_fs (write_file w.(w_path) filename a.(file_content)));
          if negb written then set_error ENEG1
          else if negb (ok a.(file_status)) then set_error a.(file_status)
          else
            let '(rc, w) := writer_add_file filename (Some meta) w in
            set_writer (Some w) ;;
            if negb (ok rc) then set_error EIO
            else
              '(rc, w) ← on_store (on_fs (writer_sync w));
              set_writer (Some w) ;;
              when (negb (ok rc)) (set_error EIO)
    end) tt.

(** As long as nothing has failed. *)
Fixpoint copy_files (env : CopyEnv) (files : list string) : CopyM unit :=
  match files with
  | [] => skip
  | f :: files => c ← get; when (copier_ok c) (copy_file env f ;; copy_files env files)
  end.

Definition close_writer : CopyM unit :=
  c ← get;
  match c.(copier).(_writer) with
  | None => skip
  | Some w =>
      let w := if negb (copier_ok c) && ok w.(w_error) then set_writer_error c.(copier).(error_code) w else w in
      rc ← on_store (close w c.(store).(storage).(_filter_before_copy_remote));
      when (negb (ok rc) && copier_ok c) (set_error EIO) ;;
      set_writer None
  end.

Definition copy (env : CopyEnv) : CopyM unit :=
  load_meta_table env.(meta_answer) ;;
  c ← get;
  when (copier_ok c)
    (filter_remote ;;
     c ← get;
     when (copier_ok c && c.(store).(storage).(_copy_file))
       (copy_files env (list_files c.(copier).(_remote_snapshot)))) ;;
  close_writer ;;
  c ← get;
  when (copier_ok c) (r ← on_store open; set_copier (fun c => c <| _reader := r |>)).
