(* ===== verification/SnapshotStorageProofs.v ===== *)
(** * SnapshotStorageProofs: the lives of a snapshot storage and what its calls touch

    Runs of a snapshot storage as sequences of the sections its methods are made
    of: one writer at a time, which is what the snapshot executor sees to, and any
    number of readers that are opened and closed by other threads in between.  The
    process may stop at any point and start again from what is on disk.  The files
    a copier keeps from one copy to the next ([_filter_before_copy_remote]) are not
    in these runs. *)

From S2P Require Import Prelude Types FsmCaller SnapshotFiles SnapshotStorage.

(** What a snapshot holds: its table's file and the bytes of its files. *)
Definition View : Set := (MetaFile * gmap string IOBuf)%type.
Definition bytes_of (f : SnapFs) (inode : positive) : IOBuf := default [] (f.(inodes) !! inode).
Definition view (f : SnapFs) (x : SnapDir) : View := (x.(meta_file), bytes_of f <$> x.(entries)).
Definition view_of (f : SnapFs) (d : DirName) : option View := view f <$> f.(dirs) !! d.

(** How far the [close] of a writer has come. *)
Inductive Phase : Set :=
| Free
| Renamed (old_index new_index : Z)
| Reffed (old_index new_index : Z)
| Switched (old_index : Z)
(** not initialised, or [init] failed *)
| Down.

Record World : Type := mkWorld {
  st : Store;
  writer : option LocalSnapshotWriter;
  phase : Phase;
  (** references taken by an [open] that goes on, the readers there are, and the
      directories [unref] has decided to delete *)
  opening : list Z;
  readers : list (Z * LocalSnapshotReader);
  doomed : list Z;
  (** what each snapshot was when it was put in place, or found *)
  kept : gmap Z View
}.
#[export] Instance World_eta : Settable World := fun w =>
  mkWorld w.(st) w.(writer) w.(phase) w.(opening) w.(readers) w.(doomed) w.(kept).

Inductive Section_ : Set :=
| Create
| WriteFile (filename : string) (c : IOBuf)
| DeleteFile (filename : string)
| AddFile (filename : string) (meta : option LocalFileMeta)
| RemoveFile (filename : string)
| SaveMeta (meta : SnapshotMeta)
| SetError (e : Errno)
| Sync
| CloseRename (keep_data_on_error : bool)
| CloseRef
| CloseSwitch
| CloseUnref
| DestroyOld (n : nat)
| OpenLocked
| OpenRead (n : nat)
| OpenFailed (n : nat)
| CloseReader (n : nat)
| Restart (outcomes : list FsOutcome).

Definition last_index (w : World) : Z := w.(st).(storage).(_last_snapshot_index).

(** An operation run in a world. *)
Definition run {A} (m : StoreM A) (w : World) : A * World := let '(a, s, _) := m w.(st) in (a, w <| st := s |>).
Definition doom (b : bool) (index : Z) (w : World) : World := if b then w <| doomed := index :: w.(doomed) |> else w.
(** [unref] up to the deletion. *)
Definition drop_ref (index : Z) (w : World) : World := let '(b, w) := run (unref_locked index) w in doom b index w.
Definition note (index : Z) (w : World) : World :=
  match view_of w.(st).(fs) (Snap index) with Some v => w <| kept := <[index := v]> w.(kept) |> | None => w end.

(** The executor closes a writer without an error only when its snapshot is newer. *)
Definition newer (wr : LocalSnapshotWriter) (w : World) : Prop := ok wr.(w_error) = true -> last_index w < writer_snapshot_index wr.
#[export] Instance newer_dec wr w : Decision (newer wr w).
Proof. unfold newer. apply _. Defined.

(** A process that starts on the files of the one before. *)
Definition restarted (outcomes : list FsOutcome) (w : World) : World :=
  mkWorld (mkStore (w.(st).(fs) <| script := outcomes |>) (LocalSnapshotStorage_new false)) None Down [] [] [] ∅.

(** One section; [None] where it cannot run. *)
Definition do_section (w : World) (c : Section_) : option World :=
  match c, w.(writer), w.(phase) with
  | Create, None, Free => let '(wr, w) := run (create true) w in Some (w <| writer := wr |>)
  | WriteFile n c, Some wr, _ => Some (run (on_fs (write_file wr.(w_path) n c)) w).2
  | DeleteFile n, Some wr, _ => Some (run (on_fs (delete_entry wr.(w_path) n)) w).2
  | AddFile n m, Some wr, _ => Some (w <| writer := Some (writer_add_file n m wr).2 |>)
  | RemoveFile n, Some wr, _ => Some (w <| writer := Some (writer_remove_file n wr).2 |>)
  | SaveMeta m, Some wr, _ => Some (w <| writer := Some (writer_save_meta (Some m) wr) |>)
  | SetError e, Some wr, _ => Some (w <| writer := Some (set_writer_error e wr) |>)
  | Sync, Some wr, _ => let '((_, wr), w) := run (on_fs (writer_sync wr)) w in Some (w <| writer := Some wr |>)
  | CloseRename keep, Some wr, Free =>
      if decide (newer wr w) then
        let '((ret, (old, new)), w) := run (close_rename wr) w in
        if ok ret then Some (note new (w <| writer := None |> <| phase := Renamed old new |>))
        else Some ((run (close_failed ret keep wr.(w_path)) w).2 <| writer := None |>)
      else None
  | CloseRef, _, Renamed old new => Some (run (ref new) (w <| phase := Reffed old new |>)).2
  | CloseSwitch, _, Reffed old new => Some ((run (close_switch old new) w).2 <| phase := Switched old |>)
  | CloseUnref, _, Switched old => Some (drop_ref old (w <| phase := Free |>))
  | DestroyOld n, _, _ =>
      match w.(doomed) !! n with
      | Some i => Some ((run (destroy_old i) w).2 <| doomed := delete n w.(doomed) |>)
      | None => None
      end
  | OpenLocked, _, Down => None
  | OpenLocked, _, _ =>
      let '(i, w) := run open_locked w in
      Some (match i with Some i => w <| opening := i :: w.(opening) |> | None => w end)
  | OpenRead n, _, _ =>
      match w.(opening) !! n with
      | Some i =>
          let '(r, w) := run (open_read i) w in
          Some (match r with
                | Some r => w <| opening := delete n w.(opening) |> <| readers := (i, r) :: w.(readers) |>
                | None => w
                end)
      | None => None
      end
  | OpenFailed n, _, _ =>
      match w.(opening) !! n with Some i => Some (drop_ref i (w <| opening := delete n w.(opening) |>)) | None => None end
  | CloseReader n, _, _ =>
      match w.(readers) !! n with
      | Some (_, r) =>
          let '(i, w) := run (reader_snapshot_index r) w in
          Some (drop_ref i (w <| readers := delete n w.(readers) |>))
      | None => None
      end
  | Restart sc, _, _ =>
      let '(rc, w') := run init (restarted sc w) in
      Some (if ok rc then note (last_index w') (w' <| phase := Free |>) else restarted [] w')
  | _, _, _ => None
  end.

Definition step (w w' : World) : Prop := exists c, do_section w c = Some w'.

(** A directory with nothing of the storage in it. *)
Definition empty_fs : SnapFs := mkSnapFs ∅ ∅ 1 [].
Definition blank : World := mkWorld (mkStore empty_fs (LocalSnapshotStorage_new false)) None Down [] [] [] ∅.
Definition reachable (w : World) : Prop := rtc step blank w.

(** * What the calls of a snapshot storage touch

    A run of calls on the directory changes only the directories it is about
    ([touches]), and the inodes of a directory belong to no other ([wf]); with the
    lemmas that carry both through the operations of [SnapshotFiles]. *)


(** ** The directory *)

(** Different directories share no file, and inodes still to be given out are in
    none. *)
Record wf (f : SnapFs) : Prop := mkWf {
  wf_apart d1 d2 x y n1 n2 i : f.(dirs) !! d1 = Some x -> f.(dirs) !! d2 = Some y ->
    x.(entries) !! n1 = Some i -> y.(entries) !! n2 = Some i -> d1 = d2;
  wf_fresh d x n i : f.(dirs) !! d = Some x -> x.(entries) !! n = Some i -> (i < f.(next_inode))%positive
}.

(** Only the directories of [D] change, none but [temp] appears. *)
Record touches (D : DirName -> Prop) (f f' : SnapFs) : Prop := mkTouches {
  t_wf : wf f -> wf f';
  t_dirs d : ~ D d -> f'.(dirs) !! d = f.(dirs) !! d;
  t_bytes d x : wf f -> ~ D d -> f.(dirs) !! d = Some x -> view f' x = view f x;
  t_new d : d <> Temp -> is_Some (f'.(dirs) !! d) -> is_Some (f.(dirs) !! d)
}.

#[export] Instance touches_PreOrder D : PreOrder (touches D).
Proof.
  split; [by split|]. intros f1 f2 f3 [W1 D1 B1 N1] [W2 D2 B2 N2]. split.
  - auto.
  - intros d Hd. by rewrite D2, D1.
  - intros d x Hw Hd Hx. rewrite (B2 d), (B1 d); try done; [by apply W1|by rewrite D1].
  - auto.
Qed.

Lemma touches_weaken (D D' : DirName -> Prop) f f' : (forall d, D d -> D' d) -> touches D f f' -> touches D' f f'.
Proof. intros HD [W Dd B N]. split; [done|..]; intros; [apply Dd|eapply B|apply N]; eauto. Qed.

Lemma touches_view D f f' d : touches D f f' -> wf f -> ~ D d -> view_of f' d = view_of f d.
Proof.
  intros [W Dd B N] Hw Hd. unfold view_of. rewrite Dd by done.
  destruct (dirs f !! d) as [x|] eqn:Hx; [|done]. cbn. by erewrite B.
Qed.

(** A directory is replaced by one with the same inodes at most; no byte changes. *)
Definition sub_entries (x' x : SnapDir) : Prop := forall n i, x'.(entries) !! n = Some i -> x.(entries) !! n = Some i.

Lemma wf_shrink f d x x' : f.(dirs) !! d = Some x -> sub_entries x' x -> wf f -> wf (set_dir d x' f).
Proof.
  intros Hx Hs [Wa Wf]. split.
  - intros d1 d2 y1 y2 n1 n2 i H1 H2 E1 E2. cbn in H1, H2.
    assert (forall e y n, <[d:=x']> f.(dirs) !! e = Some y -> y.(entries) !! n = Some i ->
      exists z, f.(dirs) !! e = Some z /\ z.(entries) !! n = Some i) as Hback.
    { intros e y n [[<- <-]|[_ ?]]%lookup_insert_Some He; eauto. }
    destruct (Hback _ _ _ H1 E1) as (z1 & ? & ?), (Hback _ _ _ H2 E2) as (z2 & ? & ?). by eapply Wa.
  - intros e y n i H1 He. cbn in H1 |- *. apply lookup_insert_Some in H1 as [[<- <-]|[_ H1]]; eauto.
Qed.

Lemma touches_shrink (D : DirName -> Prop) d x x' f : D d -> f.(dirs) !! d = Some x -> sub_entries x' x -> touches D f (set_dir d x' f).
Proof.
  intros Hd Hx Hs. split; cbn; intros.
  - by eapply wf_shrink.
  - rewrite lookup_insert_ne; [done|congruence].
  - done.
  - destruct (decide (d = d0)) as [->|]; [by eexists|]. by rewrite lookup_insert_ne in * by done.
Qed.

Lemma fs_outcome_touches D : obeys (touches D) (fun _ => True) outcome.
Proof.
  intros f. unfold outcome. split; [|by destruct (script f)]. destruct (script f); [by split|].
  split; cbn; try done. by intros [? ?].
Qed.
#[export] Hint Resolve fs_outcome_touches : obeys.

(** Ends the two parts of [obeys] for an operation that is [outcome] and then a
    change that depends on it. *)
Lemma obeys_after_outcome {A} D (k : FsOutcome -> SnapFs -> FsM A) :
  (forall o f, touches D f (state_of (k o f f))) -> obeys (touches D) (fun _ => True) (o ← outcome; f ← get; k o f).
Proof.
  intros Hk. apply obeys_bind; [exact _|apply fs_outcome_touches|]. intros o. apply obeys_get_bind. intros f.
  split; [apply Hk|by apply Forall_true].
Qed.

Ltac settle := unfold mbind, M_bind, state_of, modify, mret, M_ret; cbn [fst snd].

Lemma create_directory_touches : obeys (touches (eq Temp)) (fun _ => True) (create_directory Temp).
Proof.
  apply obeys_after_outcome. intros o f. unfold is_dir. case_bool_decide as Hd.
  { rewrite andb_false_r. by destruct o. }
  apply eq_None_not_Some in Hd. rewrite andb_true_r.
  assert (touches (eq Temp) f (set_dir Temp empty_dir f)) as Ht.
  { split; cbn; try done.
    - intros [Wa Wf]. split.
      + intros d1 d2 x y n1 n2 i H1 H2 E1 E2. cbn in H1, H2.
        apply lookup_insert_Some in H1 as [[<- <-]|[_ H1]]; [done|]. apply lookup_insert_Some in H2 as [[<- <-]|[_ H2]]; [done|eauto].
      + intros d x n i H1 E. cbn in H1 |- *. apply lookup_insert_Some in H1 as [[<- <-]|[_ H1]]; [done|eauto].
    - intros d Hn. by rewrite lookup_insert_ne.
    - intros d Hn. by rewrite lookup_insert_ne. }
  by destruct o.
Qed.

Lemma delete_tree_touches d : obeys (touches (eq d)) (fun _ => True) (delete_tree d).
Proof.
  apply obeys_after_outcome. intros o f.
  destruct o as [| |mk kp]; [|by destruct (dirs f !! d)|].
  - settle.
    split; cbn; try done.
    + intros [Wa Wf]. split.
      * intros d1 d2 x y n1 n2 i H1 H2. cbn in H1, H2. apply lookup_delete_Some in H1 as [_ H1], H2 as [_ H2]. eauto.
      * intros e x n i H1. cbn in H1 |- *. apply lookup_delete_Some in H1 as [_ H1]. eauto.
    + intros e He. by rewrite lookup_delete_ne.
    + intros e _ [x [_ Hx]%lookup_delete_Some]. by eexists.
  - destruct (dirs f !! d) as [x|] eqn:Hx; [|done].
    eapply (touches_shrink (eq d) d x); [done..|]. intros n i. cbn. by intros [? _]%map_lookup_filter_Some.
Qed.

Lemma delete_entry_touches d n : obeys (touches (eq d)) (fun _ => True) (delete_entry d n).
Proof.
  apply obeys_after_outcome. intros o f. destruct (dirs f !! d) as [x|] eqn:Hx; [|by destruct o].
  destruct o; try done. eapply (touches_shrink (eq d) d x); [done..|]. intros m i. cbn. by intros [_ ?]%lookup_delete_Some.
Qed.

Lemma write_file_touches n c : obeys (touches (eq Temp)) (fun _ => True) (write_file Temp n c).
Proof.
  apply obeys_after_outcome. intros o f. destruct (dirs f !! Temp) as [x|] eqn:Hx; [|by destruct o].
  destruct o; try done. cbn [done_ok negb]. destruct (entries x !! n) as [i|] eqn:Hi; settle.
  - split; cbn; try done; [by intros [Wa Wf]; split|].
    intros d y [Wa Wf] Hd Hy. unfold view. f_equal. apply map_fmap_ext. intros m j Hj.
    unfold bytes_of. cbn. rewrite lookup_insert_ne; [done|]. intros <-. by destruct Hd; eapply Wa.
  - split; cbn.
    + intros [Wa Wf]. split; cbn.
      * intros d1 d2 y1 y2 n1 n2 j H1 H2 E1 E2.
        apply lookup_insert_Some in H1 as [[<- <-]|[Hn1 H1]], H2 as [[<- <-]|[Hn2 H2]]; try done; cbn in *.
        -- apply lookup_insert_Some in E1 as [[_ <-]|[_ E1]]; [|by eapply Wa]. pose proof (Wf _ _ _ _ H2 E2). lia.
        -- apply lookup_insert_Some in E2 as [[_ <-]|[_ E2]]; [|by eapply Wa]. pose proof (Wf _ _ _ _ H1 E1). lia.
        -- by eapply Wa.
      * intros d y m j H1 E. apply lookup_insert_Some in H1 as [[<- <-]|[Hne H1]]; cbn in *.
        -- apply lookup_insert_Some in E as [[_ <-]|[_ E]]; [lia|]. pose proof (Wf _ _ _ _ Hx E). lia.
        -- pose proof (Wf _ _ _ _ H1 E). lia.
    + intros d Hd. by rewrite lookup_insert_ne.
    + intros d y [Wa Wf] Hd Hy. unfold view. f_equal. apply map_fmap_ext. intros m j Hj.
      unfold bytes_of. cbn. rewrite lookup_insert_ne; [done|]. pose proof (Wf _ _ _ _ Hy Hj). lia.
    + intros d Hd. by rewrite lookup_insert_ne.
Qed.

Lemma save_to_file_touches d t : obeys (touches (eq d)) (fun _ => True) (save_to_file d t).
Proof.
  apply obeys_after_outcome. intros o f. destruct (dirs f !! d) as [x|] eqn:Hx; [|by destruct o].
  destruct o; try done. eapply (touches_shrink (eq d) d x); [done..|]. by intros n i.
Qed.

Lemma load_from_file_touches D d : obeys (touches D) (fun _ => True) (load_from_file d).
Proof. unfold load_from_file. obey. Qed.
Lemma directory_reader_touches D d : obeys (touches D) (fun _ => True) (directory_reader d).
Proof. unfold directory_reader. obey. Qed.
#[export] Hint Resolve create_directory_touches delete_tree_touches delete_entry_touches write_file_touches
  save_to_file_touches load_from_file_touches directory_reader_touches : obeys.

Lemma delete_entries_touches d ns : obeys (touches (eq d)) (fun _ => True) (delete_entries d ns).
Proof. unfold delete_entries. obey. Qed.
#[export] Hint Resolve delete_entries_touches : obeys.

Lemma writer_init_touches : obeys (touches (eq Temp)) (fun _ => True) (writer_init (LocalSnapshotWriter_new Temp)).
Proof. unfold writer_init. cbn [w_path LocalSnapshotWriter_new]. obey. Qed.
Lemma writer_sync_touches w : obeys (touches (eq w.(w_path))) (fun _ => True) (writer_sync w).
Proof. unfold writer_sync. obey. Qed.
#[export] Hint Resolve writer_init_touches writer_sync_touches : obeys.

(** ** The storage *)
Record store_touches (D : DirName -> Prop) (s s' : Store) : Prop := mkStoreTouches {
  st_storage : s'.(storage) = s.(storage);
  st_touches : touches D s.(fs) s'.(fs)
}.
#[export] Instance store_touches_PreOrder D : PreOrder (store_touches D).
Proof.
  split; [by split|]. intros s1 s2 s3 [E1 T1] [E2 T2]. split; [congruence|by etransitivity].
Qed.

Lemma on_fs_touches {A} D (m : FsM A) : obeys (touches D) (fun _ => True) m -> obeys (store_touches D) (fun _ => True) (on_fs m).
Proof.
  intros Hm s. destruct (Hm s.(fs)) as [Ht He]. unfold on_fs, state_of, events_of in *.
  destruct (m s.(fs)) as [[a f'] ev]. by split.
Qed.
#[export] Hint Resolve on_fs_touches : obeys.

Lemma wpt_on_fs {A} (m : FsM A) (Q : A -> Store -> list Event -> Prop) s tr :
  wpt m (fun a f tr => Q a (s <| fs := f |>) tr) s.(fs) tr -> wpt (on_fs m) Q s tr.
Proof. unfold wpt, on_fs, value_of, state_of, events_of. by destruct (m s.(fs)) as [[a f'] ev]. Qed.

Lemma destroy_snapshot_touches d : obeys (store_touches (eq d)) (fun _ => True) (destroy_snapshot d).
Proof. unfold destroy_snapshot. obey. Qed.
#[export] Hint Resolve destroy_snapshot_touches : obeys.

Lemma create_touches b : obeys (store_touches (eq Temp)) (fun _ => True) (create b).
Proof. unfold create. obey. Qed.
Lemma destroy_old_touches i : obeys (store_touches (eq (Snap i))) (fun _ => True) (destroy_old i).
Proof. unfold destroy_old. obey. Qed.
Lemma close_failed_touches ret keep d : obeys (store_touches (eq d)) (fun _ => True) (close_failed ret keep d).
Proof. unfold close_failed. obey. Qed.
Lemma open_read_touches D i : obeys (store_touches D) (fun _ => True) (open_read i).
Proof.
  unfold open_read. obey.
  all: apply on_fs_touches; unfold reader_init; obey.
Qed.
Lemma delete_snapshots_touches l : obeys (store_touches (fun d => exists i, i ∈ l /\ d = Snap i)) (fun _ => True) (delete_snapshots l).
Proof.
  induction l as [|i l IH]; cbn [delete_snapshots]; [obey|].
  assert (forall D D' A (m : StoreM A), (forall d, D d -> D' d) -> obeys (store_touches D) (fun _ => True) m ->
    obeys (store_touches D') (fun _ => True) m) as Hmono.
  { intros D D' A m HD. apply obeys_mono; [|done]. intros s s' [E T]. split; [done|by eapply touches_weaken]. }
  apply obeys_bind; [exact _| |].
  - apply (Hmono (eq (Snap i))); [|obey]. intros d <-. exists i. split; [apply list_elem_of_here|done].
  - intros b. destruct b; cbn [negb]; [|obey]. eapply Hmono; [|exact IH]. intros d (j & Hj & ->). exists j.
    split; [by apply list_elem_of_further|done].
Qed.

(** The writers there are write to [temp]. *)
Lemma writer_init_path w s tr : wpt (writer_init w) (fun r _ _ => r.2.(w_path) = w.(w_path)) s tr.
Proof.
  unfold writer_init. wpt_step. apply wpt_any. intros [] s1 tr1; cbn [negb]; [|by wpt_go]. do 2 wpt_step.
  apply wpt_bind, wpt_any. intros [t|] s2 tr2; [|by wpt_go].
  apply wpt_bind, wpt_any. intros [ns|] s3 tr3; [|by wpt_go].
  apply wpt_bind, wpt_any. intros _ s4 tr4. by wpt_go.
Qed.

Lemma create_path b s tr : wpt (create b) (fun wr _ _ => forall x, wr = Some x -> x.(w_path) = Temp) s tr.
Proof.
  unfold create. do 2 wpt_step. apply wpt_bind, wpt_any. intros [] s1 tr1; cbn [negb]; [|by wpt_go].
  apply wpt_bind, wpt_on_fs. eapply wpt_mono; [apply writer_init_path|]. intros [rc wr] f tr2 Hp. cbn [snd] in Hp.
  apply wpt_ret. by destruct (ok rc); cbn [negb]; intros x; [intros [= <-]|].
Qed.

(** A table that has been saved is in its file. *)
Lemma writer_sync_spec w f tr :
  wpt (writer_sync w) (fun r f' _ => r.2.(w_path) = w.(w_path) /\ r.2.(w_table) = w.(w_table) /\ touches (eq w.(w_path)) f f' /\
    (ok r.1 = true -> exists x, f'.(dirs) !! w.(w_path) = Some x /\ x.(meta_file) = Holds (save_table w.(w_table)))) f tr.
Proof.
  pose proof (proj1 (save_to_file_touches w.(w_path) w.(w_table) f)) as Ht.
  unfold writer_sync. apply wpt_bind. revert Ht. unfold wpt at 1, save_to_file, value_of, state_of, events_of.
  unfold mbind, M_bind, get, outcome, mret, M_ret, modify.
  destruct (script f) as [|o sc]; cbn.
  - destruct (dirs f !! w_path w) as [x|] eqn:Hx; cbn; intros Ht; (split_and!; [by case_match|by case_match|done|]); [|done].
    intros _. eexists. split; [apply lookup_insert_eq|done].
  - destruct (dirs f !! w_path w) as [x|] eqn:Hx; [destruct o|]; cbn; intros Ht;
      (split_and!; [by case_match|by case_match|done|]); try done.
    intros _. eexists. split; [apply lookup_insert_eq|done].
Qed.

(** The renaming of [temp]. *)
Record renamed (f f' : SnapFs) (to : DirName) (x : SnapDir) : Prop := mkRenamed {
  rn_from : f.(dirs) !! Temp = Some x;
  rn_dirs : f'.(dirs) = <[to := x]> (delete Temp f.(dirs));
  rn_inodes : f'.(inodes) = f.(inodes) /\ f'.(next_inode) = f.(next_inode)
}.

Lemma rename_spec to f tr :
  wpt (rename Temp to) (fun b f' _ => if b then exists x, renamed f f' to x else touches (fun _ => False) f f') f tr.
Proof.
  assert (touches (fun _ => False) f (state_of (outcome f))) as Ht by apply (fs_outcome_touches _ f).
  assert (forall sc (o : FsOutcome), touches (fun _ => False) f (f <| script := sc |>)) as Hs.
  { intros sc o. split; cbn; try done. by intros [Wa Wf]; split. }
  unfold rename, wpt, value_of, state_of, events_of, mbind, M_bind, get, outcome, mret, M_ret, modify.
  destruct (script f) as [|o sc]; cbn.
  - destruct (dirs f !! Temp) as [x|] eqn:Hx; cbn; [|done].
    destruct (match dirs f !! to with Some y => is_empty_dir y | None => true end); cbn; [|done]. exists x. by split.
  - destruct (dirs f !! Temp) as [x|] eqn:Hx; cbn; [|by apply Hs].
    destruct (done_ok o && match dirs f !! to with Some y => is_empty_dir y | None => true end); cbn; [|by apply Hs]. exists x. by split.
Qed.

(** [close] up to the renaming. *)
Definition closing (new : Z) (d : DirName) : Prop := d = Temp \/ d = Snap new.

Lemma close_rename_spec wr s tr : wr.(w_path) = Temp ->
  wpt (close_rename wr) (fun r s' _ => s'.(storage) = s.(storage) /\
    let '(ret, (old, new)) := r in
    if ok ret then
      ok wr.(w_error) = true /\ old = s.(storage).(_last_snapshot_index) /\ new = writer_snapshot_index wr /\
      exists f1 x, touches (closing new) s.(fs) f1 /\ renamed f1 s'.(fs) (Snap new) x /\ x.(meta_file) = Holds (save_table wr.(w_table))
    else (ok wr.(w_error) = true /\ touches (closing (writer_snapshot_index wr)) s.(fs) s'.(fs)) \/ s' = s) s tr.
Proof.
  intros Hp. unfold close_rename. destruct (ok wr.(w_error)) eqn:He; cbn [negb]; [|wpt_go; rewrite He; auto].
  apply wpt_bind, wpt_on_fs. eapply wpt_mono; [apply writer_sync_spec|]. intros [rc wr'] f1 tr1 (Hp' & Ht' & Ht1 & Hsaved).
  cbn [fst snd] in *. rewrite Hp in *.
  assert (forall d, Temp = d -> closing (writer_snapshot_index wr) d) as Htemp by (intros d <-; by left).
  apply (touches_weaken _ _ _ _ Htemp) in Ht1.
  destruct (ok rc) eqn:Hrc; cbn [negb]; [|wpt_go; rewrite Hrc; auto].
  assert (writer_snapshot_index wr' = writer_snapshot_index wr) as Hi by (unfold writer_snapshot_index; by rewrite Ht').
  destruct (Hsaved eq_refl) as (x & Hx & Hm). do 2 wpt_step. rewrite Hi.
  destruct (_ =? _); [wpt_go; change (ok EEXIST) with false; auto|]. apply wpt_bind, wpt_on_fs.
  eapply wpt_obeys; [apply delete_tree_touches|]. intros b f2 ev Ht2 _.
  pose proof (t_dirs _ _ _ Ht2 Temp ltac:(done)) as Hx2. cbn in Hx2. rewrite Hx in Hx2.
  assert (forall d, Snap (writer_snapshot_index wr) = d -> closing (writer_snapshot_index wr) d) as Hsnap by (intros d <-; by right).
  apply (touches_weaken _ _ _ _ Hsnap) in Ht2.
  assert (touches (closing (writer_snapshot_index wr)) s.(fs) f2) as Ht by by etransitivity.
  destruct b; cbn [negb]; [|wpt_go; change (ok EIO) with false; auto].
  apply wpt_bind, wpt_on_fs. eapply wpt_mono; [apply rename_spec|]. intros [] f3 tr3 Hr; cbn [negb]; wpt_go; (split; [done|]).
  - destruct Hr as (y & Hr). split_and!; try done. exists f2, y. split_and!; [done|done|].
    pose proof (rn_from _ _ _ _ Hr) as Hy. cbn in Hy. rewrite Hx2 in Hy. by injection Hy as <-.
  - left. split; [done|]. change (touches (closing (writer_snapshot_index wr)) s.(fs) f3). etransitivity; [exact Ht|]. eapply touches_weaken; [|exact Hr]. by intros d [].
Qed.

(** A reader that opens has the table that is in the file. *)
Lemma open_read_spec i s tr :
  wpt (open_read i) (fun r _ _ => forall rd, r = Some rd -> rd.(r_path) = Snap i /\
    exists x pb, s.(fs).(dirs) !! Snap i = Some x /\ x.(meta_file) = Holds pb /\ rd.(r_table) = load_table pb) s tr.
Proof.
  unfold open_read. apply wpt_bind, wpt_on_fs. unfold reader_init. do 2 wpt_step.
  destruct (is_dir _ _); cbn [negb]; [|by do 2 wpt_step]. apply wpt_bind.
  unfold load_from_file. apply wpt_bind. eapply wpt_obeys; [apply (fs_outcome_touches (fun _ => False))|]. intros o f ev Ht _.
  pose proof (t_dirs _ _ _ Ht (Snap i) ltac:(tauto)) as Hd. wpt_step. wpt_step. rewrite Hd.
  wpt_step. destruct (dirs (fs s) !! Snap i) as [x|]; [|by do 2 wpt_step].
  destruct (meta_file x) as [| |pb] eqn:Hm; [by do 2 wpt_step..|]. destruct (done_ok o); do 2 wpt_step; cbn; [|done].
  intros rd [= <-]. split; [done|]. by exists x, pb.
Qed.
