(* ===== verification/SnapshotStorageSafety.v ===== *)
(** * SnapshotStorageSafety: a snapshot in use is never touched, and one always survives

    The invariant of the lives of a storage ([Inv]): references are counted, what is
    referenced is intact, what is being deleted is referenced by nobody, and the
    newest snapshot of the disk is whole ([crest]); every section preserves it. *)

From S2P Require Import Prelude Types FsmCaller SnapshotFiles SnapshotStorage SnapshotStorageProofs.

(** ** The invariant *)

(** The table's file is there, and its index is that of the directory. *)
Definition holds_index (v : View) (k : Z) : Prop :=
  exists pb m, v.1 = Holds pb /\ pb.(pb_meta) = Some m /\ m.(last_included_index) = k.

(** The references that belong to nobody but the storage. *)
Definition own (w : World) (k : Z) : nat :=
  let one i := if bool_decide (i <> 0 /\ i = k) then 1%nat else 0%nat in
  match w.(phase) with
  | Free | Renamed _ _ => one (last_index w)
  | Reffed old new => one old + one new
  | Switched old => one (last_index w) + one old
  | Down => 0
  end.
Definition count (k : Z) (l : list Z) : nat := count_occ Z.eq_dec l k.
Arguments count : simpl never.
Definition total (w : World) (k : Z) : nat := own w k + count k w.(opening) + count k w.(readers).*1.

(** The newest snapshot on disk. *)
Definition top (w : World) : Z := match w.(phase) with Renamed _ new | Reffed _ new => new | _ => last_index w end.

(** The newest snapshot of a directory is [t], and it is whole; [0]: there is none. *)
Record crest (f : SnapFs) (t : Z) : Prop := mkCrest {
  c_positive k : is_Some (f.(dirs) !! Snap k) -> 0 < k <= t;
  c_named n m : f.(dirs) !! Other n m = None;
  c_whole : 0 <= t /\ (t <> 0 -> exists v, view_of f (Snap t) = Some v /\ holds_index v t)
}.

(** The snapshot at [k] is the one that was put there. *)
Definition intact (w : World) (k : Z) : Prop :=
  exists v, w.(kept) !! k = Some v /\ view_of w.(st).(fs) (Snap k) = Some v /\ holds_index v k.

Definition reads_kept (w : World) (x : Z * LocalSnapshotReader) : Prop :=
  x.2.(r_path) = Snap x.1 /\ exists v pb, w.(kept) !! x.1 = Some v /\ v.1 = Holds pb /\ x.2.(r_table) = load_table pb.

Definition phase_ok (w : World) : Prop :=
  match w.(phase) with
  | Free => True
  | Renamed old new | Reffed old new => old = last_index w /\ last_index w < new
  | Switched old => old < last_index w
  | Down => last_index w = 0 /\ w.(opening) = [] /\ w.(readers) = [] /\ w.(doomed) = [] /\ w.(writer) = None
  end.

Record Inv (w : World) : Prop := mkInv {
  i_wf : wf w.(st).(fs);
  i_crest : exists t, crest w.(st).(fs) t /\ (w.(phase) <> Down -> t = top w);
  i_refs k : w.(st).(storage).(_ref_map) !! k = (if decide (total w k = 0%nat) then None else Some (Z.of_nat (total w k)));
  i_intact k : (0 < total w k)%nat \/ (w.(phase) <> Down /\ k = top w /\ k <> 0) -> intact w k;
  i_last k : (0 < total w k)%nat -> 0 < k /\ (k <= last_index w \/ exists old, w.(phase) = Reffed old k);
  i_doomed : Forall (fun k => total w k = 0%nat /\ k < last_index w) w.(doomed);
  i_readers : Forall (reads_kept w) w.(readers);
  i_phase : 0 <= last_index w /\ phase_ok w;
  i_writer : forall wr, w.(writer) = Some wr -> wr.(w_path) = Temp
}.

(** ** Sections that only touch directories *)
Lemma crest_touches (D : DirName -> Prop) f f' t :
  wf f -> touches D f f' -> ~ D (Snap t) -> (forall n m, D (Other n m) -> False) -> crest f t -> crest f' t.
Proof.
  intros Hw Ht Hd Ho [C1 C2 [C3 C4]]. split.
  - intros k Hk. by apply C1, (t_new _ _ _ Ht).
  - intros n m. rewrite (t_dirs _ _ _ Ht); [apply C2|]. intros Hn. by eapply Ho.
  - split; [done|]. intros Hne. destruct (C4 Hne) as (v & Hv & Hx). exists v. by rewrite (touches_view D f).
Qed.

(** The directories in use are those of the references and the newest. *)
Definition in_use (w : World) (d : DirName) : Prop :=
  exists k, d = Snap k /\ ((0 < total w k)%nat \/ (w.(phase) <> Down /\ k = top w /\ k <> 0)).

Lemma Inv_touches D w f' wr :
  Inv w -> touches D w.(st).(fs) f' -> (forall d, D d -> ~ in_use w d) -> (forall n m, ~ D (Other n m)) -> w.(phase) <> Down ->
  (forall x, wr = Some x -> x.(w_path) = Temp) ->
  Inv (w <| st := w.(st) <| fs := f' |> |> <| writer := wr |>).
Proof.
  intros [Hw (t & Hc & Htop) Hr Hi Hl Hdo Hre Hp Hwr] Ht HD Ho Hdown Hwr'. specialize (Htop Hdown). subst t.
  assert (forall k, (0 < total w k)%nat \/ (w.(phase) <> Down /\ k = top w /\ k <> 0) -> ~ D (Snap k)) as Huse.
  { intros k Hk Hd. apply (HD _ Hd). by exists k. }
  split; try done.
  - by apply (t_wf _ _ _ Ht).
  - exists (top w). split; [|done]. cbn. destruct (decide (top w = 0)) as [Hz|Hz].
    + rewrite Hz in *. destruct Hc as [C1 C2 _]. split; [..|done].
      * intros k Hk. by apply C1, (t_new _ _ _ Ht).
      * intros n m. rewrite (t_dirs _ _ _ Ht) by apply Ho. apply C2.
    + eapply crest_touches; [exact Hw|exact Ht| |intros n m; exact (Ho n m)|exact Hc]. apply Huse. by right.
  - intros k Hk. pose proof (Huse k Hk) as Hd. destruct (Hi k Hk) as (v & Hv & Hview & Hx). exists v. split; [done|].
    split; [|done]. cbn. by rewrite (touches_view D w.(st).(fs)).
  - destruct Hp as [? Hp]. split; [done|]. unfold phase_ok in *. cbn in *. by destruct (phase w).
Qed.

Lemma run_spec {A} (m : StoreM A) (P : A -> World -> Prop) w :
  wpt m (fun a s _ => P a (w <| st := s |>)) w.(st) [] -> P (run m w).1 (run m w).2.
Proof. unfold wpt, run, value_of, state_of, events_of. by destruct (m w.(st)) as [[a s] ev]. Qed.

Lemma Inv_store D w s wr :
  Inv w -> store_touches D w.(st) s -> (forall d, D d -> ~ in_use w d) -> (forall n m, ~ D (Other n m)) -> w.(phase) <> Down ->
  (forall x, wr = Some x -> x.(w_path) = Temp) -> Inv (w <| st := s |> <| writer := wr |>).
Proof.
  intros Hi [Hs Ht] HD Ho Hp Hwr. destruct s as [f' s]. cbn in Hs, Ht. subst s. exact (Inv_touches D w f' wr Hi Ht HD Ho Hp Hwr).
Qed.

Lemma Inv_run {A} D (m : StoreM A) w (wr : A -> option LocalSnapshotWriter) :
  Inv w -> obeys (store_touches D) (fun _ => True) m -> (forall d, D d -> ~ in_use w d) -> (forall n m, ~ D (Other n m)) ->
  w.(phase) <> Down -> (forall x, wr (run m w).1 = Some x -> x.(w_path) = Temp) ->
  Inv ((run m w).2 <| writer := wr (run m w).1 |>).
Proof.
  intros Hi Hm HD Ho Hp Hwr. destruct (Hm w.(st)) as [Ht _]. unfold run, state_of in *.
  destruct (m w.(st)) as [[a s] ev]. by apply (Inv_store D).
Qed.

Lemma temp_unused w d : Temp = d -> ~ in_use w d.
Proof. intros <- (k & ? & _). done. Qed.
#[local] Hint Resolve temp_unused : core.

Lemma closing_unused w new d : Inv w -> w.(phase) = Free -> last_index w < new -> closing new d -> ~ in_use w d.
Proof.
  intros Hi Hp Hlt [->| ->] (k & Hk & Huse); [done|]. injection Hk as <-.
  destruct Huse as [Hu|(_ & Hu & _)]; [|unfold top in Hu; rewrite Hp in Hu; lia].
  destruct (i_last _ Hi _ Hu) as [_ [?|[old Ho]]]; [lia|congruence].
Qed.

Lemma create_section w : Inv w -> w.(phase) = Free -> Inv ((run (create true) w).2 <| writer := (run (create true) w).1 |>).
Proof.
  intros Hi Hp. apply (Inv_run (eq Temp) (create true) w (fun x => x)); auto.
  - apply create_touches.
  - by rewrite Hp.
  - apply (run_spec (create true) (fun a _ => forall x, a = Some x -> x.(w_path) = Temp)). apply create_path.
Qed.

(** A section that leaves the writer as it is. *)
Lemma plain_section {A} D (m : StoreM A) w : Inv w -> obeys (store_touches D) (fun _ => True) m ->
  (forall d, D d -> ~ in_use w d) -> (forall n m, ~ D (Other n m)) -> w.(phase) <> Down -> Inv (run m w).2.
Proof.
  intros Hi Hm HD Ho Hp. pose proof (Inv_run D m w (fun _ => w.(writer)) Hi Hm HD Ho Hp (i_writer _ Hi)) as Hr.
  unfold run in *. destruct (m w.(st)) as [[a s] ev]. exact Hr.
Qed.

Lemma edit_writer w wr : Inv w -> w.(phase) <> Down -> wr.(w_path) = Temp -> Inv (w <| writer := Some wr |>).
Proof.
  intros Hi Hp Hw. apply (Inv_store (fun _ => False) w w.(st) (Some wr) Hi); try done.
  - by intros n m [].
  - by intros x [= <-].
Qed.

(** ** References *)

(** An inspection of the counters. *)
Lemma count_cons k i l : count k (i :: l) = ((if decide (i = k) then 1 else 0) + count k l)%nat.
Proof. unfold count. cbn. destruct (Z.eq_dec i k), (decide (i = k)); try done. Qed.

Lemma count_delete k n l i : l !! n = Some i -> count k l = ((if decide (i = k) then 1 else 0) + count k (delete n l))%nat.
Proof.
  revert n. induction l as [|j l IH]; intros [|n] Hl; cbn in Hl; [done..| |].
  - injection Hl as ->. by rewrite count_cons.
  - cbn [delete list_delete]. rewrite !count_cons, (IH _ Hl). by destruct (decide (j = k)), (decide (i = k)).
Qed.

Lemma refs_spec w k : Inv w -> refs_of k w.(st).(storage) = Z.of_nat (total w k).
Proof. intros Hi. unfold refs_of. rewrite (i_refs _ Hi). by destruct (decide (total w k = 0%nat)) as [->|]. Qed.

(** [unref] by somebody who holds a reference: [w'] is [w] without the holder. *)
Record releases (w w' : World) (i : Z) : Prop := mkReleases {
  rl_st : w'.(st) = w.(st);
  rl_kept : w'.(kept) = w.(kept);
  rl_doomed : w'.(doomed) = w.(doomed);
  rl_writer : w'.(writer) = w.(writer);
  rl_total k : total w k = ((if decide (i = k) then 1 else 0) + total w' k)%nat;
  rl_top : top w' = top w;
  rl_up : w.(phase) <> Down /\ w'.(phase) <> Down;
  rl_readers : forall x, x ∈ w'.(readers) -> x ∈ w.(readers);
  rl_last k : (0 < total w' k)%nat -> k <= last_index w' \/ exists old, w'.(phase) = Reffed old k;
  rl_phase : phase_ok w';
  (** whose last reference is given up is not the newest *)
  rl_old : total w' i = 0%nat -> i < last_index w
}.

Lemma drop_ref_keeps w w' i : Inv w -> releases w w' i -> Inv (drop_ref i w').
Proof.
  intros Hi [Hst Hk Hd Hw Ht Htop [Hup Hup'] Hre Hl Hp Hold]. pose proof Hi as [I1 I2 I3 I4 I5 I6 I7 I8 I9].
  assert (last_index w' = last_index w) as Hli by (unfold last_index; by rewrite Hst).
  assert (forall m ds, m = (fun k => if decide (total w' k = 0%nat) then None else Some (Z.of_nat (total w' k))) ->
    (forall k, k ∈ ds -> k ∈ w'.(doomed) \/ (k = i /\ total w' i = 0%nat)) -> forall rm, (forall k, rm !! k = m k) ->
    Inv (w' <| st := w'.(st) <| storage := w'.(st).(storage) <| _ref_map := rm |> |> |> <| doomed := ds |>)) as Hend.
  { intros m ds -> Hds rm Hrm. split.
    - cbn. by rewrite Hst.
    - destruct I2 as (t & Hc & Ht2). exists t. split; [cbn; by rewrite Hst|]. intros _. change (t = top w'). by rewrite Htop, Ht2.
    - intros k. cbn. apply Hrm.
    - intros k Hk'. destruct (I4 k) as (v & Hv & Hview & Hx).
      { destruct Hk' as [Hpos|(_ & Htk & Hz)]; [left|right].
        - change (total _ k) with (total w' k) in Hpos. rewrite Ht. lia.
        - split_and!; [done| |done]. rewrite <- Htop. exact Htk. }
      exists v. cbn. by rewrite Hk, Hst.
    - intros k Hpos. change (total _ k) with (total w' k) in Hpos. destruct (I5 k ltac:(rewrite Ht; lia)) as [H0 _].
      split; [done|]. exact (Hl k Hpos).
    - apply Forall_forall. intros k Hk'. change (total w' k = 0%nat /\ k < last_index w'). rewrite Hli.
      destruct (Hds k Hk') as [Hin|[-> H0]]; [|by split; [|apply Hold]].
      rewrite Hd in Hin. destruct (proj1 (Forall_forall _ _) I6 k Hin) as [H0 Hlt]. rewrite Ht in H0. split; [lia|done].
    - apply Forall_forall. intros x Hx. pose proof (proj1 (Forall_forall _ _) I7 x (Hre x Hx)) as Hr.
      unfold reads_kept in *. cbn. by rewrite Hk.
    - split; [change (0 <= last_index w'); rewrite Hli; apply I8|]. unfold phase_ok in *. cbn in *. by destruct (phase w').
    - cbn. by rewrite Hw. }
  unfold drop_ref, run, unref_locked, mbind, M_bind, get, mret, M_ret, set_storage, modify, emit.
  rewrite Hst, I3, Ht. rewrite (decide_True (P := i = i)) by done.
  rewrite decide_False by lia. destruct (Z.eqb_spec (Z.of_nat (1 + total w' i) - 1) 0) as [Hz|Hz]; cbn.
  - assert (total w' i = 0%nat) as H0 by lia. rewrite <- Hst. eapply (Hend _ (i :: w'.(doomed)) eq_refl).
    + intros k [->|]%elem_of_cons; [by right|by left].
    + intros k. destruct (decide (i = k)) as [<-|Hne]; [by rewrite lookup_delete_eq, H0|].
      rewrite lookup_delete_ne, Hst, I3, Ht, (decide_False (P := i = k)) by done. done.
  - rewrite <- Hst. eapply (Hend _ w'.(doomed) eq_refl); [by left|].
    intros k. destruct (decide (i = k)) as [<-|Hne].
    + rewrite lookup_insert_eq, decide_False by lia. f_equal. lia.
    + rewrite lookup_insert_ne, Hst, I3, Ht, (decide_False (P := i = k)) by done. done.
Qed.

(** [ref] for a new holder: [w'] is [w] with the holder. *)
Record acquires (w w' : World) (i : Z) : Prop := mkAcquires {
  aq_st : w'.(st) = w.(st);
  aq_kept : w'.(kept) = w.(kept);
  aq_doomed : w'.(doomed) = w.(doomed);
  aq_readers : w'.(readers) = w.(readers);
  aq_writer : w'.(writer) = w.(writer);
  aq_total k : total w' k = ((if decide (i = k) then 1 else 0) + total w k)%nat;
  aq_top : top w' = top w;
  aq_up : w.(phase) <> Down /\ w'.(phase) <> Down;
  aq_there : 0 < i /\ last_index w <= i /\ ((0 < total w i)%nat \/ i = top w);
  aq_last k : (0 < total w' k)%nat -> k <= last_index w' \/ exists old, w'.(phase) = Reffed old k;
  aq_phase : phase_ok w'
}.

Lemma ref_keeps w w' i : Inv w -> acquires w w' i -> Inv (run (ref i) w').2.
Proof.
  intros Hi [Hst Hk Hd Hre Hw Ht Htop [Hup Hup'] (Hpos & Hle & Hthere) Hl Hp]. pose proof Hi as [I1 I2 I3 I4 I5 I6 I7 I8 I9].
  pose proof (refs_spec w i Hi) as Hrefs.
  assert (last_index w' = last_index w) as Hli by (unfold last_index; by rewrite Hst).
  assert (forall k, (0 < total w' k)%nat -> (0 < total w k)%nat \/ k = i) as Hback.
  { intros k. rewrite Ht. destruct (decide (i = k)); [by right|left; lia]. }
  unfold ref, run, set_storage, modify. cbn [fst snd]. split.
  - cbn. by rewrite Hst.
  - destruct I2 as (t & Hc & Ht2). exists t. split; [cbn; by rewrite Hst|]. intros _. change (t = top w'). by rewrite Htop, Ht2.
  - intros k. change (total _ k) with (total w' k). cbn. rewrite Hst, Hrefs, Ht. destruct (decide (i = k)) as [<-|Hne].
    + rewrite lookup_insert_eq, decide_False by lia. f_equal. lia.
    + rewrite lookup_insert_ne by done. by rewrite I3.
  - intros k Hk'. destruct (I4 k) as (v & Hv & Hview & Hx).
    + destruct Hk' as [Hc|(_ & Htk & Hz)]; [change (total _ k) with (total w' k) in Hc|right].
      * destruct (Hback k Hc) as [?| ->]; [by left|]. destruct Hthere as [?|Hi']; [by left|right]. split_and!; [done|done|lia].
      * split_and!; [done| |done]. rewrite <- Htop. exact Htk.
    + exists v. cbn. by rewrite Hk, Hst.
  - intros k Hc. change (total _ k) with (total w' k) in Hc. split; [|exact (Hl k Hc)].
    destruct (Hback k Hc) as [Hc'| ->]; [by apply I5|done].
  - apply Forall_forall. intros k Hk'. change (total w' k = 0%nat /\ k < last_index w'). cbn in Hk'. rewrite Hd in Hk'.
    destruct (proj1 (Forall_forall _ _) I6 k Hk') as [H0 Hlt]. rewrite Ht, Hli. rewrite decide_False by lia. by split.
  - apply Forall_forall. intros x Hx. cbn in Hx. rewrite Hre in Hx. pose proof (proj1 (Forall_forall _ _) I7 x Hx) as Hr.
    unfold reads_kept in *. cbn. by rewrite Hk.
  - split; [change (0 <= last_index w'); rewrite Hli; apply I8|]. unfold phase_ok in *. cbn in *. by destruct (phase w').
  - cbn. by rewrite Hw.
Qed.

(** The newest snapshot, and one that has just been put in place, are referenced. *)
Lemma own_last w : phase_ok w -> w.(phase) <> Down -> last_index w <> 0 -> (0 < own w (last_index w))%nat.
Proof.
  unfold phase_ok, own. destruct (phase w) as [|old new|old new|old|]; intros Hp Hd Hz; try done.
  - rewrite bool_decide_true by done. lia.
  - rewrite bool_decide_true by done. lia.
  - destruct Hp as [-> ?]. rewrite (bool_decide_true (_ /\ last_index w = last_index w)) by done. lia.
  - rewrite (bool_decide_true (_ /\ last_index w = last_index w)) by done. lia.
Qed.

Lemma own_reffed w old k : w.(phase) = Reffed old k -> k <> 0 -> (0 < own w k)%nat.
Proof. intros Hp Hk. unfold own. rewrite Hp. rewrite (bool_decide_true (k <> 0 /\ k = k)) by done. lia. Qed.

Lemma open_locked_section w : Inv w -> w.(phase) <> Down ->
  let '(i, w') := run open_locked w in
  Inv (match i with Some i => w' <| opening := i :: w'.(opening) |> | None => w' end).
Proof.
  intros Hi Hp. pose proof Hi as [_ _ _ _ I5 _ _ [I8 I8'] _].
  unfold run, open_locked, mbind, M_bind, get, mret, M_ret. fold (last_index w).
  destruct (Z.eqb_spec (last_index w) 0) as [Hz|Hz]; cbn.
  - replace (w <| st := w.(st) |>) with w by (by destruct w). done.
  - pose proof (ref_keeps w (w <| opening := last_index w :: w.(opening) |>) (last_index w) Hi) as Hr. apply Hr. split; try done.
    + intros k. unfold total. cbn. change (own _ k) with (own w k). rewrite count_cons. lia.
    + split_and!; [lia|lia|]. left. unfold total. pose proof (own_last w I8' Hp Hz). lia.
    + intros k Hk. change (own _ k) with (own w k) in Hk. unfold total in Hk. cbn in Hk. rewrite count_cons in Hk.
      destruct (decide (last_index w = k)) as [<-|]; [left; change (last_index w <= last_index w); lia|].
      apply I5. unfold total. exact Hk.
    + unfold phase_ok in *. cbn in *. by destruct (phase w).
Qed.

Lemma close_ref_section w old new : Inv w -> w.(phase) = Renamed old new -> Inv (run (ref new) (w <| phase := Reffed old new |>)).2.
Proof.
  intros Hi Hp. pose proof Hi as [_ _ _ _ I5 _ _ [I8 I8'] _]. unfold phase_ok in I8'. rewrite Hp in I8'. destruct I8' as [-> Hlt].
  apply (ref_keeps w _ new Hi). split; try done.
  - intros k. unfold total, own. cbn. rewrite Hp.
    destruct (decide (new = k)) as [->|Hne]; [rewrite (bool_decide_true (k <> 0 /\ k = k)) by lia; lia|].
    rewrite (bool_decide_false (new <> 0 /\ new = k)) by tauto. change (last_index (w <| phase := _ |>)) with (last_index w). lia.
  - unfold top. cbn. by rewrite Hp.
  - by rewrite Hp.
  - split_and!; [lia|lia|]. right. unfold top. by rewrite Hp.
  - intros k. cbn. change (last_index (w <| phase := _ |>)) with (last_index w). unfold total, own. cbn.
    change (last_index (w <| phase := _ |>)) with (last_index w). intros Hk.
    destruct (decide (new = k)) as [<-|Hne]; [right; by eexists|left].
    rewrite (bool_decide_false (new <> 0 /\ new = k)) in Hk by tauto.
    destruct (I5 k) as [_ [?|[o Ho]]]; [|done|congruence]. unfold total, own. rewrite Hp. lia.
Qed.

Lemma close_switch_section w old new : Inv w -> w.(phase) = Reffed old new ->
  Inv ((run (close_switch old new) w).2 <| phase := Switched old |>).
Proof.
  intros Hi Hp. pose proof Hi as [I1 I2 I3 I4 I5 I6 I7 [I8 I8'] I9]. unfold phase_ok in I8'. rewrite Hp in I8'. destruct I8' as [-> Hlt].
  unfold run, close_switch, check_that, mbind, M_bind, get, set_storage, modify, when. fold (last_index w). rewrite Z.eqb_refl. cbn.
  match goal with |- Inv ?w1 => set (w' := w1) end.
  assert (forall k, total w' k = total w k) as Ht.
  { intros k. unfold total, own, w', last_index. cbn. rewrite Hp. cbn. fold (last_index w). lia. }
  assert (last_index w' = new) as Hli by done.
  split; try done.
  - destruct I2 as (t & Hc & Ht2). exists t. split; [done|]. intros _. rewrite Ht2 by (by rewrite Hp). unfold top. by rewrite Hp.
  - intros k. rewrite Ht. apply I3.
  - intros k. rewrite Ht. intros Hk. apply I4. destruct Hk as [?|(_ & -> & Hz)]; [by left|right].
    unfold top. rewrite Hp. cbn. unfold w', top in Hz. cbn in Hz. split_and!; [done|done|exact Hz].
  - intros k. rewrite Ht. intros Hk. destruct (I5 k Hk) as [? [?|[o Ho]]]; (split; [done|left]); rewrite Hli; [lia|].
    rewrite Hp in Ho. injection Ho as _ ->. lia.
  - eapply Forall_impl; [exact I6|]. intros k [H0 Hk]. rewrite Ht, Hli. split; [done|lia].
  - unfold phase_ok. rewrite Hli. cbn. lia.
Qed.

Lemma drop_ref_zero w : w.(st).(storage).(_ref_map) !! 0 = None -> drop_ref 0 w = w.
Proof.
  intros Hn. unfold drop_ref, run, unref_locked, mbind, M_bind, get, mret, M_ret. rewrite Hn. cbn. by destruct w.
Qed.

Lemma close_unref_section w old : Inv w -> w.(phase) = Switched old -> Inv (drop_ref old (w <| phase := Free |>)).
Proof.
  intros Hi Hp. pose proof Hi as [I1 I2 I3 I4 I5 I6 I7 [I8 I8'] I9]. unfold phase_ok in I8'. rewrite Hp in I8'.
  assert (forall k, total w k = ((if bool_decide (old <> 0%Z /\ old = k) then 1 else 0) + total (w <| phase := Free |>) k)%nat) as Ht.
  { intros k. unfold total, own. cbn. rewrite Hp. change (last_index (w <| phase := _ |>)) with (last_index w). lia. }
  assert (forall k, (0 < total (w <| phase := Free |>) k)%nat -> k <= last_index w) as Hl.
  { intros k Hk. destruct (I5 k) as [_ [?|[o Ho]]]; [rewrite Ht; lia|done|congruence]. }
  destruct (decide (old = 0)) as [->|Hz].
  - rewrite drop_ref_zero.
    2:{ cbn. rewrite I3. destruct (decide (total w 0 = 0%nat)); [done|]. destruct (I5 0); lia. }
    assert (forall k, total (w <| phase := Free |>) k = total w k) as Ht0 by (intros k; by rewrite Ht, bool_decide_false by lia).
    split; try done.
    + destruct I2 as (t & Hc & Ht2). exists t. split; [done|]. intros _. rewrite Ht2 by (by rewrite Hp). unfold top. by rewrite Hp.
    + intros k. by rewrite Ht0.
    + intros k. rewrite Ht0. intros Hk. apply I4. destruct Hk as [?|(_ & -> & ?)]; [by left|right].
      split_and!; [by rewrite Hp| |done]. unfold top. by rewrite Hp.
    + intros k. rewrite Ht0. intros Hk. destruct (I5 k Hk) as [? [?|[o Ho]]]; [|congruence]. split; [done|by left].
    + eapply Forall_impl; [exact I6|]. intros k [H0 Hk]. by rewrite Ht0.
  - apply (drop_ref_keeps w _ old Hi). split; try done.
    + intros k. rewrite Ht. case_bool_decide as Hb; destruct (decide (old = k)); try done; tauto.
    + unfold top. cbn. by rewrite Hp.
    + by rewrite Hp.
    + intros k Hk. left. by apply Hl.
Qed.

(** A holder that goes: of an [open] that failed, or of a reader that is closed. *)
Lemma holder_gone w w' i : Inv w -> w.(phase) <> Down -> w'.(st) = w.(st) -> w'.(kept) = w.(kept) -> w'.(doomed) = w.(doomed) ->
  w'.(writer) = w.(writer) -> w'.(phase) = w.(phase) -> (forall x, x ∈ w'.(readers) -> x ∈ w.(readers)) ->
  (forall k, count k w.(opening) + count k w.(readers).*1 =
    (if decide (i = k) then 1 else 0) + (count k w'.(opening) + count k w'.(readers).*1))%nat ->
  Inv (drop_ref i w').
Proof.
  intros Hi Hp Hst Hk Hd Hw Hph Hre Hc. pose proof Hi as [I1 I2 I3 I4 I5 I6 I7 [I8 I8'] I9].
  assert (last_index w' = last_index w) as Hli by (unfold last_index; by rewrite Hst).
  assert (forall k, own w' k = own w k) as Ho by (intros k; unfold own; by rewrite Hph, Hli).
  assert (forall k, total w k = ((if decide (i = k) then 1 else 0) + total w' k)%nat) as Ht.
  { intros k. unfold total. rewrite Ho. specialize (Hc k). lia. }
  apply (drop_ref_keeps w w' i Hi). split; try done.
  - unfold top. by rewrite Hph, Hli.
  - by rewrite Hph.
  - intros k Hk'. rewrite Hli, Hph. apply I5. rewrite Ht. lia.
  - unfold phase_ok in *. rewrite Hph, Hli. by destruct (phase w).
  - intros H0. destruct (I5 i) as [Hpos Hor]; [rewrite Ht; destruct (decide (i = i)); [lia|done]|].
    assert (own w i = 0%nat) as Hown by (rewrite <- Ho; unfold total in H0; lia).
    destruct Hor as [Hle|[old Hr]].
    + destruct (decide (i = last_index w)) as [->|]; [|lia]. pose proof (own_last w I8' Hp ltac:(lia)). lia.
    + pose proof (own_reffed w old i Hr ltac:(lia)). lia.
Qed.

Lemma open_failed_section w n i : Inv w -> w.(phase) <> Down -> w.(opening) !! n = Some i ->
  Inv (drop_ref i (w <| opening := delete n w.(opening) |>)).
Proof.
  intros Hi Hp Hn. apply (holder_gone w); try done. intros k. cbn. rewrite (count_delete k n _ i Hn). lia.
Qed.

Lemma close_reader_section w n i r : Inv w -> w.(phase) <> Down -> w.(readers) !! n = Some (i, r) ->
  let '(j, w') := run (reader_snapshot_index r) w in
  Inv (drop_ref j (w' <| readers := delete n w'.(readers) |>)).
Proof.
  intros Hi Hp Hn. pose proof (proj1 (Forall_forall _ _) (i_readers _ Hi) _ (list_elem_of_lookup_2 _ _ _ Hn)) as [Hpath _].
  cbn in Hpath. unfold run, reader_snapshot_index. rewrite Hpath. cbn.
  apply (holder_gone w); try done.
  - intros x. cbn. apply list_elem_of_delete_inv.
  - intros k. cbn. rewrite list_fmap_delete. rewrite (count_delete k n w.(readers).*1 i); [lia|]. by rewrite list_lookup_fmap, Hn.
Qed.

(** ** Opening and closing *)
Lemma open_read_section w n i : Inv w -> w.(phase) <> Down -> w.(opening) !! n = Some i ->
  let '(r, w') := run (open_read i) w in
  Inv (match r with
       | Some r => w' <| opening := delete n w'.(opening) |> <| readers := (i, r) :: w'.(readers) |>
       | None => w'
       end).
Proof.
  intros Hi Hp Hn. pose proof (plain_section (fun _ => False) _ w Hi (open_read_touches _ i) ltac:(done) ltac:(by intros ?? []) Hp) as Hi'.
  pose proof (run_spec (open_read i) (fun r _ => forall rd, r = Some rd -> rd.(r_path) = Snap i /\
    exists x pb, w.(st).(fs).(dirs) !! Snap i = Some x /\ x.(meta_file) = Holds pb /\ rd.(r_table) = load_table pb) w (open_read_spec i _ _)) as Hr.
  unfold run in *. destruct (open_read i w.(st)) as [[r s] ev]. cbn [fst snd] in *.
  destruct r as [rd|]; [|done]. destruct (Hr rd eq_refl) as (Hpath & x & pb & Hx & Hm & Htab). clear Hr.
  assert (0 < total w i)%nat as Hpos by (unfold total; rewrite (count_delete i n _ i Hn), decide_True by done; lia).
  destruct (i_intact _ Hi i (or_introl Hpos)) as (v & Hv & Hview & _).
  unfold view_of in Hview. rewrite Hx in Hview. injection Hview as <-.
  destruct Hi' as [I1 I2 I3 I4 I5 I6 I7 I8 I9].
  match goal with |- Inv ?w1 => set (w2 := w1) end.
  assert (forall k, total w2 k = total (w <| st := s |>) k) as Ht.
  { intros k. unfold total, w2. cbn. rewrite count_cons, (count_delete k n _ i Hn). change (own _ k) with (own (w <| st := s |>) k) at 1. lia. }
  split; try done.
  - intros k. rewrite Ht. apply I3.
  - intros k. rewrite Ht. apply I4.
  - intros k. rewrite Ht. apply I5.
  - eapply Forall_impl; [exact I6|]. intros k. by rewrite Ht.
  - constructor; [|exact I7]. split; [done|]. exists (view w.(st).(fs) x), pb. by split_and!.
  - destruct I8 as [? I8]. split; [done|]. unfold phase_ok in *. cbn in *. by destruct (phase w).
Qed.

Lemma destroy_section w n i : Inv w -> w.(phase) <> Down -> w.(doomed) !! n = Some i ->
  Inv ((run (destroy_old i) w).2 <| doomed := delete n w.(doomed) |>).
Proof.
  intros Hi Hp Hn. pose proof (proj1 (Forall_forall _ _) (i_doomed _ Hi) i (list_elem_of_lookup_2 _ _ _ Hn)) as [H0 Hlt].
  assert (Inv (run (destroy_old i) w).2) as Hi'.
  { apply (plain_section _ _ w Hi (destroy_old_touches i)); [|done|done]. intros d <- (k & Hk & Huse). injection Hk as <-.
    destruct Huse as [?|(_ & -> & Hz)]; [lia|]. pose proof (i_phase _ Hi) as [_ Hph]. unfold top, phase_ok in *.
    destruct (phase w); try done; lia. }
  unfold run in *. destruct (destroy_old i w.(st)) as [[[] s] ev]. cbn [fst snd] in *. destruct Hi' as [I1 I2 I3 I4 I5 I6 I7 I8 I9].
  split; try done.
  - cbn. apply Forall_forall. intros k Hk%list_elem_of_delete_inv. by apply (proj1 (Forall_forall _ _) I6).
  - destruct I8 as [? I8]. split; [done|]. unfold phase_ok in *. cbn in *. by destruct (phase w).
Qed.

(** [temp] becomes a snapshot. *)
Lemma wf_renamed f f' new x : wf f -> renamed f f' (Snap new) x -> wf f'.
Proof.
  intros [Wa Wf] [Rf Rd [Ri Rn]].
  assert (forall d y, f'.(dirs) !! d = Some y -> (d = Snap new /\ y = x) \/ (d <> Temp /\ d <> Snap new /\ f.(dirs) !! d = Some y)) as Hback.
  { intros d y. rewrite Rd. intros [[<- <-]|[? [? ?]%lookup_delete_Some]]%lookup_insert_Some; [by left|right]. by split_and!. }
  split.
  - intros d1 d2 y1 y2 n1 n2 i H1 H2 E1 E2.
    destruct (Hback _ _ H1) as [[-> ->]|(? & ? & H1')], (Hback _ _ H2) as [[-> ->]|(? & ? & H2')]; [done|..].
    + pose proof (Wa Temp d2 _ _ _ _ _ Rf H2' E1 E2). congruence.
    + pose proof (Wa d1 Temp _ _ _ _ _ H1' Rf E1 E2). congruence.
    + by eapply Wa.
  - intros d y n i H1 E. rewrite Rn. destruct (Hback _ _ H1) as [[-> ->]|(? & ? & H1')]; by eapply Wf.
Qed.

Lemma view_renamed f f' to x d : renamed f f' to x -> d <> Temp -> view_of f' d = if decide (d = to) then Some (view f x) else view_of f d.
Proof.
  intros [Rf Rd [Ri _]] Hd. unfold view_of. rewrite Rd.
  assert (forall y, view f' y = view f y) as Hy by (intros y; unfold view, bytes_of; by rewrite Ri).
  destruct (decide (d = to)) as [->|Hne]; [by rewrite lookup_insert_eq; cbn; rewrite Hy|].
  rewrite lookup_insert_ne, lookup_delete_ne by done. destruct (dirs f !! d); [|done]. cbn. by rewrite Hy.
Qed.

Lemma note_spec index w v : view_of w.(st).(fs) (Snap index) = Some v -> note index w = w <| kept := <[index := v]> w.(kept) |>.
Proof. intros Hv. unfold note. by rewrite Hv. Qed.

(** After the renaming, from a state [f1] of the directory just before it. *)
Lemma renamed_section w s f1 x tbl new : Inv w -> w.(phase) = Free -> last_index w < new -> s.(storage) = w.(st).(storage) ->
  touches (closing new) w.(st).(fs) f1 -> renamed f1 s.(fs) (Snap new) x -> x.(meta_file) = Holds (save_table tbl) ->
  option_map last_included_index tbl.(_meta) = Some new ->
  Inv (note new (w <| st := s |> <| writer := None |> <| phase := Renamed (last_index w) new |>)).
Proof.
  intros Hi Hp Hlt Hs Ht1 Hrn Hm Hix. pose proof Hi as [I1 I2 I3 I4 I5 I6 I7 [I8 I8'] I9].
  pose proof (t_wf _ _ _ Ht1 I1) as Hw1.
  assert (forall k, k <> new -> view_of s.(fs) (Snap k) = view_of w.(st).(fs) (Snap k)) as Hsame.
  { intros k Hk. rewrite (view_renamed f1 s.(fs) (Snap new) x) by done. rewrite decide_False by congruence.
    apply (touches_view (closing new)); [done|done|]. intros [?|?]; congruence. }
  assert (view_of s.(fs) (Snap new) = Some (view f1 x)) as Hnew by (by rewrite (view_renamed f1 s.(fs) (Snap new) x), decide_True).
  assert (holds_index (view f1 x) new) as Hx.
  { destruct tbl as [fm [m|]]; [|done]. injection Hix as Hix. by exists (save_table (mkLocalSnapshotMetaTable fm (Some m))), m. }
  rewrite (note_spec new _ (view f1 x)) by exact Hnew.
  match goal with |- Inv ?w1 => set (w' := w1) end.
  assert (last_index w' = last_index w) as Hli by (unfold last_index, w'; cbn; by rewrite Hs).
  assert (forall k, total w' k = total w k) as Ht.
  { intros k. unfold total, own. rewrite Hli. by rewrite Hp. }
  assert (forall k, (0 < total w k)%nat -> k <> new) as Hold.
  { intros k Hk. destruct (I5 k Hk) as [_ [?|[o Ho]]]; [lia|congruence]. }
  split.
  - cbn. by eapply wf_renamed.
  - exists new. split; [|done]. destruct I2 as (t & [C1 C2 C3] & Htop). specialize (Htop ltac:(by rewrite Hp)).
    unfold top in Htop. rewrite Hp in Htop. subst t. split.
    + intros k Hk. destruct (decide (k = new)) as [->|Hne]; [lia|]. destruct (C1 k); [|lia].
      unfold is_Some in *. destruct Hk as [y Hy]. specialize (Hsame k Hne). unfold view_of in Hsame. cbn in Hy. rewrite Hy in Hsame.
      destruct (dirs (fs (st w)) !! Snap k); [by eexists|done].
    + intros n m. cbn. rewrite (rn_dirs _ _ _ _ Hrn), lookup_insert_ne, lookup_delete_ne by done.
      rewrite (t_dirs _ _ _ Ht1); [apply C2|]. by intros [?|?].
    + split; [lia|]. intros _. by exists (view f1 x).
  - intros k. rewrite Ht. cbn. rewrite Hs. apply I3.
  - intros k. rewrite Ht. intros Hk. destruct (decide (k = new)) as [->|Hne].
    + exists (view f1 x). cbn. by rewrite lookup_insert_eq.
    + destruct Hk as [Hk|(_ & Hk & _)]; [|done]. destruct (I4 k (or_introl Hk)) as (v & Hv & Hview & Hh).
      exists v. cbn. rewrite lookup_insert_ne by done. split_and!; [done| |done]. by rewrite Hsame.
  - intros k. rewrite Ht, Hli. intros Hk. destruct (I5 k Hk) as [? [?|[o Ho]]]; [|congruence]. split; [done|by left].
  - eapply Forall_impl; [exact I6|]. intros k [H0 Hk]. by rewrite Ht, Hli.
  - apply Forall_forall. intros [k r] Hin. pose proof (proj1 (Forall_forall _ _) I7 _ Hin) as (Hpath & v & pb & Hv & Hpb & Htab).
    split; [done|]. exists v, pb. cbn in *. rewrite lookup_insert_ne; [done|]. intros <-. eapply (Hold new); [|done].
    unfold total. apply list_elem_of_lookup in Hin as [n Hn].
    rewrite (count_delete new n w.(readers).*1 new), decide_True by (done || by rewrite list_lookup_fmap, Hn). lia.
  - split; [by rewrite Hli|]. unfold phase_ok. rewrite Hli. by split.
  - done.
Qed.

Lemma close_rename_section w wr keep : Inv w -> w.(phase) = Free -> w.(writer) = Some wr -> newer wr w ->
  let '((ret, (old, new)), w') := run (close_rename wr) w in
  if ok ret then Inv (note new (w' <| writer := None |> <| phase := Renamed old new |>))
  else Inv ((run (close_failed ret keep wr.(w_path)) w').2 <| writer := None |>).
Proof.
  intros Hi Hp Hwr Hnewer. pose proof (i_writer _ Hi wr Hwr) as Hpath.
  pose proof (close_rename_spec wr w.(st) [] Hpath) as Hspec.
  unfold run at 1. unfold wpt, value_of, state_of in Hspec.
  destruct (close_rename wr w.(st)) as [[[ret [old new]] s] ev]. cbn [fst snd] in Hspec. destruct Hspec as [Hs Hspec].
  destruct (ok ret) eqn:Hret.
  - destruct Hspec as (He & -> & -> & f1 & x & Ht1 & Hrn & Hm). specialize (Hnewer He).
    apply (renamed_section w s f1 x wr.(w_table) (writer_snapshot_index wr) Hi Hp Hnewer Hs Ht1 Hrn Hm).
    pose proof (proj1 (i_phase _ Hi)). unfold writer_snapshot_index in *. destruct (_meta (w_table wr)); [done|lia].
  - assert (Inv (w <| st := s |> <| writer := None |>)) as Hi'.
    { destruct Hspec as [[He Ht]| ->].
      - specialize (Hnewer He). apply (Inv_store (closing (writer_snapshot_index wr)) w s None Hi); try done.
        + intros d. by apply closing_unused.
        + by intros n m [?|?].
        + by rewrite Hp.
      - apply (Inv_store (fun _ => False) w w.(st) None Hi); try done; [by intros n m []|by rewrite Hp]. }
    rewrite Hpath. pose proof (plain_section (eq Temp) _ _ Hi' (close_failed_touches ret keep Temp) ltac:(auto) ltac:(done) ltac:(cbn; by rewrite Hp)) as Hend.
    unfold run in *. cbn in *. destruct (close_failed ret keep Temp s) as [[[] s'] ev']. exact Hend.
Qed.
