(* ===== verification/SnapshotStorageInit.v ===== *)
(** * SnapshotStorageInit: a storage that starts on what is on disk

    What [init] leaves of a directory in which the newest snapshot is whole, however
    its calls end, and the invariant of the world it starts. *)

From S2P Require Import Prelude Types FsmCaller SnapshotFiles SnapshotStorage SnapshotStorageProofs SnapshotStorageSafety.

(** ** The snapshots found *)
Lemma snapshot_set_spec f t i : crest f t -> i ∈ snapshot_set f <-> is_Some (f.(dirs) !! Snap i).
Proof.
  intros [_ Hn _]. unfold snapshot_set. rewrite merge_sort_Permutation, elem_of_remove_dups, list_elem_of_omap. split.
  - intros (d & Hd & Hm). apply elem_of_elements, elem_of_dom in Hd. destruct d as [|j|n m]; cbn in Hm; [done|by injection Hm as ->|].
    rewrite Hn in Hd. by destruct Hd.
  - intros Hi. exists (Snap i). split; [|done]. by apply elem_of_elements, elem_of_dom.
Qed.

Lemma snapshot_set_last f t : crest f t ->
  match last (snapshot_set f) with
  | None => t = 0 /\ forall k, f.(dirs) !! Snap k = None
  | Some i => i = t /\ t <> 0 /\ (forall k, k ∈ removelast (snapshot_set f) -> k < t) /\
      (forall k, is_Some (f.(dirs) !! Snap k) -> k = t \/ k ∈ removelast (snapshot_set f))
  end.
Proof.
  intros Hc. pose proof Hc as [C1 C2 [C3 C4]]. destruct (last (snapshot_set f)) as [i|] eqn:Hl.
  - assert (NoDup (snapshot_set f)) as Hnd.
    { unfold snapshot_set. rewrite merge_sort_Permutation. apply NoDup_remove_dups. }
    assert (StronglySorted Z.le (snapshot_set f)) as Hs by (unfold snapshot_set; apply StronglySorted_merge_sort; exact _).
    apply last_Some in Hl as [l Hl]. rewrite Hl, removelast_last in *.
    assert (forall k, k ∈ l -> k < i) as Hlt.
    { intros k Hk. apply NoDup_app in Hnd as (_ & Hnd & _). specialize (Hnd k Hk).
      assert (k <> i) by (intros ->; apply Hnd, list_elem_of_here).
      pose proof (StronglySorted_app_1_elem_of Z.le l [i] k i Hs Hk (list_elem_of_here _ _)). lia. }
    assert (forall k, is_Some (f.(dirs) !! Snap k) <-> k ∈ l \/ k = i) as Hin.
    { intros k. rewrite <- (snapshot_set_spec f t) by done. rewrite Hl, elem_of_app, list_elem_of_singleton. done. }
    assert (i = t) as ->.
    { pose proof (C1 i (proj2 (Hin i) (or_intror eq_refl))) as Hi. destruct (C4 ltac:(lia)) as (v & Hv & _).
      destruct (proj1 (Hin t)) as [Ht|]; [|specialize (Hlt _ Ht); lia|done].
      unfold view_of in Hv. destruct (dirs f !! Snap t); [by eexists|done]. }
    pose proof (C1 t (proj2 (Hin t) (or_intror eq_refl))). split_and!; [done|lia|done|].
    intros k Hk. apply Hin in Hk. tauto.
  - apply last_None in Hl. assert (forall k, f.(dirs) !! Snap k = None) as Hno.
    { intros k. destruct (dirs f !! Snap k) eqn:Hd; [|done]. pose proof (proj2 (snapshot_set_spec f t k Hc) ltac:(by eexists)) as Hk.
      rewrite Hl in Hk. by apply elem_of_nil in Hk. }
    split; [|done]. destruct (decide (t = 0)) as [|Ht]; [done|]. destruct (C4 Ht) as (v & Hv & _).
    unfold view_of in Hv. by rewrite Hno in Hv.
Qed.

Lemma delete_snapshots_gone l s tr :
  wpt (delete_snapshots l) (fun b s' _ => b = true -> forall i, i ∈ l -> s'.(fs).(dirs) !! Snap i = None) s tr.
Proof.
  revert s tr. induction l as [|i l IH]; intros s tr; cbn [delete_snapshots].
  { apply wpt_ret. by intros _ i Hi%elem_of_nil. }
  apply wpt_bind. pose proof (delete_snapshots_touches l) as Htl.
  assert (wpt (delete_tree (Snap i)) (fun b f' _ => b = true -> f'.(dirs) !! Snap i = None) s.(fs) tr) as Hd.
  { unfold delete_tree. apply wpt_bind, wpt_any. intros o f1 tr1. wpt_step. wpt_step.
    destruct o; [|by destruct (dirs f1 !! Snap i); wpt_go|by destruct (dirs f1 !! Snap i); wpt_go].
    wpt_go. intros _. cbn. by rewrite lookup_delete_eq. }
  apply wpt_on_fs. eapply wpt_mono; [exact Hd|]. intros [] f' tr' Hg; cbn [negb]; [|by wpt_go].
  specialize (Hg eq_refl). specialize (IH (s <| fs := f' |>) tr'). specialize (Htl (s <| fs := f' |>)).
  unfold wpt in *. destruct Htl as [[_ Ht] _]. intros Hb j [->|Hj]%elem_of_cons; [|by apply IH].
  destruct ((state_of (delete_snapshots l (s <| fs := f' |>))).(fs).(dirs) !! Snap i) eqn:He; [|done].
  exfalso. pose proof (t_new _ _ _ Ht (Snap i) ltac:(done) ltac:(rewrite He; by eexists)) as Hn. cbn in Hn. rewrite Hg in Hn. by destruct Hn.
Qed.

(** What [init] may delete, when [t] is the newest snapshot. *)
Definition stale (t : Z) (d : DirName) : Prop := d = Temp \/ exists i, d = Snap i /\ i < t.

Lemma stale_crest f f' t : wf f -> touches (stale t) f f' -> crest f t -> crest f' t.
Proof.
  intros Hw Ht Hc. apply (crest_touches (stale t) f); try done.
  - intros [?|(i & [= <-] & ?)]; [done|lia].
  - by intros n m [?|(i & ? & _)].
Qed.

Lemma storage_init_spec f t g s tr : wf f -> crest f t -> s = mkStore f (LocalSnapshotStorage_new false) -> g = s.(storage) ->
  wpt init (fun rc s' _ => touches (stale t) f s'.(fs) /\
    if ok rc then s'.(storage) = (if decide (t = 0) then g else g <| _last_snapshot_index := t |> <| _ref_map := {[t := 1]} |>) /\
      forall k, is_Some (s'.(fs).(dirs) !! Snap k) -> k = t
    else s'.(storage) = g) s tr.
Proof.
  intros Hw Hc -> ->. unfold init. apply wpt_bind, wpt_on_fs.
  eapply wpt_obeys; [apply (fs_outcome_touches (stale t))|]. intros o f1 ev1 Ht1 _. cbn in Ht1.
  destruct (done_ok o); cbn [negb]; [|by wpt_go]. do 2 wpt_step. cbn [storage fs _filter_before_copy_remote LocalSnapshotStorage_new negb].
  apply wpt_bind, wpt_on_fs. eapply wpt_obeys; [apply delete_tree_touches|]. intros b f2 ev2 Ht2 _. cbn in Ht2.
  apply (touches_weaken _ (stale t)) in Ht2; [|intros d <-; by left].
  assert (touches (stale t) f f2) as Hf2 by (by etransitivity).
  destruct b; cbn [negb]; [|by wpt_go]. apply wpt_bind, wpt_on_fs.
  eapply wpt_obeys; [apply (fs_outcome_touches (stale t))|]. intros o3 f3 ev3 Ht3 _. cbn in Ht3.
  assert (touches (stale t) f f3) as Hf3 by (by etransitivity).
  destruct (done_ok o3); cbn [negb]; [|by wpt_go]. do 2 wpt_step. cbn [fs].
  pose proof (stale_crest _ _ _ Hw Hf3 Hc) as Hc3. pose proof (snapshot_set_last f3 t Hc3) as Hset.
  match goal with |- context [snapshot_set ?x] => change x with f3 end.
  destruct (last (snapshot_set f3)) as [i|].
  2:{ destruct Hset as [Ht Hno]. wpt_go. split; [done|]. change (ok OK) with true. cbv iota.
      rewrite decide_True by done. split; [done|]. intros k [y Hy]. change (f3.(dirs) !! Snap k = Some y) in Hy. by rewrite Hno in Hy. }
  destruct Hset as (-> & Hz & Hlt & Hall). set (l := removelast (snapshot_set f3)) in *. clearbody l.
  apply wpt_bind. match goal with |- wpt _ _ ?x _ => set (s3 := x) end.
  match goal with |- wpt _ _ _ ?x => assert (wpt (delete_snapshots l) (fun b s' _ =>
    store_touches (fun d => exists i, i ∈ l /\ d = Snap i) s3 s' /\ (b = true -> forall i, i ∈ l -> s'.(fs).(dirs) !! Snap i = None)) s3 x) as Hdel end.
  { split; [apply (delete_snapshots_touches l s3)|]. by apply (delete_snapshots_gone l s3 []). }
  eapply wpt_mono; [exact Hdel|]. intros b s4 tr4 [[Hs4 Ht4] Hgone].
  assert (touches (stale t) f s4.(fs)) as Hf4.
  { etransitivity; [exact Hf3|]. eapply touches_weaken; [|exact Ht4]. intros d (j & Hj & ->). right. exists j. by split; [|apply Hlt]. }
  destruct b; cbn [negb]; unfold ref, set_storage; wpt_go; (split; [exact Hf4|]); cbn; rewrite Hs4.
  2: done.
  rewrite decide_False by done. split; [done|].
  intros k Hk. pose proof (t_new _ _ _ Ht4 (Snap k) ltac:(done) Hk) as Hk3.
  destruct (Hall k Hk3) as [|Hin]; [done|]. rewrite Hgone in Hk by done. by destruct Hk.
Qed.

(** ** Restarting *)
Lemma crest_view f t : crest f t -> t <> 0 -> exists v, view_of f (Snap t) = Some v /\ holds_index v t.
Proof. intros [_ _ [_ Hc]]. exact Hc. Qed.

Lemma script_touches D f sc : touches D f (f <| script := sc |>).
Proof. split; cbn; try done. by intros [Wa Wf]; split. Qed.

Lemma total_restarted sc w k : total (restarted sc w) k = 0%nat.
Proof. done. Qed.

(** A process that is not up, on a sound directory. *)
Lemma Inv_down sc w t : wf w.(st).(fs) -> crest w.(st).(fs) t -> Inv (restarted sc w).
Proof.
  intros Hw Hc. split; cbn; try done.
  - apply (t_wf _ _ _ (script_touches (fun _ => False) _ sc) Hw).
  - exists t. split; [|done]. eapply (crest_touches (fun _ => False)); [exact Hw|apply script_touches|..]; try done. by intros [].
  - intros k [Hk|[Hk _]]; [unfold count in Hk; cbn in Hk; lia|done].
  - intros k Hk. unfold count in Hk. cbn in Hk. lia.
Qed.

Lemma restart_section w sc : Inv w ->
  let '(rc, w') := run init (restarted sc w) in
  Inv (if ok rc then note (last_index w') (w' <| phase := Free |>) else restarted [] w').
Proof.
  intros [Hw (t & Hc & _) _ _ _ _ _ _ _].
  set (f := w.(st).(fs) <| script := sc |>). pose proof (script_touches (stale t) w.(st).(fs) sc) as Hsc.
  pose proof (t_wf _ _ _ Hsc Hw) as Hwf. pose proof (stale_crest _ _ _ Hw Hsc Hc) as Hcf.
  pose proof (storage_init_spec f t _ (restarted sc w).(st) [] Hwf Hcf eq_refl eq_refl) as Hspec.
  unfold run. unfold wpt, value_of, state_of in Hspec. destruct (init (restarted sc w).(st)) as [[rc s] ev]. cbn [fst snd] in Hspec.
  destruct Hspec as [Ht Hres]. pose proof (t_wf _ _ _ Ht Hwf) as Hwf'. pose proof (stale_crest _ _ _ Hwf Ht Hcf) as Hc'.
  destruct (ok rc); [|by apply (Inv_down [] _ t)]. destruct Hres as [Hs Honly].
  match goal with |- Inv (note _ ?w1) => set (w' := w1) end.
  change (last_index _) with s.(storage).(_last_snapshot_index).
  destruct (decide (t = 0)) as [Hz|Hz].
  - assert (note s.(storage).(_last_snapshot_index) w' = w') as ->.
    { unfold note. rewrite Hs. cbn. change (view_of (fs s) (Snap 0)) with (view_of s.(fs) (Snap 0)). unfold view_of.
      destruct (dirs (fs s) !! Snap 0) eqn:Hd; [|done]. destruct (c_positive _ _ Hc' 0); [by eexists|lia]. }
    assert (last_index w' = 0) as Hl by (unfold last_index, w'; cbn; by rewrite Hs).
    assert (forall k, total w' k = 0%nat) as H0.
    { intros k. unfold total, own. rewrite Hl. cbn. rewrite bool_decide_false by lia. done. }
    split; try done.
    + exists t. split; [done|]. intros _. unfold top. cbn. by rewrite Hl.
    + intros k. rewrite H0. cbn. by rewrite Hs.
    + intros k. rewrite H0. intros [?|(_ & Hk & Hk0)]; [lia|]. unfold top in Hk. cbn in Hk. rewrite Hl in Hk. done.
    + intros k. rewrite H0. lia.
    + rewrite Hl. by split.
  - destruct (crest_view _ _ Hc' Hz) as (v & Hv & Hx).
    assert (s.(storage).(_last_snapshot_index) = t) as Hl by by rewrite Hs.
    rewrite Hl. rewrite (note_spec t w' v) by exact Hv. match goal with |- Inv ?w2 => set (w'' := w2) end.
    assert (last_index w'' = t) as Hl' by exact Hl.
    assert (forall k, total w'' k = if decide (t = k) then 1%nat else 0%nat) as H0.
    { intros k. unfold total, own. rewrite Hl'. cbn. destruct (decide (t = k)) as [->|]; [rewrite bool_decide_true|rewrite bool_decide_false]; try done; tauto. }
    assert (0 < t) as Hpos by (destruct Hc' as [_ _ [? _]]; lia).
    assert (forall k, k = t -> intact w'' k) as Hint.
    { intros k ->. exists v. split_and!; [cbn; by rewrite lookup_insert_eq|exact Hv|exact Hx]. }
    split; try done.
    + exists t. split; [done|]. intros _. unfold top. cbn. by rewrite Hl'.
    + intros k. rewrite H0. cbn. rewrite Hs. cbn. destruct (decide (t = k)) as [->|Hne]; [by rewrite lookup_singleton_eq|].
      by rewrite lookup_singleton_ne.
    + intros k. rewrite H0. intros Hk. apply Hint. destruct Hk as [Hk|(_ & Hk & _)]; [destruct (decide (t = k)); [done|lia]|].
      unfold top in Hk. cbn in Hk. by rewrite Hl' in Hk.
    + intros k. rewrite H0. destruct (decide (t = k)) as [<-|]; [|lia]. intros _. split; [done|]. left. by rewrite Hl'.
    + rewrite Hl'. split; [lia|done].
Qed.
