(* ===== verification/SnapshotStorageProps.v ===== *)
(** * SnapshotStorageProps: what a snapshot storage promises

    The invariant holds in every reachable world; from it, that a snapshot in use is
    never touched, and that a closed one survives any crash. *)

From S2P Require Import Prelude Types FsmCaller SnapshotFiles SnapshotStorage SnapshotStorageProofs SnapshotStorageSafety SnapshotStorageInit.

(** ** Every section keeps the invariant *)
Lemma blank_inv : Inv blank.
Proof.
  split; try done.
  - exists 0. split; [|done]. split; [|done|done]. intros k [x Hk]. cbn in Hk. by rewrite lookup_empty in Hk.
  - intros k [Hk|[Hk _]]; [unfold total, count in Hk; cbn in Hk; lia|done].
  - intros k Hk. unfold total, count in Hk. cbn in Hk. lia.
Qed.

Lemma add_file_path n m wr : (writer_add_file n m wr).2.(w_path) = wr.(w_path).
Proof. unfold writer_add_file. by destruct (table_add_file _ _ _). Qed.
Lemma remove_file_path n wr : (writer_remove_file n wr).2.(w_path) = wr.(w_path).
Proof. unfold writer_remove_file. by destruct (table_remove_file _ _). Qed.

Lemma sync_section w wr : Inv w -> w.(phase) <> Down -> wr.(w_path) = Temp ->
  let '((_, wr), w') := run (on_fs (writer_sync wr)) w in Inv (w' <| writer := Some wr |>).
Proof.
  intros Hi Hp Hpath.
  pose proof (Inv_run (eq Temp) (on_fs (writer_sync wr)) w (fun r => Some r.2) Hi) as Hr.
  pose proof (run_spec (on_fs (writer_sync wr)) (fun r _ => r.2.(w_path) = Temp) w) as Hs.
  destruct (run (on_fs (writer_sync wr)) w) as [[rc wr'] w']. cbn [fst snd] in *. apply Hr; try done.
  - rewrite <- Hpath. obey.
  - intros d. by apply temp_unused.
  - intros x [= <-]. apply Hs. apply wpt_on_fs. eapply wpt_mono; [apply writer_sync_spec|].
    intros [rc1 wr1] f1 tr1 (-> & _). done.
Qed.

(** The sections of a writer. *)
Definition of_writer (c : Section_) : bool :=
  match c with WriteFile _ _ | DeleteFile _ | AddFile _ _ | RemoveFile _ | SaveMeta _ | SetError _ | Sync => true | _ => false end.

Lemma writer_section w c w' : Inv w -> of_writer c = true -> do_section w c = Some w' -> Inv w'.
Proof.
  intros Hi Hc Hs. pose proof (i_phase _ Hi) as [_ Hph].
  assert (forall wr, w.(writer) = Some wr -> w.(phase) <> Down /\ wr.(w_path) = Temp) as Hwr.
  { intros wr Hwr. split; [|by apply (i_writer _ Hi)]. intros Hp. unfold phase_ok in Hph. rewrite Hp in Hph.
    destruct Hph as (_ & _ & _ & _ & ?). congruence. }
  destruct c; try discriminate Hc; cbn in Hs; (destruct w.(writer) as [wr|] eqn:Hw; [|done]); destruct (Hwr wr eq_refl) as [Hp Hpath].
  - injection Hs as <-. rewrite Hpath.
    eapply (plain_section (eq Temp)); [exact Hi|obey|by apply temp_unused|done|exact Hp].
  - injection Hs as <-. rewrite Hpath.
    eapply (plain_section (eq Temp)); [exact Hi|obey|by apply temp_unused|done|exact Hp].
  - injection Hs as <-.
    apply edit_writer; [done|done|by rewrite add_file_path].
  - injection Hs as <-.
    apply edit_writer; [done|done|by rewrite remove_file_path].
  - injection Hs as <-. by apply edit_writer.
  - injection Hs as <-. by apply edit_writer.
  - pose proof (sync_section w wr Hi Hp Hpath) as Hsy. destruct (run _ w) as [[rc wr'] w1]. by injection Hs as <-.
Qed.

Lemma section_inv w c w' : Inv w -> do_section w c = Some w' -> Inv w'.
Proof.
  intros Hi Hs. destruct (of_writer c) eqn:Hc; [by eapply writer_section|]. pose proof (i_phase _ Hi) as [_ Hph].
  assert (forall l n (i : Z), w.(opening) = l -> l !! n = Some i -> w.(phase) <> Down) as Hop.
  { intros l n i <- Hn Hp. unfold phase_ok in Hph. rewrite Hp in Hph. destruct Hph as (_ & Ho & _). by rewrite Ho in Hn. }
  destruct c; try discriminate Hc; cbn in Hs; clear Hc.
  - destruct w.(writer) eqn:Hw, w.(phase) eqn:Hp; try done. pose proof (create_section w Hi Hp) as Hc.
    destruct (run (create true) w) as [wr w1]. by injection Hs as <-.
  - destruct w.(writer) as [wr|] eqn:Hw, w.(phase) eqn:Hp; try done. destruct (decide (newer wr w)) as [Hn|]; [|done].
    pose proof (close_rename_section w wr keep_data_on_error Hi Hp Hw Hn) as Hc.
    destruct (run (close_rename wr) w) as [[ret [old new]] w1]. destruct (ok ret); by injection Hs as <-.
  - destruct w.(phase) eqn:Hp; try by destruct w.(writer).
    assert (w' = (run (ref new_index) (w <| phase := Reffed old_index new_index |>)).2) as -> by (destruct w.(writer); by injection Hs as <-).
    by apply close_ref_section.
  - destruct w.(phase) eqn:Hp; try by destruct w.(writer).
    assert (w' = (run (close_switch old_index new_index) w).2 <| phase := Switched old_index |>) as -> by (destruct w.(writer); by injection Hs as <-).
    by apply close_switch_section.
  - destruct w.(phase) eqn:Hp; try by destruct w.(writer).
    assert (w' = drop_ref old_index (w <| phase := Free |>)) as -> by (destruct w.(writer); by injection Hs as <-).
    by apply close_unref_section.
  - destruct (doomed w !! n) as [i|] eqn:Hn; [|by destruct w.(writer)].
    assert (w' = (run (destroy_old i) w).2 <| doomed := delete n w.(doomed) |>) as -> by (destruct w.(writer); by injection Hs as <-).
    apply destroy_section; [done| |done]. intros Hp. unfold phase_ok in Hph. rewrite Hp in Hph.
    destruct Hph as (_ & _ & _ & Hd & _). by rewrite Hd in Hn.
  - assert (w.(phase) <> Down) as Hp by (intros Hp; rewrite Hp in Hs; by destruct w.(writer)).
    pose proof (open_locked_section w Hi Hp) as Ho.
    destruct (run open_locked w) as [i w1]. assert (w' = match i with Some i => w1 <| opening := i :: w1.(opening) |> | None => w1 end) as ->; [|done].
    destruct w.(writer), w.(phase); first [done|by injection Hs as <-].
  - destruct (opening w !! n) as [i|] eqn:Hn; [|by destruct w.(writer)].
    pose proof (open_read_section w n i Hi (Hop _ n i eq_refl Hn) Hn) as Ho. destruct (run (open_read i) w) as [r w1].
    assert (w' = match r with Some r => w1 <| opening := delete n w1.(opening) |> <| readers := (i, r) :: w1.(readers) |> | None => w1 end) as ->; [|done].
    destruct w.(writer); by injection Hs as <-.
  - destruct (opening w !! n) as [i|] eqn:Hn; [|by destruct w.(writer)].
    assert (w' = drop_ref i (w <| opening := delete n w.(opening) |>)) as -> by (destruct w.(writer); by injection Hs as <-).
    apply open_failed_section; [done|by apply (Hop _ n i eq_refl)|done].
  - destruct (readers w !! n) as [[i r]|] eqn:Hn; [|by destruct w.(writer)].
    assert (w.(phase) <> Down) as Hp.
    { intros Hp. unfold phase_ok in Hph. rewrite Hp in Hph. destruct Hph as (_ & _ & Hr & _). by rewrite Hr in Hn. }
    pose proof (close_reader_section w n i r Hi Hp Hn) as Hc. destruct (run (reader_snapshot_index r) w) as [j w1].
    assert (w' = drop_ref j (w1 <| readers := delete n w1.(readers) |>)) as ->; [|done]. destruct w.(writer); by injection Hs as <-.
  - pose proof (restart_section w outcomes Hi) as Hr. destruct (run init _) as [rc w1].
    assert (w' = if ok rc then note (last_index w1) (w1 <| phase := Free |>) else restarted [] w1) as ->; [|done].
    destruct w.(writer), w.(phase); first [done|by injection Hs as <-].
Qed.

Lemma reachable_storage_inv w : reachable w -> Inv w.
Proof.
  apply (rtc_ind_r Inv blank); [apply blank_inv|]. intros w1 w2 _ [c Hc] Hi. by eapply section_inv.
Qed.

(** ** What a section leaves alone *)
Abbreviation disk_of w := (w.(st).(fs)).

Lemma run_view {A} D (m : StoreM A) w k : Inv w -> obeys (store_touches D) (fun _ => True) m -> ~ D (Snap k) ->
  view_of (disk_of (run m w).2) (Snap k) = view_of (disk_of w) (Snap k).
Proof.
  intros Hi Hm HD. destruct (Hm w.(st)) as [[_ Ht] _]. unfold run, state_of in *. destruct (m w.(st)) as [[a s] ev].
  apply (touches_view D); [done|apply Hi|done].
Qed.

Lemma ref_disk i w : disk_of (run (ref i) w).2 = disk_of w.
Proof. done. Qed.
Lemma drop_ref_disk i w : disk_of (drop_ref i w) = disk_of w.
Proof.
  unfold drop_ref, run, unref_locked, mbind, M_bind, get, mret, M_ret, set_storage, modify.
  destruct (_ref_map _ !! i) as [n|]; [|done]. destruct (n - 1 =? 0); done.
Qed.
Lemma close_switch_disk old new w : disk_of (run (close_switch old new) w).2 = disk_of w.
Proof.
  unfold run, close_switch, check_that, mbind, M_bind, get, set_storage, modify, when, emit. by destruct (negb _).
Qed.
Lemma open_locked_disk w : disk_of (run open_locked w).2 = disk_of w.
Proof. unfold run, open_locked, mbind, M_bind, get, mret, M_ret. by destruct (negb _). Qed.

Lemma close_rename_view w wr k : Inv w -> w.(phase) = Free -> w.(writer) = Some wr -> newer wr w -> (0 < total w k)%nat ->
  view_of (disk_of (run (close_rename wr) w).2) (Snap k) = view_of (disk_of w) (Snap k).
Proof.
  intros Hi Hp Hwr Hn Hk. pose proof (i_writer _ Hi wr Hwr) as Hpath.
  assert (k <= last_index w) as Hle by (destruct (i_last _ Hi k Hk) as [_ [?|[o Ho]]]; [done|congruence]).
  pose proof (close_rename_spec wr w.(st) [] Hpath) as Hspec. unfold wpt, run, value_of, state_of in *.
  destruct (close_rename wr w.(st)) as [[[ret [old new]] s] ev]. cbn [fst snd] in *. destruct Hspec as [_ Hspec].
  assert (forall f f' new, touches (closing new) f f' -> wf f -> last_index w < new -> view_of f' (Snap k) = view_of f (Snap k)) as Hcl.
  { intros f f' n Ht Hw Hlt. apply (touches_view (closing n)); [done|done|]. intros [?|[= ?]]; [done|lia]. }
  destruct (ok ret); [|destruct Hspec as [[He Ht]| ->]; [by apply (Hcl _ _ _ Ht); [apply Hi|apply Hn]|done]].
  destruct Hspec as (He & -> & -> & f1 & x & Ht & Hrn & _). specialize (Hn He).
  transitivity (view_of f1 (Snap k)); [|by apply (Hcl _ _ _ Ht); [apply Hi|]].
  cbn. rewrite (view_renamed f1 s.(fs) _ x) by done. by rewrite decide_False by (intros [= ?]; lia).
Qed.

Lemma close_rename_wf w wr : Inv w -> w.(writer) = Some wr -> wf (disk_of (run (close_rename wr) w).2).
Proof.
  intros Hi Hwr. pose proof (close_rename_spec wr w.(st) [] (i_writer _ Hi wr Hwr)) as Hspec.
  unfold wpt, run, value_of, state_of in *. destruct (close_rename wr w.(st)) as [[[ret [old new]] s] ev]. cbn [fst snd] in *.
  destruct Hspec as [_ Hspec]. destruct (ok ret); [|destruct Hspec as [[_ Ht]| ->]; [|apply Hi]; by apply (t_wf _ _ _ Ht), Hi].
  destruct Hspec as (_ & _ & _ & f1 & x & Ht & Hrn & _). eapply wf_renamed; [|exact Hrn]. by apply (t_wf _ _ _ Ht), Hi.
Qed.

Lemma note_disk i w : disk_of (note i w) = disk_of w.
Proof. unfold note. by destruct (view_of _ _). Qed.

Lemma section_view w c w' k : Inv w -> do_section w c = Some w' -> (forall sc, c <> Restart sc) -> (0 < total w k)%nat ->
  view_of (disk_of w') (Snap k) = view_of (disk_of w) (Snap k).
Proof.
  intros Hi Hs Hc Hk.
  assert (forall wr, w.(writer) = Some wr -> wr.(w_path) = Temp) as Hwr by apply (i_writer _ Hi).
  assert (forall A (m : StoreM A), obeys (store_touches (eq Temp)) (fun _ => True) m ->
    view_of (disk_of (run m w).2) (Snap k) = view_of (disk_of w) (Snap k)) as Htemp by (intros A m Hm; by apply (run_view (eq Temp))).
  destruct c; cbn in Hs.
  - destruct w.(writer) eqn:Hw, w.(phase) eqn:Hp; try done. specialize (Htemp _ (create true) (create_touches _)).
    destruct (run (create true) w) as [wr w1]. by injection Hs as <-.
  - destruct w.(writer) as [wr|] eqn:Hw; [|done]. injection Hs as <-. rewrite (Hwr wr) by done. apply Htemp. obey.
  - destruct w.(writer) as [wr|] eqn:Hw; [|done]. injection Hs as <-. rewrite (Hwr wr) by done. apply Htemp. obey.
  - destruct w.(writer) as [wr|]; [|done]. by injection Hs as <-.
  - destruct w.(writer) as [wr|]; [|done]. by injection Hs as <-.
  - destruct w.(writer) as [wr|]; [|done]. by injection Hs as <-.
  - destruct w.(writer) as [wr|]; [|done]. by injection Hs as <-.
  - destruct w.(writer) as [wr|] eqn:Hw; [|done]. specialize (Htemp _ (on_fs (writer_sync wr))).
    destruct (run _ w) as [[rc wr'] w1]. injection Hs as <-. apply Htemp. rewrite <- (Hwr wr) by done. obey.
  - destruct w.(writer) as [wr|] eqn:Hw, w.(phase) eqn:Hp; try done. destruct (decide (newer wr w)) as [Hn|]; [|done].
    pose proof (close_rename_view w wr k Hi Hp Hw Hn Hk) as Hv. pose proof (close_rename_wf w wr Hi Hw) as Hwf.
    destruct (run (close_rename wr) w) as [[ret [old new]] w1]. cbn [fst snd] in *. destruct (ok ret); injection Hs as <-.
    { by rewrite note_disk. }
    rewrite <- Hv, (Hwr wr) by done. destruct (close_failed_touches ret keep_data_on_error Temp w1.(st)) as [[_ Ht] _].
    unfold run, state_of in *. destruct (close_failed _ _ _ _) as [[[] s] ev]. by apply (touches_view (eq Temp)).
  - destruct w.(phase); try by destruct w.(writer). destruct w.(writer); by injection Hs as <-.
  - destruct w.(phase); try by destruct w.(writer). destruct w.(writer); injection Hs as <-; by rewrite <- (close_switch_disk old_index new_index w).
  - destruct w.(phase); try by destruct w.(writer). destruct w.(writer); injection Hs as <-; by rewrite drop_ref_disk.
  - destruct (doomed w !! n) as [i|] eqn:Hn; [|by destruct w.(writer)].
    pose proof (proj1 (Forall_forall _ _) (i_doomed _ Hi) i (list_elem_of_lookup_2 _ _ _ Hn)) as [H0 _].
    pose proof (run_view (eq (Snap i)) (destroy_old i) w k Hi (destroy_old_touches i) ltac:(intros [= ->]; lia)) as Hv.
    destruct w.(writer); by injection Hs as <-.
  - pose proof (open_locked_disk w) as Hd. destruct (run open_locked w) as [i w1]. cbn [snd] in Hd.
    destruct w.(writer), w.(phase); try done; injection Hs as <-; rewrite <- Hd; by destruct i.
  - destruct (opening w !! n) as [i|]; [|by destruct w.(writer)].
    pose proof (run_view (fun _ => False) (open_read i) w k Hi (open_read_touches _ i) ltac:(by intros [])) as Hv.
    destruct (run (open_read i) w) as [r w1]. cbn [snd] in Hv. destruct w.(writer); injection Hs as <-; rewrite <- Hv; by destruct r.
  - destruct (opening w !! n) as [i|]; [|by destruct w.(writer)]. destruct w.(writer); injection Hs as <-; by rewrite drop_ref_disk.
  - destruct (readers w !! n) as [[i r]|]; [|by destruct w.(writer)].
    assert (disk_of (run (reader_snapshot_index r) w).2 = disk_of w) as Hd.
    { unfold run, reader_snapshot_index. by destruct (matched_index _). }
    destruct (run (reader_snapshot_index r) w) as [j w1]. cbn [snd] in Hd.
    destruct w.(writer); injection Hs as <-; by rewrite drop_ref_disk, <- Hd.
  - by destruct (Hc outcomes).
Qed.

(** Somebody holds the snapshot at [k]. *)
Definition held (w : World) (k : Z) : Prop := k ∈ w.(opening) \/ k ∈ w.(readers).*1 \/ (k = last_index w /\ k <> 0).

Lemma count_pos k l : k ∈ l -> (0 < count k l)%nat.
Proof. intros [n Hn]%list_elem_of_lookup. rewrite (count_delete k n l k Hn), decide_True by done. lia. Qed.

Lemma held_total w k : Inv w -> w.(phase) <> Down -> held w k -> (0 < total w k)%nat.
Proof.
  intros Hi Hp [Ho|[Hr|[-> Hz]]]; unfold total.
  - apply count_pos in Ho. lia.
  - apply count_pos in Hr. lia.
  - pose proof (own_last w (proj2 (i_phase _ Hi)) Hp Hz). lia.
Qed.

Lemma held_up w k : Inv w -> held w k -> w.(phase) <> Down.
Proof.
  intros Hi Hh Hp. pose proof (proj2 (i_phase _ Hi)) as Hph. unfold phase_ok in Hph. rewrite Hp in Hph.
  destruct Hph as (Hl & Ho & Hr & _). unfold held in Hh. rewrite Hl, Ho, Hr in Hh.
  destruct Hh as [Hh|[Hh|[-> ?]]]; [by apply elem_of_nil in Hh..|done].
Qed.

(** C21: whoever holds a snapshot, an [open] under way, a reader or the storage for
    the newest one, finds it whole. In every state a storage that is not in
    [filter_before_copy_remote] mode can reach (one writer at a time, whose snapshot
    is newer than the last when it is closed): its reference is counted, the directory
    holds the table of that index, the one the reader has read, and no section of any
    thread that comes next, a restart apart, creating, writing, closing or deleting
    other snapshots with any call failing half way, changes a byte of its files. In
    the other mode the copier links files between snapshots and this is false:
    [kept_link_is_written_through] is a run where a failed deletion lets it write into
    a snapshot that is held. *)
Theorem snapshots_in_use_are_untouched w c w' k : reachable w -> do_section w c = Some w' ->
  (forall outcomes, c <> Restart outcomes) -> held w k ->
  0 < refs_of k w.(st).(storage) /\
  exists v pb, view_of w.(st).(fs) (Snap k) = Some v /\ view_of w'.(st).(fs) (Snap k) = Some v /\ holds_index v k /\
    v.1 = Holds pb /\ forall r, (k, r) ∈ w.(readers) -> r.(r_path) = Snap k /\ r.(r_table) = load_table pb.
Proof.
  intros Hi%reachable_storage_inv Hs Hc Hh. pose proof (held_total w k Hi (held_up w k Hi Hh) Hh) as Hk.
  rewrite (refs_spec w k Hi). split; [lia|].
  destruct (i_intact _ Hi k (or_introl Hk)) as (v & Hv & Hview & Hx). pose proof Hx as (pb & m & Hpb & _).
  exists v, pb. split; [done|]. split; [by rewrite (section_view w c w' k Hi Hs Hc Hk)|]. split; [done|]. split; [done|].
  intros r Hr. pose proof (proj1 (Forall_forall _ _) (i_readers _ Hi) _ Hr) as (Hpath & v' & pb' & Hv' & Hpb' & Htab). cbn [fst snd] in *.
  assert (Some v = Some v') as [= <-] by (exact (eq_trans (eq_sym Hv) Hv')). rewrite Hpb in Hpb'. injection Hpb' as <-. done.
Qed.

(** ** A restart where every call succeeds *)
Definition smooth {A} (m : FsM A) (Q : A -> Prop) : Prop := forall f tr, f.(script) = [] -> wpt m (fun a f' _ => f'.(script) = [] /\ Q a) f tr.

Lemma outcome_smooth : smooth outcome (fun o => o = FsOk).
Proof. intros f tr Hs. unfold wpt, value_of, state_of, outcome. by rewrite Hs. Qed.
Lemma delete_tree_smooth d : smooth (delete_tree d) (fun b => b = true).
Proof.
  intros f tr Hs. unfold delete_tree. apply wpt_bind. eapply wpt_mono; [by apply outcome_smooth|]. intros o f1 tr1 [Hs1 ->].
  by wpt_go.
Qed.

Lemma delete_snapshots_smooth l s tr : s.(fs).(script) = [] ->
  wpt (delete_snapshots l) (fun b s' _ => b = true /\ s'.(fs).(script) = []) s tr.
Proof.
  revert s tr. induction l as [|i l IH]; intros s tr Hs; cbn [delete_snapshots]; [by wpt_go|].
  apply wpt_bind, wpt_on_fs. eapply wpt_mono; [by apply delete_tree_smooth|]. intros b f1 tr1 [Hs1 ->]. by apply IH.
Qed.

Lemma init_smooth s tr : s.(fs).(script) = [] -> wpt init (fun rc s' _ => rc = OK /\ s'.(fs).(script) = []) s tr.
Proof.
  intros Hs. unfold init. apply wpt_bind, wpt_on_fs. eapply wpt_mono; [by apply outcome_smooth|]. intros o f1 tr1 [Hs1 ->].
  cbn [done_ok negb]. do 2 wpt_step. apply wpt_bind.
  match goal with |- wpt (if ?cond then _ else _) _ _ _ => assert (wpt (if cond then on_fs (delete_tree Temp) else mret true)
    (fun b s' _ => b = true /\ s'.(fs).(script) = []) (s <| fs := f1 |>) tr1) as Hclear end.
  { destruct (negb _); [|by wpt_go]. apply wpt_on_fs. eapply wpt_mono; [by apply delete_tree_smooth|]. by intros b f' tr' [? ->]. }
  eapply wpt_mono; [exact Hclear|]. intros b s2 tr2 [-> Hs2]. cbn [negb].
  apply wpt_bind, wpt_on_fs. eapply wpt_mono; [by apply outcome_smooth|]. intros o3 f3 tr3 [Hs3 ->]. cbn [done_ok negb].
  do 2 wpt_step. destruct (last _); [|by wpt_go]. apply wpt_bind. eapply wpt_mono; [by apply delete_snapshots_smooth|].
  intros b4 s4 tr4 [-> Hs4]. cbn [negb]. unfold ref, set_storage. by wpt_go.
Qed.

Lemma open_smooth_state s t v p : s.(fs).(script) = [] -> s.(storage).(_last_snapshot_index) = t -> t <> 0 ->
  view_of s.(fs) (Snap t) = Some v -> v.1 = Holds p ->
  exists s', open s = (Some (mkLocalSnapshotReader (Snap t) (load_table p) OK), s', []) /\ s'.(fs) = s.(fs) /\
    s'.(storage).(_last_snapshot_index) = t.
Proof.
  intros Hs Hl Hz Hv Hpb. unfold view_of in Hv. destruct (dirs (fs s) !! Snap t) as [x|] eqn:Hx; [|done]. injection Hv as <-. cbn in Hpb.
  eexists. unfold open, open_locked, ref, set_storage, open_read, on_fs, reader_init, load_from_file, outcome, is_dir, modify, mbind, M_bind, get, mret, M_ret.
  rewrite Hl. rewrite (proj2 (Z.eqb_neq _ _) Hz). cbn. rewrite Hx. rewrite bool_decide_true by by eexists. cbn. rewrite Hs. cbn. rewrite Hx, Hpb. done.
Qed.

(** C4: a snapshot that has been closed survives the stop of the process. The storage
    is not in [filter_before_copy_remote] mode (there [create] keeps the temporary
    directory and the copier links files between snapshots), it has one writer at a
    time, and the executor closes a writer without an error only when its snapshot is
    newer than the last. Stop the process after any section, which may be one that
    ended half way through a [close] or the deletion of an old snapshot because a call
    failed. What the calls have written is there when it starts again: the power does
    not fail. When the calls of [init] then succeed, the newest snapshot found is at
    least the last one that was in place, its files are those it was closed with,
    [open] reads its table, and no other snapshot is left on disk. *)
Theorem snapshots_survive_crashes w : reachable w ->
  let '(rc, w') := run init (restarted [] w) in
  rc = OK /\ last_index w <= last_index w' /\
  (forall k, is_Some (w'.(st).(fs).(dirs) !! Snap k) -> k = last_index w') /\
  (last_index w' = 0 \/ exists v pb,
    view_of w.(st).(fs) (Snap (last_index w')) = Some v /\ view_of w'.(st).(fs) (Snap (last_index w')) = Some v /\
    (w.(phase) <> Down -> w.(kept) !! last_index w' = Some v) /\ v.1 = Holds pb /\
    (open w'.(st)).1.1 = Some (mkLocalSnapshotReader (Snap (last_index w')) (load_table pb) OK)).
Proof.
  intros Hi%reachable_storage_inv. pose proof (i_crest _ Hi) as (t & Hc & Htop). pose proof (i_wf _ Hi) as Hw.
  pose proof (script_touches (stale t) (disk_of w) []) as Hsc. set (f := (disk_of w) <| script := [] |>) in *.
  pose proof (t_wf _ _ _ Hsc Hw) as Hwf. pose proof (stale_crest _ _ _ Hw Hsc Hc) as Hcf.
  pose proof (storage_init_spec f t _ (restarted [] w).(st) [] Hwf Hcf eq_refl eq_refl) as Hspec.
  pose proof (init_smooth (restarted [] w).(st) [] eq_refl) as Hsm.
  unfold run. unfold wpt, value_of, state_of in Hspec, Hsm. destruct (init (restarted [] w).(st)) as [[rc s] ev]. cbn [fst snd] in *.
  destruct Hsm as [-> Hscript]. change (ok OK) with true in Hspec. cbv iota in Hspec. destruct Hspec as (Ht & Hs & Honly).
  change (last_index ((restarted [] w) <| st := s |>)) with s.(storage).(_last_snapshot_index).
  assert (s.(storage).(_last_snapshot_index) = t) as Hl by (rewrite Hs; by destruct (decide (t = 0)) as [->|]).
  assert (last_index w <= t) as Hle.
  { destruct (phase w) eqn:Hp; [rewrite Htop by done; unfold top; rewrite Hp..|].
    1-4: pose proof (i_phase _ Hi) as [_ Hph]; unfold phase_ok in Hph; rewrite Hp in Hph; lia.
    pose proof (i_phase _ Hi) as [_ Hph]. unfold phase_ok in Hph. rewrite Hp in Hph. destruct Hph as [-> _]. by destruct Hc as [_ _ [? _]]. }
  rewrite Hl. split_and!; [done|done|exact Honly|].
  destruct (decide (t = 0)) as [->|Hz]; [by left|right]. destruct (crest_view _ _ Hc Hz) as (v & Hv & Hx). pose proof Hx as (pb & m & Hpb & _).
  assert (view_of s.(fs) (Snap t) = Some v) as Hv'.
  { rewrite (touches_view (stale t) f), (touches_view (stale t) (disk_of w)); try done; intros [?|(i & [= <-] & ?)]; [done|lia|done|lia]. }
  destruct (open_smooth_state s t v pb Hscript Hl Hz Hv' Hpb) as (s' & Ho & _).
  exists v, pb. split_and!; [done|exact Hv'| |done|cbn; by rewrite Ho].
  intros Hp. specialize (Htop Hp). destruct (i_intact _ Hi t (or_intror (conj Hp (conj Htop Hz)))) as (v' & Hk & Hview & _).
  rewrite Hk, <- Hview. exact Hv.
Qed.
