(* ===== verification/SnapshotCopyProofs.v ===== *)
(** * SnapshotCopyProofs: a snapshot is copied whole or not at all

    The run of a copier on a file system whose calls succeed, file by file; and that
    a table read from what was written of it is the same table. *)

From S2P Require Import Prelude Types FsmCaller SnapshotFiles SnapshotStorage SnapshotStorageProofs SnapshotStorageSafety SnapshotStorageInit SnapshotStorageProps SnapshotCopier.

(** ** Tables *)
Lemma walk_permutation m : walk m ≡ₚ map_to_list m.
Proof. apply merge_sort_Permutation. Qed.
Lemma walk_NoDup m : NoDup (walk m).*1.
Proof. rewrite walk_permutation. apply NoDup_fst_map_to_list. Qed.
Lemma walk_map m : list_to_map (walk m) = m.
Proof. rewrite <- (list_to_map_to_list m) at 2. apply list_to_map_proper; [apply walk_NoDup|apply walk_permutation]. Qed.

Lemma list_to_map_snoc_new {A} (l : list (string * A)) k x : k ∉ l.*1 -> (list_to_map (l ++ [(k, x)]) : gmap string A) = <[k := x]> (list_to_map l).
Proof.
  intros Hk. rewrite list_to_map_app. cbn. rewrite insert_empty, <- insert_union_singleton_r; [done|]. by apply not_elem_of_list_to_map_1.
Qed.

Lemma foldl_insert (l : list (string * LocalFileMeta)) (m0 : gmap string LocalFileMeta) : NoDup l.*1 -> (forall k, k ∈ l.*1 -> m0 !! k = None) ->
  foldl (fun m f => <[f.1 := f.2]> m) m0 l = list_to_map l ∪ m0.
Proof.
  revert m0. induction l as [|[k x] l IH]; intros m0 Hnd Hm0; cbn; [by rewrite (left_id_L ∅ (∪))|].
  apply NoDup_cons in Hnd as [Hk Hnd]. rewrite IH; [|done|].
  - rewrite <- insert_union_l, <- insert_union_r; [done|]. by apply not_elem_of_list_to_map_1.
  - intros j Hj. cbn. rewrite lookup_insert_ne; [apply Hm0; by right|]. intros <-. done.
Qed.

(** What is saved is what is loaded. *)
Lemma load_save_table t : load_table (save_table t) = t.
Proof.
  destruct t as [m meta]. unfold load_table, save_table. cbn. f_equal. rewrite foldl_insert, (right_id_L ∅ (∪)), walk_map; [done|apply walk_NoDup|].
  intros k _. apply lookup_empty.
Qed.

(** ** The copier *)
Lemma wpt_on_store {A} (m : StoreM A) (Q : A -> Copying -> list Event -> Prop) c tr :
  wpt m (fun a s tr => Q a (c <| store := s |>) tr) c.(store) tr -> wpt (on_store m) Q c tr.
Proof. unfold wpt, on_store, value_of, state_of, events_of. by destruct (m c.(store)) as [[a s] ev]. Qed.

Section copy.
Variable s0 : Store.
Hypothesis s0_wf : wf s0.(fs).
Variable env : CopyEnv.
Variable remote : LocalSnapshotMetaTable.

(** Before the writer is closed only [temp] has changed. *)
Record copying (c : Copying) : Prop := mkCopyingState {
  cp_store : store_touches (eq Temp) s0 c.(store);
  cp_script : c.(store).(fs).(script) = [];
  cp_reader : c.(copier).(_reader) = None;
  cp_writer w : c.(copier).(_writer) = Some w -> w.(w_path) = Temp
}.

Definition contents (pre : list (string * LocalFileMeta)) : gmap string IOBuf :=
  list_to_map ((fun f => (f.1, (env.(file_answer) f.1).(file_content))) <$> pre).
Definition copied_table (pre : list (string * LocalFileMeta)) : LocalSnapshotMetaTable :=
  mkLocalSnapshotMetaTable (list_to_map pre) remote.(_meta).

(** The files of [pre] have been copied. *)
Record copied (pre : list (string * LocalFileMeta)) (c : Copying) : Prop := mkCopied {
  cd_ok : c.(copier).(error_code) = OK;
  cd_remote : c.(copier).(_remote_snapshot) = remote;
  cd_writer : c.(copier).(_writer) = Some (mkLocalSnapshotWriter Temp (copied_table pre) OK);
  cd_view : view_of c.(store).(fs) Temp = Some (Holds (save_table (copied_table pre)), contents pre)
}.

Definition file_good (k : string) : Prop :=
  let a := env.(file_answer) k in
  (in_subdirectory k = true -> a.(sub_directory) = OK) /\ a.(file_cancelled) = false /\ a.(file_status) = OK.
#[local] Instance file_good_dec k : Decision (file_good k).
Proof. unfold file_good. apply _. Defined.

Lemma write_file_spec n b f tr : f.(script) = [] -> wf f -> is_Some (f.(dirs) !! Temp) ->
  wpt (write_file Temp n b) (fun r f' _ => r = true /\ f'.(script) = [] /\ touches (eq Temp) f f' /\
    forall v, view_of f Temp = Some v -> v.2 !! n = None -> view_of f' Temp = Some (v.1, <[n := b]> v.2)) f tr.
Proof.
  intros Hs Hw [x Hx]. destruct (write_file_touches n b f) as [Ht _]. revert Ht.
  unfold write_file, wpt, value_of, state_of, events_of, mbind, M_bind, get, outcome, mret, M_ret, modify. rewrite Hs. cbn. rewrite Hx. cbn.
  destruct (entries x !! n) as [i|] eqn:Hn; cbn; intros Ht; (split_and!; [done|done|done|]); intros v; unfold view_of; rewrite Hx; cbn; intros [= <-]; cbn.
  - rewrite lookup_fmap, Hn. done.
  - intros _. rewrite lookup_insert_eq. cbn. unfold view. cbn. rewrite fmap_insert. do 2 f_equal. f_equal; [unfold bytes_of; cbn; by rewrite lookup_insert_eq|].
    apply map_fmap_ext. intros m j Hj. unfold bytes_of. cbn. rewrite lookup_insert_ne; [done|].
    pose proof (wf_fresh _ Hw _ _ _ _ Hx Hj). lia.
Qed.

Lemma sync_smooth w f tr : f.(script) = [] -> w.(w_path) = Temp -> is_Some (f.(dirs) !! Temp) ->
  wpt (writer_sync w) (fun r f' _ => r = (OK, w) /\ f'.(script) = [] /\ touches (eq Temp) f f' /\
    forall v, view_of f Temp = Some v -> view_of f' Temp = Some (Holds (save_table w.(w_table)), v.2)) f tr.
Proof.
  intros Hs Hp [x Hx]. destruct (writer_sync_touches w f) as [Ht _]. rewrite Hp in Ht. revert Ht.
  unfold writer_sync, save_to_file, wpt, value_of, state_of, events_of, mbind, M_bind, get, outcome, mret, M_ret, modify.
  rewrite Hs, Hp. cbn. rewrite Hx. cbn. intros Ht. split_and!; [done|done|done|]. intros v. unfold view_of. rewrite Hx. cbn. intros [= <-].
  by rewrite lookup_insert_eq.
Qed.

(** A change of the copier alone. *)
Lemma copying_copier c k : copying c -> k.(_reader) = None -> (forall w, k.(_writer) = Some w -> w.(w_path) = Temp) -> copying (c <| copier := k |>).
Proof. intros [H1 H2 H3 H4]. by split. Qed.

(** A step of the storage. *)
Lemma copying_fs c f' : copying c -> touches (eq Temp) c.(store).(fs) f' -> f'.(script) = [] -> copying (c <| store := c.(store) <| fs := f' |> |>).
Proof. intros [[H1 H1'] H2 H3 H4] Ht Hs. split; try done. split; [done|]. by etransitivity. Qed.

Lemma copying_wf c : copying c -> wf c.(store).(fs).
Proof. intros [[_ Ht] _ _ _]. by apply (t_wf _ _ _ Ht). Qed.

Definition failed (c : Copying) : Prop := c.(copier).(error_code) <> OK.

Lemma set_bad_spec c b e tr : copying c -> (b = true -> ok e = false) ->
  wpt (when b (set_error e)) (fun _ c' _ => copying c' /\ c'.(store) = c.(store) /\ c'.(copier).(_writer) = c.(copier).(_writer) /\
    c'.(copier).(_remote_snapshot) = c.(copier).(_remote_snapshot) /\ if b then failed c' else c' = c) c tr.
Proof.
  intros Hc He. apply wpt_when; intros ->; [|done]. unfold set_error, set_copier. wpt_go.
  split; [by apply copying_copier; [|apply Hc|apply Hc]|]. split_and!; try done.
  unfold failed. cbn. intros ->. by specialize (He eq_refl).
Qed.

Lemma copy_file_spec pre k m c tr : copying c -> copied pre c -> k ∉ pre.*1 -> remote.(_file_map) !! k = Some m ->
  wpt (copy_file env k) (fun _ c' _ => copying c' /\
    ((file_good k /\ copied (pre ++ [(k, m)]) c') \/ (failed c' /\ ~ file_good k))) c tr.
Proof.
  intros Hc [Hok Hrem Hwr Hview] Hk Hm. pose proof Hc as [[C1 C1'] C2 C3 C4]. unfold copy_file, with_writer.
  do 2 wpt_step. rewrite Hwr. unfold get_file_meta at 1. cbn [w_table copied_table _file_map].
  rewrite not_elem_of_list_to_map_1 by done. set (a := env.(file_answer) k).
  set (bad := in_subdirectory k && negb (ok a.(sub_directory))).
  apply wpt_bind. eapply wpt_mono; [apply (set_bad_spec c bad a.(sub_directory) tr Hc); subst bad; by intros [_ ?%negb_true_iff]%andb_true_iff|].
  intros [] c1 tr1 (Hc1 & Hs1 & Hw1 & Hr1 & Hf1). do 2 wpt_step. rewrite Hr1, Hrem.
  unfold get_file_meta. rewrite Hm. cbn [default].
  destruct a.(file_cancelled) eqn:Hca.
  { unfold set_error, set_copier. wpt_go. split; [by apply copying_copier; [|apply Hc1|apply Hc1]|right]. split; [done|].
    intros (_ & Hg & _). subst a. congruence. }
  pose proof (copying_wf c1 Hc1) as Hwf1.
  assert (is_Some (c1.(store).(fs).(dirs) !! Temp)) as Hd1.
  { rewrite Hs1. unfold view_of in Hview. destruct (dirs _ !! Temp); [by eexists|done]. }
  apply wpt_bind, wpt_on_store, wpt_on_fs. eapply wpt_mono; [by apply (write_file_spec k a.(file_content)); [apply Hc1|..]|].
  intros b f2 tr2 (-> & Hs2 & Ht2 & Hv2). cbn [negb].
  pose proof (copying_fs c1 f2 Hc1 Ht2 Hs2) as Hc2. set (c2 := c1 <| store := c1.(store) <| fs := f2 |> |>) in *.
  destruct (ok a.(file_status)) eqn:Hst; cbn [negb].
  2:{ unfold set_error, set_copier. wpt_go. split; [by apply copying_copier; [|apply Hc2|apply Hc2]|right]. split.
      - unfold failed. cbn. intros He. by rewrite He in Hst.
      - intros (_ & _ & Hg). subst a. by rewrite Hg in Hst. }
  assert (writer_add_file k (Some m) (mkLocalSnapshotWriter Temp (copied_table pre) OK) =
    (OK, mkLocalSnapshotWriter Temp (copied_table (pre ++ [(k, m)])) OK)) as Hadd.
  { unfold writer_add_file, table_add_file. cbn [default w_table copied_table _file_map]. rewrite not_elem_of_list_to_map_1 by done.
    unfold copied_table. by rewrite list_to_map_snoc_new. }
  change (Datatypes.id m) with m. rewrite Hadd. set (w' := mkLocalSnapshotWriter Temp _ OK). cbn [negb].
  assert (view_of f2 Temp = Some (Holds (save_table (copied_table pre)), contents (pre ++ [(k, m)]))) as Hview2.
  { assert (contents pre !! k = None) as Hno.
    { apply not_elem_of_list_to_map_1. rewrite <- list_fmap_compose. exact Hk. }
    rewrite (Hv2 (Holds (save_table (copied_table pre)), contents pre)); [|by rewrite Hs1|done].
    unfold contents. rewrite fmap_app. cbn. by rewrite list_to_map_snoc_new by by rewrite <- list_fmap_compose. }
  assert (is_Some (f2.(dirs) !! Temp)) as Hd2 by (unfold view_of in Hview2; destruct (dirs f2 !! Temp); [by eexists|done]).
  unfold set_writer, set_copier. do 2 wpt_step. apply wpt_bind, wpt_on_store, wpt_on_fs.
  eapply wpt_mono; [by apply (sync_smooth w')|]. intros r f3 tr3 (-> & Hs3 & Ht3 & Hv3). wpt_go; [done|].
  match goal with |- copying ?x /\ _ => assert (copying x) as Hc3 end.
  { pose proof (copying_copier (c2 <| store := c2.(store) <| fs := f3 |> |>) (c2.(copier) <| _writer := Some w' |>)) as Hk3.
    apply Hk3; [by apply (copying_fs c2)|apply Hc1|]. by intros w [= <-]. }
  split; [exact Hc3|]. destruct bad eqn:Hb.
  - right. split; [exact Hf1|]. intros (Hg & _). subst bad. apply andb_true_iff in Hb as [Hin Hn]. subst a. by rewrite (Hg Hin) in Hn.
  - left. subst c1. split; [|split; [exact Hok|exact Hrem|done|exact (Hv3 _ Hview2)]]. split_and!; [|done|by apply ok_true].
    intros Hin. subst bad. rewrite Hin in Hb. by apply negb_false_iff, ok_true in Hb.
Qed.

Lemma copy_files_stop l c tr : failed c -> wpt (copy_files env l) (fun _ c' _ => c' = c) c tr.
Proof.
  intros Hf. destruct l as [|k l]; cbn [copy_files]; [by wpt_go|]. do 2 wpt_step.
  assert (copier_ok c = false) as -> by (apply not_true_iff_false; by intros He%ok_true).
  by wpt_go.
Qed.

Lemma copy_files_spec l pre c tr : copying c -> copied pre c -> walk remote.(_file_map) = pre ++ l ->
  wpt (copy_files env l.*1) (fun _ c' _ => copying c' /\
    ((Forall file_good l.*1 /\ copied (pre ++ l) c') \/ (failed c' /\ ~ Forall file_good l.*1))) c tr.
Proof.
  revert pre c tr. induction l as [|[k m] l IH]; intros pre c tr Hc Hcd Hw; cbn [fmap list_fmap fst copy_files].
  { wpt_go. split; [done|]. left. split; [constructor|by rewrite app_nil_r]. }
  assert (NoDup (pre ++ (k, m) :: l).*1) as Hnd by (rewrite <- Hw; apply walk_NoDup).
  assert (remote.(_file_map) !! k = Some m) as Hm.
  { rewrite <- (walk_map remote.(_file_map)), Hw. apply elem_of_list_to_map_1; [done|]. apply elem_of_app. right. apply list_elem_of_here. }
  assert (k ∉ pre.*1) as Hk.
  { rewrite fmap_app in Hnd. apply NoDup_app in Hnd as (_ & Hnd & _). intros Hin. apply (Hnd k Hin). apply list_elem_of_here. }
  do 2 wpt_step. assert (copier_ok c = true) as -> by (unfold copier_ok; by rewrite (cd_ok _ _ Hcd)).
  cbn [when]. apply wpt_bind. eapply wpt_mono; [by apply (copy_file_spec pre k m c)|].
  intros [] c1 tr1 [Hc1 [[Hg Hcd1]|[Hf Hb]]].
  - eapply wpt_mono; [apply (IH (pre ++ [(k, m)])); [done|done|by rewrite <- app_assoc]|].
    intros [] c2 tr2 [Hc2 [[Hg2 Hcd2]|[Hf2 Hb2]]]; (split; [done|]).
    + left. split; [by constructor|]. by rewrite <- app_assoc in Hcd2.
    + right. split; [done|]. by intros [_ ?]%Forall_cons.
  - eapply wpt_mono; [by apply copy_files_stop|]. intros [] c2 tr2 ->. split; [done|]. right. split; [done|].
    by intros [? _]%Forall_cons.
Qed.
End copy.

(** ** The storage when no call fails *)
Lemma wpt_exact {S E A} (m : M S E A) a s' ev (Q : A -> S -> list E -> Prop) s tr : m s = (a, s', ev) -> Q a s' (tr ++ ev) -> wpt m Q s tr.
Proof. unfold wpt, value_of, state_of, events_of. by intros ->. Qed.

Section exact.
Variable f : SnapFs.
Hypothesis f_smooth : f.(script) = [].

Lemma outcome_exact : outcome f = (FsOk, f, []).
Proof. unfold outcome. by rewrite f_smooth. Qed.
Lemma delete_tree_exact d : delete_tree d f = (true, f <| dirs := delete d f.(dirs) |>, []).
Proof. unfold delete_tree, mbind, M_bind, get, modify, mret, M_ret. by rewrite outcome_exact. Qed.
Lemma create_directory_exact d : f.(dirs) !! d = None -> create_directory d f = (true, set_dir d empty_dir f, []).
Proof.
  intros Hd. unfold create_directory, mbind, M_bind, get, modify, mret, M_ret, is_dir. rewrite outcome_exact. cbn. rewrite Hd.
  by rewrite bool_decide_false by by intros [].
Qed.
Lemma directory_reader_exact d x : f.(dirs) !! d = Some x -> directory_reader d f =
  (Some (filter (fun n => in_subdirectory n = false) (elements (dom x.(entries)))), f, []).
Proof. intros Hd. unfold directory_reader, mbind, M_bind, get, mret, M_ret. rewrite outcome_exact. cbn. by rewrite Hd. Qed.
Lemma rename_exact to x : f.(dirs) !! Temp = Some x -> f.(dirs) !! to = None ->
  rename Temp to f = (true, f <| dirs := <[to := x]> (delete Temp f.(dirs)) |>, []).
Proof.
  intros Hx Hto. unfold rename, mbind, M_bind, get, modify, mret, M_ret. rewrite outcome_exact. cbn. rewrite Hx, Hto. done.
Qed.
End exact.

Lemma create_smooth s tr : s.(fs).(script) = [] ->
  wpt (create true) (fun wr s' _ => wr = Some (LocalSnapshotWriter_new Temp) /\ store_touches (eq Temp) s s' /\
    s'.(fs).(script) = [] /\ view_of s'.(fs) Temp = Some (NoFile, ∅)) s tr.
Proof.
  intros Hs. destruct (create_touches true s) as [Ht _].
  enough (wpt (create true) (fun wr s' _ => wr = Some (LocalSnapshotWriter_new Temp) /\ s'.(fs).(script) = [] /\
    s'.(fs).(dirs) !! Temp = Some empty_dir) s tr) as (H1 & H2 & H3).
  { split_and!; [exact H1|exact Ht|exact H2|]. unfold view_of. by rewrite H3. }
  unfold create. do 2 wpt_step. rewrite andb_true_r. apply wpt_bind.
  assert (wpt (if is_dir s.(fs) Temp then rc ← destroy_snapshot Temp; mret (ok rc) else mret true)
    (fun b s1 _ => b = true /\ s1.(fs).(script) = [] /\ s1.(fs).(dirs) !! Temp = None) s tr) as Hclear.
  { unfold is_dir. case_bool_decide as Hd; [|wpt_go; split_and!; [done|done|by apply eq_None_not_Some]].
    unfold destroy_snapshot. apply wpt_bind, wpt_bind, wpt_on_fs. eapply wpt_exact; [by apply delete_tree_exact|].
    wpt_go. split_and!; [done|done|]. cbn. by rewrite lookup_delete_eq. }
  eapply wpt_mono; [exact Hclear|]. intros b s1 tr1 (-> & Hs1 & Hd1). cbn [negb]. apply wpt_bind, wpt_on_fs.
  unfold writer_init. cbn [w_path LocalSnapshotWriter_new]. apply wpt_bind. eapply wpt_exact; [by apply create_directory_exact|].
  cbn [negb]. do 2 wpt_step. cbn [dirs set_dir]. assert ((set_dir Temp empty_dir s1.(fs)).(dirs) !! Temp = Some empty_dir) as He by by cbn; rewrite lookup_insert_eq.
  rewrite He. cbn [meta_file empty_dir]. wpt_step. wpt_step. apply wpt_bind. eapply wpt_exact; [exact (directory_reader_exact (set_dir Temp empty_dir s1.(fs)) Hs1 Temp empty_dir He)|].
  apply wpt_bind. unfold delete_entries. cbn. wpt_go. by split_and!.
Qed.

Lemma close_rename_smooth s tbl new b tr : s.(fs).(script) = [] -> wf s.(fs) ->
  option_map last_included_index tbl.(_meta) = Some new -> new <> s.(storage).(_last_snapshot_index) ->
  option_map snd (view_of s.(fs) Temp) = Some b ->
  wpt (close_rename (mkLocalSnapshotWriter Temp tbl OK)) (fun r s' _ => r = (OK, (s.(storage).(_last_snapshot_index), new)) /\
    s'.(storage) = s.(storage) /\ s'.(fs).(script) = [] /\ wf s'.(fs) /\
    view_of s'.(fs) (Snap new) = Some (Holds (save_table tbl), b) /\
    forall k, k <> new -> view_of s'.(fs) (Snap k) = view_of s.(fs) (Snap k)) s tr.
Proof.
  intros Hs Hw Hm Hne Hb. set (wr := mkLocalSnapshotWriter Temp tbl OK).
  assert (writer_snapshot_index wr = new) as Hix by (unfold writer_snapshot_index; cbn; destruct (_meta tbl); [by injection Hm|done]).
  assert (is_Some (s.(fs).(dirs) !! Temp)) as Hd by (unfold view_of in Hb; destruct (dirs s.(fs) !! Temp); [by eexists|done]).
  destruct (view_of s.(fs) Temp) as [v|] eqn:Hv; [|done]. injection Hb as <-.
  unfold close_rename. change (ok (w_error wr)) with true. cbn [negb]. apply wpt_bind, wpt_on_fs.
  eapply wpt_mono; [by apply sync_smooth|]. intros r f1 tr1 (-> & Hs1 & Ht1 & Hv1). specialize (Hv1 v Hv). cbn [w_table wr] in Hv1.
  change (ok OK) with true. cbn [negb]. do 2 wpt_step. rewrite Hix.
  match goal with |- context [new =? ?x] => change x with s.(storage).(_last_snapshot_index) end.
  rewrite (proj2 (Z.eqb_neq _ _) Hne).
  apply wpt_bind, wpt_on_fs. eapply wpt_exact; [by apply delete_tree_exact|]. cbn [negb]. set (f2 := f1 <| dirs := delete (Snap new) f1.(dirs) |>).
  destruct (delete_tree_touches (Snap new) f1) as [Ht2 _]. unfold state_of in Ht2. rewrite delete_tree_exact in Ht2 by done.
  change (touches (eq (Snap new)) f1 f2) in Ht2.
  destruct (dirs f1 !! Temp) as [x|] eqn:Hx; [|by unfold view_of in Hv1; rewrite Hx in Hv1].
  assert (f2.(dirs) !! Temp = Some x) as Hx2 by (cbn; by rewrite lookup_delete_ne).
  assert (f2.(dirs) !! Snap new = None) as Hn2 by (cbn; by rewrite lookup_delete_eq).
  apply wpt_bind, wpt_on_fs. eapply wpt_exact; [exact (rename_exact f2 Hs1 (Snap new) x Hx2 Hn2)|]. cbn [negb]. apply wpt_ret.
  set (f3 := f2 <| dirs := _ |>). assert (renamed f2 f3 (Snap new) x) as Hrn by by split.
  pose proof (t_wf _ _ _ Ht1 Hw) as Hw1. pose proof (t_wf _ _ _ Ht2 Hw1) as Hw2.
  unfold view_of in Hv1. rewrite Hx in Hv1. apply Some_inj in Hv1.
  split_and!; try done.
  - by eapply wf_renamed.
  - cbn. rewrite (view_renamed f2 f3 (Snap new) x), decide_True by done. f_equal. exact Hv1.
  - intros k Hk. cbn. rewrite (view_renamed f2 f3 (Snap new) x), decide_False by (done || congruence).
    rewrite (touches_view (eq (Snap new)) f1) by (done || congruence). by rewrite (touches_view (eq Temp) s.(fs)).
Qed.

Lemma unref_smooth i s tr : s.(fs).(script) = [] -> wf s.(fs) ->
  wpt (unref i) (fun _ s' _ => s'.(storage).(_last_snapshot_index) = s.(storage).(_last_snapshot_index) /\ s'.(fs).(script) = [] /\
    forall k, k <> i -> view_of s'.(fs) (Snap k) = view_of s.(fs) (Snap k)) s tr.
Proof.
  intros Hs Hw. unfold unref, unref_locked, set_storage, destroy_old, destroy_snapshot. apply wpt_bind. do 2 wpt_step.
  destruct (_ref_map _ !! i) as [n|]; [|by wpt_go]. destruct (n - 1 =? 0); [|by wpt_go].
  wpt_go; [|done]. apply wpt_on_fs. eapply wpt_exact; [by apply delete_tree_exact|]. wpt_go. split_and!; [done|done|].
  intros k Hk. cbn. destruct (delete_tree_touches (Snap i) s.(fs)) as [Ht _]. unfold state_of in Ht.
  rewrite delete_tree_exact in Ht by done. apply (touches_view (eq (Snap i))); [exact Ht|done|congruence].
Qed.

Lemma close_smooth s tbl new b tr : s.(fs).(script) = [] -> wf s.(fs) ->
  option_map last_included_index tbl.(_meta) = Some new -> new <> s.(storage).(_last_snapshot_index) ->
  option_map snd (view_of s.(fs) Temp) = Some b ->
  wpt (close (mkLocalSnapshotWriter Temp tbl OK) false) (fun rc s' _ => rc = OK /\
    s'.(storage).(_last_snapshot_index) = new /\ s'.(fs).(script) = [] /\
    view_of s'.(fs) (Snap new) = Some (Holds (save_table tbl), b) /\
    forall k, k <> new -> k <> s.(storage).(_last_snapshot_index) -> view_of s'.(fs) (Snap k) = view_of s.(fs) (Snap k)) s tr.
Proof.
  intros Hs Hw Hm Hne Hb. unfold close. apply wpt_bind. eapply wpt_mono; [by apply close_rename_smooth|].
  intros r s1 tr1 (-> & Hst & Hs1 & Hw1 & Hv1 & Ho1). change (ok OK) with true. cbv iota.
  unfold ref, close_switch, check_that, close_failed, set_storage. wpt_go.
  all: match goal with |- wpt (unref ?i) _ ?x ?y => eapply wpt_mono; [exact (unref_smooth i x y Hs1 Hw1)|] end.
  all: intros [] s2 tr2 (Hl2 & Hs2 & Ho2); cbn in Hl2.
  all: change (ok OK) with true; cbn [negb andb]; wpt_go; try done; split_and!; [done|done|done| |].
  all: try (rewrite Ho2 by done; exact Hv1).
  all: intros k Hk Hk'; rewrite Ho2 by done; by apply Ho1.
Qed.

Lemma contents_lookup env l n :
  contents env l !! n = (fun _ => (env.(file_answer) n).(file_content)) <$> ((list_to_map l : gmap string LocalFileMeta) !! n).
Proof.
  unfold contents. induction l as [|[k m] l IH]; cbn; [done|]. destruct (decide (k = n)) as [->|Hne].
  - by rewrite !lookup_insert_eq.
  - by rewrite !lookup_insert_ne.
Qed.

(** ** One copy *)
Section whole.
Variable s0 : Store.
Hypothesis s0_wf : wf s0.(fs).
Hypothesis s0_smooth : s0.(fs).(script) = [].
Hypothesis s0_plain : s0.(storage).(_filter_before_copy_remote) = false /\ s0.(storage).(_copy_file) = true.
Variable env : CopyEnv.
Variable pb : LocalSnapshotPbMeta.
Hypothesis env_buf : env.(meta_answer).(meta_buf) = Some pb.
Variable new : Z.
Hypothesis pb_new : option_map last_included_index pb.(pb_meta) = Some new.
Hypothesis new_last : new <> 0 /\ new <> s0.(storage).(_last_snapshot_index).

Abbreviation remote := (load_table pb).

(** Nothing goes wrong on the peer's side. *)
Definition all_good : Prop :=
  env.(meta_answer).(meta_cancelled) = false /\ env.(meta_answer).(meta_status) = OK /\ Forall (file_good env) (list_files remote).

Definition copy_done (c : Copying) : Prop :=
  c.(copier).(error_code) = OK /\ c.(store).(storage).(_last_snapshot_index) = new /\
  c.(copier).(_reader) = Some (mkLocalSnapshotReader (Snap new) remote OK) /\
  exists b, view_of c.(store).(fs) (Snap new) = Some (Holds (save_table remote), b) /\
    forall n, b !! n = (fun _ => (env.(file_answer) n).(file_content)) <$> remote.(_file_map) !! n.
Definition copy_undone (c : Copying) : Prop :=
  c.(copier).(error_code) <> OK /\ c.(copier).(_reader) = None /\ c.(store).(storage) = s0.(storage) /\
  forall k, view_of c.(store).(fs) (Snap k) = view_of s0.(fs) (Snap k).

(** After the loading of the table, and after the copying of the files. *)
Definition loaded (c : Copying) : Prop :=
  copying s0 c /\ c.(copier).(_writer) = None /\
  ((env.(meta_answer).(meta_cancelled) = false /\ env.(meta_answer).(meta_status) = OK /\ c.(copier).(error_code) = OK /\
    c.(copier).(_remote_snapshot) = remote) \/
   (failed c /\ ~ (env.(meta_answer).(meta_cancelled) = false /\ env.(meta_answer).(meta_status) = OK))).
Definition fetched (c : Copying) : Prop :=
  copying s0 c /\ ((all_good /\ copied env remote (walk remote.(_file_map)) c) \/ (failed c /\ ~ all_good)).

Lemma load_meta_table_spec c tr : c = mkCopying s0 LocalSnapshotCopier_new -> wpt (load_meta_table env.(meta_answer)) (fun _ c' _ => loaded c') c tr.
Proof.
  intros ->. assert (copying s0 (mkCopying s0 LocalSnapshotCopier_new)) as Hc by by split.
  assert (forall k, k.(_reader) = None -> k.(_writer) = None -> copying s0 (mkCopying s0 k)) as Hk.
  { intros k Hr Hw. split; [done|done|done|]. cbn. by rewrite Hw. }
  unfold load_meta_table, set_error, set_copier. destruct env.(meta_answer) as [mc ms mb] eqn:Ha. cbn in *.
  destruct mc; [wpt_go; split; [by apply Hk|split; [done|right]]; rewrite Ha; split; [done|by intros []]|].
  destruct (ok ms) eqn:Hms; cbn [negb].
  2:{ wpt_go. split; [by apply Hk|split; [done|right]]. rewrite Ha. split; [unfold failed; cbn; intros ->; done|]. intros [_ Hm]. cbn in Hm. by rewrite Hm in Hms. }
  apply ok_true in Hms as ->. rewrite env_buf. cbn [load_from_iobuf_as_remote]. do 2 wpt_step. change (ok OK) with true. cbn [negb]. wpt_go.
  all: split; [by apply Hk|split; [done|left]]; by rewrite Ha.
Qed.

Lemma filter_remote_spec c tr : copying s0 c -> c.(copier).(error_code) = OK -> c.(copier).(_remote_snapshot) = remote ->
  wpt filter_remote (fun _ c' _ => copying s0 c' /\ copied env remote [] c') c tr.
Proof.
  intros Hc Hok Hr. pose proof Hc as [[C1 C1'] C2 C3 C4]. unfold filter_remote, set_error, set_writer, set_copier.
  do 2 wpt_step. assert (c.(store).(storage).(_filter_before_copy_remote) = false) as -> by (rewrite C1; apply s0_plain).
  cbn [negb]. apply wpt_bind, wpt_on_store. eapply wpt_mono; [by apply create_smooth|]. intros wr s1 tr1 (-> & [St1 Ht1] & Hs1 & Hv1).
  cbn [when]. wpt_go.
  match goal with |- wpt _ _ ?x _ => set (c1 := x) end.
  change (c1.(copier).(_writer)) with (Some (LocalSnapshotWriter_new Temp)). cbv iota.
  change (c1.(copier).(_remote_snapshot)) with c.(copier).(_remote_snapshot). rewrite Hr.
  set (w1 := writer_save_meta remote.(_meta) (LocalSnapshotWriter_new Temp)).
  assert (is_Some (s1.(fs).(dirs) !! Temp)) as Hd1 by (unfold view_of in Hv1; destruct (dirs s1.(fs) !! Temp); [by eexists|done]).
  apply wpt_bind, wpt_on_store, wpt_on_fs. eapply wpt_mono; [by apply (sync_smooth w1)|]. intros r f2 tr2 (-> & Hs2 & Ht2 & Hv2).
  specialize (Hv2 _ Hv1). change (ok OK) with true. cbn [negb when]. wpt_go.
  split; split; cbn; try done.
  - split; [exact (eq_trans St1 C1)|]. etransitivity; [exact C1'|]. by etransitivity.
  - by intros w [= <-].
Qed.

(** The writer is closed. *)
Lemma close_copied c tr : copying s0 c -> copied env remote (walk remote.(_file_map)) c ->
  wpt close_writer (fun _ c' _ => c'.(copier).(error_code) = OK /\ c'.(store).(storage).(_last_snapshot_index) = new /\
    c'.(store).(fs).(script) = [] /\ view_of c'.(store).(fs) (Snap new) = Some (Holds (save_table remote), contents env (walk remote.(_file_map)))) c tr.
Proof.
  intros Hc [Hok Hr Hw Hv]. pose proof Hc as [[C1 C1'] C2 C3 C4].
  assert (copied_table remote (walk remote.(_file_map)) = remote) as Htab.
  { unfold copied_table. rewrite walk_map. by destruct remote. }
  rewrite Htab in *. unfold close_writer, set_error, set_writer, set_copier. do 2 wpt_step. rewrite Hw.
  unfold copier_ok. rewrite Hok. change (ok OK) with true. cbn [negb andb].
  rewrite C1, (proj1 s0_plain). apply wpt_bind, wpt_on_store.
  eapply wpt_mono; [apply (close_smooth c.(store) remote new (contents env (walk remote.(_file_map))))|].
  - exact C2.
  - by apply (copying_wf s0 s0_wf).
  - exact pb_new.
  - rewrite C1. apply new_last.
  - by rewrite Hv.
  - intros rc s1 tr1 (-> & Hl & Hs1 & Hv1 & _). change (ok OK) with true. cbn [negb andb when]. wpt_go. by split_and!.
Qed.

Lemma close_failed_writer c tr : copying s0 c -> failed c ->
  wpt close_writer (fun _ c' _ => copy_undone c') c tr.
Proof.
  intros Hc Hf. pose proof Hc as [[C1 C1'] C2 C3 C4].
  assert (copier_ok c = false) as Hn by (apply not_true_iff_false; by intros He%ok_true).
  assert (forall s, store_touches (eq Temp) s0 s -> s.(storage) = s0.(storage) /\ forall k, view_of s.(fs) (Snap k) = view_of s0.(fs) (Snap k)) as Hend.
  { intros s [Hs Ht]. split; [done|]. intros k. by apply (touches_view (eq Temp)). }
  unfold close_writer, set_error, set_writer, set_copier. do 2 wpt_step.
  destruct c.(copier).(_writer) as [w|] eqn:Hw; [|wpt_go; split_and!; [done|done|apply Hend..]; by split].
  rewrite Hn. cbn [negb andb]. set (w' := if ok w.(w_error) then set_writer_error c.(copier).(error_code) w else w).
  assert (ok w'.(w_error) = false /\ w'.(w_path) = Temp) as [He Hp].
  { subst w'. pose proof (C4 w eq_refl). destruct (ok w.(w_error)) eqn:Hwe; [|done]. split; [|done]. apply not_true_iff_false. by intros Ho%ok_true. }
  apply wpt_bind, wpt_on_store. unfold close, close_rename. rewrite He. cbn [negb]. apply wpt_bind, wpt_ret. rewrite He.
  wpt_step. wpt_step. apply wpt_bind. eapply wpt_obeys; [apply close_failed_touches|]. intros [] s1 ev Ht _. rewrite Hp in Ht.
  assert (store_touches (eq Temp) s0 s1) as Ht1 by (etransitivity; [exact (mkStoreTouches _ _ _ C1 C1')|exact Ht]).
  destruct (Hend s1 Ht1) as [Hst Hview]. apply wpt_ret. rewrite andb_false_r. cbn [when]. wpt_go. by split_and!.
Qed.

Lemma fetch_spec tr : wpt (load_meta_table env.(meta_answer) ;;
    c ← get;
    when (copier_ok c)
      (filter_remote ;;
       c ← get;
       when (copier_ok c && c.(store).(storage).(_copy_file)) (copy_files env (list_files c.(copier).(_remote_snapshot)))))
  (fun _ c' _ => fetched c') (mkCopying s0 LocalSnapshotCopier_new) tr.
Proof.
  apply wpt_bind. eapply wpt_mono; [by apply load_meta_table_spec|]. intros [] c1 tr1 (Hc1 & Hw1 & Hcase). do 2 wpt_step.
  destruct Hcase as [(Hm & Hst & Hok & Hr)|[Hf Hb]].
  - assert (copier_ok c1 = true) as -> by (unfold copier_ok; by rewrite Hok). cbn [when].
    apply wpt_bind. eapply wpt_mono; [by apply filter_remote_spec|]. intros [] c2 tr2 [Hc2 Hcd]. do 2 wpt_step.
    assert (copier_ok c2 && c2.(store).(storage).(_copy_file) = true) as ->.
    { unfold copier_ok. rewrite (cd_ok _ _ _ _ Hcd), (st_storage _ _ _ (cp_store _ _ Hc2)), (proj2 s0_plain). done. }
    cbn [when]. rewrite (cd_remote _ _ _ _ Hcd). unfold list_files.
    eapply wpt_mono; [by apply (copy_files_spec s0 s0_wf env remote (walk remote.(_file_map)) [])|].
    intros [] c3 tr3 [Hc3 [[Hg Hcd3]|[Hf Hb]]]; (split; [done|]); [left|right; split; [done|]].
    + split; [by split_and!|exact Hcd3].
    + by intros (_ & _ & ?).
  - assert (copier_ok c1 = false) as -> by (apply not_true_iff_false; by intros He%ok_true). cbn [when]. wpt_go.
    split; [done|]. right. split; [done|]. intros (? & ? & _). by apply Hb.
Qed.

Lemma copy_spec tr : wpt (copy env) (fun _ c' _ => (all_good /\ copy_done c') \/ (~ all_good /\ copy_undone c')) (mkCopying s0 LocalSnapshotCopier_new) tr.
Proof.
  unfold copy. apply wpt_bind. eapply wpt_mono; [exact (wpt_bind_inv _ _ _ _ _ (fetch_spec tr))|].
  intros [] c1 tr1 Hfetch. apply wpt_bind_inv in Hfetch. unfold wpt in Hfetch at 1. cbn in Hfetch.
  do 2 wpt_step. apply wpt_bind. rewrite app_nil_r in Hfetch. eapply wpt_mono; [exact Hfetch|]. clear Hfetch.
  intros [] c2 tr2 [Hc2 [[Hg Hcd]|[Hf Hb]]]; apply wpt_bind.
  - eapply wpt_mono; [by apply close_copied|]. intros [] c3 tr3 (Hok & Hl & Hs3 & Hv3). do 2 wpt_step.
    unfold copier_ok. rewrite Hok. change (ok OK) with true. cbn [when]. apply wpt_bind, wpt_on_store.
    destruct (open_smooth_state c3.(store) new _ _ Hs3 Hl (proj1 new_last) Hv3 eq_refl) as (s4 & Ho & Hfs & Hl4).
    rewrite load_save_table in Ho. eapply wpt_exact; [exact Ho|]. unfold set_copier. wpt_go. left. split; [done|].
    split_and!; [exact Hok|exact Hl4|done|]. exists (contents env (walk remote.(_file_map))).
    split; [cbn; rewrite Hfs; exact Hv3|]. intros n. by rewrite contents_lookup, walk_map.
  - eapply wpt_mono; [by apply close_failed_writer|]. intros [] c3 tr3 Hu. do 2 wpt_step.
    assert (copier_ok c3 = false) as -> by (apply not_true_iff_false; intros He%ok_true; by destruct Hu). cbn [when]. wpt_go.
    by right.
Qed.
End whole.

(** C22: a snapshot is copied whole or not at all, whatever the peer answers, when no
    call of the file system fails, in a storage whose files belong to one directory
    each, that copies files ([_copy_file]) and does not filter before it copies, and
    the peer's table is of an index that is neither 0 nor that of the storage's last
    snapshot. If every answer is good the copier ends without an error, with a reader
    of the new snapshot, which is now the storage's last one and holds the peer's
    table and for each of its files the bytes the peer sent; if a file, or the table,
    could not be fetched, or the copy was cancelled before one of them, it ends with
    an error and without a reader, and every snapshot of the storage is as it was.
    When a sync fails it ends without an error and with the old snapshot instead:
    [SnapshotStorageExamples.copier_opens_the_old_snapshot]. *)
Theorem copy_all_or_nothing s env pb new : wf s.(fs) -> s.(fs).(script) = [] ->
  s.(storage).(_filter_before_copy_remote) = false /\ s.(storage).(_copy_file) = true ->
  env.(meta_answer).(meta_buf) = Some pb -> option_map last_included_index pb.(pb_meta) = Some new ->
  new <> 0 /\ new <> s.(storage).(_last_snapshot_index) ->
  let c := (copy env (mkCopying s LocalSnapshotCopier_new)).1.2 in
  (all_good env pb /\ copy_done env pb new c) \/ (~ all_good env pb /\ copy_undone s c).
Proof. intros Hw Hs Hp Hb Hn Hl. exact (copy_spec s Hw Hs Hp env pb Hb new Hn Hl []). Qed.

(** * What a copier keeps of the files it has

    The loops of [filter_before_copy], for any last snapshot and any outcome of its
    calls. *)


Lemma walk_keys (m : gmap string LocalFileMeta) n x : m !! n = Some x -> n ∈ (walk m).*1.
Proof.
  intros Hn. apply (list_elem_of_fmap_2 fst _ (n, x)). rewrite walk_permutation. by apply elem_of_map_to_list.
Qed.

Section filter.
Variable remote : LocalSnapshotMetaTable.
Variable last_snapshot : option LocalSnapshotReader.
Variable table0 : LocalSnapshotMetaTable.

(** Where an entry that is kept may come from. *)
Definition from_local (n : string) (m : LocalFileMeta) : Prop :=
  get_file_meta table0 n = Some m \/ exists r, last_snapshot = Some r /\ get_file_meta r.(r_table) n = Some m.
Definition kept_entry (n : string) (m : LocalFileMeta) : Prop :=
  exists rm c, get_file_meta remote n = Some rm /\ rm.(checksum_field) = Some c /\ m.(checksum_field) = Some c /\ from_local n m.

Lemma kept_when_same n m rm : get_file_meta remote n = Some rm -> has_checksum rm = true -> same_checksum m rm = true ->
  from_local n m -> kept_entry n m.
Proof.
  unfold same_checksum, has_checksum, checksum. rewrite andb_true_iff, !bool_decide_eq_true. intros Hr Hc [Hm Heq] Hl.
  destruct (checksum_field rm) as [c|] eqn:Hrc; [|done]. destruct (checksum_field m) as [c'|] eqn:Hmc; [|done]. cbn in Heq. subst c'.
  by exists rm, c.
Qed.

(** The table once the files of [done] have been looked at. *)
Definition filtered (seen : list string) (t : LocalSnapshotMetaTable) : Prop :=
  forall n m, t.(_file_map) !! n = Some m -> if decide (n ∈ seen) then kept_entry n m
  else get_file_meta table0 n = Some m /\ is_Some (get_file_meta remote n).

Lemma remove_file_lookup n w j : (writer_remove_file n w).2.(w_table).(_file_map) !! j = if decide (j = n) then None else w.(w_table).(_file_map) !! j.
Proof.
  unfold writer_remove_file, table_remove_file. destruct (_file_map (w_table w) !! n) eqn:Hn; cbn.
  - destruct (decide (j = n)) as [->|]; [by rewrite lookup_delete_eq|by rewrite lookup_delete_ne].
  - by destruct (decide (j = n)) as [->|].
Qed.
Lemma add_file_lookup n m w j : w.(w_table).(_file_map) !! n = None ->
  (writer_add_file n (Some m) w).2.(w_table).(_file_map) !! j = if decide (j = n) then Some m else w.(w_table).(_file_map) !! j.
Proof.
  intros Hn. unfold writer_add_file, table_add_file. rewrite Hn. cbn.
  destruct (decide (j = n)) as [->|]; [by rewrite lookup_insert_eq|by rewrite lookup_insert_ne].
Qed.

(** A table that agrees with [t] but for [n], where it has a kept entry or none. *)
Lemma filtered_step seen n t t' : filtered seen t -> (forall j, j <> n -> t'.(_file_map) !! j = t.(_file_map) !! j) ->
  (forall m, t'.(_file_map) !! n = Some m -> kept_entry n m) -> filtered (n :: seen) t'.
Proof.
  intros Hf Ho Hn j m Hj. destruct (decide (j = n)) as [->|Hne].
  - rewrite decide_True by apply list_elem_of_here. by apply Hn.
  - rewrite Ho in Hj by done. specialize (Hf j m Hj). destruct (decide (j ∈ seen)).
    + by rewrite decide_True by by apply list_elem_of_further.
    + rewrite decide_False; [done|]. by intros [?|?]%elem_of_cons.
Qed.

Lemma take_from_last_spec n rm (x : Filtering) f tr : x.1.(w_table).(_file_map) !! n = None ->
  get_file_meta remote n = Some rm -> has_checksum rm = true ->
  wpt (take_from_last last_snapshot n rm x) (fun y _ _ =>
    (forall j, j <> n -> y.1.(w_table).(_file_map) !! j = x.1.(w_table).(_file_map) !! j) /\
    forall m, y.1.(w_table).(_file_map) !! n = Some m -> kept_entry n m) f tr.
Proof.
  intros Hn Hr Hc. destruct x as [w to_remove]. cbn in Hn. unfold take_from_last.
  assert ((forall j, j <> n -> w.(w_table).(_file_map) !! j = w.(w_table).(_file_map) !! j) /\
    forall m, w.(w_table).(_file_map) !! n = Some m -> kept_entry n m) as Hsame by (split; [done|by rewrite Hn]).
  destruct last_snapshot as [r|] eqn:Hl; [|by wpt_go]. destruct (get_file_meta r.(r_table) n) as [lm|] eqn:Hlm; [|by wpt_go].
  destruct (same_checksum lm rm) eqn:Hsc; cbn [negb]; [|by wpt_go].
  assert ((forall j, j <> n -> (writer_add_file n (Some lm) w).2.(w_table).(_file_map) !! j = w.(w_table).(_file_map) !! j) /\
    forall m, (writer_add_file n (Some lm) w).2.(w_table).(_file_map) !! n = Some m -> kept_entry n m) as Hadd.
  { split; [intros j Hj; by rewrite add_file_lookup, decide_False|]. intros m. rewrite add_file_lookup, decide_True by done.
    intros [= <-]. eapply kept_when_same; [done..|]. right. by exists r. }
  destruct (source lm); [|by wpt_go].
  apply wpt_bind, wpt_any. intros _ f1 tr1. apply wpt_bind, wpt_any. intros [] f2 tr2; cbn [negb]; by wpt_go.
Qed.

Lemma filter_file_spec seen n rm (x : Filtering) f tr : filtered seen x.1.(w_table) -> n ∉ seen ->
  get_file_meta remote n = Some rm ->
  wpt (filter_file last_snapshot (n, rm) x) (fun y _ _ => filtered (n :: seen) y.1.(w_table)) f tr.
Proof.
  intros Hf Hn Hr. destruct x as [w to_remove]. cbn [fst] in Hf. unfold filter_file.
  assert (forall j, j <> n -> (writer_remove_file n w).2.(w_table).(_file_map) !! j = w.(w_table).(_file_map) !! j) as Hrm.
  { intros j Hj. by rewrite remove_file_lookup, decide_False. }
  assert ((writer_remove_file n w).2.(w_table).(_file_map) !! n = None) as Hno by by rewrite remove_file_lookup, decide_True.
  destruct (has_checksum rm) eqn:Hc; cbn [negb].
  2:{ apply wpt_ret. cbn [fst]. eapply filtered_step; [exact Hf|exact Hrm|]. by rewrite Hno. }
  destruct (get_file_meta w.(w_table) n) as [lm|] eqn:Hlm.
  - destruct (same_checksum lm rm) eqn:Hsc.
    + apply wpt_ret. eapply filtered_step; [exact Hf|done|]. intros m Hm. cbn [fst] in Hm. pose proof (Hf n m Hm) as H0.
      rewrite decide_False in H0 by done. destruct H0 as [H0 _]. unfold get_file_meta in Hlm. rewrite Hm in Hlm. injection Hlm as <-.
      eapply kept_when_same; [done..|]. by left.
    + eapply wpt_mono; [by apply take_from_last_spec|]. intros y f1 tr1 [Ho Hk].
      eapply filtered_step; [exact Hf| |exact Hk]. intros j Hj. rewrite Ho by done. by apply Hrm.
  - eapply wpt_mono; [by apply take_from_last_spec|]. intros y f1 tr1 [Ho Hk]. by eapply filtered_step.
Qed.

Lemma filter_files_spec l seen (x : Filtering) f tr : filtered seen x.1.(w_table) -> NoDup l.*1 ->
  (forall n rm, (n, rm) ∈ l -> (n ∉ seen) /\ get_file_meta remote n = Some rm) ->
  wpt (filter_files last_snapshot l x) (fun y _ _ => filtered (reverse (l.*1) ++ seen) y.1.(w_table)) f tr.
Proof.
  revert seen x f tr. induction l as [|[n rm] l IH]; intros seen x f tr Hf Hnd Hl; cbn [filter_files]; [by wpt_go|].
  apply NoDup_cons in Hnd as [Hn Hnd]. destruct (Hl n rm (list_elem_of_here _ _)) as [Hs Hr].
  apply wpt_bind. eapply wpt_mono; [by apply (filter_file_spec seen)|]. intros y f1 tr1 Hy.
  cbn [fmap list_fmap fst]. rewrite reverse_cons, <- app_assoc. apply IH; [done|done|].
  intros j jm Hj. destruct (Hl j jm (list_elem_of_further _ _ _ Hj)) as [Hjs Hjr]. split; [|done].
  intros [->|?]%elem_of_cons; [|done]. apply Hn. by apply (list_elem_of_fmap_2 fst) in Hj.
Qed.

(** The files the peer does not have are dropped first. *)
Lemma drop_unknown_all l (x : Filtering) :
  let y := fold_left (fun x n => drop_unknown remote n x) l x in
  (forall n m, y.1.(w_table).(_file_map) !! n = Some m -> x.1.(w_table).(_file_map) !! n = Some m /\ (n ∈ l -> is_Some (get_file_meta remote n))).
Proof.
  revert x. induction l as [|k l IH]; intros x; cbn; [intros n m Hn; split; [done|by intros ?%elem_of_nil]|].
  intros n m Hn. destruct (IH _ n m Hn) as [Hd Hin]. clear IH Hn. unfold drop_unknown in Hd.
  destruct (get_file_meta remote k) as [rm|] eqn:Hk.
  - split; [done|]. intros [->|?]%elem_of_cons; [by eexists|auto].
  - cbn [fst] in Hd. rewrite remove_file_lookup in Hd. destruct (decide (n = k)) as [->|Hne]; [done|].
    split; [done|]. intros [->|?]%elem_of_cons; [done|auto].
Qed.
End filter.

(** C24: what a copier keeps of the files it has.  After [filter_before_copy] every
    file the writer's table still names, which is what [copy_file] will not fetch,
    is a file of the peer's snapshot with a checksum, and the table's entry, taken
    from what the writer had or from the last snapshot, has that same checksum. *)
Theorem only_same_files_are_kept remote writer last_snapshot f n m :
  let '((rc, writer'), f', ev) := filter_before_copy remote writer last_snapshot f in
  get_file_meta writer'.(w_table) n = Some m -> kept_entry remote last_snapshot writer.(w_table) n m.
Proof.
  assert (wpt (filter_before_copy remote writer last_snapshot) (fun r _ _ =>
    get_file_meta r.2.(w_table) n = Some m -> kept_entry remote last_snapshot writer.(w_table) n m) f []) as Hw.
  { unfold filter_before_copy. apply wpt_bind.
    pose proof (drop_unknown_all remote (list_files writer.(w_table)) (writer, [])) as Hdrop. cbv zeta in Hdrop. cbn [fst] in Hdrop.
    eapply wpt_mono; [apply (filter_files_spec remote last_snapshot writer.(w_table) (walk remote.(_file_map)) [])|].
    - intros j jm Hj. cbn. destruct (Hdrop j jm Hj) as [H0 Hin]. split; [done|]. apply Hin. by eapply walk_keys.
    - apply walk_NoDup.
    - intros j jm Hj. split; [by intros ?%elem_of_nil|]. unfold get_file_meta. rewrite <- (walk_map remote.(_file_map)).
      apply elem_of_list_to_map_1; [apply walk_NoDup|done].
    - intros [w1 rm1] f1 tr1 Hf. cbn [fst] in Hf. apply wpt_bind. eapply wpt_mono; [apply writer_sync_spec|].
      intros [rc w2] f2 tr2 (_ & Ht & _). cbn [snd fst] in *.
      assert (get_file_meta w1.(w_table) n = Some m -> kept_entry remote last_snapshot writer.(w_table) n m) as Hend.
      { intros Hm. specialize (Hf n m Hm). destruct (decide _) as [Hin|Hout]; [done|]. destruct Hf as [_ [rm Hr]]. destruct Hout.
        apply elem_of_app. left. apply elem_of_reverse. by eapply walk_keys. }
      destruct (ok rc); cbn [negb]; [|apply wpt_ret; cbn [snd]; by rewrite Ht].
      apply wpt_bind, wpt_any. intros _ f3 tr3. apply wpt_ret. cbn [snd]. by rewrite Ht. }
  unfold wpt, value_of in Hw. by destruct (filter_before_copy remote writer last_snapshot f) as [[[rc w'] f'] ev].
Qed.
