(* ===== verification/SnapshotStorageExamples.v ===== *)
(** * SnapshotStorageExamples: runs of a snapshot storage and of a copier

    Concrete storages on which the theorems of [SnapshotStorageProps],
    [SnapshotCopyProofs] are applied, and runs that show what
    the code does where it does not do what it means to. *)

From Stdlib Require Strings.Byte.
From S2P Require Import SnapshotExecutor Prelude Types FsmCaller SnapshotFiles SnapshotStorage SnapshotStorageProofs SnapshotStorageSafety SnapshotStorageInit SnapshotStorageProps SnapshotCopier SnapshotCopyProofs.

(** ** A life of a storage *)
Fixpoint run_sections (w : World) (cs : list Section_) : option World :=
  match cs with
  | [] => Some w
  | c :: cs => do_section w c ≫= fun w' => run_sections w' cs
  end.

Lemma run_sections_reach cs w0 w : run_sections w0 cs = Some w -> rtc step w0 w.
Proof.
  revert w0. induction cs as [|c cs IH]; intros w0 Hrun; cbn in Hrun; [injection Hrun as ->; apply rtc_refl|].
  apply bind_Some in Hrun as (w1 & Hs & Hrun). eapply rtc_l; [by exists c|by apply IH].
Qed.

Definition snapshot_of (index : Z) : SnapshotMeta := mkSnapshotMeta index 1 [] [].
Definition example_byte (n : Z) : IOBuf := [if n =? 5 then Byte.x05 else Byte.x09].
Definition write_snapshot (index : Z) : list Section_ :=
  [Create; WriteFile "a" (example_byte index); AddFile "a" None; SaveMeta (snapshot_of index); CloseRename false; CloseRef; CloseSwitch].

(** A reader of snapshot 5 is there when snapshot 9 takes its place. *)
Definition reading_world : World :=
  default blank (run_sections blank (Restart [] :: write_snapshot 5 ++ [CloseUnref; OpenLocked; OpenRead 0] ++ write_snapshot 9 ++ [CloseUnref])).
(** Snapshot 9 has been renamed, and the process stops. *)
Definition renamed_world : World :=
  default blank (run_sections blank (Restart [] :: write_snapshot 5 ++ [CloseUnref] ++ take 5 (write_snapshot 9))).

Lemma reading_world_reachable : reachable reading_world.
Proof.
  apply (run_sections_reach (Restart [] :: write_snapshot 5 ++ [CloseUnref; OpenLocked; OpenRead 0] ++ write_snapshot 9 ++ [CloseUnref])).
  vm_compute. reflexivity.
Qed.
Lemma renamed_world_reachable : reachable renamed_world.
Proof.
  apply (run_sections_reach (Restart [] :: write_snapshot 5 ++ [CloseUnref] ++ take 5 (write_snapshot 9))).
  vm_compute. reflexivity.
Qed.

(** The reader is closed. *)
Definition closed_world : World := default blank (do_section reading_world (CloseReader 0)).

Lemma snapshots_in_use_witness : refs_of 5 reading_world.(st).(storage) = 1 /\
  (0 < refs_of 5 reading_world.(st).(storage) /\
   exists v pb, view_of reading_world.(st).(fs) (Snap 5) = Some v /\ view_of closed_world.(st).(fs) (Snap 5) = Some v /\
     holds_index v 5 /\ v.1 = Holds pb /\ forall r, (5, r) ∈ reading_world.(readers) -> r.(r_path) = Snap 5 /\ r.(r_table) = load_table pb).
Proof.
  assert (do_section reading_world (CloseReader 0) = Some closed_world) as Hs by (vm_compute; reflexivity).
  assert ((readers reading_world).*1 = [5]) as Hr by (vm_compute; reflexivity).
  split; [vm_compute; reflexivity|].
  apply (snapshots_in_use_are_untouched reading_world (CloseReader 0) closed_world 5 reading_world_reachable Hs).
  - intros outcomes. discriminate.
  - right. left. rewrite Hr. apply list_elem_of_here.
Defined.

Lemma snapshots_survive_witness : last_index renamed_world = 5 /\ last_index (run init (restarted [] renamed_world)).2 = 9 /\
  last_index renamed_world <= last_index (run init (restarted [] renamed_world)).2.
Proof.
  split; [vm_compute; reflexivity|]. split; [vm_compute; reflexivity|].
  pose proof (snapshots_survive_crashes renamed_world renamed_world_reachable) as Hs.
  destruct (run init (restarted [] renamed_world)) as [rc w']. exact (proj1 (proj2 Hs)).
Defined.

(** ** Copies *)

(** The peer's snapshot 9 has two files, one of them with a checksum. *)
Definition sum_meta (s : string) : LocalFileMeta := mkLocalFileMeta None None (Some s).
Definition peer_table : LocalSnapshotPbMeta :=
  mkLocalSnapshotPbMeta (Some (snapshot_of 9)) [("a"%string, sum_meta "77"); ("b"%string, LocalFileMeta_default)].
Definition answer_for (n : string) (status : Errno) : FileAnswer := mkFileAnswer OK false status (example_byte (if String.eqb n "a" then 5 else 9)).
Definition peer_env (status : Errno) : CopyEnv :=
  mkCopyEnv (mkMetaAnswer false OK (Some peer_table)) (fun n => answer_for n (if String.eqb n "b" then status else OK)).
(** The storage has snapshot 5. *)
Definition stored_world : World := default blank (run_sections blank (Restart [] :: write_snapshot 5 ++ [CloseUnref])).

Lemma stored_world_reachable : reachable stored_world.
Proof. apply (run_sections_reach (Restart [] :: write_snapshot 5 ++ [CloseUnref])). vm_compute. reflexivity. Qed.
Lemma stored_world_wf : wf stored_world.(st).(fs).
Proof. exact (i_wf _ (reachable_storage_inv _ stored_world_reachable)). Qed.

Definition copied (status : Errno) : Copying := (copy (peer_env status) (mkCopying stored_world.(st) LocalSnapshotCopier_new)).1.2.

(** One peer sends everything; the other fails in the second file. *)
Lemma copy_all_or_nothing_witness :
  (copy_done (peer_env OK) peer_table 9 (copied OK) /\ copy_undone stored_world.(st) (copied EINTERNAL)) /\
  (copied EINTERNAL).(copier).(error_code) = EINTERNAL.
Proof.
  split; [split|vm_compute; reflexivity].
  - destruct (copy_all_or_nothing stored_world.(st) (peer_env OK) peer_table 9 stored_world_wf) as [[_ Hd]|[_ Hu]].
    + vm_compute. reflexivity.
    + vm_compute. auto.
    + reflexivity.
    + reflexivity.
    + split; vm_compute; discriminate.
    + exact Hd.
    + exfalso. apply (proj1 Hu). vm_compute. reflexivity.
  - destruct (copy_all_or_nothing stored_world.(st) (peer_env EINTERNAL) peer_table 9 stored_world_wf) as [[_ Hd]|[_ Hu]].
    + vm_compute. reflexivity.
    + vm_compute. auto.
    + reflexivity.
    + reflexivity.
    + split; vm_compute; discriminate.
    + exfalso. pose proof (proj1 Hd) as Hc. assert ((copied EINTERNAL).(copier).(error_code) = EINTERNAL) as He by (vm_compute; reflexivity).
      unfold copied in He. rewrite Hc in He. discriminate.
    + exact Hu.
Defined.

(** The temporary directory has the first file from an earlier copy, and a file the
    peer does not have. *)
Definition left_writer : LocalSnapshotWriter :=
  mkLocalSnapshotWriter Temp (mkLocalSnapshotMetaTable {["a"%string := sum_meta "77"; "z"%string := sum_meta "1"]} None) OK.
Definition left_fs : SnapFs :=
  mkSnapFs {[Temp := mkSnapDir NoFile {["a"%string := 1%positive; "z"%string := 2%positive]}]} ∅ 3 [].
Definition left_run : (Errno * LocalSnapshotWriter) * SnapFs * list Event :=
  filter_before_copy (load_table peer_table) left_writer None left_fs.

Lemma only_same_files_are_kept_witness : list_files left_run.1.1.2.(w_table) = ["a"%string] /\
  kept_entry (load_table peer_table) None left_writer.(w_table) "a" (sum_meta "77").
Proof.
  split; [vm_compute; reflexivity|].
  pose proof (only_same_files_are_kept (load_table peer_table) left_writer None left_fs "a" (sum_meta "77")) as Hk.
  assert (filter_before_copy (load_table peer_table) left_writer None left_fs = left_run) as Hr by reflexivity.
  rewrite Hr in Hk. assert (get_file_meta left_run.1.1.2.(w_table) "a" = Some (sum_meta "77")) as Hm by (vm_compute; reflexivity).
  destruct left_run as [[[rc w'] f'] ev]. exact (Hk Hm).
Defined.

(** ** Findings *)

(** [close] of a writer whose table cannot be written deletes the new snapshot and
    returns 0, as [sync] fails with -1 and only [EIO] is passed on.  The executor
    then takes the snapshot to be in place: it moves to its index and lets the log
    be truncated up to it. *)
Example close_hides_a_failed_sync :
  let w := default blank (run_sections stored_world (take 4 (write_snapshot 9))) in
  let wr := default (LocalSnapshotWriter_new Temp) w.(writer) in
  let '(rc, s, _) := close wr false (w.(st) <| fs := w.(st).(fs) <| script := [FsFail] |> |>) in
  rc = OK /\ s.(storage).(_last_snapshot_index) = 5 /\ is_dir s.(fs) Temp = false /\ is_dir s.(fs) (Snap 9) = false /\
  (SnapshotExecutor.on_snapshot_save_done OK (snapshot_of 9) (SnapshotExecutor.mkWriterAnswers true true (ok rc))
     (SnapshotExecutor.SnapshotExecutor_default)).2 = [SnapshotExecutor.CloseWriter; SnapshotExecutor.SetSnapshot (snapshot_of 9)].
Proof. vm_compute. auto 10. Qed.

(** So a copier whose [close] cannot write the table ends without an error, with a
    reader of the snapshot that was there before. *)
Example copier_opens_the_old_snapshot :
  let s := stored_world.(st) <| fs := stored_world.(st).(fs) <| script := repeat FsOk 7 ++ [FsFail] |> |> in
  let c := (copy (peer_env OK) (mkCopying s LocalSnapshotCopier_new)).1.2 in
  c.(copier).(error_code) = OK /\ (r_path <$> c.(copier).(_reader)) = Some (Snap 5).
Proof. vm_compute. auto. Qed.

(** The constructor does not set [_filter_before_copy_remote]: with what happens to
    be in memory, [init] may leave the temporary directory of the last process. *)
Example temp_left_by_chance :
  let f := left_fs in
  is_dir (init (mkStore f (LocalSnapshotStorage_new false))).1.2.(fs) Temp = false /\
  is_dir (init (mkStore f (LocalSnapshotStorage_new true))).1.2.(fs) Temp = true.
Proof. vm_compute. auto. Qed.

(** With [filter_before_copy_remote] the copier links files of the last snapshot
    into the temporary directory.  A copy that fails keeps the directory; the next
    one means to delete the file whose checksum has changed, does not look whether
    that worked, and then opens it for writing with [O_TRUNC]: the file of the
    snapshot, which a reader holds, gets the other content. *)
Definition filter_store : Store :=
  mkStore
    (mkSnapFs {[Snap 5 := mkSnapDir (Holds (mkLocalSnapshotPbMeta (Some (snapshot_of 5)) [("a"%string, sum_meta "77")]))
                            {["a"%string := 1%positive]}]}
       {[1%positive := example_byte 5]} 2 [])
    (set_filter_before_copy_remote (LocalSnapshotStorage_new false) <| _last_snapshot_index := 5 |> <| _ref_map := {[5 := 2]} |>).
Definition other_table : LocalSnapshotPbMeta :=
  mkLocalSnapshotPbMeta (Some (snapshot_of 10)) [("a"%string, sum_meta "88")].
Definition other_env : CopyEnv := mkCopyEnv (mkMetaAnswer false OK (Some other_table)) (fun n => mkFileAnswer OK false OK (example_byte 9)).

Example kept_link_is_written_through :
  let failed := (copy (peer_env EINTERNAL) (mkCopying filter_store LocalSnapshotCopier_new)).1.2 in
  let s := failed.(store) <| fs := failed.(store).(fs) <| script := repeat FsOk 6 ++ [FsFail] |> |> in
  let c := (copy other_env (mkCopying s LocalSnapshotCopier_new)).1.2 in
  failed.(copier).(error_code) = EINTERNAL /\ c.(copier).(error_code) = OK /\
  filter_store.(fs).(inodes) !! 1%positive = Some (example_byte 5) /\ c.(store).(fs).(inodes) !! 1%positive = Some (example_byte 9) /\
  (refs_of 5 c.(store).(storage) = 1 /\ is_dir c.(store).(fs) (Snap 5) = true).
Proof. vm_compute. auto 10. Qed.
