(* ===== verification/SnapshotThrottle.v ===== *)
(** * SnapshotThrottle: how much snapshots may read and write

    Models the class [ThroughputSnapshotThrottle] of
    [src/braft/snapshot_throttle.h] and [src/braft/snapshot_throttle.cpp], and
    proves the bound on what it grants over time.  Every method is one use of
    [_mutex]; the clock is an argument. *)

From S2P Require Import Prelude Types.

Record ThroughputSnapshotThrottle : Set := mkThroughputSnapshotThrottle {
  _throttle_throughput_bytes : Z;
  _check_cycle : Z;
  _snapshot_task_num : Z;
  _last_throughput_check_time_us : Z;
  _cur_throughput_bytes : Z
}.
#[export] Instance ThroughputSnapshotThrottle_eta : Settable ThroughputSnapshotThrottle := fun t =>
  mkThroughputSnapshotThrottle t.(_throttle_throughput_bytes) t.(_check_cycle) t.(_snapshot_task_num)
    t.(_last_throughput_check_time_us) t.(_cur_throughput_bytes).

Record ThrottleFlags : Set := mkThrottleFlags {
  raft_minimal_throttle_threshold_mb : Z;
  raft_max_install_snapshot_tasks_num : Z
}.

Definition base_aligning_time_us (check_cycle : Z) : Z := Z.quot (1000 * 1000) check_cycle.
Definition caculate_check_time_us (current_time_us check_cycle : Z) : Z :=
  Z.quot current_time_us (base_aligning_time_us check_cycle) * base_aligning_time_us check_cycle.

Definition ThroughputSnapshotThrottle_new (throttle_throughput_bytes check_cycle now : Z) : ThroughputSnapshotThrottle :=
  mkThroughputSnapshotThrottle throttle_throughput_bytes check_cycle 0 (caculate_check_time_us now check_cycle) 0.

Definition limit_per_cycle (flags : ThrottleFlags) (t : ThroughputSnapshotThrottle) : Z :=
  Z.quot (Z.max t.(_throttle_throughput_bytes) (flags.(raft_minimal_throttle_threshold_mb) * 1024 * 1024)) t.(_check_cycle).

Definition throttled_by_throughput (flags : ThrottleFlags) (now bytes : Z) (t : ThroughputSnapshotThrottle) : Z * ThroughputSnapshotThrottle :=
  let limit := limit_per_cycle flags t in
  if limit <? t.(_cur_throughput_bytes) + bytes then
    if now - t.(_last_throughput_check_time_us) <=? Z.quot (1 * 1000 * 1000) t.(_check_cycle) then
      (if t.(_cur_throughput_bytes) <? limit then limit - t.(_cur_throughput_bytes) else 0,
       t <| _cur_throughput_bytes := limit |>)
    else
      let available_size := if limit <? bytes then limit else bytes in
      (available_size,
       t <| _cur_throughput_bytes := available_size |>
         <| _last_throughput_check_time_us := caculate_check_time_us now t.(_check_cycle) |>)
  else (bytes, t <| _cur_throughput_bytes := t.(_cur_throughput_bytes) + bytes |>).

Definition return_unused_throughput (acquired consumed elaspe_time_us now : Z) (t : ThroughputSnapshotThrottle) : ThroughputSnapshotThrottle :=
  if now - elaspe_time_us <? t.(_last_throughput_check_time_us) then t
  else t <| _cur_throughput_bytes := Z.max (t.(_cur_throughput_bytes) - (acquired - consumed)) 0 |>.

Definition get_retry_interval_ms (t : ThroughputSnapshotThrottle) : Z := Z.quot 1000 t.(_check_cycle) + 1.

(** The second value of [finish_one_task]: the check that the number of tasks is
    not negative. *)
Definition add_one_more_task (flags : ThrottleFlags) (is_leader : bool) (t : ThroughputSnapshotThrottle) : bool * ThroughputSnapshotThrottle :=
  if is_leader then (true, t)
  else if flags.(raft_max_install_snapshot_tasks_num) <=? t.(_snapshot_task_num) then (false, t)
  else (true, t <| _snapshot_task_num := t.(_snapshot_task_num) + 1 |>).
Definition finish_one_task (is_leader : bool) (t : ThroughputSnapshotThrottle) : ThroughputSnapshotThrottle * bool :=
  if is_leader then (t, true)
  else let t := t <| _snapshot_task_num := t.(_snapshot_task_num) - 1 |> in (t, 0 <=? t.(_snapshot_task_num)).

(** ** Runs *)

(** A call of any of the threads that share the throttle. *)
Inductive Call : Set :=
| Acquire (now bytes : Z)
| GiveBack (acquired consumed elaspe_time_us now : Z)
| AddTask (is_leader : bool)
| FinishTask (is_leader : bool).

(** The throttle, and the bytes that were granted and not given back. *)
Definition do_call (flags : ThrottleFlags) (s : ThroughputSnapshotThrottle * Z) (c : Call) : ThroughputSnapshotThrottle * Z :=
  let '(t, used) := s in
  match c with
  | Acquire now bytes => let '(g, t) := throttled_by_throughput flags now bytes t in (t, used + g)
  | GiveBack a c e now => (return_unused_throughput a c e now t, used - (a - c))
  | AddTask is_leader => ((add_one_more_task flags is_leader t).2, used)
  | FinishTask is_leader => ((finish_one_task is_leader t).1, used)
  end.
Definition do_calls (flags : ThrottleFlags) (t : ThroughputSnapshotThrottle) (cs : list Call) : ThroughputSnapshotThrottle * Z :=
  fold_left (do_call flags) cs (t, 0).

(** What is asked for is not negative, and no more is given back than was granted. *)
Definition call_ok (c : Call) : Prop :=
  match c with
  | Acquire now bytes => 0 <= now /\ 0 <= bytes
  | GiveBack a c _ _ => 0 <= c <= a
  | _ => True
  end.

(** ** The bound *)
Section bound.
Context (flags : ThrottleFlags) (bytes_per_second cycle : Z).
Hypothesis Hcycle : 0 < cycle <= 1000 * 1000.
Hypothesis Hbytes : 0 <= bytes_per_second.

Definition limit : Z := Z.quot (Z.max bytes_per_second (flags.(raft_minimal_throttle_threshold_mb) * 1024 * 1024)) cycle.
Definition base : Z := base_aligning_time_us cycle.

Lemma limit_nonneg : 0 <= limit.
Proof. unfold limit. apply Z.quot_pos; lia. Qed.
Lemma base_pos : 0 < base.
Proof. unfold base, base_aligning_time_us. apply Z.quot_str_pos. lia. Qed.

(** The cycles between two times of the throttle. *)
Definition bounded (start : Z) (s : ThroughputSnapshotThrottle * Z) : Prop :=
  let '(t, used) := s in
  t.(_throttle_throughput_bytes) = bytes_per_second /\ t.(_check_cycle) = cycle /\
  0 <= t.(_cur_throughput_bytes) <= limit /\
  exists k, 0 <= k /\ t.(_last_throughput_check_time_us) = start + k * base /\
    (exists j, t.(_last_throughput_check_time_us) = j * base) /\
    used <= limit * k + t.(_cur_throughput_bytes).

(** A new period begins a cycle or more after the one before. *)
Lemma check_time_later now last j : 0 <= now -> last = j * base -> base < now - last ->
  exists k, 1 <= k /\ caculate_check_time_us now cycle = last + k * base /\ exists j', caculate_check_time_us now cycle = j' * base.
Proof.
  pose proof base_pos. intros Hn Hl Hd. unfold caculate_check_time_us. change (base_aligning_time_us cycle) with base.
  rewrite Z.quot_div_nonneg by lia. exists (now / base - j). split; [|split; [subst; ring|by eexists]].
  assert (j + 1 <= now / base); [|lia]. apply Z.div_le_lower_bound; [lia|]. subst last. nia.
Qed.

Lemma do_call_bounded start s c : call_ok c -> bounded start s -> bounded start (do_call flags s c).
Proof.
  pose proof limit_nonneg as HL. destruct s as [t used]. intros Hc (Hb & Hcy & Hcur & k & Hk & Hlast & [j Hj] & Hu). destruct c; cbn [do_call].
  - cbn in Hc. unfold throttled_by_throughput. replace (limit_per_cycle flags t) with limit by (by unfold limit_per_cycle, limit; rewrite Hb, Hcy).
    rewrite Hcy. change (Z.quot (1 * 1000 * 1000) cycle) with base.
    destruct (Z.ltb_spec limit (_cur_throughput_bytes t + bytes)) as [Hover|Hfits].
    + destruct (Z.leb_spec (now - _last_throughput_check_time_us t) base) as [Hsame|Hnew]; cbn.
      * split_and!; try done; try lia. exists k. split_and!; try done; [by exists j|]. destruct (Z.ltb_spec (_cur_throughput_bytes t) limit); lia.
      * destruct (check_time_later now _ j (proj1 Hc) Hj Hnew) as (d & Hd & Hnext & Hal).
        split_and!; try done; try (destruct (Z.ltb_spec limit bytes); lia).
        exists (k + d). split_and!; [lia| |done|].
        { rewrite Hnext, Hlast. ring. }
        assert (limit * k + limit <= limit * (k + d)) by nia. destruct (Z.ltb_spec limit bytes); lia.
    + cbn. split_and!; try done; try lia. exists k. split_and!; try done; [by exists j|lia].
  - cbn in Hc. unfold return_unused_throughput. destruct (_ <? _); cbn.
    + split_and!; try done; try lia. exists k. split_and!; try done; [by exists j|lia].
    + split_and!; try done; try lia. exists k. split_and!; try done; [by exists j|lia].
  - unfold add_one_more_task. destruct is_leader; [|destruct (_ <=? _)]; cbn; split_and!; try done; try lia; exists k; split_and!; try done; by exists j.
  - unfold finish_one_task. destruct is_leader; cbn; split_and!; try done; try lia; exists k; split_and!; try done; by exists j.
Qed.
End bound.

(** C38: the throttle keeps the rate.  Whatever the threads that share it ask for and
    give back, in any order and at any times: what was granted since the throttle
    was made and not given back is at most the limit of a cycle for every cycle up
    to the last check time and for the one under way; and what one cycle has used
    up never exceeds its limit.  The limit is the larger of the user's rate and
    the flag's, divided by the cycles of a second. *)
Theorem throughput_bounded flags bytes_per_second cycle start cs : 0 < cycle <= 1000 * 1000 -> 0 <= bytes_per_second -> Forall call_ok cs ->
  let t0 := ThroughputSnapshotThrottle_new bytes_per_second cycle start in
  let '(t, used) := do_calls flags t0 cs in
  0 <= t.(_cur_throughput_bytes) <= limit flags bytes_per_second cycle /\
  used <= limit flags bytes_per_second cycle *
    ((t.(_last_throughput_check_time_us) - t0.(_last_throughput_check_time_us)) / base cycle + 1).
Proof.
  intros Hcy Hb Hcs t0.
  assert (bounded flags bytes_per_second cycle t0.(_last_throughput_check_time_us) (do_calls flags t0 cs)) as Hbd.
  { unfold do_calls. assert (bounded flags bytes_per_second cycle t0.(_last_throughput_check_time_us) (t0, 0)) as H0.
    { pose proof (limit_nonneg flags bytes_per_second cycle Hcy Hb). split_and!; try done. exists 0. split_and!; [done|ring| |cbn; lia].
      by eexists. }
    revert H0. generalize (t0, 0) as s. induction Hcs as [|c cs Hc Hcs IH]; intros s H0; [done|]. cbn [fold_left]. apply IH. by apply do_call_bounded. }
  destruct (do_calls flags t0 cs) as [t used]. destruct Hbd as (_ & _ & Hcur & k & Hk & Hl & _ & Hu). split; [done|].
  rewrite Hl. replace (_last_throughput_check_time_us t0 + k * base cycle - _last_throughput_check_time_us t0) with (k * base cycle) by ring.
  rewrite Z.div_mul by (pose proof (base_pos cycle Hcy); lia). lia.
Qed.

(** A grant is between nothing and what was asked for. *)
Lemma granted_in_range flags now bytes t : 0 <= bytes -> 0 <= limit_per_cycle flags t -> 0 <= t.(_cur_throughput_bytes) ->
  0 <= (throttled_by_throughput flags now bytes t).1 <= bytes.
Proof.
  intros Hb Hl Hc. unfold throttled_by_throughput. destruct (Z.ltb_spec (limit_per_cycle flags t) (_cur_throughput_bytes t + bytes)); [|cbn; lia].
  destruct (_ <=? _); cbn; repeat match goal with |- context [Z.ltb ?a ?b] => destruct (Z.ltb_spec a b) end; lia.
Qed.
