(* ===== verification/FileReader.v ===== *)
(** * FileReader: the segments of a file in the attachment of a message, and a snapshot's files as other peers read them

    Models the class [FileSegData] of [src/braft/util.h] and [src/braft/util.cpp]:
    what a writer appends becomes segments, each behind a header with its offset
    and length; a segment that follows the one before is merged with it. *)

From Stdlib Require Strings.Byte.
From S2P Require Import Prelude Types Disk EntryCodec FsmCaller SnapshotFiles.

Inductive SegEvent : Set := SegCheckFailed.

Record FileSegData : Set := mkFileSegData {
  _data : IOBuf;
  (** where the header of the last segment was reserved *)
  _seg_header : nat;
  _seg_offset : Z;
  _seg_len : Z
}.
Definition FileSegData_default : FileSegData := mkFileSegData [] 0 0 0.
Definition FileSegData_reader (data : IOBuf) : FileSegData := mkFileSegData data 0 0 0.

Definition header_size : nat := 12.

Section fsd.
Context `{RawPack}.

Definition pack_seg_header (offset len : Z) : IOBuf := pack64 offset ++ pack32 len.

(** The header of the last segment is written where it was reserved. *)
Definition close_segment (s : FileSegData) : IOBuf :=
  if 0 <? s.(_seg_len) then overwrite s.(_data) s.(_seg_header) (pack_seg_header s.(_seg_offset) s.(_seg_len)) else s.(_data).

(** What is reserved is zeros here; it is written by the next [close_segment]. *)
Definition append (data : IOBuf) (offset : Z) (s : FileSegData) : FileSegData :=
  let len := wrap_u32 (zlen data) in
  if negb (0 =? s.(_seg_offset)) && (offset =? wrap_u64 (s.(_seg_offset) + s.(_seg_len))) then
    mkFileSegData (s.(_data) ++ data) s.(_seg_header) s.(_seg_offset) (wrap_u32 (s.(_seg_len) + len))
  else
    let d := close_segment s in
    mkFileSegData (d ++ replicate header_size Byte.x00 ++ data) (length d) offset len.

Definition close (s : FileSegData) : FileSegData := mkFileSegData (close_segment s) s.(_seg_header) 0 0.
Definition data (s : FileSegData) : IOBuf := (close s).(_data).

(** [next]: the length, the offset and the data of a segment, and what is left. *)
Definition next (data : IOBuf) : Z * Z * IOBuf * IOBuf * list SegEvent :=
  match data with
  | [] => (0, 0, [], [], [])
  | _ =>
      let header := take header_size data in
      let rest := drop header_size data in
      let offset := unpack64 (take 8 header) in
      let len := unpack32 (slice header 8 4) in
      let body := take (Z.to_nat len) rest in
      (len, offset, body, drop (Z.to_nat len) rest,
       (if bool_decide (length header = header_size) then [] else [SegCheckFailed]) ++
       (if zlen body =? len then [] else [SegCheckFailed]))
  end.

(** The loop over [next], as long as it returns a length: the segments, and the
    failed checks. *)
Fixpoint segments_with (fuel : nat) (data : IOBuf) : list (Z * IOBuf) * list SegEvent :=
  match fuel with
  | O => ([], [])
  | S fuel =>
      let '(len, offset, body, rest, ev) := next data in
      if len =? 0 then ([], ev)
      else let '(segs, ev') := segments_with fuel rest in ((offset, body) :: segs, ev ++ ev')
  end.
(** A segment takes a byte at least. *)
Definition segments (data : IOBuf) : list (Z * IOBuf) * list SegEvent := segments_with (S (length data)) data.

(** ** What is read is what was appended *)

(** Segments that were closed, as bytes. *)
Definition encode (segs : list (Z * IOBuf)) : IOBuf := concat (map (fun s => pack_seg_header s.1 (zlen s.2) ++ s.2) segs).
Definition seg_ok (s : Z * IOBuf) : Prop := 0 <= s.1 < 2 ^ 64 /\ 0 < zlen s.2 < 2 ^ 32.

Lemma pack_seg_header_length o l : length (pack_seg_header o l) = header_size.
Proof. unfold pack_seg_header. by rewrite length_app, pack64_length, pack32_length. Qed.

Lemma encode_app l k : encode (l ++ k) = encode l ++ encode k.
Proof. unfold encode. by rewrite map_app, concat_app. Qed.

Lemma next_encode s rest : seg_ok s ->
  next (pack_seg_header s.1 (zlen s.2) ++ s.2 ++ rest) = (zlen s.2, s.1, s.2, rest, []).
Proof.
  destruct s as [o d]. intros [Ho Hd]. cbn [fst snd] in *. unfold next. pose proof (pack_seg_header_length o (zlen d)) as Hl.
  destruct (pack_seg_header o (zlen d) ++ d ++ rest) as [|b bs] eqn:He.
  { apply (f_equal length) in He. rewrite length_app, Hl in He. discriminate. }
  rewrite <- He. rewrite take_app_length', drop_app_length' by done.
  assert (take 8 (pack_seg_header o (zlen d)) = pack64 o) as -> by by apply take_app_length', eq_sym, pack64_length.
  assert (slice (pack_seg_header o (zlen d)) 8 4 = pack32 (zlen d)) as ->.
  { unfold slice, pack_seg_header. rewrite drop_app_length' by by rewrite pack64_length. rewrite take_ge; [done|]. by rewrite pack32_length. }
  rewrite unpack_pack64, unpack_pack32 by lia. unfold zlen. rewrite Nat2Z.id, take_app_length, drop_app_length, Z.eqb_refl.
  rewrite bool_decide_true by done. done.
Qed.

Lemma segments_with_encode fuel segs : Forall seg_ok segs -> (length segs < fuel)%nat -> segments_with fuel (encode segs) = (segs, []).
Proof.
  intros Hs. revert fuel. induction Hs as [|s segs Hs Hall IH]; intros [|fuel] Hf; cbn [length] in Hf; try lia; [done|].
  cbn [segments_with]. change (encode (s :: segs)) with ((pack_seg_header s.1 (zlen s.2) ++ s.2) ++ encode segs).
  rewrite <- app_assoc, next_encode by done. destruct Hs as [_ Hs]. rewrite (proj2 (Z.eqb_neq _ _)) by lia.
  rewrite IH by lia. by destruct s.
Qed.
Lemma segments_encode segs : Forall seg_ok segs -> segments (encode segs) = (segs, []).
Proof.
  intros Hs. apply segments_with_encode; [done|]. clear Hs. induction segs as [|s segs IH]; [cbn; lia|].
  change (encode (s :: segs)) with ((pack_seg_header s.1 (zlen s.2) ++ s.2) ++ encode segs).
  rewrite !length_app, pack_seg_header_length. unfold header_size. cbn [length]. lia.
Qed.

(** The writer holds the segments [segs], of which the last is still open. *)
Definition holds (segs : list (Z * IOBuf)) (s : FileSegData) : Prop :=
  Forall seg_ok segs /\ close_segment s = encode segs /\
  match last segs with
  | Some (o, d) => exists old h, segs = old ++ [(o, d)] /\ s.(_data) = encode old ++ h ++ d /\ length h = header_size /\
      s.(_seg_header) = length (encode old) /\ s.(_seg_offset) = o /\ s.(_seg_len) = zlen d
  | None => s = FileSegData_default
  end.

Lemma holds_default : holds [] FileSegData_default.
Proof. by split_and!. Qed.

Lemma overwrite_header (old h d : IOBuf) (o l : Z) : length h = header_size ->
  overwrite (old ++ h ++ d) (length old) (pack_seg_header o l) = old ++ pack_seg_header o l ++ d.
Proof.
  intros Hh. unfold overwrite. rewrite take_app_length, !length_app, pack_seg_header_length.
  replace (length old - _)%nat with 0%nat by lia. cbn [replicate]. rewrite drop_app_add, <- Hh, drop_app_length. done.
Qed.

Lemma holds_close old h o d : Forall seg_ok (old ++ [(o, d)]) -> length h = header_size ->
  holds (old ++ [(o, d)]) (mkFileSegData (encode old ++ h ++ d) (length (encode old)) o (zlen d)).
Proof.
  intros Hok Hh. split; [done|]. split.
  - apply Forall_app in Hok as [_ Hok]. apply Forall_cons in Hok as [[_ Hd] _]. cbn [snd] in Hd.
    unfold close_segment. cbn [_seg_len _data _seg_header _seg_offset]. rewrite (proj2 (Z.ltb_lt _ _)) by lia.
    rewrite overwrite_header by done. rewrite encode_app. f_equal. unfold encode. cbn. by rewrite app_nil_r.
  - rewrite last_snoc. by exists old, h.
Qed.

(** Where an [append] puts the data. *)
Definition merge (segs : list (Z * IOBuf)) (offset : Z) (d : IOBuf) : list (Z * IOBuf) :=
  match last segs with
  | Some (o, d') => if negb (0 =? o) && (offset =? o + zlen d') then removelast segs ++ [(o, d' ++ d)] else segs ++ [(offset, d)]
  | None => segs ++ [(offset, d)]
  end.

Lemma append_holds segs s offset d : holds segs s -> seg_ok (offset, d) ->
  Forall (fun x => x.1 + zlen x.2 + zlen d < 2 ^ 64 /\ zlen x.2 + zlen d < 2 ^ 32) segs ->
  holds (merge segs offset d) (append d offset s).
Proof.
  intros (Hok & Hc & Hl) Hd Hroom. pose proof Hd as [_ Hdl]. cbn [snd] in Hdl. unfold append. unfold wrap_u32. rewrite (Z.mod_small (zlen d)) by lia.
  assert (holds (segs ++ [(offset, d)]) (mkFileSegData (close_segment s ++ replicate header_size Byte.x00 ++ d) (length (close_segment s)) offset (zlen d))) as Hnew.
  { rewrite Hc. apply holds_close; [apply Forall_app; split; [done|by constructor]|apply length_replicate]. }
  unfold merge. destruct (last segs) as [[o d']|] eqn:Hlast.
  2:{ subst s. cbn [_seg_offset]. exact Hnew. }
  destruct Hl as (old & h & -> & Hdata & Hh & Hpos & Ho & Hlen). rewrite Ho, Hlen.
  apply Forall_app in Hroom as [_ Hroom]. apply Forall_cons in Hroom as [[Hr1 Hr2] _]. cbn [fst snd] in *.
  apply Forall_app in Hok as [Hok1 Hok2]. apply Forall_cons in Hok2 as [[Ho1 Ho2] _]. cbn [fst snd] in *.
  unfold wrap_u64, wrap_u32. rewrite !Z.mod_small by lia. destruct (_ && _).
  - rewrite Hdata, Hpos, removelast_last. replace (zlen d' + zlen d) with (zlen (d' ++ d)) by (by rewrite zlen_app).
    rewrite <- !app_assoc. apply holds_close; [|done]. apply Forall_app. split; [done|]. constructor; [|done].
    split; cbn [fst snd]; [done|]. rewrite zlen_app. lia.
  - done.
Qed.

(** Written into a file, one after the other. *)
Definition deliver (segs : list (Z * IOBuf)) (c : IOBuf) : IOBuf := fold_left (fun c s => overwrite c (Z.to_nat s.1) s.2) segs c.
End fsd.

(** * A snapshot's files as other peers read them

    Models the class [LocalDirReader] of [src/braft/file_reader.cpp], the class
    [SnapshotFileReader] of [src/braft/snapshot.cpp] and the class
    [FileServiceImpl] of [src/braft/file_service.cpp].  The files of a snapshot
    that is read do not change ([SnapshotStorageProps.snapshots_in_use_are_untouched]).
    What a throttle grants, which calls fail, and the blocks an [IOBuf] is made of
    are arguments. *)


(** ** [LocalDirReader] *)
Record LocalDirReader : Set := mkLocalDirReader {
  _files : gmap string IOBuf;
  (** the content of [_current_file] *)
  _current_file : option IOBuf;
  _current_filename : string;
  _is_reading : bool;
  _eof_reached : bool
}.
#[export] Instance LocalDirReader_eta : Settable LocalDirReader := fun r =>
  mkLocalDirReader r.(_files) r.(_current_file) r.(_current_filename) r.(_is_reading) r.(_eof_reached).
Definition LocalDirReader_new (files : gmap string IOBuf) : LocalDirReader := mkLocalDirReader files None EmptyString false true.

(** How the calls of a read end: [open] (the error it reports), the reads of
    [file_pread], and [size]. *)
Record ReadEnv : Set := mkReadEnv { open_error : Errno; reads : list ReadOutcome; size_ok : bool }.

Inductive ReadEvent : Set :=
| GaveBack (acquired consumed : Z)
| NullFile.
Abbreviation RM := (M LocalDirReader ReadEvent).

(** Under the lock: an error, or the content to be read. *)
Definition read_begin (env : ReadEnv) (filename : string) (offset : Z) : RM (Errno + IOBuf) :=
  r ← get;
  if r.(_is_reading) then mret (inl EAGAIN)
  else if negb (String.eqb filename r.(_current_filename)) then
    if negb r.(_eof_reached) || negb (offset =? 0) then mret (inl EINVAL)
    else
      when (bool_decide (r.(_current_file) <> None)) (modify (fun r => r <| _current_file := None |> <| _current_filename := EmptyString |>)) ;;
      match (if ok env.(open_error) then r.(_files) !! filename else None) with
      | None => mret (inl (if ok env.(open_error) then ENOENT else env.(open_error)))
      | Some c =>
          modify (fun r => r <| _current_filename := filename |> <| _current_file := Some c |> <| _eof_reached := false |> <| _is_reading := true |>) ;;
          mret (inr c)
      end
  else
    modify (fun r => r <| _is_reading := true |>) ;;
    when (bool_decide (r.(_current_file) = None)) (emit NullFile) ;;
    mret (inr (default [] r.(_current_file))).

(** Without the lock: what was read and whether the file ends there, a failed read,
    or a failed [size], after which the code returns at once. *)
Inductive ReadResult : Set := GotData (out : IOBuf) (eof : bool) | ReadFailed | SizeFailed.
Definition read_data (env : ReadEnv) (c : IOBuf) (offset max_count : Z) : ReadResult :=
  match file_pread c env.(reads) (Z.to_nat offset) (Z.to_nat max_count) [] with
  | None => ReadFailed
  | Some out =>
      if zlen out <? max_count then GotData out true
      else if negb env.(size_ok) then SizeFailed
      else GotData out (zlen c =? offset + max_count)
  end.

(** Under the lock again. *)
Definition read_end (eof : option bool) : RM unit :=
  modify (fun r => r <| _is_reading := false |>) ;;
  match eof with Some b => modify (fun r => r <| _eof_reached := b |>) | None => skip end.

Definition read_file_with_meta (env : ReadEnv) (filename : string) (offset max_count : Z) : RM (Errno + IOBuf * bool) :=
  c ← read_begin env filename offset;
  match c with
  | inl e => mret (inl e)
  | inr c =>
      match read_data env c offset max_count with
      | GotData out eof => read_end (Some eof) ;; mret (inr (out, eof))
      | ReadFailed => read_end None ;; mret (inl EIO)
      | SizeFailed => mret (inl EIO)
      end
  end.

(** ** [SnapshotFileReader] *)

(** The name of the file with the table, for another peer too. *)
Definition BRAFT_SNAPSHOT_META_FILE : string := "__raft_snapshot_meta".

Record SnapshotFileReader : Set := mkSnapshotFileReader {
  dir_reader : LocalDirReader;
  (** the bytes [save_to_iobuf_as_remote] makes of [_meta_table], if it can, and the
      names in it *)
  meta_bytes : option IOBuf;
  meta_names : gset string;
  (** whether there is a throttle, and its use is not switched off *)
  throttled : bool
}.
#[export] Instance SnapshotFileReader_eta : Settable SnapshotFileReader := fun r =>
  mkSnapshotFileReader r.(dir_reader) r.(meta_bytes) r.(meta_names) r.(throttled).

(** [set_meta_table]; [serialize] is the generated code of [LocalSnapshotPbMeta]. *)
Definition SnapshotFileReader_new (serialize : LocalSnapshotPbMeta -> option IOBuf) (files : gmap string IOBuf)
    (table : LocalSnapshotMetaTable) (throttled : bool) : SnapshotFileReader :=
  mkSnapshotFileReader (LocalDirReader_new files) (serialize (save_as_remote table)) (dom table.(_file_map)) throttled.

Abbreviation SM := (M SnapshotFileReader ReadEvent).
Definition on_dir {A} (m : RM A) : SM A := fun r => let '(a, d, ev) := m r.(dir_reader) in (a, r <| dir_reader := d |>, ev).

(** [granted] is what the throttle grants of [max_count]. *)
Definition read_file (env : ReadEnv) (granted : Z) (filename : string) (offset max_count : Z) (read_partly : bool) : SM (Errno + IOBuf * bool) :=
  r ← get;
  if String.eqb filename BRAFT_SNAPSHOT_META_FILE then
    mret (match r.(meta_bytes) with Some b => inr (b, true) | None => inl ENEG1 end)
  else if negb (bool_decide (filename ∈ r.(meta_names))) then mret (inl EPERM)
  else if r.(throttled) then
    let again := (granted <? max_count) && (negb read_partly || (granted =? 0)) in
    res ← (if again then mret (inl EAGAIN) else on_dir (read_file_with_meta env filename offset granted));
    let used_count := match res with inr (out, _) => zlen out | inl _ => 0 end in
    when ((match res with inr _ => true | inl e => bool_decide (e = EAGAIN) end) && (used_count <? granted))
      (emit (GaveBack granted used_count)) ;;
    mret res
  else on_dir (read_file_with_meta env filename offset max_count).

(** ** [FileServiceImpl] *)
Record FileServiceImpl : Set := mkFileServiceImpl { _next_id : Z; _reader_map : gmap Z SnapshotFileReader }.
#[export] Instance FileServiceImpl_eta : Settable FileServiceImpl := fun s => mkFileServiceImpl s.(_next_id) s.(_reader_map).

Record GetFileRequest : Set := mkGetFileRequest { reader_id : Z; filename : string; count : Z; offset : Z; read_partly : bool }.
#[export] Instance GetFileRequest_eta : Settable GetFileRequest := fun q =>
  mkGetFileRequest q.(reader_id) q.(filename) q.(count) q.(offset) q.(read_partly).
Record GetFileResponse : Set := mkGetFileResponse { eof : bool; read_size : option Z; attachment : IOBuf }.

(** What the service uses of its surroundings: how the read ends, what is granted,
    and the blocks of the buffer that was read. *)
Record ServeEnv : Type := mkServeEnv {
  read_env : ReadEnv;
  granted : Z;
  backing_blocks : IOBuf -> list IOBuf;
  raft_file_check_hole : bool
}.

Definition add_reader (r : SnapshotFileReader) (s : FileServiceImpl) : Z * FileServiceImpl :=
  (s.(_next_id), mkFileServiceImpl (s.(_next_id) + 1) (<[s.(_next_id) := r]> s.(_reader_map))).
Definition remove_reader (id : Z) (s : FileServiceImpl) : Errno * FileServiceImpl :=
  (if bool_decide (is_Some (s.(_reader_map) !! id)) then OK else ENEG1, s <| _reader_map := delete id s.(_reader_map) |>).

(** [is_zero] of [util.h]. *)
Definition is_zero (b : IOBuf) : bool := match b with [] => false | _ => forallb (Byte.eqb Byte.x00) b end.

Section service.
Context `{RawPack}.

(** The pieces that are sent; a block of zeros is a hole. *)
Fixpoint append_pieces (pieces : list IOBuf) (buf_off : Z) (s : FileSegData) : FileSegData :=
  match pieces with
  | [] => s
  | p :: pieces => append_pieces pieces (buf_off + zlen p) (if is_zero p then s else append p buf_off s)
  end.
Definition make_attachment (env : ServeEnv) (buf : IOBuf) (offset : Z) : IOBuf :=
  match buf with
  | [] => []
  | _ =>
      data (if negb env.(raft_file_check_hole) then append buf offset FileSegData_default
            else append_pieces (env.(backing_blocks) buf) offset FileSegData_default)
  end.

Definition get_file (env : ServeEnv) (request : GetFileRequest) : M FileServiceImpl ReadEvent (Errno + GetFileResponse) := fun s =>
  match s.(_reader_map) !! request.(reader_id) with
  | None => (inl ENOENT, s, [])
  | Some reader =>
      if (request.(count) <=? 0) || (request.(offset) <? 0) then (inl EREQUEST, s, [])
      else
        let '(res, reader, ev) :=
          read_file env.(read_env) env.(granted) request.(filename) request.(offset) request.(count) request.(read_partly) reader in
        (match res with
         | inl e => inl e
         | inr (buf, is_eof) => inr (mkGetFileResponse is_eof (Some (zlen buf)) (make_attachment env buf request.(offset)))
         end, s <| _reader_map := <[request.(reader_id) := reader]> s.(_reader_map) |>, ev)
  end.
End service.
