(* ===== verification/RemoteFileCopier.v ===== *)
(** * RemoteFileCopier: fetching a file of another peer

    Models the class [RemoteFileCopier::Session] of
    [src/braft/remote_file_copier.h] and [src/braft/remote_file_copier.cpp]: the
    requests for one piece of a file after another, retries, throttling and
    cancellation, over [FileReader] for what the other peer answers.  What runs
    under [_mutex] is a definition; the answers of the RPC, the timers, the
    throttle and the file written to are arguments. *)

From Stdlib Require Strings.Byte.
From S2P Require Import Prelude Types Disk EntryCodec FsmCaller FileReader.

Record CopyOptions : Set := mkCopyOptions { max_retry : Z; retry_interval_ms : Z; timeout_ms : Z }.
Definition CopyOptions_default : CopyOptions := mkCopyOptions 3 1000 (10 * 1000).

Record CopyFlags : Set := mkCopyFlags {
  raft_max_byte_count_per_rpc : Z;
  raft_allow_read_partly_when_install_snapshot : bool;
  raft_enable_throttle_when_install_snapshot : bool
}.

(** Where the data goes: a file, [_file] as long as it is open, or [_buf]. *)
Inductive Dest : Set := ToFile (is_open : bool) | ToBuf.

Record Session : Type := mkSession {
  _dest : Dest;
  (** the content of the file or of the buffer *)
  content : IOBuf;
  _request : GetFileRequest;
  _retry_times : Z;
  _finished : bool;
  _st : Errno;
  _options : CopyOptions;
  (** [_throttle]: the time between two tries, if there is one *)
  _throttle : option Z
}.
#[export] Instance Session_eta : Settable Session := fun s =>
  mkSession s.(_dest) s.(content) s.(_request) s.(_retry_times) s.(_finished) s.(_st) s.(_options) s.(_throttle).

Inductive CopyEvent : Set :=
| GetFile (request : GetFileRequest) (timeout_ms : Z)
| AddTimer (ms : Z)
| ReturnUnused (acquired consumed : Z)
| CloseFile
| StartCancel
| Signal
| CheckFailed.

Abbreviation XM := (M Session CopyEvent).
Definition UINT_MAX : Z := 4294967295.

(** What a thread goes on with: nothing, waiting for the RPC it has sent, a timer
    it has added, or [send_next_rpc]. *)
Inductive Then : Set := Nothing | AwaitRpc (request : GetFileRequest) | AwaitTimer | SendNext.

Definition set_request (f : GetFileRequest -> GetFileRequest) : XM unit := modify (fun s => s <| _request := f s.(_request) |>).
Definition set_status (e : Errno) : XM unit := modify (fun s => s <| _st := e |>).

(** How the calls of [on_finished] end, and whether a timer can be added; if not,
    [on_timer] is run at once. *)
Record SessionEnv : Type := mkSessionEnv {
  flags : CopyFlags;
  (** what the throttle grants *)
  throttled_by_throughput : Z -> Z;
  timer_add_ok : bool;
  sync_ok : bool;
  close_ok : bool;
  (** whether the i-th write of a piece is whole *)
  write_ok : nat -> bool
}.

Definition add_timer (env : SessionEnv) (ms : Z) : XM Then :=
  if env.(timer_add_ok) then emit (AddTimer ms) ;; mret AwaitTimer else mret SendNext.

Definition on_finished (env : SessionEnv) : XM unit :=
  s ← get;
  when (negb s.(_finished))
    ((match s.(_dest) with
      | ToFile true =>
          when (negb (env.(sync_ok) && env.(close_ok))) (set_status EIO) ;;
          emit CloseFile ;;
          modify (fun s => s <| _dest := ToFile false |>)
      | _ => skip
      end) ;;
     modify (fun s => s <| _finished := true |>) ;;
     emit Signal).

Definition send_rpc (n : Z) : XM Then :=
  set_request (fun q => q <| count := n |>) ;;
  s ← get;
  emit (GetFile s.(_request) s.(_options).(timeout_ms)) ;;
  mret (AwaitRpc s.(_request)).

Definition send_next_rpc (env : SessionEnv) : XM Then :=
  s ← get;
  let max_count := match s.(_dest) with ToBuf => UINT_MAX | _ => env.(flags).(raft_max_byte_count_per_rpc) end in
  set_request (fun q => q <| offset := q.(offset) + q.(count) |>
    <| read_partly := env.(flags).(raft_allow_read_partly_when_install_snapshot) |>) ;;
  if s.(_finished) then mret Nothing
  else
    match s.(_throttle) with
    | Some ms =>
        if env.(flags).(raft_enable_throttle_when_install_snapshot) then
          let new_max_count := env.(throttled_by_throughput) max_count in
          if new_max_count =? 0 then
            set_request (fun q => q <| count := 0 |>) ;;
            add_timer env ms
          else send_rpc new_max_count
        else send_rpc max_count
    | None => send_rpc max_count
    end.

(** The segments of an attachment, written one after the other: the result, and
    whether all were whole. *)
Fixpoint write_segments (write_ok : nat -> bool) (i : nat) (segs : list (Z * IOBuf)) (c : IOBuf) : IOBuf * bool :=
  match segs with
  | [] => (c, true)
  | (off, d) :: segs => if write_ok i then write_segments write_ok (S i) segs (overwrite c (Z.to_nat off) d) else (c, false)
  end.
(** Into a buffer: [resize] cuts off or fills with zeros. *)
Fixpoint append_segments (segs : list (Z * IOBuf)) (c : IOBuf) : IOBuf * list CopyEvent :=
  match segs with
  | [] => (c, [])
  | (off, d) :: segs =>
      let '(c', ev) := append_segments segs (set_length c (Z.to_nat off) ++ d) in
      (c', (if zlen c <=? off then [] else [CheckFailed]) ++ ev)
  end.

(** The answer of an RPC. *)
Definition Answer : Set := (Errno + GetFileResponse)%type.

(** The failure of an RPC: whether the session ends. *)
Definition stop_retrying (e : Errno) : XM bool :=
  s ← get;
  if bool_decide (e = ECANCELED) && ok s.(_st) then mret true
  else if negb (bool_decide (e = EAGAIN)) then
    modify (fun s => s <| _retry_times := s.(_retry_times) + 1 |>) ;;
    mret ((s.(_options).(max_retry) <=? s.(_retry_times)) && ok s.(_st))
  else mret false.

Definition on_rpc_failed (env : SessionEnv) (e : Errno) : XM Then :=
  s ← get;
  set_request (fun q => q <| count := 0 |>) ;;
  ends ← stop_retrying e;
  if (ends : bool) then set_status e ;; on_finished env ;; mret Nothing
  else
    (if bool_decide (e = EAGAIN) then
       match s.(_throttle) with
       | Some ms =>
           when env.(flags).(raft_enable_throttle_when_install_snapshot) (emit (ReturnUnused s.(_request).(count) 0)) ;;
           add_timer env ms
       | None => add_timer env s.(_options).(retry_interval_ms)
       end
     else add_timer env s.(_options).(retry_interval_ms)).

Section session.
Context `{RawPack}.

Definition on_rpc_succeeded (env : SessionEnv) (r : GetFileResponse) : XM Then :=
  s ← get;
  when (bool_decide (s.(_throttle) <> None) && env.(flags).(raft_enable_throttle_when_install_snapshot)
        && (zlen r.(attachment) <? s.(_request).(count)))
    (emit (ReturnUnused s.(_request).(count) (zlen r.(attachment)))) ;;
  modify (fun s => s <| _retry_times := 0 |>) ;;
  (match r.(read_size) with
   | Some n => when (negb (n =? 0) && env.(flags).(raft_allow_read_partly_when_install_snapshot)) (set_request (fun q => q <| count := n |>))
   | None => skip
   end) ;;
  let '(segs, ev) := segments r.(attachment) in
  emits (map (fun _ => CheckFailed) ev) ;;
  (match s.(_dest) with
   | ToFile true =>
       let '(c, whole) := write_segments env.(write_ok) 0 segs s.(content) in
       modify (fun s => s <| content := c |>) ;; mret whole
   | _ =>
       let '(c, ev) := append_segments segs s.(content) in
       modify (fun s => s <| content := c |>) ;; emits ev ;; mret true
   end) ≫= fun whole : bool =>
  if negb whole then set_status EIO ;; on_finished env ;; mret Nothing
  else if r.(eof) then on_finished env ;; mret Nothing
  else mret SendNext.

Definition on_rpc_returned (env : SessionEnv) (a : Answer) : XM Then :=
  s ← get;
  if s.(_finished) then mret Nothing
  else match a with inl e => on_rpc_failed env e | inr r => on_rpc_succeeded env r end.

(** [timer_deleted]: the timer had not fired. *)
Definition cancel (env : SessionEnv) : XM unit :=
  s ← get;
  if s.(_finished) then skip
  else
    emit StartCancel ;;
    when (ok s.(_st)) (set_status ECANCELED) ;;
    on_finished env.

(** ** Starting *)

(** [start_to_copy_to_file] and [start_to_copy_to_iobuf], up to [send_next_rpc]. *)
Definition start_to_copy_to_file (id : Z) (source : string) (open_ok : bool) (options : CopyOptions) (throttle : option Z) : option Session :=
  if negb open_ok then None
  else Some (mkSession (ToFile true) [] (mkGetFileRequest id source 0 0 false) 0 false OK options throttle).
Definition start_to_copy_to_iobuf (id : Z) (source : string) (options : CopyOptions) : Session :=
  mkSession ToBuf [] (mkGetFileRequest id source 0 0 false) 0 false OK options None.

(** ** Runs *)
Record World : Type := mkWorld { session : Session; pending : list Then; events : list CopyEvent }.

Inductive Section_ : Type :=
| Send (env : SessionEnv)
| Fire
| Returned (env : SessionEnv) (a : Answer)
| Cancel (timer_deleted : bool) (env : SessionEnv).

(** What goes on by itself: at most one thing. *)
Definition waits (t : Then) : list Then := match t with Nothing => [] | _ => [t] end.

Definition section_of (pending : list Then) (c : Section_) : option (XM (list Then)) :=
  match c, pending with
  | Send env, SendNext :: ps => Some (t ← send_next_rpc env; mret (waits t ++ ps))
  | Fire, AwaitTimer :: ps => Some (mret (SendNext :: ps))
  | Returned env a, AwaitRpc _ :: ps => Some (t ← on_rpc_returned env a; mret (waits t ++ ps))
  | Cancel timer_deleted env, ps =>
      Some (s ← get; cancel env ;;
            mret (if negb s.(_finished) && timer_deleted then match ps with AwaitTimer :: ps => ps | _ => ps end else ps))
  | _, _ => None
  end.

Definition step_with (w : World) (c : Section_) : option World :=
  (fun m : XM (list Then) => let '(ps, s, ev) := m w.(session) in mkWorld s ps (w.(events) ++ ev)) <$> section_of w.(pending) c.
Fixpoint run_sections (w : World) (cs : list Section_) : option World :=
  match cs with
  | [] => Some w
  | c :: cs => step_with w c ≫= fun w' => run_sections w' cs
  end.
Definition started (s : Session) : World := mkWorld s [SendNext] [].
End session.
