(* ===== verification/TransferProofs.v ===== *)
(** * TransferProofs: what another peer reads of a file is what is in it

    The answers of [FileServiceImpl::get_file] in a service that readers have been
    added to and read from in any way, and what they do to the file they are
    written to, hole by hole. *)

From Stdlib Require Strings.Byte.
From S2P Require Import Prelude Types Disk EntryCodec FsmCaller SnapshotFiles FileReader RemoteFileCopier.

(** ** A file that is written in order *)
Definition zeros (n : nat) : IOBuf := replicate n Byte.x00.

(** [d] with zeros up to [n]. *)
Definition pad (d : IOBuf) (n : nat) : IOBuf := d ++ zeros (n - length d).

Arguments pad : simpl never.

Lemma pad_length d n : (length d <= n)%nat -> length (pad d n) = n.
Proof. intros. unfold pad, zeros. rewrite length_app, length_replicate. lia. Qed.
Lemma pad_full d : pad d (length d) = d.
Proof. unfold pad. rewrite Nat.sub_diag. by rewrite app_nil_r. Qed.
Lemma pad_more d n m : (length d <= n)%nat -> pad d (n + m) = pad d n ++ zeros m.
Proof.
  intros. unfold pad, zeros. replace (n + m - length d)%nat with ((n - length d) + m)%nat by lia. by rewrite replicate_add, app_assoc.
Qed.
Lemma overwrite_past d n x : (length d <= n)%nat -> overwrite d n x = pad d n ++ x.
Proof.
  intros. unfold overwrite, pad, zeros. rewrite take_ge by lia. rewrite drop_ge by lia. rewrite app_nil_r. by rewrite <- app_assoc.
Qed.
Lemma set_length_past d n : (length d <= n)%nat -> set_length d n = pad d n.
Proof. intros. unfold set_length, pad, zeros. by rewrite take_ge by lia. Qed.

(** Segments in the order of their offsets, from [lo] to [hi]. *)
Fixpoint chain (lo : Z) (segs : list (Z * IOBuf)) (hi : Z) : Prop :=
  match segs with
  | [] => lo <= hi
  | (o, d) :: segs => lo <= o /\ chain (o + zlen d) segs hi
  end.

Lemma chain_bounds lo segs hi : chain lo segs hi -> lo <= hi /\ Forall (fun s => lo <= s.1 /\ s.1 + zlen s.2 <= hi) segs.
Proof.
  revert lo. induction segs as [|[o d] segs IH]; intros lo Hc; cbn in Hc; [by split|].
  destruct Hc as [Ho Hc]. destruct (IH _ Hc) as [Hle Hall]. pose proof (zlen_nonneg d). split; [lia|].
  constructor; [cbn; lia|]. eapply Forall_impl; [exact Hall|]. intros s Hs. cbn in Hs. lia.
Qed.
Lemma seg_chain_snoc lo segs hi o d hi' : chain lo segs hi -> hi <= o -> o + zlen d <= hi' -> chain lo (segs ++ [(o, d)]) hi'.
Proof.
  revert lo. induction segs as [|[o' d'] segs IH]; intros lo Hc Ho Hh; cbn in *; [split; lia|]. destruct Hc as [? Hc]. split; [done|]. by apply IH.
Qed.
Lemma chain_app lo l k hi : chain lo (l ++ k) hi -> exists mid, chain lo l mid /\ chain mid k hi.
Proof.
  revert lo. induction l as [|[o d] l IH]; intros lo Hc; cbn in *; [by exists lo|]. destruct Hc as [? Hc]. destruct (IH _ Hc) as (mid & ? & ?). by exists mid.
Qed.
Lemma chain_widen lo segs hi hi' : chain lo segs hi -> hi <= hi' -> chain lo segs hi'.
Proof. revert lo. induction segs as [|[o d] segs IH]; intros lo Hc Hh; cbn in *; [lia|]. destruct Hc. split; [done|]. by apply IH. Qed.

Lemma deliver_app l k d : deliver (l ++ k) d = deliver k (deliver l d).
Proof. unfold deliver. by rewrite fold_left_app. Qed.

Lemma deliver_chain lo segs hi d : 0 <= lo -> chain lo segs hi -> zlen d <= lo -> zlen (deliver segs d) <= hi.
Proof.
  revert lo d. induction segs as [|[o x] segs IH]; intros lo d Hlo Hc Hd; cbn in *; [lia|]. destruct Hc as [Ho Hc].
  pose proof (zlen_nonneg x). apply (IH (o + zlen x)); [lia|done|].
  rewrite overwrite_past by (unfold zlen in *; lia). rewrite zlen_app. unfold zlen in *. rewrite pad_length by lia. lia.
Qed.

(** A buffer gets the same bytes as a file. *)
Lemma append_segments_deliver lo segs hi d : 0 <= lo -> chain lo segs hi -> zlen d <= lo -> append_segments segs d = (deliver segs d, []).
Proof.
  revert lo d. induction segs as [|[o x] segs IH]; intros lo d Hlo Hc Hd; cbn in *; [done|]. destruct Hc as [Ho Hc].
  pose proof (zlen_nonneg x). rewrite set_length_past by (unfold zlen in *; lia). rewrite <- overwrite_past by (unfold zlen in *; lia).
  rewrite (IH (o + zlen x)).
  - rewrite (proj2 (Z.leb_le _ _)) by lia. done.
  - lia.
  - done.
  - rewrite overwrite_past by (unfold zlen in *; lia). rewrite zlen_app. unfold zlen in *. rewrite pad_length by lia. lia.
Qed.
Lemma write_segments_all ok i segs d : (forall n, ok n = true) -> write_segments ok i segs d = (deliver segs d, true).
Proof. intros Hok. revert i d. induction segs as [|[o x] segs IH]; intros i d; cbn; [done|]. by rewrite Hok. Qed.
Lemma write_segments_whole ok i segs d c : write_segments ok i segs d = (c, true) -> c = deliver segs d.
Proof.
  revert i d. induction segs as [|[o x] segs IH]; intros i d; cbn; [by intros [= ->]|]. destruct (ok i); [|done]. apply IH.
Qed.

(** ** The pieces of an attachment *)
Section pieces.
Context `{RawPack}.

(** The segments [segs] put [buf] at [off]. *)
Definition puts (segs : list (Z * IOBuf)) (off : Z) (buf : IOBuf) : Prop :=
  chain off segs (off + zlen buf) /\
  forall d, zlen d <= off -> pad (deliver segs d) (Z.to_nat (off + zlen buf)) = pad d (Z.to_nat off) ++ buf.

Lemma puts_nil off : 0 <= off -> puts [] off [].
Proof.
  intros Ho. split; [cbn; rewrite zlen_nil; lia|]. intros d Hd. rewrite zlen_nil, Z.add_0_r, app_nil_r. done.
Qed.
Lemma puts_one off buf : 0 <= off -> puts [(off, buf)] off buf.
Proof.
  intros Ho. split; [cbn; split; lia|]. intros d Hd. cbn. rewrite overwrite_past by (unfold zlen in *; lia).
  replace (Z.to_nat (off + zlen buf)) with (length (pad d (Z.to_nat off) ++ buf)); [by rewrite pad_full|].
  rewrite length_app, pad_length by (unfold zlen in *; lia). unfold zlen. lia.
Qed.

Lemma puts_hole segs off buf z : 0 <= off -> puts segs off buf -> puts segs off (buf ++ zeros z).
Proof.
  intros Ho [Hc Hp]. pose proof (zlen_nonneg buf). assert (zlen (zeros z) = Z.of_nat z) as Hz by (unfold zlen, zeros; by rewrite length_replicate).
  rewrite <- (app_nil_r segs) in Hc at 1. split.
  - rewrite app_nil_r in Hc. eapply chain_widen; [exact Hc|]. rewrite zlen_app. lia.
  - intros d Hd. rewrite app_assoc, <- Hp, zlen_app, Hz by done. rewrite app_nil_r in Hc.
    replace (Z.to_nat (off + (zlen buf + Z.of_nat z))) with (Z.to_nat (off + zlen buf) + z)%nat by lia.
    apply pad_more. pose proof (deliver_chain off segs _ d Ho Hc Hd). unfold zlen in *. lia.
Qed.

Lemma removelast_snoc {A} (l : list A) x : removelast (l ++ [x]) = l.
Proof. apply removelast_last. Qed.

Lemma puts_piece segs off buf x : 0 <= off -> puts segs off buf -> puts (merge segs (off + zlen buf) x) off (buf ++ x).
Proof.
  intros Ho [Hc Hp]. pose proof (zlen_nonneg buf). pose proof (zlen_nonneg x).
  assert (puts (segs ++ [(off + zlen buf, x)]) off (buf ++ x)) as Hnew.
  { split; [eapply seg_chain_snoc; [exact Hc|lia|rewrite zlen_app; lia]|]. intros d Hd. rewrite deliver_app. cbn.
    pose proof (deliver_chain off segs _ d Ho Hc Hd) as Hl. rewrite overwrite_past by (unfold zlen in *; lia). rewrite Hp by done.
    rewrite <- app_assoc. replace (Z.to_nat (off + zlen (buf ++ x))) with (length (pad d (Z.to_nat off) ++ buf ++ x)); [by rewrite pad_full|].
    rewrite !length_app, pad_length by (unfold zlen in *; lia). rewrite zlen_app. unfold zlen. lia. }
  unfold merge. destruct (last segs) as [[o d']|] eqn:Hlast; [|done]. destruct (negb (0 =? o) && _) eqn:Hm; [|done].
  apply andb_true_iff in Hm as [_ Hm%Z.eqb_eq]. apply last_Some in Hlast as [old ->]. rewrite removelast_snoc.
  destruct (chain_app _ _ _ _ Hc) as (mid & Hc1 & Hc2). cbn in Hc2. destruct Hc2 as [Hc2 Hc3]. destruct (chain_bounds _ _ _ Hc1) as [Hlo _].
  destruct Hnew as [_ Hnew]. split.
  - eapply seg_chain_snoc; [exact Hc1|done|]. rewrite !zlen_app. lia.
  - intros d Hd. rewrite <- Hnew by done. f_equal. rewrite !deliver_app. cbn.
    pose proof (deliver_chain off old mid d Ho Hc1 Hd) as Hl. rewrite !(overwrite_past (deliver old d)) by (unfold zlen in *; lia).
    rewrite overwrite_past.
    + replace (Z.to_nat (off + zlen buf)) with (length (pad (deliver old d) (Z.to_nat o) ++ d')); [by rewrite pad_full, app_assoc|].
      rewrite length_app, pad_length by (unfold zlen in *; lia). unfold zlen in *. lia.
    + rewrite length_app, pad_length by (unfold zlen in *; lia). unfold zlen in *. lia.
Qed.

Lemma is_zero_spec p : is_zero p = true -> p = zeros (length p).
Proof.
  destruct p as [|b p]; [done|]. unfold is_zero. rewrite forallb_forall. intros Hf. symmetry. apply replicate_as_elem_of. split; [done|].
  intros x Hx%list_elem_of_In%Hf. symmetry. by apply Byte.byte_dec_bl.
Qed.

Lemma append_pieces_puts pieces s segs off buf : Forall (fun p => p <> []) pieces -> 0 <= off -> off + zlen buf + zlen (concat pieces) < 2 ^ 63 ->
  zlen buf + zlen (concat pieces) < 2 ^ 32 -> holds segs s -> puts segs off buf ->
  exists segs', holds segs' (append_pieces pieces (off + zlen buf) s) /\ puts segs' off (buf ++ concat pieces).
Proof.
  intros Hne. revert s segs buf. induction Hne as [|p pieces Hne Hnes IH]; intros s segs buf Ho Hmax Hlen Hh Hp; cbn [append_pieces concat] in *.
  { exists segs. by rewrite app_nil_r. }
  rewrite zlen_app in Hmax, Hlen. pose proof (zlen_nonneg p). pose proof (zlen_nonneg buf). pose proof (zlen_nonneg (concat pieces)).
  rewrite app_assoc. replace (off + zlen buf + zlen p) with (off + zlen (buf ++ p)) by (rewrite zlen_app; lia).
  destruct (is_zero p) eqn:Hz.
  - apply (IH s segs); try done; try (rewrite zlen_app; lia). rewrite (is_zero_spec p Hz). by apply puts_hole.
  - assert (0 < zlen p) by (destruct p; [done|unfold zlen; cbn; lia]).
    apply (IH _ (merge segs (off + zlen buf) p)); try done; try (rewrite zlen_app; lia); [|by apply puts_piece].
    destruct Hp as [Hc _]. destruct (chain_bounds _ _ _ Hc) as [_ Hb]. apply append_holds; [done|split; cbn; lia|].
    eapply Forall_impl; [exact Hb|]. intros x Hx. cbn in Hx. lia.
Qed.

(** The attachment that is made of a buffer puts it where it was read. *)
Lemma attachment_puts env buf off : 0 <= off -> off + zlen buf < 2 ^ 63 -> zlen buf < 2 ^ 32 ->
  concat (env.(backing_blocks) buf) = buf -> Forall (fun p => p <> []) (env.(backing_blocks) buf) ->
  exists segs, segments (make_attachment env buf off) = (segs, []) /\ puts segs off buf /\
    (env.(raft_file_check_hole) = false -> buf <> [] -> segs = [(off, buf)]).
Proof.
  intros Ho Hmax Hlen Hb Hne. unfold make_attachment. destruct buf as [|b buf'] eqn:He.
  { exists []. split_and!; [done|by apply puts_nil|done]. }
  rewrite <- He in *. assert (0 < zlen buf) by (subst buf; unfold zlen; cbn; lia).
  destruct (raft_file_check_hole env) eqn:Hh; cbn [negb].
  - destruct (append_pieces_puts (backing_blocks env buf) FileSegData_default [] off []) as (segs & Hs & Hp); try done; try (rewrite ?Hb, ?zlen_nil; lia); [by apply puts_nil|].
    rewrite zlen_nil, Z.add_0_r in Hs. cbn [app] in Hp. rewrite Hb in Hp. exists segs. split_and!; [|done|done].
    destruct Hs as (Hok & Hc & _). unfold data, close. cbn [_data]. rewrite Hc. by apply segments_encode.
  - destruct (append_holds [] FileSegData_default off buf holds_default) as (Hok & Hc & _); [split; cbn; lia|constructor|].
    exists [(off, buf)]. split_and!; [|by apply puts_one|done]. unfold data, close. cbn [_data]. rewrite Hc. by apply segments_encode.
Qed.
End pieces.

(** * What the file service answers

    The invariant of a service that readers are added to, removed from and read
    from, and what a successful answer holds. *)


Lemma file_pread_Some c reads o n acc b : file_pread c reads o n acc = Some b -> b = acc ++ slice c o n.
Proof.
  intros Hr. assert (file_pread c (filter (fun r => r <> ReadError) reads) o n acc = Some b) as Hf.
  { revert o n acc Hr. induction reads as [|r reads IH]; intros o n acc Hr; [done|]. rewrite filter_cons.
    destruct n as [|n]; [by destruct r, (filter _ reads)|]. destruct r as [k| |]; [|by apply IH|done].
    rewrite decide_True by done. cbn [file_pread] in *. destruct (slice c o _) eqn:Hs; [done|]. by apply IH. }
  rewrite file_pread_slice in Hf; [by injection Hf as <-|]. intros Hin%list_elem_of_filter. by destruct Hin as [? _].
Qed.

(** A reader that has a file open has the one of that name. *)
Definition dir_ok (r : LocalDirReader) : Prop :=
  match r.(_current_file) with
  | Some c => r.(_files) !! r.(_current_filename) = Some c
  | None => r.(_current_filename) = EmptyString
  end.

(** What a read of [n] bytes of [c] yields. *)
Definition reads_of (c : IOBuf) (offset n : Z) (out : IOBuf) (is_eof : bool) : Prop :=
  out = slice c (Z.to_nat offset) (Z.to_nat n) /\ is_eof = (zlen out <? n) || (zlen c =? offset + n).

Lemma read_data_spec env c offset n out is_eof : 0 <= n -> read_data env c offset n = GotData out is_eof -> reads_of c offset n out is_eof.
Proof.
  intros Hn. unfold read_data. destruct (file_pread _ _ _ _ _) as [b|] eqn:Hp; [|done]. apply file_pread_Some in Hp. cbn in Hp. subst b.
  unfold reads_of. destruct (_ <? _) eqn:Hl; [intros [= <- <-]; by rewrite Hl|]. destruct (size_ok env); [|done].
  intros [= <- <-]. by rewrite Hl.
Qed.

Lemma read_begin_spec env name offset r tr : dir_ok r -> name <> EmptyString ->
  wpt (read_begin env name offset) (fun res r' _ => r'.(_files) = r.(_files) /\ dir_ok r' /\
    forall c, res = inr c -> r.(_files) !! name = Some c) r tr.
Proof.
  intros Hr Hn. unfold read_begin. wpt_step. wpt_step. destruct (_is_reading r); [by wpt_go|].
  destruct (String.eqb_spec name (_current_filename r)) as [->|Hne]; cbn [negb].
  - unfold dir_ok in *. destruct (_current_file r) as [c|] eqn:Hcf; [|by destruct Hn]. rewrite bool_decide_false by done.
    cbn [when default]. wpt_go. split; [done|]. split; [cbn; by rewrite Hcf|]. by intros c' [= <-].
  - destruct (negb _ || negb _); [by wpt_go|]. apply wpt_bind. apply wpt_when; intros Hb; try wpt_step.
    all: destruct (ok (open_error env)); cbn; try (by wpt_go; unfold dir_ok in *; destruct (_current_file r)).
    all: destruct (_files r !! name) as [c|] eqn:Hf; cbn; wpt_go; split_and!; try done; unfold dir_ok in *; cbn; try done.
    all: try (by intros c' [= <-]).
Qed.

Lemma read_file_with_meta_spec env name offset n r tr : dir_ok r -> name <> EmptyString -> 0 <= n ->
  wpt (read_file_with_meta env name offset n) (fun res r' _ => r'.(_files) = r.(_files) /\ dir_ok r' /\
    forall out is_eof, res = inr (out, is_eof) -> exists c, r.(_files) !! name = Some c /\ reads_of c offset n out is_eof) r tr.
Proof.
  intros Hr Hne Hn. unfold read_file_with_meta. apply wpt_bind. eapply wpt_mono; [by apply read_begin_spec|].
  intros res r' tr' (Hf & Hok & Hc). destruct res as [e|c]; [by wpt_go|]. specialize (Hc c eq_refl).
  destruct (read_data env c offset n) as [out is_eof| |] eqn:Hd; unfold read_end; wpt_go; (split; [done|]; split; [done|]); try done.
  intros out' eof' [= <- <-]. exists c. split; [done|by apply (read_data_spec env)].
Qed.

Definition reader_ok (r : SnapshotFileReader) : Prop := dir_ok r.(dir_reader).
(** The content another peer finds under a name. *)
Definition has_content (r : SnapshotFileReader) (name : string) (c : IOBuf) : Prop :=
  if String.eqb name BRAFT_SNAPSHOT_META_FILE then r.(meta_bytes) = Some c else r.(dir_reader).(_files) !! name = Some c.
(** A piece of it that may be answered to a request. *)
Definition piece_of (name : string) (c : IOBuf) (q : GetFileRequest) (out : IOBuf) (is_eof : bool) : Prop :=
  if String.eqb name BRAFT_SNAPSHOT_META_FILE then out = c /\ is_eof = true
  else exists n, 0 < n <= q.(count) /\ reads_of c q.(offset) n out is_eof /\ (q.(read_partly) = false -> n = q.(count)).

Definition same_reader (r r' : SnapshotFileReader) : Prop :=
  r'.(meta_bytes) = r.(meta_bytes) /\ r'.(dir_reader).(_files) = r.(dir_reader).(_files) /\ reader_ok r'.

Lemma read_file_spec env g q r tr : reader_ok r -> q.(filename) <> EmptyString -> 0 < q.(count) -> 0 <= g <= q.(count) ->
  wpt (read_file env g q.(filename) q.(offset) q.(count) q.(read_partly)) (fun res r' _ => same_reader r r' /\
    forall out is_eof c, res = inr (out, is_eof) -> has_content r q.(filename) c -> piece_of q.(filename) c q out is_eof) r tr.
Proof.
  intros Hr Hne Hc Hg. unfold read_file, has_content, piece_of. wpt_step. wpt_step.
  destruct (String.eqb _ _) eqn:Hm.
  { wpt_go. split; [by split_and!|]. intros out is_eof c. destruct (meta_bytes r); [|done]. by intros [= -> <-] [= ->]. }
  destruct (negb (bool_decide _)); [wpt_go; split; [by split_and!|done]|].
  assert (forall n tr0, 0 < n <= q.(count) -> (q.(read_partly) = false -> n = q.(count)) ->
    wpt (on_dir (read_file_with_meta env q.(filename) q.(offset) n)) (fun res r' _ => same_reader r r' /\
      forall out is_eof c, res = inr (out, is_eof) -> r.(dir_reader).(_files) !! q.(filename) = Some c ->
        exists n, 0 < n <= q.(count) /\ reads_of c q.(offset) n out is_eof /\ (q.(read_partly) = false -> n = q.(count))) r tr0) as Hread.
  { intros n tr0 Hn Hp. pose proof (read_file_with_meta_spec env q.(filename) q.(offset) n r.(dir_reader) [] Hr Hne) as Hw.
    unfold wpt, value_of, state_of, events_of, on_dir in *. destruct (read_file_with_meta _ _ _ _ _) as [[res d] ev]. cbn in *.
    destruct Hw as (Hf & Hok & Hout); [lia|]. split; [by split_and!|]. intros out is_eof c Hres Hfc.
    destruct (Hout out is_eof Hres) as (c' & Hc' & Ho). rewrite Hfc in Hc'. injection Hc' as <-. by exists n. }
  destruct (throttled r); [|by apply Hread; [lia|]].
  apply wpt_bind. destruct ((g <? count q) && _) eqn:Hag.
  - wpt_go. all: split; [by split_and!|done].
  - eapply wpt_mono; [apply Hread|].
    + apply andb_false_iff in Hag as [Hag%Z.ltb_ge|[_ Hag%Z.eqb_neq]%orb_false_iff]; lia.
    + intros Hp. apply andb_false_iff in Hag as [Hag%Z.ltb_ge|[Hag _]%orb_false_iff]; [lia|]. by rewrite Hp in Hag.
    + intros res r' tr' [Hs Ho]. by wpt_go.
Qed.

(** ** The service *)
Section service.
Context `{RawPack}.

Definition service_ok (s : FileServiceImpl) : Prop := forall id r, s.(_reader_map) !! id = Some r -> reader_ok r.

(** What happens to a service: a reader of the files of a snapshot is added or
    removed, and pieces of files are asked for. *)
Inductive service_step (s : FileServiceImpl) : FileServiceImpl -> Prop :=
| AddReader serialize files table throttled :
    service_step s (add_reader (SnapshotFileReader_new serialize files table throttled) s).2
| RemoveReader id : service_step s (remove_reader id s).2
| Ask env q : q.(filename) <> EmptyString -> 0 <= env.(granted) <= q.(count) -> service_step s (get_file env q s).1.2.
Definition service_reachable (s : FileServiceImpl) : Prop := exists id, rtc service_step (mkFileServiceImpl id ∅) s.

Lemma get_file_cases env q s : service_ok s -> q.(filename) <> EmptyString -> 0 <= env.(granted) <= q.(count) ->
  let '(res, s', ev) := get_file env q s in service_ok s' /\
  forall r, res = inr r -> 0 < q.(count) /\ 0 <= q.(offset) /\ exists rd, s.(_reader_map) !! q.(reader_id) = Some rd /\
    forall c, has_content rd q.(filename) c -> exists out, piece_of q.(filename) c q out r.(eof) /\
      r.(read_size) = Some (zlen out) /\ r.(attachment) = make_attachment env out q.(offset).
Proof.
  intros Hok Hne Hg. unfold get_file. destruct (_reader_map s !! reader_id q) as [rd|] eqn:Hrd; [|done].
  destruct (Z.leb_spec (count q) 0) as [|Hc]; [done|]. destruct (Z.ltb_spec (offset q) 0) as [|Ho]; [done|]. cbn [orb].
  pose proof (read_file_spec (read_env env) (granted env) q rd [] (Hok _ _ Hrd) Hne Hc Hg) as Hw.
  unfold wpt, value_of, state_of, events_of in Hw. destruct (read_file _ _ _ _ _ _ rd) as [[res rd'] ev]. cbn [fst snd] in Hw.
  destruct Hw as [(_ & _ & Hok') Hout]. split.
  - intros id r. cbn. rewrite lookup_insert_Some. intros [[_ <-]|[_ Hr]]; [done|by eapply Hok].
  - intros r Hr. destruct res as [e|[out is_eof]]; [done|]. injection Hr as <-. split; [lia|]. split; [done|]. exists rd. split; [done|].
    intros c Hhas. exists out. split; [|done]. cbn. by apply (Hout out is_eof c).
Qed.

Lemma service_reachable_ok s : service_reachable s -> service_ok s.
Proof.
  intros [id Hr]. assert (service_ok (mkFileServiceImpl id ∅)) as H0 by (intros i r Hi; cbn in Hi; by rewrite lookup_empty in Hi).
  induction Hr as [|s s1 s2 Hs _ IH]; [done|]. apply IH. destruct Hs as [ser files table th|i|env q Hne Hg].
  - intros i r. cbn. rewrite lookup_insert_Some. intros [[_ <-]|[_ Hr]]; [done|by eapply H0].
  - intros j r. cbn. rewrite lookup_delete_Some. intros [_ Hr]. by eapply H0.
  - pose proof (get_file_cases env q s H0 Hne Hg) as Hc. destruct (get_file env q s) as [[res s'] ev]. exact (proj1 Hc).
Qed.

(** An answer to [q] from a service that has the content [c] under the name; the
    service cuts the data into blocks that are not empty. *)
Definition served (hole : bool) (c : IOBuf) (q : GetFileRequest) (r : GetFileResponse) : Prop :=
  exists env s s' ev rd, service_reachable s /\ s.(_reader_map) !! q.(reader_id) = Some rd /\ has_content rd q.(filename) c /\
    0 <= env.(granted) <= q.(count) /\ env.(raft_file_check_hole) = hole /\
    (forall b, concat (env.(backing_blocks) b) = b /\ Forall (fun p => p <> []) (env.(backing_blocks) b)) /\
    get_file env q s = (inr r, s', ev).

(** What it does to the file it is written to. *)
Lemma served_puts hole c q r : served hole c q r -> q.(filename) <> EmptyString -> q.(offset) + zlen c < 2 ^ 63 ->
  (if String.eqb q.(filename) BRAFT_SNAPSHOT_META_FILE then zlen c < 2 ^ 32 else q.(count) < 2 ^ 32) ->
  exists out segs, piece_of q.(filename) c q out r.(eof) /\ r.(read_size) = Some (zlen out) /\ 0 < q.(count) /\ 0 <= q.(offset) /\
    segments r.(attachment) = (segs, []) /\ puts segs q.(offset) out /\ (hole = false -> out <> [] -> segs = [(q.(offset), out)]).
Proof.
  intros (env & s & s' & ev & rd & Hs & Hrd & Hhas & Hg & Hh & Hb & Hget) Hne Hmax Hlen.
  pose proof (get_file_cases env q s (service_reachable_ok s Hs) Hne Hg) as Hc. rewrite Hget in Hc.
  destruct Hc as [_ Hc]. destruct (Hc r eq_refl) as (Hc0 & Ho & rd' & Hrd' & Hp). rewrite Hrd in Hrd'. injection Hrd' as <-.
  destruct (Hp c Hhas) as (out & Hpiece & Hsize & Hatt).
  assert (zlen out <= zlen c /\ zlen out < 2 ^ 32) as [Hout1 Hout2].
  { unfold piece_of in Hpiece. destruct (String.eqb _ _); [destruct Hpiece as [-> _]; lia|].
    destruct Hpiece as (n & Hn & [-> _] & _). unfold zlen. rewrite slice_length. unfold zlen in *. lia. }
  destruct (attachment_puts env out q.(offset)) as (segs & Hsegs & Hputs & Hone); [done|lia|done|apply Hb..|].
  exists out, segs. rewrite Hatt. split_and!; try done. intros Hf. apply Hone. by rewrite Hh.
Qed.
End service.
