(* ===== verification/RemoteFileCopierProofs.v ===== *)
(** * RemoteFileCopierProofs: a session copies the whole file, and ends

    The invariant of the runs of a session against a peer that serves the file:
    what is written so far is the file up to the position of the next request, and
    the answers so far, those that tell to try again apart, are bounded by the bytes
    and the retries.  Zeros at the end may be missing. *)

From Stdlib Require Strings.Byte.
From S2P Require Import Prelude Types Disk EntryCodec FsmCaller SnapshotFiles FileReader RemoteFileCopier TransferProofs.

#[export] Instance GetFileRequest_eq_dec : EqDecision GetFileRequest.
Proof. solve_decision. Defined.
#[export] Instance CopyEvent_eq_dec : EqDecision CopyEvent.
Proof. solve_decision. Defined.

Definition signals (tr : list CopyEvent) : nat := length (filter (fun e => e = Signal) tr).
Arguments signals _ : simpl never.
Lemma signals_snoc tr e : signals (tr ++ [e]) = (signals tr + if decide (e = Signal) then 1 else 0)%nat.
Proof. unfold signals. rewrite filter_app, length_app, filter_cons. by destruct (decide _). Qed.

Section copy.
Context `{RawPack}.
Context (hole : bool) (c : IOBuf) (id : Z) (name : string) (f : CopyFlags) (retries : Z).

(** The answers that count: those to a session that goes on, but for those that tell
    to try again. *)
Definition counted (cs : Section_) : nat := match cs with Returned _ (inl EAGAIN) => 0 | Returned _ _ => 1 | _ => 0 end.
Definition counts (w : World) (cs : Section_) : nat := if w.(session).(_finished) then 0 else counted cs.

Definition env_ok (env : SessionEnv) : Prop :=
  env.(flags) = f /\ forall n, 0 <= n -> 0 <= env.(throttled_by_throughput) n <= n.

(** A section that may run: the flags do not change, and an RPC that succeeds has an
    answer of the service, and one that fails an error. *)
Definition legal (w : World) (cs : Section_) : Prop :=
  match cs with
  | Send env | Cancel _ env => env_ok env
  | Returned env (inl e) => env_ok env /\ e <> OK
  | Returned env (inr r) => env_ok env /\ forall q, AwaitRpc q ∈ w.(pending) -> served hole c q r
  | Fire => True
  end.

Inductive runs (w0 : World) : nat -> World -> Prop :=
| runs_none : runs w0 0 w0
| runs_step n w cs w' : runs w0 n w -> legal w cs -> step_with w cs = Some w' -> runs w0 (n + counts w cs) w'.

(** ** The invariant *)
Definition is_meta : bool := String.eqb name BRAFT_SNAPSHOT_META_FILE.
Definition max_count (s : Session) : Z := match s.(_dest) with ToBuf => UINT_MAX | _ => f.(raft_max_byte_count_per_rpc) end.

(** What is written when the next byte to ask for is [p]. *)
Definition copied (d : IOBuf) (p : Z) : Prop :=
  0 <= p /\ zlen d <= p /\ pad d (Z.to_nat p) = take (Z.to_nat p) c /\ (hole = false -> zlen d = p).

(** What is under way, when the next byte to ask for is [p]. *)
Definition under_way (s : Session) (ps : list Then) (p : Z) : Prop :=
  match ps with
  | [SendNext] => s.(_request).(offset) + s.(_request).(count) = p
  | [AwaitTimer] => s.(_request).(offset) = p /\ s.(_request).(count) = 0
  | [AwaitRpc q] => q = s.(_request) /\ q.(offset) = p /\ q.(count) <= max_count s /\
      q.(read_partly) = f.(raft_allow_read_partly_when_install_snapshot)
  | _ => False
  end.

Definition alive (s : Session) (ps : list Then) (n : nat) : Prop :=
  s.(_finished) = false /\ s.(_st) = OK /\ s.(_dest) <> ToFile false /\ 0 <= s.(_retry_times) <= retries /\
  exists p, (p < zlen c \/ p = 0) /\ (is_meta = true -> p = 0) /\ copied s.(content) p /\ under_way s ps p /\
    Z.of_nat n <= p * (retries + 1) + s.(_retry_times).

Definition whole (s : Session) : Prop := s.(_st) = OK -> exists k, s.(content) ++ zeros k = c /\ (hole = false -> k = 0%nat).
Definition few (n : nat) : Prop := Z.of_nat n <= Z.max (zlen c) 1 * (retries + 1).
Definition ended (s : Session) (ps : list Then) (n : nat) : Prop := s.(_finished) = true /\ (length ps <= 1)%nat /\ whole s /\ few n.

Definition named (s : Session) : Prop := s.(_request).(filename) = name /\ s.(_options).(max_retry) = retries.
Definition good (ps : list Then) (n : nat) (s : Session) (tr : list CopyEvent) : Prop :=
  named s /\ CheckFailed ∉ tr /\ ((alive s ps n /\ signals tr = 0%nat) \/ (ended s ps n /\ signals tr = 1%nat)).

Hypothesis Hretries : 0 <= retries.
Hypothesis Hname : name <> EmptyString.
Hypothesis Hsize : zlen c < 2 ^ 62.
Hypothesis Hmeta : is_meta = true -> zlen c < 2 ^ 32.
Hypothesis Hflag : 0 < f.(raft_max_byte_count_per_rpc) < 2 ^ 32.

(** An event that is neither a signal nor a failed check. *)
Definition plain (e : CopyEvent) : Prop := e <> Signal /\ e <> CheckFailed.
Lemma plain_snoc tr e : plain e -> CheckFailed ∉ tr -> CheckFailed ∉ tr ++ [e] /\ signals (tr ++ [e]) = signals tr.
Proof.
  intros [H1 H2] Htr. rewrite signals_snoc, decide_False by done. split; [|lia].
  intros [?|?%list_elem_of_singleton]%elem_of_app; [done|by subst].
Qed.

Lemma on_finished_good env ps n s tr : named s -> CheckFailed ∉ tr -> signals tr = 0%nat -> s.(_finished) = false ->
  whole s -> few n -> (length ps <= 1)%nat -> wpt (on_finished env) (fun _ => good ps n) s tr.
Proof.
  intros Hn Hc Hsig Hf Hw Hfew Hps. unfold on_finished. wpt_step. wpt_step. rewrite Hf. cbn [negb when].
  assert (forall s' tr', named s' -> whole s' -> CheckFailed ∉ tr' -> signals tr' = 0%nat ->
    wpt (modify (fun s => s <| _finished := true |>) ;; emit Signal) (fun _ => good ps n) s' tr') as Hend.
  { intros s' tr' Hn' Hw' Hc' Hs'. wpt_go. split; [done|]. split; [set_solver|]. right. split; [done|].
    rewrite signals_snoc, Hs'. by rewrite decide_True. }
  apply wpt_bind. destruct (_dest s) as [[]|]; [|apply wpt_skip; by apply Hend..].
  unfold set_status. wpt_go; destruct (plain_snoc tr CloseFile) as [? Hp]; try done; apply Hend; try done; cbn; lia || by rewrite Hp.
Qed.

(** A session that goes on, at the position [p]. *)
Record at_pos (s : Session) (n : nat) (p : Z) (tr : list CopyEvent) : Prop := mkAt {
  a_named : named s;
  a_checks : CheckFailed ∉ tr;
  a_signals : signals tr = 0%nat;
  a_finished : s.(_finished) = false;
  a_st : s.(_st) = OK;
  a_dest : s.(_dest) <> ToFile false;
  a_retry : 0 <= s.(_retry_times) <= retries;
  a_pos : p < zlen c \/ p = 0;
  a_meta : is_meta = true -> p = 0;
  a_copied : copied s.(content) p;
  a_count : Z.of_nat n <= p * (retries + 1) + s.(_retry_times)
}.

Lemma at_good s n p tr ps : at_pos s n p tr -> under_way s ps p -> good ps n s tr.
Proof. intros [] Hu. split; [done|]. split; [done|]. left. split; [|done]. split_and!; try done; try lia. exists p. by split_and!. Qed.
Lemma good_at s n tr ps : good ps n s tr -> s.(_finished) = false -> exists p, at_pos s n p tr /\ under_way s ps p.
Proof.
  intros (Hn & Hc & [[(? & ? & ? & ? & p & ? & ? & ? & ? & ?) ?]|[(Hf & _) _]]) Hnf; [|by rewrite Hf in Hnf].
  exists p. split; [|done]. by constructor.
Qed.
Lemma at_event s n p tr e : at_pos s n p tr -> plain e -> at_pos s n p (tr ++ [e]).
Proof. intros [] He. destruct (plain_snoc tr e He) as [? Hs]; [done|]. constructor; try done. by rewrite Hs. Qed.
(** The request changes, as to its count, its offset or its flag. *)
Lemma at_request s n p tr g : at_pos s n p tr -> (g s.(_request)).(filename) = s.(_request).(filename) ->
  at_pos (s <| _request := g s.(_request) |>) n p tr.
Proof. intros [] Hg. constructor; try done. destruct a_named0 as [? ?]. split; [cbn; by rewrite Hg|done]. Qed.

Lemma add_timer_good env ms n s tr p : at_pos s n p tr -> s.(_request).(offset) = p -> s.(_request).(count) = 0 ->
  wpt (add_timer env ms) (fun t => good (waits t) n) s tr.
Proof.
  intros Ha Ho Hc. unfold add_timer. destruct (timer_add_ok env); wpt_go; cbn [waits].
  - eapply at_good; [apply at_event; [exact Ha|done]|done].
  - eapply at_good; [exact Ha|]. cbn. lia.
Qed.

Lemma send_rpc_good k n s tr p : at_pos s n p tr -> s.(_request).(offset) = p -> k <= max_count s ->
  s.(_request).(read_partly) = f.(raft_allow_read_partly_when_install_snapshot) ->
  wpt (send_rpc k) (fun t => good (waits t) n) s tr.
Proof.
  intros Ha Ho Hk Hp. unfold send_rpc, set_request. wpt_go. cbn [waits]. eapply at_good.
  - apply at_event; [|done]. by apply (at_request s n p tr (fun q => q <| count := k |>)).
  - by split_and!.
Qed.

Lemma send_next_good env n s tr p : env_ok env -> at_pos s n p tr -> under_way s [SendNext] p ->
  wpt (send_next_rpc env) (fun t => good (waits t) n) s tr.
Proof.
  intros [Hf Hthr] Ha Hu. cbn in Hu. unfold send_next_rpc, set_request. wpt_step. wpt_step. wpt_step. wpt_step. rewrite Hf.
  set (g q := q <| offset := q.(offset) + q.(count) |> <| read_partly := f.(raft_allow_read_partly_when_install_snapshot) |>).
  assert (at_pos (s <| _request := g s.(_request) |>) n p tr) as Ha' by by apply at_request.
  rewrite (a_finished _ _ _ _ Ha). change (s <| _request := _ |>) with (s <| _request := g s.(_request) |>).
  set (mc := match s.(_dest) with ToBuf => UINT_MAX | _ => f.(raft_max_byte_count_per_rpc) end).
  assert (0 <= mc /\ mc = max_count (s <| _request := g s.(_request) |>)) as [Hmc Hmc'].
  { split; [unfold mc, UINT_MAX; destruct (_dest s); lia|done]. }
  destruct (_throttle s) as [ms|]; [destruct (raft_enable_throttle_when_install_snapshot f)|].
  - destruct (Hthr mc Hmc). destruct (Z.eqb_spec (throttled_by_throughput env mc) 0).
    + wpt_go. eapply add_timer_good; [apply (at_request _ n p tr (fun q => q <| count := 0 |>)); [exact Ha'|done]|cbn; lia|done].
    + eapply send_rpc_good; [exact Ha'|cbn; lia|rewrite <- Hmc'; lia|done].
  - eapply send_rpc_good; [exact Ha'|cbn; lia|rewrite <- Hmc'; lia|done].
  - eapply send_rpc_good; [exact Ha'|cbn; lia|rewrite <- Hmc'; lia|done].
Qed.

Lemma few_at s n p tr : at_pos s n p tr -> few (n + 1).
Proof. intros []. unfold few. pose proof (zlen_nonneg c). destruct a_copied0 as [? _]. nia. Qed.

Lemma finish_good env n s tr : named s -> CheckFailed ∉ tr -> signals tr = 0%nat -> s.(_finished) = false -> whole s -> few n ->
  wpt (on_finished env ;; mret Nothing) (fun t => good (waits t) n) s tr.
Proof.
  intros. apply wpt_bind. eapply wpt_mono; [apply (on_finished_good env [] n); try done; cbn; lia|]. intros ? s' tr' Hg. by wpt_go.
Qed.

Lemma rpc_failed_good env e n s tr p q : e <> OK -> at_pos s n p tr -> under_way s [AwaitRpc q] p ->
  wpt (on_rpc_failed env e) (fun t => good (waits t) (n + counted (Returned env (inl e)))) s tr.
Proof.
  intros He Ha (Hq & Ho & _). subst q. unfold on_rpc_failed, set_request. wpt_step. wpt_step. wpt_step. wpt_step.
  assert (at_pos (s <| _request := s.(_request) <| count := 0 |> |>) n p tr) as Ha' by by apply (at_request s n p tr (fun q => q <| count := 0 |>)).
  set (s1 := s <| _request := _ |>) in *.
  pose proof Ha' as [Hn Hc Hsig Hfin Hst Hd Hr Hp Hm Hcp Hct].
  unfold stop_retrying. wpt_step. wpt_step. wpt_step. rewrite (a_st _ _ _ _ Ha'). change (ok OK) with true. rewrite !andb_true_r.
  destruct (decide (e = EAGAIN)) as [->|Hne].
  - rewrite (bool_decide_false (EAGAIN = ECANCELED)) by done. rewrite (bool_decide_true (EAGAIN = EAGAIN)) by done. cbn [negb].
    wpt_step. cbn [counted]. rewrite Nat.add_0_r. destruct (_throttle s) as [ms|].
    + wpt_go; eapply add_timer_good; try done. by apply at_event.
    + by eapply add_timer_good.
  - rewrite (bool_decide_false (e = EAGAIN)) by done. replace (counted _) with 1%nat by by destruct e. cbn [negb].
    assert (forall s2, named s2 -> s2.(_finished) = false ->
      wpt (set_status e ;; on_finished env ;; mret Nothing) (fun t => good (waits t) (n + 1)) s2 tr) as Hend.
    { intros s2 Hn2 Hf2. unfold set_status. wpt_step. wpt_step. apply finish_good; [done|done|done|done|by intros ?|by eapply few_at]. }
    destruct (bool_decide (e = ECANCELED)); wpt_go; [exact (wpt_bind_inv _ _ _ _ _ (Hend _ Hn Hfin))|].
    rewrite (proj2 Hn).
    destruct (Z.leb_spec retries (_retry_times s1)) as [Hmax|Hmore].
    + by apply Hend.
    + eapply add_timer_good; [|done|done]. destruct Ha'. constructor; try done; cbn in *; lia.
Qed.
(** ** An answer with data *)
Lemma deliver_grows lo segs hi d : 0 <= lo -> chain lo segs hi -> zlen d <= lo -> zlen d <= zlen (deliver segs d).
Proof.
  revert lo d. induction segs as [|[o x] segs IH]; intros lo d Hlo Hc Hd; cbn in *; [lia|]. destruct Hc as [Ho Hc].
  pose proof (zlen_nonneg x). assert (zlen (overwrite d (Z.to_nat o) x) = o + zlen x) as Hl.
  { rewrite overwrite_past by (unfold zlen in *; lia). rewrite zlen_app. unfold zlen in *. rewrite pad_length by lia. lia. }
  etransitivity; [|apply (IH (o + zlen x)); [lia|done|lia]]. rewrite Hl. lia.
Qed.

Lemma copied_more d p segs out : copied d p -> puts segs p out -> (hole = false -> out <> [] -> segs = [(p, out)]) ->
  take (Z.to_nat p) c ++ out = take (Z.to_nat (p + zlen out)) c -> copied (deliver segs d) (p + zlen out).
Proof.
  intros (Hp & Hd & Hpad & Hx) [Hc Hputs] Hone Htake. pose proof (zlen_nonneg out). split_and!.
  - lia.
  - by apply (deliver_chain p).
  - by rewrite Hputs, Hpad.
  - intros Hh. specialize (Hx Hh). pose proof (deliver_chain p segs _ d Hp Hc Hd). pose proof (deliver_grows p segs _ d Hp Hc Hd).
    destruct out as [|b out']; [rewrite zlen_nil in *; lia|]. rewrite (Hone Hh) by done. cbn.
    rewrite overwrite_past by (unfold zlen in *; lia). rewrite zlen_app. unfold zlen in *. rewrite pad_length by lia. cbn [length]. lia.
Qed.

Lemma piece_end q out p : q.(filename) = name -> q.(offset) = p -> 0 <= p -> (p < zlen c \/ p = 0) -> (is_meta = true -> p = 0) ->
  piece_of q.(filename) c q out true -> take (Z.to_nat p) c ++ out = c /\ p + zlen out = zlen c.
Proof.
  intros Hn Ho H0 Hp Hm Hpiece. unfold piece_of in Hpiece. rewrite Hn in Hpiece. unfold is_meta in Hm. destruct (String.eqb _ _).
  { destruct Hpiece as [-> _]. rewrite Hm by done. split; [done|lia]. }
  destruct Hpiece as (n & Hn0 & [-> He] & _). rewrite Ho in *.
  assert (p <= zlen c) by (pose proof (zlen_nonneg c); lia).
  assert (slice c (Z.to_nat p) (Z.to_nat n) = drop (Z.to_nat p) c) as Hs.
  { unfold slice. apply take_ge. rewrite length_drop. symmetry in He. apply orb_true_iff in He as [He%Z.ltb_lt|He%Z.eqb_eq].
    - unfold zlen in *. rewrite slice_length in He. lia.
    - unfold zlen in *. lia. }
  rewrite Hs. split; [apply take_drop|]. unfold zlen in *. rewrite length_drop. lia.
Qed.

Lemma piece_middle q out p : q.(filename) = name -> q.(offset) = p -> 0 <= p -> (p < zlen c \/ p = 0) ->
  piece_of q.(filename) c q out false -> is_meta = false /\ 0 < zlen out /\ p + zlen out < zlen c /\
    take (Z.to_nat p) c ++ out = take (Z.to_nat (p + zlen out)) c /\ (q.(read_partly) = false -> zlen out = q.(count)).
Proof.
  intros Hn Ho H0 Hp Hpiece. unfold piece_of in Hpiece. rewrite Hn in Hpiece. unfold is_meta. destruct (String.eqb _ _); [by destruct Hpiece|].
  destruct Hpiece as (n & Hn0 & [-> He] & Hpart). rewrite Ho in *. symmetry in He. apply orb_false_iff in He as [He1%Z.ltb_ge He2%Z.eqb_neq].
  assert (zlen (slice c (Z.to_nat p) (Z.to_nat n)) = n) as Hl by (unfold zlen in *; rewrite slice_length in *; lia).
  assert (p + n <= zlen c) by (unfold zlen in *; rewrite slice_length in *; lia).
  rewrite Hl. split_and!; try done; try lia. unfold slice. rewrite Z2Nat.inj_add by lia. apply take_take_drop.
Qed.

Lemma whole_end s p : copied s.(content) p -> p = zlen c -> whole s.
Proof.
  intros (Hp & Hd & Hpad & Hx) -> _. exists (length c - length s.(content))%nat. unfold zlen in Hpad, Hx, Hd. rewrite Nat2Z.id, firstn_all in Hpad.
  split; [done|]. intros Hh. specialize (Hx Hh). lia.
Qed.

(** What is written to the file, or put in the buffer. *)
Lemma write_good env segs s p tr out : copied s.(content) p -> s.(_dest) <> ToFile false -> puts segs p out ->
  wpt (match s.(_dest) with
       | ToFile true =>
           let '(c, whole) := write_segments env.(write_ok) 0 segs s.(content) in
           modify (fun s => s <| content := c |>) ;; mret whole
       | _ =>
           let '(c, ev) := append_segments segs s.(content) in
           modify (fun s => s <| content := c |>) ;; emits ev ;; mret true
       end) (fun w s' tr' => tr' = tr /\ exists d, s' = s <| content := d |> /\ (w = true -> d = deliver segs s.(content))) s tr.
Proof.
  intros (Hp & Hd & _) Hdest [Hc _].
  assert (append_segments segs s.(content) = (deliver segs s.(content), [])) as Happ by by apply (append_segments_deliver p segs (p + zlen out)).
  destruct (_dest s) as [[]|]; [|done|].
  - destruct (write_segments _ _ _ _) as [d w] eqn:Hw. wpt_go. split; [done|]. exists d. split; [done|]. intros ->. by eapply write_segments_whole.
  - rewrite Happ. change (emits (@nil CopyEvent)) with (skip : XM unit). wpt_go. split; [done|]. by eexists.
Qed.

(** The state after an answer: nothing was tried in vain, the request and the data
    are new. *)
Definition after (s : Session) (g : GetFileRequest -> GetFileRequest) (d : IOBuf) : Session :=
  s <| _retry_times := 0 |> <| _request := g s.(_request) |> <| content := d |>.
Lemma at_next s n p tr g d p' : at_pos s n p tr -> (g s.(_request)).(filename) = s.(_request).(filename) -> copied d p' ->
  p < p' < zlen c -> is_meta = false -> at_pos (after s g d) (n + 1) p' tr.
Proof.
  intros [[Hn Hopt]] Hg Hcp Hp Hm. constructor; try done; try lia; cbn.
  - split; [cbn; by rewrite Hg|done].
  - by rewrite Hm.
  - destruct a_copied0 as [? _]. nia.
Qed.

(** An answer that puts [out] where it was asked for, in the segments [segs]. *)
Record answered (s : Session) (p : Z) (r : GetFileResponse) (out : IOBuf) (segs : list (Z * IOBuf)) : Prop := mkAnswered {
  an_name : s.(_request).(filename) = name;
  an_offset : s.(_request).(offset) = p;
  an_partly : s.(_request).(read_partly) = f.(raft_allow_read_partly_when_install_snapshot);
  an_piece : piece_of s.(_request).(filename) c s.(_request) out r.(eof);
  an_size : r.(read_size) = Some (zlen out);
  an_segs : segments r.(attachment) = (segs, []);
  an_puts : puts segs p out;
  an_one : hole = false -> out <> [] -> segs = [(p, out)]
}.

Lemma served_answered s n p tr r q : served hole c q r -> at_pos s n p tr -> under_way s [AwaitRpc q] p ->
  exists out segs, answered s p r out segs.
Proof.
  intros Hserved Ha (Hq & Ho & Hcount & Hpart). pose proof Ha as [[Hn Hopt] _ _ _ _ Hd _ Hp Hm [Hp0 _] _]. subst q.
  destruct (served_puts hole c s.(_request) r Hserved) as (out & segs & Hpiece & Hsize' & Hc0 & _ & Hsegs & Hputs & Hone).
  { by rewrite Hn. }
  { rewrite Ho. pose proof (zlen_nonneg c). lia. }
  { rewrite Hn. fold is_meta. destruct is_meta; [by apply Hmeta|]. unfold max_count, UINT_MAX in Hcount. destruct (_dest s); lia. }
  rewrite Ho in Hputs, Hone. by exists out, segs.
Qed.

(** The request keeps its file, and goes on behind what was read. *)
Definition goes_on (s : Session) (p : Z) (r : GetFileResponse) (out : IOBuf) (g : GetFileRequest -> GetFileRequest) : Prop :=
  (g s.(_request)).(filename) = s.(_request).(filename) /\
  (r.(eof) = false -> (g s.(_request)).(offset) + (g s.(_request)).(count) = p + zlen out).

Lemma answer_end env r n s tr p out segs g d w : answered s p r out segs -> at_pos s n p tr -> goes_on s p r out g ->
  (w = true -> d = deliver segs s.(content)) ->
  wpt (if negb w then set_status EIO ;; on_finished env ;; mret Nothing
       else if r.(eof) then on_finished env ;; mret Nothing else mret SendNext) (fun t => good (waits t) (n + 1)) (after s g d) tr.
Proof.
  intros [Hn Ho _ Hpiece _ _ Hputs Hone] Ha [Hg Hgo] Hw. pose proof Ha as [[_ Hopt] Hc Hsig Hfin Hst _ _ Hp Hm Hcp _]. destruct (Hcp) as [Hp0 _].
  assert (named (after s g d)) as Hnamed by (split; [cbn; by rewrite Hg|done]). destruct w; cbn [negb].
  - rewrite (Hw eq_refl) in *. destruct (eof r).
    + destruct (piece_end _ out p Hn Ho Hp0 Hp Hm Hpiece) as [Htake Hend].
      apply finish_good; try done; [|by eapply few_at]. eapply whole_end; [|exact Hend]. apply (copied_more _ p segs out); try done.
      rewrite Htake, Hend. unfold zlen. by rewrite Nat2Z.id, firstn_all.
    + destruct (piece_middle _ out p Hn Ho Hp0 Hp Hpiece) as (Hm' & Hout & Hlt & Htake & _). wpt_step. cbn [waits].
      eapply at_good; [|cbn; apply Hgo; done]. eapply at_next; try done; [by apply copied_more|lia].
  - unfold set_status. wpt_step. wpt_step. apply finish_good; try done. by eapply few_at.
Qed.

Lemma answer_count s n p tr r out segs : answered s p r out segs -> at_pos s n p tr ->
  wpt (modify (fun s => s <| _retry_times := 0 |>) ;;
    when (negb (zlen out =? 0) && f.(raft_allow_read_partly_when_install_snapshot)) (set_request (fun q => q <| count := zlen out |>)))
    (fun _ s' tr' => tr' = tr /\ exists g, s' = after s g s.(content) /\ goes_on s p r out g) s tr.
Proof.
  intros [Hn Ho Hpart Hpiece _ _ _ _] Ha. pose proof (a_pos _ _ _ _ Ha) as Hp. destruct (a_copied _ _ _ _ Ha) as [Hp0 _].
  unfold set_request. wpt_go; (split; [done|]).
  - exists (fun q => q <| count := zlen out |>). split; [done|]. split; [done|]. intros _. cbn. lia.
  - exists (fun q => q). split; [by destruct s|]. split; [done|]. intros He. rewrite He in Hpiece.
    destruct (piece_middle _ out p Hn Ho Hp0 Hp Hpiece) as (_ & Hout & _ & _ & Hfull).
    match goal with Hb : _ && _ = false |- _ => apply andb_false_iff in Hb as [Hb%negb_false_iff%Z.eqb_eq|Hb]; [lia|] end.
    rewrite Hpart in Hfull. rewrite (Hfull ltac:(done)). lia.
Qed.

Lemma rpc_succeeded_good env r n s tr p q : env_ok env -> served hole c q r -> at_pos s n p tr -> under_way s [AwaitRpc q] p ->
  wpt (on_rpc_succeeded env r) (fun t => good (waits t) (n + 1)) s tr.
Proof.
  intros [Hf _] Hserved Ha Hu. destruct (served_answered s n p tr r q Hserved Ha Hu) as (out & segs & Han).
  unfold on_rpc_succeeded. rewrite Hf, (an_size _ _ _ _ _ Han), (an_segs _ _ _ _ _ Han). wpt_step. wpt_step. apply wpt_bind.
  eapply (wpt_mono _ (fun _ s' tr' => s' = s /\ at_pos s n p tr')).
  { apply wpt_when; [intros _; apply wpt_emit|intros _]; (split; [done|]); [by apply at_event|done]. }
  intros [] ? tr' [-> Ha']. apply wpt_bind. eapply wpt_mono; [exact (wpt_bind_inv _ _ _ _ _ (answer_count s n p tr' r out segs Han Ha'))|].
  intros [] s1 tr1 Hw. apply wpt_bind. eapply wpt_mono; [exact Hw|]. intros _ s2 tr2 (-> & g & -> & Hgo).
  change (emits (map _ [])) with (skip : XM unit). wpt_step. wpt_step. apply wpt_bind.
  eapply wpt_mono; [apply (write_good env segs (after s g s.(content)) p tr' out); [apply Ha'|apply Ha'|apply Han]|].
  intros w s3 tr3 (-> & d & -> & Hd'). by eapply (answer_end env r n s tr' p out segs g d w).
Qed.

(** ** Sections *)
Lemma ended_section s ps n tr cs m : named s -> CheckFailed ∉ tr -> signals tr = 1%nat -> ended s ps n -> section_of ps cs = Some m ->
  wpt m (fun ps' => good ps' n) s tr.
Proof.
  intros Hn Hc Hs (Hf & Hps & Hw & Hfew) Hm.
  assert (forall ps', (length ps' <= 1)%nat -> good ps' n s tr) as Hg by (intros ps' ?; split; [done|]; split; [done|]; by right).
  destruct cs as [env| |env a|b env]; cbn in Hm.
  - destruct ps as [|[] ps]; try discriminate Hm. injection Hm as <-. unfold send_next_rpc, set_request. wpt_step. wpt_step. wpt_step.
    wpt_step. wpt_step. rewrite Hf. wpt_go. cbn [waits app]. destruct Hn as [Hn Hopt]. split; [by split|]. split; [done|]. right. split; [|done].
    split_and!; try done. cbn in Hps. lia.
  - destruct ps as [|[] ps]; try discriminate Hm. injection Hm as <-. wpt_go. by apply Hg.
  - destruct ps as [|[] ps]; try discriminate Hm. injection Hm as <-. unfold on_rpc_returned. wpt_step. wpt_step. wpt_step. rewrite Hf. wpt_go.
    apply Hg. cbn in *. lia.
  - injection Hm as <-. unfold cancel. wpt_step. wpt_step. wpt_step. wpt_step. wpt_step. rewrite Hf. wpt_go. by apply Hg.
Qed.

Lemma cancel_good (b : bool) env ps n s p tr : at_pos s n p tr -> under_way s ps p ->
  wpt (cancel env ;; mret (if b then match ps with AwaitTimer :: ps => ps | _ => ps end else ps)) (fun ps' => good ps' n) s tr.
Proof.
  intros Ha Hu. pose proof Ha as [Hn Hc Hsig Hf Hst _ _ _ _ _ _]. unfold cancel, set_status.
  assert (length (if b then match ps with AwaitTimer :: ps => ps | _ => ps end else ps) <= 1)%nat as Hps.
  { destruct ps as [|[] [|]]; try done; destruct b; cbn; lia. }
  apply wpt_bind. wpt_step. wpt_step. rewrite Hf. wpt_step. wpt_step. rewrite Hst. change (ok OK) with true. cbn [when]. wpt_step. wpt_step.
  destruct (plain_snoc tr StartCancel) as [Hc' Hs']; try done.
  assert (few n) as Hfew by (pose proof (few_at s n p tr Ha); unfold few in *; lia).
  eapply wpt_mono; [apply (on_finished_good env (if b then match ps with AwaitTimer :: ps => ps | _ => ps end else ps) n); try done|].
  - by rewrite Hs'.
  - intros ? s' tr' Hg. by wpt_go.
Qed.

Lemma copy_section_good w cs w' n : good w.(pending) n w.(session) w.(events) -> legal w cs -> step_with w cs = Some w' ->
  good w'.(pending) (n + counts w cs) w'.(session) w'.(events).
Proof.
  intros Hg Hl. unfold step_with. intros (m & Hm & ->)%fmap_Some.
  assert (wpt m (fun ps' => good ps' (n + counts w cs)) w.(session) w.(events)) as Hw.
  { unfold counts. destruct (_finished (session w)) eqn:Hf.
    { rewrite Nat.add_0_r. destruct Hg as (Hn & Hc & [[(Hnf & _) _]|[He Hs]]); [by rewrite Hf in Hnf|]. by eapply ended_section. }
    destruct (good_at _ _ _ _ Hg Hf) as (p & Ha & Hu). destruct cs as [env| |env a|b env]; cbn in Hm.
    - destruct (pending w) as [|[] [|]]; try discriminate Hm; try done. injection Hm as <-. rewrite Nat.add_0_r.
      apply wpt_bind. eapply wpt_mono; [by eapply send_next_good|]. intros t s' tr' Hg'. wpt_go. by rewrite app_nil_r.
    - destruct (pending w) as [|[] [|]]; try discriminate Hm; try done. injection Hm as <-. rewrite Nat.add_0_r. wpt_go.
      eapply at_good; [done|]. cbn in *. lia.
    - destruct (pending w) as [|[|q| |] [|]] eqn:Hpend; try discriminate Hm; try done. injection Hm as <-.
      unfold on_rpc_returned. apply wpt_bind. wpt_step. wpt_step. rewrite Hf. destruct a as [e|r]; cbn in Hl.
      + eapply wpt_mono; [eapply rpc_failed_good; [apply Hl|exact Ha|exact Hu]|]. intros t s' tr' Hg'. wpt_go. by rewrite app_nil_r.
      + rewrite Hpend in Hl. destruct Hl as [He Hserved]. eapply wpt_mono; [eapply rpc_succeeded_good; [done|apply Hserved, list_elem_of_here|done|done]|].
        intros t s' tr' Hg'. wpt_go. by rewrite app_nil_r.
    - injection Hm as <-. rewrite Nat.add_0_r. wpt_step. wpt_step. rewrite Hf. cbn [negb andb]. by eapply cancel_good. }
  unfold wpt, value_of, state_of, events_of in Hw. by destruct (m (session w)) as [[ps s] ev].
Qed.

Lemma runs_good w0 n w : good w0.(pending) 0 w0.(session) w0.(events) -> runs w0 n w -> good w.(pending) n w.(session) w.(events).
Proof. intros H0. induction 1; [done|]. by eapply copy_section_good. Qed.
Lemma started_good s : named s -> s.(_finished) = false -> s.(_st) = OK -> s.(_dest) <> ToFile false -> s.(_retry_times) = 0 ->
  s.(content) = [] -> s.(_request).(offset) = 0 -> s.(_request).(count) = 0 -> good (started s).(pending) 0 (started s).(session) (started s).(events).
Proof.
  intros Hn Hf Hst Hd Hr Hc Ho Hct. apply (at_good _ _ 0).
  - constructor; try done; cbn; rewrite ?Hr, ?Hc; try lia.
    + by intros ?%elem_of_nil.
    + by split_and!.
  - cbn. lia.
Qed.
End copy.

(** A session as it is started, for a file or for a buffer. *)
Definition new_session (id : Z) (name : string) (options : CopyOptions) (s : Session) : Prop :=
  (exists throttle, start_to_copy_to_file id name true options throttle = Some s) \/ s = start_to_copy_to_iobuf id name options.

(** What is asked of a file and of the flags: its name, its size and the length of a
    piece are in range.  A table is sent in one piece. *)
Definition fits (name : string) (c : IOBuf) (f : CopyFlags) (options : CopyOptions) : Prop :=
  name <> EmptyString /\ zlen c < 2 ^ 62 /\ (is_meta name = true -> zlen c < 2 ^ 32) /\
  0 < f.(raft_max_byte_count_per_rpc) < 2 ^ 32 /\ 0 <= options.(max_retry).

Lemma session_good `{RawPack} hole c id name f options s n w : fits name c f options -> new_session id name options s ->
  runs hole c f (started s) n w -> good hole c name f options.(max_retry) w.(pending) n w.(session) w.(events).
Proof.
  intros (Hn & Hc & Hm & Hf & Hr) Hs. apply runs_good; try done.
  destruct Hs as [[th [= <-]]| ->]; by apply started_good.
Qed.

(** C23: what a session copies is the file, up to zeros at its end. The other peer's
    service serves any number of readers of content that does not change; the flags of
    the session's process do not change during the run, the file's name is not empty
    and its size in range (a table's below 2^32). The session asks for one piece after
    another, RPCs fail, time out and are retried, both sides throttle, reads return
    less than was asked for, writes fail, the session is cancelled at any moment: if
    it ends without an error, what is in the file or buffer, with some zeros behind
    it, is the content on the other side, and with no zeros at all unless that side
    leaves out holes. When it does the zeros are lost
    ([TransferExamples.zeros_at_the_end_are_lost]), and when the flag that allows
    partial reads changes during the run bytes are
    ([TransferExamples.flag_changed_under_way]). *)
Theorem copied_file_is_the_source `{RawPack} hole c id name f options s n w : fits name c f options -> new_session id name options s ->
  runs hole c f (started s) n w -> w.(session).(_finished) = true -> w.(session).(_st) = OK ->
  exists k, w.(session).(content) ++ zeros k = c /\ (hole = false -> k = 0%nat).
Proof.
  intros Hfit Hs Hrun Hf Hst. destruct (session_good _ _ _ _ _ _ _ _ _ Hfit Hs Hrun) as (_ & _ & [[(Hnf & _) _]|[(_ & _ & Hw & _) _]]); [by rewrite Hf in Hnf|].
  by apply Hw.
Qed.

(** C25: a session ends, and tells so once. The flags and the content do not change
    during the run, and the sizes are in range. However the RPCs end, it has had at
    most one answer for each byte and retry, where answers that tell to try again
    (EAGAIN) do not count: of these there is no bound, as a reader that is locked
    gives them for ever ([TransferExamples.failed_size_locks_the_reader]). As long as
    it has not ended there is just one thing under way, an RPC, a timer or a thread,
    and that thing can go on; once it has ended it has signalled once, and nothing
    changes its status or what it has copied. *)
Theorem session_ends `{RawPack} hole c id name f options s n w : fits name c f options -> new_session id name options s ->
  runs hole c f (started s) n w ->
  Z.of_nat n <= Z.max (zlen c) 1 * (options.(max_retry) + 1) /\
  signals w.(events) = (if w.(session).(_finished) then 1 else 0)%nat /\ CheckFailed ∉ w.(events) /\
  (w.(session).(_finished) = false -> w.(session).(_st) = OK /\ exists t, w.(pending) = [t] /\
     match t with
     | SendNext => forall env, is_Some (step_with w (Send env))
     | AwaitTimer => is_Some (step_with w Fire)
     | AwaitRpc _ => forall env a, is_Some (step_with w (Returned env a))
     | Nothing => False
     end) /\
  (w.(session).(_finished) = true -> forall cs w', step_with w cs = Some w' ->
     w'.(session).(_finished) = true /\ w'.(session).(_st) = w.(session).(_st) /\ w'.(session).(content) = w.(session).(content)).
Proof.
  intros Hfit Hs Hrun. pose proof (session_good _ _ _ _ _ _ _ _ _ Hfit Hs Hrun) as Hg. split; [|split; [|split; [|split]]].
  - destruct Hfit as (_ & _ & _ & _ & Hr). destruct Hg as (_ & _ & [[(_ & _ & _ & Hre & p & Hp & _ & [Hp0 _] & _ & Hn) _]|[(_ & _ & _ & Hfew) _]]); [|done].
    pose proof (zlen_nonneg c). nia.
  - destruct Hg as (_ & _ & [[(-> & _) ->]|[(-> & _) ->]]); done.
  - apply Hg.
  - intros Hf. destruct (good_at _ _ _ _ _ _ _ _ _ Hg Hf) as (p & [] & Hu). split; [done|].
    unfold under_way in Hu. destruct (pending w) as [|t [|]] eqn:Hp; try (by destruct t); try done. exists t. split; [done|].
    destruct t; try done; unfold step_with, section_of; rewrite Hp; intros; by eexists.
  - intros Hf cs w'. unfold step_with. intros (m & Hm & ->)%fmap_Some.
    assert (wpt m (fun _ s' _ => s'.(_finished) = true /\ s'.(_st) = w.(session).(_st) /\ s'.(content) = w.(session).(content)) w.(session) w.(events)) as Hw.
    { destruct cs as [env| |env a|b env]; cbn in Hm; try (destruct (pending w) as [|[] ps]; try discriminate Hm); injection Hm as <-;
        unfold send_next_rpc, on_rpc_returned, cancel, set_request; repeat (wpt_step; rewrite ?Hf); try done. }
    unfold wpt, value_of, state_of in Hw. by destruct (m (session w)) as [[ps s'] ev].
Qed.
