(* ===== verification/TransferExamples.v ===== *)
(** * TransferExamples: runs of a throttle, a file service and a session

    Concrete runs on which the theorems of [SnapshotThrottle] and
    [RemoteFileCopierProofs] are applied, and runs that show what the code does
    where it does not do what it means to. *)

From Stdlib Require Strings.Byte.
From S2P Require Import Prelude Types Disk EntryCodec FsmCaller SnapshotFiles SnapshotThrottle FileReader RemoteFileCopier TransferProofs RemoteFileCopierProofs.

#[local] Existing Instance big_endian.

(** ** The throttle *)
Definition no_minimum : ThrottleFlags := mkThrottleFlags 0 1000.
(** 1000 bytes a second, in ten cycles: four readers in two cycles. *)
Definition throttle_calls : list Call :=
  [Acquire 1000000 80; Acquire 1020000 80; GiveBack 80 30 10 1030000; Acquire 1040000 80; Acquire 1210000 80].

Lemma throughput_bounded_witness :
  (do_calls no_minimum (ThroughputSnapshotThrottle_new 1000 10 1000000) throttle_calls).2 = 180 /\
  (let '(t, used) := do_calls no_minimum (ThroughputSnapshotThrottle_new 1000 10 1000000) throttle_calls in
   0 <= t.(_cur_throughput_bytes) <= 100 /\ used <= 100 * ((t.(_last_throughput_check_time_us) - 1000000) / 100000 + 1)).
Proof.
  split; [vm_compute; reflexivity|].
  assert (Forall call_ok throttle_calls) as Hok by (repeat constructor; lia).
  pose proof (throughput_bounded no_minimum 1000 10 1000000 throttle_calls ltac:(lia) ltac:(lia) Hok) as Hb.
  exact Hb.
Defined.

(** ** A copy *)
Definition bytes (l : list Z) : IOBuf := map (fun n => default Byte.x00 (Byte.of_N (Z.to_N n))) l.
Definition source_content : IOBuf := bytes [7; 8; 9; 10; 11].
Definition copy_flags : CopyFlags := mkCopyFlags 3 true true.
Definition some_table : LocalSnapshotMetaTable := mkLocalSnapshotMetaTable {["a"%string := LocalFileMeta_default]} None.
Definition service0 : FileServiceImpl := mkFileServiceImpl 7 ∅.
Definition service1 : FileServiceImpl :=
  (add_reader (SnapshotFileReader_new (fun _ => Some []) {["a"%string := source_content]} some_table true) service0).2.
Definition calm_session : SessionEnv := mkSessionEnv copy_flags (fun n => n) true true true (fun _ => true).
(** The service reads all it was asked for, in one block. *)
Definition calm_serve (n : Z) (check_hole : bool) : ServeEnv := mkServeEnv (mkReadEnv OK [] true) n (fun b => match b with [] => [] | _ => [b] end) check_hole.

Definition session0 : Session := mkSession (ToFile true) [] (mkGetFileRequest 7 "a" 0 0 false) 0 false OK CopyOptions_default None.
Definition request1 : GetFileRequest := mkGetFileRequest 7 "a" 3 0 true.
Definition request2 : GetFileRequest := mkGetFileRequest 7 "a" 3 2 true.

(** The other side's throttle lets it read two bytes the first time. *)
Definition served1 : (Errno + GetFileResponse) * FileServiceImpl * list ReadEvent := get_file (calm_serve 2 false) request1 service1.
Definition served2 : (Errno + GetFileResponse) * FileServiceImpl * list ReadEvent := get_file (calm_serve 3 false) request2 served1.1.2.
Definition reply (a : Errno + GetFileResponse) : GetFileResponse := match a with inr r => r | inl _ => mkGetFileResponse true None [] end.
Definition reply1 : GetFileResponse := reply served1.1.1.
Definition reply2 : GetFileResponse := reply served2.1.1.

(** The first RPC fails; the second copy of the first request is answered, and the
    next one. *)
Definition copy_sections : list Section_ :=
  [Send calm_session; Returned calm_session (inl ETIMEDOUT); Fire; Send calm_session; Returned calm_session (inr reply1);
   Send calm_session; Returned calm_session (inr reply2)].
Definition copied_world : World := default (started session0) (run_sections (started session0) copy_sections).

Lemma service1_reachable : service_reachable service1.
Proof. exists 7. eapply rtc_l; [apply AddReader|apply rtc_refl]. Qed.
Lemma service2_reachable : service_reachable served1.1.2.
Proof.
  exists 7. eapply rtc_l; [apply AddReader|]. eapply rtc_l; [|apply rtc_refl].
  apply (Ask service1 (calm_serve 2 false) request1); [done|]. cbn. lia.
Qed.
Lemma calm_blocks n hole b : concat ((calm_serve n hole).(backing_blocks) b) = b /\ Forall (fun p => p <> []) ((calm_serve n hole).(backing_blocks) b).
Proof. destruct b; cbn; [done|]. rewrite app_nil_r. split; [done|by repeat constructor]. Qed.

Lemma reply1_served : served false source_content request1 reply1.
Proof.
  eexists (calm_serve 2 false), service1, _, _, _. split; [apply service1_reachable|]. split; [vm_compute; reflexivity|].
  split; [vm_compute; reflexivity|]. split; [cbn; lia|]. split; [done|]. split; [intros b; apply calm_blocks|]. vm_compute. reflexivity.
Qed.
Lemma reply2_served : served false source_content request2 reply2.
Proof.
  eexists (calm_serve 3 false), served1.1.2, _, _, _. split; [apply service2_reachable|]. split; [vm_compute; reflexivity|].
  split; [vm_compute; reflexivity|]. split; [cbn; lia|]. split; [done|]. split; [intros b; apply calm_blocks|]. vm_compute. reflexivity.
Qed.

Lemma calm_ok : env_ok copy_flags calm_session.
Proof. split; [done|]. cbn. intros n Hn. lia. Qed.

Fixpoint all_legal (w : World) (cs : list Section_) : Prop :=
  match cs with
  | [] => True
  | c :: cs => legal false source_content copy_flags w c /\ match step_with w c with Some w' => all_legal w' cs | None => False end
  end.
Lemma legal_runs cs w0 n w w' : runs false source_content copy_flags w0 n w -> all_legal w cs -> run_sections w cs = Some w' ->
  exists n', runs false source_content copy_flags w0 n' w'.
Proof.
  revert n w. induction cs as [|c cs IH]; intros n w Hr Hl Hrun; cbn in *; [injection Hrun as <-; by exists n|].
  destruct Hl as [Hc Hl]. destruct (step_with w c) as [w1|] eqn:Hs; [|done]. eapply IH; [|exact Hl|exact Hrun]. by eapply runs_step.
Qed.

Lemma copied_world_runs : exists n, runs false source_content copy_flags (started session0) n copied_world.
Proof.
  apply (legal_runs copy_sections _ 0 (started session0)); [apply runs_none| |vm_compute; reflexivity].
  split; [apply calm_ok|]. split; [by split; [apply calm_ok|]|]. split; [done|]. split; [apply calm_ok|]. split.
  { split; [apply calm_ok|]. intros q Hq. vm_compute in Hq. apply list_elem_of_singleton in Hq as [= ->]. apply reply1_served. }
  split; [apply calm_ok|]. split; [|done].
  split; [apply calm_ok|]. intros q Hq. vm_compute in Hq. apply list_elem_of_singleton in Hq as [= ->]. apply reply2_served.
Qed.

Lemma session0_new : new_session 7 "a" CopyOptions_default session0.
Proof. left. by exists None. Qed.
Lemma source_fits : fits "a" source_content copy_flags CopyOptions_default.
Proof. split_and!; vm_compute; done. Qed.

Lemma copied_file_witness : copied_world.(session).(content) = source_content /\
  exists k, copied_world.(session).(content) ++ zeros k = source_content /\ (false = false -> k = 0%nat).
Proof.
  split; [vm_compute; reflexivity|]. destruct copied_world_runs as [n Hrun].
  apply (copied_file_is_the_source false source_content 7 "a" copy_flags CopyOptions_default session0 n copied_world source_fits session0_new Hrun);
    vm_compute; reflexivity.
Defined.

Lemma session_ends_witness : signals copied_world.(events) = 1%nat /\ CheckFailed ∉ copied_world.(events).
Proof.
  destruct copied_world_runs as [n Hrun].
  pose proof (session_ends false source_content 7 "a" copy_flags CopyOptions_default session0 n copied_world source_fits session0_new Hrun)
    as (_ & Hs & Hc & _ & _).
  split; [vm_compute; reflexivity|exact Hc].
Defined.

(** ** Findings *)

(** When [size] fails the reader stays marked as being read for ever; every read
    from then on is told to try again, which a session does without an end. *)
Definition after_size_failed : LocalDirReader :=
  (read_file_with_meta (mkReadEnv OK [] false) "a" 0 3 (LocalDirReader_new {["a"%string := source_content]})).1.2.
Example failed_size_locks_the_reader :
  (read_file_with_meta (mkReadEnv OK [] false) "a" 0 3 (LocalDirReader_new {["a"%string := source_content]})).1.1 = inl EIO /\
  (read_file_with_meta (mkReadEnv OK [] true) "a" 0 3 after_size_failed).1.1 = inl EAGAIN /\
  (read_file_with_meta (mkReadEnv OK [] true) "a" 0 3 after_size_failed).1.2 = after_size_failed.
Proof. vm_compute. auto. Qed.

(** With [raft_file_check_hole] a block of zeros at the end of a file is not sent,
    and the copy is shorter than the file. *)
Definition zero_tail : IOBuf := bytes [7; 8; 0; 0].
Example zeros_at_the_end_are_lost :
  let serve := mkServeEnv (mkReadEnv OK [] true) 9 (fun b => [take 2 b; drop 2 b]) true in
  let service := (add_reader (SnapshotFileReader_new (fun _ => Some []) {["a"%string := zero_tail]} some_table false) service0).2 in
  let q := mkGetFileRequest 7 "a" 9 0 true in
  let w := default (started session0)
    (run_sections (started session0) [Send (mkSessionEnv (mkCopyFlags 9 true true) (fun n => n) true true true (fun _ => true));
       Returned calm_session (inr (reply (get_file serve q service).1.1))]) in
  w.(session).(_finished) = true /\ w.(session).(_st) = OK /\ w.(session).(content) = bytes [7; 8].
Proof. vm_compute. auto. Qed.

(** The flag that allows short reads can change while an RPC is under way: it is
    read once for the request and once for the answer, and then the next request
    leaves out what was not read. *)
Definition off_flags : CopyFlags := mkCopyFlags 3 false true.
Example flag_changed_under_way :
  let off := mkSessionEnv off_flags (fun n => n) true true true (fun _ => true) in
  let w := default (started session0) (run_sections (started session0) [Send calm_session; Returned off (inr reply1); Send calm_session]) in
  w.(pending) = [AwaitRpc (mkGetFileRequest 7 "a" 3 3 true)] /\ w.(session).(content) = bytes [7; 8].
Proof. vm_compute. auto. Qed.

(** Bytes given back may have been granted before the cycle under way began, if
    they were granted after the time it is aligned to: the comment says they are
    ignored. *)
Example old_tokens_are_returned :
  let t := (do_calls no_minimum (ThroughputSnapshotThrottle_new 1000 10 1000000) [Acquire 1110000 60; Acquire 1150000 60]).1 in
  t.(_last_throughput_check_time_us) = 1100000 /\ t.(_cur_throughput_bytes) = 60 /\
  (return_unused_throughput 60 0 50000 1160000 t).(_cur_throughput_bytes) = 0.
Proof. vm_compute. auto. Qed.
