(* ===== verification/NodeVote.v ===== *)
(** * NodeVote: what each handler of a node does to its term, vote and role

    Three classes of operations, each closed under sequencing, and the handlers
    that belong to them.  [kept]: the term, the vote, the role and the votes
    counted stay as they are.  [calm]: the term may be raised, which clears the
    vote; the node does not become candidate or leader, and counts no vote.
    [tame]: as far as the term and the vote go, the same.  [lively]: the node may
    also start an election of its own or suspend.  Only [elect_self_locked] and
    [request_vote_locked] store a vote, and they belong to none. *)

From S2P Require Import PeerText AppendEntriesCache LogManager LogStorage BallotBox Ballot NodeState Node NodeLog Types Prelude.

Section vote.
Context {S Mt : Type} `{LS : LogStorage S} `{MS : RaftMetaStorage Mt} `{EPO : EndPointOrder} `{IT : IpText}.

Abbreviation node := (Node S Mt).
Abbreviation durable n := (meta_durable n.(_meta_storage)).
Abbreviation ballot n := (n.(_vote_ctx).(_ballot)).

(** ** Relations between the states before and after *)

Definition keeps (n n' : node) : Prop :=
  n'.(_server_id) = n.(_server_id) /\ n'.(_suspended) = n.(_suspended) /\
  n'.(_current_term) = n.(_current_term) /\ n'.(_voted_id) = n.(_voted_id) /\ durable n' = durable n /\
  n'.(_state) = n.(_state) /\ ballot n' = ballot n.

#[export] Instance keeps_preorder : PreOrder keeps.
Proof.
  split; [done|]. intros a b c (? & ? & ? & ? & ? & ? & ?) (? & ? & ? & ? & ? & ? & ?).
  unfold keeps. intuition congruence.
Qed.

(** The term is raised and the vote cleared; writes of it may fail. *)
Definition raises (n n' : node) : Prop :=
  n'.(_server_id) = n.(_server_id) /\ n'.(_suspended) = n.(_suspended) /\
  (n'.(_current_term) = n.(_current_term) /\ n'.(_voted_id) = n.(_voted_id) /\ durable n' = durable n \/
   n.(_current_term) < n'.(_current_term) /\ n'.(_voted_id) = PeerId_default /\
   (durable n' = durable n \/
    exists t, n.(_current_term) < t <= n'.(_current_term) /\ durable n' = (t, PeerId_default))).

#[export] Instance raises_preorder : PreOrder raises.
Proof.
  split; [intros n; unfold raises; tauto|].
  intros a b c (Hs1 & Hq1 & H1) (Hs2 & Hq2 & H2). split_and!; [congruence..|].
  destruct H1 as [(Ht1 & Hv1 & Hd1)|(Ht1 & Hv1 & Hd1)]; destruct H2 as [(Ht2 & Hv2 & Hd2)|(Ht2 & Hv2 & Hd2)].
  - left. split_and!; congruence.
  - right. rewrite Ht1, Hd1 in *. auto.
  - right. rewrite Ht2, Hv2, Hd2. auto.
  - right. split_and!; [lia|done|]. destruct Hd2 as [->|(t & ? & ->)].
    + destruct Hd1 as [->|(t & ? & ->)]; [by left|]. right. exists t. split; [lia|done].
    + right. exists t. split; [lia|done].
Qed.

(** The states in which a node counts on its own vote. *)
Definition leading (n : node) : Prop := state_num n.(_state) <= state_num STATE_CANDIDATE.

(** The node became neither candidate nor leader, and while it stays one its
    term, its vote and the votes it counted stay too. *)
Definition holds (n n' : node) : Prop :=
  (n'.(_state) = STATE_CANDIDATE ->
   n.(_state) = STATE_CANDIDATE /\ n'.(_current_term) = n.(_current_term) /\ ballot n' = ballot n) /\
  (leading n' -> leading n /\ n'.(_current_term) = n.(_current_term) /\ n'.(_voted_id) = n.(_voted_id)).

Definition calmed (n n' : node) : Prop := raises n n' /\ holds n n'.

#[export] Instance calmed_preorder : PreOrder calmed.
Proof.
  split; [intros n; unfold calmed, holds; split; [reflexivity|tauto]|].
  intros a b c [Hr1 [Hc1 Hl1]] [Hr2 [Hc2 Hl2]]. split; [by transitivity b|]. split.
  - intros (H1 & -> & ->)%Hc2. by apply Hc1.
  - intros (H1 & -> & ->)%Hl2. by apply Hl1.
Qed.

Lemma keeps_raises n n' : keeps n n' -> raises n n'.
Proof. intros (? & ? & ? & ? & ? & ? & ?). split_and!; [done..|]. by left. Qed.

Lemma keeps_calmed n n' : keeps n n' -> calmed n n'.
Proof.
  intros Hk. split; [by apply keeps_raises|]. destruct Hk as (_ & _ & Ht & Hv & _ & Hs & Hb).
  unfold holds, leading. by rewrite Hs, Ht, Hv, Hb.
Qed.

(** A state that is neither candidate nor leader holds whatever came before. *)
Lemma raises_calmed n n' : raises n n' -> state_num STATE_CANDIDATE < state_num n'.(_state) -> calmed n n'.
Proof.
  intros Hr Hs. split; [done|]. split; [intros Hc; rewrite Hc in Hs; lia|unfold leading; lia].
Qed.

(** A candidate a vote can be for: a peer, and not this one. *)
Definition other_peer (self c : PeerId) : Prop := is_empty c = false /\ peer_eqb c self = false.

(** What a handler may leave suspended besides an election of its own. *)
Definition harmless (self : PeerId) (k : Cont) : Prop :=
  match k with
  | CElect _ => False
  | CVoteRequest _ r c _ => other_peer self c /\ r.(rv_server_id) = Some c
  | _ => True
  end.

(** The moves of a handler: raise the term, start an election, suspend. *)
Inductive vmove (n n' : node) : Prop :=
| mv_raises : raises n n' -> vmove n n'
| mv_elect c a :
    n'.(_server_id) = n.(_server_id) ->
    n'.(_suspended) = n.(_suspended) ++ [(c, CElect (n.(_current_term) + 1), a)] ->
    n'.(_current_term) = n.(_current_term) + 1 -> n'.(_voted_id) = n.(_server_id) ->
    durable n' = durable n -> vmove n n'
| mv_wait c k a :
    n'.(_server_id) = n.(_server_id) -> n'.(_suspended) = n.(_suspended) ++ [(c, k, a)] ->
    n'.(_current_term) = n.(_current_term) -> n'.(_voted_id) = n.(_voted_id) ->
    durable n' = durable n -> harmless n.(_server_id) k -> vmove n n'.

(** No vote is granted. *)
Definition quiet (e : Event) : Prop :=
  match e with VoteReply Vote _ _ (Some r) => r.(rs_granted) = false | _ => True end.

(** Nor does it become the leader. *)
Definition still (e : Event) : Prop :=
  quiet e /\ match e with Replicators (ResetTerm _) => False | _ => True end.

Abbreviation kept := (obeys keeps still).
Abbreviation calm := (obeys calmed still).
Abbreviation tame := (obeys raises quiet).
Abbreviation lively := (obeys (rtc vmove) quiet).

Lemma kept_calm {A} (m : M node Event A) : kept m -> calm m.
Proof. apply obeys_mono; [apply keeps_calmed|done]. Qed.
Lemma calm_tame {A} (m : M node Event A) : calm m -> tame m.
Proof. apply obeys_mono; [by intros n n' []|by intros e []]. Qed.
Lemma tame_lively {A} (m : M node Event A) : tame m -> lively m.
Proof. apply obeys_mono; [|done]. intros n n' H. by apply rtc_once, mv_raises. Qed.
Hint Resolve kept_calm calm_tame : obeys.

(** ** Running a part of the node touches that part only *)
Lemma forall_still_map {E'} (f : E' -> Event) (l : list E') : (forall e, still (f e)) -> Forall still (map f l).
Proof. intros Hf. apply Forall_forall. by intros e (x & -> & _)%list_elem_of_fmap. Qed.

Lemma still_quiet ev : Forall still ev -> Forall quiet ev.
Proof. intros H. eapply Forall_impl; [exact H|]. by intros e []. Qed.

Lemma lift_log_kept {A} (m : M (LogManager S) LogManager.Event A) : kept (lift_log (Mt:=Mt) m).
Proof.
  intros n. unfold lift_log, state_of, events_of. destruct (m (_log_manager n)) as [[a lm] ev].
  split; [done|by apply forall_still_map].
Qed.

Lemma lift_box_kept {A} (f : BallotBox -> A * BallotBox * list BallotBox.Event) :
  kept (lift_box (S:=S) (Mt:=Mt) f).
Proof.
  intros n. unfold lift_box, state_of, events_of. destruct (f (_ballot_box n)) as [[a bb] ev].
  split; [done|by apply forall_still_map].
Qed.

Lemma lift_cache_kept {A} c (m : M AppendEntriesCache AppendEntriesCache.Event A) :
  kept (lift_cache (S:=S) (Mt:=Mt) c m).
Proof.
  intros n. unfold lift_cache, state_of, events_of. destruct (m c) as [[a c'] ev].
  split; [done|by apply forall_still_map].
Qed.

Lemma kept_modify (f : node -> node) : (forall n, keeps n (f n)) -> kept (modify f).
Proof. apply obeys_modify. Qed.

Lemma ctx_reset_ballot b v : (ctx_reset b v).(_ballot) = v.(_ballot).
Proof. unfold ctx_reset, stop_grant_self_timer. by destruct (NodeState._timer v), b. Qed.

Lemma modify_ctx_kept w f : (forall v, (f v).(_ballot) = v.(_ballot)) -> kept (modify_ctx (S:=S) (Mt:=Mt) w f).
Proof. intros Hf. apply kept_modify. intros n. unfold keeps. destruct w; simpl; by rewrite ?Hf. Qed.

(** The votes of the pre-vote are another ballot. *)
Lemma modify_pre_ctx_kept f : kept (modify_ctx (S:=S) (Mt:=Mt) PreVote f).
Proof. by apply kept_modify. Qed.

Hint Resolve lift_log_kept lift_box_kept modify_pre_ctx_kept lift_cache_kept : obeys.
Ltac leaf :=
  match goal with
  | |- obeys keeps _ (modify _) =>
      apply kept_modify; intros; repeat case_match; unfold keeps; split_and!; first [done | apply ctx_reset_ballot]
  | |- obeys keeps _ (modify_ctx PreVote _) => apply modify_pre_ctx_kept
  | |- obeys keeps _ (modify_ctx _ _) => apply modify_ctx_kept; intros; simpl; rewrite ?ctx_reset_ballot; done
  | |- obeys calmed _ (modify _) => apply kept_calm; leaf
  | |- obeys calmed _ (modify_ctx _ _) => apply kept_calm; leaf
  | |- obeys raises _ (modify _) => apply calm_tame; leaf
  | |- obeys raises _ (modify_ctx _ _) => apply calm_tame; leaf
  end.
Ltac by_obey := repeat first [leaf | obey_step].

Section handlers.
Context (env : Env).

(** ** Handlers that keep the term, the vote and the role *)

Lemma check_kept b : kept (Node.check (S:=S) (Mt:=Mt) b).
Proof. unfold Node.check. by_obey. Qed.
Lemma run_closure_kept c e : kept (run_closure (S:=S) (Mt:=Mt) c e).
Proof. unfold run_closure. by_obey. Qed.
Lemma run_closure_nonnull_kept c e : kept (run_closure_nonnull (S:=S) (Mt:=Mt) c e).
Proof. unfold run_closure_nonnull. by_obey. Qed.
Lemma new_closure_kept k : kept (new_closure (S:=S) (Mt:=Mt) k).
Proof. unfold new_closure. by_obey. Qed.
Hint Resolve check_kept run_closure_kept run_closure_nonnull_kept new_closure_kept : obeys.
Lemma lift_box'_kept f : kept (lift_box' (S:=S) (Mt:=Mt) f).
Proof. apply lift_box_kept. Qed.
Hint Resolve lift_box'_kept : obeys.
Lemma check_and_set_conf_kept : kept (check_and_set_conf (S:=S) (Mt:=Mt)).
Proof. unfold check_and_set_conf. by_obey. Qed.
Lemma check_majority_nodes_readonly_conf_kept c : kept (check_majority_nodes_readonly_conf (S:=S) (Mt:=Mt) env c).
Proof. unfold check_majority_nodes_readonly_conf. by_obey. Qed.
Lemma delete_empty_cache_kept : kept (delete_empty_cache (S:=S) (Mt:=Mt)).
Proof. unfold delete_empty_cache. by_obey. Qed.
Hint Resolve check_and_set_conf_kept check_majority_nodes_readonly_conf_kept delete_empty_cache_kept : obeys.
Lemma check_majority_nodes_readonly_kept : kept (check_majority_nodes_readonly (S:=S) (Mt:=Mt) env).
Proof. unfold check_majority_nodes_readonly. by_obey. Qed.
Lemma check_append_entries_cache_kept i : kept (check_append_entries_cache (S:=S) (Mt:=Mt) env i).
Proof. unfold check_append_entries_cache. by_obey. Qed.
Lemma clear_append_entries_cache_kept : kept (clear_append_entries_cache (S:=S) (Mt:=Mt) env).
Proof. unfold clear_append_entries_cache. by_obey. Qed.
Lemma stop_replicator_kept k d : kept (stop_replicator (S:=S) (Mt:=Mt) k d).
Proof. unfold stop_replicator. by_obey. Qed.
Hint Resolve check_majority_nodes_readonly_kept check_append_entries_cache_kept clear_append_entries_cache_kept stop_replicator_kept : obeys.
Lemma conf_ctx_reset_kept st : kept (conf_ctx_reset (S:=S) (Mt:=Mt) env st).
Proof. unfold conf_ctx_reset. by_obey. Qed.
Lemma reset_leader_id_kept p e : kept (reset_leader_id (S:=S) (Mt:=Mt) env p e).
Proof. unfold reset_leader_id. by_obey. Qed.
Lemma leave_state_kept e : kept (leave_state (S:=S) (Mt:=Mt) env e).
Proof. unfold leave_state. by_obey. Qed.
Lemma unsafe_apply_configuration_kept c o b : kept (unsafe_apply_configuration (S:=S) (Mt:=Mt) c o b).
Proof. unfold unsafe_apply_configuration. by_obey. Qed.
Hint Resolve conf_ctx_reset_kept reset_leader_id_kept leave_state_kept unsafe_apply_configuration_kept : obeys.
Lemma conf_ctx_flush_kept c o : kept (conf_ctx_flush (S:=S) (Mt:=Mt) c o).
Proof. unfold conf_ctx_flush. by_obey. Qed.
Lemma leader_lease_start_kept e : kept (leader_lease_start (S:=S) (Mt:=Mt) env e).
Proof. unfold leader_lease_start. by_obey. Qed.
Lemma start_grant_self_timer_kept w t : kept (start_grant_self_timer (S:=S) (Mt:=Mt) env w t).
Proof. unfold start_grant_self_timer. by_obey. Qed.
Lemma poll_peers_kept w c r : kept (poll_peers (S:=S) (Mt:=Mt) env w c r).
Proof. unfold poll_peers. by_obey. Qed.
Hint Resolve conf_ctx_flush_kept leader_lease_start_kept start_grant_self_timer_kept poll_peers_kept : obeys.
Lemma request_peers_to_vote_kept c d : kept (request_peers_to_vote (S:=S) (Mt:=Mt) env c d).
Proof. unfold request_peers_to_vote. by_obey. Qed.
Lemma enter_readonly_mode_kept : kept (enter_readonly_mode (S:=S) (Mt:=Mt)).
Proof. unfold enter_readonly_mode. by_obey. Qed.
Lemma leave_readonly_mode_kept : kept (leave_readonly_mode (S:=S) (Mt:=Mt)).
Proof. unfold leave_readonly_mode. by_obey. Qed.
Lemma change_readonly_config_kept t p b : kept (change_readonly_config (S:=S) (Mt:=Mt) env t p b).
Proof. unfold change_readonly_config. by_obey. Qed.
Lemma handle_append_entries_cache_timedout_kept v c t : kept (handle_append_entries_cache_timedout (S:=S) (Mt:=Mt) env v c t).
Proof. unfold handle_append_entries_cache_timedout. by_obey. Qed.
Lemma handle_out_of_order_append_entries_kept c r i : kept (handle_out_of_order_append_entries (S:=S) (Mt:=Mt) env c r i).
Proof. unfold handle_out_of_order_append_entries. by_obey. Qed.
Lemma unsafe_reset_election_timeout_ms_kept e d : kept (unsafe_reset_election_timeout_ms (S:=S) (Mt:=Mt) env e d).
Proof. unfold unsafe_reset_election_timeout_ms. by_obey. Qed.
Hint Resolve request_peers_to_vote_kept enter_readonly_mode_kept leave_readonly_mode_kept change_readonly_config_kept handle_append_entries_cache_timedout_kept handle_out_of_order_append_entries_kept unsafe_reset_election_timeout_ms_kept : obeys.
Lemma reset_election_timeout_ms_kept e : kept (Node.reset_election_timeout_ms (S:=S) (Mt:=Mt) env e).
Proof. unfold Node.reset_election_timeout_ms. by_obey. Qed.
Lemma do_snapshot_kept d : kept (do_snapshot (S:=S) (Mt:=Mt) env d).
Proof. unfold do_snapshot. by_obey. Qed.
Lemma reject_task_kept e t : kept (reject_task (S:=S) (Mt:=Mt) e t).
Proof. unfold reject_task. by_obey. Qed.
Hint Resolve reset_election_timeout_ms_kept do_snapshot_kept reject_task_kept : obeys.
Lemma vote_kept e : kept (Node.vote (S:=S) (Mt:=Mt) env e).
Proof. unfold Node.vote. by_obey. Qed.
Lemma handle_snapshot_timeout_kept : kept (handle_snapshot_timeout (S:=S) (Mt:=Mt) env).
Proof. unfold handle_snapshot_timeout. by_obey. Qed.
Lemma append_task_kept n t : kept (append_task (S:=S) (Mt:=Mt) n t).
Proof. unfold append_task. by_obey. Qed.
Hint Resolve vote_kept handle_snapshot_timeout_kept append_task_kept : obeys.
Lemma apply_kept l : kept (NodeLog.apply (S:=S) (Mt:=Mt) l).
Proof. unfold NodeLog.apply. by_obey. Qed.
Lemma follower_stable_run_kept c r t e : kept (follower_stable_run (S:=S) (Mt:=Mt) c r t e).
Proof. unfold follower_stable_run. by_obey. Qed.
Lemma leader_stable_run_kept k f e : kept (leader_stable_run (S:=S) (Mt:=Mt) k f e).
Proof. unfold leader_stable_run. by_obey. Qed.
Lemma reject_unmatched_kept c r b : kept (reject_unmatched (S:=S) (Mt:=Mt) env c r b).
Proof. unfold reject_unmatched. by_obey. Qed.
Lemma accept_heartbeat_kept c r : kept (accept_heartbeat (S:=S) (Mt:=Mt) c r).
Proof. unfold accept_heartbeat. by_obey. Qed.
Lemma accept_entries_kept c r : kept (accept_entries (S:=S) (Mt:=Mt) env c r).
Proof. unfold accept_entries. by_obey. Qed.
Hint Resolve apply_kept follower_stable_run_kept leader_stable_run_kept reject_unmatched_kept accept_heartbeat_kept accept_entries_kept : obeys.
Lemma execute_applying_tasks_kept b cur l : kept (execute_applying_tasks (S:=S) (Mt:=Mt) b cur l).
Proof. revert cur. induction l as [|t l IH]; intros cur; simpl; by_obey. Qed.
Lemma read_user_log_kept k i j : kept (read_user_log (S:=S) (Mt:=Mt) k i j).
Proof. revert i. induction k as [|k IH]; intros i; simpl; by_obey. Qed.
Hint Resolve execute_applying_tasks_kept read_user_log_kept : obeys.
Lemma read_committed_user_log_kept i j : kept (read_committed_user_log (S:=S) (Mt:=Mt) i j).
Proof. unfold read_committed_user_log. by_obey. Qed.
Hint Resolve read_committed_user_log_kept : obeys.

(** Popping the reserved peers puts back the context that was read. *)
Lemma pop_grantable_ballot v : (pop_grantable_peers v).2.(_ballot) = v.(_ballot).
Proof. unfold pop_grantable_peers. by destruct (_ =? -1). Qed.

Lemma pop_ctx_kept w {A} (f : Configuration -> VoteBallotCtx -> M node Event A) :
  (forall p v, kept (f p v)) ->
  kept (n ← get; let '(peers, v) := pop_grantable_peers (vote_ctx w n) in modify_ctx w (fun _ => v) ;; f peers v).
Proof.
  intros Hf n. rewrite get_bind. destruct (pop_grantable_peers (vote_ctx w n)) as [peers v] eqn:Hp.
  pose proof (pop_grantable_ballot (vote_ctx w n)) as Hb. rewrite Hp in Hb. simpl in Hb.
  set (n1 := state_of (modify_ctx w (fun _ => v) n)).
  assert (keeps n n1) as Hk by (unfold n1, modify_ctx, keeps, state_of; destruct w; simpl in *; done).
  destruct (Hf peers v n1) as [H1 H2]. unfold state_of, events_of in *.
  unfold mbind, M_bind. unfold n1, modify_ctx, modify, state_of in *. simpl in *.
  destruct (f peers v _) as [[a n2] ev]. simpl in *. split; [by etransitivity|done].
Qed.

Lemma retry_vote_on_reserved_peers_kept : kept (retry_vote_on_reserved_peers (S:=S) (Mt:=Mt) env).
Proof. apply (pop_ctx_kept Vote). intros p v. by_obey. Qed.
Hint Resolve retry_vote_on_reserved_peers_kept : obeys.

(** ** Stepping down *)

(** Raising the term clears the vote; the write may be lost. *)
Lemma raise_term_raises t (n : node) :
  let n' := state_of (raise_term t n) in
  raises n n' /\ n'.(_state) = n.(_state) /\ Forall still (events_of (raise_term t n)).
Proof.
  unfold raise_term, when, save_meta. run. destruct (Z.ltb_spec (_current_term n) t) as [Hlt|].
  - simpl. destruct (set_term_and_votedfor _ _ _) as [e m'] eqn:Hs. simpl. split; [|split; [done|constructor]].
    apply set_term_durable in Hs. split_and!; [done..|]. right. split_and!; [done..|]. simpl.
    destruct Hs as [->|[_ ->]]; [|by left]. right. exists t. split; [lia|done].
  - simpl. split; [reflexivity|]. split; [done|constructor].
Qed.

(** [step_down] once the node is a follower again. *)
Definition stepped (n n' : node) : Prop := raises n n' /\ n'.(_state) = n.(_state).

#[local] Instance stepped_preorder : PreOrder stepped.
Proof.
  split; [intros n; split; [reflexivity|done]|].
  intros a b c [? ?] [? ?]. split; [by transitivity b|congruence].
Qed.

Lemma kept_stepped {A} (m : M node Event A) : kept m -> obeys stepped still m.
Proof. apply obeys_mono; [|done]. intros n n' Hk. split; [by apply keeps_raises|apply Hk]. Qed.

Lemma raise_term_stepped t : obeys stepped still (raise_term (S:=S) (Mt:=Mt) t).
Proof. intros n. destruct (raise_term_raises t n) as (? & ? & ?). split; [by split|done]. Qed.

Lemma step_down_as_follower t b : obeys stepped still
  (conf_ctx_reset (S:=S) (Mt:=Mt) env None ;;
   modify (fun n => n <| _majority_nodes_readonly := false |>) ;;
   clear_append_entries_cache env ;;
   when env.(has_snapshot_executor) (emit (Snapshots (InterruptDownloading t))) ;;
   raise_term t ;;
   emit (Replicators (if b : bool then StopAllAndWakeup else StopAll)) ;;
   modify (fun n => n <| _stop_transfer_arg := None |>) ;;
   emit (Timer ElectionTimer Start)).
Proof.
  repeat first [ solve [apply raise_term_stepped]
               | solve [apply obeys_emit; [exact _|by destruct b]]
               | solve [apply kept_stepped; first [leaf | eauto with obeys typeclass_instances]]
               | obey_step ].
Qed.

(** Leaving a role: the state changes to follower. *)
Lemma step_down_calm t b e : calm (step_down (S:=S) (Mt:=Mt) env t b e).
Proof.
  unfold step_down. apply obeys_bind; [exact _|by_obey|]. intros n0. destruct (negb _); [by_obey|].
  apply obeys_bind; [exact _|by_obey|]. intros _. apply obeys_bind; [exact _|by_obey|]. intros _.
  intros n. rewrite modify_bind.
  destruct (step_down_as_follower t b (n <| _state := STATE_FOLLOWER |>)) as [[Hr Hs] He].
  split; [|done]. apply raises_calmed; [|by rewrite Hs].
  destruct Hr as (? & ? & Hm). split_and!; [done..|]. destruct Hm as [?|?]; [by left|by right].
Qed.
Hint Resolve step_down_calm : obeys.

(** ** Handlers that may step down *)
Lemma check_step_down_calm t p : calm (check_step_down (S:=S) (Mt:=Mt) env t p).
Proof. unfold check_step_down. by_obey. Qed.
Lemma next_stage_calm : calm (next_stage (S:=S) (Mt:=Mt) env).
Proof. unfold next_stage. by_obey. Qed.
Hint Resolve check_step_down_calm next_stage_calm : obeys.
Lemma conf_ctx_on_caughtup_calm v p b : calm (conf_ctx_on_caughtup (S:=S) (Mt:=Mt) env v p b).
Proof. unfold conf_ctx_on_caughtup. by_obey. Qed.
Hint Resolve conf_ctx_on_caughtup_calm : obeys.
Lemma start_catchup_calm l : calm (start_catchup (S:=S) (Mt:=Mt) env l).
Proof. induction l as [|p l IH]; simpl; by_obey. Qed.
Hint Resolve start_catchup_calm : obeys.
Lemma conf_ctx_start_calm o c d : calm (conf_ctx_start (S:=S) (Mt:=Mt) env o c d).
Proof. unfold conf_ctx_start. by_obey. Qed.
Lemma on_configuration_change_done_calm t : calm (on_configuration_change_done (S:=S) (Mt:=Mt) env t).
Proof. unfold on_configuration_change_done. by_obey. Qed.
Lemma on_caughtup_calm p t v e : calm (on_caughtup (S:=S) (Mt:=Mt) env p t v e).
Proof. unfold on_caughtup. by_obey. Qed.
Hint Resolve conf_ctx_start_calm on_configuration_change_done_calm on_caughtup_calm : obeys.
Lemma unsafe_register_conf_change_calm o c d : calm (unsafe_register_conf_change (S:=S) (Mt:=Mt) env o c d).
Proof. unfold unsafe_register_conf_change. by_obey. Qed.
Hint Resolve unsafe_register_conf_change_calm : obeys.
Lemma add_peer_calm p d : calm (Node.add_peer (S:=S) (Mt:=Mt) env p d).
Proof. unfold Node.add_peer. by_obey. Qed.
Lemma remove_peer_calm p d : calm (Node.remove_peer (S:=S) (Mt:=Mt) env p d).
Proof. unfold Node.remove_peer. by_obey. Qed.
Lemma change_peers_calm c d : calm (change_peers (S:=S) (Mt:=Mt) env c d).
Proof. unfold change_peers. by_obey. Qed.
Lemma reset_peers_calm c : calm (reset_peers (S:=S) (Mt:=Mt) env c).
Proof. unfold reset_peers. by_obey. Qed.
Hint Resolve add_peer_calm remove_peer_calm change_peers_calm reset_peers_calm : obeys.
Lemma get_leader_lease_status_calm : calm (get_leader_lease_status (S:=S) (Mt:=Mt) env).
Proof. unfold get_leader_lease_status. by_obey. Qed.
Lemma check_dead_nodes_calm c t : calm (check_dead_nodes (S:=S) (Mt:=Mt) env c t).
Proof. unfold check_dead_nodes. by_obey. Qed.
Lemma check_witness_calm : calm (check_witness (S:=S) (Mt:=Mt) env).
Proof. unfold check_witness. by_obey. Qed.
Hint Resolve get_leader_lease_status_calm check_dead_nodes_calm check_witness_calm : obeys.
Lemma handle_stepdown_timeout_calm : calm (handle_stepdown_timeout (S:=S) (Mt:=Mt) env).
Proof. unfold handle_stepdown_timeout. by_obey. Qed.
Lemma is_leader_lease_valid_calm : calm (is_leader_lease_valid (S:=S) (Mt:=Mt) env).
Proof. unfold is_leader_lease_valid. by_obey. Qed.
Lemma response_acceptable_calm w s t v r : calm (response_acceptable (S:=S) (Mt:=Mt) env w s t v r).
Proof. unfold response_acceptable. by_obey. Qed.
Lemma increase_term_to_calm t e : calm (increase_term_to (S:=S) (Mt:=Mt) env t e).
Proof. unfold increase_term_to. by_obey. Qed.
Hint Resolve handle_stepdown_timeout_calm is_leader_lease_valid_calm response_acceptable_calm increase_term_to_calm : obeys.

(** Entering a state that is neither candidate nor leader. *)
Lemma leave_calm (f : node -> node) :
  (forall n, raises n (f n) /\ state_num STATE_CANDIDATE < state_num (f n).(_state)) -> calm (modify f).
Proof. intros Hf. apply obeys_modify. intros n. destruct (Hf n). by apply raises_calmed. Qed.

Lemma on_error_calm e : calm (on_error (S:=S) (Mt:=Mt) env e).
Proof.
  unfold on_error. repeat first [solve [apply leave_calm; intros; repeat split; by left] | leaf | obey_step].
Qed.
Lemma shutdown_calm d : calm (Node.shutdown (S:=S) (Mt:=Mt) env d).
Proof.
  unfold Node.shutdown. repeat first [solve [apply leave_calm; intros; repeat split; by left] | leaf | obey_step].
Qed.
Lemma after_shutdown_calm : calm (after_shutdown (S:=S) (Mt:=Mt)).
Proof.
  unfold after_shutdown. repeat first [solve [apply leave_calm; intros; repeat split; by left] | leaf | obey_step].
Qed.

(** Between leading and handing over, which both rest on the same vote. *)
Definition hands_over (n n' : node) : Prop :=
  keeps n (n' <| _state := n.(_state) |>) /\
  (n.(_state) = STATE_LEADER \/ n.(_state) = STATE_TRANSFERRING) /\
  (n'.(_state) = STATE_LEADER \/ n'.(_state) = STATE_TRANSFERRING).

Lemma hands_over_calmed n n' : hands_over n n' -> calmed n n'.
Proof.
  intros ((Hs & Hq & Ht & Hv & Hd & _ & Hb) & Ho & Ho'). simpl in *. split.
  - split_and!; [done..|]. by left.
  - split; [intros Hc; destruct Ho' as [->| ->] in Hc; done|]. intros _. split_and!; [|done..].
    unfold leading. by destruct Ho as [->| ->].
Qed.

Lemma handle_transfer_timeout_calm t p : calm (handle_transfer_timeout (S:=S) (Mt:=Mt) t p).
Proof.
  intros n. unfold handle_transfer_timeout. rewrite get_bind. destruct (t =? _current_term n); [|split; [reflexivity|constructor]].
  unfold when. destruct (bool_decide_reflect (_state n = STATE_TRANSFERRING)) as [Hs|Hs]; run; simpl.
  - split; [|by repeat constructor]. apply hands_over_calmed. by split; [|auto].
  - split; [reflexivity|by repeat constructor].
Qed.
Hint Resolve handle_transfer_timeout_calm : obeys.

(** What follows the change of state in [transfer_leadership_to]. *)
Lemma calm_at_modify (f : node -> node) {A} (k : unit -> M node Event A) n :
  calmed n (f n) -> calm (k tt) ->
  calmed n (state_of ((modify f ≫= k) n)) /\ Forall still (events_of ((modify f ≫= k) n)).
Proof. intros Hf Hk. rewrite modify_bind. destruct (Hk (f n)). split; [by transitivity (f n)|done]. Qed.

Lemma calm_at_emit (e : Event) {A} (m : M node Event A) n :
  still e -> calmed n (state_of (m n)) /\ Forall still (events_of (m n)) ->
  calmed n (state_of ((emit e ;; m) n)) /\ Forall still (events_of ((emit e ;; m) n)).
Proof.
  intros He. rewrite emit_bind. unfold state_of, events_of. destruct (m n) as [[a n'] ev]. simpl.
  intros [? ?]. split; [done|by constructor].
Qed.

Lemma transfer_leadership_to_calm p : calm (transfer_leadership_to (S:=S) (Mt:=Mt) env p).
Proof.
  intros n. unfold transfer_leadership_to. rewrite get_bind.
  destruct (bool_decide_reflect (_state n = STATE_LEADER)) as [Hs|Hs]; simpl; [|split; [reflexivity|constructor]].
  destruct (is_busy _); [split; [reflexivity|constructor]|].
  destruct (if peer_eqb p ANY_PEER then _ else _) as [q|]; [|split; [reflexivity|constructor]].
  destruct (peer_eqb q _); [split; [reflexivity|constructor]|].
  destruct (negb (conf_contains _ _)); [split; [reflexivity|constructor]|].
  destruct (negb (ok _)); [split; [reflexivity|by repeat constructor]|].
  apply calm_at_emit; [done|]. apply calm_at_modify; [|by_obey].
  apply hands_over_calmed. split; [done|auto].
Qed.
Hint Resolve transfer_leadership_to_calm : obeys.
Lemma configuration_change_done_run_calm t b e s : calm (configuration_change_done_run (S:=S) (Mt:=Mt) env t b e s).
Proof. unfold configuration_change_done_run. by_obey. Qed.
Hint Resolve configuration_change_done_run_calm : obeys.
Lemma run_node_closure_calm c e f : calm (run_node_closure (S:=S) (Mt:=Mt) env c e f).
Proof. unfold run_node_closure. by_obey. Qed.
Lemma leader_conflict_calm t : calm (leader_conflict (S:=S) (Mt:=Mt) env t).
Proof. unfold leader_conflict. by_obey. Qed.
Hint Resolve run_node_closure_calm leader_conflict_calm : obeys.
Lemma handle_append_entries_request_calm c r b : calm (handle_append_entries_request (S:=S) (Mt:=Mt) env c r b).
Proof. unfold handle_append_entries_request. by_obey. Qed.
Hint Resolve handle_append_entries_request_calm : obeys.
Lemma handle_append_entries_from_cache_calm b l : calm (handle_append_entries_from_cache (S:=S) (Mt:=Mt) env b l).
Proof. unfold handle_append_entries_from_cache. by_obey. Qed.
Lemma handle_install_snapshot_request_calm c p t : calm (handle_install_snapshot_request (S:=S) (Mt:=Mt) env c p t).
Proof. unfold handle_install_snapshot_request. by_obey. Qed.
Hint Resolve handle_append_entries_from_cache_calm handle_install_snapshot_request_calm : obeys.

(** ** Elections *)
Lemma start_leading_tame n : tame (start_leading (S:=S) (Mt:=Mt) n).
Proof. unfold start_leading. by_obey. Qed.
Hint Resolve start_leading_tame : obeys.
Lemma become_leader_tame : tame (become_leader (S:=S) (Mt:=Mt) env).
Proof.
  unfold become_leader.
  repeat first [leaf | solve [apply obeys_modify; intros; repeat split; by left] | obey_step].
Qed.
Lemma grant_peer_tame w p : tame (grant_peer (S:=S) (Mt:=Mt) env w p).
Proof.
  unfold grant_peer, modify_ctx.
  repeat first [solve [apply obeys_modify; intros; destruct w; repeat split; by left] | obey_step].
Qed.
Hint Resolve become_leader_tame grant_peer_tame : obeys.
Lemma handle_request_vote_response_tame p t v r : tame (handle_request_vote_response (S:=S) (Mt:=Mt) env p t v r).
Proof. unfold handle_request_vote_response. by_obey. Qed.
Hint Resolve handle_request_vote_response_tame : obeys.
Lemma wait_moves k n :
  harmless n.(_server_id) k ->
  rtc vmove n (state_of (wait_last_log_id (Mt:=Mt) k n)) /\ Forall quiet (events_of (wait_last_log_id (Mt:=Mt) k n)).
Proof.
  intros Hk. unfold wait_last_log_id, lift_log. run. simpl.
  destruct (LogManager.last_log_id _ _ _) as [[a lm] ev]. simpl. split.
  - by apply rtc_once, (mv_wait _ _ (_next_closure n) k a).
  - rewrite app_nil_r. apply still_quiet; by apply forall_still_map.
Qed.

Lemma wait_lively k : (forall self, harmless self k) -> lively (wait_last_log_id (S:=S) (Mt:=Mt) k).
Proof. intros Hk n. by apply wait_moves. Qed.

Ltac by_lively := repeat first
  [ solve [apply tame_lively, calm_tame; leaf]
  | solve [by apply wait_lively]
  | solve [eauto with obeys typeclass_instances]
  | solve [apply tame_lively; eauto with obeys typeclass_instances]
  | obey_step ].

(** The election proper, from the change of term to the suspension. *)
Definition begin_election (conf : ConfigurationEntry) (disrupted : option DisruptedLeader) : M node Event unit :=
  modify (fun n => n <| _state := STATE_CANDIDATE |> <| _current_term := n.(_current_term) + 1 |>
                     <| _voted_id := n.(_server_id) |>) ;;
  emit (Timer VoteTimer Start) ;;
  modify_ctx PreVote (ctx_reset env.(timer_del)) ;;
  modify_ctx Vote (ctx_init env.(timer_del) conf false) ;;
  match disrupted with
  | Some d => modify_ctx Vote (set_disrupted_leader d) ;;
              modify (fun n => n <| _follower_lease := Lease.expire n.(_follower_lease) |>)
  | None => skip
  end ;;
  n ← get;
  wait_last_log_id (CElect n.(_current_term)).

Lemma begin_election_lively conf d : lively (begin_election conf d).
Proof.
  intros n. unfold begin_election, wait_last_log_id, lift_log, modify_ctx. run. simpl.
  destruct d as [d|]; simpl; destruct (LogManager.last_log_id _ _ _) as [[a lm] ev]; simpl;
    (split; [by eapply rtc_once, (mv_elect _ _ (_next_closure n) a)|]);
    constructor; try done; rewrite ?app_nil_r; apply still_quiet; by apply forall_still_map.
Qed.

Lemma elect_self_lively b : lively (elect_self (S:=S) (Mt:=Mt) env b).
Proof.
  unfold elect_self. apply obeys_bind; [exact _|by_lively|]. intros n. destruct (negb _); [by_lively|].
  apply obeys_bind; [exact _|by_lively|]. intros _. cbv zeta. apply obeys_bind; [exact _|by_lively|]. intros _.
  pose proof (begin_election_lively n.(_conf)
    (if b then Some (mkDisruptedLeader n.(_leader_id) n.(_current_term)) else None)) as Hb.
  unfold begin_election in Hb. unfold when. destruct b; exact Hb.
Qed.
Hint Resolve elect_self_lively : obeys.
Lemma grant_self_lively w : lively (grant_self (S:=S) (Mt:=Mt) env w).
Proof.
  unfold grant_self, modify_ctx.
  repeat first [solve [apply tame_lively, obeys_modify; intros; destruct w; repeat split; by left] | by_lively].
Qed.
Hint Resolve grant_self_lively : obeys.
Lemma pre_vote_lively b : lively (pre_vote (S:=S) (Mt:=Mt) env b).
Proof. unfold pre_vote. by_lively. Qed.
Lemma pre_vote_locked_lively t b l : lively (pre_vote_locked (S:=S) (Mt:=Mt) env t b l).
Proof. unfold pre_vote_locked. by_lively. Qed.
Lemma handle_grant_self_timedout_lively w v : lively (handle_grant_self_timedout (S:=S) (Mt:=Mt) env w v).
Proof. unfold handle_grant_self_timedout. by_lively. Qed.
Hint Resolve pre_vote_lively pre_vote_locked_lively handle_grant_self_timedout_lively : obeys.
Lemma handle_election_timeout_lively : lively (handle_election_timeout (S:=S) (Mt:=Mt) env).
Proof. unfold handle_election_timeout. by_lively. Qed.
Lemma handle_vote_timeout_lively : lively (handle_vote_timeout (S:=S) (Mt:=Mt) env).
Proof. unfold handle_vote_timeout. by_lively. Qed.
Lemma handle_timeout_now_request_lively r t b : lively (handle_timeout_now_request (S:=S) (Mt:=Mt) env r t b).
Proof. unfold handle_timeout_now_request. by_lively. Qed.
Lemma handle_pre_vote_response_lively p t v r : lively (handle_pre_vote_response (S:=S) (Mt:=Mt) env p t v r).
Proof. unfold handle_pre_vote_response. by_lively. Qed.
Hint Resolve handle_election_timeout_lively handle_vote_timeout_lively handle_timeout_now_request_lively handle_pre_vote_response_lively : obeys.
Lemma pre_vote_reply_lively c r g l : lively (pre_vote_reply (S:=S) (Mt:=Mt) c r g l).
Proof. unfold pre_vote_reply. by_lively. Qed.
Hint Resolve pre_vote_reply_lively : obeys.
Lemma handle_pre_vote_request_lively c r : lively (handle_pre_vote_request (S:=S) (Mt:=Mt) c r).
Proof. unfold handle_pre_vote_request. by_lively. Qed.
Lemma pre_vote_request_locked_lively c r l : lively (pre_vote_request_locked (S:=S) (Mt:=Mt) env c r l).
Proof. unfold pre_vote_request_locked. by_lively. Qed.
Hint Resolve handle_pre_vote_request_lively pre_vote_request_locked_lively : obeys.

End handlers.
End vote.
