(* ===== verification/VoteSafety.v ===== *)
(** * VoteSafety: a raft node votes for one peer per term

    Over the whole life of a node, crashes, restarts and failed writes of the
    meta storage included, the votes it grants to others in one term all go to
    the same candidate. *)

From S2P Require Import PeerText AppendEntriesCache LogManager LogStorage BallotBox NodeState Node NodeLog NodeVote Types Prelude.

Lemma is_empty_equiv a b : a ≡ b -> is_empty a = is_empty b.
Proof.
  intros Hab%peer_eqb_equiv%peer_eqb_spec. destruct Hab as [Ha Hi]. unfold is_empty. by rewrite Ha, Hi.
Qed.

(** ** The life of a node *)

(** The entry points of a node: requests and responses of the network, timers,
    calls of the user and of the other parts. *)
Inductive Call : Set :=
| CallElectionTimeout | CallVoteTimeout | CallStepdownTimeout | CallSnapshotTimeout
| CallGrantSelfTimeout (w : Poll) (version : Z)
| CallTransferTimeout (term : Z) (peer : PeerId)
| CallCacheTimeout (timer_version cache_version start_ms : Z)
| CallVoteRequest (rpc : Closure) (r : RequestVoteRequest)
| CallPreVoteRequest (rpc : Closure) (r : RequestVoteRequest)
| CallVoteResponse (peer : PeerId) (term version : Z) (r : RequestVoteResponse)
| CallPreVoteResponse (peer : PeerId) (term version : Z) (r : RequestVoteResponse)
| CallTimeoutNow (rpc : Closure) (term : Z) (old_leader_stepped_down : bool)
| CallAppendEntries (rpc : Closure) (r : AppendEntriesRequest)
| CallFromCache (thread_ok : bool) (rpcs : list Rpc)
| CallInstallSnapshot (rpc : Closure) (server : option PeerId) (term : Z)
| CallResume (i : nat) (flushed : LogId)
| CallClosure (c : Closure) (status : Errno) (first_log_index : Z)
| CallCaughtup (peer : PeerId) (term version : Z) (st : Errno)
| CallIncreaseTerm (term : Z) (status : Errno)
| CallReadonlyConfig (term : Z) (peer : PeerId) (b : bool)
| CallConfigurationInstalled
| CallLeaseStatus
| CallApply (batch : Z) (tasks : list Task)
| CallAddPeer (p : PeerId) (d : option Closure) | CallRemovePeer (p : PeerId) (d : option Closure)
| CallChangePeers (c : Configuration) (d : option Closure) | CallResetPeers (c : Configuration)
| CallTransfer (p : PeerId) | CallVote (ms : Z) | CallResetElectionTimeout (ms : Z)
| CallReadonly (b : bool) | CallSnapshot (d : option Closure) | CallReadLog (index applied : Z)
| CallError (e : Errno) | CallShutdown (d : option Closure) | CallAfterShutdown.

Section life.
Context {S Mt : Type} `{LS : LogStorage S} `{MS : RaftMetaStorage Mt} `{EPO : EndPointOrder} `{IT : IpText}.

Abbreviation node := (Node S Mt).
Abbreviation NM := (M node Event).
Abbreviation durable n := (meta_durable n.(_meta_storage)).

Definition discard {A} (m : NM A) : NM unit := m ;; mret tt.

Definition perform (env : Env) (c : Call) : NM unit :=
  match c with
  | CallElectionTimeout => handle_election_timeout env
  | CallVoteTimeout => handle_vote_timeout env
  | CallStepdownTimeout => handle_stepdown_timeout env
  | CallSnapshotTimeout => handle_snapshot_timeout env
  | CallGrantSelfTimeout w v => handle_grant_self_timedout env w v
  | CallTransferTimeout t p => handle_transfer_timeout t p
  | CallCacheTimeout v c t => handle_append_entries_cache_timedout env v c t
  | CallVoteRequest rpc r => handle_request_vote_request rpc r
  | CallPreVoteRequest rpc r => handle_pre_vote_request rpc r
  | CallVoteResponse p t v r => handle_request_vote_response env p t v r
  | CallPreVoteResponse p t v r => handle_pre_vote_response env p t v r
  | CallTimeoutNow rpc t b => handle_timeout_now_request env rpc t b
  | CallAppendEntries rpc r => handle_append_entries_request env rpc r false
  | CallFromCache b l => handle_append_entries_from_cache env b l
  | CallInstallSnapshot rpc p t => handle_install_snapshot_request env rpc p t
  | CallResume i l => resume env i l
  | CallClosure c e i => run_node_closure env c e i
  | CallCaughtup p t v e => on_caughtup env p t v e
  | CallIncreaseTerm t e => discard (increase_term_to env t e)
  | CallReadonlyConfig t p b => discard (change_readonly_config env t p b)
  | CallConfigurationInstalled => update_configuration_after_installing_snapshot
  | CallLeaseStatus => discard (get_leader_lease_status env)
  | CallApply b l => execute_applying_tasks b [] l
  | CallAddPeer p d => Node.add_peer env p d
  | CallRemovePeer p d => Node.remove_peer env p d
  | CallChangePeers c d => change_peers env c d
  | CallResetPeers c => discard (reset_peers env c)
  | CallTransfer p => discard (transfer_leadership_to env p)
  | CallVote t => discard (Node.vote env t)
  | CallResetElectionTimeout t => discard (Node.reset_election_timeout_ms env t)
  | CallReadonly b => if b then enter_readonly_mode else leave_readonly_mode
  | CallSnapshot d => do_snapshot env d
  | CallReadLog i j => discard (read_committed_user_log i j)
  | CallError e => on_error env e
  | CallShutdown d => Node.shutdown env d
  | CallAfterShutdown => after_shutdown
  end.

(** A process that is down has only its storages. *)
Inductive World : Type := Down (m : Mt) | Up (n : node).

Context (self : PeerId).

(** The candidates of the vote requests a node receives are other peers. *)
Definition request_ok (r : RequestVoteRequest) : Prop :=
  match r.(rv_server_id) with Some c => other_peer self c | None => True end.
Definition call_ok (c : Call) : Prop :=
  match c with CallVoteRequest _ r => request_ok r | _ => True end.

(** What the other threads do meanwhile: the disk thread, the snapshot executor
    and the FSM caller work on the log manager, the replicators and the FSM
    caller on the ballot box.  Any operation stands for theirs. *)
Definition background (m : M (LogManager S) LogManager.Event unit)
    (f : BallotBox -> BallotBox * list BallotBox.Event) : NM unit :=
  lift_log m ;; lift_box' f.

(** A call runs to its end or to where it waits, or other threads work; a crash keeps what is durable;
    a process starts from what is durable, and is gone when [init] fails. *)
Inductive wstep : World -> list Event -> World -> Prop :=
| WCall env c n n' ev :
    call_ok c -> perform env c n = (tt, n', ev) -> wstep (Up n) ev (Up n')
| WBackground m f n n' ev : background m f n = (tt, n', ev) -> wstep (Up n) ev (Up n')
| WCrash n m : meta_durable m = durable n -> wstep (Up n) [] (Down m)
| WStart env ie s options m n' ev :
    NodeLog.init env ie (NodeImpl self s m options) = (OK, n', ev) -> wstep (Down m) ev (Up n')
| WStartFailed env ie s options m e n' m' ev :
    e <> OK -> NodeLog.init env ie (NodeImpl self s m options) = (e, n', ev) ->
    meta_durable m' = durable n' -> wstep (Down m) ev (Down m').

Inductive wsteps : World -> list Event -> World -> Prop :=
| wsteps_nil w : wsteps w [] w
| wsteps_snoc w ev w1 ev' w2 : wsteps w ev w1 -> wstep w1 ev' w2 -> wsteps w (ev ++ ev') w2.

(** The votes granted to other candidates: term and candidate. *)
Definition grant_of (e : Event) : option (Z * PeerId) :=
  match e with
  | VoteReply Vote _ r (Some resp) =>
      if resp.(rs_granted) then (fun c => (resp.(rs_term), c)) <$> r.(rv_server_id) else None
  | _ => None
  end.
Definition grants (ev : list Event) : list (Z * PeerId) := omap grant_of ev.

Lemma quiet_grants ev : Forall quiet ev -> grants ev = [].
Proof.
  induction 1 as [|e ev He _ IH]; [done|].
  assert (grant_of e = None) as Hg.
  { destruct e; simpl in *; try done. destruct w; [done|]. destruct r as [r|]; [|done]. by rewrite He. }
  unfold grants in *. simpl. by rewrite Hg.
Qed.

(** ** The invariant *)
Abbreviation History := (list (Z * PeerId)).

(** The votes of a history are consistent, and durable up to the term [d]. *)
Definition hist_ok (h : History) (d : Z * PeerId) : Prop :=
  (forall t a b, (t, a) ∈ h -> (t, b) ∈ h -> a ≡ b) /\
  (forall t c, (t, c) ∈ h -> other_peer self c /\ (t < d.1 \/ t = d.1 /\ d.2 ≡ c)).

(** The terms of the elections of this node that are suspended. *)
Definition election_of (x : Closure * Cont * option LogId) : option Z :=
  match x.1.2 with CElect t => Some t | _ => None end.
Definition elections (n : node) : list Z := omap election_of n.(_suspended).

(** No vote of the current term is granted, stored or under way. *)
Definition unvoted (h : History) (n : node) : Prop :=
  (forall c, (n.(_current_term), c) ∉ h) /\ n.(_current_term) ∉ elections n.

Record up_inv (h : History) (n : node) : Prop := {
  ui_self : n.(_server_id) = self;
  ui_term : (durable n).1 <= n.(_current_term);
  ui_hist : hist_ok h (durable n);
  ui_voted : is_empty n.(_voted_id) = true \/ n.(_voted_id) = self \/ durable n = (n.(_current_term), n.(_voted_id));
  ui_grant : forall c, (n.(_current_term), c) ∈ h -> n.(_voted_id) ≡ c;
  ui_elect_nodup : NoDup (elections n);
  ui_elect_term : forall t, t ∈ elections n -> t <= n.(_current_term);
  ui_elect_self : n.(_current_term) ∈ elections n ->
    n.(_voted_id) = self /\ forall c, (n.(_current_term), c) ∉ h;
  ui_harmless : forall x, x ∈ n.(_suspended) ->
    match x.1.2 with CElect _ => True | k => harmless self k end
}.

Lemma hist_term h d t c : hist_ok h d -> (t, c) ∈ h -> t <= d.1.
Proof. intros [_ Hh] Hin. destruct (Hh t c Hin) as [_ ?]. lia. Qed.

(** Terms only grow: a durable state of a later term keeps a history. *)
Lemma hist_later h d d' : hist_ok h d -> d.1 < d'.1 -> hist_ok h d'.
Proof.
  intros [H1 H2] Hlt. split; [done|]. intros t c Hin. destruct (H2 t c Hin) as [? ?]. split; [done|]. lia.
Qed.

Lemma no_future_grant h n t c : up_inv h n -> n.(_current_term) < t -> (t, c) ∉ h.
Proof. intros Hi Hlt Hin. pose proof (hist_term _ _ _ _ (ui_hist _ _ Hi) Hin). pose proof (ui_term _ _ Hi). lia. Qed.

Lemma no_future_election h n t : up_inv h n -> n.(_current_term) < t -> t ∉ elections n.
Proof. intros Hi Hlt Hin. pose proof (ui_elect_term _ _ Hi t Hin). lia. Qed.

Lemma elections_same n n' : n'.(_suspended) = n.(_suspended) -> elections n' = elections n.
Proof. intros Hs. unfold elections. by rewrite Hs. Qed.
(** ** Every move keeps the invariant *)

Lemma raises_inv h n n' : raises n n' -> up_inv h n -> up_inv h n'.
Proof.
  intros (Hs & Hq & Hm) Hi. pose proof (elections_same _ _ Hq) as He.
  destruct Hm as [(Ht & Hv & Hd)|(Ht & Hv & Hd)].
  - destruct Hi. constructor; rewrite ?Hs, ?Hq, ?He, ?Ht, ?Hv, ?Hd; done.
  - pose proof (ui_term _ _ Hi) as Hterm. constructor; rewrite ?Hs, ?Hq, ?He.
    + apply (ui_self _ _ Hi).
    + destruct Hd as [->|(t & ? & ->)]; simpl; lia.
    + destruct Hd as [->|(t & ? & ->)]; [apply (ui_hist _ _ Hi)|].
      eapply hist_later; [apply (ui_hist _ _ Hi)|]. simpl. lia.
    + left. by rewrite Hv.
    + intros c Hc. by destruct (no_future_grant h n _ c Hi Ht).
    + apply (ui_elect_nodup _ _ Hi).
    + intros t Hin. pose proof (ui_elect_term _ _ Hi t Hin). lia.
    + intros Hin. by destruct (no_future_election h n _ Hi Ht).
    + apply (ui_harmless _ _ Hi).
Qed.

Lemma elect_inv h n n' c a :
  n'.(_server_id) = n.(_server_id) ->
  n'.(_suspended) = n.(_suspended) ++ [(c, CElect (n.(_current_term) + 1), a)] ->
  n'.(_current_term) = n.(_current_term) + 1 -> n'.(_voted_id) = n.(_server_id) ->
  durable n' = durable n -> up_inv h n -> up_inv h n'.
Proof.
  intros Hs Hq Ht Hv Hd Hi. pose proof (ui_term _ _ Hi) as Hterm.
  assert (elections n' = elections n ++ [n.(_current_term) + 1]) as He.
  { unfold elections. by rewrite Hq, omap_app. }
  constructor; rewrite ?Hs, ?He, ?Ht, ?Hd.
  - apply (ui_self _ _ Hi).
  - lia.
  - apply (ui_hist _ _ Hi).
  - right. left. rewrite Hv. apply (ui_self _ _ Hi).
  - intros x Hx. exfalso. apply (no_future_grant h n (n.(_current_term) + 1) x Hi); [lia|exact Hx].
  - apply NoDup_app. split_and!; [apply (ui_elect_nodup _ _ Hi)| |apply NoDup_singleton].
    intros t Hin ->%list_elem_of_singleton. pose proof (ui_elect_term _ _ Hi _ Hin). lia.
  - intros t [Hin| ->%list_elem_of_singleton]%elem_of_app; [|lia].
    pose proof (ui_elect_term _ _ Hi t Hin). lia.
  - intros _. split; [rewrite Hv; apply (ui_self _ _ Hi)|].
    intros x. apply (no_future_grant h n _ x Hi). lia.
  - intros x. rewrite Hq. intros [Hin| ->%list_elem_of_singleton]%elem_of_app; [|done].
    by apply (ui_harmless _ _ Hi).
Qed.

Lemma wait_inv h n n' c k a :
  n'.(_server_id) = n.(_server_id) -> n'.(_suspended) = n.(_suspended) ++ [(c, k, a)] ->
  n'.(_current_term) = n.(_current_term) -> n'.(_voted_id) = n.(_voted_id) ->
  durable n' = durable n -> harmless n.(_server_id) k -> up_inv h n -> up_inv h n'.
Proof.
  intros Hs Hq Ht Hv Hd Hk Hi.
  assert (elections n' = elections n) as He.
  { unfold elections. rewrite Hq, omap_app. destruct k; try done; simpl; by rewrite ?app_nil_r. }
  destruct Hi. constructor; rewrite ?Hs, ?He, ?Ht, ?Hv, ?Hd; try done.
  intros x. rewrite Hq. intros [Hin| ->%list_elem_of_singleton]%elem_of_app; [by apply ui_harmless0|].
  simpl. rewrite <- ui_self0. by destruct k.
Qed.

Lemma moves_inv h n n' : rtc vmove n n' -> up_inv h n -> up_inv h n'.
Proof.
  induction 1 as [|n n1 n2 Hm _ IH]; [done|]. intros Hi. apply IH.
  destruct Hm as [Hr|c a|c k a]; [by eapply raises_inv|by eapply elect_inv|by eapply wait_inv].
Qed.

(** An unvoted term stays so while it lasts, and a later one is unvoted too. *)
Lemma raises_unvoted h n n' : raises n n' -> up_inv h n -> unvoted h n -> unvoted h n'.
Proof.
  intros (_ & Hq & Hm) Hi [Hg He]. unfold unvoted. rewrite (elections_same _ _ Hq).
  destruct Hm as [(-> & _)|(Ht & _)]; [done|]. split.
  - intros c. by apply (no_future_grant h n).
  - by apply (no_future_election h n).
Qed.

(** ** Storing a vote *)

(** The vote [v] of an unvoted term is stored, or the write fails and the vote is taken back. *)
Definition stores (v : PeerId) (n n' : node) : Prop :=
  n'.(_server_id) = n.(_server_id) /\ n'.(_suspended) = n.(_suspended) /\
  n'.(_current_term) = n.(_current_term) /\
  (n'.(_voted_id) = v /\ durable n' = (n.(_current_term), v) \/
   n'.(_voted_id) = PeerId_default /\
   (durable n' = (n.(_current_term), v) \/ durable n' = durable n)).

Lemma stores_inv h v n n' : stores v n n' -> unvoted h n -> up_inv h n -> up_inv h n'.
Proof.
  intros (Hs & Hq & Ht & Hv) [Hg He] Hi. pose proof (ui_term _ _ Hi) as Hterm.
  assert (hist_ok h (n.(_current_term), v)) as Hh.
  { destruct (ui_hist _ _ Hi) as [H1 H2]. split; [done|]. intros t c Hin. split; [by destruct (H2 t c Hin)|].
    left. simpl. assert (t <> n.(_current_term)) by (intros ->; by destruct (Hg c)).
    pose proof (hist_term _ _ _ _ (ui_hist _ _ Hi) Hin). lia. }
  constructor; rewrite ?(elections_same _ _ Hq), ?Hs, ?Hq, ?Ht.
  - apply (ui_self _ _ Hi).
  - destruct Hv as [(_ & ->)|(_ & [->| ->])]; simpl; lia.
  - destruct Hv as [(_ & ->)|(_ & [->| ->])]; [done..|apply (ui_hist _ _ Hi)].
  - destruct Hv as [(-> & ->)|(-> & _)]; [by right; right|by left].
  - intros c Hc. by destruct (Hg c).
  - apply (ui_elect_nodup _ _ Hi).
  - apply (ui_elect_term _ _ Hi).
  - done.
  - apply (ui_harmless _ _ Hi).
Qed.

Context (self_real : is_empty self = false).

(** An empty vote means the term is unvoted. *)
Lemma empty_unvoted h n : up_inv h n -> is_empty n.(_voted_id) = true -> unvoted h n.
Proof.
  intros Hi Hv. split.
  - intros c Hc. pose proof (ui_grant _ _ Hi c Hc) as Heq.
    destruct (ui_hist _ _ Hi) as [_ Hh]. destruct (Hh _ _ Hc) as [[Hne _] _].
    rewrite (is_empty_equiv _ _ Heq) in Hv. congruence.
  - intros He. destruct (ui_elect_self _ _ Hi He) as [Heq _]. rewrite Heq in Hv. congruence.
Qed.

(** Granting the vote that is stored. *)
Lemma grant_inv h n c :
  up_inv h n -> other_peer self c -> n.(_voted_id) ≡ c -> up_inv (h ++ [(n.(_current_term), c)]) n.
Proof.
  intros Hi Hc Heq. pose proof Hc as [Hne Hns].
  assert (durable n = (n.(_current_term), n.(_voted_id))) as Hd.
  { destruct (ui_voted _ _ Hi) as [Hv|[Hv|Hv]]; [| |done].
    - rewrite (is_empty_equiv _ _ Heq) in Hv. congruence.
    - rewrite Hv in Heq. apply peer_eqb_equiv in Heq. rewrite peer_eqb_sym in Heq. congruence. }
  assert (n.(_voted_id) <> self) as Hnv.
  { intros Hv. rewrite Hv in Heq. apply peer_eqb_equiv in Heq. rewrite peer_eqb_sym in Heq. congruence. }
  assert (forall x, (n.(_current_term), x) ∈ h ++ [(n.(_current_term), c)] -> n.(_voted_id) ≡ x) as Hall.
  { intros x [Hx|Hx%list_elem_of_singleton]%elem_of_app; [by apply (ui_grant _ _ Hi)|]. by simplify_eq. }
  destruct Hi as [H1 H2 [H3 H3'] H4 H5 H6 H7 H8 H9]. constructor; try done.
  - split.
    + intros t a b Ha Hb.
      assert (forall x, (t, x) ∈ h ++ [(n.(_current_term), c)] -> (t, x) ∈ h \/ t = n.(_current_term)) as Hx.
      { intros x [Hx|Hx%list_elem_of_singleton]%elem_of_app; [by left|]. right. by simplify_eq. }
      destruct (Hx a Ha) as [Ha'| ->]; [destruct (Hx b Hb) as [Hb'| ->]; [by eapply H3|]|];
        by rewrite <- (Hall a), <- (Hall b).
    + intros t x [Hx|Hx%list_elem_of_singleton]%elem_of_app; [by apply H3'|]. simplify_eq.
      split; [done|]. right. by rewrite Hd.
  - intros He. by destruct (H8 He).
Qed.
(** ** Triples over the history *)

(** From a state and a history that satisfy [P], [m] ends in [Q] of its value,
    the history with the votes it granted, and the state. *)
Definition triple {A} (P : History -> node -> Prop) (m : NM A) (Q : A -> History -> node -> Prop) : Prop :=
  forall h n, P h n -> Q (value_of (m n)) (h ++ grants (events_of (m n))) (state_of (m n)).

Lemma grants_app a b : grants (a ++ b) = grants a ++ grants b.
Proof. unfold grants. apply omap_app. Qed.

Lemma triple_bind {A B} P (m : NM A) Q (f : A -> NM B) R :
  triple P m Q -> (forall a, triple (Q a) (f a) R) -> triple P (m ≫= f) R.
Proof.
  intros Hm Hf h n HP. specialize (Hm h n HP). run. unfold value_of, state_of, events_of in *.
  destruct (m n) as [[a n1] e1]. simpl in *. specialize (Hf a _ n1 Hm).
  unfold value_of, state_of, events_of in *. destruct (f a n1) as [[b n2] e2]. simpl in *.
  by rewrite grants_app, app_assoc.
Qed.

Lemma triple_get_bind {B} P (f : node -> NM B) R :
  (forall n0, triple (fun h n => n = n0 /\ P h n) (f n0) R) -> triple P (get ≫= f) R.
Proof. intros Hf h n HP. rewrite get_bind. by apply (Hf n). Qed.

Lemma triple_mono {A} (P P' : History -> node -> Prop) (m : NM A) Q :
  triple P' m Q -> (forall h n, P h n -> P' h n) -> triple P m Q.
Proof. intros Hm HP h n H. by apply Hm, HP. Qed.

Lemma triple_ret {A} (P : History -> node -> Prop) (a : A) Q :
  (forall h n, P h n -> Q a h n) -> triple P (mret a) Q.
Proof. intros HQ h n HP. unfold value_of, state_of, events_of. simpl. unfold grants. simpl. rewrite app_nil_r. auto. Qed.

Lemma triple_skip (P : History -> node -> Prop) (Q : unit -> History -> node -> Prop) :
  (forall h n, P h n -> Q tt h n) -> triple P skip Q.
Proof. apply (triple_ret P tt Q). Qed.

Lemma triple_obeys {A} R (m : NM A) (P P' : History -> node -> Prop) :
  obeys R quiet m -> (forall h n n', R n n' -> P h n -> P' h n') -> triple P m (fun _ => P').
Proof.
  intros Hm HR h n HP. destruct (Hm n) as [Hr Hq]. rewrite (quiet_grants _ Hq), app_nil_r. eauto.
Qed.

Lemma triple_tame {A} (m : NM A) : obeys raises quiet m -> triple up_inv m (fun _ => up_inv).
Proof. intros Hm. eapply triple_obeys; [done|]. intros h n n'. apply raises_inv. Qed.

Lemma triple_lively {A} (m : NM A) : obeys (rtc vmove) quiet m -> triple up_inv m (fun _ => up_inv).
Proof. intros Hm. eapply triple_obeys; [done|]. intros h n n'. apply moves_inv. Qed.

Lemma triple_modify (P : History -> node -> Prop) (f : node -> node) (P' : History -> node -> Prop) :
  (forall h n, P h n -> P' h (f n)) -> triple P (modify f) (fun _ => P').
Proof. intros HP h n H. unfold state_of, events_of. simpl. unfold grants. simpl. rewrite app_nil_r. auto. Qed.

(** ** The two handlers that store a vote *)

(** A state that differs in no field the invariant reads. *)
Lemma keeps_inv h n n' : keeps n n' -> up_inv h n -> up_inv h n'.
Proof. intros Hk. by apply raises_inv, keeps_raises. Qed.

Lemma request_peers_silent env c d : obeys eq quiet (request_peers_to_vote (S:=S) (Mt:=Mt) env c d).
Proof. unfold request_peers_to_vote, poll_peers. obey. Qed.

(** What is known when an election resumes. *)
Definition electing (old_term : Z) (h : History) (n : node) : Prop :=
  up_inv h n /\ (old_term = n.(_current_term) -> n.(_voted_id) = self /\ unvoted h n).

(** [save_meta] of a vote already set in memory, taken back when it fails. *)
Definition save_vote (term : Z) (v : PeerId) (k : NM unit) : NM unit :=
  e ← save_meta term v; if negb (ok e) then modify (fun n => n <| _voted_id := PeerId_default |>) else k.

Lemma save_vote_inv term v k :
  triple up_inv k (fun _ => up_inv) ->
  triple (fun h n => n.(_voted_id) = v /\ n.(_current_term) = term /\
                     exists n0, up_inv h n0 /\ unvoted h n0 /\ n.(_server_id) = n0.(_server_id) /\
                       n.(_suspended) = n0.(_suspended) /\ n.(_current_term) = n0.(_current_term) /\
                       durable n = durable n0)
    (save_vote term v k) (fun _ => up_inv).
Proof.
  intros Hk h n (Hv & Ht & n0 & Hi & Hu & Hs & Hq & Ht0 & Hd).
  unfold save_vote, save_meta. run.
  destruct (set_term_and_votedfor term v (_meta_storage n)) as [e m'] eqn:Hset.
  apply set_term_durable in Hset. unfold ok. destruct (bool_decide_reflect (e = OK)) as [->|Hne]; simpl.
  - specialize (Hk h (n <| _meta_storage := m' |>)).
    unfold value_of, state_of, events_of in Hk. destruct (k _) as [[u n'] ev]. simpl in *. apply Hk.
    apply (stores_inv h v n0); [|done..]. split_and!; [done..|]. left. split; [done|].
    simpl. rewrite <- Ht0, Ht. by destruct Hset as [->|[? _]].
  - unfold grants. simpl. rewrite app_nil_r. apply (stores_inv h v n0); [|done..]. split_and!; [done..|].
    right. split; [done|]. simpl. rewrite <- Ht0, Ht, <- Hd. destruct Hset as [->|[_ ->]]; auto.
Qed.

Lemma elect_self_locked_inv env old_term l :
  triple (electing old_term) (elect_self_locked env old_term l) (fun _ => up_inv).
Proof.
  unfold elect_self_locked. apply triple_get_bind. intros n0.
  destruct (Z.eqb_spec old_term n0.(_current_term)) as [Heq|Hne]; simpl.
  2:{ apply triple_skip. by intros h n (-> & ? & _). }
  apply (triple_bind _ _ (fun _ h n => keeps n0 n /\ electing old_term h n0)).
  { unfold modify_ctx. apply triple_modify. by intros h n [-> ?]. }
  intros _. apply triple_get_bind. intros n1.
  apply (triple_bind _ _ (fun _ h n => n = n1 /\ keeps n0 n1 /\ electing old_term h n0)).
  { eapply triple_obeys; [apply request_peers_silent|]. by intros h n n' <- (-> & ? & ?). }
  intros _. eapply (triple_mono _ _ (save_vote _ _ _)); [apply save_vote_inv, triple_lively, grant_self_lively|].
  intros h n (-> & (Hs & Hq & Ht & Hv & Hd & _) & Hi & Hu). destruct (Hu Heq) as [Hself Hun].
  split_and!; [|done|by exists n0; split_and!]. rewrite Hv, Hself. rewrite Hs. by rewrite (ui_self _ _ Hi).
Qed.

Lemma raises_empty (n n' : node) : raises n n' -> is_empty n.(_voted_id) = true -> is_empty n'.(_voted_id) = true.
Proof. intros (_ & _ & [(_ & -> & _)|(_ & -> & _)]); done. Qed.

Lemma vote_for_inv env t c :
  triple (fun h n => up_inv h n /\ is_empty n.(_voted_id) = true) (vote_for env t c) (fun _ => up_inv).
Proof.
  unfold vote_for. apply (triple_bind _ _ (fun _ h n => up_inv h n /\ is_empty n.(_voted_id) = true)).
  { eapply triple_obeys; [apply calm_tame, step_down_calm|]. intros h n n' Hr [Hi He].
    split; [by eapply raises_inv|by eapply raises_empty]. }
  intros _.
  apply (triple_bind _ _ (fun _ h n => exists n0, n = n0 <| _voted_id := c |> /\ up_inv h n0 /\
                                                   is_empty n0.(_voted_id) = true)).
  { apply triple_modify. intros h n ?. by exists n. }
  intros _. apply triple_get_bind. intros n1.
  apply (triple_mono _ _ (save_vote n1.(_current_term) c skip) _ (save_vote_inv n1.(_current_term) c skip
    (triple_skip _ _ (fun h n Hi => Hi)))).
  intros h n [-> (n0 & -> & Hi & He)]. split_and!; [done..|]. exists n0. split_and!; try done.
  by apply empty_unvoted.
Qed.

(** The answer grants the vote that is stored, and only for the current term. *)
Lemma request_vote_reply_inv rpc r c b1 t b2 :
  triple (fun h n => up_inv h n /\ other_peer self c /\ r.(rv_server_id) = Some c)
    (request_vote_reply rpc r c b1 t b2) (fun _ => up_inv).
Proof.
  intros h n (Hi & Hc & Hr). unfold request_vote_reply. run. unfold grants. simpl. rewrite Hr. simpl.
  destruct (rv_term r =? _current_term n); simpl; [|by rewrite app_nil_r].
  destruct (peer_eqb (_voted_id n) c) eqn:Hv; [|by rewrite app_nil_r].
  apply grant_inv; [done..|]. by apply peer_eqb_equiv.
Qed.

Lemma request_vote_locked_inv env rpc r c t l :
  triple (fun h n => up_inv h n /\ other_peer self c /\ r.(rv_server_id) = Some c)
    (request_vote_locked env rpc r c t l) (fun _ => up_inv).
Proof.
  unfold request_vote_locked. apply triple_get_bind. intros n0. cbv zeta.
  assert (forall b1 t b2, triple
    (fun h n => n = n0 /\ up_inv h n /\ other_peer self c /\ r.(rv_server_id) = Some c)
    (request_vote_reply rpc r c b1 t b2) (fun _ => up_inv)) as Hreply.
  { intros. eapply triple_mono; [apply request_vote_reply_inv|]. by intros h n [_ ?]. }
  destruct (negb _); [apply Hreply|]. destruct (0 <? _); [apply Hreply|].
  apply (triple_bind _ _ (fun _ h n => up_inv h n /\ other_peer self c /\ r.(rv_server_id) = Some c)).
  { eapply (triple_obeys raises); [apply obeys_when; [exact _|]; apply calm_tame, step_down_calm|].
    intros h n n' Hr (_ & ? & ? & ?). split_and!; [by eapply raises_inv|done..]. }
  intros _. apply triple_get_bind. intros n1.
  apply (triple_bind _ _ (fun _ h n => up_inv h n /\ other_peer self c /\ r.(rv_server_id) = Some c));
    [|intros _; apply request_vote_reply_inv].
  unfold when. destruct (logid_geb _ _ && is_empty (_voted_id n1)) eqn:Hb.
  - apply andb_true_iff in Hb as [_ He]. intros h n (-> & Hi & Hc & Hr). split; [|done].
    by apply vote_for_inv.
  - apply triple_skip. by intros h n [_ ?].
Qed.

(** ** Resuming, and every call *)
Lemma dequeue_inv h n i x :
  up_inv h n -> n.(_suspended) !! i = Some x ->
  let n1 := n <| _suspended := delete i n.(_suspended) |> in
  up_inv h n1 /\ match x.1.2 with CElect t => electing t h n1 | k => harmless self k end.
Proof.
  intros Hi Hx n1. pose proof (take_drop_middle _ _ _ Hx) as Hsplit.
  assert (delete i n.(_suspended) = take i n.(_suspended) ++ drop (Datatypes.S i) n.(_suspended)) as Hdel.
  { by rewrite delete_take_drop. }
  set (l1 := take i n.(_suspended)) in *. set (l2 := drop (Datatypes.S i) n.(_suspended)) in *.
  assert (elections n = omap election_of l1 ++ match x.1.2 with CElect t => [t] | _ => [] end ++ omap election_of l2) as He.
  { unfold elections. rewrite <- Hsplit, omap_app. f_equal. change (x :: l2) with ([x] ++ l2).
    rewrite omap_app. f_equal. simpl. unfold election_of. by destruct x.1.2. }
  assert (elections n1 = omap election_of l1 ++ omap election_of l2) as He1.
  { unfold elections. simpl. by rewrite Hdel, omap_app. }
  assert (forall t, t ∈ elections n1 -> t ∈ elections n) as Hsub.
  { intros t. rewrite He, He1, !elem_of_app. tauto. }
  assert (forall y, y ∈ n1.(_suspended) -> y ∈ n.(_suspended)) as Hsub'.
  { intros y. simpl. rewrite Hdel, <- Hsplit, !elem_of_app, elem_of_cons. tauto. }
  assert (x ∈ n.(_suspended)) as Hin by (by eapply list_elem_of_lookup_2).
  pose proof (ui_harmless _ _ Hi x Hin) as Hharm. pose proof (ui_elect_nodup _ _ Hi) as Hnd. rewrite He in Hnd.
  assert (up_inv h n1) as Hi1.
  { destruct Hi. constructor; try done; [|by intros t ?%Hsub; apply ui_elect_term0
      |intros Hc; apply ui_elect_self0, Hsub, Hc|by intros y ?%Hsub'; apply ui_harmless0].
    rewrite He1. destruct x.1.2; try done. apply NoDup_app in Hnd as (? & Hd & (_ & _ & ?)%NoDup_app).
    apply NoDup_app. split_and!; [done| |done]. intros t Ht Ht2. apply (Hd t Ht).
    by apply elem_of_app; right. }
  split; [done|]. destruct x.1.2 as [|t| |]; try done. split; [done|]. simpl. intros ->.
  destruct (ui_elect_self _ _ Hi) as [Hv Hg].
  { rewrite He. apply elem_of_app. right. apply list_elem_of_here. }
  split; [done|]. split; [done|]. rewrite He1. simpl. apply NoDup_app in Hnd as (_ & Hd & Hnd2).
  intros [H1|H2]%elem_of_app; [apply (Hd _ H1), list_elem_of_here|].
  apply NoDup_cons in Hnd2 as [Hnot _]. done.
Qed.
Lemma resume_inv env i l : triple up_inv (resume env i l) (fun _ => up_inv).
Proof.
  unfold resume. apply triple_get_bind. intros n0.
  destruct (n0.(_suspended) !! i) as [[[c k] a]|] eqn:Hx; [|apply triple_skip; by intros h n [_ ?]].
  apply (triple_bind _ _ (fun _ h n => up_inv h n /\ match k with CElect t => electing t h n | _ => harmless self k end)).
  { apply triple_modify. intros h n [-> Hi]. pose proof (dequeue_inv h n0 i _ Hi Hx) as [H1 H2].
    split; [done|]. simpl in H2. by destruct k. }
  intros _. destruct k as [t b|t|rpc r|rpc r cand t]; simpl.
  - eapply triple_mono; [apply triple_lively, pre_vote_locked_lively|]. by intros h n [? _].
  - eapply triple_mono; [apply elect_self_locked_inv|]. by intros h n [_ ?].
  - eapply triple_mono; [apply triple_lively, pre_vote_request_locked_lively|]. by intros h n [? _].
  - eapply triple_mono; [apply request_vote_locked_inv|]. intros h n (? & ? & ?). by split_and!.
Qed.

Lemma handle_request_vote_request_inv rpc r :
  request_ok r -> triple up_inv (handle_request_vote_request rpc r) (fun _ => up_inv).
Proof.
  intros Hr. unfold handle_request_vote_request. apply triple_get_bind. intros n0.
  assert (forall A (m : NM A), obeys raises quiet m ->
    triple (fun h n => n = n0 /\ up_inv h n) m (fun _ => up_inv)) as Htame.
  { intros A m Hm. eapply triple_mono; [by apply triple_tame|]. by intros h n [_ ?]. }
  destruct (negb _); [apply Htame; by apply obeys_emit; [exact _|]|].
  destruct (rv_server_id r) as [c|] eqn:Hc; [|apply Htame; by apply obeys_emit; [exact _|]].
  unfold request_ok in Hr. rewrite Hc in Hr.
  apply (triple_bind _ _ (fun _ h n => n.(_current_term) = n0.(_current_term) /\ up_inv h n)).
  { unfold when. destruct (disrupts_our_leader n0 r).
    - apply triple_modify. intros h n [-> Hi]. split; [done|]. by eapply keeps_inv; [|done].
    - apply triple_skip. by intros h n [-> ?]. }
  intros _. destruct (rv_term r <? n0.(_current_term)).
  - eapply triple_mono; [apply request_vote_reply_inv|]. by intros h n [_ ?].
  - intros h n [_ Hi].
    destruct (wait_moves (CVoteRequest rpc r c n0.(_current_term)) n) as [Hm Hq].
    { simpl. rewrite (ui_self _ _ Hi). done. }
    rewrite (quiet_grants _ Hq), app_nil_r. by eapply moves_inv.
Qed.

(** The calls that store no vote. *)
Definition routine (c : Call) : Prop :=
  match c with CallVoteRequest _ _ | CallResume _ _ => False | _ => True end.

Lemma routine_lively env c : routine c -> obeys (rtc vmove) quiet (perform env c).
Proof.
  intros Hc. destruct c as [| | | | | | |rpc r| | | | | | | |i l| | | | | | | | | | | | | | |b| | | | |]; simpl;
    try done; unfold discard.
  all: repeat match goal with |- obeys _ _ (_ ≫= _) => apply obeys_bind; [exact _| |intros; by apply obeys_ret; exact _] end.
  all: try (apply tame_lively, calm_tame, kept_calm; try destruct b; eauto using handle_snapshot_timeout_kept,
    handle_append_entries_cache_timedout_kept, change_readonly_config_kept, check_and_set_conf_kept,
    execute_applying_tasks_kept, vote_kept, reset_election_timeout_ms_kept, enter_readonly_mode_kept,
    leave_readonly_mode_kept, do_snapshot_kept, read_committed_user_log_kept; fail).
  all: try (apply tame_lively, calm_tame; eauto using handle_stepdown_timeout_calm, handle_transfer_timeout_calm,
    handle_append_entries_request_calm, handle_append_entries_from_cache_calm,
    handle_install_snapshot_request_calm, run_node_closure_calm, on_caughtup_calm, increase_term_to_calm,
    get_leader_lease_status_calm, add_peer_calm, remove_peer_calm, change_peers_calm, reset_peers_calm,
    transfer_leadership_to_calm, on_error_calm, shutdown_calm, after_shutdown_calm; fail).
  all: try (apply tame_lively, handle_request_vote_response_tame).
  all: eauto using handle_election_timeout_lively, handle_vote_timeout_lively,
    handle_grant_self_timedout_lively, handle_pre_vote_request_lively, handle_pre_vote_response_lively,
    handle_timeout_now_request_lively.
Qed.

Lemma perform_inv env c : call_ok c -> triple up_inv (perform env c) (fun _ => up_inv).
Proof.
  intros Hok. assert (routine c \/ ~ routine c) as [Hr|Hr] by (destruct c; simpl; tauto).
  - by apply triple_lively, routine_lively.
  - destruct c; simpl in *; try tauto; [by apply handle_request_vote_request_inv|apply resume_inv].
Qed.

(** ** Starting a process *)

Definition fresh (h : History) (n : node) : Prop :=
  hist_ok h (durable n) /\ n.(_server_id) = self /\ n.(_suspended) = [].

Lemma still_obeys_quiet {A} (R : node -> node -> Prop) (m : NM A) : obeys R still m -> obeys R quiet m.
Proof. apply obeys_mono; [done|]. by intros e []. Qed.

Lemma triple_keeps {A} (m : NM A) : obeys keeps still m -> triple fresh m (fun _ => fresh).
Proof.
  intros Hm. eapply triple_obeys; [by apply still_obeys_quiet|]. intros h n n' (Hs & Hq & _ & _ & Hd & _) (H1 & H2 & H3).
  unfold fresh. by rewrite Hs, Hq, Hd.
Qed.

Lemma init_timers_keeps env o : obeys keeps still (init_timers (S:=S) (Mt:=Mt) env o).
Proof. unfold init_timers. obey. Qed.
Lemma init_leases_keeps env o : obeys keeps still (init_leases (S:=S) (Mt:=Mt) env o).
Proof. by apply obeys_modify. Qed.
Lemma init_log_storage_keeps ie : obeys keeps still (init_log_storage (S:=S) (Mt:=Mt) ie).
Proof. unfold init_log_storage. obey. apply lift_log_kept. Qed.
Lemma init_ballot_box_keeps : obeys keeps still (init_ballot_box (S:=S) (Mt:=Mt)).
Proof. intros n. unfold init_ballot_box, state_of, events_of. simpl. split; [done|constructor]. Qed.
Lemma init_snapshot_storage_keeps env ie : obeys keeps still (init_snapshot_storage (S:=S) (Mt:=Mt) env ie).
Proof.
  intros n. unfold init_snapshot_storage, state_of, events_of. destruct (negb _); [split; [done|constructor]|].
  destruct (snapshot_init ie _) as [e lm]. split; [done|constructor].
Qed.
Lemma check_log_consistency_keeps : obeys keeps still (check_log_consistency (S:=S) (Mt:=Mt)).
Proof. unfold check_log_consistency, Node.check. obey. Qed.
Lemma init_conf_keeps : obeys keeps still (init_conf (S:=S) (Mt:=Mt)).
Proof. unfold init_conf, check_and_set_conf. obey; by apply obeys_modify. Qed.

(** What [init] guarantees of its result. *)
Definition started (e : Errno) (h : History) (n : node) : Prop :=
  hist_ok h (durable n) /\ (e = OK -> up_inv h n).

Lemma or_fail_triple P (m : NM Errno) Q k :
  triple P m Q -> (forall h n e, e <> OK -> Q e h n -> started ENEG1 h n) ->
  triple (Q OK) k started -> triple P (or_fail m k) started.
Proof.
  intros Hm Hf Hk. apply (triple_bind _ _ Q); [done|]. intros e. unfold ok.
  destruct (bool_decide_reflect (e = OK)) as [->|Hne]; simpl; [done|]. apply triple_ret. intros h n. by apply Hf.
Qed.

Lemma or_fail_keeps (m k : NM Errno) :
  obeys keeps still m -> triple fresh k started -> triple fresh (or_fail m k) started.
Proof.
  intros Hm Hk. apply (or_fail_triple _ _ (fun _ => fresh)); [by apply triple_keeps| |done].
  by intros h n e Hne (? & _ & _).
Qed.

(** The term and the vote that are loaded are those that are durable, or later. *)
Lemma loaded_inv h n :
  fresh h n -> up_inv h (n <| _current_term := (durable n).1 |> <| _voted_id := (durable n).2 |>).
Proof.
  intros (Hh & Hs & Hq). constructor; unfold elections; simpl; rewrite ?Hq; try done; try (by constructor).
  - by right; right; destruct (durable n).
  - intros c Hc. destruct Hh as [_ Hh]. destruct (Hh _ _ Hc) as [_ [?|[_ ?]]]; [lia|done].
  - by intros t ?%elem_of_nil.
  - by intros ?%elem_of_nil.
  - by intros t ?%elem_of_nil.
Qed.
Lemma init_meta_storage_started ie : triple fresh (init_meta_storage ie) started.
Proof.
  assert (forall e, e <> OK -> triple fresh (mret e) started) as Herr.
  { intros e He. apply triple_ret. by intros h n (? & _ & _). }
  unfold init_meta_storage. destruct (meta_created ie); simpl; [|by apply Herr].
  unfold ok. destruct (bool_decide_reflect (meta_init ie = OK)) as [Hmi|Hmi]; simpl; [|by apply Herr].
  destruct (bool_decide_reflect (meta_get ie = OK)) as [Hmg|Hmg]; simpl; [|by apply Herr].
  apply (triple_bind _ _ (fun _ => up_inv)); [apply triple_modify, loaded_inv|].
  intros _. apply triple_get_bind. intros n0.
  apply (triple_bind _ _ (fun _ h n => up_inv h n /\ n.(_current_term) = n0.(_current_term))).
  { eapply triple_obeys; [apply still_obeys_quiet, lift_log_kept|]. intros h n n' Hk [-> Hi].
    split; [by eapply keeps_inv|]. by destruct Hk as (_ & _ & ? & _). }
  intros last. cbv zeta. set (t := (default LogId_default last).(term)).
  destruct (Z.ltb_spec n0.(_current_term) t) as [Hlt|].
  - intros h n [Hi Ht]. unfold save_meta. run. simpl.
    destruct (set_term_and_votedfor _ _ _) as [e m'] eqn:Hset. simpl. rewrite app_nil_r.
    apply set_term_durable in Hset.
    assert (up_inv h (n <| _current_term := t + 1 |> <| _voted_id := PeerId_default |> <| _meta_storage := m' |>)) as Hi'.
    { eapply raises_inv; [|done]. split_and!; [done..|]. right. split_and!; [simpl; lia|done|]. simpl.
      destruct Hset as [->|[_ ->]]; [|by left]. right. exists (t + 1). split; [lia|done]. }
    split; [apply (ui_hist _ _ Hi')|done].
  - apply triple_ret. intros h n [Hi _]. split; [apply (ui_hist _ _ Hi)|done].
Qed.

Lemma start_node_lively env ie : obeys (rtc vmove) quiet (start_node (S:=S) (Mt:=Mt) env ie).
Proof.
  unfold start_node.
  repeat first [ solve [apply elect_self_lively]
               | solve [apply tame_lively, calm_tame, step_down_calm]
               | solve [apply tame_lively, obeys_modify; intros; repeat case_match; repeat split; by left]
               | obey_step ].
Qed.

Lemma init_started env ie : triple fresh (NodeLog.init env ie) started.
Proof.
  unfold NodeLog.init. apply triple_get_bind. intros n0.
  assert (triple fresh (mret ENEG1) started) as Herr by (apply triple_ret; by intros h n (? & _ & _)).
  assert (forall m : NM Errno, triple fresh m started -> triple (fun h n => n = n0 /\ fresh h n) m started) as Hw.
  { intros m Hm. eapply triple_mono; [done|]. by intros h n [_ ?]. }
  destruct (_ =? IP_ANY); [by apply Hw|]. destruct (negb (server_exists ie)); [by apply Hw|]. apply Hw.
  apply (triple_bind _ _ (fun _ => fresh)); [apply triple_keeps, init_timers_keeps|]. intros _.
  destruct (negb (apply_queue_ok ie)); [done|].
  apply (triple_bind _ _ (fun _ => fresh)); [apply triple_keeps, init_leases_keeps|]. intros _.
  apply or_fail_keeps; [apply init_log_storage_keeps|].
  apply or_fail_keeps; [by apply obeys_ret; exact _|].
  apply or_fail_keeps; [apply init_ballot_box_keeps|].
  apply or_fail_keeps; [apply init_snapshot_storage_keeps|].
  apply or_fail_keeps; [apply check_log_consistency_keeps|].
  apply (triple_bind _ _ (fun _ => fresh)); [apply triple_keeps, init_conf_keeps|]. intros _.
  apply (or_fail_triple _ _ started); [apply init_meta_storage_started|by intros h n e _ [? _]|].
  eapply triple_mono with (P' := up_inv); [|by intros h n [_ ?]; auto].
  intros h n Hi. pose proof (triple_lively _ (start_node_lively env ie) h n Hi) as Hi'.
  split; [apply (ui_hist _ _ Hi')|done].
Qed.

Lemma background_kept m f : obeys keeps still (background m f).
Proof. unfold background, lift_box'. obey; [apply lift_log_kept|apply lift_box_kept]. Qed.
Lemma background_tame m f : obeys raises quiet (background m f).
Proof. apply calm_tame, kept_calm, background_kept. Qed.

(** ** The theorem *)
Definition winv (h : History) (w : World) : Prop :=
  match w with Down m => hist_ok h (meta_durable m) | Up n => up_inv h n end.

Lemma wstep_inv h w ev w' : winv h w -> wstep w ev w' -> winv (h ++ grants ev) w'.
Proof.
  intros Hw Hs. destruct Hs as [env c n n' ev Hok Hp|m f n n' ev Hp|n m Hm|env ie s o m n' ev Hi|env ie s o m e n' m' ev He Hi Hm];
    simpl in *.
  - pose proof (perform_inv env c Hok h n Hw) as H. unfold value_of, state_of, events_of in H. by rewrite Hp in H.
  - pose proof (triple_tame _ (background_tame m f) h n Hw) as H. unfold value_of, state_of, events_of in H.
    by rewrite Hp in H.
  - rewrite app_nil_r, Hm. apply (ui_hist _ _ Hw).
  - pose proof (init_started env ie h (NodeImpl self s m o)) as H. unfold value_of, state_of, events_of in H.
    rewrite Hi in H. by destruct (H (conj Hw (conj eq_refl eq_refl))) as [_ H'']; apply H''.
  - pose proof (init_started env ie h (NodeImpl self s m o)) as H. unfold value_of, state_of, events_of in H.
    rewrite Hi in H. rewrite Hm. by destruct (H (conj Hw (conj eq_refl eq_refl))).
Qed.

Lemma wsteps_inv w ev w' : winv [] w -> wsteps w ev w' -> winv (grants ev) w'.
Proof.
  intros Hw. induction 1 as [w|w ev w1 ev' w2 _ IH Hs]; [done|].
  rewrite grants_app. eapply wstep_inv; [by apply IH|done].
Qed.

(** The term and vote on disk. *)
Definition durable_of (w : World) : Z * PeerId :=
  match w with Down m => meta_durable m | Up n => durable n end.

Lemma winv_hist h w : winv h w -> hist_ok h (durable_of w).
Proof. destruct w as [m|n]; simpl; [done|]. apply ui_hist. Qed.

(** C1: the votes given to others.  Take any life of a node from an empty history:
    calls in any order with any arguments, handlers interleaving at the points
    where they release the lock, timers, crashes at any moment, restarts from
    what is durable, writes of the term and vote that fail (whether or not they
    reached the disk).  The votes it grants to other peers in one term all go to
    the same peer; each is on disk until a later term is; and while the node's
    vote is for itself it has granted no vote of that term.  Candidates are
    assumed to be peers other than the node itself, with a non-empty address.
    The node's own vote is not one of those counted: when its write fails the
    node forgets it and may grant another
    ([VoteExamples.leads_and_votes_after_failed_write]). *)
Theorem one_vote_per_term m ev w :
  wsteps (Down m) ev w ->
  (forall t a b, (t, a) ∈ grants ev -> (t, b) ∈ grants ev -> a ≡ b) /\
  (forall t c, (t, c) ∈ grants ev ->
     let '(term, vote) := durable_of w in t < term \/ t = term /\ vote ≡ c) /\
  match w with
  | Up n => n.(_voted_id) = self -> forall c, (n.(_current_term), c) ∉ grants ev
  | Down _ => True
  end.
Proof.
  intros Hs. apply wsteps_inv in Hs; [|split; [by intros t a b ?%elem_of_nil|by intros t c ?%elem_of_nil]].
  destruct (winv_hist _ _ Hs) as [H1 H2]. split; [done|]. split.
  - intros t c Hc. destruct (H2 t c Hc) as [_ Ht]. by destruct (durable_of w).
  - destruct w as [|n]; [done|]. intros Hv c Hc. pose proof (ui_grant _ _ Hs c Hc) as He. rewrite Hv in He.
    destruct (H2 _ _ Hc) as [[_ Hne] _]. apply peer_eqb_equiv in He. rewrite peer_eqb_sym in He. congruence.
Qed.

(** ** Terms grow *)
Definition grows (n n' : node) : Prop := n.(_current_term) <= n'.(_current_term).

#[local] Instance grows_preorder : PreOrder grows.
Proof. split; [intros n; unfold grows; lia|intros a b c; unfold grows; lia]. Qed.

Definition any_event (e : Event) : Prop := True.

Lemma tame_grows {A} (m : NM A) : obeys raises quiet m -> obeys grows any_event m.
Proof.
  apply obeys_mono; [|done]. intros n n' (_ & _ & [(Ht & _)|(Ht & _)]); unfold grows; lia.
Qed.

Lemma lively_grows {A} (m : NM A) : obeys (rtc vmove) quiet m -> obeys grows any_event m.
Proof.
  apply obeys_mono; [|done]. induction 1 as [n|n n1 n2 Hm _ IH]; [unfold grows; lia|]. transitivity n1; [|done].
  unfold grows. destruct Hm as [(_ & _ & [(Ht & _)|(Ht & _)])|c a _ _ Ht|c k a _ _ Ht]; lia.
Qed.

Lemma save_meta_grows t v : obeys grows any_event (save_meta (S:=S) (Mt:=Mt) t v).
Proof.
  intros n. unfold save_meta, state_of, events_of. destruct (set_term_and_votedfor t v _) as [e m'].
  split; [unfold grows; simpl; lia|constructor].
Qed.

Lemma modify_grows (f : node -> node) : (forall n, (f n).(_current_term) = n.(_current_term)) ->
  obeys grows any_event (modify f).
Proof. intros Hf. apply obeys_modify. intros n. unfold grows. rewrite Hf. lia. Qed.

Lemma elect_self_locked_grows env t l : obeys grows any_event (elect_self_locked (S:=S) (Mt:=Mt) env t l).
Proof.
  unfold elect_self_locked, modify_ctx.
  repeat first [ solve [apply modify_grows; done] | solve [apply save_meta_grows]
               | solve [apply lively_grows, grant_self_lively] | solve [apply tame_grows, calm_tame, kept_calm, request_peers_to_vote_kept]
               | obey_step ].
Qed.

Lemma vote_for_grows env t c : obeys grows any_event (vote_for (S:=S) (Mt:=Mt) env t c).
Proof.
  unfold vote_for.
  repeat first [ solve [apply modify_grows; done] | solve [apply save_meta_grows]
               | solve [apply tame_grows, calm_tame, step_down_calm] | obey_step ].
Qed.

Lemma request_vote_locked_grows env rpc r c t l :
  obeys grows any_event (request_vote_locked (S:=S) (Mt:=Mt) env rpc r c t l).
Proof.
  unfold request_vote_locked, request_vote_reply.
  repeat first [ solve [apply vote_for_grows] | solve [apply tame_grows, calm_tame, step_down_calm] | obey_step ].
Qed.

Lemma resume_grows env i l : obeys grows any_event (resume (S:=S) (Mt:=Mt) env i l).
Proof.
  unfold resume. apply obeys_bind; [exact _|by apply obeys_get; exact _|]. intros n0.
  destruct (n0.(_suspended) !! i) as [[[c k] a]|]; [|apply obeys_skip; exact _].
  apply obeys_bind; [exact _|by apply modify_grows|]. intros _.
  destruct k; simpl; [apply lively_grows, pre_vote_locked_lively|apply elect_self_locked_grows
    |apply lively_grows, pre_vote_request_locked_lively|apply request_vote_locked_grows].
Qed.

Lemma handle_request_vote_request_grows rpc r :
  obeys grows any_event (handle_request_vote_request (S:=S) (Mt:=Mt) rpc r).
Proof.
  unfold handle_request_vote_request, request_vote_reply, wait_last_log_id.
  repeat first [ solve [apply modify_grows; done] | solve [apply tame_grows, calm_tame, kept_calm, lift_log_kept] | obey_step ].
Qed.

(** The term of a running node never decreases, whatever the call. *)
Theorem term_never_decreases env c n :
  n.(_current_term) <= (state_of (perform env c n)).(_current_term).
Proof.
  assert (obeys grows any_event (perform env c)) as Hg; [|by apply (Hg n)].
  assert (routine c \/ ~ routine c) as [Hr|Hr] by (destruct c; simpl; tauto).
  - by apply lively_grows, routine_lively.
  - destruct c; simpl in *; try tauto; [apply handle_request_vote_request_grows|apply resume_grows].
Qed.
End life.
