(* ===== verification/Leadership.v ===== *)
(** * Leadership: how a raft node becomes the leader, and what it may do then

    A node that becomes the leader of a term counted, in the ballot of that
    election, only its own vote and votes other peers granted it in that term;
    and a node that campaigns or leads votes for nobody else. *)

From S2P Require Import PeerText AppendEntriesCache LogManager LogStorage BallotBox Ballot NodeState Node NodeLog NodeVote VoteSafety Types Prelude.

Section leadership.
Context {S Mt : Type} `{LS : LogStorage S} `{MS : RaftMetaStorage Mt} `{EPO : EndPointOrder} `{IT : IpText}.

Abbreviation node := (Node S Mt).
Abbreviation NM := (M node Event).
Abbreviation ballot n := (n.(_vote_ctx).(_ballot)).


(** ** Handlers that leave the configuration alone *)
Definition steady (n n' : node) : Prop := n'.(_conf) = n.(_conf).

#[export] Instance steady_preorder : PreOrder steady.
Proof. split; [done|]. intros a b c. unfold steady. congruence. Qed.

Abbreviation steadily := (obeys steady any_event).

Lemma lift_log_steady {A} (m : M (LogManager S) LogManager.Event A) : steadily (lift_log (Mt:=Mt) m).
Proof.
  intros n. unfold lift_log, state_of, events_of. destruct (m _) as [[a p] ev]. split; [done|by apply Forall_true].
Qed.
Lemma lift_box_steady {A} (f : BallotBox -> A * BallotBox * list BallotBox.Event) : steadily (lift_box (S:=S) (Mt:=Mt) f).
Proof.
  intros n. unfold lift_box, state_of, events_of. destruct (f _) as [[a p] ev]. split; [done|by apply Forall_true].
Qed.
Lemma lift_cache_steady {A} c (m : M AppendEntriesCache AppendEntriesCache.Event A) :
  steadily (lift_cache (S:=S) (Mt:=Mt) c m).
Proof.
  intros n. unfold lift_cache, state_of, events_of. destruct (m c) as [[a p] ev]. split; [done|by apply Forall_true].
Qed.
Lemma save_meta_steady t v : steadily (save_meta (S:=S) (Mt:=Mt) t v).
Proof.
  intros n. unfold save_meta, state_of, events_of. destruct (set_term_and_votedfor t v _) as [e m]. by split; [|constructor].
Qed.
Lemma lift_box'_steady f : steadily (lift_box' (S:=S) (Mt:=Mt) f).
Proof. apply lift_box_steady. Qed.
Hint Resolve lift_log_steady lift_box_steady lift_cache_steady save_meta_steady lift_box'_steady : obeys.
Ltac by_steady := repeat first
  [ solve [apply obeys_modify; intros; unfold steady; repeat case_match; done] | solve [by apply obeys_emit; exact _] | obey_step ].

Section steady_handlers.
Context (env : Env).
Lemma check_steady b : steadily (Node.check (S:=S) (Mt:=Mt) b).
Proof. unfold Node.check. by_steady. Qed.
Lemma run_closure_steady c e : steadily (run_closure (S:=S) (Mt:=Mt) c e).
Proof. unfold run_closure. by_steady. Qed.
Lemma modify_ctx_steady w f : steadily (modify_ctx (S:=S) (Mt:=Mt) w f).
Proof. unfold modify_ctx. by_steady. Qed.
Lemma check_majority_nodes_readonly_conf_steady c : steadily (check_majority_nodes_readonly_conf (S:=S) (Mt:=Mt) env c).
Proof. unfold check_majority_nodes_readonly_conf. by_steady. Qed.
Hint Resolve check_steady run_closure_steady modify_ctx_steady check_majority_nodes_readonly_conf_steady : obeys.
Lemma check_majority_nodes_readonly_steady : steadily (check_majority_nodes_readonly (S:=S) (Mt:=Mt) env).
Proof. unfold check_majority_nodes_readonly. by_steady. Qed.
Lemma clear_append_entries_cache_steady : steadily (clear_append_entries_cache (S:=S) (Mt:=Mt) env).
Proof. unfold clear_append_entries_cache. by_steady. Qed.
Lemma stop_replicator_steady k d : steadily (stop_replicator (S:=S) (Mt:=Mt) k d).
Proof. unfold stop_replicator. by_steady. Qed.
Lemma raise_term_steady t : steadily (raise_term (S:=S) (Mt:=Mt) t).
Proof. unfold raise_term. by_steady. Qed.
Hint Resolve check_majority_nodes_readonly_steady clear_append_entries_cache_steady stop_replicator_steady raise_term_steady : obeys.
Lemma conf_ctx_reset_steady st : steadily (conf_ctx_reset (S:=S) (Mt:=Mt) env st).
Proof. unfold conf_ctx_reset. by_steady. Qed.
Lemma reset_leader_id_steady p e : steadily (reset_leader_id (S:=S) (Mt:=Mt) env p e).
Proof. unfold reset_leader_id. by_steady. Qed.
Lemma leave_state_steady e : steadily (leave_state (S:=S) (Mt:=Mt) env e).
Proof. unfold leave_state. by_steady. Qed.
Hint Resolve conf_ctx_reset_steady reset_leader_id_steady leave_state_steady : obeys.
Lemma step_down_steady t b e : steadily (step_down (S:=S) (Mt:=Mt) env t b e).
Proof. unfold step_down. by_steady. Qed.
Lemma start_grant_self_timer_steady w t : steadily (start_grant_self_timer (S:=S) (Mt:=Mt) env w t).
Proof. unfold start_grant_self_timer. by_steady. Qed.
Lemma poll_peers_steady w c r : steadily (poll_peers (S:=S) (Mt:=Mt) env w c r).
Proof. unfold poll_peers. by_steady. Qed.
Lemma wait_last_log_id_steady k : steadily (wait_last_log_id (S:=S) (Mt:=Mt) k).
Proof. unfold wait_last_log_id. by_steady. Qed.
Hint Resolve step_down_steady start_grant_self_timer_steady poll_peers_steady wait_last_log_id_steady : obeys.
Lemma request_peers_to_vote_steady c d : steadily (request_peers_to_vote (S:=S) (Mt:=Mt) env c d).
Proof. unfold request_peers_to_vote. by_steady. Qed.
Lemma response_acceptable_steady w s t v r : steadily (response_acceptable (S:=S) (Mt:=Mt) env w s t v r).
Proof. unfold response_acceptable. by_steady. Qed.
Hint Resolve request_peers_to_vote_steady response_acceptable_steady : obeys.
End steady_handlers.

Context (self : PeerId).

(** ** The votes counted in an election *)

(** What happened to a running process: the configurations it had and the calls. *)
Record Past : Set := mkPast { past_confs : list ConfigurationEntry; past_calls : list Call }.

(** A granted vote of [p] in the term [t] was received. *)
Definition vote_received (h : Past) (t : Z) (p : PeerId) : Prop :=
  exists v r, CallVoteResponse p t v r ∈ h.(past_calls) /\ r.(rs_granted) = true.

Definition counted (h : Past) (t : Z) (gs : list (PeerId * PosHint)) : Prop :=
  forall g, g ∈ gs -> g.1 = self \/ vote_received h t g.1.

(** The empty ballot of a configuration. *)
Definition ballot_for (e : ConfigurationEntry) : Ballot :=
  Ballot.init e.(conf) (if stable e then None else Some e.(old_conf)).

(** An election of the term [t] was won with the votes received. *)
Definition won (h : Past) (t : Z) : Prop :=
  exists e gs, e ∈ h.(past_confs) /\ granted (grant_all (ballot_for e) gs) = true /\ counted h t gs.

(** A candidate's ballot holds the votes of its term. *)
Record campaign (h : Past) (n : node) : Prop := {
  ca_self : n.(_server_id) = self;
  ca_ballot : n.(_state) = STATE_CANDIDATE ->
    exists e gs, e ∈ h.(past_confs) /\ ballot n = grant_all (ballot_for e) gs /\ counted h n.(_current_term) gs
}.

Definition extends (h h' : Past) : Prop :=
  h.(past_confs) ⊆ h'.(past_confs) /\ h.(past_calls) ⊆ h'.(past_calls).

Lemma counted_mono h h' t gs : extends h h' -> counted h t gs -> counted h' t gs.
Proof.
  intros [_ Hs] Hc g Hg. destruct (Hc g Hg) as [?|(v & r & Hin & ?)]; [by left|]. right. exists v, r. auto.
Qed.

Lemma campaign_mono h h' n : extends h h' -> campaign h n -> campaign h' n.
Proof.
  intros Hs [H1 H2]. split; [done|]. intros Hc. destruct (H2 Hc) as (e & gs & He & Hb & Hg).
  exists e, gs. split_and!; [by apply Hs|done|by eapply counted_mono].
Qed.

(** Only [become_leader] announces a new term to the replicators. *)
Definition no_start (e : Event) : Prop := match e with Replicators (ResetTerm _) => False | _ => True end.

Lemma obeys_both {A} (R R' : node -> node -> Prop) (P P' : Event -> Prop) (m : NM A) :
  obeys R P m -> obeys R' P' m -> obeys (fun a b => R a b /\ R' a b) P m.
Proof. intros H H' n. destruct (H n), (H' n). by repeat split. Qed.

Lemma still_no_start e : still e -> no_start e.
Proof. by intros []. Qed.

Section handlers.
Context (env : Env) (h : Past) (c0 : ConfigurationEntry) (Hc0 : c0 ∈ h.(past_confs)).

Definition at_conf (n : node) : Prop := n.(_conf) = c0.

(** The campaign goes on, or another starts, under the same configuration. *)
Definition campaigns (n n' : node) : Prop := campaign h n /\ at_conf n -> campaign h n' /\ at_conf n'.
(** The campaign goes on, or is given up. *)
Definition campaigns' (n n' : node) : Prop := campaign h n -> campaign h n'.

#[local] Instance campaigns_preorder : PreOrder campaigns.
Proof. split; [intros n; unfold campaigns; done|]. intros a b c. unfold campaigns. auto. Qed.

Lemma calmed_campaigns n n' : calmed n n' -> campaigns' n n'.
Proof.
  intros [(Hs & _) [Hc _]] [H1 H2]. split; [by rewrite Hs|]. intros Hst. destruct (Hc Hst) as (Hst0 & -> & ->). auto.
Qed.

Abbreviation orderly := (obeys campaigns no_start).

Lemma calm_orderly {A} (m : NM A) : obeys calmed still m -> steadily m -> orderly m.
Proof.
  intros Hc Hs. eapply obeys_mono; [|apply still_no_start|by apply (obeys_both _ _ _ _ _ Hc Hs)].
  intros n n' [Hn Hst] [H1 H2]. split; [by apply calmed_campaigns with n|]. unfold at_conf. by rewrite Hst.
Qed.
Lemma kept_orderly {A} (m : NM A) : obeys keeps still m -> steadily m -> orderly m.
Proof. intros Hm. by apply calm_orderly, kept_calm. Qed.

(** Changes to fields the campaign does not read. *)
Lemma modify_orderly (f : node -> node) :
  (forall n, (f n).(_server_id) = n.(_server_id) /\ (f n).(_current_term) = n.(_current_term) /\
             (f n).(_state) = n.(_state) /\ ballot (f n) = ballot n /\ (f n).(_conf) = n.(_conf)) -> orderly (modify f).
Proof.
  intros Hf. apply obeys_modify. intros n [[H1 H2] H3]. destruct (Hf n) as (Hs & Ht & Hst & Hb & Hc).
  split; [|unfold at_conf; by rewrite Hc]. split; [by rewrite Hs|]. rewrite Hst, Ht, Hb. done.
Qed.

Lemma save_meta_orderly t v : orderly (save_meta (S:=S) (Mt:=Mt) t v).
Proof.
  intros n. unfold save_meta, state_of, events_of. destruct (set_term_and_votedfor t v _) as [e m'].
  split; [|constructor]. intros [[H1 H2] H3]. by repeat split.
Qed.

Lemma wait_orderly k : orderly (wait_last_log_id (S:=S) (Mt:=Mt) k).
Proof.
  unfold wait_last_log_id.
  repeat first [solve [by apply modify_orderly] | solve [apply kept_orderly; [apply lift_log_kept|apply lift_log_steady]] | obey_step].
Qed.

Create HintDb orderly discriminated.
Hint Resolve wait_orderly save_meta_orderly calm_orderly kept_orderly : orderly.
Hint Resolve reset_leader_id_kept start_grant_self_timer_kept poll_peers_kept request_peers_to_vote_kept
  modify_pre_ctx_kept step_down_calm check_kept : orderly.
Hint Resolve reset_leader_id_steady start_grant_self_timer_steady poll_peers_steady request_peers_to_vote_steady
  modify_ctx_steady step_down_steady check_steady : orderly.
Ltac orderly := repeat first
  [ solve [by apply modify_orderly]
  | solve [eauto 4 with orderly]
  | obey_step ].

(** An election starts with an empty count. *)
Definition campaigns_if (P : Prop) (n n' : node) : Prop := P -> campaigns n n'.

#[local] Instance campaigns_if_preorder P : PreOrder (campaigns_if P).
Proof. split; [by intros n ?|]. intros a b c H1 H2 HP. transitivity b; auto. Qed.

Lemma orderly_if P {A} (m : NM A) : orderly m -> obeys (campaigns_if P) no_start m.
Proof. apply obeys_mono; [|done]. by intros n n' Hn HP. Qed.

Lemma begin_election_orderly e d :
  obeys (campaigns_if (e = c0)) no_start (begin_election (S:=S) (Mt:=Mt) env e d).
Proof.
  intros n. unfold begin_election, wait_last_log_id, lift_log, modify_ctx. run. simpl.
  destruct d as [d|]; simpl; destruct (LogManager.last_log_id _ _ _) as [[a lm] ev]; simpl;
    (split; [|constructor; [done|]; rewrite ?app_nil_r; apply Forall_forall; by intros x (y & -> & _)%list_elem_of_fmap]);
    intros -> [[H1 _] H2]; (split; [|done]); (split; [done|]); intros _; exists c0, [];
    (split_and!; [done..|]); by intros g ?%elem_of_nil.
Qed.

Lemma elect_self_orderly b : orderly (elect_self (S:=S) (Mt:=Mt) env b).
Proof.
  unfold elect_self. intros n. rewrite get_bind.
  match goal with |- context [state_of (?m n)] => assert (obeys (campaigns_if (n.(_conf) = c0)) no_start m) as Hm end.
  { destruct (negb _); [apply orderly_if; orderly|].
    apply obeys_bind; [exact _|apply orderly_if; orderly|]. intros _. cbv zeta.
    apply obeys_bind; [exact _|apply orderly_if; orderly|]. intros _.
    pose proof (begin_election_orderly n.(_conf)
      (if b then Some (mkDisruptedLeader n.(_leader_id) n.(_current_term)) else None)) as Hb.
    unfold begin_election in Hb. unfold when. destruct b; exact Hb. }
  destruct (Hm n) as [H1 H2]. split; [|done]. intros [? Hn]. by apply H1.
Qed.
Hint Resolve elect_self_orderly : orderly.

Lemma grant_self_pre_orderly : orderly (grant_self (S:=S) (Mt:=Mt) env PreVote).
Proof. unfold grant_self. orderly. Qed.
Hint Resolve grant_self_pre_orderly : orderly.

Lemma pre_vote_orderly b : orderly (pre_vote (S:=S) (Mt:=Mt) env b).
Proof. unfold pre_vote. orderly. Qed.
Lemma pre_vote_locked_orderly t b l : orderly (pre_vote_locked (S:=S) (Mt:=Mt) env t b l).
Proof. unfold pre_vote_locked. orderly. Qed.
Lemma grant_peer_pre_orderly p : orderly (grant_peer (S:=S) (Mt:=Mt) env PreVote p).
Proof. unfold grant_peer. orderly. Qed.
Lemma response_acceptable_orderly w st t v r : orderly (response_acceptable (S:=S) (Mt:=Mt) env w st t v r).
Proof. apply calm_orderly; [apply response_acceptable_calm|apply response_acceptable_steady]. Qed.
Hint Resolve pre_vote_orderly pre_vote_locked_orderly grant_peer_pre_orderly response_acceptable_orderly : orderly.

Lemma handle_election_timeout_orderly : orderly (handle_election_timeout (S:=S) (Mt:=Mt) env).
Proof. unfold handle_election_timeout. orderly. Qed.
Lemma handle_vote_timeout_orderly : orderly (handle_vote_timeout (S:=S) (Mt:=Mt) env).
Proof. unfold handle_vote_timeout. orderly. Qed.
Lemma handle_timeout_now_request_orderly rpc t b : orderly (handle_timeout_now_request (S:=S) (Mt:=Mt) env rpc t b).
Proof. unfold handle_timeout_now_request. orderly. Qed.
Lemma handle_pre_vote_response_orderly p t v r : orderly (handle_pre_vote_response (S:=S) (Mt:=Mt) env p t v r).
Proof. unfold handle_pre_vote_response. orderly. Qed.
Lemma handle_pre_vote_request_orderly rpc r : orderly (handle_pre_vote_request (S:=S) (Mt:=Mt) rpc r).
Proof. unfold handle_pre_vote_request, pre_vote_reply. orderly. Qed.
Lemma pre_vote_request_locked_orderly rpc r l : orderly (pre_vote_request_locked (S:=S) (Mt:=Mt) env rpc r l).
Proof. unfold pre_vote_request_locked, pre_vote_reply. orderly. Qed.
Lemma request_vote_reply_orderly rpc r c b1 t b2 : orderly (request_vote_reply (S:=S) (Mt:=Mt) rpc r c b1 t b2).
Proof. unfold request_vote_reply. orderly. Qed.
Hint Resolve request_vote_reply_orderly : orderly.
Lemma handle_request_vote_request_orderly rpc r : orderly (handle_request_vote_request (S:=S) (Mt:=Mt) rpc r).
Proof. unfold handle_request_vote_request. orderly. Qed.
Lemma vote_for_orderly t c : orderly (vote_for (S:=S) (Mt:=Mt) env t c).
Proof. unfold vote_for. orderly. Qed.
Hint Resolve vote_for_orderly : orderly.
Lemma request_vote_locked_orderly rpc r c t l : orderly (request_vote_locked (S:=S) (Mt:=Mt) env rpc r c t l).
Proof. unfold request_vote_locked. orderly. Qed.

(** ** Becoming the leader *)

(** A new leader of a term, unless a [CHECK] stopped the process, won it. *)
Definition fair (ev : list Event) : Prop :=
  forall t, Replicators (ResetTerm t) ∈ ev -> CheckFailed ∈ ev \/ won h t.

Lemma fair_app a b : fair a -> fair b -> fair (a ++ b).
Proof.
  intros Ha Hb t [Hin|Hin]%elem_of_app; [destruct (Ha t Hin)|destruct (Hb t Hin)];
    rewrite ?elem_of_app; auto.
Qed.
Lemma fair_quiet ev : Forall no_start ev -> fair ev.
Proof. intros Hf t Hin. rewrite Forall_forall in Hf. by destruct (Hf _ Hin). Qed.

(** From a campaign that satisfies [P], [m] ends in one that satisfies [Q] of
    its value, and every leader it makes is one that won. *)
Definition fairly {A} (P : node -> Prop) (m : NM A) (Q : A -> node -> Prop) : Prop :=
  forall n, campaign h n -> P n ->
  campaign h (state_of (m n)) /\ Q (value_of (m n)) (state_of (m n)) /\ fair (events_of (m n)).

Lemma fairly_bind {A B} P (m : NM A) Q (f : A -> NM B) R :
  fairly P m Q -> (forall a, fairly (Q a) (f a) R) -> fairly P (m ≫= f) R.
Proof.
  intros Hm Hf n Hc HP. destruct (Hm n Hc HP) as (H1 & H2 & H3).
  unfold mbind, M_bind, state_of, value_of, events_of in *. destruct (m n) as [[a n1] e1]. simpl in *.
  destruct (Hf a n1 H1 H2) as (H4 & H5 & H6). unfold state_of, value_of, events_of in *.
  destruct (f a n1) as [[b n2] e2]. simpl in *. split_and!; [done..|by apply fair_app].
Qed.

Lemma fairly_get {B} P (f : node -> NM B) R :
  (forall n0, fairly (fun n => n = n0 /\ P n) (f n0) R) -> fairly P (get ≫= f) R.
Proof. intros Hf n Hc HP. rewrite get_bind. by apply (Hf n). Qed.

Lemma orderly_fairly {A} (m : NM A) : orderly m -> fairly at_conf m (fun _ => at_conf).
Proof.
  intros Hm n Hc Hn. destruct (Hm n) as [H1 H2]. destruct (H1 (conj Hc Hn)).
  split_and!; [done..|by apply fair_quiet].
Qed.

Lemma fairly_weaken {A} (P P' : node -> Prop) (m : NM A) (Q Q' : A -> node -> Prop) :
  fairly P' m Q' -> (forall n, P n -> P' n) -> (forall a n, Q' a n -> Q a n) -> fairly P m Q.
Proof. intros Hm HP HQ n Hc Hn. destruct (Hm n Hc (HP n Hn)) as (? & ? & ?). auto. Qed.

(** The same, for operations that end a handler. *)
Lemma orderly_ends {A} (P : node -> Prop) (m : NM A) :
  orderly m -> (forall n, P n -> at_conf n) -> fairly P m (fun _ _ => True).
Proof. intros Hm HP. eapply fairly_weaken; [by apply orderly_fairly|done|done]. Qed.

Lemma calm_ends {A} (P : node -> Prop) (m : NM A) : obeys calmed still m -> fairly P m (fun _ _ => True).
Proof.
  intros Hm n Hc _. destruct (Hm n) as [H1 H2]. split_and!; [by eapply calmed_campaigns|done|].
  apply fair_quiet. eapply Forall_impl; [exact H2|apply still_no_start].
Qed.

Lemma skip_ends (P : node -> Prop) : fairly P skip (fun _ _ => True).
Proof. apply calm_ends. apply obeys_skip. exact _. Qed.

(** Counting one more vote. *)
Lemma count_vote p :
  fairly (fun n => at_conf n /\ (n.(_state) = STATE_CANDIDATE -> p = self \/ vote_received h n.(_current_term) p))
    (modify_ctx Vote (ctx_grant p)) (fun _ => at_conf).
Proof.
  intros n [H1 H2] [Hn Hp]. unfold modify_ctx, modify, state_of, value_of, events_of. simpl.
  split_and!; [|done|by intros t ?%elem_of_nil]. split; [done|]. simpl. intros Hst.
  destruct (H2 Hst) as (e & gs & He & Hb & Hg). exists e, (gs ++ [(p, PosHint_default)]). split_and!; [done| |].
  - unfold ctx_grant, grant_nohint, grant_all in *. simpl. by rewrite Hb, fold_left_app.
  - intros g [Hin| ->%list_elem_of_singleton]%elem_of_app; [by apply Hg|]. by apply Hp.
Qed.

(** What follows the announcement of the term. *)
Definition announces (n : node) (e : Event) : Prop :=
  match e with Replicators (ResetTerm t) => t = n.(_current_term) | _ => True end.

Lemma still_announces {A} n (m : NM A) : obeys keeps still m -> obeys (fun a b => b.(_state) = a.(_state)) (announces n) m.
Proof. apply obeys_mono; [by intros a b (_ & _ & _ & _ & _ & ? & _)|]. by intros [] [_ ?]; try done; destruct c. Qed.

Definition same_role (a b : node) : Prop := b.(_state) = a.(_state) /\ b.(_server_id) = a.(_server_id).

#[export] Instance same_role_preorder : PreOrder same_role.
Proof. split; [done|]. intros a b c [? ?] [? ?]. split; congruence. Qed.

Lemma kept_same_role {A} n (m : NM A) : obeys keeps still m -> obeys same_role (announces n) m.
Proof.
  apply obeys_mono; [by intros a b (? & _ & _ & _ & _ & ? & _)|]. by intros [] [_ ?]; try done; destruct c.
Qed.

Lemma start_leading_same_role n : obeys same_role (announces n) (start_leading (S:=S) (Mt:=Mt) n).
Proof.
  unfold start_leading.
  repeat first [ solve [apply kept_same_role; eauto using lift_box'_kept, check_kept, conf_ctx_flush_kept]
               | solve [by apply obeys_modify] | obey_step ].
Qed.

(** The node is the leader at the end, of its own term; a [CHECK] fails when it
    was not a candidate. *)
Lemma become_leader_shape n :
  wp (become_leader env) (fun _ n' ev =>
    n'.(_state) = STATE_LEADER /\ n'.(_server_id) = n.(_server_id) /\ Forall (announces n) ev /\
    (n.(_state) <> STATE_CANDIDATE -> CheckFailed ∈ ev)) n.
Proof.
  unfold become_leader. apply wp_bind, wp_get, wp_bind.
  apply (wp_mono _ (fun _ n1 ev => n1 = n /\ Forall (announces n) ev /\
                                   (n.(_state) <> STATE_CANDIDATE -> CheckFailed ∈ ev))).
  2:{ unfold check. destruct (bool_decide_reflect (_state n = STATE_CANDIDATE)) as [Hs|Hs].
      - split_and!; [done|constructor|done].
      - split_and!; [done|by repeat constructor|intros _; apply list_elem_of_here]. }
  intros _ n1 ev (-> & Hev & Hck).
  apply wp_bind, wp_emit, wp_bind. unfold modify_ctx. apply wp_modify, wp_bind, wp_modify.
  eapply wp_obeys; [apply (start_leading_same_role n)|]. intros _ n' ev' [Hs Hid] Hev'. split_and!; [done..| |].
  - simpl. apply Forall_app. split; [done|]. by constructor.
  - intros Hne. simpl. apply elem_of_app. left. auto.
Qed.

Lemma become_leader_fair :
  fairly (fun n => n.(_state) = STATE_CANDIDATE -> granted (ballot n) = true) (become_leader env) (fun _ _ => True).
Proof.
  intros n [H1 H2] Hg. destruct (become_leader_shape n) as (Hs & Hid & Hev & Hck).
  unfold state_of, value_of, events_of in *. split_and!; [|done|].
  - split; [by rewrite Hid|]. by rewrite Hs.
  - intros t Ht. rewrite Forall_forall in Hev. specialize (Hev _ Ht). simpl in Hev. subst t.
    destruct (decide (n.(_state) = STATE_CANDIDATE)) as [Hc|Hc]; [right|left; auto].
    destruct (H2 Hc) as (e & gs & He & Hb & Hgs). exists e, gs. split_and!; [done| |done]. rewrite <- Hb. auto.
Qed.

Lemma grant_self_fair w : fairly at_conf (grant_self env w) (fun _ _ => True).
Proof.
  destruct w; [apply orderly_ends; [apply grant_self_pre_orderly|done]|].
  unfold grant_self. apply fairly_get. intros n0. cbv zeta.
  destruct (_ =? 0); [|apply calm_ends, kept_calm, start_grant_self_timer_kept].
  apply (fairly_bind _ _ (fun _ => at_conf)).
  { intros n Hc [-> Hn]. apply count_vote; [done|]. split; [done|]. left. apply (ca_self _ _ Hc). }
  intros _. apply fairly_get. intros n1. destruct (ctx_granted (vote_ctx Vote n1)) eqn:Hg; simpl; [|apply skip_ends].
  intros n Hc [-> _]. by apply become_leader_fair.
Qed.

Lemma handle_grant_self_timedout_fair w v : fairly at_conf (handle_grant_self_timedout env w v) (fun _ _ => True).
Proof.
  unfold handle_grant_self_timedout. apply fairly_get. intros n0. destruct (_ || _); [apply skip_ends|].
  eapply fairly_weaken; [apply grant_self_fair|by intros n [_ ?]|done].
Qed.

Lemma elect_self_locked_fair t l : fairly at_conf (elect_self_locked env t l) (fun _ _ => True).
Proof.
  unfold elect_self_locked. apply fairly_get. intros n0. destruct (negb _); [apply skip_ends|].
  apply (fairly_bind _ _ (fun _ => at_conf)).
  { eapply fairly_weaken; [apply orderly_fairly; unfold modify_ctx; by apply modify_orderly|by intros n [_ ?]|done]. }
  intros _. apply fairly_get. intros n1. apply (fairly_bind _ _ (fun _ => at_conf)).
  { eapply fairly_weaken; [apply orderly_fairly; orderly|by intros n [_ ?]|done]. }
  intros _. apply (fairly_bind _ _ (fun _ => at_conf)); [apply orderly_fairly; orderly|].
  intros e. destruct (negb _); [|apply grant_self_fair].
  apply orderly_ends; [|done]. by apply modify_orderly.
Qed.

(** A response that is acceptable answers the election that is running. *)
Lemma response_acceptable_shape w st t v r (n : node) :
  wp (response_acceptable env w st t v r) (fun go n' _ =>
    go = true -> n' = n /\ n.(_state) = st /\ t = n.(_current_term)) n.
Proof.
  unfold response_acceptable, wp. rewrite get_bind. destruct (negb (v =? _)); [done|].
  destruct (bool_decide_reflect (_state n = st)) as [Hs|]; simpl; [|done].
  destruct (Z.eqb_spec t n.(_current_term)) as [Ht|]; simpl; [|done].
  destruct (n.(_current_term) <? _); [|done].
  unfold value_of. run. by destruct (step_down _ _ _ _ n) as [[u n1] ev].
Qed.

(** The response to the running election, being counted. *)
Definition counting (t : Z) (n : node) : Prop := at_conf n /\ n.(_state) = STATE_CANDIDATE /\ t = n.(_current_term).

Lemma grant_peer_fair p t v r :
  CallVoteResponse p t v r ∈ h.(past_calls) -> rs_granted r = true ->
  fairly (counting t) (grant_peer env Vote p) (fun _ => at_conf).
Proof.
  intros Hin Hgr. unfold grant_peer. apply (fairly_bind _ _ (fun _ => at_conf)).
  { intros n Hc (Hn & Hs & Ht). apply count_vote; [done|]. split; [done|]. intros _. right. exists v, r. by rewrite <- Ht. }
  intros _. apply fairly_get. intros n1. unfold when.
  destruct (peer_eqb p _); [|eapply fairly_weaken; [apply orderly_fairly, obeys_skip; exact _|by intros n [_ ?]|done]].
  apply (fairly_bind _ _ (fun _ => at_conf)).
  - intros n Hc [-> Hn]. apply count_vote; [done|]. split; [done|]. left. apply (ca_self _ _ Hc).
  - intros _. apply orderly_fairly. unfold modify_ctx. apply modify_orderly. intros n. unfold stop_grant_self_timer.
    repeat case_match; done.
Qed.

Lemma handle_request_vote_response_fair p t v r :
  CallVoteResponse p t v r ∈ h.(past_calls) ->
  fairly at_conf (handle_request_vote_response env p t v r) (fun _ _ => True).
Proof.
  intros Hin. unfold handle_request_vote_response.
  apply (fairly_bind _ _ (fun go n => go = true -> counting t n)).
  { intros n Hc Hn. destruct (orderly_fairly _ (response_acceptable_orderly Vote STATE_CANDIDATE t v r) n Hc Hn)
      as (H1 & H2 & H3). split_and!; [done| |done].
    intros Hgo. destruct (response_acceptable_shape Vote STATE_CANDIDATE t v r n Hgo) as (-> & ? & ?). by split_and!. }
  intros go. destruct go; [|apply skip_ends]. simpl.
  apply (fairly_bind _ _ (fun _ => counting t)).
  { unfold when. destruct (rs_disrupted r); intros n [H1 H2] Hn; specialize (Hn eq_refl);
      (split_and!; [by split|apply Hn..|by intros x ?%elem_of_nil]). }
  intros _. destruct (rs_granted r) eqn:Hgr.
  - apply (fairly_bind _ _ (fun _ => at_conf)); [by eapply grant_peer_fair|].
    intros _. apply fairly_get. intros n1. destruct (ctx_granted _) eqn:Hg; simpl.
    + intros n Hc [-> _]. by apply become_leader_fair.
    + apply calm_ends, kept_calm, retry_vote_on_reserved_peers_kept.
  - apply calm_ends. simpl. apply obeys_bind; [exact _|by apply kept_calm, modify_ctx_kept|]. intros _.
    apply obeys_bind; [exact _|by apply obeys_get; exact _|]. intros _. apply kept_calm, retry_vote_on_reserved_peers_kept.
Qed.

Lemma resume_fair i l : fairly at_conf (resume env i l) (fun _ _ => True).
Proof.
  unfold resume. apply fairly_get. intros n0.
  destruct (n0.(_suspended) !! i) as [[[c k] a]|]; [|apply skip_ends].
  apply (fairly_bind _ _ (fun _ => at_conf)).
  { eapply fairly_weaken; [apply orderly_fairly; by apply modify_orderly|by intros n [_ ?]|done]. }
  intros _. destruct k; simpl; [|apply elect_self_locked_fair| |]; (apply orderly_ends; [|done]);
    [apply pre_vote_locked_orderly|apply pre_vote_request_locked_orderly|apply request_vote_locked_orderly].
Qed.

(** The calls that start no election and count no vote. *)
Definition ordinary (c : Call) : Prop :=
  match c with
  | CallVoteResponse _ _ _ _ | CallGrantSelfTimeout _ _ | CallResume _ _ | CallElectionTimeout | CallVoteTimeout
  | CallPreVoteRequest _ _ | CallPreVoteResponse _ _ _ _ | CallTimeoutNow _ _ _ | CallVoteRequest _ _ => False
  | _ => True
  end.

Lemma ordinary_calm c : ordinary c -> obeys calmed still (perform env c : NM unit).
Proof.
  intros Hc. destruct c as [| | | | | | |rpc r| | | | | | | |i l| | | | | | | | | | | | | | |b| | | | |]; simpl;
    try done; unfold discard.
  all: repeat match goal with |- obeys _ _ (_ ≫= _) => apply obeys_bind; [exact _| |intros; by apply obeys_ret; exact _] end.
  all: try (apply kept_calm; try destruct b; eauto using handle_snapshot_timeout_kept,
    handle_append_entries_cache_timedout_kept, change_readonly_config_kept, check_and_set_conf_kept,
    execute_applying_tasks_kept, vote_kept, reset_election_timeout_ms_kept, enter_readonly_mode_kept,
    leave_readonly_mode_kept, do_snapshot_kept, read_committed_user_log_kept; fail).
  all: eauto using handle_stepdown_timeout_calm, handle_transfer_timeout_calm,
    handle_append_entries_request_calm, handle_append_entries_from_cache_calm,
    handle_install_snapshot_request_calm, run_node_closure_calm, on_caughtup_calm, increase_term_to_calm,
    get_leader_lease_status_calm, add_peer_calm, remove_peer_calm, change_peers_calm, reset_peers_calm,
    transfer_leadership_to_calm, on_error_calm, shutdown_calm, after_shutdown_calm.
Qed.

Lemma perform_fair c : c ∈ h.(past_calls) -> fairly at_conf (perform env c) (fun _ _ => True).
Proof.
  intros Hin. assert (ordinary c \/ ~ ordinary c) as [Hc|Hc] by (destruct c; simpl; tauto).
  - by apply calm_ends, ordinary_calm.
  - destruct c; simpl in Hc; try tauto; simpl;
      try (apply orderly_ends; [|done]; eauto using handle_election_timeout_orderly, handle_vote_timeout_orderly,
        handle_pre_vote_request_orderly, handle_pre_vote_response_orderly, handle_timeout_now_request_orderly,
        handle_request_vote_request_orderly; fail);
      [apply handle_grant_self_timedout_fair|by apply handle_request_vote_response_fair|apply resume_fair].
Qed.

(** A process starts without a campaign. *)
Definition uninitialized (n : node) : Prop := n.(_state) = STATE_UNINITIALIZED.

Lemma same_role_fairly {A} (m : NM A) :
  obeys same_role no_start m -> fairly uninitialized m (fun _ => uninitialized).
Proof.
  intros Hm n [H1 _] Hu. destruct (Hm n) as [[Hs Hid] Hev]. split_and!; [|unfold uninitialized; congruence|by apply fair_quiet].
  split; [congruence|]. rewrite Hs, Hu. done.
Qed.

Lemma kept_role {A} (m : NM A) : obeys keeps still m -> obeys same_role no_start m.
Proof. apply obeys_mono; [by intros a b (? & _ & _ & _ & _ & ? & _)|apply still_no_start]. Qed.

Lemma init_meta_storage_role ie : obeys same_role no_start (init_meta_storage (S:=S) (Mt:=Mt) ie).
Proof.
  assert (forall t v, obeys same_role no_start (save_meta (S:=S) (Mt:=Mt) t v)) as Hsave.
  { intros t v n. unfold save_meta, state_of, events_of. destruct (set_term_and_votedfor t v _). by split; [|constructor]. }
  unfold init_meta_storage.
  repeat first [ solve [by apply obeys_modify] | solve [apply Hsave] | solve [apply kept_role, lift_log_kept] | obey_step ].
Qed.

Lemma start_node_orderly ie : orderly (start_node (S:=S) (Mt:=Mt) env ie).
Proof.
  unfold start_node.
  repeat first [ solve [apply elect_self_orderly] | solve [apply calm_orderly; [apply step_down_calm|apply step_down_steady]]
               | solve [apply modify_orderly; intros n; repeat case_match; done]
               | solve [apply calm_orderly; [apply leave_calm; intros; repeat split; by left|by apply obeys_modify]]
               | obey_step ].
Qed.
End handlers.

(** Starting a process ends in a campaign under the configuration it has then. *)
Definition starts {A} (m : NM A) : Prop :=
  forall n, uninitialized n -> n.(_server_id) = self ->
  let n' := state_of (m n) in campaign (mkPast [n'.(_conf)] []) n'.

Lemma role_starts {A} (m : NM A) : obeys same_role no_start m -> starts m.
Proof.
  intros Hm n Hu Hs. destruct (Hm n) as [[Hst Hid] _]. split; [congruence|]. rewrite Hst, Hu. done.
Qed.

Lemma starts_bind {A B} (m : NM A) (f : A -> NM B) :
  obeys same_role no_start m -> (forall a, starts (f a)) -> starts (m ≫= f).
Proof.
  intros Hm Hf n Hu Hs. destruct (Hm n) as [[Hst Hid] _]. unfold mbind, M_bind, state_of in *.
  destruct (m n) as [[a n1] ev1]. simpl in *.
  specialize (Hf a n1 ltac:(unfold uninitialized; congruence) ltac:(congruence)). unfold state_of in Hf.
  by destruct (f a n1) as [[b n2] ev2].
Qed.

Lemma starts_or_fail (m k : NM Errno) : obeys same_role no_start m -> starts k -> starts (or_fail m k).
Proof.
  intros Hm Hk. apply starts_bind; [done|]. intros e. destruct (negb _); [|done].
  apply role_starts. by apply obeys_ret; exact _.
Qed.

Lemma starts_node env ie : starts (start_node env ie).
Proof.
  intros n Hu Hs. set (h := mkPast [n.(_conf)] []).
  destruct (start_node_orderly env h n.(_conf) (list_elem_of_here _ _) ie n) as [H _].
  destruct H as [H1 H2]; [split; [split; [done|]; rewrite Hu; done|done]|]. unfold at_conf in H2.
  change (campaign (mkPast [(state_of (start_node env ie n)).(_conf)] []) (state_of (start_node env ie n))).
  by rewrite H2.
Qed.

Lemma init_starts env ie : starts (NodeLog.init env ie).
Proof.
  assert (forall e : Errno, starts (mret e)) as Hret by (intros e; apply role_starts; by apply obeys_ret; exact _).
  unfold NodeLog.init. apply starts_bind; [by apply obeys_get; exact _|]. intros n0.
  destruct (_ =? IP_ANY); [apply Hret|]. destruct (negb (server_exists ie)); [apply Hret|].
  apply starts_bind; [apply kept_role, init_timers_keeps|]. intros _.
  destruct (negb (apply_queue_ok ie)); [apply Hret|].
  apply starts_bind; [apply kept_role, init_leases_keeps|]. intros _.
  apply starts_or_fail; [apply kept_role, init_log_storage_keeps|].
  apply starts_or_fail; [by apply obeys_ret; exact _|].
  apply starts_or_fail; [apply kept_role, init_ballot_box_keeps|].
  apply starts_or_fail; [apply kept_role, init_snapshot_storage_keeps|].
  apply starts_or_fail; [apply kept_role, check_log_consistency_keeps|].
  apply starts_bind; [apply kept_role, init_conf_keeps|]. intros _.
  apply starts_or_fail; [apply init_meta_storage_role|apply starts_node].
Qed.

(** ** A running process: its start and the calls since *)

(** The configurations recorded are those the node has after its start and after
    each call. *)
Inductive runs : Past -> list Event -> node -> Prop :=
| runs_start env ie s m options n ev :
    NodeLog.init env ie (NodeImpl self s m options) = (OK, n, ev) -> runs (mkPast [n.(_conf)] []) ev n
| runs_call h evs env c n n' ev :
    runs h evs n -> perform env c n = (tt, n', ev) ->
    runs (mkPast (h.(past_confs) ++ [n'.(_conf)]) (h.(past_calls) ++ [c])) (evs ++ ev) n'
| runs_background h evs m f n n' ev :
    runs h evs n -> background m f n = (tt, n', ev) -> runs h (evs ++ ev) n'.

Lemma background_steady m f : steadily (background m f : NM unit).
Proof. unfold background. by_steady. Qed.

Lemma runs_conf h evs n : runs h evs n -> n.(_conf) ∈ h.(past_confs).
Proof.
  induction 1 as [| |h evs m f n n' ev _ IH Hp]; simpl; [apply list_elem_of_here| |].
  - apply elem_of_app. right. apply list_elem_of_here.
  - destruct (background_steady m f n) as [Hs _]. unfold steady, state_of in Hs. rewrite Hp in Hs. simpl in Hs. by rewrite Hs.
Qed.

Lemma call_fair h c env n n' ev :
  campaign h n -> n.(_conf) ∈ h.(past_confs) -> perform env c n = (tt, n', ev) ->
  let h' := mkPast h.(past_confs) (h.(past_calls) ++ [c]) in campaign h' n' /\ fair h' ev.
Proof.
  intros Hc Hn Hp h'. assert (c ∈ h'.(past_calls)) as Hin by (apply elem_of_app; right; apply list_elem_of_here).
  pose proof (perform_fair env h' n.(_conf) Hn c Hin n) as H. unfold state_of, events_of in H. rewrite Hp in H.
  destruct H as (H1 & _ & H2); [|done|done]. eapply campaign_mono; [|done].
  split; [done|]. intros x ?. apply elem_of_app. by left.
Qed.

Lemma runs_campaign h evs n : runs h evs n -> campaign h n.
Proof.
  induction 1 as [env ie s m o n ev Hi|h evs env c n n' ev Hr IH Hp|h evs m f n n' ev _ IH Hp].
  - pose proof (init_starts env ie (NodeImpl self s m o) eq_refl eq_refl) as H. unfold state_of in H. by rewrite Hi in H.
  - destruct (call_fair h c env n n' ev IH (runs_conf _ _ _ Hr) Hp) as [H _].
    eapply campaign_mono; [|done]. split; [|done]. intros x ?. apply elem_of_app. by left.
  - destruct (background_kept m f n) as [Hk _]. unfold state_of in Hk. rewrite Hp in Hk.
    eapply calmed_campaigns; [by apply keeps_calmed|done].
Qed.

(** C2: a leader is elected by a quorum.  Whenever a call makes a running node
    the leader of a term (and no [CHECK] stops it), it was a candidate whose
    ballot, started with a configuration the node had since it started, is
    granted, and all the votes in it are the node's own or those of peers whose
    granted vote of that very term the node received. *)
Theorem elected_by_quorum h evs env c n n' ev t :
  runs h evs n -> perform env c n = (tt, n', ev) ->
  Replicators (ResetTerm t) ∈ ev -> CheckFailed ∉ ev ->
  exists e gs, e ∈ h.(past_confs) /\ granted (grant_all (ballot_for e) gs) = true /\
    forall g, g ∈ gs -> g.1 = self \/
      exists v r, CallVoteResponse g.1 t v r ∈ h.(past_calls) ++ [c] /\ r.(rs_granted) = true.
Proof.
  intros Hr Hp Ht Hck.
  destruct (call_fair h c env n n' ev (runs_campaign _ _ _ Hr) (runs_conf _ _ _ Hr) Hp) as [_ Hf].
  destruct (Hf t Ht) as [?|(e & gs & He & Hg & Hc)]; [done|]. by exists e, gs.
Qed.
End leadership.
