(* ===== verification/VoteExamples.v ===== *)
(** * VoteExamples: runs of a node

    A node over the in-memory log storage and a meta storage whose writes
    succeed or fail as told: the witnesses of the theorems on votes, and a run
    in which a failed write lets a node lead a term and vote for another
    candidate in the same term. *)

From S2P Require Import PeerText AppendEntriesCache MemoryLog LogManager ConfigurationManager LogStorage Lease BallotBox Ballot NodeState Node NodeLog NodeVote VoteSafety Leadership Types Prelude.

(** A meta storage: the results of the next writes, and what is stored. *)
Record TestMeta : Set := mkTestMeta { results : list bool; stored : Z * PeerId }.

Definition test_set (t : Z) (p : PeerId) (m : TestMeta) : Errno * TestMeta :=
  match m.(results) with
  | false :: rest => (EIO, mkTestMeta rest m.(stored))
  | true :: rest => (OK, mkTestMeta rest (t, p))
  | [] => (OK, mkTestMeta [] (t, p))
  end.

#[export] Instance TestMeta_storage : RaftMetaStorage TestMeta.
Proof.
  refine {| set_term_and_votedfor := test_set; meta_durable := stored |}.
  intros t p m e m'. unfold test_set. destruct (results m) as [|[] rest]; intros [= <- <-]; simpl; auto.
Defined.

#[export] Existing Instances lex_endpoint_order decimal_ip_text.

(** The other parts answer that all is well. *)
Definition example_env (now : Z) : Env := {|
  now_ms := now; gettimeofday_ms := now; enable_leader_lease := false; has_snapshot_executor := false;
  installing_snapshot := false; last_rpc_send_timestamp := fun _ => now; replicator_readonly := fun _ => false;
  add_replicator_ok := fun _ => true; wait_caughtup_ok := fun _ => true; next_candidate := None;
  transfer_result := OK; channel_ok := fun _ => true; timer_add := true; timer_del := true;
  step_down_when_vote_timedout := false; enable_append_entries_cache := false;
  max_append_entries_cache_size := 8; enable_witness_to_leader := false; election_heartbeat_factor := 10 |}.

Definition example_init : InitEnv MemoryLogStorage :=
  mkInitEnv true true (Some MemoryLogStorage_default) (fun s cm => (OK, s, cm)) OK (fun lm => (OK, lm)) true OK OK true.

Definition example_options : NodeOptions := mkNodeOptions 1000 1000 false 0 (example_conf [1; 2; 3]).

(** Node 1 of the group 1, 2, 3. *)
Definition example_node (writes : list bool) : Node MemoryLogStorage TestMeta :=
  NodeImpl (example_peer 1) MemoryLogStorage_default (mkTestMeta writes (1, PeerId_default)) example_options.

Fixpoint run_calls (calls : list Call) (n : Node MemoryLogStorage TestMeta)
  : Node MemoryLogStorage TestMeta * list Event :=
  match calls with
  | [] => (n, [])
  | c :: calls' =>
      let '(_, n1, ev) := perform (example_env 5000) c n in
      let '(n2, ev') := run_calls calls' n1 in (n2, ev ++ ev')
  end.

Definition start_and_run (writes : list bool) (calls : list Call) :=
  let '(e, n, ev) := NodeLog.init (example_env 1000) example_init (example_node writes) in
  let '(n', ev') := run_calls calls n in (e, n', ev ++ ev').

Definition vote_request (i term : Z) (r : Role) : RequestVoteRequest :=
  mkRequestVoteRequest (Some (mkPeerId (mkEndPoint 1 i) 0 r)) term LogId_default None.
Definition heartbeat (i term : Z) : AppendEntriesRequest :=
  mkAppendEntriesRequest (Some (example_peer i)) term 0 0 0 [] [].
Definition granted_response (term : Z) : RequestVoteResponse := mkRequestVoteResponse term true false false 1.

Lemma run_calls_steps (self : PeerId) w ev0 calls n n' ev :
  Forall (call_ok self) calls -> wsteps self w ev0 (Up n) -> run_calls calls n = (n', ev) ->
  wsteps self w (ev0 ++ ev) (Up n').
Proof.
  intros Hok. revert ev0 n ev. induction Hok as [|c calls Hc _ IH]; intros ev0 n ev Hs Hr; simpl in Hr.
  { simplify_eq. by rewrite app_nil_r. }
  destruct (perform _ c n) as [[[] n1] ev1] eqn:Hp. destruct (run_calls calls n1) as [n2 ev2] eqn:Hr2.
  simplify_eq. rewrite app_assoc. apply (IH (ev0 ++ ev1) n1); [|done].
  eapply wsteps_snoc; [done|]. by eapply WCall.
Qed.

Lemma start_and_run_steps writes calls n' ev :
  Forall (call_ok (example_peer 1)) calls -> start_and_run writes calls = (OK, n', ev) ->
  wsteps (example_peer 1) (Down (mkTestMeta writes (1, PeerId_default))) ev (Up n').
Proof.
  intros Hok. unfold start_and_run, example_node.
  destruct (NodeLog.init _ _ _) as [[e n] ev1] eqn:Hi. destruct (run_calls calls n) as [n2 ev2] eqn:Hr.
  intros [= -> -> <-]. eapply run_calls_steps; [done| |done].
  change ev1 with ([] ++ ev1). eapply wsteps_snoc; [apply wsteps_nil|]. by eapply WStart.
Qed.

(** Candidate 2 asks twice in term 5, the second time as a witness. *)
Definition two_requests : list Call :=
  [CallVoteRequest 1 (vote_request 2 5 REPLICA); CallResume 0 LogId_default;
   CallVoteRequest 2 (vote_request 2 5 WITNESS); CallResume 0 LogId_default].

Lemma two_requests_ok : Forall (call_ok (example_peer 1)) two_requests.
Proof. repeat constructor. Qed.

Lemma one_vote_per_term_witness :
  let ev := (start_and_run [] two_requests).2 in
  let as_witness := mkPeerId (mkEndPoint 1 2) 0 WITNESS in
  (5, example_peer 2) ∈ grants ev /\ (5, as_witness) ∈ grants ev /\ example_peer 2 ≡ as_witness.
Proof.
  intros ev p.
  assert ((5, example_peer 2) ∈ grants ev) as H1 by (vm_compute; apply list_elem_of_here).
  assert ((5, p) ∈ grants ev) as H2 by (vm_compute; apply list_elem_of_further, list_elem_of_here).
  split_and!; [done..|].
  refine (proj1 (one_vote_per_term (example_peer 1) eq_refl _ ev _
            (start_and_run_steps [] two_requests _ ev two_requests_ok _)) 5 _ _ H1 H2).
  vm_compute. reflexivity.
Defined.

(** The leader 2 hands over to this node, whose write of its own vote fails; a
    request of candidate 3 is waiting for the last log id when the old leader's
    vote arrives. *)
Definition failed_write : list Call :=
  [CallAppendEntries 1 (heartbeat 2 1); CallTimeoutNow 2 1 true; CallResume 0 LogId_default;
   CallVoteRequest 3 (vote_request 3 2 REPLICA);
   CallVoteResponse (example_peer 2) 2 1 (granted_response 2);
   CallResume 0 LogId_default].

(** When the write of its own vote fails, a node can still count that vote,
    become the leader of the term, and then vote for another candidate in the
    same term: no [CHECK] stops it. *)
Theorem leads_and_votes_after_failed_write :
  let '(e, n, ev) := start_and_run [false] failed_write in
  e = OK /\ Replicators (ResetTerm 2) ∈ ev /\ (2, example_peer 3) ∈ grants ev /\ CheckFailed ∉ ev.
Proof.
  vm_compute. split; [done|]. split.
  { repeat (first [apply list_elem_of_here | apply list_elem_of_further]). }
  split; [apply list_elem_of_here|].
  intros H. repeat (apply elem_of_cons in H as [H|H]; [discriminate H|]). by apply elem_of_nil in H.
Qed.

(** ** An election won *)

(** The old leader hands over, the election starts, peer 2 grants its vote. *)
Definition taking_over : list Call :=
  [CallAppendEntries 1 (heartbeat 2 1); CallTimeoutNow 2 1 true; CallResume 0 LogId_default].
Definition last_vote : Call := CallVoteResponse (example_peer 2) 2 1 (granted_response 2).

(** A run as [run_calls], with what it remembers. *)
Fixpoint past_of (calls : list Call) (h : Past) (n : Node MemoryLogStorage TestMeta) : Past :=
  match calls with
  | [] => h
  | c :: calls' =>
      let '(_, n1, _) := perform (example_env 5000) c n in
      past_of calls' (mkPast (h.(past_confs) ++ [n1.(_conf)]) (h.(past_calls) ++ [c])) n1
  end.

Lemma run_calls_runs (self : PeerId) h ev0 calls n n' ev :
  runs self h ev0 n -> run_calls calls n = (n', ev) -> runs self (past_of calls h n) (ev0 ++ ev) n'.
Proof.
  revert h ev0 n ev. induction calls as [|c calls IH]; intros h ev0 n ev Hs Hr; simpl in Hr |- *.
  { simplify_eq. by rewrite app_nil_r. }
  destruct (perform _ c n) as [[[] n1] ev1] eqn:Hp. destruct (run_calls calls n1) as [n2 ev2] eqn:Hr2.
  simplify_eq. rewrite app_assoc. apply IH; [|done]. by eapply runs_call.
Qed.

Definition started (writes : list bool) : Node MemoryLogStorage TestMeta :=
  (NodeLog.init (example_env 1000) example_init (example_node writes)).1.2.
Definition candidate : Node MemoryLogStorage TestMeta := (run_calls taking_over (started [])).1.

Definition candidate_past : Past := past_of taking_over (mkPast [(started []).(_conf)] []) (started []).

Lemma candidate_past_calls : candidate_past.(past_calls) = taking_over.
Proof. vm_compute. reflexivity. Qed.

Lemma candidate_runs :
  runs (example_peer 1) candidate_past
    ((NodeLog.init (example_env 1000) example_init (example_node [])).2 ++ (run_calls taking_over (started [])).2) candidate.
Proof.
  apply run_calls_runs; [|by unfold candidate; destruct (run_calls _ _)].
  unfold started. pose proof (runs_start (example_peer 1) (example_env 1000) example_init) as H.
  destruct (NodeLog.init _ _ _) as [[e n] ev] eqn:Hi. apply (H MemoryLogStorage_default (mkTestMeta [] (1, PeerId_default)) example_options).
  change (NodeImpl _ _ _ _) with (example_node []). rewrite Hi. f_equal. f_equal.
  change e with (e, n, ev).1.1. rewrite <- Hi. vm_compute. reflexivity.
Qed.

Lemma elected_by_quorum_witness :
  let ev := (perform (example_env 5000) last_vote candidate).2 in
  Replicators (ResetTerm 2) ∈ ev /\
  exists e gs, granted (grant_all (ballot_for e) gs) = true /\ forall g, g ∈ gs -> g.1 = example_peer 1 \/
    exists v r, CallVoteResponse g.1 2 v r ∈ taking_over ++ [last_vote] /\ r.(rs_granted) = true.
Proof.
  intros ev.
  assert (Replicators (ResetTerm 2) ∈ ev) as Ht
    by (vm_compute; repeat (first [apply list_elem_of_here | apply list_elem_of_further])).
  assert (CheckFailed ∉ ev) as Hc.
  { vm_compute. intros H. repeat (apply elem_of_cons in H as [H|H]; [discriminate H|]). by apply elem_of_nil in H. }
  split; [done|].
  assert (perform (example_env 5000) last_vote candidate =
          (tt, (perform (example_env 5000) last_vote candidate).1.2, ev)) as Hp
    by (subst ev; by destruct (perform _ _ _) as [[[] ?] ?]).
  destruct (elected_by_quorum (example_peer 1) _ _ _ _ _ _ ev 2 candidate_runs Hp Ht Hc) as (e & gs & _ & Hg & Hgs).
  rewrite candidate_past_calls in Hgs. exists e, gs. exact (conj Hg Hgs).
Defined.
