(* ===== verification/LeaderBallots.v ===== *)
(** * LeaderBallots: the pending ballots of a leader are those of its last entries

    While a node leads, the ballots pending in its ballot box are those of the
    entries at the end of its log, one for each and in order; a node that does
    not lead has no pending ballot.  The invariant is kept by every handler
    under any interleaving, as long as no [CHECK] stops the process and the log
    manager has not reported an error. *)

From S2P Require Import PeerText AppendEntriesCache LogManager LogStorage BallotBox Ballot ClosureQueue NodeState Node NodeLog NodeVote VoteSafety Types Prelude.

(** ** The log manager's last index *)
Section log.
Context {S : Type} `{LS : LogStorage S} `{EPO : EndPointOrder}.
Abbreviation LM := (M (LogManager S) LogManager.Event).

(** The last index stays, and an error that was reported stays reported. *)
Definition log_rests (m m' : LogManager S) : Prop :=
  m'.(_last_log_index) = m.(_last_log_index) /\ (m'.(_has_error) = false -> m.(_has_error) = false).

#[export] Instance log_rests_preorder : PreOrder log_rests.
Proof. split; [done|]. intros a b c [? ?] [? ?]. split; [congruence|auto]. Qed.

Definition any_log_event (e : LogManager.Event) : Prop := True.
Abbreviation log_resting := (obeys log_rests any_log_event).

Ltac log_rest := repeat first [ solve [by apply obeys_modify] | obey_step ].

Lemma log_check_rests b : log_resting (LogManager.check (S:=S) b).
Proof. unfold LogManager.check. log_rest. Qed.
Lemma report_error_rests e : log_resting (report_error (S:=S) e).
Proof. unfold report_error. log_rest. Qed.
Lemma queue_disk_rests t : log_resting (queue_disk (S:=S) t).
Proof. unfold queue_disk. log_rest. Qed.
Lemma emits_rests es : log_resting (emits es : LM unit).
Proof. split; [done|by apply Forall_true]. Qed.
Hint Resolve log_check_rests report_error_rests queue_disk_rests emits_rests : obeys.
Lemma get_entry_rests i : log_resting (LogManager.get_entry (S:=S) i).
Proof. unfold LogManager.get_entry. log_rest. Qed.
Lemma last_log_id_rests b c : log_resting (last_log_id (S:=S) b c).
Proof. unfold last_log_id. log_rest. Qed.
Lemma wakeup_all_waiter_rests : log_resting (wakeup_all_waiter (S:=S)).
Proof. unfold wakeup_all_waiter. log_rest. Qed.
Hint Resolve wakeup_all_waiter_rests : obeys.
Lemma shutdown_rests : log_resting (LogManager.shutdown (S:=S)).
Proof. unfold LogManager.shutdown. log_rest. Qed.
Lemma add_configuration_rests e : log_resting (add_configuration (S:=S) e).
Proof.
  unfold add_configuration. destruct (bool_decide _); [|log_rest].
  apply obeys_bind; [exact _|log_rest|]. intros m. destruct (ConfigurationManager.add _ _) as [[? ?] ?]. log_rest.
Qed.
Hint Resolve add_configuration_rests : obeys.
Lemma store_entries_rests es d : log_resting (store_entries (S:=S) es d).
Proof. unfold store_entries. log_rest. Qed.

(** The background operations. *)
Lemma set_applied_id_rests i : log_resting (set_applied_id (S:=S) i).
Proof. unfold set_applied_id, clear_memory_logs. log_rest. Qed.
Lemma append_to_storage_rests es i : log_resting (append_to_storage (S:=S) es i).
Proof.
  unfold append_to_storage. apply obeys_bind; [exact _|log_rest|]. intros m. destruct (_has_error m); [log_rest|].
  destruct (ls_append_entries _ _) as [k s]. log_rest.
Qed.
Hint Resolve append_to_storage_rests : obeys.
Lemma flush_rests b i : log_resting (flush (S:=S) b i).
Proof. unfold flush. log_rest. Qed.
Hint Resolve flush_rests : obeys.
Lemma batch_append_rests k b i d : log_resting (batch_append (S:=S) k b i d).
Proof. unfold batch_append. log_rest. Qed.
Hint Resolve batch_append_rests : obeys.
Lemma disk_task_rests k t b i : log_resting (disk_task (S:=S) k t b i).
Proof.
  unfold disk_task. cbv zeta.
  repeat first [ solve [by apply obeys_modify] | obey_step ].
Qed.
Hint Resolve disk_task_rests : obeys.
Lemma disk_loop_rests k ts b i : log_resting (disk_loop (S:=S) k ts b i).
Proof. revert b i. induction ts as [|t ts IH]; intros b i; simpl; log_rest. Qed.
Hint Resolve disk_loop_rests set_applied_id_rests : obeys.

(** So the disk thread may run in the background of a leader. *)
Lemma disk_thread_rests k j : log_resting (disk_thread (S:=S) k j).
Proof. unfold disk_thread, set_disk_id, clear_memory_logs. log_rest. Qed.

(** A leader's entries, which have no index yet, are all appended unless an error was reported. *)
Definition log_grows (k : Z) (m m' : LogManager S) : Prop :=
  m'.(_has_error) = false -> m.(_has_error) = false /\ m'.(_last_log_index) = m.(_last_log_index) + k.

Lemma append_entries_leader es d (m : LogManager S) :
  Forall (fun e => e.(id).(Types.index) = 0) es ->
  log_grows (zlen es) m (state_of (LogManager.append_entries es d m)).
Proof.
  intros Hes. unfold LogManager.append_entries, log_grows. unfold state_of. rewrite get_bind.
  destruct (_has_error m) eqn:He; [simpl; congruence|]. split; [done|].
  destruct es as [|front es].
  { destruct (store_entries_rests [] d m) as [[Hl _] _]. unfold state_of in Hl. rewrite Hl, zlen_nil. lia. }
  apply Forall_cons in Hes as [Hf _].
  destruct (last (front :: es)) as [back|] eqn:Hback; [|by apply last_None in Hback].
  unfold check_and_resolve_conflict. run. rewrite Hf. simpl.
  match goal with |- context [store_entries ?e ?d ?m1] => destruct (store_entries_rests e d m1) as [[Hl _] _] end.
  unfold state_of in Hl. destruct (store_entries _ _ _) as [[u m2] ev]. simpl in *. exact Hl.
Qed.
End log.

(** ** The ballot box *)
Section box.
Context `{EPO : EndPointOrder}.

(** The index after the last pending ballot. *)
Definition box_end (bb : BallotBox) : Z := bb.(_pending_index) + zlen bb.(_pending_meta_queue).

Lemma commit_loop_range k pending peer q hint i lc :
  let '(q', lc') := commit_loop k pending peer q hint i lc in
  length q' = length q /\ (lc' = lc \/ i <= lc' < pending + zlen q).
Proof.
  revert q hint i lc. induction k as [|k IH]; intros q hint i lc; simpl; [split; [done|by left]|].
  destruct (zget q (i - pending)) as [bl|] eqn:Hq; [|split; [done|by left]].
  assert (i < pending + zlen q) as Hi.
  { apply zget_Some in Hq as [? Hl%lookup_lt_Some]. unfold zlen. lia. }
  destruct (Ballot.grant bl peer hint) as [bl' hint']. set (q1 := <[_ := bl']> q).
  specialize (IH q1 hint' (i + 1) (if granted bl' then i else lc)).
  assert (length q1 = length q) as Hlen by apply length_insert.
  destruct (commit_loop k _ _ _ _ _ _) as [q' lc']. destruct IH as [H1 H2]. unfold zlen in *. rewrite H1, Hlen in *.
  split; [done|]. destruct H2 as [->|?]; [destruct (granted bl'); [right; lia|by left]|right; lia].
Qed.

Lemma commit_at_end bb first last peer :
  let bb' := (commit_at bb first last peer).1.2 in
  box_end bb' = box_end bb /\ (bb.(_pending_index) = 0 -> bb' = bb).
Proof.
  unfold commit_at. destruct (Z.eqb_spec (_pending_index bb) 0); [done|].
  destruct (last <? _); [done|]. destruct (_ <=? last); [done|].
  pose proof (commit_loop_range (Z.to_nat (last - Z.max (_pending_index bb) first + 1)) (_pending_index bb) peer
    (_pending_meta_queue bb) PosHint_default (Z.max (_pending_index bb) first) 0) as H.
  destruct (commit_loop _ _ _ _ _ _ _) as [q' lc]. destruct H as [Hlen Hlc].
  destruct (Z.eqb_spec lc 0); unfold box_end, zlen in *; simpl; (split; [|done]); [by rewrite Hlen|].
  rewrite length_drop. lia.
Qed.
End box.

(** ** The invariant of a node *)
Section node.
Context {S Mt : Type} `{LS : LogStorage S} `{MS : RaftMetaStorage Mt} `{EPO : EndPointOrder} `{IT : IpText}.

Abbreviation node := (Node S Mt).
Abbreviation NM := (M node Event).
Abbreviation poll_version n := (n.(_pre_vote_ctx).(_version)).

Definition leads (s : State) : Prop := state_num s <= state_num STATE_TRANSFERRING.
Definition idle (s : State) : Prop := state_num STATE_CANDIDATE < state_num s.

(** The terms of the pre-votes that are suspended. *)
Definition prevote_of (x : Closure * Cont * option LogId) : option Z :=
  match x.1.2 with CPreVote t _ => Some t | _ => None end.
Definition prevotes (n : node) : list Z := omap prevote_of n.(_suspended).

(** A suspended pre-vote of the current term, and a pre-vote timer of the
    current version, out of those [h] that were started, belong to an idle node. *)
Definition polls_idle (h : list Z) (n : node) : Prop :=
  (forall v, v ∈ h -> v <= poll_version n /\ (v = poll_version n -> idle n.(_state))) /\
  (forall t, t ∈ prevotes n -> t <= n.(_current_term) /\ (t = n.(_current_term) -> idle n.(_state))).

(** The node leads, and the ballots pending are those of the last entries and of
    [k] more. *)
Definition lead_by (k : Z) (h : list Z) (n : node) : Prop :=
  polls_idle h n /\ leads n.(_state) /\
  (n.(_log_manager).(_has_error) = false ->
   box_end n.(_ballot_box) = n.(_log_manager).(_last_log_index) + 1 + k).

(** The node does not lead, and no ballot is pending. *)
Definition not_leading (h : list Z) (n : node) : Prop :=
  polls_idle h n /\ ~ leads n.(_state) /\
  n.(_ballot_box).(_pending_index) = 0 /\ n.(_ballot_box).(_pending_meta_queue) = [].

Definition sound (h : list Z) (n : node) : Prop := lead_by 0 h n \/ not_leading h n.

Definition sound_at (P : State -> Prop) (h : list Z) (n : node) : Prop := sound h n /\ P n.(_state).

(** ** Operations that leave the role, the ballots and the log alone *)
Definition follows (n n' : node) : Prop :=
  n'.(_state) = n.(_state) /\
  n'.(_ballot_box).(_pending_index) = n.(_ballot_box).(_pending_index) /\
  n'.(_ballot_box).(_pending_meta_queue) = n.(_ballot_box).(_pending_meta_queue) /\
  n.(_current_term) <= n'.(_current_term) /\ poll_version n <= poll_version n' /\ prevotes n' ⊆ prevotes n.

#[export] Instance follows_preorder : PreOrder follows.
Proof.
  split; [intros n; repeat split; try lia; done|].
  intros a b c (? & ? & ? & ? & ? & ?) (? & ? & ? & ? & ? & ?). split_and!; try congruence; try lia. set_solver.
Qed.

Definition rests (n n' : node) : Prop := follows n n' /\ log_rests n.(_log_manager) n'.(_log_manager).

#[export] Instance rests_preorder : PreOrder rests.
Proof. split; [done|]. intros a b c [? ?] [? ?]. split; [by transitivity b|by transitivity (b.(_log_manager))]. Qed.

(** No pre-vote timer is started. *)
Definition timer_of (e : Event) : option Z :=
  match e with StartGrantSelfTimer PreVote v _ => Some v | _ => None end.
Definition untimed (e : Event) : Prop := timer_of e = None.
Definition timers (ev : list Event) : list Z := omap timer_of ev.

Lemma untimed_timers ev : Forall untimed ev -> timers ev = [].
Proof. induction 1 as [|e ev He _ IH]; [done|]. unfold timers in *. simpl. by rewrite He. Qed.

Abbreviation resting := (obeys rests untimed).

Lemma polls_idle_follows h n n' : follows n n' -> polls_idle h n -> polls_idle h n'.
Proof.
  intros (Hs & _ & _ & Ht & Hv & Hp) [H1 H2]. split.
  - intros v Hin. destruct (H1 v Hin) as [Hle Hidle]. rewrite Hs. split; [lia|]. intros ->. apply Hidle. lia.
  - intros t Hin. apply Hp in Hin. destruct (H2 t Hin) as [Hle Hidle]. rewrite Hs. split; [lia|]. intros ->. apply Hidle. lia.
Qed.

Lemma lead_by_rests k h n n' : rests n n' -> lead_by k h n -> lead_by k h n'.
Proof.
  intros [Hf [Hl He]] (Hp & Hs & Hb). split; [by eapply polls_idle_follows|]. destruct Hf as (-> & H1 & H2 & _).
  split; [done|]. intros Herr. unfold box_end in *. rewrite H1, H2, Hl. auto.
Qed.

Lemma not_leading_follows h n n' : follows n n' -> not_leading h n -> not_leading h n'.
Proof.
  intros Hf (Hp & Hs & H1 & H2). split; [by eapply polls_idle_follows|]. destruct Hf as (-> & -> & -> & _). done.
Qed.

Lemma sound_rests P h n n' : rests n n' -> sound_at P h n -> sound_at P h n'.
Proof.
  intros Hr [[Hs|Hs] HP]; (split; [|by destruct Hr as [(-> & _) _]]).
  - left. by eapply lead_by_rests.
  - right. destruct Hr. by eapply not_leading_follows.
Qed.

Lemma sound_leads h n : sound_at leads h n <-> lead_by 0 h n.
Proof. split; [intros [[?|(_ & ? & _)] ?]; done|]. intros H. split; [by left|apply H]. Qed.

Lemma sound_not_leading P h n : (forall s, P s -> ~ leads s) -> sound_at P h n -> not_leading h n /\ P n.(_state).
Proof. intros HP [[(_ & ? & _)|?] ?]; [by destruct (HP n.(_state))|done]. Qed.

(** ** Running a part of the node *)
Lemma lift_log_rests {A} (m : M (LogManager S) LogManager.Event A) :
  obeys log_rests any_log_event m -> resting (lift_log (Mt:=Mt) m).
Proof.
  intros Hm n. destruct (Hm n.(_log_manager)) as [Hr _]. unfold lift_log, state_of, events_of in *.
  destruct (m _) as [[a lm] ev]. split; [|apply Forall_forall; by intros e (x & -> & _)%list_elem_of_fmap].
  split; [|exact Hr]. by repeat split; simpl; try lia.
Qed.

(** Operations of the ballot box that leave the pending ballots alone. *)
Definition box_rests {A} (f : BallotBox -> A * BallotBox * list BallotBox.Event) : Prop :=
  forall bb, let bb' := (f bb).1.2 in
  bb'.(_pending_index) = bb.(_pending_index) /\ bb'.(_pending_meta_queue) = bb.(_pending_meta_queue).

Lemma lift_box_rests {A} (f : BallotBox -> A * BallotBox * list BallotBox.Event) :
  box_rests f -> resting (lift_box (S:=S) (Mt:=Mt) f).
Proof.
  intros Hf n. specialize (Hf n.(_ballot_box)). unfold lift_box, state_of, events_of.
  destruct (f _) as [[a bb] ev]. simpl in *. destruct Hf.
  split; [|apply Forall_forall; by intros e (x & -> & _)%list_elem_of_fmap]. split; [|done].
  by repeat split; simpl; try lia.
Qed.

Lemma set_last_committed_index_rests i : box_rests (fun bb => set_last_committed_index bb i).
Proof. intros bb. unfold set_last_committed_index. by repeat case_match. Qed.

Lemma lift_cache_rests {A} c (m : M AppendEntriesCache AppendEntriesCache.Event A) :
  resting (lift_cache (S:=S) (Mt:=Mt) c m).
Proof.
  intros n. unfold lift_cache, state_of, events_of. destruct (m c) as [[a c'] ev].
  split; [|apply Forall_forall; by intros e (x & -> & _)%list_elem_of_fmap]. split; [|done].
  by repeat split; simpl; try lia.
Qed.

Lemma modify_rests (f : node -> node) : (forall n, rests n (f n)) -> resting (modify f).
Proof. apply obeys_modify. Qed.

Lemma save_meta_rests t v : resting (save_meta (S:=S) (Mt:=Mt) t v).
Proof.
  intros n. unfold save_meta, state_of, events_of. destruct (set_term_and_votedfor _ _ _) as [e m'].
  split; [|constructor]. split; [|done]. by repeat split; simpl; try lia.
Qed.

Lemma ctx_reset_version b v : (ctx_reset b v).(_version) = v.(_version) + 1.
Proof. unfold ctx_reset, stop_grant_self_timer. by destruct (NodeState._timer v), b. Qed.

Lemma modify_ctx_rests w f : (forall v, v.(_version) <= (f v).(_version)) -> resting (modify_ctx (S:=S) (Mt:=Mt) w f).
Proof. intros Hf. apply modify_rests. intros n. destruct w; (split; [|done]); by repeat split; simpl; try lia. Qed.

(** Suspending anything but a pre-vote. *)
Lemma suspend_rests c k a (n : node) :
  prevote_of (c, k, a) = None -> rests n (n <| _suspended := n.(_suspended) ++ [(c, k, a)] |>).
Proof.
  intros Hk. split; [|done]. repeat split; simpl; try lia. unfold prevotes. simpl. rewrite omap_app. simpl.
  unfold prevote_of in *. simpl in *. rewrite Hk. by rewrite app_nil_r.
Qed.

Lemma wait_rests k : (forall t b, k <> CPreVote t b) -> resting (wait_last_log_id (S:=S) (Mt:=Mt) k).
Proof.
  intros Hk. unfold wait_last_log_id. apply obeys_bind; [exact _|by apply obeys_get; exact _|]. intros n0.
  apply obeys_bind; [exact _| |intros _; apply obeys_bind; [exact _|apply lift_log_rests, last_log_id_rests|]].
  - apply modify_rests. intros n. split; [|done]. by repeat split; simpl; try lia.
  - intros a. apply modify_rests. intros n. apply suspend_rests. unfold prevote_of. simpl. destruct k; try done.
    by destruct (Hk old_term triggered).
Qed.

Ltac rest_leaf :=
  match goal with
  | |- obeys rests _ (modify _) =>
      apply modify_rests; intros; repeat case_match; (split; [|done]); repeat split; simpl; rewrite ?ctx_reset_version; try lia; done
  | |- obeys rests _ (modify_ctx _ _) =>
      apply modify_ctx_rests; intros; simpl; unfold stop_grant_self_timer; repeat case_match; simpl;
      unfold ctx_init; simpl; rewrite ?ctx_reset_version; simpl; lia
  end.
Ltac by_rest := repeat first [rest_leaf | obey_step].
Hint Resolve save_meta_rests lift_cache_rests : obeys.
Hint Extern 1 (obeys rests _ (lift_box _)) => apply lift_box_rests, set_last_committed_index_rests : obeys.
Hint Extern 1 (obeys rests _ (lift_log (last_log_id _ _))) => apply lift_log_rests, last_log_id_rests : obeys.
Hint Extern 1 (obeys rests _ (lift_log (LogManager.get_entry _))) => apply lift_log_rests, get_entry_rests : obeys.
Hint Extern 1 (obeys rests _ (lift_log LogManager.shutdown)) => apply lift_log_rests, shutdown_rests : obeys.
Hint Extern 1 (obeys rests _ (wait_last_log_id _)) => apply wait_rests; done : obeys.

Section handlers.
Context (env : Env).

(** ** Handlers that rest *)
Lemma check_rests b : resting (Node.check (S:=S) (Mt:=Mt) b).
Proof. unfold Node.check. by_rest. Qed.
Lemma run_closure_rests c e : resting (run_closure (S:=S) (Mt:=Mt) c e).
Proof. unfold run_closure. by_rest. Qed.
Lemma run_closure_nonnull_rests c e : resting (run_closure_nonnull (S:=S) (Mt:=Mt) c e).
Proof. unfold run_closure_nonnull. by_rest. Qed.
Lemma new_closure_rests k : resting (new_closure (S:=S) (Mt:=Mt) k).
Proof. unfold new_closure. by_rest. Qed.
Hint Resolve check_rests run_closure_rests run_closure_nonnull_rests new_closure_rests : obeys.
Lemma check_and_set_conf_rests : resting (check_and_set_conf (S:=S) (Mt:=Mt)).
Proof. unfold check_and_set_conf. by_rest. Qed.
Lemma check_majority_nodes_readonly_conf_rests c : resting (check_majority_nodes_readonly_conf (S:=S) (Mt:=Mt) env c).
Proof. unfold check_majority_nodes_readonly_conf. by_rest. Qed.
Lemma delete_empty_cache_rests : resting (delete_empty_cache (S:=S) (Mt:=Mt)).
Proof. unfold delete_empty_cache. by_rest. Qed.
Hint Resolve check_and_set_conf_rests check_majority_nodes_readonly_conf_rests delete_empty_cache_rests : obeys.
Lemma check_majority_nodes_readonly_rests : resting (check_majority_nodes_readonly (S:=S) (Mt:=Mt) env).
Proof. unfold check_majority_nodes_readonly. by_rest. Qed.
Lemma check_append_entries_cache_rests i : resting (check_append_entries_cache (S:=S) (Mt:=Mt) env i).
Proof. unfold check_append_entries_cache. by_rest. Qed.
Lemma clear_append_entries_cache_rests : resting (clear_append_entries_cache (S:=S) (Mt:=Mt) env).
Proof. unfold clear_append_entries_cache. by_rest. Qed.
Lemma stop_replicator_rests k d : resting (stop_replicator (S:=S) (Mt:=Mt) k d).
Proof. unfold stop_replicator. by_rest. Qed.
Hint Resolve check_majority_nodes_readonly_rests check_append_entries_cache_rests clear_append_entries_cache_rests stop_replicator_rests : obeys.
Lemma conf_ctx_reset_rests st : resting (conf_ctx_reset (S:=S) (Mt:=Mt) env st).
Proof. unfold conf_ctx_reset. by_rest. Qed.
Lemma reset_leader_id_rests p e : resting (reset_leader_id (S:=S) (Mt:=Mt) env p e).
Proof. unfold reset_leader_id. by_rest. Qed.
Lemma raise_term_rests t : resting (raise_term (S:=S) (Mt:=Mt) t).
Proof.
  intros n. unfold raise_term, when, save_meta. run. destruct (Z.ltb_spec (_current_term n) t); [|by split].
  simpl. destruct (set_term_and_votedfor _ _ _) as [e m]. simpl. split; [|constructor].
  split; [|done]. by repeat split; simpl; try lia.
Qed.
Hint Resolve conf_ctx_reset_rests reset_leader_id_rests raise_term_rests : obeys.
Lemma leader_lease_start_rests e : resting (leader_lease_start (S:=S) (Mt:=Mt) env e).
Proof. unfold leader_lease_start. by_rest. Qed.
Lemma poll_peers_rests w c r : resting (poll_peers (S:=S) (Mt:=Mt) env w c r).
Proof. unfold poll_peers. by_rest. Qed.
Hint Resolve leader_lease_start_rests poll_peers_rests : obeys.
Lemma request_peers_to_vote_rests c d : resting (request_peers_to_vote (S:=S) (Mt:=Mt) env c d).
Proof. unfold request_peers_to_vote. by_rest. Qed.
Lemma enter_readonly_mode_rests : resting (enter_readonly_mode (S:=S) (Mt:=Mt)).
Proof. unfold enter_readonly_mode. by_rest. Qed.
Lemma leave_readonly_mode_rests : resting (leave_readonly_mode (S:=S) (Mt:=Mt)).
Proof. unfold leave_readonly_mode. by_rest. Qed.
Lemma change_readonly_config_rests t p b : resting (change_readonly_config (S:=S) (Mt:=Mt) env t p b).
Proof. unfold change_readonly_config. by_rest. Qed.
Lemma handle_append_entries_cache_timedout_rests v c t : resting (handle_append_entries_cache_timedout (S:=S) (Mt:=Mt) env v c t).
Proof. unfold handle_append_entries_cache_timedout. by_rest. Qed.
Lemma handle_out_of_order_append_entries_rests c r i : resting (handle_out_of_order_append_entries (S:=S) (Mt:=Mt) env c r i).
Proof. unfold handle_out_of_order_append_entries. by_rest. Qed.
Lemma unsafe_reset_election_timeout_ms_rests e d : resting (unsafe_reset_election_timeout_ms (S:=S) (Mt:=Mt) env e d).
Proof. unfold unsafe_reset_election_timeout_ms. by_rest. Qed.
Hint Resolve request_peers_to_vote_rests enter_readonly_mode_rests leave_readonly_mode_rests change_readonly_config_rests handle_append_entries_cache_timedout_rests handle_out_of_order_append_entries_rests unsafe_reset_election_timeout_ms_rests : obeys.
Lemma reset_election_timeout_ms_rests e : resting (Node.reset_election_timeout_ms (S:=S) (Mt:=Mt) env e).
Proof. unfold Node.reset_election_timeout_ms. by_rest. Qed.
Lemma do_snapshot_rests d : resting (do_snapshot (S:=S) (Mt:=Mt) env d).
Proof. unfold do_snapshot. by_rest. Qed.
Lemma reject_task_rests e t : resting (reject_task (S:=S) (Mt:=Mt) e t).
Proof. unfold reject_task. by_rest. Qed.
Hint Resolve reset_election_timeout_ms_rests do_snapshot_rests reject_task_rests : obeys.
Lemma vote_rests e : resting (Node.vote (S:=S) (Mt:=Mt) env e).
Proof. unfold Node.vote. by_rest. Qed.
Lemma handle_snapshot_timeout_rests : resting (handle_snapshot_timeout (S:=S) (Mt:=Mt) env).
Proof. unfold handle_snapshot_timeout. by_rest. Qed.
Lemma follower_stable_run_rests c r t e : resting (follower_stable_run (S:=S) (Mt:=Mt) c r t e).
Proof. unfold follower_stable_run. by_rest. Qed.
Lemma reject_unmatched_rests c r b : resting (reject_unmatched (S:=S) (Mt:=Mt) env c r b).
Proof. unfold reject_unmatched. by_rest. Qed.
Lemma accept_heartbeat_rests c r : resting (accept_heartbeat (S:=S) (Mt:=Mt) c r).
Proof. unfold accept_heartbeat. by_rest. Qed.
Hint Resolve vote_rests handle_snapshot_timeout_rests follower_stable_run_rests reject_unmatched_rests accept_heartbeat_rests : obeys.
Lemma pre_vote_reply_rests c r b1 b2 : resting (pre_vote_reply (S:=S) (Mt:=Mt) c r b1 b2).
Proof. unfold pre_vote_reply. by_rest. Qed.
Lemma request_vote_reply_rests c r p b1 t b2 : resting (request_vote_reply (S:=S) (Mt:=Mt) c r p b1 t b2).
Proof. unfold request_vote_reply. by_rest. Qed.
Hint Resolve pre_vote_reply_rests request_vote_reply_rests : obeys.
Lemma handle_pre_vote_request_rests c r : resting (handle_pre_vote_request (S:=S) (Mt:=Mt) c r).
Proof. unfold handle_pre_vote_request. by_rest. Qed.
Lemma pre_vote_request_locked_rests c r l : resting (pre_vote_request_locked (S:=S) (Mt:=Mt) env c r l).
Proof. unfold pre_vote_request_locked. by_rest. Qed.
Lemma handle_request_vote_request_rests c r : resting (handle_request_vote_request (S:=S) (Mt:=Mt) c r).
Proof. unfold handle_request_vote_request. by_rest. Qed.
Hint Resolve handle_pre_vote_request_rests pre_vote_request_locked_rests handle_request_vote_request_rests : obeys.
Lemma read_user_log_rests k i j : resting (read_user_log (S:=S) (Mt:=Mt) k i j).
Proof. revert i. induction k as [|k IH]; intros i; simpl; by_rest. Qed.
Lemma read_committed_user_log_rests i j : resting (read_committed_user_log (S:=S) (Mt:=Mt) i j).
Proof. unfold read_committed_user_log. by_rest. apply read_user_log_rests. Qed.
Lemma retry_vote_on_reserved_peers_rests : resting (retry_vote_on_reserved_peers (S:=S) (Mt:=Mt) env).
Proof.
  unfold retry_vote_on_reserved_peers. intros n. rewrite get_bind. unfold pop_grantable_peers.
  destruct (_ =? -1); unfold modify_ctx; rewrite modify_bind;
    match goal with |- context [when ?b ?m] => assert (resting (when b m)) as Hr by by_rest end;
    (match goal with |- context [when ?b ?m ?n1] => destruct (Hr n1) as [H1 H2] end);
    (split; [|done]); (etransitivity; [|exact H1]); (split; [|done]); by repeat split; simpl; try lia.
Qed.
End handlers.
End node.
