(* ===== verification/BallotAlignment.v ===== *)
(** * BallotAlignment: every handler keeps a leader's ballots aligned with its log

    Triples over the invariant of LeaderBallots, the handlers that change the
    role, the pending ballots or the log, and the theorem on every life of a
    node. *)

From S2P Require Import PeerText AppendEntriesCache LogManager LogStorage BallotBox Ballot ClosureQueue NodeState Node NodeLog NodeVote VoteSafety LeaderBallots Types Prelude.

Section node.
Context {S Mt : Type} `{LS : LogStorage S} `{MS : RaftMetaStorage Mt} `{EPO : EndPointOrder} `{IT : IpText}.

Abbreviation node := (Node S Mt).
Abbreviation NM := (M node Event).
Abbreviation resting := (obeys rests untimed).
Abbreviation poll_version n := (n.(_pre_vote_ctx).(_version)).
Abbreviation Assertion := (list Z -> node -> Prop).

(** ** Triples

    From a state and started timers that satisfy [P], either a [CHECK] fails or
    [Q] holds of the value, the timers started by then, and the state. *)
Definition safe {A} (P : Assertion) (m : NM A) (Q : A -> Assertion) : Prop :=
  forall h n, P h n ->
  CheckFailed ∈ events_of (m n) \/ Q (value_of (m n)) (h ++ timers (events_of (m n))) (state_of (m n)).

Lemma safe_bind {A B} P (m : NM A) Q (f : A -> NM B) R :
  safe P m Q -> (forall a, safe (Q a) (f a) R) -> safe P (m ≫= f) R.
Proof.
  intros Hm Hf h n HP. specialize (Hm h n HP). unfold mbind, M_bind, value_of, state_of, events_of in *.
  destruct (m n) as [[a n1] e1]. simpl in *. destruct Hm as [Hc|Hm].
  { left. destruct (f a n1) as [[b n2] e2]. apply elem_of_app. by left. }
  specialize (Hf a _ n1 Hm). unfold value_of, state_of, events_of in *. destruct (f a n1) as [[b n2] e2]. simpl in *.
  destruct Hf as [Hc|Hf]; [left; apply elem_of_app; by right|right].
  unfold timers in *. by rewrite omap_app, app_assoc.
Qed.

Lemma safe_get {B} P (f : node -> NM B) R :
  (forall n0, safe (fun h n => n = n0 /\ P h n) (f n0) R) -> safe P (get ≫= f) R.
Proof. intros Hf h n HP. rewrite get_bind. by apply (Hf n). Qed.

Lemma safe_weaken {A} P P' (m : NM A) Q Q' :
  safe P' m Q' -> (forall h n, P h n -> P' h n) -> (forall a h n, Q' a h n -> Q a h n) -> safe P m Q.
Proof. intros Hm HP HQ h n Hn. destruct (Hm h n (HP h n Hn)); auto. Qed.

Lemma safe_untimed {A} R (m : NM A) (P P' : Assertion) :
  obeys R untimed m -> (forall h n n', R n n' -> P h n -> P' h n') -> safe P m (fun _ => P').
Proof.
  intros Hm HR h n HP. right. destruct (Hm n) as [Hr Hu]. rewrite (untimed_timers _ Hu), app_nil_r. eauto.
Qed.

Lemma safe_rests {A} P (m : NM A) : resting m -> safe (sound_at P) m (fun _ => sound_at P).
Proof. intros Hm. eapply safe_untimed; [done|]. intros h n n'. apply sound_rests. Qed.

Lemma safe_lead_by {A} k (m : NM A) : resting m -> safe (lead_by k) m (fun _ => lead_by k).
Proof. intros Hm. eapply safe_untimed; [done|]. intros h n n'. apply lead_by_rests. Qed.

Lemma safe_skip P (Q : unit -> Assertion) : (forall h n, P h n -> Q tt h n) -> safe P skip Q.
Proof. intros HQ h n HP. right. unfold timers. simpl. rewrite app_nil_r. by apply HQ. Qed.

Lemma safe_ret {A} (a : A) P (Q : A -> Assertion) : (forall h n, P h n -> Q a h n) -> safe P (mret a) Q.
Proof. intros HQ h n HP. right. unfold timers. simpl. rewrite app_nil_r. by apply HQ. Qed.

Lemma safe_modify P (f : node -> node) (Q : Assertion) :
  (forall h n, P h n -> Q h (f n)) -> safe P (modify f) (fun _ => Q).
Proof. intros HQ h n HP. right. unfold timers. simpl. rewrite app_nil_r. by apply HQ. Qed.

Lemma safe_mono {A} (P P' : Assertion) (m : NM A) Q :
  safe P' m Q -> (forall h n, P h n -> P' h n) -> safe P m Q.
Proof. intros Hm HP h n Hn. auto. Qed.

(** What is checked holds, or the process is gone. *)
Lemma safe_check b P : safe P (Node.check b) (fun _ h n => P h n /\ b = true).
Proof.
  intros h n HP. destruct b; [right|left; apply list_elem_of_here]. unfold timers. simpl. by rewrite app_nil_r.
Qed.

(** ** The states around a [step_down] *)

Abbreviation idle_sound := (sound_at (S:=S) (Mt:=Mt) idle).
Abbreviation free := (sound_at (S:=S) (Mt:=Mt) (fun s => ~ leads s)).

Lemma idle_not_leads s : idle s -> ~ leads s.
Proof. unfold idle, leads. simpl. lia. Qed.

Lemma not_leading_sound P h (n : node) : not_leading h n -> P n.(_state) -> sound_at P h n.
Proof. intros. split; [by right|done]. Qed.

Section handlers.
Context (env : Env).

(** Leaving a state clears the ballots of a leader. *)
Lemma leave_state_drains e (n : node) :
  let r := leave_state env e n in
  n.(_state) = (state_of r).(_state) /\ timers (events_of r) = [] /\
  poll_version n <= poll_version (state_of r) /\ (state_of r).(_current_term) = n.(_current_term) /\
  (state_of r).(_suspended) = n.(_suspended) /\ n.(_log_manager) = (state_of r).(_log_manager) /\
  (leads n.(_state) -> (state_of r).(_ballot_box).(_pending_index) = 0 /\
     (state_of r).(_ballot_box).(_pending_meta_queue) = []) /\
  (~ leads n.(_state) -> (state_of r).(_ballot_box) = n.(_ballot_box)).
Proof.
  unfold leave_state, lift_box', lift_box, clear_pending_tasks. rewrite get_bind.
  assert (forall E (f : BallotBox.Event -> Event) (l : list E) g, (forall x, timer_of (f x) = None) ->
          timers (map f (map g l)) = []) as Hmap.
  { intros E f l g Hf. induction l as [|x l IH]; [done|]. unfold timers in *. simpl. by rewrite Hf. }
  destruct (ClosureQueue.clear (_closure_queue (_ballot_box n))) as [q ev] eqn:Hq.
  destruct (_state n) eqn:Hs; unfold leads; run; simpl; rewrite ?Hq; simpl; rewrite ?Hs, ?ctx_reset_version;
    split_and!; try done; try lia.
  all: try (intros; exfalso; lia).
  all: unfold timers; simpl; rewrite ?omap_app; simpl; rewrite ?app_nil_r; by apply (Hmap _ EvBox).
Qed.

Lemma step_down_sound t b e P :
  safe (sound_at P) (step_down env t b e)
    (fun _ => sound_at (fun s => s = STATE_FOLLOWER \/ (P s /\ is_active_state s = false))).
Proof.
  unfold step_down. apply safe_get. intros n0. destruct (is_active_state _) eqn:Ha; simpl.
  2:{ apply safe_skip. intros h n [-> [Hs HP]]. split; [done|]. by right. }
  apply (safe_bind _ _ (fun _ h n => polls_idle h n /\ is_active_state n.(_state) = true /\
    n.(_ballot_box).(_pending_index) = 0 /\ n.(_ballot_box).(_pending_meta_queue) = [])).
  { intros h n [-> [Hs _]]. right. destruct (leave_state_drains e n0) as (Hst & -> & Hv & Ht & Hq & _ & Hl & Hn).
    rewrite app_nil_r, <- Hst. split.
    - assert (polls_idle h n0) as [H1 H2] by by destruct Hs as [[? _]|[? _]].
      unfold polls_idle, prevotes. rewrite <- Hst, Ht, Hq. split; [|done].
      intros v Hin. destruct (H1 v Hin) as [? Hi]. split; [lia|]. intros ->. apply Hi. lia.
    - split; [done|]. destruct Hs as [(_ & ? & _)|(_ & Hnl & Hp & Hpq)]; [by apply Hl|]. by rewrite Hn. }
  intros _. apply (safe_bind _ _ (fun _ h n => polls_idle h n /\ is_active_state n.(_state) = true /\
    n.(_ballot_box).(_pending_index) = 0 /\ n.(_ballot_box).(_pending_meta_queue) = [])).
  { eapply safe_untimed; [apply reset_leader_id_rests|]. intros h n n' [Hf _] (Hp & Hst & H1 & H2).
    split; [by eapply polls_idle_follows|]. destruct Hf as (-> & -> & -> & _). done. }
  intros _. apply (safe_bind _ _ (fun _ => sound_at (eq STATE_FOLLOWER))).
  { apply safe_modify. intros h n ([H1 H2] & _ & Hb). apply not_leading_sound; [|done]. split; [|split; [unfold leads; simpl; lia|done]].
    split; intros x Hx; [destruct (H1 x Hx)|destruct (H2 x Hx)]; done || (split; [done|intros _; unfold idle; simpl; lia]). }
  intros _. eapply safe_weaken; [apply safe_rests|done|intros ? h n [? Hf]; split; [done|by left]].
  repeat first [ solve [apply modify_rests; intros n; split; [by repeat split; simpl; try lia|done]]
               | solve [eauto using conf_ctx_reset_rests, clear_append_entries_cache_rests, raise_term_rests]
               | obey_step ].
Qed.

(** Whatever came before, it leaves a sound state, and an idle one if it was not leading nor a candidate. *)
Lemma step_down_any t b e : safe sound (step_down env t b e) (fun _ => free).
Proof.
  eapply safe_weaken; [apply (step_down_sound t b e (fun _ => True))|by intros h n Hs|].
  intros _ h n [Hs Hst]. split; [done|]. unfold leads. destruct Hst as [->|[_ Hst]]; simpl; [lia|].
  unfold is_active_state in Hst. apply Z.ltb_ge in Hst. simpl in *. lia.
Qed.

(** ** Rules for reading the state *)
Lemma safe_get_any {B} P (f : node -> NM B) R : (forall n0, safe P (f n0) R) -> safe P (get ≫= f) R.
Proof. intros Hf. apply safe_get. intros n0. eapply safe_mono; [done|]. by intros h n [_ ?]. Qed.

Lemma safe_get_at {B} P (f : node -> NM B) R :
  (forall n0, safe (sound_at (fun s => P s /\ s = n0.(_state))) (f n0) R) -> safe (sound_at P) (get ≫= f) R.
Proof. intros Hf. apply safe_get. intros n0. eapply safe_mono; [done|]. by intros h n [-> [? ?]]. Qed.

Lemma safe_true {A} (m : NM A) Q : safe (sound_at (fun _ => True)) m Q -> safe sound m Q.
Proof. intros Hm. eapply safe_mono; [done|]. by intros h n Hs. Qed.

Lemma safe_at {A} (P P' : State -> Prop) (m : NM A) Q :
  safe (sound_at P') m Q -> (forall s, P s -> P' s) -> safe (sound_at P) m Q.
Proof. intros Hm HP. eapply safe_mono; [done|]. intros h n [? ?]. split; auto. Qed.

Lemma safe_sound {A} P (m : NM A) : resting m -> safe (sound_at P) m (fun _ => sound).
Proof. intros Hm. eapply safe_weaken; [by apply safe_rests|done|by intros a h n [? _]]. Qed.

Lemma skip_sound P : safe (sound_at P) skip (fun _ => sound (S:=S) (Mt:=Mt)).
Proof. apply safe_skip. by intros h n [? _]. Qed.

(** The step of a sequence that rests. *)
Lemma safe_then {A B} P (m : NM A) (f : A -> NM B) R :
  resting m -> (forall a, safe (sound_at P) (f a) R) -> safe (sound_at P) (m ≫= f) R.
Proof. intros Hm Hf. eapply safe_bind; [by apply safe_rests|exact Hf]. Qed.

Lemma lead_then {A B} k (m : NM A) (f : A -> NM B) R :
  resting m -> (forall a, safe (lead_by k) (f a) R) -> safe (lead_by k) (m ≫= f) R.
Proof. intros Hm Hf. eapply safe_bind; [by apply safe_lead_by|exact Hf]. Qed.

Lemma lead_sound {A} (m : NM A) : resting m -> safe (lead_by 0) m (fun _ => sound).
Proof. intros Hm. eapply safe_weaken; [by apply safe_lead_by|done|]. intros a h n H. by left. Qed.

Ltac rest_leaf := repeat first
  [ solve [apply modify_rests; intros; repeat case_match; (split; [|done]); repeat split; simpl; rewrite ?ctx_reset_version; try lia; done]
  | solve [apply modify_ctx_rests; intros; simpl; unfold ctx_init, stop_grant_self_timer; repeat case_match; simpl;
           rewrite ?ctx_reset_version; simpl; lia]
  | solve [eauto using check_rests, run_closure_rests, run_closure_nonnull_rests, new_closure_rests, check_and_set_conf_rests,
      check_majority_nodes_readonly_rests, stop_replicator_rests, conf_ctx_reset_rests, reset_leader_id_rests,
      raise_term_rests, leader_lease_start_rests, poll_peers_rests, request_peers_to_vote_rests, save_meta_rests,
      request_vote_reply_rests, retry_vote_on_reserved_peers_rests, reject_task_rests, clear_append_entries_cache_rests,
      check_append_entries_cache_rests]
  | solve [apply wait_rests; done]
  | obey_step ].

(** ** Elections *)
Lemma elect_self_sound b : safe free (elect_self env b) (fun _ => sound).
Proof.
  unfold elect_self. apply safe_get_any. intros n0. destruct (negb _); [apply skip_sound|].
  apply safe_then; [rest_leaf|]. intros _. cbv zeta. apply safe_then; [rest_leaf|]. intros _.
  set (E := fun (h : list Z) (n : node) => (forall v, v ∈ h -> v <= poll_version n) /\
    (forall t, t ∈ prevotes n -> t < n.(_current_term)) /\ n.(_state) = STATE_CANDIDATE /\
    n.(_ballot_box).(_pending_index) = 0 /\ n.(_ballot_box).(_pending_meta_queue) = []).
  apply (safe_bind _ _ (fun _ => E)).
  { apply safe_modify. intros h n Hs. apply sound_not_leading in Hs as [([H1 H2] & _ & Hb) _]; [|done].
    split; [intros v Hv; apply (H1 v Hv)|]. split; [|done]. intros t Ht. simpl. destruct (H2 t Ht). lia. }
  intros _. apply (safe_bind _ _ (fun _ => E)); [by apply (safe_untimed eq); [apply obeys_emit; [exact _|]|intros h n n' <-]|].
  intros _. apply (safe_bind _ _ (fun _ => sound_at (fun s => s = STATE_CANDIDATE))).
  { apply safe_modify. intros h n (H1 & H2 & Hst & Hb). apply not_leading_sound; [|done].
    split; [|split; [unfold leads; simpl; rewrite Hst; simpl; lia|done]]. split.
    - intros v Hv. specialize (H1 v Hv).
      change (v <= (ctx_reset (timer_del env) (_pre_vote_ctx n)).(_version) /\
              (v = (ctx_reset (timer_del env) (_pre_vote_ctx n)).(_version) -> idle n.(_state))).
      rewrite ctx_reset_version. lia.
    - intros t Ht. specialize (H2 t Ht). simpl. lia. }
  intros _. apply safe_sound. rest_leaf.
Qed.

(** A configuration appended by the leader brings its ballot and its entry. *)
Lemma append_task_grows k conf old_conf c :
  safe (lead_by k) (lift_box' (S:=S) (Mt:=Mt) (fun bb => append_pending_task bb conf old_conf c)) (fun _ => lead_by (k + 1)).
Proof.
  intros h n (Hp & Hl & Hb). right. unfold lift_box', lift_box, append_pending_task, state_of, events_of, value_of. simpl.
  replace (timers _) with (@nil Z) by (by destruct (0 <? _)). rewrite app_nil_r. split; [exact Hp|]. split; [done|].
  simpl. intros He. specialize (Hb He). unfold box_end in *. simpl. rewrite zlen_app. unfold zlen in *. simpl. lia.
Qed.

Lemma append_log_grows es d :
  Forall (fun e => e.(id).(Types.index) = 0) es ->
  safe (lead_by (zlen es)) (lift_log (Mt:=Mt) (LogManager.append_entries es d)) (fun _ => lead_by 0).
Proof.
  intros Hes h n (Hp & Hl & Hb). right. pose proof (append_entries_leader es d n.(_log_manager) Hes) as Hg.
  unfold lift_log, state_of, events_of in *. destruct (LogManager.append_entries _ _ _) as [[u lm] ev]. simpl in *.
  rewrite (untimed_timers (map EvLog ev)), app_nil_r.
  2:{ apply Forall_forall. by intros e (x & -> & _)%list_elem_of_fmap. }
  split; [exact Hp|]. split; [done|]. simpl. intros He. destruct (Hg He) as [He0 ->]. specialize (Hb He0). lia.
Qed.

Lemma unsafe_apply_configuration_leads c o b :
  safe (lead_by 0) (unsafe_apply_configuration (S:=S) (Mt:=Mt) c o b) (fun _ => lead_by 0).
Proof.
  unfold unsafe_apply_configuration. apply safe_get_any. intros n0. apply lead_then; [rest_leaf|]. intros _. cbv zeta.
  apply lead_then; [rest_leaf|]. intros c1. eapply safe_bind; [apply append_task_grows|]. intros [].
  apply lead_then; [rest_leaf|]. intros st. eapply safe_bind.
  { by apply (append_log_grows [configuration_entry (_current_term n0) c o]), Forall_singleton. }
  intros []. apply safe_lead_by. rest_leaf.
Qed.

Lemma conf_ctx_flush_leads c o : safe (lead_by 0) (conf_ctx_flush (S:=S) (Mt:=Mt) c o) (fun _ => lead_by 0).
Proof.
  unfold conf_ctx_flush. apply safe_get_any. intros n0. apply lead_then; [rest_leaf|]. intros _. cbv zeta.
  apply lead_then; [rest_leaf|]. intros _. apply unsafe_apply_configuration_leads.
Qed.

(** The candidate that becomes the leader, until its ballot box is reset. *)
Definition taking_over (last : Z) (h : list Z) (n : node) : Prop :=
  polls_idle h n /\ n.(_state) = STATE_LEADER /\ n.(_ballot_box).(_pending_index) = 0 /\
  n.(_ballot_box).(_pending_meta_queue) = [] /\ n.(_log_manager).(_last_log_index) = last.

Lemma taking_over_rests last {A} (m : NM A) : resting m -> safe (taking_over last) m (fun _ => taking_over last).
Proof.
  intros Hm. eapply safe_untimed; [done|]. intros h n n' [Hf [Hl _]] (Hp & H1 & H2 & H3 & H4).
  split; [by eapply polls_idle_follows|]. destruct Hf as (-> & -> & -> & _). rewrite Hl. done.
Qed.

Lemma reset_pending_index_leads last :
  safe (taking_over last) (lift_box' (S:=S) (Mt:=Mt) (fun bb => reset_pending_index bb (last + 1))) (fun _ => lead_by 0).
Proof.
  intros h n (Hp & Hs & _ & Hq & Hl). right.
  unfold lift_box', lift_box, reset_pending_index, state_of, events_of, value_of.
  destruct (ClosureQueue.reset_first_index _ _) as [q ev]. simpl.
  rewrite (untimed_timers (map EvBox _)), app_nil_r.
  2:{ apply Forall_forall. by intros e (x & -> & _)%list_elem_of_fmap. }
  split; [exact Hp|]. split; [unfold leads; simpl; rewrite Hs; simpl; lia|]. intros _. unfold box_end. simpl.
  rewrite Hq, Hl, zlen_nil. lia.
Qed.

Lemma start_leading_leads n0 :
  safe (taking_over n0.(_log_manager).(_last_log_index)) (start_leading (S:=S) (Mt:=Mt) n0) (fun _ => lead_by 0).
Proof.
  unfold start_leading. set (last := n0.(_log_manager).(_last_log_index)).
  eapply safe_bind; [apply taking_over_rests; rest_leaf|]. intros [].
  eapply safe_bind; [apply taking_over_rests; rest_leaf|]. intros [].
  eapply safe_bind; [apply taking_over_rests; rest_leaf|]. intros [].
  eapply safe_bind; [apply reset_pending_index_leads|]. intros [].
  apply safe_get_any. intros n1. apply lead_then; [rest_leaf|]. intros _.
  eapply safe_bind; [apply conf_ctx_flush_leads|]. intros []. apply safe_lead_by. rest_leaf.
Qed.

Lemma become_leader_sound : safe sound (become_leader env) (fun _ => sound).
Proof.
  unfold become_leader. apply safe_get. intros n0.
  set (C := fun (h : list Z) (n : node) => sound_at (eq STATE_CANDIDATE) h n /\
    n.(_log_manager).(_last_log_index) = n0.(_log_manager).(_last_log_index)).
  assert (forall h n n', rests n n' -> C h n -> C h n') as HC.
  { intros h n n' Hr [Hs Hl]. split; [by eapply sound_rests|]. destruct Hr as [_ [-> _]]. done. }
  apply (safe_bind _ _ (fun _ => C)).
  { eapply safe_weaken; [apply safe_check|intros ? ? H; exact H|]. intros _ h n [[-> Hs] Hst%bool_decide_eq_true]. by repeat split. }
  intros _. apply (safe_bind _ _ (fun _ => C)); [eapply safe_untimed; [|exact HC]; rest_leaf|].
  intros _. apply (safe_bind _ _ (fun _ => C)); [eapply safe_untimed; [|exact HC]; rest_leaf|].
  intros _. apply (safe_bind _ _ (fun _ => taking_over n0.(_log_manager).(_last_log_index))).
  { apply safe_modify. intros h n [Hs Hl]. apply sound_not_leading in Hs as [([H1 H2] & _ & Hb) Hst]; [|intros s <-; unfold leads; simpl; lia].
    split; [|split; [done|]; by destruct Hb]. rewrite <- Hst in H1, H2. split.
    - intros v Hv. destruct (H1 v Hv) as [? Hi]. split; [done|]. intros ->. specialize (Hi eq_refl). unfold idle in Hi. simpl in Hi. lia.
    - intros t Ht. destruct (H2 t Ht) as [? Hi]. split; [done|]. intros ->. specialize (Hi eq_refl). unfold idle in Hi. simpl in Hi. lia. }
  intros _. eapply safe_weaken; [apply start_leading_leads|done|]. intros a h n H. by left.
Qed.

Lemma grant_self_vote_sound P : safe (sound_at P) (grant_self env Vote) (fun _ => sound).
Proof.
  unfold grant_self. apply safe_get_any. intros n0. cbv zeta. destruct (_ =? 0).
  - apply safe_then; [rest_leaf|]. intros _. apply safe_get_any. intros n1. destruct (negb _); [apply skip_sound|].
    eapply safe_mono; [apply become_leader_sound|]. by intros h n [? _].
  - apply safe_sound. unfold start_grant_self_timer. rest_leaf.
Qed.

(** A pre-vote belongs to an idle node, so its timer may be started. *)
Lemma start_pre_vote_timer_sound ms : safe (sound_at idle) (start_grant_self_timer env PreVote ms) (fun _ => sound).
Proof.
  intros h n [Hs Hi]. right. unfold start_grant_self_timer. run. destruct (timer_add env); simpl.
  - destruct (sound_not_leading idle h n idle_not_leads (conj Hs Hi)) as [([H1 H2] & Hb) _].
    right. split; [|exact Hb]. split; [|exact H2]. intros v [Hv|Hv%list_elem_of_singleton]%elem_of_app; [by apply H1|].
    subst v. simpl. split; [lia|done].
  - unfold timers. simpl. rewrite app_nil_r. destruct Hs as [Hs|Hs]; [left|right]; exact Hs.
Qed.

Lemma grant_self_pre_vote_sound : safe (sound_at idle) (grant_self env PreVote) (fun _ => sound).
Proof.
  unfold grant_self. apply safe_get_any. intros n0. cbv zeta. destruct (_ =? 0); [|apply start_pre_vote_timer_sound].
  apply safe_then; [rest_leaf|]. intros _. apply safe_get_any. intros n1. destruct (negb _); [apply skip_sound|].
  eapply safe_at; [apply elect_self_sound|apply idle_not_leads].
Qed.

(** ** Configuration changes, tasks and commits of a leader *)
Lemma step_down_end P t b e : safe (sound_at P) (step_down env t b e) (fun _ => sound).
Proof. eapply safe_weaken; [apply step_down_any|by intros h n [? _]|by intros a h n [? _]]. Qed.

Lemma next_stage_sound : safe (lead_by 0) (next_stage env) (fun _ => sound).
Proof.
  unfold next_stage. apply safe_get_any. intros n0. apply lead_then; [rest_leaf|]. intros _. cbv zeta.
  assert (forall c o, safe (lead_by 0) (unsafe_apply_configuration (S:=S) (Mt:=Mt) c o false) (fun _ => sound)) as Hu.
  { intros c o. eapply safe_weaken; [apply unsafe_apply_configuration_leads|done|]. intros a h n H. by left. }
  destruct (_stage _).
  - apply lead_sound. rest_leaf.
  - destruct (1 <? _); (apply lead_then; [rest_leaf|]); intros _; apply Hu.
  - apply lead_then; [rest_leaf|]. intros _. apply Hu.
  - apply lead_then; [rest_leaf|]. intros _. unfold when. destruct (negb _); [|apply lead_sound; rest_leaf].
    apply safe_get_any. intros n1. eapply safe_mono; [apply (step_down_end (fun _ => True))|]. intros h n H. split; [by left|done].
Qed.

Lemma conf_ctx_on_caughtup_sound v p b : safe (lead_by 0) (conf_ctx_on_caughtup env v p b) (fun _ => sound).
Proof.
  unfold conf_ctx_on_caughtup. apply safe_get_any. intros n0. cbv zeta. destruct (negb _); [apply lead_sound; rest_leaf|].
  apply lead_then; [rest_leaf|]. intros _. destruct b; [|apply lead_sound; rest_leaf].
  apply lead_then; [rest_leaf|]. intros _. unfold when. destruct (bool_decide _); [apply next_stage_sound|apply lead_sound; rest_leaf].
Qed.

Lemma start_catchup_sound l : safe (lead_by 0) (start_catchup env l) (fun _ => sound).
Proof.
  induction l as [|p l IH]; simpl; [apply lead_sound; rest_leaf|].
  apply safe_get_any. intros n0. apply lead_then; [rest_leaf|]. intros _.
  destruct (negb _); [apply conf_ctx_on_caughtup_sound|]. destruct (negb _); [apply conf_ctx_on_caughtup_sound|].
  apply lead_then; [rest_leaf|]. intros _. exact IH.
Qed.

Lemma conf_ctx_start_sound o c d : safe (lead_by 0) (conf_ctx_start env o c d) (fun _ => sound).
Proof.
  unfold conf_ctx_start. apply safe_get_any. intros n0. apply lead_then; [rest_leaf|]. intros _.
  apply lead_then; [rest_leaf|]. intros _. destruct (diffs c o) as [adding removing].
  apply lead_then; [rest_leaf|]. intros _. destruct (bool_decide _); [apply next_stage_sound|].
  apply lead_then; [rest_leaf|]. intros _. apply start_catchup_sound.
Qed.

(** A node whose state was read as that of a leader. *)
Lemma safe_leader {A} P s (m : NM A) Q :
  leads s -> safe (lead_by 0) m Q -> safe (sound_at (fun s' => P s' /\ s' = s)) m Q.
Proof. intros Hs Hm. eapply safe_mono; [done|]. intros h n [? [_ He]]. apply sound_leads. by rewrite <- He in Hs. Qed.

Lemma leader_leads s : negb (bool_decide (s = STATE_LEADER)) = false -> leads s.
Proof. rewrite negb_false_iff, bool_decide_eq_true. intros ->. unfold leads. simpl. lia. Qed.

Lemma unsafe_register_conf_change_sound o c d : safe sound (unsafe_register_conf_change env o c d) (fun _ => sound).
Proof.
  apply safe_true. unfold unsafe_register_conf_change. apply safe_get_at. intros n0.
  destruct (negb (bool_decide (_state n0 = _))) eqn:Hl; [apply safe_sound; rest_leaf|].
  destruct (is_busy _); [apply safe_sound; rest_leaf|]. destruct (equals _ _); [apply safe_sound; rest_leaf|].
  apply safe_leader; [by apply leader_leads|apply conf_ctx_start_sound].
Qed.

Lemma on_configuration_change_done_sound t : safe sound (on_configuration_change_done env t) (fun _ => sound).
Proof.
  apply safe_true. unfold on_configuration_change_done. apply safe_get_at. intros n0.
  destruct (Z.ltb_spec (state_num STATE_TRANSFERRING) (state_num (_state n0))) as [|Hl]; simpl; [apply skip_sound|].
  destruct (t =? _); simpl; [|apply skip_sound]. apply safe_leader; [done|apply next_stage_sound].
Qed.

Lemma on_caughtup_sound p t v e : safe sound (on_caughtup env p t v e) (fun _ => sound).
Proof.
  apply safe_true. unfold on_caughtup. apply safe_get_at. intros n0.
  destruct (negb (bool_decide (_state n0 = _))) eqn:Hl; simpl; [apply skip_sound|].
  apply leader_leads in Hl. destruct (t =? _); simpl; [|apply skip_sound].
  destruct (ok e); [apply safe_leader; [done|apply conf_ctx_on_caughtup_sound]|].
  destruct (_ && _); [apply safe_sound; rest_leaf|apply safe_leader; [done|apply conf_ctx_on_caughtup_sound]].
Qed.

Lemma append_task_counts n0 k t :
  safe (lead_by k) (append_task (S:=S) (Mt:=Mt) n0 t)
    (fun _ => lead_by (if term_matches n0.(_current_term) t then k + 1 else k)).
Proof.
  unfold append_task. destruct (term_matches _ t); cbn [negb]; [apply append_task_grows|apply safe_lead_by; rest_leaf].
Qed.

Lemma append_tasks_grow n0 tasks k :
  safe (lead_by k) (mapM_ (append_task (S:=S) (Mt:=Mt) n0) tasks)
    (fun _ => lead_by (k + zlen (filter (fun t => term_matches n0.(_current_term) t = true) tasks))).
Proof.
  revert k. induction tasks as [|t tasks IH]; intros k.
  { apply safe_skip. intros h n. unfold zlen. simpl. by rewrite Z.add_0_r. }
  rewrite mapM_cons, filter_cons. eapply safe_bind; [apply append_task_counts|]. intros [].
  destruct (term_matches _ t) eqn:Ht; [rewrite decide_True by done|rewrite decide_False by done; apply IH].
  rewrite zlen_cons, Z.add_assoc. apply IH.
Qed.

Lemma reject_tasks_rest e tasks : resting (mapM_ (reject_task (S:=S) (Mt:=Mt) e) tasks).
Proof. rest_leaf. Qed.

Lemma apply_sound tasks : safe sound (NodeLog.apply (S:=S) (Mt:=Mt) tasks) (fun _ => sound).
Proof.
  apply safe_true. unfold NodeLog.apply. apply safe_get_at. intros n0. cbv zeta.
  destruct (negb (bool_decide (_state n0 = _))) eqn:Hl; simpl; [apply safe_sound, reject_tasks_rest|].
  destruct (readonly n0); [apply safe_sound, reject_tasks_rest|]. apply leader_leads in Hl. apply safe_leader; [done|].
  eapply safe_bind; [apply append_tasks_grow|]. intros []. apply lead_then; [rest_leaf|]. intros c.
  set (es := map _ _). apply (safe_bind _ _ (fun _ => lead_by 0)); [|intros _; apply lead_sound; rest_leaf].
  replace (zlen (filter _ tasks)) with (zlen es) by (unfold es, zlen; by rewrite length_map).
  apply append_log_grows. apply Forall_forall. by intros e (x & -> & _)%list_elem_of_fmap.
Qed.

Lemma execute_applying_tasks_sound b cur l : safe sound (execute_applying_tasks (S:=S) (Mt:=Mt) b cur l) (fun _ => sound).
Proof.
  revert cur. induction l as [|t l IH]; intros cur; simpl.
  - unfold when. destruct (0 <? _); [apply apply_sound|apply safe_true, skip_sound].
  - destruct (_ =? b); [|apply IH]. eapply safe_bind; [apply apply_sound|]. intros []. apply IH.
Qed.

(** Voting for the leader's own entries commits some of them. *)
Lemma commit_sound (f : BallotBox -> BallotBox * list BallotBox.Event) :
  (forall bb, box_end (f bb).1 = box_end bb /\
     (bb.(_pending_index) = 0 -> (f bb).1.(_pending_index) = 0 /\ (f bb).1.(_pending_meta_queue) = bb.(_pending_meta_queue))) ->
  safe sound (lift_box' (S:=S) (Mt:=Mt) f) (fun _ => sound).
Proof.
  intros Hf h n Hs. right. destruct (Hf n.(_ballot_box)) as [He Hz].
  unfold lift_box', lift_box, state_of, events_of, value_of. destruct (f _) as [bb ev]. simpl in *.
  rewrite (untimed_timers (map EvBox ev)), app_nil_r.
  2:{ apply Forall_forall. by intros e (x & -> & _)%list_elem_of_fmap. }
  destruct Hs as [(Hp & Hl & Hb)|(Hp & Hl & Hi & Hq)]; [left|right].
  - split; [exact Hp|]. split; [done|]. simpl. by rewrite He.
  - split; [exact Hp|]. split; [done|]. simpl. destruct (Hz Hi) as [-> ->]. done.
Qed.

(** ** The handlers *)
Lemma leader_stable_run_sound k i e : safe sound (leader_stable_run (S:=S) (Mt:=Mt) k i e) (fun _ => sound).
Proof.
  unfold leader_stable_run. apply safe_get_any. intros n0. unfold when. destruct (ok e); [|apply safe_true, skip_sound].
  apply (safe_bind _ _ (fun _ => sound)); [|intros r; apply safe_true, skip_sound].
  intros h n Hs. right. pose proof (commit_at_end n.(_ballot_box) i (i + k - 1) n0.(_server_id)) as [He Hz].
  unfold lift_box, state_of, events_of, value_of. destruct (commit_at _ _ _ _) as [[r bb] ev]. simpl in *.
  rewrite (untimed_timers (map EvBox ev)), app_nil_r.
  2:{ apply Forall_forall. by intros x (y & -> & _)%list_elem_of_fmap. }
  destruct Hs as [(Hp & Hl & Hb)|(Hp & Hl & Hi & Hq)]; [left|right].
  - split; [exact Hp|]. split; [done|]. simpl. by rewrite He.
  - split; [exact Hp|]. split; [done|]. simpl. by rewrite Hz.
Qed.

Lemma run_node_closure_sound c e i : safe sound (run_node_closure env c e i) (fun _ => sound).
Proof.
  unfold run_node_closure. apply safe_true. apply safe_get_any. intros n0. apply safe_then; [rest_leaf|]. intros _.
  destruct (_closures n0 !! c) as [[k|rpc r t|t b ep]|]; [| | |apply skip_sound].
  - eapply safe_mono; [apply leader_stable_run_sound|by intros h n [? _]].
  - apply safe_sound, follower_stable_run_rests.
  - unfold configuration_change_done_run, when. destruct (ok e); [|apply skip_sound].
    apply (safe_bind _ _ (fun _ => sound)); [eapply safe_mono; [apply on_configuration_change_done_sound|by intros h n [? _]]|].
    intros _. apply safe_true, safe_sound. destruct b; rest_leaf.
Qed.

Lemma pre_vote_sound b : safe (sound_at idle) (pre_vote (S:=S) (Mt:=Mt) env b) (fun _ => sound).
Proof.
  unfold pre_vote. apply safe_get. intros n0. destruct (_ && _); [eapply safe_mono; [apply skip_sound|by intros h n [_ ?]]|].
  destruct (negb _); [eapply safe_mono; [apply skip_sound|by intros h n [_ ?]]|].
  unfold wait_last_log_id. apply safe_get_any. intros n1.
  apply (safe_bind _ _ (fun _ h n => sound_at idle h n /\ n.(_current_term) = n0.(_current_term))).
  { apply safe_modify. intros h n [-> Hs]. split; [|done]. eapply sound_rests; [|exact Hs].
    split; [|done]. by repeat split; simpl; try lia. }
  intros _. apply (safe_bind _ _ (fun _ h n => sound_at idle h n /\ n.(_current_term) = n0.(_current_term))).
  { intros h n [Hs Ht]. right. destruct (lift_log_rests (last_log_id true (_next_closure n1)) (last_log_id_rests _ _) n) as [Hr Hu].
    rewrite (untimed_timers _ Hu), app_nil_r. split; [by eapply sound_rests|].
    unfold lift_log, state_of. destruct (last_log_id _ _ _) as [[a lm] ev]. exact Ht. }
  intros a. apply safe_modify. intros h n [Hs Ht].
  destruct (sound_not_leading idle h n idle_not_leads Hs) as [([H1 H2] & Hb) Hi].
  right. split; [|exact Hb]. split; [exact H1|]. intros t Hin. unfold prevotes in Hin. simpl in Hin. rewrite omap_app in Hin.
  apply elem_of_app in Hin as [Hin|Hin]; [by apply H2|]. apply list_elem_of_singleton in Hin as ->. simpl. split; [lia|done].
Qed.

Lemma follower_idle s : negb (bool_decide (s = STATE_FOLLOWER)) = false -> idle s.
Proof. rewrite negb_false_iff, bool_decide_eq_true. intros ->. unfold idle. simpl. lia. Qed.

Lemma handle_election_timeout_sound : safe sound (handle_election_timeout (S:=S) (Mt:=Mt) env) (fun _ => sound).
Proof.
  apply safe_true. unfold handle_election_timeout. apply safe_get_at. intros n0.
  destruct (negb (bool_decide (_state n0 = _))) eqn:Hf; [apply skip_sound|]. destruct (_ && _); [apply skip_sound|].
  apply safe_then; [rest_leaf|]. intros _. apply safe_then; [rest_leaf|]. intros _.
  eapply safe_at; [apply pre_vote_sound|]. intros s [_ ->]. by apply follower_idle.
Qed.

Lemma handle_vote_timeout_sound : safe sound (handle_vote_timeout (S:=S) (Mt:=Mt) env) (fun _ => sound).
Proof.
  apply safe_true. unfold handle_vote_timeout. apply safe_get_at. intros n0.
  destruct (bool_decide_reflect (_state n0 = STATE_CANDIDATE)) as [Hc|]; simpl; [|apply skip_sound].
  destruct (step_down_when_vote_timedout env).
  - eapply safe_bind; [apply step_down_sound|]. intros []. eapply safe_at; [apply pre_vote_sound|].
    intros s [->|[[_ ->] Hs]]; [unfold idle; simpl; lia|]. by rewrite Hc in Hs.
  - eapply safe_at; [apply elect_self_sound|]. intros s [_ ->]. rewrite Hc. unfold leads. simpl. lia.
Qed.

Lemma handle_timeout_now_request_sound rpc t b : safe sound (handle_timeout_now_request (S:=S) (Mt:=Mt) env rpc t b) (fun _ => sound).
Proof.
  apply safe_true. unfold handle_timeout_now_request. apply safe_get_at. intros n0. destruct (negb (t =? _)).
  - apply (safe_bind _ _ (fun _ => sound)); [|intros _; apply safe_true, safe_sound; rest_leaf].
    unfold when. destruct (_ <? t); [apply step_down_end|apply skip_sound].
  - destruct (negb (bool_decide (_state n0 = _))) eqn:Hf; [apply safe_sound; rest_leaf|].
    apply safe_then; [rest_leaf|]. intros _. eapply safe_at; [apply elect_self_sound|]. intros s [_ ->].
    by apply idle_not_leads, follower_idle.
Qed.

(** A pre-vote timer fires with a version it was started with. *)
Lemma handle_grant_self_timedout_sound w v :
  safe (fun h n => sound h n /\ (w = PreVote -> v ∈ h)) (handle_grant_self_timedout env w v) (fun _ => sound).
Proof.
  unfold handle_grant_self_timedout. apply safe_get. intros n0.
  destruct (negb (is_active_state _)); [simpl; apply safe_skip; by intros h n [_ [? _]]|].
  destruct (Z.eqb_spec (vote_ctx w n0).(_version) v) as [Hv|Hv]; simpl; [|apply safe_skip; by intros h n' [_ [? _]]].
  destruct w; [|eapply safe_mono; [apply (grant_self_vote_sound (fun _ => True))|by intros h n [_ [? _]]]].
  eapply safe_mono; [apply grant_self_pre_vote_sound|]. intros h n [-> [Hs Hin]]. split; [done|].
  assert (polls_idle h n0) as [H1 _] by by destruct Hs as [[? _]|[? _]].
  destruct (H1 v (Hin eq_refl)) as [_ Hi]. by apply Hi.
Qed.

Lemma response_acceptable_sound w st t v r :
  safe sound (response_acceptable (S:=S) (Mt:=Mt) env w st t v r)
    (fun go => sound_at (fun s => go = true -> s = st)).
Proof.
  assert (forall P, safe (sound_at P) (mret false) (fun (go : bool) => sound_at (S:=S) (Mt:=Mt) (fun s => go = true -> s = st))) as Hf.
  { intros P. apply safe_ret. by intros h n [? _]. }
  apply safe_true. unfold response_acceptable. apply safe_get_at. intros n0. destruct (negb (v =? _)); [apply Hf|].
  destruct (bool_decide_reflect (_state n0 = st)) as [Hst|]; simpl; [|apply Hf]. destruct (negb (t =? _)); [apply Hf|].
  destruct (_ <? _).
  - apply (safe_bind _ _ (fun _ => sound)); [apply step_down_end|intros _; apply safe_true, Hf].
  - apply safe_ret. intros h n [? [_ He]]. split; [done|]. intros _. congruence.
Qed.

Lemma grant_peer_rests w p : resting (grant_peer (S:=S) (Mt:=Mt) env w p).
Proof. unfold grant_peer. rest_leaf. Qed.

Lemma handle_request_vote_response_sound p t v r :
  safe sound (handle_request_vote_response (S:=S) (Mt:=Mt) env p t v r) (fun _ => sound).
Proof.
  unfold handle_request_vote_response. eapply safe_bind; [apply response_acceptable_sound|]. intros go.
  destruct (negb go); [apply skip_sound|]. apply safe_then; [rest_leaf|]. intros _.
  apply safe_then; [destruct (rs_granted r); [apply grant_peer_rests|rest_leaf]|]. intros _. apply safe_get_any. intros n1.
  destruct (_ && _); [eapply safe_mono; [apply become_leader_sound|by intros h n [? _]]|].
  apply safe_sound, retry_vote_on_reserved_peers_rests.
Qed.

Lemma pop_grantable_version v : (pop_grantable_peers v).2.(_version) = v.(_version).
Proof. unfold pop_grantable_peers. by destruct (_ =? -1). Qed.

Lemma handle_pre_vote_response_sound p t v r :
  safe sound (handle_pre_vote_response (S:=S) (Mt:=Mt) env p t v r) (fun _ => sound).
Proof.
  unfold handle_pre_vote_response. eapply safe_bind; [apply response_acceptable_sound|]. intros go.
  apply safe_get_any. intros n0. destruct go; simpl; [|apply skip_sound]. destruct (_ && _); [apply skip_sound|].
  apply safe_then; [rest_leaf|]. intros _. apply safe_then; [rest_leaf|]. intros _.
  apply safe_get. intros n1. pose proof (pop_grantable_version n1.(_pre_vote_ctx)) as Hv.
  destruct (pop_grantable_peers _) as [grantable c]. simpl in Hv.
  apply (safe_bind _ _ (fun _ => sound_at (fun s => true = true -> s = STATE_FOLLOWER))).
  { apply safe_modify. intros h n [-> Hs]. eapply sound_rests; [|exact Hs]. split; [|done].
    repeat split; simpl; try lia; done. }
  intros _. apply safe_then; [apply obeys_mapM_; [exact _|apply grant_peer_rests]|]. intros _. apply safe_get_any. intros n2.
  unfold when. destruct (ctx_granted _); [|apply skip_sound]. eapply safe_at; [apply elect_self_sound|].
  intros s Hs. rewrite Hs by done. unfold leads. simpl. lia.
Qed.

Lemma vote_for_sound t c P : safe (sound_at P) (vote_for (S:=S) (Mt:=Mt) env t c) (fun _ => sound).
Proof.
  unfold vote_for. apply (safe_bind _ _ (fun _ => sound)); [apply step_down_end|]. intros _. apply safe_true, safe_sound. rest_leaf.
Qed.

Lemma request_vote_locked_sound rpc r c t l P :
  safe (sound_at P) (request_vote_locked (S:=S) (Mt:=Mt) env rpc r c t l) (fun _ => sound).
Proof.
  unfold request_vote_locked. apply safe_get_any. intros n0. cbv zeta.
  destruct (negb _); [apply safe_sound; rest_leaf|]. destruct (0 <? _); [apply safe_sound; rest_leaf|].
  apply (safe_bind _ _ (fun _ => sound)); [unfold when; destruct (_ <? _); [apply step_down_end|apply skip_sound]|]. intros _.
  apply safe_true, safe_get_any. intros n1. apply (safe_bind _ _ (fun _ => sound)).
  { unfold when. destruct (_ && _); [apply vote_for_sound|apply skip_sound]. }
  intros _. apply safe_true, safe_sound. rest_leaf.
Qed.

Lemma elect_self_locked_sound t l P : safe (sound_at P) (elect_self_locked (S:=S) (Mt:=Mt) env t l) (fun _ => sound).
Proof.
  unfold elect_self_locked. apply safe_get_any. intros n0. destruct (negb _); [apply skip_sound|].
  apply safe_then; [rest_leaf|]. intros _. apply safe_get_any. intros n1. apply safe_then; [rest_leaf|]. intros _.
  apply safe_then; [rest_leaf|]. intros e. destruct (negb _); [apply safe_sound; rest_leaf|apply grant_self_vote_sound].
Qed.

(** A suspended pre-vote resumes idle, unless the term was raised. *)
Lemma pre_vote_locked_sound t b l :
  safe (fun h n => sound h n /\ (t = n.(_current_term) -> idle n.(_state)))
    (pre_vote_locked (S:=S) (Mt:=Mt) env t b l) (fun _ => sound).
Proof.
  unfold pre_vote_locked. apply safe_get. intros n0.
  destruct (Z.eqb_spec t n0.(_current_term)) as [Ht|]; simpl; [|apply safe_skip; by intros h n' [_ [? _]]].
  eapply (safe_mono _ (sound_at idle)); [|intros h n [-> [? Hi]]; split; auto].
  apply safe_then; [rest_leaf|]. intros _. apply safe_get_any. intros n1. apply safe_then; [rest_leaf|]. intros _.
  apply grant_self_pre_vote_sound.
Qed.

Lemma resume_sound i l : safe sound (resume (S:=S) (Mt:=Mt) env i l) (fun _ => sound).
Proof.
  unfold resume. apply safe_get. intros n0. destruct (n0.(_suspended) !! i) as [[[c k] a]|] eqn:Hi.
  2:{ apply safe_skip. by intros h n [_ ?]. }
  apply (safe_bind _ _ (fun _ h n => sound h n /\
    (forall t b, k = CPreVote t b -> t = n.(_current_term) -> idle n.(_state)))).
  { apply safe_modify. intros h n [-> Hs].
    assert (rests n0 (n0 <| _suspended := delete i n0.(_suspended) |>)) as Hr.
    { split; [|done]. repeat split; simpl; try lia. unfold prevotes. simpl.
      intros t Ht. apply list_elem_of_omap in Ht as (x & Hx & Ht). apply list_elem_of_omap. exists x. split; [|done].
      by eapply list_elem_of_delete_inv. }
    destruct (sound_rests (fun _ => True) h _ _ Hr (conj Hs I)) as [Hs' _]. split; [exact Hs'|].
    intros t b -> Ht. simpl in *. assert (polls_idle h n0) as [_ H2] by by destruct Hs as [[? _]|[? _]].
    apply (H2 t); [|done]. unfold prevotes. apply list_elem_of_omap. exists (c, CPreVote t b, a).
    split; [by eapply list_elem_of_lookup_2|done]. }
  intros _. destruct k as [t b|t|rpc r|rpc r cand t]; simpl.
  - eapply safe_mono; [apply pre_vote_locked_sound|]. intros h n [? Hk]. split; [done|]. by apply (Hk t b).
  - eapply safe_mono; [apply (elect_self_locked_sound t _ (fun _ => True))|]. by intros h n [? _].
  - eapply (safe_mono _ (sound_at (fun _ => True))); [|by intros h n [? _]]. apply safe_sound, pre_vote_request_locked_rests.
  - eapply safe_mono; [apply (request_vote_locked_sound rpc r cand t _ (fun _ => True))|]. by intros h n [? _].
Qed.

(** ** Requests of a leader *)

(** After [check_step_down] an active node follows. *)
Lemma check_step_down_follower t p :
  safe (sound_at (fun s => is_active_state s = true)) (check_step_down (S:=S) (Mt:=Mt) env t p)
    (fun _ => sound_at (eq STATE_FOLLOWER)).
Proof.
  unfold check_step_down. apply safe_get_at. intros n0. apply (safe_bind _ _ (fun _ => sound_at (eq STATE_FOLLOWER))).
  - unfold when. destruct (_ || _) eqn:Hc.
    + eapply safe_weaken; [apply step_down_sound|done|]. intros _ h n [Hs Hst]. split; [done|].
      destruct Hst as [->|[[Ha _] Hn]]; [done|]. congruence.
    + apply safe_skip. intros h n [Hs [_ Hst]]. split; [done|]. rewrite Hst.
      apply orb_false_iff in Hc as [Hc _]. apply orb_false_iff in Hc as [_ Hc].
      by apply negb_false_iff, bool_decide_eq_true in Hc.
  - intros _. apply safe_get_any. intros n1. apply safe_rests. rest_leaf.
Qed.

(** A follower may change its log at will. *)
Lemma follower_log_sound {A} (m : M (LogManager S) LogManager.Event A) :
  safe (sound_at (eq STATE_FOLLOWER)) (lift_log (Mt:=Mt) m) (fun _ => sound_at (eq STATE_FOLLOWER)).
Proof.
  intros h n Hs. right. unfold lift_log, state_of, events_of, value_of. destruct (m _) as [[a lm] ev]. simpl.
  rewrite (untimed_timers (map EvLog ev)), app_nil_r.
  2:{ apply Forall_forall. by intros x (y & -> & _)%list_elem_of_fmap. }
  apply sound_not_leading in Hs as [Hs Hst]; [|intros s <-; unfold leads; simpl; lia].
  split; [|exact Hst]. right. destruct Hs as (Hp & Hl & Hb). by split.
Qed.

Lemma accept_entries_sound rpc r : safe (sound_at (eq STATE_FOLLOWER)) (accept_entries (S:=S) (Mt:=Mt) env rpc r) (fun _ => sound).
Proof.
  unfold accept_entries. destruct (parse_entries _ _ _) as [[es i] types_ok]. apply safe_then; [rest_leaf|]. intros _.
  apply safe_then; [rest_leaf|]. intros _. apply safe_get_any. intros n0. apply safe_then; [rest_leaf|]. intros c.
  eapply safe_bind; [apply follower_log_sound|]. intros a. apply safe_sound. rest_leaf.
Qed.

Lemma handle_append_entries_request_sound rpc r b : safe sound (handle_append_entries_request (S:=S) (Mt:=Mt) env rpc r b) (fun _ => sound).
Proof.
  apply safe_true. unfold handle_append_entries_request. apply safe_get_at. intros n0.
  destruct (is_active_state _) eqn:Ha; simpl; [|apply safe_sound; rest_leaf].
  destruct (ae_server_id r) as [p|]; [|apply safe_sound; rest_leaf]. destruct (_ <? _); [apply safe_sound; rest_leaf|].
  eapply (safe_at _ (fun s => is_active_state s = true)); [|by intros s [_ ->]].
  apply (safe_bind _ _ (fun _ => sound_at (eq STATE_FOLLOWER))); [apply check_step_down_follower|]. intros _.
  apply safe_get_any. intros n1. destruct (negb (peer_eqb _ _)).
  { apply (safe_bind _ _ (fun _ => sound)); [apply step_down_end|]. intros _. apply safe_true, safe_sound. rest_leaf. }
  apply safe_then; [rest_leaf|]. intros _. destruct (_ && _); [apply safe_sound; rest_leaf|].
  destruct (negb _); [apply safe_sound, reject_unmatched_rests|].
  destruct (_ =? 0); [apply safe_sound, accept_heartbeat_rests|apply accept_entries_sound].
Qed.

Lemma handle_append_entries_from_cache_sound b l : safe sound (handle_append_entries_from_cache (S:=S) (Mt:=Mt) env b l) (fun _ => sound).
Proof.
  unfold handle_append_entries_from_cache. induction l as [|x l IH]; [apply safe_true, skip_sound|].
  rewrite mapM_cons. apply (safe_bind _ _ (fun _ => sound)); [|intros _; exact IH].
  apply safe_true, safe_get_any. intros n0. apply safe_then; [rest_leaf|]. intros _.
  destruct (_rpcs n0 !! _) as [r|]; [|apply skip_sound]. destruct b; [|apply safe_sound; rest_leaf].
  eapply safe_mono; [apply handle_append_entries_request_sound|by intros h n [? _]].
Qed.

Lemma handle_install_snapshot_request_sound rpc p t : safe sound (handle_install_snapshot_request (S:=S) (Mt:=Mt) env rpc p t) (fun _ => sound).
Proof.
  apply safe_true. unfold handle_install_snapshot_request. apply safe_get_at. intros n0.
  destruct (negb (has_snapshot_executor env)); [apply safe_sound; rest_leaf|]. destruct p as [p|]; [|apply safe_sound; rest_leaf].
  destruct (is_active_state _) eqn:Ha; simpl; [|apply safe_sound; rest_leaf]. destruct (_ <? _); [apply safe_sound; rest_leaf|].
  eapply (safe_at _ (fun s => is_active_state s = true)); [|by intros s [_ ->]].
  apply (safe_bind _ _ (fun _ => sound_at (eq STATE_FOLLOWER))); [apply check_step_down_follower|]. intros _.
  apply safe_get_any. intros n1. destruct (negb (peer_eqb _ _)).
  { apply (safe_bind _ _ (fun _ => sound)); [apply step_down_end|]. intros _. apply safe_true, safe_sound. rest_leaf. }
  apply safe_sound. rest_leaf.
Qed.

(** ** The other calls *)
Lemma check_dead_nodes_sound c t : safe sound (check_dead_nodes (S:=S) (Mt:=Mt) env c t) (fun _ => sound).
Proof.
  apply safe_true. unfold check_dead_nodes. apply safe_get_any. intros n0.
  destruct (_ <=? _); [apply skip_sound|apply step_down_end].
Qed.

Lemma handle_stepdown_timeout_sound : safe sound (handle_stepdown_timeout (S:=S) (Mt:=Mt) env) (fun _ => sound).
Proof.
  apply safe_true. unfold handle_stepdown_timeout. apply safe_get_any. intros n0. destruct (_ <? _); [apply skip_sound|].
  apply (safe_bind _ _ (fun _ => sound)).
  { unfold check_witness. apply safe_get_any. intros n1. unfold when. destruct (witness _); [apply step_down_end|apply skip_sound]. }
  intros _. apply safe_get_any. intros n1. apply (safe_bind _ _ (fun _ => sound)); [apply check_dead_nodes_sound|].
  intros _. apply safe_get_any. intros n2. unfold when. destruct (negb _); [apply check_dead_nodes_sound|apply safe_true, skip_sound].
Qed.

Lemma get_leader_lease_status_sound : safe sound (get_leader_lease_status (S:=S) (Mt:=Mt) env) (fun _ => sound).
Proof.
  assert (forall P (i : Lease.LeaseInfo), safe (sound_at P) (mret i) (fun _ => sound (S:=S) (Mt:=Mt))) as Hr.
  { intros P i. apply safe_ret. by intros h n [? _]. }
  apply safe_true. unfold get_leader_lease_status. apply safe_get_any. intros n0. cbv zeta.
  destruct (Lease.lease_state _); try apply Hr. destruct (negb _); [apply Hr|]. apply safe_then; [rest_leaf|]. intros _.
  apply safe_get_any. intros n1. cbv zeta.
  destruct (Lease.lease_state _); try apply Hr;
    (apply (safe_bind _ _ (fun _ => sound)); [apply step_down_end|intros _; apply safe_true, Hr]).
Qed.

(** A transferring leader that leads again keeps its ballots. *)
Lemma lead_again s' (f : node -> node) P :
  (forall n, (f n).(_state) = s' /\ (f n).(_ballot_box) = n.(_ballot_box) /\ (f n).(_log_manager) = n.(_log_manager) /\
             (f n).(_current_term) = n.(_current_term) /\ poll_version (f n) = poll_version n /\ (f n).(_suspended) = n.(_suspended)) ->
  leads s' -> safe (sound_at (fun s => P s /\ leads s)) (modify f) (fun _ => sound).
Proof.
  intros Hf Hs'. apply safe_modify. intros h n [Hs [_ Hl]]. left.
  assert (lead_by 0 h n) as ([H1 H2] & _ & Hb) by (apply sound_leads; by split).
  destruct (Hf n) as (Hst & Hbb & Hlm & Ht & Hv & Hq). unfold lead_by, polls_idle, prevotes.
  rewrite Hst, Hbb, Hlm, Ht, Hv, Hq. split; [|done].
  assert (forall s, leads s -> ~ idle s) as Hno by (intros s; unfold leads, idle; simpl; lia).
  split; [intros v Hin; destruct (H1 v Hin) as [? Hi]|intros t Hin; destruct (H2 t Hin) as [? Hi]];
    (split; [done|]); intros ->; exfalso; eapply Hno; [exact Hl|by apply Hi|exact Hl|by apply Hi].
Qed.

Lemma handle_transfer_timeout_sound t p : safe sound (handle_transfer_timeout (S:=S) (Mt:=Mt) t p) (fun _ => sound).
Proof.
  apply safe_true. unfold handle_transfer_timeout. apply safe_get_at. intros n0. unfold when.
  destruct (t =? _); [|apply skip_sound]. apply safe_then; [rest_leaf|]. intros _.
  destruct (bool_decide_reflect (_state n0 = STATE_TRANSFERRING)) as [Hs|]; [|apply skip_sound].
  apply safe_then; [rest_leaf|]. intros _. apply safe_get_any. intros n1. apply safe_then; [rest_leaf|]. intros _.
  eapply safe_at; [apply (lead_again STATE_LEADER _ (fun _ => True)); [by intros n|unfold leads; simpl; lia]|].
  intros s [_ ->]. split; [done|]. rewrite Hs. unfold leads. simpl. lia.
Qed.

Lemma transfer_leadership_to_sound p : safe sound (transfer_leadership_to (S:=S) (Mt:=Mt) env p) (fun _ => sound).
Proof.
  assert (forall P (e : Errno), safe (sound_at P) (mret e) (fun _ => sound (S:=S) (Mt:=Mt))) as Hr.
  { intros P i. apply safe_ret. by intros h n [? _]. }
  apply safe_true. unfold transfer_leadership_to. apply safe_get_at. intros n0.
  destruct (negb (bool_decide (_state n0 = _))) eqn:Hl; [apply Hr|]. apply leader_leads in Hl.
  destruct (is_busy _); [apply Hr|]. destruct (if peer_eqb p ANY_PEER then _ else _) as [q|]; [|apply Hr].
  destruct (peer_eqb q _); [apply Hr|]. destruct (negb _); [apply Hr|]. apply safe_then; [rest_leaf|]. intros _.
  destruct (negb _); [apply Hr|]. apply (safe_bind _ _ (fun _ => sound)).
  { eapply safe_at; [apply (lead_again STATE_TRANSFERRING _ (fun _ => True)); [by intros n|unfold leads; simpl; lia]|].
    by intros s [_ ->]. }
  intros _. apply safe_true. apply safe_then; [rest_leaf|]. intros _. apply safe_then; [rest_leaf|]. intros _.
  destruct (timer_add env); [apply safe_then; [rest_leaf|intros _; apply Hr]|].
  apply (safe_bind _ _ (fun _ => sound)); [|intros _; apply safe_true, Hr].
  eapply safe_mono; [apply handle_transfer_timeout_sound|by intros h n [? _]].
Qed.

Lemma reset_peers_sound c : safe sound (reset_peers (S:=S) (Mt:=Mt) env c) (fun _ => sound).
Proof.
  assert (forall P (e : Errno), safe (sound_at P) (mret e) (fun _ => sound (S:=S) (Mt:=Mt))) as Hr.
  { intros P i. apply safe_ret. by intros h n [? _]. }
  apply safe_true. unfold reset_peers. apply safe_get_any. intros n0. destruct (bool_decide _); [apply Hr|].
  destruct (negb _); [apply Hr|]. destruct (bool_decide _); [|destruct (_ && _); [apply Hr|]; destruct (equals _ _); [apply Hr|]].
  all: apply safe_then; [rest_leaf|]; intros _; apply (safe_bind _ _ (fun _ => sound)); [apply step_down_end|intros _; apply safe_true, Hr].
Qed.

(** Leaving for a state in which the node is not active. *)
Lemma go_inactive s' :
  idle s' -> safe free (modify (fun n : node => n <| _state := s' |>)) (fun _ => sound).
Proof.
  intros Hi. apply safe_modify. intros h n Hs. destruct (sound_not_leading _ h n (fun s H => H) Hs) as [([H1 H2] & _ & Hb) _].
  right. split; [|split; [by apply idle_not_leads|exact Hb]]. split; intros x Hx; [destruct (H1 x Hx)|destruct (H2 x Hx)]; by split.
Qed.

Lemma on_error_sound e : safe sound (on_error (S:=S) (Mt:=Mt) env e) (fun _ => sound).
Proof.
  apply safe_true. unfold on_error. apply safe_get_at. intros n0. apply safe_then; [rest_leaf|]. intros _.
  apply (safe_bind _ _ (fun _ => free)).
  { unfold when. destruct (Z.leb_spec (state_num (_state n0)) (state_num STATE_FOLLOWER)).
    - eapply safe_mono; [apply step_down_any|by intros h n [? _]].
    - apply safe_skip. intros h n [Hs [_ Hst]]. split; [done|]. unfold leads. rewrite Hst. simpl in *. lia. }
  intros _. apply safe_get_any. intros n1. unfold when. destruct (_ <? _); [|apply skip_sound].
  apply go_inactive. unfold idle. simpl. lia.
Qed.

Lemma shutdown_sound d : safe sound (Node.shutdown (S:=S) (Mt:=Mt) env d) (fun _ => sound).
Proof.
  apply safe_true. unfold Node.shutdown. apply safe_get_at. intros n0. apply (safe_bind _ _ (fun _ => sound)).
  - unfold when at 1. destruct (Z.ltb_spec (state_num (_state n0)) (state_num STATE_SHUTTING)); [|apply skip_sound].
    apply safe_then; [rest_leaf|]. intros _. apply (safe_bind _ _ (fun _ => free)).
    { unfold when. destruct (Z.leb_spec (state_num (_state n0)) (state_num STATE_FOLLOWER)).
      - eapply safe_mono; [apply step_down_any|by intros h n [? _]].
      - apply safe_skip. intros h n [Hs [_ Hst]]. split; [done|]. unfold leads. rewrite Hst. simpl in *. lia. }
    intros _. apply (safe_bind _ _ (fun _ => sound)); [apply go_inactive; unfold idle; simpl; lia|].
    intros _. apply safe_true, safe_sound. rest_leaf. apply lift_log_rests, shutdown_rests.
  - intros _. apply safe_true, safe_sound. rest_leaf.
Qed.

Lemma after_shutdown_sound : safe sound (after_shutdown (S:=S) (Mt:=Mt)) (fun _ => sound).
Proof.
  apply safe_true. unfold after_shutdown. apply safe_get. intros n0. apply (safe_bind _ _ (fun _ => free)).
  { eapply safe_weaken; [apply safe_check|intros ? ? H; exact H|]. intros _ h n [[-> [? _]] Hs%bool_decide_eq_true].
    split; [done|]. rewrite Hs. unfold leads. simpl. lia. }
  intros _. apply (safe_bind _ _ (fun _ => sound)); [|intros _; apply safe_true, safe_sound; rest_leaf].
  apply safe_modify. intros h n Hn. destruct (sound_not_leading _ h n (fun s H => H) Hn) as [([H1 H2] & _ & Hb) _].
  assert (idle STATE_SHUTDOWN) as Hi by (unfold idle; simpl; lia).
  right. split; [|split; [by apply idle_not_leads|exact Hb]]. split; intros x Hx; [destruct (H1 x Hx)|destruct (H2 x Hx)]; by split.
Qed.

Lemma discard_sound {A} (m : NM A) : safe sound m (fun _ => sound) -> safe sound (discard m) (fun _ => sound).
Proof. intros Hm. unfold discard. apply (safe_bind _ _ (fun _ => sound)); [done|]. intros a. by apply safe_ret. Qed.

Lemma rests_sound {A} (m : NM A) : resting m -> safe sound m (fun _ => sound).
Proof. intros Hm. by apply safe_true, safe_sound. Qed.

(** The calls whose handlers rest. *)
Definition restful (c : Call) : Prop :=
  match c with
  | CallSnapshotTimeout | CallCacheTimeout _ _ _ | CallVoteRequest _ _ | CallPreVoteRequest _ _
  | CallReadonlyConfig _ _ _ | CallConfigurationInstalled | CallVote _ | CallResetElectionTimeout _
  | CallReadonly _ | CallSnapshot _ | CallReadLog _ _ => True
  | _ => False
  end.

Lemma restful_rests c : restful c -> resting (perform env c : NM unit).
Proof.
  destruct c as [| | | | | | | | | | | | | | | | | | | | | | | | | | | | | |b| | | | |]; intros Hc; try done; simpl;
    unfold discard, update_configuration_after_installing_snapshot; try destruct b;
    try (apply obeys_bind; [exact _| |intros; by apply obeys_ret; exact _]);
    eauto using handle_snapshot_timeout_rests, handle_append_entries_cache_timedout_rests, handle_request_vote_request_rests,
      handle_pre_vote_request_rests, change_readonly_config_rests, check_and_set_conf_rests, vote_rests,
      reset_election_timeout_ms_rests, enter_readonly_mode_rests, leave_readonly_mode_rests, do_snapshot_rests,
      read_committed_user_log_rests.
Qed.

(** A timer that fires was started. *)
Definition timely (h : list Z) (c : Call) : Prop :=
  match c with CallGrantSelfTimeout PreVote v => v ∈ h | _ => True end.

Lemma perform_sound c : safe (fun h n => sound h n /\ timely h c) (perform env c) (fun _ => sound).
Proof.
  assert (forall m : NM unit, safe sound m (fun _ => sound) -> safe (fun h n => sound h n /\ timely h c) m (fun _ => sound)) as Hw.
  { intros m Hm. eapply safe_mono; [done|by intros h n [? _]]. }
  assert (restful c \/ ~ restful c) as [Hr|Hr] by (destruct c; simpl; tauto); [by apply Hw, rests_sound, restful_rests|].
  destruct c; simpl in Hr; try tauto; simpl;
    try (apply Hw; eauto using handle_election_timeout_sound, handle_vote_timeout_sound, handle_stepdown_timeout_sound,
      handle_transfer_timeout_sound, handle_request_vote_response_sound, handle_pre_vote_response_sound,
      handle_timeout_now_request_sound, handle_append_entries_request_sound, handle_append_entries_from_cache_sound,
      handle_install_snapshot_request_sound, resume_sound, run_node_closure_sound, on_caughtup_sound,
      execute_applying_tasks_sound, on_error_sound, shutdown_sound, after_shutdown_sound, discard_sound,
      get_leader_lease_status_sound, reset_peers_sound, transfer_leadership_to_sound; fail).
  - eapply safe_mono; [apply handle_grant_self_timedout_sound|]. intros h n [? Ht]. split; [done|]. by intros ->.
  - apply Hw, discard_sound, safe_true. unfold increase_term_to. apply safe_get_any. intros n0.
    destruct (_ <=? _); [by apply safe_ret; intros h n [? _]|].
    apply (safe_bind _ _ (fun _ => sound)); [apply step_down_end|intros _; by apply safe_ret].
  - apply Hw. unfold Node.add_peer. apply safe_get_any. intros n0. apply unsafe_register_conf_change_sound.
  - apply Hw. unfold Node.remove_peer. apply safe_get_any. intros n0. apply unsafe_register_conf_change_sound.
  - apply Hw. unfold Node.change_peers. apply safe_get_any. intros n0. apply unsafe_register_conf_change_sound.
Qed.

(** ** Starting a process *)

(** The term that is loaded may be any. *)
Definition loads (n n' : node) : Prop :=
  n'.(_state) = n.(_state) /\
  n'.(_ballot_box).(_pending_index) = n.(_ballot_box).(_pending_index) /\
  n'.(_ballot_box).(_pending_meta_queue) = n.(_ballot_box).(_pending_meta_queue) /\
  poll_version n <= poll_version n' /\ prevotes n' ⊆ prevotes n.

#[local] Instance loads_preorder : PreOrder loads.
Proof.
  split; [intros n; repeat split; try lia; done|].
  intros a b c (? & ? & ? & ? & ?) (? & ? & ? & ? & ?). split_and!; try congruence; try lia. set_solver.
Qed.

Definition starting (h : list Z) (n : node) : Prop := free h n /\ prevotes n = [].

Lemma starting_loads h n n' : loads n n' -> starting h n -> starting h n'.
Proof.
  intros (Hs & Hi & Hq & Hv & Hp) [Hf He].
  destruct (sound_not_leading _ h n (fun s H => H) Hf) as [([H1 _] & Hl & Hb) _].
  rewrite He in Hp. assert (prevotes n' = []) as He' by (destruct (prevotes n') as [|t l]; [done|]; by specialize (Hp t (list_elem_of_here _ _)) as ?%elem_of_nil).
  split; [|done]. split; [|by rewrite Hs]. right. split; [|by rewrite Hs, Hi, Hq]. split.
  - intros v Hin. destruct (H1 v Hin) as [? Hidle]. rewrite Hs. split; [lia|]. intros ->. apply Hidle. lia.
  - rewrite He'. by intros t ?%elem_of_nil.
Qed.

Lemma safe_loads {A} (m : NM A) : obeys loads untimed m -> safe starting m (fun _ => starting).
Proof. intros Hm. eapply safe_untimed; [done|]. intros h n n'. apply starting_loads. Qed.

Lemma rests_loads {A} (m : NM A) : resting m -> obeys loads untimed m.
Proof. apply obeys_mono; [by intros n n' [(? & ? & ? & ? & ? & ?) _]|done]. Qed.

Lemma log_loads {A} (m : M (LogManager S) LogManager.Event A) : obeys loads untimed (lift_log (Mt:=Mt) m).
Proof.
  intros n. unfold lift_log, state_of, events_of. destruct (m _) as [[a lm] ev].
  split; [by repeat split; simpl; try lia|]. apply Forall_forall. by intros e (x & -> & _)%list_elem_of_fmap.
Qed.

Lemma or_fail_sound (m k : NM Errno) :
  obeys loads untimed m -> safe starting k (fun _ => sound) -> safe starting (or_fail m k) (fun _ => sound).
Proof.
  intros Hm Hk. unfold or_fail. eapply safe_bind; [by apply safe_loads|]. intros e.
  destruct (negb _); [apply safe_ret; by intros h n [[? _] _]|exact Hk].
Qed.

Lemma load_then {A} (m : NM A) (k : NM Errno) :
  obeys loads untimed m -> safe starting k (fun _ => sound) -> safe starting (m ;; k) (fun _ => sound).
Proof. intros Hm Hk. eapply safe_bind; [by apply safe_loads|]. by intros a. Qed.

Lemma start_node_sound ie : safe free (start_node (S:=S) (Mt:=Mt) env ie) (fun _ => sound).
Proof.
  unfold start_node. apply safe_then; [apply modify_rests; intros; case_match; (split; [|done]); by repeat split; simpl; try lia|].
  intros _. set (F := fun s => s = STATE_FOLLOWER).
  apply (safe_bind _ _ (fun _ => sound_at F)).
  { apply safe_modify. intros h n Hs. destruct (sound_not_leading _ h n (fun s H => H) Hs) as [([H1 H2] & _ & Hb) _].
    assert (idle STATE_FOLLOWER) as Hi by (unfold idle; simpl; lia). apply not_leading_sound; [|done].
    split; [|split; [by apply idle_not_leads|exact Hb]]. split; intros x Hx; [destruct (H1 x Hx)|destruct (H2 x Hx)]; by split. }
  intros _. apply safe_get_any. intros n0. apply safe_then; [rest_leaf|]. intros _.
  apply (safe_bind _ _ (fun _ => free)).
  { unfold when. destruct (negb _).
    - eapply safe_mono; [apply step_down_any|by intros h n [? _]].
    - apply safe_skip. intros h n [? Hs]. split; [done|]. rewrite Hs. unfold leads. simpl. lia. }
  intros _. destruct (negb _); [apply safe_ret; by intros h n [? _]|]. apply safe_get_any. intros n1.
  apply (safe_bind _ _ (fun _ => sound)); [|intros _; by apply safe_ret].
  unfold when. destruct (_ && _); [apply elect_self_sound|apply skip_sound].
Qed.

Lemma init_meta_storage_loads ie : obeys loads untimed (init_meta_storage (S:=S) (Mt:=Mt) ie).
Proof.
  unfold init_meta_storage.
  repeat first [ solve [apply obeys_modify; intros; by repeat split; simpl; try lia]
               | solve [apply rests_loads, save_meta_rests] | solve [apply log_loads] | obey_step ].
Qed.

Lemma init_sound ie : safe starting (NodeLog.init (S:=S) (Mt:=Mt) env ie) (fun _ => sound).
Proof.
  assert (forall e : Errno, safe starting (mret e) (fun _ => sound)) as Hr by (intros e; apply safe_ret; by intros h n [[? _] _]).
  unfold NodeLog.init. apply safe_get_any. intros n0. destruct (_ =? IP_ANY); [apply Hr|]. destruct (negb (server_exists ie)); [apply Hr|].
  apply load_then; [apply rests_loads; unfold init_timers; rest_leaf|]. destruct (negb (apply_queue_ok ie)); [apply Hr|].
  apply load_then; [apply rests_loads; unfold init_leases; rest_leaf|].
  apply or_fail_sound; [unfold init_log_storage; destruct (log_storage ie); [apply log_loads|by apply obeys_ret; exact _]|].
  apply or_fail_sound; [by apply obeys_ret; exact _|].
  apply or_fail_sound; [intros n; split; [by repeat split; simpl; try lia|constructor]|].
  apply or_fail_sound.
  { intros n. unfold init_snapshot_storage, state_of, events_of. destruct (negb _); [by split|].
    destruct (snapshot_init ie _) as [e lm]. split; [by repeat split; simpl; try lia|constructor]. }
  apply or_fail_sound; [apply rests_loads; unfold check_log_consistency; rest_leaf|].
  apply load_then; [apply rests_loads; unfold init_conf; rest_leaf|].
  apply or_fail_sound; [apply init_meta_storage_loads|]. eapply safe_mono; [apply start_node_sound|by intros h n [? _]].
Qed.
End handlers.

(** ** Every life of a process *)

(** The ballot box as the replicators and the FSM caller use it. *)
Definition box_use (f : BallotBox -> BallotBox * list BallotBox.Event) : Prop :=
  (exists first last peer, f = fun bb => let '(_, bb', ev) := commit_at bb first last peer in (bb', ev)) \/
  (exists i, f = fun bb => let '(_, bb', ev) := pop_committed bb i in (bb', ev)).

(** A life goes from a start by calls and by the work of the other threads; these
    append nothing to the log of a leader and truncate nothing of its end, and
    only timers that were started fire. *)
Inductive lives (self : PeerId) : list Event -> node -> Prop :=
| lives_start env ie s m options n ev :
    NodeLog.init env ie (NodeImpl self s m options) = (OK, n, ev) -> lives self ev n
| lives_call evs env c n n' ev :
    lives self evs n -> timely (timers evs) c -> perform env c n = (tt, n', ev) -> lives self (evs ++ ev) n'
| lives_background evs m f n n' ev :
    lives self evs n -> (leads n.(_state) -> obeys log_rests any_log_event m) -> box_use f ->
    background m f n = (tt, n', ev) -> lives self (evs ++ ev) n'.

Lemma background_sound h (n : node) m f :
  (leads n.(_state) -> obeys log_rests any_log_event m) -> box_use f -> sound h n ->
  CheckFailed ∈ events_of (background m f n) \/
  sound (h ++ timers (events_of (background m f n))) (state_of (background m f n)).
Proof.
  intros Hm Hf Hs. assert (safe (fun h n' => n' = n /\ sound h n') (background m f) (fun _ => sound)) as H; [|by apply H].
  unfold background. apply (safe_bind _ _ (fun _ => sound)).
  - intros h1 n1 [-> Hn]. right. destruct Hn as [Hn|Hn].
    + destruct (lift_log_rests m (Hm (proj1 (proj2 Hn))) n) as [Hr Hu]. rewrite (untimed_timers _ Hu), app_nil_r.
      left. by eapply lead_by_rests.
    + unfold lift_log, state_of, events_of. destruct (m _) as [[a lm] ev]. simpl.
      rewrite (untimed_timers (map EvLog ev)), app_nil_r; [by right|].
      apply Forall_forall. by intros x (y & -> & _)%list_elem_of_fmap.
  - intros _. apply commit_sound. intros bb. destruct Hf as [(first & last & p & ->)|(i & ->)].
    + pose proof (commit_at_end bb first last p) as [H1 H2]. destruct (commit_at _ _ _ _) as [[r bb'] ev]. simpl in *.
      split; [done|]. intros Hz. by rewrite H2.
    + unfold pop_committed. by destruct (ClosureQueue.pop_closure_until _ _) as [[r q] ev].
Qed.

Lemma lives_sound self evs n : lives self evs n -> CheckFailed ∈ evs \/ sound (timers evs) n.
Proof.
  induction 1 as [env ie s m o n ev Hi|evs env c n n' ev _ IH Ht Hp|evs m f n n' ev _ IH Hm Hf Hp].
  - pose proof (init_sound env ie [] (NodeImpl self s m o)) as H. unfold value_of, state_of, events_of in H. rewrite Hi in H.
    apply H. split; [|done]. split; [|unfold leads; simpl; lia]. right.
    split; [|split; [unfold leads; simpl; lia|done]]. by split; intros x ?%elem_of_nil.
  - destruct IH as [Hc|Hs]; [left; apply elem_of_app; by left|].
    pose proof (perform_sound env c (timers evs) n (conj Hs Ht)) as H. unfold value_of, state_of, events_of in H.
    rewrite Hp in H. destruct H as [?|H]; [left; apply elem_of_app; by right|right]. unfold timers. by rewrite omap_app.
  - destruct IH as [Hc|Hs]; [left; apply elem_of_app; by left|].
    pose proof (background_sound (timers evs) n m f Hm Hf Hs) as H. unfold state_of, events_of in H.
    rewrite Hp in H. destruct H as [?|H]; [left; apply elem_of_app; by right|right]. unfold timers. by rewrite omap_app.
Qed.

(** ** What a ballot is made of *)
Abbreviation ballots n := (n.(_ballot_box).(_pending_meta_queue)).

(** The ballot of an entry appended under the configuration of [n]. *)
Definition ballot_under (n : node) : Ballot :=
  Ballot.init n.(_conf).(conf) (if stable n.(_conf) then None else Some n.(_conf).(old_conf)).

Definition accepted (n : node) (tasks : list Task) : list Task :=
  filter (fun t => term_matches n.(_current_term) t = true) tasks.

Lemma state_bind {A B} (m : NM A) (f : A -> NM B) n :
  state_of ((m ≫= f) n) = state_of (f (value_of (m n)) (state_of (m n))).
Proof. unfold mbind, M_bind, state_of, value_of. destruct (m n) as [[a n1] e1]. cbn. by destruct (f a n1) as [[b n2] e2]. Qed.

Lemma accepted_cons (n : node) t tasks :
  accepted n (t :: tasks) = (if term_matches n.(_current_term) t then [t] else []) ++ accepted n tasks.
Proof. unfold accepted. rewrite filter_cons. destruct (term_matches _ t); [by rewrite decide_True|by rewrite decide_False]. Qed.

Lemma append_task_ballots n0 t (n : node) :
  let n' := state_of (append_task n0 t n) in
  ballots n' = ballots n ++ (if term_matches n0.(_current_term) t then [ballot_under n0] else []) /\
  n'.(_log_manager) = n.(_log_manager).
Proof.
  unfold append_task, reject_task, run_closure, lift_box', lift_box, append_pending_task.
  destruct (term_matches _ t); cbn [negb]; [done|]. destruct (task_done t); cbn; by rewrite app_nil_r.
Qed.

Lemma append_tasks_ballots n0 tasks (n : node) :
  let n' := state_of (mapM_ (append_task n0) tasks n) in
  ballots n' = ballots n ++ map (fun _ => ballot_under n0) (accepted n0 tasks) /\ n'.(_log_manager) = n.(_log_manager).
Proof.
  revert n. induction tasks as [|t tasks IH]; intros n; [cbn; by rewrite app_nil_r|]. rewrite mapM_cons, accepted_cons.
  pose proof (append_task_ballots n0 t n) as [Hq Hl]. unfold mbind, M_bind, state_of in *.
  destruct (append_task n0 t n) as [[u n1] e1]. cbn in Hq, Hl |- *. specialize (IH n1) as [Hq' Hl'].
  destruct (mapM_ (append_task n0) tasks n1) as [[u' n2] e2]. cbn in Hq', Hl' |- *.
  rewrite Hq', Hq, Hl', Hl, <- app_assoc. split; [|done]. f_equal. by destruct (term_matches _ t).
Qed.

(** What follows the ballots: the entries go to the log, and the configuration
    is the log's. *)
Abbreviation log_entries entries k :=
  (stable ← new_closure k; lift_log (LogManager.append_entries entries (stable_closure stable)) ;; check_and_set_conf).

Lemma log_tail entries k (n : node) :
  let n' := state_of (log_entries entries k n) in
  ballots n' = ballots n /\
  n'.(_log_manager) = state_of (LogManager.append_entries entries (stable_closure n.(_next_closure)) n.(_log_manager)).
Proof.
  unfold new_closure, lift_log, check_and_set_conf. unfold mbind, M_bind, get, modify, mret, M_ret, state_of. cbn.
  destruct (LogManager.append_entries _ _ _) as [[a lm] ev]. cbn. by destruct (check_and_set_configuration _ _).
Qed.

Lemma apply_ballots tasks (n : node) : n.(_state) = STATE_LEADER -> readonly n = false ->
  let n' := state_of (NodeLog.apply tasks n) in
  ballots n' = ballots n ++ map (fun _ => ballot_under n) (accepted n tasks) /\
  exists c, n'.(_log_manager) =
    state_of (LogManager.append_entries (map (data_entry n.(_current_term)) (accepted n tasks)) c n.(_log_manager)).
Proof.
  intros Hs Hr. unfold NodeLog.apply. rewrite get_bind, Hs, Hr. cbn [negb orb bool_decide decide_rel]. rewrite bool_decide_true by done. cbn [negb orb].
  rewrite state_bind. destruct (append_tasks_ballots n tasks n) as [Hq Hl]. rewrite <- Hq, <- Hl.
  match goal with |- context [log_entries ?es ?k] =>
    destruct (log_tail es k (state_of (mapM_ (append_task n) tasks n))) as [Hq' Hl'] end.
  split; [exact Hq'|by eexists].
Qed.

Lemma configuration_ballot new_conf old_conf b (n : node) :
  let n' := state_of (unsafe_apply_configuration new_conf old_conf b n) in
  ballots n' = ballots n ++ [Ballot.init new_conf old_conf] /\
  exists c, n'.(_log_manager) =
    state_of (LogManager.append_entries [configuration_entry n.(_current_term) new_conf old_conf] c n.(_log_manager)).
Proof.
  unfold unsafe_apply_configuration. rewrite get_bind. do 3 rewrite state_bind.
  assert (state_of (Node.check (is_busy n.(_conf_ctx)) n) = n) as -> by (unfold Node.check; by destruct (is_busy _)).
  match goal with |- context [log_entries ?es ?k] =>
    match goal with |- context [state_of (log_entries es k ?n1)] => destruct (log_tail es k n1) as [Hq Hl] end end.
  split; [exact Hq|eexists; exact Hl].
Qed.

(** C5: the ballots of a leader and its log.  In every life of a process, with
    calls in any order and any interleaving, in which no [CHECK] failed: while the
    node leads or transfers its leadership and its log manager has reported no
    error, there is one pending ballot for each index from [_pending_index] to
    the last of the log; a node in any other state has none.  The ballots are
    queued with the entries they are for: [apply] on a leader that is not
    readonly queues, for each task it accepts, a ballot of the configuration in
    force (both configurations while they are joint), and gives the log the
    entries of exactly these tasks, in order; a configuration entry comes with
    the ballot of the very configurations it carries. *)
Theorem leader_ballots_aligned self evs n :
  lives self evs n -> CheckFailed ∉ evs ->
  (leads n.(_state) -> n.(_log_manager).(_has_error) = false ->
     n.(_ballot_box).(_pending_index) + zlen n.(_ballot_box).(_pending_meta_queue) = n.(_log_manager).(_last_log_index) + 1) /\
  (~ leads n.(_state) -> n.(_ballot_box).(_pending_index) = 0 /\ n.(_ballot_box).(_pending_meta_queue) = []) /\
  (forall tasks, n.(_state) = STATE_LEADER -> readonly n = false ->
     let n' := state_of (NodeLog.apply tasks n) in
     let ts := filter (fun t => term_matches n.(_current_term) t = true) tasks in
     let b := Ballot.init n.(_conf).(conf) (if stable n.(_conf) then None else Some n.(_conf).(old_conf)) in
     n'.(_ballot_box).(_pending_meta_queue) = n.(_ballot_box).(_pending_meta_queue) ++ map (fun _ => b) ts /\
     exists c, n'.(_log_manager) =
       state_of (LogManager.append_entries (map (data_entry n.(_current_term)) ts) c n.(_log_manager))) /\
  (forall new_conf old_conf start,
     let n' := state_of (unsafe_apply_configuration new_conf old_conf start n) in
     let e := configuration_entry n.(_current_term) new_conf old_conf in
     n'.(_ballot_box).(_pending_meta_queue) =
       n.(_ballot_box).(_pending_meta_queue) ++ [Ballot.init (default [] e.(peers)) e.(old_peers)] /\
     exists c, n'.(_log_manager) = state_of (LogManager.append_entries [e] c n.(_log_manager))).
Proof.
  intros Hl Hc. split; [|split; [|split]].
  - destruct (lives_sound _ _ _ Hl) as [?|[(_ & H1 & H2)|(_ & H1 & H2)]]; [done| |done].
    intros _ He. unfold box_end in H2. rewrite H2 by done. lia.
  - by destruct (lives_sound _ _ _ Hl) as [?|[(_ & H1 & H2)|(_ & H1 & H2)]].
  - intros tasks. apply apply_ballots.
  - intros new_conf old_conf start. apply configuration_ballot.
Qed.
End node.
