(* ===== verification/JointConsensus.v ===== *)
(** * JointConsensus: the quorums of a configuration change overlap

    Each step of a configuration change puts another configuration in force for
    the entries that follow.  Any majority of the one and any majority of the
    next have a common voter: two configurations that differ in at most one
    peer, and the joint configuration with either of its halves. *)

From S2P Require Import PeerText AppendEntriesCache LogManager LogStorage BallotBox Ballot NodeState Node NodeLog NodeVote VoteSafety Types Prelude.

(** A configuration, and the old one in the joint stage. *)
Abbreviation Quorum := (Configuration * option Configuration)%type.

(** ** Majorities of configurations that differ in one peer *)
Section adjacent.
Context `{EPO : EndPointOrder}.

Abbreviation voters gs c := (filter (fun p => grants_of gs p = true) c).

Lemma filter_wf (P : PeerId -> Prop) `{!forall p, Decision (P p)} c : conf_wf c -> conf_wf (filter P c).
Proof.
  unfold conf_wf. induction 1 as [|p c _ IH Hp]; [constructor|]. rewrite filter_cons.
  destruct (decide (P p)); [|done]. constructor; [done|]. rewrite Forall_forall in *.
  intros q [_ Hq]%list_elem_of_filter. by apply Hp.
Qed.

Lemma grants_of_equiv gs p q : p ≡ q -> grants_of gs p = grants_of gs q.
Proof.
  intros Heq. unfold grants_of. induction gs as [|g gs IH]; [done|]. simpl. rewrite IH. f_equal.
  apply eq_true_iff_eq. rewrite !peer_eqb_equiv. by rewrite Heq.
Qed.

Lemma contains_voters gs c p : contains (voters gs c) p = contains c p && grants_of gs p.
Proof.
  apply eq_true_iff_eq. rewrite andb_true_iff, !contains_spec. split.
  - intros (q & [Hg Hq]%list_elem_of_filter & Heq). rewrite <- (grants_of_equiv gs q p Heq). eauto.
  - intros [(q & Hq & Heq) Hg]. exists q. split; [|done]. apply list_elem_of_filter.
    by rewrite (grants_of_equiv gs q p Heq).
Qed.

(** A configuration has at least the voters of its subsets. *)
Lemma voters_subset gs c d :
  conf_wf c -> conf_wf d -> (forall p, contains c p = true -> contains d p = true) ->
  zlen (voters gs c) <= zlen (voters gs d).
Proof.
  intros Hc Hd Hcd. unfold zlen. apply inj_le, conf_incl_length; [by apply filter_wf..|].
  intros p. rewrite !contains_voters, !andb_true_iff. intros [? ?]. auto.
Qed.

Lemma erase_length l c : conf_wf c -> zlen c <= zlen (fold_left (fun s p => set_erase p s) l c) + zlen l.
Proof.
  revert c. induction l as [|p l IH]; intros c Hc; simpl; [unfold zlen; simpl; lia|].
  specialize (IH (set_erase p c) (set_erase_wf p c Hc)). rewrite zlen_cons.
  assert (zlen c <= zlen (set_erase p c) + 1) as Hp; [|lia].
  destruct (contains c p) eqn:Hcp; unfold zlen.
  - rewrite (conf_filter_length p c Hc Hcp). lia.
  - enough (set_erase p c = c) as -> by lia. unfold set_erase. apply filter_keep_all. intros q Hq.
    apply not_true_is_false. intros Heq. enough (contains c p = true) by congruence.
    apply contains_spec. exists q. split; [done|]. by apply peer_eqb_equiv.
Qed.

(** Nothing was excluded: the old configuration is a subset of the new one. *)
Lemma diffs_nil c d : conf_wf c -> conf_wf d -> (diffs c d).2 = [] -> forall p, contains d p = true -> contains c p = true.
Proof.
  intros Hc Hd Hn p Hp. pose proof (diffs_partition c d Hc Hd) as H. destruct (diffs c d) as [inc exc]. simpl in Hn. subst exc.
  destruct H as (_ & _ & _ & H). specialize (H p). rewrite Hp in H. simpl in H. by destruct (contains c p).
Qed.

Lemma superset_majorities c d gs1 gs2 :
  conf_wf c -> conf_wf d -> (forall p, contains d p = true -> contains c p = true) -> zlen c <= zlen d + 1 ->
  majority c gs1 -> majority d gs2 -> exists p, grants_of gs1 p = true /\ grants_of gs2 p = true.
Proof.
  intros Hc Hd Hsub Hlen H1 H2. unfold majority in *. pose proof (voters_subset gs2 d c Hd Hc Hsub) as Hv.
  destruct (filter_overlap (fun p => grants_of gs1 p = true) (fun p => grants_of gs2 p = true) c) as (p & _ & ? & ?); [|by exists p].
  unfold zlen in *. pose proof (Z.div_mod (Z.of_nat (length c)) 2 ltac:(lia)). pose proof (Z.mod_pos_bound (Z.of_nat (length c)) 2 ltac:(lia)).
  pose proof (Z.div_mod (Z.of_nat (length d)) 2 ltac:(lia)). pose proof (Z.mod_pos_bound (Z.of_nat (length d)) 2 ltac:(lia)). lia.
Qed.

(** The number of peers a change adds and removes. *)
Definition nchanges (c d : Configuration) : Z := zlen (diffs c d).1 + zlen (diffs c d).2.

Lemma adjacent_majorities c d gs1 gs2 :
  conf_wf c -> conf_wf d -> nchanges c d <= 1 -> majority c gs1 -> majority d gs2 ->
  exists p, grants_of gs1 p = true /\ grants_of gs2 p = true.
Proof.
  intros Hc Hd Hn H1 H2. unfold nchanges in Hn.
  assert (zlen c <= zlen (diffs c d).1 + zlen d) as Hi by (unfold diffs; simpl; by apply erase_length).
  assert (zlen d <= zlen (diffs c d).2 + zlen c) as He by (unfold diffs; simpl; by apply erase_length).
  assert ((diffs c d).2 = [] \/ (diffs d c).2 = []) as [Hnil|Hnil].
  { change (diffs d c).2 with (diffs c d).1. destruct (diffs c d) as [[|x inc] [|y exc]]; simpl in *; auto.
    rewrite !zlen_cons in Hn. pose proof (zlen_nonneg inc). pose proof (zlen_nonneg exc). lia. }
  - apply (superset_majorities c d); [done..|by apply diffs_nil| |done|done]. pose proof (zlen_nonneg (diffs c d).2). lia.
  - destruct (superset_majorities d c gs2 gs1) as (p & ? & ?); [done..|by apply diffs_nil| |done|done|by exists p].
    pose proof (zlen_nonneg (diffs c d).1). lia.
Qed.

(** ** Configurations in force *)

(** Every quorum of the one has a voter in common with every quorum of the other. *)
Definition overlap (q1 q2 : Quorum) : Prop :=
  forall gs1 gs2, quorum_granted q1.1 q1.2 gs1 -> quorum_granted q2.1 q2.2 gs2 ->
  exists p, grants_of gs1 p = true /\ grants_of gs2 p = true.

Lemma overlap_shared c q1 q2 : voted_under c q1.1 q1.2 -> voted_under c q2.1 q2.2 -> overlap q1 q2.
Proof.
  intros H1 H2 gs1 gs2 Hg1 Hg2. destruct (majority_intersect c gs1 gs2) as (p & _ & ? & ?);
    [exact (quorum_granted_majority _ _ _ _ H1 Hg1)|exact (quorum_granted_majority _ _ _ _ H2 Hg2)|by exists p].
Qed.

(** The configurations in force at each stage of a change. *)
Definition in_force (c : ConfigurationCtx) : Quorum :=
  match c.(_stage) with
  | STAGE_CATCHING_UP => (c.(_old_peers), None)
  | STAGE_JOINT => (c.(_new_peers), Some c.(_old_peers))
  | _ => (c.(_new_peers), None)
  end.

Definition ctx_wf (c : ConfigurationCtx) : Prop :=
  conf_wf c.(_new_peers) /\ conf_wf c.(_old_peers) /\
  (c.(_stage) = STAGE_CATCHING_UP -> c.(_nchanges) = nchanges c.(_new_peers) c.(_old_peers)).
End adjacent.

(** ** The operations of a change *)
Section change.
Context {S Mt : Type} `{LS : LogStorage S} `{MS : RaftMetaStorage Mt} `{EPO : EndPointOrder} `{IT : IpText}.

Abbreviation node := (Node S Mt).
Abbreviation NM := (M node Event).
Abbreviation queue n := (n.(_ballot_box).(_pending_meta_queue)).

(** The change is over, or what is in force stays, or something else comes into
    force with a ballot of its own, and its quorums overlap with those before. *)
Definition progress (q0 : Quorum) (n n' : node) : Prop :=
  is_busy n'.(_conf_ctx) = true -> ctx_wf n'.(_conf_ctx) /\
  let q := in_force n'.(_conf_ctx) in
  (q = q0 /\ queue n' = queue n \/ overlap q0 q /\ queue n' = queue n ++ [Ballot.init q.1 q.2]).

(** Nothing of the change moves. *)
Definition unchanged (n n' : node) : Prop := n'.(_conf_ctx) = n.(_conf_ctx) /\ queue n' = queue n.

#[export] Instance unchanged_preorder : PreOrder unchanged.
Proof. split; [done|]. intros a b c [? ?] [? ?]. split; congruence. Qed.

(** A change that is over stays so. *)
Definition stays_over (n n' : node) : Prop := is_busy n.(_conf_ctx) = false -> is_busy n'.(_conf_ctx) = false.

#[export] Instance stays_over_preorder : PreOrder stays_over.
Proof. split; [by intros n ?|]. intros a b c. unfold stays_over. auto. Qed.

Abbreviation still := (obeys unchanged any_event).
Abbreviation over := (obeys stays_over any_event).

Lemma still_over {A} (m : NM A) : still m -> over m.
Proof. apply obeys_mono; [|done]. intros n n' [Hc _] H. by rewrite Hc. Qed.

Lemma lift_log_still {A} (m : M (LogManager S) LogManager.Event A) : still (lift_log (Mt:=Mt) m).
Proof. intros n. unfold lift_log, state_of, events_of. destruct (m _) as [[a p] ev]. split; [done|by apply Forall_true]. Qed.
Lemma lift_cache_still {A} c (m : M AppendEntriesCache AppendEntriesCache.Event A) : still (lift_cache (S:=S) (Mt:=Mt) c m).
Proof. intros n. unfold lift_cache, state_of, events_of. destruct (m c) as [[a p] ev]. split; [done|by apply Forall_true]. Qed.
Lemma save_meta_still t v : still (save_meta (S:=S) (Mt:=Mt) t v).
Proof. intros n. unfold save_meta, state_of, events_of. destruct (set_term_and_votedfor t v _) as [e m]. by split; [|constructor]. Qed.
Lemma lift_box_over {A} (f : BallotBox -> A * BallotBox * list BallotBox.Event) : over (lift_box (S:=S) (Mt:=Mt) f).
Proof.
  intros n. unfold lift_box, state_of, events_of. destruct (f _) as [[a p] ev]. split; [by unfold stays_over|by apply Forall_true].
Qed.
Lemma lift_box'_over f : over (lift_box' (S:=S) (Mt:=Mt) f).
Proof. apply lift_box_over. Qed.
Hint Resolve lift_log_still lift_cache_still save_meta_still : obeys.
Ltac by_still := repeat first
  [ solve [apply obeys_modify; intros; repeat case_match; done] | solve [by apply obeys_emit; [exact _|]] | obey_step ].
Ltac by_over := repeat first
  [ solve [apply obeys_modify; intros; unfold stays_over; repeat case_match; done]
  | solve [by apply obeys_emit; [exact _|]] | solve [eauto using still_over, lift_box_over, lift_box'_over with obeys] | obey_step ].

Section operations.
Context (env : Env).

Lemma check_still b : still (Node.check (S:=S) (Mt:=Mt) b).
Proof. unfold Node.check. by_still. Qed.
Lemma new_closure_still k : still (new_closure (S:=S) (Mt:=Mt) k).
Proof. unfold new_closure. by_still. Qed.
Lemma run_closure_still c e : still (run_closure (S:=S) (Mt:=Mt) c e).
Proof. unfold run_closure. by_still. Qed.
Lemma check_and_set_conf_still : still (check_and_set_conf (S:=S) (Mt:=Mt)).
Proof. unfold check_and_set_conf. by_still. Qed.
Lemma majority_still c : still (check_majority_nodes_readonly_conf (S:=S) (Mt:=Mt) env c).
Proof. unfold check_majority_nodes_readonly_conf. by_still. Qed.
Hint Resolve check_still new_closure_still run_closure_still check_and_set_conf_still majority_still : obeys.
Lemma check_majority_nodes_readonly_still : still (check_majority_nodes_readonly (S:=S) (Mt:=Mt) env).
Proof. unfold check_majority_nodes_readonly. by_still. Qed.
Lemma stop_replicator_still k d : still (stop_replicator (S:=S) (Mt:=Mt) k d).
Proof. unfold stop_replicator. by_still. Qed.
Lemma clear_append_entries_cache_still : still (clear_append_entries_cache (S:=S) (Mt:=Mt) env).
Proof. unfold clear_append_entries_cache. by_still. Qed.
Lemma reset_leader_id_still p e : still (reset_leader_id (S:=S) (Mt:=Mt) env p e).
Proof. unfold reset_leader_id. by_still. Qed.
Lemma raise_term_still t : still (raise_term (S:=S) (Mt:=Mt) t).
Proof. unfold raise_term. by_still. Qed.
Hint Resolve still_over check_majority_nodes_readonly_still stop_replicator_still clear_append_entries_cache_still
  reset_leader_id_still raise_term_still : obeys.

(** A configuration that is applied gets a ballot under itself. *)
Lemma unsafe_apply_configuration_ballot c o b (n : node) :
  let n' := state_of (unsafe_apply_configuration c o b n) in
  n'.(_conf_ctx) = n.(_conf_ctx) /\ queue n' = queue n ++ [Ballot.init c o].
Proof.
  enough (wp (unsafe_apply_configuration c o b)
    (fun _ n' _ => n'.(_conf_ctx) = n.(_conf_ctx) /\ queue n' = queue n ++ [Ballot.init c o]) n) as H by exact H.
  assert (forall A (m : NM A) n1 (Q : A -> node -> list Event -> Prop), still m ->
          (forall a n2 ev, unchanged n1 n2 -> Q a n2 ev) -> wp m Q n1) as Hstill.
  { intros A m n1 Q Hm HQ. eapply wp_obeys; [exact Hm|]. eauto. }
  unfold unsafe_apply_configuration. apply wp_bind, wp_get, wp_bind, Hstill; [apply check_still|].
  intros _ n1 _ [Hc1 Hq1]. cbv zeta. apply wp_bind, Hstill; [apply new_closure_still|].
  intros c1 n2 _ [Hc2 Hq2]. apply wp_bind. unfold wp at 1, lift_box', lift_box, append_pending_task, state_of, value_of, events_of. simpl.
  apply wp_bind, Hstill; [apply new_closure_still|]. intros c2 n3 _ [Hc3 Hq3]. apply wp_bind, Hstill; [apply lift_log_still|].
  intros r n4 _ [Hc4 Hq4]. apply Hstill; [apply check_and_set_conf_still|]. intros u n5 _ [Hc5 Hq5]. simpl in *. split; congruence.
Qed.

(** Resetting a change ends it. *)
Lemma conf_ctx_reset_over st (n : node) : is_busy (state_of (conf_ctx_reset env st n)).(_conf_ctx) = false.
Proof.
  enough (wp (conf_ctx_reset env st) (fun _ n' _ => is_busy n'.(_conf_ctx) = false) n) as H by exact H.
  unfold conf_ctx_reset. apply wp_bind, wp_get. destruct (is_busy (_conf_ctx n)) eqn:Hb; simpl; [|exact Hb].
  apply wp_bind. eapply wp_mono with (Q := fun _ _ _ => True); [|done]. intros _ n1 _ _. apply wp_bind, wp_modify.
  eapply (wp_obeys stays_over any_event); [by_over|]. intros u n2 ev Hn _. by apply Hn.
Qed.

Lemma step_down_over t b e : over (step_down (S:=S) (Mt:=Mt) env t b e).
Proof.
  assert (forall st, over (conf_ctx_reset (S:=S) (Mt:=Mt) env st)) as Hr.
  { intros st n. split; [intros _; apply conf_ctx_reset_over|by apply Forall_true]. }
  unfold step_down, leave_state. by_over. all: apply Hr.
Qed.

Lemma over_progress q0 (n n' : node) : is_busy n'.(_conf_ctx) = false -> progress q0 n n'.
Proof. intros Hb Hb'. congruence. Qed.

(** Applying the configuration of the stage the change has moved to. *)
Lemma apply_progress q0 (n n1 : node) c o :
  queue n1 = queue n -> in_force n1.(_conf_ctx) = (c, o) -> ctx_wf n1.(_conf_ctx) -> overlap q0 (c, o) ->
  progress q0 n (state_of (unsafe_apply_configuration c o false n1)).
Proof.
  intros Hq Hf Hw Ho _. destruct (unsafe_apply_configuration_ballot c o false n1) as [-> ->]. rewrite Hf, Hq.
  split; [done|]. by right.
Qed.

Lemma next_stage_progress (n : node) :
  ctx_wf n.(_conf_ctx) -> progress (in_force n.(_conf_ctx)) n (state_of (next_stage env n)).
Proof.
  intros (Hn & Ho & Hc). unfold next_stage. rewrite get_bind.
  assert (forall m : NM unit, state_of ((Node.check (is_busy n.(_conf_ctx)) ;; m) n) = state_of (m n)) as Hck.
  { intros m. unfold Node.check, state_of. destruct (is_busy _); run; by destruct (m n) as [[u n1] ev]. }
  rewrite Hck. cbv zeta. unfold in_force. destruct (_stage _) eqn:Hs.
  - apply over_progress. unfold is_busy, state_of. simpl. by rewrite Hs.
  - specialize (Hc eq_refl). destruct (Z.ltb_spec 1 (NodeState._nchanges (_conf_ctx n))); rewrite modify_bind.
    + apply apply_progress; [done|done|by repeat split|]. by apply (overlap_shared (_old_peers (_conf_ctx n))); [left|right].
    + apply apply_progress; [done|done|by repeat split|]. intros gs1 gs2 [H1 _] [H2 _].
      rewrite Hc in H. by destruct (adjacent_majorities _ _ gs2 gs1 Hn Ho H H2 H1) as (p & ? & ?); exists p.
  - rewrite modify_bind. apply apply_progress; [done|done|by repeat split|].
    by apply (overlap_shared (_new_peers (_conf_ctx n))); left.
  - apply over_progress.
    match goal with |- context [state_of ((conf_ctx_reset env ?st ;; ?k) n)] =>
      pose proof (conf_ctx_reset_over st n) as Hr; assert (over k) as Hk end.
    { unfold when. destruct (negb _); [|by apply obeys_skip; exact _].
      apply obeys_bind; [exact _|by apply obeys_get; exact _|intros n1; apply step_down_over]. }
    unfold mbind, M_bind, state_of in *. destruct (conf_ctx_reset _ _ n) as [[u n1] ev]. simpl in *.
    destruct (Hk n1) as [H _]. unfold stays_over, state_of in H. destruct (when _ _ n1) as [[v n2] ev2]. by apply H.
Qed.

(** A change as the code drives it, with what is in force before. *)
Inductive ctx_op (n : node) : Quorum -> NM unit -> Prop :=
| op_start old_conf new_conf done :
    conf_wf old_conf -> conf_wf new_conf -> ctx_op n (old_conf, None) (conf_ctx_start env old_conf new_conf done)
| op_caughtup version peer succ :
    ctx_wf n.(_conf_ctx) -> ctx_op n (in_force n.(_conf_ctx)) (conf_ctx_on_caughtup env version peer succ)
| op_committed :
    ctx_wf n.(_conf_ctx) -> ctx_op n (in_force n.(_conf_ctx)) (next_stage env)
| op_reset st :
    ctx_wf n.(_conf_ctx) -> ctx_op n (in_force n.(_conf_ctx)) (conf_ctx_reset env st).

Definition advances (q0 : Quorum) (n : node) {A} (r : A * node * list Event) : Prop :=
  CheckFailed ∈ events_of r \/ progress q0 n (state_of r).

Lemma check_fails (k : NM unit) n : CheckFailed ∈ events_of ((emit CheckFailed ;; k) n).
Proof. unfold events_of. rewrite emit_bind. destruct (k n) as [[u n1] ev]. apply list_elem_of_here. Qed.

Lemma on_caughtup_advances v p b (n : node) :
  ctx_wf n.(_conf_ctx) -> advances (in_force n.(_conf_ctx)) n (conf_ctx_on_caughtup env v p b n).
Proof.
  intros Hw. unfold conf_ctx_on_caughtup, advances. rewrite get_bind. cbv zeta.
  destruct (negb _); [right; intros Hb; split; [exact Hw|by left]|].
  unfold Node.check. destruct (bool_decide_reflect (_stage (_conf_ctx n) = STAGE_CATCHING_UP)) as [Hs|].
  2:{ left. apply check_fails. }
  right. assert (forall m : NM unit, state_of ((skip ;; m) n) = state_of (m n)) as Hsk.
  { intros m. unfold state_of. run. by destruct (m n) as [[u n1] ev]. }
  rewrite Hsk. destruct b; [|apply over_progress, conf_ctx_reset_over]. rewrite modify_bind.
  set (n1 := n <| _conf_ctx := _ |>). assert (ctx_wf n1.(_conf_ctx)) as Hw1 by exact Hw.
  assert (in_force n1.(_conf_ctx) = in_force n.(_conf_ctx)) as Hf by done.
  unfold when. destruct (bool_decide _); [|intros Hb; split; [exact Hw1|by left]].
  pose proof (next_stage_progress n1 Hw1) as H. by rewrite Hf in H.
Qed.

Lemma start_catchup_advances l (n : node) :
  ctx_wf n.(_conf_ctx) -> advances (in_force n.(_conf_ctx)) n (start_catchup env l n).
Proof.
  intros Hw. induction l as [|p l IH]; [right; intros Hb; split; [exact Hw|by left]|].
  simpl. rewrite get_bind. unfold advances.
  assert (forall e (m : NM unit), advances (in_force n.(_conf_ctx)) n (m n) ->
          CheckFailed ∈ events_of ((emit e ;; m) n) \/ progress (in_force n.(_conf_ctx)) n (state_of ((emit e ;; m) n))) as He.
  { intros e m Hm. rewrite emit_bind. unfold advances, events_of, state_of in *. destruct (m n) as [[u n1] ev]. simpl in *.
    destruct Hm as [?|?]; [left; by apply list_elem_of_further|by right]. }
  apply He. destruct (negb _); [by apply on_caughtup_advances|]. destruct (negb _); [by apply on_caughtup_advances|].
  apply He, IH.
Qed.

Lemma start_advances c d dn (n : node) :
  conf_wf c -> conf_wf d -> advances (c, None) n (conf_ctx_start env c d dn n).
Proof.
  intros Hc Hd. unfold conf_ctx_start. rewrite get_bind.
  assert (forall b (m : NM unit), advances (c, None) n (m n) -> advances (c, None) n ((Node.check b ;; m) n)) as Hck.
  { intros b m Hm. unfold Node.check, advances, events_of, state_of in *. destruct b; run; destruct (m n) as [[u n1] ev]; [exact Hm|].
    left. apply list_elem_of_here. }
  apply Hck, Hck. pose proof (eq_refl (nchanges d c)) as Hn. unfold nchanges in Hn at 2.
  destruct (diffs d c) as [adding removing]. simpl in Hn. rewrite modify_bind. set (n1 := n <| _conf_ctx := _ |>).
  assert (ctx_wf n1.(_conf_ctx)) as Hw by (split_and!; [exact Hd|exact Hc|intros _; exact (eq_sym Hn)]).
  assert (forall r : unit * node * list Event, advances (in_force n1.(_conf_ctx)) n1 r -> advances (c, None) n r) as Hr by done.
  destruct (bool_decide _); [apply Hr; right; by apply next_stage_progress|]. rewrite modify_bind.
  set (n2 := n1 <| _conf_ctx := _ |>). apply (start_catchup_advances adding n2). exact Hw.
Qed.

(** C9: joint consensus.  Whenever an operation of a configuration change
    (starting it, a peer that caught up or failed to, the commit of one of its
    entries, its end) is run and no [CHECK] fails, then, as long as the change is
    not over, either the configurations in force stay, or others come into
    force, with a ballot over just them for the entry that announces them; and
    then every quorum of the configurations in force before and every quorum of
    those in force after have a common voter.  This holds for a change of one
    peer, which skips the joint stage, and for one of many, which does not. *)
Theorem conf_change_quorums_overlap n q0 (m : NM unit) :
  ctx_op n q0 m -> CheckFailed ∉ events_of (m n) ->
  let n' := state_of (m n) in is_busy n'.(_conf_ctx) = true ->
  ctx_wf n'.(_conf_ctx) /\
  let q := in_force n'.(_conf_ctx) in
  (q = q0 /\ queue n' = queue n \/ overlap q0 q /\ queue n' = queue n ++ [Ballot.init q.1 q.2]).
Proof.
  intros Hop Hck. assert (advances q0 n (m n)) as [?|H]; [|done|exact H].
  destruct Hop; [by apply start_advances|by apply on_caughtup_advances|right; by apply next_stage_progress|].
  right. apply over_progress, conf_ctx_reset_over.
Qed.
End operations.
End change.
