(* ===== verification/LeaseQuorum.v ===== *)
(** * LeaseQuorum: a leader's lease rests on a quorum

    [last_leader_active_timestamp] picks, with a heap, the latest time since
    which a majority of each configuration in force counts as heard from, the
    leader counted in: a peer does when its replicator has started or had an answer
    since.  A lease that is renewed with it is therefore valid only while a majority
    does within the election timeout. *)

From S2P Require Import PeerText LogManager LogStorage Lease NodeState Node Types Prelude.

(** ** The heap *)
Abbreviation ascending := (StronglySorted Z.le).

Lemma push_heap_perm t h : push_heap t h ≡ₚ t :: h.
Proof.
  induction h as [|x h IH]; [done|]. simpl. destruct (t <=? x); [done|]. rewrite IH. constructor.
Qed.

Lemma push_heap_sorted t h : ascending h -> ascending (push_heap t h).
Proof.
  induction 1 as [|x h Hh IH Hx]; [repeat constructor|]. simpl. destruct (Z.leb_spec t x).
  - constructor; [by constructor|]. constructor; [done|]. eapply Forall_impl; [exact Hx|]. simpl. lia.
  - constructor; [done|]. rewrite push_heap_perm. constructor; [lia|done].
Qed.

(** What the heap holds of the timestamps pushed so far: at most [cap] of them, the largest. *)
Definition holds_largest (cap : Z) (seen heap : list Z) : Prop :=
  exists rest, seen ≡ₚ heap ++ rest /\ ascending heap /\ zlen heap = Z.min cap (zlen seen).

Lemma keep_largest_holds cap seen heap t :
  0 <= cap -> holds_largest cap seen heap -> holds_largest cap (t :: seen) (keep_largest cap heap t).
Proof.
  intros Hcap (rest & Hp & Hs & Hl). unfold keep_largest.
  pose proof (push_heap_perm t heap) as Hpush. pose proof (push_heap_sorted t heap Hs) as Hsort.
  assert (zlen (push_heap t heap) = 1 + zlen heap) as Hlen by (unfold zlen; rewrite (Permutation_length Hpush); simpl; lia).
  rewrite Hlen. destruct (Z.ltb_spec cap (1 + zlen heap)).
  - destruct (push_heap t heap) as [|x h] eqn:Hh; [unfold zlen in Hlen; simpl in Hlen; lia|]. simpl. exists (x :: rest).
    split; [|split; [by inversion Hsort|rewrite !zlen_cons in *; lia]].
    rewrite Hp. change (t :: heap ++ rest) with ((t :: heap) ++ rest). rewrite <- Hpush. simpl. apply Permutation_middle.
  - exists rest. split; [by rewrite Hp, Hpush|]. split; [done|]. rewrite Hlen, zlen_cons. lia.
Qed.

Lemma fold_keep_largest cap ts seen heap :
  0 <= cap -> holds_largest cap seen heap -> holds_largest cap (rev ts ++ seen) (fold_left (keep_largest cap) ts heap).
Proof.
  intros Hcap. revert seen heap. induction ts as [|t ts IH]; intros seen heap H; [done|]. simpl.
  rewrite <- app_assoc. simpl. apply IH. by apply keep_largest_holds.
Qed.

Lemma count_perm (P : Z -> Prop) `{!forall x, Decision (P x)} l k : l ≡ₚ k -> zlen (filter P l) = zlen (filter P k).
Proof. intros Hp. unfold zlen. by rewrite Hp. Qed.

(** At least as many timestamps as the heap holds are at or above its least one. *)
Lemma fold_keep_largest_count cap ts t heap :
  0 <= cap -> fold_left (keep_largest cap) ts [] = t :: heap ->
  Z.min cap (zlen ts) <= zlen (filter (fun x => t <= x) ts).
Proof.
  intros Hcap Hf. destruct (fold_keep_largest cap ts [] []) as (rest & Hp & Hs & Hl); [done| |].
  { exists []. split; [done|]. split; [constructor|]. rewrite zlen_nil. lia. }
  rewrite Hf, app_nil_r in *. rewrite (count_perm _ ts (rev ts)) by apply Permutation_rev.
  replace (zlen ts) with (zlen (rev ts)) by (unfold zlen; by rewrite length_rev).
  rewrite <- Hl, (count_perm _ _ _ Hp), filter_app, zlen_app.
  inversion_clear Hs as [|? ? _ Hall]. rewrite filter_keep_all; [pose proof (zlen_nonneg (filter (fun x => t <= x) rest)); lia|].
  intros x [->|Hx]%elem_of_cons; [lia|]. rewrite Forall_forall in Hall. by apply Hall.
Qed.

(** ** The configurations in force *)
Section lease.
Context {S Mt : Type} `{LS : LogStorage S} `{MS : RaftMetaStorage Mt} `{EPO : EndPointOrder} `{IT : IpText}.
Context (env : Env).
Abbreviation node := (Node S Mt).

(** The peers of [c] heard from at or after [t], the node itself among them. *)
Definition heard (n : node) (t : Z) (c : Configuration) : Configuration :=
  filter (fun p => (peer_eqb p n.(_server_id) || (t <=? env.(last_rpc_send_timestamp) p)) = true) c.

Lemma others_length c self :
  conf_wf c -> contains c self = true -> zlen c = 1 + zlen (filter (fun p => peer_eqb p self = false) c).
Proof. intros Hc Hs. unfold zlen. rewrite (conf_filter_length self c Hc Hs). unfold set_erase. lia. Qed.

(** Those heard from are the others heard from, and the node. *)
Lemma heard_others (n : node) t c :
  conf_wf c -> contains c n.(_server_id) = true ->
  zlen (heard n t c) =
  1 + zlen (filter (fun x => t <= x) (map env.(last_rpc_send_timestamp) (filter (fun p => peer_eqb p n.(_server_id) = false) c))).
Proof.
  intros Hc Hs. pose proof (others_length c _ Hc Hs) as Hlen.
  enough (zlen (heard n t c) + zlen (filter (fun p => peer_eqb p n.(_server_id) = false) c) =
          zlen c + zlen (filter (fun x => t <= x) (map env.(last_rpc_send_timestamp) (filter (fun p => peer_eqb p n.(_server_id) = false) c)))) by lia.
  clear. unfold heard. induction c as [|p c IH]; [done|]. rewrite !filter_cons.
  destruct (peer_eqb p n.(_server_id)) eqn:Hp; simpl.
  - rewrite !zlen_cons. lia.
  - rewrite filter_cons. destruct (Z.leb_spec t (last_rpc_send_timestamp env p)).
    + rewrite decide_True by done. rewrite decide_True by done. rewrite !zlen_cons. lia.
    + rewrite decide_False by done. rewrite decide_False by lia. rewrite !zlen_cons. lia.
Qed.

Lemma half_heard (n : node) c t :
  conf_wf c -> contains c n.(_server_id) = true -> t <= last_leader_active_timestamp_conf env n c ->
  zlen c / 2 + 1 <= zlen (heard n t c).
Proof.
  intros Hc Hs Ht. pose proof (others_length c _ Hc Hs) as Hlen. rewrite heard_others by done.
  unfold last_leader_active_timestamp_conf in Ht. set (ts := map _ _) in *.
  assert (zlen ts = zlen (filter (fun p => peer_eqb p n.(_server_id) = false) c)) as Hts by (unfold ts, zlen; by rewrite length_map).
  pose proof (Z.div_mod (zlen c) 2 ltac:(lia)). pose proof (Z.mod_pos_bound (zlen c) 2 ltac:(lia)). pose proof (zlen_nonneg ts).
  destruct (fold_left _ ts []) as [|t0 heap] eqn:Hf.
  - destruct (fold_keep_largest (zlen c / 2) ts [] []) as (rest & _ & _ & Hl); [lia| |].
    { exists []. split; [done|]. split; [constructor|]. rewrite zlen_nil. lia. }
    rewrite Hf, app_nil_r, zlen_nil in Hl. unfold zlen in Hl at 2. rewrite length_rev in Hl. fold (zlen ts) in Hl.
    pose proof (zlen_nonneg (filter (fun x => t <= x) ts)). lia.
  - pose proof (fold_keep_largest_count (zlen c / 2) ts t0 heap ltac:(lia) Hf) as Hcount.
    enough (zlen (filter (fun x => t0 <= x) ts) <= zlen (filter (fun x => t <= x) ts)) by lia.
    clear -Ht. induction ts as [|x ts IH]; [done|]. rewrite !filter_cons. destruct (decide (t0 <= x)).
    + rewrite decide_True by lia. rewrite !zlen_cons. lia.
    + destruct (decide (t <= x)); rewrite ?zlen_cons; lia.
Qed.

(** The configurations in force. *)
Definition conf_in_force (n : node) (c : Configuration) : Prop :=
  c = n.(_conf).(conf) \/ (stable n.(_conf) = false /\ c = n.(_conf).(old_conf)).

Lemma active_since (n : node) c : conf_in_force n c -> last_leader_active_timestamp env n <= last_leader_active_timestamp_conf env n c.
Proof. unfold last_leader_active_timestamp. intros [->|[-> ->]]; [destruct (stable _)|]; lia. Qed.

(** C11: a lease that is renewed rests on a majority. Take a leader whose lease is
    suspect and that is a member of its configuration. When asking for its status
    gives a valid lease, then of every configuration in force (both, in the joint
    stage) that has the leader as a member, a majority, the leader among them, are
    peers whose replicator's [last_rpc_send_timestamp] is less than an election
    timeout old. A replicator sets that timestamp to the time of its own start, and
    then to the sending times of the RPCs the peer has answered, so a peer whose
    replicator has just been started counts as heard from without an answer. *)
Theorem renewed_lease_has_quorum (n : node) c :
  let r := get_leader_lease_status env n in
  (get_lease_info env.(enable_leader_lease) env.(now_ms) n.(_leader_lease)).(lease_state) = SUSPECT ->
  (value_of r).(lease_state) = VALID ->
  conf_in_force n c -> conf_wf c -> contains c n.(_server_id) = true ->
  zlen c / 2 + 1 <= zlen (heard n (env.(now_ms) - n.(_leader_lease).(_election_timeout_ms) + 1) c).
Proof.
  intros r Hsus Hval Hc Hwf Hself. unfold r, get_leader_lease_status in Hval. rewrite get_bind in Hval. cbv zeta in Hval.
  rewrite Hsus in Hval. destruct (negb _); [discriminate Hval|]. rewrite modify_bind, get_bind in Hval. cbv zeta in Hval. simpl in Hval.
  destruct (lease_state (get_lease_info _ _ (leader_renew _ _))) eqn:Hs.
  1: discriminate Hval.
  3: { apply half_heard; [done..|]. pose proof (active_since n c Hc) as Hact. revert Hs. unfold get_lease_info, leader_renew. simpl.
       repeat (destruct (negb _) || destruct (_ =? 0)); try done.
       destruct (Z.ltb_spec (now_ms env) (last_leader_active_timestamp env n + _election_timeout_ms (_leader_lease n))); [lia|done]. }
  all: unfold value_of, mbind, M_bind in Hval; by destruct (step_down _ _ _ _ _) as [[u n1] ev].
Qed.
End lease.
