(* ===== verification/NodeExamples.v ===== *)
(** * NodeExamples: runs of a leader

    The group of VoteExamples: node 1 takes over from node 2 and then leads.
    The runs are the witnesses of the theorems on a leader. *)

From S2P Require Import PeerText AppendEntriesCache MemoryLog LogManager ConfigurationManager LogStorage Lease BallotBox Ballot NodeState Node NodeLog NodeVote VoteSafety Leadership VoteExamples LeaderBallots BallotAlignment JointConsensus LeaseQuorum Types Prelude.

Lemma run_calls_lives (self : PeerId) ev0 calls n n' ev :
  Forall (timely []) calls -> lives self ev0 n -> run_calls calls n = (n', ev) -> lives self (ev0 ++ ev) n'.
Proof.
  intros Hok. revert ev0 n ev. induction Hok as [|c calls Hc _ IH]; intros ev0 n ev Hs Hr; simpl in Hr.
  { simplify_eq. by rewrite app_nil_r. }
  destruct (perform _ c n) as [[[] n1] ev1] eqn:Hp. destruct (run_calls calls n1) as [n2 ev2] eqn:Hr2.
  simplify_eq. rewrite app_assoc. apply IH with n1; [|done].
  eapply lives_call; [done| |done]. destruct c as [| | | |[]| | | | | | | | | | | | | | | | | | | | | | | | | | | | | | |]; try done.
  by apply elem_of_nil in Hc.
Qed.

Lemma start_and_run_lives writes calls n' ev :
  Forall (timely []) calls -> start_and_run writes calls = (OK, n', ev) -> lives (example_peer 1) ev n'.
Proof.
  intros Hok. unfold start_and_run, example_node.
  destruct (NodeLog.init _ _ _) as [[e n] ev1] eqn:Hi. destruct (run_calls calls n) as [n2 ev2] eqn:Hr.
  intros [= -> -> <-]. eapply run_calls_lives; [done| |done]. by eapply lives_start.
Qed.

(** The leader appends two tasks. *)
Definition lead_and_apply : list Call :=
  VoteExamples.taking_over ++ [last_vote; CallApply 32 [mkTask [] (Some 7%positive) (-1); mkTask [] None 2; mkTask [] None 1]].

Lemma leader_ballots_aligned_witness :
  let n := (start_and_run [] lead_and_apply).1.2 in
  n.(_state) = STATE_LEADER /\ zlen n.(_ballot_box).(_pending_meta_queue) = 3 /\
  n.(_ballot_box).(_pending_index) + zlen n.(_ballot_box).(_pending_meta_queue) = n.(_log_manager).(_last_log_index) + 1 /\
  zlen (state_of (NodeLog.apply [mkTask [] None 2] n)).(_ballot_box).(_pending_meta_queue) = 4.
Proof.
  intros n. assert (n.(_state) = STATE_LEADER) as Hs by (vm_compute; reflexivity).
  split; [exact Hs|]. split; [vm_compute; reflexivity|].
  assert (start_and_run [] lead_and_apply = (OK, n, (start_and_run [] lead_and_apply).2)) as Hr.
  { unfold n. assert ((start_and_run [] lead_and_apply).1.1 = OK) as H by (vm_compute; reflexivity).
    destruct (start_and_run [] lead_and_apply) as [[e n1] ev]. simpl in H. by rewrite H. }
  destruct (leader_ballots_aligned (example_peer 1) _ n
             (start_and_run_lives [] lead_and_apply n _ ltac:(repeat constructor) Hr)) as (H & _ & Ha & _).
  - vm_compute. intros H. repeat (apply elem_of_cons in H as [H|H]; [discriminate H|]). by apply elem_of_nil in H.
  - split; [apply H; [|vm_compute; reflexivity]; rewrite Hs; unfold leads; simpl; lia|].
    destruct (Ha [mkTask [] None 2] Hs ltac:(vm_compute; reflexivity)) as [-> _]. vm_compute. reflexivity.
Defined.

(** The leader once its first entry is committed, which ends its first change. *)
Definition settled_leader : Node MemoryLogStorage TestMeta :=
  state_of (next_stage (example_env 5000) (start_and_run [] lead_and_apply).1.2).

(** It removes two of the three peers. *)
Lemma conf_change_quorums_overlap_witness :
  let r := conf_ctx_start (example_env 5000) (example_conf [1; 2; 3]) (example_conf [1]) None settled_leader in
  in_force (state_of r).(_conf_ctx) = (example_conf [1], Some (example_conf [1; 2; 3])) /\
  overlap (example_conf [1; 2; 3], None) (in_force (state_of r).(_conf_ctx)).
Proof.
  intros r. assert (in_force (state_of r).(_conf_ctx) = (example_conf [1], Some (example_conf [1; 2; 3]))) as Hf
    by (vm_compute; reflexivity).
  split; [exact Hf|].
  destruct (conf_change_quorums_overlap (example_env 5000) settled_leader (example_conf [1; 2; 3], None)
    (conf_ctx_start (example_env 5000) (example_conf [1; 2; 3]) (example_conf [1]) None)) as [_ [[Hq _]|[Ho _]]].
  - apply op_start; repeat constructor.
  - vm_compute. intros H. repeat (apply elem_of_cons in H as [H|H]; [discriminate H|]). by apply elem_of_nil in H.
  - vm_compute. reflexivity.
  - exfalso. change (in_force (state_of r).(_conf_ctx) = (example_conf [1; 2; 3], None)) in Hq. rewrite Hf in Hq. discriminate Hq.
  - exact Ho.
Defined.

(** Leases are enabled; peer 2 was heard from lately, peer 3 was not. *)
Definition lease_env : Env := {|
  now_ms := 9000; gettimeofday_ms := 9000; enable_leader_lease := true; has_snapshot_executor := false;
  installing_snapshot := false;
  last_rpc_send_timestamp := fun p => if peer_eqb p (example_peer 2) then 8900 else 100;
  replicator_readonly := fun _ => false;
  add_replicator_ok := fun _ => true; wait_caughtup_ok := fun _ => true; next_candidate := None;
  transfer_result := OK; channel_ok := fun _ => true; timer_add := true; timer_del := true;
  step_down_when_vote_timedout := false; enable_append_entries_cache := false;
  max_append_entries_cache_size := 8; enable_witness_to_leader := false; election_heartbeat_factor := 10 |}.

(** The lease of the leader was started at 5000, and is suspect by now. *)
Definition suspect_leader : Node MemoryLogStorage TestMeta :=
  settled_leader <| _leader_lease := on_lease_start settled_leader.(_leader_lease) 1 5000 |>.

Lemma renewed_lease_has_quorum_witness :
  let r := get_leader_lease_status lease_env suspect_leader in
  (value_of r).(lease_state) = VALID /\
  heard lease_env suspect_leader 8001 (example_conf [1; 2; 3]) = example_conf [1; 2] /\
  zlen (example_conf [1; 2; 3]) / 2 + 1 <= zlen (heard lease_env suspect_leader 8001 (example_conf [1; 2; 3])).
Proof.
  split; [vm_compute; reflexivity|]. split; [vm_compute; reflexivity|].
  apply (renewed_lease_has_quorum lease_env suspect_leader (example_conf [1; 2; 3])).
  - vm_compute. reflexivity.
  - vm_compute. reflexivity.
  - left. vm_compute. reflexivity.
  - exact example_conf_wf.
  - vm_compute. reflexivity.
Defined.
