(* ===== verification/NodeManager.v ===== *)
(** * NodeManager: the nodes of a process and the addresses of its servers

    [src/braft/node_manager.{h,cpp}] and the [NodeId] of [configuration.h].  The
    two maps of the registry sit in a [DoublyBufferedData] of a library: its
    [Modify] applies a function to the maps as a whole, its readers see the maps
    before or after one.  A [std::map] and a [std::multimap] are the lists of their
    elements in order; looking a key up finds the element stored under an equivalent
    key.  A node is the address of its object, whose identity never changes after
    its constructor ([node_id] here). *)

From S2P Require Import PeerText Prelude Types.

Abbreviation GroupId := string.
Abbreviation NodePtr := positive.

Record NodeId : Set := mkNodeId { group_id : GroupId; peer_id : PeerId }.

(** [operator==]. *)
Definition nodeid_eqb (id1 id2 : NodeId) : bool :=
  bool_decide (id1.(group_id) = id2.(group_id)) && peer_eqb id1.(peer_id) id2.(peer_id).

#[export] Instance NodeId_equiv : Equiv NodeId := fun a b => nodeid_eqb a b = true.

Lemma nodeid_equiv_spec (a b : NodeId) : a ≡ b <-> a.(group_id) = b.(group_id) /\ a.(peer_id) ≡ b.(peer_id).
Proof. unfold equiv, NodeId_equiv, nodeid_eqb. by rewrite andb_true_iff, bool_decide_eq_true, peer_eqb_equiv. Qed.

#[export] Instance NodeId_equivalence : Equivalence (≡@{NodeId}).
Proof.
  split.
  - intros a. by apply nodeid_equiv_spec.
  - intros a b [H1 H2]%nodeid_equiv_spec. by apply nodeid_equiv_spec.
  - intros a b c [H1 H2]%nodeid_equiv_spec [H3 H4]%nodeid_equiv_spec. apply nodeid_equiv_spec.
    split; [congruence|by transitivity (peer_id b)].
Qed.
#[export] Instance NodeId_equiv_dec : RelDecision (≡@{NodeId}).
Proof. intros a b. unfold equiv, NodeId_equiv. apply _. Defined.
#[export] Instance nodeid_eqb_proper : Proper ((≡) ==> (≡) ==> (=)) nodeid_eqb.
Proof.
  intros a a' Ha b b' Hb. apply eq_true_iff_eq. change (a ≡ b <-> a' ≡ b'). by rewrite Ha, Hb.
Qed.

Lemma nodeid_eqb_true a b : nodeid_eqb a b = true <-> a ≡ b.
Proof. done. Qed.
Lemma nodeid_eqb_false a b : nodeid_eqb a b = false <-> a ≢ b.
Proof. by rewrite <- not_true_iff_false. Qed.
Lemma nodeid_eqb_sym a b : nodeid_eqb a b = nodeid_eqb b a.
Proof. apply eq_true_iff_eq. rewrite !nodeid_eqb_true. done. Qed.

#[export] Instance EndPoint_countable : Countable EndPoint :=
  inj_countable' (fun e => (e.(ip), e.(port))) (fun p => mkEndPoint p.1 p.2) ltac:(by intros []).

(** ** Ordered containers *)
Section ordered_map.
Context {A : Type} (ltb : A -> A -> bool).

(** Insertion before the first greater element: where a [std::map] puts a new key
    and a [std::multimap] a new element. *)
Fixpoint insert_upper (x : A) (l : list A) : list A :=
  match l with
  | [] => [x]
  | y :: l' => if ltb x y then x :: l else y :: insert_upper x l'
  end.

Lemma insert_upper_perm x l : insert_upper x l ≡ₚ x :: l.
Proof. induction l as [|y l IH]; cbn; [done|]. destruct (ltb x y); [done|]. rewrite IH. apply Permutation_swap. Qed.
End ordered_map.

(** [erase] of the first element that satisfies [p]; [None] when there is none. *)
Fixpoint erase_first {A} (p : A -> bool) (l : list A) : option (list A) :=
  match l with
  | [] => None
  | x :: l' => if p x then Some l' else cons x <$> erase_first p l'
  end.

Lemma erase_first_perm {A} (p : A -> bool) l l' :
  erase_first p l = Some l' -> exists x, p x = true /\ l ≡ₚ x :: l'.
Proof.
  revert l'. induction l as [|y l IH]; intros l' H; cbn in H; [done|]. destruct (p y) eqn:Hy.
  - injection H as <-. by exists y.
  - apply fmap_Some in H as (k & Hk & ->). destruct (IH k Hk) as (x & Hx & Hp). exists x. split; [done|].
    rewrite Hp. apply Permutation_swap.
Qed.
Lemma erase_first_is_Some {A} (p : A -> bool) l : (exists x, x ∈ l /\ p x = true) -> is_Some (erase_first p l).
Proof.
  intros (x & Hx & Hp). induction l as [|y l IH]; [by apply not_elem_of_nil in Hx|]. cbn.
  destruct (p y) eqn:Hy; [by eexists|]. apply elem_of_cons in Hx as [->|Hx]; [congruence|].
  destruct (IH Hx) as [k ->]. by eexists.
Qed.

(** ** The registry *)
Record Maps : Set := mkMaps { node_map : list (NodeId * NodePtr); group_map : list (GroupId * NodePtr) }.
#[export] Instance Maps_eta : Settable Maps := fun m => mkMaps m.(node_map) m.(group_map).
Definition Maps_default : Maps := mkMaps [] [].

Record NodeManager : Set := mkNodeManager { _nodes : Maps; _addr_set : gset EndPoint }.
#[export] Instance NodeManager_eta : Settable NodeManager := fun m => mkNodeManager m.(_nodes) m.(_addr_set).
Definition NodeManager_default : NodeManager := mkNodeManager Maps_default ∅.

Inductive Event : Set := CheckFailed.

Section registry.
Context `{EPO : EndPointOrder} `{IT : IpText}.
Context (node_id : NodePtr -> NodeId).

(** [operator<]. *)
Definition nodeid_ltb (id1 id2 : NodeId) : bool :=
  match String.compare id1.(group_id) id2.(group_id) with
  | Lt => true
  | Eq => peer_ltb id1.(peer_id) id2.(peer_id)
  | Gt => false
  end.
Definition group_ltb (g1 g2 : GroupId) : bool := match String.compare g1 g2 with Lt => true | _ => false end.

(** [find] of the map of nodes; [equal_range] of the multimap, in order. *)
Fixpoint find_node (m : list (NodeId * NodePtr)) (id : NodeId) : option NodePtr :=
  match m with
  | [] => None
  | (id', n) :: m' => if nodeid_eqb id' id then Some n else find_node m' id
  end.
Definition equal_range (m : list (GroupId * NodePtr)) (g : GroupId) : list NodePtr :=
  map snd (filter (fun e => e.1 = g) m).

(** [_add_node]: how many nodes it has added. *)
Definition _add_node (node : NodePtr) : M Maps Event Z :=
  m ← get;
  match find_node m.(node_map) (node_id node) with
  | Some _ => mret 0
  | None =>
      modify (fun m => m <| node_map := insert_upper (fun a b => nodeid_ltb a.1 b.1) (node_id node, node) m.(node_map) |>) ;;
      modify (fun m => m <| group_map :=
        insert_upper (fun a b => group_ltb a.1 b.1) ((node_id node).(group_id), node) m.(group_map) |>) ;;
      mret 1
  end.

(** [_remove_node]; the last branch is its [CHECK(false)]. *)
Definition _remove_node (node : NodePtr) : M Maps Event Z :=
  m ← get;
  match find_node m.(node_map) (node_id node) with
  | Some n =>
      if negb (bool_decide (n = node)) then mret 0
      else
        modify (fun m => m <| node_map :=
          default m.(node_map) (erase_first (fun e => nodeid_eqb e.1 (node_id node)) m.(node_map)) |>) ;;
        match erase_first (fun e => bool_decide (e.1 = (node_id node).(group_id)) && bool_decide (e.2 = node)) m.(group_map) with
        | Some group_map' => modify (fun m => m <| group_map := group_map' |>) ;; mret 1
        | None => emit CheckFailed ;; mret 0
        end
  | None => mret 0
  end.

(** ** The manager *)

(** [DoublyBufferedData::Modify] of the maps. *)
Definition Modify (f : M Maps Event Z) : M NodeManager Event Z := fun m =>
  let '(nchanged, maps, ev) := f m.(_nodes) in (nchanged, m <| _nodes := maps |>, ev).

Definition server_exists (addr : EndPoint) (m : NodeManager) : bool :=
  if negb (addr.(ip) =? IP_ANY) && bool_decide (mkEndPoint IP_ANY addr.(port) ∈ m.(_addr_set)) then true
  else bool_decide (addr ∈ m.(_addr_set)).

Definition remove_address (addr : EndPoint) : M NodeManager Event unit :=
  modify (fun m => m <| _addr_set := m.(_addr_set) ∖ {[addr]} |>).

Definition add (node : NodePtr) : M NodeManager Event bool :=
  m ← get;
  if negb (server_exists (node_id node).(peer_id).(addr) m) then mret false
  else nadded ← Modify (_add_node node); mret (negb (nadded =? 0)).

Definition remove (node : NodePtr) : M NodeManager Event bool :=
  nremoved ← Modify (_remove_node node); mret (negb (nremoved =? 0)).

Definition get_node_by_id (group : GroupId) (peer : PeerId) (m : NodeManager) : option NodePtr :=
  find_node m.(_nodes).(node_map) (mkNodeId group peer).

Definition get_nodes_by_group_id (group : GroupId) (m : NodeManager) : list NodePtr :=
  equal_range m.(_nodes).(group_map) group.

Definition get_all_nodes (m : NodeManager) : list NodePtr := map snd m.(_nodes).(group_map).
End registry.

(** ** Servers *)

(** The services of a server. *)
Inductive Service : Set := FileService | RaftService (listen_address : EndPoint) | RaftStatService | CliService.
#[export] Instance Service_eq_dec : EqDecision Service.
Proof. solve_decision. Defined.

(** [add_service] to a server that accepts the services of [accepts]: its answer,
    and the services that the server has been given.  [None] is a null server. *)
Definition add_service (server : option (Service -> bool)) (listen_address : EndPoint) : M NodeManager Service Errno :=
  m ← get;
  match server with
  | None => mret ENEG1
  | Some accepts =>
      if server_exists listen_address m then mret OK
      else
        let give := fun (s : Service) (rest : M NodeManager Service Errno) =>
          if accepts s then emit s ;; rest else mret ENEG1 in
        give FileService (give (RaftService listen_address) (give RaftStatService (give CliService
          (modify (fun m => m <| _addr_set := {[listen_address]} ∪ m.(_addr_set) |>) ;; mret OK))))
  end.

(** [~RaftServiceImpl], when the server that owns the service is destroyed. *)
Definition destroy_service (s : Service) : M NodeManager Event unit :=
  match s with RaftService listen_address => remove_address listen_address | _ => skip end.
