(* ===== verification/NodeManagerProofs.v ===== *)
(** * NodeManagerProofs: the registry is the set of the registered nodes

    The abstract registry is the list of the nodes that are registered.  The two maps
    of [NodeManager] hold exactly these nodes, under their own identities, through
    every sequence of [Modify]s, whatever threads they come from. *)

From S2P Require Import PeerText Prelude Types NodeManager.

Section refinement.
Context `{EPO : EndPointOrder}.
Context (node_id : NodePtr -> NodeId).

(** ** The abstract registry *)
Definition same_id (a b : NodePtr) : bool := nodeid_eqb (node_id a) (node_id b).

Inductive Change : Set := Add (n : NodePtr) | Remove (n : NodePtr).

Definition spec_change (c : Change) (R : list NodePtr) : Z * list NodePtr :=
  match c with
  | Add n => if existsb (same_id n) R then (0, R) else (1, n :: R)
  | Remove n => if bool_decide (n ∈ R) then (1, filter (fun m => m <> n) R) else (0, R)
  end.
Definition spec_get (group : GroupId) (peer : PeerId) (R : list NodePtr) : option NodePtr :=
  find (fun n => nodeid_eqb (node_id n) (mkNodeId group peer)) R.

(** Nobody is registered twice, nor two nodes under one identity. *)
Definition distinct_ids (R : list NodePtr) : Prop :=
  NoDup R /\ forall a b, a ∈ R -> b ∈ R -> node_id a ≡ node_id b -> a = b.

(** ** The refinement relation *)
Definition keyed (R : list NodePtr) : list (NodeId * NodePtr) := map (fun n => (node_id n, n)) R.
Definition grouped (R : list NodePtr) : list (GroupId * NodePtr) := map (fun n => ((node_id n).(group_id), n)) R.

Definition represents (m : Maps) (R : list NodePtr) : Prop :=
  distinct_ids R /\ m.(node_map) ≡ₚ keyed R /\ m.(group_map) ≡ₚ grouped R.

Definition run_change (c : Change) : M Maps Event Z :=
  match c with Add n => _add_node node_id n | Remove n => _remove_node node_id n end.

Lemma elem_of_keyed R id n : (id, n) ∈ keyed R <-> n ∈ R /\ id = node_id n.
Proof. unfold keyed. rewrite list_elem_of_fmap. split; [intros (x & [= -> ->] & Hx); done|intros [Hn ->]; by exists n]. Qed.

Lemma find_node_in m id n : find_node m id = Some n -> exists id', (id', n) ∈ m /\ id' ≡ id.
Proof.
  induction m as [|[id' n'] m IH]; cbn; [done|]. destruct (nodeid_eqb id' id) eqn:He.
  - intros [= ->]. exists id'. split; [left|by apply nodeid_eqb_true].
  - intros (id'' & Hin & Hq)%IH. exists id''. split; [by right|done].
Qed.
Lemma find_node_none m id : find_node m id = None -> forall id' n, (id', n) ∈ m -> id' ≢ id.
Proof.
  induction m as [|[id0 n0] m IH]; cbn; intros Hf id' n Hin; [by apply not_elem_of_nil in Hin|].
  destruct (nodeid_eqb id0 id) eqn:He; [done|]. apply elem_of_cons in Hin as [[= -> ->]|Hin]; [by apply nodeid_eqb_false|].
  by eapply IH.
Qed.

(** Looking a node up in the map is looking it up among the registered ones. *)
Lemma represents_find m R id n : represents m R ->
  find_node m.(node_map) id = Some n <-> n ∈ R /\ node_id n ≡ id.
Proof.
  intros ([_ Hid] & Hn & _). split.
  - intros (id' & Hin & Hq)%find_node_in. rewrite Hn in Hin. by apply elem_of_keyed in Hin as [Hin ->].
  - intros [Hin Hq]. destruct (find_node m.(node_map) id) as [n'|] eqn:Hf.
    + apply find_node_in in Hf as (id' & Hin' & Hq'). rewrite Hn in Hin'. apply elem_of_keyed in Hin' as [Hin' ->].
      f_equal. apply Hid; [done..|]. by rewrite Hq', Hq.
    + exfalso. eapply find_node_none; [exact Hf| |exact Hq]. rewrite Hn. by apply elem_of_keyed.
Qed.
Lemma represents_find_none m R id : represents m R ->
  find_node m.(node_map) id = None <-> forall n, n ∈ R -> node_id n ≢ id.
Proof.
  intros Hr. split.
  - intros Hf n Hin Hq. assert (find_node m.(node_map) id = Some n) as H by (by apply (represents_find m R)). congruence.
  - intros Hno. destruct (find_node m.(node_map) id) as [n|] eqn:Hf; [|done].
    apply (represents_find m R) in Hf as [Hin Hq]; [|done]. by destruct (Hno n Hin).
Qed.

Lemma existsb_same_id n R : existsb (same_id n) R = true <-> exists r, r ∈ R /\ node_id n ≡ node_id r.
Proof. rewrite existsb_exists. split; intros (r & Hr & Hs); exists r; rewrite list_elem_of_In in *; done. Qed.

Lemma filter_not_self (n : NodePtr) (R : list NodePtr) : n ∉ R -> filter (fun m => m <> n) R = R.
Proof.
  induction R as [|r R IH]; intros Hn; [done|]. apply not_elem_of_cons in Hn as [Hr Hn].
  rewrite filter_cons_True by congruence. by rewrite IH.
Qed.
Lemma filter_ne_perm (n : NodePtr) (R : list NodePtr) : NoDup R -> n ∈ R -> R ≡ₚ n :: filter (fun m => m <> n) R.
Proof.
  induction 1 as [|r R Hr Hnd IH]; intros Hin; [by apply not_elem_of_nil in Hin|]. rewrite filter_cons.
  apply elem_of_cons in Hin as [->|Hin].
  - destruct (decide (r <> r)); [done|]. f_equiv. by rewrite (filter_not_self r R).
  - destruct (decide (r <> n)) as [|Hrn]; [|by apply dec_stable in Hrn as ->]. rewrite IH at 1 by done. apply Permutation_swap.
Qed.

(** The two functions, run. *)
Lemma add_node_run n m : _add_node node_id n m =
  match find_node m.(node_map) (node_id n) with
  | Some _ => (0, m, [])
  | None => (1, mkMaps (insert_upper (fun a b => nodeid_ltb a.1 b.1) (node_id n, n) m.(node_map))
                       (insert_upper (fun a b => group_ltb a.1 b.1) ((node_id n).(group_id), n) m.(group_map)), [])
  end.
Proof. unfold _add_node. rewrite get_bind. by destruct (find_node _ _). Qed.
Lemma remove_node_run n m : _remove_node node_id n m =
  match find_node m.(node_map) (node_id n) with
  | Some n' =>
      if negb (bool_decide (n' = n)) then (0, m, [])
      else
        let nm := default m.(node_map) (erase_first (fun e => nodeid_eqb e.1 (node_id n)) m.(node_map)) in
        match erase_first (fun e => bool_decide (e.1 = (node_id n).(group_id)) && bool_decide (e.2 = n)) m.(group_map) with
        | Some gm => (1, mkMaps nm gm, [])
        | None => (0, mkMaps nm m.(group_map), [CheckFailed])
        end
  | None => (0, m, [])
  end.
Proof.
  unfold _remove_node. rewrite get_bind. destruct (find_node _ _); [|done]. case_match; [done|].
  rewrite modify_bind. by destruct (erase_first _ (group_map m)).
Qed.

Lemma add_represents n m R : represents m R ->
  exists m', run_change (Add n) m = ((spec_change (Add n) R).1, m', []) /\ represents m' (spec_change (Add n) R).2.
Proof.
  intros Hr. unfold run_change, spec_change. rewrite add_node_run. destruct (find_node m.(node_map) (node_id n)) as [r|] eqn:Hf.
  - apply (represents_find m R) in Hf as [Hin Hq]; [|done]. assert (existsb (same_id n) R = true) as -> by (apply existsb_same_id; by exists r).
    by exists m.
  - pose proof (proj1 (represents_find_none m R _ Hr) Hf) as Hno.
    assert (existsb (same_id n) R = false) as He.
    { apply not_true_iff_false. intros (r & Hin & Hq)%existsb_same_id. by apply (Hno r). }
    rewrite He. eexists. split; [reflexivity|]. destruct Hr as ([Hnd Hid] & Hn & Hg). cbn.
    split_and!; cbn; rewrite ?insert_upper_perm, ?Hn, ?Hg; [|done..]. split.
    + constructor; [|done]. intros Hin. by apply (Hno n).
    + intros a b [->|Ha]%elem_of_cons [->|Hb]%elem_of_cons Hq; [done|by destruct (Hno b)|by destruct (Hno a)|by apply Hid].
Qed.

Lemma remove_represents n m R : represents m R ->
  exists m', run_change (Remove n) m = ((spec_change (Remove n) R).1, m', []) /\ represents m' (spec_change (Remove n) R).2.
Proof.
  intros Hr. unfold run_change, spec_change. rewrite remove_node_run. case_bool_decide as Hin.
  2:{ exists m. split; [|done]. destruct (find_node m.(node_map) (node_id n)) as [r|] eqn:Hf; [|done].
      rewrite bool_decide_eq_false_2; [done|]. intros ->. by apply (represents_find m R) in Hf as [? _]. }
  rewrite (proj2 (represents_find m R _ n Hr)) by done. rewrite bool_decide_eq_true_2 by done. cbn.
  destruct Hr as ([Hnd Hid] & Hn & Hg). pose proof (filter_ne_perm n R Hnd Hin) as Hperm.
  set (R' := filter (fun m => m <> n) R) in *.
  destruct (erase_first_is_Some (fun e => nodeid_eqb e.1 (node_id n)) (node_map m)) as [nm' Hnm].
  { exists (node_id n, n). rewrite Hn. split; [by apply elem_of_keyed|by apply nodeid_eqb_true]. }
  destruct (erase_first_is_Some (fun e => bool_decide (e.1 = group_id (node_id n)) && bool_decide (e.2 = n)) (group_map m)) as [gm' Hgm].
  { exists (group_id (node_id n), n). rewrite Hg. split; [by apply list_elem_of_fmap; exists n|].
    by rewrite !bool_decide_eq_true_2. }
  rewrite Hnm, Hgm. cbn. eexists. split; [reflexivity|].
  assert (R' ⊆ R) as Hsub by (intros x [_ Hx]%list_elem_of_filter; done).
  apply erase_first_perm in Hnm as ([id x] & Hx & Hnm). apply erase_first_perm in Hgm as ([g y] & Hy & Hgm). cbn in *.
  assert (x = n /\ id = node_id n) as [-> ->].
  { assert ((id, x) ∈ keyed R) as Hix by (rewrite <- Hn, Hnm; left). apply elem_of_keyed in Hix as [Hxin ->].
    apply nodeid_eqb_true in Hx. by rewrite (Hid x n Hxin Hin Hx). }
  apply andb_true_iff in Hy as [->%bool_decide_eq_true ->%bool_decide_eq_true].
  split_and!; cbn.
  - split; [by apply NoDup_filter|]. intros a b Ha Hb. apply Hid; by apply Hsub.
  - apply (Permutation_cons_inv (a := (node_id n, n))). rewrite <- Hnm, Hn. unfold keyed. by rewrite Hperm at 1.
  - apply (Permutation_cons_inv (a := (group_id (node_id n), n))). rewrite <- Hgm, Hg. unfold grouped. by rewrite Hperm at 1.
Qed.

Lemma change_represents c m R : represents m R ->
  exists m', run_change c m = ((spec_change c R).1, m', []) /\ represents m' (spec_change c R).2.
Proof. destruct c; [apply add_represents|apply remove_represents]. Qed.

(** ** Runs *)
Fixpoint run_changes (cs : list Change) : M Maps Event (list Z) :=
  match cs with
  | [] => mret []
  | c :: cs => a ← run_change c; l ← run_changes cs; mret (a :: l)
  end.
Fixpoint spec_changes (cs : list Change) (R : list NodePtr) : list Z * list NodePtr :=
  match cs with
  | [] => ([], R)
  | c :: cs => let '(a, R1) := spec_change c R in let '(l, R2) := spec_changes cs R1 in (a :: l, R2)
  end.

Lemma changes_represent cs m R : represents m R ->
  exists m', run_changes cs m = ((spec_changes cs R).1, m', []) /\ represents m' (spec_changes cs R).2.
Proof.
  revert m R. induction cs as [|c cs IH]; intros m R Hr; cbn; [by exists m|].
  destruct (change_represents c m R Hr) as (m1 & Hc & Hr1). destruct (spec_change c R) as [a R1].
  destruct (IH m1 R1 Hr1) as (m2 & Hcs & Hr2). destruct (spec_changes cs R1) as [l R2]. exists m2. split; [|done].
  eapply (bind_run _ _ _ _ _ [] _ _ []); [exact Hc|]. eapply (bind_run _ _ _ _ _ [] _ _ []); [exact Hcs|reflexivity].
Qed.

Lemma represents_equal_range m R g : represents m R ->
  equal_range m.(group_map) g ≡ₚ filter (fun n => (node_id n).(group_id) = g) R.
Proof.
  intros (_ & _ & Hg). unfold equal_range. rewrite Hg. clear. induction R as [|n R IH]; [done|].
  change (grouped (n :: R)) with (((node_id n).(group_id), n) :: grouped R).
  rewrite !filter_cons. cbn [fst]. case_decide; cbn; by rewrite IH.
Qed.

Lemma represents_get m R g p : represents m R ->
  find_node m.(node_map) (mkNodeId g p) = spec_get g p R.
Proof.
  intros Hr. unfold spec_get. destruct (find _ R) as [n|] eqn:Hf.
  - apply find_some in Hf as [Hin Hq]. apply (represents_find m R); [done|]. split; [by apply list_elem_of_In|done].
  - apply (represents_find_none m R _ Hr). intros n Hin Hq.
    pose proof (find_none _ _ Hf n ltac:(by apply list_elem_of_In)) as Hn. cbn in Hn. by apply nodeid_eqb_false in Hn.
Qed.

Lemma represents_pointers m R n : represents m R -> n ∈ map snd m.(node_map) <-> n ∈ R.
Proof.
  intros (_ & Hn & _). rewrite Hn. unfold keyed. rewrite map_map. cbn. by rewrite map_id.
Qed.
Lemma represents_group_pointers m R : represents m R -> map snd m.(group_map) ≡ₚ R.
Proof. intros (_ & _ & Hg). rewrite Hg. unfold grouped. rewrite map_map. cbn. by rewrite map_id. Qed.

Lemma modify_nodes_run (f : M Maps Event Z) mgr v maps :
  f mgr.(_nodes) = (v, maps, []) -> Modify f mgr = (v, mgr <| _nodes := maps |>, []).
Proof. unfold Modify. by intros ->. Qed.

(** C29: the two maps of the registry, through any sequence of additions and removals
    by any threads, are a set of nodes with distinct identities: every answer is the
    one that set gives (a node is added unless one of the same identity is there,
    removed only if it is itself there), [get] finds the node of an identity, the
    queries list exactly the nodes of a group and all nodes, each pointer kept without a
    reference is kept with one too, and the [CHECK] of [_remove_node] never fails. *)
Theorem registry_is_a_set_of_nodes cs mgr answers R :
  mgr.(_nodes) = state_of (run_changes cs Maps_default) -> spec_changes cs [] = (answers, R) ->
  value_of (run_changes cs Maps_default) = answers /\ events_of (run_changes cs Maps_default) = [] /\
  distinct_ids R /\
  (forall g p, get_node_by_id g p mgr = spec_get g p R) /\
  (forall g, get_nodes_by_group_id g mgr ≡ₚ filter (fun n => (node_id n).(group_id) = g) R) /\
  get_all_nodes mgr ≡ₚ R /\
  (forall n, n ∈ get_all_nodes mgr -> n ∈ map snd mgr.(_nodes).(node_map)) /\
  (forall n, value_of (add node_id n mgr) = server_exists (node_id n).(peer_id).(addr) mgr && negb (existsb (same_id n) R)) /\
  (forall n, value_of (remove node_id n mgr) = bool_decide (n ∈ R)).
Proof.
  intros Hm Hspec.
  destruct (changes_represent cs Maps_default []) as (m & Hrun & Hr).
  { split_and!; [|done..]. split; [constructor|]. by intros a b ?%not_elem_of_nil. }
  rewrite Hspec in Hrun, Hr. rewrite Hrun in Hm |- *. unfold state_of, value_of, events_of in Hm |- *.
  cbn [fst snd] in *. subst m. split_and!; try done.
  - apply Hr.
  - intros g p. by apply represents_get.
  - intros g. by apply represents_equal_range.
  - by apply represents_group_pointers.
  - intros n Hn. apply (represents_pointers _ R); [done|]. unfold get_all_nodes in Hn.
    by rewrite represents_group_pointers in Hn.
  - intros n. unfold add. rewrite get_bind. destruct (server_exists _ _); [|done]. cbn [negb andb].
    destruct (add_represents n _ R Hr) as (m' & Hadd & _).
    erewrite (bind_quiet (Modify (_add_node node_id n)));
      [|apply (modify_nodes_run _ mgr _ m'); exact Hadd].
    cbn. by destruct (existsb (same_id n) R).
  - intros n. unfold remove. destruct (remove_represents n _ R Hr) as (m' & Hrem & _).
    erewrite (bind_quiet (Modify (_remove_node node_id n))); [|apply (modify_nodes_run _ mgr _ m'); exact Hrem].
    cbn. by case_bool_decide.
Qed.
End refinement.
