(* ===== verification/RaftService.v ===== *)
(** * RaftService: the requests of the protocol, handed to the node they name

    [src/braft/raft_service.cpp].  A process is its [NodeManager] and the node at
    every address; a request names a node by a group and the text of a peer id.  The
    call runs on that node, whose answer is in the events. *)

From stdpp Require Import functions.
From S2P Require Import Prelude Types PeerText NodeManager NodeState Node NodeLog.

Record Process (S Mt : Type) : Type := mkProcess { manager : NodeManager; object : NodePtr -> Node S Mt }.
Arguments mkProcess {S Mt}. Arguments manager {S Mt}. Arguments object {S Mt}.
#[export] Instance Process_eta S Mt : Settable (Process S Mt) := fun p => mkProcess p.(manager) p.(object).

(** What one of the nodes does, and a failed [CHECK] of a service. *)
Inductive Event : Set := NodeEvent (n : NodePtr) (e : NodeState.Event) | CheckFailed.

(** Whether the controller was failed before a node saw the request. *)
Inductive Outcome : Set := SetFailed (e : Errno) | Handled.

(** The five requests, with the group and the peer id they carry. *)
Inductive RaftCall : Set :=
| PreVoteCall (request : RequestVoteRequest)
| RequestVoteCall (request : RequestVoteRequest)
| AppendEntriesCall (request : AppendEntriesRequest)
| InstallSnapshotCall (server_id : option PeerId) (term : Z)
| TimeoutNowCall (term : Z) (old_leader_stepped_down : bool).
Record RaftRequest : Set := mkRaftRequest { rq_group_id : GroupId; rq_peer_id : string; rq_call : RaftCall }.

(** What a service does to the process. *)
Abbreviation PM S Mt := (M (Process S Mt) Event).

Section service.
Context {S Mt : Type} `{LS : LogStorage.LogStorage S} `{MS : RaftMetaStorage Mt} `{EPO : EndPointOrder} `{IT : IpText}.
Context (env : Env).

(** A member function of the node at [n]. *)
Definition on_node {A} (n : NodePtr) (f : M (Node S Mt) NodeState.Event A) : PM S Mt A := fun p =>
  let '(a, x, ev) := f (p.(object) n) in (a, p <| object := <[n := x]> p.(object) |>, map (NodeEvent n) ev).

(** What the five handlers begin with: the node of the request. *)
Definition request_node (group : GroupId) (peer : string) (p : Process S Mt) : Errno + NodePtr :=
  let '(rc, peer_id) := parse peer in
  if negb (ok rc) then inl EINVAL
  else match get_node_by_id group peer_id p.(manager) with
       | None => inl ENOENT
       | Some node => inr node
       end.

Definition dispatch (group : GroupId) (peer : string) (handler : M (Node S Mt) NodeState.Event unit) : PM S Mt Outcome :=
  p ← get;
  match request_node group peer p with
  | inl e => mret (SetFailed e)
  | inr node => on_node node handler ;; mret Handled
  end.

Definition pre_vote (group : GroupId) (peer : string) (rpc : Closure) (request : RequestVoteRequest) : PM S Mt Outcome :=
  dispatch group peer (handle_pre_vote_request rpc request).
Definition request_vote (group : GroupId) (peer : string) (rpc : Closure) (request : RequestVoteRequest) : PM S Mt Outcome :=
  dispatch group peer (handle_request_vote_request rpc request).
Definition append_entries (group : GroupId) (peer : string) (rpc : Closure) (request : AppendEntriesRequest) : PM S Mt Outcome :=
  dispatch group peer (handle_append_entries_request env rpc request false).
Definition install_snapshot (group : GroupId) (peer : string) (rpc : Closure) (server_id : option PeerId) (term : Z) : PM S Mt Outcome :=
  dispatch group peer (handle_install_snapshot_request env rpc server_id term).
Definition timeout_now (group : GroupId) (peer : string) (rpc : Closure) (term : Z) (old_leader_stepped_down : bool) : PM S Mt Outcome :=
  dispatch group peer (handle_timeout_now_request env rpc term old_leader_stepped_down).

(** The node's part of a call, and the service's. *)
Definition handler (rpc : Closure) (c : RaftCall) : M (Node S Mt) NodeState.Event unit :=
  match c with
  | PreVoteCall request => handle_pre_vote_request rpc request
  | RequestVoteCall request => handle_request_vote_request rpc request
  | AppendEntriesCall request => handle_append_entries_request env rpc request false
  | InstallSnapshotCall server_id term => handle_install_snapshot_request env rpc server_id term
  | TimeoutNowCall term stepped_down => handle_timeout_now_request env rpc term stepped_down
  end.
Definition serve (rpc : Closure) (r : RaftRequest) : PM S Mt Outcome :=
  let 'mkRaftRequest group peer c := r in
  match c with
  | PreVoteCall request => pre_vote group peer rpc request
  | RequestVoteCall request => request_vote group peer rpc request
  | AppendEntriesCall request => append_entries group peer rpc request
  | InstallSnapshotCall server_id term => install_snapshot group peer rpc server_id term
  | TimeoutNowCall term stepped_down => timeout_now group peer rpc term stepped_down
  end.
End service.

(** * The administration of a group by remote calls

    [src/braft/cli_service.cpp].  A call names its node by a group and a text, the
    empty text standing for the only node of the group.  A change of the
    configuration is answered by a closure that the node runs when the change is over
    or refused: [CliDone] is what the closure has kept, [cli_returned] its run. *)


(** The answer to a call. *)
Inductive CliReply : Set :=
| CliFailed (e : Errno)
| CliPeers (old_peers new_peers : list string)
| CliLeader (leader_id : string)
| CliEmpty.

(** The arguments bound by [NewCallback]. *)
Inductive CliDone : Set :=
| AddPeerDone (peer : string) (old_peers : list PeerId)
| RemovePeerDone (peer : string) (old_peers : list PeerId)
| ChangePeersDone (old_peers : list PeerId) (new_peers : Configuration)
| SnapshotDone.

(** A call is answered by its handler or by its closure. *)
Inductive CliOutcome : Set := Answered (r : CliReply) | Waiting (d : CliDone).

Section service.
Context {S Mt : Type} `{LS : LogStorage.LogStorage S} `{MS : RaftMetaStorage Mt} `{EPO : EndPointOrder} `{IT : IpText}.
Context (env : Env).
(** [disable_cli] of the options a node was started with. *)
Context (disable_cli : NodePtr -> bool).
(** What other threads do to the process between the two times a change of the
    configuration takes the lock of its node. *)
Context (others : Process S Mt -> Process S Mt).

(** ** The closures *)
Definition add_peer_returned (peer : string) (old_peers : list PeerId) (st : Errno) : CliReply :=
  if negb (ok st) then CliFailed st
  else
    let already_exists := existsb (fun p => peer_eqb p (PeerId_of_string peer).1) old_peers in
    CliPeers (map to_string old_peers) (map to_string old_peers ++ (if already_exists then [] else [peer])).

Definition remove_peer_returned (peer : string) (old_peers : list PeerId) (st : Errno) : CliReply :=
  if negb (ok st) then CliFailed st
  else CliPeers (map to_string old_peers)
         (map to_string (filter (fun p => peer_eqb p (PeerId_of_string peer).1 = false) old_peers)).

Definition change_peers_returned (old_peers : list PeerId) (new_peers : Configuration) (st : Errno) : CliReply :=
  if negb (ok st) then CliFailed st
  else CliPeers (map to_string old_peers) (map to_string new_peers).

Definition snapshot_returned (st : Errno) : CliReply := if negb (ok st) then CliFailed st else CliEmpty.

Definition cli_returned (d : CliDone) (st : Errno) : CliReply :=
  match d with
  | AddPeerDone peer old_peers => add_peer_returned peer old_peers st
  | RemovePeerDone peer old_peers => remove_peer_returned peer old_peers st
  | ChangePeersDone old_peers new_peers => change_peers_returned old_peers new_peers st
  | SnapshotDone => snapshot_returned st
  end.

(** ** The node of a call *)

(** [get_node]: the text is converted to a [PeerId], which checks that it parses. *)
Definition get_node (group : GroupId) (peer : string) : PM S Mt (Errno + NodePtr) :=
  p ← get;
  r ← (match peer with
       | EmptyString =>
           match get_nodes_by_group_id group p.(manager) with
           | [] => mret (inl ENOENT)
           | [node] => mret (inr node)
           | _ => mret (inl EINVAL)
           end
       | _ =>
           let '(peer_id, check_ok) := PeerId_of_string peer in
           (if check_ok then skip else emit CheckFailed) ;;
           match get_node_by_id group peer_id p.(manager) with
           | None => mret (inl ENOENT)
           | Some node => mret (inr node)
           end
       end);
  match r with
  | inl e => mret (inl e)
  | inr node => if disable_cli node then mret (inl EACCES) else mret (inr node)
  end.

(** A node the call may be made on, its configuration, and the rest of the handler;
    a failure answers the call. *)
Definition on_found (group : GroupId) (peer : string) (k : NodePtr -> PM S Mt CliOutcome) : PM S Mt CliOutcome :=
  r ← get_node group peer;
  match r with inl e => mret (Answered (CliFailed e)) | inr node => k node end.
Definition with_peers (node : NodePtr) (k : list PeerId -> PM S Mt CliOutcome) : PM S Mt CliOutcome :=
  p ← get;
  let '(st, peers) := list_peers (p.(object) node) in
  if negb (ok st) then mret (Answered (CliFailed st)) else modify others ;; k peers.

(** The loop over [new_peers] of a request. *)
Fixpoint parse_new_peers (texts : list string) (conf : Configuration) : option Configuration :=
  match texts with
  | [] => Some conf
  | text :: texts =>
      let '(rc, peer) := parse text in
      if negb (ok rc) then None else parse_new_peers texts (Types.add_peer conf peer).2
  end.

(** ** The calls.  [done] is the closure made for the call. *)

Definition add_peer (done : Closure) (group : GroupId) (leader peer : string) : PM S Mt CliOutcome :=
  on_found group leader (fun node =>
  with_peers node (fun peers =>
  let '(rc, adding_peer) := parse peer in
  if negb (ok rc) then mret (Answered (CliFailed EINVAL))
  else on_node node (Node.add_peer env adding_peer (Some done)) ;; mret (Waiting (AddPeerDone peer peers)))).

Definition remove_peer (done : Closure) (group : GroupId) (leader peer : string) : PM S Mt CliOutcome :=
  on_found group leader (fun node =>
  with_peers node (fun peers =>
  let '(rc, removing_peer) := parse peer in
  if negb (ok rc) then mret (Answered (CliFailed EINVAL))
  else on_node node (Node.remove_peer env removing_peer (Some done)) ;; mret (Waiting (RemovePeerDone peer peers)))).

Definition change_peers (done : Closure) (group : GroupId) (leader : string) (new_peers : list string) : PM S Mt CliOutcome :=
  on_found group leader (fun node =>
  with_peers node (fun old_peers =>
  match parse_new_peers new_peers [] with
  | None => mret (Answered (CliFailed EINVAL))
  | Some conf => on_node node (Node.change_peers env conf (Some done)) ;; mret (Waiting (ChangePeersDone old_peers conf))
  end)).

Definition reset_peer (group : GroupId) (peer : string) (new_peers : list string) : PM S Mt CliOutcome :=
  on_found group peer (fun node =>
  match parse_new_peers new_peers [] with
  | None => mret (Answered (CliFailed EINVAL))
  | Some conf =>
      st ← on_node node (Node.reset_peers env conf);
      mret (Answered (if negb (ok st) then CliFailed st else CliEmpty))
  end).

Definition snapshot (done : Closure) (group : GroupId) (peer : option string) : PM S Mt CliOutcome :=
  on_found group (default ""%string peer) (fun node =>
  on_node node (Node.do_snapshot env (Some done)) ;; mret (Waiting SnapshotDone)).

Definition transfer_leader (group : GroupId) (leader : string) (peer : option string) : PM S Mt CliOutcome :=
  on_found group leader (fun node =>
  let '(rc, peer_id) := match peer with None => (OK, ANY_PEER) | Some text => parse text end in
  if negb (ok rc) then mret (Answered (CliFailed EINVAL))
  else
    rc ← on_node node (Node.transfer_leadership_to env peer_id);
    mret (Answered (if negb (ok rc) then CliFailed rc else CliEmpty))).

(** [get_leader] reads the nodes of the group one after another. *)
Definition leader_nodes (group : GroupId) (peer : option string) (p : Process S Mt) : Errno + list NodePtr :=
  match peer with
  | Some text =>
      let '(rc, peer_id) := parse text in
      if negb (ok rc) then inl EINVAL
      else inr (option_list (get_node_by_id group peer_id p.(manager)))
  | None => inr (get_nodes_by_group_id group p.(manager))
  end.
Fixpoint first_leader (nodes : list NodePtr) (p : Process S Mt) : CliReply :=
  match nodes with
  | [] => CliFailed EAGAIN
  | node :: nodes =>
      let leader_id := (p.(object) node).(_leader_id) in
      if negb (is_empty leader_id) then CliLeader (to_string leader_id) else first_leader nodes p
  end.
Definition get_leader (group : GroupId) (peer : option string) : PM S Mt CliOutcome :=
  p ← get;
  mret (Answered
    (match leader_nodes group peer p with
     | inl e => CliFailed e
     | inr [] => CliFailed ENOENT
     | inr nodes => first_leader nodes p
     end)).
End service.

(** ** The requests as they travel *)
Inductive CliCall : Set :=
| AddPeerRequest (group leader peer : string)
| RemovePeerRequest (group leader peer : string)
| ChangePeersRequest (group leader : string) (new_peers : list string)
| ResetPeerRequest (group peer : string) (new_peers : list string)
| SnapshotRequest (group : string) (peer : option string)
| GetLeaderRequest (group : string) (peer : option string)
| TransferLeaderRequest (group leader : string) (peer : option string).

(** The service of a server. *)
Definition serve_cli {S Mt} `{LS : LogStorage.LogStorage S} `{MS : RaftMetaStorage Mt} `{EPO : EndPointOrder} `{IT : IpText}
    (env : Env) (disable_cli : NodePtr -> bool) (others : Process S Mt -> Process S Mt)
    (done : Closure) (c : CliCall) : PM S Mt CliOutcome :=
  match c with
  | AddPeerRequest group leader peer => add_peer env disable_cli others done group leader peer
  | RemovePeerRequest group leader peer => remove_peer env disable_cli others done group leader peer
  | ChangePeersRequest group leader new_peers => change_peers env disable_cli others done group leader new_peers
  | ResetPeerRequest group peer new_peers => reset_peer env disable_cli group peer new_peers
  | SnapshotRequest group peer => snapshot env disable_cli done group peer
  | GetLeaderRequest group peer => get_leader group peer
  | TransferLeaderRequest group leader peer => transfer_leader env disable_cli group leader peer
  end.
