(* ===== verification/Cli.v ===== *)
(** * Cli: the client of the administration calls, and the routes to leaders

    [src/braft/cli.cpp] and [src/braft/route_table.cpp].  The network is a
    parameter: whether a channel to an address can be opened, and what a call to it
    is answered with.  What a client sends and logs are its events. *)

From S2P Require Import Prelude Types PeerText NodeManager RaftService.

Record Net (W : Type) : Type := mkNet {
  channel_init : EndPoint -> bool;
  call : EndPoint -> CliCall -> W -> CliReply * W
}.
Arguments channel_init {W}. Arguments call {W}.

Inductive Event : Set :=
| Call (to : EndPoint) (c : CliCall)
| Changed (old_conf new_conf : Configuration).

(** The configuration read from the texts of a response: each is converted to a
    [PeerId]. *)
Definition read_conf `{EPO : EndPointOrder} `{IT : IpText} (texts : list string) : Configuration :=
  fold_left (fun conf text => (Types.add_peer conf (PeerId_of_string text).1).2) texts [].

(** ** The command-line client *)
Section cli.
Context `{EPO : EndPointOrder} `{IT : IpText} {W : Type} (net : Net W).

Definition send (to : EndPoint) (c : CliCall) : M W Event CliReply := fun w =>
  let '(r, w') := net.(call) to c w in (r, w', [Call to c]).

(** The loop of [get_leader]: the status of the last failure, and the leader of the
    last answer. *)
Fixpoint get_leader_loop (group : GroupId) (conf : Configuration) (st : Errno) (leader_id : PeerId) : M W Event (Errno * PeerId) :=
  match conf with
  | [] => mret (if is_empty leader_id then st else OK, leader_id)
  | iter :: conf =>
      if negb (net.(channel_init) iter.(addr)) then mret (ENEG1, leader_id)
      else
        response ← send iter.(addr) (GetLeaderRequest group (Some (to_string iter)));
        match response with
        | CliFailed e => get_leader_loop group conf e leader_id
        | CliLeader text => get_leader_loop group conf st (parse text).2
        | _ => get_leader_loop group conf EINTERNAL leader_id
        end
  end.
Definition get_leader (group : GroupId) (conf : Configuration) : M W Event (Errno * PeerId) :=
  if bool_decide (conf = []) then mret (EINVAL, PeerId_default)
  else get_leader_loop group conf ENEG1 PeerId_default.

(** A call on a channel to [peer], as all the functions make it. *)
Definition invoke (peer : PeerId) (request : CliCall) (k : CliReply -> M W Event Errno) : M W Event Errno :=
  if negb (net.(channel_init) peer.(addr)) then mret ENEG1
  else
    response ← send peer.(addr) request;
    match response with CliFailed e => mret e | _ => k response end.

(** What is done with the response to a change. *)
Definition log_change (response : CliReply) : M W Event Errno :=
  match response with
  | CliPeers old_peers new_peers => emit (Changed (read_conf old_peers) (read_conf new_peers)) ;; mret OK
  | _ => mret EINTERNAL
  end.

Definition with_leader (group : GroupId) (conf : Configuration) (k : PeerId -> M W Event Errno) : M W Event Errno :=
  '(st, leader_id) ← get_leader group conf;
  if negb (ok st) then mret st else k leader_id.

Definition add_peer (group : GroupId) (conf : Configuration) (peer_id : PeerId) : M W Event Errno :=
  with_leader group conf (fun leader_id =>
    invoke leader_id (AddPeerRequest group (to_string leader_id) (to_string peer_id)) log_change).

Definition remove_peer (group : GroupId) (conf : Configuration) (peer_id : PeerId) : M W Event Errno :=
  with_leader group conf (fun leader_id =>
    invoke leader_id (RemovePeerRequest group (to_string leader_id) (to_string peer_id)) log_change).

Definition change_peers (group : GroupId) (conf new_peers : Configuration) : M W Event Errno :=
  with_leader group conf (fun leader_id =>
    invoke leader_id (ChangePeersRequest group (to_string leader_id) (map to_string new_peers)) log_change).

Definition reset_peer (group : GroupId) (peer_id : PeerId) (new_conf : Configuration) : M W Event Errno :=
  if bool_decide (new_conf = []) then mret EINVAL
  else invoke peer_id (ResetPeerRequest group (to_string peer_id) (map to_string new_conf)) (fun _ => mret OK).

Definition snapshot (group : GroupId) (peer_id : PeerId) : M W Event Errno :=
  invoke peer_id (SnapshotRequest group (Some (to_string peer_id))) (fun _ => mret OK).

Definition transfer_leader (group : GroupId) (conf : Configuration) (peer : PeerId) : M W Event Errno :=
  with_leader group conf (fun leader_id =>
    if peer_eqb leader_id peer then mret OK
    else
      invoke leader_id
        (TransferLeaderRequest group (to_string leader_id) (if negb (is_empty peer) then Some (to_string peer) else None))
        (fun _ => mret OK)).
End cli.

(** ** The route table *)
Record GroupConf : Set := mkGroupConf { leader : PeerId; gc_conf : Configuration }.
#[export] Instance GroupConf_eta : Settable GroupConf := fun g => mkGroupConf g.(leader) g.(gc_conf).
Definition GroupConf_default : GroupConf := mkGroupConf PeerId_default [].
Abbreviation RouteTable := (gmap GroupId GroupConf).

Section route_table.
Context `{EPO : EndPointOrder} `{IT : IpText}.

Definition modify_conf (group : GroupId) (conf : Configuration) (m : RouteTable) : Z * RouteTable :=
  let gc := (default GroupConf_default (m !! group)) <| gc_conf := conf |> in
  let gc := if negb (is_empty gc.(leader)) && negb (contains gc.(gc_conf) gc.(leader))
            then gc <| leader := PeerId_default |> else gc in
  (1, <[group := gc]> m).

Definition modify_leader (group : GroupId) (leader_id : PeerId) (m : RouteTable) : Z * RouteTable :=
  match m !! group with
  | None => (0, m)
  | Some gc => if peer_eqb gc.(leader) leader_id then (0, m) else (1, <[group := gc <| leader := leader_id |>]> m)
  end.

Definition delete_group (group : GroupId) (m : RouteTable) : Z * RouteTable :=
  match m !! group with Some _ => (1, delete group m) | None => (0, m) end.

(** [select_leader]: its code, and the leader it gives. *)
Definition select_leader (group : GroupId) (m : RouteTable) : Z * option PeerId :=
  match m !! group with
  | None => (-1, None)
  | Some gc => if is_empty gc.(leader) then (1, None) else (0, Some gc.(leader))
  end.

Definition list_conf (group : GroupId) (m : RouteTable) : Z * option Configuration :=
  match m !! group with None => (-1, None) | Some gc => (0, Some gc.(gc_conf)) end.

Definition update_configuration (group : GroupId) (conf : Configuration) (m : RouteTable) : Z * RouteTable :=
  if bool_decide (conf = []) then (-1, m) else (0, (modify_conf group conf m).2).
Definition update_configuration_str (group : GroupId) (conf_str : string) (m : RouteTable) : Z * RouteTable :=
  let '(rc, conf) := parse_from conf_str in
  if negb (ok rc) then (-1, m) else update_configuration group conf m.

Definition update_leader (group : GroupId) (leader_id : PeerId) (m : RouteTable) : Z * RouteTable :=
  (0, (modify_leader group leader_id m).2).
Definition update_leader_str (group : GroupId) (leader_str : string) (m : RouteTable) : Z * RouteTable :=
  match leader_str with
  | EmptyString => update_leader group PeerId_default m
  | _ => let '(rc, leader_id) := parse leader_str in
         if negb (ok rc) then (-1, m) else update_leader group leader_id m
  end.

Definition remove_group (group : GroupId) (m : RouteTable) : Z * RouteTable :=
  let '(nremoved, m') := delete_group group m in (if nremoved =? 0 then -1 else 0, m').

(** [refresh_leader], over the network and the table it updates.  Other threads may
    change the table while it waits: the world holds the table. *)
Context {W : Type} (net : Net W) (table : W -> RouteTable) (set_table : RouteTable -> W -> W).

Fixpoint refresh_loop (group : GroupId) (conf : Configuration) (error : Errno) : M W Event Errno :=
  match conf with
  | [] => mret error
  | iter :: conf =>
      if negb (net.(channel_init) iter.(addr)) then refresh_loop group conf ENEG1
      else
        response ← send net iter.(addr) (GetLeaderRequest group None);
        match response with
        | CliFailed e => refresh_loop group conf e
        | CliLeader text => modify (fun w => set_table (update_leader_str group text (table w)).2 w) ;; mret OK
        | _ => refresh_loop group conf EINTERNAL
        end
  end.
Definition refresh_leader (group : GroupId) : M W Event Errno :=
  w ← get;
  match list_conf group (table w) with
  | (_, None) => mret ENOENT
  | (_, Some conf) => refresh_loop group conf OK
  end.
End route_table.
