(* ===== verification/CliProofs.v ===== *)
(** * CliProofs: requests reach the node they name, and replies tell what was read

    The services of a process against the registry of its nodes, and a change of the
    configuration followed from the client to the node and back. *)

From stdpp Require Import functions.
From S2P Require Import Prelude Types PeerText MemoryLog NodeState Node Ballot VoteSafety VoteExamples NodeExamples NodeManager NodeManagerProofs RaftService Cli.

(** ** Texts and configurations *)
Section texts.
Context `{EPO : EndPointOrder} `{IT : IpText}.

Lemma of_string_to_string p : peer_ok p -> PeerId_of_string (to_string p) = (p, true).
Proof. intros Hp. unfold PeerId_of_string. by rewrite parse_to_string. Qed.

Lemma to_string_nonempty p : peer_ok p -> exists c s, to_string p = String c s.
Proof. intros Hp. rewrite to_string_print by done. by apply print_peer_nonempty. Qed.

Lemma set_insert_contained p c : conf_wf c -> contains c p = true -> set_insert p c = c.
Proof.
  induction c as [|q c IH]; intros Hwf Hc; [done|]. rewrite contains_cons in Hc. cbn [set_insert].
  destruct (peer_ltb p q) eqn:Hpq.
  - exfalso. apply orb_true_iff in Hc as [Hq|Hc].
    + apply (peer_ltb_not_equiv p q Hpq). symmetry. exact Hq.
    + apply contains_spec in Hc as (r & Hr & Heq). inversion Hwf as [|? ? _ Hall]; subst.
      rewrite Forall_forall in Hall. eapply (peer_ltb_not_equiv p r); [|by symmetry].
      eapply peer_ltb_trans; [exact Hpq|by apply Hall].
  - destruct (peer_ltb q p) eqn:Hqp; [|done]. f_equal. apply IH; [by eapply conf_wf_tail|].
    apply orb_true_iff in Hc as [Hq|Hc]; [|done]. exfalso. by apply (peer_ltb_not_equiv q p Hqp).
Qed.

(** Where a sorted list is split, its first half is below the first of its second. *)
Lemma conf_wf_below c p peers : conf_wf (c ++ p :: peers) -> Forall (fun q => peer_ltb q p = true) c.
Proof.
  induction c as [|q c IH]; intros Hwf; [done|]. inversion Hwf as [|? ? Hs Hall]; subst. constructor; [|by apply IH].
  rewrite Forall_forall in Hall. apply Hall. apply elem_of_app. right. by left.
Qed.

Lemma read_conf_print c : Forall peer_ok c -> conf_wf c -> read_conf (map to_string c) = c.
Proof.
  unfold read_conf. change c with ([] ++ c)%list at 2 4. generalize (@nil PeerId) as d.
  induction c as [|p c IH]; intros d Hp Hwf; cbn; [by rewrite app_nil_r|]. apply Forall_cons in Hp as [Hp Hc].
  rewrite of_string_to_string by done. cbn. rewrite set_insert_last by (by eapply conf_wf_below).
  rewrite IH; by rewrite <- ?app_assoc.
Qed.

Lemma read_conf_last texts t : read_conf (texts ++ [t]) = set_insert (PeerId_of_string t).1 (read_conf texts).
Proof. unfold read_conf. by rewrite fold_left_app. Qed.

Lemma parse_new_peers_print c : Forall peer_ok c -> conf_wf c -> parse_new_peers (map to_string c) [] = Some c.
Proof.
  change c with ([] ++ c)%list at 2 4. generalize (@nil PeerId) as d.
  induction c as [|p c IH]; intros d Hp Hwf; cbn; [by rewrite app_nil_r|]. apply Forall_cons in Hp as [Hp Hc].
  rewrite parse_to_string by done. cbn. rewrite set_insert_last by (by eapply conf_wf_below).
  rewrite IH; by rewrite <- ?app_assoc.
Qed.

(** ** What the closures answer *)
Lemma add_peer_returned_reads conf peer p : conf_wf conf -> Forall peer_ok conf -> parse peer = (OK, p) ->
  exists olds news, add_peer_returned peer conf OK = CliPeers olds news /\
    read_conf olds = conf /\ read_conf news = (Types.add_peer conf p).2.
Proof.
  intros Hwf Hok Hp. eexists _, _. split; [reflexivity|]. split; [by apply read_conf_print|].
  unfold PeerId_of_string. rewrite Hp. cbn. change (existsb _ conf) with (contains conf p).
  destruct (contains conf p) eqn:Hc.
  - rewrite app_nil_r, read_conf_print by done. by rewrite set_insert_contained.
  - rewrite read_conf_last, read_conf_print by done. unfold PeerId_of_string. by rewrite Hp.
Qed.

Lemma remove_peer_returned_reads conf peer p : conf_wf conf -> Forall peer_ok conf -> parse peer = (OK, p) ->
  exists olds news, remove_peer_returned peer conf OK = CliPeers olds news /\
    read_conf olds = conf /\ read_conf news = (Types.remove_peer conf p).2.
Proof.
  intros Hwf Hok Hp. eexists _, _. split; [reflexivity|]. split; [by apply read_conf_print|].
  unfold PeerId_of_string. rewrite Hp. apply (read_conf_print (set_erase p conf)); [|by apply set_erase_wf].
  apply Forall_forall. intros q [_ Hq]%list_elem_of_filter. rewrite Forall_forall in Hok. by apply Hok.
Qed.

Lemma change_peers_returned_reads conf new_peers :
  conf_wf conf -> Forall peer_ok conf -> conf_wf new_peers -> Forall peer_ok new_peers ->
  exists olds news, change_peers_returned conf new_peers OK = CliPeers olds news /\
    read_conf olds = conf /\ read_conf news = new_peers.
Proof. intros. eexists _, _. split; [reflexivity|]. by rewrite !read_conf_print. Qed.
End texts.

(** ** Requests of the protocol *)
Section dispatch.
Context {S Mt : Type} `{LS : LogStorage.LogStorage S} `{MS : RaftMetaStorage Mt} `{EPO : EndPointOrder} `{IT : IpText}.
Context (node_id : NodePtr -> NodeId) (env : Env).

Lemma serve_dispatch rpc r (p : Process S Mt) :
  serve env rpc r p = dispatch r.(rq_group_id) r.(rq_peer_id) (handler env rpc r.(rq_call)) p.
Proof. by destruct r as [g peer []]. Qed.

(** The member function runs on its node and on no other. *)
Lemma on_node_run {A} n (f : M (Node S Mt) NodeState.Event A) (p : Process S Mt) :
  value_of (on_node n f p) = value_of (f (p.(object) n)) /\
  (state_of (on_node n f p)).(object) n = state_of (f (p.(object) n)) /\
  events_of (on_node n f p) = map (NodeEvent n) (events_of (f (p.(object) n))) /\
  (forall m, m <> n -> (state_of (on_node n f p)).(object) m = p.(object) m) /\
  (state_of (on_node n f p)).(manager) = p.(manager).
Proof.
  unfold on_node, value_of, state_of, events_of. destruct (f (object p n)) as [[a x] ev]. cbn.
  split_and!; try done.
  - apply fn_lookup_insert.
  - intros m Hm. by apply fn_lookup_insert_ne.
Qed.

(** C31: a request is handled by the node whose group and peer id it carries and by no
    other: with that node's own handler, in the state the node is in, every other node
    and the registry staying as they are.  A request whose peer id does not parse or is
    not registered in that group is refused and changes nothing.  The peer id written
    by [to_string] names the node it was written for. *)
Theorem requests_reach_the_node_they_name R rpc r (p : Process S Mt) :
  represents node_id p.(manager).(_nodes) R ->
  match value_of (serve env rpc r p) with
  | SetFailed e =>
      state_of (serve env rpc r p) = p /\ events_of (serve env rpc r p) = [] /\
      (e = EINVAL /\ (parse r.(rq_peer_id)).1 <> OK \/
       e = ENOENT /\ exists peer, parse r.(rq_peer_id) = (OK, peer) /\
         forall n, n ∈ R -> node_id n ≢ mkNodeId r.(rq_group_id) peer)
  | Handled =>
      exists n peer, n ∈ R /\ parse r.(rq_peer_id) = (OK, peer) /\ node_id n ≡ mkNodeId r.(rq_group_id) peer /\
      (state_of (serve env rpc r p)).(object) n = state_of (handler env rpc r.(rq_call) (p.(object) n)) /\
      events_of (serve env rpc r p) = map (NodeEvent n) (events_of (handler env rpc r.(rq_call) (p.(object) n))) /\
      (forall m, m <> n -> (state_of (serve env rpc r p)).(object) m = p.(object) m) /\
      (state_of (serve env rpc r p)).(manager) = p.(manager)
  end /\
  (forall n, n ∈ R -> peer_ok (node_id n).(peer_id) ->
   r.(rq_group_id) = (node_id n).(group_id) -> r.(rq_peer_id) = to_string (node_id n).(peer_id) ->
   serve env rpc r p = (on_node n (handler env rpc r.(rq_call)) ;; mret Handled) p).
Proof.
  intros Hr. rewrite serve_dispatch. unfold dispatch. rewrite get_bind. unfold request_node. split.
  - destruct (parse (rq_peer_id r)) as [rc peer] eqn:Hp. destruct (ok rc) eqn:Hrc; cbn [negb].
    2:{ split; [done|]. split; [done|]. left. split; [done|]. cbn. by intros ->. }
    apply ok_true in Hrc as ->. unfold get_node_by_id. destruct (find_node _ _) as [n|] eqn:Hf.
    + apply (represents_find node_id _ R) in Hf as [Hin Hq]; [|done].
      destruct (on_node_run n (handler env rpc (rq_call r)) p) as (_ & Hs & Hev & Ho & Hm).
      unfold value_of, state_of, events_of, mbind, M_bind in *.
      destruct (on_node n _ p) as [[[] p'] ev]. cbn in *. exists n, peer. rewrite app_nil_r. by split_and!.
    + pose proof (proj1 (represents_find_none node_id _ R _ Hr) Hf) as Hno.
      split; [done|]. split; [done|]. right. split; [done|]. by exists peer.
  - intros n Hin Hok Hg Hpeer. rewrite Hpeer, parse_to_string by done. cbn [negb ok]. unfold get_node_by_id.
    assert (find_node (node_map (_nodes (manager p))) (mkNodeId (rq_group_id r) (peer_id (node_id n))) = Some n) as ->; [|done].
    apply (represents_find node_id _ R); [done|]. split; [done|]. by apply nodeid_equiv_spec.
Qed.
End dispatch.

(** ** A change of the configuration, from end to end *)
Inductive ConfChange : Set := AddPeer (p : PeerId) | RemovePeer (p : PeerId) | ChangePeers (c : Configuration).

Section change.
Context {S Mt W : Type} `{LS : LogStorage.LogStorage S} `{MS : RaftMetaStorage Mt} `{EPO : EndPointOrder} `{IT : IpText}.
Context (node_id : NodePtr -> NodeId) (env : Env) (disable_cli : NodePtr -> bool) (others : Process S Mt -> Process S Mt).
Context (net : Net W).

Definition target (conf : Configuration) (ch : ConfChange) : Configuration :=
  match ch with
  | AddPeer p => (Types.add_peer conf p).2
  | RemovePeer p => (Types.remove_peer conf p).2
  | ChangePeers c => c
  end.
Definition change_ok (ch : ConfChange) : Prop :=
  match ch with AddPeer p | RemovePeer p => peer_ok p | ChangePeers c => conf_wf c /\ Forall peer_ok c end.

(** What the client sends and does. *)
Definition change_request (group : GroupId) (leader : PeerId) (ch : ConfChange) : CliCall :=
  match ch with
  | AddPeer p => AddPeerRequest group (to_string leader) (to_string p)
  | RemovePeer p => RemovePeerRequest group (to_string leader) (to_string p)
  | ChangePeers c => ChangePeersRequest group (to_string leader) (map to_string c)
  end.
Definition client_change (group : GroupId) (members : Configuration) (ch : ConfChange) : M W Cli.Event Errno :=
  match ch with
  | AddPeer p => Cli.add_peer net group members p
  | RemovePeer p => Cli.remove_peer net group members p
  | ChangePeers c => Cli.change_peers net group members c
  end.
Lemma client_change_invokes group members ch :
  client_change group members ch =
    with_leader net group members (fun leader => invoke net leader (change_request group leader ch) log_change).
Proof. by destruct ch. Qed.

(** The reply to a call once its closure has been run with [st]. *)
Definition reply_of (out : CliOutcome) (st : Errno) : CliReply :=
  match out with Answered r => r | Waiting d => cli_returned d st end.

Lemma get_node_found R group leader n (p : Process S Mt) :
  represents node_id p.(manager).(_nodes) R -> n ∈ R -> node_id n ≡ mkNodeId group leader -> peer_ok leader ->
  disable_cli n = false -> get_node disable_cli group (to_string leader) p = (inr n, p, []).
Proof.
  intros Hr Hin Hq Hok Hd. unfold get_node. rewrite get_bind.
  destruct (to_string_nonempty leader Hok) as (c & s & Hs). pose proof (of_string_to_string leader Hok) as Hp.
  rewrite Hs in *. rewrite Hp. unfold get_node_by_id.
  assert (find_node (node_map (_nodes (manager p))) (mkNodeId group leader) = Some n) as ->
    by (by apply (represents_find node_id _ R)).
  erewrite bind_quiet; [|reflexivity]. cbn. by rewrite Hd.
Qed.

Lemma on_node_ext {A B} n (f g : M (Node S Mt) NodeState.Event A) (k : A -> PM S Mt B) (p : Process S Mt) :
  f (p.(object) n) = g (p.(object) n) -> (on_node n f ≫= k) p = (on_node n g ≫= k) p.
Proof. unfold mbind, M_bind, on_node. by intros ->. Qed.

(** The handler passes the change to the node the client names. *)
Lemma server_passes_change R group leader n done ch (p : Process S Mt) :
  represents node_id p.(manager).(_nodes) R -> n ∈ R -> node_id n ≡ mkNodeId group leader -> peer_ok leader ->
  disable_cli n = false -> (p.(object) n).(_state) = STATE_LEADER -> change_ok ch ->
  let conf := (p.(object) n).(_conf).(conf) in
  let conf2 := ((others p).(object) n).(_conf).(Types.conf) in
  conf_wf conf -> Forall peer_ok conf ->
  exists d, serve_cli env disable_cli others done (change_request group leader ch) p =
      (on_node n (unsafe_register_conf_change env conf2 (target conf2 ch) (Some done)) ;; mret (Waiting d)) (others p) /\
    forall st, exists olds news,
      cli_returned d st = (if ok st then CliPeers olds news else CliFailed st) /\
      read_conf olds = conf /\ read_conf news = target conf ch.
Proof.
  intros Hr Hin Hq Hok Hd Hl Hch conf conf2 Hwf Hpeers.
  assert (forall (k : NodePtr -> list PeerId -> PM S Mt CliOutcome),
    on_found disable_cli group (to_string leader) (fun node => with_peers others node (k node)) p = k n conf (others p)) as Hfound.
  { intros k. unfold on_found. erewrite bind_quiet by (by eapply get_node_found). unfold with_peers. rewrite get_bind.
    unfold list_peers. rewrite Hl. exact (modify_bind others (fun _ => k n conf) p). }
  destruct ch as [peer|peer|c]; cbn [serve_cli change_request target] in *; unfold RaftService.add_peer, RaftService.remove_peer, RaftService.change_peers.
  - exists (AddPeerDone (to_string peer) conf). rewrite Hfound, parse_to_string by done. split.
    + apply on_node_ext. unfold Node.add_peer. by rewrite get_bind.
    + intros st. destruct (add_peer_returned_reads conf (to_string peer) peer) as (olds & news & Hret & Ho & Hn);
        [done..|by apply parse_to_string|]. exists olds, news. split; [|done].
      cbn. destruct (ok st) eqn:He; [apply ok_true in He as ->; exact Hret|]. unfold add_peer_returned. by rewrite He.
  - exists (RemovePeerDone (to_string peer) conf). rewrite Hfound, parse_to_string by done. split.
    + apply on_node_ext. unfold Node.remove_peer. by rewrite get_bind.
    + intros st. destruct (remove_peer_returned_reads conf (to_string peer) peer) as (olds & news & Hret & Ho & Hn);
        [done..|by apply parse_to_string|]. exists olds, news. split; [|done].
      cbn. destruct (ok st) eqn:He; [apply ok_true in He as ->; exact Hret|]. unfold remove_peer_returned. by rewrite He.
  - destruct Hch as [Hcwf Hcok]. exists (ChangePeersDone conf c). rewrite Hfound, parse_new_peers_print by done. split.
    + apply on_node_ext. unfold Node.change_peers. by rewrite get_bind.
    + intros st. destruct (change_peers_returned_reads conf c) as (olds & news & Hret & Ho & Hn); [done..|].
      exists olds, news. split; [|done].
      cbn. destruct (ok st) eqn:He; [apply ok_true in He as ->; exact Hret|]. unfold change_peers_returned. by rewrite He.
Qed.

(** C28: a change of the configuration (a peer added, a peer removed, or a new set of
    peers), from the client to the leader and back.  Say the client has found a leader
    and a channel to it opens, and the call is served by a process where the node with
    that identity leads its group and has [disable_cli] off, its configuration and the
    peers of the change being writable as text.  Then that node, and no other, is told
    to go from the configuration it has when the change is made to what the change
    makes of that one (with the peer, without it, or the new set); and once the closure
    has been run with a status, the client ends with that status.  If it is a success
    the client reports the configuration the handler read when it first locked the
    node, and what the change makes of it.  The handler locks the node twice: other
    threads may do anything to the process in between, so the configurations reported
    are those of the change made only as long as nobody changed the node's
    configuration meanwhile; [reply_tells_an_older_configuration] is a run where
    somebody did. *)
Theorem membership_change_end_to_end R group members leader n done ch st (p : Process S Mt) w w1 w2 ev1 :
  Cli.get_leader net group members w = ((OK, leader), w1, ev1) -> net.(channel_init) leader.(addr) = true ->
  net.(call) leader.(addr) (change_request group leader ch) w1 =
    (reply_of (value_of (serve_cli env disable_cli others done (change_request group leader ch) p)) st, w2) ->
  represents node_id p.(manager).(_nodes) R -> n ∈ R -> node_id n ≡ mkNodeId group leader -> peer_ok leader ->
  disable_cli n = false -> (p.(object) n).(_state) = STATE_LEADER -> change_ok ch ->
  let conf := (p.(object) n).(_conf).(conf) in
  let conf2 := ((others p).(object) n).(_conf).(Types.conf) in
  conf_wf conf -> Forall peer_ok conf ->
  (exists d, serve_cli env disable_cli others done (change_request group leader ch) p =
     (on_node n (unsafe_register_conf_change env conf2 (target conf2 ch) (Some done)) ;; mret (Waiting d)) (others p)) /\
  client_change group members ch w =
    (st, w2, ev1 ++ Call leader.(addr) (change_request group leader ch) ::
      (if ok st then [Changed conf (target conf ch)] else [])).
Proof.
  intros Hlead Hinit Hcall Hr Hin Hq Hok Hd Hl Hch conf conf2 Hwf Hpeers.
  destruct (server_passes_change R group leader n done ch p) as (d & Hserve & Hret); [done..|].
  split; [by exists d|].
  assert (value_of (serve_cli env disable_cli others done (change_request group leader ch) p) = Waiting d) as Hv.
  { rewrite Hserve. unfold value_of, mbind, M_bind. by destruct (on_node n _ (others p)) as [[[] ?] ?]. }
  rewrite Hv in Hcall. destruct (Hret st) as (olds & news & Hrep & Ho & Hn). cbn [reply_of] in Hcall. rewrite Hrep in Hcall.
  rewrite client_change_invokes. eapply bind_run; [exact Hlead|].
  cbv beta iota. unfold invoke. rewrite Hinit. cbn [negb]. change (ok OK) with true. cbn [negb].
  unfold send. unfold mbind, M_bind.
  rewrite Hcall. destruct (ok st) eqn:Hst; [|done].
  apply ok_true in Hst as ->. cbn. by rewrite Ho, Hn.
Qed.
End change.

(** ** Routes *)
Section routes.
Context `{EPO : EndPointOrder} `{IT : IpText}.

(** After an update of its configuration a group is routed to the leader it was routed
    to before, if that is a peer of the new configuration, and to no leader otherwise;
    the other groups are routed as before. *)
Lemma updated_route_is_inside group conf m m' :
  update_configuration group conf m = (0, m') ->
  list_conf group m' = (0, Some conf) /\
  select_leader group m' =
    (match select_leader group m with
     | (0, Some l) => if contains conf l then (0, Some l) else (1, None)
     | _ => (1, None)
     end) /\
  (forall g, g <> group -> select_leader g m' = select_leader g m /\ list_conf g m' = list_conf g m).
Proof.
  unfold update_configuration. case_bool_decide; [done|]. intros [= <-]. unfold modify_conf. cbn [snd].
  unfold list_conf, select_leader. split_and!.
  - rewrite lookup_insert_eq. f_equal. f_equal. by case_match.
  - rewrite lookup_insert_eq. destruct (m !! group) as [[l c]|]; cbn; [|done].
    destruct (is_empty l) eqn:He; cbn; [by rewrite He|].
    destruct (contains conf l); cbn; [by rewrite He|done].
  - intros g Hg. by rewrite lookup_insert_ne.
Qed.
End routes.

(** * A process with three nodes of one group and one of another

    Runs of the registry, of the services and of the client; they are the witnesses of
    the theorems, and show what the code does where it is not what it says. *)


#[local] Existing Instance decimal_ip_text.

(** Nodes 1, 2 and 3 are the group "g", node 4 is of the group "h" and node 5 has the
    identity of node 1. *)
Definition ex_id (n : NodePtr) : NodeId :=
  match n with
  | 4%positive => mkNodeId "h" (example_peer 1)
  | 5%positive => mkNodeId "g" (example_peer 1)
  | n => mkNodeId "g" (example_peer (Zpos n))
  end.
Definition ex_changes : list Change := [Add 1; Add 5; Add 2; Add 4; Remove 5; Remove 2; Add 2; Add 3; Remove 7]%positive.
Definition ex_manager : NodeManager :=
  mkNodeManager (state_of (run_changes ex_id ex_changes Maps_default)) {[mkEndPoint IP_ANY 1]}.

Lemma registry_is_a_set_of_nodes_witness :
  value_of (run_changes ex_id ex_changes Maps_default) = [1; 0; 1; 1; 0; 1; 1; 1; 0] /\
  get_node_by_id "g" (example_peer 2) ex_manager = Some 2%positive /\
  get_all_nodes ex_manager ≡ₚ [3; 2; 4; 1]%positive.
Proof.
  destruct (registry_is_a_set_of_nodes ex_id ex_changes ex_manager [1; 0; 1; 1; 0; 1; 1; 1; 0] [3; 2; 4; 1]%positive
    eq_refl eq_refl) as (Hv & _ & _ & Hget & _ & Hall & _).
  split; [exact Hv|]. split; [|exact Hall]. rewrite Hget. vm_compute. reflexivity.
Defined.

(** ** The process *)
Definition follower (n : NodePtr) : Node MemoryLogStorage TestMeta :=
  (example_node []) <| _leader_id := example_peer 1 |>.
Definition ex_process : Process MemoryLogStorage TestMeta :=
  mkProcess ex_manager (fun n => match n with 1%positive => settled_leader | n => follower n end).
Definition ex_nodes : list NodePtr := [3; 2; 4; 1]%positive.

Lemma ex_process_represents : represents ex_id ex_process.(manager).(_nodes) ex_nodes.
Proof.
  destruct (changes_represent ex_id ex_changes Maps_default []) as (m & Hrun & Hr).
  { split_and!; [|done..]. split; [constructor|]. by intros a b ?%not_elem_of_nil. }
  change (_nodes (manager ex_process)) with (state_of (run_changes ex_id ex_changes Maps_default)). rewrite Hrun. exact Hr.
Qed.

Definition ex_vote : RaftRequest :=
  mkRaftRequest "g" (to_string (example_peer 1))
    (RequestVoteCall (mkRequestVoteRequest (Some (example_peer 2)) 1 LogId_default None)).
Lemma example_peer_ok i : 0 <= i < 2 ^ 31 -> peer_ok (example_peer i).
Proof. intros Hi. unfold peer_ok, int32. cbn. lia. Qed.

Lemma requests_reach_the_node_they_name_witness :
  serve (example_env 6000) 9 ex_vote ex_process =
    (on_node 1%positive (handler (example_env 6000) 9 ex_vote.(rq_call)) ;; mret Handled) ex_process /\
  value_of (serve (example_env 6000) 9 (mkRaftRequest "g" "nobody" ex_vote.(rq_call)) ex_process) = SetFailed EINVAL.
Proof.
  split; [|vm_compute; reflexivity].
  apply (requests_reach_the_node_they_name ex_id (example_env 6000) ex_nodes 9 ex_vote ex_process ex_process_represents).
  - repeat first [left | right].
  - by apply example_peer_ok.
  - reflexivity.
  - reflexivity.
Defined.

(** ** The client, on a network where every call reaches this process *)
Definition nobody_denies : NodePtr -> bool := fun _ => false.
Definition quiet : Process MemoryLogStorage TestMeta -> Process MemoryLogStorage TestMeta := fun p => p.
Definition local_net (answered_with : Errno) : Net (Process MemoryLogStorage TestMeta) :=
  mkNet _ (fun _ => true) (fun _ c p =>
    let '(out, p', _) := serve_cli (example_env 6000) nobody_denies quiet 9 c p in (reply_of out answered_with, p')).

(** The client removes peer 2: it asks the three peers for the leader, then peer 1. *)
Definition ask (i : Z) : Cli.Event := Call (mkEndPoint 1 i) (GetLeaderRequest "g" (Some (to_string (example_peer i)))).
Lemma ex_one : 0 <= 1 < 2 ^ 31.
Proof. lia. Qed.
Lemma ex_two : 0 <= 2 < 2 ^ 31.
Proof. lia. Qed.
Lemma ex_members_ok : Forall peer_ok (example_conf [1; 2; 3]).
Proof. repeat constructor; apply example_peer_ok; lia. Qed.
Lemma local_get_leader_quiet st group conf (p : Process MemoryLogStorage TestMeta) :
  state_of (Cli.get_leader (local_net st) group conf p) = p.
Proof.
  assert (forall e leader, state_of (get_leader_loop (local_net st) group conf e leader p) = p) as Hloop.
  { induction conf as [|q conf IH]; intros e leader; [done|]. cbn [get_leader_loop channel_init local_net negb].
    pose proof (eq_refl : (call (local_net st) q.(addr) (GetLeaderRequest group (Some (to_string q))) p).2 = p) as Hc.
    unfold state_of, mbind, M_bind, send in *. destruct (call _ _ _ p) as [r p']. cbn [snd] in Hc. subst p'.
    destruct r as [e'| |text|]; [specialize (IH e' leader)|specialize (IH EINTERNAL leader)|specialize (IH e (parse text).2)|specialize (IH EINTERNAL leader)];
      by destruct (get_leader_loop _ _ _ _ _ p) as [[? ?] ?]. }
  unfold Cli.get_leader. case_bool_decide; [done|]. apply Hloop.
Qed.
Lemma ex_leader_conf : (ex_process.(object) 1%positive).(_conf).(conf) = example_conf [1; 2; 3].
Proof. vm_compute. reflexivity. Qed.
Lemma local_call st to c (p : Process MemoryLogStorage TestMeta) :
  call (local_net st) to c p =
    (reply_of (value_of (serve_cli (example_env 6000) nobody_denies quiet 9 c p)) st,
     state_of (serve_cli (example_env 6000) nobody_denies quiet 9 c p)).
Proof. cbn. by destruct (serve_cli _ _ _ _ _ _) as [[out p'] ev]. Qed.
Lemma membership_change_end_to_end_witness :
  value_of (client_change (local_net OK) "g" (example_conf [1; 2; 3]) (RemovePeer (example_peer 2)) ex_process) = OK /\
  events_of (client_change (local_net OK) "g" (example_conf [1; 2; 3]) (RemovePeer (example_peer 2)) ex_process) =
    [ask 1; ask 2; ask 3;
     Call (mkEndPoint 1 1) (RemovePeerRequest "g" "1:1:0:0" "1:2:0:0");
     Changed (example_conf [1; 2; 3]) (example_conf [1; 3])].
Proof.
  destruct (Cli.get_leader (local_net OK) "g" (example_conf [1; 2; 3]) ex_process) as [[r w1] ev1] eqn:Hlead.
  assert (r = (OK, example_peer 1) /\ ev1 = [ask 1; ask 2; ask 3]) as [-> ->].
  { assert ((Cli.get_leader (local_net OK) "g" (example_conf [1; 2; 3]) ex_process).1.1 = (OK, example_peer 1) /\
      (Cli.get_leader (local_net OK) "g" (example_conf [1; 2; 3]) ex_process).2 = [ask 1; ask 2; ask 3]) as H
      by (split; vm_compute; reflexivity).
    rewrite Hlead in H. exact H. }
  pose proof (local_get_leader_quiet OK "g" (example_conf [1; 2; 3]) ex_process) as Hq. rewrite Hlead in Hq. cbn in Hq. subst w1.
  destruct (membership_change_end_to_end ex_id (example_env 6000) nobody_denies quiet (local_net OK) ex_nodes "g"
    (example_conf [1; 2; 3]) (example_peer 1) 1%positive 9%positive (RemovePeer (example_peer 2)) OK ex_process ex_process
    ex_process _ [ask 1; ask 2; ask 3] Hlead eq_refl (local_call OK _ _ ex_process) ex_process_represents) as [_ Hend].
  - repeat first [left | right].
  - reflexivity.
  - exact (example_peer_ok 1 ex_one).
  - reflexivity.
  - vm_compute. reflexivity.
  - exact (example_peer_ok 2 ex_two).
  - rewrite ex_leader_conf. repeat constructor.
  - rewrite ex_leader_conf. exact ex_members_ok.
  - rewrite Hend, ex_leader_conf. split; [reflexivity|]. vm_compute. reflexivity.
Defined.

(** ** What is not as it says *)

(** [get_node] converts a text of the request to a [PeerId], which checks that it
    parses: a malformed [leader_id] fails a check where a malformed [peer_id] is
    answered with [EINVAL]. *)
Lemma malformed_leader_id_fails_a_check :
  let r := serve_cli (example_env 6000) nobody_denies quiet 9 (AddPeerRequest "g" "nobody" "1:4:0:0") ex_process in
  value_of r = Answered (CliFailed ENOENT) /\ events_of r = [RaftService.CheckFailed].
Proof. split; vm_compute; reflexivity. Qed.

(** [disable_cli] is said to deny the calls of the client; [get_leader] does not read it. *)
Lemma get_leader_is_never_denied :
  let denied := fun _ : NodePtr => true in
  value_of (serve_cli (example_env 6000) denied quiet 9 (GetLeaderRequest "g" None) ex_process) = Answered (CliLeader "1:1:0:0") /\
  value_of (serve_cli (example_env 6000) denied quiet 9 (SnapshotRequest "g" (Some "1:1:0:0"%string)) ex_process) =
    Answered (CliFailed EACCES).
Proof. split; vm_compute; reflexivity. Qed.

(** Peers 1 and 2 know that 2 leads, peer 3 has not heard of it: the client keeps the
    answer of peer 3, the last one.  When no channel to peer 3 can be opened it gives up
    with the leader at hand. *)
Definition lagging_net (third : bool) : Net unit :=
  mkNet _ (fun a => third || negb (a.(port) =? 3))
    (fun a _ w => (CliLeader (if a.(port) =? 3 then "1:1:0:0" else "1:2:0:0"), w)).
Lemma last_answer_wins :
  value_of (Cli.get_leader (lagging_net true) "g" (example_conf [1; 2; 3]) tt) = (OK, example_peer 1) /\
  value_of (Cli.get_leader (lagging_net false) "g" (example_conf [1; 2; 3]) tt) = (ENEG1, example_peer 2).
Proof. split; vm_compute; reflexivity. Qed.

(** Peer 3 is removed between [list_peers] and [add_peer] of the handler that adds peer
    4: the node goes from 1, 2 to 1, 2, 4, and the reply says it went from 1, 2, 3 to
    1, 2, 3, 4. *)
Definition peer_3_removed (p : Process MemoryLogStorage TestMeta) : Process MemoryLogStorage TestMeta :=
  p <| object := <[1%positive := let n := p.(object) 1%positive in
                     n <| _conf := (n.(_conf) <| Types.conf := example_conf [1; 2] |>) |>]> p.(object) |>.
Lemma reply_tells_an_older_configuration :
  let r := serve_cli (example_env 6000) nobody_denies peer_3_removed 9 (AddPeerRequest "g" "1:1:0:0" "1:4:0:0") ex_process in
  reply_of (value_of r) OK = CliPeers ["1:1:0:0"; "1:2:0:0"; "1:3:0:0"]%string ["1:1:0:0"; "1:2:0:0"; "1:3:0:0"; "1:4:0:0"]%string /\
  ((state_of r).(object) 1%positive).(_conf_ctx).(NodeState._old_peers) = example_conf [1; 2] /\
  ((state_of r).(object) 1%positive).(_conf_ctx).(NodeState._new_peers) = example_conf [1; 2; 4].
Proof. split_and!; vm_compute; reflexivity. Qed.

(** While [refresh_leader] waits for peer 1, the configuration loses peer 2, the
    leader; the answer puts the leader back, outside of the configuration. *)
Definition table_0 : RouteTable := (update_configuration "g" (example_conf [1; 2; 3]) ∅).2.
Definition slow_net : Net RouteTable :=
  mkNet _ (fun _ => true) (fun _ _ m => (CliLeader "1:2:0:0", (update_configuration "g" (example_conf [1; 3]) m).2)).
Lemma route_leaves_the_configuration :
  let m := state_of (refresh_leader slow_net (fun m => m) (fun m _ => m) "g" table_0) in
  list_conf "g" m = (0, Some (example_conf [1; 3])) /\ select_leader "g" m = (0, Some (example_peer 2)).
Proof. split; vm_compute; reflexivity. Qed.

(** A server whose services were not all accepted is not registered, but keeps those
    it was given. *)
Lemma failed_add_service_leaves_services :
  add_service (Some (fun s => negb (bool_decide (s = CliService)))) (mkEndPoint 1 1) NodeManager_default =
    (ENEG1, NodeManager_default, [FileService; RaftService (mkEndPoint 1 1); RaftStatService]).
Proof. vm_compute. reflexivity. Qed.
